(* ===== verification/_CoqProject ===== *)
-Q . S2P
Prelude.v
ChainTypes.v
Merkle.v
FinalityCore.v
OrderedDiff.v
Policies.v
Qc.v
Raw.v
BlockHeader.v
BlockHeaderState.v
BlockState.v
Finalizer.v
VoteSafety.v
Branch.v
Safety.v
Liveness.v
NodeSafety.v
ForkDatabase.v
ResourceLimits.v
Names.v
Authority.v
Authorization.v
Permissions.v
Authorizing.v
MerkleLegacy.v
ProtocolFeatures.v
FeatureActivation.v
LegacyHeaderState.v
UndoIndex.v
UndoOrder.v
UndoHistory.v
UndoRepr.v
UndoSteps.v
UndoRestore.v
UndoSquash.v
UndoTable.v
ChainDatabase.v
DatabaseTables.v
ContractTables.v
ContractRows.v
ContractSpec.v
ContractRefinement.v
Contracts.v
ContractRam.v
TransactionContext.v
TransactionRun.v
TransactionLimits.v
Transactions.v
BlockValidation.v
TransactionExamples.v
