(* ===== verification/Prelude.v ===== *)
(** * Spring: a verification library for the Savanna consensus core

    Spring is a node of an Antelope blockchain.  Producers take turns to make
    blocks; finalizers vote for them; a block carries a quorum certificate (QC),
    made of votes, on one of its ancestors, and the certificates a branch has
    claimed decide which of its blocks is final.  This library models that part
    of the program, from the bytes of a block header to the fork database, and
    proves what makes it correct; the accounting of the resources that
    transactions use; the permissions of accounts, by which a transaction is
    authorized; the activation of protocol features; the (DPoS) state of the
    blocks before Savanna; the tables of the chain database and their undo
    sessions; the tables in it that contracts keep, with their iterators and the
    RAM that is billed for them; and the transactions of a block, as a producer
    pushes and a validator applies them.  It is a shallow embedding: a C++
    function is a Rocq function of the same name, with its state passed
    explicitly.

    ** The parts

    The sources are under [src/libraries/chain] ([include/eosio/chain] for the
    headers) unless said otherwise.

    - [Prelude]: exceptions and the [result] monad of fallible code, machine
      integers, and the lemmas and tactics the other files share.
    - [ChainTypes]: [fc::sha256], block ids and the number in them,
      [block_timestamp.hpp], producer rounds ([block_header_state_utils.hpp]).
    - [Merkle]: [merkle.hpp], [incremental_merkle.hpp].
    - [FinalityCore]: [finality_core.hpp/.cpp], the rule that decides which
      block is final: [next] takes the core of a block and the claim of the next
      block to the core of the next block.
    - [OrderedDiff]: [libfc/include/fc/container/ordered_diff.hpp], differences
      of vectors, in which policies travel.
    - [Policies]: [finalizer_policy.hpp], [proposer_policy.hpp],
      [producer_schedule.hpp], and the host functions of
      [webassembly/privileged.cpp] that propose policies.
    - [Qc]: [qc.hpp/.cpp], the verification of certificates ([verify_basic],
      [verify_signatures]) and the aggregation of votes ([aggregate_vote],
      [set_received_qc], [get_best_qc]).
    - [Raw]: [libfc/include/fc/io/raw.hpp], the binary format as codecs.
    - [BlockHeader]: [block_header.hpp/.cpp], header extensions, the block id.
    - [BlockHeaderState]: [block_header_state.hpp/.cpp], the header state of the
      next block, as its producer ([next_assembled]) and its receivers
      ([next_received]) make it, the promotion of policies, and the digests.
    - [BlockState]: [block_state.hpp/.cpp], signatures, votes and certificates
      of a block, and the validation tree.
    - [Finalizer]: [finalizer.hpp/.cpp] and [libfc/.../datastream_crc.hpp], the
      voting rule ([decide_vote]), the finalizers of a node and the safety file.
    - [VoteSafety], [Branch], [Safety], [NodeSafety], [Liveness]: no code of
      their own.  The first is an abstract account of the voting rule over a tree
      of blocks, given by the class [BlockTreeOk]; the second shows that the
      chains [BlockHeaderState] makes are such a tree; the third puts
      [decide_vote], [verify_qc] and [finish_next] together in a network of
      finalizers; the fourth puts the finalizers on nodes, with their safety
      files, failures and restarts; the last is about progress.
    - [ForkDatabase]: [fork_database.hpp/.cpp], the tree of reversible blocks.
    - [ResourceLimits]: [resource_limits.hpp/.cpp] and
      [resource_limits_private.hpp], moving averages of usage, elastic limits,
      the limits and usage of accounts, and [assemble_block_limits], what the
      controller does with them at the end of a block.
    - [Names]: [name.hpp], [name.cpp], names in 64 bits and as strings.
    - [Authority]: [authority.hpp], [authority_checker.hpp], whether keys,
      permissions and a delay satisfy an authority.
    - [Authorization]: [permission_object.hpp], [permission_link_object.hpp],
      [authorization_manager.cpp], and the native actions of
      [eosio_contract.cpp] on accounts and permissions.
    - [MerkleLegacy]: [merkle_legacy.hpp], [incremental_merkle_legacy.hpp].
    - [ProtocolFeatures]: [protocol_feature_manager.hpp/.cpp], the features that a
      node recognizes and the history of the active ones.
    - [FeatureActivation]: what [controller.cpp] does with features: its checks,
      preactivation, and the starting, aborting, committing and popping of blocks.
    - [LegacyHeaderState]: [block_header_state_legacy.hpp/.cpp],
      [block_state_legacy.cpp] and the schedules of [producer_schedule.hpp].
    - [UndoIndex]: [src/libraries/chaindb/include/chainbase/undo_index.hpp], a table
      of the chain database with its indices and undo sessions.
    - [UndoOrder], [UndoHistory], [UndoRepr], [UndoSteps], [UndoRestore],
      [UndoSquash], [UndoTable]: no code of their own.  What [UndoIndex] does to
      sequences in order; the history of a table as maps; how nodes, lists and
      indices represent it; the operations one by one; and the refinement of an
      abstract table.
    - [ChainDatabase]: [src/libraries/chaindb/include/chainbase/chainbase.hpp] and
      [src/chainbase.cpp] next to it, the class that opens, undoes, squashes and
      commits the sessions of all the tables together, adds tables, and refuses
      changes when it is read-only.
    - [DatabaseTables]: no code of its own.  [ChainDatabase] refines a list of
      abstract tables under one stack of sessions.
    - [ContractTables]: [apply_context.hpp/.cpp], [contract_table_objects.hpp],
      [add_ram_usage] of [transaction_context.cpp] and [webassembly/database.cpp]:
      the database functions of contracts ([db_store_i64] and its like, and
      [generic_index]), the iterators of an action ([iterator_cache]), and the
      billing of RAM ([update_db_usage], and the check at the end of [exec_one]).
    - [ContractRows], [ContractSpec], [ContractRefinement], [Contracts],
      [ContractRam]: no code of their own.  The rows of tables by primary key,
      with places in them for iterators; what each function promises of them;
      that it keeps the promise; histories of transactions of contracts; and the
      RAM that accounts are billed for.
    - [TransactionContext]: [transaction_context.hpp/.cpp], [push_transaction] and
      the loop of [apply_block] over transactions ([controller.cpp]), with the
      headers, metadata and receipts they use ([transaction.hpp],
      [transaction_metadata.hpp], [block.hpp]), the host function
      [set_resource_limits] and what [wasm_interface_private.hpp] does when the
      compilation of a contract interrupts it.
    - [TransactionRun], [TransactionLimits], [Transactions], [BlockValidation],
      [TransactionExamples]: no code of their own.  What a transaction keeps while
      it runs; what accounts are told that they can pay against what they are
      billed; what an accepted transaction has passed; that validators accept what
      producers push; and a chain with an account to try these on.
    - [Permissions], [Authorizing]: no code of their own.  The first is about the
      histories of the permission tables, the second states what it is for a
      transaction to be authorized and that [check_authorization] implements it.

    A call to [BlockHeaderState.finish_next] takes a [finality_core] through
    [FinalityCore.next], hashes with [Merkle], and reads policies and their
    differences from the extensions of [BlockHeader]; [BlockState] finds the
    policies of a certificate's block and hands both to [Qc]; [Finalizer] reads
    the core of a [block_state] and packs what it must remember with [Raw];
    [ForkDatabase] orders block states by the timestamps of their cores.
    [LegacyHeaderState] keeps its block ids in a tree of [MerkleLegacy] and asks
    [ProtocolFeatures] which signatures and schedules are allowed;
    [FeatureActivation] keeps a manager of [ProtocolFeatures] in step with the
    database.  [ContractTables] keeps its objects in tables as [UndoTable] shows
    those of [UndoIndex] to be, and bills RAM through [ResourceLimits].
    [TransactionContext] asks [Authorization] whether a transaction is authorized
    and bills its accounts through [ResourceLimits].

    ** Conventions

    - A w-bit unsigned integer is a [Z]; arithmetic that can wrap is written with
      [wrap32] or [wrap64], and the theorems say where it does not.
    - [Throw e] is a C++ exception of type [e], and [Throw assert_failed] an
      [assert] that fails or an access out of range.  A function that changes
      state and throws loses the change unless its comment says otherwise.
    - Code that is not in the repository is the argument of a section: the hash
      ([Sha256Hash]), the BLS library ([Bls], [BlsSign]), the recovery of keys
      ([RecoverKey]), the checksum ([Crc32]), the validity of keys ([KeyValid],
      [BlsKeyValid]).  What is relied on is a hypothesis; digests that are
      compared are said to collide when they are equal by accident (see
      [BlockHeaderState.collision]).  The witnesses use concrete instances.
    - A [shared_ptr] to an immutable object is the object.  Where identity
      matters it is modelled (see [BlockHeaderState.proposer_policy_slot]).
    - Operations that run under a mutex are atomic; histories are sequences of
      them, in any order ([Qc.agg_event], [Finalizer.node_run],
      [ForkDatabase.fork_db_run]).
    - Loops are structural where the code iterates over a container.  Where it
      follows links the fuel is the size of the container and one more; lookups
      in a well-formed fork database use at most as much
      ([ForkDatabase.walk_index]), so running out of it is not a behaviour.

    ** What the theorems show

    - Finality is safe ([Safety.finality_is_safe]): the final blocks of two
      branches are on one branch, when the faulty finalizers weigh less than the
      overlap of two quorums.  The policy is constant along the branches.  The
      same holds of a network of nodes ([NodeSafety.nodes_are_safe]), whose
      votes are those that [my_finalizers_t] gives out.  A key of a node is used
      by that node only, so a certificate with a strong vote of it is for a vote
      that the node has given out.
    - Finality advances ([Liveness]): a finalizer that follows one branch always
      votes strongly for its next block, and with the certificates of such votes
      a block is final two blocks later.
    - Finality core: the structural invariants hold along every chain and no
      assertion fails; the last final block moves exactly by the rule.
    - Voting: a finalizer never votes twice for a time, and never beyond what its
      safety file says, over restarts and failed saves; the file round-trips;
      [decide_vote] refines the abstract rule used by the safety argument.  A save
      that fails truncates the file, may leave any bytes in it, and may move the
      position from which the next saves write: when it goes past the head of the
      file and loses it, the file cannot be loaded any more
      ([Finalizer.lost_head_is_not_rewritten]), which the theorems about the file
      say ([head_kept]).  A file that a failed save has left torn is taken not to be
      read by a restart ([file_torn]): only a magic number and a checksum of 32 bits
      tell it from a whole one.
    - Certificates: the aggregator's state is what the votes it accepted say,
      what it returns verifies, verified certificates of a policy intersect in
      a correct finalizer.  The total weight of a policy is less than 2^31
      ([policies_ok]); for greater ones the sum of the weak votes is cut off
      ([Qc.max_weak_sum_before_weak_final_truncated]).
    - Header states: producers and receivers compute the same state; policies
      are promoted when they should be, and those of any reversible ancestor can
      be found; the finality digest binds what is voted for.
    - Fork database: however it is used, it is a tree over its root with the
      best block as its head; each operation does what its comment says.  When it
      is closed and opened again, each block is what packing and unpacking make of
      it ([fb_reopened], [reopened_block_state]).
    - Resource limits: the totals are the sums over the accounts, whatever is
      called; the end of a block never throws when they fit in 64 bits and the
      limits of a block are at most [ResourceLimits.block_limit_max], which is
      10^10, far above the defaults and small enough for every product (the code
      does not bound the limit of NET, and wraps with greater ones:
      [ResourceLimits.virtual_limit_wraps]); what an account is told it can use is
      exactly what its transactions are held to; the average of inputs of at most
      [m] is at most [m + 1].
    - Authorization: the permissions of an account are a tree under its [owner]
      permission, whatever native actions are applied and whatever producers the
      controller makes the authority of the producers' permissions; the authority
      checker accepts only what is satisfiable, and all of it where authorities have
      no cycles and are not too deep; there [check_authorization] lets exactly the
      authorized transactions through if keys may be left unused, and otherwise
      refuses one only for a key that it has not used.  The depth limit is the fuel of the
      checker, as in the code; the walk to the root of a tree of permissions has
      the number of permissions as its fuel.
    - Protocol features: the manager, which is not in the database, is always what
      reading the database would make it, over blocks that are aborted, refused
      and popped, and over restarts; an exception in [start_block] leaves no
      trace; an active feature has its dependencies active; what was preactivated
      can be activated.
    - DPoS: an irreversible block is confirmed by more than two thirds of the
      producers, each counted once, through any change of schedule; the header
      states of producers and receivers agree.  For the first, the number of blocks
      that a header says it confirms is taken not to go beyond the first block
      ([LegacyHeaderState.counts_within]; see
      [LegacyHeaderState.double_confirm_check_wraps]), a schedule to have at most
      125 producers, [max_producers].
    - Chain database: a table behaves as a map of objects with a stack of whole
      copies of the map, whatever is done with it: undoing restores exactly what a
      session began with, no pointer dangles, every index stays sorted and unique,
      and the delta of a session is exactly what it changed.  The orders of the
      indices are taken to be strict weak orders, constructors and modifiers to
      leave ids alone.  A modification that brings an object older than the session
      in conflict with another is left out: the code forgets the copy that the
      session had of it ([UndoTable.modify_conflict_forgets]).  All the tables of a database change
      together ([DatabaseTables.database_tables_change_together]): they always
      have the same sessions and revision, a table added while sessions are open
      joins them, and in read-only mode objects are not changed and no session is
      started.  The tables that a
      file holds are taken to be registered before sessions are used, and none
      while a session object lives.
    - Contracts: whatever transactions do, every database call returns, writes out
      and throws what it does for maps of primary keys to rows, one for each code,
      scope and table name and each index, with iterators as places in one map
      ([Contracts.contract_tables_are_maps]), as long as no call reads a table that
      was created and emptied in the same transaction, which the database has
      disposed of (see [Contracts.removed_table_dangles]); a contract changes the tables of its
      own account only; what accounts are billed for is, to the byte, what the rows
      and tables that they pay for take, and nobody is billed for more without
      having agreed.  There are fewer than 2^32 calls in all, so that the 32-bit
      counts of rows do not wrap; a buffer is shorter than 2^32 bytes; the order of
      the keys of each index is a strict weak order, which holds of floats because
      those that are not numbers are refused before.  A transaction that fails
      leaves no trace: its session is undone, as [DatabaseTables] shows.
    - Transactions: one for which a receipt is pushed is authorized, new, in its
      time and on this chain, is billed within the limits of the block, the
      configuration and its header, and every account billed could pay
      ([Transactions.accepted_transactions_are_checked]), unless the compilation of
      a contract has interrupted it: then it starts again without what was recorded
      of it before ([Transactions.uninterrupted],
      [TransactionExamples.interrupted_transaction_is_forgotten]); no account that was
      within its limit of memory leaves it, even when a transaction starts again;
      billing what passed the checks does not fail; and a block that a producer
      builds passes full validation with the same state and receipts
      ([BlockValidation.produced_blocks_are_valid]).  The contracts are a tree of
      calls that depends on what it reads from the database
      ([TransactionContext.execution]), the same tree for both, and the clock is
      any: a validator's timers must not run out, since nodes may be slower, nor may
      the compilation of a contract interrupt it.  The producer holds no account to
      less than the chain does: with a greylist, or a greylist limit below the
      greatest, it knows a lower limit, and accepts less.  The fields of the configuration have
      their 32 bits, and the average that an account uses in each slot is below
      10^12, where billing is said not to fail.
    - Formats and data structures: round trips of headers, policies and
      differences; both incremental Merkle trees are the Merkle trees.

    ** What is not modelled

    Of authorization: [checktime], deep-mind logging, the snapshots of the tables,
    and the unpacking of actions' data.
    Of features: their JSON files, and blocks applied without a database session
    (when irreversible blocks are replayed), which are never undone.
    Of the chain database: the balancing of the trees, the allocators and the
    memory file.
    Of contracts: the virtual machine, what their other host functions do, native
    actions (but those on permissions), inline and deferred actions; a database
    without sessions.
    Of transactions: those that are scheduled, their packing and the recovery of
    keys, action receipts and traces, what they propose for the block, and the
    rest of [apply_block], which checks the state of the block after them.
    A network whose finalizer policy changes; the controller's orchestration and
    its threads; the snapshots of legacy states; files
    other than the safety file; the network and producer plugins; logging and JSON.  The
    fork database's outer class, which holds a legacy and a Savanna database and
    the file's magic number, is not modelled; its operations forward to the
    modelled ones. *)

From Stdlib Require Export ZArith Lia.
From stdpp Require Export prelude gmap.

#[export] Set Default Goal Selector "!".

Declare Scope spring_scope.
Delimit Scope spring_scope with spring.

(** ** Exceptions and the result of a fallible operation *)

(** The exception types the modelled code throws.  [assert_failed] is a C++
    [assert] that does not hold, or an access out of the range of a container
    (undefined behaviour in C++): reaching it is always a defect. *)
Inductive exn : Set :=
| assert_failed
| fc_assert_exception
| chain_exception
| overflow_exception
| unlinkable_block_exception
| wrong_producer
| producer_schedule_exception
| invalid_block_header_extension
| block_validate_exception
| block_too_old_exception
| fork_database_exception
| fork_db_block_not_found
| invalid_qc
| invalid_qc_claim
| invalid_qc_signature
| finalizer_safety_exception
| rate_limiting_state_inconsistent
| resource_limit_exception
| tx_cpu_usage_exceeded
| tx_net_usage_exceeded
| block_resource_exhausted
| transaction_exception
| ram_usage_exceeded
| wasm_execution_error
| unactivated_key_type
| out_of_range_exception
| invalid_bls_public_key
| ill_formed_protocol_feature_activation
| wrong_signing_key
| std_out_of_range
| name_type_exception
| symbol_type_exception
| asset_type_exception
| permission_query_exception
| authorization_exception
| action_validate_exception
| irrelevant_auth_exception
| unlinkable_min_permission_action
| unsatisfied_authorization
| tx_irrelevant_sig
| missing_auth_exception
| account_name_exists_exception
| account_query_exception
| tx_not_found
| action_type_exception
| key_blacklist_exception
| protocol_feature_exception
| protocol_feature_validation_exception
| protocol_feature_iterator_exception
| subjective_block_production_exception
| protocol_feature_bad_block_exception
| producer_double_confirm
| no_block_signatures
| tx_too_big
| tx_no_auths
| tx_duplicate
| expired_tx_exception
| tx_exp_too_far_exception
| invalid_ref_block_exception
| disallowed_transaction_extensions_bad_block_exception
| actor_whitelist_exception
| actor_blacklist_exception
| block_net_usage_exceeded
| block_cpu_usage_exceeded
| greylist_net_usage_exceeded
| greylist_cpu_usage_exceeded
| deadline_exception
| leeway_deadline_exception
| interrupt_exception
| interrupt_oc_exception
| std_logic_error
| std_runtime_error
| table_not_in_cache
| invalid_table_iterator
| table_operation_not_permitted
| invalid_table_payer
| table_access_violation
| unauthorized_ram_usage_increase.

#[export] Instance exn_eq_dec : EqDecision exn.
Proof. solve_decision. Defined.

Inductive result (A : Type) : Type :=
| Ok (a : A)
| Throw (e : exn).
Arguments Ok {A} a.
Arguments Throw {A} e.

#[export] Instance result_ret : MRet result := fun A a => Ok a.
#[export] Instance result_bind : MBind result := fun A B f m =>
  match m with Ok a => f a | Throw e => Throw e end.
#[export] Instance result_fmap : FMap result := fun A B f m =>
  match m with Ok a => Ok (f a) | Throw e => Throw e end.

Definition is_ok {A} (m : result A) : bool := match m with Ok _ => true | Throw _ => false end.

(** The value of a result, [d] where there is none; examples use it. *)
Definition from_ok {A} (d : A) (m : result A) : A := match m with Ok a => a | Throw _ => d end.

Lemma from_ok_Ok {A} (d : A) (m : result A) : is_ok m = true -> m = Ok (from_ok d m).
Proof. by destruct m. Qed.

(** Reading an element that may be absent: out of range is [assert_failed]. *)
Definition at_or_assert {A} (o : option A) : result A :=
  match o with Some a => Ok a | None => Throw assert_failed end.

Notation "'ASSERT' b ';;' k" := (if b then k else Throw assert_failed)
  (at level 100, b at level 99, k at level 200, right associativity) : spring_scope.
Notation "'EOS_ASSERT' b ',,' e ';;' k" := (if b then k else Throw e)
  (at level 100, b at level 99, e at level 99, k at level 200, right associativity) : spring_scope.
Open Scope spring_scope.
Open Scope Z_scope.

(** A loop over a list whose body may throw. *)
Fixpoint foldM {A S} (f : S -> A -> result S) (s : S) (l : list A) : result S :=
  match l with
  | [] => Ok s
  | a :: l => s' ← f s a; foldM f s' l
  end.

(** ** Machine integers *)

Definition wrap32 (z : Z) : Z := z mod 2 ^ 32.
Definition wrap64 (z : Z) : Z := z mod 2 ^ 64.
Definition u32 (z : Z) : Prop := 0 <= z < 2 ^ 32.
Definition u64 (z : Z) : Prop := 0 <= z < 2 ^ 64.
Definition uint32_max : Z := 2 ^ 32 - 1.
Definition uint64_max : Z := 2 ^ 64 - 1.

(** The size of a vector, as the [size_t] the code compares indexes with. *)
Definition size_of {A} (l : list A) : Z := Z.of_nat (length l).

Lemma wrap32_id z : u32 z -> wrap32 z = z.
Proof. intros H. by apply Z.mod_small. Qed.

Lemma wrap64_id z : u64 z -> wrap64 z = z.
Proof. intros H. by apply Z.mod_small. Qed.

Lemma wrap32_u32 z : u32 (wrap32 z).
Proof. by apply Z.mod_pos_bound. Qed.

Lemma wrap64_u64 z : u64 (wrap64 z).
Proof. by apply Z.mod_pos_bound. Qed.

(** ** Automation *)

Create HintDb spring.
Create Rewrite HintDb spring.
#[export] Hint Resolve wrap32_u32 wrap64_u64 : spring.
#[export] Hint Rewrite @length_app @length_drop @length_take @length_map @length_fmap : spring.

Lemma bind_Ok {A B} (m : result A) (f : A -> result B) b :
  (m ≫= f) = Ok b -> exists a, m = Ok a /\ f a = Ok b.
Proof. destruct m as [a|e]; [by exists a | done]. Qed.

Lemma bind_Ok_iff {A B} (m : result A) (f : A -> result B) b :
  (m ≫= f) = Ok b <-> exists a, m = Ok a /\ f a = Ok b.
Proof. split; [apply bind_Ok | by intros (a & -> & ?)]. Qed.

Lemma at_or_assert_Ok {A} (o : option A) a : at_or_assert o = Ok a <-> o = Some a.
Proof. destruct o; cbn; split; congruence. Qed.

(** Takes apart a hypothesis [m = Ok a]: every guard on the way held. *)
Ltac inv_result :=
  repeat match goal with
  | H : Ok _ = Ok _ |- _ => injection H as H; try subst
  | H : Throw _ = Ok _ |- _ => discriminate H
  | H : Ok _ = Throw _ |- _ => discriminate H
  | H : (if ?b then _ else Throw _) = Ok _ |- _ =>
      let E := fresh "E" in destruct b eqn:E; [|discriminate H]
  | H : mbind _ _ = Ok _ |- _ =>
      let E := fresh "E" in
      apply bind_Ok in H; destruct H as (? & E & H); cbn beta in H
  | H : at_or_assert _ = Ok _ |- _ => apply at_or_assert_Ok in H
  end.

(** Splits on the comparisons of the goal. *)
Ltac case_comparison :=
  match goal with
  | |- context [?x <=? ?y] => destruct (Z.leb_spec x y)
  | |- context [?x <? ?y] => destruct (Z.ltb_spec x y)
  | |- context [?x =? ?y] => destruct (Z.eqb_spec x y)
  end.

(** Passes the next guard of the goal, which [tac] proves. *)
Ltac pass_with tac :=
  match goal with
  | |- context [if ?b then _ else Throw _] =>
      let E := fresh "E" in
      assert (E : b = true); [tac | rewrite E; clear E; cbn beta iota]
  end.

Ltac unfold_widths :=
  unfold u32, u64, uint32_max, uint64_max, size_of in *.

(** Linear arithmetic with quotients and remainders. *)
Ltac lia_div := Z.to_euclidean_division_equations; lia.

Ltac width := unfold_widths; autorewrite with spring in *; lia.

(** ** Lists *)

(** [adjacent R l]: every two neighbours of [l] are related by [R]. *)
Definition adjacent {A} (R : A -> A -> Prop) (l : list A) : Prop :=
  forall i x y, l !! i = Some x -> l !! S i = Some y -> R x y.

Section adjacent.
Context {A : Type} (R : A -> A -> Prop).
Implicit Types l : list A.

Lemma adjacent_nil : adjacent R [].
Proof. intros i x y H. by rewrite lookup_nil in H. Qed.

Lemma adjacent_singleton x : adjacent R [x].
Proof. by intros [|i] y z. Qed.

Lemma adjacent_cons x y l : adjacent R (x :: y :: l) <-> R x y /\ adjacent R (y :: l).
Proof.
  split.
  - intros H. split; [by apply (H 0%nat) | intros i a b Ha Hb; by apply (H (S i))].
  - intros [Hxy H] [|i] a b; cbn; [intros [= ->] [= ->]; done | by apply H].
Qed.

Lemma adjacent_drop n l : adjacent R l -> adjacent R (drop n l).
Proof.
  intros H i x y. rewrite !lookup_drop, Nat.add_succ_r. apply H.
Qed.

Lemma adjacent_snoc l x z :
  adjacent R l -> last l = Some z -> R z x -> adjacent R (l ++ [x]).
Proof.
  intros H Hz Hzx i a b Ha Hb. rewrite last_lookup in Hz.
  pose proof (lookup_lt_Some _ _ _ Hb) as Hlt. rewrite length_app in Hlt; cbn in Hlt.
  rewrite lookup_app_l in Ha by lia.
  destruct (decide (S i < length l)%nat).
  - rewrite lookup_app_l in Hb by done. by eapply H.
  - assert (S i = length l) as E by lia.
    rewrite lookup_app_r, E, Nat.sub_diag in Hb by lia. cbn in Hb.
    rewrite <- E in Hz; cbn in Hz. by simplify_eq.
Qed.

Lemma adjacent_trans `{!Transitive R} l i j x y :
  adjacent R l -> (i < j)%nat -> l !! i = Some x -> l !! j = Some y -> R x y.
Proof.
  intros H Hij Hx. revert y. induction j as [|j IH]; intros y Hy; [lia|].
  destruct (decide (i = j)) as [->|]; [by eapply H|].
  destruct (lookup_lt_is_Some_2 l j) as [z Hz].
  { apply lookup_lt_Some in Hy. lia. }
  etransitivity; [apply IH; [lia|done] | by eapply H].
Qed.
End adjacent.

Lemma adjacent_impl {A} (R S : A -> A -> Prop) l :
  (forall x y, R x y -> S x y) -> adjacent R l -> adjacent S l.
Proof. intros HRS H i x y Hx Hy. by eapply HRS, H. Qed.

(** A list of numbers increasing by one has its [i]-th element at its first
    plus [i]. *)
Lemma adjacent_succ_lookup {A} (f : A -> Z) (l : list A) i x y :
  adjacent (fun a b => f a + 1 = f b) l ->
  head l = Some x -> l !! i = Some y -> f y = f x + Z.of_nat i.
Proof.
  intros H Hx. revert y. induction i as [|i IH]; intros y Hy.
  - destruct l; cbn in *; simplify_eq. lia.
  - destruct (lookup_lt_is_Some_2 l i) as [z Hz].
    { apply lookup_lt_Some in Hy. lia. }
    specialize (IH z Hz). specialize (H _ _ _ Hz Hy). cbn in H. lia.
Qed.

Lemma last_drop {A} n (l : list A) :
  (n < length l)%nat -> last (drop n l) = last l.
Proof.
  intros H. rewrite !last_lookup, lookup_drop, length_drop. f_equal. lia.
Qed.

Lemma lookup_snoc {A} (l : list A) x : (l ++ [x]) !! length l = Some x.
Proof. by apply list_lookup_middle. Qed.

Lemma head_drop {A} n (l : list A) : head (drop n l) = l !! n.
Proof. by rewrite head_lookup, lookup_drop, Nat.add_0_r. Qed.

Lemma filter_all {A} (P : A -> Prop) {dec : forall x, Decision (P x)} (l : list A) :
  (forall x, x ∈ l -> P x) -> filter P l = l.
Proof.
  induction l as [|x l IH]; intros H; [done|].
  rewrite filter_cons_True by (apply H; by left). f_equal. apply IH. intros y Hy. apply H. by right.
Qed.

Lemma filter_none {A} (P : A -> Prop) {dec : forall x, Decision (P x)} (l : list A) :
  (forall x, x ∈ l -> ~ P x) -> filter P l = [].
Proof.
  induction l as [|x l IH]; intros H; [done|].
  rewrite filter_cons_False by (apply H; by left). apply IH. intros y Hy. apply H. by right.
Qed.

Lemma foldM_app {A S} (f : S -> A -> result S) s l1 l2 :
  foldM f s (l1 ++ l2) = (s' ← foldM f s l1; foldM f s' l2).
Proof.
  revert s. induction l1 as [|a l1 IH]; intros s; cbn; [done|].
  destruct (f s a); cbn; [apply IH | done].
Qed.

(** An invariant of the state that every step keeps holds after the loop. *)
Lemma foldM_ind {A S} (P : S -> Prop) (f : S -> A -> result S) l s s' :
  (forall s a s', a ∈ l -> P s -> f s a = Ok s' -> P s') ->
  P s -> foldM f s l = Ok s' -> P s'.
Proof.
  revert s. induction l as [|a l IH]; cbn; intros s Hf Hs H; inv_result; [done|].
  eapply IH; [| |exact H].
  - intros ????. apply Hf. by right.
  - eapply Hf; [by left|exact Hs|done].
Qed.

Lemma foldM_ext {A S} (f g : S -> A -> result S) s l : (forall s a, f s a = g s a) -> foldM f s l = foldM g s l.
Proof. intros H. revert s. induction l as [|a l IH]; intros s; cbn; [done|]. rewrite H. destruct (g s a); [apply IH|done]. Qed.

(** A fold does what another does, if each of its steps does. *)
Lemma foldM_simulates {A S T} (R : S -> T -> Prop) (f : S -> A -> result S) (g : T -> A -> result T) l :
  (forall s t a s', R s t -> f s a = Ok s' -> exists t', g t a = Ok t' /\ R s' t') ->
  forall s t s', R s t -> foldM f s l = Ok s' -> exists t', foldM g t l = Ok t' /\ R s' t'.
Proof.
  intros Hs. induction l as [|a l IH]; intros s t s' Hr H; cbn in *; [injection H as <-; by exists t|].
  apply bind_Ok in H as (s1 & H1 & H). destruct (Hs _ _ _ _ Hr H1) as (t1 & -> & Hr1). by eapply IH.
Qed.

(** ** Sums *)

Fixpoint Zsum (l : list Z) : Z := match l with [] => 0 | x :: l => x + Zsum l end.

Lemma Zsum_app l1 l2 : Zsum (l1 ++ l2) = Zsum l1 + Zsum l2.
Proof. induction l1 as [|x l1 IH]; cbn; lia. Qed.

Lemma Zsum_nonneg l : Forall (fun x => 0 <= x) l -> 0 <= Zsum l.
Proof. induction 1; cbn in *; lia. Qed.

Lemma Zsum_filter_le {A} (P : A -> Prop) {dec : forall x, Decision (P x)} (f : A -> Z) (l : list A) :
  Forall (fun x => 0 <= f x) l -> Zsum (map f (filter P l)) <= Zsum (map f l).
Proof.
  induction 1 as [|x l Hx _ IH]; [done|]. rewrite filter_cons. destruct (decide (P x)); cbn in *; lia.
Qed.

Lemma Zsum_map_nonneg {A} (f : A -> Z) (l : list A) :
  Forall (fun x => 0 <= f x) l -> 0 <= Zsum (map f l).
Proof. intros H. by apply Zsum_nonneg, Forall_map. Qed.

Lemma Zsum_filter_nonneg {A} (P : A -> Prop) {dec : forall x, Decision (P x)} (f : A -> Z) (l : list A) :
  Forall (fun x => 0 <= f x) l -> 0 <= Zsum (map f (filter P l)).
Proof.
  intros H. apply Zsum_map_nonneg, Forall_forall. intros x [_ Hx]%list_elem_of_filter.
  rewrite Forall_forall in H. by apply H.
Qed.

(** The sum of a value for each entry of a map. *)
Section map_sum.
Context {K A : Type} `{Countable K} (g : K -> A -> Z).
Implicit Types m : gmap K A.

Definition map_sum m : Z := map_fold (fun k a acc => g k a + acc) 0 m.

Lemma map_sum_empty : map_sum ∅ = 0.
Proof. done. Qed.

Lemma map_sum_insert_new m k a : m !! k = None -> map_sum (<[k := a]> m) = g k a + map_sum m.
Proof. intros Hk. unfold map_sum. rewrite map_fold_insert_L; [done| |done]. intros. lia. Qed.

Lemma map_sum_delete m k a : m !! k = Some a -> map_sum m = g k a + map_sum (delete k m).
Proof. intros Hk. rewrite <- (insert_delete_id m k a Hk) at 1. apply map_sum_insert_new, lookup_delete_eq. Qed.

Lemma map_sum_insert m k a : map_sum (<[k := a]> m) = g k a + map_sum (delete k m).
Proof. rewrite <- insert_delete_eq. apply map_sum_insert_new, lookup_delete_eq. Qed.

Lemma map_sum_nonneg m : (forall k a, m !! k = Some a -> 0 <= g k a) -> 0 <= map_sum m.
Proof.
  induction m as [|k a m Hk IH] using map_ind; intros Hg; [done|]. rewrite map_sum_insert_new by done.
  pose proof (Hg k a (lookup_insert_eq _ _ _)). enough (0 <= map_sum m) by lia.
  apply IH. intros k' a' Hk'. apply Hg. rewrite lookup_insert_ne; [done|congruence].
Qed.
End map_sum.
