(* ===== verification/ChainTypes.v ===== *)
(** * Basic chain types

    Digests and block ids ([fc/crypto/sha256.hpp], [fc/bitutil.hpp]), the block
    number stored in an id ([block_header.cpp]), block timestamps
    ([block_timestamp.hpp]) and producer rounds
    ([block_header_state_utils.hpp]).  The hash function itself is OpenSSL's:
    it is the class [Sha256Hash], an argument of every definition that
    hashes. *)

From S2P Require Import Prelude.

(** ** Byte order *)

Definition endian_reverse_u32 (x : Z) : Z :=
  Z.lor (Z.lor (Z.lor
    (Z.land (Z.shiftr x 24) 255)
    (Z.shiftl (Z.land (Z.shiftr x 16) 255) 8))
    (Z.shiftl (Z.land (Z.shiftr x 8) 255) 16))
    (Z.shiftl (Z.land x 255) 24).

(** The [n] bytes of a word as they lie in (little-endian) memory. *)
Fixpoint le_bytes (n : nat) (z : Z) : list Z :=
  match n with
  | O => []
  | S n => Z.land z 255 :: le_bytes n (Z.shiftr z 8)
  end.

(** ** Digests *)

Record sha256 : Set := Sha256 { hash0 : Z; hash1 : Z; hash2 : Z; hash3 : Z }.

#[export] Instance sha256_eq_dec : EqDecision sha256.
Proof. solve_decision. Defined.

#[export] Instance sha256_countable : Countable sha256.
Proof.
  refine (inj_countable'
    (fun h => (hash0 h, hash1 h, hash2 h, hash3 h))
    (fun t => let '(a, b, c, d) := t in Sha256 a b c d) _).
  by intros [].
Defined.

#[export] Instance sha256_inhabited : Inhabited sha256 := populate (Sha256 0 0 0 0).

(** A default-constructed digest is all zeros. *)
Definition sha256_default : sha256 := Sha256 0 0 0 0.

Definition sha256_is_empty (h : sha256) : bool :=
  Z.lor (Z.lor (Z.lor (hash0 h) (hash1 h)) (hash2 h)) (hash3 h) =? 0.

Definition sha256_data (h : sha256) : list Z :=
  le_bytes 8 (hash0 h) ++ le_bytes 8 (hash1 h) ++ le_bytes 8 (hash2 h) ++ le_bytes 8 (hash3 h).

(** [memcmp] of two byte strings of the same length. *)
Fixpoint memcmp (a b : list Z) : comparison :=
  match a, b with
  | x :: a, y :: b => match x ?= y with Eq => memcmp a b | c => c end
  | [], [] => Eq
  | [], _ :: _ => Lt
  | _ :: _, [] => Gt
  end.

Definition sha256_compare (h1 h2 : sha256) : comparison :=
  memcmp (sha256_data h1) (sha256_data h2).

Abbreviation digest_type := sha256.
Abbreviation block_id_type := sha256.

(** SHA-256 of a byte string (OpenSSL). *)
Class Sha256Hash : Type := sha256_hash : list Z -> sha256.

(** A digest is 256 bits. *)
Definition sha256_wf (h : sha256) : Prop :=
  u64 (hash0 h) /\ u64 (hash1 h) /\ u64 (hash2 h) /\ u64 (hash3 h).

Class Sha256Words (hasher : Sha256Hash) : Prop := sha256_words : forall bs, sha256_wf (hasher bs).

(** ** Block ids *)

Definition num_from_id (id : block_id_type) : Z := endian_reverse_u32 (wrap32 (hash0 id)).

(** The id made from a header's digest and its block number
    (the body of [block_header::calculate_id]). *)
Definition id_from_digest (digest : digest_type) (block_num : Z) : block_id_type :=
  let w := Z.land (hash0 digest) 0xffffffff00000000 in
  Sha256 (wrap64 (w + endian_reverse_u32 block_num)) (hash1 digest) (hash2 digest) (hash3 digest).

(** ** Block timestamps: a slot number, a [uint32_t] *)

Abbreviation block_timestamp_type := Z (only parsing).

Definition block_interval_ms : Z := 500.
Definition block_timestamp_epoch : Z := 946684800000.

Definition block_timestamp_next (slot : block_timestamp_type) : result block_timestamp_type :=
  EOS_ASSERT 1 <=? uint32_max - slot ,, overflow_exception ;;
  Ok (slot + 1).

(** Microseconds since the Unix epoch. *)
Definition to_time_point (slot : block_timestamp_type) : Z :=
  (slot * block_interval_ms + block_timestamp_epoch) * 1000.

Definition set_time_point (micro_since_epoch : Z) : block_timestamp_type :=
  let msec_since_epoch := Z.quot micro_since_epoch 1000 in
  wrap32 (wrap64 (msec_since_epoch - block_timestamp_epoch) / block_interval_ms).

(** ** Producer rounds *)

Definition producer_repetitions : Z := 12.

Definition get_current_round_start_slot (t : block_timestamp_type) : Z :=
  let index := t mod producer_repetitions in
  t - index.

Definition in_same_round (next curr : block_timestamp_type) : bool :=
  next <? wrap32 (get_current_round_start_slot curr + producer_repetitions).

Definition get_prior_round_start_slot (t : block_timestamp_type) : option Z :=
  if t <? producer_repetitions then None
  else Some (get_current_round_start_slot t - producer_repetitions).

Definition first_block_of_round (curr_block_time parent_block_time : block_timestamp_type) : result bool :=
  ASSERT parent_block_time <? curr_block_time ;;
  Ok (parent_block_time <? get_current_round_start_slot curr_block_time).

(** [t.slot % (n * 12) / 12]; with no producer the division is by zero. *)
Definition scheduled_producer_index (num_producers t : Z) : result Z :=
  ASSERT 0 <? num_producers ;;
  Ok (t mod (num_producers * producer_repetitions) / producer_repetitions).

Definition get_scheduled_producer {A} (producers : list A) (t : block_timestamp_type) : result A :=
  index ← scheduled_producer_index (size_of producers) t;
  at_or_assert (producers !! Z.to_nat index).

(** ** Byte order, proofs *)

Definition u8 (z : Z) : Prop := 0 <= z < 256.

(** A [uint32_t] is made of four bytes; reversing reverses them. *)
Lemma u32_bytes x : u32 x ->
  exists a b c d, u8 a /\ u8 b /\ u8 c /\ u8 d /\
    x = a * 2 ^ 24 + b * 2 ^ 16 + c * 2 ^ 8 + d.
Proof.
  intros H. unfold u32, u8 in *.
  change (2 ^ 32) with 4294967296 in H. change (2 ^ 24) with 16777216.
  change (2 ^ 16) with 65536. change (2 ^ 8) with 256.
  exists (x / 16777216), (x / 65536 mod 256), (x / 256 mod 256), (x mod 256).
  repeat split; lia_div.
Qed.

Lemma lor_shiftl_add a b n : 0 <= a < 2 ^ n -> 0 <= n -> Z.lor a (Z.shiftl b n) = a + b * 2 ^ n.
Proof.
  intros Ha Hn. rewrite <- Z.shiftl_mul_pow2 by done.
  symmetry. rewrite Z.add_nocarry_lxor; [apply Z.lxor_lor|].
  all: apply Z.bits_inj'; intros i Hi; rewrite Z.land_spec, Z.bits_0;
    rewrite Z.shiftl_spec by done;
    destruct (Z.lt_ge_cases i n) as [Hlt|Hge];
    [by rewrite (Z.testbit_neg_r b), andb_false_r by lia|].
  all: rewrite <- (Z.mod_small a (2 ^ n)) by done;
    by rewrite Z.mod_pow2_bits_high by lia.
Qed.

Lemma byte_at x n : Z.land (Z.shiftr x n) 255 = Z.shiftr x n mod 256.
Proof. apply (Z.land_ones _ 8). lia. Qed.

Lemma endian_reverse_u32_eq a b c d :
  u8 a -> u8 b -> u8 c -> u8 d ->
  endian_reverse_u32 (a * 2 ^ 24 + b * 2 ^ 16 + c * 2 ^ 8 + d)
  = d * 2 ^ 24 + c * 2 ^ 16 + b * 2 ^ 8 + a.
Proof.
  intros Ha Hb Hc Hd. unfold endian_reverse_u32, u8 in *.
  set (x := a * 2 ^ 24 + b * 2 ^ 16 + c * 2 ^ 8 + d).
  replace (Z.land x 255) with (Z.land (Z.shiftr x 0) 255) by (by rewrite Z.shiftr_0_r).
  rewrite !byte_at, !Z.shiftr_div_pow2 by lia.
  assert (x / 2 ^ 24 mod 256 = a) as -> by (subst x; lia_div).
  assert (x / 2 ^ 16 mod 256 = b) as -> by (subst x; lia_div).
  assert (x / 2 ^ 8 mod 256 = c) as -> by (subst x; lia_div).
  assert (x / 2 ^ 0 mod 256 = d) as -> by (subst x; lia_div).
  rewrite (lor_shiftl_add a), (lor_shiftl_add (_ + _)), (lor_shiftl_add (_ + _)) by lia. lia.
Qed.

Lemma endian_reverse_u32_involutive x : u32 x -> endian_reverse_u32 (endian_reverse_u32 x) = x.
Proof.
  intros (a & b & c & d & ? & ? & ? & ? & ->)%u32_bytes.
  by rewrite !endian_reverse_u32_eq.
Qed.

Lemma endian_reverse_u32_u32 x : u32 x -> u32 (endian_reverse_u32 x).
Proof.
  intros (a & b & c & d & ? & ? & ? & ? & ->)%u32_bytes.
  rewrite endian_reverse_u32_eq by done. unfold u32, u8 in *. lia.
Qed.

Lemma num_from_id_u32 id : u32 (num_from_id id).
Proof. apply endian_reverse_u32_u32, wrap32_u32. Qed.
#[export] Hint Resolve num_from_id_u32 endian_reverse_u32_u32 : spring.

(** ** Digests, proofs *)

Lemma le_bytes_inj n a b :
  0 <= a < 2 ^ (8 * Z.of_nat n) -> 0 <= b < 2 ^ (8 * Z.of_nat n) ->
  le_bytes n a = le_bytes n b -> a = b.
Proof.
  revert a b. induction n as [|n IH]; intros a b Ha Hb; cbn [le_bytes]; [cbn in *; lia|].
  intros [= Hlow Hrest]. rewrite !(Z.land_ones _ 8) in Hlow by lia.
  replace (8 * Z.of_nat (S n)) with (8 * Z.of_nat n + 8) in * by lia.
  rewrite Z.pow_add_r in * by lia.
  apply IH in Hrest; rewrite !Z.shiftr_div_pow2 in * by lia; lia_div.
Qed.

Lemma length_le_bytes n a : length (le_bytes n a) = n.
Proof. revert a. induction n; intros; cbn; auto. Qed.

Lemma sha256_data_inj h1 h2 :
  sha256_wf h1 -> sha256_wf h2 -> sha256_data h1 = sha256_data h2 -> h1 = h2.
Proof.
  destruct h1 as [a1 b1 c1 d1], h2 as [a2 b2 c2 d2]. intros (W1&W2&W3&W4) (V1&V2&V3&V4).
  unfold sha256_data; cbn [hash0 hash1 hash2 hash3] in *. intros H.
  apply app_inj_1 in H as [Ha H']; [|by rewrite !length_le_bytes].
  apply app_inj_1 in H' as [Hb H'']; [|by rewrite !length_le_bytes].
  apply app_inj_1 in H'' as [Hc Hd]; [|by rewrite !length_le_bytes].
  unfold u64 in *. f_equal; by apply (le_bytes_inj 8).
Qed.

Lemma memcmp_refl a : memcmp a a = Eq.
Proof. induction a; cbn; [done|by rewrite Z.compare_refl]. Qed.

Lemma memcmp_eq a b : memcmp a b = Eq -> a = b.
Proof.
  revert b. induction a as [|x a IH]; intros [|y b]; cbn; try done.
  destruct (Z.compare_spec x y); [|done..]. intros ?%IH. by subst.
Qed.

Lemma memcmp_antisym a b : memcmp b a = CompOpp (memcmp a b).
Proof.
  revert b. induction a as [|x a IH]; intros [|y b]; cbn; try done.
  rewrite (Z.compare_antisym x y). by destruct (x ?= y); cbn.
Qed.

Lemma memcmp_trans a b c : memcmp a b = Lt -> memcmp b c = Lt -> memcmp a c = Lt.
Proof.
  revert b c. induction a as [|x a IH]; intros [|y b] [|z c]; cbn; try done.
  destruct (Z.compare_spec x y) as [<-|Hxy|Hxy]; [| |done].
  - destruct (x ?= z); [apply IH|done..].
  - intros _. destruct (Z.compare_spec y z) as [<-|Hyz|Hyz]; [| |done]; intros _.
    + by rewrite (proj2 (Z.compare_lt_iff x y)).
    + by rewrite (proj2 (Z.compare_lt_iff x z)) by lia.
Qed.

(** [sha256_compare] is a total order on digests. *)
Lemma sha256_compare_refl a : sha256_compare a a = Eq.
Proof. apply memcmp_refl. Qed.

Lemma sha256_compare_eq a b : sha256_wf a -> sha256_wf b -> sha256_compare a b = Eq -> a = b.
Proof. intros Ha Hb H. apply sha256_data_inj; [done..|]. by apply memcmp_eq. Qed.

Lemma sha256_compare_antisym a b : sha256_compare b a = CompOpp (sha256_compare a b).
Proof. apply memcmp_antisym. Qed.

Lemma sha256_compare_trans a b c : sha256_compare a b = Lt -> sha256_compare b c = Lt -> sha256_compare a c = Lt.
Proof. apply memcmp_trans. Qed.

(** ** Block ids, proofs *)

Lemma land_high_half x : u64 x -> Z.land x 0xffffffff00000000 = x / 2 ^ 32 * 2 ^ 32.
Proof.
  intros Hx. replace 0xffffffff00000000 with (Z.shiftl (Z.ones 32) 32) by done.
  rewrite <- Z.shiftl_mul_pow2, <- Z.shiftr_div_pow2 by lia.
  apply Z.bits_inj'; intros i Hi.
  rewrite Z.land_spec, !Z.shiftl_spec by done.
  destruct (Z.lt_ge_cases i 32); [by rewrite !(Z.testbit_neg_r _ (i - 32)), andb_false_r by lia|].
  rewrite Z.shiftr_spec by lia. replace (i - 32 + 32) with i by lia.
  destruct (Z.lt_ge_cases i 64).
  - by rewrite Z.ones_spec_low, andb_true_r by lia.
  - rewrite Z.ones_spec_high, andb_false_r by lia. symmetry.
    rewrite <- (Z.mod_small x (2 ^ 64)) by done. by apply Z.mod_pow2_bits_high; lia.
Qed.

(** the number stored in a block id is the number it was made from, and the
    other 224 bits are those of the digest. *)
Lemma num_from_id_from_digest d n :
  u64 (hash0 d) -> u32 n -> num_from_id (id_from_digest d n) = n.
Proof.
  intros Hd Hn. unfold num_from_id, id_from_digest; cbn [hash0].
  rewrite land_high_half by done. unfold wrap32, wrap64.
  pose proof (endian_reverse_u32_u32 n Hn) as Hr. unfold u32 in Hr.
  rewrite Z.mod_mod_divide by (by exists (2 ^ 32)).
  rewrite Z.add_comm, Z.mod_add, Z.mod_small by lia.
  by apply endian_reverse_u32_involutive.
Qed.

(** ** Timestamps, proofs *)

Lemma set_time_point_to_time_point slot :
  u32 slot -> set_time_point (to_time_point slot) = slot.
Proof.
  intros H. unfold u32, set_time_point, to_time_point in *.
  rewrite Z.quot_mul by done. unfold block_timestamp_epoch, block_interval_ms.
  replace (slot * 500 + 946684800000 - 946684800000) with (slot * 500) by lia.
  rewrite wrap64_id by (unfold u64; lia). rewrite Z.div_mul by done.
  by apply wrap32_id.
Qed.

(** ** Rounds, proofs *)

Lemma round_start t : get_current_round_start_slot t = t / producer_repetitions * producer_repetitions.
Proof. unfold get_current_round_start_slot, producer_repetitions. lia_div. Qed.

(** The last partial round of the 32-bit slot space is left out: there
    [start + 12] wraps. *)
Lemma in_same_round_spec next curr :
  0 <= curr -> curr < next -> next < 2 ^ 32 - 16 ->
  in_same_round next curr = bool_decide (next / producer_repetitions = curr / producer_repetitions).
Proof.
  intros ???. unfold in_same_round. rewrite round_start. unfold producer_repetitions.
  rewrite wrap32_id by (unfold u32; lia_div).
  case_bool_decide as E; [apply Z.ltb_lt|apply Z.ltb_ge]; lia_div.
Qed.

Lemma first_block_of_round_spec curr parent :
  0 <= parent -> parent < curr ->
  first_block_of_round curr parent
  = Ok (bool_decide (parent / producer_repetitions < curr / producer_repetitions)).
Proof.
  intros ??. unfold first_block_of_round. rewrite round_start. unfold producer_repetitions.
  rewrite (proj2 (Z.ltb_lt parent curr)) by done. f_equal.
  case_bool_decide as E; [apply Z.ltb_lt|apply Z.ltb_ge]; lia_div.
Qed.

Lemma scheduled_producer_index_range n t :
  0 < n -> 0 <= t -> exists i, scheduled_producer_index n t = Ok i /\ 0 <= i < n.
Proof.
  intros Hn Ht. unfold scheduled_producer_index, producer_repetitions.
  exists (t mod (n * 12) / 12). split.
  - by pass_with ltac:(lia).
  - pose proof (Z.mod_pos_bound t (n * 12)). split; [apply Z.div_pos; lia|].
    apply Z.div_lt_upper_bound; lia.
Qed.

(** a non-empty schedule gives a producer for every slot; the slots of one
    round of twelve have the same producer, and the next round has the next
    producer of the schedule, the first again after the last. *)
Lemma scheduled_producer_index_rotation n t :
  0 < n -> 0 <= t ->
  exists i, scheduled_producer_index n t = Ok i
    /\ i = t / producer_repetitions mod n
    /\ scheduled_producer_index n (t + producer_repetitions)
       = Ok (if i + 1 =? n then 0 else i + 1).
Proof.
  intros Hn Ht.
  assert (Hq : forall s, 0 <= s -> s mod (n * 12) / 12 = s / 12 mod n).
  { intros s Hs. rewrite (Z.mul_comm n), Z.rem_mul_r by lia.
    rewrite Z.mul_comm, Z.div_add by lia. rewrite (Z.div_small (s mod 12)); lia_div. }
  exists (t / producer_repetitions mod n).
  unfold scheduled_producer_index, producer_repetitions.
  rewrite (proj2 (Z.ltb_lt 0 n)) by done. rewrite !Hq by lia.
  split_and!; [done..|]. f_equal.
  replace ((t + 12) / 12) with (t / 12 + 1) by lia_div.
  pose proof (Z.mod_pos_bound (t / 12) n Hn).
  destruct (Z.eqb_spec (t / 12 mod n + 1) n) as [E|E].
  - rewrite <- Z.add_mod_idemp_l, E, Z.mod_same; lia.
  - rewrite <- Z.add_mod_idemp_l by lia. apply Z.mod_small. lia.
Qed.

(** ** A hash function to run the examples with *)

(** A checksum of four lanes; it stands for SHA-256 where a witness needs a
    concrete function. *)
Definition example_lane (seed : Z) (bs : list Z) : Z :=
  foldl (fun acc b => Z.land (acc * 31 + b + seed) 0xffff) (seed * 4099) bs.

Definition example_hash : Sha256Hash := fun bs =>
  Sha256 (wrap64 (example_lane 1 bs)) (wrap64 (example_lane 2 bs))
    (wrap64 (example_lane 3 bs)) (wrap64 (example_lane 4 bs)).

Lemma example_hash_words : Sha256Words example_hash.
Proof. intros bs. split_and!; apply wrap64_u64. Qed.

(** ** The properties at concrete values *)

Lemma num_from_id_from_digest_witness :
  num_from_id (id_from_digest (example_hash [1; 2; 3]) 1000) = 1000.
Proof. apply (num_from_id_from_digest (example_hash [1; 2; 3]) 1000); by vm_compute. Defined.

Lemma set_time_point_to_time_point_witness :
  set_time_point (to_time_point 1600000000) = 1600000000.
Proof. apply (set_time_point_to_time_point 1600000000). by vm_compute. Defined.

Lemma in_same_round_spec_witness :
  in_same_round 131 122 = bool_decide (131 / producer_repetitions = 122 / producer_repetitions).
Proof. apply (in_same_round_spec 131 122); by vm_compute. Defined.

Lemma first_block_of_round_spec_witness :
  first_block_of_round 132 122 = Ok (bool_decide (122 / producer_repetitions < 132 / producer_repetitions)).
Proof. apply (first_block_of_round_spec 132 122); by vm_compute. Defined.

Lemma scheduled_producer_index_rotation_witness :
  exists i, scheduled_producer_index 21 251 = Ok i
    /\ i = 251 / producer_repetitions mod 21
    /\ scheduled_producer_index 21 (251 + producer_repetitions) = Ok (if i + 1 =? 21 then 0 else i + 1).
Proof. apply (scheduled_producer_index_rotation 21 251); by vm_compute. Defined.
