(* ===== verification/Merkle.v ===== *)
(** * Merkle trees

    [calculate_merkle] over a sequence of digests ([merkle.hpp]) and the
    [incremental_merkle_tree] ([incremental_merkle.hpp]).  A range of iterators
    is the list of the digests it delimits.  The recursions are by the length of
    the range and by the bits of the 64-bit mask left to look at; both are
    total.  The thread pool is not modelled: a posted task is its result. *)

From Equations Require Import Equations.
From S2P Require Import Prelude ChainTypes.

Section Merkle.
Context {hasher : Sha256Hash}.

(** ** Definitions *)

Definition hash_combine (a b : digest_type) : digest_type :=
  sha256_hash (sha256_data a ++ sha256_data b).

(** [std::bit_floor] *)
Definition bit_floor (n : nat) : nat :=
  match n with O => O | _ => (2 ^ Nat.log2 n)%nat end.

(** The single-threaded instance ([async = false]). *)
Equations? calculate_merkle_pow2_seq (l : list digest_type) : result digest_type
  by wf (length l) lt :=
calculate_merkle_pow2_seq l with le_lt_dec (length l) 1 => {
  | left _ := Throw assert_failed;
  | right Hlen with decide (bit_floor (length l) = length l) => {
    | right _ := Throw assert_failed;
    | left _ with decide (length l = 2%nat) => {
      | left _ :=
          a ← at_or_assert (l !! 0%nat); b ← at_or_assert (l !! 1%nat);
          Ok (hash_combine a b);
      | right _ :=
          a ← calculate_merkle_pow2_seq (take (length l / 2) l);
          b ← calculate_merkle_pow2_seq (drop (length l / 2) l);
          Ok (hash_combine a b) } } }.
Proof.
  all: rewrite ?length_take, ?length_drop;
    pose proof (Nat.div_lt (length l) 2); pose proof (Nat.div_str_pos (length l) 2); lia.
Qed.

(** The [i]-th of the slices of a range. *)
Definition slice (slice_size i : nat) (l : list digest_type) : list digest_type :=
  take slice_size (drop (slice_size * i) l).

(** The roots of [num_threads] slices, computed by as many tasks, and the root
    of those. *)
Definition async_calculate_merkle_pow2 (num_threads : nat) (l : list digest_type) : result digest_type :=
  let slice_size := (length l / num_threads)%nat in
  res ← foldM (fun acc i => d ← calculate_merkle_pow2_seq (slice slice_size i l); Ok (acc ++ [d]))
          [] (seq 0 num_threads);
  calculate_merkle_pow2_seq res.

Definition calculate_merkle_pow2 (async : bool) (l : list digest_type) : result digest_type :=
  ASSERT bool_decide (2 <= length l)%nat ;;
  ASSERT bool_decide (bit_floor (length l) = length l) ;;
  if async && negb (length l =? 2)%nat && bool_decide (256 <= length l)%nat then
    if bool_decide (2048 <= length l)%nat then async_calculate_merkle_pow2 4 l
    else async_calculate_merkle_pow2 2 l
  else calculate_merkle_pow2_seq l.

Equations? calculate_merkle (l : list digest_type) : result digest_type
  by wf (length l) lt :=
calculate_merkle l with le_lt_dec (length l) 1 => {
  | left _ := Ok (match l with [] => sha256_default | d :: _ => d end);
  | right Hlen with decide (length l = bit_floor (length l)) => {
    | left _ := calculate_merkle_pow2 true l;
    | right _ :=
        a ← calculate_merkle_pow2 true (take (bit_floor (length l)) l);
        b ← calculate_merkle (drop (bit_floor (length l)) l);
        Ok (hash_combine a b) } }.
Proof.
  rewrite length_drop. destruct (length l) as [|k]; [lia|].
  unfold bit_floor. pose proof (Nat.pow_nonzero 2 (Nat.log2 (S k))). lia.
Qed.

Record incremental_merkle_tree : Type :=
  IncrementalMerkleTree { mask : Z; trees : list digest_type }.

Definition empty_merkle_tree : incremental_merkle_tree := IncrementalMerkleTree 0 [].

(** Shifting a [uint64_t] by 64 or more is undefined. *)
Definition is_bit_set (m : Z) (idx : nat) : result bool :=
  ASSERT bool_decide (idx < 64)%nat ;; Ok (negb (Z.land m (Z.shiftl 1 (Z.of_nat idx)) =? 0)).
Definition set_bit (m : Z) (idx : nat) : Z := Z.lor m (Z.shiftl 1 (Z.of_nat idx)).
Definition clear_bit (m : Z) (idx : nat) : Z := Z.land m (Z.lnot (Z.shiftl 1 (Z.of_nat idx))).

(** [std::popcount] of a [uint64_t] *)
Definition popcount (m : Z) : nat :=
  length (filter (fun i => Z.testbit m (Z.of_nat i) = true) (seq 0 64)).

(** [slot] is the position of the insertion iterator. *)
Equations? _append (digest : digest_type) (slot idx : nat) (t : incremental_merkle_tree) :
    result incremental_merkle_tree by wf (64 - idx)%nat lt :=
_append digest slot idx t with le_lt_dec 64 idx => {
  | left _ := Throw assert_failed;
  | right Hidx :=
      b0 ← is_bit_set (mask t) idx;
      if (b0 : bool) then
        b1 ← is_bit_set (mask t) (idx + 1);
        if (b1 : bool) then
          ASSERT bool_decide (2 <= slot)%nat ;;
          d1 ← at_or_assert (trees t !! (slot - 1)%nat);
          d2 ← at_or_assert (trees t !! (slot - 2)%nat);
          let m := clear_bit (clear_bit (mask t) idx) (idx + 1) in
          let d := hash_combine d2 (hash_combine d1 digest) in
          _append d (slot - 2) (idx + 2)
            (IncrementalMerkleTree m (take (slot - 2) (trees t) ++ drop slot (trees t)))
        else
          ASSERT bool_decide (1 <= slot)%nat ;;
          d1 ← at_or_assert (trees t !! (slot - 1)%nat);
          Ok (IncrementalMerkleTree (set_bit (clear_bit (mask t) idx) (idx + 1))
                (<[(slot - 1)%nat := hash_combine d1 digest]> (trees t)))
      else
        Ok (IncrementalMerkleTree (set_bit (mask t) idx)
              (take slot (trees t) ++ [digest] ++ drop slot (trees t))) }.
Proof. lia. Qed.

Definition append (t : incremental_merkle_tree) (digest : digest_type) : result incremental_merkle_tree :=
  ASSERT (length (trees t) =? popcount (mask t))%nat ;;
  t' ← _append digest (length (trees t)) 0 t;
  ASSERT (length (trees t') =? popcount (mask t'))%nat ;;
  Ok t'.

(** The combination of the trees from the largest on. *)
Fixpoint _get_root (ts : list digest_type) : result digest_type :=
  match ts with
  | [] => Throw assert_failed
  | [d] => Ok d
  | d :: ts => r ← _get_root ts; Ok (hash_combine d r)
  end.

Definition get_root (t : incremental_merkle_tree) : result digest_type :=
  if mask t =? 0 then Ok sha256_default
  else
    ASSERT negb (bool_decide (trees t = [])) ;;
    _get_root (trees t).

Definition num_digests_appended (t : incremental_merkle_tree) : Z := mask t.

(** ** The root of a full tree *)

(** The root of the full binary tree of rank [r] over [2 ^ r] digests. *)
Fixpoint perfect (r : nat) (l : list digest_type) : digest_type :=
  match r with
  | O => match l with d :: _ => d | [] => sha256_default end
  | S r => hash_combine (perfect r (take (2 ^ r) l)) (perfect r (drop (2 ^ r) l))
  end.

Lemma pow2_pos r : (0 < 2 ^ r)%nat.
Proof. pose proof (Nat.pow_nonzero 2 r). lia. Qed.

Lemma bit_floor_unique r n : (2 ^ r <= n < 2 ^ S r)%nat -> bit_floor n = (2 ^ r)%nat.
Proof.
  intros H. pose proof (pow2_pos r). unfold bit_floor.
  destruct n; [lia|]. f_equal. apply Nat.log2_unique; lia.
Qed.

Lemma bit_floor_pow2 r : bit_floor (2 ^ r) = (2 ^ r)%nat.
Proof. apply bit_floor_unique. pose proof (pow2_pos r). cbn. lia. Qed.

Lemma pow2_half r : (2 ^ S r / 2)%nat = (2 ^ r)%nat.
Proof. rewrite Nat.pow_succ_r', Nat.mul_comm. by apply Nat.div_mul. Qed.

Lemma calculate_merkle_pow2_seq_perfect r l :
  (1 <= r)%nat -> length l = (2 ^ r)%nat -> calculate_merkle_pow2_seq l = Ok (perfect r l).
Proof.
  revert l. induction r as [|r IH]; intros l Hr Hl; [lia|]. clear Hr.
  pose proof (pow2_pos r). assert (length l = 2 ^ r + 2 ^ r)%nat as Hl2 by (rewrite Hl; cbn; lia).
  simp calculate_merkle_pow2_seq. destruct (le_lt_dec (length l) 1); [lia|]. cbn.
  destruct (decide (bit_floor _ = _)) as [Hfl|E]; [|destruct E; by rewrite Hl, bit_floor_pow2].
  cbn [perfect]. cbn.
  destruct (decide _) as [E|E].
  - destruct r; [|exfalso; cbn in Hl2; pose proof (pow2_pos r); lia].
    destruct l as [|a [|b [|c l]]]; cbn in Hl; try lia. done.
  - assert (1 <= r)%nat by (destruct r; [by destruct E | lia]).
    assert ((length l / 2)%nat = (2 ^ r)%nat) as Hh by (rewrite Hl; apply pow2_half).
    cbn [calculate_merkle_pow2_seq_unfold_clause_1_clause_2_clause_2]. rewrite Hh.
    rewrite !IH by (rewrite ?length_take, ?length_drop; lia). done.
Qed.

Lemma pow2_S r : (2 ^ S r = 2 ^ r + 2 ^ r)%nat.
Proof. cbn. lia. Qed.

Lemma perfect_four a b c d :
  perfect 2 [a; b; c; d] = hash_combine (hash_combine a b) (hash_combine c d).
Proof. done. Qed.

Lemma async_calculate_merkle_pow2_perfect k r l :
  k = 1%nat \/ k = 2%nat -> (k < r)%nat -> length l = (2 ^ r)%nat ->
  async_calculate_merkle_pow2 (2 ^ k) l = Ok (perfect r l).
Proof.
  intros Hk Hr Hl. unfold async_calculate_merkle_pow2.
  assert (Hs : (length l / 2 ^ k = 2 ^ (r - k))%nat).
  { rewrite Hl. replace r with (k + (r - k))%nat at 1 by lia.
    rewrite Nat.pow_add_r, Nat.mul_comm. apply Nat.div_mul, Nat.pow_nonzero. lia. }
  rewrite Hs. set (s := (r - k)%nat) in *.
  assert (Hslice : forall i, (i < 2 ^ k)%nat ->
    calculate_merkle_pow2_seq (slice (2 ^ s) i l) = Ok (perfect s (slice (2 ^ s) i l))).
  { intros i Hi. apply calculate_merkle_pow2_seq_perfect; [lia|].
    unfold slice. rewrite length_take, length_drop, Hl.
    replace r with (k + s)%nat by lia. rewrite Nat.pow_add_r. nia. }
  destruct Hk as [-> | ->]; cbn in Hslice |- *.
  - rewrite (Hslice 0%nat) by lia. cbn. rewrite (Hslice 1%nat) by lia. cbn.
    rewrite (calculate_merkle_pow2_seq_perfect 1) by (cbn; lia).
    replace r with (S s) by lia. cbn. unfold slice.
    rewrite Nat.mul_0_r, Nat.mul_1_r, drop_0. do 3 f_equal.
    apply take_ge. rewrite length_drop, Hl. replace r with (S s) by lia. cbn. lia.
  - rewrite (Hslice 0%nat) by lia. cbn. rewrite (Hslice 1%nat) by lia. cbn.
    rewrite (Hslice 2%nat) by lia. cbn. rewrite (Hslice 3%nat) by lia. cbn.
    rewrite (calculate_merkle_pow2_seq_perfect 2) by (cbn; lia).
    rewrite perfect_four. replace r with (S (S s)) by lia. cbn [perfect]. unfold slice.
    rewrite pow2_S, Nat.mul_0_r, Nat.mul_1_r, drop_0, take_take, drop_drop, !skipn_firstn_comm.
    replace (2 ^ s `min` (2 ^ s + 2 ^ s))%nat with (2 ^ s)%nat by lia.
    replace (2 ^ s + 2 ^ s - 2 ^ s)%nat with (2 ^ s)%nat by lia.
    replace (2 ^ s * 2)%nat with (2 ^ s + 2 ^ s)%nat by lia.
    replace (2 ^ s * 3)%nat with (2 ^ s + 2 ^ s + 2 ^ s)%nat by lia.
    do 3 f_equal. f_equal. apply take_ge. rewrite length_drop, Hl.
    replace r with (S (S s)) by lia. rewrite !pow2_S. lia.
Qed.

(** The single-threaded and the multi-threaded computations of a full tree agree. *)
Lemma calculate_merkle_pow2_perfect async r l :
  (1 <= r)%nat -> length l = (2 ^ r)%nat -> calculate_merkle_pow2 async l = Ok (perfect r l).
Proof.
  intros Hr Hl. unfold calculate_merkle_pow2.
  assert (2 <= length l)%nat.
  { rewrite Hl. destruct r; [lia|]. pose proof (pow2_pos r). cbn. lia. }
  pass_with ltac:(by apply bool_decide_eq_true).
  pass_with ltac:(apply bool_decide_eq_true; by rewrite Hl, bit_floor_pow2).
  destruct (async && _ && _) eqn:E.
  - assert (256 <= length l)%nat as H256.
    { apply andb_true_iff in E as [_ E]. by apply bool_decide_eq_true in E. }
    assert (2 < r)%nat.
    { rewrite Hl in H256. destruct r as [|[|[|r]]]; [| | |lia]; cbn in H256; lia. }
    clear E. destruct (bool_decide _).
    + apply (async_calculate_merkle_pow2_perfect 2); [by right|lia|done].
    + apply (async_calculate_merkle_pow2_perfect 1); [by left|lia|done].
  - by apply calculate_merkle_pow2_seq_perfect.
Qed.

Lemma calculate_merkle_full r l : length l = (2 ^ r)%nat -> calculate_merkle l = Ok (perfect r l).
Proof.
  intros Hl. simp calculate_merkle. pose proof (pow2_pos r).
  destruct (le_lt_dec (length l) 1) as [H1|H1]; cbn.
  - destruct r; [by destruct l|]. pose proof (pow2_pos r). cbn in Hl. lia.
  - destruct (decide _) as [Hfl|E]; [|destruct E; by rewrite Hl, bit_floor_pow2]. cbn.
    apply calculate_merkle_pow2_perfect; [|done]. destruct r; [cbn in Hl; lia|lia].
Qed.

Lemma calculate_merkle_split r l1 l2 :
  (1 <= r)%nat -> length l1 = (2 ^ r)%nat -> (0 < length l2 < 2 ^ r)%nat ->
  calculate_merkle (l1 ++ l2) = (b ← calculate_merkle l2; Ok (hash_combine (perfect r l1) b)).
Proof.
  intros Hr H1 H2.
  assert (E : bit_floor (length (l1 ++ l2)) = (2 ^ r)%nat).
  { apply bit_floor_unique. rewrite length_app. cbn. lia. }
  assert (length (l1 ++ l2) = 2 ^ r + length l2)%nat as Hlen by (rewrite length_app; lia).
  pose proof (pow2_pos r).
  rewrite (calculate_merkle_equation_1 (l1 ++ l2)).
  destruct (le_lt_dec (length (l1 ++ l2)) 1); [lia|].
  cbn. destruct (decide _) as [Hd|Hd]; [exfalso; lia|].
  cbn. rewrite E, <- H1, take_app_length, drop_app_length.
  by rewrite (calculate_merkle_pow2_perfect true r l1) by done.
Qed.

(** ** The incremental tree holds the full trees of the leaves *)

(** [forest idx m ts ls]: [ts] are the roots of full trees, one of rank
    [idx + i] for each bit [i] of [m], the largest first, whose leaves are [ls]. *)
Inductive forest : nat -> Z -> list digest_type -> list digest_type -> Prop :=
| forest_nil idx : forest idx 0 [] []
| forest_unset idx m ts ls : forest (S idx) m ts ls -> forest idx (2 * m) ts ls
| forest_set idx m ts ls ls1 :
    forest (S idx) m ts ls -> length ls1 = (2 ^ idx)%nat ->
    forest idx (2 * m + 1) (ts ++ [perfect idx ls1]) (ls ++ ls1).

Lemma forest_nonneg idx m ts ls : forest idx m ts ls -> 0 <= m.
Proof. induction 1; lia. Qed.

Lemma forest_length idx m ts ls :
  forest idx m ts ls -> Z.of_nat (length ls) = m * 2 ^ Z.of_nat idx.
Proof.
  induction 1 as [|idx m ts ls _ IH|idx m ts ls ls1 _ IH H1]; [done| |];
    rewrite ?length_app, ?Nat2Z.inj_add, IH, Nat2Z.inj_succ, Z.pow_succ_r by lia.
  - lia.
  - rewrite H1, Nat2Z.inj_pow. lia.
Qed.

Lemma forest_zero idx ts ls : forest idx 0 ts ls -> ts = [] /\ ls = [].
Proof.
  intros H. remember 0 as m eqn:E. induction H as [|idx m ts ls _ IH|]; [done| |lia].
  apply IH. lia.
Qed.

(** The bit operations on a mask none of whose bits is below [idx]. *)
Lemma mask_bit m idx k j :
  j = (idx + k)%nat -> Z.testbit (m * 2 ^ Z.of_nat idx) (Z.of_nat j) = Z.testbit m (Z.of_nat k).
Proof. intros ->. rewrite Z.mul_pow2_bits by lia. f_equal. lia. Qed.

Lemma is_bit_set_eq m idx : (idx < 64)%nat -> is_bit_set m idx = Ok (Z.testbit m (Z.of_nat idx)).
Proof.
  intros H. unfold is_bit_set. pass_with ltac:(by apply bool_decide_eq_true). f_equal.
  destruct (Z.testbit m (Z.of_nat idx)) eqn:E.
  - apply negb_true_iff, Z.eqb_neq. intros H0.
    assert (Hb : Z.testbit (Z.land m (Z.shiftl 1 (Z.of_nat idx))) (Z.of_nat idx) = false)
      by (rewrite H0; apply Z.bits_0).
    rewrite Z.land_spec, E, Z.shiftl_spec, Z.sub_diag in Hb by lia. done.
  - apply negb_false_iff, Z.eqb_eq, Z.bits_inj'. intros n Hn.
    rewrite Z.land_spec, Z.bits_0, Z.shiftl_1_l, Z.pow2_bits_eqb by lia.
    destruct (Z.eqb_spec (Z.of_nat idx) n) as [<-|]; [by rewrite E | by rewrite andb_false_r].
Qed.

Lemma set_bit_shifted m idx k j :
  j = (idx + k)%nat -> set_bit (m * 2 ^ Z.of_nat idx) j = set_bit m k * 2 ^ Z.of_nat idx.
Proof.
  intros ->. unfold set_bit. rewrite <- !Z.shiftl_mul_pow2, Z.shiftl_lor, Z.shiftl_shiftl by lia.
  do 2 f_equal. lia.
Qed.

Lemma clear_bit_shifted m idx k j :
  j = (idx + k)%nat -> clear_bit (m * 2 ^ Z.of_nat idx) j = clear_bit m k * 2 ^ Z.of_nat idx.
Proof.
  intros ->. unfold clear_bit.
  rewrite <- !Z.ldiff_land, <- !Z.shiftl_mul_pow2, Z.shiftl_ldiff, Z.shiftl_shiftl by lia.
  do 2 f_equal. lia.
Qed.

Lemma forest_inv idx m ts ls :
  forest idx m ts ls ->
  (exists m', m = 2 * m' /\ forest (S idx) m' ts ls) \/
  (exists m' ts' ls' ls1, m = 2 * m' + 1 /\ ts = ts' ++ [perfect idx ls1] /\ ls = ls' ++ ls1 /\
     length ls1 = (2 ^ idx)%nat /\ forest (S idx) m' ts' ls').
Proof.
  intros H. destruct H as [idx|idx m ts ls H|idx m ts ls ls1 H H1].
  - left. exists 0. split; [done|constructor].
  - left. by exists m.
  - right. by exists m, ts, ls, ls1.
Qed.

Lemma perfect_app r l1 l2 :
  length l1 = (2 ^ r)%nat -> perfect (S r) (l1 ++ l2) = hash_combine (perfect r l1) (perfect r l2).
Proof. intros H. cbn. by rewrite <- H, take_app_length, drop_app_length. Qed.

Lemma set_bit_even m : 0 <= m -> set_bit (2 * m) 0 = 2 * m + 1.
Proof. by destruct m. Qed.

Lemma clear_set_bit m : 0 <= m -> set_bit (clear_bit (2 * (2 * m) + 1) 0) 1 = 2 * (2 * m + 1).
Proof. by destruct m. Qed.

Lemma clear_clear_bit m :
  0 <= m -> clear_bit (clear_bit (2 * (2 * m + 1) + 1) 0) 1 = 2 * (2 * m).
Proof. by destruct m. Qed.

(** One carry of the binary counter: [_append] merges the new full tree with
    the trees of the same rank. *)
Lemma _append_forest n idx m ts ls new :
  (64 - idx <= n)%nat -> forest idx m ts ls -> length new = (2 ^ idx)%nat ->
  (m + 1) * 2 ^ Z.of_nat idx < 2 ^ 64 ->
  exists ts', _append (perfect idx new) (length ts) idx
                (IncrementalMerkleTree (m * 2 ^ Z.of_nat idx) ts)
              = Ok (IncrementalMerkleTree ((m + 1) * 2 ^ Z.of_nat idx) ts') /\
              forest idx (m + 1) ts' (ls ++ new).
Proof.
  revert idx m ts ls new. induction n as [n IH] using lt_wf_ind; intros idx m ts ls new Hn Hf Hnew Hm.
  pose proof (forest_nonneg _ _ _ _ Hf) as H0.
  assert (Hidx : (idx < 64)%nat).
  { apply Nat2Z.inj_lt. apply (Z.pow_lt_mono_r_iff 2); [lia|lia|]. cbn [Z.of_nat]. nia. }
  rewrite _append_equation_1. destruct (le_lt_dec 64 idx); [lia|]. cbn [_append_unfold_clause_1].
  cbn [mask trees]. rewrite (is_bit_set_eq _ idx) by done. rewrite (mask_bit _ idx 0) by lia.
  destruct (forest_inv _ _ _ _ Hf) as [(m' & -> & Hf')|(m' & ts' & ls' & ls1 & -> & -> & -> & H1 & Hf')].
  { (* no tree of this rank *)
    change (Z.of_nat 0) with 0. rewrite Z.testbit_even_0. cbn [mbind result_bind].
    rewrite firstn_all, drop_all, app_nil_r.
    rewrite (set_bit_shifted _ idx 0), set_bit_even by lia.
    eexists. split; [reflexivity|by constructor]. }
  change (Z.of_nat 0) with 0. rewrite Z.testbit_odd_0. cbn [mbind result_bind].
  rewrite length_app. cbn [length].
  rewrite is_bit_set_eq.
  2:{ apply Nat2Z.inj_lt. apply (Z.pow_lt_mono_r_iff 2); [lia|lia|].
      rewrite Nat2Z.inj_add, Z.pow_add_r by lia. cbn [Z.of_nat]. nia. }
  rewrite (mask_bit _ idx 1) by lia.
  change (Z.of_nat 1) with (Z.succ 0). rewrite Z.testbit_odd_succ by lia.
  replace (length ts' + 1 - 1)%nat with (length ts') by lia.
  rewrite lookup_snoc. rewrite <- (app_assoc ls').
  destruct (forest_inv _ _ _ _ Hf') as [(m & -> & Hf2)|(m & ts & ls & ls2 & -> & -> & -> & H2 & Hf2)].
  - (* only one tree to merge with *)
    pose proof (forest_nonneg _ _ _ _ Hf2).
    rewrite Z.testbit_even_0. cbn [mbind result_bind at_or_assert].
    pass_with ltac:(apply bool_decide_eq_true; lia).
    rewrite insert_app_r_alt, Nat.sub_diag by lia. cbn [insert list_insert].
    rewrite (clear_bit_shifted _ idx 0), (set_bit_shifted _ idx 1), clear_set_bit by lia.
    rewrite <- perfect_app by done. replace (2 * (2 * m) + 1 + 1) with (2 * (2 * m + 1)) by lia.
    eexists. split; [reflexivity|]. do 2 constructor; [done|]. rewrite length_app, pow2_S. lia.
  - (* two trees to merge with, and a carry *)
    pose proof (forest_nonneg _ _ _ _ Hf2).
    rewrite Z.testbit_odd_0. cbn [mbind result_bind at_or_assert]. rewrite length_app. cbn [length].
    pass_with ltac:(apply bool_decide_eq_true; lia).
    replace (length ts + 1 + 1 - 2)%nat with (length ts) by lia.
    rewrite lookup_app_l, lookup_snoc by (rewrite ?length_app; cbn; lia).
    cbn [mbind result_bind at_or_assert].
    rewrite <- app_assoc, take_app_length, drop_ge, app_nil_r by (rewrite !length_app; cbn; lia).
    rewrite (clear_bit_shifted _ idx 0), (clear_bit_shifted _ idx 1), clear_clear_bit by lia.
    rewrite <- !perfect_app by (rewrite ?length_app, ?pow2_S; lia).
    destruct (IH (n - 2)%nat ltac:(lia) (S (S idx)) m ts ls (ls2 ++ ls1 ++ new)) as (ts' & E & Hf3).
    { lia. }
    { done. }
    { rewrite !length_app, !pow2_S in *. lia. }
    { rewrite !Nat2Z.inj_succ, !Z.pow_succ_r by lia. lia. }
    replace (2 * (2 * m) * 2 ^ Z.of_nat idx) with (m * 2 ^ Z.of_nat (S (S idx)))
      by (rewrite !Nat2Z.inj_succ, !Z.pow_succ_r by lia; lia).
    replace (idx + 2)%nat with (S (S idx)) by lia.
    replace (2 * (2 * m + 1) + 1 + 1) with (2 * (2 * (m + 1))) by lia.
    exists ts'. split; [|by rewrite <- (app_assoc ls); do 2 constructor].
    rewrite <- perfect_app, E by done. do 2 f_equal. rewrite !Nat2Z.inj_succ, !Z.pow_succ_r by lia. lia.
Qed.

(** ** Population count *)

Lemma popcount_step b m n :
  length (filter (fun i => Z.testbit (2 * m + Z.b2z b) (Z.of_nat i) = true) (seq 0 (S n))) =
  ((if b then 1 else 0) + length (filter (fun i => Z.testbit m (Z.of_nat i) = true) (seq 0 n)))%nat.
Proof.
  cbn [seq]. rewrite filter_cons, <- seq_shift, Z.testbit_0_r.
  assert (E : forall l, length (filter (fun i => Z.testbit (2 * m + Z.b2z b) (Z.of_nat i) = true) (map S l))
    = length (filter (fun i => Z.testbit m (Z.of_nat i) = true) l)).
  { induction l as [|i l IH]; [done|]. cbn [map]. rewrite !filter_cons.
    rewrite Nat2Z.inj_succ, Z.testbit_succ_r by lia.
    destruct (decide _); cbn [length]; by rewrite IH. }
  destruct b; case_decide; try done; cbn [length Nat.add]; by rewrite E.
Qed.

Lemma forest_popcount n idx m ts ls :
  forest idx m ts ls -> m < 2 ^ Z.of_nat n ->
  length (filter (fun i => Z.testbit m (Z.of_nat i) = true) (seq 0 n)) = length ts.
Proof.
  intros H. revert n. induction H as [idx|idx m ts ls H IH|idx m ts ls ls1 H IH H1]; intros n Hn.
  - clear. induction (seq 0 n) as [|i l IH]; [done|].
    rewrite filter_cons, Z.bits_0. by destruct (decide _).
  - pose proof (forest_nonneg _ _ _ _ H). destruct n as [|n].
    { cbn in Hn. assert (m = 0) as -> by lia. by apply forest_zero in H as [-> _]. }
    rewrite Nat2Z.inj_succ, Z.pow_succ_r in Hn by lia.
    replace (2 * m) with (2 * m + Z.b2z false) by (cbn; lia).
    rewrite popcount_step. apply IH. lia.
  - pose proof (forest_nonneg _ _ _ _ H). destruct n as [|n]; [cbn in Hn; lia|].
    rewrite Nat2Z.inj_succ, Z.pow_succ_r in Hn by lia.
    rewrite (popcount_step true), length_app, IH by lia. cbn. lia.
Qed.

Lemma popcount_forest m ts ls : forest 0 m ts ls -> m < 2 ^ 64 -> length ts = popcount m.
Proof. intros H Hm. symmetry. by eapply forest_popcount. Qed.

(** ** The tree after any sequence of appends *)

Definition tree_of (t : incremental_merkle_tree) (ls : list digest_type) : Prop :=
  forest 0 (mask t) (trees t) ls.

Lemma append_tree_of t ls d :
  tree_of t ls -> size_of ls + 1 < 2 ^ 64 ->
  exists t', append t d = Ok t' /\ tree_of t' (ls ++ [d]).
Proof.
  destruct t as [m ts]. unfold tree_of. cbn. intros Hf Hls.
  pose proof (forest_length _ _ _ _ Hf) as Hlen. unfold size_of in Hls. cbn in Hlen.
  assert (Hm : m + 1 < 2 ^ 64) by lia.
  destruct (_append_forest 64 0 m ts ls [d]) as (ts' & E & Hf'); [lia|done|done|cbn;lia|].
  cbn [Z.of_nat] in E. rewrite !Z.mul_1_r in E. cbn [perfect] in E.
  unfold append. cbn [trees mask].
  rewrite <- (popcount_forest m ts ls), Nat.eqb_refl by (assumption || lia).
  rewrite E. cbn [mbind result_bind trees mask].
  rewrite <- (popcount_forest (m + 1) ts' (ls ++ [d])), Nat.eqb_refl by assumption.
  exists (IncrementalMerkleTree (m + 1) ts'). by split.
Qed.

Lemma appends_tree_of ds t ls :
  tree_of t ls -> size_of ls + size_of ds < 2 ^ 64 ->
  exists t', foldM append t ds = Ok t' /\ tree_of t' (ls ++ ds).
Proof.
  revert t ls. induction ds as [|d ds IH]; intros t ls Ht Hlen.
  - exists t. by rewrite app_nil_r.
  - unfold size_of in *. cbn [length] in Hlen.
    destruct (append_tree_of t ls d) as (t' & E & Ht'); [done|unfold size_of; lia|].
    cbn. rewrite E. cbn.
    destruct (IH t' (ls ++ [d])) as (t2 & E2 & Ht2); [done|rewrite length_app; cbn; lia|].
    exists t2. by rewrite <- app_assoc in Ht2.
Qed.

(** The largest tree of a forest, and the forest of the others. *)
Lemma forest_largest idx m ts ls :
  forest idx m ts ls -> m <> 0 ->
  exists r l0 m' ts' ls', ts = perfect r l0 :: ts' /\ ls = l0 ++ ls' /\ length l0 = (2 ^ r)%nat /\
    (length ls' < 2 ^ r)%nat /\ (idx <= r)%nat /\ m' < m /\ forest idx m' ts' ls'.
Proof.
  induction 1 as [idx|idx m ts ls H IH|idx m ts ls ls1 H IH H1]; intros Hm; [done| |];
    pose proof (forest_nonneg _ _ _ _ H).
  - destruct IH as (r & l0 & m' & ts' & ls' & -> & -> & Hl0 & Hls' & Hr & Hm' & Hf); [lia|].
    exists r, l0, (2 * m'), ts', ls'. split_and!; [done|done|done|lia|lia|lia|by constructor].
  - destruct (decide (m = 0)) as [->|Hm0].
    + apply forest_zero in H as [-> ->].
      exists idx, ls1, 0, [], []. rewrite app_nil_r. cbn. pose proof (pow2_pos idx).
      split_and!; [done|done|done|lia|lia|lia|constructor].
    + destruct IH as (r & l0 & m' & ts' & ls' & -> & -> & Hl0 & Hls' & Hr & Hm' & Hf); [lia|].
      exists r, l0, (2 * m' + 1), (ts' ++ [perfect idx ls1]), (ls' ++ ls1).
      split_and!; [done|by rewrite app_assoc|done| |lia|lia|by constructor].
      pose proof (forest_length _ _ _ _ Hf) as E. rewrite length_app, H1.
      assert (H2r : (2 ^ r = (2 ^ idx + 2 ^ idx) * 2 ^ (r - S idx))%nat)
        by (rewrite <- pow2_S, <- Nat.pow_add_r; f_equal; lia).
      assert (Hd : exists k, length ls' = (k * (2 ^ idx + 2 ^ idx))%nat).
      { exists (Z.to_nat m'). rewrite <- pow2_S. apply Nat2Z.inj. rewrite E, Nat2Z.inj_mul, Nat2Z.inj_pow.
        pose proof (forest_nonneg _ _ _ _ Hf). rewrite Z2Nat.id by done. done. }
      destruct Hd as [k Hk]. pose proof (pow2_pos idx). rewrite H2r in *.
      set (b := (2 ^ (r - S idx))%nat) in *. set (a := (2 ^ idx)%nat) in *.
      assert (k < b)%nat by nia. nia.
Qed.

Lemma _get_root_forest n m ts ls :
  (Z.to_nat m < n)%nat -> forest 0 m ts ls -> m <> 0 -> _get_root ts = calculate_merkle ls.
Proof.
  revert m ts ls. induction n as [|n IH]; intros m ts ls Hn Hf Hm; [lia|].
  pose proof (forest_nonneg _ _ _ _ Hf).
  destruct (forest_largest _ _ _ _ Hf Hm)
    as (r & l0 & m' & ts' & ls' & -> & -> & Hl0 & Hls' & Hr & Hm' & Hf').
  pose proof (forest_nonneg _ _ _ _ Hf').
  destruct (decide (m' = 0)) as [->|Hm0].
  { apply forest_zero in Hf' as [-> ->]. rewrite app_nil_r. symmetry. by apply calculate_merkle_full. }
  pose proof (forest_length _ _ _ _ Hf') as E. cbn in E.
  assert (0 < length ls')%nat by lia.
  rewrite (calculate_merkle_split r); [|destruct r; cbn in Hls'; lia|done|done].
  rewrite <- (IH m' ts' ls'); [|lia|done|done].
  destruct ts'; [|done].
  destruct (forest_largest _ _ _ _ Hf' Hm0) as (? & ? & ? & ? & ? & [=] & _).
Qed.

Lemma tree_of_size t ls : tree_of t ls -> num_digests_appended t = size_of ls.
Proof. intros Ht. pose proof (forest_length _ _ _ _ Ht) as Hm. cbn in Hm. unfold num_digests_appended. width. Qed.

Lemma tree_of_root t ls : tree_of t ls -> get_root t = calculate_merkle ls.
Proof.
  intros Ht. unfold tree_of in Ht.
  unfold get_root. destruct (Z.eqb_spec (mask t) 0) as [E0|E0].
  - rewrite E0 in Ht. by apply forest_zero in Ht as [_ ->].
  - destruct (bool_decide_reflect (trees t = [])) as [E1|_].
    + rewrite E1 in Ht. destruct (forest_largest _ _ _ _ Ht E0) as (? & ? & ? & ? & ? & [=] & _).
    + eapply (_get_root_forest (S (Z.to_nat (mask t))) (mask t)); [lia|exact Ht|done].
Qed.

Lemma _get_root_total ts : ts <> [] -> exists r, _get_root ts = Ok r.
Proof.
  induction ts as [|d ts IH]; intros H; [done|]. destruct ts as [|d' ts]; [by exists d|].
  destruct IH as [r Hr]; [done|]. exists (hash_combine d r). change (_get_root (d :: d' :: ts))
    with (r ← _get_root (d' :: ts); Ok (hash_combine d r)). by rewrite Hr.
Qed.

Lemma get_root_total t ls : tree_of t ls -> exists r, get_root t = Ok r.
Proof.
  intros Ht. unfold get_root. destruct (Z.eqb_spec (mask t) 0) as [E|E]; [by eexists|].
  destruct (forest_largest _ _ _ _ Ht E) as (? & ? & ? & ? & ? & Hts & _).
  rewrite bool_decide_eq_false_2; [|by rewrite Hts]. apply _get_root_total. by rewrite Hts.
Qed.

(** C33: Appending one by one to the incremental tree and hashing the whole
    sequence at once give the same root, and the mask counts the digests, for
    every sequence a 64-bit mask can count.  No assertion of either fails. *)
Theorem incremental_merkle_tree_correct (ds : list digest_type) :
  size_of ds < 2 ^ 64 ->
  exists t, foldM append empty_merkle_tree ds = Ok t /\
    num_digests_appended t = size_of ds /\ get_root t = calculate_merkle ds.
Proof.
  intros Hlen.
  destruct (appends_tree_of ds empty_merkle_tree []) as (t & E & Ht); [constructor|done|].
  exists t. split; [done|]. cbn in Ht. split; [by apply tree_of_size|by apply tree_of_root].
Qed.

End Merkle.

(** ** The property at concrete leaves *)

Lemma incremental_merkle_tree_correct_witness :
  let ds := map (fun n => Sha256 n 0 0 0) [1; 2; 3; 4; 5; 6; 7] in
  exists t, foldM (append (hasher := example_hash)) empty_merkle_tree ds = Ok t /\
    num_digests_appended t = size_of ds /\
    get_root (hasher := example_hash) t = calculate_merkle (hasher := example_hash) ds.
Proof.
  apply (incremental_merkle_tree_correct (hasher := example_hash) (map (fun n => Sha256 n 0 0 0) [1; 2; 3; 4; 5; 6; 7])).
  by vm_compute.
Defined.
