(* ===== verification/FinalityCore.v ===== *)
(** * The finality core

    [finality_core.hpp] and [finality_core.cpp]: the part of a block header's
    state that determines finality.  A core holds the links (a block and the
    block its quorum certificate claim points to) and the references to the
    ancestors since the last final block.  The [assert]s of the code are kept;
    the theorems show that none of them fails on a core the code can make. *)

From S2P Require Import Prelude ChainTypes Merkle.

(** ** Data *)

Record block_ref : Set := BlockRef {
  block_id : block_id_type;
  timestamp : block_timestamp_type;
  finality_digest : digest_type;
  active_policy_generation : Z;
  pending_policy_generation : Z
}.

#[export] Instance block_ref_eq_dec : EqDecision block_ref.
Proof. solve_decision. Defined.

(** The default-constructed [block_ref]. *)
Definition block_ref_default : block_ref := BlockRef sha256_default 0 sha256_default 0 0.

Definition block_ref_empty (r : block_ref) : bool := sha256_is_empty (block_id r).
Definition block_num (r : block_ref) : Z := num_from_id (block_id r).

Record qc_link : Set := QcLink {
  source_block_num : Z;
  target_block_num : Z;
  is_link_strong : bool
}.

Record qc_claim_t : Set := QcClaim {
  claim_block_num : Z;
  is_strong_qc : bool
}.

#[export] Instance qc_claim_eq_dec : EqDecision qc_claim_t.
Proof. solve_decision. Defined.

(** The defaulted three-way comparison: by block number, then weak before strong. *)
Definition qc_claim_leb (a b : qc_claim_t) : bool :=
  (claim_block_num a <? claim_block_num b)
  || ((claim_block_num a =? claim_block_num b) && implb (is_strong_qc a) (is_strong_qc b)).

Record core_metadata : Set := CoreMetadata {
  meta_last_final_block_num : Z;
  meta_latest_qc_claim_block_num : Z
}.

Record finality_core : Set := MkFinalityCore {
  links : list qc_link;
  refs : list block_ref;
  genesis_timestamp : block_timestamp_type
}.

(** ** Operations *)

Section Operations.
Context {hasher : Sha256Hash}.

Definition create_core_for_genesis_block (block_id : block_id_type)
    (timestamp : block_timestamp_type) : finality_core :=
  let block_num := num_from_id block_id in
  MkFinalityCore [QcLink block_num block_num false] [] timestamp.

Definition is_genesis_core (c : finality_core) : bool :=
  match refs c with [] => true | _ => false end.

Definition links_front (c : finality_core) : result qc_link := at_or_assert (head (links c)).
Definition links_back (c : finality_core) : result qc_link := at_or_assert (last (links c)).

Definition current_block_num (c : finality_core) : result Z :=
  l ← links_back c; Ok (source_block_num l).

Definition last_final_block_num (c : finality_core) : result Z :=
  l ← links_front c; Ok (target_block_num l).

Definition get_block_reference (c : finality_core) (block_num : Z) : result block_ref :=
  lf ← last_final_block_num c;
  ASSERT lf <=? block_num ;;
  cur ← current_block_num c;
  ASSERT block_num <? cur ;;
  let ref_index := wrap32 (block_num - lf) in
  ASSERT ref_index <? size_of (refs c) ;;
  at_or_assert (refs c !! Z.to_nat ref_index).

Definition last_final_block_timestamp (c : finality_core) : result block_timestamp_type :=
  if is_genesis_core c then Ok (genesis_timestamp c)
  else
    lf ← last_final_block_num c;
    r ← get_block_reference c lf;
    Ok (timestamp r).

Definition latest_qc_claim (c : finality_core) : result qc_claim_t :=
  l ← links_back c; Ok (QcClaim (target_block_num l) (is_link_strong l)).

Definition latest_qc_block_timestamp (c : finality_core) : result block_timestamp_type :=
  l ← links_back c;
  if is_genesis_core c then Ok (genesis_timestamp c)
  else r ← get_block_reference c (target_block_num l); Ok (timestamp r).

Definition extends (c : finality_core) (id : block_id_type) : result bool :=
  let block_num := num_from_id id in
  lf ← last_final_block_num c;
  cur ← current_block_num c;
  if (lf <=? block_num) && (block_num <? cur) then
    ref ← get_block_reference c block_num;
    Ok (bool_decide (block_id ref = id))
  else Ok false.

Definition is_genesis_block_num (c : finality_core) (candidate_block_num : Z) : result bool :=
  lf ← last_final_block_num c;
  cur ← current_block_num c;
  ASSERT (lf <=? candidate_block_num) && (candidate_block_num <=? cur) ;;
  f ← links_front c;
  Ok ((source_block_num f =? target_block_num f) && (source_block_num f =? candidate_block_num)).

(** The packed [block_ref_digest_data] of a reference and its parent. *)
Definition block_ref_digest_data (parent r : block_ref) : list Z :=
  le_bytes 4 (block_num r) ++ le_bytes 4 (timestamp r) ++
  sha256_data (finality_digest r) ++ le_bytes 4 (timestamp parent).

Fixpoint block_ref_digests (rs : list block_ref) : list digest_type :=
  match rs with
  | parent :: ((r :: _) as rest) => sha256_hash (block_ref_digest_data parent r) :: block_ref_digests rest
  | _ => []
  end.

Definition get_reversible_blocks_mroot (c : finality_core) : result digest_type :=
  if size_of (refs c) <=? 1 then Ok sha256_default
  else calculate_merkle (block_ref_digests (refs c)).

Definition get_qc_link_from (c : finality_core) (block_num : Z) : result qc_link :=
  f ← links_front c;
  ASSERT source_block_num f <=? block_num ;;
  cur ← current_block_num c;
  ASSERT block_num <=? cur ;;
  let link_index := wrap32 (block_num - source_block_num f) in
  ASSERT link_index <? size_of (links c) ;;
  at_or_assert (links c !! Z.to_nat link_index).

Definition get_new_block_numbers (c : finality_core) (most_recent_ancestor_with_qc : qc_claim_t) :
    result (Z * Z) :=
  let claim_num := claim_block_num most_recent_ancestor_with_qc in
  cur ← current_block_num c;
  ASSERT claim_num <=? cur ;;
  latest ← latest_qc_claim c;
  ASSERT claim_block_num latest <=? claim_num ;;
  f ← links_front c;
  ASSERT source_block_num f <=? claim_num ;;
  lf ← last_final_block_num c;
  if negb (is_strong_qc most_recent_ancestor_with_qc) then Ok (lf, source_block_num f)
  else
    link ← get_qc_link_from c claim_num;
    ASSERT lf <=? target_block_num link ;;
    ASSERT source_block_num f <=? source_block_num link ;;
    ASSERT claim_block_num latest <=? claim_num ;;
    Ok (target_block_num link, source_block_num link).

Definition next_metadata (c : finality_core) (most_recent_ancestor_with_qc : qc_claim_t) :
    result core_metadata :=
  cur ← current_block_num c;
  ASSERT claim_block_num most_recent_ancestor_with_qc <=? cur ;;
  latest ← latest_qc_claim c;
  ASSERT qc_claim_leb latest most_recent_ancestor_with_qc ;;
  nums ← get_new_block_numbers c most_recent_ancestor_with_qc;
  Ok (CoreMetadata nums.1 (claim_block_num most_recent_ancestor_with_qc)).

(** The links of the next core: those before the [links_index]-th are
    dropped, and the link of the new block is added. *)
Definition next_links (c : finality_core) (new_last_final new_front : Z)
    (most_recent_ancestor_with_qc : qc_claim_t) : result (list qc_link) :=
  f ← links_front c;
  cur ← current_block_num c;
  let links_index := wrap32 (new_front - source_block_num f) in
  ASSERT links_index <? size_of (links c) ;;
  let kept := drop (Z.to_nat links_index) (links c) in
  kf ← at_or_assert (head kept);
  ASSERT target_block_num kf =? new_last_final ;;
  kb ← at_or_assert (last kept);
  ASSERT source_block_num kb =? cur ;;
  ASSERT target_block_num kb <=? claim_block_num most_recent_ancestor_with_qc ;;
  Ok (kept ++ [QcLink (wrap32 (cur + 1)) (claim_block_num most_recent_ancestor_with_qc)
                 (is_strong_qc most_recent_ancestor_with_qc)]).

(** The references of the next core. *)
Definition next_refs (c : finality_core) (new_last_final : Z) (current_block : block_ref) :
    result (list block_ref) :=
  lf ← last_final_block_num c;
  let refs_index := wrap32 (new_last_final - lf) in
  ASSERT negb (is_genesis_core c) || (refs_index =? 0) ;;
  ASSERT is_genesis_core c || (refs_index <? size_of (refs c)) ;;
  let kept := drop (Z.to_nat refs_index) (refs c) in
  ASSERT is_genesis_core c
         || match head kept with Some r => block_num r =? new_last_final | None => false end ;;
  let rs := kept ++ [current_block] in
  rf ← at_or_assert (head rs);
  ASSERT block_num rf =? new_last_final ;;
  Ok rs.

Definition next (c : finality_core) (current_block : block_ref)
    (most_recent_ancestor_with_qc : qc_claim_t) : result finality_core :=
  let claim := most_recent_ancestor_with_qc in
  cur ← current_block_num c;
  ASSERT block_num current_block =? cur ;;
  ASSERT match last (refs c) with Some b => wrap32 (block_num b + 1) =? block_num current_block | None => true end ;;
  ASSERT match last (refs c) with Some b => timestamp b <? timestamp current_block | None => true end ;;
  ASSERT claim_block_num claim <=? cur ;;
  latest ← latest_qc_claim c;
  ASSERT qc_claim_leb latest claim ;;
  nums ← get_new_block_numbers c claim;
  let '(new_last_final, new_front) := nums in
  ASSERT new_last_final <=? new_front ;;
  ASSERT new_front <=? claim_block_num claim ;;
  lf ← last_final_block_num c;
  ASSERT lf <=? new_last_final ;;
  f ← links_front c;
  ASSERT source_block_num f <=? new_front ;;
  ls ← next_links c new_last_final new_front claim;
  rs ← next_refs c new_last_final current_block;
  let next_core := MkFinalityCore ls rs 0 in
  latest' ← latest_qc_claim next_core;
  ASSERT claim_block_num latest <=? claim_block_num latest' ;;
  Ok next_core.

End Operations.

(** ** The invariants of a core *)

Definition link_next (a b : qc_link) : Prop :=
  source_block_num a + 1 = source_block_num b /\ target_block_num a <= target_block_num b.

Definition ref_next (a b : block_ref) : Prop :=
  block_num a + 1 = block_num b /\ timestamp a < timestamp b.

Definition link_ok (l : qc_link) : Prop :=
  0 <= target_block_num l <= source_block_num l /\ u32 (source_block_num l).

(** The invariants 1 to 7 of the header of [finality_core], for a core with
    front link [f] and back link [b], and two facts about links the comments
    of the code use: a target is not after its source, and the last target is
    before its source once there are references. *)
Record core_shape (c : finality_core) (f b : qc_link) : Prop := {
  cs_front : head (links c) = Some f;
  cs_back : last (links c) = Some b;
  cs_inv2 : target_block_num f <= source_block_num f <= target_block_num b;
  cs_inv3 : refs c = [] -> links c = [b] /\ target_block_num b = source_block_num b;
  cs_inv4 : forall r, head (refs c) = Some r -> block_num r = target_block_num f;
  cs_inv5 : forall r, last (refs c) = Some r -> block_num r + 1 = source_block_num b;
  cs_inv6 : adjacent ref_next (refs c);
  cs_inv7 : adjacent link_next (links c);
  cs_links : Forall link_ok (links c);
  cs_strict : refs c <> [] -> target_block_num b < source_block_num b
}.

Definition core_inv (c : finality_core) : Prop := exists f b, core_shape c f b.

Section Shape.
Context {c : finality_core} {f b : qc_link} (S : core_shape c f b).

Lemma shape_back_ok : link_ok b.
Proof.
  pose proof (cs_links _ _ _ S) as H. rewrite Forall_lookup in H.
  pose proof (cs_back _ _ _ S) as Hb. rewrite last_lookup in Hb. by eapply H.
Qed.

Lemma shape_front_ok : link_ok f.
Proof.
  pose proof (cs_links _ _ _ S) as H. rewrite Forall_lookup in H.
  pose proof (cs_front _ _ _ S) as Hf. rewrite head_lookup in Hf. by eapply H.
Qed.

Lemma shape_link_source i l :
  links c !! i = Some l -> source_block_num l = source_block_num f + Z.of_nat i.
Proof.
  apply adjacent_succ_lookup; [|apply S].
  eapply adjacent_impl; [|apply S]. by intros x y [? ?].
Qed.

(** Invariant 9. *)
Lemma shape_inv9 : size_of (links c) = source_block_num b - source_block_num f + 1.
Proof.
  pose proof (cs_back _ _ _ S) as Hb. rewrite last_lookup in Hb.
  pose proof (shape_link_source _ _ Hb). pose proof (lookup_lt_Some _ _ _ Hb).
  unfold size_of. lia.
Qed.

Lemma link_next_targets l1 i j x y :
  adjacent link_next l1 -> (i <= j)%nat -> l1 !! i = Some x -> l1 !! j = Some y ->
  target_block_num x <= target_block_num y.
Proof.
  intros H Hij Hx Hy. destruct (decide (i = j)) as [->|]; [by simplify_eq|].
  eapply (@adjacent_trans _ (fun a b => target_block_num a <= target_block_num b) ltac:(intros ???; lia)
    l1 i j); [|lia|done|done].
  eapply adjacent_impl; [|exact H]. by intros ?? [??].
Qed.

Lemma shape_link_target i l :
  links c !! i = Some l -> target_block_num f <= target_block_num l <= target_block_num b.
Proof.
  intros Hl. pose proof (cs_front _ _ _ S) as Hf. pose proof (cs_back _ _ _ S) as Hb.
  rewrite head_lookup in Hf. rewrite last_lookup in Hb. pose proof (lookup_lt_Some _ _ _ Hl).
  split; (eapply link_next_targets; [apply S| |eassumption|eassumption]); lia.
Qed.

Lemma shape_ref_num i r : refs c !! i = Some r -> block_num r = target_block_num f + Z.of_nat i.
Proof.
  intros Hr. destruct (refs c) as [|r0 rs] eqn:E; [done|].
  pose proof (cs_inv4 _ _ _ S r0) as H4. rewrite E in H4. rewrite <- (H4 eq_refl).
  eapply (adjacent_succ_lookup block_num (r0 :: rs)); [|done|exact Hr].
  pose proof (cs_inv6 _ _ _ S) as H6. rewrite E in H6.
  eapply adjacent_impl; [|exact H6]. by intros x y [? ?].
Qed.

(** Invariant 8. *)
Lemma shape_inv8 : size_of (refs c) = source_block_num b - target_block_num f.
Proof.
  destruct (last (refs c)) as [r|] eqn:E.
  - pose proof (cs_inv5 _ _ _ S r E). rewrite last_lookup in E.
    pose proof (shape_ref_num _ _ E). pose proof (lookup_lt_Some _ _ _ E). unfold size_of. lia.
  - apply last_None in E. destruct (cs_inv3 _ _ _ S E) as [E1 E2].
    pose proof (cs_front _ _ _ S) as Hf. rewrite E1 in Hf. rewrite E. cbn in *. simplify_eq.
    unfold size_of. cbn. lia.
Qed.
End Shape.

(** ** The operations on a core that satisfies the invariants *)

Section Accessors.
Context {hasher : Sha256Hash} {c : finality_core} {f b : qc_link} (S : core_shape c f b).

Lemma links_front_Ok : links_front c = Ok f.
Proof. unfold links_front. by rewrite (cs_front _ _ _ S). Qed.

Lemma links_back_Ok : links_back c = Ok b.
Proof. unfold links_back. by rewrite (cs_back _ _ _ S). Qed.

Lemma current_block_num_Ok : current_block_num c = Ok (source_block_num b).
Proof. unfold current_block_num. by rewrite links_back_Ok. Qed.

Lemma last_final_block_num_Ok : last_final_block_num c = Ok (target_block_num f).
Proof. unfold last_final_block_num. by rewrite links_front_Ok. Qed.

Lemma latest_qc_claim_Ok : latest_qc_claim c = Ok (QcClaim (target_block_num b) (is_link_strong b)).
Proof. unfold latest_qc_claim. by rewrite links_back_Ok. Qed.

Lemma get_block_reference_Ok n :
  target_block_num f <= n < source_block_num b ->
  exists r, get_block_reference c n = Ok r /\ refs c !! Z.to_nat (n - target_block_num f) = Some r /\
    block_num r = n.
Proof.
  intros Hn. pose proof (shape_inv8 S) as H8. pose proof (shape_back_ok S) as [_ Hb].
  pose proof (cs_inv2 _ _ _ S). pose proof (shape_front_ok S) as [? _].
  unfold get_block_reference. rewrite last_final_block_num_Ok, current_block_num_Ok.
  cbn [mbind result_bind]. pass_with ltac:(lia). pass_with ltac:(lia).
  rewrite wrap32_id by (unfold u32 in *; lia). pass_with ltac:(lia).
  destruct (lookup_lt_is_Some_2 (refs c) (Z.to_nat (n - target_block_num f))) as [r Hr].
  { unfold size_of in H8. lia. }
  exists r. rewrite Hr. split_and!; [done|done|]. rewrite (shape_ref_num S _ _ Hr). lia.
Qed.

Lemma get_qc_link_from_Ok n :
  source_block_num f <= n <= source_block_num b ->
  exists l, get_qc_link_from c n = Ok l /\ links c !! Z.to_nat (n - source_block_num f) = Some l /\
    source_block_num l = n.
Proof.
  intros Hn. pose proof (shape_inv9 S) as H9. pose proof (shape_back_ok S) as [_ Hb].
  pose proof (cs_inv2 _ _ _ S). pose proof (shape_front_ok S) as [? _].
  unfold get_qc_link_from. rewrite links_front_Ok, current_block_num_Ok.
  cbn [mbind result_bind]. pass_with ltac:(lia). pass_with ltac:(lia).
  rewrite wrap32_id by (unfold u32 in *; lia). pass_with ltac:(lia).
  destruct (lookup_lt_is_Some_2 (links c) (Z.to_nat (n - source_block_num f))) as [l Hl'].
  { unfold size_of in H9. lia. }
  exists l. rewrite Hl'. split_and!; [done|done|]. rewrite (shape_link_source S _ _ Hl'). lia.
Qed.

Lemma extends_Ok id :
  exists r, extends c id = Ok r /\ (r = true <-> exists ref, ref ∈ refs c /\ block_id ref = id).
Proof.
  unfold extends. rewrite last_final_block_num_Ok, current_block_num_Ok. cbn [mbind result_bind].
  destruct (_ && _) eqn:E.
  - destruct (get_block_reference_Ok (num_from_id id)) as (r & Hr & Hl & Hn); [lia|].
    rewrite Hr. cbn. eexists; split; [reflexivity|]. rewrite bool_decide_eq_true. split.
    + intros <-. exists r. split; [|done]. by eapply list_elem_of_lookup_2.
    + intros (ref & Href & <-). apply list_elem_of_lookup in Href as [i Hi].
      pose proof (shape_ref_num S _ _ Hi) as Hn'. unfold block_num in Hn'.
      rewrite Hn' in Hl. replace (Z.to_nat _) with i in Hl by lia. by simplify_eq.
  - eexists; split; [reflexivity|]. split; [done|]. intros (ref & Href & <-). exfalso.
    apply list_elem_of_lookup in Href as [i Hi]. pose proof (shape_ref_num S _ _ Hi) as Hn.
    pose proof (shape_inv8 S) as H8. unfold block_num, size_of in *. apply lookup_lt_Some in Hi. lia.
Qed.

Lemma qc_claim_leb_num x y : qc_claim_leb x y = true -> claim_block_num x <= claim_block_num y.
Proof. unfold qc_claim_leb. intros H. apply orb_true_iff in H as [?|?]; lia. Qed.

(** The link that decides what becomes final: the claimed block's when the
    claim is strong, else the front one. *)
Definition deciding_link (claim : qc_claim_t) (l : qc_link) : Prop :=
  if is_strong_qc claim then
    links c !! Z.to_nat (claim_block_num claim - source_block_num f) = Some l /\
    source_block_num l = claim_block_num claim
  else l = f.

Context (claim : qc_claim_t).
Context (Hclaim : qc_claim_leb (QcClaim (target_block_num b) (is_link_strong b)) claim = true).
Context (Hcur : claim_block_num claim <= source_block_num b).

Lemma get_new_block_numbers_Ok :
  exists l, deciding_link claim l /\
    get_new_block_numbers c claim = Ok (target_block_num l, source_block_num l) /\
    links c !! Z.to_nat (source_block_num l - source_block_num f) = Some l /\
    source_block_num f <= source_block_num l <= claim_block_num claim /\
    target_block_num f <= target_block_num l <= target_block_num b /\
    target_block_num l <= source_block_num l.
Proof.
  pose proof (qc_claim_leb_num _ _ Hclaim) as Hle. cbn in Hle.
  pose proof (cs_inv2 _ _ _ S) as H2. pose proof (cs_links _ _ _ S) as Hok. rewrite Forall_lookup in Hok.
  unfold get_new_block_numbers.
  rewrite current_block_num_Ok, latest_qc_claim_Ok, links_front_Ok, last_final_block_num_Ok.
  cbn [mbind result_bind claim_block_num]. do 3 (pass_with ltac:(lia)).
  unfold deciding_link. destruct (is_strong_qc claim); cbn [negb].
  - destruct (get_qc_link_from_Ok (claim_block_num claim)) as (l & Hl & Hlook & Hsrc); [lia|].
    rewrite Hl. cbn [mbind result_bind].
    pose proof (shape_link_target S _ _ Hlook). do 2 (pass_with ltac:(lia)).
    exists l. rewrite Hsrc. destruct (Hok _ _ Hlook) as [? _].
    split_and!; try done; try lia.
  - exists f. pose proof (cs_front _ _ _ S) as Hf. rewrite head_lookup in Hf.
    rewrite Z.sub_diag. split_and!; try done; try lia.
Qed.

Lemma next_metadata_Ok :
  exists l, deciding_link claim l /\
    next_metadata c claim = Ok (CoreMetadata (target_block_num l) (claim_block_num claim)).
Proof.
  destruct get_new_block_numbers_Ok as (l & Hd & E & _). exists l. split; [done|].
  unfold next_metadata. rewrite current_block_num_Ok, latest_qc_claim_Ok. cbn [mbind result_bind].
  pass_with ltac:(lia). rewrite Hclaim, E. done.
Qed.

(** ** The next core *)

Context (blk : block_ref).
Context (Hblk : block_num blk = source_block_num b).
Context (Hmax : source_block_num b < uint32_max).
Context (Hts : forall r, last (refs c) = Some r -> timestamp r < timestamp blk).

(** What [next] returns when [l] is the deciding link. *)
Definition next_core (l : qc_link) : finality_core :=
  MkFinalityCore
    (drop (Z.to_nat (source_block_num l - source_block_num f)) (links c) ++
     [QcLink (source_block_num b + 1) (claim_block_num claim) (is_strong_qc claim)])
    (drop (Z.to_nat (target_block_num l - target_block_num f)) (refs c) ++ [blk])
    0.

Section Next.
Context (l : qc_link).
Context (Hlook : links c !! Z.to_nat (source_block_num l - source_block_num f) = Some l).
Context (Hsrc : source_block_num f <= source_block_num l <= claim_block_num claim).
Context (Htgt : target_block_num f <= target_block_num l <= target_block_num b).
Context (Hl : target_block_num l <= source_block_num l).

Lemma next_links_Ok :
  next_links c (target_block_num l) (source_block_num l) claim = Ok (links (next_core l)).
Proof.
  pose proof (shape_back_ok S) as [_ Hb]. pose proof (shape_front_ok S) as [? _].
  pose proof (qc_claim_leb_num _ _ Hclaim) as Hle. cbn in Hle.
  unfold next_links. rewrite links_front_Ok, current_block_num_Ok. cbn [mbind result_bind].
  unfold u32, uint32_max, size_of in *. rewrite !wrap32_id by (unfold u32; lia).
  pose proof (lookup_lt_Some _ _ _ Hlook). unfold size_of. pass_with ltac:(lia).
  rewrite head_drop, Hlook. cbn [at_or_assert mbind result_bind]. pass_with ltac:(lia).
  rewrite last_drop, (cs_back _ _ _ S) by done. cbn [at_or_assert mbind result_bind].
  by do 2 (pass_with ltac:(lia)).
Qed.

Lemma next_refs_index :
  refs c = [] /\ target_block_num l = target_block_num f /\ target_block_num f = source_block_num b \/
  (Z.to_nat (target_block_num l - target_block_num f) < length (refs c))%nat.
Proof.
  pose proof (shape_inv8 S) as H8. unfold size_of in H8.
  destruct (decide (refs c = [])) as [E|E].
  - left. destruct (cs_inv3 _ _ _ S E). rewrite E in H8. cbn in H8. split_and!; [done|lia|lia].
  - right. pose proof (cs_strict _ _ _ S E). lia.
Qed.

Lemma next_refs_head :
  exists r, head (refs (next_core l)) = Some r /\ block_num r = target_block_num l.
Proof.
  cbn. destruct next_refs_index as [(E & E1 & E2)|H].
  - rewrite E, drop_nil. exists blk. split; [done|lia].
  - destruct (lookup_lt_is_Some_2 _ _ H) as [r Hr]. exists r.
    rewrite head_lookup, lookup_app_l by (rewrite length_drop; lia).
    rewrite lookup_drop, Nat.add_0_r. split; [done|]. rewrite (shape_ref_num S _ _ Hr). lia.
Qed.

Lemma next_refs_Ok : next_refs c (target_block_num l) blk = Ok (refs (next_core l)).
Proof.
  pose proof (shape_back_ok S) as [_ Hb]. destruct next_refs_head as (rf & Hrf & Hn).
  pose proof (cs_inv2 _ _ _ S). pose proof (shape_front_ok S) as [Hf _].
  unfold next_refs, is_genesis_core. rewrite last_final_block_num_Ok. cbn [mbind result_bind].
  unfold u32 in *. rewrite wrap32_id by (unfold u32; lia).
  cbn [next_core refs] in *.
  destruct next_refs_index as [(E & E1 & E2)|Hi].
  - rewrite E in *. pass_with ltac:(cbn; lia). cbn [orb]. cbv beta iota. rewrite drop_nil.
    cbn. pass_with ltac:(lia). done.
  - destruct (lookup_lt_is_Some_2 _ _ Hi) as [r Hr].
    destruct (refs c) as [|r0 rs] eqn:E; [cbn in Hi; lia|]. rewrite <- E in *.
    cbn [negb orb]. cbv beta iota. unfold size_of. pass_with ltac:(lia).
    rewrite head_drop, Hr. pose proof (shape_ref_num S _ _ Hr). pass_with ltac:(lia).
    rewrite Hrf. cbn [at_or_assert mbind result_bind]. by pass_with ltac:(lia).
Qed.

(** The next core satisfies the invariants again. *)
Lemma next_core_shape :
  core_shape (next_core l) l
    (QcLink (source_block_num b + 1) (claim_block_num claim) (is_strong_qc claim)).
Proof.
  pose proof (shape_back_ok S) as [Hb1 Hb2]. pose proof (shape_inv9 S) as H9.
  pose proof (qc_claim_leb_num _ _ Hclaim) as Hle. cbn in Hle.
  pose proof (shape_link_source S _ _ Hlook). unfold size_of in H9.
  pose proof (lookup_lt_Some _ _ _ Hlook) as Hlt.
  pose proof (cs_back _ _ _ S) as Hback.
  constructor.
  - cbn. rewrite head_lookup, lookup_app_l by (rewrite length_drop; lia).
    by rewrite lookup_drop, Nat.add_0_r.
  - cbn. by rewrite last_snoc.
  - cbn. lia.
  - cbn. by destruct (drop _ _).
  - intros r Hr. destruct next_refs_head as (r' & Hr' & Hn). by simplify_eq.
  - cbn. intros r. rewrite last_snoc. intros [= <-]. lia.
  - cbn. destruct next_refs_index as [(E & _ & _)|Hi].
    + rewrite E, drop_nil. apply adjacent_singleton.
    + destruct (last (refs c)) as [r|] eqn:E.
      2:{ apply last_None in E. rewrite E in Hi. cbn in Hi. lia. }
      apply (adjacent_snoc _ _ _ r); [by apply adjacent_drop, S|by rewrite last_drop|].
      split; [rewrite Hblk; by apply (cs_inv5 _ _ _ S)|by apply Hts].
  - cbn. apply (adjacent_snoc _ _ _ b); [by apply adjacent_drop, S|by rewrite last_drop|].
    split; cbn; lia.
  - cbn. apply Forall_app. split; [by apply Forall_drop, S|]. constructor; [|constructor].
    unfold link_ok, u32, uint32_max in *. cbn. lia.
  - cbn. lia.
Qed.
End Next.

(** [next] returns [next_core] of the deciding link; no assertion fails. *)
Lemma next_Ok :
  exists l, deciding_link claim l /\ next c blk claim = Ok (next_core l) /\
    core_shape (next_core l) l
      (QcLink (source_block_num b + 1) (claim_block_num claim) (is_strong_qc claim)) /\
    source_block_num f <= source_block_num l /\ target_block_num f <= target_block_num l.
Proof.
  destruct get_new_block_numbers_Ok as (l & Hd & E & Hlook & Hsrc & Htgt & Hl).
  pose proof (next_core_shape l Hlook Hsrc Htgt Hl) as Hshape.
  exists l. split_and!; [done| |done|lia|lia].
  pose proof (next_links_Ok l Hlook Hsrc) as El.
  assert (next_refs c (target_block_num l) blk = Ok (refs (next_core l))) as Er
    by by apply next_refs_Ok.
  pose proof (qc_claim_leb_num _ _ Hclaim) as Hle. cbn in Hle.
  pose proof (shape_back_ok S) as [_ Hb].
  unfold next. rewrite current_block_num_Ok, latest_qc_claim_Ok, last_final_block_num_Ok, links_front_Ok.
  cbn [mbind result_bind]. pass_with ltac:(lia).
  assert (Hlast : match last (refs c) with Some r => block_num r + 1 = source_block_num b /\
            timestamp r < timestamp blk | None => True end).
  { destruct (last (refs c)) as [r|] eqn:E0; [|done]. split; [by apply (cs_inv5 _ _ _ S)|by apply Hts]. }
  pass_with ltac:(destruct (last (refs c)); [rewrite wrap32_id; unfold u32, uint32_max in *; lia|done]).
  pass_with ltac:(destruct (last (refs c)); [lia|done]).
  pass_with ltac:(lia). rewrite Hclaim, E. cbn [mbind result_bind].
  do 4 (pass_with ltac:(lia)). rewrite El, Er.
  cbn [mbind result_bind]. unfold latest_qc_claim, links_back. cbn [links next_core].
  rewrite last_snoc. cbn. by pass_with ltac:(lia).
Qed.
End Accessors.

(** ** Properties *)

(** The preconditions [next] documents, and that block numbers do not overflow. *)
Record next_pre (c : finality_core) (blk : block_ref) (claim : qc_claim_t) : Prop := {
  np_num : current_block_num c = Ok (block_num blk);
  np_max : block_num blk < uint32_max;
  np_time : forall r, last (refs c) = Some r -> timestamp r < timestamp blk;
  np_claim_num : claim_block_num claim <= block_num blk;
  np_claim : exists latest, latest_qc_claim c = Ok latest /\ qc_claim_leb latest claim = true
}.

Section Properties.
Context {hasher : Sha256Hash}.

Lemma next_pre_Ok c f b blk claim :
  core_shape c f b -> next_pre c blk claim ->
  exists l, deciding_link (c := c) (f := f) claim l /\ next c blk claim = Ok (next_core (c := c) (f := f) (b := b) claim blk l) /\
    core_shape (next_core (c := c) (f := f) (b := b) claim blk l) l
      (QcLink (source_block_num b + 1) (claim_block_num claim) (is_strong_qc claim)) /\
    source_block_num f <= source_block_num l /\ target_block_num f <= target_block_num l.
Proof.
  intros S [Hnum Hmax Hts Hc (latest & Hlatest & Hle)].
  rewrite (current_block_num_Ok S) in Hnum. rewrite (latest_qc_claim_Ok S) in Hlatest.
  injection Hnum as Hnum. injection Hlatest as <-. rewrite <- Hnum in *.
  by apply next_Ok.
Qed.

(** The assertions of [next] are its preconditions. *)
Lemma next_Ok_pre c f b blk claim c' :
  core_shape c f b -> block_num blk < uint32_max -> next c blk claim = Ok c' ->
  next_pre c blk claim.
Proof.
  intros S Hmax H. unfold next in H. inv_result.
  rewrite (current_block_num_Ok S) in E. injection E as <-.
  apply Z.eqb_eq in E0. constructor.
  - by rewrite (current_block_num_Ok S), E0.
  - lia.
  - intros r Hr. rewrite Hr in E2. lia.
  - lia.
  - eauto.
Qed.

Lemma genesis_core_shape id ts :
  core_shape (create_core_for_genesis_block id ts)
    (QcLink (num_from_id id) (num_from_id id) false) (QcLink (num_from_id id) (num_from_id id) false).
Proof.
  pose proof (num_from_id_u32 id) as [??]. constructor; cbn; try done; try lia; try apply adjacent_nil; try apply adjacent_singleton.
  constructor; [|constructor]. unfold link_ok, u32. cbn. lia.
Qed.

(** The genesis core satisfies every invariant, is at the block it is made
    for, claims that block weakly and has it final. *)
Theorem create_core_for_genesis_block_correct (id : block_id_type) (ts : block_timestamp_type) :
  let c := create_core_for_genesis_block id ts in
  core_inv c /\
  current_block_num c = Ok (num_from_id id) /\
  latest_qc_claim c = Ok (QcClaim (num_from_id id) false) /\
  last_final_block_num c = Ok (num_from_id id) /\
  last_final_block_timestamp c = Ok ts /\ latest_qc_block_timestamp c = Ok ts.
Proof.
  split; [|done]. eexists _, _. apply genesis_core_shape.
Qed.

(** C24: On a core that satisfies the invariants, and under its documented
    preconditions, [next] returns a core: none of its assertions (nor those of
    the functions it calls) fails.  The core it returns satisfies the
    invariants and the documented postconditions. *)
Theorem next_correct (c : finality_core) (blk : block_ref) (claim : qc_claim_t) :
  core_inv c -> next_pre c blk claim ->
  exists c' lf lf', next c blk claim = Ok c' /\ core_inv c' /\
    current_block_num c' = Ok (block_num blk + 1) /\
    latest_qc_claim c' = Ok claim /\
    last_final_block_num c = Ok lf /\ last_final_block_num c' = Ok lf' /\
    lf <= lf' <= claim_block_num claim.
Proof.
  intros (f & b & S) Hpre. destruct (next_pre_Ok _ _ _ _ _ S Hpre) as (l & Hd & E & S' & Hl1 & Hl2).
  pose proof (np_num _ _ _ Hpre) as Hnum. rewrite (current_block_num_Ok S) in Hnum. injection Hnum as <-.
  exists (next_core (c := c) (f := f) (b := b) claim blk l), (target_block_num f), (target_block_num l).
  pose proof (cs_inv2 _ _ _ S') as H2. cbn in H2. split_and!; [done|by eexists _, _| | | | |lia|lia].
  - by rewrite (current_block_num_Ok S').
  - rewrite (latest_qc_claim_Ok S'). by destruct claim.
  - by rewrite (last_final_block_num_Ok S).
  - by rewrite (last_final_block_num_Ok S').
Qed.

(** The rule of finality.  A weak claim leaves the last final block as it
    is.  A strong claim of a block makes final the block that one claims: two
    links in a row, the second of them strong. *)
Theorem next_finality_rule (c c' : finality_core) (blk : block_ref) (claim : qc_claim_t) :
  core_inv c -> block_num blk < uint32_max -> next c blk claim = Ok c' ->
  if is_strong_qc claim then
    exists l, l ∈ links c /\ source_block_num l = claim_block_num claim /\
      last_final_block_num c' = Ok (target_block_num l)
  else last_final_block_num c' = last_final_block_num c.
Proof.
  intros (f & b & S) Hmax H.
  destruct (next_pre_Ok _ _ _ _ _ S (next_Ok_pre _ _ _ _ _ _ S Hmax H)) as (l & Hd & E & S' & _).
  rewrite E in H. injection H as <-. unfold deciding_link in Hd. destruct (is_strong_qc claim).
  - destruct Hd as [Hd1 Hd2]. exists l. split_and!; [by eapply list_elem_of_lookup_2|done|].
    by rewrite (last_final_block_num_Ok S').
  - by rewrite (last_final_block_num_Ok S'), (last_final_block_num_Ok S), Hd.
Qed.

(** [next_metadata] foretells [next]: the metadata it returns are the last
    final block and the claim of the core [next] makes. *)
Theorem next_metadata_agrees (c c' : finality_core) (blk : block_ref) (claim : qc_claim_t) :
  core_inv c -> block_num blk < uint32_max -> next c blk claim = Ok c' ->
  exists m, next_metadata c claim = Ok m /\
    last_final_block_num c' = Ok (meta_last_final_block_num m) /\
    latest_qc_claim c' = Ok (QcClaim (meta_latest_qc_claim_block_num m) (is_strong_qc claim)).
Proof.
  intros (f & b & S) Hmax H.
  pose proof (next_Ok_pre _ _ _ _ _ _ S Hmax H) as Hpre.
  destruct (next_pre_Ok _ _ _ _ _ S Hpre) as (l & Hd & E & S' & _).
  rewrite E in H. injection H as <-.
  destruct Hpre as [Hnum _ _ Hc (latest & Hlatest & Hle)].
  rewrite (latest_qc_claim_Ok S) in Hlatest. rewrite (current_block_num_Ok S) in Hnum. simplify_eq.
  destruct (next_metadata_Ok S claim Hle ltac:(lia)) as (l' & Hd' & E').
  assert (l' = l) as ->.
  { unfold deciding_link in *. destruct (is_strong_qc claim); [|by subst].
    destruct Hd as [Hd _], Hd' as [Hd' _]. congruence. }
  eexists. split; [exact E'|]. by rewrite (last_final_block_num_Ok S'), (latest_qc_claim_Ok S').
Qed.

(** [extends] decides ancestry within the reversible part of the branch:
    it never fails, and is true of the ids of the references and only of them. *)
Theorem extends_correct (c : finality_core) (id : block_id_type) :
  core_inv c ->
  exists r, extends c id = Ok r /\ (r = true <-> exists ref, ref ∈ refs c /\ block_id ref = id).
Proof. intros (f & b & S). apply (extends_Ok S). Qed.

(** The cores a chain of blocks makes, with the blocks in order. *)
Inductive core_reachable : list block_ref -> finality_core -> Prop :=
| reach_genesis id ts : core_reachable [] (create_core_for_genesis_block id ts)
| reach_next blks c blk claim c' :
    core_reachable blks c -> block_num blk < uint32_max -> next c blk claim = Ok c' ->
    core_reachable (blks ++ [blk]) c'.

Lemma core_reachable_history blks c :
  core_reachable blks c ->
  exists f b older, core_shape c f b /\ blks = older ++ refs c /\
    (forall r, r ∈ older -> block_num r < target_block_num f).
Proof.
  induction 1 as [id ts|blks c blk claim c' _ (f & b & older & S & -> & Hold) Hmax H].
  - eexists _, _, []. split_and!; [apply genesis_core_shape|done|].
    intros r Hr. by apply elem_of_nil in Hr.
  -    destruct (next_pre_Ok _ _ _ _ _ S (next_Ok_pre _ _ _ _ _ _ S Hmax H)) as (l & Hd & E & S' & _ & Hl).
    rewrite E in H. injection H as <-. set (k := Z.to_nat (target_block_num l - target_block_num f)).
    exists l, (QcLink (source_block_num b + 1) (claim_block_num claim) (is_strong_qc claim)),
      (older ++ take k (refs c)). split_and!; [done| |].
    + cbn. fold k. rewrite <- !app_assoc, (app_assoc (take k _)), take_drop. done.
    + intros r [Hr|Hr]%elem_of_app; [specialize (Hold r Hr); lia|].
      apply list_elem_of_lookup in Hr as [i Hi]. apply lookup_take_Some in Hi as [Hi Hk].
      pose proof (shape_ref_num S _ _ Hi). lia.
Qed.

(** Along any chain of cores from a genesis block, the references of a core
    are exactly the blocks of the chain from the last final block on, in order;
    so nothing reversible is ever dropped and nothing final is ever kept. *)
Theorem core_refs_are_history (blks : list block_ref) (c : finality_core) :
  core_reachable blks c ->
  exists lf, last_final_block_num c = Ok lf /\
    refs c = filter (fun r => lf <= block_num r) blks.
Proof.
  intros H. destruct (core_reachable_history _ _ H) as (f & b & older & S & -> & Hold).
  exists (target_block_num f). split; [by apply (last_final_block_num_Ok S)|].
  rewrite filter_app.
  rewrite (filter_none _ older), (filter_all _ (refs c)); [done| |].
  - intros r Hr. apply list_elem_of_lookup in Hr as [i Hi]. rewrite (shape_ref_num S _ _ Hi). lia.
  - intros r Hr. specialize (Hold r Hr). lia.
Qed.
End Properties.

(** ** The properties at concrete blocks *)

(** Cores made by a sequence of blocks and claims. *)
Definition core_step (c : finality_core) (step : block_ref * qc_claim_t) : result finality_core :=
  ASSERT block_num step.1 <? uint32_max ;; next c step.1 step.2.

Lemma core_reachable_steps steps blks c c' :
  core_reachable blks c -> foldM core_step c steps = Ok c' -> core_reachable (blks ++ map fst steps) c'.
Proof.
  revert blks c. induction steps as [|[blk claim] steps IH]; cbn; intros blks c Hc H; inv_result.
  - by rewrite app_nil_r.
  - unfold core_step in E. inv_result. replace (blks ++ blk :: map fst steps)
      with ((blks ++ [blk]) ++ map fst steps) by by rewrite <- app_assoc.
    eapply IH; [|exact H]. eapply reach_next; [exact Hc|cbn in *; lia|exact E].
Qed.

Definition example_id (n : Z) : block_id_type := id_from_digest (Sha256 (2 ^ 40) 1 2 n) n.
Definition example_ref (n : Z) : block_ref := BlockRef (example_id n) (100 + n) (Sha256 n n n n) 1 1.
Definition example_genesis : finality_core := create_core_for_genesis_block (example_id 1) 101.

(** Blocks 1 to 4; the QC on block [n] is strong and is claimed by block [n + 1]. *)
Definition example_steps : list (block_ref * qc_claim_t) :=
  [(example_ref 1, QcClaim 1 false); (example_ref 2, QcClaim 2 true);
   (example_ref 3, QcClaim 3 true); (example_ref 4, QcClaim 4 true)].

Definition example_core : finality_core :=
  match foldM core_step example_genesis example_steps with Ok c => c | Throw _ => example_genesis end.

Example example_core_value :
  map source_block_num (links example_core) = [4; 5] /\
  map target_block_num (links example_core) = [3; 4] /\
  refs example_core = [example_ref 3; example_ref 4].
Proof. by vm_compute. Qed.

Lemma example_core_reachable : core_reachable (map example_ref [1; 2; 3; 4]) example_core.
Proof.
  apply (core_reachable_steps example_steps [] example_genesis); [constructor|by vm_compute].
Qed.

Lemma example_core_inv : core_inv example_core.
Proof.
  destruct (core_reachable_history _ _ example_core_reachable) as (f & b & _ & S & _). by exists f, b.
Qed.

Lemma example_next_pre : next_pre example_core (example_ref 5) (QcClaim 5 true).
Proof.
  constructor.
  - by vm_compute.
  - by vm_compute.
  - change (refs example_core) with (refs example_core). intros r.
    destruct example_core_value as (_ & _ & ->). cbn. intros [= <-]. by vm_compute.
  - by vm_compute.
  - eexists. split; [by vm_compute|]. by vm_compute.
Qed.

Lemma next_correct_witness :
  exists c' lf lf', next example_core (example_ref 5) (QcClaim 5 true) = Ok c' /\ core_inv c' /\
    current_block_num c' = Ok (block_num (example_ref 5) + 1) /\
    latest_qc_claim c' = Ok (QcClaim 5 true) /\
    last_final_block_num example_core = Ok lf /\ last_final_block_num c' = Ok lf' /\
    lf <= lf' <= claim_block_num (QcClaim 5 true).
Proof. exact (next_correct _ _ _ example_core_inv example_next_pre). Defined.

Definition example_core' : finality_core :=
  match next example_core (example_ref 5) (QcClaim 5 true) with Ok c => c | Throw _ => example_core end.

Lemma next_finality_rule_witness :
  exists l, l ∈ links example_core /\ source_block_num l = 5 /\
    last_final_block_num example_core' = Ok (target_block_num l).
Proof.
  apply (next_finality_rule example_core example_core' (example_ref 5) (QcClaim 5 true));
    [exact example_core_inv|by vm_compute|by vm_compute].
Defined.

Lemma next_metadata_agrees_witness :
  exists m, next_metadata example_core (QcClaim 5 true) = Ok m /\
    last_final_block_num example_core' = Ok (meta_last_final_block_num m) /\
    latest_qc_claim example_core' = Ok (QcClaim (meta_latest_qc_claim_block_num m) true).
Proof.
  apply (next_metadata_agrees example_core example_core' (example_ref 5) (QcClaim 5 true));
    [exact example_core_inv|by vm_compute|by vm_compute].
Defined.

Lemma extends_correct_witness :
  exists r, extends example_core (example_id 3) = Ok r /\
    (r = true <-> exists ref, ref ∈ refs example_core /\ block_id ref = example_id 3).
Proof. exact (extends_correct _ _ example_core_inv). Defined.

Lemma core_refs_are_history_witness :
  exists lf, last_final_block_num example_core = Ok lf /\
    refs example_core = filter (fun r => lf <= block_num r) (map example_ref [1; 2; 3; 4]).
Proof. exact (core_refs_are_history _ _ example_core_reachable). Defined.
