(* ===== verification/OrderedDiff.v ===== *)
(** * Ordered differences of vectors

    [fc::ordered_diff] ([libfc/include/fc/container/ordered_diff.hpp]): the
    difference of two vectors as indexes to remove and elements to insert, and
    its application.  [size_max] is the largest value of [SizeType].  Block
    header extensions carry such differences of policies, so [apply_diff] is
    also run on differences made by others. *)

From S2P Require Import Prelude.

Record diff_result (T : Type) : Type := DiffResult {
  remove_indexes : list nat;
  insert_indexes : list (nat * T)
}.
Arguments DiffResult {T} _ _.
Arguments remove_indexes {T} _.
Arguments insert_indexes {T} _.

Section OrderedDiff.
Context {T : Type} `{!EqDecision T} (size_max : Z).
Implicit Types source target container : list T.

(** ** Definitions *)

Definition push_remove (s : nat) (r : diff_result T) : result (diff_result T) :=
  ASSERT Z.of_nat s <=? size_max ;;
  Ok (DiffResult (remove_indexes r ++ [s]) (insert_indexes r)).

Definition push_insert (t : nat) (y : T) (r : diff_result T) : result (diff_result T) :=
  ASSERT Z.of_nat t <=? size_max ;;
  Ok (DiffResult (remove_indexes r) (insert_indexes r ++ [(t, y)])).

(** [source[i] == target[j]] when both indexes are in range. *)
Definition same_at source target (i j : nat) : bool :=
  match source !! i, target !! j with
  | Some x, Some y => bool_decide (x = y)
  | _, _ => false
  end.

(** The loop of [diff]; every turn advances [s] or [t]. *)
Fixpoint diff_loop (fuel : nat) source target (s t : nat) (r : diff_result T) :
    result (diff_result T) :=
  match fuel with
  | O => Throw assert_failed
  | S fuel =>
      match source !! s, target !! t with
      | None, None => Ok r
      | Some x, Some y =>
          if decide (x = y) then diff_loop fuel source target (S s) (S t) r
          else if bool_decide (s = length source - 1)%nat && bool_decide (t = length target - 1)%nat then
            r1 ← push_remove s r; r2 ← push_insert t y r1;
            diff_loop fuel source target (S s) (S t) r2
          else if same_at source target (S s) (S t) then
            r1 ← push_remove s r; r2 ← push_insert t y r1;
            diff_loop fuel source target (S s) (S t) r2
          else if same_at source target s (S t) then
            r1 ← push_insert t y r; diff_loop fuel source target s (S t) r1
          else
            r1 ← push_remove s r; diff_loop fuel source target (S s) t r1
      | Some _, None => r1 ← push_remove s r; diff_loop fuel source target (S s) t r1
      | None, Some y => r1 ← push_insert t y r; diff_loop fuel source target s (S t) r1
      end
  end.

Definition diff source target : result (diff_result T) :=
  EOS_ASSERT bool_decide (source = []) || (size_of source - 1 <=? size_max) ,, fc_assert_exception ;;
  EOS_ASSERT bool_decide (target = []) || (size_of target - 1 <=? size_max) ,, fc_assert_exception ;;
  diff_loop (S (length source + length target)) source target 0 0 (DiffResult [] []).

(** The first loop of [apply_diff], from its [i]-th turn; [prev] is the
    previous index. *)
Fixpoint remove_loop (i : nat) (prev : option nat) (indexes : list nat) container : result (list T) :=
  match indexes with
  | [] => Ok container
  | n :: rest =>
      EOS_ASSERT match prev with Some p => (p <? n)%nat | None => true end ,, fc_assert_exception ;;
      ASSERT (i <=? n)%nat ;;
      let updated_index := (n - i)%nat in
      EOS_ASSERT (updated_index <? length container)%nat ,, fc_assert_exception ;;
      remove_loop (S i) (Some n) rest (take updated_index container ++ drop (S updated_index) container)
  end.

(** The second loop. *)
Fixpoint insert_loop (prev : option nat) (indexes : list (nat * T)) container : result (list T) :=
  match indexes with
  | [] => Ok container
  | (n, value) :: rest =>
      EOS_ASSERT match prev with Some p => (p <? n)%nat | None => true end ,, fc_assert_exception ;;
      EOS_ASSERT (n <=? length container)%nat ,, fc_assert_exception ;;
      insert_loop (Some n) rest (take n container ++ value :: drop n container)
  end.

Definition apply_diff container (d : diff_result T) : result (list T) :=
  c ← remove_loop 0 None (remove_indexes d) container;
  insert_loop None (insert_indexes d) c.

(** ** Edit scripts *)

(** [script s t src tgt R I K]: removing from [src], whose first element has
    index [s], the elements at the indexes [R] leaves [K], and inserting [I]
    into [K] makes [tgt], whose first element has index [t]. *)
Inductive script : nat -> nat -> list T -> list T -> list nat -> list (nat * T) -> list T -> Prop :=
| script_done s t : script s t [] [] [] [] []
| script_keep s t x src tgt R I K :
    script (S s) (S t) src tgt R I K -> script s t (x :: src) (x :: tgt) R I (x :: K)
| script_remove s t x src tgt R I K :
    script (S s) t src tgt R I K -> script s t (x :: src) tgt (s :: R) I K
| script_insert s t y src tgt R I K :
    script s (S t) src tgt R I K -> script s t src (y :: tgt) R ((t, y) :: I) K.

Definition after (n : nat) (prev : option nat) : Prop :=
  match prev with Some p => (p < n)%nat | None => True end.

Lemma remove_loop_script s t src tgt R I K i prev pre :
  script s t src tgt R I K -> length pre = (s - i)%nat -> (i <= s)%nat -> after s prev ->
  remove_loop i prev R (pre ++ src) = Ok (pre ++ K).
Proof.
  intros H. revert i prev pre. induction H as
    [s t|s t x src tgt R I K H IH|s t x src tgt R I K H IH|s t y src tgt R I K H IH];
    intros i prev pre Hpre Hi Hprev; cbn.
  - done.
  - replace (pre ++ x :: src) with ((pre ++ [x]) ++ src) by by rewrite <- app_assoc.
    replace (pre ++ x :: K) with ((pre ++ [x]) ++ K) by by rewrite <- app_assoc.
    apply IH; [rewrite length_app; cbn; lia|lia|]. destruct prev; cbn in *; lia.
  - pass_with ltac:(destruct prev; cbn in *; [by apply Nat.ltb_lt|done]).
    pass_with ltac:(by apply Nat.leb_le).
    pass_with ltac:(apply Nat.ltb_lt; rewrite length_app; cbn; lia).
    rewrite <- Hpre, take_app_length.
    replace (drop (S (length pre)) (pre ++ x :: src)) with src
      by (replace (S (length pre)) with (length (pre ++ [x])) by (rewrite length_app; cbn; lia);
          by rewrite (app_assoc pre [x] src : pre ++ x :: src = _), drop_app_length).
    apply IH; cbn; lia.
  - apply IH; [lia|lia|done].
Qed.

Lemma insert_loop_script s t src tgt R I K prev pre :
  script s t src tgt R I K -> length pre = t -> after t prev ->
  insert_loop prev I (pre ++ K) = Ok (pre ++ tgt).
Proof.
  intros H. revert prev pre. induction H as
    [s t|s t x src tgt R I K H IH|s t x src tgt R I K H IH|s t y src tgt R I K H IH];
    intros prev pre Hpre Hprev; cbn.
  - done.
  - replace (pre ++ x :: tgt) with ((pre ++ [x]) ++ tgt) by by rewrite <- app_assoc.
    replace (pre ++ x :: K) with ((pre ++ [x]) ++ K) by by rewrite <- app_assoc.
    apply IH; [rewrite length_app; cbn; lia|]. destruct prev; cbn in *; lia.
  - by apply IH.
  - pass_with ltac:(destruct prev; cbn in *; [by apply Nat.ltb_lt|done]).
    pass_with ltac:(apply Nat.leb_le; rewrite length_app; lia).
    rewrite <- Hpre, take_app_length, drop_app_length.
    replace (pre ++ y :: tgt) with ((pre ++ [y]) ++ tgt) by by rewrite <- app_assoc.
    replace (pre ++ y :: K) with ((pre ++ [y]) ++ K) by by rewrite <- app_assoc.
    apply IH; [rewrite length_app; cbn; lia|cbn; lia].
Qed.

Lemma apply_diff_script source target R I K :
  script 0 0 source target R I K -> apply_diff source (DiffResult R I) = Ok target.
Proof.
  intros H. unfold apply_diff. cbn.
  pose proof (remove_loop_script _ _ _ _ _ _ _ 0 None [] H) as E1. cbn in E1.
  rewrite E1 by (done || lia). cbn.
  pose proof (insert_loop_script _ _ _ _ _ _ _ None [] H) as E2. cbn in E2. by apply E2.
Qed.

(** ** The loop of [diff] makes a script *)

Lemma drop_lookup_cons (l : list T) n x : l !! n = Some x -> drop n l = x :: drop (S n) l.
Proof. intros H. by rewrite (drop_S l x n). Qed.

Lemma drop_lookup_nil (l : list T) n : l !! n = None -> drop n l = [].
Proof. intros H. apply drop_ge. by apply lookup_ge_None. Qed.

Context (source target : list T).
Context (Hs : size_of source - 1 <= size_max) (Ht : size_of target - 1 <= size_max).

Lemma push_remove_Ok s x R I :
  source !! s = Some x -> push_remove s (DiffResult R I) = Ok (DiffResult (R ++ [s]) I).
Proof.
  intros H%lookup_lt_Some. unfold push_remove, size_of in *. by pass_with ltac:(lia).
Qed.

Lemma push_insert_Ok t y R I :
  target !! t = Some y -> push_insert t y (DiffResult R I) = Ok (DiffResult R (I ++ [(t, y)])).
Proof.
  intros H%lookup_lt_Some. unfold push_insert, size_of in *. by pass_with ltac:(lia).
Qed.

Lemma diff_loop_script fuel s t R0 I0 :
  (length source - s + (length target - t) < fuel)%nat ->
  exists R I K, diff_loop fuel source target s t (DiffResult R0 I0) = Ok (DiffResult (R0 ++ R) (I0 ++ I)) /\
    script s t (drop s source) (drop t target) R I K.
Proof.
  revert s t R0 I0. induction fuel as [|fuel IH]; intros s t R0 I0 Hfuel; [lia|]. cbn [diff_loop].
  destruct (source !! s) as [x|] eqn:Ex, (target !! t) as [y|] eqn:Ey.
  - pose proof (lookup_lt_Some _ _ _ Ex). pose proof (lookup_lt_Some _ _ _ Ey).
    rewrite (drop_lookup_cons _ _ _ Ex), (drop_lookup_cons _ _ _ Ey).
    assert (Hboth : exists R I K, diff_loop fuel source target (S s) (S t)
        (DiffResult (R0 ++ [s]) (I0 ++ [(t, y)])) = Ok (DiffResult (R0 ++ R) (I0 ++ I)) /\
        script s t (x :: drop (S s) source) (y :: drop (S t) target) R I K).
    { destruct (IH (S s) (S t) (R0 ++ [s]) (I0 ++ [(t, y)])) as (R & I & K & -> & H'); [lia|].
      exists (s :: R), ((t, y) :: I), K. rewrite <- !app_assoc. split; [done|]. by do 2 constructor. }
    destruct (decide (x = y)) as [->|Hne].
    { destruct (IH (S s) (S t) R0 I0) as (R & I & K & E & H'); [lia|].
      exists R, I, (y :: K). split; [done|by constructor]. }
    rewrite (push_remove_Ok _ _ _ _ Ex), !(push_insert_Ok _ _ _ _ Ey). cbn [mbind result_bind].
    rewrite !(push_insert_Ok _ _ _ _ Ey). cbn [mbind result_bind].
    destruct (_ && _); [exact Hboth|]. destruct (same_at _ _ _ _); [exact Hboth|].
    destruct (same_at _ _ _ _).
    + destruct (IH s (S t) R0 (I0 ++ [(t, y)])) as (R & I & K & -> & H'); [lia|].
      exists R, ((t, y) :: I), K. rewrite <- !app_assoc. split; [done|].
      constructor. by rewrite <- (drop_lookup_cons _ _ _ Ex).
    + destruct (IH (S s) t (R0 ++ [s]) I0) as (R & I & K & -> & H'); [lia|].
      exists (s :: R), I, K. rewrite <- !app_assoc. split; [done|].
      constructor. by rewrite <- (drop_lookup_cons _ _ _ Ey).
  - pose proof (lookup_lt_Some _ _ _ Ex).
    rewrite (drop_lookup_cons _ _ _ Ex), (push_remove_Ok _ _ _ _ Ex). cbn [mbind result_bind].
    destruct (IH (S s) t (R0 ++ [s]) I0) as (R & I & K & -> & H'); [lia|].
    exists (s :: R), I, K. rewrite <- !app_assoc. split; [done|by constructor].
  - pose proof (lookup_lt_Some _ _ _ Ey).
    rewrite (drop_lookup_cons _ _ _ Ey), (push_insert_Ok _ _ _ _ Ey). cbn [mbind result_bind].
    destruct (IH s (S t) R0 (I0 ++ [(t, y)])) as (R & I & K & -> & H'); [lia|].
    exists R, ((t, y) :: I), K. rewrite <- !app_assoc. split; [done|by constructor].
  - exists [], [], []. rewrite !app_nil_r, (drop_lookup_nil _ _ Ex), (drop_lookup_nil _ _ Ey).
    split; [done|constructor].
Qed.
End OrderedDiff.

(** ** Properties *)

Section Properties.
Context {T : Type} {eq_dec : EqDecision T} (size_max : Z).

Lemma diff_script (source target : list T) :
  size_of source - 1 <= size_max -> size_of target - 1 <= size_max ->
  exists R I K, diff size_max source target = Ok (DiffResult R I) /\ script 0 0 source target R I K.
Proof.
  intros Hs Ht. unfold diff.
  pass_with ltac:(apply orb_true_iff; right; lia). pass_with ltac:(apply orb_true_iff; right; lia).
  destruct (diff_loop_script size_max source target Hs Ht (S (length source + length target)) 0 0 [] [])
    as (R & I & K & E & H); [lia|]. rewrite !drop_0 in H. by exists R, I, K.
Qed.

Lemma apply_diff_diff_eq (source target : list T) :
  size_of source - 1 <= size_max -> size_of target - 1 <= size_max ->
  (d ← diff size_max source target; apply_diff source d) = Ok target.
Proof.
  intros Hs Ht. destruct (diff_script source target Hs Ht) as (R & I & K & -> & H). cbn.
  by eapply apply_diff_script.
Qed.

Lemma diff_too_large_eq (source target : list T) :
  0 <= size_max -> size_max < size_of source - 1 \/ size_max < size_of target - 1 ->
  diff size_max source target = Throw fc_assert_exception.
Proof.
  intros H0 H. unfold diff.
  assert (forall l : list T, bool_decide (l = []) || (size_of l - 1 <=? size_max) = true ->
            size_of l - 1 <= size_max) as Hl.
  { intros l [E|E]%orb_true_iff; [|lia]. apply bool_decide_eq_true in E as ->. unfold size_of. cbn. lia. }
  destruct (bool_decide (source = []) || _) eqn:E1; [|done].
  destruct (bool_decide (target = []) || _) eqn:E2; [|done].
  apply Hl in E1, E2. lia.
Qed.

(** A vector whose indexes fit [SizeType] is restored from its difference
    to another such vector: [diff] succeeds and [apply_diff] of the difference
    is the target.  When the indexes of either do not fit, [diff] refuses. *)
Theorem apply_diff_diff (source target : list T) :
  0 <= size_max ->
  (d ← diff size_max source target; apply_diff source d) =
    if bool_decide (size_of source - 1 <= size_max /\ size_of target - 1 <= size_max)
    then Ok target else Throw fc_assert_exception.
Proof.
  intros H0. destruct (bool_decide_reflect (size_of source - 1 <= size_max /\ size_of target - 1 <= size_max))
    as [[Hs Ht]|Hno].
  - by apply apply_diff_diff_eq.
  - rewrite diff_too_large_eq; [done|done|lia].
Qed.

Lemma remove_loop_no_assert i prev indexes (c : list T) :
  (match prev with Some p => i <= S p | None => i = 0 end)%nat ->
  remove_loop i prev indexes c <> Throw assert_failed.
Proof.
  revert i prev c. induction indexes as [|n indexes IH]; intros i prev c Hi; cbn [remove_loop]; [done|].
  destruct (match prev with Some p => _ | None => _ end) eqn:E; [|done].
  assert (i <= n)%nat as Hle.
  { destruct prev as [p|]; [apply Nat.ltb_lt in E|]; simpl in Hi; lia. }
  apply Nat.leb_le in Hle as Hle'. rewrite Hle'. destruct (n - i <? length c)%nat; [|done].
  apply IH. lia.
Qed.

Lemma insert_loop_no_assert prev indexes (c : list T) :
  insert_loop prev indexes c <> Throw assert_failed.
Proof.
  revert prev c. induction indexes as [|[n v] indexes IH]; intros prev c; cbn [insert_loop]; [done|].
  destruct (match prev with Some p => _ | None => _ end); [|done]. by destruct (n <=? length c)%nat.
Qed.

(** [apply_diff] of any difference, however malformed, to any vector is
    either a vector or the documented [fc_assert_exception]: the [assert] of
    the first loop never fails and no index is out of range. *)
Theorem apply_diff_total (container : list T) (d : diff_result T) :
  match apply_diff container d with Ok _ => True | Throw e => e = fc_assert_exception end.
Proof.
  assert (H1 : forall i prev indexes (c : list T), match remove_loop i prev indexes c with
            Ok _ => True | Throw e => e = fc_assert_exception \/ e = assert_failed end).
  { intros i prev indexes. revert i prev. induction indexes as [|n indexes IH]; intros i prev c; cbn [remove_loop]; [done|].
    destruct (match prev with Some p => _ | None => _ end); [|by left].
    destruct (i <=? n)%nat; [|by right]. destruct (n - i <? length c)%nat; [apply IH|by left]. }
  assert (H2 : forall prev indexes (c : list T), match insert_loop prev indexes c with
            Ok _ => True | Throw e => e = fc_assert_exception end).
  { intros prev indexes. revert prev. induction indexes as [|[n v] indexes IH]; intros prev c; cbn [insert_loop]; [done|].
    destruct (match prev with Some p => _ | None => _ end); [|done]. destruct (n <=? length c)%nat; [apply IH|done]. }
  unfold apply_diff.
  pose proof (remove_loop_no_assert 0 None (remove_indexes d) container eq_refl).
  specialize (H1 0%nat None (remove_indexes d) container).
  destruct (remove_loop _ _ _ _) as [c|e]; cbn; [apply H2|]. destruct H1; [done|congruence].
Qed.
End Properties.

Lemma apply_diff_diff_witness :
  (d ← diff 65535 [1; 2; 6; 3; 4] [2; 6; 3; 4; 5; 8]; apply_diff [1; 2; 6; 3; 4] d) = Ok [2; 6; 3; 4; 5; 8].
Proof.
  rewrite (apply_diff_diff 65535 [1; 2; 6; 3; 4] [2; 6; 3; 4; 5; 8] ltac:(lia)).
  by rewrite bool_decide_true by by vm_compute.
Defined.
