(* ===== verification/Policies.v ===== *)
(** * Producer authorities, proposer policies and finalizer policies

    [producer_schedule.hpp], [proposer_policy.hpp], [finalizer_authority.hpp],
    [finalizer_policy.hpp], and the checks the host functions
    [set_proposed_producers] and [set_finalizers] make of what a contract
    proposes ([webassembly/privileged.cpp]).  Keys are compared by their bytes;
    whether bytes are a valid key is the business of the crypto libraries: the
    classes [KeyValid] and [BlsKeyValid]. *)

From S2P Require Import Prelude ChainTypes OrderedDiff.

(** ** Data *)

(** [fc::crypto::public_key]: a variant.  A K1 or R1 key is its 33 bytes; a
    WebAuthn key has also the presence it asks of the user and the id of its
    relying party. *)
Inductive public_key_type : Set :=
| K1Key (data : list Z)
| R1Key (data : list Z)
| WebAuthnKey (data : list Z) (user_presence : Z) (rpid : list Z).

Definition which (k : public_key_type) : Z :=
  match k with K1Key _ => 0 | R1Key _ => 1 | WebAuthnKey _ _ _ => 2 end.

#[export] Instance public_key_eq_dec : EqDecision public_key_type.
Proof. solve_decision. Defined.

#[export] Instance public_key_countable : Countable public_key_type.
Proof.
  refine (inj_countable'
    (fun k => match k with K1Key d => inl d | R1Key d => inr (inl d) | WebAuthnKey d u r => inr (inr (d, u, r)) end)
    (fun s => match s with inl d => K1Key d | inr (inl d) => R1Key d | inr (inr (d, u, r)) => WebAuthnKey d u r end) _).
  by intros [].
Defined.

Record key_weight : Set := KeyWeight { key : public_key_type; kw_weight : Z }.

#[export] Instance key_weight_eq_dec : EqDecision key_weight.
Proof. solve_decision. Defined.

(** [block_signing_authority] is a variant of one alternative. *)
Record block_signing_authority_v0 : Set := BlockSigningAuthority {
  authority_threshold : Z;
  keys : list key_weight
}.

#[export] Instance block_signing_authority_eq_dec : EqDecision block_signing_authority_v0.
Proof. solve_decision. Defined.

(** An account name is a [uint64_t]. *)
Record producer_authority : Set := ProducerAuthority {
  producer_name : Z;
  authority : block_signing_authority_v0
}.

#[export] Instance producer_authority_eq_dec : EqDecision producer_authority.
Proof. solve_decision. Defined.

Record producer_authority_schedule : Set := ProducerAuthoritySchedule {
  version : Z;
  producers : list producer_authority
}.

#[export] Instance producer_authority_schedule_eq_dec : EqDecision producer_authority_schedule.
Proof. solve_decision. Defined.

Record proposer_policy : Set := ProposerPolicy {
  proposal_time : block_timestamp_type;
  proposer_schedule : producer_authority_schedule
}.

#[export] Instance proposer_policy_eq_dec : EqDecision proposer_policy.
Proof. solve_decision. Defined.

Record proposer_policy_diff : Set := ProposerPolicyDiff {
  ppd_version : Z;
  ppd_proposal_time : block_timestamp_type;
  producer_auth_diff : diff_result producer_authority
}.

(** The 96 bytes of a BLS key in affine form. *)
Abbreviation bls_public_key := (list Z) (only parsing).

Record finalizer_authority : Set := FinalizerAuthority {
  description : list Z;
  weight : Z;
  public_key : bls_public_key
}.

#[export] Instance finalizer_authority_eq_dec : EqDecision finalizer_authority.
Proof. solve_decision. Defined.

Record finalizer_policy : Set := FinalizerPolicy {
  generation : Z;
  threshold : Z;
  finalizers : list finalizer_authority
}.

#[export] Instance finalizer_policy_eq_dec : EqDecision finalizer_policy.
Proof. solve_decision. Defined.

Record finalizer_policy_diff : Set := FinalizerPolicyDiff {
  fpd_generation : Z;
  fpd_threshold : Z;
  finalizers_diff : diff_result finalizer_authority
}.

(** ** Producer authorities *)

Definition max_proposers : Z := 64 * 1024.
Definition max_finalizers : Z := 64 * 1024.
Definition max_finalizer_description_size : Z := 256.

(** One turn of the loop of [keys_satisfy_and_relevant]: the weight and the
    number of relevant keys so far. *)
Definition satisfy_step (presented : gset public_key_type) (threshold : Z)
    (acc : Z * Z) (kw : key_weight) : Z * Z :=
  let '(total_weight, num_relevant_keys) := acc in
  if decide (key kw ∈ presented) then
    (if total_weight <? threshold
     then total_weight + Z.min (uint32_max - total_weight) (kw_weight kw)
     else total_weight, num_relevant_keys + 1)
  else acc.

Definition keys_satisfy_and_relevant (a : block_signing_authority_v0)
    (presented : gset public_key_type) : bool * Z :=
  let '(total_weight, num_relevant_keys) :=
    foldl (satisfy_step presented (authority_threshold a)) (0, 0) (keys a) in
  (authority_threshold a <=? total_weight, num_relevant_keys).

Class KeyValid : Type := key_valid : public_key_type -> bool.

(** The loop over the keys of one authority: the saturated sum of weights and
    the set of keys. *)
Definition check_key `{KeyValid} (num_supported_key_types : Z) (validate_keys : bool)
    (acc : Z * gset public_key_type) (kw : key_weight) : result (Z * gset public_key_type) :=
  let '(sum_weights, unique_keys) := acc in
  EOS_ASSERT which (key kw) <? num_supported_key_types ,, unactivated_key_type ;;
  EOS_ASSERT implb validate_keys (key_valid (key kw)) ,, wasm_execution_error ;;
  Ok (if uint32_max - sum_weights <=? kw_weight kw then uint32_max else sum_weights + kw_weight kw,
      {[key kw]} ∪ unique_keys).

Definition check_producer `{KeyValid} (is_account : Z -> bool) (num_supported_key_types : Z)
    (validate_keys : bool) (unique_producers : gset Z) (p : producer_authority) : result (gset Z) :=
  EOS_ASSERT is_account (producer_name p) ,, wasm_execution_error ;;
  let a := authority p in
  r ← foldM (check_key num_supported_key_types validate_keys) (0, ∅) (keys a);
  let '(sum_weights, unique_keys) := r in
  EOS_ASSERT (length (keys a) =? size unique_keys)%nat ,, wasm_execution_error ;;
  EOS_ASSERT 0 <? authority_threshold a ,, wasm_execution_error ;;
  EOS_ASSERT authority_threshold a <=? sum_weights ,, wasm_execution_error ;;
  Ok ({[producer_name p]} ∪ unique_producers).

(** The checks of [set_proposed_producers_common]; what passes is given to the
    controller. *)
Definition set_proposed_producers_common `{KeyValid} (disallow_empty_producer_schedule : bool)
    (is_account : Z -> bool) (num_supported_key_types : Z) (validate_keys : bool)
    (producers : list producer_authority) : result (list producer_authority) :=
  EOS_ASSERT (0 <? size_of producers) || negb disallow_empty_producer_schedule ,, wasm_execution_error ;;
  unique_producers ← foldM (check_producer is_account num_supported_key_types validate_keys) ∅ producers;
  EOS_ASSERT (length producers =? size unique_producers)%nat ,, wasm_execution_error ;;
  Ok producers.

(** ** Differences of policies *)

Definition uint16_max : Z := 65535.

Definition proposer_create_diff (p target : proposer_policy) : result proposer_policy_diff :=
  d ← diff uint16_max (producers (proposer_schedule p)) (producers (proposer_schedule target));
  Ok (ProposerPolicyDiff (version (proposer_schedule target)) (proposal_time target) d).

Definition proposer_apply_diff (p : proposer_policy) (d : proposer_policy_diff) : result proposer_policy :=
  ps ← apply_diff (producers (proposer_schedule p)) (producer_auth_diff d);
  Ok (ProposerPolicy (ppd_proposal_time d) (ProducerAuthoritySchedule (ppd_version d) ps)).

Definition finalizer_create_diff (p target : finalizer_policy) : result finalizer_policy_diff :=
  d ← diff uint16_max (finalizers p) (finalizers target);
  Ok (FinalizerPolicyDiff (generation target) (threshold target) d).

Definition finalizer_apply_diff (p : finalizer_policy) (d : finalizer_policy_diff) : result finalizer_policy :=
  fs ← apply_diff (finalizers p) (finalizers_diff d);
  Ok (FinalizerPolicy (fpd_generation d) (fpd_threshold d) fs).

(** ** Finalizer policies *)

(** A value converted to [int]. *)
Definition int32_of (z : Z) : Z := wrap32 (z + 2 ^ 31) - 2 ^ 31.

(** The accumulator of [std::accumulate] has the type of its initial value
    [0], an [int]: each sum is made in 64 bits and converted back. *)
Definition max_weak_sum_before_weak_final (p : finalizer_policy) : Z :=
  let sum := foldl (fun acc f => int32_of (wrap64 (wrap64 acc + weight f))) 0 (finalizers p) in
  wrap64 (wrap64 sum - threshold p).

(** What a contract gives to [set_finalizers], unpacked. *)
Record abi_finalizer_policy : Set := AbiFinalizerPolicy {
  abi_threshold : Z;
  abi_finalizers : list finalizer_authority
}.

(** Whether 96 bytes are a point of the curve (the constructor of
    [bls_public_key] throws when they are not). *)
Class BlsKeyValid : Type := bls_key_valid : list Z -> bool.

Definition add_finalizer `{BlsKeyValid} (acc : Z * gset bls_public_key * list finalizer_authority)
    (f : finalizer_authority) : result (Z * gset bls_public_key * list finalizer_authority) :=
  let '(weight_sum, unique_finalizer_keys, fs) := acc in
  EOS_ASSERT size_of (description f) <=? max_finalizer_description_size ,, wasm_execution_error ;;
  EOS_ASSERT weight f <=? uint64_max - weight_sum ,, wasm_execution_error ;;
  EOS_ASSERT size_of (public_key f) =? 96 ,, wasm_execution_error ;;
  EOS_ASSERT bls_key_valid (public_key f) ,, invalid_bls_public_key ;;
  EOS_ASSERT bool_decide (public_key f ∉ unique_finalizer_keys) ,, wasm_execution_error ;;
  Ok (weight_sum + weight f, {[public_key f]} ∪ unique_finalizer_keys, fs ++ [f]).

Definition set_finalizers `{BlsKeyValid} (is_read_only : bool) (packed_finalizer_format : Z)
    (abi_finpol : abi_finalizer_policy) : result finalizer_policy :=
  EOS_ASSERT negb is_read_only ,, wasm_execution_error ;;
  EOS_ASSERT packed_finalizer_format =? 0 ,, wasm_execution_error ;;
  EOS_ASSERT size_of (abi_finalizers abi_finpol) <=? max_finalizers ,, wasm_execution_error ;;
  EOS_ASSERT 0 <? size_of (abi_finalizers abi_finpol) ,, wasm_execution_error ;;
  r ← foldM add_finalizer (0, ∅, []) (abi_finalizers abi_finpol);
  let '(weight_sum, _, fs) := r in
  EOS_ASSERT (abi_threshold abi_finpol <=? weight_sum) && (weight_sum / 2 <? abi_threshold abi_finpol)
    ,, wasm_execution_error ;;
  Ok (FinalizerPolicy 0 (abi_threshold abi_finpol) fs).

(** ** Weights and quorums *)

Definition total_weight (fs : list finalizer_authority) : Z := Zsum (map weight fs).

(** The weight of the finalizers whose bit is set in [votes]. *)
Fixpoint voted_weight (fs : list finalizer_authority) (votes : list bool) : Z :=
  match fs, votes with
  | f :: fs, v :: votes => (if v then weight f else 0) + voted_weight fs votes
  | _, _ => 0
  end.

Definition weights_ok (fs : list finalizer_authority) : Prop := Forall (fun f => 0 <= weight f) fs.

Lemma voted_weight_bounds fs votes :
  weights_ok fs -> 0 <= voted_weight fs votes <= total_weight fs.
Proof.
  intros H. revert votes. unfold total_weight.
  induction H as [|f fs Hf Hfs IH]; intros [|v votes]; cbn; [lia|lia| |].
  - pose proof (IH []). destruct fs; cbn in *; lia.
  - specialize (IH votes). destruct v; lia.
Qed.

Lemma voted_weight_overlap fs v1 v2 :
  weights_ok fs ->
  voted_weight fs v1 + voted_weight fs v2 <= total_weight fs + voted_weight fs (zip_with andb v1 v2).
Proof.
  intros H. revert v1 v2.
  induction H as [|f fs Hf Hfs IH]; intros v1 v2; [done|].
  assert (Hall : weights_ok (f :: fs)) by by constructor.
  destruct v1 as [|a v1], v2 as [|b v2]; cbn [zip_with].
  - pose proof (voted_weight_bounds _ [] Hall). cbn in *. lia.
  - pose proof (voted_weight_bounds _ (b :: v2) Hall). cbn in *. lia.
  - pose proof (voted_weight_bounds _ (a :: v1) Hall). cbn in *. lia.
  - specialize (IH v1 v2). unfold total_weight in *. cbn. destruct a, b; cbn; lia.
Qed.

Lemma voted_weight_pos fs votes :
  0 < voted_weight fs votes ->
  exists i f, fs !! i = Some f /\ votes !! i = Some true /\ 0 < weight f.
Proof.
  revert votes. induction fs as [|f fs IH]; intros [|v votes]; cbn; try lia.
  destruct v; intros H.
  - destruct (decide (0 < weight f)); [by exists 0%nat, f|].
    destruct (IH votes) as (i & g & ?); [lia|]. by exists (S i), g.
  - destruct (IH votes) as (i & g & ?); [lia|]. by exists (S i), g.
Qed.

Lemma voted_weight_nil fs : voted_weight fs [] = 0.
Proof. by destruct fs. Qed.

(** Votes that weigh more than a set of finalizers have a voter outside it. *)
Lemma voted_weight_outside fs votes set :
  weights_ok fs -> voted_weight fs set < voted_weight fs votes ->
  exists i f, fs !! i = Some f /\ votes !! i = Some true /\ set !! i <> Some true.
Proof.
  intros H. revert votes set. induction H as [|f fs Hf Hfs IH]; intros [|v votes] set; cbn; try lia.
  { pose proof (voted_weight_bounds (f :: fs) set ltac:(by constructor)). cbn in *. lia. }
  intros Hlt. destruct (decide (v = true /\ head set <> Some true)) as [[-> Hn]|Hn].
  { exists 0%nat, f. by rewrite head_lookup in Hn. }
  destruct (IH votes (tail set)) as (i & g & ?).
  { destruct v, set as [|[] set]; cbn in *; rewrite ?voted_weight_nil in *; try lia; destruct Hn; by split. }
  exists (S i), g. by destruct set.
Qed.

(** Two sets of votes whose weights together exceed the total share a voter. *)
Lemma quorums_intersect fs v1 v2 :
  weights_ok fs -> total_weight fs < voted_weight fs v1 + voted_weight fs v2 ->
  exists i f, fs !! i = Some f /\ v1 !! i = Some true /\ v2 !! i = Some true /\ 0 < weight f.
Proof.
  intros H Hw. pose proof (voted_weight_overlap fs v1 v2 H).
  destruct (voted_weight_pos fs (zip_with andb v1 v2)) as (i & f & Hf & Hv & Hpos); [lia|].
  exists i, f. rewrite lookup_zip_with in Hv.
  destruct (v1 !! i) as [a|], (v2 !! i) as [b|]; cbn in Hv; try done.
  injection Hv as Hv. apply andb_true_iff in Hv as [-> ->]. done.
Qed.

(** ** Proofs: signing authorities *)

Lemma satisfy_step_spec presented threshold l total rel :
  threshold <= uint32_max -> Forall (fun kw => 0 <= kw_weight kw) l ->
  let present kw := key kw ∈ presented in
  let w := Zsum (map kw_weight (filter present l)) in
  let r := foldl (satisfy_step presented threshold) (total, rel) l in
  (total < threshold -> total + w = r.1 /\ r.1 < threshold \/ threshold <= r.1 /\ threshold <= total + w) /\
  (threshold <= total -> r.1 = total) /\
  r.2 = rel + size_of (filter present l).
Proof.
  intros Ht. cbn zeta. intros Hw. revert total rel.
  induction Hw as [|kw l Hkw Hl IH]; intros total rel; cbn [foldl].
  { cbn. unfold size_of. cbn. split_and!; lia. }
  assert (Hnn : 0 <= Zsum (map kw_weight (filter (fun kw => key kw ∈ presented) l))).
  { by apply Zsum_filter_nonneg. }
  assert (E : satisfy_step presented threshold (total, rel) kw =
    if decide (key kw ∈ presented) then
      (if total <? threshold then total + Z.min (uint32_max - total) (kw_weight kw) else total, rel + 1)
    else (total, rel)) by done.
  rewrite E, filter_cons. clear E.
  destruct (decide (key kw ∈ presented)) as [Hin|Hin].
  - cbn [map Zsum]. destruct (Z.ltb_spec total threshold) as [Hlt|Hge].
    + set (total' := total + Z.min (uint32_max - total) (kw_weight kw)).
      destruct (IH total' (rel + 1)) as (H1 & H2 & H3).
      split_and!; [intros _|lia|rewrite H3; unfold size_of; cbn; lia].
      destruct (Z.lt_ge_cases total' threshold) as [Hlt'|Hge'].
      * specialize (H1 Hlt'). lia.
      * rewrite (H2 Hge'). right. lia.
    + destruct (IH total (rel + 1)) as (H1 & H2 & H3).
      split_and!; [lia|done|rewrite H3; unfold size_of; cbn; lia].
  - destruct (IH total rel) as (H1 & H2 & H3). by split_and!.
Qed.

Lemma keys_satisfy_and_relevant_eq (a : block_signing_authority_v0) (presented : gset public_key_type) :
  0 <= authority_threshold a <= uint32_max -> Forall (fun kw => 0 <= kw_weight kw) (keys a) ->
  let relevant := filter (fun kw => key kw ∈ presented) (keys a) in
  keys_satisfy_and_relevant a presented =
    (authority_threshold a <=? Zsum (map kw_weight relevant), size_of relevant).
Proof.
  intros Ht Hw. cbn zeta. unfold keys_satisfy_and_relevant.
  destruct (satisfy_step_spec presented (authority_threshold a) (keys a) 0 0 ltac:(lia) Hw)
    as (H1 & H2 & H3).
  destruct (foldl _ _ _) as [total rel]. cbn in *. f_equal; [|lia].
  assert (0 <= Zsum (map kw_weight (filter (fun kw => key kw ∈ presented) (keys a)))).
  { by apply Zsum_filter_nonneg. }
  apply Bool.eq_true_iff_eq. rewrite !Z.leb_le. lia.
Qed.

(** A set of presented keys satisfies a signing authority exactly when the
    weights of the authority's keys in the set sum to its threshold or more --
    the saturating 32-bit arithmetic and the early stop notwithstanding -- and
    the number returned is that of the keys of the authority in the set. *)
Theorem keys_satisfy_and_relevant_correct (a : block_signing_authority_v0) (presented : gset public_key_type) :
  0 <= authority_threshold a <= uint32_max -> Forall (fun kw => 0 <= kw_weight kw) (keys a) ->
  let relevant := filter (fun kw => key kw ∈ presented) (keys a) in
  keys_satisfy_and_relevant a presented =
    (authority_threshold a <=? Zsum (map kw_weight relevant), size_of relevant).
Proof. apply keys_satisfy_and_relevant_eq. Qed.

(** ** Proofs: proposed producer schedules *)

Lemma list_to_set_size {A} {eq_dec : EqDecision A} {count : Countable A} (l : list A) :
  (size (list_to_set l : gset A) <= length l)%nat /\
  (length l = size (list_to_set l : gset A) -> NoDup l).
Proof.
  induction l as [|x l [IH1 IH2]]; cbn.
  - split; [rewrite size_empty; lia|constructor].
  - destruct (decide (x ∈ (list_to_set l : gset A))) as [Hin|Hin].
    + replace ({[x]} ∪ list_to_set l : gset A) with (list_to_set l : gset A) by set_solver. split; [lia|].
      intros E. lia.
    + rewrite size_union, size_singleton by set_solver. split; [lia|].
      intros E. constructor; [by rewrite <- (elem_of_list_to_set (C := gset A))|apply IH2; lia].
Qed.

Section Producers.
Context {valid : KeyValid} (num_supported_key_types : Z) (validate_keys : bool).

Lemma check_key_spec l sum ks r :
  foldM (check_key num_supported_key_types validate_keys) (sum, ks) l = Ok r ->
  sum <= uint32_max -> Forall (fun kw => 0 <= kw_weight kw) l ->
  r.1 = Z.min uint32_max (sum + Zsum (map kw_weight l)) /\ r.2 = list_to_set (map key l) ∪ ks /\
  Forall (fun kw => which (key kw) < num_supported_key_types) l.
Proof.
  intros H Hsum Hw. revert sum ks Hsum H. induction Hw as [|kw l Hkw Hl IH]; intros sum ks Hsum H; cbn [foldM] in H.
  - inv_result. cbn. split_and!; [lia|set_solver|constructor].
  - inv_result. unfold check_key in E. inv_result.
    assert (0 <= Zsum (map kw_weight l)) by by apply Zsum_map_nonneg.
    edestruct IH as (H1 & H2 & H3); [|exact H|]; [destruct (_ <=? _) eqn:?; lia|].
    split_and!.
    + rewrite H1. cbn [map Zsum]. destruct (Z.leb_spec (uint32_max - sum) (kw_weight kw)); lia.
    + rewrite H2. cbn. set_solver.
    + constructor; [lia|done].
Qed.

(** What an accepted authority satisfies: its keys are distinct and all of
    them together satisfy it. *)
Definition authority_ok (a : block_signing_authority_v0) : Prop :=
  NoDup (map key (keys a)) /\ 0 < authority_threshold a /\
  (keys_satisfy_and_relevant a (list_to_set (map key (keys a)))).1 = true /\
  Forall (fun kw => which (key kw) < num_supported_key_types) (keys a).

Definition authority_widths (a : block_signing_authority_v0) : Prop :=
  u32 (authority_threshold a) /\ Forall (fun kw => 0 <= kw_weight kw) (keys a).

Lemma check_producer_spec is_account names p names' :
  check_producer is_account num_supported_key_types validate_keys names p = Ok names' ->
  authority_widths (authority p) ->
  names' = {[producer_name p]} ∪ names /\ is_account (producer_name p) = true /\ authority_ok (authority p).
Proof.
  unfold check_producer. intros H [Ht Hw]. inv_result. destruct x as [sum ks]. inv_result.
  destruct (check_key_spec _ _ _ _ E0) as (H1 & H2 & H3); [unfold uint32_max; lia|done|].
  cbn in H1, H2. subst. apply Nat.eqb_eq in E1. rewrite (right_id_L ∅ (∪)) in E1.
  split_and!; [done|done|]. unfold authority_ok. split_and!.
  - apply list_to_set_size. by rewrite length_map.
  - lia.
  - rewrite keys_satisfy_and_relevant_eq; [|unfold u32, uint32_max in *; lia|done]. cbn.
    rewrite filter_all; [lia|]. intros kw Hkw. apply elem_of_list_to_set, list_elem_of_fmap. by exists kw.
  - done.
Qed.

Lemma check_producers_spec is_account ps names names' :
  foldM (check_producer is_account num_supported_key_types validate_keys) names ps = Ok names' ->
  Forall (fun p => authority_widths (authority p)) ps ->
  names' = list_to_set (map producer_name ps) ∪ names /\
  Forall (fun p => is_account (producer_name p) = true /\ authority_ok (authority p)) ps.
Proof.
  intros H Hw. revert names H. induction Hw as [|p ps Hp _ IH]; intros names H; cbn [foldM] in H.
  - inv_result. split; [cbn; set_solver|constructor].
  - inv_result. apply check_producer_spec in E as (-> & Ha & Hok); [|done].
    apply IH in H as [-> Hps]. split; [cbn; set_solver|by constructor].
Qed.

(** A producer schedule that [set_proposed_producers] accepts can produce:
    its producers are distinct existing accounts, and each one's authority has
    distinct keys of supported types that together satisfy its threshold. *)
Theorem set_proposed_producers_sound (disallow_empty : bool) (is_account : Z -> bool)
    (ps accepted : list producer_authority) :
  Forall (fun p => authority_widths (authority p)) ps ->
  set_proposed_producers_common disallow_empty is_account num_supported_key_types validate_keys ps
    = Ok accepted ->
  accepted = ps /\ NoDup (map producer_name ps) /\ (disallow_empty = true -> ps <> []) /\
  Forall (fun p => is_account (producer_name p) = true /\ authority_ok (authority p)) ps.
Proof.
  unfold set_proposed_producers_common. intros Hw H. inv_result.
  apply check_producers_spec in E0 as [-> Hps]; [|done]. apply Nat.eqb_eq in E1.
  rewrite (right_id_L ∅ (∪)) in E1. split_and!; [done| | |done].
  - apply list_to_set_size. by rewrite length_map.
  - intros -> ->. done.
Qed.
End Producers.

(** ** Proofs: differences *)

(** Sending the difference of two finalizer policies instead of the new
    policy loses nothing: applied to the old one it gives the new one back,
    for policies of up to [max_finalizers] finalizers. *)
Theorem finalizer_policy_diff_roundtrip (p target : finalizer_policy) :
  size_of (finalizers p) <= max_finalizers -> size_of (finalizers target) <= max_finalizers ->
  (d ← finalizer_create_diff p target; finalizer_apply_diff p d) = Ok target.
Proof.
  intros Hp Ht. unfold max_finalizers, uint16_max in *.
  pose proof (apply_diff_diff_eq 65535 (finalizers p) (finalizers target) ltac:(lia) ltac:(lia)) as H.
  unfold finalizer_create_diff, finalizer_apply_diff, uint16_max.
  destruct (diff _ _ _) as [d|e]; [|done]. cbn in *. rewrite H. by destruct target.
Qed.

(** The same for proposer policies of up to [max_proposers] producers. *)
Theorem proposer_policy_diff_roundtrip (p target : proposer_policy) :
  size_of (producers (proposer_schedule p)) <= max_proposers ->
  size_of (producers (proposer_schedule target)) <= max_proposers ->
  (d ← proposer_create_diff p target; proposer_apply_diff p d) = Ok target.
Proof.
  intros Hp Ht. unfold max_proposers in *.
  pose proof (apply_diff_diff_eq 65535 (producers (proposer_schedule p))
    (producers (proposer_schedule target)) ltac:(lia) ltac:(lia)) as H.
  unfold proposer_create_diff, proposer_apply_diff, uint16_max.
  destruct (diff _ _ _) as [d|e]; [|done]. cbn in *. rewrite H. by destruct target as [? []].
Qed.

(** ** Proofs: proposed finalizer policies *)

Section Finalizers.
Context {valid : BlsKeyValid}.

Lemma add_finalizers_spec l sum ks fs r :
  foldM add_finalizer (sum, ks, fs) l = Ok r ->
  0 <= sum <= uint64_max -> weights_ok l ->
  r = (sum + total_weight l, list_to_set (map public_key l) ∪ ks, fs ++ l) /\
  sum + total_weight l <= uint64_max /\ NoDup (map public_key l) /\
  (forall k, k ∈ map public_key l -> k ∉ ks) /\
  Forall (fun f => size_of (public_key f) = 96 /\ bls_key_valid (public_key f) = true /\
                   size_of (description f) <= max_finalizer_description_size) l.
Proof.
  intros H Hsum Hw. revert sum ks fs Hsum H.
  induction Hw as [|f l Hf _ IH]; intros sum ks fs Hsum H; cbn [foldM] in H; inv_result.
  - unfold total_weight. cbn. rewrite app_nil_r, (left_id_L ∅ (∪)), Z.add_0_r.
    split_and!; [done|lia|constructor| |constructor]. intros k Hk. by apply elem_of_nil in Hk.
  - unfold add_finalizer in E. inv_result. apply bool_decide_eq_true in E4.
    destruct (IH (sum + weight f) ({[public_key f]} ∪ ks) (fs ++ [f]) ltac:(lia) H)
      as (-> & H1 & H2 & H3 & H4).
    unfold total_weight in *. cbn. split_and!.
    + f_equal; [f_equal; [lia|set_solver]|by rewrite <- app_assoc].
    + lia.
    + constructor; [|done]. intros Hin. apply (H3 _ Hin). set_solver.
    + intros k [->|Hk]%elem_of_cons; [done|]. specialize (H3 k Hk). set_solver.
    + constructor; [|done]. split_and!; [lia|done|lia].
Qed.

(** What [set_finalizers] guarantees of the policy it proposes. *)
Record finalizer_policy_ok (p : finalizer_policy) : Prop := {
  fpo_weights : weights_ok (finalizers p);
  fpo_keys : NoDup (map public_key (finalizers p));
  fpo_nonempty : finalizers p <> [];
  fpo_size : size_of (finalizers p) <= max_finalizers;
  fpo_sum : total_weight (finalizers p) <= uint64_max;
  fpo_threshold : threshold p <= total_weight (finalizers p) < 2 * threshold p
}.

Lemma set_finalizers_ok ro fmt a p :
  weights_ok (abi_finalizers a) -> set_finalizers ro fmt a = Ok p ->
  finalizer_policy_ok p /\ finalizers p = abi_finalizers a /\ threshold p = abi_threshold a.
Proof.
  unfold set_finalizers. intros Hw H. inv_result. destruct x as [[sum ks] fs]. inv_result.
  destruct (add_finalizers_spec _ _ _ _ _ E3) as (Heq & Hsum & Hnd & _ & _);
    [unfold uint64_max; lia|done|]. injection Heq as -> -> ->. cbn in *.
  apply andb_true_iff in E4 as [E4 E5]. split_and!; [|done|done]. constructor; cbn [finalizers threshold].
  - done.
  - done.
  - intros E6. rewrite E6 in E2. done.
  - lia.
  - lia.
  - split; [lia|]. lia_div.
Qed.

(** A finalizer policy that [set_finalizers] accepts has quorums that
    intersect: two sets of votes that both reach its threshold share a
    finalizer of positive weight.  (It has distinct keys, and the sum of its
    weights fits 64 bits.) *)
Theorem set_finalizers_quorums_intersect (ro : bool) (fmt : Z) (a : abi_finalizer_policy)
    (p : finalizer_policy) (v1 v2 : list bool) :
  weights_ok (abi_finalizers a) -> set_finalizers ro fmt a = Ok p ->
  threshold p <= voted_weight (finalizers p) v1 -> threshold p <= voted_weight (finalizers p) v2 ->
  NoDup (map public_key (finalizers p)) /\ total_weight (finalizers p) <= uint64_max /\
  exists i f, finalizers p !! i = Some f /\ v1 !! i = Some true /\ v2 !! i = Some true /\ 0 < weight f.
Proof.
  intros Hw H H1 H2. destruct (set_finalizers_ok _ _ _ _ Hw H) as ([] & _).
  split_and!; [done|done|]. apply quorums_intersect; [done|lia].
Qed.
End Finalizers.

(** ** Proofs: the sum of weights of a policy *)

Lemma int32_of_step acc w : int32_of (wrap64 (wrap64 (int32_of acc) + w)) = int32_of (acc + w).
Proof.
  unfold int32_of, wrap64, wrap32.
  change (2 ^ 64) with (2 ^ 32 * 2 ^ 32). change (2 ^ 31) with 2147483648. change (2 ^ 32) with 4294967296.
  f_equal. lia_div.
Qed.

Lemma max_weak_sum_before_weak_final_eq p :
  max_weak_sum_before_weak_final p = wrap64 (wrap64 (int32_of (total_weight (finalizers p))) - threshold p).
Proof.
  unfold max_weak_sum_before_weak_final, total_weight. do 3 f_equal.
  assert (H : forall fs acc, foldl (fun acc f => int32_of (wrap64 (wrap64 acc + weight f))) (int32_of acc) fs
                = int32_of (acc + Zsum (map weight fs))).
  { induction fs as [|f fs IH]; intros acc; cbn; [by rewrite Z.add_0_r|].
    rewrite int32_of_step, IH. f_equal. lia. }
  exact (H (finalizers p) 0).
Qed.

(** The bound above which weak votes exclude a strong quorum is the total
    weight less the threshold, as long as the total fits an [int]; this is
    where [std::accumulate] keeps its sum. *)
Theorem max_weak_sum_before_weak_final_exact (p : finalizer_policy) :
  0 <= threshold p <= total_weight (finalizers p) -> total_weight (finalizers p) < 2 ^ 31 ->
  max_weak_sum_before_weak_final p = total_weight (finalizers p) - threshold p.
Proof.
  intros Ht Hsum. rewrite max_weak_sum_before_weak_final_eq.
  assert (E : int32_of (total_weight (finalizers p)) = total_weight (finalizers p)).
  { unfold int32_of. rewrite wrap32_id; [lia|]. split; [lia|]. change (2 ^ 32) with (2 ^ 31 + 2 ^ 31). lia. }
  assert (2 ^ 31 < 2 ^ 64) by done. rewrite E, (wrap64_id (total_weight _)), wrap64_id; unfold u64; lia.
Qed.

(** Beyond it the bound is wrong: the total is reduced modulo [2 ^ 32]. *)
Lemma max_weak_sum_before_weak_final_truncated :
  exists p, finalizer_policy_ok p /\
    max_weak_sum_before_weak_final p <> total_weight (finalizers p) - threshold p.
Proof.
  exists (FinalizerPolicy 1 (2 ^ 32 + 1)
    [FinalizerAuthority [] (2 ^ 32) [1]; FinalizerAuthority [] (2 ^ 32) [2]]).
  split; [|by vm_compute]. constructor; cbn [finalizers threshold].
  - by repeat constructor.
  - cbn. apply NoDup_cons. split; [|apply NoDup_singleton]. by intros [=]%list_elem_of_singleton.
  - done.
  - by vm_compute.
  - by vm_compute.
  - by vm_compute.
Qed.

(** ** The properties at concrete policies *)

(** Examples take a key of the right size for a valid one. *)
Definition example_bls : BlsKeyValid := fun k => size_of k =? 96.
Definition example_key_valid : KeyValid := fun _ => true.

Definition example_key (n : Z) : public_key_type := K1Key (repeat n 33).

Definition example_authority : block_signing_authority_v0 :=
  BlockSigningAuthority 5 [KeyWeight (example_key 1) 2; KeyWeight (example_key 2) 3; KeyWeight (example_key 3) 4].

Definition example_producer (n : Z) : producer_authority :=
  ProducerAuthority n (BlockSigningAuthority 1 [KeyWeight (example_key n) 1]).

Definition example_producers : list producer_authority :=
  [example_producer 1; example_producer 2; ProducerAuthority 3 example_authority].

Definition example_proposer_policy (t v : Z) (ps : list producer_authority) : proposer_policy :=
  ProposerPolicy t (ProducerAuthoritySchedule v ps).

Definition example_finalizer (n : Z) : finalizer_authority := FinalizerAuthority [n] 1 (repeat n 96).

Definition example_finalizer_policy (g t : Z) (l : list Z) : finalizer_policy :=
  FinalizerPolicy g t (map example_finalizer l).

Lemma keys_satisfy_and_relevant_correct_witness :
  let presented := {[example_key 1; example_key 3]} in
  let relevant := filter (fun kw => key kw ∈ presented) (keys example_authority) in
  keys_satisfy_and_relevant example_authority presented =
    (authority_threshold example_authority <=? Zsum (map kw_weight relevant), size_of relevant).
Proof.
  apply (keys_satisfy_and_relevant_correct example_authority {[example_key 1; example_key 3]}).
  - by vm_compute.
  - by repeat constructor.
Defined.

Lemma set_proposed_producers_sound_witness :
  example_producers = example_producers /\ NoDup (map producer_name example_producers) /\
  (true = true -> example_producers <> []) /\
  Forall (fun p => (0 <? producer_name p) = true /\ authority_ok 3 (authority p)) example_producers.
Proof.
  apply (set_proposed_producers_sound (valid := example_key_valid) 3 true true (fun n => 0 <? n)
    example_producers example_producers).
  - by repeat constructor.
  - by vm_compute.
Defined.

Lemma finalizer_policy_diff_roundtrip_witness :
  (d ← finalizer_create_diff (example_finalizer_policy 1 2 [1; 2; 3]) (example_finalizer_policy 2 3 [2; 3; 4; 1]);
   finalizer_apply_diff (example_finalizer_policy 1 2 [1; 2; 3]) d)
  = Ok (example_finalizer_policy 2 3 [2; 3; 4; 1]).
Proof.
  apply (finalizer_policy_diff_roundtrip (example_finalizer_policy 1 2 [1; 2; 3])
    (example_finalizer_policy 2 3 [2; 3; 4; 1])); by vm_compute.
Defined.

Lemma proposer_policy_diff_roundtrip_witness :
  (d ← proposer_create_diff (example_proposer_policy 1 1 example_producers)
         (example_proposer_policy 30 2 [example_producer 2; example_producer 7]);
   proposer_apply_diff (example_proposer_policy 1 1 example_producers) d)
  = Ok (example_proposer_policy 30 2 [example_producer 2; example_producer 7]).
Proof.
  apply (proposer_policy_diff_roundtrip (example_proposer_policy 1 1 example_producers)
    (example_proposer_policy 30 2 [example_producer 2; example_producer 7])); by vm_compute.
Defined.

Definition example_abi_policy : abi_finalizer_policy := AbiFinalizerPolicy 2 (map example_finalizer [1; 2; 3]).

Lemma set_finalizers_quorums_intersect_witness :
  let p := example_finalizer_policy 0 2 [1; 2; 3] in
  NoDup (map public_key (finalizers p)) /\ total_weight (finalizers p) <= uint64_max /\
  exists i f, finalizers p !! i = Some f /\ [true; true; false] !! i = Some true /\
    [false; true; true] !! i = Some true /\ 0 < weight f.
Proof.
  apply (set_finalizers_quorums_intersect (valid := example_bls) false 0 example_abi_policy
    (example_finalizer_policy 0 2 [1; 2; 3])); [by repeat constructor|by vm_compute..].
Defined.

Lemma max_weak_sum_before_weak_final_exact_witness :
  max_weak_sum_before_weak_final (example_finalizer_policy 1 3 [1; 2; 3; 4])
  = total_weight (finalizers (example_finalizer_policy 1 3 [1; 2; 3; 4])) - 3.
Proof.
  apply (max_weak_sum_before_weak_final_exact (example_finalizer_policy 1 3 [1; 2; 3; 4])); by vm_compute.
Defined.
