(* ===== verification/Qc.v ===== *)
(** * Quorum certificates

    [qc.hpp] and [qc.cpp]: the verification of a received certificate
    ([qc_t]) and the aggregation of votes into one
    ([aggregating_qc_sig_t], [aggregating_qc_t]).  A vote bitset is the list of
    its bits.  The curve arithmetic is the BLS library's: the class [Bls].
    Each operation of an aggregator runs under its mutex, so operations are
    atomic and a history is a sequence of them; the [processed] flags, read
    without the mutex, are kept as a field of their own. *)

From S2P Require Import Prelude ChainTypes FinalityCore OrderedDiff Policies.

(** ** The BLS library *)

Abbreviation bls_signature := (list Z) (only parsing).
Abbreviation vote_bitset_t := (list bool) (only parsing).

Class Bls : Type := {
  g1 : Type;
  g2 : Type;
  g2_zero : g2;
  g2_add : g2 -> g2 -> g2;
  jacobian_montgomery_le : bls_signature -> g2;
  aggregate_public_keys : list bls_public_key -> g1;
  aggregate_verify : list g1 -> list (list Z) -> g2 -> bool;
  bls_verify : bls_public_key -> list Z -> bls_signature -> bool
}.

(** ** Data *)

Inductive vote_result_t : Set :=
| success | duplicate | unknown_public_key | invalid_signature | unknown_block | max_exceeded.

Inductive vote_status_t : Set := voted | not_voted | irrelevant_finalizer.

Inductive state_t : Set := unrestricted | restricted | weak_achieved | weak_final | strong.

#[export] Instance vote_result_eq_dec : EqDecision vote_result_t.
Proof. solve_decision. Defined.
#[export] Instance state_eq_dec : EqDecision state_t.
Proof. solve_decision. Defined.

Record vote_message : Set := VoteMessage {
  vote_block_id : block_id_type;
  vote_strong : bool;
  finalizer_key : bls_public_key;
  vote_sig : bls_signature
}.

Record finalizer_policies_t : Set := FinalizerPolicies {
  policies_finality_digest : digest_type;
  active_finalizer_policy : finalizer_policy;
  pending_finalizer_policy : option finalizer_policy
}.

(** The digest a weak vote signs: the strong digest and "WEAK". *)
Definition create_weak_digest (digest : digest_type) : list Z := sha256_data digest ++ [87; 69; 65; 75].

Section Qc.
Context {bls : Bls}.

Record qc_sig_t : Type := QcSig {
  strong_votes : option vote_bitset_t;
  weak_votes : option vote_bitset_t;
  qc_sig : g2
}.

Record qc_t : Type := MkQc {
  qc_block_num : Z;
  active_policy_sig : qc_sig_t;
  pending_policy_sig : option qc_sig_t
}.

Definition qc_sig_is_weak (q : qc_sig_t) : bool := bool_decide (is_Some (weak_votes q)).
Definition qc_sig_is_strong (q : qc_sig_t) : bool := negb (qc_sig_is_weak q).

Definition qc_is_strong (q : qc_t) : bool :=
  qc_sig_is_strong (active_policy_sig q)
  && match pending_policy_sig q with Some p => qc_sig_is_strong p | None => true end.
Definition qc_is_weak (q : qc_t) : bool := negb (qc_is_strong q).

Definition to_qc_claim (q : qc_t) : qc_claim_t := QcClaim (qc_block_num q) (qc_is_strong q).

(** ** Verification *)

(** [votes && ( *votes)[i]] *)
Definition bit_at (votes : option vote_bitset_t) (i : nat) : result bool :=
  match votes with None => Ok false | Some bs => at_or_assert (bs !! i) end.

Definition vote_same_at (q other : qc_sig_t) (my_vote_index other_vote_index : nat) : result bool :=
  s1 ← bit_at (strong_votes q) my_vote_index;
  s2 ← bit_at (strong_votes other) other_vote_index;
  w1 ← bit_at (weak_votes q) my_vote_index;
  w2 ← bit_at (weak_votes other) other_vote_index;
  Ok (Bool.eqb s1 s2 && Bool.eqb w1 w2).

Definition size_matches (fs : list finalizer_authority) (votes : option vote_bitset_t) : bool :=
  match votes with Some bs => (length fs =? length bs)%nat | None => true end.

(** No bit is set in both. *)
Definition no_double_vote (q : qc_sig_t) : bool :=
  match strong_votes q, weak_votes q with
  | Some s, Some w => forallb negb (zip_with andb s w)
  | _, _ => true
  end.

Definition verify_vote_format (q : qc_sig_t) (fin_policy : finalizer_policy) : result () :=
  let fs := finalizers fin_policy in
  EOS_ASSERT bool_decide (is_Some (strong_votes q)) || bool_decide (is_Some (weak_votes q)) ,, invalid_qc ;;
  EOS_ASSERT size_matches fs (strong_votes q) ,, invalid_qc ;;
  EOS_ASSERT size_matches fs (weak_votes q) ,, invalid_qc ;;
  EOS_ASSERT no_double_vote q ,, invalid_qc ;;
  Ok ().

(** The loop that accumulates the weights of the votes, in 64 bits. *)
Fixpoint accumulate_weights (fs : list finalizer_authority) (votes : vote_bitset_t) (sum : Z) : result Z :=
  match fs, votes with
  | [], _ => Ok sum
  | f :: fs, v :: votes => accumulate_weights fs votes (if v then wrap64 (sum + weight f) else sum)
  | _ :: _, [] => Throw assert_failed
  end.

Definition weights_of (fs : list finalizer_authority) (votes : option vote_bitset_t) : result Z :=
  match votes with Some bs => accumulate_weights fs bs 0 | None => Ok 0 end.

Definition verify_weights (q : qc_sig_t) (fin_policy : finalizer_policy) : result () :=
  strong_weights ← weights_of (finalizers fin_policy) (strong_votes q);
  weak_weights ← weights_of (finalizers fin_policy) (weak_votes q);
  if qc_sig_is_strong q then
    EOS_ASSERT threshold fin_policy <=? strong_weights ,, invalid_qc ;; Ok ()
  else
    EOS_ASSERT threshold fin_policy <=? wrap64 (strong_weights + weak_weights) ,, invalid_qc ;; Ok ().

(** The keys whose bit is set. *)
Fixpoint keys_of_votes (fs : list finalizer_authority) (votes : vote_bitset_t) : list bls_public_key :=
  match fs, votes with
  | f :: fs, v :: votes => if v then public_key f :: keys_of_votes fs votes else keys_of_votes fs votes
  | _, _ => []
  end.

Definition sig_verify_signatures (q : qc_sig_t) (fin_policy : finalizer_policy)
    (strong_digest : digest_type) (weak_digest : list Z) : result () :=
  let fs := finalizers fin_policy in
  let side votes digest :=
    match votes with
    | Some bs => [(aggregate_public_keys (keys_of_votes fs bs), digest)]
    | None => []
    end in
  let pairs := side (strong_votes q) (sha256_data strong_digest) ++ side (weak_votes q) weak_digest in
  EOS_ASSERT aggregate_verify (map fst pairs) (map snd pairs) (qc_sig q) ,, invalid_qc_signature ;;
  Ok ().

(** The index of the first finalizer with a key. *)
Fixpoint find_index (k : bls_public_key) (fs : list finalizer_authority) : option nat :=
  match fs with
  | [] => None
  | f :: fs => if decide (public_key f = k) then Some 0%nat else S <$> find_index k fs
  end.

(** The loop over the active finalizers, from the [i]-th. *)
Fixpoint verify_dual_loop (pending_fs : list finalizer_authority) (active_sig pending_sig : qc_sig_t)
    (i : nat) (active_fs : list finalizer_authority) : result () :=
  match active_fs with
  | [] => Ok ()
  | f :: fs =>
      match find_index (public_key f) pending_fs with
      | Some j =>
          same ← vote_same_at active_sig pending_sig i j;
          EOS_ASSERT (same : bool) ,, invalid_qc ;;
          verify_dual_loop pending_fs active_sig pending_sig (S i) fs
      | None => verify_dual_loop pending_fs active_sig pending_sig (S i) fs
      end
  end.

Definition verify_dual_finalizers_votes (active pending : finalizer_policy)
    (active_sig pending_sig : qc_sig_t) : result () :=
  verify_dual_loop (finalizers pending) active_sig pending_sig 0 (finalizers active).

Definition verify_signatures (q : qc_t) (policies : finalizer_policies_t) : result () :=
  let strong_digest := policies_finality_digest policies in
  let weak_digest := create_weak_digest strong_digest in
  _ ← sig_verify_signatures (active_policy_sig q) (active_finalizer_policy policies) strong_digest weak_digest;
  match pending_policy_sig q with
  | Some p =>
      match pending_finalizer_policy policies with
      | Some pol => sig_verify_signatures p pol strong_digest weak_digest
      | None => Throw invalid_qc
      end
  | None => Ok ()
  end.

Definition verify_basic (q : qc_t) (policies : finalizer_policies_t) : result () :=
  _ ← verify_vote_format (active_policy_sig q) (active_finalizer_policy policies);
  _ ← verify_weights (active_policy_sig q) (active_finalizer_policy policies);
  match pending_policy_sig q, pending_finalizer_policy policies with
  | Some p, Some pol =>
      _ ← verify_dual_finalizers_votes (active_finalizer_policy policies) pol (active_policy_sig q) p;
      _ ← verify_vote_format p pol;
      verify_weights p pol
  | Some _, None => Throw invalid_qc
  | None, Some _ => Throw invalid_qc
  | None, None => Ok ()
  end.

(** ** Aggregation under one policy *)

Record votes_t : Type := Votes {
  bitset : vote_bitset_t;
  votes_sig : g2;
  processed : list bool
}.

Record aggregating_qc_sig_t : Type := AggregatingQcSig {
  received_qc_sig : option qc_sig_t;
  quorum : Z;
  max_weak_sum : Z;
  aggregating_state : state_t;
  strong_sum : Z;
  weak_sum : Z;
  agg_weak_votes : votes_t;
  agg_strong_votes : votes_t
}.

Definition empty_votes (num_finalizers : nat) : votes_t :=
  Votes (replicate num_finalizers false) g2_zero (replicate num_finalizers false).

Definition new_aggregating_qc_sig (finalizer_policy : finalizer_policy) : aggregating_qc_sig_t :=
  let n := length (finalizers finalizer_policy) in
  AggregatingQcSig None (threshold finalizer_policy) (max_weak_sum_before_weak_final finalizer_policy)
    unrestricted 0 0 (empty_votes n) (empty_votes n).

Definition votes_has_voted (v : votes_t) (index : nat) : result bool := at_or_assert (processed v !! index).

Definition votes_add_vote (v : votes_t) (index : nat) (sig : bls_signature) : result votes_t :=
  ASSERT bool_decide (index < length (processed v))%nat ;;
  ASSERT bool_decide (index < length (bitset v))%nat ;;
  Ok (Votes (<[index := true]> (bitset v)) (g2_add (votes_sig v) (jacobian_montgomery_le sig))
        (<[index := true]> (processed v))).

(** [strong_votes.has_voted(index) || weak_votes.has_voted(index)] *)
Definition agg_has_voted (a : aggregating_qc_sig_t) (index : nat) : result bool :=
  s ← votes_has_voted (agg_strong_votes a) index;
  if (s : bool) then Ok true else votes_has_voted (agg_weak_votes a) index.

Definition check_duplicate (a : aggregating_qc_sig_t) (index : nat) : result vote_result_t :=
  s ← at_or_assert (bitset (agg_strong_votes a) !! index);
  if (s : bool) then Ok duplicate
  else
    w ← at_or_assert (bitset (agg_weak_votes a) !! index);
    Ok (if (w : bool) then duplicate else success).

Definition state_is_quorum_met (s : state_t) : bool :=
  match s with strong | weak_achieved | weak_final => true | _ => false end.

Definition add_strong_vote (a : aggregating_qc_sig_t) (index : nat) (sig : bls_signature) (w : Z) :
    result aggregating_qc_sig_t :=
  v ← votes_add_vote (agg_strong_votes a) index sig;
  let sum := wrap64 (strong_sum a + w) in
  let st := aggregating_state a in
  st' ← match st with
        | unrestricted | restricted =>
            if quorum a <=? sum then
              ASSERT negb (bool_decide (st = restricted)) ;; Ok strong
            else if quorum a <=? wrap64 (weak_sum a + sum) then
              Ok (if decide (st = restricted) then weak_final else weak_achieved)
            else Ok st
        | weak_achieved => Ok (if quorum a <=? sum then strong else st)
        | weak_final | strong => Ok st
        end;
  Ok (AggregatingQcSig (received_qc_sig a) (quorum a) (max_weak_sum a) st' sum (weak_sum a)
        (agg_weak_votes a) v).

Definition add_weak_vote (a : aggregating_qc_sig_t) (index : nat) (sig : bls_signature) (w : Z) :
    result aggregating_qc_sig_t :=
  v ← votes_add_vote (agg_weak_votes a) index sig;
  let sum := wrap64 (weak_sum a + w) in
  let st := aggregating_state a in
  let st' :=
    match st with
    | unrestricted | restricted =>
        let st1 := if quorum a <=? wrap64 (sum + strong_sum a) then weak_achieved else st in
        if max_weak_sum a <? sum then
          match st1 with weak_achieved => weak_final | unrestricted => restricted | _ => st1 end
        else st1
    | weak_achieved => if max_weak_sum a <=? sum then weak_final else st
    | weak_final | strong => st
    end in
  Ok (AggregatingQcSig (received_qc_sig a) (quorum a) (max_weak_sum a) st' (strong_sum a) sum
        v (agg_strong_votes a)).

Definition agg_add_vote (a : aggregating_qc_sig_t) (is_strong : bool) (index : nat) (sig : bls_signature) (w : Z) :
    result (vote_result_t * aggregating_qc_sig_t) :=
  s ← check_duplicate a index;
  match s with
  | success =>
      a' ← if is_strong then add_strong_vote a index sig w else add_weak_vote a index sig w;
      Ok (success, a')
  | _ => Ok (s, a)
  end.

Definition agg_is_quorum_met (a : aggregating_qc_sig_t) : bool := state_is_quorum_met (aggregating_state a).

Definition extract_qc_sig_from_aggregating (a : aggregating_qc_sig_t) : result qc_sig_t :=
  if decide (aggregating_state a = strong) then
    Ok (QcSig (Some (bitset (agg_strong_votes a))) None (votes_sig (agg_strong_votes a)))
  else
    ASSERT agg_is_quorum_met a ;;
    Ok (QcSig (Some (bitset (agg_strong_votes a))) (Some (bitset (agg_weak_votes a)))
          (g2_add (votes_sig (agg_strong_votes a)) (votes_sig (agg_weak_votes a)))).

Definition agg_get_best_qc (a : aggregating_qc_sig_t) : result (option qc_sig_t) :=
  if negb (agg_is_quorum_met a) then Ok (received_qc_sig a)
  else
    from_agg ← extract_qc_sig_from_aggregating a;
    match received_qc_sig a with
    | None => Ok (Some from_agg)
    | Some r =>
        if qc_sig_is_strong r || qc_sig_is_weak from_agg then Ok (Some r) else Ok (Some from_agg)
    end.

Definition set_received_qc_sig (a : aggregating_qc_sig_t) (q : qc_sig_t) : bool * aggregating_qc_sig_t :=
  let a' := AggregatingQcSig (Some q) (quorum a) (max_weak_sum a) (aggregating_state a)
              (strong_sum a) (weak_sum a) (agg_weak_votes a) (agg_strong_votes a) in
  match received_qc_sig a with
  | None => (true, a')
  | Some r => if qc_sig_is_weak r && qc_sig_is_strong q then (true, a') else (false, a)
  end.

Definition received_qc_sig_is_strong (a : aggregating_qc_sig_t) : bool :=
  match received_qc_sig a with Some r => qc_sig_is_strong r | None => false end.

(** ** Aggregation under the active and the pending policy *)

Record aggregating_qc_t : Type := AggregatingQc {
  agg_active_policy : finalizer_policy;
  agg_pending_policy : option finalizer_policy;
  agg_active_sig : aggregating_qc_sig_t;
  agg_pending_sig : option aggregating_qc_sig_t
}.

Definition new_aggregating_qc (active : finalizer_policy) (pending : option finalizer_policy) : aggregating_qc_t :=
  AggregatingQc active pending (new_aggregating_qc_sig active) (new_aggregating_qc_sig <$> pending).

Definition get_best_qc (a : aggregating_qc_t) (block_num : Z) : result (option qc_t) :=
  active_best ← agg_get_best_qc (agg_active_sig a);
  match active_best with
  | None => Ok None
  | Some active_sig =>
      match agg_pending_sig a with
      | Some p =>
          pending_best ← agg_get_best_qc p;
          Ok (match pending_best with
              | Some pending_sig => Some (MkQc block_num active_sig (Some pending_sig))
              | None => None
              end)
      | None => Ok (Some (MkQc block_num active_sig None))
      end
  end.

Definition set_received_qc (a : aggregating_qc_t) (q : qc_t) : result (bool * aggregating_qc_t) :=
  match agg_pending_sig a, pending_policy_sig q with
  | Some _, None => Throw invalid_qc
  | Some p, Some qp =>
      let '(active_better, active') := set_received_qc_sig (agg_active_sig a) (active_policy_sig q) in
      let '(pending_better, p') := set_received_qc_sig p qp in
      Ok (active_better || pending_better,
          AggregatingQc (agg_active_policy a) (agg_pending_policy a) active' (Some p'))
  | None, _ =>
      let '(active_better, active') := set_received_qc_sig (agg_active_sig a) (active_policy_sig q) in
      Ok (active_better, AggregatingQc (agg_active_policy a) (agg_pending_policy a) active' None)
  end.

Definition received_qc_is_strong (a : aggregating_qc_t) : bool :=
  received_qc_sig_is_strong (agg_active_sig a)
  && match agg_pending_sig a with Some p => received_qc_sig_is_strong p | None => true end.

Definition is_quorum_met (a : aggregating_qc_t) : bool :=
  agg_is_quorum_met (agg_active_sig a)
  && match agg_pending_sig a with Some p => agg_is_quorum_met p | None => true end.

(** The [add_vote] lambda of [aggregate_vote]: the result, the authority that
    voted, the aggregator and whether the signature has been verified. *)
Definition add_vote_under (vote : vote_message) (finalizer_digest : list Z) (verified_sig : bool)
    (pol : finalizer_policy) (a : aggregating_qc_sig_t) :
    result (vote_result_t * option finalizer_authority * aggregating_qc_sig_t * bool) :=
  match find_index (finalizer_key vote) (finalizers pol) with
  | None => Ok (unknown_public_key, None, a, verified_sig)
  | Some index =>
      f ← at_or_assert (finalizers pol !! index);
      hv ← agg_has_voted a index;
      if (hv : bool) then Ok (duplicate, Some f, a, verified_sig)
      else if negb verified_sig && negb (bls_verify (finalizer_key vote) finalizer_digest (vote_sig vote))
      then Ok (invalid_signature, Some f, a, verified_sig)
      else
        r ← agg_add_vote a (vote_strong vote) index (vote_sig vote) (weight f);
        Ok (r.1, Some f, r.2, true)
  end.

Record aggregate_vote_result_t : Type := AggregateVoteResult {
  avr_result : vote_result_t;
  active_authority : option finalizer_authority;
  pending_authority : option finalizer_authority
}.

Definition aggregate_vote (a : aggregating_qc_t) (vote : vote_message) (finalizer_digest : list Z) :
    result (aggregate_vote_result_t * aggregating_qc_t) :=
  r ← add_vote_under vote finalizer_digest false (agg_active_policy a) (agg_active_sig a);
  let '(res, active_auth, active', verified) := r in
  let a1 := AggregatingQc (agg_active_policy a) (agg_pending_policy a) active' (agg_pending_sig a) in
  if negb (bool_decide (res = success)) && negb (bool_decide (res = unknown_public_key)) then
    Ok (AggregateVoteResult res active_auth None, a1)
  else
    match agg_pending_policy a with
    | None => Ok (AggregateVoteResult res active_auth None, a1)
    | Some pol =>
        p ← at_or_assert (agg_pending_sig a);
        r2 ← add_vote_under vote finalizer_digest verified pol p;
        let '(ps, pending_auth, p', _) := r2 in
        let res' := if bool_decide (ps = unknown_public_key) then res else ps in
        Ok (AggregateVoteResult res' active_auth pending_auth,
            AggregatingQc (agg_active_policy a) (agg_pending_policy a) active' (Some p'))
    end.

Definition finalizer_has_voted (pol : finalizer_policy) (a : aggregating_qc_sig_t) (k : bls_public_key) :
    result vote_status_t :=
  match find_index k (finalizers pol) with
  | None => Ok irrelevant_finalizer
  | Some index => hv ← agg_has_voted a index; Ok (if (hv : bool) then voted else not_voted)
  end.

Definition has_voted (a : aggregating_qc_t) (k : bls_public_key) : result vote_status_t :=
  active_status ← finalizer_has_voted (agg_active_policy a) (agg_active_sig a) k;
  match agg_pending_policy a, active_status with
  | None, _ | _, not_voted => Ok active_status
  | Some pol, _ =>
      match agg_pending_sig a with
      | None => Throw invalid_qc
      | Some p =>
          pending_status ← finalizer_has_voted pol p k;
          Ok (match pending_status with irrelevant_finalizer => active_status | _ => pending_status end)
      end
  end.

(** ** Vote metrics *)

(** [std::set<fin_auth, fin_auth_less>]: ordered by key, so a finalizer whose
    key is in the set already is not inserted. *)
Definition fin_auth_set_t : Type := gmap bls_public_key (finalizer_authority * Z).

Definition fin_auth_insert (f : finalizer_authority) (gen : Z) (s : fin_auth_set_t) : fin_auth_set_t :=
  match s !! public_key f with Some _ => s | None => <[public_key f := (f, gen)]> s end.

(** The loop of [add_votes]: the set and the number of set bits. *)
Fixpoint add_votes_loop (gen : Z) (fs : list finalizer_authority) (votes : vote_bitset_t)
    (acc : fin_auth_set_t * nat) : fin_auth_set_t * nat :=
  match fs, votes with
  | f :: fs, v :: votes =>
      add_votes_loop gen fs votes (if v then (fin_auth_insert f gen acc.1, S acc.2) else acc)
  | _, _ => acc
  end.

Definition add_votes (pol : finalizer_policy) (votes : vote_bitset_t) (s : fin_auth_set_t) :
    result (fin_auth_set_t * nat) :=
  ASSERT (length votes =? length (finalizers pol))%nat ;;
  Ok (add_votes_loop (generation pol) (finalizers pol) votes (s, 0%nat)).

Record qc_vote_metrics_t : Type := QcVoteMetrics {
  metrics_strong_votes : fin_auth_set_t;
  metrics_weak_votes : fin_auth_set_t;
  metrics_missing_votes : fin_auth_set_t
}.

Definition add_policy_votes (pol : finalizer_policy) (q : qc_sig_t) (m : qc_vote_metrics_t) :
    result qc_vote_metrics_t :=
  let n := length (finalizers pol) in
  s ← match strong_votes q with
      | Some bs => add_votes pol bs (metrics_strong_votes m)
      | None => Ok (metrics_strong_votes m, 0%nat)
      end;
  w ← match weak_votes q with
      | Some bs => add_votes pol bs (metrics_weak_votes m)
      | None => Ok (metrics_weak_votes m, s.2)
      end;
  if (w.2 =? n)%nat then Ok (QcVoteMetrics s.1 w.1 (metrics_missing_votes m))
  else
    let voted := match strong_votes q with Some bs => bs | None => replicate n false end in
    ASSERT match weak_votes q with Some ws => (length voted =? length ws)%nat | None => true end ;;
    let voted := match weak_votes q with Some ws => zip_with orb voted ws | None => voted end in
    missing ← add_votes pol (map negb voted) (metrics_missing_votes m);
    Ok (QcVoteMetrics s.1 w.1 missing.1).

Definition vote_metrics (a : aggregating_qc_t) (q : qc_t) : result qc_vote_metrics_t :=
  m ← add_policy_votes (agg_active_policy a) (active_policy_sig q) (QcVoteMetrics ∅ ∅ ∅);
  match agg_pending_policy a with
  | None => Ok m
  | Some pol =>
      ASSERT bool_decide (is_Some (agg_pending_sig a)) ;;
      p ← at_or_assert (pending_policy_sig q);
      add_policy_votes pol p m
  end.

(** The [add_not_voted] lambda of [missing_votes]. *)
Fixpoint not_voted_loop (gen : Z) (fs : list finalizer_authority) (votes : vote_bitset_t)
    (other : option vote_bitset_t) (s : fin_auth_set_t) : fin_auth_set_t :=
  match fs, votes with
  | f :: fs, v :: votes =>
      let o := match other with Some (b :: _) => b | _ => false end in
      not_voted_loop gen fs votes (tail <$> other) (if negb v && negb o then fin_auth_insert f gen s else s)
  | _, _ => s
  end.

Definition add_not_voted (pol : finalizer_policy) (q : qc_sig_t) (s : fin_auth_set_t) : result fin_auth_set_t :=
  match (match strong_votes q with
         | Some bs => Some (bs, weak_votes q)
         | None => match weak_votes q with Some bs => Some (bs, strong_votes q) | None => None end
         end) with
  | None => Throw assert_failed
  | Some (votes, other) =>
      ASSERT (length votes =? length (finalizers pol))%nat ;;
      ASSERT match other with Some o => (length o =? length (finalizers pol))%nat | None => true end ;;
      Ok (not_voted_loop (generation pol) (finalizers pol) votes other s)
  end.

Definition missing_votes (a : aggregating_qc_t) (q : qc_t) : result fin_auth_set_t :=
  s ← add_not_voted (agg_active_policy a) (active_policy_sig q) ∅;
  match agg_pending_policy a with
  | None => Ok s
  | Some pol =>
      ASSERT bool_decide (is_Some (agg_pending_sig a)) ;;
      p ← at_or_assert (pending_policy_sig q);
      add_not_voted pol p s
  end.

End Qc.

(** ** Valid signatures of a certificate *)

Section Proofs.
Context {bls : Bls}.

(** A policy whose sum of weights fits the types the code sums it in. *)
Record policy_ok (pol : finalizer_policy) : Prop := {
  po_weights : weights_ok (finalizers pol);
  po_sum : total_weight (finalizers pol) < 2 ^ 31;
  po_threshold : 0 <= threshold pol <= total_weight (finalizers pol)
}.

Definition bits_of (votes : option vote_bitset_t) : vote_bitset_t := default [] votes.

(** What the verification of a signature against a policy establishes. *)
Record sig_valid (pol : finalizer_policy) (q : qc_sig_t) : Prop := {
  sv_some : is_Some (strong_votes q) \/ is_Some (weak_votes q);
  sv_strong_size : forall bs, strong_votes q = Some bs -> length bs = length (finalizers pol);
  sv_weak_size : forall bs, weak_votes q = Some bs -> length bs = length (finalizers pol);
  sv_disjoint : forall i, bits_of (strong_votes q) !! i = Some true -> bits_of (weak_votes q) !! i = Some true -> False;
  sv_quorum : threshold pol <= voted_weight (finalizers pol) (bits_of (strong_votes q))
                + if qc_sig_is_strong q then 0 else voted_weight (finalizers pol) (bits_of (weak_votes q))
}.

Lemma accumulate_weights_Ok fs votes sum :
  length votes = length fs -> weights_ok fs -> 0 <= sum -> sum + total_weight fs < 2 ^ 64 ->
  accumulate_weights fs votes sum = Ok (sum + voted_weight fs votes).
Proof.
  intros Hl Hw. revert votes sum Hl.
  induction Hw as [|f fs Hf Hfs IH]; intros [|v votes] sum Hl Hs Ht; cbn in *; try done.
  { by rewrite Z.add_0_r. }
  pose proof (voted_weight_bounds fs [] Hfs). unfold total_weight in *. cbn in Ht.
  assert (0 <= Zsum (map weight fs)) by by apply Zsum_map_nonneg.
  destruct v.
  - rewrite wrap64_id by (unfold u64; lia). rewrite IH by lia. f_equal. lia.
  - rewrite IH by lia. f_equal.
Qed.

Lemma weights_of_Ok pol votes :
  policy_ok pol -> (forall bs, votes = Some bs -> length bs = length (finalizers pol)) ->
  weights_of (finalizers pol) votes = Ok (voted_weight (finalizers pol) (bits_of votes)).
Proof.
  intros [Hw Hs _] Hl. destruct votes as [bs|]; cbn.
  - rewrite accumulate_weights_Ok; [done|by apply Hl|done|lia|].
    assert (2 ^ 31 < 2 ^ 64) by done. lia.
  - by destruct (finalizers pol).
Qed.

Lemma zip_andb_none (s w : list bool) :
  forallb negb (zip_with andb s w) = true <->
  (forall i, s !! i = Some true -> w !! i = Some true -> False).
Proof.
  revert w. induction s as [|a s IH]; intros w; cbn.
  { split; [|done]. intros _ i. by rewrite lookup_nil. }
  destruct w as [|b w]; cbn.
  { split; [|done]. intros _ i _. by rewrite lookup_nil. }
  rewrite andb_true_iff, IH. split.
  - intros [Hab H] [|i]; cbn; [intros [= ->] [= ->]; done|apply H].
  - intros H. split; [destruct a, b; try done; by destruct (H 0%nat)|intros i; apply (H (S i))].
Qed.

Lemma disjoint_weights fs s w :
  weights_ok fs -> (forall i, s !! i = Some true -> w !! i = Some true -> False) ->
  voted_weight fs s + voted_weight fs w <= total_weight fs.
Proof.
  intros Hw Hd. destruct (Z.le_gt_cases (voted_weight fs s + voted_weight fs w) (total_weight fs)) as [|Hgt];
    [done|]. destruct (quorums_intersect fs s w Hw ltac:(lia)) as (i & f & _ & H1 & H2 & _).
  by destruct (Hd i).
Qed.

Lemma size_matches_spec fs votes :
  size_matches fs votes = true <-> forall bs, votes = Some bs -> length bs = length fs.
Proof.
  destruct votes as [bs|]; cbn; [|by split].
  rewrite Nat.eqb_eq. split; [by intros E bs' [= <-]|by intros H; rewrite (H bs)].
Qed.

Lemma no_double_vote_spec q :
  no_double_vote q = true <->
  (forall i, bits_of (strong_votes q) !! i = Some true -> bits_of (weak_votes q) !! i = Some true -> False).
Proof.
  unfold no_double_vote. destruct (strong_votes q) as [s|], (weak_votes q) as [w|]; cbn.
  - apply zip_andb_none.
  - split; [|done]. intros _ i _. by rewrite lookup_nil.
  - split; [|done]. intros _ i. by rewrite lookup_nil.
  - split; [|done]. intros _ i. by rewrite lookup_nil.
Qed.

Lemma verify_sig_spec pol q :
  policy_ok pol ->
  (verify_vote_format q pol = Ok () /\ verify_weights q pol = Ok ()) <-> sig_valid pol q.
Proof.
  intros Hp. pose proof Hp as [Hw Hs Ht]. assert (2 ^ 31 < 2 ^ 64) by done. split.
  - intros [Hf Hv]. unfold verify_vote_format in Hf. inv_result.
    rewrite size_matches_spec in E0, E1. rewrite no_double_vote_spec in E2.
    unfold verify_weights in Hv. rewrite !weights_of_Ok in Hv by done. cbn in Hv.
    assert (Hq : threshold pol <= voted_weight (finalizers pol) (bits_of (strong_votes q))
      + if qc_sig_is_strong q then 0 else voted_weight (finalizers pol) (bits_of (weak_votes q))).
    { pose proof (disjoint_weights _ _ _ Hw E2).
      pose proof (voted_weight_bounds _ (bits_of (strong_votes q)) Hw).
      pose proof (voted_weight_bounds _ (bits_of (weak_votes q)) Hw).
      destruct (qc_sig_is_strong q); inv_result; [lia|].
      rewrite wrap64_id in E3 by (unfold u64; lia). lia. }
    constructor; [|done..]. apply orb_true_iff in E as [E|E]; apply bool_decide_eq_true in E; auto.
  - intros [H1 H2 H3 H4 H5]. split.
    + unfold verify_vote_format.
      pass_with ltac:(apply orb_true_iff; destruct H1; [left|right]; by apply bool_decide_eq_true).
      pass_with ltac:(by apply size_matches_spec). pass_with ltac:(by apply size_matches_spec).
      by pass_with ltac:(by apply no_double_vote_spec).
    + unfold verify_weights. rewrite !weights_of_Ok by done. cbn.
      pose proof (disjoint_weights _ _ _ Hw H4).
      pose proof (voted_weight_bounds _ (bits_of (strong_votes q)) Hw).
      pose proof (voted_weight_bounds _ (bits_of (weak_votes q)) Hw).
      destruct (qc_sig_is_strong q); [by pass_with ltac:(lia)|].
      rewrite wrap64_id by (unfold u64; lia). by pass_with ltac:(lia).
Qed.

(** ** The aggregator *)

Definition state_inv (st : state_t) (s w q m : Z) : Prop :=
  match st with
  | unrestricted => s + w < q /\ w <= m
  | restricted => s + w < q /\ m < w
  | weak_achieved => s < q <= s + w
  | weak_final => q <= s + w /\ m <= w
  | strong => q <= s
  end.

(** The votes held and the sums of their weights; a vote is in one bitset. *)
Record agg_inv (pol : finalizer_policy) (a : aggregating_qc_sig_t) : Prop := {
  ai_quorum : quorum a = threshold pol;
  ai_max : max_weak_sum a = total_weight (finalizers pol) - threshold pol;
  ai_strong_size : length (bitset (agg_strong_votes a)) = length (finalizers pol);
  ai_weak_size : length (bitset (agg_weak_votes a)) = length (finalizers pol);
  ai_processed_strong : processed (agg_strong_votes a) = bitset (agg_strong_votes a);
  ai_processed_weak : processed (agg_weak_votes a) = bitset (agg_weak_votes a);
  ai_disjoint : forall i, bitset (agg_strong_votes a) !! i = Some true ->
                          bitset (agg_weak_votes a) !! i = Some true -> False;
  ai_strong_sum : strong_sum a = voted_weight (finalizers pol) (bitset (agg_strong_votes a));
  ai_weak_sum : weak_sum a = voted_weight (finalizers pol) (bitset (agg_weak_votes a));
  ai_state : state_inv (aggregating_state a) (strong_sum a) (weak_sum a) (threshold pol)
               (total_weight (finalizers pol) - threshold pol);
  ai_received : forall r, received_qc_sig a = Some r -> sig_valid pol r
}.

Lemma voted_weight_insert fs votes i f :
  fs !! i = Some f -> votes !! i = Some false ->
  voted_weight fs (<[i := true]> votes) = voted_weight fs votes + weight f.
Proof.
  revert votes i. induction fs as [|g fs IH]; intros [|v votes] [|i]; cbn; try done.
  - intros [= ->] [= ->]. lia.
  - intros Hf Hv. rewrite IH by done. lia.
Qed.

Lemma voted_weight_replicate fs n : voted_weight fs (replicate n false) = 0.
Proof. revert n. induction fs as [|f fs IH]; intros [|n]; cbn; [done..|]. by rewrite IH. Qed.

Lemma new_aggregating_qc_sig_inv pol :
  policy_ok pol -> 0 < threshold pol -> agg_inv pol (new_aggregating_qc_sig pol).
Proof.
  intros [Hw Hs Ht] Hpos. constructor; cbn; rewrite ?length_replicate, ?voted_weight_replicate; try done.
  - rewrite max_weak_sum_before_weak_final_eq.
    assert (E : int32_of (total_weight (finalizers pol)) = total_weight (finalizers pol)).
    { unfold int32_of. rewrite wrap32_id; [lia|]. split; [lia|]. change (2 ^ 32) with (2 ^ 31 + 2 ^ 31). lia. }
    assert (2 ^ 31 < 2 ^ 64) by done. rewrite E, (wrap64_id (total_weight _)), wrap64_id; unfold u64; lia.
  - intros i Hi. apply lookup_replicate in Hi as [[=] _].
  - lia.
Qed.

Section Add.
Context {pol : finalizer_policy} (Hp : policy_ok pol) {a : aggregating_qc_sig_t} (Ha : agg_inv pol a).
Context {index : nat} {f : finalizer_authority} (Hf : finalizers pol !! index = Some f).

Lemma index_bits :
  exists s w, bitset (agg_strong_votes a) !! index = Some s /\ bitset (agg_weak_votes a) !! index = Some w.
Proof.
  pose proof (lookup_lt_Some _ _ _ Hf).
  destruct (lookup_lt_is_Some_2 (bitset (agg_strong_votes a)) index) as [s Hs]; [by rewrite (ai_strong_size _ _ Ha)|].
  destruct (lookup_lt_is_Some_2 (bitset (agg_weak_votes a)) index) as [w Hw]; [by rewrite (ai_weak_size _ _ Ha)|].
  by exists s, w.
Qed.

Definition has_bit (b : bool) : Prop :=
  exists s w, bitset (agg_strong_votes a) !! index = Some s /\ bitset (agg_weak_votes a) !! index = Some w /\
    b = s || w.

Lemma agg_has_voted_Ok : exists b, agg_has_voted a index = Ok b /\ has_bit b.
Proof.
  destruct index_bits as (s & w & Hs & Hw). exists (s || w). split; [|by exists s, w].
  unfold agg_has_voted, votes_has_voted.
  rewrite (ai_processed_strong _ _ Ha), (ai_processed_weak _ _ Ha), Hs, Hw. by destruct s.
Qed.

Lemma check_duplicate_Ok :
  exists b, has_bit b /\ check_duplicate a index = Ok (if b : bool then duplicate else success).
Proof.
  destruct index_bits as (s & w & Hs & Hw). exists (s || w). split; [by exists s, w|].
  unfold check_duplicate. rewrite Hs, Hw. by destruct s.
Qed.

Lemma votes_add_vote_Ok v sig :
  length (bitset v) = length (finalizers pol) -> processed v = bitset v ->
  votes_add_vote v index sig =
    Ok (Votes (<[index := true]> (bitset v)) (g2_add (votes_sig v) (jacobian_montgomery_le sig))
          (<[index := true]> (processed v))).
Proof.
  intros Hl E. pose proof (lookup_lt_Some _ _ _ Hf). unfold votes_add_vote. rewrite E, Hl.
  by pass_with ltac:(by apply bool_decide_eq_true).
Qed.

Context (Hfree : has_bit false) (sig : bls_signature).

Lemma free_bits :
  bitset (agg_strong_votes a) !! index = Some false /\ bitset (agg_weak_votes a) !! index = Some false.
Proof. destruct Hfree as (s & w & Hs & Hw & E). destruct s, w; done. Qed.

(** The weights after the vote, and that no sum of them wraps. *)
Lemma free_weights :
  0 <= weight f /\ 0 <= strong_sum a /\ 0 <= weak_sum a /\
  strong_sum a + weak_sum a + weight f <= total_weight (finalizers pol).
Proof.
  destruct free_bits as [Hs Hw]. pose proof (po_weights _ Hp) as Hwt.
  rewrite (ai_strong_sum _ _ Ha), (ai_weak_sum _ _ Ha).
  pose proof (voted_weight_bounds _ (bitset (agg_strong_votes a)) Hwt).
  pose proof (voted_weight_bounds _ (bitset (agg_weak_votes a)) Hwt).
  assert (0 <= weight f).
  { unfold weights_ok in Hwt. rewrite Forall_lookup in Hwt. by eapply Hwt. }
  split_and!; [done|lia|lia|].
  rewrite <- Z.add_assoc, (Z.add_comm _ (weight f)), Z.add_assoc, <- (voted_weight_insert _ _ _ _ Hf Hs).
  apply disjoint_weights; [done|]. intros i Hi Hi'.
  destruct (decide (i = index)) as [->|Hne]; [congruence|].
  rewrite list_lookup_insert_ne in Hi by done. by apply (ai_disjoint _ _ Ha i).
Qed.

Lemma add_strong_vote_Ok :
  exists a', add_strong_vote a index sig (weight f) = Ok a' /\ agg_inv pol a' /\
    received_qc_sig a' = received_qc_sig a /\
    bitset (agg_strong_votes a') = <[index := true]> (bitset (agg_strong_votes a)) /\
    bitset (agg_weak_votes a') = bitset (agg_weak_votes a) /\
    (agg_is_quorum_met a = true -> agg_is_quorum_met a' = true).
Proof.
  destruct free_weights as (Hf0 & Hs0 & Hw0 & Hsum). destruct free_bits as [Hs Hw].
  pose proof (po_sum _ Hp). assert (2 ^ 31 < 2 ^ 64) by done. pose proof (po_threshold _ Hp).
  pose proof (ai_state _ _ Ha) as Hst.
  unfold add_strong_vote. rewrite votes_add_vote_Ok by apply Ha. cbn [mbind result_bind].
  rewrite (wrap64_id (strong_sum a + _)), (wrap64_id (weak_sum a + _)) by (unfold u64; lia).
  rewrite (ai_quorum _ _ Ha). unfold agg_is_quorum_met.
  set (st' := match aggregating_state a with
    | unrestricted | restricted => if threshold pol <=? strong_sum a + weight f then strong
        else if threshold pol <=? weak_sum a + (strong_sum a + weight f)
             then (if decide (aggregating_state a = restricted) then weak_final else weak_achieved)
             else aggregating_state a
    | weak_achieved => if threshold pol <=? strong_sum a + weight f then strong else weak_achieved
    | st => st end).
  eexists (AggregatingQcSig _ _ _ st' _ _ _ _). split_and!.
  - subst st'. unfold state_inv in Hst. destruct (aggregating_state a) eqn:E; cbn.
    + destruct (_ <=? _); [done|]. by destruct (_ <=? _).
    + destruct (Z.leb_spec (threshold pol) (strong_sum a + weight f)); [lia|]. by destruct (_ <=? _).
    + done.
    + done.
    + done.
  - constructor; cbn; rewrite ?length_insert; try done; try apply Ha.
    + by rewrite (ai_processed_strong _ _ Ha).
    + intros i Hi Hi'. destruct (decide (i = index)) as [->|Hne]; [congruence|].
      rewrite list_lookup_insert_ne in Hi by done. by apply (ai_disjoint _ _ Ha i).
    + rewrite (voted_weight_insert _ _ _ _ Hf Hs). by rewrite (ai_strong_sum _ _ Ha).
    + subst st'. unfold state_inv in *. destruct (aggregating_state a); cbn in *;
        repeat case_comparison; try case_decide; try done; lia.
  - done.
  - done.
  - done.
  - subst st'. cbn. destruct (aggregating_state a); cbn; try done. by destruct (_ <=? _).
Qed.

Lemma add_weak_vote_Ok :
  exists a', add_weak_vote a index sig (weight f) = Ok a' /\ agg_inv pol a' /\
    received_qc_sig a' = received_qc_sig a /\
    bitset (agg_strong_votes a') = bitset (agg_strong_votes a) /\
    bitset (agg_weak_votes a') = <[index := true]> (bitset (agg_weak_votes a)) /\
    (agg_is_quorum_met a = true -> agg_is_quorum_met a' = true).
Proof.
  destruct free_weights as (Hf0 & Hs0 & Hw0 & Hsum). destruct free_bits as [Hs Hw].
  pose proof (po_sum _ Hp). assert (2 ^ 31 < 2 ^ 64) by done. pose proof (po_threshold _ Hp).
  pose proof (ai_state _ _ Ha) as Hst.
  unfold add_weak_vote. rewrite votes_add_vote_Ok by apply Ha. cbn [mbind result_bind].
  rewrite (wrap64_id (weak_sum a + _)), (wrap64_id (weak_sum a + weight f + _)) by (unfold u64; lia).
  rewrite (ai_quorum _ _ Ha), (ai_max _ _ Ha). unfold agg_is_quorum_met.
  eexists. split; [reflexivity|]. split_and!.
  - constructor; cbn; rewrite ?length_insert; try done; try apply Ha.
    + by rewrite (ai_processed_weak _ _ Ha).
    + intros i Hi Hi'. destruct (decide (i = index)) as [->|Hne]; [congruence|].
      rewrite list_lookup_insert_ne in Hi' by done. by apply (ai_disjoint _ _ Ha i).
    + rewrite (voted_weight_insert _ _ _ _ Hf Hw). by rewrite (ai_weak_sum _ _ Ha).
    + unfold state_inv in *. destruct (aggregating_state a); cbn in *;
        repeat case_comparison; try done; lia.
  - done.
  - done.
  - done.
  - cbn. destruct (aggregating_state a); cbn; try done. by destruct (_ <=? _).
Qed.
End Add.

Lemma agg_add_vote_Ok pol a is_strong index f sig :
  policy_ok pol -> agg_inv pol a -> finalizers pol !! index = Some f ->
  exists r a', agg_add_vote a is_strong index sig (weight f) = Ok (r, a') /\ agg_inv pol a' /\
    received_qc_sig a' = received_qc_sig a /\
    (agg_is_quorum_met a = true -> agg_is_quorum_met a' = true) /\
    (r = duplicate /\ a' = a /\ has_bit (a := a) (index := index) true \/
     r = success /\ has_bit (a := a) (index := index) false /\ has_bit (a := a') (index := index) true).
Proof.
  intros Hp Ha Hf. destruct (check_duplicate_Ok Ha Hf) as (b & Hb & E).
  unfold agg_add_vote. rewrite E. cbn [mbind result_bind]. destruct b.
  { exists duplicate, a. split_and!; auto. }
  destruct (free_bits Hb) as [Hs Hw]. pose proof (lookup_lt_Some _ _ _ Hs). pose proof (lookup_lt_Some _ _ _ Hw).
  destruct is_strong.
  - destruct (add_strong_vote_Ok Hp Ha Hf Hb sig) as (a' & E' & Ha' & Hr & Hs' & Hw' & Hq).
    rewrite E'. exists success, a'. split_and!; [done..|]. right. split_and!; [done|done|].
    exists true, false. rewrite Hs', Hw', list_lookup_insert_eq by done. done.
  - destruct (add_weak_vote_Ok Hp Ha Hf Hb sig) as (a' & E' & Ha' & Hr & Hs' & Hw' & Hq).
    rewrite E'. exists success, a'. split_and!; [done..|]. right. split_and!; [done|done|].
    exists false, true. rewrite Hs', Hw', list_lookup_insert_eq by done. done.
Qed.

(** The best certificate exists when there is a quorum, and is valid. *)
Lemma agg_get_best_qc_Ok pol a :
  agg_inv pol a ->
  exists o, agg_get_best_qc a = Ok o /\ (forall q, o = Some q -> sig_valid pol q) /\
    (agg_is_quorum_met a = true -> is_Some o) /\
    (aggregating_state a = strong -> exists q, o = Some q /\ qc_sig_is_strong q = true).
Proof.
  intros Ha. unfold agg_get_best_qc. destruct (agg_is_quorum_met a) eqn:Eq; cbn.
  2:{ exists (received_qc_sig a). split_and!; [done|apply Ha|done|].
      unfold agg_is_quorum_met in Eq. intros E. by rewrite E in Eq. }
  assert (H : exists q, extract_qc_sig_from_aggregating a = Ok q /\ sig_valid pol q /\
            (aggregating_state a = strong -> qc_sig_is_strong q = true)).
  { pose proof (ai_state _ _ Ha) as Hst. pose proof (ai_strong_sum _ _ Ha) as Hs.
    pose proof (ai_weak_sum _ _ Ha) as Hw. unfold agg_is_quorum_met in Eq.
    unfold extract_qc_sig_from_aggregating. destruct (decide (aggregating_state a = strong)) as [E|E].
    - eexists. split; [reflexivity|]. rewrite E in Hst. cbn in Hst. split; [|done].
      constructor; cbn; [left; by eexists| |done| |].
      + intros bs [= <-]. apply Ha.
      + intros i _. by rewrite lookup_nil.
      + rewrite <- Hs. lia.
    - unfold agg_is_quorum_met. rewrite Eq. eexists. split; [reflexivity|].
      split; [|done]. constructor; cbn; [left; by eexists| | | |].
      + intros bs [= <-]. apply Ha.
      + intros bs [= <-]. apply Ha.
      + apply Ha.
      + rewrite <- Hs, <- Hw. destruct (aggregating_state a); cbn in *; try done; lia. }
  destruct H as (q & -> & Hq & Hqs). cbn [mbind result_bind].
  pose proof (ai_received _ _ Ha) as Hr. destruct (received_qc_sig a) as [r|].
  - destruct (qc_sig_is_strong r || qc_sig_is_weak q) eqn:E.
    + eexists. split_and!; [reflexivity|by intros ? [= <-]; apply Hr|by eexists|].
      intros Est. specialize (Hqs Est). unfold qc_sig_is_strong in *. exists r. split; [done|].
      apply negb_true_iff in Hqs. rewrite Hqs, orb_false_r in E. done.
    + eexists. split_and!; [reflexivity|by intros ? [= <-]|by eexists|]. intros Est. exists q. auto.
  - eexists. split_and!; [reflexivity|by intros ? [= <-]|by eexists|]. intros Est. exists q. auto.
Qed.

Lemma set_received_qc_sig_inv pol a q :
  agg_inv pol a -> sig_valid pol q -> agg_inv pol (set_received_qc_sig a q).2.
Proof.
  intros Ha Hq. unfold set_received_qc_sig.
  assert (H : agg_inv pol (AggregatingQcSig (Some q) (quorum a) (max_weak_sum a) (aggregating_state a)
              (strong_sum a) (weak_sum a) (agg_weak_votes a) (agg_strong_votes a))).
  { constructor; cbn; try apply Ha. by intros r [= <-]. }
  destruct (received_qc_sig a) as [r|]; [|done]. by destruct (_ && _).
Qed.

Lemma set_received_qc_sig_quorum a q :
  agg_is_quorum_met (set_received_qc_sig a q).2 = agg_is_quorum_met a.
Proof. unfold set_received_qc_sig. destruct (received_qc_sig a); [|done]. by destruct (_ && _). Qed.

(** ** Histories of an aggregator *)

Definition qc_inv (a : aggregating_qc_t) : Prop :=
  agg_inv (agg_active_policy a) (agg_active_sig a) /\
  match agg_pending_policy a, agg_pending_sig a with
  | Some pol, Some p => agg_inv pol p
  | None, None => True
  | _, _ => False
  end.

Inductive agg_event : Type :=
| EvVote (vote : vote_message) (finalizer_digest : list Z)
| EvReceived (q : qc_t).

Definition agg_step (a : aggregating_qc_t) (e : agg_event) : result aggregating_qc_t :=
  match e with
  | EvVote vote d => r ← aggregate_vote a vote d; Ok r.2
  | EvReceived q => r ← set_received_qc a q; Ok r.2
  end.

(** Certificates are given to an aggregator after they are verified. *)
Definition event_ok (policies : finalizer_policies_t) (e : agg_event) : Prop :=
  match e with EvVote _ _ => True | EvReceived q => verify_basic q policies = Ok () end.

Definition policies_ok (policies : finalizer_policies_t) : Prop :=
  (policy_ok (active_finalizer_policy policies) /\ 0 < threshold (active_finalizer_policy policies)) /\
  forall pol, pending_finalizer_policy policies = Some pol -> policy_ok pol /\ 0 < threshold pol.

Lemma verify_basic_valid q policies :
  policies_ok policies -> verify_basic q policies = Ok () ->
  sig_valid (active_finalizer_policy policies) (active_policy_sig q) /\
  match pending_policy_sig q, pending_finalizer_policy policies with
  | Some p, Some pol => sig_valid pol p
  | None, None => True
  | _, _ => False
  end.
Proof.
  intros [[Hact _] Hpend] H. unfold verify_basic in H. inv_result.
  destruct x, x0. split; [by apply verify_sig_spec|].
  destruct (pending_policy_sig q) as [p|], (pending_finalizer_policy policies) as [pol|]; try done.
  inv_result. destruct x, x0. apply verify_sig_spec; [by apply Hpend|done].
Qed.

Lemma find_index_Some k fs i :
  find_index k fs = Some i -> exists f, fs !! i = Some f /\ public_key f = k.
Proof.
  revert i. induction fs as [|f fs IH]; intros i; cbn; [done|].
  destruct (decide _); [intros [= <-]; by exists f|].
  intros (j & Hj & ->)%fmap_Some. by apply IH.
Qed.

Lemma add_vote_under_Ok vote d verified pol a :
  policy_ok pol -> agg_inv pol a ->
  exists r auth a' verified', add_vote_under vote d verified pol a = Ok (r, auth, a', verified') /\
    agg_inv pol a' /\ (agg_is_quorum_met a = true -> agg_is_quorum_met a' = true) /\
    (r <> success -> a' = a) /\
    (r = unknown_public_key -> find_index (finalizer_key vote) (finalizers pol) = None) /\
    (forall index, find_index (finalizer_key vote) (finalizers pol) = Some index -> r <> invalid_signature ->
      has_bit (a := a') (index := index) true).
Proof.
  intros Hp Ha. unfold add_vote_under.
  destruct (find_index _ _) as [index|] eqn:Ei.
  2:{ eexists _, _, _, _. split_and!; [reflexivity|done..]. }
  destruct (find_index_Some _ _ _ Ei) as (f & Hf & _). rewrite Hf. cbn [at_or_assert mbind result_bind].
  destruct (agg_has_voted_Ok Ha Hf) as (b & E & Hb). rewrite E. cbn [mbind result_bind]. destruct b.
  { eexists _, _, _, _. split_and!; [reflexivity|done..|by intros ? [= <-]]. }
  destruct (_ && _).
  { eexists _, _, _, _. split_and!; [reflexivity|done..]. }
  destruct (agg_add_vote_Ok pol a (vote_strong vote) index f (vote_sig vote) Hp Ha Hf)
    as (r & a' & E' & Ha' & _ & Hq & Hor).
  rewrite E'. cbn [mbind result_bind]. eexists _, _, _, _. split_and!; [reflexivity|done|done| | |].
  - destruct Hor as [(-> & -> & _)|(-> & _)]; done.
  - destruct Hor as [(-> & -> & _)|(-> & _)]; done.
  - intros ? [= <-] _. destruct Hor as [(-> & -> & ?)|(-> & _ & ?)]; done.
Qed.

Section History.
Context (policies : finalizer_policies_t) (Hpol : policies_ok policies).

Definition agg_policies (a : aggregating_qc_t) : Prop :=
  agg_active_policy a = active_finalizer_policy policies /\
  agg_pending_policy a = pending_finalizer_policy policies.

Lemma new_aggregating_qc_inv :
  let a := new_aggregating_qc (active_finalizer_policy policies) (pending_finalizer_policy policies) in
  qc_inv a /\ agg_policies a.
Proof.
  destruct Hpol as [[H1 H2] Hpend]. split; [|done]. split; cbn.
  - by apply new_aggregating_qc_sig_inv.
  - destruct (pending_finalizer_policy policies) as [pol|]; cbn; [|done].
    destruct (Hpend pol eq_refl). by apply new_aggregating_qc_sig_inv.
Qed.

Lemma aggregate_vote_Ok a vote d :
  qc_inv a -> agg_policies a ->
  exists r a', aggregate_vote a vote d = Ok (r, a') /\ qc_inv a' /\ agg_policies a' /\
    (is_quorum_met a = true -> is_quorum_met a' = true).
Proof.
  intros [Ha Hp] [Epol1 Epol2]. destruct Hpol as [[Hact _] Hpend].
  unfold aggregate_vote.
  destruct (add_vote_under_Ok vote d false (agg_active_policy a) (agg_active_sig a))
    as (r & auth & a1 & v1 & E & Ha1 & Hq1 & _); [by rewrite Epol1|done|].
  rewrite E. cbn [mbind result_bind]. unfold is_quorum_met, qc_inv, agg_policies.
  destruct (negb _ && negb _).
  { eexists _, _. split_and!; [reflexivity|done|done|done|done|]. cbn.
    intros [Hm1 Hm2]%andb_true_iff. by rewrite (Hq1 Hm1), Hm2. }
  destruct (agg_pending_policy a) as [pol|] eqn:Epend.
  2:{ eexists _, _. split_and!; [reflexivity|done| |done| |]; cbn.
      - by rewrite ?Epend.
      - by rewrite ?Epend.
      - intros [Hm1 Hm2]%andb_true_iff. by rewrite (Hq1 Hm1), Hm2. }
  destruct (agg_pending_sig a) as [p|] eqn:Eps; [|done]. cbn [at_or_assert mbind result_bind].
  destruct (add_vote_under_Ok vote d v1 pol p) as (r2 & auth2 & p' & v2 & E2 & Hp2 & Hq2 & _).
  { apply Hpend. congruence. }
  { done. }
  rewrite E2. cbn [mbind result_bind]. eexists _, _. split_and!; [reflexivity|done|by cbn; rewrite ?Epend|done| |]; cbn.
  - congruence.
  - intros [Hm1 Hm2]%andb_true_iff. by rewrite (Hq1 Hm1), (Hq2 Hm2).
Qed.

Lemma set_received_qc_Ok a q :
  qc_inv a -> agg_policies a -> verify_basic q policies = Ok () ->
  exists b a', set_received_qc a q = Ok (b, a') /\ qc_inv a' /\ agg_policies a' /\
    (is_quorum_met a = true -> is_quorum_met a' = true).
Proof.
  intros [Ha Hp] [Epol1 Epol2] Hv. destruct (verify_basic_valid _ _ Hpol Hv) as [Hq1 Hq2].
  rewrite <- Epol1, <- Epol2 in *. pose proof (set_received_qc_sig_inv _ _ _ Ha Hq1) as Ha'.
  pose proof (set_received_qc_sig_quorum (agg_active_sig a) (active_policy_sig q)) as Eq1.
  unfold set_received_qc, qc_inv, agg_policies, is_quorum_met.
  destruct (set_received_qc_sig (agg_active_sig a) (active_policy_sig q)) as [b1 a1]. cbn in Ha', Eq1.
  destruct (agg_pending_policy a) as [pol|] eqn:Epend, (agg_pending_sig a) as [p|] eqn:Eps; try done.
  - destruct (pending_policy_sig q) as [qp|]; [|done].
    pose proof (set_received_qc_sig_inv _ _ _ Hp Hq2) as Hp'.
    pose proof (set_received_qc_sig_quorum p qp) as Eq2.
    destruct (set_received_qc_sig p qp) as [b2 p2]. cbn in Hp', Eq2.
    eexists _, _. split_and!; [reflexivity|done|done|done|done|].
    cbn. by rewrite Eq1, Eq2.
  - destruct (pending_policy_sig q); (eexists _, _; split_and!;
      [reflexivity|done|done|done|done|cbn; by rewrite Eq1]).
Qed.

Lemma agg_step_Ok a e :
  qc_inv a -> agg_policies a -> event_ok policies e ->
  exists a', agg_step a e = Ok a' /\ qc_inv a' /\ agg_policies a' /\
    (is_quorum_met a = true -> is_quorum_met a' = true).
Proof.
  intros Ha Hpa He. destruct e as [vote d|q]; cbn in *.
  - destruct (aggregate_vote_Ok a vote d Ha Hpa) as (r & a' & -> & ?). by exists a'.
  - destruct (set_received_qc_Ok a q Ha Hpa He) as (b & a' & -> & ?). by exists a'.
Qed.

Lemma agg_steps_Ok es a :
  qc_inv a -> agg_policies a -> Forall (event_ok policies) es ->
  exists a', foldM agg_step a es = Ok a' /\ qc_inv a' /\ agg_policies a' /\
    (is_quorum_met a = true -> is_quorum_met a' = true).
Proof.
  intros Ha Hpa Hes. revert a Ha Hpa. induction Hes as [|e es He _ IH]; intros a Ha Hpa; cbn [foldM].
  { by exists a. }
  destruct (agg_step_Ok a e Ha Hpa He) as (a1 & -> & Ha1 & Hpa1 & Hq1). cbn [mbind result_bind].
  destruct (IH a1 Ha1 Hpa1) as (a' & E & Ha' & Hpa' & Hq'). exists a'. split_and!; [done..|auto].
Qed.

Definition qc_valid (q : qc_t) : Prop :=
  sig_valid (active_finalizer_policy policies) (active_policy_sig q) /\
  match pending_policy_sig q, pending_finalizer_policy policies with
  | Some p, Some pol => sig_valid pol p
  | None, None => True
  | _, _ => False
  end.

Lemma get_best_qc_Ok a n :
  qc_inv a -> agg_policies a ->
  exists o, get_best_qc a n = Ok o /\ (forall q, o = Some q -> qc_valid q /\ qc_block_num q = n) /\
    (is_quorum_met a = true -> is_Some o).
Proof.
  intros [Ha Hp] [Epol1 Epol2]. unfold get_best_qc, is_quorum_met, qc_valid.
  rewrite <- Epol1, <- Epol2.
  destruct (agg_get_best_qc_Ok _ _ Ha) as (o & -> & Ho & Hoq & _). cbn [mbind result_bind].
  destruct o as [q|].
  2:{ exists None. split_and!; [done|done|]. intros [Hm _]%andb_true_iff. by destruct (Hoq Hm). }
  destruct (agg_pending_policy a) as [pol|], (agg_pending_sig a) as [p|]; try done.
  - destruct (agg_get_best_qc_Ok _ _ Hp) as (o & -> & Ho' & Hoq' & _). cbn [mbind result_bind].
    eexists. split_and!; [reflexivity| |].
    + destruct o as [q'|]; [|done]. intros ? [= <-]. cbn. auto.
    + intros [_ Hm]%andb_true_iff. destruct (Hoq' Hm) as [q' ->]. by eexists.
  - eexists. split_and!; [reflexivity| |by eexists]. intros ? [= <-]. cbn. auto.
Qed.

(** C29: For policies whose total weight is less than 2^31 and whose thresholds
    are positive and no more than the total ([policies_ok]), whatever votes arrive
    and whatever verified certificates are received, in any order: no assertion
    of the aggregator fails, no exception leaves it, and the certificate
    [get_best_qc] returns has, for each policy of the block, a signature that
    passes [verify_vote_format] and [verify_weights].  There is a certificate as
    soon as a quorum is met, and a quorum met stays met.  (The code admits
    policies of a greater weight, for which the sum of the weak votes that it
    compares is cut off: [max_weak_sum_before_weak_final_truncated].) *)
Theorem aggregation_correct (es es' : list agg_event) (n : Z) :
  Forall (event_ok policies) es -> Forall (event_ok policies) es' ->
  exists a a' o,
    foldM agg_step (new_aggregating_qc (active_finalizer_policy policies) (pending_finalizer_policy policies)) es = Ok a /\
    foldM agg_step a es' = Ok a' /\ (is_quorum_met a = true -> is_quorum_met a' = true) /\
    get_best_qc a n = Ok o /\ (is_quorum_met a = true -> is_Some o) /\
    (forall q, o = Some q ->
       verify_vote_format (active_policy_sig q) (active_finalizer_policy policies) = Ok () /\
       verify_weights (active_policy_sig q) (active_finalizer_policy policies) = Ok () /\
       (forall pol, pending_finalizer_policy policies = Some pol -> exists p, pending_policy_sig q = Some p /\
          verify_vote_format p pol = Ok () /\ verify_weights p pol = Ok ())).
Proof.
  intros Hes Hes'. destruct new_aggregating_qc_inv as [H0 Hp0].
  destruct (agg_steps_Ok es _ H0 Hp0 Hes) as (a & E & Ha & Hpa & _).
  destruct (agg_steps_Ok es' _ Ha Hpa Hes') as (a' & E' & _ & _ & Hq').
  destruct (get_best_qc_Ok a n Ha Hpa) as (o & Eo & Ho & Hoq).
  exists a, a', o. split_and!; [done..|]. intros q Hq. destruct (Ho q Hq) as [[Hv1 Hv2] _].
  destruct Hpol as [[Hact _] Hpend].
  apply (verify_sig_spec _ _ Hact) in Hv1 as [Hv1 Hw1]. split_and!; [done|done|].
  intros pol Epol. rewrite Epol in Hv2. destruct (pending_policy_sig q) as [p|]; [|done].
  destruct (Hpend _ Epol) as [Hpok _]. exists p. split; [done|]. by apply verify_sig_spec.
Qed.

(** With no pending policy, the certificate an aggregator makes is accepted
    by [verify_basic] whatever the history. *)
Theorem aggregated_qc_verifies (es : list agg_event) (n : Z) (a : aggregating_qc_t) (q : qc_t) :
  pending_finalizer_policy policies = None -> Forall (event_ok policies) es ->
  foldM agg_step (new_aggregating_qc (active_finalizer_policy policies) None) es = Ok a ->
  get_best_qc a n = Ok (Some q) -> verify_basic q policies = Ok ().
Proof.
  intros Hnone Hes E Eq. destruct new_aggregating_qc_inv as [H0 Hp0]. rewrite Hnone in H0, Hp0.
  destruct (agg_steps_Ok es _ H0 Hp0 Hes) as (a1 & E1 & Ha & Hpa & _).
  rewrite E in E1. injection E1 as <-.
  destruct (get_best_qc_Ok a n Ha Hpa) as (o & Eo & Ho & _). rewrite Eq in Eo. injection Eo as <-.
  destruct (Ho q eq_refl) as [[Hv1 Hv2] _]. destruct Hpol as [[Hact _] _].
  apply (verify_sig_spec _ _ Hact) in Hv1 as [Hf Hw]. unfold verify_basic. rewrite Hf, Hw. cbn.
  rewrite Hnone in *. by destruct (pending_policy_sig q).
Qed.
End History.

(** ** What verification establishes *)

Lemma voted_weight_orb fs s w :
  length s = length w -> (forall i, s !! i = Some true -> w !! i = Some true -> False) ->
  voted_weight fs (zip_with orb s w) = voted_weight fs s + voted_weight fs w.
Proof.
  revert s w. induction fs as [|f fs IH]; intros [|a s] [|b w] Hl Hd; cbn in *; try done.
  rewrite IH; [|lia|intros i; apply (Hd (S i))].
  destruct a, b; cbn; try lia. by destruct (Hd 0%nat).
Qed.

(** Two signatures verified against the same policy share a voter: some
    finalizer of positive weight, of those the policy lists, voted in both.
    The policy is one [set_finalizers] accepts. *)
Theorem verified_qcs_intersect (pol : finalizer_policy) (q1 q2 : qc_sig_t) :
  policy_ok pol -> total_weight (finalizers pol) < 2 * threshold pol ->
  verify_vote_format q1 pol = Ok () -> verify_weights q1 pol = Ok () ->
  verify_vote_format q2 pol = Ok () -> verify_weights q2 pol = Ok () ->
  let voted_in (q : qc_sig_t) i :=
    bits_of (strong_votes q) !! i = Some true \/ qc_sig_is_strong q = false /\ bits_of (weak_votes q) !! i = Some true in
  exists i f, finalizers pol !! i = Some f /\ 0 < weight f /\ voted_in q1 i /\ voted_in q2 i.
Proof.
  intros Hp Ht Hf1 Hw1 Hf2 Hw2. cbn zeta.
  assert (H : forall q, sig_valid pol q -> exists votes,
    (forall i, votes !! i = Some true -> bits_of (strong_votes q) !! i = Some true \/
        qc_sig_is_strong q = false /\ bits_of (weak_votes q) !! i = Some true) /\
    threshold pol <= voted_weight (finalizers pol) votes).
  { intros q [_ Hs Hw Hd Hq]. destruct (qc_sig_is_strong q) eqn:E.
    { exists (bits_of (strong_votes q)). split; [auto|lia]. }
    destruct (strong_votes q) as [s|], (weak_votes q) as [w|] eqn:Ew; cbn in *.
    - exists (zip_with orb s w). split.
      + intros i Hi. rewrite lookup_zip_with in Hi.
        destruct (s !! i) as [[]|], (w !! i) as [[]|]; cbn in Hi; auto; done.
      + pose proof (voted_weight_orb (finalizers pol) s w ltac:(by rewrite (Hs s), (Hw w)) Hd). lia.
    - exists s. split; [auto|]. destruct (finalizers pol); cbn in *; lia.
    - exists w. split; [auto|]. destruct (finalizers pol); cbn in *; lia.
    - exists []. split; [intros i; by rewrite lookup_nil|]. destruct (finalizers pol); cbn in *; lia. }
  destruct (H q1) as (v1 & Hv1 & Hq1); [by apply verify_sig_spec|].
  destruct (H q2) as (v2 & Hv2 & Hq2); [by apply verify_sig_spec|].
  destruct (quorums_intersect (finalizers pol) v1 v2 (po_weights _ Hp) ltac:(lia))
    as (i & f & Hf & H1 & H2 & Hpos).
  exists i, f. auto.
Qed.

Lemma verify_dual_loop_spec pfs asig psig i fs :
  verify_dual_loop pfs asig psig i fs = Ok () ->
  forall k f j, fs !! k = Some f -> find_index (public_key f) pfs = Some j ->
  vote_same_at asig psig (i + k) j = Ok true.
Proof.
  revert i. induction fs as [|g fs IH]; intros i H k f j Hk Hj; [done|].
  cbn [verify_dual_loop] in H. destruct k as [|k]; cbn in Hk.
  - injection Hk as <-. rewrite Hj in H. inv_result. rewrite Nat.add_0_r, E. by destruct x.
  - replace (i + S k)%nat with (S i + k)%nat by lia.
    destruct (find_index (public_key g) pfs); [|by eapply IH]. inv_result. by eapply IH.
Qed.

Lemma vote_same_at_true asig psig i j :
  vote_same_at asig psig i j = Ok true ->
  bit_at (strong_votes asig) i = bit_at (strong_votes psig) j /\
  bit_at (weak_votes asig) i = bit_at (weak_votes psig) j.
Proof.
  unfold vote_same_at. intros H. inv_result.
  apply andb_true_iff in H as [H1%Bool.eqb_prop H2%Bool.eqb_prop]. subst. split; congruence.
Qed.

(** A certificate that [verify_basic] accepts has a quorum under each of the
    policies of its block and of no other, with no finalizer counted twice,
    and a finalizer in both policies voted the same way under both. *)
Theorem verify_basic_sound (q : qc_t) (policies : finalizer_policies_t) :
  policies_ok policies -> verify_basic q policies = Ok () ->
  sig_valid (active_finalizer_policy policies) (active_policy_sig q) /\
  match pending_policy_sig q, pending_finalizer_policy policies with
  | None, None => True
  | Some p, Some pol =>
      sig_valid pol p /\
      forall i j f, finalizers (active_finalizer_policy policies) !! i = Some f ->
        find_index (public_key f) (finalizers pol) = Some j ->
        bit_at (strong_votes (active_policy_sig q)) i = bit_at (strong_votes p) j /\
        bit_at (weak_votes (active_policy_sig q)) i = bit_at (weak_votes p) j
  | _, _ => False
  end.
Proof.
  intros Hpol H. destruct (verify_basic_valid _ _ Hpol H) as [H1 H2]. split; [done|].
  destruct (pending_policy_sig q) as [p|] eqn:Ep, (pending_finalizer_policy policies) as [pol|] eqn:Epol; try done.
  split; [done|]. intros i j f Hi Hj. unfold verify_basic in H. rewrite Ep, Epol in H. inv_result.
  destruct x1. unfold verify_dual_finalizers_votes in E1.
  apply vote_same_at_true. by eapply (verify_dual_loop_spec _ _ _ 0).
Qed.

(** ** A vote counts once *)

Lemma add_vote_under_duplicate vote d verified pol a index :
  agg_inv pol a -> find_index (finalizer_key vote) (finalizers pol) = Some index ->
  has_bit (a := a) (index := index) true ->
  exists auth, add_vote_under vote d verified pol a = Ok (duplicate, auth, a, verified).
Proof.
  intros Ha Ei Hb. unfold add_vote_under. rewrite Ei.
  destruct (find_index_Some _ _ _ Ei) as (f & Hf & _). rewrite Hf. cbn [at_or_assert mbind result_bind].
  destruct (agg_has_voted_Ok Ha Hf) as (b & E & Hb'). rewrite E. cbn [mbind result_bind].
  destruct Hb as (s & w & Hs & Hw & Hsw), Hb' as (s' & w' & Hs' & Hw' & ->).
  rewrite Hs in Hs'. rewrite Hw in Hw'. simplify_eq. rewrite <- Hsw. by eexists.
Qed.

(** A finalizer's vote for a block counts once.  After a vote that
    succeeded, any other message of the same finalizer -- strong or weak,
    with whatever signature -- is a duplicate and changes nothing. *)
Theorem aggregate_vote_once (policies : finalizer_policies_t) (a a' : aggregating_qc_t)
    (vote vote' : vote_message) (d d' : list Z) (r : aggregate_vote_result_t) :
  policies_ok policies -> qc_inv a -> agg_policies policies a ->
  aggregate_vote a vote d = Ok (r, a') -> avr_result r = success ->
  finalizer_key vote' = finalizer_key vote ->
  exists r', aggregate_vote a' vote' d' = Ok (r', a') /\ avr_result r' = duplicate.
Proof.
  intros [[Hact _] Hpend] [Ha Hp] [Epol1 Epol2] H Hr Hk.
  rewrite <- Epol1, <- Epol2 in *. clear Epol1 Epol2 policies.
  unfold aggregate_vote in *.
  destruct (add_vote_under_Ok vote d false (agg_active_policy a) (agg_active_sig a) Hact Ha)
    as (r1 & auth & a1 & v1 & E & Ha1 & _ & Hsame1 & Hunk1 & Hbit1).
  rewrite E in H. cbn [mbind result_bind] in H.
  destruct (decide (r1 = success)) as [->|Hne1].
  - (* counted under the active policy *)
    assert (exists index, find_index (finalizer_key vote) (finalizers (agg_active_policy a)) = Some index)
      as [index Ei].
    { unfold add_vote_under in E. destruct (find_index _ _) as [i|]; [by exists i|]. by injection E. }
    rewrite bool_decide_true in H by done. cbn [negb andb] in H.
    assert (Ha' : exists ps, a' = AggregatingQc (agg_active_policy a) (agg_pending_policy a) a1 ps).
    { destruct (agg_pending_policy a); inv_result; [|by eexists].
      destruct x0 as [[[??]?]?]. inv_result. by eexists. }
    destruct Ha' as [ps ->]. cbn [agg_active_policy agg_active_sig].
    destruct (add_vote_under_duplicate vote' d' false (agg_active_policy a) a1 index) as [auth' E'];
      [done|by rewrite Hk|by apply Hbit1|].
    rewrite E'. cbn. eexists. split; reflexivity.
  - destruct (decide (r1 = unknown_public_key)) as [->|Hne2].
    2:{ rewrite !bool_decide_false in H by done. cbn in H. injection H as <- <-. by cbn in Hr. }
    (* counted under the pending policy only *)
    rewrite (Hsame1 Hne1) in *. cbn in H.
    destruct (agg_pending_policy a) as [pol|] eqn:Epol; [|by injection H as <- <-].
    destruct (agg_pending_sig a) as [p|] eqn:Eps; [|done]. cbn [at_or_assert mbind result_bind] in H.
    destruct (add_vote_under_Ok vote d v1 pol p) as (r2 & auth2 & p' & v2 & E2 & Hp2 & _ & _ & Hunk2 & Hbit2);
      [by apply Hpend|done|].
    rewrite E2 in H. cbn in H. injection H as <- <-. cbn in *.
    destruct (bool_decide_reflect (r2 = unknown_public_key)) as [->|Hne3]; [done|]. subst r2.
    assert (exists index, find_index (finalizer_key vote) (finalizers pol) = Some index) as [index Ei].
    { destruct (find_index _ (finalizers pol)) as [i|] eqn:Ei'; [by exists i|].
      unfold add_vote_under in E2. by rewrite Ei' in E2. }
    assert (E1' : add_vote_under vote' d' false (agg_active_policy a) (agg_active_sig a) =
              Ok (unknown_public_key, None, agg_active_sig a, false)).
    { unfold add_vote_under. by rewrite Hk, Hunk1. }
    rewrite E1'. cbn. destruct (add_vote_under_duplicate vote' d' false pol p' index) as [auth' E'];
      [done|by rewrite Hk|by apply Hbit2|].
    rewrite E'. cbn. eexists. split; reflexivity.
Qed.

(** ** Missing votes *)

Definition count_true (bs : list bool) : nat := length (filter (fun b => b = true) bs).

Lemma add_votes_loop_count gen fs votes s k :
  length votes = length fs -> (add_votes_loop gen fs votes (s, k)).2 = (k + count_true votes)%nat.
Proof.
  revert votes s k. induction fs as [|f fs IH]; intros [|v votes] s k Hl; cbn in *; try done.
  unfold count_true in *.
  destruct v; [rewrite decide_True by done|rewrite decide_False by done]; cbn [fst snd length];
    rewrite IH by congruence; first [reflexivity | symmetry; apply Nat.add_succ_r].
Qed.

Lemma count_true_full bs : count_true bs = length bs -> forall b, b ∈ bs -> b = true.
Proof.
  unfold count_true. intros H b Hb. destruct (decide (b = true)) as [|Hne]; [done|].
  pose proof (length_filter_lt (fun b => b = true) bs b Hb Hne). lia.
Qed.

(** The bits [not_voted_loop] looks for. *)
Definition either (votes : vote_bitset_t) (other : option vote_bitset_t) : vote_bitset_t :=
  match other with Some o => zip_with orb votes o | None => votes end.

Lemma not_voted_loop_eq gen fs votes other s k :
  length votes = length fs -> (forall o, other = Some o -> length o = length fs) ->
  not_voted_loop gen fs votes other s = (add_votes_loop gen fs (map negb (either votes other)) (s, k)).1.
Proof.
  revert votes other s k. induction fs as [|f fs IH]; intros [|v votes] other s k Hl Ho; cbn in *; try done.
  destruct other as [o|].
  - specialize (Ho o eq_refl). destruct o as [|b o]; [done|]. cbn in *.
    rewrite (IH votes (Some o) _ (if negb (v || b) then S k else k)) by (try lia; by intros ? [= <-]; lia).
    by destruct v, b.
  - cbn. rewrite (IH votes None _ (if negb v then S k else k)) by (try lia; done).
    cbn. by destruct v.
Qed.

Lemma not_voted_loop_none gen fs votes other s :
  length votes = length fs -> (forall o, other = Some o -> length o = length fs) ->
  (forall b, b ∈ either votes other -> b = true) -> not_voted_loop gen fs votes other s = s.
Proof.
  revert votes other s. induction fs as [|f fs IH]; intros [|v votes] other s Hl Ho Hall; cbn in *; try done.
  destruct other as [[|b o]|]; cbn in *.
  - by specialize (Ho [] eq_refl).
  - specialize (Ho (b :: o) eq_refl) as Ho'. cbn in Ho'.
    assert (Hb : negb v && negb b = false).
    { specialize (Hall (v || b) ltac:(by left)). by destruct v, b. }
    rewrite Hb. apply (IH votes (Some o)); [lia|intros ? [= <-]; lia|]. intros x Hx. apply Hall. by right.
  - assert (v = true) as -> by (apply Hall; by left). cbn.
    apply (IH votes None); [lia|done|]. intros x Hx. apply Hall. by right.
Qed.

Lemma zip_orb_replicate (w : list bool) : zip_with orb (replicate (length w) false) w = w.
Proof. induction w as [|b w IH]; cbn; [done|]. by rewrite IH. Qed.

Lemma add_votes_Ok pol bs s :
  length bs = length (finalizers pol) ->
  add_votes pol bs s = Ok (add_votes_loop (generation pol) (finalizers pol) bs (s, 0%nat)).
Proof. intros H. unfold add_votes. by rewrite H, Nat.eqb_refl. Qed.

Lemma add_not_voted_Ok pol q votes other s :
  length votes = length (finalizers pol) -> (forall o, other = Some o -> length o = length (finalizers pol)) ->
  strong_votes q = Some votes /\ weak_votes q = other \/
  strong_votes q = None /\ weak_votes q = Some votes /\ other = None ->
  add_not_voted pol q s = Ok (not_voted_loop (generation pol) (finalizers pol) votes other s).
Proof.
  intros Hl Ho Hq. unfold add_not_voted.
  assert (E : (match strong_votes q with
         | Some bs => Some (bs, weak_votes q)
         | None => match weak_votes q with Some bs => Some (bs, strong_votes q) | None => None end
         end) = Some (votes, other)).
  { destruct Hq as [[-> ->]|(E1 & E2 & ->)]; [done|by rewrite E1, E2]. }
  rewrite E. rewrite Hl, Nat.eqb_refl. destruct other as [o|]; [|done]. by rewrite (Ho o eq_refl), Nat.eqb_refl.
Qed.

(** The missing votes [add_policy_votes] computes: none when the last count is
    the number of finalizers, else those not voted. *)
Lemma add_policy_votes_missing pol q m :
  sig_valid pol q ->
  exists m', add_policy_votes pol q m = Ok m' /\
    add_not_voted pol q (metrics_missing_votes m) = Ok (metrics_missing_votes m').
Proof.
  intros [Hsome Hs Hw Hd _]. unfold add_policy_votes.
  destruct (strong_votes q) as [s|] eqn:Es, (weak_votes q) as [w|] eqn:Ew.
  - specialize (Hs s eq_refl). specialize (Hw w eq_refl).
    rewrite (add_not_voted_Ok _ _ s (Some w)) by (done || (by intros ? [= <-]) || (by left)).
    rewrite (add_votes_Ok pol s), (add_votes_Ok pol w) by done. cbn [mbind result_bind]. rewrite add_votes_loop_count by done. cbn [Nat.add].
    destruct (Nat.eqb_spec (count_true w) (length (finalizers pol))) as [E|E].
    + eexists. split; [reflexivity|]. cbn. f_equal. apply not_voted_loop_none; [done|by intros ? [= <-]|].
      cbn. intros b Hb. rewrite <- Hw in E. pose proof (count_true_full w E) as Hall.
      apply list_elem_of_lookup in Hb as [i Hi]. rewrite lookup_zip_with in Hi.
      destruct (s !! i) as [x|], (w !! i) as [y|] eqn:Ey; cbn in Hi; try done. injection Hi as <-.
      rewrite (Hall y) by by eapply list_elem_of_lookup_2. by destruct x.
    + rewrite Hs, Hw, Nat.eqb_refl. rewrite add_votes_Ok by (rewrite length_map, length_zip_with; lia).
      cbn [mbind result_bind]. eexists. split; [reflexivity|]. cbn. f_equal.
      rewrite (not_voted_loop_eq _ _ _ _ _ 0%nat) by (done || (by intros ? [= <-])). done.
  - specialize (Hs s eq_refl).
    rewrite (add_not_voted_Ok _ _ s None) by (done || (by left) || (by right)).
    rewrite (add_votes_Ok pol s) by done. cbn [mbind result_bind snd]. rewrite add_votes_loop_count by done. cbn [Nat.add].
    destruct (Nat.eqb_spec (count_true s) (length (finalizers pol))) as [E|E].
    + eexists. split; [reflexivity|]. cbn. f_equal. apply not_voted_loop_none; [done|done|].
      cbn. rewrite <- Hs in E. by apply count_true_full.
    + rewrite add_votes_Ok by by rewrite length_map. cbn [mbind result_bind].
      eexists. split; [reflexivity|]. cbn. f_equal. by rewrite (not_voted_loop_eq _ _ _ _ _ 0%nat).
  - specialize (Hw w eq_refl).
    rewrite (add_not_voted_Ok _ _ w None) by (done || (by left) || (by right)).
    rewrite (add_votes_Ok pol w) by done. cbn [mbind result_bind]. rewrite add_votes_loop_count by done. cbn [Nat.add].
    destruct (Nat.eqb_spec (count_true w) (length (finalizers pol))) as [E|E].
    + eexists. split; [reflexivity|]. cbn. f_equal. apply not_voted_loop_none; [done|done|].
      cbn. rewrite <- Hw in E. by apply count_true_full.
    + rewrite length_replicate, Hw, Nat.eqb_refl, <- Hw, zip_orb_replicate.
      rewrite add_votes_Ok by by rewrite length_map. cbn [mbind result_bind].
      eexists. split; [reflexivity|]. cbn. f_equal. by rewrite (not_voted_loop_eq _ _ _ _ _ 0%nat).
  - by destruct Hsome as [[]|[]].
Qed.

(** On a verified certificate the two ways to tell who did not vote agree:
    [missing_votes] returns the missing votes of [vote_metrics], and neither
    fails an assertion. *)
Theorem missing_votes_agree (policies : finalizer_policies_t) (a : aggregating_qc_t) (q : qc_t) :
  policies_ok policies -> qc_inv a -> agg_policies policies a -> verify_basic q policies = Ok () ->
  exists m, vote_metrics a q = Ok m /\ missing_votes a q = Ok (metrics_missing_votes m).
Proof.
  intros Hpol [_ Hp] [Epol1 Epol2] Hv. destruct (verify_basic_valid _ _ Hpol Hv) as [Hq1 Hq2].
  rewrite <- Epol1 in Hq1. rewrite <- Epol2 in Hq2. unfold vote_metrics, missing_votes.
  destruct (add_policy_votes_missing _ _ (QcVoteMetrics ∅ ∅ ∅) Hq1) as (m & E1 & E2).
  cbn in E2. rewrite E1, E2. cbn [mbind result_bind].
  destruct (agg_pending_policy a) as [pol|], (agg_pending_sig a) as [p|]; try done; [|by exists m].
  destruct (pending_policy_sig q) as [qp|]; [|done]. cbn.
  apply (add_policy_votes_missing pol qp m Hq2).
Qed.
End Proofs.

(** ** Concrete runs *)

(** A library whose signatures are all valid. *)
Definition unit_bls : Bls := {|
  g1 := unit; g2 := unit; g2_zero := (); g2_add _ _ := (); jacobian_montgomery_le _ := ();
  aggregate_public_keys _ := (); aggregate_verify _ _ _ := true; bls_verify _ _ _ := true
|}.

Section Examples.
Local Existing Instance unit_bls.

Definition fin (k : Z) : finalizer_authority := FinalizerAuthority [] 1 [k].
Definition pol (gen t : Z) (ks : list Z) : finalizer_policy := FinalizerPolicy gen t (map fin ks).
Definition vote_of (k : Z) (s : bool) : agg_event := EvVote (VoteMessage sha256_default s [k] []) [].
Definition sig_of (s : list bool) (w : option (list bool)) : qc_sig_t := QcSig (Some s) w ().
Definition run (active : finalizer_policy) (pending : option finalizer_policy) (es : list agg_event) :=
  foldM agg_step (new_aggregating_qc active pending) es.

Lemma pol_ok gen t ks : 0 < t <= size_of ks -> size_of ks < 2 ^ 31 -> policy_ok (pol gen t ks) /\ 0 < threshold (pol gen t ks).
Proof.
  intros Ht Hks. assert (E : total_weight (finalizers (pol gen t ks)) = size_of ks).
  { unfold total_weight, size_of. cbn. clear. induction ks as [|k ks IH]; cbn [map Zsum length]; [done|].
    cbn in *. lia. }
  split; [|cbn; lia]. constructor; rewrite ?E; cbn; try lia.
  clear. induction ks; cbn; constructor; [cbn; lia|done].
Qed.

(** Three strong votes of six, then two weak ones: weak and final, though the
    sixth finalizer can still complete a strong quorum of four; when it votes
    strong, the certificate stays weak. *)
Lemma weak_final_hides_strong_quorum :
  exists a q, run (pol 1 4 [1; 2; 3; 4; 5; 6]) None
      [vote_of 1 true; vote_of 2 true; vote_of 3 true; vote_of 4 false; vote_of 5 false; vote_of 6 true] = Ok a /\
    quorum (agg_active_sig a) <= strong_sum (agg_active_sig a) /\
    aggregating_state (agg_active_sig a) = weak_final /\
    get_best_qc a 7 = Ok (Some q) /\ qc_is_weak q = true.
Proof.
  destruct (run (pol 1 4 [1; 2; 3; 4; 5; 6]) None
      [vote_of 1 true; vote_of 2 true; vote_of 3 true; vote_of 4 false; vote_of 5 false; vote_of 6 true])
    as [a|] eqn:E; [|by vm_compute in E].
  vm_compute in E. injection E as <-. eexists _, _. split_and!; [reflexivity|by vm_compute|done|by vm_compute|done].
Qed.

(** [get_best_qc] takes the better signature of each policy on its own.  Here
    the received certificate is the better one for the active policy and the
    local votes are for the pending one; finalizer 1, in both policies, is in
    the second only, and [verify_basic] refuses the certificate made of them. *)
Definition dual_policies : finalizer_policies_t :=
  FinalizerPolicies sha256_default (pol 1 2 [1; 2; 3]) (Some (pol 2 3 [1; 4; 5; 6])).
Definition dual_received : qc_t :=
  MkQc 7 (sig_of [false; true; true] None) (Some (sig_of [false; true; true; false] (Some [false; false; false; true]))).

Lemma best_qc_refused :
  exists a q, run (active_finalizer_policy dual_policies) (pending_finalizer_policy dual_policies)
      [EvReceived dual_received; vote_of 1 true; vote_of 4 true; vote_of 5 true] = Ok a /\
    verify_basic dual_received dual_policies = Ok () /\
    get_best_qc a 7 = Ok (Some q) /\ verify_basic q dual_policies = Throw invalid_qc.
Proof.
  destruct (run (active_finalizer_policy dual_policies) (pending_finalizer_policy dual_policies)
      [EvReceived dual_received; vote_of 1 true; vote_of 4 true; vote_of 5 true]) as [a|] eqn:E; [|by vm_compute in E].
  vm_compute in E. injection E as <-. eexists _, _.
  split_and!; [reflexivity|by vm_compute|by vm_compute|by vm_compute].
Qed.

(** The bitset of a received pending signature is read before its size is checked. *)
Lemma verify_basic_out_of_range :
  exists q, verify_basic q (FinalizerPolicies sha256_default (pol 1 1 [1]) (Some (pol 2 1 [1]))) = Throw assert_failed.
Proof. exists (MkQc 7 (sig_of [true] None) (Some (sig_of [] None))). by vm_compute. Qed.

(** A finalizer in both policies is reported with the generation of the active one. *)
Lemma vote_metrics_active_generation :
  exists m, vote_metrics (new_aggregating_qc (pol 1 1 [1]) (Some (pol 2 1 [1])))
      (MkQc 7 (sig_of [true] None) (Some (sig_of [true] None))) = Ok m /\
    metrics_strong_votes m !! [1] = Some (fin 1, 1).
Proof. eexists. split; [by vm_compute|by vm_compute]. Qed.

(** ** The properties at concrete certificates *)

Lemma dual_policies_ok : policies_ok dual_policies.
Proof.
  split; [by apply pol_ok|]. intros p [= <-]. by apply pol_ok.
Qed.

Definition dual_events : list agg_event := [EvReceived dual_received; vote_of 1 true; vote_of 4 true].

Lemma dual_events_ok : Forall (event_ok dual_policies) dual_events.
Proof. repeat constructor; by vm_compute. Qed.

Lemma aggregation_correct_witness :
  exists a a' o,
    foldM agg_step (new_aggregating_qc (active_finalizer_policy dual_policies) (pending_finalizer_policy dual_policies))
      dual_events = Ok a /\
    foldM agg_step a [vote_of 5 true] = Ok a' /\ (is_quorum_met a = true -> is_quorum_met a' = true) /\
    get_best_qc a 7 = Ok o /\ (is_quorum_met a = true -> is_Some o) /\
    (forall q, o = Some q ->
       verify_vote_format (active_policy_sig q) (active_finalizer_policy dual_policies) = Ok () /\
       verify_weights (active_policy_sig q) (active_finalizer_policy dual_policies) = Ok () /\
       (forall pol, pending_finalizer_policy dual_policies = Some pol -> exists p, pending_policy_sig q = Some p /\
          verify_vote_format p pol = Ok () /\ verify_weights p pol = Ok ())).
Proof.
  apply (aggregation_correct dual_policies dual_policies_ok dual_events [vote_of 5 true] 7 dual_events_ok).
  by repeat constructor.
Defined.

Definition single_policies : finalizer_policies_t :=
  FinalizerPolicies sha256_default (pol 1 2 [1; 2; 3]) None.

Lemma single_policies_ok : policies_ok single_policies.
Proof. split; [by apply pol_ok|done]. Qed.

Lemma aggregated_qc_verifies_witness :
  exists q, verify_basic q single_policies = Ok ().
Proof.
  destruct (run (pol 1 2 [1; 2; 3]) None [vote_of 1 true; vote_of 3 false]) as [a|] eqn:E; [|by vm_compute in E].
  destruct (get_best_qc a 7) as [[q|]|] eqn:Eq;
    [|vm_compute in E; injection E as <-; by vm_compute in Eq..].
  exists q. apply (aggregated_qc_verifies single_policies single_policies_ok [vote_of 1 true; vote_of 3 false] 7 a q);
    [done|by repeat constructor|exact E|exact Eq].
Defined.

Lemma verified_qcs_intersect_witness :
  exists i f, finalizers (pol 1 2 [1; 2; 3]) !! i = Some f /\ 0 < weight f /\
    ((bits_of (Some [true; true; false]) !! i = Some true) \/
     qc_sig_is_strong (sig_of [true; true; false] None) = false /\ bits_of None !! i = Some true) /\
    ((bits_of (Some [false; true; false]) !! i = Some true) \/
     qc_sig_is_strong (sig_of [false; true; false] (Some [false; false; true])) = false /\
     bits_of (Some [false; false; true]) !! i = Some true).
Proof.
  refine (verified_qcs_intersect (pol 1 2 [1; 2; 3]) (sig_of [true; true; false] None)
    (sig_of [false; true; false] (Some [false; false; true])) _ _ _ _ _ _); try by vm_compute.
  by apply pol_ok.
Defined.

Lemma verify_basic_sound_witness :
  sig_valid (active_finalizer_policy dual_policies) (active_policy_sig dual_received).
Proof.
  apply (verify_basic_sound dual_received dual_policies dual_policies_ok). by vm_compute.
Defined.

Lemma aggregate_vote_once_witness :
  exists r a r', aggregate_vote (new_aggregating_qc (pol 1 2 [1; 2; 3]) None) (VoteMessage sha256_default true [2] []) []
      = Ok (r, a) /\
    aggregate_vote a (VoteMessage sha256_default false [2] [9]) [] = Ok (r', a) /\ avr_result r' = duplicate.
Proof.
  destruct (aggregate_vote (new_aggregating_qc (pol 1 2 [1; 2; 3]) None) (VoteMessage sha256_default true [2] []) [])
    as [[r a]|] eqn:E; [|by vm_compute in E].
  destruct (new_aggregating_qc_inv single_policies single_policies_ok) as [Hi Hp].
  destruct (aggregate_vote_once single_policies _ _ _ (VoteMessage sha256_default false [2] [9]) _ [] _
    single_policies_ok Hi Hp E) as (r' & H1 & H2); [vm_compute in E; by injection E as <- <-|done|].
  by exists r, a, r'.
Defined.

Lemma missing_votes_agree_witness :
  exists m, vote_metrics (new_aggregating_qc (pol 1 2 [1; 2; 3]) (Some (pol 2 3 [1; 4; 5; 6]))) dual_received = Ok m /\
    missing_votes (new_aggregating_qc (pol 1 2 [1; 2; 3]) (Some (pol 2 3 [1; 4; 5; 6]))) dual_received
      = Ok (metrics_missing_votes m).
Proof.
  destruct (new_aggregating_qc_inv dual_policies dual_policies_ok) as [Hi Hp].
  apply (missing_votes_agree dual_policies _ dual_received dual_policies_ok Hi Hp). by vm_compute.
Defined.
End Examples.
