(* ===== verification/Raw.v ===== *)
(** * Binary serialization

    [fc::raw] ([libfc/include/fc/io/raw.hpp]): the byte format of block headers,
    extensions, digests and the finalizer safety file.  A codec is the pair of
    [pack] and [unpack] of a type; a stream is the list of the bytes left in
    it, and reading past its end throws.  [codec_ok] is the round trip: what
    was packed, followed by anything, unpacks to itself and leaves the rest. *)

From S2P Require Import Prelude ChainTypes Policies.

(** ** Codecs *)

Record codec (A : Type) : Type := Codec {
  pack : A -> result (list Z);
  unpack : list Z -> result (A * list Z);
  valid : A -> Prop
}.
Arguments Codec {A} _ _ _.
Arguments pack {A} _ _.
Arguments unpack {A} _ _.
Arguments valid {A} _ _.

Class CodecOk {A} (c : codec A) : Prop :=
  codec_ok a bs rest : valid c a -> pack c a = Ok bs -> unpack c (bs ++ rest) = Ok (a, rest).

(** [s.read(d, n)] *)
Definition stream_read (n : nat) (s : list Z) : result (list Z * list Z) :=
  EOS_ASSERT (n <=? length s)%nat ,, out_of_range_exception ;;
  Ok (take n s, drop n s).

(** The number of which [le_bytes] are the bytes. *)
Fixpoint of_le_bytes (bs : list Z) : Z :=
  match bs with [] => 0 | b :: bs => b + 256 * of_le_bytes bs end.

(** An unsigned integer of [n] bytes, as it lies in memory. *)
Definition c_uint (n : nat) : codec Z := {|
  pack z := Ok (le_bytes n z);
  unpack s := r ← stream_read n s; Ok (of_le_bytes r.1, r.2);
  valid z := 0 <= z < 2 ^ (8 * Z.of_nat n)
|}.

Definition c_u8 := c_uint 1.
Definition c_u16 := c_uint 2.
Definition c_u32 := c_uint 4.
Definition c_u64 := c_uint 8.

Definition c_bool : codec bool := {|
  pack b := Ok [if b : bool then 1 else 0];
  unpack s :=
    r ← unpack c_u8 s;
    EOS_ASSERT Z.land r.1 (Z.lnot 1) =? 0 ,, fc_assert_exception ;;
    Ok (negb (r.1 =? 0), r.2);
  valid _ := True
|}.

(** The loop that packs an [unsigned_int]; a 64-bit value takes at most ten turns. *)
Fixpoint pack_unsigned_int (fuel : nat) (val : Z) : list Z :=
  match fuel with
  | O => []
  | S fuel =>
      let b := Z.land val 0x7f in
      let val := Z.shiftr val 7 in
      if 0 <? val then Z.lor b 0x80 :: pack_unsigned_int fuel val else [b]
  end.

(** The loop that unpacks one: it ends at a byte below 128 or when [by] is 32
    or more, so after five turns at most. *)
Fixpoint unpack_unsigned_int (fuel : nat) (v by_ : Z) (s : list Z) : result (Z * list Z) :=
  match fuel with
  | O => Throw assert_failed
  | S fuel =>
      r ← stream_read 1 s;
      let b := of_le_bytes r.1 in
      let v := Z.lor v (wrap32 (Z.shiftl (Z.land b 0x7f) by_)) in
      let by_ := by_ + 7 in
      if negb (Z.land b 0x80 =? 0) && (by_ <? 32) then unpack_unsigned_int fuel v by_ r.2
      else Ok (wrap32 v, r.2)
  end.

Definition c_unsigned_int : codec Z := {|
  pack z := Ok (pack_unsigned_int 10 z);
  unpack s := unpack_unsigned_int 5 0 0 s;
  valid z := u32 z
|}.

Definition c_sha256 : codec sha256 := {|
  pack h := Ok (sha256_data h);
  unpack s :=
    a ← unpack c_u64 s; b ← unpack c_u64 a.2; c ← unpack c_u64 b.2; d ← unpack c_u64 c.2;
    Ok (Sha256 a.1 b.1 c.1 d.1, d.2);
  valid h := sha256_wf h
|}.

Definition c_pair {A B} (ca : codec A) (cb : codec B) : codec (A * B) := {|
  pack p := a ← pack ca p.1; b ← pack cb p.2; Ok (a ++ b);
  unpack s := a ← unpack ca s; b ← unpack cb a.2; Ok ((a.1, b.1), b.2);
  valid p := valid ca p.1 /\ valid cb p.2
|}.

(** A reflected class is packed member by member. *)
Definition c_struct {A B} (c : codec B) (members : A -> B) (make : B -> A) : codec A := {|
  pack a := pack c (members a);
  unpack s := r ← unpack c s; Ok (make r.1, r.2);
  valid a := valid c (members a) /\ make (members a) = a
|}.

(** [std::optional] and [std::shared_ptr] *)
Definition c_optional {A} (c : codec A) : codec (option A) := {|
  pack o := match o with None => Ok [0] | Some a => bs ← pack c a; Ok (1 :: bs) end;
  unpack s :=
    b ← unpack c_bool s;
    if (b.1 : bool) then r ← unpack c b.2; Ok (Some r.1, r.2) else Ok (None, b.2);
  valid o := match o with None => True | Some a => valid c a end
|}.

Definition MAX_NUM_ARRAY_ELEMENTS : Z := 1024 * 1024.
Definition MAX_SIZE_OF_BYTE_ARRAYS : Z := 20 * 1024 * 1024.

Fixpoint pack_elements {A} (c : codec A) (l : list A) : result (list Z) :=
  match l with [] => Ok [] | a :: l => x ← pack c a; y ← pack_elements c l; Ok (x ++ y) end.

Fixpoint unpack_elements {A} (c : codec A) (n : nat) (s : list Z) : result (list A * list Z) :=
  match n with
  | O => Ok ([], s)
  | S n => a ← unpack c s; l ← unpack_elements c n a.2; Ok (a.1 :: l.1, l.2)
  end.

(** [std::vector<T>], and a set in its order *)
Definition c_vector {A} (c : codec A) : codec (list A) := {|
  pack l :=
    EOS_ASSERT size_of l <=? MAX_NUM_ARRAY_ELEMENTS ,, fc_assert_exception ;;
    bs ← pack_elements c l; Ok (pack_unsigned_int 10 (size_of l) ++ bs);
  unpack s :=
    n ← unpack c_unsigned_int s;
    EOS_ASSERT n.1 <=? MAX_NUM_ARRAY_ELEMENTS ,, fc_assert_exception ;;
    unpack_elements c (Z.to_nat n.1) n.2;
  valid l := Forall (valid c) l
|}.

(** [std::vector<char>] and [std::string] *)
Definition c_bytes : codec (list Z) := {|
  pack l :=
    EOS_ASSERT size_of l <=? MAX_SIZE_OF_BYTE_ARRAYS ,, fc_assert_exception ;;
    Ok (pack_unsigned_int 10 (size_of l) ++ l);
  unpack s :=
    n ← unpack c_unsigned_int s;
    EOS_ASSERT n.1 <=? MAX_SIZE_OF_BYTE_ARRAYS ,, fc_assert_exception ;;
    stream_read (Z.to_nat n.1) n.2;
  valid _ := True
|}.

(** A fixed-size array of bytes. *)
Definition c_array (n : nat) : codec (list Z) := {|
  pack l := Ok l;
  unpack s := stream_read n s;
  valid l := length l = n
|}.

(** A [bls_public_key] or [bls_signature]: the size of the array and its
    bytes; a key that is not a point of the curve is refused. *)
Definition c_bls_array (n : nat) (ok : list Z -> bool) : codec (list Z) := {|
  pack l := Ok (pack_unsigned_int 10 (Z.of_nat n) ++ l);
  unpack s :=
    size ← unpack c_unsigned_int s;
    EOS_ASSERT size.1 =? Z.of_nat n ,, fc_assert_exception ;;
    r ← stream_read n size.2;
    EOS_ASSERT ok r.1 ,, invalid_bls_public_key ;;
    Ok r;
  valid l := length l = n /\ ok l = true /\ Z.of_nat n < 2 ^ 32
|}.

(** ** Round trips *)

Lemma stream_read_app l rest : stream_read (length l) (l ++ rest) = Ok (l, rest).
Proof.
  unfold stream_read. pass_with ltac:(apply Nat.leb_le; rewrite length_app; lia).
  by rewrite take_app_length, drop_app_length.
Qed.

Lemma of_le_bytes_le_bytes n z : of_le_bytes (le_bytes n z) = z mod 2 ^ (8 * Z.of_nat n).
Proof.
  revert z. induction n as [|n IH]; intros z; cbn [le_bytes of_le_bytes].
  { by rewrite Z.mod_1_r. }
  rewrite IH, Z.land_ones with (n := 8), Z.shiftr_div_pow2 by lia.
  rewrite Nat2Z.inj_succ. replace (8 * Z.succ (Z.of_nat n)) with (8 + 8 * Z.of_nat n) by lia.
  rewrite Z.pow_add_r by lia. change (2 ^ 8) with 256.
  rewrite Z.rem_mul_r by lia. lia.
Qed.

#[export] Instance c_uint_ok n : CodecOk (c_uint n).
Proof.
  intros z bs rest Hz H. cbn in *. injection H as <-.
  rewrite <- (length_le_bytes n z) at 1. rewrite stream_read_app. cbn.
  by rewrite of_le_bytes_le_bytes, Z.mod_small.
Qed.

#[export] Instance c_u8_ok : CodecOk c_u8 := c_uint_ok 1.
#[export] Instance c_u16_ok : CodecOk c_u16 := c_uint_ok 2.
#[export] Instance c_u32_ok : CodecOk c_u32 := c_uint_ok 4.
#[export] Instance c_u64_ok : CodecOk c_u64 := c_uint_ok 8.

#[export] Instance c_bool_ok : CodecOk c_bool.
Proof. intros b bs rest _ H. cbn in H. injection H as <-. by destruct b. Qed.

Lemma land_127 z : Z.land z 0x7f = z mod 128.
Proof. apply (Z.land_ones z 7). lia. Qed.

Lemma unpack_byte b rest : 0 <= b < 256 -> stream_read 1 (b :: rest) = Ok ([b], rest).
Proof. intros _. apply (stream_read_app [b] rest). Qed.

(** The continuation bit of a byte. *)
Lemma byte_bits b : 0 <= b < 128 ->
  Z.lor b 0x80 = b + 128 /\ Z.land (b + 128) 0x7f = b /\ Z.land b 0x7f = b /\
  (Z.land (b + 128) 0x80 =? 0) = false /\ (Z.land b 0x80 =? 0) = true.
Proof.
  intros Hb.
  assert (H : forallb (fun n => let b := Z.of_nat n in
      (Z.lor b 0x80 =? b + 128) && (Z.land (b + 128) 0x7f =? b) && (Z.land b 0x7f =? b)
      && negb (Z.land (b + 128) 0x80 =? 0) && (Z.land b 0x80 =? 0)) (seq 0 128) = true) by by vm_compute.
  rewrite forallb_forall in H. specialize (H (Z.to_nat b)). rewrite in_seq, Z2Nat.id in H by lia.
  specialize (H ltac:(lia)). rewrite !andb_true_iff, negb_true_iff, !Z.eqb_eq in H.
  destruct H as ((((? & ?) & ?) & ?) & H5). rewrite <- Z.eqb_eq in H5. auto.
Qed.

(** After some bytes, [v] holds the low [by_] bits and [val] is to come. *)
Lemma unpack_unsigned_int_pack fuel fuel' val v by_ rest :
  0 <= v < 2 ^ by_ -> 0 <= by_ -> 0 <= val -> by_ = 0 \/ 0 < val -> val * 2 ^ by_ + v < 2 ^ 32 ->
  by_ + 7 * Z.of_nat fuel = 35 -> val < 2 ^ (7 * Z.of_nat fuel') -> (0 < fuel')%nat ->
  unpack_unsigned_int fuel v by_ (pack_unsigned_int fuel' val ++ rest) = Ok (val * 2 ^ by_ + v, rest).
Proof.
  revert fuel val v by_. induction fuel' as [|fuel' IH];
    intros fuel val v by_ Hv Hby Hval Hpos Hmax Hfuel Hfuel' Hpos'; [lia|]. clear Hpos'.
  destruct fuel as [|fuel].
  { exfalso. assert (2 ^ 32 < 2 ^ by_) by (apply Z.pow_lt_mono_r; lia). nia. }
  assert (Hby32 : by_ < 32) by lia.
  pose proof (Z.mod_pos_bound val 128 ltac:(lia)) as Hb.
  destruct (byte_bits (val mod 128) Hb) as (E1 & E2 & E3 & E4 & E5).
  pose proof (Z.div_mod val 128 ltac:(lia)) as Hdm.
  assert (Hpow : 0 < 2 ^ by_) by lia. assert (0 <= val / 128) by (apply Z.div_pos; lia).
  assert (Hw : wrap32 (Z.shiftl (val mod 128) by_) = val mod 128 * 2 ^ by_).
  { rewrite Z.shiftl_mul_pow2 by lia. apply wrap32_id. unfold u32. nia. }
  assert (Hlor : Z.lor v (val mod 128 * 2 ^ by_) = v + val mod 128 * 2 ^ by_).
  { rewrite <- (lor_shiftl_add v _ by_) by lia. by rewrite Z.shiftl_mul_pow2. }
  cbn [pack_unsigned_int]. rewrite land_127, Z.shiftr_div_pow2 by lia. change (2 ^ 7) with 128.
  destruct (Z.ltb_spec 0 (val / 128)) as [Hc|Hc].
  - cbn [app unpack_unsigned_int]. rewrite E1, unpack_byte by lia. cbn [mbind result_bind of_le_bytes fst snd].
    rewrite Z.mul_0_r, Z.add_0_r, E2, Hw, Hlor, E4. cbn [negb andb].
    assert (Hp7 : 2 ^ (by_ + 7) = 2 ^ by_ * 128) by (rewrite Z.pow_add_r by lia; done).
    assert (by_ + 7 < 32).
    { apply (Z.pow_lt_mono_r_iff 2); [lia|lia|]. nia. }
    rewrite (proj2 (Z.ltb_lt _ _)) by lia. rewrite IH.
    + do 2 f_equal. rewrite Hp7. nia.
    + nia.
    + lia.
    + lia.
    + by right.
    + rewrite Hp7. nia.
    + lia.
    + rewrite Nat2Z.inj_succ in Hfuel'. replace (7 * Z.succ (Z.of_nat fuel')) with (7 + 7 * Z.of_nat fuel') in Hfuel' by lia.
      rewrite Z.pow_add_r in Hfuel' by lia. change (2 ^ 7) with 128 in Hfuel'. nia.
    + destruct fuel'; [|lia]. change (2 ^ (7 * Z.of_nat 1)) with 128 in Hfuel'. lia.
  - cbn [app unpack_unsigned_int]. rewrite unpack_byte by lia. cbn [mbind result_bind of_le_bytes fst snd].
    rewrite Z.mul_0_r, Z.add_0_r, E3, Hw, Hlor, E5. cbn [negb andb].
    assert (val mod 128 = val) as -> by lia. rewrite wrap32_id by (unfold u32; lia). do 2 f_equal. lia.
Qed.

Lemma pack_unsigned_int_ok z rest : u32 z -> unpack c_unsigned_int (pack_unsigned_int 10 z ++ rest) = Ok (z, rest).
Proof.
  intros Hz. unfold u32 in Hz. cbn [c_unsigned_int unpack].
  assert (2 ^ 32 < 2 ^ (7 * Z.of_nat 10)) by done.
  pose proof (unpack_unsigned_int_pack 5 10 z 0 0 rest) as E. rewrite E; [do 2 f_equal; lia|..]; lia.
Qed.

#[global] Opaque pack_unsigned_int unpack_unsigned_int.

#[export] Instance c_unsigned_int_ok : CodecOk c_unsigned_int.
Proof.
  intros z bs rest Hz H. cbn [c_unsigned_int pack] in H. injection H as <-.
  exact (pack_unsigned_int_ok z rest Hz).
Qed.

#[export] Instance c_pair_ok {A B} (ca : codec A) (cb : codec B) : CodecOk ca -> CodecOk cb -> CodecOk (c_pair ca cb).
Proof.
  intros Ha Hb [a b] bs rest [Hva Hvb] H. cbn in *. inv_result.
  rewrite <- app_assoc, (Ha a) by done. cbn. by rewrite (Hb b).
Qed.

#[export] Instance c_struct_ok {A B} (c : codec B) (f : A -> B) (g : B -> A) : CodecOk c -> CodecOk (c_struct c f g).
Proof. intros Hc a bs rest [Hv Hg] H. cbn in *. rewrite (Hc (f a)) by done. cbn. by rewrite Hg. Qed.

#[export] Instance c_optional_ok {A} (c : codec A) : CodecOk c -> CodecOk (c_optional c).
Proof.
  intros Hc [a|] bs rest Hv H; cbn in H; inv_result.
  - change ((1 :: x) ++ rest) with ([1] ++ (x ++ rest)). cbn [c_optional unpack].
    rewrite (c_bool_ok true [1]) by done. cbn. by rewrite (Hc a).
  - change ([0] ++ rest) with ([0] ++ rest). cbn [c_optional unpack].
    by rewrite (c_bool_ok false [0]) by done.
Qed.

Lemma elements_ok {A} (c : codec A) l bs rest :
  CodecOk c -> Forall (valid c) l -> pack_elements c l = Ok bs ->
  unpack_elements c (length l) (bs ++ rest) = Ok (l, rest).
Proof.
  intros Hc Hl. revert bs. induction Hl as [|a l Ha _ IH]; intros bs H; cbn in H; inv_result; [done|].
  cbn. rewrite <- app_assoc, (Hc a) by done. cbn. by rewrite IH.
Qed.

#[export] Instance c_vector_ok {A} (c : codec A) : CodecOk c -> CodecOk (c_vector c).
Proof.
  intros Hc l bs rest Hv H. cbn in *. inv_result. unfold MAX_NUM_ARRAY_ELEMENTS in *.
  assert (0 <= size_of l) by (unfold size_of; lia).
  rewrite <- app_assoc. pose proof (pack_unsigned_int_ok (size_of l) (x ++ rest)) as Hn.
  cbn [c_unsigned_int unpack] in Hn. rewrite Hn by (unfold u32; lia). cbn [mbind result_bind fst snd].
  rewrite E. unfold size_of. rewrite Nat2Z.id. by apply elements_ok.
Qed.

#[export] Instance c_bytes_ok : CodecOk c_bytes.
Proof.
  intros l bs rest _ H. cbn in *. inv_result. unfold MAX_SIZE_OF_BYTE_ARRAYS in *.
  assert (0 <= size_of l) by (unfold size_of; lia).
  rewrite <- app_assoc. pose proof (pack_unsigned_int_ok (size_of l) (l ++ rest)) as Hn.
  cbn [c_unsigned_int unpack] in Hn. rewrite Hn by (unfold u32; lia). cbn [mbind result_bind fst snd].
  rewrite E. unfold size_of. rewrite Nat2Z.id. apply stream_read_app.
Qed.

#[export] Instance c_array_ok n : CodecOk (c_array n).
Proof. intros l bs rest Hl H. cbn in *. injection H as <-. rewrite <- Hl. apply stream_read_app. Qed.

#[export] Instance c_bls_array_ok n ok : CodecOk (c_bls_array n ok).
Proof.
  intros l bs rest (Hl & Hok & Hn) H. cbn in H. injection H as <-. cbn [c_bls_array unpack].
  rewrite <- app_assoc, pack_unsigned_int_ok by (unfold u32; lia). cbn [mbind result_bind fst snd].
  rewrite Z.eqb_refl. rewrite <- Hl at 1. rewrite stream_read_app. cbn. by rewrite Hok.
Qed.

#[export] Instance c_sha256_ok : CodecOk c_sha256.
Proof.
  intros h bs rest Hv H. cbn [c_sha256 pack valid] in *. injection H as <-. destruct h as [a b c d].
  destruct Hv as (Ha & Hb & Hc & Hd). unfold sha256_data. cbn [hash0 hash1 hash2 hash3].
  cbn [c_sha256 unpack]. rewrite <- !app_assoc.
  rewrite (c_u64_ok a (le_bytes 8 a)) by done. cbn [mbind result_bind fst snd].
  rewrite (c_u64_ok b (le_bytes 8 b)) by done. cbn [mbind result_bind fst snd].
  rewrite (c_u64_ok c (le_bytes 8 c)) by done. cbn [mbind result_bind fst snd].
  by rewrite (c_u64_ok d (le_bytes 8 d)) by done.
Qed.

(** Packing is injective: digests of different values hash different bytes. *)
Lemma pack_inj {A} (c : codec A) {ok : CodecOk c} a b bs :
  valid c a -> valid c b -> pack c a = Ok bs -> pack c b = Ok bs -> a = b.
Proof.
  intros Ha Hb Ea Eb. pose proof (codec_ok a bs [] Ha Ea) as H1. pose proof (codec_ok b bs [] Hb Eb) as H2.
  congruence.
Qed.
