(* ===== verification/BlockHeader.v ===== *)
(** * Block headers

    [block_header.hpp], [block_header.cpp], the extension types a header can
    carry ([protocol_feature_activation.cpp], [finality_extension.hpp]) and
    [emplace_extension] of [types.hpp].  First the codec of every type a header
    or an extension is made of, then the operations on headers, then the
    properties: headers survive packing, a header's id carries its block number
    and binds its contents, and the extensions a producer puts in a header are
    the ones a validator reads from it. *)

From S2P Require Import Prelude ChainTypes Merkle FinalityCore OrderedDiff Policies Raw.

(** ** Codecs of keys, authorities and policies *)

(** [T] with a check made when it is unpacked ([reflector_init], [post_init]). *)
Definition c_checked {A} (c : codec A) (ok : A -> bool) (e : exn) : codec A := {|
  pack := pack c;
  unpack s := r ← unpack c s; EOS_ASSERT ok r.1 ,, e ;; Ok r;
  valid a := valid c a /\ ok a = true
|}.

#[export] Instance c_checked_ok {A} (c : codec A) ok e : CodecOk c -> CodecOk (c_checked c ok e).
Proof. intros Hc a bs rest [Hv Hok] H. cbn in *. rewrite (Hc a) by done. cbn. by rewrite Hok. Qed.

(** A variant of one alternative. *)
Definition c_variant1 {A} (c : codec A) : codec A := {|
  pack a := bs ← pack c a; Ok (pack_unsigned_int 10 0 ++ bs);
  unpack s :=
    w ← unpack c_unsigned_int s;
    EOS_ASSERT w.1 =? 0 ,, fc_assert_exception ;;
    unpack c w.2;
  valid := valid c
|}.

#[export] Instance c_variant1_ok {A} (c : codec A) : CodecOk c -> CodecOk (c_variant1 c).
Proof.
  intros Hc a bs rest Hv H. cbn [c_variant1 pack unpack valid] in *. inv_result.
  rewrite <- app_assoc, pack_unsigned_int_ok by done. cbn. by apply Hc.
Qed.

Definition webauthn_key : Set := list Z * (Z * list Z).

Definition c_webauthn_key : codec webauthn_key :=
  c_checked (c_pair (c_array 33) (c_pair c_u8 c_bytes)) (fun k => 0 <? size_of k.2.2) fc_assert_exception.

Definition c_public_key : codec public_key_type := {|
  pack k :=
    match k with
    | K1Key d => bs ← pack (c_array 33) d; Ok (pack_unsigned_int 10 0 ++ bs)
    | R1Key d => bs ← pack (c_array 33) d; Ok (pack_unsigned_int 10 1 ++ bs)
    | WebAuthnKey d u r => bs ← pack c_webauthn_key (d, (u, r)); Ok (pack_unsigned_int 10 2 ++ bs)
    end;
  unpack s :=
    w ← unpack c_unsigned_int s;
    if w.1 =? 0 then r ← unpack (c_array 33) w.2; Ok (K1Key r.1, r.2)
    else if w.1 =? 1 then r ← unpack (c_array 33) w.2; Ok (R1Key r.1, r.2)
    else if w.1 =? 2 then r ← unpack c_webauthn_key w.2; Ok (WebAuthnKey r.1.1 r.1.2.1 r.1.2.2, r.2)
    else Throw fc_assert_exception;
  valid k :=
    match k with
    | K1Key d | R1Key d => valid (c_array 33) d
    | WebAuthnKey d u r => valid c_webauthn_key (d, (u, r))
    end
|}.

#[export] Instance c_webauthn_key_ok : CodecOk c_webauthn_key := _.

#[export] Instance c_public_key_ok : CodecOk c_public_key.
Proof.
  intros [d|d|d u r] bs rest Hv H; cbn [c_public_key pack unpack valid] in *; apply bind_Ok in H as (x & E & H);
    injection H as <-; rewrite <- app_assoc, pack_unsigned_int_ok by done; cbn [mbind result_bind fst snd Z.eqb].
  - by rewrite (codec_ok (c := c_array 33) d x rest Hv E).
  - by rewrite (codec_ok (c := c_array 33) d x rest Hv E).
  - by rewrite (codec_ok (c := c_webauthn_key) (d, (u, r)) x rest Hv E).
Qed.

Definition c_key_weight : codec key_weight :=
  c_struct (c_pair c_public_key c_u16) (fun k => (key k, kw_weight k)) (fun p => KeyWeight p.1 p.2).

Definition c_block_signing_authority : codec block_signing_authority_v0 :=
  c_variant1 (c_struct (c_pair c_u32 (c_vector c_key_weight))
    (fun a => (authority_threshold a, keys a)) (fun p => BlockSigningAuthority p.1 p.2)).

Definition c_producer_authority : codec producer_authority :=
  c_struct (c_pair c_u64 c_block_signing_authority)
    (fun p => (producer_name p, authority p)) (fun p => ProducerAuthority p.1 p.2).

Definition c_producer_authority_schedule : codec producer_authority_schedule :=
  c_struct (c_pair c_u32 (c_vector c_producer_authority))
    (fun s => (version s, producers s)) (fun p => ProducerAuthoritySchedule p.1 p.2).

Definition c_proposer_policy : codec proposer_policy :=
  c_struct (c_pair c_u32 c_producer_authority_schedule)
    (fun p => (proposal_time p, proposer_schedule p)) (fun p => ProposerPolicy p.1 p.2).

(** A difference, with indexes of type [uint16_t]. *)
Definition c_index : codec nat := c_struct c_u16 Z.of_nat Z.to_nat.

Definition c_diff_result {T} (c : codec T) : codec (diff_result T) :=
  c_struct (c_pair (c_vector c_index) (c_vector (c_pair c_index c)))
    (fun d => (remove_indexes d, insert_indexes d)) (fun p => DiffResult p.1 p.2).

Definition c_proposer_policy_diff : codec proposer_policy_diff :=
  c_struct (c_pair c_u32 (c_pair c_u32 (c_diff_result c_producer_authority)))
    (fun d => (ppd_version d, (ppd_proposal_time d, producer_auth_diff d)))
    (fun p => ProposerPolicyDiff p.1 p.2.1 p.2.2).

Section Bls.
Context {bls : BlsKeyValid}.

Definition c_finalizer_authority : codec finalizer_authority :=
  c_struct (c_pair c_bytes (c_pair c_u64 (c_bls_array 96 bls_key_valid)))
    (fun f => (description f, (weight f, public_key f))) (fun p => FinalizerAuthority p.1 p.2.1 p.2.2).

Definition c_finalizer_policy : codec finalizer_policy :=
  c_struct (c_pair c_u32 (c_pair c_u64 (c_vector c_finalizer_authority)))
    (fun p => (generation p, (threshold p, finalizers p))) (fun p => FinalizerPolicy p.1 p.2.1 p.2.2).

Definition c_finalizer_policy_diff : codec finalizer_policy_diff :=
  c_struct (c_pair c_u32 (c_pair c_u64 (c_diff_result c_finalizer_authority)))
    (fun d => (fpd_generation d, (fpd_threshold d, finalizers_diff d)))
    (fun p => FinalizerPolicyDiff p.1 p.2.1 p.2.2).

Definition c_qc_claim : codec qc_claim_t :=
  c_struct (c_pair c_u32 c_bool) (fun q => (claim_block_num q, is_strong_qc q)) (fun p => QcClaim p.1 p.2).

(** ** Header extensions *)

Record finality_extension : Set := FinalityExtension {
  qc_claim : qc_claim_t;
  new_finalizer_policy_diff : option finalizer_policy_diff;
  new_proposer_policy_diff : option proposer_policy_diff
}.

Inductive block_header_extension : Set :=
| ProtocolFeatureActivation (protocol_features : list digest_type)
| ProducerScheduleChangeExtension (schedule : producer_authority_schedule)
| FinalityExt (f : finality_extension).

(** [extension_id()] of each. *)
Definition protocol_feature_activation_id : Z := 0.
Definition producer_schedule_change_extension_id : Z := 1.
Definition finality_extension_id : Z := 2.

Definition c_finality_extension : codec finality_extension :=
  c_struct (c_pair c_qc_claim (c_pair (c_optional c_finalizer_policy_diff) (c_optional c_proposer_policy_diff)))
    (fun f => (qc_claim f, (new_finalizer_policy_diff f, new_proposer_policy_diff f)))
    (fun p => FinalityExtension p.1 p.2.1 p.2.2).

(** [protocol_feature_activation::reflector_init]: the loop inserts each digest
    in a set, and refuses one that is there already. *)
Fixpoint insert_all_distinct (s : gset digest_type) (l : list digest_type) : bool :=
  match l with
  | [] => true
  | d :: l => if decide (d ∈ s) then false else insert_all_distinct ({[d]} ∪ s) l
  end.

Definition protocol_feature_activation_ok (protocol_features : list digest_type) : bool :=
  (0 <? size_of protocol_features) && insert_all_distinct ∅ protocol_features.

Definition c_protocol_feature_activation : codec (list digest_type) :=
  c_checked (c_vector c_sha256) protocol_feature_activation_ok ill_formed_protocol_feature_activation.

(** [decompose_t::extract]: the extension and whether it must be unique;
    [None] when no type has the id.  Bytes left over are ignored. *)
Definition extract (id : Z) (data : list Z) : result (option (block_header_extension * bool)) :=
  if id =? protocol_feature_activation_id then
    r ← unpack c_protocol_feature_activation data; Ok (Some (ProtocolFeatureActivation r.1, true))
  else if id =? producer_schedule_change_extension_id then
    r ← unpack c_producer_authority_schedule data; Ok (Some (ProducerScheduleChangeExtension r.1, true))
  else if id =? finality_extension_id then
    r ← unpack c_finality_extension data; Ok (Some (FinalityExt r.1, true))
  else Ok None.

(** Insertion after the last element whose id is not greater: what
    [std::upper_bound] finds in a list sorted by id, and where a
    [flat_multimap] emplaces. *)
Fixpoint emplace_upper_bound {A} (l : list (Z * A)) (id : Z) (a : A) : list (Z * A) :=
  match l with
  | [] => [(id, a)]
  | p :: l' => if id <? p.1 then (id, a) :: l else p :: emplace_upper_bound l' id a
  end.

Definition emplace_extension (exts : list (Z * list Z)) (eid : Z) (data : list Z) : list (Z * list Z) :=
  emplace_upper_bound exts eid data.

(** ** Block headers *)

Record producer_key : Set := ProducerKey { pk_producer_name : Z; block_signing_key : public_key_type }.

(** [legacy::producer_schedule_type] *)
Record legacy_producer_schedule : Set := LegacyProducerSchedule {
  legacy_version : Z;
  legacy_producers : list producer_key
}.

Record block_header : Set := MkBlockHeader {
  header_timestamp : block_timestamp_type;
  producer : Z;
  confirmed : Z;
  previous : block_id_type;
  transaction_mroot : digest_type;
  action_mroot : digest_type;
  schedule_version : Z;
  new_producers : option legacy_producer_schedule;
  header_extensions : list (Z * list Z)
}.

Definition c_producer_key : codec producer_key :=
  c_struct (c_pair c_u64 c_public_key) (fun p => (pk_producer_name p, block_signing_key p))
    (fun p => ProducerKey p.1 p.2).

Definition c_legacy_producer_schedule : codec legacy_producer_schedule :=
  c_struct (c_pair c_u32 (c_vector c_producer_key)) (fun s => (legacy_version s, legacy_producers s))
    (fun p => LegacyProducerSchedule p.1 p.2).

Definition c_extensions : codec (list (Z * list Z)) := c_vector (c_pair c_u16 c_bytes).

Definition c_block_header : codec block_header :=
  c_struct
    (c_pair c_u32 (c_pair c_u64 (c_pair c_u16 (c_pair c_sha256 (c_pair c_sha256 (c_pair c_sha256
      (c_pair c_u32 (c_pair (c_optional c_legacy_producer_schedule) c_extensions))))))))
    (fun h => (header_timestamp h, (producer h, (confirmed h, (previous h, (transaction_mroot h,
      (action_mroot h, (schedule_version h, (new_producers h, header_extensions h)))))))))
    (fun '(t, (p, (c, (i, (tm, (am, (sv, (np, e)))))))) => MkBlockHeader t p c i tm am sv np e).

Definition header_block_num (h : block_header) : Z := wrap32 (num_from_id (previous h) + 1).

Definition proper_svnn_schedule_version : Z := 2 ^ 31.
Definition is_proper_svnn_block (h : block_header) : bool :=
  schedule_version h =? proper_svnn_schedule_version.

Definition digest {hasher : Sha256Hash} (h : block_header) : result digest_type :=
  bs ← pack c_block_header h; Ok (sha256_hash bs).

Definition calculate_id {hasher : Sha256Hash} (h : block_header) : result block_id_type :=
  d ← digest h; Ok (id_from_digest d (header_block_num h)).

Abbreviation header_extension_multimap := (list (Z * block_header_extension)) (only parsing).

(** The loop of [validate_and_extract_header_extensions]. *)
Fixpoint extract_loop (i : nat) (id_type_lower_bound : Z) (results : header_extension_multimap)
    (exts : list (Z * list Z)) : result header_extension_multimap :=
  match exts with
  | [] => Ok results
  | (id, data) :: exts =>
      EOS_ASSERT id_type_lower_bound <=? id ,, invalid_block_header_extension ;;
      m ← extract id data;
      match m with
      | None => Throw invalid_block_header_extension
      | Some (ext, enforce_unique) =>
          EOS_ASSERT implb enforce_unique ((i =? 0)%nat || (id_type_lower_bound <? id))
            ,, invalid_block_header_extension ;;
          extract_loop (S i) id (emplace_upper_bound results id ext) exts
      end
  end.

Definition validate_and_extract_header_extensions (h : block_header) : result header_extension_multimap :=
  extract_loop 0 0 [] (header_extensions h).

(** [flat_multimap::find] *)
Definition find_extension (exts : header_extension_multimap) (id : Z) : option block_header_extension :=
  snd <$> head (filter (fun p => p.1 = id) exts).

(** [extract_header_extension]: it assumes the extensions are sorted, and
    asserts it. *)
Fixpoint extract_first (exts : list (Z * list Z)) (extension_id : Z) : result (option block_header_extension) :=
  match exts with
  | [] => Ok None
  | (id, data) :: exts =>
      if extension_id <? id then Ok None
      else if negb (id =? extension_id) then extract_first exts extension_id
      else
        m ← extract id data;
        match m with
        | None => Throw invalid_block_header_extension
        | Some (ext, _) => Ok (Some ext)
        end
  end.

(** [char] is signed. *)
Definition schar (b : Z) : Z := if b <? 128 then b else b - 256.

(** [std::ranges::is_sorted] of pairs of an id and a [vector<char>]. *)
Fixpoint is_sorted_extensions (exts : list (Z * list Z)) : bool :=
  match exts with
  | a :: ((b :: _) as rest) =>
      negb ((b.1 <? a.1) || ((b.1 =? a.1) && match memcmp (map schar b.2) (map schar a.2) with Lt => true | _ => false end))
      && is_sorted_extensions rest
  | _ => true
  end.

Definition extract_header_extension (h : block_header) (extension_id : Z) :
    result (option block_header_extension) :=
  ASSERT is_sorted_extensions (header_extensions h) ;;
  extract_first (header_extensions h) extension_id.

Definition contains_header_extension (h : block_header) (extension_id : Z) : bool :=
  existsb (fun p => p.1 =? extension_id) (header_extensions h).

Definition is_legacy_block (h : block_header) : bool := negb (contains_header_extension h finality_extension_id).

#[export] Instance c_block_header_ok : CodecOk c_block_header := _.
#[export] Instance c_finality_extension_ok : CodecOk c_finality_extension := _.
#[export] Instance c_protocol_feature_activation_ok : CodecOk c_protocol_feature_activation := _.
End Bls.

(** ** Header extensions, proofs *)

Section Extensions.
Context {bls : BlsKeyValid}.

Definition extension_id (e : block_header_extension) : Z :=
  match e with
  | ProtocolFeatureActivation _ => protocol_feature_activation_id
  | ProducerScheduleChangeExtension _ => producer_schedule_change_extension_id
  | FinalityExt _ => finality_extension_id
  end.

Definition pack_extension (e : block_header_extension) : result (list Z) :=
  match e with
  | ProtocolFeatureActivation l => pack c_protocol_feature_activation l
  | ProducerScheduleChangeExtension s => pack c_producer_authority_schedule s
  | FinalityExt f => pack c_finality_extension f
  end.

Definition valid_extension (e : block_header_extension) : Prop :=
  match e with
  | ProtocolFeatureActivation l => valid c_protocol_feature_activation l
  | ProducerScheduleChangeExtension s => valid c_producer_authority_schedule s
  | FinalityExt f => valid c_finality_extension f
  end.

(** [p] is the extension [e], packed. *)
Definition packed_as (p : Z * list Z) (e : block_header_extension) : Prop :=
  p.1 = extension_id e /\ valid_extension e /\ pack_extension e = Ok p.2.

Lemma extract_packed p e : packed_as p e -> extract p.1 p.2 = Ok (Some (e, true)).
Proof.
  destruct p as [id data]. intros (E & Hv & Hp). cbn in E. cbn [fst snd] in *. subst id.
  destruct e as [l|s|f]; cbn [extension_id valid_extension pack_extension] in *; unfold extract; cbn [Z.eqb].
  - pose proof (codec_ok (c := c_protocol_feature_activation) l data [] Hv Hp) as E.
    rewrite app_nil_r in E. by rewrite E.
  - pose proof (codec_ok (c := c_producer_authority_schedule) s data [] Hv Hp) as E.
    rewrite app_nil_r in E. by rewrite E.
  - pose proof (codec_ok (c := c_finality_extension) f data [] Hv Hp) as E.
    rewrite app_nil_r in E. by rewrite E.
Qed.

(** Everything extracted has its id and must be unique. *)
Lemma extract_Some id data e u : extract id data = Ok (Some (e, u)) -> extension_id e = id /\ u = true.
Proof.
  unfold extract, protocol_feature_activation_id, producer_schedule_change_extension_id, finality_extension_id.
  destruct (Z.eqb_spec id 0) as [->|]; [|destruct (Z.eqb_spec id 1) as [->|]; [|destruct (Z.eqb_spec id 2) as [->|]; [|done]]];
    intros H; apply bind_Ok in H as (x & _ & H); by simplify_eq.
Qed.

Lemma extract_id id data o : extract id data = Ok o -> o = None \/ exists e, o = Some (e, true) /\ extension_id e = id.
Proof.
  destruct o as [[e u]|]; [|by left]. intros [Hid ->]%extract_Some. right. by exists e.
Qed.

Definition ascending {A} (l : list (Z * A)) : Prop := adjacent (fun a b : Z * A => a.1 < b.1) l.

Lemma emplace_upper_bound_last {A} (l : list (Z * A)) id a :
  Forall (fun p => p.1 <= id) l -> emplace_upper_bound l id a = l ++ [(id, a)].
Proof.
  induction 1 as [|p l Hp _ IH]; [done|]. cbn. destruct (Z.ltb_spec id p.1); [lia|]. by rewrite IH.
Qed.

(** The loop succeeds exactly on ascending ids of known extensions, and
    returns what it extracted in order. *)
Lemma extract_loop_Ok exts results lower i r :
  (i = 0%nat -> results = []) -> (i = 0%nat -> lower = 0) ->
  Forall (fun p => p.1 <= lower) results ->
  extract_loop i lower results exts = Ok r ->
  exists es, r = results ++ es /\ Forall2 (fun p q => q.1 = p.1 /\ extract p.1 p.2 = Ok (Some (q.2, true))) exts es /\
    ascending exts /\ (forall p, head exts = Some p -> lower <= p.1 /\ (i <> 0%nat -> lower < p.1)).
Proof.
  revert results lower i. induction exts as [|[id data] exts IH]; intros results lower i Hi Hi' Hlow H; cbn in H.
  - inv_result. exists []. rewrite app_nil_r. split_and!; [done|constructor|apply adjacent_nil|done].
  - inv_result. destruct (extract_id _ _ _ E0) as [->|(e & -> & Hid)]; [done|]. inv_result.
    rewrite emplace_upper_bound_last in H by (eapply Forall_impl; [exact Hlow|]; intros; cbn in *; lia).
    apply IH in H as (es & -> & Hes & Hasc & Hhd); [|done|done|].
    2:{ apply Forall_app. split; [eapply Forall_impl; [exact Hlow|]; intros; cbn in *; lia|].
        constructor; [cbn; lia|constructor]. }
    exists ((id, e) :: es). split_and!.
    + by rewrite <- app_assoc.
    + by constructor.
    + destruct exts as [|q exts]; [apply adjacent_singleton|]. apply adjacent_cons. split; [|done].
      cbn. apply (Hhd q); done.
    + intros p [= <-]. cbn [fst] in *. split; [lia|]. intros Hn. cbn in E1.
      apply orb_true_iff in E1 as [E1%Nat.eqb_eq|E1]; [done|lia].
Qed.

Lemma extract_loop_packed exts es results lower i :
  Forall2 packed_as exts es -> ascending exts ->
  Forall (fun p => p.1 <= lower) results ->
  (forall p, head exts = Some p -> lower < p.1 \/ lower = p.1 /\ i = 0%nat) ->
  extract_loop i lower results exts = Ok (results ++ map (fun e => (extension_id e, e)) es).
Proof.
  intros Hf. revert results lower i. induction Hf as [|[id data] e exts es He _ IH]; intros results lower i Hasc Hlow Hhd.
  { by rewrite app_nil_r. }
  cbn [extract_loop]. pose proof (Hhd _ eq_refl) as Hh. cbn in Hh.
  pass_with ltac:(lia). pose proof (extract_packed _ _ He) as Ex. cbn [fst snd] in Ex. rewrite Ex.
  cbn [mbind result_bind]. pass_with ltac:(cbn; apply orb_true_iff; rewrite Nat.eqb_eq, Z.ltb_lt; tauto).
  destruct He as (Hid & _ & _). cbn in Hid.
  rewrite emplace_upper_bound_last by (eapply Forall_impl; [exact Hlow|]; intros; cbn in *; lia).
  rewrite IH.
  - cbn. by rewrite <- app_assoc, Hid.
  - apply (adjacent_drop _ 1) in Hasc. done.
  - apply Forall_app. split; [eapply Forall_impl; [exact Hlow|]; intros; cbn in *; lia|].
    constructor; [cbn; lia|constructor].
  - intros p Hp. left. apply (Hasc 0%nat (id, data) p); [done|]. by destruct exts.
Qed.

Lemma ascending_head_lt {A} (p q : Z * A) l : ascending (p :: l) -> q ∈ l -> p.1 < q.1.
Proof.
  intros Hasc Hq. apply list_elem_of_lookup in Hq as [i Hi].
  assert (Tr : Transitive (fun a b : Z * A => a.1 < b.1)) by (intros ???; lia).
  by apply (adjacent_trans (fun a b : Z * A => a.1 < b.1) (p :: l) 0 (S i) p q); [|lia| |].
Qed.

Lemma ascending_sorted exts : ascending exts -> is_sorted_extensions exts = true.
Proof.
  induction exts as [|a exts IH]; intros H; [done|]. destruct exts as [|b exts]; [done|].
  apply adjacent_cons in H as [Hab H]. cbn [is_sorted_extensions].
  destruct (Z.ltb_spec b.1 a.1); [lia|]. destruct (Z.eqb_spec b.1 a.1); [lia|]. cbn. by apply IH.
Qed.

Lemma extract_first_find exts es id :
  ascending exts -> Forall2 (fun p q => q.1 = p.1 /\ extract p.1 p.2 = Ok (Some (q.2, true))) exts es ->
  extract_first exts id = Ok (find_extension es id).
Proof.
  intros Hasc Hf. induction Hf as [|[i data] [i' e] exts es [Hi Hx] Hf IH]; [done|]. cbn in Hi, Hx. subst i'.
  cbn [extract_first]. unfold find_extension.
  assert (Hrest : id <= i -> filter (fun p => p.1 = id) es = []).
  { intros Hle. apply filter_none. intros q Hq Hqid.
    apply list_elem_of_lookup in Hq as [j Hj]. destruct (Forall2_lookup_r _ _ _ _ _ Hf Hj) as (p & Hp & Hpq & _).
    pose proof (ascending_head_lt (i, data) p exts Hasc) as Hlt. cbn in Hlt.
    apply list_elem_of_lookup_2 in Hp. specialize (Hlt Hp). lia. }
  destruct (Z.ltb_spec id i).
  { rewrite filter_cons_False by (cbn; lia). rewrite Hrest by lia. done. }
  destruct (Z.eqb_spec i id) as [->|]; cbn [negb].
  - by rewrite Hx, filter_cons_True.
  - rewrite filter_cons_False by (cbn; lia). apply IH. by apply (adjacent_drop _ 1) in Hasc.
Qed.
End Extensions.

(** ** Properties *)

Section Properties.
Context {bls : BlsKeyValid}.

Lemma calculate_id_Ok {hasher : Sha256Hash} h id :
  calculate_id h = Ok id ->
  exists bs, pack c_block_header h = Ok bs /\ id = id_from_digest (hasher bs) (header_block_num h).
Proof. unfold calculate_id, digest. intros (d & (bs & Hbs & [= <-])%bind_Ok & [= <-])%bind_Ok. by exists bs. Qed.

(** A packed block header, followed by anything, unpacks to the header and
    leaves what followed. *)
Theorem block_header_roundtrip (h : block_header) (bs rest : list Z) :
  valid c_block_header h -> pack c_block_header h = Ok bs ->
  unpack c_block_header (bs ++ rest) = Ok (h, rest).
Proof. apply codec_ok. Qed.

(** The id of a block carries the number after its parent's, and binds the
    whole header: if two headers with the same id differ, then so do their
    packed bytes, and the hashes of these agree in all but the 32 bits that the
    number replaces. *)
Theorem calculate_id_binds {hasher : Sha256Hash} {words : Sha256Words hasher} (h1 h2 : block_header) (id1 id2 : block_id_type) :
  valid c_block_header h1 -> valid c_block_header h2 ->
  calculate_id h1 = Ok id1 -> calculate_id h2 = Ok id2 ->
  num_from_id id1 = header_block_num h1 /\
  (id1 = id2 -> h1 <> h2 -> exists bs1 bs2, pack c_block_header h1 = Ok bs1 /\ pack c_block_header h2 = Ok bs2 /\
    bs1 <> bs2 /\ id_from_digest (hasher bs1) 0 = id_from_digest (hasher bs2) 0).
Proof.
  intros V1 V2 (x1 & P1 & ->)%calculate_id_Ok (x2 & P2 & ->)%calculate_id_Ok. split.
  { apply num_from_id_from_digest; [apply (sha256_words)|apply wrap32_u32]. }
  intros Heq Hne. exists x1, x2. split_and!; [done|done| |].
  { intros ->. apply Hne. by apply (pack_inj c_block_header _ _ x2). }
  pose proof (sha256_words x1) as (W1 & _). pose proof (sha256_words x2) as (W2 & _).
  assert (N : header_block_num h1 = header_block_num h2).
  { pose proof (num_from_id_from_digest (hasher x1) (header_block_num h1) W1 (wrap32_u32 _)).
    pose proof (num_from_id_from_digest (hasher x2) (header_block_num h2) W2 (wrap32_u32 _)). congruence. }
  unfold id_from_digest, sha256_hash in *. rewrite N in Heq.
  injection Heq as E0 E1 E2 E3. f_equal; [|done..].
  rewrite !land_high_half in * by done. change (endian_reverse_u32 0) with 0. rewrite !Z.add_0_r.
  pose proof (endian_reverse_u32_u32 (header_block_num h2) (wrap32_u32 _)) as R.
  unfold u32, u64 in *. rewrite !wrap64_id in * by (unfold u64; lia_div). lia.
Qed.

(** Extensions packed in ascending order of their ids are what
    [validate_and_extract_header_extensions] reads, in that order. *)
Theorem extensions_roundtrip (h : block_header) (es : list block_header_extension) :
  Forall2 packed_as (header_extensions h) es -> ascending (header_extensions h) ->
  validate_and_extract_header_extensions h = Ok (map (fun e => (extension_id e, e)) es).
Proof.
  intros Hf Hasc. unfold validate_and_extract_header_extensions.
  rewrite (extract_loop_packed _ es); [done..|constructor|].
  intros p Hp. rewrite head_lookup in Hp. destruct (Forall2_lookup_l _ _ _ _ _ Hf Hp) as (e & _ & Hid & _).
  rewrite Hid. destruct e; cbn; unfold protocol_feature_activation_id, producer_schedule_change_extension_id,
    finality_extension_id; [right|left|left]; lia.
Qed.

(** When a header's extensions validate, their ids are strictly ascending
    and the two ways to read one agree: [extract_header_extension] never
    asserts and returns what the validated multimap holds. *)
Theorem extract_header_extension_agrees (h : block_header) (exts : list (Z * block_header_extension)) (id : Z) :
  validate_and_extract_header_extensions h = Ok exts ->
  ascending (header_extensions h) /\ extract_header_extension h id = Ok (find_extension exts id) /\
  contains_header_extension h id = bool_decide (is_Some (find_extension exts id)).
Proof.
  unfold validate_and_extract_header_extensions. intros H.
  destruct (extract_loop_Ok _ _ _ _ _ (fun _ => eq_refl) (fun _ => eq_refl) (Forall_nil_2 _) H)
    as (es & -> & Hf & Hasc & _).
  cbn [app]. split_and!; [done| |].
  - unfold extract_header_extension. rewrite ascending_sorted by done. by apply extract_first_find.
  - unfold contains_header_extension. clear H Hasc.
    induction Hf as [|[i d] [i' e] l es [Hi Hx] _ IH]; [done|]. cbn in Hi. subst i'. cbn [existsb fst].
    rewrite IH. unfold find_extension.
    destruct (Z.eqb_spec i id) as [->|]; [by rewrite filter_cons_True|by rewrite filter_cons_False].
Qed.
End Properties.

(** ** The properties at a concrete header *)

#[local] Existing Instances example_bls.

Definition example_finality_extension : finality_extension :=
  FinalityExtension (QcClaim 7 true)
    (Some (FinalizerPolicyDiff 3 2 (DiffResult [1%nat] [(0%nat, example_finalizer 9)])))
    (Some (ProposerPolicyDiff 5 90 (DiffResult [] [(2%nat, example_producer 4)]))).

Definition example_features : list digest_type := [Sha256 1 2 3 4; Sha256 5 6 7 8].

Definition packed_or_nil (r : result (list Z)) : list Z := match r with Ok bs => bs | Throw _ => [] end.

Definition example_extensions : list block_header_extension :=
  [ProtocolFeatureActivation example_features; FinalityExt example_finality_extension].

Definition example_header (ts : block_timestamp_type) : block_header :=
  MkBlockHeader ts 17 0 (example_id 41) (Sha256 1 1 1 1) (Sha256 2 2 2 2) proper_svnn_schedule_version
    (Some (LegacyProducerSchedule 1 [ProducerKey 2 (example_key 1); ProducerKey 3 (WebAuthnKey (repeat 7 33) 1 [100; 101])]))
    (map (fun e => (extension_id e, packed_or_nil (pack_extension e))) example_extensions).

Definition example_header_bytes (ts : block_timestamp_type) : list Z :=
  packed_or_nil (pack c_block_header (example_header ts)).

Ltac solve_valid :=
  repeat match goal with
  | |- _ /\ _ => split
  | |- Forall _ _ => constructor
  | |- valid _ _ => first [done | progress cbn]
  | |- _ => done
  | |- _ <= _ < _ => by vm_compute
  | |- _ = _ => by vm_compute
  end.

Lemma example_header_valid : valid c_block_header (example_header 100) /\ valid c_block_header (example_header 101).
Proof. split; solve_valid. Qed.

Lemma block_header_roundtrip_witness :
  unpack c_block_header (example_header_bytes 100 ++ [1; 2; 3]) = Ok (example_header 100, [1; 2; 3]).
Proof.
  apply (block_header_roundtrip (example_header 100) (example_header_bytes 100) [1; 2; 3]);
    [exact (proj1 example_header_valid)|by vm_compute].
Defined.

Definition example_header_id (ts : block_timestamp_type) : block_id_type :=
  match calculate_id (hasher := example_hash) (example_header ts) with Ok id => id | Throw _ => sha256_default end.

Lemma calculate_id_binds_witness :
  num_from_id (example_header_id 100) = header_block_num (example_header 100) /\
  (example_header_id 100 = example_header_id 101 -> example_header 100 <> example_header 101 ->
   exists bs1 bs2, pack c_block_header (example_header 100) = Ok bs1 /\
    pack c_block_header (example_header 101) = Ok bs2 /\ bs1 <> bs2 /\
    id_from_digest (example_hash bs1) 0 = id_from_digest (example_hash bs2) 0).
Proof.
  apply (calculate_id_binds (hasher := example_hash) (words := example_hash_words)
    (example_header 100) (example_header 101) (example_header_id 100) (example_header_id 101));
    [exact (proj1 example_header_valid)|exact (proj2 example_header_valid)|by vm_compute..].
Defined.

Lemma example_extensions_packed : Forall2 packed_as (header_extensions (example_header 100)) example_extensions.
Proof.
  repeat constructor; cbn [fst snd]; try by vm_compute.
  all: cbn [valid_extension]; solve_valid.
Qed.

Lemma extensions_roundtrip_witness :
  validate_and_extract_header_extensions (example_header 100)
  = Ok (map (fun e => (extension_id e, e)) example_extensions).
Proof.
  apply (extensions_roundtrip (example_header 100) example_extensions); [exact example_extensions_packed|].
  apply adjacent_cons. split; [by vm_compute|apply adjacent_singleton].
Defined.

Lemma extract_header_extension_agrees_witness :
  let h := example_header 100 in
  let exts := map (fun e => (extension_id e, e)) example_extensions in
  ascending (header_extensions h) /\ extract_header_extension h 2 = Ok (find_extension exts 2) /\
  contains_header_extension h 2 = bool_decide (is_Some (find_extension exts 2)).
Proof.
  apply (extract_header_extension_agrees (example_header 100)
    (map (fun e => (extension_id e, e)) example_extensions) 2). by vm_compute.
Defined.
