(* ===== verification/BlockHeaderState.v ===== *)
(** * The state of a block header

    [block_header_state.hpp] and [block_header_state.cpp]: what a node knows of
    a block from its header and its ancestors, and how the state of the next
    block is made -- by the producer that assembles it ([next_assembled]) and by
    the nodes that receive it ([next_received]).  Both end in [finish_next].

    A policy is held by [shared_ptr]s.  Their identity matters in one place,
    [evaluate_proposer_policies_for_promotion], which compares pointers to find
    which of the three proposer policies it was given: a
    [proposer_policy_slot] is that pointer. *)

From Stdlib Require Import Sorting.Sorted.
From S2P Require Import Prelude ChainTypes Merkle FinalityCore OrderedDiff Policies Qc Raw BlockHeader.

(** ** Data *)

Record block_header_state : Set := MkBlockHeaderState {
  id : block_id_type;
  header : block_header;
  activated_protocol_features : list digest_type;  (* a [flat_set]: sorted *)
  core : finality_core;
  active_finalizer_policy : finalizer_policy;
  active_proposer_policy : proposer_policy;
  latest_proposed_proposer_policy : option proposer_policy;
  latest_pending_proposer_policy : option proposer_policy;
  proposed_finalizer_policies : list (Z * finalizer_policy);
  pending_finalizer_policy : option (Z * finalizer_policy);
  latest_qc_claim_block_active_finalizer_policy : option finalizer_policy;
  finalizer_policy_generation : Z;
  last_pending_finalizer_policy_digest : digest_type;
  last_pending_finalizer_policy_start_timestamp : block_timestamp_type;
  header_exts : list (Z * block_header_extension)
}.

Record level_3_commitments_t : Set := Level3Commitments {
  reversible_blocks_mroot : digest_type;
  latest_qc_claim_block_num : Z;
  latest_qc_claim_finality_digest : digest_type;
  latest_qc_claim_timestamp : block_timestamp_type;
  l3_timestamp : block_timestamp_type;
  base_digest : digest_type
}.

Record level_2_commitments_t : Set := Level2Commitments {
  last_pending_fin_pol_digest : digest_type;
  last_pending_fin_pol_start_timestamp : block_timestamp_type;
  l3_commitments_digest : digest_type
}.

Definition light_header_protocol_version_major : Z := 1.
Definition light_header_protocol_version_minor : Z := 0.

Record finality_digest_data_v1 : Set := FinalityDigestData {
  major_version : Z;
  minor_version : Z;
  active_finalizer_policy_generation : Z;
  last_pending_finalizer_policy_generation : Z;
  finality_tree_digest : digest_type;
  l2_commitments_digest : digest_type
}.

Record block_header_state_input : Set := BlockHeaderStateInput {
  parent_id : block_id_type;
  input_timestamp : block_timestamp_type;
  input_producer : Z;
  new_protocol_feature_activations : list digest_type;
  input_transaction_mroot : digest_type;
  new_proposer_policy : option proposer_policy;
  new_finalizer_policy : option finalizer_policy;
  most_recent_ancestor_with_qc : qc_claim_t;
  finality_mroot_claim : digest_type
}.

(** ** Accessors *)

Definition bhs_timestamp (s : block_header_state) : block_timestamp_type := header_timestamp (header s).
Definition bhs_block_num (s : block_header_state) : Z := header_block_num (header s).
Definition finality_mroot (s : block_header_state) : digest_type :=
  if is_proper_svnn_block (header s) then action_mroot (header s) else sha256_default.
Definition is_savanna_genesis_block (s : block_header_state) : result bool :=
  is_genesis_block_num (core s) (bhs_block_num s).
Definition is_needed (s : block_header_state) (claim : qc_claim_t) : result bool :=
  latest ← latest_qc_claim (core s); Ok (negb (qc_claim_leb claim latest)).

(** The finalizer policies proposed last, pending or else active. *)
Definition get_last_proposed_finalizer_policy (s : block_header_state) : finalizer_policy :=
  match last (proposed_finalizer_policies s) with
  | Some p => p.2
  | None => match pending_finalizer_policy s with Some p => p.2 | None => active_finalizer_policy s end
  end.

Definition get_last_pending_finalizer_policy (s : block_header_state) : finalizer_policy :=
  match pending_finalizer_policy s with Some p => p.2 | None => active_finalizer_policy s end.

Definition get_last_proposed_proposer_policy (s : block_header_state) : proposer_policy :=
  match latest_proposed_proposer_policy s with
  | Some p => p
  | None => match latest_pending_proposer_policy s with Some p => p | None => active_proposer_policy s end
  end.

Definition pending_producers (s : block_header_state) : option producer_authority_schedule :=
  proposer_schedule <$> latest_pending_proposer_policy s.

(** ** Digests *)

Section Digests.
Context {hasher : Sha256Hash} {bls : BlsKeyValid}.

Definition c_qc_link : codec qc_link :=
  c_struct (c_pair c_u32 (c_pair c_u32 c_bool))
    (fun l => (source_block_num l, (target_block_num l, is_link_strong l)))
    (fun p => QcLink p.1 p.2.1 p.2.2).

(** The part of a [block_ref] that is packed for a digest. *)
Definition ref_for_digest (r : block_ref) : sha256 * (Z * sha256) :=
  (block_id r, (timestamp r, finality_digest r)).

(** A vector written by hand: its size is not checked.  Nothing in the code
    unpacks it; [unpack] is how a reader of the bytes would. *)
Definition c_vector_unchecked {A} (c : codec A) : codec (list A) := {|
  pack l := bs ← pack_elements c l; Ok (pack_unsigned_int 10 (wrap32 (size_of l)) ++ bs);
  unpack s := n ← unpack c_unsigned_int s; unpack_elements c (Z.to_nat n.1) n.2;
  valid l := Forall (valid c) l /\ size_of l < 2 ^ 32
|}.

Definition c_core_for_digest :=
  c_pair (c_vector c_qc_link) (c_pair (c_vector_unchecked (c_pair c_sha256 (c_pair c_u32 c_sha256))) c_u32).

Definition core_for_digest (c : finality_core) :=
  (links c, (map ref_for_digest (refs c), genesis_timestamp c)).

(** [finality_core::pack_for_digest] *)
Definition pack_for_digest (c : finality_core) : result (list Z) :=
  pack c_core_for_digest (core_for_digest c).

(** A [shared_ptr] that is not null. *)
Definition c_nonnull {A} (c : codec A) : codec A := {|
  pack a := pack (c_optional c) (Some a);
  unpack s := r ← unpack (c_optional c) s; a ← at_or_assert r.1; Ok (a, r.2);
  valid := valid c
|}.

(** What [compute_base_digest] packs, in its order. *)
Definition c_base_digest_data :=
  c_pair c_block_header (c_pair c_core_for_digest
    (c_pair (c_vector (c_pair c_u32 (c_nonnull c_finalizer_policy)))
    (c_pair (c_optional (c_pair c_u32 (c_nonnull c_finalizer_policy)))
    (c_pair c_proposer_policy
    (c_pair (c_optional c_proposer_policy) (c_pair (c_optional c_proposer_policy) (c_vector c_sha256))))))).

Definition base_digest_data (s : block_header_state) :=
  (header s, (core_for_digest (core s), (proposed_finalizer_policies s, (pending_finalizer_policy s,
    (active_proposer_policy s, (latest_proposed_proposer_policy s,
    (latest_pending_proposer_policy s, activated_protocol_features s))))))).

(** [fc::sha256::hash] of a packed value *)
Definition hash_packed {A} (c : codec A) (a : A) : result digest_type :=
  bs ← pack c a; Ok (sha256_hash bs).

Definition compute_base_digest (s : block_header_state) : result digest_type :=
  hash_packed c_base_digest_data (base_digest_data s).

Definition c_level_3_commitments : codec level_3_commitments_t :=
  c_struct (c_pair c_sha256 (c_pair c_u32 (c_pair c_sha256 (c_pair c_u32 (c_pair c_u32 c_sha256)))))
    (fun l => (reversible_blocks_mroot l, (latest_qc_claim_block_num l, (latest_qc_claim_finality_digest l,
      (latest_qc_claim_timestamp l, (l3_timestamp l, base_digest l))))))
    (fun '(a, (b, (c, (d, (e, f))))) => Level3Commitments a b c d e f).

Definition c_level_2_commitments : codec level_2_commitments_t :=
  c_struct (c_pair c_sha256 (c_pair c_u32 c_sha256))
    (fun l => (last_pending_fin_pol_digest l, (last_pending_fin_pol_start_timestamp l, l3_commitments_digest l)))
    (fun '(a, (b, c)) => Level2Commitments a b c).

Definition c_finality_digest_data : codec finality_digest_data_v1 :=
  c_struct (c_pair c_u32 (c_pair c_u32 (c_pair c_u32 (c_pair c_u32 (c_pair c_sha256 c_sha256)))))
    (fun d => (major_version d, (minor_version d, (active_finalizer_policy_generation d,
      (last_pending_finalizer_policy_generation d, (finality_tree_digest d, l2_commitments_digest d))))))
    (fun '(a, (b, (c, (d, (e, f))))) => FinalityDigestData a b c d e f).

(** The commitments of [compute_finality_digest], from the innermost. *)
Definition level_3_commitments (s : block_header_state) : result level_3_commitments_t :=
  claim ← latest_qc_claim (core s);
  blk_ref ← (if is_genesis_core (core s) then Ok block_ref_default
             else get_block_reference (core s) (claim_block_num claim));
  mroot ← get_reversible_blocks_mroot (core s);
  base ← compute_base_digest s;
  Ok (Level3Commitments mroot (claim_block_num claim) (finality_digest blk_ref) (timestamp blk_ref)
        (bhs_timestamp s) base).

Definition level_2_commitments (s : block_header_state) : result level_2_commitments_t :=
  l3 ← level_3_commitments s;
  h3 ← hash_packed c_level_3_commitments l3;
  Ok (Level2Commitments (last_pending_finalizer_policy_digest s)
        (last_pending_finalizer_policy_start_timestamp s) h3).

Definition finality_digest_data (s : block_header_state) : result finality_digest_data_v1 :=
  l2 ← level_2_commitments s;
  h2 ← hash_packed c_level_2_commitments l2;
  Ok (FinalityDigestData light_header_protocol_version_major light_header_protocol_version_minor
        (generation (active_finalizer_policy s)) (generation (get_last_pending_finalizer_policy s))
        (finality_mroot s) h2).

Definition compute_finality_digest (s : block_header_state) : result digest_type :=
  d ← finality_digest_data s; hash_packed c_finality_digest_data d.

Definition make_block_ref (s : block_header_state) : result block_ref :=
  d ← compute_finality_digest s;
  Ok (BlockRef (id s) (bhs_timestamp s) d (generation (active_finalizer_policy s))
        match pending_finalizer_policy s with Some p => generation p.2 | None => 0 end).

(** ** The active proposer policy *)

Inductive proposer_policy_slot : Set := SlotActive | SlotProposed | SlotPending.

(** Which of the three policies a child built at [next_block_timestamp] has. *)
Definition get_active_proposer_policy_for_block_at (s : block_header_state)
    (next_block_timestamp : block_timestamp_type) : result proposer_policy_slot :=
  EOS_ASSERT bhs_timestamp s <? next_block_timestamp ,, block_too_old_exception ;;
  if in_same_round next_block_timestamp (bhs_timestamp s) then Ok SlotActive
  else
    match latest_proposed_proposer_policy s, latest_pending_proposer_policy s with
    | None, None => Ok SlotActive
    | proposed, pending =>
        last_final ← last_final_block_timestamp (core s);
        let take_proposed :=
          match proposed, get_prior_round_start_slot (bhs_timestamp s) with
          | Some p, Some prior_round_start_slot =>
              (proposal_time p <? prior_round_start_slot) && (proposal_time p <=? last_final)
          | _, _ => false
          end in
        if take_proposed then Ok SlotProposed
        else
          match pending with
          | Some p => if proposal_time p <=? last_final then Ok SlotPending else Ok SlotActive
          | None => Ok SlotActive
          end
    end.

(** The policy a slot points to. *)
Definition slot_policy (s : block_header_state) (slot : proposer_policy_slot) : result proposer_policy :=
  match slot with
  | SlotActive => Ok (active_proposer_policy s)
  | SlotProposed => at_or_assert (latest_proposed_proposer_policy s)
  | SlotPending => at_or_assert (latest_pending_proposer_policy s)
  end.

Definition bhs_scheduled_producer (s : block_header_state) (t : block_timestamp_type) : result producer_authority :=
  get_scheduled_producer (producers (proposer_schedule (active_proposer_policy s))) t.

Definition get_producer_for_block_at (s : block_header_state) (next_block_timestamp : block_timestamp_type) :
    result producer_authority :=
  slot ← get_active_proposer_policy_for_block_at s next_block_timestamp;
  p ← slot_policy s slot;
  get_scheduled_producer (producers (proposer_schedule p)) next_block_timestamp.

(** The three proposer policies of the state that is being made. *)
Record proposer_policies : Set := ProposerPolicies {
  pp_active : proposer_policy;
  pp_proposed : option proposer_policy;
  pp_pending : option proposer_policy
}.

(** On entry the policies [nx] of the next state are those of [prev]. *)
Definition evaluate_proposer_policies_for_promotion (prev : block_header_state)
    (next_timestamp : block_timestamp_type) (nx : proposer_policies) : result proposer_policies :=
  ASSERT bhs_timestamp prev <? next_timestamp ;;
  new_slot ← get_active_proposer_policy_for_block_at prev next_timestamp;
  new_policy ← slot_policy prev new_slot;
  let nx :=
    match new_slot with
    | SlotActive => nx
    | SlotProposed => ProposerPolicies new_policy None None
    | SlotPending => ProposerPolicies new_policy (pp_proposed nx) None
    end in
  first ← first_block_of_round next_timestamp (bhs_timestamp prev);
  Ok match pp_proposed nx, pp_pending nx with
     | Some p, None => if (first : bool) then ProposerPolicies (pp_active nx) None (Some p) else nx
     | _, _ => nx
     end.

(** ** The finalizer policies *)

(** The policies that applied to the block [ref] refers to. *)
Definition get_finalizer_policies (s : block_header_state) (ref : block_ref) : result finalizer_policies_t :=
  in_range ← (match links (core s) with
              | [] => Ok true
              | _ => claim ← latest_qc_claim (core s); cur ← current_block_num (core s);
                     Ok ((claim_block_num claim <=? block_num ref) && (block_num ref <=? cur))
              end);
  ASSERT (in_range : bool) ;;
  let active_gen := active_policy_generation ref in
  ASSERT negb (active_gen =? 0) ;;
  active ←
    (if generation (active_finalizer_policy s) =? active_gen then Ok (active_finalizer_policy s)
     else
       ASSERT match pending_finalizer_policy s with Some p => active_gen <? generation p.2 | None => true end ;;
       match latest_qc_claim_block_active_finalizer_policy s with
       | Some p =>
           ASSERT generation p =? active_gen ;;
           EOS_ASSERT generation p =? active_gen ,, chain_exception ;; Ok p
       | None => Throw assert_failed
       end);
  let pending_gen := pending_policy_generation ref in
  pending ←
    (if pending_gen =? 0 then Ok None
     else if pending_gen =? generation (active_finalizer_policy s) then Ok (Some (active_finalizer_policy s))
     else
       match pending_finalizer_policy s with
       | Some p =>
           ASSERT generation p.2 =? pending_gen ;;
           EOS_ASSERT generation p.2 =? pending_gen ,, chain_exception ;; Ok (Some p.2)
       | None => Throw assert_failed
       end);
  Ok (FinalizerPolicies (finality_digest ref) active pending).

Definition get_active_finalizer_policy_generation (s : block_header_state) (num : Z) : result Z :=
  in_range ← (match links (core s) with
              | [] => Ok true
              | _ => lf ← last_final_block_num (core s); cur ← current_block_num (core s);
                     Ok ((lf <=? num) && (num <=? cur))
              end);
  ASSERT (in_range : bool) ;;
  if num =? bhs_block_num s then Ok (generation (active_finalizer_policy s))
  else ref ← get_block_reference (core s) num; Ok (active_policy_generation ref).

(** The finalizer policies of the state that is being made. *)
Record finalizer_policy_state : Set := FinalizerPolicyState {
  fp_active : finalizer_policy;
  fp_pending : option (Z * finalizer_policy);
  fp_proposed : list (Z * finalizer_policy);
  fp_start_timestamp : block_timestamp_type
}.

(** The elements before the first proposed after [lib], and the rest. *)
Fixpoint split_reversible (lib : Z) (proposed : list (Z * finalizer_policy)) :
    list (Z * finalizer_policy) * list (Z * finalizer_policy) :=
  match proposed with
  | [] => ([], [])
  | p :: rest => if lib <? p.1 then ([], proposed)
                 else let '(before, after) := split_reversible lib rest in (p :: before, after)
  end.

(** [lib] is the last final block of the next core; on entry the next state
    has the active policy and the start timestamp of [prev], and no other. *)
Definition evaluate_finalizer_policies_for_promotion (prev : block_header_state)
    (lib next_block_num : Z) (next_timestamp : block_timestamp_type) (nx : finalizer_policy_state) :
    finalizer_policy_state :=
  match pending_finalizer_policy prev, proposed_finalizer_policies prev with
  | None, [] => nx
  | prev_pending, prev_proposed =>
      let '(nx, pending_slot_open) :=
        match prev_pending with
        | Some p =>
            if p.1 <=? lib then
              (FinalizerPolicyState p.2 (fp_pending nx) (fp_proposed nx) (fp_start_timestamp nx), true)
            else (FinalizerPolicyState (fp_active nx) (Some p) (fp_proposed nx) (fp_start_timestamp nx), false)
        | None => (nx, true)
        end in
      match prev_proposed with
      | [] => nx
      | _ =>
          let '(before, after) := split_reversible lib prev_proposed in
          match last before with
          | Some target =>
              if (pending_slot_open : bool) then
                FinalizerPolicyState (fp_active nx) (Some (next_block_num, target.2))
                  (fp_proposed nx ++ after) next_timestamp
              else
                FinalizerPolicyState (fp_active nx) (fp_pending nx)
                  ((fp_proposed nx ++ [target]) ++ after) (fp_start_timestamp nx)
          | None => FinalizerPolicyState (fp_active nx) (fp_pending nx) prev_proposed (fp_start_timestamp nx)
          end
      end
  end.

(** ** Protocol features *)

Definition sha256_leb (a b : sha256) : bool :=
  match sha256_compare a b with Gt => false | _ => true end.

(** [std::sort] *)
Fixpoint sorted_insert (d : digest_type) (l : list digest_type) : list digest_type :=
  match l with
  | [] => [d]
  | x :: l' => if sha256_leb d x then d :: l else x :: sorted_insert d l'
  end.
Definition sort_digests (l : list digest_type) : list digest_type := foldr sorted_insert [] l.

(** [std::set_union] of sorted ranges *)
Fixpoint set_union (fuel : nat) (s1 s2 : list digest_type) : list digest_type :=
  match fuel with
  | O => []
  | S fuel =>
      match s1, s2 with
      | [], _ => s2
      | _, [] => s1
      | x :: s1', y :: s2' =>
          match sha256_compare x y with
          | Lt => x :: set_union fuel s1' s2
          | Gt => y :: set_union fuel s1 s2'
          | Eq => x :: set_union fuel s1' s2'
          end
      end
  end.

(** Inserting at the end of a [flat_set], in order. *)
Definition end_insert (acc : list digest_type) (d : digest_type) : list digest_type :=
  if decide (last acc = Some d) then acc else acc ++ [d].

(** The constructor of [protocol_feature_activation_set], disjointness enforced. *)
Definition add_protocol_features (s1 additional_features : list digest_type) : result (list digest_type) :=
  let s2 := sort_digests additional_features in
  let expected_size := (length s1 + length s2)%nat in
  let features := foldl end_insert [] (set_union (S expected_size) s1 s2) in
  EOS_ASSERT (length features =? expected_size)%nat ,, invalid_block_header_extension ;;
  Ok features.

(** ** The next state *)

Definition finish_next (prev : block_header_state) (hdr : block_header)
    (exts : list (Z * block_header_extension)) (new_features : list digest_type) (f_ext : finality_extension) :
    result block_header_state :=
  features ← (match new_features with
              | [] => Ok (activated_protocol_features prev)
              | _ => add_protocol_features (activated_protocol_features prev) new_features
              end);
  (* proposer policy *)
  pp ← evaluate_proposer_policies_for_promotion prev (header_timestamp hdr)
         (ProposerPolicies (active_proposer_policy prev) (latest_proposed_proposer_policy prev)
            (latest_pending_proposer_policy prev));
  proposed_pp ← (match new_proposer_policy_diff f_ext with
                 | Some d => p ← proposer_apply_diff (get_last_proposed_proposer_policy prev) d; Ok (Some p)
                 | None => Ok (pp_proposed pp)
                 end);
  (* finality core *)
  parent_block ← make_block_ref prev;
  next_core ← FinalityCore.next (core prev) parent_block (qc_claim f_ext);
  (* finalizer policy *)
  lib ← last_final_block_num next_core;
  let next_block_num := header_block_num hdr in
  let fp := evaluate_finalizer_policies_for_promotion prev lib next_block_num (header_timestamp hdr)
              (FinalizerPolicyState (active_finalizer_policy prev) None []
                 (last_pending_finalizer_policy_start_timestamp prev)) in
  let last_pending := match fp_pending fp with Some p => p.2 | None => fp_active fp end in
  last_pending_digest ← hash_packed c_finalizer_policy last_pending;
  new_fp ← (match new_finalizer_policy_diff f_ext with
            | Some d =>
                p ← finalizer_apply_diff (get_last_proposed_finalizer_policy prev) d;
                EOS_ASSERT finalizer_policy_generation prev <? generation p ,, invalid_block_header_extension ;;
                Ok (generation p, fp_proposed fp ++ [(next_block_num, p)])
            | None => Ok (finalizer_policy_generation prev, fp_proposed fp)
            end);
  (* the policy active at the claimed block *)
  claim ← latest_qc_claim next_core;
  claim_generation ← get_active_finalizer_policy_generation prev (claim_block_num claim);
  claim_policy ←
    (if negb (claim_generation =? generation (fp_active fp)) then
       ref ← get_block_reference next_core (claim_block_num claim);
       policies ← get_finalizer_policies prev ref;
       Ok (Some (Qc.active_finalizer_policy policies))
     else Ok None);
  new_id ← calculate_id hdr;
  Ok (MkBlockHeaderState new_id hdr features next_core (fp_active fp) (pp_active pp) proposed_pp (pp_pending pp)
        new_fp.2 (fp_pending fp) claim_policy new_fp.1 last_pending_digest (fp_start_timestamp fp) exts).

(** [next(block_header_state_input&)]: the producer's side. *)
Definition next_assembled (s : block_header_state) (input : block_header_state_input) : result block_header_state :=
  fdiff ← (match new_finalizer_policy input with
           | Some p => d ← finalizer_create_diff (get_last_proposed_finalizer_policy s) p; Ok (Some d)
           | None => Ok None
           end);
  pdiff ← (match new_proposer_policy input with
           | Some p => d ← proposer_create_diff (get_last_proposed_proposer_policy s) p; Ok (Some d)
           | None => Ok None
           end);
  let new_f_ext := FinalityExtension (most_recent_ancestor_with_qc input) fdiff pdiff in
  packed_f ← pack c_finality_extension new_f_ext;
  let exts := emplace_extension [] finality_extension_id packed_f in
  let header_exts := emplace_upper_bound [] finality_extension_id (FinalityExt new_f_ext) in
  both ←
    (match new_protocol_feature_activations input with
     | [] => Ok (exts, header_exts)
     | pfa =>
         packed_p ← pack c_protocol_feature_activation pfa;
         Ok (emplace_extension exts protocol_feature_activation_id packed_p,
             emplace_upper_bound header_exts protocol_feature_activation_id (ProtocolFeatureActivation pfa))
     end);
  let hdr := MkBlockHeader (input_timestamp input) (input_producer input) 0 (parent_id input)
               (input_transaction_mroot input) (finality_mroot_claim input) proper_svnn_schedule_version
               None both.1 in
  finish_next s hdr both.2 (new_protocol_feature_activations input) new_f_ext.

(** The callback that checks new protocol features (the controller's). *)
Definition validator_t : Type := block_timestamp_type -> list digest_type -> list digest_type -> result unit.

(** [next(const signed_block_header&, validator_t&)]: the receiver's side. *)
Definition next_received (s : block_header_state) (h : block_header) (validator : validator_t) :
    result block_header_state :=
  producer_auth ← get_producer_for_block_at s (header_timestamp h);
  EOS_ASSERT bool_decide (previous h = id s) ,, unlinkable_block_exception ;;
  EOS_ASSERT producer h =? producer_name producer_auth ,, wrong_producer ;;
  EOS_ASSERT match new_producers h with None => true | Some _ => false end ,, producer_schedule_exception ;;
  exts ← validate_and_extract_header_extensions h;
  features ←
    (match find_extension exts protocol_feature_activation_id with
     | Some (ProtocolFeatureActivation pfa) =>
         _ ← validator (bhs_timestamp s) (activated_protocol_features s) pfa; Ok pfa
     | Some _ => Throw assert_failed
     | None => Ok []
     end);
  match find_extension exts finality_extension_id with
  | Some (FinalityExt f_ext) =>
      _ ← (if is_proper_svnn_block h then
             m ← next_metadata (core s) (qc_claim f_ext);
             no_finality_tree_associated ← is_genesis_block_num (core s) (meta_latest_qc_claim_block_num m);
             EOS_ASSERT Bool.eqb no_finality_tree_associated (sha256_is_empty (action_mroot h))
               ,, block_validate_exception ;; Ok tt
           else Ok tt);
      finish_next s h exts features f_ext
  | Some _ => Throw assert_failed
  | None => Throw invalid_block_header_extension
  end.

(** The header state of a Savanna genesis block
    ([block_state::create_if_genesis_block]): [id], [h], [features],
    [schedule] and [exts] are those of the legacy block state it is made from. *)
Definition create_if_genesis_header_state (id : block_id_type) (h : block_header) (features : list digest_type)
    (schedule : producer_authority_schedule) (exts : list (Z * block_header_extension)) :
    result block_header_state :=
  ASSERT contains_header_extension h finality_extension_id ;;
  o ← extract_header_extension h finality_extension_id;
  match o with
  | Some (FinalityExt f_ext) =>
      d ← at_or_assert (new_finalizer_policy_diff f_ext);
      active ← finalizer_apply_diff (FinalizerPolicy 0 0 []) d;
      active_digest ← hash_packed c_finalizer_policy active;
      Ok (MkBlockHeaderState id h features (create_core_for_genesis_block id (header_timestamp h)) active
            (ProposerPolicy 0 schedule) None None [] None None 1 active_digest (header_timestamp h) exts)
  | _ => Throw assert_failed
  end.
End Digests.

(** ** Promotion of proposer policies, proofs *)

Lemma slot_chosen s ts slot :
  get_active_proposer_policy_for_block_at s ts = Ok slot -> slot <> SlotActive ->
  in_same_round ts (bhs_timestamp s) = false /\
  exists final, last_final_block_timestamp (core s) = Ok final /\
    match slot with
    | SlotActive => True
    | SlotProposed => forall p, latest_proposed_proposer_policy s = Some p -> proposal_time p <= final
    | SlotPending => forall p, latest_pending_proposer_policy s = Some p -> proposal_time p <= final
    end.
Proof.
  unfold get_active_proposer_policy_for_block_at. intros H Hne. inv_result.
  destruct (in_same_round _ _); [by injection H as <-|]. split; [done|].
  assert (Hd : exists final, last_final_block_timestamp (core s) = Ok final).
  { destruct (last_final_block_timestamp (core s)) as [final|]; [by exists final|].
    destruct (latest_proposed_proposer_policy s), (latest_pending_proposer_policy s); cbn in H; by simplify_eq. }
  destruct Hd as [final Hf]. rewrite Hf in H. exists final. split; [done|]. cbn [mbind result_bind] in H.
  destruct slot; [done|..]; intros p Ep; rewrite Ep in H.
  - destruct (get_prior_round_start_slot _); [destruct (Z.leb_spec (proposal_time p) final); [done|]|].
    all: rewrite ?andb_false_r in H; destruct (latest_pending_proposer_policy s) as [q|]; [destruct (_ <=? _)|]; done.
  - destruct (Z.leb_spec (proposal_time p) final); [done|].
    destruct (latest_proposed_proposer_policy s); [destruct (get_prior_round_start_slot _); [destruct (_ && _)|]|]; done.
Qed.

Lemma evaluate_proposer_spec s ts pp :
  evaluate_proposer_policies_for_promotion s ts
    (ProposerPolicies (active_proposer_policy s) (latest_proposed_proposer_policy s)
       (latest_pending_proposer_policy s)) = Ok pp ->
  bhs_timestamp s < ts /\ exists slot, get_active_proposer_policy_for_block_at s ts = Ok slot /\
    slot_policy s slot = Ok (pp_active pp) /\ (slot = SlotProposed -> pp_pending pp = None).
Proof.
  unfold evaluate_proposer_policies_for_promotion. intros H. inv_result. split; [lia|].
  exists x. split; [done|].
  destruct x; cbn [pp_proposed pp_pending] in *; cbn in E1; simplify_eq; repeat case_match; by simplify_eq.
Qed.

(** ** Promotion of finalizer policies, proofs *)

Lemma sublist_Forall {A} (P : A -> Prop) (l k : list A) : sublist l k -> Forall P k -> Forall P l.
Proof. induction 1; intros HF; inversion_clear HF; auto. Qed.

Lemma sublist_StronglySorted {A} (R : A -> A -> Prop) (l k : list A) :
  sublist l k -> StronglySorted R k -> StronglySorted R l.
Proof.
  induction 1 as [|x l k Hlk IH|x l k Hlk IH]; intros Hs; [done| |];
    apply StronglySorted_inv in Hs as [Hk Hx]; [constructor|]; auto. by eapply sublist_Forall.
Qed.

Lemma StronglySorted_app_r {A} (R : A -> A -> Prop) (l k : list A) :
  StronglySorted R (l ++ k) -> StronglySorted R k.
Proof. apply sublist_StronglySorted. by apply sublist_inserts_l. Qed.

Lemma StronglySorted_snoc {A} (R : A -> A -> Prop) (l : list A) x :
  StronglySorted R l -> Forall (fun y => R y x) l -> StronglySorted R (l ++ [x]).
Proof.
  induction 1 as [|y l Hl IH Hy]; cbn; intros H; [by repeat constructor|].
  inversion_clear H. constructor; [auto|]. apply Forall_app. split; [done|by constructor].
Qed.

Lemma StronglySorted_app_lt (l k : list Z) x y :
  StronglySorted Z.lt (l ++ k) -> x ∈ l -> y ∈ k -> x < y.
Proof.
  induction l as [|z l IH]; intros H Hx Hy; [by apply elem_of_nil in Hx|].
  apply StronglySorted_inv in H as [H Hz]. apply elem_of_cons in Hx as [->|Hx]; [|by apply IH].
  rewrite Forall_forall in Hz. apply Hz, elem_of_app. by right.
Qed.

Lemma split_reversible_spec lib l before after :
  split_reversible lib l = (before, after) ->
  l = before ++ after /\ Forall (fun p => p.1 <= lib) before /\ (forall p, head after = Some p -> lib < p.1).
Proof.
  revert before after. induction l as [|p l IH]; cbn [split_reversible]; intros before after H.
  { injection H as <- <-. by split_and!. }
  destruct (Z.ltb_spec lib p.1).
  { injection H as <- <-. split_and!; [done|done|]. by intros q [= <-]. }
  destruct (split_reversible lib l) as [b a]. injection H as <- <-.
  destruct (IH b a eq_refl) as (-> & Hb & Ha). split_and!; [done|by constructor|done].
Qed.

(** In ascending order, the split is by block number. *)
Lemma split_reversible_filter lib l before after :
  StronglySorted Z.lt (map fst l) -> split_reversible lib l = (before, after) ->
  before = filter (fun p => p.1 <= lib) l /\ after = filter (fun p => lib < p.1) l.
Proof.
  intros Hs H. apply split_reversible_spec in H as (-> & Hb & Ha). rewrite Forall_forall in Hb.
  assert (Hall : forall p, p ∈ after -> lib < p.1).
  { destruct after as [|q after]; [by intros p ?%elem_of_nil|]. specialize (Ha q eq_refl).
    rewrite map_app in Hs. apply StronglySorted_app_r in Hs. cbn in Hs.
    apply StronglySorted_inv in Hs as [_ Hs]. rewrite Forall_map, Forall_forall in Hs.
    intros p [->|Hp]%elem_of_cons; [done|]. specialize (Hs p Hp). cbn in Hs. lia. }
  rewrite !filter_app. rewrite (filter_all _ before) by done.
  rewrite (filter_none (fun p => p.1 <= lib) after) by (intros p Hp; specialize (Hall p Hp); lia).
  rewrite (filter_none (fun p => lib < p.1) before) by (intros p Hp; specialize (Hb p Hp); lia).
  rewrite (filter_all _ after) by done. by rewrite app_nil_r.
Qed.

(** The target: the last proposal of a block that is final. *)
Definition promotion_target (lib : Z) (proposed : list (Z * finalizer_policy)) : option (Z * finalizer_policy) :=
  last (filter (fun p => p.1 <= lib) proposed).

(** What [evaluate_finalizer_policies_for_promotion] makes, without its
    shortcuts. *)
Definition promoted (prev : block_header_state) (lib num : Z) (ts : block_timestamp_type) : finalizer_policy_state :=
  let target := promotion_target lib (proposed_finalizer_policies prev) in
  let rest := filter (fun p => lib < p.1) (proposed_finalizer_policies prev) in
  let start := last_pending_finalizer_policy_start_timestamp prev in
  match pending_finalizer_policy prev with
  | Some (n, p) =>
      if n <=? lib then
        match target with
        | Some t => FinalizerPolicyState p (Some (num, t.2)) rest ts
        | None => FinalizerPolicyState p None rest start
        end
      else FinalizerPolicyState (active_finalizer_policy prev) (Some (n, p)) (option_list target ++ rest) start
  | None =>
      match target with
      | Some t => FinalizerPolicyState (active_finalizer_policy prev) (Some (num, t.2)) rest ts
      | None => FinalizerPolicyState (active_finalizer_policy prev) None rest start
      end
  end.

Lemma promotion_eq prev lib num ts :
  StronglySorted Z.lt (map fst (proposed_finalizer_policies prev)) ->
  evaluate_finalizer_policies_for_promotion prev lib num ts
    (FinalizerPolicyState (active_finalizer_policy prev) None [] (last_pending_finalizer_policy_start_timestamp prev))
  = promoted prev lib num ts.
Proof.
  intros Hs. unfold evaluate_finalizer_policies_for_promotion, promoted, promotion_target.
  destruct (split_reversible lib (proposed_finalizer_policies prev)) as [before after] eqn:E.
  destruct (split_reversible_filter _ _ _ _ Hs E) as [<- <-].
  pose proof (proj1 (split_reversible_spec _ _ _ _ E)) as Eq.
  assert (Hnil : proposed_finalizer_policies prev = [] -> before = [] /\ after = []).
  { intros El. rewrite El in Eq. symmetry in Eq. by apply app_eq_nil in Eq. }
  assert (Hafter : last before = None -> after = proposed_finalizer_policies prev).
  { intros ->%last_None. done. }
  destruct (proposed_finalizer_policies prev) as [|q l]; [destruct Hnil as [-> ->]; [done|]|];
    destruct (pending_finalizer_policy prev) as [[n p]|]; cbn [fst snd]; try done;
    try (destruct (n <=? lib); [|]); cbn [last]; try done;
    cbv beta iota; rewrite ?E; destruct (last before) as [t|]; try done; by rewrite Hafter.
Qed.

Lemma target_rest_sublist lib (l : list (Z * finalizer_policy)) :
  StronglySorted Z.lt (map fst l) ->
  sublist (option_list (promotion_target lib l) ++ filter (fun p => lib < p.1) l) l.
Proof.
  intros Hs. unfold promotion_target. destruct (split_reversible lib l) as [before after] eqn:E.
  destruct (split_reversible_filter _ _ _ _ Hs E) as [<- <-].
  rewrite (proj1 (split_reversible_spec _ _ _ _ E)). apply sublist_app; [|done].
  destruct (last before) as [t|] eqn:Et; cbn; [|apply sublist_nil_l].
  apply last_Some in Et as [b ->]. by apply sublist_inserts_l.
Qed.

Lemma promotion_target_le lib l t : promotion_target lib l = Some t -> t ∈ l /\ t.1 <= lib.
Proof.
  unfold promotion_target. intros H. apply last_Some_elem_of, list_elem_of_filter in H. tauto.
Qed.

Lemma promoted_proposed prev lib num ts :
  StronglySorted Z.lt (map fst (proposed_finalizer_policies prev)) ->
  sublist (fp_proposed (promoted prev lib num ts)) (proposed_finalizer_policies prev).
Proof.
  intros Hs. pose proof (target_rest_sublist lib _ Hs) as Hsub.
  assert (Hrest : sublist (filter (fun p => lib < p.1) (proposed_finalizer_policies prev)) (proposed_finalizer_policies prev)).
  { etransitivity; [|exact Hsub]. by apply sublist_inserts_l. }
  unfold promoted. destruct (pending_finalizer_policy prev) as [[n p]|]; [destruct (n <=? lib)|];
    destruct (promotion_target lib (proposed_finalizer_policies prev)); cbn in *; done.
Qed.

(** What is newly pending was the last proposal that is final. *)
Lemma promoted_pending prev lib num ts n p :
  StronglySorted Z.lt (map fst (proposed_finalizer_policies prev)) ->
  Some (n, p) = fp_pending (promoted prev lib num ts) ->
  pending_finalizer_policy prev = Some (n, p) \/
  n = num /\ exists k, (k, p) ∈ proposed_finalizer_policies prev /\ k <= lib /\
    forall q, q ∈ proposed_finalizer_policies prev -> q.1 <= lib -> q.1 <= k.
Proof.
  intros Hs H.
  assert (Ht : pending_finalizer_policy prev = Some (n, p) \/ exists t,
    promotion_target lib (proposed_finalizer_policies prev) = Some t /\ n = num /\ p = t.2).
  { unfold promoted in H. destruct (promotion_target lib (proposed_finalizer_policies prev)) as [t|];
      destruct (pending_finalizer_policy prev) as [[n' p']|]; try destruct (n' <=? lib); cbn in H; simplify_eq; eauto. }
  destruct Ht as [?|([k p'] & Ht & -> & ->)]; [by left|]. right. split; [done|]. exists k.
  destruct (promotion_target_le _ _ _ Ht) as [Hin Hle]. cbn in *. split_and!; [done|done|].
  intros q Hq Hql. unfold promotion_target in Ht. apply last_Some in Ht as [l El].
  assert (Hq' : q ∈ l ++ [(k, p')]) by (rewrite <- El; by apply list_elem_of_filter).
  assert (Hs' : StronglySorted Z.lt (map fst (l ++ [(k, p')]))).
  { rewrite <- El. eapply sublist_StronglySorted; [|exact Hs]. apply (fmap_sublist fst), sublist_filter. }
  apply elem_of_app in Hq' as [Hq'|Hq']; [|apply list_elem_of_singleton in Hq' as ->; cbn; lia].
  rewrite map_app in Hs'. assert (q.1 < k); [|lia].
  apply (StronglySorted_app_lt (map fst l) [k]); [done| |by left]. apply list_elem_of_fmap. by exists q.
Qed.

Definition fp_generations (x : finalizer_policy_state) : list Z :=
  generation (fp_active x)
  :: match fp_pending x with Some p => [generation p.2] | None => [] end
  ++ map (fun p => generation p.2) (fp_proposed x).

(** ** Invariants of a chain of header states *)

Section Chain.
Context {hasher : Sha256Hash} {words : Sha256Words hasher} {bls : BlsKeyValid}.
Implicit Types s t u : block_header_state.

(** A step of the chain: the header names its parent, and block numbers do not
    overflow. *)
Definition bhs_step s s' : Prop :=
  exists hdr exts features f_ext, finish_next s hdr exts features f_ext = Ok s' /\
    previous hdr = id s /\ bhs_block_num s < uint32_max.

(** A genesis state; the legacy state machine numbers its block after the
    parent and gives the first finalizer policy generation 1. *)
Definition bhs_genesis s : Prop :=
  exists i h features schedule exts, create_if_genesis_header_state i h features schedule exts = Ok s /\
    num_from_id i = header_block_num h /\ generation (active_finalizer_policy s) = 1.

(** [bhs_chain ancestors s]: the states since genesis, oldest first, and [s]. *)
Inductive bhs_chain : list block_header_state -> block_header_state -> Prop :=
| chain_genesis s : bhs_genesis s -> bhs_chain [] s
| chain_next ancestors s s' : bhs_chain ancestors s -> bhs_step s s' -> bhs_chain (ancestors ++ [s]) s'.

Definition pending_list s : list finalizer_policy :=
  match pending_finalizer_policy s with Some p => [p.2] | None => [] end.

(** The generations of the policies in flight, in the order of their stages. *)
Definition generations s : list Z :=
  generation (active_finalizer_policy s) :: map generation (pending_list s)
    ++ map (fun p => generation p.2) (proposed_finalizer_policies s).

Lemma promoted_generations prev lib num ts :
  StronglySorted Z.lt (map fst (proposed_finalizer_policies prev)) ->
  sublist (fp_generations (promoted prev lib num ts)) (generations prev).
Proof.
  intros Hs. pose proof (target_rest_sublist lib _ Hs) as Hsub.
  apply (fmap_sublist (fun p => generation p.2)) in Hsub. rewrite fmap_app in Hsub.
  unfold promoted, fp_generations, generations, pending_list.
  destruct (promotion_target lib (proposed_finalizer_policies prev)) as [t|];
    destruct (pending_finalizer_policy prev) as [[n p]|]; try destruct (n <=? lib);
    cbn [fp_active fp_pending fp_proposed option_list app map snd fmap list_fmap] in *;
    repeat first [apply sublist_skip|exact Hsub|apply sublist_cons].
Qed.

Record generations_ok s : Prop := {
  go_sorted : StronglySorted Z.lt (generations s);
  go_pos : 1 <= generation (active_finalizer_policy s);
  go_blocks : StronglySorted Z.lt (map fst (proposed_finalizer_policies s));
  go_blocks_max : Forall (fun p => p.1 <= bhs_block_num s) (proposed_finalizer_policies s);
  go_max : Forall (fun g => g <= finalizer_policy_generation s) (generations s)
}.

(** [s] still has the policies of its ancestor [t]: either they are in force,
    or the one pending at [t] replaced the one active at [t], and that one is
    kept for quorum certificates. *)
Definition covered t s : Prop :=
  (active_finalizer_policy t = active_finalizer_policy s /\
    (pending_finalizer_policy t = None \/ pending_finalizer_policy t = pending_finalizer_policy s)) \/
  (1 <= generation (active_finalizer_policy t) < generation (active_finalizer_policy s) /\
    latest_qc_claim_block_active_finalizer_policy s = Some (active_finalizer_policy t) /\
    exists b, pending_finalizer_policy t = Some (b, active_finalizer_policy s)).

Record chain_inv (ancestors : list block_header_state) s (f b : qc_link) : Prop := {
  ci_shape : core_shape (core s) f b;
  ci_num : source_block_num b = bhs_block_num s;
  ci_id : forall t, t ∈ ancestors ++ [s] -> num_from_id (id t) = bhs_block_num t;
  ci_refs : forall r, r ∈ refs (core s) -> exists t, t ∈ ancestors /\ make_block_ref t = Ok r;
  ci_older : forall t, t ∈ ancestors -> bhs_block_num t < bhs_block_num s;
  ci_mono : forall t u, t ∈ ancestors ++ [s] -> u ∈ ancestors ++ [s] -> bhs_block_num t <= bhs_block_num u ->
    generation (active_finalizer_policy t) <= generation (active_finalizer_policy u);
  ci_pending : forall n p t, pending_finalizer_policy s = Some (n, p) -> t ∈ ancestors -> n <= bhs_block_num t ->
    active_finalizer_policy t = active_finalizer_policy s /\ pending_finalizer_policy t = Some (n, p);
  ci_covered : forall t, t ∈ ancestors -> target_block_num b <= bhs_block_num t -> covered t s;
  ci_generations : generations_ok s
}.

Lemma covered_refl s : covered s s.
Proof. left. auto. Qed.

Lemma make_block_ref_Ok t r :
  make_block_ref t = Ok r ->
  block_id r = id t /\ timestamp r = bhs_timestamp t /\ compute_finality_digest t = Ok (finality_digest r) /\
  active_policy_generation r = generation (active_finalizer_policy t) /\
  pending_policy_generation r = match pending_finalizer_policy t with Some p => generation p.2 | None => 0 end.
Proof. unfold make_block_ref. intros (d & Hd & [= <-])%bind_Ok. by split_and!. Qed.

Lemma pending_generation s n p :
  generations_ok s -> pending_finalizer_policy s = Some (n, p) ->
  generation (active_finalizer_policy s) < generation p.
Proof.
  intros [Hs _ _ _ _] E. unfold generations, pending_list in Hs. rewrite E in Hs. cbn in Hs.
  apply StronglySorted_inv in Hs as [_ Hs]. by apply Forall_inv in Hs.
Qed.

(** The policies of a covered ancestor are retrieved. *)
Lemma get_finalizer_policies_covered t s f b r :
  core_shape (core s) f b -> source_block_num b = bhs_block_num s -> generations_ok s ->
  covered t s -> make_block_ref t = Ok r ->
  target_block_num b <= block_num r <= bhs_block_num s ->
  get_finalizer_policies s r
  = Ok (FinalizerPolicies (finality_digest r) (active_finalizer_policy t) (snd <$> pending_finalizer_policy t)).
Proof.
  intros S Hnum Hg Hcov (Hid & _ & _ & Ha & Hp)%make_block_ref_Ok Hr. unfold get_finalizer_policies.
  rewrite (latest_qc_claim_Ok S), (current_block_num_Ok S). cbn [mbind result_bind claim_block_num].
  assert (E : match links (core s) with
    | [] => Ok true
    | _ => Ok ((target_block_num b <=? block_num r) && (block_num r <=? source_block_num b)) end = Ok true).
  { destruct (links (core s)); [done|]. f_equal. lia. }
  rewrite E. cbn [mbind result_bind]. rewrite Ha, Hp. pose proof (go_pos _ Hg) as Hpos.
  assert (Hpend : forall n p, pending_finalizer_policy s = Some (n, p) ->
    generation (active_finalizer_policy s) < generation p) by by intros; eapply pending_generation.
  destruct Hcov as [[Eq Hpp]|(Hlt & El & n & Ep)].
  - rewrite Eq. pass_with ltac:(lia). rewrite Z.eqb_refl. cbn [mbind result_bind].
    destruct Hpp as [->| ->]; [done|]. destruct (pending_finalizer_policy s) as [[n p]|] eqn:E'; [|done].
    specialize (Hpend n p eq_refl). cbn [snd].
    destruct (Z.eqb_spec (generation p) 0); [lia|].
    destruct (Z.eqb_spec (generation p) (generation (active_finalizer_policy s))); [lia|].
    by rewrite !Z.eqb_refl.
  - destruct (Z.eqb_spec (generation (active_finalizer_policy t)) 0); [lia|]. cbn [negb].
    destruct (Z.eqb_spec (generation (active_finalizer_policy s)) (generation (active_finalizer_policy t))); [lia|].
    pass_with ltac:(destruct (pending_finalizer_policy s) as [[n' p]|] eqn:E'; [specialize (Hpend _ _ eq_refl); cbn; lia|done]).
    rewrite El, Z.eqb_refl. cbn [mbind result_bind]. rewrite Ep. cbn [snd].
    destruct (Z.eqb_spec (generation (active_finalizer_policy s)) 0); [lia|].
    by rewrite Z.eqb_refl.
Qed.

(** [finish_next], one part of the state at a time. *)
Record next_spec s (hdr : block_header) (f_ext : finality_extension) s' : Prop := {
  ns_header : header s' = hdr;
  ns_id : calculate_id hdr = Ok (id s');
  ns_proposer : exists pp,
    evaluate_proposer_policies_for_promotion s (header_timestamp hdr)
      (ProposerPolicies (active_proposer_policy s) (latest_proposed_proposer_policy s)
         (latest_pending_proposer_policy s)) = Ok pp /\
    active_proposer_policy s' = pp_active pp /\ latest_pending_proposer_policy s' = pp_pending pp /\
    match new_proposer_policy_diff f_ext with
    | Some d => exists p, proposer_apply_diff (get_last_proposed_proposer_policy s) d = Ok p /\
        latest_proposed_proposer_policy s' = Some p
    | None => latest_proposed_proposer_policy s' = pp_proposed pp
    end;
  ns_core : exists blk, make_block_ref s = Ok blk /\
    FinalityCore.next (core s) blk (qc_claim f_ext) = Ok (core s');
  ns_finalizer : exists lib, last_final_block_num (core s') = Ok lib /\
    let fp := evaluate_finalizer_policies_for_promotion s lib (header_block_num hdr) (header_timestamp hdr)
                (FinalizerPolicyState (active_finalizer_policy s) None []
                   (last_pending_finalizer_policy_start_timestamp s)) in
    active_finalizer_policy s' = fp_active fp /\ pending_finalizer_policy s' = fp_pending fp /\
    match new_finalizer_policy_diff f_ext with
    | Some d => exists p, finalizer_apply_diff (get_last_proposed_finalizer_policy s) d = Ok p /\
        finalizer_policy_generation s < generation p /\ finalizer_policy_generation s' = generation p /\
        proposed_finalizer_policies s' = fp_proposed fp ++ [(header_block_num hdr, p)]
    | None => proposed_finalizer_policies s' = fp_proposed fp /\
        finalizer_policy_generation s' = finalizer_policy_generation s
    end;
  ns_claim : exists claim g, latest_qc_claim (core s') = Ok claim /\
    get_active_finalizer_policy_generation s (claim_block_num claim) = Ok g /\
    if g =? generation (active_finalizer_policy s') then latest_qc_claim_block_active_finalizer_policy s' = None
    else exists ref policies, get_block_reference (core s') (claim_block_num claim) = Ok ref /\
      get_finalizer_policies s ref = Ok policies /\
      latest_qc_claim_block_active_finalizer_policy s' = Some (Qc.active_finalizer_policy policies)
}.

Lemma finish_next_exts s hdr exts features f_ext s' :
  finish_next s hdr exts features f_ext = Ok s' -> header_exts s' = exts.
Proof.
  unfold finish_next. intros H. repeat (apply bind_Ok in H as (? & _ & H)). by injection H as <-.
Qed.

Lemma finish_next_spec s hdr exts features f_ext s' :
  finish_next s hdr exts features f_ext = Ok s' -> next_spec s hdr f_ext s'.
Proof.
  unfold finish_next.
  intros (feats & _ & (pp & Hpp & (proposed & Hproposed & (blk & Hblk & (c' & Hc & (lib & Hlib & H)%bind_Ok)%bind_Ok)%bind_Ok)%bind_Ok)%bind_Ok)%bind_Ok.
  cbv zeta in H. apply bind_Ok in H. destruct H as (dig & _ & (nf & Hnf & (claim & Hclaim & (g & Hg & (cp & Hcp & (i & Hi & [= <-])%bind_Ok)%bind_Ok)%bind_Ok)%bind_Ok)%bind_Ok).
  constructor; cbn [header id active_proposer_policy latest_pending_proposer_policy
    latest_proposed_proposer_policy core active_finalizer_policy pending_finalizer_policy
    proposed_finalizer_policies finalizer_policy_generation latest_qc_claim_block_active_finalizer_policy]; try done.
  - exists pp. split_and!; try done. destruct (new_proposer_policy_diff f_ext) as [d|]; [|by injection Hproposed].
    apply bind_Ok in Hproposed as (p & Hp & [= <-]). by exists p.
  - by exists blk.
  - exists lib. split; [done|]. cbv zeta. split_and!; [done|done|].
    destruct (new_finalizer_policy_diff f_ext) as [d|]; [|injection Hnf as <-; done].
    apply bind_Ok in Hnf as (p & Hp & Hn). exists p. inv_result. split_and!; [done|lia|done|done].
  - exists claim, g. split_and!; [done|done|]. destruct (g =? _); cbn [negb] in Hcp; [by injection Hcp|].
    apply bind_Ok in Hcp as (ref & Href & Hcp). apply bind_Ok in Hcp as (pols & Hpols & [= <-]). by exists ref, pols.
Qed.

(** ** The invariant is kept *)

Lemma create_genesis_fields i h features schedule exts s :
  create_if_genesis_header_state i h features schedule exts = Ok s ->
  header s = h /\ core s = create_core_for_genesis_block i (header_timestamp h).
Proof.
  unfold create_if_genesis_header_state. intros H. inv_result.
  destruct x as [[| |fe]|]; try done. apply bind_Ok in H as (d & _ & H). apply bind_Ok in H as (a & _ & H).
  apply bind_Ok in H as (g & _ & [= <-]). done.
Qed.

Lemma genesis_inv s : bhs_genesis s -> exists f b, chain_inv [] s f b.
Proof.
  intros (i & h & features & schedule & exts & H & Hnum & Hgen). unfold create_if_genesis_header_state in H.
  apply (f_equal (fun r => match r with Ok s => Some s | Throw _ => None end)) in H.
  destruct (contains_header_extension h finality_extension_id); [|done].
  destruct (extract_header_extension h finality_extension_id) as [[[| |fe]|]|]; try done. cbn [mbind result_bind] in H.
  destruct (new_finalizer_policy_diff fe) as [d|]; [|done]. cbn [at_or_assert mbind result_bind] in H.
  destruct (finalizer_apply_diff _ d) as [active|]; [|done]. cbn [mbind result_bind] in H.
  destruct (hash_packed c_finalizer_policy active) as [dg|]; [|done]. cbn [mbind result_bind] in H.
  injection H as <-. cbn [active_finalizer_policy] in Hgen. eexists _, _. constructor; cbn [core id].
  - apply genesis_core_shape.
  - cbn. exact Hnum.
  - intros t ->%list_elem_of_singleton. cbn. exact Hnum.
  - intros r Hr. by apply elem_of_nil in Hr.
  - intros t Ht. by apply elem_of_nil in Ht.
  - intros t u ->%list_elem_of_singleton ->%list_elem_of_singleton _. done.
  - done.
  - intros t Ht. by apply elem_of_nil in Ht.
  - constructor; cbn; unfold generations, pending_list; cbn; rewrite ?Hgen; try done; repeat constructor; lia.
Qed.

Section Step.
Context {ancestors : list block_header_state} {s s' : block_header_state} {f b : qc_link}
  {hdr : block_header} {f_ext : finality_extension}.
Context (I : chain_inv ancestors s f b) (N : next_spec s hdr f_ext s').
Context (Hprev : previous hdr = id s) (Hmax : bhs_block_num s < uint32_max).

Lemma s_in_history : s ∈ ancestors ++ [s].
Proof. apply elem_of_app. right. by apply list_elem_of_singleton. Qed.

Lemma s_id : num_from_id (id s) = bhs_block_num s.
Proof. apply (ci_id _ _ _ _ I), s_in_history. Qed.

Lemma block_num_u32 t : u32 (bhs_block_num t).
Proof. apply wrap32_u32. Qed.

Lemma header_num : header_block_num hdr = bhs_block_num s + 1.
Proof.
  unfold header_block_num. rewrite Hprev, s_id. apply wrap32_id.
  pose proof (block_num_u32 s). unfold u32, uint32_max in *. lia.
Qed.

Lemma next_num : bhs_block_num s' = bhs_block_num s + 1.
Proof. unfold bhs_block_num at 1. rewrite (ns_header _ _ _ _ N). apply header_num. Qed.

Lemma next_id : num_from_id (id s') = bhs_block_num s'.
Proof.
  pose proof (ns_id _ _ _ _ N) as H. apply calculate_id_Ok in H as (bs & _ & ->).
  rewrite num_from_id_from_digest; [by unfold bhs_block_num; rewrite (ns_header _ _ _ _ N)| |apply wrap32_u32].
  apply sha256_words.
Qed.

(** The core of the next state. *)
Lemma next_state_core : exists f' b',
  core_shape (core s') f' b' /\ source_block_num b' = bhs_block_num s' /\
  target_block_num b' = claim_block_num (qc_claim f_ext) /\
  target_block_num b <= target_block_num b' <= bhs_block_num s /\
  target_block_num f' <= target_block_num b' /\
  (forall r, r ∈ refs (core s') -> exists t, t ∈ ancestors ++ [s] /\ make_block_ref t = Ok r).
Proof.
  destruct (ns_core _ _ _ _ N) as (blk & Hblk & Hnext). pose proof (ci_shape _ _ _ _ I) as S.
  pose proof (make_block_ref_Ok _ _ Hblk) as (Hid & _).
  assert (Hn : block_num blk = bhs_block_num s) by (unfold block_num; rewrite Hid; apply s_id).
  assert (Hm : block_num blk < uint32_max) by lia.
  pose proof (next_Ok_pre _ _ _ _ _ _ S Hm Hnext) as Hpre.
  destruct (next_pre_Ok _ _ _ _ _ S Hpre) as (l & _ & E & S' & _ & _). rewrite E in Hnext. injection Hnext as Hc.
  rewrite <- Hc. eexists _, _. split_and!; [exact S'|cbn..].
  - rewrite next_num, (ci_num _ _ _ _ I). lia.
  - done.
  - destruct Hpre as [_ _ _ _ (latest & Hl & Hle)]. rewrite (latest_qc_claim_Ok S) in Hl. injection Hl as <-.
    apply qc_claim_leb_num in Hle. exact Hle.
  - pose proof (np_claim_num _ _ _ Hpre). lia.
  - pose proof (cs_inv2 _ _ _ S'). cbn in *. lia.
  - intros r [Hr|Hr]%elem_of_app.
    + apply list_elem_of_lookup in Hr as [i Hi]. rewrite lookup_drop in Hi. apply list_elem_of_lookup_2 in Hi.
      destruct (ci_refs _ _ _ _ I r Hi) as (t & Ht & Et). exists t. split; [|done]. apply elem_of_app. by left.
    + apply list_elem_of_singleton in Hr as ->. exists s. split; [apply s_in_history|done].
Qed.

Lemma history_covered t : t ∈ ancestors ++ [s] -> target_block_num b <= bhs_block_num t -> covered t s.
Proof.
  intros [Ht|Ht]%elem_of_app Hb; [by apply (ci_covered _ _ _ _ I)|].
  apply list_elem_of_singleton in Ht as ->. apply covered_refl.
Qed.

Lemma history_older t : t ∈ ancestors ++ [s] -> bhs_block_num t <= bhs_block_num s.
Proof.
  intros [Ht|Ht]%elem_of_app; [pose proof (ci_older _ _ _ _ I t Ht); lia|].
  apply list_elem_of_singleton in Ht as ->. lia.
Qed.

(** A block of the history that claims are about has one active policy. *)
Lemma history_generation n g :
  target_block_num b <= n -> get_active_finalizer_policy_generation s n = Ok g ->
  exists u, u ∈ ancestors ++ [s] /\ bhs_block_num u = n /\ g = generation (active_finalizer_policy u).
Proof.
  intros Hn H. unfold get_active_finalizer_policy_generation in H. inv_result.
  destruct (Z.eqb_spec n (bhs_block_num s)) as [->|Hne].
  - injection H as <-. exists s. split_and!; [apply s_in_history|done|done].
  - inv_result. pose proof (ci_shape _ _ _ _ I) as S. pose proof (cs_inv2 _ _ _ S).
    destruct (get_block_reference_Ok S n) as (r & Hr & Hlook & Hnum).
    + unfold get_block_reference in E1. rewrite (last_final_block_num_Ok S), (current_block_num_Ok S) in E1.
      cbn in E1. inv_result. lia.
    + rewrite Hr in E1. injection E1 as ->. apply list_elem_of_lookup_2 in Hlook.
      destruct (ci_refs _ _ _ _ I _ Hlook) as (u & Hu & Eu). exists u.
      apply make_block_ref_Ok in Eu as (Hid & _ & _ & -> & _). split_and!; [apply elem_of_app; by left| |done].
      rewrite <- (ci_id _ _ _ _ I u) by (apply elem_of_app; by left). rewrite <- Hid. done.
Qed.

Lemma next_promoted lib :
  last_final_block_num (core s') = Ok lib ->
  let fp := promoted s lib (bhs_block_num s') (bhs_timestamp s') in
  active_finalizer_policy s' = fp_active fp /\ pending_finalizer_policy s' = fp_pending fp /\
  (proposed_finalizer_policies s' = fp_proposed fp /\
     finalizer_policy_generation s' = finalizer_policy_generation s \/
   exists p, finalizer_policy_generation s < generation p /\ finalizer_policy_generation s' = generation p /\
     proposed_finalizer_policies s' = fp_proposed fp ++ [(bhs_block_num s', p)]).
Proof.
  intros Hlib. destruct (ns_finalizer _ _ _ _ N) as (lib' & Hlib' & H). rewrite Hlib in Hlib'. injection Hlib' as <-.
  cbv zeta in *. rewrite promotion_eq in H by apply (ci_generations _ _ _ _ I).
  unfold bhs_block_num, bhs_timestamp. rewrite (ns_header _ _ _ _ N). destruct H as (H1 & H2 & H3).
  split_and!; [done|done|]. destruct (new_finalizer_policy_diff f_ext); [right|by left].
  destruct H3 as (p & _ & ? & ? & ?). by exists p.
Qed.

(** The pending policy becomes active, or everything active or pending stays. *)
Lemma next_active lib :
  last_final_block_num (core s') = Ok lib ->
  (exists n, n <= lib /\ pending_finalizer_policy s = Some (n, active_finalizer_policy s')) \/
  active_finalizer_policy s' = active_finalizer_policy s /\
  (pending_finalizer_policy s = None \/ pending_finalizer_policy s' = pending_finalizer_policy s).
Proof.
  intros Hlib. destruct (next_promoted lib Hlib) as (-> & -> & _). unfold promoted.
  destruct (pending_finalizer_policy s) as [[n p]|].
  - destruct (Z.leb_spec n lib); [left; exists n|right]; destruct (promotion_target _ _); by auto.
  - right. destruct (promotion_target _ _); by auto.
Qed.

(** What is pending is what was pending, or became so in this block. *)
Lemma next_pending lib n p :
  last_final_block_num (core s') = Ok lib -> pending_finalizer_policy s' = Some (n, p) ->
  n = bhs_block_num s' \/
  pending_finalizer_policy s = Some (n, p) /\ active_finalizer_policy s' = active_finalizer_policy s.
Proof.
  intros Hlib. destruct (next_promoted lib Hlib) as (-> & -> & _). unfold promoted.
  destruct (pending_finalizer_policy s) as [[n' p']|].
  - destruct (n' <=? lib); destruct (promotion_target _ _); cbn; intros [= <- <-]; auto.
  - destruct (promotion_target _ _); cbn; [intros [= <- <-]|done]; auto.
Qed.

Lemma next_generations lib : last_final_block_num (core s') = Ok lib -> generations_ok s'.
Proof.
  intros Hlib. destruct (next_promoted lib Hlib) as (Ha & Hp & Hq).
  pose proof (ci_generations _ _ _ _ I) as [Gs Gp Gb Gm Gx].
  pose proof (promoted_generations s lib (bhs_block_num s') (bhs_timestamp s') Gb) as Hsub.
  set (fp := promoted s lib (bhs_block_num s') (bhs_timestamp s')) in *.
  assert (Gs' : StronglySorted Z.lt (fp_generations fp)) by by eapply sublist_StronglySorted.
  assert (Gx' : Forall (fun g => g <= finalizer_policy_generation s) (fp_generations fp)) by by eapply sublist_Forall.
  assert (Gp' : Forall (fun g => 1 <= g) (fp_generations fp)).
  { eapply sublist_Forall; [exact Hsub|]. apply StronglySorted_inv in Gs as [_ Gs]. constructor; [done|].
    eapply Forall_impl; [exact Gs|]. cbn. lia. }
  pose proof (promoted_proposed s lib (bhs_block_num s') (bhs_timestamp s') Gb) as Hpr. fold fp in Hpr.
  assert (Gb' : StronglySorted Z.lt (map fst (fp_proposed fp))).
  { eapply sublist_StronglySorted; [|exact Gb]. by apply (fmap_sublist fst). }
  assert (Gm' : Forall (fun p => p.1 <= bhs_block_num s) (fp_proposed fp)) by by eapply sublist_Forall.
  assert (Eg : forall l, proposed_finalizer_policies s' = fp_proposed fp ++ l ->
    generations s' = fp_generations fp ++ map (fun p => generation p.2) l).
  { intros l El. unfold generations, pending_list, fp_generations. rewrite Ha, Hp, El, map_app.
    by destruct (fp_pending fp) as [[n p]|]. }
  pose proof next_num as Hn. constructor.
  - destruct Hq as [[Eq Ef]|(p & Hlt & Ef & Eq)].
    + rewrite (Eg []); [by rewrite app_nil_r|by rewrite app_nil_r].
    + rewrite (Eg _ Eq). apply StronglySorted_snoc; [done|].
      eapply Forall_impl; [exact Gx'|]. cbn. lia.
  - rewrite Ha. by apply Forall_inv in Gp'.
  - destruct Hq as [[-> _]|(p & _ & _ & ->)]; [done|]. rewrite map_app. apply StronglySorted_snoc; [done|].
    rewrite Forall_map. eapply Forall_impl; [exact Gm'|]. cbn. lia.
  - destruct Hq as [[-> _]|(p & _ & _ & ->)]; [|apply Forall_app; split; [|by constructor; [cbn; lia|]]];
      (eapply Forall_impl; [exact Gm'|]; cbn; lia).
  - destruct Hq as [[Eq Ef]|(p & Hlt & Ef & Eq)]; rewrite Ef.
    + rewrite (Eg []); [by rewrite app_nil_r|by rewrite app_nil_r].
    + rewrite (Eg _ Eq). apply Forall_app. split; [|constructor; [cbn; lia|constructor]].
      eapply Forall_impl; [exact Gx'|]. cbn. lia.
Qed.

Section NextCore.
Context {f' b' : qc_link} (S' : core_shape (core s') f' b') (Hsrc : source_block_num b' = bhs_block_num s').
Context (Hclaim : target_block_num b <= target_block_num b' <= bhs_block_num s).
Context (Hfinal : target_block_num f' <= target_block_num b').
Context (Hrefs : forall r, r ∈ refs (core s') -> exists t, t ∈ ancestors ++ [s] /\ make_block_ref t = Ok r).

Lemma next_last_final : last_final_block_num (core s') = Ok (target_block_num f').
Proof. apply (last_final_block_num_Ok S'). Qed.

(** The policy that was active at the claimed block is kept when a later one
    is active now. *)
Lemma kept_policy t :
  t ∈ ancestors ++ [s] -> target_block_num b' <= bhs_block_num t ->
  generation (active_finalizer_policy t) < generation (active_finalizer_policy s') ->
  exists v, v ∈ ancestors ++ [s] /\ bhs_block_num v = target_block_num b' /\
    latest_qc_claim_block_active_finalizer_policy s' = Some (active_finalizer_policy v).
Proof.
  intros Ht Hnum Hlt. destruct (ns_claim _ _ _ _ N) as (claim & g & Hc & Hg & H).
  rewrite (latest_qc_claim_Ok S') in Hc. injection Hc as <-. cbn [claim_block_num] in *.
  destruct (history_generation _ _ (proj1 Hclaim) Hg) as (u & Hu & Hun & ->).
  pose proof (ci_mono _ _ _ _ I u t Hu Ht ltac:(lia)).
  destruct (Z.eqb_spec (generation (active_finalizer_policy u)) (generation (active_finalizer_policy s'))); [lia|].
  destruct H as (ref & policies & Href & Hpol & ->).
  destruct (get_block_reference_Ok S' (target_block_num b')) as (r & Hr & Hlook & Hrn); [rewrite Hsrc, next_num; lia|].
  rewrite Hr in Href. injection Href as ->. apply list_elem_of_lookup_2 in Hlook.
  destruct (Hrefs _ Hlook) as (v & Hv & Ev). pose proof (make_block_ref_Ok _ _ Ev) as (Hvid & _).
  assert (Hvn : bhs_block_num v = target_block_num b').
  { rewrite <- (ci_id _ _ _ _ I v Hv), <- Hvid. exact Hrn. }
  exists v. split_and!; [done|done|].
  rewrite (get_finalizer_policies_covered v s f b ref (ci_shape _ _ _ _ I) (ci_num _ _ _ _ I)
    (ci_generations _ _ _ _ I) ltac:(apply history_covered; [done|lia]) Ev ltac:(lia)) in Hpol.
  by injection Hpol as <-.
Qed.

Lemma next_covered t :
  t ∈ ancestors ++ [s] -> target_block_num b' <= bhs_block_num t -> covered t s'.
Proof.
  intros Ht Hnum. pose proof (ci_generations _ _ _ _ I) as G.
  destruct (next_active _ next_last_final) as [(n & Hn & Ep)|[Ea Ep]].
  - assert (Hold : forall v, v ∈ ancestors ++ [s] -> target_block_num b' <= bhs_block_num v ->
      active_finalizer_policy v = active_finalizer_policy s /\
      pending_finalizer_policy v = Some (n, active_finalizer_policy s')).
    { intros v [Hv|Hv]%elem_of_app Hvn; [apply (ci_pending _ _ _ _ I); [done|done|lia]|].
      apply list_elem_of_singleton in Hv as ->. done. }
    destruct (Hold t Ht Hnum) as [Et Ept]. pose proof (pending_generation _ _ _ G Ep) as Hlt.
    destruct (kept_policy t Ht Hnum) as (v & Hv & Hvn & Ek); [by rewrite Et|].
    right. destruct (Hold v Hv) as [Ev _]; [lia|]. rewrite Ek, Ev, Et. split_and!; [apply (go_pos _ G)|done|done|by exists n].
  - destruct (history_covered t Ht) as [[Eq Hp]|(Hlt & El & n & Ept)]; [lia| |].
    + left. rewrite Ea. split; [done|]. destruct Hp as [->| ->]; [by left|]. destruct Ep as [->| ->]; auto.
    + destruct (kept_policy t Ht Hnum) as (v & Hv & Hvn & Ek); [rewrite Ea; lia|].
      pose proof (ci_mono _ _ _ _ I v t Hv Ht ltac:(lia)).
      destruct (history_covered v Hv) as [[Eq _]|(_ & Elv & _)]; [lia|rewrite Eq in *; lia|].
      rewrite El in Elv. rewrite <- Elv in Ek. right. rewrite Ea. split_and!; [lia|lia|done|by exists n].
Qed.

Lemma next_mono t u :
  t ∈ (ancestors ++ [s]) ++ [s'] -> u ∈ (ancestors ++ [s]) ++ [s'] -> bhs_block_num t <= bhs_block_num u ->
  generation (active_finalizer_policy t) <= generation (active_finalizer_policy u).
Proof.
  pose proof next_num as Hn.
  assert (Hle : generation (active_finalizer_policy s) <= generation (active_finalizer_policy s')).
  { destruct (next_active _ next_last_final) as [(n & _ & Ep)|[-> _]]; [|lia].
    pose proof (pending_generation _ _ _ (ci_generations _ _ _ _ I) Ep). lia. }
  intros [Ht|Ht]%elem_of_app [Hu|Hu]%elem_of_app Htu; try apply list_elem_of_singleton in Ht as ->;
    try apply list_elem_of_singleton in Hu as ->; [by apply (ci_mono _ _ _ _ I)| | |done].
  - pose proof (ci_mono _ _ _ _ I t s Ht s_in_history (history_older t Ht)). lia.
  - pose proof (history_older u Hu). lia.
Qed.

Lemma step_inv : chain_inv (ancestors ++ [s]) s' f' b'.
Proof.
  pose proof next_num as Hn. constructor; [done|done| |done| |exact next_mono| |exact next_covered|].
  - intros t [Ht|Ht]%elem_of_app; [by apply (ci_id _ _ _ _ I)|]. apply list_elem_of_singleton in Ht as ->. apply next_id.
  - intros t Ht. pose proof (history_older t Ht). lia.
  - intros n p t Ep Ht Hnt. destruct (next_pending _ n p next_last_final Ep) as [->|[Eps ->]].
    + pose proof (history_older t Ht). lia.
    + apply elem_of_app in Ht as [Ht|Ht]; [by apply (ci_pending _ _ _ _ I)|].
      by apply list_elem_of_singleton in Ht as ->.
  - by eapply next_generations, next_last_final.
Qed.
End NextCore.
End Step.

Lemma chain_inv_reachable ancestors s : bhs_chain ancestors s -> exists f b, chain_inv ancestors s f b.
Proof.
  induction 1 as [s Hs|ancestors s s' _ (f & b & I) (hdr & exts & features & f_ext & H & Hprev & Hmax)].
  - by apply genesis_inv.
  - apply finish_next_spec in H.
    destruct (next_state_core I H Hprev Hmax) as (f' & b' & S' & Hsrc & _ & Hclaim & Hfinal & Hrefs).
    exists f', b'. by apply (step_inv I H Hprev Hmax S').
Qed.

(** Both ways to make a next state are steps of the chain. *)
Lemma next_assembled_step s s' input :
  next_assembled s input = Ok s' -> parent_id input = id s -> bhs_block_num s < uint32_max -> bhs_step s s'.
Proof.
  intros H Hp Hn. unfold next_assembled in H. do 4 (apply bind_Ok in H as (? & _ & H)).
  eexists _, _, _, _. split_and!; [exact H|exact Hp|done].
Qed.

Lemma next_received_step s s' h validator :
  next_received s h validator = Ok s' -> bhs_block_num s < uint32_max -> bhs_step s s'.
Proof.
  intros H Hn. unfold next_received in H. apply bind_Ok in H as (? & _ & H). inv_result.
  apply bool_decide_eq_true in E.
  destruct (find_extension x0 finality_extension_id) as [[| |fe]|]; try done.
  apply bind_Ok in H as (? & _ & H). eexists _, _, _, _. by split_and!.
Qed.

(** ** Properties *)

Lemma chain_covered ancestors s t claim :
  bhs_chain ancestors s -> t ∈ ancestors ++ [s] -> latest_qc_claim (core s) = Ok claim ->
  claim_block_num claim <= bhs_block_num t ->
  exists f b, chain_inv ancestors s f b /\ covered t s /\ target_block_num b <= bhs_block_num t <= bhs_block_num s.
Proof.
  intros Hc Ht Hl Hn. destruct (chain_inv_reachable _ _ Hc) as (f & b & I).
  rewrite (latest_qc_claim_Ok (ci_shape _ _ _ _ I)) in Hl. injection Hl as <-. cbn in Hn.
  exists f, b. split_and!; [done| |done|by apply (history_older I)].
  by apply (history_covered I).
Qed.

(** The states of a chain have different block numbers. *)
Lemma chain_nums ancestors s t u :
  bhs_chain ancestors s -> t ∈ ancestors ++ [s] -> u ∈ ancestors ++ [s] -> bhs_block_num t = bhs_block_num u -> t = u.
Proof.
  intros Hc. revert t u. induction Hc as [s _|ancestors s s' Hc IH Hs]; intros t u Ht Hu E.
  { apply list_elem_of_singleton in Ht as ->. by apply list_elem_of_singleton in Hu as ->. }
  destruct (chain_inv_reachable _ _ Hc) as (f & b & I).
  destruct Hs as (hdr & exts & features & f_ext & H & Hprev & Hmax). apply finish_next_spec in H.
  pose proof (next_num I H Hprev Hmax) as Hn.
  apply elem_of_app in Ht as [Ht|Ht], Hu as [Hu|Hu]; try apply list_elem_of_singleton in Ht as ->;
    try apply list_elem_of_singleton in Hu as ->; [by apply IH| | |done].
  - pose proof (history_older I t Ht). lia.
  - pose proof (history_older I u Hu). lia.
Qed.

(** The next state's number and last final block. *)
Lemma chain_step_numbers ancestors s s' :
  bhs_chain ancestors s -> bhs_step s s' ->
  exists lf lf' claim, last_final_block_num (core s) = Ok lf /\ last_final_block_num (core s') = Ok lf' /\
    latest_qc_claim (core s) = Ok claim /\
    lf <= lf' <= bhs_block_num s /\ 0 <= lf /\ bhs_block_num s' = bhs_block_num s + 1 /\ bhs_block_num s < uint32_max.
Proof.
  intros Hc (hdr & exts & features & f_ext & H & Hprev & Hmax). apply finish_next_spec in H.
  destruct (chain_inv_reachable _ _ Hc) as (f & b & I). pose proof (ci_shape _ _ _ _ I) as S.
  destruct (next_state_core I H Hprev Hmax) as (f' & b' & S' & _ & _ & Hclaim & Hfinal & _).
  destruct (ns_core _ _ _ _ H) as (blk & Hblk & Hnext). pose proof (make_block_ref_Ok _ _ Hblk) as (Hid & _).
  assert (Hm : block_num blk < uint32_max).
  { unfold block_num. rewrite Hid. rewrite (ci_id _ _ _ _ I s s_in_history). lia. }
  destruct (next_pre_Ok _ _ _ _ _ S (next_Ok_pre _ _ _ _ _ _ S Hm Hnext)) as (l & _ & E & Sl & _ & Hl).
  rewrite E in Hnext. injection Hnext as Ec. rewrite <- Ec in S'.
  pose proof (last_final_block_num_Ok S') as L1. rewrite (last_final_block_num_Ok Sl) in L1. injection L1 as L1.
  exists (target_block_num f), (target_block_num f'), (QcClaim (target_block_num b) (is_link_strong b)).
  pose proof (shape_front_ok S) as [Hf _].
  split_and!; [apply (last_final_block_num_Ok S)|rewrite <- Ec; apply (last_final_block_num_Ok S')|
    apply (latest_qc_claim_Ok S)|lia|lia|lia|by apply (next_num I H Hprev Hmax)|done].
Qed.

(** C30: For every block from the latest claimed one to the current one,
    [get_finalizer_policies] returns exactly the policies that were active and
    pending in that block's own state, however many promotions happened since:
    its assertions and its logic error are unreachable. *)
Theorem get_finalizer_policies_correct (ancestors : list block_header_state) (s t : block_header_state)
    (r : block_ref) (claim : qc_claim_t) :
  bhs_chain ancestors s -> t ∈ ancestors ++ [s] -> make_block_ref t = Ok r ->
  latest_qc_claim (core s) = Ok claim -> claim_block_num claim <= bhs_block_num t ->
  get_finalizer_policies s r
  = Ok (FinalizerPolicies (finality_digest r) (active_finalizer_policy t) (snd <$> pending_finalizer_policy t)).
Proof.
  intros Hc Ht Hr Hl Hn. destruct (chain_covered _ _ _ _ Hc Ht Hl Hn) as (f & b & I & Hcov & Hrange).
  apply (get_finalizer_policies_covered t s f b); [apply I..|done|done|].
  pose proof (make_block_ref_Ok _ _ Hr) as (Hid & _). unfold block_num. rewrite Hid.
  by rewrite (ci_id _ _ _ _ I t Ht).
Qed.

(** The life of a finalizer policy.  A policy becomes active only when it
    was pending and the block in which it became pending is final; it becomes
    pending only when it was the last proposed in a block that is final; there
    is one pending policy at most, and the generations of the active, the
    pending and the proposed policies are strictly ascending. *)
Theorem finalizer_policy_promotion (ancestors : list block_header_state) (s s' : block_header_state) :
  bhs_chain ancestors s -> bhs_step s s' ->
  exists lib, last_final_block_num (core s') = Ok lib /\
    ((exists n, n <= lib /\ pending_finalizer_policy s = Some (n, active_finalizer_policy s')) \/
     active_finalizer_policy s' = active_finalizer_policy s /\
     (pending_finalizer_policy s = None \/ pending_finalizer_policy s' = pending_finalizer_policy s)) /\
    (forall n p, pending_finalizer_policy s' = Some (n, p) ->
      pending_finalizer_policy s = Some (n, p) \/
      n = bhs_block_num s' /\ exists k, (k, p) ∈ proposed_finalizer_policies s /\ k <= lib /\
        forall q, q ∈ proposed_finalizer_policies s -> q.1 <= lib -> q.1 <= k) /\
    StronglySorted Z.lt (generations s') /\ Forall (fun g => 1 <= g <= finalizer_policy_generation s') (generations s').
Proof.
  intros Hc Hs. destruct (chain_inv_reachable _ _ Hc) as (f & b & I).
  assert (Hc' : bhs_chain (ancestors ++ [s]) s') by by econstructor.
  destruct (chain_inv_reachable _ _ Hc') as (f' & b' & I').
  destruct Hs as (hdr & exts & features & f_ext & H & Hprev & Hmax). apply finish_next_spec in H.
  pose proof (last_final_block_num_Ok (ci_shape _ _ _ _ I')) as Hlib.
  exists (target_block_num f'). split; [done|]. split; [by apply (next_active I H)|].
  pose proof (ci_generations _ _ _ _ I') as G. split; [|split; [apply G|]].
  - intros n p Ep. destruct (next_promoted I H _ Hlib) as (_ & Hp & _). rewrite Ep in Hp.
    pose proof (go_blocks _ (ci_generations _ _ _ _ I)) as Gb. by apply promoted_pending in Hp.
  - pose proof (go_sorted _ G) as Gs. pose proof (go_max _ G) as Gm. unfold generations in *.
    apply StronglySorted_inv in Gs as [_ Gs]. pose proof (go_pos _ G).
    inversion Gm as [|? ? Gm1 Gm2]; subst. constructor; [lia|].
    rewrite Forall_forall in *. intros g Hg. specialize (Gs g Hg). specialize (Gm2 g Hg). lia.
Qed.

(** The producer's next state and the schedule: the policy active in the
    new state is the one the parent foretells for its timestamp, so its
    scheduled producer is the one the parent's state gives.  The policy changes
    only in a later round than the parent's, to one that was proposed no later
    than the parent's last final block. *)
Theorem proposer_policy_promotion (s s' : block_header_state) (hdr : block_header)
    (exts : list (Z * block_header_extension)) (features : list digest_type) (f_ext : finality_extension) :
  finish_next s hdr exts features f_ext = Ok s' ->
  bhs_timestamp s < bhs_timestamp s' /\
  get_producer_for_block_at s (bhs_timestamp s') = bhs_scheduled_producer s' (bhs_timestamp s') /\
  (active_proposer_policy s' <> active_proposer_policy s ->
    in_same_round (bhs_timestamp s') (bhs_timestamp s) = false /\
    exists final, last_final_block_timestamp (core s) = Ok final /\
      proposal_time (active_proposer_policy s') <= final /\
      (latest_pending_proposer_policy s = Some (active_proposer_policy s') \/
       latest_proposed_proposer_policy s = Some (active_proposer_policy s') /\
       latest_pending_proposer_policy s' = None)).
Proof.
  intros H%finish_next_spec. destruct (ns_proposer _ _ _ _ H) as (pp & Hpp & Ea & Ep & _).
  assert (Ht : bhs_timestamp s' = header_timestamp hdr) by (unfold bhs_timestamp; by rewrite (ns_header _ _ _ _ H)).
  rewrite !Ht. destruct (evaluate_proposer_spec _ _ _ Hpp) as (Hlt & slot & Hslot & Hpol & Hpend).
  split_and!; [done| |].
  - unfold get_producer_for_block_at, bhs_scheduled_producer. rewrite Hslot. cbn [mbind result_bind].
    by rewrite Hpol, Ea.
  - rewrite Ea, Ep. intros Hne. destruct slot; cbn [slot_policy] in Hpol; [congruence|..]; apply at_or_assert_Ok in Hpol;
      destruct (slot_chosen _ _ _ Hslot) as (Hr & final & Hf & Hc); try done;
      (split; [done|]; exists final; split; [done|]).
    + split; [by apply Hc|]. right. auto.
    + split; [by apply Hc|by left].
Qed.

Lemma assembled_extensions (f : finality_extension) (pfa : list digest_type) packed_f exts both :
  valid c_finality_extension f -> (pfa <> [] -> valid c_protocol_feature_activation pfa) ->
  pack c_finality_extension f = Ok packed_f ->
  exts = emplace_extension [] finality_extension_id packed_f ->
  (match pfa with
   | [] => Ok (exts, emplace_upper_bound [] finality_extension_id (FinalityExt f))
   | (d :: l) => packed_p ← pack c_protocol_feature_activation (d :: l);
       Ok (emplace_extension exts protocol_feature_activation_id packed_p,
           emplace_upper_bound (emplace_upper_bound [] finality_extension_id (FinalityExt f))
             protocol_feature_activation_id (ProtocolFeatureActivation (d :: l)))
   end) = Ok both ->
  extract_loop 0 0 [] both.1 = Ok both.2 /\
  find_extension both.2 finality_extension_id = Some (FinalityExt f) /\
  find_extension both.2 protocol_feature_activation_id
  = match pfa with [] => None | _ => Some (ProtocolFeatureActivation pfa) end.
Proof.
  intros Vf Vp Pf -> H. cbn [emplace_extension emplace_upper_bound] in H.
  assert (Hf : packed_as (finality_extension_id, packed_f) (FinalityExt f)) by by split_and!.
  destruct pfa as [|d pfa].
  - injection H as <-. split_and!; [|done|done]. cbn [fst snd].
    rewrite (extract_loop_packed _ [FinalityExt f]);
      [done|constructor; [exact Hf|constructor]|apply adjacent_singleton|constructor|].
    intros p [= <-]. by left.
  - apply bind_Ok in H as (packed_p & Pp & [= <-]). split_and!; [|done|done]. cbn [fst snd].
    rewrite (extract_loop_packed _ [ProtocolFeatureActivation (d :: pfa); FinalityExt f]); [done|..|constructor|].
    + constructor; [|constructor; [exact Hf|constructor]]. split_and!; [done|by apply Vp|exact Pp].
    + apply adjacent_cons. split; [by vm_compute|apply adjacent_singleton].
    + intros p [= <-]. by right.
Qed.

(** C31: A receiver agrees with the producer: the header of an assembled state,
    given to [next] as a received header, makes the very same state -- the
    scheduled producer, the parent, the features and the emptiness of the
    finality root being as the receiver demands. *)
Theorem received_agrees_with_assembled (s s' : block_header_state) (input : block_header_state_input)
    (validator : validator_t) (auth : producer_authority) (m : core_metadata) (no_tree : bool) :
  next_assembled s input = Ok s' ->
  Forall (fun p => valid_extension p.2) (header_exts s') ->
  parent_id input = id s ->
  get_producer_for_block_at s (input_timestamp input) = Ok auth -> producer_name auth = input_producer input ->
  (new_protocol_feature_activations input <> [] ->
   validator (bhs_timestamp s) (activated_protocol_features s) (new_protocol_feature_activations input) = Ok tt) ->
  next_metadata (core s) (most_recent_ancestor_with_qc input) = Ok m ->
  is_genesis_block_num (core s) (meta_latest_qc_claim_block_num m) = Ok no_tree ->
  sha256_is_empty (finality_mroot_claim input) = no_tree ->
  next_received s (header s') validator = Ok s'.
Proof.
  intros H Vexts Hid Hauth Hname Hval Hm Hg Hempty. unfold next_assembled in H.
  apply bind_Ok in H as (fdiff & _ & H). apply bind_Ok in H as (pdiff & _ & H).
  set (f := FinalityExtension (most_recent_ancestor_with_qc input) fdiff pdiff) in *.
  apply bind_Ok in H as (packed_f & Pf & H). apply bind_Ok in H as (both & Eb & H).
  cbv zeta in *. pose proof (finish_next_spec _ _ _ _ _ _ H) as N.
  rewrite (ns_header _ _ _ _ N). pose proof (finish_next_exts _ _ _ _ _ _ H) as Ex. rewrite Ex in Vexts.
  assert (V : valid c_finality_extension f /\
    (new_protocol_feature_activations input <> [] ->
     valid c_protocol_feature_activation (new_protocol_feature_activations input))).
  { destruct (new_protocol_feature_activations input) as [|d l].
    - injection Eb as <-. split; [|done]. by apply Forall_inv in Vexts.
    - apply bind_Ok in Eb as (packed_p & _ & [= <-]). cbn in Vexts.
      apply Forall_cons in Vexts as [V1 V2]. apply Forall_inv in V2. done. }
  destruct (assembled_extensions f (new_protocol_feature_activations input) packed_f
    (emplace_extension [] finality_extension_id packed_f) both (proj1 V) (proj2 V) Pf eq_refl Eb) as (Hx & Hff & Hfp).
  unfold next_received. cbn [header_timestamp previous producer new_producers]. rewrite Hauth. cbn [mbind result_bind].
  rewrite Hid, bool_decide_eq_true_2 by done. rewrite Hname, Z.eqb_refl.
  unfold validate_and_extract_header_extensions. cbn [header_extensions]. rewrite Hx. cbn [mbind result_bind].
  rewrite Hfp, Hff. cbn [is_proper_svnn_block schedule_version action_mroot]. unfold is_proper_svnn_block.
  cbn [schedule_version]. rewrite Z.eqb_refl. cbn [qc_claim f]. rewrite Hm. cbn [mbind result_bind]. rewrite Hg.
  cbn [mbind result_bind]. rewrite Hempty, Bool.eqb_reflx. rewrite Hid in H.
  destruct (new_protocol_feature_activations input) as [|d l]; cbn [mbind result_bind]; [exact H|].
  rewrite Hval by done. exact H.
Qed.

(** ** What the finality digest binds *)

#[export] Instance c_nonnull_ok {A} (c : codec A) : CodecOk c -> CodecOk (c_nonnull c).
Proof.
  intros Hc a bs rest Hv H. cbn [c_nonnull pack unpack] in *.
  by rewrite (codec_ok (c := c_optional c) (Some a) bs rest Hv H).
Qed.

#[export] Instance c_vector_unchecked_ok {A} (c : codec A) : CodecOk c -> CodecOk (c_vector_unchecked c).
Proof.
  intros Hc l bs rest [Hv Hn] H. cbn [c_vector_unchecked pack unpack] in *. apply bind_Ok in H as (x & E & [= <-]).
  assert (Hu : u32 (size_of l)) by (unfold u32, size_of in *; lia).
  rewrite wrap32_id, <- app_assoc, pack_unsigned_int_ok by done. cbn [mbind result_bind fst snd].
  unfold size_of. rewrite Nat2Z.id. by apply elements_ok.
Qed.

#[export] Instance c_base_digest_data_ok : CodecOk c_base_digest_data := _.
#[export] Instance c_level_3_ok : CodecOk c_level_3_commitments := _.
#[export] Instance c_level_2_ok : CodecOk c_level_2_commitments := _.
#[export] Instance c_finality_digest_data_ok : CodecOk c_finality_digest_data := _.

(** The packed bytes of two values differ and have the same hash. *)
Definition collision {A} (c : codec A) (a b : A) : Prop :=
  exists x y, pack c a = Ok x /\ pack c b = Ok y /\ x <> y /\ hasher x = hasher y.

Lemma hash_packed_binds {A} (c : codec A) {ok : CodecOk c} a b d :
  valid c a -> valid c b -> hash_packed c a = Ok d -> hash_packed c b = Ok d -> a = b \/ collision c a b.
Proof.
  intros Va Vb (x & Ex & [= Hx])%bind_Ok (y & Ey & [= Hy])%bind_Ok.
  destruct (decide (x = y)) as [->|Hne]; [left; by apply (pack_inj c a b y)|].
  right. exists x, y. split_and!; [done|done|done|]. unfold sha256_hash in *. congruence.
Qed.

(** The finality digest, which finalizers sign, binds everything it is made
    from: if two states have the same digest then they agree on the header, the
    core, every policy in flight, the activated features, the finality tree
    root and the generations -- or their packed commitments are a collision of
    the hash function, at one of the four levels. *)
Theorem finality_digest_binds (s t : block_header_state) (d : digest_type)
    (ds dt : finality_digest_data_v1) (s2 t2 : level_2_commitments_t) (s3 t3 : level_3_commitments_t) :
  finality_digest_data s = Ok ds -> finality_digest_data t = Ok dt ->
  level_2_commitments s = Ok s2 -> level_2_commitments t = Ok t2 ->
  level_3_commitments s = Ok s3 -> level_3_commitments t = Ok t3 ->
  valid c_finality_digest_data ds -> valid c_finality_digest_data dt ->
  valid c_level_2_commitments s2 -> valid c_level_2_commitments t2 ->
  valid c_level_3_commitments s3 -> valid c_level_3_commitments t3 ->
  valid c_base_digest_data (base_digest_data s) -> valid c_base_digest_data (base_digest_data t) ->
  compute_finality_digest s = Ok d -> compute_finality_digest t = Ok d ->
  (base_digest_data s = base_digest_data t /\ finality_mroot s = finality_mroot t /\
   generation (active_finalizer_policy s) = generation (active_finalizer_policy t) /\
   last_pending_finalizer_policy_digest s = last_pending_finalizer_policy_digest t) \/
  collision c_finality_digest_data ds dt \/ collision c_level_2_commitments s2 t2 \/
  collision c_level_3_commitments s3 t3 \/ collision c_base_digest_data (base_digest_data s) (base_digest_data t).
Proof.
  intros Ds Dt S2 T2 S3 T3 Vds Vdt Vs2 Vt2 Vs3 Vt3 Vs Vt Hs Ht.
  unfold compute_finality_digest in Hs, Ht. rewrite Ds in Hs. rewrite Dt in Ht. cbn [mbind result_bind] in Hs, Ht.
  destruct (hash_packed_binds c_finality_digest_data ds dt d Vds Vdt Hs Ht) as [<-|]; [|by auto].
  unfold finality_digest_data in Ds, Dt. rewrite S2 in Ds. rewrite T2 in Dt. cbn [mbind result_bind] in Ds, Dt.
  apply bind_Ok in Ds as (hs & Hs2 & Ds). apply bind_Ok in Dt as (ht & Ht2 & Dt). rewrite <- Ds in Dt.
  injection Dt as Eg _ Em Eh. rewrite <- Eh in Hs2.
  destruct (hash_packed_binds c_level_2_commitments s2 t2 ht Vs2 Vt2 Hs2 Ht2) as [<-|]; [|by auto].
  unfold level_2_commitments in S2, T2. rewrite S3 in S2. rewrite T3 in T2. cbn [mbind result_bind] in S2, T2.
  apply bind_Ok in S2 as (h3 & Hs3 & S2). apply bind_Ok in T2 as (h3' & Ht3 & T2). rewrite <- S2 in T2.
  injection T2 as Ed _ Eh3. rewrite <- Eh3 in Hs3.
  destruct (hash_packed_binds c_level_3_commitments s3 t3 h3' Vs3 Vt3 Hs3 Ht3) as [<-|]; [|by auto 6].
  unfold level_3_commitments in S3, T3.
  apply bind_Ok in S3 as (? & _ & S3). apply bind_Ok in S3 as (? & _ & S3). apply bind_Ok in S3 as (? & _ & S3).
  apply bind_Ok in T3 as (? & _ & T3). apply bind_Ok in T3 as (? & _ & T3). apply bind_Ok in T3 as (? & _ & T3).
  apply bind_Ok in S3 as (bs & Hbs & S3). apply bind_Ok in T3 as (bt & Hbt & T3). rewrite <- S3 in T3.
  injection T3 as _ _ _ _ _ Eb. rewrite <- Eb in Hbs.
  destruct (hash_packed_binds c_base_digest_data _ _ bt Vs Vt Hbs Hbt) as [E|]; [|by auto 6].
  left. split_and!; [done|congruence|congruence|congruence].
Qed.
End Chain.

(** ** The properties on a concrete chain *)

#[local] Existing Instances example_bls example_hash example_hash_words.

Definition example_header_state_default : block_header_state :=
  MkBlockHeaderState sha256_default (MkBlockHeader 0 0 0 sha256_default sha256_default sha256_default 0 None [])
    [] (create_core_for_genesis_block sha256_default 0) (FinalizerPolicy 0 0 []) (ProposerPolicy 0 (ProducerAuthoritySchedule 0 []))
    None None [] None None 0 sha256_default 0 [].

Definition example_genesis_extension : finality_extension :=
  FinalityExtension (QcClaim 0 false)
    (Some (FinalizerPolicyDiff 1 2 (DiffResult [] [(0%nat, example_finalizer 1); (1%nat, example_finalizer 2); (2%nat, example_finalizer 3)])))
    None.

Definition example_genesis_header : block_header :=
  MkBlockHeader 1200 1 0 (example_id 9) (Sha256 1 1 1 1) sha256_default 0 None
    [(finality_extension_id, packed_or_nil (pack c_finality_extension example_genesis_extension))].

Definition example_schedule : producer_authority_schedule := ProducerAuthoritySchedule 1 example_producers.

(** Block 10 is the genesis block; each block from 12 on claims its parent
    strongly.  Block 11 proposes a finalizer policy and a proposer policy. *)
Definition example_state_0 : block_header_state :=
  from_ok example_header_state_default
    (create_if_genesis_header_state (from_ok sha256_default (calculate_id example_genesis_header))
       example_genesis_header [Sha256 3 3 3 3] example_schedule
       [(finality_extension_id, FinalityExt example_genesis_extension)]).

Definition example_input (s : block_header_state) (ts : block_timestamp_type) (producer : Z) (features : list digest_type)
    (pp : option proposer_policy) (fp : option finalizer_policy) (claim : qc_claim_t) : block_header_state_input :=
  BlockHeaderStateInput (id s) ts producer features (Sha256 ts 0 0 1) pp fp claim
    (if claim_block_num claim =? 10 then sha256_default else Sha256 8 8 8 (claim_block_num claim)).

Definition example_next (s : block_header_state) (i : block_header_state_input) : block_header_state :=
  from_ok example_header_state_default (next_assembled s i).

Definition example_input_1 := example_input example_state_0 1201 2 [Sha256 1 2 3 4]
  (Some (example_proposer_policy 1201 2 [example_producer 2; example_producer 7]))
  (Some (example_finalizer_policy 2 3 [2; 3; 4; 5])) (QcClaim 10 false).
Definition example_state_1 := Eval vm_compute in example_next example_state_0 example_input_1.
Definition example_input_2 := example_input example_state_1 1202 2 [] None None (QcClaim 11 true).
Definition example_state_2 := Eval vm_compute in example_next example_state_1 example_input_2.
Definition example_input_3 := example_input example_state_2 1212 3 [] None None (QcClaim 12 true).
Definition example_state_3 := Eval vm_compute in example_next example_state_2 example_input_3.
Definition example_input_4 := example_input example_state_3 1213 3 [] None
  (Some (example_finalizer_policy 3 2 [1; 2; 3])) (QcClaim 13 true).
Definition example_state_4 := Eval vm_compute in example_next example_state_3 example_input_4.
Definition example_input_5 := example_input example_state_4 1224 2 [] None None (QcClaim 14 true).
Definition example_state_5 := Eval vm_compute in example_next example_state_4 example_input_5.


Lemma example_genesis_ok : bhs_genesis example_state_0.
Proof.
  eexists _, _, _, _, _. split_and!; [apply from_ok_Ok|..]; by vm_compute.
Qed.

(** The ancestors of [example_state_5]. *)
Definition example_ancestors : list block_header_state :=
  [example_state_0; example_state_1; example_state_2; example_state_3; example_state_4].

Lemma example_step s i s' :
  example_next s i = s' -> is_ok (next_assembled s i) = true -> bool_decide (parent_id i = id s) = true ->
  (bhs_block_num s <? uint32_max) = true -> bhs_step s s'.
Proof.
  intros <- Hok Hid%bool_decide_eq_true Hn. apply (next_assembled_step s _ i); [by apply from_ok_Ok|done|lia].
Qed.

Lemma example_chain_4 : bhs_chain (take 4 example_ancestors) example_state_4.
Proof.
  apply (chain_next (take 3 example_ancestors) example_state_3);
    [|apply (example_step _ example_input_4); by vm_compute].
  apply (chain_next (take 2 example_ancestors) example_state_2);
    [|apply (example_step _ example_input_3); by vm_compute].
  apply (chain_next (take 1 example_ancestors) example_state_1);
    [|apply (example_step _ example_input_2); by vm_compute].
  apply (chain_next [] example_state_0); [|apply (example_step _ example_input_1); by vm_compute].
  apply chain_genesis, example_genesis_ok.
Qed.

Lemma example_step_5 : bhs_step example_state_4 example_state_5.
Proof. apply (example_step _ example_input_5); by vm_compute. Qed.

Lemma example_chain_5 : bhs_chain example_ancestors example_state_5.
Proof. apply (chain_next (take 4 example_ancestors) example_state_4); [exact example_chain_4|exact example_step_5]. Qed.

Definition example_ref_4 : block_ref := from_ok block_ref_default (make_block_ref example_state_4).

(** Block 14 had policy 1 active and policy 2 pending; in block 15, which
    claims it, policy 2 is active. *)
Lemma get_finalizer_policies_correct_witness :
  generation (active_finalizer_policy example_state_5) = 2 /\
  generation (active_finalizer_policy example_state_4) = 1 /\
  get_finalizer_policies example_state_5 example_ref_4
  = Ok (FinalizerPolicies (finality_digest example_ref_4) (active_finalizer_policy example_state_4)
          (snd <$> pending_finalizer_policy example_state_4)).
Proof.
  split_and!; [by vm_compute..|].
  apply (get_finalizer_policies_correct example_ancestors example_state_5 example_state_4 example_ref_4 (QcClaim 14 true)).
  - exact example_chain_5.
  - do 4 right. left.
  - apply from_ok_Ok. by vm_compute.
  - by vm_compute.
  - by vm_compute.
Defined.

Lemma finalizer_policy_promotion_witness :
  exists lib, last_final_block_num (core example_state_5) = Ok lib /\
    ((exists n, n <= lib /\ pending_finalizer_policy example_state_4 = Some (n, active_finalizer_policy example_state_5)) \/
     active_finalizer_policy example_state_5 = active_finalizer_policy example_state_4 /\
     (pending_finalizer_policy example_state_4 = None \/
      pending_finalizer_policy example_state_5 = pending_finalizer_policy example_state_4)) /\
    (forall n p, pending_finalizer_policy example_state_5 = Some (n, p) ->
      pending_finalizer_policy example_state_4 = Some (n, p) \/
      n = bhs_block_num example_state_5 /\ exists k, (k, p) ∈ proposed_finalizer_policies example_state_4 /\ k <= lib /\
        forall q, q ∈ proposed_finalizer_policies example_state_4 -> q.1 <= lib -> q.1 <= k) /\
    StronglySorted Z.lt (generations example_state_5) /\
    Forall (fun g => 1 <= g <= finalizer_policy_generation example_state_5) (generations example_state_5).
Proof. exact (finalizer_policy_promotion _ _ _ example_chain_4 example_step_5). Defined.

(** The header and the extension of block 15. *)
Definition example_extension_5 : finality_extension := FinalityExtension (QcClaim 14 true) None None.

Lemma proposer_policy_promotion_witness :
  let s := example_state_4 in let s' := example_state_5 in
  bhs_timestamp s < bhs_timestamp s' /\
  get_producer_for_block_at s (bhs_timestamp s') = bhs_scheduled_producer s' (bhs_timestamp s') /\
  (active_proposer_policy s' <> active_proposer_policy s ->
    in_same_round (bhs_timestamp s') (bhs_timestamp s) = false /\
    exists final, last_final_block_timestamp (core s) = Ok final /\
      proposal_time (active_proposer_policy s') <= final /\
      (latest_pending_proposer_policy s = Some (active_proposer_policy s') \/
       latest_proposed_proposer_policy s = Some (active_proposer_policy s') /\
       latest_pending_proposer_policy s' = None)).
Proof.
  apply (proposer_policy_promotion example_state_4 example_state_5 (header example_state_5)
    (header_exts example_state_5) [] example_extension_5). by vm_compute.
Defined.

Lemma example_extensions_valid : Forall (fun p => valid_extension p.2) (header_exts example_state_1).
Proof. constructor; [|constructor; [|constructor]]; cbn [snd valid_extension header_exts example_state_1]; solve_valid. Qed.

Lemma received_agrees_with_assembled_witness :
  next_received example_state_0 (header example_state_1) (fun _ _ _ => Ok tt) = Ok example_state_1.
Proof.
  apply (received_agrees_with_assembled example_state_0 example_state_1 example_input_1 (fun _ _ _ => Ok tt)
    (example_producer 2) (CoreMetadata 10 10) true); [by vm_compute|exact example_extensions_valid|by vm_compute..].
Defined.

Definition example_claims_finality (s : block_header_state) : finality_digest_data_v1 :=
  from_ok (FinalityDigestData 0 0 0 0 sha256_default sha256_default) (finality_digest_data s).
Definition example_level_2 (s : block_header_state) : level_2_commitments_t :=
  from_ok (Level2Commitments sha256_default 0 sha256_default) (level_2_commitments s).
Definition example_level_3 (s : block_header_state) : level_3_commitments_t :=
  from_ok (Level3Commitments sha256_default 0 sha256_default 0 0 sha256_default) (level_3_commitments s).

Lemma example_base_valid : valid c_base_digest_data (base_digest_data example_state_2).
Proof.
  unfold base_digest_data, c_base_digest_data. cbn [valid c_pair fst snd]. split_and!; solve_valid.
Qed.

Lemma finality_digest_binds_witness :
  let s := example_state_2 in
  let d := example_claims_finality s in let l2 := example_level_2 s in let l3 := example_level_3 s in
  (base_digest_data s = base_digest_data s /\ finality_mroot s = finality_mroot s /\
   generation (active_finalizer_policy s) = generation (active_finalizer_policy s) /\
   last_pending_finalizer_policy_digest s = last_pending_finalizer_policy_digest s) \/
  collision c_finality_digest_data d d \/ collision c_level_2_commitments l2 l2 \/
  collision c_level_3_commitments l3 l3 \/ collision c_base_digest_data (base_digest_data s) (base_digest_data s).
Proof.
  assert (V1 : valid c_finality_digest_data (example_claims_finality example_state_2)) by (vm_compute; solve_valid).
  assert (V2 : valid c_level_2_commitments (example_level_2 example_state_2)) by (vm_compute; solve_valid).
  assert (V3 : valid c_level_3_commitments (example_level_3 example_state_2)) by (vm_compute; solve_valid).
  apply (finality_digest_binds example_state_2 example_state_2
    (from_ok sha256_default (compute_finality_digest example_state_2))
    (example_claims_finality example_state_2) (example_claims_finality example_state_2)
    (example_level_2 example_state_2) (example_level_2 example_state_2)
    (example_level_3 example_state_2) (example_level_3 example_state_2));
    first [exact V1|exact V2|exact V3|exact example_base_valid|apply from_ok_Ok; by vm_compute].
Defined.
