(* ===== verification/BlockState.v ===== *)
(** * The state of a block

    [block_state.hpp] and [block_state.cpp]: a header state with the votes on
    the block ([aggregating_qc]) and the validation tree, the Merkle tree over
    the finality leaves of every block since genesis.  The transactions and
    their caches are not modelled.  Recovering a key from a signature is the
    crypto library's: the class [RecoverKey]. *)

From S2P Require Import Prelude ChainTypes Merkle FinalityCore OrderedDiff Policies Qc Raw BlockHeader BlockHeaderState.

(** ** Data *)

Record finality_leaf_node_t : Set := FinalityLeafNode {
  leaf_major_version : Z;
  leaf_minor_version : Z;
  leaf_block_num : Z;
  leaf_timestamp : block_timestamp_type;
  leaf_parent_timestamp : block_timestamp_type;
  leaf_finality_digest : digest_type;
  leaf_action_mroot : digest_type
}.

Record valid_t : Set := Valid {
  validation_tree : incremental_merkle_tree;
  validation_mroots : list digest_type
}.

Record finality_data_t : Set := FinalityData {
  fd_active_finalizer_policy_generation : Z;
  fd_action_mroot : digest_type;
  fd_reversible_blocks_mroot : digest_type;
  fd_latest_qc_claim_block_num : Z;
  fd_latest_qc_claim_finality_digest : digest_type;
  fd_latest_qc_claim_timestamp : block_timestamp_type;
  fd_base_digest : digest_type;
  fd_pending_finalizer_policy : option finalizer_policy;
  fd_last_pending_finalizer_policy_generation : Z
}.

Definition c_finality_leaf_node : codec finality_leaf_node_t :=
  c_struct (c_pair c_u32 (c_pair c_u32 (c_pair c_u32 (c_pair c_u32 (c_pair c_u32 (c_pair c_sha256 c_sha256))))))
    (fun l => (leaf_major_version l, (leaf_minor_version l, (leaf_block_num l, (leaf_timestamp l,
      (leaf_parent_timestamp l, (leaf_finality_digest l, leaf_action_mroot l)))))))
    (fun '(a, (b, (c, (d, (e, (f, g)))))) => FinalityLeafNode a b c d e f g).

(** The key that made a signature of a digest, if the signature is canonical. *)
Class RecoverKey : Type := recover_key : list Z -> digest_type -> result public_key_type.

(** A block as it is received: its header and its signatures (those after the
    first come from the block extension). *)
Record signed_block : Set := SignedBlock {
  block_header_of : block_header;
  producer_signature : list Z;
  additional_signatures : list (list Z)
}.

Section BlockState.
Context {hasher : Sha256Hash} {keyok : BlsKeyValid} {bls : Bls} {recover : RecoverKey}.

Record block_state : Type := MkBlockState {
  bhs : block_header_state;
  strong_digest : digest_type;
  weak_digest : list Z;
  aggregating_qc : aggregating_qc_t;
  valid_data : option valid_t;
  validated : bool;
  bs_action_mroot : digest_type;
  cached_base_digest : option digest_type
}.

Definition bs_block_num (s : block_state) : Z := bhs_block_num (bhs s).

(** ** Signatures *)

(** The loop that recovers the keys of the additional signatures. *)
Fixpoint recover_all (block_id : block_id_type) (ks : gset public_key_type) (sigs : list (list Z)) :
    result (gset public_key_type) :=
  match sigs with
  | [] => Ok ks
  | sig :: sigs =>
      k ← recover_key sig block_id;
      EOS_ASSERT bool_decide (k ∉ ks) ,, wrong_signing_key ;;
      recover_all block_id ({[k]} ∪ ks) sigs
  end.

Definition verify_signee (producer_signature : list Z) (block_id : block_id_type)
    (additional_signatures : list (list Z)) (a : block_signing_authority_v0) : result () :=
  EOS_ASSERT 1 + size_of additional_signatures <=? size_of (keys a) ,, wrong_signing_key ;;
  k ← recover_key producer_signature block_id;
  ks ← recover_all block_id {[k]} additional_signatures;
  let '(is_satisfied, relevant_sig_count) := keys_satisfy_and_relevant a ks in
  EOS_ASSERT relevant_sig_count =? Z.of_nat (size ks) ,, wrong_signing_key ;;
  EOS_ASSERT is_satisfied ,, wrong_signing_key ;;
  Ok ().

Definition verify_block_sig (prev : block_header_state) (b : signed_block) (skip_validate_signee : bool) : result () :=
  if skip_validate_signee then Ok ()
  else
    auth ← get_producer_for_block_at prev (header_timestamp (block_header_of b));
    i ← calculate_id (block_header_of b);
    verify_signee (producer_signature b) i (additional_signatures b) (authority auth).

(** ** Construction *)

(** The constructor from a received block. *)
Definition new_block_state (prev : block_header_state) (b : signed_block) (validator : validator_t)
    (skip_validate_signee : bool) : result block_state :=
  _ ← verify_block_sig prev b skip_validate_signee;
  s ← next_received prev (block_header_of b) validator;
  d ← compute_finality_digest s;
  Ok (MkBlockState s d (create_weak_digest d)
        (new_aggregating_qc (active_finalizer_policy s) (snd <$> pending_finalizer_policy s))
        None false sha256_default None).

Definition leaf_digest (l : finality_leaf_node_t) : result digest_type := hash_packed c_finality_leaf_node l.

(** [create_if_genesis_block]: [savanna_mroot] is the Savanna action root of
    the legacy block, [is_valid] whether it is validated. *)
Definition create_if_genesis_block (id : block_id_type) (h : block_header) (features : list digest_type)
    (schedule : producer_authority_schedule) (exts : list (Z * block_header_extension))
    (savanna_mroot : digest_type) (is_valid : bool) : result block_state :=
  s ← create_if_genesis_header_state id h features schedule exts;
  d ← compute_finality_digest s;
  leaf ← leaf_digest (FinalityLeafNode light_header_protocol_version_major light_header_protocol_version_minor
           (header_block_num h) (header_timestamp h) 0 d savanna_mroot);
  tree ← append empty_merkle_tree leaf;
  root ← get_root tree;
  Ok (MkBlockState s d (create_weak_digest d) (new_aggregating_qc (active_finalizer_policy s) None)
        (Some (Valid tree [root])) is_valid savanna_mroot None).

Definition bs_make_block_ref (s : block_state) : block_ref :=
  BlockRef (id (bhs s)) (bhs_timestamp (bhs s)) (strong_digest s) (generation (active_finalizer_policy (bhs s)))
    match pending_finalizer_policy (bhs s) with Some p => generation p.2 | None => 0 end.

(** ** The validation tree *)

Definition new_valid (s : block_state) (next_bhs : block_header_state) (action_mroot strong_digest : digest_type) :
    result valid_t :=
  v ← at_or_assert (valid_data s);
  lf' ← last_final_block_num (core next_bhs);
  lf ← last_final_block_num (core (bhs s));
  ASSERT lf <=? lf' ;;
  ASSERT negb (sha256_is_empty strong_digest) ;;
  let start := wrap32 (lf' - lf) in
  ASSERT start <=? size_of (validation_mroots v) ;;
  let mroots := drop (Z.to_nat start) (validation_mroots v) in
  leaf ← leaf_digest (FinalityLeafNode light_header_protocol_version_major light_header_protocol_version_minor
           (bhs_block_num next_bhs) (bhs_timestamp next_bhs) (bhs_timestamp (bhs s)) strong_digest action_mroot);
  tree ← append (validation_tree v) leaf;
  root ← get_root tree;
  let mroots := mroots ++ [root] in
  ASSERT size_of mroots =? wrap32 (wrap32 (bhs_block_num next_bhs - lf') + 1) ;;
  Ok (Valid tree mroots).

Definition get_validation_mroot (s : block_state) (target_block_num : Z) : result digest_type :=
  match valid_data s with
  | None => Ok sha256_default
  | Some v =>
      ASSERT 0 <? size_of (validation_mroots v) ;;
      low ← last_final_block_num (core (bhs s));
      let high := low + size_of (validation_mroots v) in
      EOS_ASSERT (low <=? target_block_num) && (target_block_num <? high) ,, block_validate_exception ;;
      at_or_assert (validation_mroots v !! Z.to_nat (target_block_num - low))
  end.

Definition get_finality_mroot_claim (s : block_state) (claim : qc_claim_t) : result digest_type :=
  m ← next_metadata (core (bhs s)) claim;
  g ← is_genesis_block_num (core (bhs s)) (meta_latest_qc_claim_block_num m);
  if (g : bool) then Ok sha256_default
  else get_validation_mroot s (meta_latest_qc_claim_block_num m).

(** [create_transition_block]: [savanna_mroot] is empty in irreversible mode. *)
Definition create_transition_block (prev : block_state) (b : signed_block) (validator : validator_t)
    (skip_validate_signee : bool) (savanna_mroot : option digest_type) : result block_state :=
  s ← new_block_state (bhs prev) b validator skip_validate_signee;
  let mroot := match savanna_mroot with Some d => d | None => sha256_default end in
  v ← (if sha256_is_empty mroot then Ok (valid_data s)
       else v ← new_valid prev (bhs s) mroot (strong_digest s); Ok (Some v));
  Ok (MkBlockState (bhs s) (strong_digest s) (weak_digest s) (aggregating_qc s) v (validated s) mroot
        (cached_base_digest s)).

(** ** Votes and certificates *)

Definition bs_aggregate_vote (s : block_state) (vote : vote_message) : result (aggregate_vote_result_t * block_state) :=
  let finalizer_digest := if vote_strong vote then sha256_data (strong_digest s) else weak_digest s in
  r ← aggregate_vote (aggregating_qc s) vote finalizer_digest;
  Ok (r.1, MkBlockState (bhs s) (strong_digest s) (weak_digest s) r.2 (valid_data s) (validated s)
             (bs_action_mroot s) (cached_base_digest s)).

(** [get_finalizer_policies(block_num_type)] *)
Definition get_finalizer_policies_at (s : block_state) (num : Z) : result finalizer_policies_t :=
  if num =? bs_block_num s then get_finalizer_policies (bhs s) (bs_make_block_ref s)
  else ref ← get_block_reference (core (bhs s)) num; get_finalizer_policies (bhs s) ref.

Definition verify_qc_signatures (s : block_state) (q : qc_t) : result () :=
  p ← get_finalizer_policies_at s (qc_block_num q); verify_signatures q p.

Definition verify_qc_basic (s : block_state) (q : qc_t) : result () :=
  p ← get_finalizer_policies_at s (qc_block_num q); verify_basic q p.

Definition verify_qc (s : block_state) (q : qc_t) : result () :=
  p ← get_finalizer_policies_at s (qc_block_num q);
  _ ← verify_basic q p;
  verify_signatures q p.

Definition extract_qc_claim (s : block_state) : result qc_claim_t :=
  match find_extension (header_exts (bhs s)) finality_extension_id with
  | Some (FinalityExt f) => Ok (qc_claim f)
  | Some _ => Throw assert_failed
  | None => Ok (QcClaim 0 false)
  end.

(** The pending policy is shown with its keys in string form. *)
Definition get_finality_data (s : block_state) : result (finality_data_t * block_state) :=
  base ← (match cached_base_digest s with Some d => Ok d | None => compute_base_digest (bhs s) end);
  let s' := MkBlockState (bhs s) (strong_digest s) (weak_digest s) (aggregating_qc s) (valid_data s) (validated s)
              (bs_action_mroot s) (Some base) in
  claim ← latest_qc_claim (core (bhs s));
  g ← is_savanna_genesis_block (bhs s);
  r ← (if (g : bool) then Ok (block_ref_default, Some (active_finalizer_policy (bhs s)))
       else
         ref ← get_block_reference (core (bhs s)) (claim_block_num claim);
         Ok (ref, match pending_finalizer_policy (bhs s) with
                  | Some p => if p.1 =? bs_block_num s then Some p.2 else None
                  | None => None
                  end));
  mroot ← get_reversible_blocks_mroot (core (bhs s));
  Ok (FinalityData (generation (active_finalizer_policy (bhs s))) (bs_action_mroot s) mroot
        (claim_block_num claim) (finality_digest r.1) (timestamp r.1) base r.2
        (generation (get_last_pending_finalizer_policy (bhs s))), s').
End BlockState.

(** ** Signatures, proofs *)

Section Signatures.
Context {recover : RecoverKey}.

Lemma recover_all_Ok i ks0 sigs ks :
  recover_all i ks0 sigs = Ok ks <->
  exists l, Forall2 (fun sig k => recover_key sig i = Ok k) sigs l /\ NoDup l /\
    (forall k, k ∈ l -> k ∉ ks0) /\ ks = list_to_set l ∪ ks0.
Proof.
  revert ks0. induction sigs as [|sig sigs IH]; intros ks0; cbn [recover_all].
  - split.
    + intros [= <-]. exists []. split_and!; [constructor|constructor|by intros k ?%elem_of_nil|set_solver].
    + intros (l & Hl & _ & _ & ->). inversion Hl; subst. f_equal. set_solver.
  - split.
    + intros H. apply bind_Ok in H as (k & Hk & H). inv_result. apply bool_decide_eq_true in E.
      apply IH in H as (l & Hl & Hnd & Hfresh & ->). exists (k :: l). split_and!.
      * by constructor.
      * constructor; [|done]. intros Hin. specialize (Hfresh k Hin). set_solver.
      * intros k' [->|Hk']%elem_of_cons; [done|]. specialize (Hfresh k' Hk'). set_solver.
      * cbn. set_solver.
    + intros (l & Hl & Hnd & Hfresh & ->). inversion Hl as [|? k ? l' Hk Hl']; subst. rewrite Hk. cbn [mbind result_bind].
      apply NoDup_cons in Hnd as [Hnotin Hnd].
      rewrite bool_decide_eq_true_2 by (apply Hfresh; by left). apply IH. exists l'. split_and!; [done|done| |cbn; set_solver].
      intros k' Hk'. assert (k' ∉ ks0) by (apply Hfresh; by right). assert (k' <> k) by (intros ->; done). set_solver.
Qed.

(** All the presented keys are keys of the authority. *)
Lemma relevant_all (a : block_signing_authority_v0) (ks : gset public_key_type) :
  NoDup (map key (keys a)) ->
  size_of (filter (fun kw => key kw ∈ ks) (keys a)) = Z.of_nat (size ks) <-> ks ⊆ list_to_set (map key (keys a)).
Proof.
  intros Hnd. set (F := filter (fun kw => key kw ∈ ks) (keys a)).
  assert (HF : NoDup (map key F)).
  { eapply sublist_NoDup; [exact Hnd|]. apply (fmap_sublist key), sublist_filter. }
  assert (E : list_to_set (map key F) = ks ∩ list_to_set (map key (keys a))).
  { apply set_eq. intros k. rewrite elem_of_intersection, !elem_of_list_to_set. split.
    - intros (kw & -> & [Hin Hkw]%list_elem_of_filter)%list_elem_of_fmap. split; [done|].
      apply list_elem_of_fmap. by exists kw.
    - intros [Hk (kw & -> & Hkw)%list_elem_of_fmap]. apply list_elem_of_fmap. exists kw.
      split; [done|]. by apply list_elem_of_filter. }
  assert (L : length F = size (ks ∩ list_to_set (map key (keys a)) : gset public_key_type)).
  { rewrite <- E. rewrite size_list_to_set by done. by rewrite length_map. }
  unfold size_of. rewrite L. split.
  - intros H. assert (Es : ks ∩ list_to_set (map key (keys a)) = ks); [|set_solver].
    apply set_subseteq_size_eq; [set_solver|lia].
  - intros H. do 2 f_equal. set_solver.
Qed.

(** A block's signatures are accepted exactly when each of them recovers a
    key, the keys are distinct, every one of them is a key of the producer's
    authority, and their weights sum to its threshold or more. *)
Theorem verify_signee_correct (sig : list Z) (i : block_id_type) (sigs : list (list Z)) (a : block_signing_authority_v0) :
  authority_widths a -> NoDup (map key (keys a)) ->
  verify_signee sig i sigs a = Ok () <->
  exists ks, Forall2 (fun sig k => recover_key sig i = Ok k) (sig :: sigs) ks /\ NoDup ks /\
    (forall k, k ∈ ks -> k ∈ map key (keys a)) /\
    authority_threshold a <= Zsum (map kw_weight (filter (fun kw => key kw ∈ ks) (keys a))).
Proof.
  intros [Ht Hw] Hnd. unfold u32 in Ht.
  assert (Hthr : 0 <= authority_threshold a <= uint32_max) by (unfold uint32_max; lia).
  assert (Hset : forall ks (l : list public_key_type), ks = list_to_set l ->
    filter (fun kw => key kw ∈ (ks : gset public_key_type)) (keys a) = filter (fun kw => key kw ∈ l) (keys a)).
  { intros ks l ->. apply list_filter_iff. intros kw. by rewrite elem_of_list_to_set. }
  unfold verify_signee. split.
  - intros H. inv_result. rewrite keys_satisfy_and_relevant_eq in H by done. inv_result.
    apply recover_all_Ok in E1 as (l & Hl & Hndl & Hfresh & ->). exists (x :: l).
    assert (Els : list_to_set l ∪ {[x]} = (list_to_set (x :: l) : gset public_key_type)) by (cbn; set_solver).
    rewrite (Hset _ _ Els) in *. split_and!.
    + by constructor.
    + constructor; [|done]. intros Hin. specialize (Hfresh x Hin). set_solver.
    + rewrite <- (Hset _ _ Els) in E2. apply Z.eqb_eq, relevant_all in E2; [|done].
      intros k Hk. assert (Hk' : k ∈ (list_to_set l ∪ {[x]} : gset public_key_type)) by (rewrite Els; by apply elem_of_list_to_set).
      specialize (E2 k Hk'). by apply elem_of_list_to_set in E2.
    + lia.
  - intros (ks & Hks & Hndk & Hall & Hsum). inversion Hks as [|? k ? l Hk Hl]; subst.
    apply NoDup_cons in Hndk as [Hnotin Hndl].
    assert (Hlen : (length (k :: l) <= length (keys a))%nat).
    { rewrite <- (length_map key (keys a)). apply submseteq_length, NoDup_submseteq; [by constructor|done]. }
    pass_with ltac:(apply Forall2_length in Hl; unfold size_of; cbn in Hlen; lia).
    rewrite Hk. cbn [mbind result_bind].
    assert (Er : recover_all i {[k]} sigs = Ok (list_to_set l ∪ {[k]})).
    { apply recover_all_Ok. exists l. split_and!; [done|done|set_solver|done]. }
    rewrite Er. cbn [mbind result_bind]. rewrite keys_satisfy_and_relevant_eq by done.
    assert (Els : list_to_set l ∪ {[k]} = (list_to_set (k :: l) : gset public_key_type)) by (cbn; set_solver).
    pass_with ltac:(apply Z.eqb_eq, relevant_all; [done|]; rewrite Els; intros k' Hk'; apply elem_of_list_to_set in Hk';
      by apply elem_of_list_to_set, Hall).
    rewrite (Hset _ _ Els). by pass_with ltac:(lia).
Qed.
End Signatures.

(** ** The validation tree along a chain *)

Section Chain.
Context {hasher : Sha256Hash} {words : Sha256Words hasher} {keyok : BlsKeyValid} {bls : Bls} {recover : RecoverKey}.

(** The leaf of a block whose parent has the timestamp [parent]. *)
Definition finality_leaf (s : block_header_state) (parent : block_timestamp_type) (finality_digest action_mroot : digest_type) :
    finality_leaf_node_t :=
  FinalityLeafNode light_header_protocol_version_major light_header_protocol_version_minor
    (bhs_block_num s) (bhs_timestamp s) parent finality_digest action_mroot.

(** [bs_chain leaves ancestors s]: a chain of block states from a genesis block
    to [s], with the leaves of all its blocks and its header states. *)
Inductive bs_chain : list digest_type -> list block_header_state -> block_state -> Prop :=
| bs_genesis i h features schedule exts mroot is_valid s leaf :
    create_if_genesis_block i h features schedule exts mroot is_valid = Ok s ->
    num_from_id i = header_block_num h -> 0 < header_block_num h -> generation (active_finalizer_policy (bhs s)) = 1 ->
    leaf_digest (finality_leaf (bhs s) 0 (strong_digest s) mroot) = Ok leaf ->
    bs_chain [leaf] [] s
| bs_next leaves ancestors s s' mroot v leaf :
    bs_chain leaves ancestors s -> bhs_step (bhs s) (bhs s') ->
    compute_finality_digest (bhs s') = Ok (strong_digest s') ->
    new_valid s (bhs s') mroot (strong_digest s') = Ok v -> valid_data s' = Some v ->
    leaf_digest (finality_leaf (bhs s') (bhs_timestamp (bhs s)) (strong_digest s') mroot) = Ok leaf ->
    bs_chain (leaves ++ [leaf]) (ancestors ++ [bhs s]) s'.

(** The validation data of a block after which the leaves are [leaves]: the
    tree is over all of them, and the roots are those of the blocks from the
    last final one on. *)
Record valid_inv (leaves : list digest_type) (num lf : Z) (v : valid_t) : Prop := {
  vi_tree : tree_of (validation_tree v) leaves;
  vi_first : 0 < num - size_of leaves + 1 <= lf;
  vi_lf : lf <= num;
  vi_num : u32 num;
  vi_size : size_of (validation_mroots v) = num - lf + 1;
  vi_roots : forall i r, validation_mroots v !! i = Some r ->
    calculate_merkle (take (Z.to_nat (lf + Z.of_nat i - (num - size_of leaves + 1) + 1)) leaves) = Ok r
}.

Record bs_inv (leaves : list digest_type) (ancestors : list block_header_state) (s : block_state) : Prop := {
  bi_chain : bhs_chain ancestors (bhs s);
  bi_digest : compute_finality_digest (bhs s) = Ok (strong_digest s);
  bi_valid : exists v lf, valid_data s = Some v /\ last_final_block_num (core (bhs s)) = Ok lf /\
    valid_inv leaves (bs_block_num s) lf v
}.

Lemma leaf_digest_Ok l : exists d, leaf_digest l = Ok d.
Proof. by eexists. Qed.

Lemma new_valid_inv leaves num lf lf' num' (v : valid_t) s s' d mroot leaf :
  valid_data s = Some v -> last_final_block_num (core (bhs s)) = Ok lf -> last_final_block_num (core s') = Ok lf' ->
  valid_inv leaves num lf v -> lf <= lf' <= num -> num' = num + 1 -> num < uint32_max -> bhs_block_num s' = num' ->
  sha256_is_empty d = false ->
  leaf_digest (finality_leaf s' (bhs_timestamp (bhs s)) d mroot) = Ok leaf ->
  exists v', new_valid s s' mroot d = Ok v' /\ valid_inv (leaves ++ [leaf]) num' lf' v'.
Proof.
  intros Hv Hlf Hlf' [Ht Hfirst Hle Hu Hsize Hroots] Hl -> Hmax Hnum Hd Hleaf.
  pose proof Hu as Hu'. unfold u32, uint32_max in Hu', Hmax.
  assert (Hlen : size_of leaves + 1 < 2 ^ 64) by lia.
  destruct (append_tree_of _ _ leaf Ht Hlen) as (t' & Et & Ht').
  destruct (get_root_total _ _ Ht') as [root Er].
  unfold new_valid. rewrite Hv, Hlf, Hlf'. cbn [at_or_assert mbind result_bind].
  pass_with ltac:(lia). rewrite Hd. cbn [negb]. rewrite wrap32_id by (unfold u32; lia). pass_with ltac:(lia).
  unfold finality_leaf in Hleaf. rewrite Hleaf. cbn [mbind result_bind]. rewrite Et. cbn [mbind result_bind].
  rewrite Er. rewrite (tree_of_root _ _ Ht') in Er. cbn [mbind result_bind].
  assert (Hs' : size_of (drop (Z.to_nat (lf' - lf)) (validation_mroots v) ++ [root]) = num + 1 - lf' + 1).
  { unfold size_of in *. rewrite length_app, length_drop. cbn. lia. }
  rewrite Hnum, (wrap32_id (num + 1 - lf')), wrap32_id by (unfold u32; lia).
  pass_with ltac:(lia). eexists. split; [reflexivity|].
  assert (Hsl : size_of (leaves ++ [leaf]) = size_of leaves + 1) by (unfold size_of; rewrite length_app; cbn; lia).
  constructor; cbn [validation_tree validation_mroots]; [done|lia|lia|unfold u32; lia|done|].
  intros i r Hi. rewrite Hsl. replace (num + 1 - (size_of leaves + 1) + 1) with (num - size_of leaves + 1) by lia.
  apply lookup_app_Some in Hi as [Hi|[Hi1 Hi2]].
  - rewrite lookup_drop in Hi. pose proof (lookup_lt_Some _ _ _ Hi) as Hlt. apply Hroots in Hi.
    replace (lf' + Z.of_nat i) with (lf + Z.of_nat (Z.to_nat (lf' - lf) + i)%nat) by lia.
    rewrite take_app_le; [done|]. unfold size_of in *. lia.
  - rewrite length_drop in Hi1, Hi2.
    destruct (i - (length (validation_mroots v) - Z.to_nat (lf' - lf)))%nat as [|k] eqn:Ei; [|done].
    injection Hi2 as <-. unfold size_of in *. rewrite take_ge; [done|]. rewrite length_app. cbn. lia.
Qed.

Lemma genesis_bs_inv i h features schedule exts mroot is_valid s leaf :
  create_if_genesis_block i h features schedule exts mroot is_valid = Ok s ->
  num_from_id i = header_block_num h -> 0 < header_block_num h -> generation (active_finalizer_policy (bhs s)) = 1 ->
  leaf_digest (finality_leaf (bhs s) 0 (strong_digest s) mroot) = Ok leaf ->
  bs_inv [leaf] [] s.
Proof.
  intros H Hnum Hpos Hgen Hleaf. unfold create_if_genesis_block in H.
  apply bind_Ok in H as (b & Hb & H). apply bind_Ok in H as (d & Hd & H).
  pose proof (create_genesis_fields _ _ _ _ _ _ Hb) as (Hh & Hcore).
  apply bind_Ok in H as (leaf' & Hleaf' & H). apply bind_Ok in H as (tree & Htree & H).
  apply bind_Ok in H as (root & Hroot & [= <-]). cbn [bhs strong_digest] in *.
  assert (leaf' = leaf) as ->.
  { unfold finality_leaf, bhs_block_num, bhs_timestamp in Hleaf. rewrite Hh in Hleaf. congruence. }
  destruct (append_tree_of empty_merkle_tree [] leaf) as (t & Et & Ht); [constructor|done|].
  rewrite Htree in Et. injection Et as <-. cbn [app] in Ht. rewrite (tree_of_root _ _ Ht) in Hroot.
  constructor; cbn [bhs strong_digest valid_data]; [|done|].
  - apply chain_genesis. by exists i, h, features, schedule, exts.
  - exists (Valid tree [root]), (num_from_id i). unfold bs_block_num, bhs_block_num. cbn [bhs]. rewrite Hh, Hcore.
    split_and!; [done|done|]. pose proof (num_from_id_u32 i) as Hu.
    constructor; cbn [validation_tree validation_mroots]; unfold size_of; cbn; rewrite ?Hnum in *; [done|lia|lia|done|lia|].
    intros [|k] r Hr; [|done]. injection Hr as <-. rewrite take_ge; [done|]. cbn. lia.
Qed.

Lemma bs_chain_inv leaves ancestors s : bs_chain leaves ancestors s -> bs_inv leaves ancestors s.
Proof.
  induction 1 as [i h features schedule exts mroot is_valid s leaf H Hnum Hpos Hgen Hleaf
    |leaves ancestors s s' mroot v leaf _ [Hc Hd (v0 & lf & Hv & Hlf & Hinv)] Hstep Hd' Hnew Hv' Hleaf].
  - by eapply genesis_bs_inv.
  - destruct (chain_step_numbers _ _ _ Hc Hstep) as (lf0 & lf' & claim & Hlf0 & Hlf' & _ & Hl & _ & Hn & Hmax).
    rewrite Hlf in Hlf0. injection Hlf0 as <-.
    assert (He : sha256_is_empty (strong_digest s') = false).
    { unfold new_valid in Hnew. rewrite Hv, Hlf', Hlf in Hnew. cbn [at_or_assert mbind result_bind] in Hnew.
      destruct (lf <=? lf'); [|done]. by destruct (sha256_is_empty (strong_digest s')). }
    destruct (new_valid_inv leaves (bs_block_num s) lf lf' (bs_block_num s') v0 s (bhs s') (strong_digest s') mroot leaf)
      as (v' & Hv'' & Hinv'); try done.
    rewrite Hnew in Hv''. injection Hv'' as <-.
    constructor; [by econstructor|done|]. by exists v, lf'.
Qed.

(** The validation tree of a child can always be built: along any chain,
    whatever the next header state, [new_valid] returns -- its postcondition on
    the number of roots, its range of roots to trim and the assertions of the
    Merkle tree hold -- unless the child's finality digest is all zeros. *)
Theorem new_valid_total (leaves : list digest_type) (ancestors : list block_header_state) (s : block_state)
    (s' : block_header_state) (d mroot : digest_type) :
  bs_chain leaves ancestors s -> bhs_step (bhs s) s' -> sha256_is_empty d = false ->
  exists v, new_valid s s' mroot d = Ok v.
Proof.
  intros Hb Hstep Hd. destruct (bs_chain_inv _ _ _ Hb) as [Hc _ (v0 & lf & Hv & Hlf & Hinv)].
  destruct (chain_step_numbers _ _ _ Hc Hstep) as (lf0 & lf' & claim & Hlf0 & Hlf' & _ & Hl & _ & Hn & Hmax).
  rewrite Hlf in Hlf0. injection Hlf0 as <-.
  destruct (leaf_digest_Ok (finality_leaf s' (bhs_timestamp (bhs s)) d mroot)) as [leaf Hleaf].
  destruct (new_valid_inv leaves (bs_block_num s) lf lf' (bhs_block_num s') v0 s s' d mroot leaf) as (v & Hv' & _); try done.
  by exists v.
Qed.

Lemma get_validation_mroot_spec leaves ancestors s n :
  bs_inv leaves ancestors s ->
  (exists lf, last_final_block_num (core (bhs s)) = Ok lf /\ lf <= n <= bs_block_num s) ->
  get_validation_mroot s n = calculate_merkle (take (Z.to_nat (n - (bs_block_num s - size_of leaves + 1) + 1)) leaves).
Proof.
  intros [_ _ (v & lf & Hv & Hlf & [Ht Hfirst Hle Hu Hsize Hroots])] (lf0 & Hlf0 & Hn).
  rewrite Hlf in Hlf0. injection Hlf0 as <-. unfold get_validation_mroot. rewrite Hv, Hlf. cbn [mbind result_bind].
  pass_with ltac:(lia). pass_with ltac:(lia).
  destruct (lookup_lt_is_Some_2 (validation_mroots v) (Z.to_nat (n - lf))) as [r Hr]; [unfold size_of in *; lia|].
  rewrite Hr. cbn [at_or_assert]. apply Hroots in Hr. rewrite <- Hr. do 2 f_equal. lia.
Qed.

(** What a block claims as its finality tree root.  For a claim the core
    accepts, [get_finality_mroot_claim] is empty when the claimed block is the
    genesis block, and otherwise the Merkle root of the finality leaves of every
    block from genesis to the claimed one -- however the roots were trimmed and
    the incremental tree was built on the way. *)
Theorem get_finality_mroot_claim_correct (leaves : list digest_type) (ancestors : list block_header_state)
    (s : block_state) (claim latest : qc_claim_t) :
  bs_chain leaves ancestors s -> latest_qc_claim (core (bhs s)) = Ok latest ->
  qc_claim_leb latest claim = true -> claim_block_num claim <= bs_block_num s ->
  exists g, is_genesis_block_num (core (bhs s)) (claim_block_num claim) = Ok g /\
    get_finality_mroot_claim s claim =
      if g then Ok sha256_default
      else calculate_merkle
             (take (Z.to_nat (claim_block_num claim - (bs_block_num s - size_of leaves + 1) + 1)) leaves).
Proof.
  intros Hb Hlatest Hleb Hn. pose proof (bs_chain_inv _ _ _ Hb) as Hinv.
  destruct (chain_inv_reachable _ _ (bi_chain _ _ _ Hinv)) as (f & b & I). pose proof (ci_shape _ _ _ _ I) as S.
  rewrite (latest_qc_claim_Ok S) in Hlatest. injection Hlatest as <-.
  pose proof (qc_claim_leb_num _ _ Hleb) as Hle. cbn in Hle. pose proof (cs_inv2 _ _ _ S).
  pose proof (ci_num _ _ _ _ I) as Hsrc. unfold bs_block_num in Hn.
  destruct (next_metadata_Ok S claim Hleb ltac:(lia)) as (l & _ & Hm).
  unfold get_finality_mroot_claim. rewrite Hm. cbn [mbind result_bind meta_latest_qc_claim_block_num].
  unfold is_genesis_block_num. rewrite (last_final_block_num_Ok S), (current_block_num_Ok S), (links_front_Ok S).
  cbn [mbind result_bind].
  assert (E : (target_block_num f <=? claim_block_num claim) && (claim_block_num claim <=? source_block_num b) = true) by lia.
  rewrite E. eexists. split; [reflexivity|]. cbn [mbind result_bind].
  destruct ((source_block_num f =? target_block_num f) && (source_block_num f =? claim_block_num claim)); [done|].
  apply (get_validation_mroot_spec _ ancestors); [done|].
  exists (target_block_num f). split; [apply (last_final_block_num_Ok S)|]. unfold bs_block_num. lia.
Qed.

(** ** Certificates *)

Lemma get_finalizer_policies_at_Ok ancestors s t claim :
  bhs_chain ancestors (bhs s) -> compute_finality_digest (bhs s) = Ok (strong_digest s) -> t ∈ ancestors ++ [bhs s] ->
  latest_qc_claim (core (bhs s)) = Ok claim -> claim_block_num claim <= bhs_block_num t ->
  exists d, compute_finality_digest t = Ok d /\ get_finalizer_policies_at s (bhs_block_num t)
    = Ok (FinalizerPolicies d (active_finalizer_policy t) (snd <$> pending_finalizer_policy t)).
Proof.
  intros Hc Hd Ht Hclaim Hle.
  destruct (chain_covered _ _ _ _ Hc Ht Hclaim Hle) as (f & b & I & Hcov & Hrange). pose proof (ci_shape _ _ _ _ I) as S.
  unfold get_finalizer_policies_at.
  destruct (Z.eqb_spec (bhs_block_num t) (bs_block_num s)) as [E|E].
  - assert (t = bhs s) as ->.
    { apply (chain_nums _ _ _ _ Hc Ht); [apply elem_of_app; right; by left|done]. }
    exists (strong_digest s). split; [done|].
    assert (Hr : make_block_ref (bhs s) = Ok (bs_make_block_ref s)) by by unfold make_block_ref; rewrite Hd.
    rewrite (get_finalizer_policies_covered (bhs s) (bhs s) f b (bs_make_block_ref s)); [done|apply I..|done|done|].
    unfold block_num. cbn [bs_make_block_ref block_id]. rewrite (ci_id _ _ _ _ I _ Ht). lia.
  - pose proof (ci_num _ _ _ _ I) as Hsrc. pose proof (cs_inv2 _ _ _ S).
    destruct (get_block_reference_Ok S (bhs_block_num t)) as (r & Hr & Hlook & Hn); [unfold bs_block_num in E; lia|].
    rewrite Hr. cbn [mbind result_bind]. apply list_elem_of_lookup_2 in Hlook.
    destruct (ci_refs _ _ _ _ I r Hlook) as (u & Hu & Eu).
    assert (u = t) as ->.
    { apply (chain_nums _ _ _ _ Hc); [apply elem_of_app; by left|done|].
      rewrite <- (ci_id _ _ _ _ I u) by (apply elem_of_app; by left).
      apply make_block_ref_Ok in Eu as (Hid & _). rewrite <- Hid. exact Hn. }
    exists (finality_digest r). pose proof (make_block_ref_Ok _ _ Eu) as (_ & _ & Hdig & _). split; [done|].
    rewrite (get_finalizer_policies_covered t (bhs s) f b r); [done|apply I..|done|done|lia].
Qed.

(** A certificate is verified under the policies of the block it is about:
    for every block [t] from the latest claimed one to the current one, the
    policies a block state verifies a certificate of [t]'s number with are
    those active and pending in [t]'s own state, and the digest is [t]'s. *)
Theorem verify_qc_policies (leaves : list digest_type) (ancestors : list block_header_state) (s : block_state)
    (t : block_header_state) (claim : qc_claim_t) (q : qc_t) :
  bs_chain leaves ancestors s -> t ∈ ancestors ++ [bhs s] -> qc_block_num q = bhs_block_num t ->
  latest_qc_claim (core (bhs s)) = Ok claim -> claim_block_num claim <= bhs_block_num t ->
  exists d, compute_finality_digest t = Ok d /\
    let p := FinalizerPolicies d (active_finalizer_policy t) (snd <$> pending_finalizer_policy t) in
    verify_qc s q = (_ ← verify_basic q p; verify_signatures q p).
Proof.
  intros Hb Ht Hq Hclaim Hle. pose proof (bs_chain_inv _ _ _ Hb) as [Hc Hd _].
  destruct (get_finalizer_policies_at_Ok _ _ _ _ Hc Hd Ht Hclaim Hle) as (d & Hdt & E).
  exists d. split; [done|]. unfold verify_qc. by rewrite Hq, E.
Qed.
End Chain.

(** ** The properties on a concrete chain *)

#[local] Existing Instances example_bls example_hash example_hash_words unit_bls.

(** Examples recover the key a signature starts with. *)
Definition example_recover : RecoverKey := fun sig _ =>
  match sig with n :: _ => Ok (example_key n) | [] => Throw wrong_signing_key end.
#[local] Existing Instance example_recover.

Lemma verify_signee_correct_witness :
  verify_signee [1] sha256_default [[3]] example_authority = Ok () <->
  exists ks, Forall2 (fun sig k => recover_key sig sha256_default = Ok k) [[1]; [3]] ks /\ NoDup ks /\
    (forall k, k ∈ ks -> k ∈ map key (keys example_authority)) /\
    authority_threshold example_authority <=
      Zsum (map kw_weight (filter (fun kw => key kw ∈ ks) (keys example_authority))).
Proof.
  apply (verify_signee_correct [1] sha256_default [[3]] example_authority).
  - split; [by vm_compute|by repeat constructor].
  - by apply (bool_decide_unpack (NoDup (map key (keys example_authority)))); vm_compute.
Defined.

Definition example_block_default : block_state :=
  MkBlockState example_header_state_default sha256_default [] (new_aggregating_qc (FinalizerPolicy 0 0 []) None)
    None false sha256_default None.

Definition example_mroot (n : Z) : digest_type := Sha256 n n n 77.

Definition example_block_0 : block_state :=
  from_ok example_block_default
    (create_if_genesis_block (from_ok sha256_default (calculate_id example_genesis_header))
       example_genesis_header [Sha256 3 3 3 3] example_schedule
       [(finality_extension_id, FinalityExt example_genesis_extension)] (example_mroot 10) true).

Definition example_strong (s : block_header_state) : digest_type := from_ok sha256_default (compute_finality_digest s).

(** The block state of header state [s] after block [prev]. *)
Definition example_block (prev : block_state) (s : block_header_state) : block_state :=
  MkBlockState s (example_strong s) (create_weak_digest (example_strong s))
    (new_aggregating_qc (active_finalizer_policy s) (snd <$> pending_finalizer_policy s))
    (Some (from_ok (Valid empty_merkle_tree []) (new_valid prev s (example_mroot (bhs_block_num s)) (example_strong s))))
    true (example_mroot (bhs_block_num s)) None.

Definition example_leaf (parent : block_timestamp_type) (s : block_header_state) : digest_type :=
  from_ok sha256_default (leaf_digest (finality_leaf s parent (example_strong s) (example_mroot (bhs_block_num s)))).

Definition example_block_1 := example_block example_block_0 example_state_1.
Definition example_block_2 := example_block example_block_1 example_state_2.
Definition example_block_3 := example_block example_block_2 example_state_3.
Definition example_block_4 := example_block example_block_3 example_state_4.

Definition example_leaves : list digest_type :=
  [example_leaf 0 example_state_0; example_leaf 1200 example_state_1; example_leaf 1201 example_state_2;
   example_leaf 1202 example_state_3; example_leaf 1212 example_state_4].

Lemma example_block_step leaves ancestors prev s :
  bs_chain leaves ancestors prev -> bhs_step (bhs prev) s ->
  is_ok (compute_finality_digest s) = true ->
  is_ok (new_valid prev s (example_mroot (bhs_block_num s)) (example_strong s)) = true ->
  bs_chain (leaves ++ [example_leaf (bhs_timestamp (bhs prev)) s]) (ancestors ++ [bhs prev]) (example_block prev s).
Proof.
  intros Hc Hs Hd Hv.
  apply (bs_next leaves ancestors prev (example_block prev s) (example_mroot (bhs_block_num s))
    (from_ok (Valid empty_merkle_tree []) (new_valid prev s (example_mroot (bhs_block_num s)) (example_strong s))));
    cbn [bhs strong_digest valid_data example_block]; try done; by apply from_ok_Ok.
Qed.

Lemma example_bs_chain : bs_chain example_leaves (take 4 example_ancestors) example_block_4.
Proof.
  apply (example_block_step (take 4 example_leaves) (take 3 example_ancestors) example_block_3);
    [|apply (example_step _ example_input_4); by vm_compute|by vm_compute|by vm_compute].
  apply (example_block_step (take 3 example_leaves) (take 2 example_ancestors) example_block_2);
    [|apply (example_step _ example_input_3); by vm_compute|by vm_compute|by vm_compute].
  apply (example_block_step (take 2 example_leaves) (take 1 example_ancestors) example_block_1);
    [|apply (example_step _ example_input_2); by vm_compute|by vm_compute|by vm_compute].
  assert (E : bhs example_block_0 = example_state_0) by by vm_compute.
  pose proof (example_block_step (take 1 example_leaves) [] example_block_0 example_state_1) as H.
  rewrite E in H. apply H; [|apply (example_step _ example_input_1); by vm_compute|by vm_compute|by vm_compute].
  apply (bs_genesis (from_ok sha256_default (calculate_id example_genesis_header)) example_genesis_header [Sha256 3 3 3 3]
    example_schedule [(finality_extension_id, FinalityExt example_genesis_extension)] (example_mroot 10) true);
    by vm_compute.
Qed.

Lemma new_valid_total_witness :
  exists v, new_valid example_block_4 example_state_5 (example_mroot 15) (example_strong example_state_5) = Ok v.
Proof.
  apply (new_valid_total example_leaves (take 4 example_ancestors) example_block_4 example_state_5
    (example_strong example_state_5) (example_mroot 15)); [exact example_bs_chain|exact example_step_5|by vm_compute].
Defined.

Lemma get_finality_mroot_claim_correct_witness :
  exists g, is_genesis_block_num (core (bhs example_block_4)) 14 = Ok g /\
    get_finality_mroot_claim example_block_4 (QcClaim 14 true) =
      if g then Ok sha256_default
      else calculate_merkle (take (Z.to_nat (14 - (bs_block_num example_block_4 - size_of example_leaves + 1) + 1)) example_leaves).
Proof.
  apply (get_finality_mroot_claim_correct example_leaves (take 4 example_ancestors) example_block_4
    (QcClaim 14 true) (QcClaim 13 true)); [exact example_bs_chain|by vm_compute..].
Defined.

Definition example_qc_14 : qc_t := MkQc 14 (sig_of [true; true; false] None) (Some (sig_of [true; true; true; false] None)).

Lemma verify_qc_policies_witness :
  exists d, compute_finality_digest example_state_4 = Ok d /\
    let p := FinalizerPolicies d (active_finalizer_policy example_state_4) (snd <$> pending_finalizer_policy example_state_4) in
    verify_qc example_block_4 example_qc_14
    = (_ ← verify_basic example_qc_14 p; verify_signatures example_qc_14 p).
Proof.
  apply (verify_qc_policies example_leaves (take 4 example_ancestors) example_block_4 example_state_4
    (QcClaim 13 true) example_qc_14);
    [exact example_bs_chain|do 4 right; left|by vm_compute|by vm_compute|by vm_compute].
Defined.
