(* ===== verification/Finalizer.v ===== *)
(** * Finalizers and their safety file

    [finalizer.hpp] and [finalizer.cpp]: the voting rule ([decide_vote]) with
    the safety information it reads and updates, the finalizers of a node
    ([my_finalizers_t]), and the file in which their safety information
    survives a restart.  Signing is the BLS library's ([BlsSign]), the checksum
    boost's ([Crc32]); a CRC object is the bytes it has processed.  The path of
    the file is taken to be set; what the disk does with a save is an argument
    ([disk_outcome]): the file cannot be opened, a write fails before or after the
    head of the file is in the buffer, and what is then in the file is any bytes.
    Operations run under the mutex of [my_finalizers_t], so
    they are atomic. *)

From stdpp Require Import sorting.
From S2P Require Import Prelude ChainTypes Merkle FinalityCore OrderedDiff Policies Qc Raw BlockHeader BlockHeaderState BlockState.

(** ** Data *)

Record finalizer_safety_information : Set := FinalizerSafetyInformation {
  last_vote : block_ref;
  lock : block_ref;
  other_branch_latest_time : block_timestamp_type
}.

#[export] Instance fsi_eq_dec : EqDecision finalizer_safety_information.
Proof. solve_decision. Defined.

Definition fsi_magic : Z := 0x5AFE11115AFE1111.
Definition unset_fsi : finalizer_safety_information :=
  FinalizerSafetyInformation block_ref_default block_ref_default 0.

Inductive vote_decision : Set := no_vote | strong_vote | weak_vote.

#[export] Instance vote_decision_eq_dec : EqDecision vote_decision.
Proof. solve_decision. Defined.

Record vote_result : Set := VoteResult {
  decision : vote_decision;
  safety_check : bool;
  liveness_check : bool;
  monotony_check : bool
}.

(** [bls_private_key::sign]; the library may throw. *)
Class BlsSign : Type := bls_sign : list Z -> list Z -> result (list Z).

(** [boost::crc_32_type] over the bytes processed. *)
Class Crc32 : Type := crc32 : list Z -> Z.

Section Finalizer.
Context {hasher : Sha256Hash} {keyok : BlsKeyValid} {bls : Bls} {sign : BlsSign} {crc : Crc32}.

(** A finalizer's private key and its safety information. *)
Record finalizer : Set := MkFinalizer { priv_key : list Z; fsi : finalizer_safety_information }.

(** ** The voting rule *)

(** The part of [decide_vote] after the checks, when the finalizer can vote:
    the decision and the safety information after it. *)
Definition cast_vote (f : finalizer_safety_information) (s : block_state) :
    result (vote_decision * finalizer_safety_information) :=
  let c := core (bhs s) in
  latest_qc_block_timestamp ← latest_qc_block_timestamp c;
  d ← (if timestamp (last_vote f) <=? latest_qc_block_timestamp then
         Ok (strong_vote, other_branch_latest_time f)
       else
         e ← extends c (block_id (last_vote f));
         Ok (if (e : bool) then
               (if other_branch_latest_time f <=? latest_qc_block_timestamp then strong_vote else weak_vote,
                other_branch_latest_time f)
             else (weak_vote, timestamp (last_vote f))));
  match d.1 with
  | strong_vote =>
      new_lock ← (if timestamp (lock f) <? latest_qc_block_timestamp then
                    claim ← latest_qc_claim c; get_block_reference c (claim_block_num claim)
                  else Ok (lock f));
      Ok (strong_vote, FinalizerSafetyInformation (bs_make_block_ref s) new_lock 0)
  | dec => Ok (dec, FinalizerSafetyInformation (bs_make_block_ref s) (lock f) d.2)
  end.

Definition decide_vote (f : finalizer_safety_information) (s : block_state) :
    result (vote_result * finalizer_safety_information) :=
  let c := core (bhs s) in
  let monotony := block_ref_empty (last_vote f) || (timestamp (last_vote f) <? bhs_timestamp (bhs s)) in
  if negb monotony then
    ASSERT negb (block_ref_empty (last_vote f)) ;;
    Ok (VoteResult no_vote false false false, f)
  else
    checks ←
      (if negb (block_ref_empty (lock f)) then
         qc_ts ← latest_qc_block_timestamp c;
         let liveness := timestamp (lock f) <? qc_ts in
         if liveness then Ok (true, false)
         else safety ← extends c (block_id (lock f)); Ok (false, safety)
       else Ok (false, false));
    let '(liveness, safety) := checks in
    if (liveness : bool) || (safety : bool) then
      v ← cast_vote f s;
      Ok (VoteResult v.1 safety liveness true, v.2)
    else Ok (VoteResult no_vote safety liveness true, f).

(** [finalizer::maybe_update_fsi]: whether it updated, and the information. *)
Definition fin_maybe_update_fsi (f : finalizer_safety_information) (s : block_state) :
    result (bool * finalizer_safety_information) :=
  let c := core (bhs s) in
  claim ← latest_qc_claim c;
  ref ← get_block_reference c (claim_block_num claim);
  Ok (if (timestamp (lock f) <? timestamp ref) && (timestamp (last_vote f) <? bhs_timestamp (bhs s))
      then (true, FinalizerSafetyInformation (bs_make_block_ref s) ref 0)
      else (false, f)).

(** [finalizer::maybe_vote]: a signature that throws is logged and dropped,
    after the safety information has been updated. *)
Definition fin_maybe_vote (f : finalizer) (pub_key : bls_public_key) (s : block_state) (digest : digest_type) :
    result (option vote_message * finalizer) :=
  r ← decide_vote (fsi f) s;
  let f' := MkFinalizer (priv_key f) r.2 in
  let vote strong bytes :=
    match bls_sign (priv_key f) bytes with
    | Ok sig => Some (VoteMessage (id (bhs s)) strong pub_key sig)
    | Throw _ => None
    end in
  Ok (match decision r.1 with
      | strong_vote => vote true (sha256_data digest)
      | weak_vote => vote false (create_weak_digest digest)
      | no_vote => None
      end, f').

(** ** The finalizers of a node *)

Abbreviation fsi_map := (list (bls_public_key * finalizer_safety_information)).

(** The map of the active finalizers, in the order of the keys; the file is
    the content on disk, absent before it is first written.  [file_torn] is not
    a member of the class: it says that the content is not the one that the
    last successful save made, or that its head is not there. *)
Record my_finalizers_t : Set := MyFinalizers {
  node_has_voted : bool;
  my_finalizers : list (bls_public_key * finalizer);
  inactive_safety_info : fsi_map;
  default_fsi : finalizer_safety_information;
  safety_file : option (list Z);
  file_is_open : bool;
  inactive_safety_info_written_pos : nat;
  inactive_crc32 : list Z;
  file_torn : bool
}.

(** [std::map] with the order of the keys' bytes *)
Fixpoint map_find {A} (k : bls_public_key) (m : list (bls_public_key * A)) : option A :=
  match m with
  | [] => None
  | (k', a) :: m => match memcmp k k' with Eq => Some a | _ => map_find k m end
  end.

Fixpoint map_emplace {A} (k : bls_public_key) (a : A) (m : list (bls_public_key * A)) : list (bls_public_key * A) :=
  match m with
  | [] => [(k, a)]
  | (k', a') :: m' =>
      match memcmp k k' with
      | Lt => (k, a) :: m
      | Eq => m
      | Gt => (k', a') :: map_emplace k a m'
      end
  end.

Definition map_erase {A} (k : bls_public_key) (m : list (bls_public_key * A)) : list (bls_public_key * A) :=
  filter (fun p => memcmp k p.1 <> Eq) m.

(** ** The safety file *)

Definition safety_file_version_0 : Z := 0.
Definition safety_file_version_1 : Z := 1.
Definition current_safety_file_version : Z := safety_file_version_1.

(** [pack_v0], [unpack_v0]: a [block_ref] without its generations. *)
Definition c_block_ref_v0 : codec block_ref :=
  c_struct (c_pair c_sha256 (c_pair c_u32 c_sha256)) ref_for_digest
    (fun p => BlockRef p.1 p.2.1 p.2.2 0 0).

(** [pack_v1], [unpack_v1] *)
Definition c_fsi_v1 : codec finalizer_safety_information :=
  c_struct (c_pair c_block_ref_v0 (c_pair c_block_ref_v0 c_u32))
    (fun f => (last_vote f, (lock f, other_branch_latest_time f)))
    (fun p => FinalizerSafetyInformation p.1 p.2.1 p.2.2).

Definition c_bls_public_key : codec bls_public_key := c_bls_array 96 bls_key_valid.

Definition c_entry_v1 : codec (bls_public_key * finalizer_safety_information) :=
  c_pair c_bls_public_key c_fsi_v1.

(** An entry of version 0 ends with the flag that
    [other_branch_latest_time] replaced. *)
Definition unpack_entry_v0 (s : list Z) : result (bls_public_key * finalizer_safety_information * list Z) :=
  k ← unpack c_bls_public_key s;
  lv ← unpack c_block_ref_v0 k.2;
  lk ← unpack c_block_ref_v0 lv.2;
  forked ← unpack c_bool lk.2;
  Ok (k.1, FinalizerSafetyInformation lv.1 lk.1 (if (forked.1 : bool) then timestamp lv.1 else 0), forked.2).

Fixpoint load_entries (unpack_entry : list Z -> result (bls_public_key * finalizer_safety_information * list Z))
    (n : nat) (res : fsi_map) (s : list Z) : result (fsi_map * list Z) :=
  match n with
  | O => Ok (res, s)
  | S n => e ← unpack_entry s; load_entries unpack_entry n (map_emplace e.1.1 e.1.2 res) e.2
  end.

Definition load_finalizer_safety_info_v0 (s : list Z) : result (fsi_map * list Z) :=
  n ← unpack c_u64 s; load_entries unpack_entry_v0 (Z.to_nat n.1) [] n.2.

Definition load_finalizer_safety_info_v1 (s : list Z) : result (fsi_map * list Z) :=
  n ← unpack c_u64 s; load_entries (unpack c_entry_v1) (Z.to_nat n.1) [] n.2.

(** The body of [load_finalizer_safety_info] once the file is open: its
    content is [file]; the checksum is over the bytes read. *)
Definition load_file (file : list Z) : result fsi_map :=
  magic ← unpack c_u64 file;
  EOS_ASSERT magic.1 =? fsi_magic ,, finalizer_safety_exception ;;
  version ← unpack c_u64 magic.2;
  EOS_ASSERT version.1 <=? current_safety_file_version ,, finalizer_safety_exception ;;
  if version.1 =? safety_file_version_0 then
    res ← load_finalizer_safety_info_v0 version.2; Ok res.1
  else
    res ← load_finalizer_safety_info_v1 version.2;
    let calculated_checksum := crc32 (take (length file - length res.2) file) in
    cs ← unpack c_u32 res.2;
    EOS_ASSERT cs.1 =? calculated_checksum ,, finalizer_safety_exception ;;
    Ok res.1.

Definition load_finalizer_safety_info (m : my_finalizers_t) : result fsi_map :=
  EOS_ASSERT negb (file_is_open m) ,, finalizer_safety_exception ;;
  match safety_file m with None => Ok [] | Some file => load_file file end.

Definition active_entries (m : my_finalizers_t) : fsi_map := map (fun p => (p.1, fsi p.2)) (my_finalizers m).

(** Writing [bytes] at [pos] of a file; a gap before them is zeros. *)
Definition write_at (pos : nat) (bytes file : list Z) : list Z :=
  take pos file ++ repeat 0 (pos - length file) ++ bytes ++ drop (pos + length bytes) file.

(** Magic number, version, number of entries and the inactive entries. *)
Definition file_head (m : my_finalizers_t) : result (list Z) :=
  magic ← pack c_u64 fsi_magic;
  version ← pack c_u64 current_safety_file_version;
  n ← pack c_u64 (wrap64 (size_of (my_finalizers m) + size_of (inactive_safety_info m)));
  es ← pack_elements c_entry_v1 (inactive_safety_info m);
  Ok (magic ++ version ++ n ++ es).

(** What the disk does during a save: it writes; it does not let the file be
    opened; or it fails after the file is open, at the latest in the flush, and
    leaves some bytes in the file.  What has been written by then is in a
    buffer, so it may fail with the head ([head_passed]) or before. *)
Inductive disk_outcome : Set := disk_ok | open_fails | write_fails (head_passed : bool) (rest : list Z).

#[export] Instance disk_outcome_eq_dec : EqDecision disk_outcome.
Proof. solve_decision. Defined.

Definition with_file (m : my_finalizers_t) (file : list Z) (pos : nat) (processed : list Z) (torn : bool) : my_finalizers_t :=
  MyFinalizers (node_has_voted m) (my_finalizers m) (inactive_safety_info m) (default_fsi m)
    (Some file) true pos processed torn.

(** [save_finalizer_safety_info]: whether it succeeded, and the state.  The
    first save truncates the file and writes the head; later ones only
    overwrite what follows it.  The position after the head and its checksum
    are set once the head is in the stream, so they stay when what follows, or
    the flush, fails: the next save then takes the head to be on the disk. *)
Definition save_finalizer_safety_info (disk : disk_outcome) (m : my_finalizers_t) : bool * my_finalizers_t :=
  if negb (file_is_open m) && bool_decide (disk = open_fails) then (false, m)
  else
    let file := if file_is_open m then default [] (safety_file m) else [] in
    let head :=
      if (inactive_safety_info_written_pos m =? 0)%nat then
        h ← file_head m; Ok (write_at 0 h file, length h, h)
      else Ok (file, inactive_safety_info_written_pos m, inactive_crc32 m) in
    match disk, head with
    | write_fails true rest, Ok (_, pos, processed) =>
        (false, with_file m rest pos processed (file_torn m || negb (bool_decide (safety_file m = Some rest))))
    | write_fails _ rest, _ =>
        (false, with_file m rest (inactive_safety_info_written_pos m) (inactive_crc32 m)
                  (file_torn m || negb (bool_decide (safety_file m = Some rest))))
    | _, _ =>
        let written :=
          r ← head;
          let '(file, pos, processed) := r in
          es ← pack_elements c_entry_v1 (active_entries m);
          cs ← pack c_u32 (crc32 (processed ++ es));
          Ok (write_at pos (es ++ cs) file, pos, processed) in
        match written with
        | Throw _ => (false, with_file m file (inactive_safety_info_written_pos m) (inactive_crc32 m) true)
        | Ok (file, pos, processed) => (true, with_file m file pos processed (negb (bool_decide (take pos file = processed))))
        end
    end.

(** ** Operations on the finalizers *)

Definition with_finalizers (m : my_finalizers_t) (fs : list (bls_public_key * finalizer)) : my_finalizers_t :=
  MyFinalizers (node_has_voted m) fs (inactive_safety_info m) (default_fsi m) (safety_file m) (file_is_open m)
    (inactive_safety_info_written_pos m) (inactive_crc32 m) (file_torn m).

(** The authority of a key in a policy, if it is there. *)
Fixpoint in_policy (fs : list finalizer_authority) (k : bls_public_key) : option finalizer_authority :=
  match fs with
  | [] => None
  | f :: fs => if decide (public_key f = k) then Some f else in_policy fs k
  end.

Definition vote_t : Set := vote_message * option finalizer_authority * option finalizer_authority.

(** The loop of [my_finalizers_t::maybe_vote]. *)
Fixpoint collect_votes (s : block_state) (fs : list (bls_public_key * finalizer)) :
    result (list vote_t * list (bls_public_key * finalizer)) :=
  match fs with
  | [] => Ok ([], [])
  | (k, f) :: fs =>
      let active_auth := in_policy (finalizers (active_finalizer_policy (bhs s))) k in
      let pending_auth := p ← pending_finalizer_policy (bhs s); in_policy (finalizers p.2) k in
      r ← (if bool_decide (is_Some active_auth) || bool_decide (is_Some pending_auth) then
             fin_maybe_vote f k s (strong_digest s)
           else Ok (None, f));
      rest ← collect_votes s fs;
      Ok (match r.1 with Some vote => (vote, active_auth, pending_auth) :: rest.1 | None => rest.1 end,
          (k, r.2) :: rest.2)
  end.

(** [my_finalizers_t::maybe_vote]: the votes given to [process_vote], which
    are none when the safety information could not be saved. *)
Definition maybe_vote (disk : disk_outcome) (m : my_finalizers_t) (s : block_state) : result (list vote_t * my_finalizers_t) :=
  match my_finalizers m with
  | [] => Ok ([], m)
  | fs =>
      r ← collect_votes s fs;
      let m := with_finalizers m r.2 in
      match r.1 with
      | [] => Ok ([], m)
      | votes =>
          let m := MyFinalizers true (my_finalizers m) (inactive_safety_info m) (default_fsi m) (safety_file m)
                     (file_is_open m) (inactive_safety_info_written_pos m) (inactive_crc32 m) (file_torn m) in
          let '(saved, m) := save_finalizer_safety_info disk m in
          Ok (if (saved : bool) then votes else [], m)
      end
  end.

Definition has_voted_strong (fs : list finalizer_authority) (q : qc_sig_t) (k : bls_public_key) : result bool :=
  ASSERT qc_sig_is_strong q ;;
  match find_index k fs with
  | None => Ok false
  | Some index =>
      bits ← at_or_assert (strong_votes q);
      at_or_assert (bits !! index)
  end.

(** The loop of [my_finalizers_t::maybe_update_fsi]. *)
Fixpoint update_all_fsi (s : block_state) (q : qc_t) (fs : list (bls_public_key * finalizer)) :
    result (bool * list (bls_public_key * finalizer)) :=
  match fs with
  | [] => Ok (false, [])
  | (k, f) :: fs =>
      a ← has_voted_strong (finalizers (active_finalizer_policy (bhs s))) (active_policy_sig q) k;
      v ← (if (a : bool) then Ok true
           else match pending_finalizer_policy (bhs s) with
                | None => Ok false
                | Some p => sig ← at_or_assert (pending_policy_sig q); has_voted_strong (finalizers p.2) sig k
                end);
      r ← (if (v : bool) then
             u ← fin_maybe_update_fsi (fsi f) s; Ok (u.1, MkFinalizer (priv_key f) u.2)
           else Ok (false, f));
      rest ← update_all_fsi s q fs;
      Ok (r.1 || rest.1, (k, r.2) :: rest.2)
  end.

Definition maybe_update_fsi (disk : disk_outcome) (m : my_finalizers_t) (s : block_state) (q : qc_t) : result my_finalizers_t :=
  match my_finalizers m with
  | [] => Ok m
  | fs =>
      if node_has_voted m then Ok m
      else
        EOS_ASSERT negb (bool_decide (is_Some (pending_finalizer_policy (bhs s))))
                   || bool_decide (is_Some (pending_policy_sig q)) ,, invalid_qc_claim ;;
        r ← update_all_fsi s q fs;
        let m := with_finalizers m r.2 in
        Ok (if (r.1 : bool) then (save_finalizer_safety_info disk m).2 else m)
  end.

(** [set_keys]: the configured keys, already parsed, in the order of their
    strings. *)
Definition set_keys (m : my_finalizers_t) (finalizer_keys : list (bls_public_key * list Z)) : result my_finalizers_t :=
  match finalizer_keys with
  | [] => Ok m
  | _ =>
      ASSERT bool_decide (my_finalizers m = []) ;;
      safety_info ← load_finalizer_safety_info m;
      let fs := foldl (fun fs p =>
        let info := match map_find p.1 safety_info with Some i => i | None => default_fsi m end in
        map_emplace p.1 (MkFinalizer p.2 info) fs) (my_finalizers m) finalizer_keys in
      let inactive := foldl (fun info p => map_erase p.1 info) safety_info finalizer_keys in
      Ok (MyFinalizers (node_has_voted m) fs inactive (default_fsi m) (safety_file m) (file_is_open m)
            (inactive_safety_info_written_pos m) (inactive_crc32 m) (file_torn m))
  end.

Definition set_default_safety_information (m : my_finalizers_t) (info : finalizer_safety_information) : my_finalizers_t :=
  MyFinalizers (node_has_voted m)
    (map (fun p => (p.1,
       if negb (block_ref_empty (last_vote (fsi p.2))) || negb (block_ref_empty (lock (fsi p.2))) then p.2
       else MkFinalizer (priv_key p.2) info)) (my_finalizers m))
    (inactive_safety_info m) info (safety_file m) (file_is_open m)
    (inactive_safety_info_written_pos m) (inactive_crc32 m) (file_torn m).

(** A node that starts: what is left of an earlier run is the file. *)
Definition new_my_finalizers (file : option (list Z)) : my_finalizers_t :=
  MyFinalizers false [] [] unset_fsi file false 0 [] false.
End Finalizer.

(** ** Maps *)

Definition key_lt {A} (a b : bls_public_key * A) : Prop := memcmp a.1 b.1 = Lt.
Abbreviation map_sorted := (StronglySorted key_lt).

Lemma memcmp_Gt a b : memcmp a b = Gt -> memcmp b a = Lt.
Proof. intros H. by rewrite memcmp_antisym, H. Qed.

Section Maps.
Context {A : Type}.
Implicit Types (m : list (bls_public_key * A)) (k : bls_public_key).

Lemma map_find_cons k k' a m :
  map_find k ((k', a) :: m) = if decide (k = k') then Some a else map_find k m.
Proof.
  cbn [map_find]. case_decide as Hk; [subst k'; by rewrite memcmp_refl|].
  destruct (memcmp k k') eqn:E; [|done..]. by apply memcmp_eq in E.
Qed.

Lemma map_find_elem k a m : map_find k m = Some a -> (k, a) ∈ m.
Proof.
  induction m as [|[k' a'] m IH]; [done|]. rewrite map_find_cons.
  case_decide as Hk; [subst k'; intros [= <-]; by left | intros H; right; auto].
Qed.

Lemma map_find_None k m : map_find k m = None <-> ~ k ∈ map fst m.
Proof.
  induction m as [|[k' a'] m IH]; [split; [intros _ H; by apply elem_of_nil in H|done]|].
  rewrite map_find_cons. cbn [map fst]. rewrite elem_of_cons. case_decide; naive_solver.
Qed.

Lemma map_find_app k m1 m2 :
  map_find k (m1 ++ m2) = match map_find k m1 with Some a => Some a | None => map_find k m2 end.
Proof.
  induction m1 as [|[k' a'] m1 IH]; [done|]. cbn [app]. rewrite !map_find_cons. by case_decide.
Qed.

Lemma map_emplace_elem k a m p : p ∈ map_emplace k a m -> p = (k, a) \/ p ∈ m.
Proof.
  induction m as [|[k' a'] m IH]; cbn [map_emplace].
  - intros H. apply list_elem_of_singleton in H. by left.
  - destruct (memcmp k k'); intros H.
    + by right.
    + apply elem_of_cons in H as [->|H]; [by left|by right].
    + apply elem_of_cons in H as [->|H]; [right; by left|]. apply IH in H as [->|H]; [by left|right; by right].
Qed.

Lemma map_emplace_sorted k a m : map_sorted m -> map_sorted (map_emplace k a m).
Proof.
  induction 1 as [|[k' a'] m Hs IH Hf]; cbn [map_emplace].
  { repeat constructor. }
  destruct (memcmp k k') eqn:E.
  - by constructor.
  - constructor; [by constructor|]. constructor; [done|].
    eapply Forall_impl; [exact Hf|]. intros [k2 a2] H. unfold key_lt in *. cbn in *. by eapply memcmp_trans.
  - constructor; [done|]. apply Forall_forall. intros p [->|Hp]%map_emplace_elem.
    + unfold key_lt. cbn. by apply memcmp_Gt.
    + rewrite Forall_forall in Hf. by apply Hf.
Qed.

Lemma map_find_above k m : Forall (fun p => memcmp k p.1 = Lt) m -> map_find k m = None.
Proof.
  intros H. apply map_find_None. intros Hk. apply list_elem_of_In, in_map_iff in Hk as ((k2 & a) & <- & Hin).
  rewrite Forall_forall in H. specialize (H (k2, a)). cbn in H. rewrite memcmp_refl in H.
  apply list_elem_of_In in Hin. by specialize (H Hin).
Qed.

Lemma map_find_emplace k k' a m : map_sorted m ->
  map_find k' (map_emplace k a m) =
    if decide (k' = k) then Some (default a (map_find k m)) else map_find k' m.
Proof.
  induction 1 as [|[k1 a1] m Hs IH Hf]; cbn [map_emplace].
  { rewrite map_find_cons. by case_decide. }
  destruct (memcmp k k1) eqn:E.
  - apply memcmp_eq in E as ->. rewrite !map_find_cons.
    case_decide as Hk; [|done]. by rewrite decide_True.
  - rewrite map_find_cons. case_decide as Hk; [|done]. subst k'.
    rewrite map_find_above; [done|]. constructor; [done|].
    eapply Forall_impl; [exact Hf|]. intros [k2 a2] H. unfold key_lt in H. cbn in *. by eapply memcmp_trans.
  - rewrite !map_find_cons, IH. destruct (decide (k' = k1)) as [->|].
    + rewrite decide_False; [done|]. intros ->. by rewrite memcmp_refl in E.
    + case_decide; [|done]. subst k'. by rewrite decide_False.
Qed.

Lemma map_find_erase k k' m : map_find k' (map_erase k m) = if decide (k' = k) then None else map_find k' m.
Proof.
  unfold map_erase. induction m as [|[k1 a1] m IH]; [cbn; by case_decide|].
  rewrite filter_cons. cbn [fst]. destruct (decide (memcmp k k1 <> Eq)) as [Hd|Hd].
  - rewrite !map_find_cons, IH. destruct (decide (k' = k1)) as [->|]; [|done].
    rewrite decide_False; [done|]. intros ->. by rewrite memcmp_refl in Hd.
  - assert (memcmp k k1 = Eq) as Hk by (destruct (memcmp k k1); naive_solver). apply memcmp_eq in Hk as ->.
    rewrite IH, map_find_cons. by case_decide.
Qed.

Lemma map_erase_sorted k m : map_sorted m -> map_sorted (map_erase k m).
Proof.
  unfold map_erase. induction 1 as [|p m Hs IH Hf]; [constructor|]. rewrite filter_cons. case_decide; [|done].
  constructor; [done|]. apply Forall_forall. intros q [_ Hq]%list_elem_of_filter.
  rewrite Forall_forall in Hf. by apply Hf.
Qed.

Lemma map_sorted_find k a m : map_sorted m -> (k, a) ∈ m -> map_find k m = Some a.
Proof.
  induction 1 as [|[k1 a1] m Hs IH Hf]; intros H; [by apply elem_of_nil in H|].
  rewrite map_find_cons. apply elem_of_cons in H as [[= -> ->]|H]; [by rewrite decide_True|].
  rewrite decide_False; [auto|]. intros ->. rewrite Forall_forall in Hf. specialize (Hf _ H).
  unfold key_lt in Hf. cbn in Hf. by rewrite memcmp_refl in Hf.
Qed.
Lemma map_sorted_NoDup m : map_sorted m -> NoDup (map fst m).
Proof.
  induction 1 as [|q l _ IH Hf]; [constructor|]. cbn. constructor; [|done].
  intros Hin. apply list_elem_of_In, in_map_iff in Hin as (q2 & Hq & Hin). apply list_elem_of_In in Hin.
  rewrite Forall_forall in Hf. specialize (Hf _ Hin). unfold key_lt in Hf. by rewrite Hq, memcmp_refl in Hf.
Qed.
End Maps.

(** Only the keys matter for the order. *)
Lemma map_sorted_keys {A B} (m1 : list (bls_public_key * A)) (m2 : list (bls_public_key * B)) :
  map fst m1 = map fst m2 -> map_sorted m1 -> map_sorted m2.
Proof.
  intros E H. revert m2 E. induction H as [|[k a] m1 Hs IH Hf]; intros [|[k2 b] m2] E; try done; [constructor|].
  cbn in E. injection E as -> E. constructor; [by apply IH|].
  apply Forall_forall. intros [k' b'] Hin. unfold key_lt. cbn.
  assert (k' ∈ map fst m1) as Hk.
  { rewrite E. apply list_elem_of_In, in_map_iff. exists (k', b'). split; [done|by apply list_elem_of_In]. }
  apply list_elem_of_In, in_map_iff in Hk as ((k3 & a3) & <- & Hin3). apply list_elem_of_In in Hin3.
  rewrite Forall_forall in Hf. exact (Hf _ Hin3).
Qed.

Lemma map_find_map {A B} (f : A -> B) k (m : list (bls_public_key * A)) :
  map_find k (map (fun p => (p.1, f p.2)) m) = f <$> map_find k m.
Proof.
  induction m as [|[k' a] m IH]; [done|]. cbn [map fst snd]. rewrite !map_find_cons. by case_decide.
Qed.

(** ** The safety file, proofs *)

(** What the file does not keep of a reference: its generations. *)
Definition forget_generations (r : block_ref) : block_ref :=
  BlockRef (block_id r) (timestamp r) (finality_digest r) 0 0.
Definition stored_fsi (f : finalizer_safety_information) : finalizer_safety_information :=
  FinalizerSafetyInformation (forget_generations (last_vote f)) (forget_generations (lock f))
    (other_branch_latest_time f).

(** The members have their widths. *)
Definition ref_wf (r : block_ref) : Prop :=
  sha256_wf (block_id r) /\ u32 (timestamp r) /\ sha256_wf (finality_digest r).
Record fsi_wf (f : finalizer_safety_information) : Prop := {
  fw_last_vote : ref_wf (last_vote f);
  fw_lock : ref_wf (lock f);
  fw_other : u32 (other_branch_latest_time f)
}.

Lemma sha256_default_wf : sha256_wf sha256_default.
Proof. by vm_compute. Qed.

Lemma unset_fsi_wf : fsi_wf unset_fsi.
Proof. split; [split; [apply sha256_default_wf|split; [done|apply sha256_default_wf]]..|done]. Qed.

Lemma stored_fsi_wf f : fsi_wf f -> fsi_wf (stored_fsi f).
Proof. intros [? ? ?]. by split. Qed.

Lemma pack_elements_app {A} (c : codec A) l1 l2 b1 b2 :
  pack_elements c l1 = Ok b1 -> pack_elements c l2 = Ok b2 -> pack_elements c (l1 ++ l2) = Ok (b1 ++ b2).
Proof.
  revert b1. induction l1 as [|a l1 IH]; intros b1 H1 H2; cbn [app pack_elements] in *; inv_result; [done|].
  rewrite E, (IH _ E0 H2). cbn. by rewrite app_assoc.
Qed.

Section File.
Context {keyok : BlsKeyValid} {crc : Crc32}.

#[local] Instance c_fsi_v1_ok : CodecOk c_fsi_v1.
Proof. unfold c_fsi_v1, c_block_ref_v0. apply _. Qed.
#[local] Instance c_entry_v1_ok : CodecOk c_entry_v1.
Proof. unfold c_entry_v1, c_bls_public_key. apply _. Qed.

Definition key_ok (k : bls_public_key) : Prop := length k = 96%nat /\ bls_key_valid k = true.
Definition entry_ok (e : bls_public_key * finalizer_safety_information) : Prop := key_ok e.1 /\ fsi_wf e.2.
Definition stored_entry (e : bls_public_key * finalizer_safety_information) := (e.1, stored_fsi e.2).

Lemma entry_pack e : exists bs, pack c_entry_v1 e = Ok bs /\ pack c_entry_v1 (stored_entry e) = Ok bs /\
  length bs = (length (pack_unsigned_int 10 96) + length e.1 + 140)%nat.
Proof.
  pose (ref r := sha256_data (block_id r) ++ le_bytes 4 (timestamp r) ++ sha256_data (finality_digest r)).
  exists ((pack_unsigned_int 10 96 ++ e.1) ++ ref (last_vote e.2) ++ ref (lock e.2)
            ++ le_bytes 4 (other_branch_latest_time e.2)).
  split_and!; [reflexivity..|]. unfold ref, sha256_data. rewrite !length_app, !length_le_bytes. lia.
Qed.

Lemma stored_entry_valid e : entry_ok e -> valid c_entry_v1 (stored_entry e).
Proof.
  destruct e as [k [[] [] o]]. intros [[Hlen Hk] [(H1 & H2 & H3) (H4 & H5 & H6) H7]]. cbn in *.
  split_and!; try done; unfold u32 in *; lia.
Qed.

Lemma entries_pack l : exists bs, pack_elements c_entry_v1 l = Ok bs /\
  length bs = list_sum (map (fun e => length (pack_unsigned_int 10 96) + length e.1 + 140)%nat l).
Proof.
  induction l as [|e l (bs & Hbs & IH)]; [by exists []|].
  destruct (entry_pack e) as (b & Hb & _ & Hl). cbn [pack_elements]. rewrite Hb, Hbs.
  eexists. split; [reflexivity|]. rewrite length_app, IH, Hl. done.
Qed.

Lemma load_entries_pack l res bs rest :
  Forall entry_ok l -> pack_elements c_entry_v1 l = Ok bs ->
  load_entries (unpack c_entry_v1) (length l) res (bs ++ rest) =
    Ok (foldl (fun r e => map_emplace e.1 (stored_fsi e.2) r) res l, rest).
Proof.
  intros Hl. revert res bs. induction Hl as [|e l He _ IH]; intros res bs H; cbn [pack_elements] in H; inv_result; [done|].
  destruct (entry_pack e) as (b & Hb & Hb' & _). rewrite Hb in E. injection E as <-.
  cbn [length load_entries foldl]. rewrite <- app_assoc.
  rewrite (codec_ok (c := c_entry_v1) (stored_entry e) b) by (done || by apply stored_entry_valid).
  cbn [mbind result_bind fst snd stored_entry]. by apply IH.
Qed.

Lemma find_loaded l res k : map_sorted res ->
  map_sorted (foldl (fun r e => map_emplace e.1 (stored_fsi e.2) r) res l) /\
  map_find k (foldl (fun r e => map_emplace e.1 (stored_fsi e.2) r) res l) =
    match map_find k res with Some f => Some f | None => stored_fsi <$> map_find k l end.
Proof.
  revert res. induction l as [|[k1 f1] l IH]; intros res Hs; cbn [foldl fst snd].
  - split; [done|]. by destruct (map_find k res).
  - destruct (IH (map_emplace k1 (stored_fsi f1) res)) as [Hs' ->]; [by apply map_emplace_sorted|].
    split; [done|]. rewrite map_find_emplace, map_find_cons by done.
    case_decide as Hk; [subst k1|done]. by destruct (map_find k res).
Qed.

(** The bytes of a file: the head, the active entries and the checksum. *)
Definition file_content (h es : list Z) : list Z := h ++ es ++ le_bytes 4 (crc32 (h ++ es)).

(** Checksums are 32 bits. *)
Definition crc_width : Prop := forall bs, u32 (crc32 bs).

Lemma load_file_content m h es rest :
  crc_width -> Forall entry_ok (inactive_safety_info m) -> Forall entry_ok (active_entries m) ->
  size_of (my_finalizers m) + size_of (inactive_safety_info m) < 2 ^ 64 ->
  file_head m = Ok h -> pack_elements c_entry_v1 (active_entries m) = Ok es ->
  load_file (file_content h es ++ rest) =
    Ok (foldl (fun r e => map_emplace e.1 (stored_fsi e.2) r) [] (inactive_safety_info m ++ active_entries m)).
Proof.
  intros Hcrc Hi Ha Hn Hh Hes. unfold file_head in Hh.
  change (pack c_u64 fsi_magic) with (@Ok (list Z) (le_bytes 8 fsi_magic)) in Hh.
  change (pack c_u64 current_safety_file_version) with (@Ok (list Z) (le_bytes 8 1)) in Hh.
  set (n := size_of (my_finalizers m) + size_of (inactive_safety_info m)) in *.
  change (pack c_u64 (wrap64 n)) with (@Ok (list Z) (le_bytes 8 (wrap64 n))) in Hh.
  rewrite wrap64_id in Hh by (unfold u64, n, size_of in *; lia). cbn [mbind result_bind] in Hh.
  apply bind_Ok in Hh as (bi & Hbi & Hh').
  assert (h = le_bytes 8 fsi_magic ++ le_bytes 8 1 ++ le_bytes 8 n ++ bi) as -> by congruence. clear Hh'.
  set (h := le_bytes 8 fsi_magic ++ le_bytes 8 1 ++ le_bytes 8 n ++ bi).
  unfold file_content. set (cs := crc32 (h ++ es)). set (file := (h ++ es ++ le_bytes 4 cs) ++ rest).
  assert (Htake : take (length file - length (le_bytes 4 cs ++ rest)) file = h ++ es).
  { unfold file. rewrite !app_assoc, <- (app_assoc (h ++ es)), (length_app (h ++ es)), Nat.add_sub. apply take_app_length. }
  assert (Hfile : file = le_bytes 8 fsi_magic ++ le_bytes 8 1 ++ le_bytes 8 n ++ (bi ++ es) ++ le_bytes 4 cs ++ rest).
  { unfold file, h. by rewrite <- !app_assoc. }
  unfold load_file. rewrite Hfile at 1.
  rewrite (codec_ok (c := c_u64) fsi_magic (le_bytes 8 fsi_magic)) by done. cbn [mbind result_bind fst snd].
  pass_with ltac:(done).
  rewrite (codec_ok (c := c_u64) 1 (le_bytes 8 1)) by done. cbn [mbind result_bind fst snd].
  pass_with ltac:(done). change (1 =? safety_file_version_0) with false. cbn iota.
  unfold load_finalizer_safety_info_v1.
  rewrite (codec_ok (c := c_u64) n (le_bytes 8 n)) by (done || (unfold n, size_of in *; cbn [valid c_u64 c_uint]; change (2 ^ (8 * Z.of_nat 8)) with (2 ^ 64); lia)).
  cbn [mbind result_bind fst snd].
  replace (Z.to_nat n) with (length (inactive_safety_info m ++ active_entries m))
    by (unfold n, active_entries, size_of; rewrite length_app, length_map; lia).
  rewrite (load_entries_pack _ [] (bi ++ es)) by (by apply Forall_app || by apply pack_elements_app).
  cbn [mbind result_bind fst snd]. rewrite Htake. fold cs.
  rewrite (codec_ok (c := c_u32) cs (le_bytes 4 cs)) by (exact (Hcrc _) || done). cbn [mbind result_bind fst snd].
  pass_with ltac:(apply Z.eqb_refl). done.
Qed.
End File.

(** ** What an operation does to the safety information *)

Section Steps.
Context {hasher : Sha256Hash} {keyok : BlsKeyValid} {bls : Bls} {sign : BlsSign} {crc : Crc32}.

(** The safety information moves to the block [s]. *)
Record fsi_moved (s : block_state) (f f' : finalizer_safety_information) : Prop := {
  fm_last_vote : last_vote f' = bs_make_block_ref s;
  fm_later : block_ref_empty (last_vote f) = true \/ timestamp (last_vote f) < bhs_timestamp (bhs s);
  fm_lock : lock f' = lock f \/ lock f' ∈ refs (core (bhs s));
  fm_other : other_branch_latest_time f' ∈ [0; other_branch_latest_time f; timestamp (last_vote f)]
}.

Lemma get_block_reference_elem c n r : get_block_reference c n = Ok r -> r ∈ refs c.
Proof. unfold get_block_reference. intros H. inv_result. by eapply list_elem_of_lookup_2. Qed.

Lemma cast_vote_moved f s d f' :
  block_ref_empty (last_vote f) = true \/ timestamp (last_vote f) < bhs_timestamp (bhs s) ->
  cast_vote f s = Ok (d, f') -> d <> no_vote /\ fsi_moved s f f'.
Proof.
  intros Hl H. unfold cast_vote in H. inv_result.
  assert (x0.1 <> no_vote /\ x0.2 ∈ [0; other_branch_latest_time f; timestamp (last_vote f)]) as [Hd Ho].
  { destruct (_ <=? _); inv_result; cbn [fst snd]; [split; [done|set_solver]|].
    destruct (x1 : bool); cbn [fst snd]; [destruct (_ <=? _)|]; (split; [done|set_solver]). }
  destruct (x0.1) eqn:E1; [done| |].
  - inv_result. split; [done|]. split; cbn; [done|done| |set_solver].
    destruct (_ <? _); inv_result; [right|by left]. by eapply get_block_reference_elem.
  - injection H as <- <-. split; [done|]. split; cbn; [done|done|by left|done].
Qed.

Lemma decide_vote_moved f s r f' :
  decide_vote f s = Ok (r, f') ->
  (decision r = no_vote /\ f' = f) \/ (decision r <> no_vote /\ fsi_moved s f f').
Proof.
  intros H. unfold decide_vote in H.
  destruct (negb _) eqn:Hm; [inv_result; by left|].
  apply negb_false_iff, orb_true_iff in Hm. rewrite Z.ltb_lt in Hm.
  apply bind_Ok in H as ([liveness safety] & _ & H).
  destruct (liveness || safety).
  - apply bind_Ok in H as ([d f2] & Hc & H). injection H as <- <-. right. by apply cast_vote_moved.
  - injection H as <- <-. by left.
Qed.

Lemma fin_maybe_update_fsi_moved f s r :
  fin_maybe_update_fsi f s = Ok r -> r.2 = f /\ r.1 = false \/ fsi_moved s f r.2 /\ r.1 = true.
Proof.
  intros H. unfold fin_maybe_update_fsi in H. inv_result. destruct (_ && _) eqn:E1; [right|by left].
  apply andb_true_iff in E1 as [_ Hlt]. split; [|done]. split; cbn; [done| |right|set_solver].
  - right. lia.
  - by eapply get_block_reference_elem.
Qed.

Definition fsi_evolves (s : block_state) (p p' : bls_public_key * finalizer) : Prop :=
  p.1 = p'.1 /\ (fsi p'.2 = fsi p.2 \/ fsi_moved s (fsi p.2) (fsi p'.2)).

Definition vote_key (v : vote_t) : bls_public_key := finalizer_key v.1.1.

Lemma fin_maybe_vote_spec f k s d v f' :
  fin_maybe_vote f k s d = Ok (v, f') ->
  (fsi f' = fsi f \/ fsi_moved s (fsi f) (fsi f')) /\
  (forall msg, v = Some msg -> finalizer_key msg = k /\ vote_block_id msg = id (bhs s) /\ fsi_moved s (fsi f) (fsi f')).
Proof.
  intros H. unfold fin_maybe_vote in H. apply bind_Ok in H as ([r f2] & Hd & H).
  injection H as <- <-. cbn [fst snd fsi].
  apply decide_vote_moved in Hd as [[-> ->]|[Hn Hm]]; [by split; [left|]|].
  split; [by right|]. intros msg Hmsg.
  destruct (decision r); [done| |]; destruct (bls_sign _ _); (done || (injection Hmsg as <-; done)).
Qed.

Lemma collect_votes_spec s fs votes fs' :
  collect_votes s fs = Ok (votes, fs') ->
  Forall2 (fsi_evolves s) fs fs' /\ map vote_key votes `sublist_of` map fst fs /\
  Forall (fun v => vote_block_id v.1.1 = id (bhs s) /\ exists f f', (vote_key v, f) ∈ fs /\ (vote_key v, f') ∈ fs' /\
    fsi_moved s (fsi f) (fsi f')) votes.
Proof.
  revert votes fs'. induction fs as [|[k f] fs IH]; intros votes fs' H; cbn [collect_votes] in H.
  { injection H as <- <-. by repeat constructor. }
  apply bind_Ok in H as ([v f'] & Hv & H). apply bind_Ok in H as ([votes1 fs1] & H1 & H).
  cbn [fst snd] in H. injection H as <- <-. destruct (IH _ _ H1) as (He & Hs & Hf).
  assert (Hlift : Forall (fun v => vote_block_id v.1.1 = id (bhs s) /\ exists f0 f0', (vote_key v, f0) ∈ (k, f) :: fs /\
      (vote_key v, f0') ∈ (k, f') :: fs1 /\ fsi_moved s (fsi f0) (fsi f0')) votes1).
  { eapply Forall_impl; [exact Hf|]. intros v' (Hi & f0 & f0' & ? & ? & ?).
    split; [done|]. exists f0, f0'. split_and!; [by right..|done]. }
  destruct (_ || _) in Hv.
  - apply fin_maybe_vote_spec in Hv as [Hev Hmsg]. destruct v as [msg|].
    + destruct (Hmsg msg eq_refl) as (Hk & Hid & Hm). split_and!.
      * by constructor.
      * cbn [map fst]. unfold vote_key at 1. cbn [fst]. rewrite Hk. by constructor.
      * constructor; [|done]. unfold vote_key. cbn [fst]. rewrite Hk. split; [done|].
        exists f, f'. split_and!; [by left..|done].
    + split_and!; [by constructor| cbn [map fst]; by constructor |done].
  - injection Hv as <- <-. split_and!; [|cbn [map fst]; by constructor|done].
    constructor; [split; [done|by left]|done].
Qed.

Lemma update_all_fsi_spec s q fs r :
  update_all_fsi s q fs = Ok r -> Forall2 (fsi_evolves s) fs r.2 /\ (r.1 = false -> map (fun p => fsi p.2) r.2 = map (fun p => fsi p.2) fs).
Proof.
  revert r. induction fs as [|[k f] fs IH]; intros r H; cbn [update_all_fsi] in H.
  { injection H as <-. by split; [constructor|]. }
  apply bind_Ok in H as (a & _ & H). apply bind_Ok in H as (v & _ & H).
  apply bind_Ok in H as ([u f'] & Hu & H). apply bind_Ok in H as (rest & Hr & H).
  injection H as <-. cbn [fst snd]. destruct (IH _ Hr) as [He Hsame].
  assert (Hf : (fsi f' = fsi f /\ u = false) \/ (fsi_moved s (fsi f) (fsi f') /\ u = true)).
  { destruct (v : bool); [|injection Hu as <- <-; by left].
    apply bind_Ok in Hu as (w & Hw & Hu). injection Hu as <- <-. cbn [fsi].
    by apply fin_maybe_update_fsi_moved in Hw. }
  split.
  - constructor; [|done]. split; [done|]. cbn. tauto.
  - intros [-> Hrest]%orb_false_iff. cbn [map snd]. f_equal; [|auto]. by destruct Hf as [[? _]|[_ ?]].
Qed.
End Steps.

(** ** Saving *)

Section Save.
Context {hasher : Sha256Hash} {keyok : BlsKeyValid} {bls : Bls} {sign : BlsSign} {crc : Crc32}.

(** The safety information a node knows for a key. *)
Definition known (m : my_finalizers_t) (k : bls_public_key) : option finalizer_safety_information :=
  map_find k (active_entries m ++ inactive_safety_info m).

(** No save has passed the head yet, or the position and the checksum are
    those of the head. *)
Definition file_layout (m : my_finalizers_t) : Prop :=
  inactive_safety_info_written_pos m = 0%nat \/
  exists h, file_is_open m = true /\ file_head m = Ok h /\ inactive_safety_info_written_pos m = length h /\ inactive_crc32 m = h.

(** The file begins with the bytes that the checksum takes it to begin with. *)
Definition head_on_disk (m : my_finalizers_t) : bool :=
  match safety_file m with
  | Some file => bool_decide (take (inactive_safety_info_written_pos m) file = inactive_crc32 m)
  | None => false
  end.

Record file_inv (m : my_finalizers_t) : Prop := {
  fi_sorted : map_sorted (my_finalizers m);
  fi_inactive : map_sorted (inactive_safety_info m);
  fi_disjoint k : k ∈ map fst (my_finalizers m) -> map_find k (inactive_safety_info m) = None;
  fi_entries : Forall entry_ok (active_entries m ++ inactive_safety_info m);
  fi_default : fsi_wf (default_fsi m);
  fi_size : size_of (my_finalizers m) + size_of (inactive_safety_info m) < 2 ^ 64;
  fi_file : file_layout m
}.

(** What is on the disk can be loaded and agrees with [g]. *)
Definition file_holds (m : my_finalizers_t) (g : bls_public_key -> option finalizer_safety_information) : Prop :=
  exists file res, safety_file m = Some file /\ load_file file = Ok res /\ map_sorted res /\
    forall k, map_find k res = stored_fsi <$> g k.

Lemma file_head_length m h : file_head m = Ok h -> (0 < length h)%nat.
Proof.
  unfold file_head. intros H. apply bind_Ok in H as (a & Ha & H). apply bind_Ok in H as (b & Hb & H).
  apply bind_Ok in H as (n & Hn & H). apply bind_Ok in H as (es & Hes & H).
  assert (h = a ++ b ++ n ++ es) as -> by congruence.
  assert (a = le_bytes 8 fsi_magic) as -> by (cbn [pack c_u64 c_uint] in Ha; congruence).
  rewrite length_app, length_le_bytes. lia.
Qed.

Lemma file_head_Ok m : exists h, file_head m = Ok h.
Proof.
  destruct (entries_pack (inactive_safety_info m)) as (bs & Hbs & _).
  unfold file_head. rewrite Hbs. cbn [mbind result_bind pack c_u64 c_uint]. eauto.
Qed.

Lemma write_at_take pos bytes file : exists rest,
  write_at pos bytes file = take pos (write_at pos bytes file) ++ bytes ++ rest.
Proof.
  exists (drop (pos + length bytes) file). set (before := take pos file ++ repeat 0 (pos - length file)).
  assert (E : write_at pos bytes file = before ++ bytes ++ drop (pos + length bytes) file).
  { unfold write_at, before. by rewrite <- app_assoc. }
  rewrite E, take_app_length'; [done|]. unfold before. rewrite length_app, length_take, repeat_length. lia.
Qed.

Lemma write_at_start bytes file : write_at 0 bytes file = bytes ++ drop (length bytes) file.
Proof. done. Qed.

Lemma take_write_at h bytes file : take (length h) (write_at (length h) bytes (h ++ file)) = h.
Proof.
  unfold write_at. rewrite take_app_length, take_app_length; done.
Qed.

(** The next save finds the head on the disk, or writes it. *)
Definition head_kept (m : my_finalizers_t) : bool :=
  (inactive_safety_info_written_pos m =? 0)%nat || head_on_disk m.

(** Writing the active entries after a head makes a file to load. *)
Lemma saved_file m h es :
  crc_width -> file_inv m -> file_head m = Ok h -> pack_elements c_entry_v1 (active_entries m) = Ok es ->
  forall rest, exists res, load_file (file_content h es ++ rest) = Ok res /\ map_sorted res /\
    forall k, map_find k res = stored_fsi <$> known m k.
Proof.
  intros Hcrc I Hh Hes rest. pose proof (fi_entries _ I) as He. apply Forall_app in He as [Ha Hi].
  rewrite (load_file_content m h es rest) by (done || apply (fi_size _ I)).
  eexists. split; [reflexivity|].
  assert (Hs : map_sorted ([] : list (bls_public_key * finalizer_safety_information))) by constructor. split; [by apply (find_loaded _ _ [])|].
  intros k. rewrite (proj2 (find_loaded _ _ k Hs)). cbn [map_find]. f_equal.
  unfold known. rewrite !map_find_app. destruct (map_find k (inactive_safety_info m)) as [f|] eqn:E;
    [|by destruct (map_find k (active_entries m))].
  assert (map_find k (active_entries m) = None) as ->; [|done].
  apply map_find_None. intros Hk. unfold active_entries in Hk. rewrite map_map in Hk.
  rewrite (fi_disjoint _ I k Hk) in E. done.
Qed.

(** What a save does: it changes the file and what the node remembers of it
    only.  The file then holds what is known, if its head is there. *)
Record save_effect (m : my_finalizers_t) (saved : bool) (m' : my_finalizers_t) : Prop := {
  se_inv : file_inv m';
  se_active : my_finalizers m' = my_finalizers m;
  se_inactive : inactive_safety_info m' = inactive_safety_info m;
  se_saved : saved = true -> file_torn m' = negb (head_on_disk m') /\ (head_on_disk m' = true -> file_holds m' (known m));
  se_failed : saved = false -> file_torn m' = false -> file_torn m = false /\ safety_file m' = safety_file m
}.

(** The head that a save writes, or takes to be there. *)
Lemma save_head m h file : file_inv m -> file_head m = Ok h -> exists file',
  (if (inactive_safety_info_written_pos m =? 0)%nat then
     h ← file_head m; Ok (write_at 0 h file, length h, h)
   else Ok (file, inactive_safety_info_written_pos m, inactive_crc32 m)) = Ok (file', length h, h) /\
  (inactive_safety_info_written_pos m = 0%nat \/ take (inactive_safety_info_written_pos m) file = inactive_crc32 m ->
   take (length h) file' = h).
Proof.
  intros I Hh. destruct (Nat.eqb_spec (inactive_safety_info_written_pos m) 0) as [E|E].
  - rewrite Hh. exists (write_at 0 h file). split; [done|]. intros _. rewrite write_at_start. apply take_app_length.
  - destruct (fi_file _ I) as [E'|(h' & _ & Hh' & Hp & Hc)]; [done|].
    rewrite Hh in Hh'. injection Hh' as <-. rewrite Hp, Hc in *. exists file. split; [done|]. by intros [?|?].
Qed.

Lemma with_file_inv m h file pos processed torn : file_inv m ->
  pos = 0%nat \/ (file_head m = Ok h /\ pos = length h /\ processed = h) -> file_inv (with_file m file pos processed torn).
Proof. intros [] [->|(Hh & -> & ->)]; split; try done; [by left|right; by exists h]. Qed.

Lemma save_spec disk m saved m' :
  crc_width -> file_inv m -> save_finalizer_safety_info disk m = (saved, m') -> save_effect m saved m'.
Proof.
  intros Hcrc I H. destruct (file_head_Ok m) as [h Hh]. destruct (entries_pack (active_entries m)) as (es & Hes & _).
  unfold save_finalizer_safety_info in H. destruct (negb (file_is_open m) && _); [by injection H as <- <-|].
  set (file := if file_is_open m then _ else _) in H. destruct (save_head m h file I Hh) as (file' & Ehead & _).
  rewrite Ehead in H. clear Ehead. cbn iota in H. cbn [mbind result_bind] in H. rewrite Hes in H.
  cbn [mbind result_bind pack c_u32 c_uint] in H.
  assert (Hold : forall rest torn, file_inv (with_file m rest (inactive_safety_info_written_pos m) (inactive_crc32 m) torn)).
  { intros rest torn. destruct (fi_file _ I) as [E|(h' & _ & Hh' & E & E')]; [apply (with_file_inv m h)|apply (with_file_inv m h')]; auto. }
  assert (Hnew : forall rest torn, file_inv (with_file m rest (length h) h torn)) by (intros; eapply with_file_inv; [done|by right]).
  assert (Hsaved : forall file', (true, with_file m (write_at (length h) (es ++ le_bytes 4 (crc32 (h ++ es))) file') (length h) h
      (negb (bool_decide (take (length h) (write_at (length h) (es ++ le_bytes 4 (crc32 (h ++ es))) file') = h)))) = (saved, m') ->
      save_effect m saved m').
  { intros f [<- <-]%pair_eq. split; try done. intros _. split; [done|]. intros Ht.
    unfold head_on_disk in Ht. cbn [safety_file with_file inactive_safety_info_written_pos inactive_crc32] in Ht.
    apply bool_decide_eq_true in Ht.
    destruct (write_at_take (length h) (es ++ le_bytes 4 (crc32 (h ++ es))) f) as [rest E]. rewrite Ht in E.
    destruct (saved_file m h es Hcrc I Hh Hes rest) as (res & Hl & Hs & Hg). eexists _, res.
    split_and!; [reflexivity| |done..]. rewrite E, <- Hl. unfold file_content. by rewrite <- !app_assoc. }
  assert (Hfailed : forall rest pos processed, let torn := file_torn m || negb (bool_decide (safety_file m = Some rest)) in
      file_inv (with_file m rest pos processed torn) -> save_effect m false (with_file m rest pos processed torn)).
  { intros rest pos processed torn I2. split; try done.
    intros _ [-> Hr%negb_false_iff%bool_decide_eq_true]%orb_false_iff. by rewrite Hr. }
  destruct disk as [| |[] rest]; [by apply (Hsaved file')..| |].
  all: apply pair_eq in H as [<- <-]; by apply Hfailed.
Qed.

(** A save that goes through leaves the head on the disk, if no earlier one
    has passed the head and lost it. *)
Lemma saved_head disk m m' : file_inv m -> save_finalizer_safety_info disk m = (true, m') ->
  head_kept m = true -> head_on_disk m' = true.
Proof.
  intros I H Hor. destruct (file_head_Ok m) as [h Hh]. destruct (entries_pack (active_entries m)) as (es & Hes & _).
  unfold save_finalizer_safety_info in H. destruct (negb (file_is_open m) && _); [done|].
  set (file := if file_is_open m then _ else _) in H. destruct (save_head m h file I Hh) as (file' & Ehead & Ht).
  rewrite Ehead in H. clear Ehead. cbn iota in H. cbn [mbind result_bind] in H. rewrite Hes in H.
  cbn [mbind result_bind pack c_u32 c_uint] in H.
  assert (Hf : take (length h) file' = h).
  { apply Ht. apply orb_true_iff in Hor as [?%Nat.eqb_eq|Hd]; [by left|].
    destruct (fi_file _ I) as [?|(h' & Ho & _)]; [by left|right]. unfold file. rewrite Ho. unfold head_on_disk in Hd.
    destruct (safety_file m); [by apply bool_decide_eq_true in Hd|done]. }
  destruct disk as [| |[]]; try (by apply pair_eq in H as [? _]). all: apply pair_eq in H as [_ <-].
  all: apply bool_decide_eq_true; cbn [inactive_safety_info_written_pos inactive_crc32 with_file].
  all: rewrite <- (take_drop (length h) file'), Hf; apply take_write_at.
Qed.

(** When the disk lets it, a save succeeds. *)
Lemma save_succeeds m : file_inv m -> exists m', save_finalizer_safety_info disk_ok m = (true, m') /\
  (head_kept m = true -> head_on_disk m' = true).
Proof.
  intros I. enough (exists m', save_finalizer_safety_info disk_ok m = (true, m')) as [m' E].
  { exists m'. split; [done|]. by eapply saved_head. }
  destruct (file_head_Ok m) as [h Hh]. destruct (entries_pack (active_entries m)) as (es & Hes & _).
  unfold save_finalizer_safety_info. rewrite bool_decide_false, andb_false_r by done.
  set (file := if file_is_open m then _ else _). destruct (save_head m h file I Hh) as (file' & -> & _).
  cbn [mbind result_bind]. rewrite Hes. cbn [mbind result_bind pack c_u32 c_uint]. eauto.
Qed.

(** A save that fails with its head in the buffer only sets the position after
    the head.  The next save succeeds, and leaves a file without the head,
    which no restart loads. *)
Lemma lost_head_is_not_rewritten m m1 : file_inv m -> file_is_open m = false ->
  save_finalizer_safety_info (write_fails true []) m = (false, m1) ->
  exists m2 file, save_finalizer_safety_info disk_ok m1 = (true, m2) /\ safety_file m2 = Some file /\
    load_file file = Throw finalizer_safety_exception.
Proof.
  intros I Ho H. destruct (file_head_Ok m) as [h Hh]. destruct (entries_pack (active_entries m)) as (es & Hes & _).
  assert (Hp : inactive_safety_info_written_pos m = 0%nat) by (destruct (fi_file _ I) as [?|(? & ? & _)]; [done|congruence]).
  unfold save_finalizer_safety_info in H. rewrite Ho, Hp, Hh in H. cbn in H. apply pair_eq in H as [_ <-].
  assert (Hl : exists n, length h = (8 + n)%nat).
  { unfold file_head in Hh. apply bind_Ok in Hh as (a & Ha & Hh). apply bind_Ok in Hh as (b & _ & Hh).
    apply bind_Ok in Hh as (n & _ & Hh). apply bind_Ok in Hh as (l & _ & Hh).
    assert (h = a ++ b ++ n ++ l) as -> by congruence.
    assert (a = le_bytes 8 fsi_magic) as -> by (cbn [pack c_u64 c_uint] in Ha; congruence).
    rewrite length_app, length_le_bytes. eauto. }
  destruct Hl as [n Hl]. unfold save_finalizer_safety_info. cbn [file_is_open with_file safety_file negb andb
    inactive_safety_info_written_pos inactive_crc32]. rewrite Hl. cbn [Nat.eqb Nat.add mbind result_bind].
  change (active_entries (with_file m _ _ _ _)) with (active_entries m). rewrite Hes.
  cbn [mbind result_bind pack c_u32 c_uint]. eexists _, _. split; [reflexivity|]. split; [reflexivity|]. done.
Qed.
End Save.

(** ** A node over its restarts *)

Section Node.
Context {hasher : Sha256Hash} {keyok : BlsKeyValid} {bls : Bls} {sign : BlsSign} {crc : Crc32}.

(** The members of a block state that reach the safety information have their
    widths, and its id is not the empty one. *)
Record block_ok (s : block_state) : Prop := {
  bo_ref : ref_wf (bs_make_block_ref s);
  bo_id : sha256_is_empty (id (bhs s)) = false;
  bo_refs : Forall ref_wf (refs (core (bhs s)))
}.

(** The runs of a node, with the votes it has given out and the blocks they
    are for.  The disk may fail in any save, in any of the ways of
    [disk_outcome].  A restart leaves the file only, and may configure other
    keys.  It is not from a torn file, which loading is there to refuse by its
    magic number and checksum, but a checksum may match by accident. *)
Inductive node_run : my_finalizers_t -> list (vote_message * block_state) -> Prop :=
| run_new : node_run (new_my_finalizers None) []
| run_vote m log disk s votes m' :
    node_run m log -> block_ok s -> maybe_vote disk m s = Ok (votes, m') ->
    node_run m' (log ++ map (fun v => (v.1.1, s)) votes)
| run_update m log disk s q m' :
    node_run m log -> block_ok s -> maybe_update_fsi disk m s q = Ok m' -> node_run m' log
| run_default m log info :
    node_run m log -> fsi_wf info -> node_run (set_default_safety_information m info) log
| run_restart m log keys m' :
    node_run m log -> file_torn m = false -> Forall (fun p => key_ok p.1) keys ->
    set_keys (new_my_finalizers (safety_file m)) keys = Ok m' ->
    size_of (my_finalizers m') + size_of (inactive_safety_info m') < 2 ^ 64 ->
    node_run m' log.

Lemma active_entries_keys m : map fst (active_entries m) = map fst (my_finalizers m).
Proof. unfold active_entries. by rewrite map_map. Qed.

Lemma active_find m k : map_find k (active_entries m) = fsi <$> map_find k (my_finalizers m).
Proof. apply map_find_map. Qed.

(** An operation that changes the active safety information and nothing else
    keeps the invariant. *)
Lemma same_keys_inv m fs d hv :
  let m' := MyFinalizers hv fs (inactive_safety_info m) d (safety_file m) (file_is_open m)
              (inactive_safety_info_written_pos m) (inactive_crc32 m) (file_torn m) in
  file_inv m -> map fst fs = map fst (my_finalizers m) -> Forall entry_ok (active_entries m') -> fsi_wf d ->
  file_inv m'.
Proof.
  intros m' [Hs Hi Hd He Hdef Hn Hf] Hk Ha Hdok.
  assert (Hlen : length fs = length (my_finalizers m)) by (rewrite <- (length_map fst), Hk; apply length_map).
  apply Forall_app in He as [_ He].
  split; cbn [my_finalizers inactive_safety_info default_fsi m'].
  - by eapply map_sorted_keys.
  - done.
  - intros k. rewrite Hk. apply Hd.
  - by apply Forall_app.
  - done.
  - unfold size_of in *. by rewrite Hlen.
  - destruct Hf as [?|(h & Ho & Hh & Hp & Hc)]; [by left|right]. exists h. split_and!; try done.
    unfold file_head, size_of in *. cbn [my_finalizers inactive_safety_info m']. by rewrite Hlen.
Qed.

Lemma fsi_moved_wf s f f' : block_ok s -> fsi_wf f -> fsi_moved s f f' -> fsi_wf f'.
Proof.
  intros [Hr _ Hrs] [Hv Hl Ho] [Mv _ Ml Mo]. split.
  - by rewrite Mv.
  - destruct Ml as [->|Ml]; [done|]. rewrite Forall_forall in Hrs. by apply Hrs.
  - destruct Hv as (_ & Hv & _). unfold u32 in *. set_solver by lia.
Qed.

Lemma evolves_keys s fs fs' : Forall2 (fsi_evolves s) fs fs' -> map fst fs' = map fst fs.
Proof. induction 1 as [|p p' fs fs' [Hk _] _ IH]; cbn; congruence. Qed.

Lemma evolves_nonempty s fs fs' : Forall2 (fsi_evolves s) fs fs' -> fs <> [] -> fs' <> [].
Proof. by intros [] ?. Qed.

Lemma evolves_find s fs fs' k p : Forall2 (fsi_evolves s) fs fs' -> map_find k fs = Some p ->
  exists p', map_find k fs' = Some p' /\ (fsi p' = fsi p \/ fsi_moved s (fsi p) (fsi p')).
Proof.
  induction 1 as [|[k1 p1] [k2 p2] fs fs' [Hk He] _ IH]; [done|]. cbn in Hk, He. subst k2.
  rewrite !map_find_cons. case_decide; [intros [= <-]; eauto|auto].
Qed.

Lemma evolves_inv m s fs' hv : block_ok s -> file_inv m -> Forall2 (fsi_evolves s) (my_finalizers m) fs' ->
  file_inv (MyFinalizers hv fs' (inactive_safety_info m) (default_fsi m) (safety_file m) (file_is_open m)
    (inactive_safety_info_written_pos m) (inactive_crc32 m) (file_torn m)).
Proof.
  intros Hs I He. apply same_keys_inv; [done|by eapply evolves_keys| |apply (fi_default _ I)].
  pose proof (fi_entries _ I) as Ha. apply Forall_app in Ha as [Ha _].
  unfold active_entries in *. cbn [my_finalizers]. clear -Hs He Ha.
  induction He as [|[k p] [k' p'] fs fs' [Hk He] _ IH]; [constructor|]. cbn [map] in *.
  apply Forall_cons in Ha as [[Hk1 Hf] Ha]. cbn in Hk, He, Hk1, Hf. subst k'.
  constructor; [|auto]. split; [done|]. cbn. destruct He as [->|He]; [done|]. by eapply fsi_moved_wf.
Qed.

(** A vote for a block of time [t] is recorded. *)
Definition voted_since (f : finalizer_safety_information) (t : block_timestamp_type) : Prop :=
  block_ref_empty (last_vote f) = false /\ t <= timestamp (last_vote f).

Lemma voted_since_moved s f f' t : block_ok s -> fsi_moved s f f' ->
  voted_since f' (bhs_timestamp (bhs s)) /\ (voted_since f t -> t < bhs_timestamp (bhs s) /\ voted_since f' t).
Proof.
  intros [_ Hid _] [Mv Ml _ _]. unfold voted_since. rewrite Mv. cbn [timestamp bs_make_block_ref].
  assert (block_ref_empty (bs_make_block_ref s) = false) as -> by done.
  split; [by split|]. intros [He Ht]. destruct Ml as [Ml|Ml]; [congruence|]. split; [lia|]. split; [done|lia].
Qed.

Lemma voted_since_stored f t : voted_since (stored_fsi f) t <-> voted_since f t.
Proof. done. Qed.

(** Every vote given out is recorded in [g]. *)
Definition recorded (log : list (vote_message * block_state)) (g : bls_public_key -> option finalizer_safety_information) : Prop :=
  forall v s, (v, s) ∈ log -> exists f, g (finalizer_key v) = Some f /\ voted_since f (bhs_timestamp (bhs s)).

Definition vote_order (a b : vote_message * block_state) : Prop :=
  finalizer_key a.1 = finalizer_key b.1 -> bhs_timestamp (bhs a.2) < bhs_timestamp (bhs b.2).

Record run_inv (m : my_finalizers_t) (log : list (vote_message * block_state)) : Prop := {
  ri_file : file_inv m;
  ri_memory : my_finalizers m = [] \/ recorded log (known m);
  ri_disk : file_torn m = false -> safety_file m = None /\ log = [] \/
    exists g, file_holds m g /\ recorded log g /\ forall k f, g k = Some f -> key_ok k /\ fsi_wf f;
  ri_torn : file_torn m = true -> my_finalizers m <> [];
  ri_order : StronglySorted vote_order log;
  ri_ids : Forall (fun p => vote_block_id p.1 = id (bhs p.2)) log
}.

Lemma known_entry_ok m k f : file_inv m -> known m k = Some f -> key_ok k /\ fsi_wf f.
Proof.
  intros I H. apply map_find_elem in H. pose proof (fi_entries _ I) as He. rewrite Forall_forall in He.
  exact (He _ H).
Qed.

(** [known] when the active information evolves. *)
Lemma known_evolves m s fs' hv k f : Forall2 (fsi_evolves s) (my_finalizers m) fs' -> known m k = Some f ->
  exists f', known (MyFinalizers hv fs' (inactive_safety_info m) (default_fsi m) (safety_file m) (file_is_open m)
    (inactive_safety_info_written_pos m) (inactive_crc32 m) (file_torn m)) k = Some f' /\ (f' = f \/ fsi_moved s f f').
Proof.
  intros He. unfold known. rewrite !map_find_app, !active_find. cbn [my_finalizers inactive_safety_info].
  destruct (map_find k (my_finalizers m)) as [p|] eqn:E.
  - destruct (evolves_find _ _ _ _ _ He E) as (p' & -> & Hp). intros [= <-]. cbn. eauto.
  - assert (map_find k fs' = None) as ->.
    { apply map_find_None. rewrite (evolves_keys _ _ _ He). by apply map_find_None. }
    cbn. eauto.
Qed.

Lemma recorded_evolves m s fs' hv log : block_ok s -> Forall2 (fsi_evolves s) (my_finalizers m) fs' ->
  recorded log (known m) ->
  recorded log (known (MyFinalizers hv fs' (inactive_safety_info m) (default_fsi m) (safety_file m) (file_is_open m)
    (inactive_safety_info_written_pos m) (inactive_crc32 m) (file_torn m))).
Proof.
  intros Hs He Hr v t Hin. destruct (Hr v t Hin) as (f & Hf & Hv).
  destruct (known_evolves m s fs' hv _ f He Hf) as (f' & Hf' & Hm). exists f'. split; [done|].
  destruct Hm as [->|Hm]; [done|]. by apply (voted_since_moved s f f').
Qed.

(** The saving of a state that satisfies the invariant in memory. *)
Lemma save_run_inv disk m log log' saved m' :
  crc_width -> file_inv m -> recorded log' (known m) ->
  (file_torn m = false -> safety_file m = None /\ log = [] \/
    exists g, file_holds m g /\ recorded log g /\ forall k f, g k = Some f -> key_ok k /\ fsi_wf f) ->
  save_finalizer_safety_info disk m = (saved, m') ->
  file_inv m' /\ recorded log' (known m') /\
  (let log := if saved then log' else log in
   file_torn m' = false -> safety_file m' = None /\ log = [] \/
     exists g, file_holds m' g /\ recorded log g /\ forall k f, g k = Some f -> key_ok k /\ fsi_wf f).
Proof.
  intros Hcrc I Hr Hd H. destruct (save_spec _ _ _ _ Hcrc I H) as [I' Ha Hi Hs Hf].
  assert (Hk : known m' = known m) by (unfold known, active_entries; by rewrite Ha, Hi).
  split_and!; [done|by rewrite Hk|]. destruct saved; cbn zeta iota; intros Ht.
  - destruct (Hs eq_refl) as [Et Hh]. rewrite Ht in Et. symmetry in Et. apply negb_false_iff in Et.
    right. exists (known m). split_and!; [auto|done|]. intros k f. by apply known_entry_ok.
  - destruct (Hf eq_refl Ht) as [Ht' Ef]. unfold file_holds. rewrite Ef. by apply Hd.
Qed.

(** The votes for one block are by different finalizers. *)
Lemma one_block_order s (votes : list vote_t) :
  NoDup (map vote_key votes) -> StronglySorted vote_order (map (fun v => (v.1.1, s)) votes).
Proof.
  induction votes as [|v l IH]; intros Hnd; [constructor|]. cbn in *. apply NoDup_cons in Hnd as [Hnv Hnd].
  constructor; [auto|]. apply Forall_forall. intros q Hq Hk. exfalso. apply Hnv.
  apply list_elem_of_In, in_map_iff in Hq as (w & <- & Hw). apply list_elem_of_In, in_map_iff. exists w. by split.
Qed.

(** The votes for a block are recorded, later than those before and for it. *)
Lemma new_votes m log s fs' votes :
  let m1 := MyFinalizers true fs' (inactive_safety_info m) (default_fsi m) (safety_file m) (file_is_open m)
              (inactive_safety_info_written_pos m) (inactive_crc32 m) (file_torn m) in
  let log' := log ++ map (fun v => (v.1.1, s)) votes in
  block_ok s -> run_inv m log -> recorded log (known m) -> collect_votes s (my_finalizers m) = Ok (votes, fs') ->
  recorded log' (known m1) /\ StronglySorted vote_order log' /\
  Forall (fun p => vote_block_id p.1 = id (bhs p.2)) log'.
Proof.
  intros m1 log' Hs [If _ _ _ Io Ii] Hmem (He & Hsub & Hvs)%collect_votes_spec.
  assert (Hvote : forall v t, (v, t) ∈ map (fun v : vote_t => (v.1.1, s)) votes -> t = s /\ vote_block_id v = id (bhs s) /\
      exists f f', known m (finalizer_key v) = Some f /\ known m1 (finalizer_key v) = Some f' /\ fsi_moved s f f').
  { intros v t (w & [= <- <-] & Hw)%list_elem_of_In%in_map_iff. apply list_elem_of_In in Hw.
    rewrite Forall_forall in Hvs. destruct (Hvs w Hw) as (Hid & f & f' & Hf & Hf' & Hm). split_and!; [done..|].
    exists (fsi f), (fsi f'). fold (vote_key w). unfold known. rewrite !map_find_app, !active_find. cbn [my_finalizers m1].
    rewrite (map_sorted_find _ f _ (fi_sorted _ If) Hf), (map_sorted_find _ f'); [done| |done].
    eapply map_sorted_keys; [symmetry; by eapply evolves_keys|apply (fi_sorted _ If)]. }
  split_and!.
  - intros v t [Hin|Hin]%elem_of_app; [by apply (recorded_evolves m s fs' true log)|].
    destruct (Hvote v t Hin) as (-> & _ & f & f' & _ & Hf' & Hm). exists f'. split; [done|].
    by apply (voted_since_moved s f f' 0).
  - apply StronglySorted_app_2; [|done|].
    + intros [v1 s1] [v2 s2] H1 H2 Hk. cbn [fst snd] in *.
      destruct (Hvote _ _ H2) as (-> & _ & f & f' & Hf & _ & Hm). destruct (Hmem _ _ H1) as (f0 & Hf0 & Hv0).
      assert (f0 = f) as -> by congruence. by apply (voted_since_moved s f f').
    + apply one_block_order. eapply sublist_NoDup; [|exact Hsub]. apply map_sorted_NoDup, (fi_sorted _ If).
  - apply Forall_app. split; [done|]. apply Forall_forall. intros [v t] Hin. by destruct (Hvote v t Hin) as (-> & ? & _).
Qed.

Lemma vote_run_inv disk m log s votes m' :
  crc_width -> run_inv m log -> block_ok s -> maybe_vote disk m s = Ok (votes, m') ->
  run_inv m' (log ++ map (fun v => (v.1.1, s)) votes).
Proof.
  intros Hcrc I Hs H. unfold maybe_vote in H. destruct (my_finalizers m) as [|p fs] eqn:Efs.
  { injection H as <- <-. by rewrite app_nil_r. }
  rewrite <- Efs in H. apply bind_Ok in H as ([vs fs'] & Hc & H). cbn [fst snd] in H.
  pose proof Hc as (He & _ & _)%collect_votes_spec.
  assert (Hmem : recorded log (known m)) by (destruct (ri_memory _ _ I) as [Im|Im]; [congruence|done]).
  destruct vs as [|v0 vs].
  { injection H as <- <-. rewrite app_nil_r. destruct I. split; [by apply (evolves_inv _ s)| |done| |done..].
    - right. by apply (recorded_evolves _ s).
    - intros _. apply (evolves_nonempty _ _ _ He). by rewrite Efs. }
  remember (v0 :: vs) as vs0 eqn:Evs. clear Evs v0 vs.
  destruct (new_votes _ _ _ _ _ Hs I Hmem Hc) as (Hnew & Horder & Hids).
  set (m1 := MyFinalizers true _ _ _ _ _ _ _ _) in H.
  destruct (save_finalizer_safety_info disk m1) as [saved m2] eqn:Esave. injection H as <- <-.
  assert (Hne : my_finalizers m2 <> []).
  { rewrite (se_active _ _ _ (save_spec _ m1 _ _ Hcrc (evolves_inv m s fs' true Hs (ri_file _ _ I) He) Esave)).
    apply (evolves_nonempty _ _ _ He). by rewrite Efs. }
  destruct I.
  destruct (save_run_inv disk m1 log _ saved m2 Hcrc ltac:(by apply (evolves_inv m s)) Hnew) as (If2 & Hr2 & Hd2); [done..|].
  destruct saved; [by split; [|right|..]|]. cbn [map]. rewrite app_nil_r.
  split; [done| |done..]. right. intros v t Hin. apply Hr2. apply elem_of_app. by left.
Qed.

Lemma update_run_inv disk m log s q m' :
  crc_width -> run_inv m log -> block_ok s -> maybe_update_fsi disk m s q = Ok m' -> run_inv m' log.
Proof.
  intros Hcrc I Hs H. unfold maybe_update_fsi in H. destruct (my_finalizers m) as [|p fs] eqn:Efs; [by injection H as <-|].
  rewrite <- Efs in H. destruct (node_has_voted m); [by injection H as <-|].
  destruct (_ || _) in H; [|done]. apply bind_Ok in H as ([u fs'] & Hc & H). cbn [fst snd] in H.
  apply update_all_fsi_spec in Hc as [He _]. destruct I as [If Im Id It Io Ii].
  assert (Hmem : recorded log (known m)) by (destruct Im as [Im|Im]; [congruence|done]).
  assert (I1 : file_inv (with_finalizers m fs')) by (by apply (evolves_inv m s)).
  assert (Hr1 : recorded log (known (with_finalizers m fs'))) by (by apply (recorded_evolves m s)).
  assert (Hne : fs' <> []) by (apply (evolves_nonempty _ _ _ He); by rewrite Efs).
  injection H as <-. destruct u; [|by split; [|right|..]].
  destruct (save_finalizer_safety_info disk (with_finalizers m fs')) as [saved m2] eqn:E.
  destruct (save_run_inv disk _ log log saved m2 Hcrc I1 Hr1 Id E) as (I2 & Hr2 & Hd2). cbn [snd].
  split; [done|by right|by destruct saved| |done..].
  intros _. by rewrite (se_active _ _ _ (save_spec _ _ _ _ Hcrc I1 E)).
Qed.

Lemma default_run_inv m log info : run_inv m log -> fsi_wf info -> run_inv (set_default_safety_information m info) log.
Proof.
  intros [If Im Id It Io Ii] Hinfo. unfold set_default_safety_information.
  set (upd f := if negb (block_ref_empty (last_vote (fsi f))) || negb (block_ref_empty (lock (fsi f))) then f
                else MkFinalizer (priv_key f) info).
  change (map _ (my_finalizers m)) with (map (fun p => (p.1, upd p.2)) (my_finalizers m)).
  split; [| |done| |done..].
  - apply same_keys_inv; [done|by rewrite map_map| |done].
    pose proof (fi_entries _ If) as He. apply Forall_app in He as [He _]. unfold active_entries in *. cbn [my_finalizers].
    rewrite Forall_map in He. rewrite !Forall_map.
    eapply Forall_impl; [exact He|]. intros [k f] [Hk Hf]. split; [done|]. cbn. unfold upd. by destruct (_ || _).
  - destruct Im as [Im|Im]; [left; cbn [my_finalizers]; by rewrite Im|right].
    intros v s Hin. destruct (Im v s Hin) as (f & Hf & Hv). exists f. split; [|done].
    unfold known in *. rewrite !map_find_app, !active_find in *. cbn [my_finalizers inactive_safety_info].
    rewrite map_find_map. destruct (map_find (finalizer_key v) (my_finalizers m)) as [p|]; [|done].
    cbn [fmap option_fmap option_map] in *. injection Hf as <-. destruct Hv as [Hv _]. unfold upd. by rewrite Hv.
  - intros Ht. cbn [my_finalizers]. intros E%map_eq_nil. by apply It.
Qed.

(** The two loops of [set_keys]. *)
Lemma configured_keys (info : bls_public_key -> finalizer_safety_information) keys fs0 :
  let fs := foldl (fun fs (p : bls_public_key * list Z) => map_emplace p.1 (MkFinalizer p.2 (info p.1)) fs) fs0 keys in
  map_sorted fs0 ->
  map_sorted fs /\ (forall k, map_find k fs = None <-> map_find k fs0 = None /\ ~ k ∈ map fst keys) /\
  ((forall k f, map_find k fs0 = Some f -> fsi f = info k) -> forall k f, map_find k fs = Some f -> fsi f = info k).
Proof.
  revert fs0. induction keys as [|[k1 p1] keys IH]; intros fs0 fs Hs; cbn in fs.
  { split_and!; [done| |done]. intros k. split; [|by intros [? _]]. intros ?. split; [done|]. by intros ?%elem_of_nil. }
  destruct (IH (map_emplace k1 (MkFinalizer p1 (info k1)) fs0)) as (Hs' & Hn & Hi); [by apply map_emplace_sorted|].
  split_and!; [done| |].
  - intros k. fold fs in Hn. rewrite Hn, map_find_emplace by done. cbn [map fst]. rewrite elem_of_cons. case_decide; naive_solver.
  - intros H0. apply Hi. intros k f. rewrite map_find_emplace by done. case_decide as Hk; [|apply H0]. subst k.
    destruct (map_find k1 fs0) as [f0|] eqn:E; cbn; intros [= <-]; [by apply H0|done].
Qed.

Lemma erased_keys {A} (keys : list (bls_public_key * list Z)) (m : list (bls_public_key * A)) :
  let m' := foldl (fun m p => map_erase p.1 m) m keys in
  map_sorted m ->
  map_sorted m' /\ forall k, map_find k m' = if decide (k ∈ map fst keys) then None else map_find k m.
Proof.
  revert m. induction keys as [|[k1 p1] keys IH]; intros m m' Hs; cbn in m'.
  { split; [done|]. intros k. rewrite decide_False; [done|]. by intros ?%elem_of_nil. }
  destruct (IH (map_erase k1 m)) as [Hs' Hf]; [by apply map_erase_sorted|]. split; [done|].
  intros k. fold m' in Hf. rewrite Hf, map_find_erase. cbn [map fst].
  destruct (decide (k ∈ map fst keys)); [rewrite decide_True by set_solver; done|].
  destruct (decide (k = k1)); [rewrite decide_True by set_solver; done|].
  rewrite decide_False by set_solver. done.
Qed.

(** A node configured with keys, from what the file held. *)
Lemma configured_inv file res keys m' :
  map_sorted res -> (forall k f, map_find k res = Some f -> key_ok k /\ fsi_wf f) ->
  Forall (fun p : bls_public_key * list Z => key_ok p.1) keys ->
  m' = MyFinalizers false
    (foldl (fun fs p => map_emplace p.1 (MkFinalizer p.2
       match map_find p.1 res with Some i => i | None => unset_fsi end) fs) [] keys)
    (foldl (fun info p => map_erase p.1 info) res keys) unset_fsi file false 0 [] false ->
  size_of (my_finalizers m') + size_of (inactive_safety_info m') < 2 ^ 64 ->
  file_inv m' /\ forall k f, map_find k res = Some f -> known m' k = Some f.
Proof.
  intros Hs Hres Hkeys -> Hn.
  set (info k := match map_find k res with Some i => i | None => unset_fsi end).
  destruct (configured_keys info keys []) as (Hfs & Hnone & Hinfo); [constructor|].
  specialize (Hinfo ltac:(done)).
  destruct (erased_keys keys res Hs) as (Hin & Hfind).
  change (fun fs p => map_emplace p.1 (MkFinalizer p.2 match map_find p.1 res with Some i => i | None => unset_fsi end) fs)
    with (fun fs (p : bls_public_key * list Z) => map_emplace p.1 (MkFinalizer p.2 (info p.1)) fs).
  set (fs := foldl _ [] keys) in *. set (ina := foldl _ res keys) in *.
  assert (Hk : forall k, k ∈ map fst fs <-> k ∈ map fst keys).
  { intros k. specialize (Hnone k). rewrite map_find_None in Hnone. cbn [map_find] in Hnone.
    destruct (decide (k ∈ map fst keys)), (decide (k ∈ map fst fs)); naive_solver. }
  assert (Hinfo_wf : forall k, fsi_wf (info k)).
  { intros k. unfold info. destruct (map_find k res) eqn:E; [by destruct (Hres _ _ E)|apply unset_fsi_wf]. }
  split.
  - split; cbn [my_finalizers inactive_safety_info default_fsi]; [done..| | |apply unset_fsi_wf|done|by left].
    + intros k Hin'. by rewrite Hfind, decide_True by by apply Hk.
    + apply Forall_app. split; apply Forall_forall.
      * intros [k f] He. unfold active_entries in He. cbn [my_finalizers] in He.
        apply list_elem_of_In, in_map_iff in He as ([k2 p] & [= <- <-] & He). apply list_elem_of_In in He.
        split; cbn.
        -- assert (k2 ∈ map fst keys) as Hk2 by (apply Hk, list_elem_of_In, in_map_iff; exists (k2, p); split; [done|by apply list_elem_of_In]).
           apply list_elem_of_In, in_map_iff in Hk2 as (q & <- & Hq). apply list_elem_of_In in Hq.
           rewrite Forall_forall in Hkeys. by apply Hkeys.
        -- rewrite (Hinfo k2 p); [done|]. by apply map_sorted_find.
      * intros [k f] He. apply (map_sorted_find _ _ _ Hin) in He. rewrite Hfind in He. case_decide; [done|]. by apply Hres.
  - intros k f Hf. unfold known. rewrite map_find_app, active_find. cbn [my_finalizers inactive_safety_info].
    destruct (map_find k fs) as [p|] eqn:E.
    + cbn. rewrite (Hinfo _ _ E). unfold info. by rewrite Hf.
    + cbn. apply Hnone in E as [_ E]. by rewrite Hfind, decide_False.
Qed.

Lemma restart_run_inv m log keys m' :
  run_inv m log -> file_torn m = false -> Forall (fun p => key_ok p.1) keys ->
  set_keys (new_my_finalizers (safety_file m)) keys = Ok m' ->
  size_of (my_finalizers m') + size_of (inactive_safety_info m') < 2 ^ 64 -> run_inv m' log.
Proof.
  intros [If Im Id _ Io Ii] Ht Hkeys H Hn. specialize (Id Ht). destruct keys as [|k0 keys].
  { injection H as <-. split; [|by left|done..].
    split; cbn; [constructor|constructor|done|constructor|apply unset_fsi_wf|done|by left]. }
  remember (k0 :: keys) as ks eqn:Eks. unfold set_keys in H. rewrite Eks in H. rewrite <- Eks in H.
  cbn [my_finalizers new_my_finalizers] in H. rewrite bool_decide_true in H by done.
  apply bind_Ok in H as (res & Hload & H). injection H as H. symmetry in H.
  unfold load_finalizer_safety_info in Hload. cbn [file_is_open new_my_finalizers safety_file negb] in Hload.
  destruct Id as [[Efile ->]|(g & (file & res0 & Efile & Hload0 & Hs & Hg) & Hr & Hok)]; rewrite Efile in Hload.
  - injection Hload as <-. destruct (configured_inv _ [] _ _ ltac:(constructor) ltac:(done) Hkeys H Hn) as [I' _].
    split; [done|right; by intros v s ?%elem_of_nil| |by rewrite H|done..]. intros _. left. by rewrite H.
  - rewrite Hload in Hload0. injection Hload0 as <-.
    assert (Hres : forall k f, map_find k res = Some f -> key_ok k /\ fsi_wf f).
    { intros k f Hf. rewrite Hg in Hf. destruct (g k) as [f0|] eqn:E; [|done]. cbn in Hf. injection Hf as <-.
      destruct (Hok _ _ E). split; [done|by apply stored_fsi_wf]. }
    destruct (configured_inv _ _ _ _ Hs Hres Hkeys H Hn) as [I' Hknown].
    split; [done|right| |by rewrite H|done..].
    + intros v s Hin. destruct (Hr v s Hin) as (f & Hf & Hv). exists (stored_fsi f). split; [|done].
      apply Hknown. by rewrite Hg, Hf.
    + intros _. right. exists g. split_and!; [|done..]. exists file, res. by rewrite H.
Qed.

Lemma node_run_inv m log : crc_width -> node_run m log -> run_inv m log.
Proof.
  intros Hcrc. induction 1.
  - split; [|by left|by left|done|constructor|constructor].
    split; cbn; [constructor|constructor|done|constructor|apply unset_fsi_wf|done|by left].
  - by eapply vote_run_inv.
  - by eapply update_run_inv.
  - by apply default_run_inv.
  - by eapply restart_run_inv.
Qed.
End Node.

(** ** The voting rule, as a specification *)

(** What the rule looks at in a proposal: its reference, the block its latest
    certificate claims, and which blocks it extends. *)
Record proposal_view : Type := ProposalView {
  pv_block : block_ref;
  pv_claimed : block_ref;
  pv_extends : block_id_type -> bool
}.

Definition can_vote (v : proposal_view) (f : finalizer_safety_information) : bool :=
  (block_ref_empty (last_vote f) || (timestamp (last_vote f) <? timestamp (pv_block v)))
  && negb (block_ref_empty (lock f))
  && ((timestamp (lock f) <? timestamp (pv_claimed v)) || pv_extends v (block_id (lock f))).

Definition votes_strong (v : proposal_view) (f : finalizer_safety_information) : bool :=
  (timestamp (last_vote f) <=? timestamp (pv_claimed v))
  || (pv_extends v (block_id (last_vote f)) && (other_branch_latest_time f <=? timestamp (pv_claimed v))).

Definition vote_rule (v : proposal_view) (f : finalizer_safety_information) :
    vote_decision * finalizer_safety_information :=
  if can_vote v f then
    if votes_strong v f then
      (strong_vote, FinalizerSafetyInformation (pv_block v)
         (if timestamp (lock f) <? timestamp (pv_claimed v) then pv_claimed v else lock f) 0)
    else
      (weak_vote, FinalizerSafetyInformation (pv_block v) (lock f)
         (if pv_extends v (block_id (last_vote f)) then other_branch_latest_time f else timestamp (last_vote f)))
  else (no_vote, f).

Section Rule.
Context {hasher : Sha256Hash} {keyok : BlsKeyValid} {bls : Bls}.

(** [v] is what a block state shows; the block a genesis core claims is known
    by its timestamp only. *)
Record view_of (s : block_state) (v : proposal_view) : Prop := {
  vo_block : pv_block v = bs_make_block_ref s;
  vo_claim : exists claim, latest_qc_claim (core (bhs s)) = Ok claim /\
    (is_genesis_core (core (bhs s)) = false -> get_block_reference (core (bhs s)) (claim_block_num claim) = Ok (pv_claimed v));
  vo_time : latest_qc_block_timestamp (core (bhs s)) = Ok (timestamp (pv_claimed v));
  vo_extends i : pv_extends v i = true <-> exists r, r ∈ refs (core (bhs s)) /\ block_id r = i
}.

(** The lock is not older than the genesis block, if this is the genesis block. *)
Definition lock_since_genesis (s : block_state) (f : finalizer_safety_information) : Prop :=
  is_genesis_core (core (bhs s)) = true -> genesis_timestamp (core (bhs s)) <= timestamp (lock f).

Lemma view_exists s : core_inv (core (bhs s)) -> exists v, view_of s v.
Proof.
  intros (f & b & S). set (ext i := bool_decide (i ∈ map block_id (refs (core (bhs s))))).
  assert (Hext : forall i, ext i = true <-> exists r, r ∈ refs (core (bhs s)) /\ block_id r = i).
  { intros i. unfold ext. rewrite bool_decide_eq_true. split.
    - intros (r & <- & Hr)%list_elem_of_In%in_map_iff. exists r. split; [by apply list_elem_of_In|done].
    - intros (r & Hr & <-). apply list_elem_of_In, in_map_iff. exists r. split; [done|by apply list_elem_of_In]. }
  pose proof (latest_qc_claim_Ok S) as Hclaim. pose proof (links_back_Ok S) as Hback.
  destruct (is_genesis_core (core (bhs s))) eqn:Eg.
  - exists (ProposalView (bs_make_block_ref s) (BlockRef sha256_default (genesis_timestamp (core (bhs s))) sha256_default 0 0) ext).
    split; [done| | |done].
    + eexists. split; [exact Hclaim|]. by rewrite Eg.
    + unfold latest_qc_block_timestamp. by rewrite Hback, Eg.
  - assert (Hne : refs (core (bhs s)) <> []) by (intros E; unfold is_genesis_core in Eg; by rewrite E in Eg).
    pose proof (cs_strict _ _ _ S Hne) as Hlt. pose proof (cs_inv2 _ _ _ S) as H2.
    destruct (get_block_reference_Ok S (target_block_num b)) as (r & Hr & _ & _); [lia|].
    exists (ProposalView (bs_make_block_ref s) r ext). split; [done| | |done].
    + eexists. split; [exact Hclaim|]. by intros _.
    + unfold latest_qc_block_timestamp. rewrite Hback, Eg. cbn [mbind result_bind]. by rewrite Hr.
Qed.

Lemma view_extends s v i : core_inv (core (bhs s)) -> view_of s v -> extends (core (bhs s)) i = Ok (pv_extends v i).
Proof.
  intros (f & b & S) V. destruct (extends_Ok S i) as (r & -> & Hr). f_equal.
  pose proof (vo_extends _ _ V i) as Hv. destruct r, (pv_extends v i); naive_solver.
Qed.

Lemma cast_vote_rule s v f :
  core_inv (core (bhs s)) -> view_of s v -> lock_since_genesis s f -> can_vote v f = true ->
  cast_vote f s = Ok (vote_rule v f).
Proof.
  intros I V G C. unfold vote_rule. rewrite C. unfold cast_vote. rewrite (vo_time _ _ V). cbn [mbind result_bind].
  rewrite !(view_extends _ _ _ I V). unfold votes_strong.
  assert (Hlock : (if timestamp (lock f) <? timestamp (pv_claimed v) then
      claim ← latest_qc_claim (core (bhs s)); get_block_reference (core (bhs s)) (claim_block_num claim)
      else Ok (lock f)) = Ok (if timestamp (lock f) <? timestamp (pv_claimed v) then pv_claimed v else lock f)).
  { destruct (Z.ltb_spec (timestamp (lock f)) (timestamp (pv_claimed v))) as [Hlt|]; [|done].
    destruct (vo_claim _ _ V) as (claim & -> & Hr). cbn [mbind result_bind]. apply Hr.
    destruct (is_genesis_core _) eqn:Eg; [|done]. specialize (G Eg).
    pose proof (vo_time _ _ V) as Ht. unfold latest_qc_block_timestamp in Ht. rewrite Eg in Ht.
    apply bind_Ok in Ht as (? & _ & [= Ht]). lia. }
  rewrite (vo_block _ _ V).
  destruct (_ <=? timestamp (pv_claimed v)); cbn [mbind result_bind fst snd orb].
  { by rewrite Hlock. }
  destruct (pv_extends v _); cbn [mbind result_bind fst snd andb]; [|done].
  destruct (_ <=? _); cbn [fst snd]; [by rewrite Hlock|done].
Qed.

(** [decide_vote] is the rule. *)
Lemma decide_vote_is_rule s v f :
  core_inv (core (bhs s)) -> view_of s v -> lock_since_genesis s f ->
  exists r, decide_vote f s = Ok (r, (vote_rule v f).2) /\ decision r = (vote_rule v f).1.
Proof.
  intros I V G. unfold decide_vote. pose proof (cast_vote_rule s v f I V G) as Hcast.
  assert (Hno : can_vote v f = false -> vote_rule v f = (no_vote, f)) by (unfold vote_rule; by intros ->).
  unfold can_vote in *. rewrite (vo_block _ _ V) in *. cbn [timestamp bs_make_block_ref] in *.
  destruct (block_ref_empty (last_vote f) || _) eqn:Em; cbn [negb andb] in *.
  2:{ apply orb_false_iff in Em as [-> _]. rewrite Hno by done. by eexists. }
  rewrite (vo_time _ _ V).
  destruct (block_ref_empty (lock f)); cbn [negb mbind result_bind andb orb] in *; [rewrite Hno by done; by eexists|].
  destruct (_ <? timestamp (pv_claimed v)) eqn:El; cbn [mbind result_bind orb] in *.
  - rewrite Hcast by done. cbn [mbind result_bind]. by eexists.
  - rewrite (view_extends _ _ _ I V). cbn [mbind result_bind]. destruct (pv_extends v _).
    + rewrite Hcast by done. by eexists.
    + rewrite Hno by done. by eexists.
Qed.
End Rule.

(** ** Properties *)

Section Properties.
Context {hasher : Sha256Hash} {keyok : BlsKeyValid} {bls : Bls} {sign : BlsSign} {crc : Crc32}.

(** C25: A finalizer never votes twice for the same time: over any run of its
    node (votes, certificates that move the safety information, defaults,
    saves in which the disk fails before or after the file is open, and leaves
    anything in it, restarts with any configured keys), two votes the node
    gives out for the same key are for blocks of strictly increasing
    timestamps.  A restart that reads a file left torn by a failed save, which
    only its magic number and a checksum of 32 bits guard against, is not part
    of a run. *)
Theorem votes_never_repeat (m : my_finalizers_t) (log : list (vote_message * block_state)) (i j : nat)
    (v1 v2 : vote_message) (s1 s2 : block_state) :
  crc_width -> node_run m log -> (i < j)%nat -> log !! i = Some (v1, s1) -> log !! j = Some (v2, s2) ->
  finalizer_key v1 = finalizer_key v2 ->
  vote_block_id v1 = id (bhs s1) /\ vote_block_id v2 = id (bhs s2) /\
  bhs_timestamp (bhs s1) < bhs_timestamp (bhs s2).
Proof.
  intros Hcrc H Hij H1 H2 Hk. destruct (node_run_inv _ _ Hcrc H) as [_ _ _ _ Ho Hi]. rewrite Forall_lookup in Hi.
  split_and!; [by apply (Hi i (v1, s1))|by apply (Hi j (v2, s2))|].
  rewrite <- (take_drop_middle _ _ _ H1) in Ho, H2. apply StronglySorted_app in Ho as (_ & _ & Ho).
  apply StronglySorted_inv in Ho as [_ Ho]. rewrite Forall_lookup in Ho.
  apply (Ho (j - S i)%nat (v2, s2)); [|done]. pose proof (lookup_lt_Some _ _ _ H1) as Hlt.
  rewrite lookup_app_r in H2; rewrite length_take_le in *; [|lia..].
  replace (j - i)%nat with (S (j - S i)) in H2 by lia. done.
Qed.

(** C27: The safety file keeps the safety information: after any run without a
    restart from a torn file, whatever saves have failed in it, a save that the disk lets through succeeds, and
    what a restart then loads has, for every key the node ever knew, the
    information of the node (less the policy generations of its references,
    which the format leaves out) -- provided the head of the file is there or
    still to be written.  That can fail only when an earlier save of the
    process went past the head and lost it. *)
Theorem safety_file_roundtrip (m : my_finalizers_t) (log : list (vote_message * block_state)) :
  crc_width -> node_run m log ->
  exists m', save_finalizer_safety_info disk_ok m = (true, m') /\
    (head_kept m = true -> exists file res, safety_file m' = Some file /\
       load_finalizer_safety_info (new_my_finalizers (Some file)) = Ok res /\
       forall k, map_find k res = stored_fsi <$> known m k).
Proof.
  intros Hcrc H. destruct (node_run_inv _ _ Hcrc H) as [I _ _ _ _ _].
  destruct (save_succeeds m I) as (m' & E & Hh). exists m'. split; [done|]. intros Hk.
  destruct (proj2 (se_saved _ _ _ (save_spec _ _ _ _ Hcrc I E) eq_refl) (Hh Hk)) as (file & res & Hf & Hl & _ & Hg).
  by exists file, res.
Qed.

(** C26: Votes are saved before they are given out: whenever [maybe_vote] hands
    over votes, whatever saves have failed before, and the head of the file is
    there or still to be written, the file on the disk can be loaded and says
    of each of their finalizers that its last vote is this block.  No restart
    has read a torn file.  (A save that fails with its head in the buffer only makes the next ones leave it
    out: [lost_head_is_not_rewritten].) *)
Theorem votes_are_saved_first (m m' : my_finalizers_t) (log : list (vote_message * block_state)) (disk : disk_outcome)
    (s : block_state) (votes : list vote_t) (v : vote_t) :
  crc_width -> node_run m log -> block_ok s -> head_kept m = true -> maybe_vote disk m s = Ok (votes, m') -> v ∈ votes ->
  exists file res f, safety_file m' = Some file /\ load_file file = Ok res /\
    map_find (finalizer_key v.1.1) res = Some f /\ last_vote f = forget_generations (bs_make_block_ref s).
Proof.
  intros Hcrc H Hs Hk Hv Hin. pose proof (node_run_inv _ _ Hcrc H) as I.
  unfold maybe_vote in Hv. destruct (my_finalizers m) as [|p fs] eqn:Efs.
  { injection Hv as <- <-. by apply elem_of_nil in Hin. }
  rewrite <- Efs in Hv. apply bind_Ok in Hv as ([vs fs'] & Hc & Hv). cbn [fst snd] in Hv.
  apply collect_votes_spec in Hc as (He & _ & Hvs). rewrite Forall_forall in Hvs.
  destruct vs as [|v0 vs]; [injection Hv as <- <-; by apply elem_of_nil in Hin|].
  set (m1 := MyFinalizers true _ _ _ _ _ _ _ _) in Hv.
  assert (I1 : file_inv m1) by (by apply (evolves_inv m s), He; [|apply (ri_file _ _ I)]).
  destruct (save_finalizer_safety_info disk m1) as [saved m2] eqn:E. injection Hv as <- <-.
  destruct saved; [|by apply elem_of_nil in Hin].
  destruct (proj2 (se_saved _ _ _ (save_spec _ _ _ _ Hcrc I1 E) eq_refl)) as (file & res & Hf & Hl & _ & Hg);
    [by apply (saved_head disk m1)|].
  destruct (Hvs v Hin) as (_ & f & f' & Hf0 & Hf' & Hm). exists file, res, (stored_fsi (fsi f')).
  split_and!; [done|done| |by rewrite <- (fm_last_vote _ _ _ Hm)].
  rewrite Hg. unfold known. rewrite map_find_app, active_find. cbn [my_finalizers m1 with_finalizers snd].
  fold (vote_key v). rewrite (map_sorted_find _ f'); [done| |done]. apply (fi_sorted _ I1).
Qed.

(** C28: The voting rule: for every block state with a well-formed core, and, if
    that is the core of a genesis block, safety information whose lock is not
    older than the genesis block ([lock_since_genesis]; a finalizer that starts is
    given such a lock), [decide_vote] never fails, and its decision and the safety
    information it leaves are those of [vote_rule] applied to the block, to the
    block its latest certificate claims and to ancestry in its core. *)
Theorem decide_vote_correct (s : block_state) (f : finalizer_safety_information) :
  core_inv (core (bhs s)) -> lock_since_genesis s f ->
  exists v r f', view_of s v /\ decide_vote f s = Ok (r, f') /\ vote_rule v f = (decision r, f').
Proof.
  intros I G. destruct (view_exists s I) as [v V]. destruct (decide_vote_is_rule s v f I V G) as (r & E & Hd).
  exists v, r, (vote_rule v f).2. split_and!; [done|done|]. rewrite Hd. by destruct (vote_rule v f).
Qed.
End Properties.

(** ** The properties on a concrete run *)

#[local] Existing Instances example_bls example_hash example_hash_words unit_bls.
Definition example_sign : BlsSign := fun key bytes => Ok (key ++ take 8 bytes).
Definition example_crc : Crc32 := fun bytes => wrap32 (foldl (fun acc b => 31 * acc + b) 7 bytes).
#[local] Existing Instances example_sign example_crc.

Lemma example_crc_width : crc_width.
Proof. intros bytes. apply wrap32_u32. Qed.

Definition example_keys : list (bls_public_key * list Z) := [(repeat 3 96, [33]); (repeat 1 96, [11])].
Definition example_default_fsi : finalizer_safety_information :=
  FinalizerSafetyInformation block_ref_default (bs_make_block_ref example_block_0) 0.

(** A run: a node starts with the keys 1 and 3 and votes for block 11; the save
    for block 12 leaves an incomplete file, and its votes are not given out; it
    votes for block 13, restarts with key 1 only, and votes for block 14. *)
Definition example_node_on (disk : disk_outcome) (m : my_finalizers_t) (s : block_state) : list vote_t * my_finalizers_t :=
  from_ok ([], m) (maybe_vote disk m s).
Definition example_node := example_node_on disk_ok.
Definition example_configure (file : option (list Z)) (keys : list (bls_public_key * list Z)) : my_finalizers_t :=
  from_ok (new_my_finalizers None) (set_keys (new_my_finalizers file) keys).

Definition example_node_0 : my_finalizers_t := Eval vm_compute in example_configure None example_keys.
Definition example_node_1 : my_finalizers_t := Eval vm_compute in set_default_safety_information example_node_0 example_default_fsi.
Definition example_node_2 := Eval vm_compute in example_node example_node_1 example_block_1.
Definition example_failure : disk_outcome :=
  write_fails true (take 100 (default [] (safety_file example_node_2.2)) ++ [7; 7; 7]).
Definition example_node_3 := Eval vm_compute in example_node_on example_failure example_node_2.2 example_block_2.
Definition example_node_4 := Eval vm_compute in example_node example_node_3.2 example_block_3.
Definition example_node_5 := Eval vm_compute in example_configure (safety_file example_node_4.2) [(repeat 1 96, [11])].
Definition example_node_6 := Eval vm_compute in example_node example_node_5 example_block_4.
Definition example_log : list (vote_message * block_state) :=
  map (fun v => (v.1.1, example_block_1)) example_node_2.1 ++ map (fun v => (v.1.1, example_block_3)) example_node_4.1.

Abbreviation example_blocks := [example_block_1; example_block_2; example_block_3; example_block_4].

Lemma example_block_ok s : s ∈ example_blocks -> block_ok s.
Proof.
  rewrite !elem_of_cons. intros [->|[->|[->|[->|Hn]]]]; [..|by apply elem_of_nil in Hn].
  all: split; [|by vm_compute|apply Forall_forall; intros r Hr; apply (list_elem_of_In) in Hr; vm_compute in Hr].
  all: repeat match goal with H : _ \/ _ |- _ => destruct H as [<-|H] | H : False |- _ => destruct H end.
  all: repeat match goal with |- _ /\ _ => split end; by vm_compute.
Qed.

Lemma example_vote disk m s log r :
  node_run m log -> s ∈ example_blocks -> maybe_vote disk m s = Ok r ->
  node_run r.2 (log ++ map (fun v => (v.1.1, s)) r.1).
Proof. intros H Hs E. destruct r. eapply run_vote; [exact H|by apply example_block_ok|exact E]. Qed.

Lemma example_keys_ok : Forall (fun p => key_ok p.1) example_keys.
Proof. repeat constructor. Qed.

Lemma example_node_run_2 : node_run example_node_2.2 (map (fun v => (v.1.1, example_block_1)) example_node_2.1).
Proof.
  apply (example_vote disk_ok example_node_1 example_block_1 [] example_node_2); [|set_solver|by vm_compute].
  apply (run_default example_node_0); [|repeat match goal with |- _ /\ _ => split | |- fsi_wf _ => split end; by vm_compute].
  apply (run_restart (new_my_finalizers None) [] example_keys); [constructor|done|exact example_keys_ok|by vm_compute..].
Qed.

Lemma example_node_run_4 : node_run example_node_4.2 example_log.
Proof.
  apply (example_vote disk_ok example_node_3.2 example_block_3 (map (fun v => (v.1.1, example_block_1)) example_node_2.1) example_node_4);
    [|set_solver|by vm_compute].
  rewrite <- (app_nil_r (map _ _)).
  apply (example_vote example_failure example_node_2.2 example_block_2 (map (fun v => (v.1.1, example_block_1)) example_node_2.1)
    example_node_3); [exact example_node_run_2|set_solver|by vm_compute].
Qed.

Lemma example_node_run_5 : node_run example_node_5 example_log.
Proof.
  apply (run_restart example_node_4.2 example_log [(repeat 1 96, [11])]); [exact example_node_run_4|done| |by vm_compute..].
  repeat constructor.
Qed.

Lemma example_node_run_6 :
  node_run example_node_6.2 (example_log ++ map (fun v => (v.1.1, example_block_4)) example_node_6.1).
Proof. apply (example_vote disk_ok example_node_5 example_block_4); [exact example_node_run_5|set_solver|by vm_compute]. Qed.

Definition example_vote_at (l : list vote_t) (n : nat) : vote_message :=
  match l !! n with Some v => v.1.1 | None => VoteMessage sha256_default false [] [] end.

(** The failed save and the restart are between the two votes. *)
Lemma votes_never_repeat_witness :
  file_torn example_node_3.2 = true /\ example_node_3.1 = [] /\
  vote_block_id (example_vote_at example_node_2.1 0) = id (bhs example_block_1) /\
  vote_block_id (example_vote_at example_node_6.1 0) = id (bhs example_block_4) /\
  bhs_timestamp (bhs example_block_1) < bhs_timestamp (bhs example_block_4).
Proof.
  split; [reflexivity|]. split; [reflexivity|].
  apply (votes_never_repeat example_node_6.2 (example_log ++ map (fun v => (v.1.1, example_block_4)) example_node_6.1) 0 4);
    [exact example_crc_width|exact example_node_run_6|lia|reflexivity..].
Defined.

Lemma safety_file_roundtrip_witness :
  head_kept example_node_6.2 = true /\ exists m', save_finalizer_safety_info disk_ok example_node_6.2 = (true, m') /\
    (head_kept example_node_6.2 = true -> exists file res, safety_file m' = Some file /\
       load_finalizer_safety_info (new_my_finalizers (Some file)) = Ok res /\
       forall k, map_find k res = stored_fsi <$> known example_node_6.2 k).
Proof.
  split; [reflexivity|].
  apply (safety_file_roundtrip example_node_6.2 (example_log ++ map (fun v => (v.1.1, example_block_4)) example_node_6.1));
    [exact example_crc_width|exact example_node_run_6].
Defined.

Definition example_vote_1 : vote_t := default (VoteMessage sha256_default false [] [], None, None) (example_node_4.1 !! 0%nat).

(** The save after the one that failed. *)
Lemma votes_are_saved_first_witness :
  exists file res f, safety_file example_node_4.2 = Some file /\ load_file file = Ok res /\
    map_find (repeat 1 96) res = Some f /\ last_vote f = forget_generations (bs_make_block_ref example_block_3).
Proof.
  apply (votes_are_saved_first example_node_3.2 example_node_4.2 (map (fun v => (v.1.1, example_block_1)) example_node_2.1)
    disk_ok example_block_3 example_node_4.1 example_vote_1).
  - exact example_crc_width.
  - rewrite <- (app_nil_r (map _ _)).
    apply (example_vote example_failure example_node_2.2 example_block_2 (map (fun v => (v.1.1, example_block_1)) example_node_2.1)
      example_node_3); [exact example_node_run_2|set_solver|by vm_compute].
  - apply example_block_ok. set_solver.
  - by vm_compute.
  - by vm_compute.
  - left.
Defined.

Lemma decide_vote_correct_witness :
  exists v r f', view_of example_block_4 v /\ decide_vote example_default_fsi example_block_4 = Ok (r, f') /\
    vote_rule v example_default_fsi = (decision r, f').
Proof.
  apply decide_vote_correct.
  - destruct (chain_inv_reachable _ _ example_chain_4) as (f & b & I). exists f, b. exact (ci_shape _ _ _ _ I).
  - intros H. vm_compute in H. discriminate H.
Defined.
