(* ===== verification/VoteSafety.v ===== *)
(** * The safety of the voting rule

    An abstract account of Savanna: finalizers that follow [vote_rule] of
    [Finalizer] over a tree of blocks, each of which claims a certificate on an
    ancestor.  What the argument needs of the blocks is the class
    [BlockTreeOk]; [Safety] shows that the chains of header states have it.
    The result is that two final blocks are never on different branches, as
    long as the finalizers that do not follow the rule weigh less than the
    overlap of two quorums. *)

From Stdlib Require Import Sorting.Sorted.
From S2P Require Import Prelude ChainTypes FinalityCore Policies BlockHeaderState Finalizer.

(** ** The tree of blocks *)

(** [shows b v]: [v] is what the state of [b] lets a finalizer see of it. *)
Class BlockTree (B : Type) := {
  block_valid : B -> Prop;
  id_of : B -> block_id_type;
  time_of : B -> Z;
  ancestor : B -> B -> Prop;
  justified : B -> B;
  genesis : B;
  shows : B -> proposal_view -> Prop
}.

Class BlockTreeOk (B : Type) {tree : BlockTree B} : Prop := {
  id_of_inj x y : block_valid x -> block_valid y -> id_of x = id_of y -> x = y;
  id_of_nonempty x : block_valid x -> sha256_is_empty (id_of x) = false;
  ancestor_refl x : block_valid x -> ancestor x x;
  ancestor_trans x y z : ancestor x y -> ancestor y z -> ancestor x z;
  ancestor_linear x y z : ancestor x z -> ancestor y z -> ancestor x y \/ ancestor y x;
  ancestor_valid x y : block_valid y -> ancestor x y -> block_valid x;
  ancestor_time x y : block_valid y -> ancestor x y -> x = y \/ time_of x < time_of y;
  genesis_first x : block_valid x -> ancestor genesis x;
  justified_ancestor x : block_valid x -> ancestor (justified x) x;
  justified_time x : block_valid x -> x <> genesis -> time_of (justified x) < time_of x;
  justified_mono x y : block_valid y -> ancestor x y -> time_of (justified x) <= time_of (justified y);
  shows_block x v : block_valid x -> shows x v -> block_id (pv_block v) = id_of x /\ timestamp (pv_block v) = time_of x;
  shows_time x v : block_valid x -> shows x v -> timestamp (pv_claimed v) = time_of (justified x);
  shows_claim x v : block_valid x -> shows x v -> x <> genesis -> block_id (pv_claimed v) = id_of (justified x);
  shows_extends x v i : block_valid x -> shows x v -> pv_extends v i = true ->
    exists y, ancestor y x /\ y <> x /\ id_of y = i
}.

Lemma StronglySorted_ordered {A} (R : A -> A -> Prop) (l : list A) a b :
  StronglySorted R l -> a ∈ l -> b ∈ l -> a = b \/ R a b \/ R b a.
Proof.
  induction 1 as [|c l _ IH Hc]; intros Ha Hb; [by apply elem_of_nil in Ha|]. rewrite Forall_forall in Hc.
  apply elem_of_cons in Ha as [->|Ha], Hb as [->|Hb]; auto.
Qed.

Section VoteSafety.
Context {B : Type} {tree : BlockTree B} {tree_ok : BlockTreeOk B}.
Implicit Types (x y l : B) (f : finalizer_safety_information) (h : list (B * bool)).

Lemma justified_valid x : block_valid x -> block_valid (justified x).
Proof. intros H. by eapply ancestor_valid, justified_ancestor. Qed.

Lemma genesis_time x : block_valid x -> time_of genesis <= time_of x.
Proof. intros H. destruct (ancestor_time genesis x H (genesis_first x H)) as [->|]; lia. Qed.

Lemma genesis_or_later x : block_valid x -> x = genesis \/ time_of genesis < time_of x.
Proof. intros H. destruct (ancestor_time genesis x H (genesis_first x H)) as [->|]; auto. Qed.

Lemma genesis_valid x : block_valid x -> block_valid genesis.
Proof. intros H. by eapply ancestor_valid, genesis_first. Qed.

Lemma justified_genesis x : block_valid x -> justified genesis = genesis.
Proof.
  intros H%genesis_valid. pose proof (justified_valid _ H) as Hj.
  destruct (ancestor_time _ _ H (justified_ancestor _ H)) as [->|]; [done|].
  pose proof (genesis_time _ Hj). lia.
Qed.

Lemma ancestor_antisym x y : block_valid x -> block_valid y -> ancestor x y -> ancestor y x -> x = y.
Proof.
  intros Hx Hy Hxy Hyx. destruct (ancestor_time _ _ Hy Hxy) as [|H1]; [done|].
  destruct (ancestor_time _ _ Hx Hyx) as [|H2]; [done|]. lia.
Qed.

(** Of two ancestors of a block, the older one is an ancestor of the other. *)
Lemma older_ancestor x y z :
  block_valid z -> ancestor x z -> ancestor y z -> time_of x < time_of y -> ancestor x y.
Proof.
  intros Hz Hx Hy Ht. destruct (ancestor_linear _ _ _ Hx Hy) as [|Hyx]; [done|].
  destruct (ancestor_time y x) as [->|]; [by eapply ancestor_valid|done|lia|lia].
Qed.

(** A reference to a block: its id and its time.  The rest of a [block_ref] is
    not used by the rule. *)
Definition refers (r : block_ref) x : Prop := block_id r = id_of x /\ timestamp r = time_of x.

(** Safety informations that the rule does not distinguish: those of a node
    before and after it stores and loads them. *)
Record same_fsi f f' : Prop := {
  same_last_vote : block_id (last_vote f') = block_id (last_vote f) /\ timestamp (last_vote f') = timestamp (last_vote f);
  same_lock : block_id (lock f') = block_id (lock f) /\ timestamp (lock f') = timestamp (lock f);
  same_other : other_branch_latest_time f' = other_branch_latest_time f
}.

(** ** The run of a finalizer *)

Section Run.
(** The blocks a certificate is known of. *)
Variable certified : B -> Prop.

Definition lockable l : Prop := block_valid l /\ (l = genesis \/ certified l).

(** [fin_run h f]: a finalizer that has voted for the blocks of [h], in this
    order, strongly where the boolean says so, has the safety information [f].
    It starts without a vote and with a lock on the genesis block or a block
    with a certificate. *)
Inductive fin_run : list (B * bool) -> finalizer_safety_information -> Prop :=
| fin_run_start l f :
    lockable l -> refers (lock f) l -> block_ref_empty (last_vote f) = true -> fin_run [] f
| fin_run_vote h f x v d f' :
    fin_run h f -> block_valid x -> shows x v -> vote_rule v f = (d, f') -> d <> no_vote ->
    fin_run (h ++ [(x, bool_decide (d = strong_vote))]) f'
| fin_run_reload h f f' : fin_run h f -> same_fsi f f' -> fin_run h f'.

(** What a vote for [v.1] says of a later vote for [w.1]. *)
Record vote_pair (v w : B * bool) : Prop := {
  vp_time : time_of v.1 < time_of w.1;
  vp_after_strong : v.2 = true -> exists l, lockable l /\ time_of (justified v.1) <= time_of l /\
    (time_of l < time_of (justified w.1) \/ ancestor l w.1 /\ l <> w.1);
  vp_before_strong : w.2 = true -> ancestor v.1 w.1 \/ time_of v.1 <= time_of (justified w.1)
}.

Record fin_inv h f : Prop := {
  fi_valid : Forall (fun v => block_valid v.1) h;
  fi_pairs : StronglySorted vote_pair h;
  fi_lock : exists l, lockable l /\ refers (lock f) l /\
    forall v, (v, true) ∈ h -> time_of (justified v) <= time_of l;
  fi_last : match last h with
            | Some w => refers (last_vote f) w.1 /\ forall v, v ∈ h ->
                time_of v.1 <= time_of w.1 /\
                (ancestor v.1 w.1 \/ time_of v.1 <= other_branch_latest_time f \/ time_of v.1 <= time_of (justified w.1))
            | None => block_ref_empty (last_vote f) = true
            end
}.

Lemma last_nonempty h f w : fin_inv h f -> last h = Some w -> block_ref_empty (last_vote f) = false.
Proof.
  intros I Hw. pose proof (fi_last _ _ I) as Hl. rewrite Hw in Hl. destruct Hl as [[Hl _] _].
  unfold block_ref_empty. rewrite Hl. apply id_of_nonempty.
  pose proof (fi_valid _ _ I) as Hv. rewrite Forall_forall in Hv. apply Hv. by apply last_Some_elem_of.
Qed.

Lemma extends_refers r x y v :
  block_valid x -> block_valid y -> shows x v -> refers r y -> pv_extends v (block_id r) = true ->
  ancestor y x /\ y <> x.
Proof.
  intros Hx Hy Hv [Hr _] He. destruct (shows_extends _ _ _ Hx Hv He) as (z & Hz & Hne & Hi).
  rewrite Hr in Hi. apply id_of_inj in Hi as <-; [done|by apply (ancestor_valid z x)|done].
Qed.

Section Vote.
(** A vote of [f] for [x], of which [f] sees [v]. *)
Context (claims : forall x, block_valid x -> x <> genesis -> justified x = genesis \/ certified (justified x)).
Context (h : list (B * bool)) (f : finalizer_safety_information) (x : B) (v : proposal_view).
Context (I : fin_inv h f) (Hx : block_valid x) (Hv : shows x v).

Lemma voted_valid w : w ∈ h -> block_valid w.1.
Proof. pose proof (fi_valid _ _ I) as H. rewrite Forall_forall in H. apply H. Qed.

Lemma vote_after w : can_vote v f = true -> w ∈ h -> time_of w.1 < time_of x.
Proof.
  intros Hc Hw. unfold can_vote in Hc. rewrite !andb_true_iff, orb_true_iff in Hc. destruct Hc as [[Hm _] _].
  pose proof (fi_last _ _ I) as Hl. destruct (last h) as [u|] eqn:Eu.
  2:{ apply last_None in Eu. rewrite Eu in Hw. by apply elem_of_nil in Hw. }
  rewrite (last_nonempty _ _ _ I Eu) in Hm. destruct Hm as [|Hm]; [done|].
  destruct Hl as [[_ Ht] Ha], (shows_block _ _ Hx Hv) as [_ Hb]. specialize (Ha _ Hw). lia.
Qed.

Lemma vote_lock : can_vote v f = true -> exists l, lockable l /\ refers (lock f) l /\
  (forall u, (u, true) ∈ h -> time_of (justified u) <= time_of l) /\
  (time_of l < time_of (justified x) \/ ancestor l x /\ l <> x).
Proof.
  intros Hc. unfold can_vote in Hc. rewrite !andb_true_iff in Hc. destruct Hc as [_ Hc].
  destruct (fi_lock _ _ I) as (l & Hl & Hr & Hs). exists l. split_and!; [done..|].
  apply orb_true_iff in Hc as [Hc|Hc].
  - left. rewrite (shows_time _ _ Hx Hv) in Hc. destruct Hr. lia.
  - right. by eapply extends_refers, Hc; [| |exact Hv|]; [|apply Hl|].
Qed.

(** The lock of a vote that moves it. *)
Lemma moved_lock : can_vote v f = true -> timestamp (lock f) < timestamp (pv_claimed v) ->
  lockable (justified x) /\ refers (pv_claimed v) (justified x).
Proof.
  intros Hc Ht. destruct (vote_lock Hc) as (l & [Hl _] & [_ Hr] & _).
  rewrite (shows_time _ _ Hx Hv) in Ht.
  assert (Hg : x <> genesis).
  { intros ->. rewrite (justified_genesis _ Hx) in Ht. pose proof (genesis_time _ Hl). lia. }
  split; [split; [by apply justified_valid|by apply claims]|].
  split; [by apply shows_claim|by apply shows_time].
Qed.

Lemma votes_on_branch w : votes_strong v f = true -> w ∈ h ->
  ancestor w.1 x \/ time_of w.1 <= time_of (justified x).
Proof.
  intros Hs Hw. pose proof (fi_last _ _ I) as Hl. destruct (last h) as [u|] eqn:Eu.
  2:{ apply last_None in Eu. rewrite Eu in Hw. by apply elem_of_nil in Hw. }
  destruct Hl as [Hr Ha]. destruct (Ha _ Hw) as [Ht Hq]. unfold votes_strong in Hs.
  rewrite (shows_time _ _ Hx Hv) in Hs. apply orb_true_iff in Hs as [Hs|Hs].
  { destruct Hr as [_ Hr]. right. lia. }
  apply andb_true_iff in Hs as [He Ho].
  assert (Hux : ancestor u.1 x).
  { eapply (extends_refers (last_vote f) x u.1 v); [done| |done..]. apply voted_valid. by apply last_Some_elem_of. }
  destruct Hq as [Hq|[Hq|Hq]]; [left; by eapply ancestor_trans|right; lia|right].
  pose proof (justified_mono _ _ Hx Hux). lia.
Qed.

Lemma vote_pairs b : can_vote v f = true -> (b = true -> votes_strong v f = true) ->
  StronglySorted vote_pair (h ++ [(x, b)]).
Proof.
  intros Hc Hb. apply StronglySorted_snoc; [apply I|]. apply Forall_forall. intros [w s] Hw.
  split; cbn [fst snd].
  - by eapply (vote_after (w, s)).
  - intros ->. destruct (vote_lock Hc) as (l & Hl & _ & Hj & Hlx). exists l. split_and!; [done| |done]. by apply Hj.
  - intros E. apply (votes_on_branch (w, s)); auto.
Qed.

Lemma vote_inv d f' : vote_rule v f = (d, f') -> d <> no_vote -> fin_inv (h ++ [(x, bool_decide (d = strong_vote))]) f'.
Proof.
  intros H Hd. unfold vote_rule in H. destruct (can_vote v f) eqn:Hc; [|by injection H as <- <-].
  pose proof (shows_block _ _ Hx Hv) as Hb.
  assert (Hvalid : forall b : bool, Forall (fun v => block_valid v.1) (h ++ [(x, b)])).
  { intros b. apply Forall_app. split; [apply I|by constructor]. }
  destruct (vote_lock Hc) as (l & Hl & Hr & Hj & _).
  destruct (votes_strong v f) eqn:Hs; injection H as <- <-; cbn; (split; cbn [lock last_vote other_branch_latest_time]);
    [by apply Hvalid|by apply vote_pairs| | |by apply Hvalid|by apply vote_pairs| |].
  - destruct (Z.ltb_spec (timestamp (lock f)) (timestamp (pv_claimed v))) as [Ht|Ht].
    + destruct (moved_lock Hc Ht) as [Hl' Hr']. exists (justified x). split_and!; [done..|].
      rewrite (shows_time _ _ Hx Hv) in Ht. destruct Hr as [_ Hr].
      intros u [Hu|[= ->]%list_elem_of_singleton]%elem_of_app; [|done]. specialize (Hj _ Hu). lia.
    + rewrite (shows_time _ _ Hx Hv) in Ht. exists l. split_and!; [done..|]. destruct Hr as [_ Hr].
      intros u [Hu|[= ->]%list_elem_of_singleton]%elem_of_app; [by apply Hj|lia].
  - rewrite last_snoc. split; [done|]. intros w [Hw|Hw%list_elem_of_singleton]%elem_of_app; [|subst w]; cbn [fst].
    + pose proof (vote_after _ Hc Hw). split; [lia|]. destruct (votes_on_branch _ Hs Hw); tauto.
    + split; [lia|]. left. by apply ancestor_refl.
  - exists l. split_and!; [done..|].
    intros u [Hu|[=]%list_elem_of_singleton]%elem_of_app. by apply Hj.
  - rewrite last_snoc. split; [done|]. intros w [Hw|Hw%list_elem_of_singleton]%elem_of_app; [|subst w]; cbn [fst].
    2:{ split; [lia|]. left. by apply ancestor_refl. }
    pose proof (vote_after _ Hc Hw). split; [lia|].
    pose proof (fi_last _ _ I) as Hl0. destruct (last h) as [u|] eqn:Eu.
    2:{ apply last_None in Eu. rewrite Eu in Hw. by apply elem_of_nil in Hw. }
    destruct Hl0 as [Hr0 Ha]. destruct (Ha _ Hw) as [Ht Hq].
    destruct (pv_extends v _) eqn:He; [|destruct Hr0 as [_ Hr0]; right; left; lia].
    assert (Hux : ancestor u.1 x).
    { eapply (extends_refers (last_vote f) x u.1 v); [done| |done..]. apply voted_valid. by apply last_Some_elem_of. }
    destruct Hq as [Hq|[Hq|Hq]]; [left; by eapply ancestor_trans|right; left; lia|].
    pose proof (justified_mono _ _ Hx Hux). right; right; lia.
Qed.
End Vote.

Lemma fin_run_inv h f :
  (forall x, block_valid x -> x <> genesis -> justified x = genesis \/ certified (justified x)) ->
  fin_run h f -> fin_inv h f.
Proof.
  intros claims. induction 1 as [l f Hl Hr He|h f x v d f' _ IH Hx Hv H Hd|h f f' _ IH S].
  - split; [constructor|constructor| |done]. exists l. split_and!; [done..|]. intros v Hv. by apply elem_of_nil in Hv.
  - by eapply vote_inv.
  - destruct S as [[S1 S2] [S3 S4] S5], IH as [Iv Ip (l & Hl & Hr & Hj) Il]. split; [done|done| |].
    + exists l. split_and!; [done| |done]. unfold refers. by rewrite S3, S4.
    + destruct (last h); unfold refers, block_ref_empty in *; by rewrite S1, ?S2, ?S5.
Qed.
End Run.

(** ** Certificates and finality *)

Section Certificates.
(** The finalizers of the policy, those that need not follow the rule, and the
    votes each of the others has given. *)
Context (fs : list finalizer_authority) (threshold : Z) (faulty : list bool) (hist : nat -> list (B * bool)).

Definition honest (i : nat) : Prop := faulty !! i <> Some true.

(** [qc strong x]: a quorum of bits is set, each bit of an honest finalizer for
    a vote it gave, and gave strongly if the certificate is strong. *)
Definition qc (strong : bool) x : Prop :=
  exists bits, threshold <= voted_weight fs bits /\
    forall i, bits !! i = Some true -> honest i -> exists s, (x, s) ∈ hist i /\ (strong = true -> s = true).

Definition certified x : Prop := exists strong, qc strong x.

(** A strong certificate on a block makes final the block it claims. *)
Definition final x : Prop := x = genesis \/ exists y, block_valid y /\ qc true y /\ x = justified y.

Context (Hweights : weights_ok fs) (Hfaulty : total_weight fs + voted_weight fs faulty < 2 * threshold).
Context (Hclaims : forall x, block_valid x -> x <> genesis -> justified x = genesis \/ certified (justified x)).
Context (Hruns : forall i, honest i -> exists f, fin_run certified (hist i) f).

Lemma honest_in_both s1 s2 x1 x2 : qc s1 x1 -> qc s2 x2 ->
  exists i v1 v2, honest i /\ (x1, v1) ∈ hist i /\ (x2, v2) ∈ hist i /\
    (s1 = true -> v1 = true) /\ (s2 = true -> v2 = true).
Proof.
  intros (b1 & Hw1 & H1) (b2 & Hw2 & H2). pose proof (voted_weight_overlap fs b1 b2 Hweights).
  destruct (voted_weight_outside fs (zip_with andb b1 b2) faulty Hweights) as (i & _ & _ & Hb & Hh); [lia|].
  rewrite lookup_zip_with in Hb. destruct (b1 !! i) as [[]|] eqn:E1, (b2 !! i) as [[]|] eqn:E2; try done.
  destruct (H1 i E1 Hh) as (v1 & ? & ?), (H2 i E2 Hh) as (v2 & ? & ?). by exists i, v1, v2.
Qed.

(** The order of two votes of an honest finalizer. *)
Lemma honest_order i v1 v2 : honest i -> v1 ∈ hist i -> v2 ∈ hist i ->
  v1 = v2 \/ vote_pair certified v1 v2 \/ vote_pair certified v2 v1.
Proof.
  intros Hh H1 H2. destruct (Hruns i Hh) as [f Hf]. pose proof (fi_pairs _ _ _ (fin_run_inv _ _ _ Hclaims Hf)) as Hs.
  by eapply StronglySorted_ordered.
Qed.

Lemma qc_valid s x : qc s x -> block_valid x.
Proof.
  intros H. destruct (honest_in_both s s x x H H) as (i & v & _ & Hh & Hv & _). destruct (Hruns i Hh) as [f Hf].
  pose proof (fi_valid _ _ _ (fin_run_inv _ _ _ Hclaims Hf)) as Ha. rewrite Forall_forall in Ha. by apply (Ha _ Hv).
Qed.

(** Two blocks of the same time are not both certified. *)
Lemma certified_unique x y : certified x -> certified y -> time_of x = time_of y -> x = y.
Proof.
  intros [s1 H1] [s2 H2] Ht. destruct (honest_in_both _ _ _ _ H1 H2) as (i & v1 & v2 & Hh & Hx & Hy & _).
  destruct (honest_order _ _ _ Hh Hx Hy) as [[= ->]|[[Hp _ _]|[Hp _ _]]]; cbn in *; [done|lia|lia].
Qed.

Lemma lockable_unique x y : lockable certified x -> lockable certified y -> time_of x = time_of y -> x = y.
Proof.
  assert (Hg : forall z, block_valid z -> time_of z = time_of genesis -> z = genesis).
  { intros z Hz Ht. destruct (ancestor_time _ _ Hz (genesis_first _ Hz)) as [->|]; [done|lia]. }
  intros [Hx [->|Cx]] [Hy [->|Cy]] Ht; [done|symmetry; by apply Hg|by apply Hg|by apply certified_unique].
Qed.

Lemma justified_lockable x : block_valid x -> lockable certified (justified x).
Proof.
  intros Hx. split; [by apply justified_valid|]. destruct (genesis_or_later x Hx) as [->|Hg].
  - left. by eapply justified_genesis.
  - apply Hclaims; [done|]. intros ->. lia.
Qed.

(** A certified block younger than a final one descends from it. *)
Lemma certified_extends_final x y :
  qc true x -> lockable certified y -> time_of (justified x) <= time_of y -> ancestor (justified x) y.
Proof.
  intros Qx. remember (Z.to_nat (time_of y - time_of genesis)) as n eqn:En. revert y En.
  induction n as [n IH] using lt_wf_ind. intros y En Ly Ht. pose proof (qc_valid _ _ Qx) as Hx.
  pose proof (justified_lockable _ Hx) as Lj. set (a := justified x) in *.
  assert (IH' : forall z, lockable certified z -> time_of z < time_of y -> time_of a <= time_of z -> ancestor a z).
  { intros z Lz Hz Hza. eapply (IH _); [|done..]. pose proof (genesis_time _ (proj1 Lz)). lia. }
  destruct (decide (time_of a = time_of y)) as [E|Hne].
  { rewrite (lockable_unique a y) by done. apply ancestor_refl, Ly. }
  destruct Ly as [Hy [->|[s Qy]]]; [pose proof (genesis_time _ (proj1 Lj)); lia|].
  destruct (honest_in_both _ _ _ _ Qx Qy) as (i & v1 & v2 & Hh & H1 & H2 & Hs & _). rewrite (Hs eq_refl) in H1.
  destruct (honest_order _ _ _ Hh H1 H2) as [[= -> _]|[[Hp Hafter _]|[Hp _ Hbefore]]]; cbn [fst snd] in *.
  - by apply justified_ancestor.
  - destruct (Hafter eq_refl) as (l & Ll & Hl & Hor).
    fold a in Hl. destruct Hor as [Hor|Hor].
    + pose proof (justified_lockable _ Hy) as Lk. eapply ancestor_trans; [|by apply justified_ancestor].
      apply IH'; [done| |lia]. apply justified_time; [done|]. intros ->.
      rewrite (justified_genesis _ Hy) in Hor. pose proof (genesis_time _ (proj1 Ll)). lia.
    + destruct Hor as [Hor Hne']. destruct (ancestor_time _ _ Hy Hor) as [->|Hlt]; [done|].
      eapply ancestor_trans; [apply IH'; [done..|lia]|done].
  - destruct (Hbefore eq_refl) as [Hb|Hb]; [|fold a in Hb; lia].
    apply (older_ancestor a y x); [done|by apply justified_ancestor|done|lia].
Qed.

Lemma final_certified x : block_valid genesis -> final x -> lockable certified x.
Proof. intros Hg [->|(y & Hy & _ & ->)]; [by split; [|left]|by apply justified_lockable]. Qed.

(** Two final blocks are on one branch. *)
Lemma finals_agree x y : block_valid genesis -> final x -> final y -> ancestor x y \/ ancestor y x.
Proof.
  intros Hg Fx Fy. pose proof (final_certified _ Hg Fx) as Lx. pose proof (final_certified _ Hg Fy) as Ly.
  destruct Fx as [->|(z & _ & Qz & ->)]; [left; apply genesis_first, Ly|].
  destruct Fy as [->|(w & _ & Qw & ->)]; [right; apply genesis_first, Lx|].
  destruct (Z.le_ge_cases (time_of (justified z)) (time_of (justified w))); [left|right];
    by apply certified_extends_final.
Qed.
End Certificates.
End VoteSafety.
