(* ===== verification/Branch.v ===== *)
(** * Branches of header states

    A branch is the list of the header states from a genesis block to a block,
    as [block_header_state::next] makes them.  This file says how numbers,
    timestamps and certificate claims run along a branch, that the references
    and links of a state's core are about the blocks of its branch, and that
    branches are a [BlockTree]: what a finalizer sees in a core is true of the
    branch the core was made by. *)

From S2P Require Import Prelude ChainTypes Merkle FinalityCore OrderedDiff Policies Qc Raw BlockHeader BlockHeaderState.
From S2P Require Import BlockState Finalizer VoteSafety.

(** ** A step along a branch *)

Definition claim_of (s : block_header_state) : qc_claim_t := from_ok (QcClaim 0 false) (latest_qc_claim (core s)).
Definition claimed_num (s : block_header_state) : Z := claim_block_num (claim_of s).
Definition final_num (s : block_header_state) : Z := from_ok 0 (last_final_block_num (core s)).

Section Branch.
Context {hasher : Sha256Hash} {words : Sha256Words hasher} {keyok : BlsKeyValid} {bls : Bls}.
Implicit Types (s t u : block_header_state) (p q : list block_header_state).

Definition link_of s : qc_link := QcLink (bhs_block_num s) (claimed_num s) (is_strong_qc (claim_of s)).

Record step_facts s s' : Prop := {
  sf_num : bhs_block_num s' = bhs_block_num s + 1;
  sf_time : bhs_timestamp s < bhs_timestamp s';
  sf_genesis : is_genesis_core (core s') = false;
  sf_claim : claimed_num s <= claimed_num s' <= bhs_block_num s;
  sf_links : forall l, l ∈ links (core s') -> l ∈ links (core s) \/ l = link_of s';
  sf_final : if is_strong_qc (claim_of s') then
               exists l, l ∈ links (core s) /\ source_block_num l = claimed_num s' /\ final_num s' = target_block_num l
             else final_num s' = final_num s
}.

Lemma shape_claim_of s f b : core_shape (core s) f b -> claim_of s = QcClaim (target_block_num b) (is_link_strong b).
Proof. intros S. unfold claim_of. by rewrite (latest_qc_claim_Ok S). Qed.

Lemma shape_final_num s f b : core_shape (core s) f b -> final_num s = target_block_num f.
Proof. intros S. unfold final_num. by rewrite (last_final_block_num_Ok S). Qed.

Lemma branch_step ancestors s s' : bhs_chain ancestors s -> bhs_step s s' -> step_facts s s'.
Proof.
  intros Hc (hdr & exts & features & f_ext & H & Hprev & Hmax). apply finish_next_spec in H.
  destruct (chain_inv_reachable _ _ Hc) as (f & b & I). pose proof (ci_shape _ _ _ _ I) as S.
  pose proof (next_num I H Hprev Hmax) as Hnum.
  destruct (ns_core _ _ _ _ H) as (blk & Hblk & Hnext). pose proof (make_block_ref_Ok _ _ Hblk) as (Hid & _).
  assert (Hm : block_num blk = bhs_block_num s).
  { unfold block_num. rewrite Hid. apply (ci_id _ _ _ _ I), s_in_history. }
  assert (Hm' : block_num blk < uint32_max) by lia.
  pose proof (next_Ok_pre _ _ _ _ _ _ S Hm' Hnext) as Hpre.
  destruct (next_pre_Ok _ _ _ _ _ S Hpre) as (l & Hd & E & S' & _).
  rewrite E in Hnext. injection Hnext as Ec. rewrite Ec in S'. pose proof (ci_num _ _ _ _ I) as Hsrc.
  pose proof (shape_claim_of _ _ _ S') as Hcl. cbn in Hcl.
  split.
  - exact Hnum.
  - destruct (ns_proposer _ _ _ _ H) as (pp & Hpp & _). apply evaluate_proposer_spec in Hpp as [Ht _].
    unfold bhs_timestamp at 2. by rewrite (ns_header _ _ _ _ H).
  - rewrite <- Ec. unfold is_genesis_core. cbn. by destruct (drop _ _).
  - unfold claimed_num. rewrite Hcl, (shape_claim_of _ _ _ S). cbn.
    destruct Hpre as [_ _ _ Hle (latest & Hlatest & Hleb)]. rewrite (latest_qc_claim_Ok S) in Hlatest.
    injection Hlatest as <-. apply qc_claim_leb_num in Hleb. cbn in *. lia.
  - intros k Hk. rewrite <- Ec in Hk. cbn in Hk. apply elem_of_app in Hk as [Hk|Hk%list_elem_of_singleton].
    + left. apply list_elem_of_lookup in Hk as [i Hi]. rewrite lookup_drop in Hi. by eapply list_elem_of_lookup_2.
    + right. rewrite Hk. unfold link_of, claimed_num. rewrite Hcl. cbn. f_equal. lia.
  - unfold claimed_num. rewrite Hcl, (shape_final_num _ _ _ S'), (shape_final_num _ _ _ S). cbn.
    unfold deciding_link in Hd. destruct (is_strong_qc (qc_claim f_ext)); [|by subst l].
    destruct Hd as [Hd1 Hd2]. exists l. split_and!; [by eapply list_elem_of_lookup_2|done|done].
Qed.

Lemma genesis_facts s : bhs_genesis s ->
  refs (core s) = [] /\ links (core s) = [link_of s] /\ claim_of s = QcClaim (bhs_block_num s) false /\
  final_num s = bhs_block_num s /\ genesis_timestamp (core s) = bhs_timestamp s.
Proof.
  intros (i & h & features & schedule & exts & H & Hnum & _). apply create_genesis_fields in H as [Hh Hc].
  unfold link_of, claimed_num, claim_of, final_num, bhs_block_num, bhs_timestamp. rewrite Hc, Hh, <- Hnum. done.
Qed.

(** ** Branches *)

Record branch_facts p : Prop := {
  bf_genesis : forall g, head p = Some g -> bhs_genesis g;
  bf_num : forall i t g, p !! i = Some t -> head p = Some g -> bhs_block_num t = bhs_block_num g + Z.of_nat i;
  bf_time : adjacent (fun t u => bhs_timestamp t < bhs_timestamp u) p;
  bf_claims : adjacent (fun t u => claimed_num t <= claimed_num u <= bhs_block_num t) p;
  bf_cores : forall i t, p !! S i = Some t -> is_genesis_core (core t) = false;
  bf_links : forall i t l, p !! i = Some t -> l ∈ links (core t) -> exists j u, (j <= i)%nat /\ p !! j = Some u /\ l = link_of u
}.

Lemma branch_facts_chain ancestors s : bhs_chain ancestors s -> branch_facts (ancestors ++ [s]).
Proof.
  induction 1 as [s Hg|ancestors s s' Hc IH Hs].
  - split; [by intros g [= <-]| | | | |]; try apply adjacent_singleton.
    + intros [|i] t g Ht [= <-]; [|done]. injection Ht as <-. lia.
    + by intros [|i] t.
    + intros [|i] t l [= <-] Hl. exists 0%nat, s. destruct (genesis_facts _ Hg) as (_ & E & _). rewrite E in Hl.
      apply list_elem_of_singleton in Hl. done.
  - pose proof (branch_step _ _ _ Hc Hs) as F. destruct IH as [B1 B2 B3 B4 B5 B6].
    assert (Hhead : head ((ancestors ++ [s]) ++ [s']) = head (ancestors ++ [s])) by by destruct ancestors.
    assert (Hlast : last (ancestors ++ [s]) = Some s) by by rewrite last_snoc.
    assert (Hnew : forall i t, ((ancestors ++ [s]) ++ [s']) !! i = Some t ->
      (ancestors ++ [s]) !! i = Some t \/ i = length (ancestors ++ [s]) /\ t = s').
    { intros i t [Hi|[Hle Hi]]%lookup_app_Some; [by left|right].
      apply list_lookup_singleton_Some in Hi as [Hi ->]. split; [lia|done]. }
    split.
    + intros g. rewrite Hhead. apply B1.
    + intros i t g [Hi|[-> ->]]%Hnew; rewrite Hhead; intros Hg; [by apply B2|].
      rewrite (sf_num _ _ F), length_app. cbn. rewrite (B2 (length ancestors) s g) by (by apply lookup_snoc || done). lia.
    + eapply adjacent_snoc; [done|exact Hlast|apply F].
    + eapply adjacent_snoc; [done|exact Hlast|apply F].
    + intros i t [Hi|[_ ->]]%Hnew; [by eapply B5|apply F].
    + intros i t l [Hi|[-> ->]]%Hnew Hl.
      * destruct (B6 i t l Hi Hl) as (j & u & ? & Hu & ->). exists j, u. split_and!; [done|by apply lookup_app_l_Some|done].
      * destruct (sf_links _ _ F _ Hl) as [Hl'| ->].
        -- destruct (B6 (length ancestors) s l) as (j & u & ? & Hu & ->); [apply lookup_snoc|done|].
           exists j, u. split_and!; [rewrite length_app; lia|by apply lookup_app_l_Some|done].
        -- exists (length (ancestors ++ [s])), s'. split_and!; [done|apply lookup_snoc|done].
Qed.

(** [is_branch p]: a chain of header states with its end. *)
Definition is_branch p : Prop := exists ancestors s, p = ancestors ++ [s] /\ bhs_chain ancestors s.

Lemma is_branch_facts p : is_branch p -> branch_facts p.
Proof. intros (ancestors & s & -> & H). by apply branch_facts_chain. Qed.

Lemma prefix_snoc_inv {A} (q l : list A) x : q `prefix_of` l ++ [x] -> q `prefix_of` l \/ q = l ++ [x].
Proof.
  intros Hq. destruct (prefix_weak_total q l (l ++ [x]) Hq) as [|Hl]; [by apply prefix_app_r|by left|].
  destruct Hl as [k ->]. apply prefix_app_inv in Hq. destruct k as [|y k]; [left; by rewrite app_nil_r|right].
  destruct Hq as [z Hz]. injection Hz as <- Hz. by destruct k.
Qed.

Lemma branch_prefix p q : is_branch p -> q <> [] -> q `prefix_of` p -> is_branch q.
Proof.
  intros (ancestors & s & -> & H) Hne. induction H as [s Hg|ancestors s s' Hc IH Hs]; intros Hq.
  - apply (prefix_snoc_inv q []) in Hq as [Hq| ->]; [by apply prefix_nil_inv in Hq|]. exists [], s. by split; [|constructor].
  - apply prefix_snoc_inv in Hq as [Hq| ->]; [by apply IH|].
    exists (ancestors ++ [s]), s'. split; [done|by apply chain_next].
Qed.

(** ** Blocks of a branch by their numbers *)

Definition first_num p : Z := match head p with Some g => bhs_block_num g | None => 0 end.

(** The branch up to the block of number [n]. *)
Definition upto p (n : Z) : list block_header_state := take (S (Z.to_nat (n - first_num p))) p.

(** The branch of the block that the last one claims a certificate on. *)
Definition justified_branch p : list block_header_state :=
  match last p with Some s => upto p (claimed_num s) | None => p end.

(** The branch of the last final block. *)
Definition final_branch p : list block_header_state :=
  match last p with Some s => upto p (final_num s) | None => p end.

Section Facts.
Context {p : list block_header_state} (F : branch_facts p).

Lemma branch_num i t : p !! i = Some t -> bhs_block_num t = first_num p + Z.of_nat i.
Proof.
  intros Hi. unfold first_num. destruct p as [|g p'] eqn:E; [done|]. by apply (bf_num _ F i t g).
Qed.

Lemma claimed_range i t : p !! i = Some t ->
  first_num p <= claimed_num t <= bhs_block_num t /\ ((0 < i)%nat -> claimed_num t < bhs_block_num t).
Proof.
  revert t. induction i as [|i IH]; intros t Ht.
  - destruct p as [|g p'] eqn:E; [done|]. injection Ht as ->. unfold first_num. cbn.
    destruct (genesis_facts t) as (_ & _ & Hc & _); [by apply (bf_genesis _ F)|]. unfold claimed_num. rewrite Hc. cbn. lia.
  - destruct (lookup_lt_is_Some_2 p i) as [u Hu]; [apply lookup_lt_Some in Ht; lia|].
    pose proof (bf_claims _ F _ _ _ Hu Ht) as Hc. cbn in Hc. pose proof (branch_num _ _ Hu). pose proof (branch_num _ _ Ht).
    destruct (IH _ Hu) as [Hr _]. lia.
Qed.

Lemma claimed_mono i j t u : (i <= j)%nat -> p !! i = Some t -> p !! j = Some u -> claimed_num t <= claimed_num u.
Proof.
  intros Hij Ht Hu. destruct (decide (i = j)) as [->|]; [by simplify_eq|].
  assert (Transitive (fun t u => claimed_num t <= claimed_num u)) by (intros ?????; lia).
  apply (adjacent_trans (fun t u => claimed_num t <= claimed_num u) p i j); [|lia|done|done].
  eapply adjacent_impl, (bf_claims _ F). cbn. lia.
Qed.

Lemma time_mono i j t u : (i < j)%nat -> p !! i = Some t -> p !! j = Some u -> bhs_timestamp t < bhs_timestamp u.
Proof.
  assert (Transitive (fun t u => bhs_timestamp t < bhs_timestamp u)) by (intros ?????; lia).
  apply (adjacent_trans (fun t u => bhs_timestamp t < bhs_timestamp u)), F.
Qed.

Lemma upto_lookup n i t : p !! i = Some t -> bhs_block_num t = n -> upto p n = take i p ++ [t].
Proof.
  intros Hi <-. unfold upto. rewrite (branch_num _ _ Hi).
  replace (Z.to_nat (first_num p + Z.of_nat i - first_num p)) with i by lia. by apply take_S_r.
Qed.

Lemma upto_exists n i t : p !! i = Some t -> first_num p <= n <= bhs_block_num t ->
  exists j u, (j <= i)%nat /\ p !! j = Some u /\ bhs_block_num u = n /\ upto p n = take j p ++ [u].
Proof.
  intros Hi Hn. pose proof (branch_num _ _ Hi) as Hnum. set (j := Z.to_nat (n - first_num p)).
  destruct (lookup_lt_is_Some_2 p j) as [u Hu]; [apply lookup_lt_Some in Hi; lia|].
  pose proof (branch_num _ _ Hu). exists j, u. split_and!; [lia|done|lia|apply upto_lookup; [done|lia]].
Qed.

Lemma branch_num_inj i j t u : p !! i = Some t -> p !! j = Some u -> bhs_block_num t = bhs_block_num u -> i = j.
Proof. intros Hi Hj. rewrite (branch_num _ _ Hi), (branch_num _ _ Hj). lia. Qed.
End Facts.

Lemma first_num_prefix p q : q <> [] -> q `prefix_of` p -> first_num q = first_num p.
Proof. intros Hq [k ->]. by destruct q. Qed.

Lemma upto_prefix p q n i t :
  branch_facts p -> q `prefix_of` p -> q !! i = Some t -> first_num q <= n <= bhs_block_num t -> upto q n = upto p n.
Proof.
  intros F Hq Hi Hn. assert (q <> []) by (by intros ->). pose proof (prefix_lookup_Some _ _ _ _ Hi Hq) as Hp.
  pose proof (branch_num F _ _ Hp). unfold upto. rewrite (first_num_prefix p q) in * by done.
  destruct Hq as [k ->]. rewrite take_app_le; [done|]. apply lookup_lt_Some in Hi. lia.
Qed.

(** ** What the core of a branch's end shows *)

(** A finalizer sees a branch through a block state of its last block. *)
Definition branch_shows p (v : proposal_view) : Prop := exists bs, last p = Some (bhs bs) /\ view_of bs v.

Lemma number_nonempty d : 0 < num_from_id d -> sha256_is_empty d = false.
Proof.
  intros H. destruct (sha256_is_empty d) eqn:E; [|done]. destruct d as [a b c d]. unfold sha256_is_empty in E.
  cbn in E. rewrite Z.eqb_eq, !Z.lor_eq_0_iff in E. destruct E as [[[-> _] _] _]. by vm_compute in H.
Qed.

Section Core.
Context (ancestors : list block_header_state) (s : block_header_state).
Context (Hc : bhs_chain ancestors s).

Lemma branch_of_chain : is_branch (ancestors ++ [s]).
Proof. by exists ancestors, s. Qed.

Lemma branch_id_num t : t ∈ ancestors ++ [s] -> num_from_id (id t) = bhs_block_num t.
Proof. destruct (chain_inv_reachable _ _ Hc) as (f & b & I). apply I. Qed.

(** The reference to the claimed block. *)
Lemma claimed_reference : ancestors <> [] ->
  exists r i t, get_block_reference (core s) (claimed_num s) = Ok r /\ (ancestors ++ [s]) !! i = Some t /\
    bhs_block_num t = claimed_num s /\ make_block_ref t = Ok r.
Proof.
  intros Hne. destruct (chain_inv_reachable _ _ Hc) as (f & b & I). pose proof (ci_shape _ _ _ _ I) as S.
  pose proof (is_branch_facts _ branch_of_chain) as F.
  assert (Hg : is_genesis_core (core s) = false).
  { destruct (length ancestors) as [|n] eqn:E; [by destruct ancestors|].
    apply (bf_cores _ F n). rewrite <- E. apply lookup_snoc. }
  assert (Hrefs : refs (core s) <> []) by (intros E; unfold is_genesis_core in Hg; by rewrite E in Hg).
  pose proof (cs_strict _ _ _ S Hrefs). pose proof (cs_inv2 _ _ _ S).
  unfold claimed_num. rewrite (shape_claim_of _ _ _ S). cbn.
  destruct (get_block_reference_Ok S (target_block_num b)) as (r & Hr & Hlook & Hn); [lia|].
  apply list_elem_of_lookup_2 in Hlook. destruct (ci_refs _ _ _ _ I r Hlook) as (t & Ht & Et).
  assert (Hin : t ∈ ancestors ++ [s]) by (apply elem_of_app; by left).
  pose proof Hin as [i Hi]%list_elem_of_lookup. exists r, i, t. split_and!; [done..| |done].
  rewrite <- branch_id_num by done. apply make_block_ref_Ok in Et as (<- & _). exact Hn.
Qed.

Lemma genesis_branch : ancestors = [] -> bhs_genesis s.
Proof. intros E. apply (bf_genesis _ (is_branch_facts _ branch_of_chain)). by rewrite E. Qed.

(** The time and the id of the claimed block, as [latest_qc_block_timestamp]
    and [get_block_reference] give them. *)
Lemma claimed_view bs v : bhs bs = s -> view_of bs v ->
  exists i t, (ancestors ++ [s]) !! i = Some t /\ bhs_block_num t = claimed_num s /\
    timestamp (pv_claimed v) = bhs_timestamp t /\ (ancestors <> [] -> block_id (pv_claimed v) = id t).
Proof.
  intros E V. pose proof (vo_time _ _ V) as Ht. unfold latest_qc_block_timestamp in Ht. rewrite E in Ht.
  destruct (chain_inv_reachable _ _ Hc) as (f & b & I). pose proof (ci_shape _ _ _ _ I) as S.
  rewrite (links_back_Ok S) in Ht. cbn [mbind result_bind] in Ht.
  destruct (decide (ancestors = [])) as [En|Hne].
  - destruct (genesis_facts s) as (Hr & _ & Hcl & _ & Hts); [by apply genesis_branch|].
    exists 0%nat, s. rewrite En. unfold is_genesis_core in Ht. rewrite Hr in Ht. injection Ht as Ht.
    unfold claimed_num. rewrite Hcl. by rewrite <- Ht, Hts.
  - destruct (claimed_reference Hne) as (r & i & t & Hr & Hi & Hn & Et). exists i, t.
    apply make_block_ref_Ok in Et as (Hid & Hts & _).
    assert (Hg : is_genesis_core (core s) = false).
    { unfold get_block_reference in Hr. inv_result. unfold is_genesis_core. by destruct (refs (core s)). }
    rewrite Hg in Ht. unfold claimed_num in Hr. rewrite (shape_claim_of _ _ _ S) in Hr. cbn in Hr.
    rewrite Hr in Ht. injection Ht as Ht. split_and!; [done|done|by rewrite <- Ht, Hts|]. intros _.
    destruct (vo_claim _ _ V) as (claim & Hcl & Hv). rewrite E in *. rewrite (latest_qc_claim_Ok S) in Hcl.
    injection Hcl as <-. specialize (Hv Hg). cbn in Hv. rewrite Hr in Hv. injection Hv as <-. done.
Qed.

(** What the core says the block extends is a proper ancestor. *)
Lemma extends_view bs v i : bhs bs = s -> view_of bs v -> pv_extends v i = true -> exists t, t ∈ ancestors /\ id t = i.
Proof.
  intros E V Hi. apply (vo_extends _ _ V) in Hi as (r & Hr & <-). rewrite E in Hr.
  destruct (chain_inv_reachable _ _ Hc) as (f & b & I). destruct (ci_refs _ _ _ _ I r Hr) as (t & Ht & Et).
  exists t. split; [done|]. by apply make_block_ref_Ok in Et as [-> _].
Qed.
End Core.

(** ** Branches are a tree of blocks *)

(** The branches that ever exist: from one genesis block, with every block of a
    branch; and no two of them end in blocks of the same id, which is that
    SHA-256 has no collision among their headers. *)
Record universe (U : list block_header_state -> Prop) (g : block_header_state) : Prop := {
  un_branch p : U p -> is_branch p;
  un_prefix p q : U p -> q <> [] -> q `prefix_of` p -> U q;
  un_genesis p : U p -> head p = Some g;
  un_ids p q s t : U p -> U q -> last p = Some s -> last q = Some t -> id s = id t -> p = q;
  un_positive : 0 < bhs_block_num g
}.

Definition last_id p : block_id_type := match last p with Some s => id s | None => sha256_default end.
Definition last_time p : Z := match last p with Some s => bhs_timestamp s | None => 0 end.

Definition branch_tree (U : list block_header_state -> Prop) (g : block_header_state) : BlockTree (list block_header_state) := {|
  block_valid := U;
  id_of := last_id;
  time_of := last_time;
  ancestor q p := q <> [] /\ q `prefix_of` p;
  justified := justified_branch;
  genesis := [g];
  shows := branch_shows
|}.

Section Universe.
Context {U : list block_header_state -> Prop} {g : block_header_state} (Un : universe U g).
#[local] Instance the_tree : BlockTree (list block_header_state) := branch_tree U g.

Lemma universe_cases p : U p -> exists ancestors s, p = ancestors ++ [s] /\ bhs_chain ancestors s /\
  last p = Some s /\ branch_facts p /\ first_num p = bhs_block_num g.
Proof.
  intros H. pose proof (un_branch _ _ Un p H) as Hb. pose proof (is_branch_facts _ Hb) as F.
  destruct Hb as (ancestors & s & -> & Hc). exists ancestors, s.
  split_and!; [done|done|by rewrite last_snoc|done|]. unfold first_num. by rewrite (un_genesis _ _ Un _ H).
Qed.

Lemma last_positive p s : U p -> last p = Some s -> num_from_id (id s) = bhs_block_num s /\ 0 < bhs_block_num s.
Proof.
  intros H Hs. destruct (universe_cases p H) as (ancestors & u & -> & Hc & Hu & F & Hf). rewrite Hu in Hs. injection Hs as ->.
  pose proof (un_positive _ _ Un). assert (Hi : (ancestors ++ [s]) !! length ancestors = Some s) by apply lookup_snoc.
  split; [|rewrite (branch_num F _ _ Hi); lia]. apply (branch_id_num _ _ Hc). by eapply list_elem_of_lookup_2.
Qed.

(** An ancestor is found at its position in the branch. *)
Lemma prefix_end (q p : list block_header_state) : q <> [] -> q `prefix_of` p ->
  exists i t, p !! i = Some t /\ last q = Some t /\ q = take i p ++ [t].
Proof.
  intros Hq Hp. destruct q as [|t q _] using rev_ind; [done|]. destruct Hp as [k ->]. exists (length q), t.
  rewrite <- app_assoc. split_and!; [by apply list_lookup_middle|by rewrite last_snoc|by rewrite take_app_length].
Qed.

Lemma take_snoc_prefix i t p : p !! i = Some t -> take i p ++ [t] <> [] /\ take i p ++ [t] `prefix_of` p.
Proof.
  intros Hi. split; [by destruct (take i p)|]. rewrite <- (take_S_r _ _ _ Hi). apply prefix_take.
Qed.

(** The claimed block of a branch. *)
Lemma justified_cases p ancestors s : U p -> p = ancestors ++ [s] -> exists i t,
  p !! i = Some t /\ bhs_block_num t = claimed_num s /\ justified_branch p = take i p ++ [t] /\
  (ancestors <> [] -> (i < length ancestors)%nat) /\ (i <= length ancestors)%nat.
Proof.
  intros H E. destruct (universe_cases p H) as (a' & s' & E' & _ & Hl & F & Hf). rewrite E in E'.
  apply app_inj_tail in E' as [<- <-]. assert (Hs : p !! length ancestors = Some s) by (rewrite E; apply lookup_snoc).
  destruct (claimed_range F _ _ Hs) as [Hr Hlt].
  destruct (upto_exists F (claimed_num s) _ _ Hs) as (i & t & Hi & Ht & Hn & Hu); [lia|].
  exists i, t. unfold justified_branch. rewrite Hl. split_and!; [done..| |done].
  intros Hne. rewrite (branch_num F _ _ Ht) in Hn. rewrite (branch_num F _ _ Hs) in Hlt.
  assert (0 < length ancestors)%nat by (destruct ancestors; [done|cbn; lia]). specialize (Hlt ltac:(done)). lia.
Qed.

Lemma last_time_snoc q t : last_time (q ++ [t]) = bhs_timestamp t.
Proof. unfold last_time. by rewrite last_snoc. Qed.

Lemma last_id_snoc q t : last_id (q ++ [t]) = id t.
Proof. unfold last_id. by rewrite last_snoc. Qed.

Lemma branch_end p ancestors s : p = ancestors ++ [s] -> p !! length ancestors = Some s.
Proof. intros ->. apply lookup_snoc. Qed.

Lemma branch_index p ancestors s i t : p = ancestors ++ [s] -> p !! i = Some t -> (i <= length ancestors)%nat.
Proof. intros ->. intros Hi%lookup_lt_Some. rewrite length_app in Hi. cbn in Hi. lia. Qed.

Lemma only_genesis p s : U p -> p = [s] -> p = [g].
Proof. intros H ->. pose proof (un_genesis _ _ Un _ H) as Hh. cbn in Hh. congruence. Qed.

Lemma prefix_time x y : U y -> x <> [] -> x `prefix_of` y -> x = y \/ last_time x < last_time y.
Proof.
  intros Hy Hx H. destruct (universe_cases y Hy) as (a & s & E & _ & Hs & F & _).
  destruct (prefix_end x y Hx H) as (i & t & Hi & Ht & Hq). unfold last_time. rewrite Hs, Ht.
  pose proof (branch_end _ _ _ E) as Hl. pose proof (branch_index _ _ _ _ _ E Hi).
  destruct (decide (i = length a)) as [->|]; [left|right].
  - rewrite Hq, <- (take_S_r _ _ _ Hi). apply take_ge. rewrite E, length_app. cbn. lia.
  - eapply (time_mono F); [|done..]. lia.
Qed.

Lemma claim_before x : U x -> x <> [g] -> last_time (justified_branch x) < last_time x.
Proof.
  intros Hx Hg. destruct (universe_cases x Hx) as (a & s & E & _ & Hs & F & _).
  destruct (justified_cases x a s Hx E) as (i & t & Hi & _ & -> & Hlt & _).
  rewrite last_time_snoc. unfold last_time. rewrite Hs. apply (time_mono F i (length a)); [|done|by apply branch_end].
  apply Hlt. intros ->. by apply Hg, (only_genesis x s).
Qed.

Lemma claims_mono x y : U y -> x <> [] -> x `prefix_of` y -> last_time (justified_branch x) <= last_time (justified_branch y).
Proof.
  intros Hy Hx H. destruct (universe_cases y Hy) as (a & s & E & _ & Hs & F & Hf).
  assert (Ux : U x) by by eapply (un_prefix _ _ Un). destruct (universe_cases x Ux) as (b & u & Eu & _).
  destruct (justified_cases y a s Hy E) as (i & t & Hi & Hn & -> & _).
  destruct (justified_cases x b u Ux Eu) as (j & w & Hj & Hm & -> & _). rewrite !last_time_snoc.
  pose proof (prefix_lookup_Some _ _ _ _ Hj H) as Hj'.
  pose proof (prefix_lookup_Some _ _ _ _ (branch_end _ _ _ Eu) H) as Hu. pose proof (branch_end _ _ _ E) as Hse.
  pose proof (claimed_mono F _ _ _ _ (branch_index _ _ _ _ _ E Hu) Hu Hse) as Hle.
  rewrite (branch_num F _ _ Hi) in Hn. rewrite (branch_num F _ _ Hj') in Hm.
  destruct (decide (j = i)) as [->|]; [assert (t = w) as -> by congruence; lia|].
  apply Z.lt_le_incl, (time_mono F j i); [lia|done|done].
Qed.

Lemma shown_claim x v : U x -> branch_shows x v ->
  timestamp (pv_claimed v) = last_time (justified_branch x) /\ (x <> [g] -> block_id (pv_claimed v) = last_id (justified_branch x)).
Proof.
  intros Hx (bs & Hl & V). destruct (universe_cases x Hx) as (a & s & E & Hc & Hs & F & _).
  rewrite Hl in Hs. injection Hs as Hs. destruct (claimed_view _ _ Hc bs v Hs V) as (i & t & Hi & Hn & Ht & Hid).
  destruct (justified_cases x a s Hx E) as (j & u & Hj & Hm & -> & _). rewrite last_time_snoc, last_id_snoc, Ht.
  rewrite <- E in Hi. rewrite <- Hm in Hn. pose proof (branch_num_inj F _ _ _ _ Hi Hj Hn). simplify_eq. split; [done|].
  intros Hg. apply Hid. intros ->. by eapply Hg, only_genesis.
Qed.

Lemma shown_ancestor x v i : U x -> branch_shows x v -> pv_extends v i = true ->
  exists y, (y <> [] /\ y `prefix_of` x) /\ y <> x /\ last_id y = i.
Proof.
  intros Hx (bs & Hl & V) He. destruct (universe_cases x Hx) as (a & s & E & Hc & Hs & F & _).
  rewrite Hl in Hs. injection Hs as Hs. destruct (extends_view _ _ Hc bs v i Hs V He) as (t & [j Hj]%list_elem_of_lookup & Ht).
  pose proof (lookup_lt_Some _ _ _ Hj) as Hlt. exists (take j x ++ [t]).
  assert (Hx' : x !! j = Some t) by (rewrite E; by apply lookup_app_l_Some). split; [by apply take_snoc_prefix|].
  split; [|by rewrite last_id_snoc]. rewrite <- (take_S_r _ _ _ Hx'). intros Heq%(f_equal length).
  rewrite length_take, E, length_app in Heq. change (length [s]) with 1%nat in Heq. lia.
Qed.

#[export] Instance branch_tree_ok : BlockTreeOk (list block_header_state).
Proof.
  split; cbn.
  - intros x y Hx Hy. destruct (universe_cases x Hx) as (a & s & _ & _ & Hs & _), (universe_cases y Hy) as (b & t & _ & _ & Ht & _).
    unfold last_id. rewrite Hs, Ht. by apply (un_ids _ _ Un).
  - intros x Hx. destruct (universe_cases x Hx) as (a & s & _ & _ & Hs & _). unfold last_id. rewrite Hs.
    destruct (last_positive x s Hx Hs) as [Hn Hp]. apply number_nonempty. lia.
  - intros x Hx. destruct (universe_cases x Hx) as (a & s & -> & _). split; [by destruct a|done].
  - intros x y z [Hx H1] [Hy H2]. split; [done|by etrans].
  - intros x y z [Hx H1] [Hy H2]. destruct (prefix_weak_total x y z); auto.
  - intros x y Hy [Hx H]. by eapply (un_prefix _ _ Un).
  - intros x y Hy [Hx H]. by apply prefix_time.
  - intros x Hx. split; [done|]. pose proof (un_genesis _ _ Un x Hx) as Hh. destruct x as [|h x]; [done|].
    injection Hh as ->. by exists x.
  - intros x Hx. destruct (universe_cases x Hx) as (a & s & E & _).
    destruct (justified_cases x a s Hx E) as (i & t & Hi & _ & -> & _). by apply take_snoc_prefix.
  - apply claim_before.
  - intros x y Hy [Hx H]. by apply claims_mono.
  - intros x v Hx (bs & Hl & V). rewrite (vo_block _ _ V). unfold last_id, last_time. by rewrite Hl.
  - intros x v Hx V. by apply shown_claim.
  - intros x v Hx V. by apply shown_claim.
  - apply shown_ancestor.
Qed.
End Universe.
End Branch.
