(* ===== verification/Safety.v ===== *)
(** * The safety of finality

    The blocks of a network are the branches of a [universe]; its finalizers
    are those of one policy.  Those that are not faulty vote as [decide_vote]
    does, and a block claims a new certificate only if its parent's state has
    verified it ([verify_qc]); a bit of a verified certificate that is set for a
    finalizer that is not faulty stands for a vote it gave, which is that BLS
    signatures are not forged.  Then the last final blocks that any two
    branches have in their cores are on one branch. *)

From S2P Require Import Prelude ChainTypes Merkle FinalityCore OrderedDiff Policies Qc Raw BlockHeader BlockHeaderState.
From S2P Require Import BlockState Finalizer VoteSafety Branch.

Section Safety.
Context {hasher : Sha256Hash} {words : Sha256Words hasher} {keyok : BlsKeyValid} {bls : Bls}.
Context (U : list block_header_state -> Prop) (g : block_header_state).
#[local] Instance tree : BlockTree (list block_header_state) := branch_tree U g.
Implicit Types (p q : list block_header_state) (s t : block_header_state).

(** ** The finalizers *)

(** [fin_votes certified h f]: a finalizer with the safety information [f] that has
    voted for the ends of the branches [h], in this order.  It may have been
    stored and loaded in between. *)
Inductive fin_votes (certified : list block_header_state -> Prop) :
    list (list block_header_state * bool) -> finalizer_safety_information -> Prop :=
| fin_votes_start f l :
    lockable certified l -> refers (lock f) l -> block_ref_empty (last_vote f) = true -> fin_votes certified [] f
| fin_votes_vote h f p (bs : block_state) r f' :
    fin_votes certified h f -> U p -> last p = Some (bhs bs) -> decide_vote f bs = Ok (r, f') -> decision r <> no_vote ->
    fin_votes certified (h ++ [(p, bool_decide (decision r = strong_vote))]) f'
| fin_votes_stored h f : fin_votes certified h f -> fin_votes certified h (stored_fsi f).

(** ** The network *)

Section Network.
Context (pol : finalizer_policy) (faulty : list bool) (hist : nat -> list (list block_header_state * bool)).

(** The bits of [c] that are set for finalizers that are not faulty are votes
    they gave for the end of [p]. *)
Definition votes_given (c : qc_t) p : Prop := forall i, honest faulty i ->
  (bits_of (strong_votes (active_policy_sig c)) !! i = Some true -> (p, true) ∈ hist i) /\
  (bits_of (weak_votes (active_policy_sig c)) !! i = Some true -> (p, false) ∈ hist i).

(** The block [s'] claims what its parent [s], the end of [p], does, or a
    certificate that the state of [s] has verified. *)
Definition claim_verified p s' : Prop := forall s, last p = Some s ->
  claim_of s' = claim_of s \/
  exists (bs : block_state) c, bhs bs = s /\ compute_finality_digest s = Ok (strong_digest bs) /\
    verify_qc bs c = Ok () /\ to_qc_claim c = claim_of s' /\ votes_given c (upto p (claimed_num s')).

Record chain_ok : Prop := {
  nw_universe : universe U g;
  nw_policy p s : U p -> s ∈ p -> active_finalizer_policy s = pol /\ pending_finalizer_policy s = None;
  nw_policy_ok : policy_ok pol;
  nw_faulty : total_weight (finalizers pol) + voted_weight (finalizers pol) faulty < 2 * threshold pol;
  nw_claims p s : U (p ++ [s]) -> claim_verified p s
}.

Record network : Prop := {
  nw_chain : chain_ok;
  nw_votes i : honest faulty i -> exists f, fin_votes (certified (finalizers pol) (threshold pol) faulty hist) (hist i) f
}.

Abbreviation qc := (qc (finalizers pol) (threshold pol) faulty hist).
Abbreviation certified := (certified (finalizers pol) (threshold pol) faulty hist).
Abbreviation final := (final (finalizers pol) (threshold pol) faulty hist).

Section Chain.
Context (N : chain_ok).
#[local] Instance tree_ok : BlockTreeOk (list block_header_state) := branch_tree_ok (nw_universe N).

Lemma threshold_positive : 0 < threshold pol.
Proof.
  pose proof (nw_faulty N) as H. pose proof (po_weights _ (nw_policy_ok N)) as Hw.
  pose proof (voted_weight_bounds _ faulty Hw). lia.
Qed.

(** All the bits of a valid signature: a quorum votes. *)
Lemma valid_quorum (c : qc_sig_t) : sig_valid pol c -> exists bits, threshold pol <= voted_weight (finalizers pol) bits /\
  forall i, bits !! i = Some true -> bits_of (strong_votes c) !! i = Some true \/
    qc_sig_is_strong c = false /\ bits_of (weak_votes c) !! i = Some true.
Proof.
  intros V. pose proof (sv_quorum _ _ V) as Hq. set (n := length (finalizers pol)).
  destruct (qc_sig_is_strong c) eqn:E.
  { exists (bits_of (strong_votes c)). split; [lia|]. auto. }
  set (pad v := default (replicate n false) v).
  assert (Hpad : forall v, voted_weight (finalizers pol) (pad v) = voted_weight (finalizers pol) (bits_of v)).
  { intros [v|]; [done|]. cbn. by rewrite voted_weight_replicate, voted_weight_nil. }
  assert (Hbit : forall v i, pad v !! i = Some true -> bits_of v !! i = Some true).
  { intros [v|] i; [done|]. cbn. by intros [[=] _]%lookup_replicate. }
  assert (Hlen : forall v, (forall bs, v = Some bs -> length bs = n) -> length (pad v) = n).
  { intros [v|] H; [by apply H|apply length_replicate]. }
  exists (zip_with orb (pad (strong_votes c)) (pad (weak_votes c))). split.
  - rewrite voted_weight_orb, !Hpad; [lia| |].
    + rewrite !Hlen; [done|apply (sv_weak_size _ _ V)|apply (sv_strong_size _ _ V)].
    + intros i Hs Hw. by apply (sv_disjoint _ _ V i); apply Hbit.
  - intros i Hi. rewrite lookup_zip_with in Hi. destruct (pad (strong_votes c) !! i) as [[]|] eqn:Es; [left; by apply Hbit| |done].
    destruct (pad (weak_votes c) !! i) as [[]|] eqn:Ew; cbn in Hi; simplify_eq. right. split; [done|by apply Hbit].
Qed.

(** A certificate that a state has verified for [t] is one of the voting rule. *)
Lemma verified_qc (bs : block_state) ancestors c t p claim :
  bhs_chain ancestors (bhs bs) -> compute_finality_digest (bhs bs) = Ok (strong_digest bs) -> t ∈ ancestors ++ [bhs bs] ->
  latest_qc_claim (core (bhs bs)) = Ok claim -> claim_block_num claim <= bhs_block_num t ->
  active_finalizer_policy t = pol -> pending_finalizer_policy t = None ->
  qc_block_num c = bhs_block_num t -> verify_qc bs c = Ok () -> votes_given c p -> qc (qc_is_strong c) p.
Proof.
  intros Hc Hd Ht Hcl Hle Ha Hp Hn Hv Hg.
  destruct (get_finalizer_policies_at_Ok _ _ _ _ Hc Hd Ht Hcl Hle) as (d & _ & E).
  unfold verify_qc in Hv. rewrite Hn, E, Ha, Hp in Hv. cbn [mbind result_bind fmap option_fmap option_map] in Hv. inv_result. destruct x.
  assert (Hok : policies_ok (FinalizerPolicies d pol None)).
  { split; [split; [apply (nw_policy_ok N)|apply threshold_positive]|done]. }
  destruct (verify_basic_valid _ _ Hok E0) as [V Hpend]. cbn in V, Hpend.
  destruct (valid_quorum _ V) as (bits & Hw & Hbits). exists bits. split; [done|]. intros i Hi Hh.
  unfold qc_is_strong. destruct (pending_policy_sig c); [done|]. destruct (Hg i Hh) as [Hs Hk].
  destruct (Hbits i Hi) as [H|[-> H]]; [exists true; auto|exists false; auto].
Qed.

(** ** Claims and final blocks of branches *)

Lemma parent_branch p s s' : U ((p ++ [s]) ++ [s']) -> U (p ++ [s]).
Proof. intros H. eapply (un_prefix _ _ (nw_universe N)); [exact H|by destruct p|by apply prefix_app_r]. Qed.

Lemma first_branch s : U [s] -> s = g.
Proof. intros H. pose proof (un_genesis _ _ (nw_universe N) _ H) as Hh. cbn in Hh. congruence. Qed.

Lemma branch_genesis s : U [s] -> justified_branch [s] = [g] /\ final_branch [s] = [g].
Proof.
  intros H. pose proof (first_branch s H) as ->.
  destruct (genesis_facts g) as (_ & _ & Hc & Hf & _).
  { by apply (bf_genesis _ (is_branch_facts _ (un_branch _ _ (nw_universe N) _ H))). }
  unfold justified_branch, final_branch, upto, claimed_num, first_num. cbn. rewrite Hc, Hf. cbn.
  by rewrite Z.sub_diag.
Qed.

(** The parent's branch and the branch of a new block [s']. *)
Record step_of p s s' : Prop := {
  so_chain : bhs_chain p s;
  so_facts : branch_facts ((p ++ [s]) ++ [s']);
  so_step : step_facts s s';
  so_parent : U (p ++ [s]);
  so_last : ((p ++ [s]) ++ [s']) !! length p = Some s;
  so_new : ((p ++ [s]) ++ [s']) !! length (p ++ [s]) = Some s'
}.

Lemma step_of_branch p s s' : U ((p ++ [s]) ++ [s']) -> step_of p s s'.
Proof.
  intros H. pose proof (un_branch _ _ (nw_universe N) _ H) as Hb. pose proof (is_branch_facts _ Hb) as F.
  destruct Hb as (a & t & E & Hc). apply app_inj_tail in E as [<- <-].
  inversion Hc as [s0 Hg E0|a s0 s1 Hc0 Hs E0 E1]; [by destruct p|]. apply app_inj_tail in E0 as [-> ->].
  split; [done|done|by eapply branch_step|by eapply parent_branch| |apply lookup_snoc].
  rewrite lookup_app_l by (rewrite length_app; cbn; lia). apply lookup_snoc.
Qed.

Section Step.
Context {p : list block_header_state} {s s' : block_header_state} (S : step_of p s s').
Abbreviation p' := ((p ++ [s]) ++ [s']).

Lemma step_first : first_num (p ++ [s]) = first_num p'.
Proof. apply (first_num_prefix _ (p ++ [s])); [by destruct p|by apply prefix_app_r]. Qed.

(** Up to a number of the parent's branch both branches are the same. *)
Lemma upto_parent n : first_num p' <= n <= bhs_block_num s -> upto (p ++ [s]) n = upto p' n.
Proof.
  intros Hn. apply (upto_prefix p' (p ++ [s]) n (length p) s); [apply S|by apply prefix_app_r|apply lookup_snoc|].
  by rewrite step_first.
Qed.

Lemma parent_claim_range : first_num p' <= claimed_num s <= bhs_block_num s.
Proof. apply (claimed_range (so_facts _ _ _ S) (length p)), S. Qed.

Lemma new_claim_range : first_num p' <= claimed_num s' <= bhs_block_num s.
Proof. pose proof (sf_claim _ _ (so_step _ _ _ S)). pose proof parent_claim_range. lia. Qed.

Lemma justified_new : justified_branch p' = upto p' (claimed_num s').
Proof. unfold justified_branch. by rewrite last_snoc. Qed.

Lemma justified_parent : justified_branch (p ++ [s]) = upto p' (claimed_num s).
Proof. unfold justified_branch. rewrite last_snoc. apply upto_parent, parent_claim_range. Qed.
End Step.

(** Every claim is of the genesis block or of a certificate. *)
Lemma claim_certified p s : U (p ++ [s]) ->
  justified_branch (p ++ [s]) = [g] \/ qc (is_strong_qc (claim_of s)) (justified_branch (p ++ [s])).
Proof.
  revert s. induction p as [|s p IH] using rev_ind; intros s' H; [left; by apply branch_genesis|].
  pose proof (step_of_branch _ _ _ H) as S. specialize (IH s (so_parent _ _ _ S)).
  destruct (nw_claims N _ _ H s ltac:(by rewrite last_snoc)) as [E|(bs & c & Hs & Hd & Hv & Hc & Hg)].
  { rewrite (justified_new (s := s)), E, (justified_parent S) in *. unfold claimed_num in *. by rewrite E. }
  right. rewrite (justified_new (s := s)). rewrite (upto_parent S) in Hg by apply (new_claim_range S).
  rewrite <- Hc. cbn. pose proof (so_facts _ _ _ S) as F.
  destruct (upto_exists F (claimed_num s') _ _ (so_last _ _ _ S) (new_claim_range S)) as (j & t & Hj & Ht & Hn & _).
  assert (Hin : t ∈ p ++ [s]).
  { rewrite lookup_app_l in Ht by (rewrite length_app; cbn; lia). by eapply list_elem_of_lookup_2. }
  destruct (nw_policy N _ _ (so_parent _ _ _ S) Hin) as [Ha Hp].
  destruct (chain_inv_reachable _ _ (so_chain _ _ _ S)) as (f & b & I). pose proof (ci_shape _ _ _ _ I) as Sh.
  eapply (verified_qc bs p c t); rewrite ?Hs; [apply S|done|done|apply (latest_qc_claim_Ok Sh)| |done|done| |done|done].
  - cbn. pose proof (sf_claim _ _ (so_step _ _ _ S)) as [Hle _]. unfold claimed_num at 1 in Hle.
    rewrite (shape_claim_of _ _ _ Sh) in Hle. cbn in Hle. lia.
  - apply (f_equal claim_block_num) in Hc. cbn in Hc. rewrite Hc. by rewrite Hn.
Qed.

Lemma final_range p s : U (p ++ [s]) -> first_num (p ++ [s]) <= final_num s <= bhs_block_num s.
Proof.
  intros H. pose proof (un_branch _ _ (nw_universe N) _ H) as Hb. pose proof (is_branch_facts _ Hb) as F.
  destruct Hb as (a & t & E & Hc). apply app_inj_tail in E as [<- <-].
  destruct (chain_inv_reachable _ _ Hc) as (f & b & I). pose proof (ci_shape _ _ _ _ I) as Sh.
  assert (Hs : (p ++ [s]) !! length p = Some s) by apply lookup_snoc.
  assert (Hf : f ∈ links (core s)).
  { pose proof (cs_front _ _ _ Sh) as Hf. rewrite head_lookup in Hf. by eapply list_elem_of_lookup_2. }
  destruct (bf_links _ F _ _ _ Hs Hf) as (j & u & Hj & Hu & ->).
  rewrite (shape_final_num _ _ _ Sh). cbn. destruct (claimed_range F _ _ Hu) as [Hr _].
  rewrite (branch_num F _ _ Hs). rewrite (branch_num F _ _ Hu) in Hr. lia.
Qed.

Lemma final_branch_new p s : final_branch (p ++ [s]) = upto (p ++ [s]) (final_num s).
Proof. unfold final_branch. by rewrite last_snoc. Qed.

(** The last final block in a core is final: the genesis block, or claimed by
    a block with a strong certificate. *)
Lemma final_branch_final p s : U (p ++ [s]) -> final (final_branch (p ++ [s])).
Proof.
  revert s. induction p as [|s p IH] using rev_ind; intros s' H; [left; by apply branch_genesis|].
  pose proof (step_of_branch _ _ _ H) as S. specialize (IH s (so_parent _ _ _ S)). pose proof (so_facts _ _ _ S) as F.
  pose proof (sf_final _ _ (so_step _ _ _ S)) as Hfin. pose proof (claim_certified _ _ H) as Hcl.
  rewrite final_branch_new in *. destruct (is_strong_qc (claim_of s')).
  2:{ rewrite Hfin, <- (upto_parent S); [done|]. rewrite <- (step_first S). apply final_range, S. }
  destruct Hfin as (l & Hl & Hsrc & ->). destruct (bf_links _ F _ _ _ (so_last _ _ _ S) Hl) as (j & u & Hj & Hu & ->).
  cbn in *. pose proof (upto_lookup F _ _ _ Hu Hsrc) as Hy. destruct (take_snoc_prefix _ _ _ Hu) as [Hne Hpre].
  set (y := take j _ ++ [u]) in *. assert (Uy : U y) by by eapply (un_prefix _ _ (nw_universe N)).
  assert (Hjy : justified_branch y = upto ((p ++ [s]) ++ [s']) (claimed_num u)).
  { unfold justified_branch. unfold y at 1. rewrite last_snoc. apply (upto_prefix _ y _ j u); [done|done| |].
    - unfold y. rewrite lookup_app_r; rewrite length_take_le; [by rewrite Nat.sub_diag|..]; apply lookup_lt_Some in Hu; lia.
    - rewrite (first_num_prefix _ y) by done. by apply (claimed_range F _ _ Hu). }
  rewrite <- Hjy. rewrite (justified_new (s := s)), Hy in Hcl. destruct Hcl as [Hcl|Hcl].
  - left. rewrite Hcl. apply branch_genesis. by rewrite <- Hcl.
  - right. by exists y.
Qed.

Lemma claims_ok x : block_valid x -> x <> genesis -> justified x = genesis \/ certified (justified x).
Proof.
  intros H _. cbn in H. destruct (universe_cases (nw_universe N) x H) as (p & s & -> & _).
  destruct (claim_certified p s H) as [E|Q]; [by left|right; by eexists].
Qed.
End Chain.

End Network.

(** ** Votes of the code are votes of the rule *)

Section Votes.
Context (Un : universe U g) (certified : list block_header_state -> Prop).
#[local] Instance votes_tree_ok : BlockTreeOk (list block_header_state) := branch_tree_ok Un.
Context (claims : forall x, block_valid x -> x <> genesis -> justified x = genesis \/ certified (justified x)).

Lemma genesis_lock (bs : block_state) p h f :
  fin_run certified h f -> U p -> last p = Some (bhs bs) -> lock_since_genesis bs f.
Proof.
  intros Hr H Hl Hgc. destruct (fi_lock _ _ _ (fin_run_inv _ _ _ claims Hr)) as (l & [Hv _] & [_ ->] & _).
  destruct (universe_cases Un p H) as (a & s & E & Hc & Hs & F & _).
  rewrite Hs in Hl. injection Hl as ->. destruct a as [|t a].
  - destruct (genesis_facts (bhs bs)) as (_ & _ & _ & _ & ->); [by eapply genesis_branch|].
    pose proof (genesis_time l Hv) as Ht. cbn in Ht. unfold last_time at 1 in Ht. cbn in Ht.
    assert (Hg : bhs bs = g) by (pose proof (un_genesis _ _ Un _ H) as Hg; rewrite E in Hg; cbn in Hg; congruence). by rewrite Hg.
  - rewrite (bf_cores _ F (length a) (bhs bs)) in Hgc; [done|]. rewrite E. apply (lookup_snoc (t :: a)).
Qed.

Lemma fin_votes_run h f : fin_votes certified h f -> fin_run certified h f.
Proof.
  induction 1 as [f l Hl Hr He|h f p bs r f' _ IH H Hl Hd Hne|h f _ IH].
  - by eapply fin_run_start.
  - destruct (universe_cases Un p H) as (a & s & _ & Hc & Hs & _). rewrite Hs in Hl. injection Hl as ->.
    destruct (chain_inv_reachable _ _ Hc) as (l & b & I). pose proof (ci_shape _ _ _ _ I) as Sh.
    assert (Hi : core_inv (core (bhs bs))) by by eexists _, _. destruct (view_exists bs Hi) as [v V].
    destruct (decide_vote_is_rule bs v f Hi V (genesis_lock _ _ _ _ IH H Hs)) as (r' & E & Hr).
    rewrite Hd in E. injection E as <- ->. rewrite Hr in *.
    eapply fin_run_vote; [exact IH|exact H|by exists bs|by apply surjective_pairing|done].
  - eapply fin_run_reload; [done|]. by split.
Qed.
End Votes.

Section Agreement.
Context (pol : finalizer_policy) (faulty : list bool) (hist : nat -> list (list block_header_state * bool)).
Context (N : network pol faulty hist).
#[local] Instance agreement_tree_ok : BlockTreeOk (list block_header_state) :=
  branch_tree_ok (nw_universe _ _ _ (nw_chain _ _ _ N)).

Lemma final_branches_agree p q s t : U p -> U q -> last p = Some s -> last q = Some t ->
  final_num s <= final_num t -> final_branch p `prefix_of` final_branch q.
Proof.
  intros Hp Hq Hs Ht Hle. pose proof (nw_chain _ _ _ N) as K. pose proof (nw_universe _ _ _ K) as Un.
  destruct (universe_cases Un p Hp) as (a & s' & -> & _ & Hs' & Fp & Hfp). rewrite Hs in Hs'. injection Hs' as <-.
  destruct (universe_cases Un q Hq) as (b & t' & -> & _ & Ht' & Fq & Hfq). rewrite Ht in Ht'. injection Ht' as <-.
  assert (Hag : ancestor (final_branch (a ++ [s])) (final_branch (b ++ [t])) \/
                ancestor (final_branch (b ++ [t])) (final_branch (a ++ [s]))).
  { apply (finals_agree (finalizers pol) (threshold pol) faulty hist).
    - apply (po_weights _ (nw_policy_ok _ _ _ K)).
    - apply (nw_faulty _ _ _ K).
    - apply (claims_ok _ _ _ K).
    - intros i Hi. destruct (nw_votes _ _ _ N i Hi) as [f Hf]. exists f.
      by apply (fin_votes_run Un _ (claims_ok _ _ _ K)).
    - by apply (genesis_valid (a ++ [s])).
    - by apply (final_branch_final _ _ _ K).
    - by apply (final_branch_final _ _ _ K). }
  destruct Hag as [[_ Hag]|[_ Hag]]; [done|].
  rewrite !final_branch_new in *. pose proof (final_range _ _ _ K _ _ Hp) as Rp. pose proof (final_range _ _ _ K _ _ Hq) as Rq.
  destruct (upto_exists Fp (final_num s) _ _ (lookup_snoc _ _) Rp) as (i & u & _ & Hu & Nu & Eu).
  destruct (upto_exists Fq (final_num t) _ _ (lookup_snoc _ _) Rq) as (j & w & _ & Hw & Nw & Ew).
  rewrite (prefix_length_eq _ _ Hag); [done|]. rewrite Eu, Ew.
  rewrite (branch_num Fp _ _ Hu) in Nu. rewrite (branch_num Fq _ _ Hw) in Nw.
  apply lookup_lt_Some in Hu, Hw. rewrite !(length_app (take _ _)), !length_take_le by lia. cbn [length]. lia.
Qed.
End Agreement.

(** ** The property *)

(** C2: Finality is safe: as long as the weight of the faulty finalizers, with
    the total weight, is less than twice the threshold of the policy, the last
    final block of a branch is on every branch whose last final block is not
    older -- whichever blocks the faulty finalizers vote for and whichever
    branches exist. *)
Theorem finality_is_safe (pol : finalizer_policy) (faulty : list bool) (hist : nat -> list (list block_header_state * bool))
    (p q : list block_header_state) (s t : block_header_state) :
  network pol faulty hist -> U p -> U q -> last p = Some s -> last q = Some t -> final_num s <= final_num t ->
  final_branch p `prefix_of` final_branch q.
Proof. intros N. by apply (final_branches_agree pol faulty hist N). Qed.
End Safety.

(** ** The property in a network with a fork *)

#[local] Existing Instances example_bls example_hash example_hash_words unit_bls.

(** Four finalizers of weight 1 with a threshold of 3, the last of them faulty.
    Blocks 11 and 12 are certified; block 13 makes 11 final, while block 12 of
    another branch still has 10 final. *)
Definition net_extension : finality_extension :=
  FinalityExtension (QcClaim 0 false)
    (Some (FinalizerPolicyDiff 1 3 (DiffResult [] (map (fun i => (Z.to_nat i, example_finalizer (i + 1))) [0; 1; 2; 3])))) None.
Definition net_header : block_header :=
  MkBlockHeader 1200 1 0 (example_id 9) (Sha256 1 1 1 1) sha256_default 0 None
    [(finality_extension_id, packed_or_nil (pack c_finality_extension net_extension))].
Definition net_0 : block_header_state := Eval vm_compute in
  from_ok example_header_state_default
    (create_if_genesis_header_state (from_ok sha256_default (calculate_id net_header))
       net_header [] example_schedule [(finality_extension_id, FinalityExt net_extension)]).
Definition net_input (s : block_header_state) (ts : block_timestamp_type) (producer : Z) (claim : qc_claim_t) :=
  example_input s ts producer [] None None claim.
Definition net_1 := Eval vm_compute in example_next net_0 (net_input net_0 1201 2 (QcClaim 10 false)).
Definition net_2 := Eval vm_compute in example_next net_1 (net_input net_1 1202 2 (QcClaim 11 true)).
Definition net_3 := Eval vm_compute in example_next net_2 (net_input net_2 1203 2 (QcClaim 12 true)).
Definition net_fork := Eval vm_compute in example_next net_1 (net_input net_1 1204 2 (QcClaim 10 false)).
Definition net_branches : list (list block_header_state) :=
  [[net_0]; [net_0; net_1]; [net_0; net_1; net_2]; [net_0; net_1; net_2; net_3]; [net_0; net_1; net_fork]].
Definition net (p : list block_header_state) : Prop := p ∈ net_branches.

Definition net_policy : finalizer_policy := active_finalizer_policy net_0.
Definition net_faulty : list bool := [false; false; false; true].
Definition net_hist (i : nat) : list (list block_header_state * bool) :=
  if (i <? 3)%nat then [([net_0; net_1], true); ([net_0; net_1; net_2], true)] else [].
Definition net_state (s : block_header_state) : block_state := example_block example_block_0 s.
Definition net_fsi : finalizer_safety_information :=
  FinalizerSafetyInformation block_ref_default (bs_make_block_ref (net_state net_0)) 0.
Definition net_qc (n : Z) : qc_t := MkQc n (sig_of [true; true; true; false] None) None.

Lemma net_cases (P : list block_header_state -> Prop) : Forall P net_branches -> forall p, net p -> P p.
Proof. intros H p Hp. rewrite Forall_forall in H. by apply H. Qed.

Lemma net_in n p : net_branches !! n = Some p -> net p.
Proof. apply list_elem_of_lookup_2. Qed.

Lemma net_step ancestors s i s' :
  bhs_chain ancestors s -> example_next s i = s' -> is_ok (next_assembled s i) = true ->
  bool_decide (parent_id i = id s) = true -> (bhs_block_num s <? uint32_max) = true -> bhs_chain (ancestors ++ [s]) s'.
Proof. intros Hc E Hok Hid Hn. apply chain_next; [done|]. by apply (example_step s i). Qed.

Lemma net_chain_0 : bhs_chain [] net_0.
Proof.
  apply chain_genesis. exists (from_ok sha256_default (calculate_id net_header)), net_header, [], example_schedule,
    [(finality_extension_id, FinalityExt net_extension)]. split_and!; by vm_compute.
Qed.
Lemma net_chain_1 : bhs_chain [net_0] net_1.
Proof. apply (net_step [] net_0 (net_input net_0 1201 2 (QcClaim 10 false)) net_1 net_chain_0); by vm_compute. Qed.
Lemma net_chain_2 : bhs_chain [net_0; net_1] net_2.
Proof. apply (net_step [net_0] net_1 (net_input net_1 1202 2 (QcClaim 11 true)) net_2 net_chain_1); by vm_compute. Qed.
Lemma net_chain_3 : bhs_chain [net_0; net_1; net_2] net_3.
Proof. apply (net_step [net_0; net_1] net_2 (net_input net_2 1203 2 (QcClaim 12 true)) net_3 net_chain_2); by vm_compute. Qed.
Lemma net_chain_fork : bhs_chain [net_0; net_1] net_fork.
Proof. apply (net_step [net_0] net_1 (net_input net_1 1204 2 (QcClaim 10 false)) net_fork net_chain_1); by vm_compute. Qed.

(** A property of each branch of the example. *)
Ltac net_all := unfold net_branches; rewrite !Forall_cons; split_and!.

Lemma net_prefix p q : net p -> q <> [] -> q `prefix_of` p -> net q.
Proof.
  intros Hnet. revert q. revert p Hnet. apply (net_cases (fun p => forall q, q <> [] -> q `prefix_of` p -> net q)).
  assert (H : forall p q : list block_header_state, q <> [] -> q `prefix_of` p -> exists n, q = take (S n) p).
  { intros p q Hq [k ->]. exists (pred (length q)). destruct q; [done|]. cbn. by rewrite take_app_length. }
  net_all; [..|done]; intros q Hq Hp; destruct (H _ _ Hq Hp) as [n ->].
  all: destruct n as [|[|[|[|n]]]]; first [by apply (net_in 0)|by apply (net_in 1)|by apply (net_in 2)|by apply (net_in 3)|by apply (net_in 4)].
Qed.

Lemma net_universe : universe net net_0.
Proof.
  split.
  - apply net_cases. net_all; [..|done].
    + exists [], net_0. by split; [|exact net_chain_0].
    + exists [net_0], net_1. by split; [|exact net_chain_1].
    + exists [net_0; net_1], net_2. by split; [|exact net_chain_2].
    + exists [net_0; net_1; net_2], net_3. by split; [|exact net_chain_3].
    + exists [net_0; net_1], net_fork. by split; [|exact net_chain_fork].
  - apply net_prefix.
  - by apply net_cases; net_all.
  - intros p q s t [i Hi]%list_elem_of_lookup [j Hj]%list_elem_of_lookup Hs Ht E.
    assert (Hnd : NoDup (map last_id net_branches)) by (apply (bool_decide_unpack _); by vm_compute).
    assert (i = j) as ->; [|congruence]. apply (NoDup_lookup _ i j (id s) Hnd).
    + by rewrite list_lookup_fmap, Hi; cbn; unfold last_id; rewrite Hs.
    + by rewrite list_lookup_fmap, Hj; cbn; unfold last_id; rewrite Ht, E.
  - by vm_compute.
Qed.

Lemma net_policies p s : net p -> s ∈ p -> active_finalizer_policy s = net_policy /\ pending_finalizer_policy s = None.
Proof.
  intros Hp Hs. assert (Ha : Forall (Forall (fun s => active_finalizer_policy s = net_policy /\ pending_finalizer_policy s = None)) net_branches).
  { by repeat constructor. }
  rewrite Forall_forall in Ha. specialize (Ha p Hp). rewrite Forall_forall in Ha. by apply Ha.
Qed.

Lemma net_votes_given n p : p ∈ [[net_0; net_1]; [net_0; net_1; net_2]] -> votes_given net_faulty net_hist (net_qc n) p.
Proof.
  intros Hp i Hi. split; cbn; [|by rewrite lookup_nil]. intros Hb.
  assert (Hlt : (i < 3)%nat) by (destruct i as [|[|[|[|i]]]]; (lia || done)).
  unfold net_hist. rewrite (proj2 (Nat.ltb_lt i 3) Hlt). set_solver.
Qed.

Lemma net_claims p s : net (p ++ [s]) -> claim_verified net_faulty net_hist p s.
Proof.
  intros H t Ht. assert (Hall : Forall (fun b => forall p s t, b = p ++ [s] -> last p = Some t ->
      claim_of s = claim_of t \/ b = [net_0; net_1; net_2] \/ b = [net_0; net_1; net_2; net_3]) net_branches).
  { net_all; [..|done]; intros p0 s0 t0 E Hl; [by destruct p0 as [|? []]| |auto|auto|].
    - apply (app_inj_tail [net_0]) in E as [<- <-]. injection Hl as <-. by left.
    - apply (app_inj_tail [net_0; net_1]) in E as [<- <-]. injection Hl as <-. by left. }
  rewrite Forall_forall in Hall. destruct (Hall _ H p s t eq_refl Ht) as [E|[E|E]]; [by left|right..].
  - apply (app_inj_tail p [net_0; net_1]) in E as [-> ->]. injection Ht as <-.
    exists (net_state net_1), (net_qc 11). split_and!; [by vm_compute..|]. apply (net_votes_given 11 [net_0; net_1]). set_solver.
  - apply (app_inj_tail p [net_0; net_1; net_2]) in E as [-> ->]. injection Ht as <-.
    exists (net_state net_2), (net_qc 12). split_and!; [by vm_compute..|]. apply (net_votes_given 12 [net_0; net_1; net_2]). set_solver.
Qed.

Definition net_voted (f : finalizer_safety_information) (s : block_header_state) : finalizer_safety_information :=
  (from_ok (VoteResult no_vote false false false, f) (decide_vote f (net_state s))).2.

Lemma net_vote certified h f p s :
  fin_votes net net_0 certified h f -> net p -> last p = Some s ->
  match decide_vote f (net_state s) with Ok r => bool_decide (decision r.1 = strong_vote) | Throw _ => false end = true ->
  fin_votes net net_0 certified (h ++ [(p, true)]) (net_voted f s).
Proof.
  intros Hf Hp Hl Hd. unfold net_voted. destruct (decide_vote f (net_state s)) as [[r f']|] eqn:E; [|done]. cbn in *.
  rewrite <- Hd. eapply (fin_votes_vote _ _ _ h f p (net_state s) r f'); [done..|].
  apply bool_decide_eq_true in Hd. by rewrite Hd.
Qed.

Lemma net_votes certified i : exists f, fin_votes net net_0 certified (net_hist i) f.
Proof.
  assert (H0 : fin_votes net net_0 certified [] net_fsi).
  { apply (fin_votes_start net net_0 certified net_fsi [net_0]); [split; [by apply (net_in 0)|by left]|by split|by vm_compute]. }
  unfold net_hist. destruct (i <? 3)%nat; [|by exists net_fsi]. eexists.
  apply (net_vote certified [([net_0; net_1], true)] (net_voted net_fsi net_1) _ net_2);
    [|by apply (net_in 2)|done|by vm_compute].
  apply (net_vote certified [] net_fsi _ net_1); [done|by apply (net_in 1)|done|by vm_compute].
Qed.

Lemma net_network : network net net_0 net_policy net_faulty net_hist.
Proof.
  split; [split|].
  - exact net_universe.
  - exact net_policies.
  - split; [by repeat constructor|by vm_compute|by vm_compute].
  - by vm_compute.
  - exact net_claims.
  - intros i _. apply net_votes.
Qed.

Lemma finality_is_safe_witness :
  final_num net_fork <= final_num net_3 /\ final_num net_fork < final_num net_3 /\
  final_branch [net_0; net_1; net_fork] `prefix_of` final_branch [net_0; net_1; net_2; net_3].
Proof.
  split; [by vm_compute|]. split; [by vm_compute|].
  apply (finality_is_safe net net_0 net_policy net_faulty net_hist [net_0; net_1; net_fork] [net_0; net_1; net_2; net_3]
    net_fork net_3); [exact net_network|by apply (net_in 4)|by apply (net_in 3)|done|done|by vm_compute].
Defined.
