(* ===== verification/Liveness.v ===== *)
(** * Progress of finality

    Nothing in the voting rule gets stuck: a finalizer whose votes are all on one
    branch votes strongly for every next block of it, and when a block claims a
    strong certificate on its parent, what the parent claims is final.  So as
    long as a quorum follows one branch and its votes reach the producers,
    every block is final two blocks later. *)

From S2P Require Import Prelude ChainTypes Merkle FinalityCore OrderedDiff Policies Qc Raw BlockHeader BlockHeaderState.
From S2P Require Import BlockState Finalizer VoteSafety Branch Safety.

Section Liveness.
Context {hasher : Sha256Hash} {words : Sha256Words hasher} {keyok : BlsKeyValid} {bls : Bls}.
Implicit Types (s t u : block_header_state) (ancestors : list block_header_state).

(** A reference to the block of a header state. *)
Definition is_ref (r : block_ref) t : Prop := block_id r = id t /\ timestamp r = bhs_timestamp t.

(** The safety information of a finalizer that has voted for blocks of this
    branch only, if for any. *)
Record follows ancestors (f : finalizer_safety_information) : Prop := {
  fo_lock : exists t, t ∈ ancestors /\ is_ref (lock f) t;
  fo_last : block_ref_empty (last_vote f) = true /\ timestamp (last_vote f) = 0 \/ exists t, t ∈ ancestors /\ is_ref (last_vote f) t;
  fo_other : other_branch_latest_time f = 0
}.

Section Vote.
Context {ancestors : list block_header_state} {s : block_header_state} (Hc : bhs_chain ancestors s).
Context (Hpos : 0 < first_num ancestors).

Lemma first_of_chain : ancestors <> [] /\ first_num (ancestors ++ [s]) = first_num ancestors.
Proof. split; [by intros E; rewrite E in Hpos|]. by destruct ancestors. Qed.

Lemma chain_facts : branch_facts (ancestors ++ [s]).
Proof. by apply branch_facts_chain. Qed.

Lemma ancestor_lookup t : t ∈ ancestors -> exists i, (i < length ancestors)%nat /\ (ancestors ++ [s]) !! i = Some t.
Proof. intros [i Hi]%list_elem_of_lookup. exists i. split; [by eapply lookup_lt_Some|by apply lookup_app_l_Some]. Qed.

Lemma ancestor_num t : t ∈ ancestors -> 0 < bhs_block_num t < bhs_block_num s /\ bhs_timestamp t < bhs_timestamp s.
Proof.
  intros (i & Hi & Ht)%ancestor_lookup. pose proof (branch_num chain_facts _ _ Ht) as Hn.
  pose proof (branch_num chain_facts _ _ (lookup_snoc ancestors s)) as Hs. destruct first_of_chain as [_ E].
  rewrite E in *. split; [lia|]. by eapply (time_mono chain_facts), lookup_snoc.
Qed.

Lemma ref_not_empty r t : t ∈ ancestors -> is_ref r t -> block_ref_empty r = false.
Proof.
  intros Ht [Hid _]. unfold block_ref_empty. rewrite Hid. apply number_nonempty.
  rewrite (branch_id_num ancestors s Hc) by (by apply elem_of_app; left). by apply ancestor_num.
Qed.

(** The core of [s] refers to every ancestor since the last final block. *)
Lemma extends_ancestor (bs : block_state) v t : bhs bs = s -> view_of bs v -> t ∈ ancestors ->
  pv_extends v (id t) = true \/ bhs_block_num t < final_num s.
Proof.
  intros E V Ht. destruct (decide (bhs_block_num t < final_num s)) as [|Hge]; [by right|left].
  destruct (chain_inv_reachable _ _ Hc) as (f & b & I). pose proof (ci_shape _ _ _ _ I) as S.
  rewrite (shape_final_num _ _ _ S) in Hge. pose proof (ancestor_num _ Ht). pose proof (ci_num _ _ _ _ I).
  destruct (get_block_reference_Ok S (bhs_block_num t)) as (r & _ & Hr & Hn); [lia|].
  apply list_elem_of_lookup_2 in Hr. apply (vo_extends _ _ V). exists r. rewrite E. split; [done|].
  destruct (ci_refs _ _ _ _ I r Hr) as (u & Hu & Eu). apply make_block_ref_Ok in Eu as [Hid _]. rewrite Hid. f_equal.
  assert (Eqn : bhs_block_num u = bhs_block_num t).
  { rewrite <- (branch_id_num ancestors s Hc u) by (by apply elem_of_app; left). by rewrite <- Hid. }
  apply ancestor_lookup in Ht as (i & _ & Hi). apply ancestor_lookup in Hu as (j & _ & Hj).
  pose proof (branch_num_inj chain_facts _ _ _ _ Hj Hi Eqn). by simplify_eq.
Qed.

(** The claimed block is not older than the last final one. *)
Lemma claimed_later (bs : block_state) v t : bhs bs = s -> view_of bs v -> t ∈ ancestors ->
  bhs_block_num t < final_num s -> bhs_timestamp t < timestamp (pv_claimed v).
Proof.
  intros E V Ht Hlt. destruct (claimed_view ancestors s Hc bs v E V) as (i & u & Hi & Hn & -> & _).
  destruct (chain_inv_reachable _ _ Hc) as (f & b & I). pose proof (ci_shape _ _ _ _ I) as S.
  rewrite (shape_final_num _ _ _ S) in Hlt. pose proof (cs_inv2 _ _ _ S).
  assert (claimed_num s = target_block_num b) by (unfold claimed_num; by rewrite (shape_claim_of _ _ _ S)).
  apply ancestor_lookup in Ht as (j & _ & Hj). pose proof (branch_num chain_facts _ _ Hi). pose proof (branch_num chain_facts _ _ Hj).
  apply (time_mono chain_facts j i); [lia|done|done].
Qed.

(** What the rule asks of a block a finalizer has seen on the branch. *)
Lemma seen_on_branch (bs : block_state) v r t : bhs bs = s -> view_of bs v -> t ∈ ancestors -> is_ref r t ->
  pv_extends v (block_id r) = true \/ timestamp r < timestamp (pv_claimed v).
Proof.
  intros E V Ht [-> ->]. destruct (extends_ancestor bs v t E V Ht); [by left|right; by eapply claimed_later].
Qed.

Lemma claimed_time (bs : block_state) v g : bhs bs = s -> view_of bs v -> head ancestors = Some g ->
  bhs_timestamp g <= timestamp (pv_claimed v).
Proof.
  intros E V Hg. destruct (claimed_view ancestors s Hc bs v E V) as (i & u & Hi & _ & -> & _).
  assert (H0 : (ancestors ++ [s]) !! 0%nat = Some g) by (rewrite head_lookup in Hg; by apply lookup_app_l_Some).
  destruct i as [|i]; [by simplify_eq|]. enough (bhs_timestamp g < bhs_timestamp u) by lia.
  apply (time_mono chain_facts 0 (S i)); [lia|done|done].
Qed.

(** The vote, by the rule. *)
Lemma follower_rule (bs : block_state) v f g : bhs bs = s -> view_of bs v -> follows ancestors f ->
  head ancestors = Some g -> 0 <= bhs_timestamp g ->
  exists r, vote_rule v f = (strong_vote, FinalizerSafetyInformation (pv_block v) r 0) /\
    exists t, t ∈ ancestors /\ is_ref r t.
Proof.
  intros E V [(t & Ht & Hl) Hlast Ho] Hg Hg0. pose proof (claimed_time bs v g E V Hg) as Hcl.
  pose proof (vo_block _ _ V) as Hb. unfold vote_rule, can_vote, votes_strong. rewrite Ho, (ref_not_empty _ t Ht Hl). cbn [negb].
  assert (Hm : block_ref_empty (last_vote f) || (timestamp (last_vote f) <? timestamp (pv_block v)) = true).
  { destruct Hlast as [[-> _]|(u & Hu & [_ ->])]; [done|]. apply orb_true_iff; right. rewrite Hb. cbn. rewrite E.
    apply Z.ltb_lt. by apply ancestor_num. }
  assert (Hlk : (timestamp (lock f) <? timestamp (pv_claimed v)) || pv_extends v (block_id (lock f)) = true).
  { apply orb_true_iff. destruct (seen_on_branch bs v _ t E V Ht Hl); [by right|left; by apply Z.ltb_lt]. }
  assert (Hs : (timestamp (last_vote f) <=? timestamp (pv_claimed v)) ||
    (pv_extends v (block_id (last_vote f)) && (0 <=? timestamp (pv_claimed v))) = true).
  { apply orb_true_iff. destruct Hlast as [[_ ->]|(u & Hu & Hr)]; [left; apply Z.leb_le; lia|].
    destruct (seen_on_branch bs v _ u E V Hu Hr) as [->|]; [right; apply Z.leb_le; lia|left; apply Z.leb_le; lia]. }
  rewrite Hm, Hlk, Hs. cbn [andb]. eexists. split; [done|].
  destruct (timestamp (lock f) <? timestamp (pv_claimed v)); [|by exists t].
  destruct (claimed_view ancestors s Hc bs v E V) as (i & u & Hi & Hn & Ht' & Hid). exists u. split; [|by split; [apply Hid, first_of_chain|]].
  pose proof (claimed_range chain_facts _ _ (lookup_snoc ancestors s)) as [_ Hlt]. pose proof (branch_num chain_facts _ _ Hi).
  pose proof (branch_num chain_facts _ _ (lookup_snoc ancestors s)).
  destruct first_of_chain as [Hne _]. assert (0 < length ancestors)%nat by (destruct ancestors; [done|cbn; lia]).
  rewrite lookup_app_l in Hi by lia. by eapply list_elem_of_lookup_2.
Qed.
End Vote.

(** A finalizer that has voted on one branch only votes strongly for the next
    block of the branch, and is then a finalizer that has voted on the longer
    branch only: it never gets stuck. *)
Theorem follower_votes_strongly ancestors (bs : block_state) f g :
  bhs_chain ancestors (bhs bs) -> head ancestors = Some g -> 0 < bhs_block_num g -> 0 <= bhs_timestamp g -> follows ancestors f ->
  exists r f', decide_vote f bs = Ok (r, f') /\ decision r = strong_vote /\ follows (ancestors ++ [bhs bs]) f'.
Proof.
  intros Hc Hg Hpos Htime F. assert (Hp : 0 < first_num ancestors) by (unfold first_num; by rewrite Hg).
  destruct (chain_inv_reachable _ _ Hc) as (l & b & I). pose proof (ci_shape _ _ _ _ I) as Sh.
  assert (Hi : core_inv (core (bhs bs))) by by eexists _, _. destruct (view_exists bs Hi) as [v V].
  assert (Hlg : lock_since_genesis bs f).
  { intros Hgc. rewrite (bf_cores _ (branch_facts_chain _ _ Hc) (pred (length ancestors)) (bhs bs)) in Hgc; [done|].
    destruct (first_of_chain Hc Hp) as [Hne _]. destruct ancestors; [done|]. apply (lookup_snoc (_ :: _)). }
  destruct (decide_vote_is_rule bs v f Hi V Hlg) as (r & E & Hd).
  destruct (follower_rule Hc Hp bs v f g eq_refl V F Hg Htime) as (lk & Er & t & Ht & Hl). rewrite Er in *. cbn in Hd, E.
  exists r, (FinalizerSafetyInformation (pv_block v) lk 0). split_and!; [done|done|]. split; cbn; [| |done].
  - exists t. split; [apply elem_of_app; by left|done].
  - right. exists (bhs bs). split; [apply elem_of_app; right; by apply list_elem_of_singleton|]. by rewrite (vo_block _ _ V).
Qed.

(** C3: When a block strongly claims a certificate on its parent, and the parent
    one of any kind on its own parent, the latter and its ancestors are the final
    blocks: every block is final two blocks later. *)
Theorem finality_advances ancestors t s s' :
  bhs_chain ((ancestors ++ [t]) ++ [s]) s' -> claimed_num s = bhs_block_num t -> claim_of s' = QcClaim (bhs_block_num s) true ->
  final_num s' = bhs_block_num t /\ final_branch (((ancestors ++ [t]) ++ [s]) ++ [s']) = ancestors ++ [t].
Proof.
  intros Hc Ht Hs. pose proof (branch_facts_chain _ _ Hc) as F.
  inversion Hc as [|a u v Hc0 Hst E0]; [by destruct ancestors|]. apply app_inj_tail in E0 as [-> ->]. subst v.
  pose proof (sf_final _ _ (branch_step _ _ _ Hc0 Hst)) as Hf. unfold claimed_num in Hf. rewrite Hs in Hf. cbn in Hf.
  destruct Hf as (l & Hl & Hsrc & Ef).
  assert (Hi : (((ancestors ++ [t]) ++ [s]) ++ [s']) !! length (ancestors ++ [t]) = Some s) by apply lookup_app_l_Some, lookup_snoc.
  assert (Hti : (((ancestors ++ [t]) ++ [s]) ++ [s']) !! length ancestors = Some t) by (do 2 apply lookup_app_l_Some; apply lookup_snoc).
  destruct (bf_links _ F _ _ _ Hi Hl) as (j & u & _ & Hu & ->). cbn in *.
  pose proof (branch_num_inj F _ _ _ _ Hu Hi Hsrc). simplify_eq.
  assert (En : final_num s' = bhs_block_num t) by (unfold claimed_num in *; congruence). split; [done|].
  unfold final_branch. rewrite last_snoc, En, (upto_lookup F _ _ _ Hti eq_refl).
  by rewrite <- !app_assoc, take_app_length.
Qed.
End Liveness.

(** ** The properties on the network of [Safety] *)

#[local] Existing Instances example_bls example_hash example_hash_words unit_bls.

Lemma net_fsi_follows : follows [net_0] net_fsi.
Proof. split; [exists net_0; by split; [apply list_elem_of_singleton|]|by left|done]. Qed.

Lemma follower_votes_strongly_witness :
  exists r f', decide_vote net_fsi (net_state net_1) = Ok (r, f') /\ decision r = strong_vote /\ follows ([net_0] ++ [net_1]) f'.
Proof.
  apply (follower_votes_strongly [net_0] (net_state net_1) net_fsi net_0);
    [exact net_chain_1|done|by vm_compute|by vm_compute|exact net_fsi_follows].
Defined.

Lemma finality_advances_witness :
  final_num net_3 = bhs_block_num net_1 /\ final_branch ((([net_0] ++ [net_1]) ++ [net_2]) ++ [net_3]) = [net_0] ++ [net_1].
Proof. apply (finality_advances [net_0] net_1 net_2 net_3); [exact net_chain_3|by vm_compute|by vm_compute]. Defined.
