(* ===== verification/NodeSafety.v ===== *)
(** * Safety of a network of nodes

    [Safety] takes the votes of a finalizer to be made one after the other by
    [decide_vote].  Here they are what nodes give out: [maybe_vote] of
    [my_finalizers_t] for all the finalizers of the node, saves of the safety
    file that fail, restarts that read it back, keys that come and go, safety
    information that is set when the node starts, and the evidence of
    [maybe_update_fsi].  Every vote a node has given out is one of a run of the
    voting rule ([correct_run_traced]), so a network of such nodes is safe. *)

From S2P Require Import Prelude ChainTypes Merkle FinalityCore OrderedDiff Policies Qc Raw BlockHeader BlockHeaderState.
From S2P Require Import BlockState Finalizer VoteSafety Branch Safety.

Section Node.
Context {hasher : Sha256Hash} {words : Sha256Words hasher} {keyok : BlsKeyValid} {bls : Bls} {sign : BlsSign} {crc : Crc32}.
Context (U : list block_header_state -> Prop) (g : block_header_state).
#[local] Instance node_tree : BlockTree (list block_header_state) := branch_tree U g.
(** The blocks with a certificate, and the branch of a block state. *)
Context (C : list block_header_state -> Prop) (branch_of : block_state -> list block_header_state).
Implicit Types (s : block_state) (m : my_finalizers_t) (k : bls_public_key) (f : finalizer_safety_information)
  (log : list (vote_message * block_state)).

Record placed s : Prop := {
  pl_branch : U (branch_of s);
  pl_last : last (branch_of s) = Some (bhs s);
  pl_ok : block_ok s
}.

(** The votes of a key that have been given out. *)
Definition published k log : list (list block_header_state * bool) :=
  map (fun e => (branch_of e.2, vote_strong e.1)) (filter (fun e => finalizer_key e.1 = k) log).

(** What a node is started with: no vote, and a lock on a block that is final. *)
Definition starts f : Prop :=
  fsi_wf f /\ block_ref_empty (last_vote f) = true /\ exists l, lockable C l /\ refers (lock f) l.

(** A certificate says that the key voted strongly. *)
Definition voted_in s (q : qc_t) k : Prop :=
  has_voted_strong (finalizers (active_finalizer_policy (bhs s))) (active_policy_sig q) k = Ok true \/
  exists p sig, pending_finalizer_policy (bhs s) = Some p /\ pending_policy_sig q = Some sig /\
    has_voted_strong (finalizers p.2) sig k = Ok true.

(** The runs of a node on blocks of the network.  A certificate that says that
    one of its keys voted strongly is one whose votes the node has given out.
    Saves fail in any of the ways of [disk_outcome]; a restart is not from a
    torn file. *)
Inductive correct_run : my_finalizers_t -> list (vote_message * block_state) -> Prop :=
| correct_new : correct_run (new_my_finalizers None) []
| correct_vote m log disk s votes m' :
    correct_run m log -> placed s -> maybe_vote disk m s = Ok (votes, m') ->
    correct_run m' (log ++ map (fun v => (v.1.1, s)) votes)
| correct_update m log disk s q m' :
    correct_run m log -> placed s ->
    (forall k, k ∈ map fst (my_finalizers m) -> voted_in s q k -> (branch_of s, true) ∈ published k log) ->
    maybe_update_fsi disk m s q = Ok m' -> correct_run m' log
| correct_default m log info :
    correct_run m log -> starts info -> correct_run (set_default_safety_information m info) log
| correct_restart m log keys m' :
    correct_run m log -> file_torn m = false -> Forall (fun p => key_ok p.1) keys ->
    set_keys (new_my_finalizers (safety_file m)) keys = Ok m' ->
    size_of (my_finalizers m') + size_of (inactive_safety_info m') < 2 ^ 64 -> correct_run m' log.

Lemma correct_node_run m log : correct_run m log -> node_run m log.
Proof.
  induction 1 as [|m log io s votes m' _ IH [_ _ Hok] H|m log io s q m' _ IH [_ _ Hok] _ H|m log info _ IH (Hw & _)|m log keys m' _ IH Ht Hk H Hn].
  - constructor.
  - by eapply run_vote.
  - by eapply run_update.
  - by apply run_default.
  - by eapply run_restart.
Qed.

(** ** Safety information that comes from a run of the rule *)

Definition unset f : Prop := block_ref_empty (last_vote f) = true /\ block_ref_empty (lock f) = true.

Definition traced log k f : Prop :=
  (unset f /\ published k log = []) \/
  exists h, fin_votes U g C h f /\ forall v, v ∈ published k log -> v ∈ h.

Lemma traced_stored log k f : traced log k f -> traced log k (stored_fsi f).
Proof. intros [H|(h & H & Hp)]; [by left|right]. exists h. split; [by apply fin_votes_stored|done]. Qed.

Lemma traced_fewer log log' k f : (forall v, v ∈ published k log' -> v ∈ published k log) -> traced log k f -> traced log' k f.
Proof.
  intros Hs [(Hu & Hp)|(h & H & Hp)]; [left|right; exists h; auto]. split; [done|].
  destruct (published k log') as [|v l]; [done|]. exfalso. specialize (Hs v ltac:(by left)). rewrite Hp in Hs.
  by apply elem_of_nil in Hs.
Qed.

Lemma published_elem k log v : v ∈ published k log <->
  exists w s, (w, s) ∈ log /\ finalizer_key w = k /\ v = (branch_of s, vote_strong w).
Proof.
  unfold published. rewrite list_elem_of_fmap. split.
  - intros ([w s] & -> & [Hk Hin]%list_elem_of_filter). by exists w, s.
  - intros (w & s & Hin & Hk & ->). exists (w, s). split; [done|]. by apply list_elem_of_filter.
Qed.

(** A decision to vote, strongly or not. *)
Definition votes_for s f f' (strong : bool) : Prop :=
  exists r, decide_vote f s = Ok (r, f') /\ decision r <> no_vote /\ strong = bool_decide (decision r = strong_vote).

Lemma unset_no_vote s f f' strong : unset f -> ~ votes_for s f f' strong.
Proof.
  intros [Hl Hk] (r & Hd & Hn & _). unfold decide_vote in Hd. rewrite Hl, Hk in Hd. cbn in Hd. injection Hd as <- _. by apply Hn.
Qed.

Lemma traced_vote log log' k s f f' strong : placed s -> traced log k f -> votes_for s f f' strong ->
  (forall v, v ∈ published k log' -> v ∈ published k log \/ v = (branch_of s, strong)) -> traced log' k f'.
Proof.
  intros [HU Hl _] T V Hlog. destruct T as [(Hu & _)|(h & Hh & Hp)]; [by apply unset_no_vote in V|].
  destruct V as (r & Hd & Hn & ->).
  right. exists (h ++ [(branch_of s, bool_decide (decision r = strong_vote))]). split; [by eapply fin_votes_vote|].
  intros v Hv. apply elem_of_app. destruct (Hlog v Hv) as [Ho| ->]; [left; auto|right; by apply list_elem_of_singleton].
Qed.

(** ** The votes for a block *)

Definition fsi_decides s (p p' : bls_public_key * finalizer) : Prop :=
  p.1 = p'.1 /\ (fsi p'.2 = fsi p.2 \/ exists strong, votes_for s (fsi p.2) (fsi p'.2) strong).

Lemma fin_maybe_vote_decides (f : finalizer) k s d v (f' : finalizer) : fin_maybe_vote f k s d = Ok (v, f') ->
  (fsi f' = fsi f \/ exists strong, votes_for s (fsi f) (fsi f') strong) /\
  (forall msg, v = Some msg -> finalizer_key msg = k /\ votes_for s (fsi f) (fsi f') (vote_strong msg)).
Proof.
  intros H. unfold fin_maybe_vote in H. apply bind_Ok in H as ([r f2] & Hd & H). injection H as <- <-. cbn [fst snd fsi].
  destruct (decision r) eqn:E.
  1: { apply decide_vote_moved in Hd as Hm. destruct Hm as [[_ ->]|[Hm _]]; [by split; [left|]|congruence]. }
  all: split; [right; eexists; exists r; by rewrite E|]; intros msg Hmsg.
  all: destruct (bls_sign _ _); (done || (injection Hmsg as <-; split; [done|]; exists r; by rewrite E)).
Qed.

Lemma collect_votes_decides s fs votes fs' : collect_votes s fs = Ok (votes, fs') ->
  Forall2 (fsi_decides s) fs fs' /\
  Forall (fun v => exists p p', (vote_key v, p) ∈ fs /\ (vote_key v, p') ∈ fs' /\ votes_for s (fsi p) (fsi p') (vote_strong v.1.1)) votes.
Proof.
  revert votes fs'. induction fs as [|[k f] fs IH]; intros votes fs' H; cbn [collect_votes] in H.
  { injection H as <- <-. by split. }
  apply bind_Ok in H as ([v f'] & Hv & H). apply bind_Ok in H as ([votes1 fs1] & H1 & H).
  cbn [fst snd] in H. injection H as <- <-. destruct (IH _ _ H1) as [He Hf].
  assert (Hlift : Forall (fun v => exists p p', (vote_key v, p) ∈ (k, f) :: fs /\ (vote_key v, p') ∈ (k, f') :: fs1 /\
      votes_for s (fsi p) (fsi p') (vote_strong v.1.1)) votes1).
  { eapply Forall_impl; [exact Hf|]. intros w (p & p' & ? & ? & ?). exists p, p'. split_and!; [by right..|done]. }
  assert (Hd : (fsi f' = fsi f \/ exists strong, votes_for s (fsi f) (fsi f') strong) /\
    (forall msg, v = Some msg -> finalizer_key msg = k /\ votes_for s (fsi f) (fsi f') (vote_strong msg))).
  { destruct (_ || _) in Hv; [by apply fin_maybe_vote_decides in Hv|]. injection Hv as <- <-. by split; [left|]. }
  destruct Hd as [Hev Hmsg]. split; [by constructor|]. destruct v as [msg|]; [|done]. constructor; [|done].
  destruct (Hmsg msg eq_refl) as [Hk Hm]. exists f, f'. unfold vote_key. cbn [fst]. rewrite Hk. split_and!; [by left..|done].
Qed.

Lemma decides_evolves s fs fs' : Forall2 (fsi_decides s) fs fs' -> Forall2 (fsi_evolves s) fs fs'.
Proof.
  intros H. eapply Forall2_impl; [exact H|]. intros [k p] [k' p'] [Hk Hd]. split; [done|]. destruct Hd as [|(b & r & Hd & Hn & _)]; [by left|right].
  apply decide_vote_moved in Hd as [[Hd _]|[_ Hm]]; done.
Qed.

Lemma decides_find s fs fs' k p : Forall2 (fsi_decides s) fs fs' -> map_find k fs = Some p ->
  exists p', map_find k fs' = Some p' /\ (fsi p' = fsi p \/ exists strong, votes_for s (fsi p) (fsi p') strong).
Proof.
  induction 1 as [|[k1 p1] [k2 p2] fs fs' [Hk He] _ IH]; [done|]. cbn in Hk, He. subst k2.
  rewrite !map_find_cons. case_decide; [intros [= <-]; eauto|auto].
Qed.

(** ** The invariant of a node *)

Record trace_inv m log : Prop := {
  ti_run : run_inv m log;
  ti_memory : my_finalizers m = [] \/ forall k f, known m k = Some f -> traced log k f;
  ti_disk : file_torn m = false -> safety_file m = None /\ log = [] \/
    exists d, file_holds m d /\ recorded log d /\ forall k f, d k = Some f -> traced log k f
}.

(** The state of a node whose finalizers have voted for [s]. *)
Abbreviation with_voted m fs := (MyFinalizers true fs (inactive_safety_info m) (default_fsi m) (safety_file m)
  (file_is_open m) (inactive_safety_info_written_pos m) (inactive_crc32 m) (file_torn m)).

Section Vote.
Context (m : my_finalizers_t) (log : list (vote_message * block_state)) (s : block_state) (votes : list vote_t)
  (fs' : list (bls_public_key * finalizer)).
Context (Hs : placed s) (I : file_inv m) (Hc : collect_votes s (my_finalizers m) = Ok (votes, fs')).
Abbreviation log' := (log ++ map (fun v : vote_t => (v.1.1, s)) votes).

Lemma known_decides hv k f' : known (MyFinalizers hv fs' (inactive_safety_info m) (default_fsi m) (safety_file m)
    (file_is_open m) (inactive_safety_info_written_pos m) (inactive_crc32 m) (file_torn m)) k = Some f' ->
  exists f, known m k = Some f /\ (f' = f \/ exists strong, votes_for s f f' strong) /\
    forall v, v ∈ votes -> vote_key v = k -> votes_for s f f' (vote_strong v.1.1).
Proof.
  pose proof (collect_votes_decides _ _ _ _ Hc) as [He Hv]. unfold known. rewrite !map_find_app, !active_find.
  cbn [my_finalizers inactive_safety_info].
  pose proof (decides_evolves _ _ _ He) as Hke. apply evolves_keys in Hke as Hk.
  assert (Hs' : map_sorted fs') by (eapply map_sorted_keys; [symmetry; exact Hk|apply (fi_sorted _ I)]).
  rewrite Forall_forall in Hv. destruct (map_find k (my_finalizers m)) as [p|] eqn:E.
  - destruct (decides_find _ _ _ _ _ He E) as (p' & E' & Hp). rewrite E'. intros [= <-]. exists (fsi p). split_and!; [done|done|].
    intros v Hin <-. destruct (Hv v Hin) as (q & q' & Hq & Hq' & V).
    apply (map_sorted_find _ _ _ (fi_sorted _ I)) in Hq. apply (map_sorted_find _ _ _ Hs') in Hq'. by simplify_eq.
  - assert (map_find k fs' = None) as ->; [|intros Hf; exists f'; split_and!; [done|by left|]].
    { apply map_find_None. rewrite Hk. by apply map_find_None. }
    intros v Hin <-. destruct (Hv v Hin) as (q & q' & Hq & _). apply (map_sorted_find _ _ _ (fi_sorted _ I)) in Hq. congruence.
Qed.

Lemma votes_for_same f f' b1 b2 : votes_for s f f' b1 -> votes_for s f f' b2 -> b1 = b2.
Proof. intros (r1 & H1 & _ & ->) (r2 & H2 & _ & ->). rewrite H1 in H2. by injection H2 as ->. Qed.

(** The new safety information is traced, whether the votes are given out or
    not. *)
Lemma vote_traced hv k f' : (forall f, known m k = Some f -> traced log k f) ->
  known (MyFinalizers hv fs' (inactive_safety_info m) (default_fsi m) (safety_file m)
    (file_is_open m) (inactive_safety_info_written_pos m) (inactive_crc32 m) (file_torn m)) k = Some f' ->
  traced log k f' /\ traced log' k f'.
Proof.
  intros T H. destruct (known_decides _ _ _ H) as (f & Hf & Hd & Hv). specialize (T f Hf).
  assert (T1 : traced log k f').
  { destruct Hd as [->|[b V]]; [done|]. by apply (traced_vote log log k s f f' b); [..|auto]. }
  split; [done|].
  assert (Hnew : forall x, x ∈ published k log' -> x ∈ published k log \/
      exists v, v ∈ votes /\ vote_key v = k /\ x = (branch_of s, vote_strong v.1.1)).
  { intros x (w & t & [Hin|Hin]%elem_of_app & Hk & ->)%published_elem; [left; apply published_elem; eauto|right].
    apply list_elem_of_fmap in Hin as (v & [= -> ->] & Hin). by exists v. }
  destruct (decide (Exists (fun v => vote_key v = k) votes)) as [(v & Hin & Hk)%Exists_exists|Hno].
  - apply (traced_vote log log' k s f f' (vote_strong v.1.1)); [done|done|by apply Hv|].
    intros x [Hx|(w & Hw & Hwk & ->)]%Hnew; [by left|right]. by rewrite (votes_for_same _ _ _ _ (Hv w Hw Hwk) (Hv v Hin Hk)).
  - apply (traced_fewer log); [|done]. intros x [Hx|(w & Hw & Hwk & ->)]%Hnew; [done|].
    destruct Hno. apply Exists_exists. by exists w.
Qed.
End Vote.

(** The saving of what is known, all of it traced. *)
Lemma save_traced disk m log log1 saved m' :
  crc_width -> file_inv m -> recorded log1 (known m) ->
  (forall k f, known m k = Some f -> traced log k f /\ traced log1 k f) ->
  (file_torn m = false -> safety_file m = None /\ log = [] \/
    exists d, file_holds m d /\ recorded log d /\ forall k f, d k = Some f -> traced log k f) ->
  save_finalizer_safety_info disk m = (saved, m') ->
  let log' := if saved then log1 else log in
  (forall k f, known m' k = Some f -> traced log' k f) /\
  (file_torn m' = false -> safety_file m' = None /\ log' = [] \/
    exists d, file_holds m' d /\ recorded log' d /\ forall k f, d k = Some f -> traced log' k f).
Proof.
  intros Hcrc I Hr T Hd H. destruct (save_spec _ _ _ _ Hcrc I H) as [I' Ha Hi Hs Hf].
  assert (Hk : known m' = known m) by (unfold known, active_entries; by rewrite Ha, Hi).
  rewrite Hk. destruct saved; cbn zeta iota; (split; [intros k f; apply T|]); intros Ht.
  - destruct (Hs eq_refl) as [Et Hh]. rewrite Ht in Et. symmetry in Et. apply negb_false_iff in Et.
    right. exists (known m). split_and!; [auto|done|]. intros k f. apply T.
  - destruct (Hf eq_refl Ht) as [Ht' Ef]. unfold file_holds. rewrite Ef. by apply Hd.
Qed.

Lemma vote_trace_inv disk m log s votes m' :
  crc_width -> trace_inv m log -> placed s -> maybe_vote disk m s = Ok (votes, m') ->
  trace_inv m' (log ++ map (fun v => (v.1.1, s)) votes).
Proof.
  intros Hcrc [I Tm Td] Hs H. pose proof (vote_run_inv disk m log s votes m' Hcrc I (pl_ok _ Hs) H) as I'.
  unfold maybe_vote in H. destruct (my_finalizers m) as [|p fs] eqn:Efs.
  { injection H as <- <-. rewrite app_nil_r in *. by split; [|left|]. }
  rewrite <- Efs in H. apply bind_Ok in H as ([vs fs'] & Hc & H). cbn [fst snd] in H.
  assert (T : forall k f, known m k = Some f -> traced log k f) by (destruct Tm as [Tm|Tm]; [congruence|done]).
  assert (Hmem : recorded log (known m)) by (destruct (ri_memory _ _ I) as [Im|Im]; [congruence|done]).
  pose proof (vote_traced m log s vs fs' Hs (ri_file _ _ I) Hc) as Hnew.
  destruct vs as [|v0 vs].
  { injection H as <- <-. rewrite app_nil_r in *. split; [done|right|done]. intros k f Hf. by destruct (Hnew (node_has_voted m) k f (T k) Hf). }
  destruct (new_votes _ _ _ _ _ (pl_ok _ Hs) I Hmem Hc) as (Hrec & _ & _).
  set (m1 := MyFinalizers true _ _ _ _ _ _ _ _) in H.
  destruct (save_finalizer_safety_info disk m1) as [saved m2] eqn:Esave. injection H as <- <-.
  pose proof (collect_votes_spec _ _ _ _ Hc) as (He & _).
  destruct (save_traced disk m1 log _ saved m2 Hcrc (evolves_inv m s fs' true (pl_ok _ Hs) (ri_file _ _ I) He) Hrec) as [T2 D2];
    [intros k f Hf; exact (Hnew true k f (T k) Hf)|done|done|]. split; [done| |].
  - right. destruct saved; [done|]. cbn [map]. by rewrite app_nil_r.
  - destruct saved; [done|]. cbn [map]. by rewrite app_nil_r.
Qed.

Section Rule.
Context (Un : universe U g).
#[local] Instance node_tree_ok : BlockTreeOk (list block_header_state) := branch_tree_ok Un.
Context (claims : forall x, block_valid x -> x <> genesis -> justified x = genesis \/ C (justified x)).

Lemma votes_inv h f : fin_votes U g C h f -> fin_inv C h f.
Proof. intros H. apply fin_run_inv; [done|]. by apply fin_votes_run. Qed.

(** A finalizer that has given out a vote for a block does not move to the
    block later: its safety information says that it has voted for it. *)
Lemma evidence_recorded log k f s : placed s -> traced log k f -> (branch_of s, true) ∈ published k log ->
  bhs_timestamp (bhs s) <= timestamp (last_vote f).
Proof.
  intros Hs [(_ & Hp)|(h & Hh & Hp)] Hin; [rewrite Hp in Hin; by apply elem_of_nil in Hin|].
  apply Hp in Hin. pose proof (fi_last _ _ _ (votes_inv _ _ Hh)) as Hl. destruct (last h) as [w|] eqn:Ew.
  2:{ apply last_None in Ew. rewrite Ew in Hin. by apply elem_of_nil in Hin. }
  destruct Hl as [[_ Hr] Ha]. destruct (Ha _ Hin) as [Ht _]. rewrite Hr. etransitivity; [|exact Ht]. cbn. unfold last_time.
  by rewrite (pl_last _ Hs).
Qed.

Lemma update_nothing s q fs r : update_all_fsi s q fs = Ok r ->
  (forall k p, (k, p) ∈ fs -> voted_in s q k -> bhs_timestamp (bhs s) <= timestamp (last_vote (fsi p))) -> r = (false, fs).
Proof.
  revert r. induction fs as [|[k p] fs IH]; intros r H Hev; cbn [update_all_fsi] in H; [by injection H as <-|].
  apply bind_Ok in H as (a & Ha & H). apply bind_Ok in H as (v & Hv & H). apply bind_Ok in H as ([u p'] & Hu & H).
  apply bind_Ok in H as (rest & Hrest & H). injection H as <-. cbn [fst snd].
  rewrite (IH _ Hrest) by (intros k2 p2 Hin; apply Hev; by right).
  assert (u = false /\ p' = p) as [-> ->]; [|done]. destruct v; [|by injection Hu as <- <-].
  assert (Hvoted : voted_in s q k).
  { destruct a; [by left|right]. destruct (pending_finalizer_policy (bhs s)) as [pp|]; [|done].
    apply bind_Ok in Hv as (sig & Hsig & Hv). exists pp, sig. split_and!; [done| |done].
    by destruct (pending_policy_sig q); [injection Hsig as <-|]. }
  specialize (Hev k p ltac:(by left) Hvoted). apply bind_Ok in Hu as (w & Hw & Hu). injection Hu as <- <-.
  unfold fin_maybe_update_fsi in Hw. apply bind_Ok in Hw as (c & _ & Hw). apply bind_Ok in Hw as (rf & _ & Hw).
  rewrite (proj2 (Z.ltb_ge (timestamp (last_vote (fsi p))) _)), andb_false_r in Hw by lia. injection Hw as <-. by destruct p.
Qed.

Lemma update_trace_inv disk m log s q m' :
  trace_inv m log -> placed s ->
  (forall k, k ∈ map fst (my_finalizers m) -> voted_in s q k -> (branch_of s, true) ∈ published k log) ->
  maybe_update_fsi disk m s q = Ok m' -> trace_inv m' log.
Proof.
  intros T Hs Hev H. enough (m' = m) as -> by done. unfold maybe_update_fsi in H.
  destruct (my_finalizers m) as [|p fs] eqn:Efs; [by injection H as <-|]. rewrite <- Efs in H, Hev.
  destruct (node_has_voted m); [by injection H as <-|]. destruct (_ || _) in H; [|done].
  apply bind_Ok in H as (r & Hr & H). destruct (ti_memory _ _ T) as [Tm|Tm]; [congruence|].
  rewrite (update_nothing _ _ _ _ Hr) in H.
  { injection H as <-. by destruct m. }
  intros k f Hin Hv. apply (evidence_recorded log k _ s Hs).
  - apply Tm. unfold known. rewrite map_find_app, active_find.
    by rewrite (map_sorted_find _ f _ (fi_sorted _ (ri_file _ _ (ti_run _ _ T))) Hin).
  - apply Hev; [|done]. apply list_elem_of_fmap. by exists (k, f).
Qed.

Lemma default_trace_inv m log info : trace_inv m log -> starts info -> trace_inv (set_default_safety_information m info) log.
Proof.
  intros [I Tm Td] (Hw & He & l & Hl & Hr). split; [by apply default_run_inv| |done].
  destruct Tm as [Tm|Tm]; [left; cbn; by rewrite Tm|right]. intros k f' Hf. unfold set_default_safety_information in Hf.
  set (upd (p : finalizer) := if negb (block_ref_empty (last_vote (fsi p))) || negb (block_ref_empty (lock (fsi p))) then p
                else MkFinalizer (priv_key p) info) in Hf.
  change (map _ (my_finalizers m)) with (map (fun p => (p.1, upd p.2)) (my_finalizers m)) in Hf.
  unfold known in Hf, Tm. rewrite map_find_app, active_find in Hf. cbn [my_finalizers inactive_safety_info] in Hf.
  rewrite map_find_map in Hf. specialize (Tm k). rewrite map_find_app, active_find in Tm.
  destruct (map_find k (my_finalizers m)) as [p|]; [|by apply Tm]. cbn in Hf, Tm. injection Hf as <-. specialize (Tm _ eq_refl).
  unfold upd. destruct (negb (block_ref_empty (last_vote (fsi p))) || _) eqn:E; [done|].
  apply orb_false_iff in E as [E1%negb_false_iff E2%negb_false_iff]. cbn [fsi].
  destruct Tm as [(_ & Hp)|(h & Hh & _)].
  - right. exists []. split; [by eapply fin_votes_start|]. by rewrite Hp.
  - destruct (fi_lock _ _ _ (votes_inv _ _ Hh)) as (x & [Hx _] & [Hi _] & _).
    unfold block_ref_empty in E2. rewrite Hi, (id_of_nonempty x Hx) in E2. done.
Qed.

Lemma configured_known res keys file k f :
  map_sorted res ->
  known (MyFinalizers false
    (foldl (fun fs p => map_emplace p.1 (MkFinalizer p.2
       match map_find p.1 res with Some i => i | None => unset_fsi end) fs) [] keys)
    (foldl (fun info p => map_erase p.1 info) res keys) unset_fsi file false 0 [] false) k = Some f ->
  map_find k res = Some f \/ map_find k res = None /\ f = unset_fsi.
Proof.
  intros Hs H. set (info k := match map_find k res with Some i => i | None => unset_fsi end).
  destruct (configured_keys info keys []) as (_ & _ & Hinfo); [constructor|]. specialize (Hinfo ltac:(done)).
  destruct (erased_keys keys res Hs) as (_ & Hfind).
  unfold known in H. rewrite map_find_app, active_find in H. cbn [my_finalizers inactive_safety_info] in H.
  destruct (map_find k (foldl _ [] keys)) as [p|] eqn:E; cbn in H.
  - injection H as <-. rewrite (Hinfo _ _ E). unfold info. destruct (map_find k res); auto.
  - rewrite Hfind in H. case_decide; [done|]. auto.
Qed.

Lemma unset_traced log k : published k log = [] -> traced log k unset_fsi.
Proof. by left. Qed.

Lemma restart_trace_inv m log keys m' :
  trace_inv m log -> file_torn m = false -> Forall (fun p => key_ok p.1) keys ->
  set_keys (new_my_finalizers (safety_file m)) keys = Ok m' ->
  size_of (my_finalizers m') + size_of (inactive_safety_info m') < 2 ^ 64 -> trace_inv m' log.
Proof.
  intros [I _ Td] Ht Hkeys H Hn. specialize (Td Ht). pose proof (restart_run_inv _ _ _ _ I Ht Hkeys H Hn) as I'.
  destruct keys as [|k0 keys]; [injection H as <-; by split; [|left|]|].
  remember (k0 :: keys) as ks eqn:Eks. unfold set_keys in H. rewrite Eks in H. rewrite <- Eks in H.
  cbn [my_finalizers new_my_finalizers] in H. rewrite bool_decide_true in H by done.
  apply bind_Ok in H as (res & Hload & H). injection H as H.
  unfold load_finalizer_safety_info in Hload. cbn [file_is_open new_my_finalizers safety_file negb] in Hload.
  assert (Efile : safety_file m' = safety_file m) by by rewrite <- H.
  destruct Td as [ [Em ->]|(d & (file & res0 & Em & Hload0 & Hs & Hg) & Hr & T)]; rewrite Em in Hload, Efile.
  - injection Hload as <-. split; [done|right|intros _; by left]. intros k f Hf. rewrite <- H in Hf.
    apply configured_known in Hf as [Hf|[_ ->]]; [done|by apply unset_traced|constructor].
  - rewrite Hload in Hload0. injection Hload0 as <-. split; [done|right|].
    + intros k f Hf. rewrite <- H in Hf. apply configured_known in Hf as [Hf|[Hf ->]]; [| |done].
      * rewrite Hg in Hf. destruct (d k) as [f0|] eqn:E; [|done]. injection Hf as <-. by apply traced_stored, T.
      * apply unset_traced. destruct (published k log) as [|v l] eqn:E; [done|]. exfalso.
        assert (Hv : v ∈ published k log) by (rewrite E; by left). apply published_elem in Hv as (w & s & Hin & <- & _).
        destruct (Hr w s Hin) as (f0 & Hf0 & _). by rewrite Hg, Hf0 in Hf.
    + intros _. right. exists d. split_and!; [|done..]. exists file, res. by rewrite Efile.
Qed.

Lemma correct_run_inv m log : crc_width -> correct_run m log -> trace_inv m log.
Proof.
  intros Hcrc. induction 1.
  - split; [apply node_run_inv; [done|constructor]|by left..].
  - by eapply vote_trace_inv.
  - by eapply update_trace_inv.
  - by apply default_trace_inv.
  - by eapply restart_trace_inv.
Qed.

(** The votes that a node has given out for a key are votes of one run of the
    voting rule. *)
Lemma correct_run_traced m log k : crc_width -> correct_run m log ->
  published k log = [] \/ exists h f, fin_votes U g C h f /\ forall v, v ∈ published k log -> v ∈ h.
Proof.
  intros Hcrc H. destruct (correct_run_inv _ _ Hcrc H) as [I Tm Td].
  assert (Hd : log = [] \/ exists d, recorded log d /\ forall k f, d k = Some f -> traced log k f).
  { destruct (file_torn m) eqn:Et.
    - pose proof (ri_torn _ _ I Et) as Hne. right. exists (known m). split.
      + by destruct (ri_memory _ _ I).
      + by destruct Tm.
    - destruct (Td eq_refl) as [ [_ ->]|(d & _ & Hr & T)]; [by left|right; eauto]. }
  destruct Hd as [->|(d & Hr & T)]; [by left|].
  destruct (published k log) as [|v l] eqn:E; [by left|right]. rewrite <- E.
  assert (Hv : v ∈ published k log) by (rewrite E; by left). apply published_elem in Hv as (w & s & Hin & Hk & _).
  destruct (Hr w s Hin) as (f & Hf & _). rewrite Hk in Hf. destruct (T k f Hf) as [(_ & Hp)|(h & Hh & Hp)]; [congruence|eauto].
Qed.
End Rule.
End Node.

(** ** More votes than those of a network *)

Section More.
Context {hasher : Sha256Hash} {words : Sha256Words hasher} {keyok : BlsKeyValid} {bls : Bls}.
Context (U : list block_header_state -> Prop) (g : block_header_state).
#[local] Instance more_tree : BlockTree (list block_header_state) := branch_tree U g.
Context (pol : finalizer_policy) (faulty : list bool) (hist1 hist2 : nat -> list (list block_header_state * bool)).
Context (Hmore : forall i v, honest faulty i -> v ∈ hist1 i -> v ∈ hist2 i).

Lemma certified_more x :
  certified (finalizers pol) (threshold pol) faulty hist1 x -> certified (finalizers pol) (threshold pol) faulty hist2 x.
Proof.
  intros (s & bits & Hw & Hb). exists s, bits. split; [done|]. intros i Hi Hh. destruct (Hb i Hi Hh) as (b & Hin & Hs).
  exists b. split; [by apply Hmore|done].
Qed.

Lemma chain_ok_more : chain_ok U g pol faulty hist1 -> chain_ok U g pol faulty hist2.
Proof.
  intros [? ? ? ? Hc]. split; try done. intros p s Hp t Ht. destruct (Hc p s Hp t Ht) as [E|(bs & c & ? & ? & ? & ? & Hv)]; [by left|].
  right. exists bs, c. split_and!; [done..|]. intros i Hi. destruct (Hv i Hi) as [Hv1 Hv2]. split; intros Hb; apply Hmore; auto.
Qed.

Lemma fin_votes_more (C1 C2 : list block_header_state -> Prop) h f :
  (forall x, C1 x -> C2 x) -> fin_votes U g C1 h f -> fin_votes U g C2 h f.
Proof.
  intros HC. induction 1 as [f l [Hl Hc] Hr He|h f p bs r f' _ IH H Hl Hd Hn|h f _ IH].
  - eapply fin_votes_start; [split; [exact Hl|]|done..]. destruct Hc as [->|Hc]; [by left|right; auto].
  - by eapply fin_votes_vote.
  - by apply fin_votes_stored.
Qed.
End More.

(** Choosing one witness for each of finitely many numbers. *)
Lemma finite_choice {A} (P : nat -> A -> Prop) (n : nat) :
  (forall i, (i < n)%nat -> exists a, P i a) -> exists l, length l = n /\ forall i a, l !! i = Some a -> P i a.
Proof.
  induction n as [|n IH]; intros H; [by exists []|]. destruct IH as (l & Hn & Hl); [intros i Hi; apply H; lia|].
  destruct (H n ltac:(lia)) as [a Ha]. exists (l ++ [a]). split; [rewrite length_app; cbn; lia|].
  intros i b Hi. apply lookup_app_Some in Hi as [Hi|[Hle Hi]]; [auto|].
  apply list_lookup_singleton_Some in Hi as [E <-]. by replace i with n by lia.
Qed.

(** ** A network of nodes *)

Section Network.
Context {hasher : Sha256Hash} {words : Sha256Words hasher} {keyok : BlsKeyValid} {bls : Bls} {sign : BlsSign} {crc : Crc32}.
Context (U : list block_header_state -> Prop) (g : block_header_state).
#[local] Instance network_tree : BlockTree (list block_header_state) := branch_tree U g.
Context (branch_of : block_state -> list block_header_state).
Context (pol : finalizer_policy) (faulty : list bool).
(** The votes that the node of each finalizer has given out. *)
Context (logs : nat -> list (vote_message * block_state)).

Definition pub (i : nat) : list (list block_header_state * bool) :=
  match finalizers pol !! i with Some a => published branch_of (public_key a) (logs i) | None => [] end.

Abbreviation certified_pub := (certified (finalizers pol) (threshold pol) faulty pub).

(** Each finalizer that is not faulty is on one node, which runs the code. *)
Record node_network : Prop := {
  nn_chain : chain_ok U g pol faulty pub;
  nn_nodes i : (i < length (finalizers pol))%nat -> honest faulty i ->
    exists m, correct_run U g certified_pub branch_of m (logs i)
}.

Lemma nodes_network : crc_width -> node_network -> U [g] ->
  exists hist, network U g pol faulty hist.
Proof.
  intros Hcrc [K N] Hg. pose proof (nw_universe _ _ _ _ _ K) as Un. pose proof (claims_ok _ _ _ _ _ K) as claims.
  assert (Hstart : exists f, fin_votes U g certified_pub [] f).
  { exists (FinalizerSafetyInformation block_ref_default (BlockRef (id_of [g]) (time_of [g]) sha256_default 0 0) 0).
    eapply (fin_votes_start _ _ _ _ [g]); [by split; [|left]|done|done]. }
  assert (Hrun : forall i, (i < length (finalizers pol))%nat -> exists h, honest faulty i ->
      (exists f, fin_votes U g certified_pub h f) /\ forall v, v ∈ pub i -> v ∈ h).
  { intros i Hi. destruct (decide (faulty !! i = Some true)) as [E|Hh]; [by exists []|].
    destruct (N i Hi Hh) as [m Hm]. destruct (lookup_lt_is_Some_2 _ _ Hi) as [a Ha].
    destruct (correct_run_traced _ _ _ _ Un claims _ _ (public_key a) Hcrc Hm) as [Hp|(h & f & Hf & Hp)].
    - exists []. intros _. split; [done|]. unfold pub. rewrite Ha. by rewrite Hp.
    - exists h. intros _. split; [by exists f|]. unfold pub. by rewrite Ha. }
  destruct (finite_choice _ _ Hrun) as (hs & Hlen & Hhs). exists (fun i => default [] (hs !! i)).
  assert (Hmore : forall i v, honest faulty i -> v ∈ pub i -> v ∈ default [] (hs !! i)).
  { intros i v Hh Hv. destruct (hs !! i) as [h|] eqn:E; [by apply (Hhs i h E)|].
    apply lookup_ge_None in E. unfold pub in Hv. rewrite lookup_ge_None_2 in Hv by lia. done. }
  split; [by eapply chain_ok_more|]. intros i Hh.
  assert (exists f, fin_votes U g certified_pub (default [] (hs !! i)) f) as [f Hf].
  { destruct (hs !! i) as [h|] eqn:E; [by apply (Hhs i h E)|done]. }
  exists f. eapply fin_votes_more; [|exact Hf]. intros x. by apply certified_more.
Qed.

(** C1: A network of nodes is safe: each finalizer that is not faulty votes on
    a node that runs the code -- votes, saves in which the disk fails, before
    or after the file is open, and whatever it leaves in it, restarts from the
    safety file, changes of the configured keys --, and a bit of a verified
    certificate stands for a vote that a node has given out.  Then, as long as
    the weight of the faulty finalizers, with the total weight, is less than
    twice the threshold, the last final block of a branch is on every branch
    whose last final block is not older.  All blocks have the one policy, blocks
    of different branches have different ids, and the claim of a block is verified
    or its parent's.  The runs of a node have two limits: a restart does not read a file that a failed save has left torn; and of the
    certificates that [maybe_update_fsi] sees, those that count a strong vote of
    one of the node's own keys are for votes that this node has given out. *)
Theorem nodes_are_safe (p q : list block_header_state) (s t : block_header_state) :
  crc_width -> node_network -> U p -> U q -> last p = Some s -> last q = Some t -> final_num s <= final_num t ->
  final_branch p `prefix_of` final_branch q.
Proof.
  intros Hcrc N Hp Hq Hs Ht. pose proof (nw_universe _ _ _ _ _ (nn_chain N)) as Un.
  assert (Hg : U [g]) by exact (genesis_valid (tree_ok := branch_tree_ok Un) p Hp).
  destruct (nodes_network Hcrc N Hg) as [hist Hn]. by apply (final_branches_agree U g pol faulty hist Hn).
Qed.
End Network.

(** ** The property on concrete nodes *)

#[local] Existing Instances example_bls example_hash example_hash_words unit_bls example_sign example_crc.

(** The network of [Safety], its three finalizers that are not faulty on one
    node, which restarts between the two blocks it votes for and then sees the
    certificate that its votes made. *)
Definition net_keys : list (bls_public_key * list Z) := map (fun i => (repeat i 96, [i])) [3; 1; 2].
Definition net_branch_of (s : block_state) : list block_header_state :=
  default [] (find (fun p => bool_decide (last_id p = id (bhs s))) net_branches).

Definition net_node_0 : my_finalizers_t := Eval vm_compute in
  from_ok (new_my_finalizers None) (set_keys (new_my_finalizers None) net_keys).
Definition net_node_1 : my_finalizers_t := Eval vm_compute in set_default_safety_information net_node_0 net_fsi.
Definition net_node_2 : list vote_t * my_finalizers_t := Eval vm_compute in example_node net_node_1 (net_state net_1).
Definition net_node_3 : my_finalizers_t := Eval vm_compute in
  from_ok (new_my_finalizers None) (set_keys (new_my_finalizers (safety_file net_node_2.2)) net_keys).
Definition net_node_4 : my_finalizers_t := Eval vm_compute in
  from_ok (new_my_finalizers None) (maybe_update_fsi disk_ok net_node_3 (net_state net_1) (net_qc 11)).
Definition net_node_5 : list vote_t * my_finalizers_t := Eval vm_compute in example_node net_node_4 (net_state net_2).
Definition net_log_1 : list (vote_message * block_state) := map (fun v => (v.1.1, net_state net_1)) net_node_2.1.
Definition net_log : list (vote_message * block_state) :=
  net_log_1 ++ map (fun v => (v.1.1, net_state net_2)) net_node_5.1.

Lemma net_block_ok s : s ∈ [net_1; net_2] -> block_ok (net_state s).
Proof.
  rewrite !elem_of_cons. intros [->|[->|Hn]]; [..|by apply elem_of_nil in Hn].
  all: split; [|by vm_compute|apply Forall_forall; intros r Hr; apply list_elem_of_In in Hr; vm_compute in Hr].
  all: repeat match goal with H : _ \/ _ |- _ => destruct H as [<-|H] | H : False |- _ => destruct H end.
  all: repeat match goal with |- _ /\ _ => split end; by vm_compute.
Qed.

Lemma net_placed s p n : s ∈ [net_1; net_2] -> net_branches !! n = Some p -> net_branch_of (net_state s) = p ->
  last p = Some s -> placed net net_branch_of (net_state s).
Proof. intros Hs Hp E Hl. split; [rewrite E; by apply (net_in n)|by rewrite E|by apply net_block_ok]. Qed.

Lemma net_placed_1 : placed net net_branch_of (net_state net_1).
Proof. apply (net_placed net_1 [net_0; net_1] 1); [set_solver|by vm_compute..]. Qed.
Lemma net_placed_2 : placed net net_branch_of (net_state net_2).
Proof. apply (net_placed net_2 [net_0; net_1; net_2] 2); [set_solver|by vm_compute..]. Qed.

Lemma net_keys_ok : Forall (fun p => key_ok p.1) net_keys.
Proof. repeat constructor. Qed.

Lemma net_correct_run C : correct_run net net_0 C net_branch_of net_node_5.2 net_log.
Proof.
  apply (correct_vote _ _ _ _ net_node_4 net_log_1 disk_ok (net_state net_2) net_node_5.1 net_node_5.2);
    [|exact net_placed_2|by vm_compute].
  apply (correct_update _ _ _ _ net_node_3 net_log_1 disk_ok (net_state net_1) (net_qc 11) net_node_4);
    [|exact net_placed_1| |by vm_compute].
  2:{ intros k Hk _. assert (H : Forall (fun k => published net_branch_of k net_log_1 = [(net_branch_of (net_state net_1), true)])
        (map fst (my_finalizers net_node_3))).
      { repeat (constructor; [by vm_compute|]). constructor. }
      rewrite Forall_forall in H. rewrite (H k Hk). by left. }
  apply (correct_restart _ _ _ _ net_node_2.2 net_log_1 net_keys net_node_3); [|done|exact net_keys_ok|by vm_compute..].
  apply (correct_vote _ _ _ _ net_node_1 [] disk_ok (net_state net_1) net_node_2.1 net_node_2.2);
    [|exact net_placed_1|by vm_compute].
  apply (correct_default _ _ _ _ net_node_0 [] net_fsi).
  - apply (correct_restart _ _ _ _ (new_my_finalizers None) [] net_keys net_node_0);
      [constructor|done|exact net_keys_ok|by vm_compute..].
  - split; [split; repeat match goal with |- _ /\ _ => split | |- ref_wf _ => split end; by vm_compute|].
    split; [by vm_compute|]. exists [net_0]. split; [split; [by apply (net_in 0)|by left]|by split].
Qed.

Lemma net_pub i : honest net_faulty i -> pub net_branch_of net_policy (fun _ => net_log) i = net_hist i.
Proof. intros Hh. destruct i as [|[|[|[|i]]]]; [by vm_compute..|by destruct Hh|done]. Qed.

Lemma net_node_network : node_network net net_0 net_branch_of net_policy net_faulty (fun _ => net_log).
Proof.
  split.
  - apply (chain_ok_more _ _ _ _ net_hist); [|apply (nw_chain _ _ _ _ _ net_network)].
    intros i v Hh. by rewrite net_pub.
  - intros i _ _. exists net_node_5.2. apply net_correct_run.
Qed.

Lemma nodes_are_safe_witness :
  length net_log = 6%nat /\ final_num net_fork < final_num net_3 /\
  final_branch [net_0; net_1; net_fork] `prefix_of` final_branch [net_0; net_1; net_2; net_3].
Proof.
  split; [by vm_compute|]. split; [by vm_compute|].
  apply (nodes_are_safe net net_0 net_branch_of net_policy net_faulty (fun _ => net_log)
    [net_0; net_1; net_fork] [net_0; net_1; net_2; net_3] net_fork net_3);
    [exact example_crc_width|exact net_node_network|by apply (net_in 4)|by apply (net_in 3)|done|done|by vm_compute].
Defined.
