(* ===== verification/ForkDatabase.v ===== *)
(** * The fork database

    [fork_database.hpp] and [fork_database.cpp]: the tree of the reversible
    blocks over the last irreversible one, its root.  The class template is over
    the type of its blocks; so is this file, over the class [ForkBlock].  The
    multi-index container is a map from ids to blocks; [head_impl] picks the
    first block of the best-branch order, and the order in which equal keys of
    the other indexes are visited cannot be observed.  Every operation runs under
    the database's mutex, so operations are atomic.  The loops that follow
    [previous] are bounded by the size of the index; the theorems show that the
    bound is never reached in a database the operations can make. *)

From stdpp Require Import sorting.
From S2P Require Import Prelude ChainTypes FinalityCore Policies Qc Raw BlockHeader BlockHeaderState BlockState.
From S2P Require Import Finalizer VoteSafety Branch Safety.

(** ** Blocks and the database *)

(** What the template uses of a block state.  [fb_rank] is the pair of numbers
    the best-branch order compares before the ids.  [fb_qc_claim] is [None] for
    legacy blocks, for which the code that uses it is not compiled;
    [fb_claimed_lib] is the id of the block that the core's latest claim is on.
    [fb_reopened] is what the packing and unpacking of a block in the file give:
    not all members are written, and some are made anew. *)
Class ForkBlock (B : Type) := {
  fb_id : B -> block_id_type;
  fb_previous : B -> block_id_type;
  fb_num : B -> Z;
  fb_timestamp : B -> block_timestamp_type;
  fb_rank : B -> Z * Z;
  fb_is_valid : B -> bool;
  fb_set_valid : B -> bool -> B;
  fb_features : B -> list digest_type;
  fb_new_features : B -> option (list digest_type);
  fb_qc_claim : B -> result (option qc_claim_t);
  fb_claimed_lib : B -> result block_id_type;
  fb_reopened : B -> result B
}.

Inductive fork_db_add_t : Set := add_failure | add_duplicate | add_added | add_appended_to_head | add_fork_switch.

Record fork_database (B : Type) : Type := ForkDatabase {
  root : option B;
  pending_savanna_lib_id : block_id_type;
  index : gmap block_id_type B
}.
Arguments ForkDatabase {B}.
Arguments root {B}.
Arguments pending_savanna_lib_id {B}.
Arguments index {B}.

Section Operations.
Context {B : Type} {fork_block : ForkBlock B}.
Implicit Types (db : fork_database B) (b n : B).

(** ** Lookups *)

(** The blocks met by the loops that start at [index.find(id)] and go on with
    [index.find] of the block's [previous()] until there is none. *)
Fixpoint walk (fuel : nat) (idx : gmap block_id_type B) (id : block_id_type) : list B :=
  match fuel with
  | O => []
  | S fuel =>
      match idx !! id with
      | Some b => b :: walk fuel idx (fb_previous b)
      | None => []
      end
  end.
Definition walk_from db (id : block_id_type) : list B := walk (S (size (index db))) (index db) id.

Definition get_block db (id : block_id_type) (include_root : bool) : option B :=
  match root db with
  | Some r => if include_root && bool_decide (fb_id r = id) then Some r else index db !! id
  | None => index db !! id
  end.

Definition block_exists db (id : block_id_type) : bool := bool_decide (is_Some (index db !! id)).

(** The loop of [validated_block_exists_impl]: the answer of an early return. *)
Fixpoint find_validated (claimed_id : block_id_type) (l : list B) : option bool :=
  match l with
  | [] => None
  | b :: l =>
      if fb_is_valid b then Some true
      else if decide (fb_id b = claimed_id) then Some false
      else find_validated claimed_id l
  end.

Definition validated_block_exists db (id claimed_id : block_id_type) : result bool :=
  let l := walk_from db id in
  match find_validated claimed_id l with
  | Some v => Ok v
  | None =>
      r ← at_or_assert (root db);
      let id_present := match l with [] => false | _ => true end in
      ASSERT negb id_present || (num_from_id claimed_id <=? num_from_id (fb_id r)) ;;
      Ok (id_present || bool_decide (id = fb_id r))
  end.

(** ** The best branch *)

(** The composite key comparison: a greater rank first, a greater id to break ties. *)
Definition better (a b : B) : bool :=
  let '(a1, a2) := fb_rank a in
  let '(b1, b2) := fb_rank b in
  (b1 <? a1) || ((b1 =? a1) && ((b2 <? a2) || ((b2 =? a2) &&
    match sha256_compare (fb_id b) (fb_id a) with Lt => true | _ => false end))).

Definition best_of (l : list B) : option B :=
  foldr (fun b acc => match acc with Some c => Some (if better c b then c else b) | None => Some b end) None l.

Definition head db (include_root : bool) : option B :=
  match map_to_list (index db) with
  | [] => if include_root then root db else None
  | l => best_of (map snd l)
  end.

(** ** Branches *)

Definition fetch_branch db (h : block_id_type) (trim_after_block_num : Z) : list B :=
  filter (fun b => fb_num b <= trim_after_block_num) (walk_from db h).

(** [fetch_branch(h, b)]: the branch of [h] from [b] down. *)
Fixpoint from_block (b : block_id_type) (l : list B) : list B :=
  match l with
  | [] => []
  | x :: l' => if decide (fb_id x = b) then l else from_block b l'
  end.
Definition fetch_branch_from_block db (h b : block_id_type) : list B := from_block b (walk_from db h).

(** The pointers of the branch and the one to the root. *)
Definition fetch_full_branch db (h : block_id_type) : list (option B) := map Some (walk_from db h) ++ [root db].

Definition search_on_branch db (h : block_id_type) (block_num : Z) (include_root : bool) : option B :=
  match root db with
  | None => None
  | Some r =>
      if include_root && (fb_num r =? block_num) then Some r
      else if block_num <=? fb_num r then None
      else list_find (fun b => fb_num b = block_num) (walk_from db h) ≫= fun p => Some p.2
  end.

Definition search_on_head_branch db (block_num : Z) (include_root : bool) : option B :=
  match head db include_root with
  | None => None
  | Some h => search_on_branch db (fb_id h) block_num include_root
  end.

Fixpoint finds_ancestor (ancestor : block_id_type) (l : list B) : bool :=
  match l with
  | [] => false
  | b :: l =>
      if decide (fb_previous b = ancestor) then true
      else if fb_num b <=? wrap32 (num_from_id ancestor + 1) then false
      else finds_ancestor ancestor l
  end.

Definition is_descendant_of db (ancestor descendant : block_id_type) : bool :=
  if num_from_id descendant <=? num_from_id ancestor then false
  else finds_ancestor ancestor (walk_from db descendant).

Definition is_descendant_of_pending_savanna_lib db (id : block_id_type) : bool :=
  if decide (pending_savanna_lib_id db = id) then true
  else is_descendant_of db (pending_savanna_lib_id db) id.

(** [(id == root->id()) ? root : get_block_impl(id)], which must be there. *)
Definition block_or_root db (id : block_id_type) : result B :=
  r ← at_or_assert (root db);
  if decide (id = fb_id r) then Ok r
  else match index db !! id with Some b => Ok b | None => Throw fork_db_block_not_found end.

(** The first two loops of [fetch_branch_from_impl]: down to a block number. *)
Fixpoint descend_to (fuel : nat) db (num : Z) (b : B) : result (list B * B) :=
  if fb_num b <=? num then Ok ([], b)
  else match fuel with
       | O => Throw assert_failed
       | S fuel =>
           prev ← block_or_root db (fb_previous b);
           rest ← descend_to fuel db num prev;
           Ok (b :: rest.1, rest.2)
       end.

(** The third: down both branches to a common parent. *)
Fixpoint descend_both (fuel : nat) db (first second : B) : result (list B * list B) :=
  if decide (fb_previous first = fb_previous second) then Ok ([first], [second])
  else match fuel with
       | O => Throw assert_failed
       | S fuel =>
           match index db !! fb_previous first, index db !! fb_previous second with
           | Some f, Some s => rest ← descend_both fuel db f s; Ok (first :: rest.1, second :: rest.2)
           | _, _ => Throw fork_db_block_not_found
           end
       end.

Definition fetch_branch_from db (first second : block_id_type) : result (list B * list B) :=
  let fuel := S (size (index db)) in
  first_branch ← block_or_root db first;
  second_branch ← block_or_root db second;
  a ← descend_to fuel db (fb_num second_branch) first_branch;
  b ← descend_to fuel db (fb_num a.2) second_branch;
  if decide (fb_id a.2 = fb_id b.2) then Ok (a.1, b.1)
  else both ← descend_both fuel db a.2 b.2; Ok (a.1 ++ both.1, b.1 ++ both.2).

(** ** Changes *)

Definition reset_root (root_bsp : B) : fork_database B :=
  ForkDatabase (Some (fb_set_valid root_bsp true)) sha256_default ∅.

Definition set_pending_savanna_lib_id db (id : block_id_type) : bool * fork_database B :=
  if num_from_id (pending_savanna_lib_id db) <? num_from_id id then (true, ForkDatabase (root db) id (index db))
  else (false, db).

(** The ids of the blocks whose [previous] is [id]. *)
Definition children (idx : gmap block_id_type B) (id : block_id_type) : list block_id_type :=
  map fst (filter (fun p => fb_previous p.2 = id) (map_to_list idx)).

(** The loop that fills [remove_queue]; [done] of its elements have been looked at. *)
Fixpoint fill_remove_queue (fuel : nat) (idx : gmap block_id_type B) (looked_at : nat) (queue : list block_id_type) :
    list block_id_type :=
  match queue !! looked_at with
  | None => queue
  | Some id =>
      match fuel with
      | O => queue
      | S fuel => fill_remove_queue fuel idx (S looked_at) (queue ++ children idx id)
      end
  end.

Definition erase_all (idx : gmap block_id_type B) (ids : list block_id_type) : gmap block_id_type B :=
  foldl (fun idx id => delete id idx) idx ids.

Definition remove_from (idx : gmap block_id_type B) (id : block_id_type) : gmap block_id_type B :=
  erase_all idx (fill_remove_queue (S (size idx)) idx 0 [id]).

(** [remove(block_id)] *)
Definition remove db (id : block_id_type) : fork_database B :=
  ForkDatabase (root db) (pending_savanna_lib_id db) (remove_from (index db) id).

(** [remove(block_num)] *)
Definition remove_num db (block_num : Z) : fork_database B :=
  ForkDatabase (root db) (pending_savanna_lib_id db) (filter (fun p => fb_num p.2 < block_num) (index db)).

(** The loop of [advance_root_impl] that collects [blocks_to_remove]. *)
Fixpoint blocks_to_remove (fuel : nat) (idx : gmap block_id_type B) (root_id : block_id_type) (b : B) :
    result (list block_id_type) :=
  match fuel with
  | O => Throw assert_failed
  | S fuel =>
      match idx !! fb_previous b with
      | Some p => rest ← blocks_to_remove fuel idx root_id p; Ok (fb_previous b :: rest)
      | None => EOS_ASSERT bool_decide (fb_previous b = root_id) ,, fork_database_exception ;; Ok [fb_previous b]
      end
  end.

Definition advance_root db (id : block_id_type) : result (fork_database B) :=
  match root db with
  | None => Throw fork_database_exception
  | Some r =>
      match get_block db id false with
      | None => Throw fork_database_exception
      | Some new_root =>
          EOS_ASSERT fb_is_valid new_root ,, fork_database_exception ;;
          ids ← blocks_to_remove (S (size (index db))) (index db) (fb_id r) new_root;
          Ok (ForkDatabase (Some new_root) (pending_savanna_lib_id db) (foldl remove_from (delete id (index db)) ids))
      end
  end.

(** The pending last irreversible block, after the certificate [n] claims. *)
Definition add_claim db n : result (fork_database B) :=
  claim ← fb_qc_claim n;
  match claim with
  | Some qc_claim =>
      if is_strong_qc qc_claim && (num_from_id (pending_savanna_lib_id db) <? claim_block_num qc_claim) then
        match search_on_branch db (fb_previous n) (claim_block_num qc_claim) false with
        | Some claimed => lib ← fb_claimed_lib claimed; Ok (set_pending_savanna_lib_id db lib).2
        | None => Ok db
        end
      else Ok db
  | None => Ok db
  end.

(** What the controller does through the pointer that [get_block] returns, when
    it has executed a block that is in the database. *)
Definition mark_valid db (id : block_id_type) : result (fork_database B) :=
  existing ← at_or_assert (get_block db id false);
  Ok (ForkDatabase (root db) (pending_savanna_lib_id db) (<[id := fb_set_valid existing true]> (index db))).

(** [add_impl]; the validator is run when blocks are read back from a file. *)
Definition add db n (ignore_duplicate : bool) (validator : option validator_t) :
    result (fork_db_add_t * fork_database B) :=
  match root db with
  | None => Throw fork_database_exception
  | Some _ =>
      db ← add_claim db n;
      match get_block db (fb_previous n) true with
      | None => Throw unlinkable_block_exception
      | Some prev_bh =>
          _ ← (match validator, fb_new_features n with
               | Some v, Some features =>
                   match v (fb_timestamp n) (fb_features prev_bh) features with
                   | Ok _ => Ok ()
                   | Throw _ => Throw fork_database_exception
                   end
               | _, _ => Ok ()
               end);
          prev_head ← at_or_assert (head db true);
          if decide (is_Some (index db !! fb_id n)) then
            EOS_ASSERT ignore_duplicate ,, fork_database_exception ;; Ok (add_duplicate, db)
          else
            let db' := ForkDatabase (root db) (pending_savanna_lib_id db) (<[fb_id n := n]> (index db)) in
            let new_head := match head db' false with Some h => bool_decide (fb_id h = fb_id n) | None => false end in
            Ok (if new_head then
                  (if decide (fb_previous n = fb_id prev_head) then add_appended_to_head else add_fork_switch)
                else add_added, db')
      end
  end.

(** The database [add_impl] leaves when it returns or throws: an exception
    comes after the pending id has moved. *)
Definition add_after db n (ignore_duplicate : bool) (validator : option validator_t) : fork_database B :=
  match root db, add db n ignore_duplicate validator with
  | None, _ => db
  | _, Ok (_, db') => db'
  | _, Throw _ => from_ok db (add_claim db n)
  end.

(** ** Persistence *)

(** [std::sort] by the best-branch order, the worst block first: the order in
    which [close_impl] visits the index. *)
Fixpoint insert_worst_first (b : B) (l : list B) : list B :=
  match l with
  | [] => [b]
  | c :: l' => if better b c then c :: insert_worst_first b l' else b :: l
  end.
Definition worst_first (l : list B) : list B := foldr insert_worst_first [] l.

(** What [close_impl] packs: the pending id, the root and the blocks. *)
Definition close db : result (block_id_type * B * list B) :=
  r ← at_or_assert (root db);
  Ok (pending_savanna_lib_id db, r, worst_first (map snd (map_to_list (index db)))).

(** [open_impl], on what was packed. *)
Definition open (stored : block_id_type * B * list B) (validator : validator_t) : result (fork_database B) :=
  let '(savanna_lib_id, r, blocks) := stored in
  r ← fb_reopened r;
  let db := (set_pending_savanna_lib_id (reset_root r) savanna_lib_id).2 in
  foldM (fun db b => b ← fb_reopened b; r ← add db b false (Some validator); Ok r.2) db blocks.

End Operations.

(** ** The tree *)

#[local] Opaque num_from_id sha256_compare.

(** Marking a block, and writing and reading it, do not change what the database
    keys and links it by. *)
Class ForkBlockOk (B : Type) {fork_block : ForkBlock B} : Prop := {
  set_valid_id (b : B) v : fb_id (fb_set_valid b v) = fb_id b;
  set_valid_previous (b : B) v : fb_previous (fb_set_valid b v) = fb_previous b;
  set_valid_num (b : B) v : fb_num (fb_set_valid b v) = fb_num b;
  set_valid_rank (b : B) v : fb_rank (fb_set_valid b v) = fb_rank b;
  set_valid_valid (b : B) v : fb_is_valid (fb_set_valid b v) = v;
  set_valid_same (b : B) v : fb_is_valid b = v -> fb_set_valid b v = b;
  reopened_same (b c : B) : fb_reopened b = Ok c ->
    fb_id c = fb_id b /\ fb_previous c = fb_previous b /\ fb_num c = fb_num b /\ fb_rank c = fb_rank b /\ fb_is_valid c = fb_is_valid b
}.

Section Tree.
Context {B : Type} {fork_block : ForkBlock B}.
Implicit Types (db : fork_database B) (b n r : B) (idx : gmap block_id_type B) (i stop : block_id_type) (l : list B).

(** A block's id and its parent's carry its number. *)
Record fork_block_wf b : Prop := {
  bw_num : num_from_id (fb_id b) = fb_num b;
  bw_previous : num_from_id (fb_previous b) + 1 = fb_num b;
  bw_id : sha256_wf (fb_id b)
}.

(** Every block is under its id and links to the root or to a block of the
    index. *)
Record index_inv idx r : Prop := {
  ii_key : forall i b, idx !! i = Some b -> fb_id b = i /\ fork_block_wf b;
  ii_link : forall i b, idx !! i = Some b -> fb_previous b = fb_id r \/ is_Some (idx !! fb_previous b);
  ii_root : idx !! fb_id r = None;
  ii_root_num : num_from_id (fb_id r) = fb_num r
}.

Record fdb_inv db r : Prop := {
  fd_root : root db = Some r;
  fd_index : index_inv (index db) r;
  fd_valid : fb_is_valid r = true
}.

(** [path idx stop i l]: from [i] the links lead over [l] to [stop]. *)
Inductive path idx stop : block_id_type -> list B -> Prop :=
| path_stop : path idx stop stop []
| path_step i b l : idx !! i = Some b -> path idx stop (fb_previous b) l -> path idx stop i (b :: l).

Section Index.
Context {idx : gmap block_id_type B} {r : B} (I : index_inv idx r).

Lemma index_num i b : idx !! i = Some b -> fb_num b = num_from_id i.
Proof. intros H. by destruct (ii_key _ _ I _ _ H) as [<- [-> _ _]]. Qed.

Lemma index_previous i b : idx !! i = Some b -> num_from_id (fb_previous b) = fb_num b - 1.
Proof. intros H. destruct (ii_key _ _ I _ _ H) as [_ [_ Hp _]]. lia. Qed.

Lemma path_exists i b : idx !! i = Some b -> exists l, path idx (fb_id r) i (b :: l).
Proof.
  remember (Z.to_nat (fb_num b)) as n eqn:En. revert i b En. induction n as [n IH] using lt_wf_ind. intros i b En Hi.
  destruct (ii_link _ _ I _ _ Hi) as [E|[p Hp]].
  - exists []. apply path_step; [done|]. rewrite E. constructor.
  - pose proof (index_previous _ _ Hi) as Hn. pose proof (index_num _ _ Hp) as Hm.
    pose proof (num_from_id_u32 (fb_previous b)) as [Hpos _].
    destruct (IH (Z.to_nat (fb_num p)) ltac:(lia) (fb_previous b) p eq_refl Hp) as [l Hl].
    exists (p :: l). by apply path_step.
Qed.

Lemma path_length i l : path idx (fb_id r) i l -> Z.of_nat (length l) = num_from_id i - fb_num r.
Proof.
  induction 1 as [|i b l Hi _ IH].
  - rewrite (ii_root_num _ _ I). cbn. lia.
  - pose proof (index_num _ _ Hi). pose proof (index_previous _ _ Hi). cbn [length]. lia.
Qed.

Lemma path_lookup i l j b : path idx (fb_id r) i l -> l !! j = Some b ->
  idx !! fb_id b = Some b /\ fb_num b = num_from_id i - Z.of_nat j.
Proof.
  intros H. revert j. induction H as [|i c l Hi _ IH]; intros [|j] Hj; cbn in Hj; try done.
  - injection Hj as <-. destruct (ii_key _ _ I _ _ Hi) as [-> _]. split; [done|]. rewrite (index_num _ _ Hi). lia.
  - destruct (IH _ Hj) as [H1 H2]. split; [done|]. rewrite H2, (index_previous _ _ Hi), (index_num _ _ Hi). lia.
Qed.

Lemma path_NoDup i l : path idx (fb_id r) i l -> NoDup (map fb_id l).
Proof.
  intros H. apply NoDup_alt. intros j k x Hj Hk. rewrite list_lookup_fmap in Hj, Hk.
  apply fmap_Some in Hj as (a & Ha & ->), Hk as (b & Hb & Eb).
  destruct (path_lookup _ _ _ _ H Ha) as [Ia Na], (path_lookup _ _ _ _ H Hb) as [Ib Nb].
  rewrite Eb, Ib in Ia. injection Ia as ->. lia.
Qed.

Lemma path_size i l : path idx (fb_id r) i l -> (length l <= size idx)%nat.
Proof.
  intros H. pose proof (path_NoDup _ _ H) as Hnd. rewrite <- (length_map fb_id l), <- size_dom.
  rewrite <- (size_list_to_set (C := gset block_id_type) _ Hnd). apply subseteq_size.
  intros x Hx. apply elem_of_list_to_set, list_elem_of_In, in_map_iff in Hx as (b & <- & Hb).
  apply list_elem_of_In, list_elem_of_lookup in Hb as [j Hj]. apply elem_of_dom.
  destruct (path_lookup _ _ _ _ H Hj) as [-> _]. done.
Qed.

Lemma walk_path fuel i l : path idx (fb_id r) i l -> (length l <= fuel)%nat -> walk (S fuel) idx i = l.
Proof.
  intros H. revert fuel. induction H as [|i b l Hi _ IH]; intros fuel Hf; cbn [walk].
  - by rewrite (ii_root _ _ I).
  - rewrite Hi. f_equal. cbn in Hf. destruct fuel as [|fuel]; [lia|]. apply IH. lia.
Qed.

Lemma path_unique i l l' : path idx (fb_id r) i l -> path idx (fb_id r) i l' -> l = l'.
Proof.
  intros H H'. rewrite <- (walk_path (size idx) _ _ H), <- (walk_path (size idx) _ _ H') by by eapply path_size. done.
Qed.

(** Every walk goes down to the root, from a block of the index. *)
Lemma walk_index i b : idx !! i = Some b -> exists l, path idx (fb_id r) i (b :: l) /\ walk (S (size idx)) idx i = b :: l.
Proof.
  intros Hi. destruct (path_exists _ _ Hi) as [l Hl]. exists l. split; [done|]. apply walk_path; [done|]. by eapply path_size.
Qed.

Lemma index_above_root i b : idx !! i = Some b -> fb_num r < fb_num b.
Proof.
  intros Hi. destruct (path_exists _ _ Hi) as [l Hl%path_length]. rewrite (index_num _ _ Hi). cbn [length] in Hl. lia.
Qed.
End Index.

Lemma walk_absent fuel idx i : idx !! i = None -> walk (S fuel) idx i = [].
Proof. intros H. cbn. by rewrite H. Qed.

(** [below idx a i]: the block [a] is met, as a parent, on the way down from [i]. *)
Definition below idx (a i : block_id_type) : Prop := a ∈ map fb_previous (walk (S (size idx)) idx i).

Lemma below_step idx r a i b : index_inv idx r -> idx !! i = Some b ->
  below idx a i <-> fb_previous b = a \/ below idx a (fb_previous b).
Proof.
  intros I Hi. unfold below. destruct (walk_index I _ _ Hi) as (l & Hp & ->). cbn [map]. rewrite elem_of_cons.
  inversion Hp as [|i' b' l' Hi' Hp']; simplify_eq.
  rewrite (walk_path I (size idx) _ _ Hp') by by eapply (path_size I). split; intros [->|]; auto.
Qed.

Lemma below_num idx r a i b : index_inv idx r -> idx !! i = Some b -> below idx a i -> num_from_id a < num_from_id i.
Proof.
  intros I Hi Ha. unfold below in Ha. destruct (walk_index I _ _ Hi) as (l & Hp & E). rewrite E in Ha.
  apply list_elem_of_In, in_map_iff in Ha as (c & <- & Hc). apply list_elem_of_In, list_elem_of_lookup in Hc as [j Hj].
  destruct (path_lookup I _ _ _ _ Hp Hj) as [Ic Nc]. rewrite (index_previous I _ _ Ic). lia.
Qed.
End Tree.

(** ** Removal *)

Section Removal.
Context {B : Type} {fork_block : ForkBlock B}.
Implicit Types (db : fork_database B) (b n r : B) (idx m : gmap block_id_type B) (i a : block_id_type).

(** [descends idx a i]: the block [i] is in the index, and [a] is its parent or
    is reached from it over blocks of the index. *)
Inductive descends idx a : block_id_type -> Prop :=
| descends_child i b : idx !! i = Some b -> fb_previous b = a -> descends idx a i
| descends_step i b : idx !! i = Some b -> descends idx a (fb_previous b) -> descends idx a i.

Definition keys_wf idx : Prop := forall i b, idx !! i = Some b -> fb_id b = i /\ fork_block_wf b.

Lemma descends_in idx a i : descends idx a i -> is_Some (idx !! i).
Proof. by destruct 1 as [? ? ->|? ? ->]. Qed.

Lemma descends_num idx a i : keys_wf idx -> descends idx a i -> num_from_id a < num_from_id i.
Proof.
  intros W. induction 1 as [i b Hi <-|i b Hi _ IH]; destruct (W _ _ Hi) as [<- [? ? _]]; lia.
Qed.

Lemma descends_inv idx a i b : idx !! i = Some b -> descends idx a i -> fb_previous b = a \/ descends idx a (fb_previous b).
Proof. intros Hi H. destruct H; simplify_eq; auto. Qed.

Lemma descends_subseteq idx m a i : m ⊆ idx -> descends m a i -> descends idx a i.
Proof.
  intros Hm. induction 1 as [i b Hi Ha|i b Hi _ IH].
  - eapply descends_child; [by eapply lookup_weaken|done].
  - eapply descends_step; [by eapply lookup_weaken|done].
Qed.

Lemma children_spec idx a i : i ∈ children idx a <-> exists b, idx !! i = Some b /\ fb_previous b = a.
Proof.
  unfold children. rewrite list_elem_of_In, in_map_iff. setoid_rewrite <- list_elem_of_In. split.
  - intros ([j b] & <- & [Hb Hj%elem_of_map_to_list]%list_elem_of_filter). by exists b.
  - intros (b & Hi & Hb). exists (i, b). split; [done|]. apply list_elem_of_filter. by rewrite elem_of_map_to_list.
Qed.

Lemma children_NoDup idx a : NoDup (children idx a).
Proof.
  unfold children. eapply sublist_NoDup; [apply (NoDup_fst_map_to_list idx)|]. apply (fmap_sublist fst), sublist_filter.
Qed.

(** The queue while it is filled, [k] of its elements looked at. *)
Record queue_inv idx a (k : nat) (queue : list block_id_type) : Prop := {
  qi_NoDup : NoDup queue;
  qi_start : a ∈ queue;
  qi_sound : forall i, i ∈ queue -> i = a \/ descends idx a i;
  qi_parent : forall i, i ∈ queue -> i = a \/ exists b j, idx !! i = Some b /\ queue !! j = Some (fb_previous b) /\ (j < k)%nat;
  qi_closed : forall j p i, (j < k)%nat -> queue !! j = Some p -> i ∈ children idx p -> i ∈ queue
}.

Lemma queue_length idx a k queue : queue_inv idx a k queue -> (length queue <= S (size idx))%nat.
Proof.
  intros [Hnd _ Hs _ _]. rewrite <- size_dom.
  rewrite <- (size_list_to_set (C := gset block_id_type) _ Hnd).
  transitivity (size ({[a]} ∪ dom idx : gset block_id_type)).
  - apply subseteq_size. intros i Hi%elem_of_list_to_set. destruct (Hs i Hi) as [->|Hd]; [set_solver|].
    apply descends_in, elem_of_dom in Hd. set_solver.
  - rewrite size_union_alt, size_singleton. pose proof (subseteq_size (dom idx ∖ {[a]}) (dom idx) ltac:(set_solver)). lia.
Qed.

Lemma queue_step idx a k queue p : keys_wf idx ->
  queue_inv idx a k queue -> queue !! k = Some p -> queue_inv idx a (S k) (queue ++ children idx p).
Proof.
  intros W [Hnd Ha Hs Hp Hc] Hk. pose proof (list_elem_of_lookup_2 _ _ _ Hk) as Hpq.
  assert (Hdesc : forall i, i ∈ children idx p -> descends idx a i).
  { intros i (b & Hi & Hb)%children_spec. destruct (Hs p Hpq) as [->|Hd]; [by eapply descends_child|].
    eapply descends_step; [done|]. by rewrite Hb. }
  split.
  - apply NoDup_app. split_and!; [done| |apply children_NoDup]. intros i Hi Hin.
    pose proof (descends_num _ _ _ W (Hdesc i Hin)) as Hn. apply children_spec in Hin as (b & Hb & Eb).
    destruct (Hp i Hi) as [->|(b' & j & Hb' & Hj & Hlt)]; [lia|]. rewrite Hb in Hb'. injection Hb' as <-.
    rewrite Eb in Hj. pose proof (NoDup_lookup _ _ _ _ Hnd Hj Hk). lia.
  - apply elem_of_app. by left.
  - intros i [Hi|Hi]%elem_of_app; auto.
  - intros i [Hi|Hi]%elem_of_app; [destruct (Hp i Hi) as [|(b & j & ? & Hj & ?)]; [by left|right]|right].
    + exists b, j. split_and!; [done|by apply lookup_app_l_Some|lia].
    + apply children_spec in Hi as (b & Hb & <-). exists b, k. split_and!; [done|by apply lookup_app_l_Some|lia].
  - intros j q i Hj Hq Hi. apply elem_of_app. destruct (decide (j = k)) as [->|].
    + right. rewrite lookup_app_l in Hq by by eapply lookup_lt_Some. by simplify_eq.
    + left. pose proof (lookup_lt_Some _ _ _ Hk). rewrite lookup_app_l in Hq by lia. eapply (Hc j q); [lia|done|done].
Qed.

Lemma fill_queue_inv fuel idx a k queue : keys_wf idx -> queue_inv idx a k queue -> (k + fuel = S (size idx))%nat ->
  exists k', (length (fill_remove_queue fuel idx k queue) <= k')%nat /\ queue_inv idx a k' (fill_remove_queue fuel idx k queue).
Proof.
  intros W. revert k queue. induction fuel as [|fuel IH]; intros k queue Q Hf; cbn [fill_remove_queue];
    destruct (queue !! k) as [p|] eqn:E.
  - pose proof (queue_length _ _ _ _ Q). apply lookup_lt_Some in E. lia.
  - exists k. split; [by apply lookup_ge_None|done].
  - apply IH; [by apply queue_step|lia].
  - exists k. split; [by apply lookup_ge_None|done].
Qed.

Lemma fill_queue_spec idx a i : keys_wf idx ->
  i ∈ fill_remove_queue (S (size idx)) idx 0 [a] <-> i = a \/ descends idx a i.
Proof.
  intros W. destruct (fill_queue_inv (S (size idx)) idx a 0 [a] W) as (k & Hk & Q); [|done|].
  { split; [by apply NoDup_singleton|by left|intros x ->%list_elem_of_singleton; by left|
      intros x ->%list_elem_of_singleton; by left|lia]. }
  set (q := fill_remove_queue _ _ _ _) in *. split; [apply (qi_sound _ _ _ _ Q)|].
  assert (Hc : forall p x c, p ∈ q -> idx !! x = Some c -> fb_previous c = p -> x ∈ q).
  { intros p x c [j Hj]%list_elem_of_lookup Hx Ec. eapply (qi_closed _ _ _ _ Q j p); [|done|].
    - apply lookup_lt_Some in Hj. lia.
    - apply children_spec. by exists c. }
  intros [->|Hd]; [apply (qi_start _ _ _ _ Q)|]. induction Hd as [i b Hi Hb|i b Hi _ IH].
  - by eapply (Hc a), Hb; [apply (qi_start _ _ _ _ Q)|].
  - by eapply (Hc _ i b IH).
Qed.

Lemma erase_all_lookup idx ids i : erase_all idx ids !! i = if decide (i ∈ ids) then None else idx !! i.
Proof.
  revert idx. induction ids as [|a ids IH]; intros idx; cbn [erase_all foldl].
  { rewrite decide_False; [done|]. apply not_elem_of_nil. }
  fold (erase_all (delete a idx) ids). rewrite IH. destruct (decide (i ∈ ids)); [rewrite decide_True by (by right); done|].
  destruct (decide (i = a)) as [->|Hne].
  - rewrite lookup_delete_eq, decide_True by by left. done.
  - rewrite lookup_delete_ne by done. rewrite decide_False; [done|]. by rewrite elem_of_cons; intros [|].
Qed.

(** [remove] removes the block and its descendants, and nothing else. *)
Lemma remove_from_lookup idx a i b : keys_wf idx ->
  remove_from idx a !! i = Some b <-> idx !! i = Some b /\ i <> a /\ ~ descends idx a i.
Proof.
  intros W. unfold remove_from. rewrite erase_all_lookup. case_decide as Hd; rewrite (fill_queue_spec _ _ _ W) in Hd; split; try done; tauto.
Qed.

Lemma remove_from_subseteq idx a : remove_from idx a ⊆ idx.
Proof.
  apply map_subseteq_spec. intros i b. unfold remove_from. rewrite erase_all_lookup. by case_decide.
Qed.

Lemma keys_wf_subseteq idx m : m ⊆ idx -> keys_wf idx -> keys_wf m.
Proof. intros Hm W i b Hi. apply W. by eapply lookup_weaken. Qed.

Lemma remove_all_subseteq idx ids : foldl remove_from idx ids ⊆ idx.
Proof.
  revert idx. induction ids as [|a ids IH]; intros idx; cbn [foldl]; [done|].
  etrans; [apply IH|apply remove_from_subseteq].
Qed.

(** No block loses its parent by a removal. *)
Definition links_to (ends : block_id_type -> Prop) idx : Prop :=
  forall i b, idx !! i = Some b -> ends (fb_previous b) \/ is_Some (idx !! fb_previous b).

Lemma remove_from_links ends idx a : keys_wf idx -> links_to ends idx -> links_to ends (remove_from idx a).
Proof.
  intros W L i b (Hi & Hne & Hd)%remove_from_lookup; [|done].
  destruct (L _ _ Hi) as [|[c Hc]]; [by left|right]. exists c. apply remove_from_lookup; [done|]. split_and!; [done| |].
  - intros E. by eapply Hd, descends_child.
  - intros Hp. by eapply Hd, descends_step.
Qed.

Lemma remove_all_links ends idx ids : keys_wf idx -> links_to ends idx -> links_to ends (foldl remove_from idx ids).
Proof.
  revert idx. induction ids as [|a ids IH]; intros idx W L; cbn [foldl]; [done|].
  apply IH; [by eapply keys_wf_subseteq, W; apply remove_from_subseteq|by apply remove_from_links].
Qed.

End Removal.

(** ** The best-branch order *)

Section Order.
Context {B : Type} {fork_block : ForkBlock B}.
Implicit Types (db : fork_database B) (a b c r : B) (l : list B).

(** The lexicographic order of ranks and ids. *)
Definition before (a b : B) : Prop :=
  let '(a1, a2) := fb_rank a in
  let '(b1, b2) := fb_rank b in
  b1 < a1 \/ b1 = a1 /\ (b2 < a2 \/ b2 = a2 /\ sha256_compare (fb_id b) (fb_id a) = Lt).

Lemma better_before a b : better a b = true <-> before a b.
Proof.
  unfold better, before. destruct (fb_rank a) as [a1 a2], (fb_rank b) as [b1 b2].
  destruct (sha256_compare (fb_id b) (fb_id a));
    rewrite ?orb_true_iff, ?andb_true_iff, ?orb_true_iff, ?andb_true_iff, !Z.ltb_lt, !Z.eqb_eq; intuition congruence.
Qed.

Lemma before_irrefl a : ~ before a a.
Proof.
  unfold before. destruct (fb_rank a). rewrite sha256_compare_refl. intros [?|[_ [?|[_ ?]]]]; (lia || done).
Qed.

Lemma before_trans a b c : before a b -> before b c -> before a c.
Proof.
  unfold before. destruct (fb_rank a), (fb_rank b), (fb_rank c).
  intros [?|[? [?|[? H1]]]] [?|[? [?|[? H2]]]]; try (left; lia); right; (split; [lia|]); try (left; lia).
  right. split; [lia|]. exact (sha256_compare_trans _ _ _ H2 H1).
Qed.

Lemma before_total a b : fork_block_wf a -> fork_block_wf b -> fb_id a <> fb_id b -> before a b \/ before b a.
Proof.
  intros [_ _ Wa] [_ _ Wb] Hne. unfold before. destruct (fb_rank a) as [a1 a2], (fb_rank b) as [b1 b2].
  destruct (Z.lt_total a1 b1) as [|[->|]]; [right; by left| |left; by left].
  destruct (Z.lt_total a2 b2) as [|[->|]]; [right; right; auto| |left; right; auto].
  destruct (sha256_compare (fb_id b) (fb_id a)) eqn:E.
  - destruct Hne. symmetry. by apply sha256_compare_eq.
  - left; right. split; [done|]. by right.
  - right; right. split; [done|]. right. split; [done|]. by rewrite sha256_compare_antisym, E.
Qed.

(** [h] is the first block of [l]. *)
Definition first_of (l : list B) (h : B) : Prop := h ∈ l /\ forall b, b ∈ l -> b = h \/ before h b.

(** Blocks of different ids. *)
Definition distinct (l : list B) : Prop :=
  (forall b, b ∈ l -> fork_block_wf b) /\ forall a b, a ∈ l -> b ∈ l -> fb_id a = fb_id b -> a = b.

Lemma best_of_first l : distinct l -> l <> [] -> exists h, best_of l = Some h /\ first_of l h.
Proof.
  intros [W D] Hne. induction l as [|b l IH]; [done|]. cbn [best_of foldr]. fold (best_of l). destruct l as [|c l'].
  { exists b. split; [done|]. split; [by left|]. intros x ->%list_elem_of_singleton. by left. }
  destruct IH as (h & -> & Hh & Hl); [intros x Hx; apply W; by right|intros x y Hx Hy; apply D; by right|done|].
  assert (Hb : h = b \/ before h b \/ before b h).
  { destruct (decide (fb_id h = fb_id b)) as [E|Hn]; [left; apply D; [by right|by left|done]|].
    right. apply before_total; [apply W; by right|apply W; by left|done]. }
  destruct (better h b) eqn:E.
  - exists h. split; [done|]. split; [by right|]. intros x [->|Hx]%elem_of_cons; [right; by apply better_before|auto].
  - exists b. split; [done|]. split; [by left|]. intros x [->|Hx]%elem_of_cons; [by left|].
    assert (Hn : ~ before h b) by (rewrite <- better_before; congruence).
    destruct Hb as [->|[Hb|Hb]]; [by auto|done|]. destruct (Hl x Hx) as [->|Hx']; [by right|].
    right. exact (before_trans _ _ _ Hb Hx').
Qed.

Lemma first_of_unique l h h' : first_of l h -> first_of l h' -> h = h'.
Proof.
  intros [H1 H2] [H1' H2']. destruct (H2 _ H1') as [|Hb]; [done|]. destruct (H2' _ H1) as [|Hb']; [done|].
  destruct (before_irrefl h). exact (before_trans _ _ _ Hb Hb').
Qed.

Definition blocks_of (idx : gmap block_id_type B) : list B := map snd (map_to_list idx).

Lemma blocks_of_spec idx b : b ∈ blocks_of idx <-> exists i, idx !! i = Some b.
Proof.
  unfold blocks_of. rewrite list_elem_of_In, in_map_iff. setoid_rewrite <- list_elem_of_In. split.
  - intros ([i c] & <- & H%elem_of_map_to_list). by exists i.
  - intros [i Hi]. exists (i, b). by rewrite elem_of_map_to_list.
Qed.

Lemma index_distinct idx : keys_wf idx -> distinct (blocks_of idx).
Proof.
  intros W. split.
  - intros b [i Hi]%blocks_of_spec. by destruct (W _ _ Hi).
  - intros a b [i Hi]%blocks_of_spec [j Hj]%blocks_of_spec E.
    destruct (W _ _ Hi) as [<- _], (W _ _ Hj) as [<- _]. congruence.
Qed.

(** The head is the first block of the best-branch order. *)
Lemma head_spec db include_root : keys_wf (index db) ->
  if decide (index db = ∅) then head db include_root = if include_root then root db else None
  else exists h, head db include_root = Some h /\ first_of (blocks_of (index db)) h.
Proof.
  intros W. unfold head. case_decide as E; [by rewrite E, map_to_list_empty|].
  assert (Hne : blocks_of (index db) <> []).
  { unfold blocks_of. intros Hn%map_eq_nil. by apply map_to_list_empty_iff in Hn. }
  destruct (best_of_first _ (index_distinct _ W) Hne) as (h & Hh & Hf). unfold blocks_of in Hh.
  destruct (map_to_list (index db)); [by destruct Hne|]. by exists h.
Qed.
End Order.

(** ** The operations keep the tree *)

Section Invariant.
Context {B : Type} {fork_block : ForkBlock B} {fork_block_ok : ForkBlockOk B}.
Implicit Types (db : fork_database B) (b n r : B) (idx m : gmap block_id_type B) (i a : block_id_type).

Lemma index_keys idx r : index_inv idx r -> keys_wf idx.
Proof. intros I. exact (ii_key _ _ I). Qed.

Lemma index_links idx r : index_inv idx r -> links_to (fun p => p = fb_id r) idx.
Proof. intros I i b Hi. by eapply ii_link. Qed.

Lemma sub_index_inv idx m r : index_inv idx r -> m ⊆ idx -> links_to (fun p => p = fb_id r) m -> index_inv m r.
Proof.
  intros I Hm L. split; [by eapply keys_wf_subseteq, index_keys|exact L| |apply (ii_root_num _ _ I)].
  by eapply lookup_weaken_None; [apply (ii_root _ _ I)|].
Qed.

Lemma reset_root_inv b : num_from_id (fb_id b) = fb_num b -> fdb_inv (reset_root b) (fb_set_valid b true).
Proof.
  intros Hn. split; [done| |apply set_valid_valid]. split.
  - intros i x Hi. cbn in Hi. by rewrite lookup_empty in Hi.
  - intros i x Hi. cbn in Hi. by rewrite lookup_empty in Hi.
  - apply lookup_empty.
  - by rewrite set_valid_id, set_valid_num.
Qed.

Lemma remove_inv db r i : fdb_inv db r -> fdb_inv (remove db i) r.
Proof.
  intros [Hr I Hv]. split; [done| |done]. cbn. eapply sub_index_inv; [done|apply remove_from_subseteq|].
  apply remove_from_links; [by eapply index_keys|by apply index_links].
Qed.

Lemma remove_num_inv db r num : fdb_inv db r -> fdb_inv (remove_num db num) r.
Proof.
  intros [Hr I Hv]. split; [done| |done]. cbn. eapply sub_index_inv; [done|apply map_filter_subseteq|].
  intros i b [Hi Hlt]%map_lookup_filter_Some. destruct (ii_link _ _ I _ _ Hi) as [|[p Hp]]; [by left|right].
  exists p. apply map_lookup_filter_Some. split; [done|]. cbn in *.
  rewrite (index_num I _ _ Hp), (index_previous I _ _ Hi). lia.
Qed.

Lemma mark_valid_inv db r i db' : fdb_inv db r -> mark_valid db i = Ok db' -> fdb_inv db' r.
Proof.
  intros [Hr I Hv] H. unfold mark_valid, get_block in H. rewrite Hr in H. cbn [andb] in H.
  apply bind_Ok in H as (b & Hb & H). apply at_or_assert_Ok in Hb. injection H as <-.
  destruct (ii_key _ _ I _ _ Hb) as [Ei W]. split; [done| |done]. cbn [index].
  assert (Hmono : forall j, is_Some (index db !! j) -> is_Some (<[i := fb_set_valid b true]> (index db) !! j)).
  { intros j Hj. destruct (decide (j = i)) as [->|]; [by rewrite lookup_insert_eq|by rewrite lookup_insert_ne]. }
  split; [| | |apply (ii_root_num _ _ I)].
  - intros j c [[<- <-]|[_ Hj]]%lookup_insert_Some; [|by apply (ii_key _ _ I)]. rewrite set_valid_id. split; [done|].
    destruct W as [W1 W2 W3]. by split; rewrite ?set_valid_id, ?set_valid_num, ?set_valid_previous.
  - intros j c [[<- <-]|[_ Hj]]%lookup_insert_Some; [rewrite set_valid_previous; destruct (ii_link _ _ I _ _ Hb)|
      destruct (ii_link _ _ I _ _ Hj)]; (by left) || (right; auto).
  - rewrite lookup_insert_ne; [apply (ii_root _ _ I)|]. intros ->. by rewrite (ii_root _ _ I) in Hb.
Qed.

Lemma set_pending_inv db r i : fdb_inv db r -> fdb_inv (set_pending_savanna_lib_id db i).2 r.
Proof. intros [Hr I Hv]. unfold set_pending_savanna_lib_id. by case_match. Qed.

Lemma set_pending_index db i : let db' := (set_pending_savanna_lib_id db i).2 in root db' = root db /\ index db' = index db.
Proof. unfold set_pending_savanna_lib_id. by case_match. Qed.

Lemma insert_inv idx r n : index_inv idx r -> fork_block_wf n -> idx !! fb_id n = None ->
  fb_previous n = fb_id r \/ is_Some (idx !! fb_previous n) -> index_inv (<[fb_id n := n]> idx) r.
Proof.
  intros I W Hn Hp. assert (Hne : fb_id n <> fb_id r).
  { intros E. apply (f_equal num_from_id) in E. rewrite (bw_num _ W), (ii_root_num _ _ I) in E.
    pose proof (bw_previous _ W) as Hprev. destruct Hp as [Hp|[p Hp]].
    - rewrite Hp, (ii_root_num _ _ I) in Hprev. lia.
    - pose proof (index_above_root I _ _ Hp) as Hup. rewrite (index_num I _ _ Hp) in Hup. lia. }
  assert (Hmono : forall i, is_Some (idx !! i) -> is_Some (<[fb_id n := n]> idx !! i)).
  { intros i Hi. destruct (decide (i = fb_id n)) as [->|]; [by rewrite lookup_insert_eq|by rewrite lookup_insert_ne]. }
  split; [..|apply (ii_root_num _ _ I)].
  - intros i b [[<- <-]|[_ Hi]]%lookup_insert_Some; [done|by apply (ii_key _ _ I)].
  - intros i b [[<- <-]|[_ Hi]]%lookup_insert_Some; [|destruct (ii_link _ _ I _ _ Hi) as [|Hl]]; [|by left|right; auto].
    destruct Hp as [|Hp]; [by left|right; auto].
  - rewrite lookup_insert_ne by done. apply (ii_root _ _ I).
Qed.

Lemma add_claim_index db n db' : add_claim db n = Ok db' -> root db' = root db /\ index db' = index db.
Proof.
  unfold add_claim. intros (claim & _ & H)%bind_Ok. destruct claim as [c|]; [|by injection H as <-].
  destruct (is_strong_qc c && _); [|by injection H as <-].
  destruct (search_on_branch db (fb_previous n) (claim_block_num c) false); [|by injection H as <-].
  apply bind_Ok in H as (lib & _ & H). injection H as <-. apply set_pending_index.
Qed.

(** What [add] returns, for a database that has a root. *)
Lemma add_spec db r n ignore_duplicate validator x db' : fdb_inv db r -> fork_block_wf n ->
  add db n ignore_duplicate validator = Ok (x, db') ->
  fdb_inv db' r /\ (fb_previous n = fb_id r \/ is_Some (index db !! fb_previous n)) /\
  match x with
  | add_failure => False
  | add_duplicate => is_Some (index db !! fb_id n) /\ ignore_duplicate = true /\ index db' = index db
  | _ => index db !! fb_id n = None /\ index db' = <[fb_id n := n]> (index db) /\
      exists h, head db' false = Some h /\ first_of (blocks_of (index db')) h /\
        (x = add_added <-> h <> n) /\
        (x = add_appended_to_head <-> h = n /\ exists p, head db true = Some p /\ fb_id p = fb_previous n)
  end.
Proof.
  intros D W H. unfold add in H. rewrite (fd_root _ _ D) in H. apply bind_Ok in H as (db1 & Hc & H).
  pose proof (add_claim_index _ _ _ Hc) as [Er Ei]. destruct D as [Hr I Hv].
  assert (Hhead : head db1 true = head db true) by (unfold head; by rewrite Er, Ei).
  destruct (get_block db1 (fb_previous n) true) as [p|] eqn:Ep; [|done].
  assert (Hp : fb_previous n = fb_id r \/ is_Some (index db !! fb_previous n)).
  { unfold get_block in Ep. rewrite Er, Hr in Ep. cbn in Ep. rewrite Ei in Ep.
    destruct (bool_decide_reflect (fb_id r = fb_previous n)); [by left|right; by exists p]. }
  apply bind_Ok in H as (_ & _ & H). apply bind_Ok in H as (ph & Hph & H). apply at_or_assert_Ok in Hph.
  rewrite Hhead in Hph. destruct (decide (is_Some (index db1 !! fb_id n))) as [Hd|Hd].
  { destruct ignore_duplicate; [|done]. injection H as <- <-. rewrite Ei in *. split; [|done].
    split; [by rewrite Er|by rewrite Ei|done]. }
  apply eq_None_not_Some in Hd. rewrite Ei in Hd. injection H as Hx <-. rewrite Er, Ei in *. cbn [index].
  assert (I' : index_inv (<[fb_id n := n]> (index db)) r) by by apply insert_inv.
  split; [by split|]. split; [done|].
  set (db' := ForkDatabase (root db) (pending_savanna_lib_id db1) (<[fb_id n := n]> (index db))) in *.
  pose proof (head_spec db' false (index_keys _ _ I')) as Hh. rewrite decide_False in Hh by apply insert_non_empty.
  destruct Hh as (h & Hh & Hfirst). rewrite Hh in Hx.
  assert (Hhn : h = n <-> fb_id h = fb_id n).
  { split; [by intros ->|]. apply (index_distinct _ (index_keys _ _ I')); [apply Hfirst|].
    apply blocks_of_spec. exists (fb_id n). apply lookup_insert_eq. }
  destruct (bool_decide_reflect (fb_id h = fb_id n)) as [Eh|Eh].
  - apply Hhn in Eh as Eh'. destruct (decide (fb_previous n = fb_id ph)) as [Epp|Epp]; subst x;
      (split_and!; [done..|]); exists h; (split_and!; [done..| |]); (split; [try done|try tauto]).
    + intros _. split; [done|]. by exists ph.
    + intros [_ (q & Hq & Eq)]. congruence.
  - subst x. split_and!; [done..|]. exists h. split_and!; [done..| |]; (split; [try tauto|try tauto]). done.
Qed.

Lemma add_after_inv db r n ignore_duplicate validator : fdb_inv db r -> fork_block_wf n ->
  fdb_inv (add_after db n ignore_duplicate validator) r.
Proof.
  intros D W. unfold add_after. rewrite (fd_root _ _ D).
  destruct (add db n ignore_duplicate validator) as [[x db']|] eqn:E; [by apply (add_spec db r n ignore_duplicate validator x db')|].
  destruct (add_claim db n) as [db'|] eqn:Ec; [|done]. apply add_claim_index in Ec as [Er Ei].
  destruct D as [Hr I Hv]. cbn. split; [by rewrite Er|by rewrite Ei|done].
Qed.
End Invariant.

(** ** Advancing the root *)

Section Advance.
Context {B : Type} {fork_block : ForkBlock B} {fork_block_ok : ForkBlockOk B}.
Implicit Types (db : fork_database B) (b n r : B) (idx m : gmap block_id_type B) (i a : block_id_type).

(** The blocks on the way from a block down to the root. *)
Lemma blocks_to_remove_spec idx r i b l fuel : index_inv idx r -> path idx (fb_id r) i (b :: l) -> (length l < fuel)%nat ->
  blocks_to_remove fuel idx (fb_id r) b = Ok (map fb_previous (b :: l)).
Proof.
  intros I. revert i b fuel. induction l as [|c l IH]; intros i b fuel H Hf; (destruct fuel as [|fuel]; [lia|]);
    inversion H as [|i' b' l' Hi Hp]; simplify_eq; inversion Hp as [E|i' b' l' Hi' Hp']; simplify_eq; cbn [blocks_to_remove map].
  - rewrite <- E, (ii_root _ _ I). by rewrite bool_decide_true.
  - rewrite Hi'. cbn in Hf. rewrite (IH (fb_previous b) c); [done|done|lia].
Qed.

Lemma path_ids idx r i l : index_inv idx r -> path idx (fb_id r) i l ->
  Forall (fun a => num_from_id a < num_from_id i) (map fb_previous l) /\ (l <> [] -> fb_id r ∈ map fb_previous l).
Proof.
  intros I. induction 1 as [|i b l Hi Hp [IH1 IH2]]; [by split|].
  pose proof (index_num I _ _ Hi). pose proof (index_previous I _ _ Hi). split.
  - cbn [map]. constructor; [lia|]. eapply Forall_impl; [exact IH1|]. cbn. lia.
  - intros _. cbn [map]. destruct l; [inversion Hp; by left|right; by apply IH2].
Qed.

Section Kept.
(** The index without the new root [i], and without what [ids] removes. *)
Context (idx : gmap block_id_type B) (r : B) (i : block_id_type) (ids : list block_id_type).
Context (I : index_inv idx r) (Hids : Forall (fun a => num_from_id a < num_from_id i) ids) (Hroot : fb_id r ∈ ids).

Lemma descendant_not_removed m a x : m ⊆ delete i idx -> num_from_id a < num_from_id i ->
  descends idx i x -> ~ descends m a x.
Proof.
  intros Hm Ha Hd Hr. revert Hd. pose proof (index_keys _ _ I) as W.
  induction Hr as [x b Hx <-|x b Hx Hp IH]; intros Hd.
  all: assert (Hx' : idx !! x = Some b) by (eapply lookup_weaken, delete_subseteq; by eapply lookup_weaken).
  all: apply (descends_inv _ _ _ _ Hx') in Hd as [E|Hd].
  - rewrite E in Ha. lia.
  - pose proof (descends_num _ _ _ W Hd). lia.
  - rewrite E in Hp. apply descends_in in Hp as [c Hc]. eapply lookup_weaken in Hc; [|exact Hm].
    by rewrite lookup_delete_eq in Hc.
  - by apply IH.
Qed.

Lemma descendants_kept m x b l : Forall (fun a => num_from_id a < num_from_id i) l -> m ⊆ delete i idx ->
  m !! x = Some b -> descends idx i x -> foldl remove_from m l !! x = Some b.
Proof.
  intros Hl Hm Hx Hd. revert m Hm Hx. induction Hl as [|a l Ha _ IH]; intros m Hm Hx; [done|]. cbn [foldl].
  apply IH; [etrans; [apply remove_from_subseteq|done]|].
  apply remove_from_lookup; [by eapply keys_wf_subseteq, index_keys, I; etrans; [exact Hm|apply delete_subseteq]|].
  split_and!; [done| |by apply descendant_not_removed].
  intros ->. pose proof (descends_num _ _ _ (index_keys _ _ I) Hd). lia.
Qed.

Lemma kept_descends m x b : m ⊆ delete i idx -> links_to (fun p => p = fb_id r \/ p = i) m -> m !! x = Some b ->
  descends idx i x \/ descends m (fb_id r) x.
Proof.
  intros Hm L. remember (Z.to_nat (num_from_id x)) as k eqn:Ek. revert x b Ek.
  induction k as [k IH] using lt_wf_ind. intros x b Ek Hx.
  assert (Hx' : idx !! x = Some b) by (eapply lookup_weaken, delete_subseteq; by eapply lookup_weaken).
  destruct (L _ _ Hx) as [[E|E]|[p Hp]]; [right; by eapply descends_child|left; by eapply descends_child|].
  pose proof (index_num I _ _ Hx'). pose proof (index_previous I _ _ Hx'). pose proof (num_from_id_u32 (fb_previous b)) as [? _].
  destruct (IH (Z.to_nat (num_from_id (fb_previous b))) ltac:(lia) _ _ eq_refl Hp) as [Hd|Hd];
    [left|right]; by eapply descends_step.
Qed.

Lemma advanced_lookup x b : foldl remove_from (delete i idx) ids !! x = Some b <-> idx !! x = Some b /\ descends idx i x.
Proof.
  pose proof (index_keys _ _ I) as W. assert (W0 : keys_wf (delete i idx)) by by eapply keys_wf_subseteq, W; apply delete_subseteq.
  assert (L0 : links_to (fun p => p = fb_id r \/ p = i) (delete i idx)).
  { intros y c [_ Hy]%lookup_delete_Some. destruct (ii_link _ _ I _ _ Hy) as [|[p Hp]]; [by left; left|].
    destruct (decide (fb_previous c = i)); [by left; right|right]. exists p. by rewrite lookup_delete_ne. }
  split.
  - intros Hx. assert (Hx' : idx !! x = Some b).
    { eapply lookup_weaken, delete_subseteq. eapply lookup_weaken; [exact Hx|apply remove_all_subseteq]. }
    split; [done|]. apply list_elem_of_split in Hroot as (l1 & l2 & E). rewrite E, foldl_app in Hx. cbn [foldl] in Hx.
    set (m := foldl remove_from (delete i idx) l1) in Hx.
    assert (Hm : m ⊆ delete i idx) by apply remove_all_subseteq.
    assert (Lm : links_to (fun p => p = fb_id r \/ p = i) m) by by apply remove_all_links.
    assert (Wm : keys_wf m) by by eapply keys_wf_subseteq.
    assert (Hx2 : remove_from m (fb_id r) !! x = Some b) by (eapply lookup_weaken; [exact Hx|apply remove_all_subseteq]).
    apply remove_from_lookup in Hx2 as (Hx2 & _ & Hd); [|done].
    by destruct (kept_descends m x b Hm Lm Hx2).
  - intros [Hx Hd]. assert (Hne : x <> i) by (intros ->; pose proof (descends_num _ _ _ W Hd); lia).
    apply descendants_kept; [done|done| |done]. by rewrite lookup_delete_ne.
Qed.
End Kept.

(** [advance_root] fails exactly on a block that is not there or not valid;
    else the block becomes the root and its descendants are what is kept. *)
Lemma advance_root_spec db r i : fdb_inv db r ->
  match index db !! i with
  | Some b =>
      if fb_is_valid b then
        exists db', advance_root db i = Ok db' /\ fdb_inv db' b /\ pending_savanna_lib_id db' = pending_savanna_lib_id db /\
          forall x c, index db' !! x = Some c <-> index db !! x = Some c /\ descends (index db) i x
      else advance_root db i = Throw fork_database_exception
  | None => advance_root db i = Throw fork_database_exception
  end.
Proof.
  intros [Hr I Hv]. unfold advance_root, get_block. rewrite Hr. cbn [andb].
  destruct (index db !! i) as [b|] eqn:Hi; [|done]. destruct (fb_is_valid b) eqn:Hb; [|done].
  destruct (path_exists I _ _ Hi) as [l Hl]. pose proof (path_size I _ _ Hl) as Hsize. cbn in Hsize.
  rewrite (blocks_to_remove_spec _ _ _ _ _ _ I Hl) by lia. cbn [mbind result_bind].
  destruct (path_ids _ _ _ _ I Hl) as [Hids Hroot]. specialize (Hroot ltac:(done)).
  pose proof (advanced_lookup (index db) r i _ I Hids Hroot) as Hkept.
  set (ids := map fb_previous (b :: l)) in *. eexists. split; [reflexivity|].
  destruct (ii_key _ _ I _ _ Hi) as [Eb Wb]. pose proof (index_keys _ _ I) as W.
  split; [|split; [done|exact Hkept]]. split; [done| |done]. cbn [index]. split.
  - intros x c [Hx _]%Hkept. by apply (ii_key _ _ I).
  - intros x c [Hx Hd]%Hkept. rewrite Eb. destruct (descends_inv _ _ _ _ Hx Hd) as [E|Hd']; [by left|right].
    destruct (descends_in _ _ _ Hd') as [p Hp]. exists p. by apply Hkept.
  - apply eq_None_not_Some. intros [c [_ Hd]%Hkept]. rewrite Eb in Hd. pose proof (descends_num _ _ _ W Hd). lia.
  - by rewrite Eb, (index_num I _ _ Hi).
Qed.
End Advance.

(** ** Two branches *)

Section Branches.
Context {B : Type} {fork_block : ForkBlock B} {fork_block_ok : ForkBlockOk B}.
Context {db : fork_database B} {r : B} (D : fdb_inv db r).
Implicit Types (b c x y : B) (l k : list B) (i : block_id_type).

(** A block of the database: the root or one of the index; its branch is [l]. *)
Record branch_at b l : Prop := {
  ba_block : b = r \/ index db !! fb_id b = Some b;
  ba_path : path (index db) (fb_id r) (fb_id b) l
}.

Lemma branch_at_num b l : branch_at b l -> fb_num b = fb_num r + Z.of_nat (length l) /\ (b = r -> l = []).
Proof.
  destruct D as [_ I _]. intros [Hb Hp]. pose proof (path_length I _ _ Hp) as Hl.
  assert (Hn : num_from_id (fb_id b) = fb_num b).
  { destruct Hb as [->|Hb]; [apply (ii_root_num _ _ I)|]. by rewrite (index_num I _ _ Hb). }
  split; [lia|]. intros ->. inversion Hp as [|? ? ? Hi]; [done|]. by rewrite (ii_root _ _ I) in Hi.
Qed.

Lemma block_or_root_spec i : block_or_root db i =
  if decide (i = fb_id r) then Ok r else match index db !! i with Some b => Ok b | None => Throw fork_db_block_not_found end.
Proof. unfold block_or_root. by rewrite (fd_root _ _ D). Qed.

Lemma block_or_root_branch i b : block_or_root db i = Ok b -> fb_id b = i /\ exists l, branch_at b l /\ walk_from db i = l.
Proof.
  rewrite block_or_root_spec. destruct D as [_ I _]. case_decide as Hi.
  - intros [= <-]. split; [done|]. exists []. split; [split; [by left|constructor]|].
    rewrite Hi. apply walk_absent, (ii_root _ _ I).
  - destruct (index db !! i) as [c|] eqn:E; [|done]. intros [= <-]. destruct (ii_key _ _ I _ _ E) as [Ei _].
    split; [done|]. destruct (walk_index I _ _ E) as (l & Hl & Hw). exists (c :: l). split; [|exact Hw].
    split; [right; by rewrite Ei|by rewrite Ei].
Qed.

(** The parent of a block of the index. *)
Lemma branch_parent b l : branch_at b l -> b <> r -> exists p l', l = b :: l' /\
  block_or_root db (fb_previous b) = Ok p /\ branch_at p l' /\ fb_id p = fb_previous b /\
  index db !! fb_previous b = (if decide (fb_previous b = fb_id r) then None else Some p).
Proof.
  destruct D as [_ I _]. intros [[->|Hb] Hp] Hne; [done|]. inversion Hp as [E|i c l' Hi Hp' E]; simplify_eq.
  { by rewrite <- E, (ii_root _ _ I) in Hb. }
  rewrite block_or_root_spec. case_decide as Ep.
  - rewrite Ep in *. exists r, l'. split_and!; [done|done|split; [by left|done]|done|apply (ii_root _ _ I)].
  - destruct (ii_link _ _ I _ _ Hb) as [|[p Hp2]]; [done|]. rewrite Hp2. destruct (ii_key _ _ I _ _ Hp2) as [Eid _].
    exists p, l'. split_and!; [done|done| |done|done]. split; rewrite Eid; [by right|done].
Qed.

Lemma descend_to_spec fuel num b l : branch_at b l -> fb_num r <= num -> (length l <= fuel)%nat ->
  exists f c l', descend_to fuel db num b = Ok (f, c) /\ branch_at c l' /\ l = f ++ l' /\ fb_num c <= num /\
    (num <= fb_num b -> fb_num c = num) /\ (fb_num b <= num -> f = []) /\ Forall (fun x => num < fb_num x) f.
Proof.
  revert b l. induction fuel as [|fuel IH]; intros b l Hb Hn Hf; destruct (branch_at_num _ _ Hb) as [Hnum _]; cbn [descend_to].
  - destruct l; [|cbn in Hf; lia]. cbn in Hnum. destruct (Z.leb_spec (fb_num b) num); [|lia].
    exists [], b, []. split_and!; [done..|lia|done|constructor].
  - destruct (Z.leb_spec (fb_num b) num) as [Hle|Hgt].
    { exists [], b, l. split_and!; [done..|lia|done|constructor]. }
    assert (Hne : b <> r) by (intros ->; lia).
    destruct (branch_parent _ _ Hb Hne) as (p & l' & -> & Ep & Hp & _). rewrite Ep. cbn [mbind result_bind].
    cbn [length] in *. destruct (IH p l' Hp Hn ltac:(lia)) as (f & c & k & E & Hc & -> & H1 & H2 & _ & H3).
    rewrite E. cbn. exists (b :: f), c, k. destruct (branch_at_num _ _ Hp) as [Hpn _].
    split_and!; [done..|intros _; apply H2; lia|lia|by constructor].
Qed.

(** Where two branches meet: at [c], and at no later block. *)
Record meet (first second f s : list B) : Prop := {
  mt_common : exists l, first = f ++ l /\ second = s ++ l;
  mt_disjoint : forall x, x ∈ f -> x ∈ s -> False
}.

Lemma not_the_root b c lb lc :
  branch_at b lb -> branch_at c lc -> fb_num b = fb_num c -> fb_id b <> fb_id c -> b <> r.
Proof.
  intros Hb Hc Hn Hid ->. destruct (branch_at_num _ _ Hb) as [Nb Rb], (branch_at_num _ _ Hc) as [Nc _].
  rewrite (Rb eq_refl) in Nb. destruct lc; [|cbn in *; lia]. destruct Hc as [_ Hp]. inversion Hp as [E|]. congruence.
Qed.

Lemma descend_both_spec fuel b c lb lc : branch_at b lb -> branch_at c lc -> fb_num b = fb_num c -> fb_id b <> fb_id c ->
  (length lb <= S fuel)%nat ->
  exists f s, descend_both fuel db b c = Ok (f, s) /\ meet lb lc f s /\ Forall (fun x => fb_num x <= fb_num b) (f ++ s).
Proof.
  revert b c lb lc. induction fuel as [|fuel IH]; intros b c lb lc Hb Hc Hn Hid Hf.
  all: destruct (branch_at_num _ _ Hb) as [Nb _], (branch_at_num _ _ Hc) as [Nc _].
  all: pose proof (not_the_root _ _ _ _ Hb Hc Hn Hid) as Rb.
  all: pose proof (not_the_root _ _ _ _ Hc Hb (eq_sym Hn) (not_eq_sym Hid)) as Rc.
  all: destruct (branch_parent _ _ Hb Rb) as (p & lp & -> & _ & Hp & Ep & Ip).
  all: destruct (branch_parent _ _ Hc Rc) as (q & lq & -> & _ & Hq & Eq & Iq).
  all: destruct (branch_at_num _ _ Hp) as [Np _], (branch_at_num _ _ Hq) as [Nq _]; cbn [length] in *; cbn [descend_both].
  all: assert (Hpath : fb_previous b = fb_previous c -> lp = lq) by
    (intros E; apply (path_unique (fd_index _ _ D) (fb_id p)); [apply Hp|rewrite Ep, E, <- Eq; apply Hq]).
  all: assert (Hmeet : lp = lq -> meet (b :: lp) (c :: lq) [b] [c]) by
    (intros ->; split; [by exists lq|]; intros x ->%list_elem_of_singleton Hx%list_elem_of_singleton; congruence).
  all: destruct (decide (fb_previous b = fb_previous c)) as [E|E];
    [exists [b], [c]; split_and!; [done|auto|cbn; rewrite !Forall_cons; split_and!; [lia|lia|constructor]]|].
  - destruct lp; [|cbn in *; lia]. destruct lq; [|cbn in *; lia]. destruct E.
    destruct Hp as [_ Hp], Hq as [_ Hq]. inversion Hp. inversion Hq. congruence.
  - destruct (IH p q lp lq Hp Hq ltac:(lia) ltac:(congruence) ltac:(lia)) as (f & s & Er & [(l & -> & ->) Hd] & Hle).
    assert (Hpr : p <> r) by (apply (not_the_root _ _ _ _ Hp Hq); [lia|congruence]).
    assert (Hqr : q <> r) by (apply (not_the_root _ _ _ _ Hq Hp); [lia|congruence]).
    assert (Hni : forall x lx, branch_at x lx -> x <> r -> fb_id x <> fb_id r).
    { intros x lx Hx Hxr Ex. destruct Hx as [[->|Hx] _]; [done|]. rewrite Ex in Hx. by rewrite (ii_root _ _ (fd_index _ _ D)) in Hx. }
    rewrite Ip, Iq, !decide_False by (rewrite <- ?Ep, <- ?Eq; by eapply Hni). rewrite Er. cbn [mbind result_bind fst snd].
    exists (b :: f), (c :: s). rewrite Forall_app in Hle. destruct Hle as [Hlf Hls].
    rewrite Forall_forall in Hlf, Hls. split_and!; [done| |].
    + split; [by exists l|]. intros x [->|Hx]%elem_of_cons [Ex|Hx']%elem_of_cons.
      * congruence.
      * specialize (Hls _ Hx'). lia.
      * subst x. specialize (Hlf _ Hx). lia.
      * by eapply Hd.
    + apply Forall_app. split; constructor; try lia; apply Forall_forall; intros x Hx; [specialize (Hlf _ Hx)|specialize (Hls _ Hx)]; lia.
Qed.

(** [fetch_branch_from]: the two branches down to where they meet. *)
Lemma fetch_branch_from_spec first second :
  match block_or_root db first, block_or_root db second with
  | Ok _, Ok _ => exists f s, fetch_branch_from db first second = Ok (f, s) /\
      meet (walk_from db first) (walk_from db second) f s
  | _, _ => fetch_branch_from db first second = Throw fork_db_block_not_found
  end.
Proof.
  assert (Herr : forall i e, block_or_root db i = Throw e -> e = fork_db_block_not_found).
  { intros i e. rewrite block_or_root_spec. case_decide; [done|]. case_match; [done|]. by intros [= <-]. }
  unfold fetch_branch_from. destruct (block_or_root db first) as [b|e] eqn:E1; [|by rewrite (Herr _ _ E1)].
  destruct (block_or_root db second) as [c|e] eqn:E2; [|by rewrite (Herr _ _ E2)]. cbn [mbind result_bind].
  destruct (block_or_root_branch _ _ E1) as (_ & lb & Hb & ->), (block_or_root_branch _ _ E2) as (_ & lc & Hc & ->).
  pose proof (path_size (fd_index _ _ D) _ _ (ba_path _ _ Hb)) as Sb.
  pose proof (path_size (fd_index _ _ D) _ _ (ba_path _ _ Hc)) as Sc.
  destruct (branch_at_num _ _ Hb) as [Nb _], (branch_at_num _ _ Hc) as [Nc _].
  destruct (descend_to_spec (S (size (index db))) (fb_num c) b lb Hb) as (f & b' & lb' & -> & Hb' & -> & Lb & Gb & Zb & Ff); [lia..|]. cbn [mbind result_bind fst snd].
  destruct (branch_at_num _ _ Hb') as [Nb' _]. autorewrite with spring in *.
  destruct (descend_to_spec (S (size (index db))) (fb_num b') c lc Hc) as (s & c' & lc' & -> & Hc' & -> & Lc & Gc & Zc & Fs); [lia..|]. cbn [mbind result_bind fst snd].
  autorewrite with spring in *. rewrite Forall_forall in Ff, Fs.
  assert (Hdis : forall x, x ∈ f -> x ∈ s -> False).
  { intros x Hx Hy. destruct (Z.le_gt_cases (fb_num b) (fb_num c)) as [Hle|Hgt].
    - rewrite (Zb Hle) in Hx. by apply elem_of_nil in Hx.
    - rewrite Zc in Hy by lia. by apply elem_of_nil in Hy. }
  destruct (branch_at_num _ _ Hc') as [Nc' _].
  assert (Hnum : fb_num b' = fb_num c') by lia.
  case_decide as Eid.
  - exists f, s. split; [done|]. split; [|done]. exists lb'. split; [done|]. f_equal.
    apply (path_unique (fd_index _ _ D) (fb_id b')); [|apply Hb']. rewrite Eid. apply Hc'.
  - destruct (descend_both_spec (S (size (index db))) b' c' lb' lc' Hb' Hc' Hnum Eid) as (f' & s' & -> & [(l & -> & ->) Hd'] & Hle); [lia|]. cbn [mbind result_bind fst snd].
    apply Forall_app in Hle as [Hlf Hls]. rewrite Forall_forall in Hlf, Hls.
    exists (f ++ f'), (s ++ s'). split; [done|]. split.
    + exists l. by rewrite !app_assoc.
    + intros x [Hx|Hx]%elem_of_app [Hy|Hy]%elem_of_app.
      * by eapply Hdis.
      * specialize (Ff _ Hx). specialize (Hls _ Hy). lia.
      * specialize (Fs _ Hy). specialize (Hlf _ Hx). lia.
      * by eapply Hd'.
Qed.
End Branches.

(** ** Ancestry *)

Section Ancestry.
Context {B : Type} {fork_block : ForkBlock B}.
Implicit Types (db : fork_database B) (b r : B) (l : list B) (a i : block_id_type).

Lemma descends_path idx r a i l : index_inv idx r -> path idx (fb_id r) i l ->
  descends idx a i <-> exists b, b ∈ l /\ fb_previous b = a.
Proof.
  intros I H. induction H as [|i b l Hi Hp IH].
  - split; [intros [? Hd]%descends_in; by rewrite (ii_root _ _ I) in Hd|intros (b & Hb & _); by apply elem_of_nil in Hb].
  - split.
    + intros [E|Hd]%(descends_inv _ _ _ _ Hi); [exists b; split; [by left|done]|].
      apply IH in Hd as (c & Hc & E). exists c. split; [by right|done].
    + intros (c & [->|Hc]%elem_of_cons & E); [by eapply descends_child|].
      eapply descends_step; [done|]. apply IH. by exists c.
Qed.

Lemma finds_ancestor_spec idx r a i l : index_inv idx r -> path idx (fb_id r) i l -> num_from_id a + 1 < 2 ^ 32 ->
  finds_ancestor a l = true <-> exists b, b ∈ l /\ fb_previous b = a.
Proof.
  intros I H Ha. pose proof (num_from_id_u32 a) as [? _].
  induction H as [|i b l Hi Hp IH]; cbn [finds_ancestor].
  { split; [done|]. intros (b & Hb & _). by apply elem_of_nil in Hb. }
  destruct (decide (fb_previous b = a)) as [E|E].
  { split; [|done]. intros _. exists b. split; [by left|done]. }
  rewrite wrap32_id by (unfold u32; lia).
  destruct (Z.leb_spec (fb_num b) (num_from_id a + 1)) as [Hle|Hgt].
  - split; [done|]. intros (c & [->|Hc]%elem_of_cons & Ec); [done|].
    apply list_elem_of_lookup in Hc as [j Hj]. destruct (path_lookup I _ _ _ _ Hp Hj) as [Ic Nc].
    pose proof (index_previous I _ _ Ic) as Np. pose proof (index_previous I _ _ Hi) as Nb. rewrite Ec in Np. lia.
  - rewrite IH. split.
    + intros (c & Hc & Ec). exists c. split; [by right|done].
    + intros (c & [->|Hc]%elem_of_cons & Ec); [done|]. by exists c.
Qed.

(** [is_descendant_of] decides ancestry in the index, for every pair of ids. *)
Lemma is_descendant_of_spec db r a d : fdb_inv db r -> is_descendant_of db a d = true <-> descends (index db) a d.
Proof.
  intros [_ I _]. unfold is_descendant_of. pose proof (index_keys _ _ I) as W.
  destruct (Z.leb_spec (num_from_id d) (num_from_id a)) as [Hle|Hgt].
  { split; [done|]. intros Hd%(descends_num _ _ _ W). lia. }
  pose proof (num_from_id_u32 d) as [_ ?]. unfold walk_from. destruct (index db !! d) as [b|] eqn:E.
  - destruct (walk_index I _ _ E) as (l & Hl & ->). rewrite (descends_path _ _ _ _ _ I Hl).
    by rewrite (finds_ancestor_spec _ _ _ _ _ I Hl) by lia.
  - rewrite walk_absent by done. split; [done|]. intros [? Hd]%descends_in. congruence.
Qed.
End Ancestry.

(** ** Closing and opening *)

Section Reopen.
Context {B : Type} {fork_block : ForkBlock B} {fork_block_ok : ForkBlockOk B}.
Implicit Types (db : fork_database B) (b c n r p : B) (l : list B).

Lemma insert_worst_first_perm b l : insert_worst_first b l ≡ₚ b :: l.
Proof.
  induction l as [|c l IH]; [done|]. cbn. destruct (better b c); [|done]. rewrite IH. apply Permutation_swap.
Qed.

Lemma worst_first_perm l : worst_first l ≡ₚ l.
Proof. induction l as [|b l IH]; [done|]. cbn. by rewrite insert_worst_first_perm, IH. Qed.

(** Worst first: every block comes before all the later ones. *)
Definition ascending l : Prop := StronglySorted (fun a b => before b a) l.

Lemma insert_worst_first_sorted b l : ascending l -> (forall c, c ∈ l -> before b c \/ before c b) ->
  ascending (insert_worst_first b l).
Proof.
  intros Hs. induction Hs as [|c l Hs IH Hc]; intros Ht; [repeat constructor|]. cbn.
  destruct (better b c) eqn:E.
  - apply better_before in E. constructor; [apply IH; intros x Hx; apply Ht; by right|].
    rewrite insert_worst_first_perm. by constructor.
  - assert (Hb : before c b).
    { destruct (Ht c ltac:(by left)) as [Hb|]; [|done]. apply better_before in Hb. congruence. }
    constructor; [by constructor|]. constructor; [done|].
    eapply Forall_impl; [exact Hc|]. intros x Hx. exact (before_trans _ _ _ Hx Hb).
Qed.

Lemma worst_first_sorted l : NoDup l -> distinct l -> ascending (worst_first l).
Proof.
  intros Hnd. induction Hnd as [|b l Hb _ IH]; intros [W D]; [constructor|].
  change (worst_first (b :: l)) with (insert_worst_first b (worst_first l)). apply insert_worst_first_sorted.
  - apply IH. split; [intros x Hx; apply W; by right|intros x y Hx Hy; apply D; by right].
  - intros c Hc. rewrite worst_first_perm in Hc. apply before_total; [apply W; by left|apply W; by right|].
    intros E. apply D in E; [|by left|by right]. by subst c.
Qed.

(** A child is before its parent in the best-branch order. *)
Definition ranked (idx : gmap block_id_type B) : Prop :=
  forall i b p, idx !! i = Some b -> idx !! fb_previous b = Some p -> before b p.

(** The accessors that [add] uses do not fail on the blocks. *)
Definition claims_readable (idx : gmap block_id_type B) : Prop :=
  forall i b, idx !! i = Some b -> is_ok (fb_qc_claim b) = true /\ is_ok (fb_claimed_lib b) = true.

Lemma add_claim_Ok db n : is_ok (fb_qc_claim n) = true ->
  (forall i b, index db !! i = Some b -> is_ok (fb_claimed_lib b) = true) ->
  exists db', add_claim db n = Ok db' /\ num_from_id (pending_savanna_lib_id db) <= num_from_id (pending_savanna_lib_id db').
Proof.
  intros Hq Hl. unfold add_claim. destruct (fb_qc_claim n) as [[c|]|]; [|by exists db|done]. cbn [mbind result_bind].
  destruct (is_strong_qc c && _); [|by exists db]. destruct (search_on_branch db (fb_previous n) (claim_block_num c) false) as [b|] eqn:E; [|by exists db].
  assert (Hb : exists i, index db !! i = Some b).
  { unfold search_on_branch in E. destruct (root db) as [r|]; [|done]. cbn [andb] in E. destruct (_ <=? _); [done|].
    destruct (list_find _ _) as [[j x]|] eqn:Ef; [|done]. injection E as ->. apply list_find_Some in Ef as [Hj _].
    apply list_elem_of_lookup_2 in Hj. revert Hj. unfold walk_from. generalize (fb_previous n) as i, (S (size (index db))) as f.
    intros i f. revert i. induction f as [|f IH]; intros i Hj; cbn in Hj; [by apply elem_of_nil in Hj|].
    destruct (index db !! i) as [y|] eqn:Ei; [|by apply elem_of_nil in Hj].
    apply elem_of_cons in Hj as [->|Hj]; [by exists i|by eapply IH]. }
  destruct Hb as [i Hi]. specialize (Hl _ _ Hi). destruct (fb_claimed_lib b) as [lib|]; [|done]. cbn [mbind result_bind].
  eexists. split; [reflexivity|]. unfold set_pending_savanna_lib_id. destruct (Z.ltb_spec (num_from_id (pending_savanna_lib_id db)) (num_from_id lib)); cbn; lia.
Qed.

Lemma add_new db r n (validator : validator_t) : fdb_inv db r -> fork_block_wf n -> index db !! fb_id n = None ->
  fb_previous n = fb_id r \/ is_Some (index db !! fb_previous n) -> is_ok (fb_qc_claim n) = true ->
  (forall i b, index db !! i = Some b -> is_ok (fb_claimed_lib b) = true) ->
  (forall t cur new, is_ok (validator t cur new) = true) ->
  exists x db', add db n false (Some validator) = Ok (x, db') /\ index db' = <[fb_id n := n]> (index db) /\ fdb_inv db' r /\
    num_from_id (pending_savanna_lib_id db) <= num_from_id (pending_savanna_lib_id db').
Proof.
  intros D W Hn Hp Hq Hl Hv. destruct (add_claim_Ok db n Hq Hl) as (db1 & Ec & Hle).
  pose proof (add_claim_index _ _ _ Ec) as [Er Ei].
  assert (E : exists x, add db n false (Some validator) =
    Ok (x, ForkDatabase (root db1) (pending_savanna_lib_id db1) (<[fb_id n := n]> (index db1)))).
  { unfold add. rewrite (fd_root _ _ D), Ec. cbn [mbind result_bind].
    assert (Hb : exists p, get_block db1 (fb_previous n) true = Some p).
    { unfold get_block. rewrite Er, (fd_root _ _ D), Ei. cbn [andb]. destruct (bool_decide_reflect (fb_id r = fb_previous n)) as [|Hne].
      - by exists r.
      - destruct Hp as [Hp|[p Hp]]; [congruence|by exists p]. }
    destruct Hb as [p ->].
    assert (Hval : (match fb_new_features n with
      | Some features => match validator (fb_timestamp n) (fb_features p) features with Ok _ => Ok () | Throw _ => Throw fork_database_exception end
      | None => Ok () end) = Ok ()).
    { destruct (fb_new_features n) as [fs|]; [|done]. specialize (Hv (fb_timestamp n) (fb_features p) fs). by destruct (validator _ _ _). }
    rewrite Hval. cbn [mbind result_bind].
    assert (Hh : exists h, head db1 true = Some h).
    { pose proof (head_spec db1 true) as Hs. rewrite Ei in Hs. specialize (Hs (index_keys _ _ (fd_index _ _ D))).
      case_decide; [exists r; by rewrite Hs, Er, (fd_root _ _ D)|destruct Hs as (h & -> & _); by exists h]. }
    destruct Hh as [h ->]. cbn [at_or_assert mbind result_bind]. rewrite Ei, decide_False; [by eexists|]. by rewrite Hn; intros [? ?]. }
  destruct E as [x E]. eexists x, _. split; [exact E|]. apply (add_spec _ _ _ _ _ _ _ D W) in E as [D' _].
  cbn [index pending_savanna_lib_id]. split_and!; [by rewrite Ei|done|done].
Qed.

(** *** The blocks that are read back *)

Definition reopened b : B := from_ok b (fb_reopened b).
Definition reopens b : Prop := is_ok (fb_reopened b) = true.

Lemma reopens_Ok b : reopens b -> fb_reopened b = Ok (reopened b).
Proof. unfold reopens, reopened. by destruct (fb_reopened b). Qed.

Lemma reopened_keys b : fb_id (reopened b) = fb_id b /\ fb_previous (reopened b) = fb_previous b /\
  fb_num (reopened b) = fb_num b /\ fb_rank (reopened b) = fb_rank b /\ fb_is_valid (reopened b) = fb_is_valid b.
Proof. unfold reopened. destruct (fb_reopened b) as [c|] eqn:E; [by apply reopened_same|done]. Qed.

Lemma reopened_wf b : fork_block_wf b -> fork_block_wf (reopened b).
Proof. destruct (reopened_keys b) as (E1 & E2 & E3 & _). intros [? ? ?]. by split; rewrite ?E1, ?E2, ?E3. Qed.

Lemma reopened_before a b : before (reopened a) (reopened b) <-> before a b.
Proof.
  destruct (reopened_keys a) as (E1 & _ & _ & E2 & _), (reopened_keys b) as (E3 & _ & _ & E4 & _).
  unfold before. by rewrite E1, E2, E3, E4.
Qed.

Lemma reopened_ascending l : ascending l -> ascending (map reopened l).
Proof.
  induction 1 as [|b l _ IH Hb]; cbn; [constructor|]. constructor; [done|]. apply Forall_map.
  eapply Forall_impl; [exact Hb|]. intros c. by rewrite reopened_before.
Qed.

Lemma reopened_index idx r : index_inv idx r -> index_inv (reopened <$> idx) (reopened r).
Proof.
  destruct (reopened_keys r) as (E1 & _ & E3 & _). intros [K L R N]. split.
  - intros i c. rewrite lookup_fmap. intros (b & Hb & ->)%fmap_Some. destruct (K _ _ Hb). split; [|by apply reopened_wf].
    by destruct (reopened_keys b) as (-> & _).
  - intros i c. rewrite !lookup_fmap. intros (b & Hb & ->)%fmap_Some. destruct (reopened_keys b) as (_ & -> & _). rewrite E1.
    rewrite fmap_is_Some. by apply (L i).
  - by rewrite lookup_fmap, E1, R.
  - by rewrite E1, E3.
Qed.

Lemma reopened_ranked idx : ranked idx -> ranked (reopened <$> idx).
Proof.
  intros R i c q. rewrite !lookup_fmap. intros (b & Hb & ->)%fmap_Some. destruct (reopened_keys b) as (_ & -> & _).
  intros (p & Hp & ->)%fmap_Some. apply reopened_before. by apply (R i).
Qed.

Lemma reopened_blocks idx : blocks_of (reopened <$> idx) ≡ₚ map reopened (blocks_of idx).
Proof.
  unfold blocks_of. rewrite map_to_list_fmap. change (@map ?X ?Y) with (@fmap list _ X Y). rewrite <- !list_fmap_compose. done.
Qed.

Lemma read_blocks {A} (f : A -> B -> result A) l a : (forall b, b ∈ l -> reopens b) ->
  foldM (fun a b => b ← fb_reopened b; f a b) a l = foldM f a (map reopened l).
Proof.
  revert a. induction l as [|b l IH]; intros a H; [done|]. cbn [foldM map]. rewrite (reopens_Ok b) by (apply H; by left).
  cbn [mbind result_bind]. destruct (f a (reopened b)) as [a'|]; [|done]. cbn. apply IH. intros c Hc. apply H. by right.
Qed.

Section Loop.
(** The database that is read back, and a part [l] of its blocks, worst first. *)
Context (idx : gmap block_id_type B) (r : B) (validator : validator_t).
Context (I : index_inv idx r) (R : ranked idx) (C : claims_readable idx).
Context (Hv : forall t cur new, is_ok (validator t cur new) = true).

Lemma reopen_loop l db done : fdb_inv db r -> ascending (done ++ l) -> (done ++ l) ≡ₚ blocks_of idx ->
  (forall i b, index db !! i = Some b <-> idx !! i = Some b /\ b ∈ done) ->
  exists db', foldM (fun db b => r ← add db b false (Some validator); Ok r.2) db l = Ok db' /\ fdb_inv db' r /\
    index db' = idx /\ num_from_id (pending_savanna_lib_id db) <= num_from_id (pending_savanna_lib_id db').
Proof.
  revert db done. induction l as [|b l IH]; intros db done D Hs Hp Hi.
  - exists db. split_and!; [done|done| |lia]. apply map_eq. intros i. apply option_eq. intros b. rewrite Hi.
    split; [by intros [? _]|]. intros Hb. split; [done|]. rewrite app_nil_r in Hp. rewrite Hp. apply blocks_of_spec. by exists i.
  - assert (Hb : exists i, idx !! i = Some b).
    { apply blocks_of_spec. rewrite <- Hp. apply elem_of_app. right. by left. }
    destruct Hb as [i Hb]. destruct (ii_key _ _ I _ _ Hb) as [<- W].
    apply StronglySorted_app in Hs as Hs'. destruct Hs' as (Hcross & _ & Hsl).
    assert (Hnew : b ∉ done).
    { intros Hd. eapply before_irrefl, (Hcross b b); [done|by left]. }
    destruct (add_new db r b validator D W) as (x & db1 & E & Ei & D1 & Hle); [| |by apply (C _ _ Hb)| |done|].
    + apply eq_None_not_Some. intros [c [Hc Hin]%Hi]. assert (c = b) as -> by congruence. done.
    + destruct (ii_link _ _ I _ _ Hb) as [|[p Hpar]]; [by left|right]. exists p. apply Hi. split; [done|].
      pose proof (R _ _ _ Hb Hpar) as Hrank. assert (Hin : p ∈ done ++ b :: l) by (rewrite Hp; apply blocks_of_spec; by eexists).
      apply elem_of_app in Hin as [|Hin]; [done|]. apply elem_of_cons in Hin as [->|Hin]; [by destruct (before_irrefl b)|].
      apply StronglySorted_inv in Hsl as [_ Hsl]. rewrite Forall_forall in Hsl.
      destruct (before_irrefl b). exact (before_trans _ _ _ Hrank (Hsl _ Hin)).
    + intros j c [Hc _]%Hi. by apply (C _ _ Hc).
    + cbn [foldM]. rewrite E. cbn [mbind result_bind snd].
      destruct (IH db1 (done ++ [b])) as (db' & E' & D' & Ei' & Hle').
      * done.
      * by rewrite <- app_assoc.
      * by rewrite <- app_assoc.
      * intros j c. rewrite Ei, lookup_insert_Some, Hi, elem_of_app, list_elem_of_singleton. split.
        -- intros [[<- <-]|[Hne [Hc Hin]]]; [split; [done|by right]|split; [done|by left]].
        -- intros [Hc [Hin|Ec]]; [right|left; subst c; split; [by destruct (ii_key _ _ I _ _ Hc)|done]].
           split; [|done]. intros <-. rewrite Hb in Hc. injection Hc as <-. done.
      * exists db'. split_and!; [done|done|done|lia].
Qed.
End Loop.

Lemma blocks_of_NoDup idx r : index_inv idx r -> NoDup (blocks_of idx).
Proof.
  intros I. apply NoDup_alt. intros i j b Hi Hj. unfold blocks_of in *. rewrite list_lookup_fmap in Hi, Hj.
  apply fmap_Some in Hi as ([k1 b1] & Hi & ->), Hj as ([k2 b2] & Hj & E). cbn in E. subst b2.
  pose proof (list_elem_of_lookup_2 _ _ _ Hi) as Mi%elem_of_map_to_list. pose proof (list_elem_of_lookup_2 _ _ _ Hj) as Mj%elem_of_map_to_list.
  destruct (ii_key _ _ I _ _ Mi) as [E1 _], (ii_key _ _ I _ _ Mj) as [E2 _]. rewrite E1 in E2. subst k2.
  by eapply NoDup_lookup; [apply (NoDup_map_to_list idx)|..].
Qed.

(** A database that is written and read back has its root and its blocks, as
    they are read back, and a pending last irreversible block that is not older. *)
Lemma reopen_spec db r (validator : validator_t) : fdb_inv db r -> ranked (index db) -> claims_readable (reopened <$> index db) ->
  reopens r -> (forall i b, index db !! i = Some b -> reopens b) -> (forall t cur new, is_ok (validator t cur new) = true) ->
  exists stored db', close db = Ok stored /\ open stored validator = Ok db' /\ fdb_inv db' (reopened r) /\ index db' = reopened <$> index db /\
    num_from_id (pending_savanna_lib_id db) <= num_from_id (pending_savanna_lib_id db').
Proof.
  intros [Hr I Hvr] R C Hrr Hrb Hv. unfold close. rewrite Hr. cbn [at_or_assert mbind result_bind].
  set (db0 := (set_pending_savanna_lib_id (reset_root (reopened r)) (pending_savanna_lib_id db)).2).
  destruct (reopened_keys r) as (_ & _ & _ & _ & Ev). pose proof (reopened_index _ _ I) as I2.
  pose proof (set_pending_inv _ _ (pending_savanna_lib_id db) (reset_root_inv _ (ii_root_num _ _ I2))) as D0.
  rewrite (set_valid_same (reopened r) true) in D0 by congruence.
  set (blocks := worst_first (blocks_of (index db))).
  assert (Hs : ascending blocks) by (apply worst_first_sorted; [by eapply blocks_of_NoDup|by apply (index_distinct _ (index_keys _ _ I))]).
  assert (Hp : map reopened blocks ≡ₚ blocks_of (reopened <$> index db)).
  { rewrite reopened_blocks. apply Permutation_map, worst_first_perm. }
  destruct (reopen_loop (reopened <$> index db) (reopened r) validator I2 (reopened_ranked _ R) C Hv (map reopened blocks) db0 []) as (db' & E & D' & Ei & Hle).
  - exact D0.
  - by apply reopened_ascending.
  - exact Hp.
  - intros i b. unfold db0. destruct (set_pending_index (reset_root (reopened r)) (pending_savanna_lib_id db)) as [_ ->].
    cbn. rewrite lookup_empty. split; [done|]. intros [_ Hb]. by apply elem_of_nil in Hb.
  - eexists _, db'. split_and!; [reflexivity| |exact D'|exact Ei|].
    + unfold open. rewrite (reopens_Ok r Hrr). cbn [mbind result_bind]. rewrite (read_blocks (fun db b => r ← add db b false (Some validator); Ok r.2)); [exact E|].
      intros b Hb. unfold blocks in Hb. rewrite worst_first_perm in Hb. apply blocks_of_spec in Hb as [i Hb]. by apply (Hrb i).
    + etrans; [|exact Hle]. unfold db0, set_pending_savanna_lib_id. case_comparison; cbn in *; lia.
Qed.
End Reopen.

(** ** Savanna blocks *)

Section Savanna.
Context {hasher : Sha256Hash} {keyok : BlsKeyValid} {bls : Bls}.

(** What is left of a block state that has been packed and unpacked, by the lists
    of members that are reflected: [reflector_init] makes the header extensions and
    the flags of the votes anew, and the members that are caches are not written. *)
Definition reopened_votes (v : votes_t) : votes_t := Votes (bitset v) (votes_sig v) (bitset v).

Definition reopened_qc_sig (a : aggregating_qc_sig_t) : aggregating_qc_sig_t :=
  AggregatingQcSig (received_qc_sig a) (quorum a) (max_weak_sum a) (aggregating_state a) (strong_sum a) (weak_sum a)
    (reopened_votes (agg_weak_votes a)) (reopened_votes (agg_strong_votes a)).

Definition reopened_header_state (s : block_header_state) : result block_header_state :=
  exts ← validate_and_extract_header_extensions (header s);
  Ok (MkBlockHeaderState (id s) (header s) (activated_protocol_features s) (core s) (active_finalizer_policy s)
        (active_proposer_policy s) (latest_proposed_proposer_policy s) (latest_pending_proposer_policy s)
        (proposed_finalizer_policies s) (pending_finalizer_policy s) (latest_qc_claim_block_active_finalizer_policy s)
        (finalizer_policy_generation s) (last_pending_finalizer_policy_digest s)
        (last_pending_finalizer_policy_start_timestamp s) exts).

Definition reopened_block_state (s : block_state) : result block_state :=
  h ← reopened_header_state (bhs s);
  let qc := aggregating_qc s in
  Ok (MkBlockState h (strong_digest s) (weak_digest s)
        (AggregatingQc (agg_active_policy qc) (agg_pending_policy qc) (reopened_qc_sig (agg_active_sig qc)) (reopened_qc_sig <$> agg_pending_sig qc))
        (valid_data s) (validated s) sha256_default None).

#[export] Instance savanna_fork_block : ForkBlock block_state := {|
  fb_id s := id (bhs s);
  fb_previous s := previous (header (bhs s));
  fb_num := bs_block_num;
  fb_timestamp s := bhs_timestamp (bhs s);
  fb_rank s := (from_ok 0 (latest_qc_block_timestamp (core (bhs s))), bhs_timestamp (bhs s));
  fb_is_valid := validated;
  fb_set_valid s v := MkBlockState (bhs s) (strong_digest s) (weak_digest s) (aggregating_qc s) (valid_data s) v
                        (bs_action_mroot s) (cached_base_digest s);
  fb_features s := activated_protocol_features (bhs s);
  fb_new_features s :=
    match find_extension (header_exts (bhs s)) protocol_feature_activation_id with
    | Some (ProtocolFeatureActivation features) => Some features
    | _ => None
    end;
  fb_qc_claim s := claim ← extract_qc_claim s; Ok (Some claim);
  fb_claimed_lib s :=
    claim ← latest_qc_claim (core (bhs s));
    r ← get_block_reference (core (bhs s)) (claim_block_num claim);
    Ok (block_id r);
  fb_reopened := reopened_block_state
|}.

#[export] Instance savanna_fork_block_ok : ForkBlockOk block_state.
Proof.
  split; try done.
  - intros [] v E. by rewrite <- E.
  - intros b c H. cbn in H. unfold reopened_block_state, reopened_header_state in H. inv_result. done.
Qed.
End Savanna.

(** ** Properties *)

Section Properties.
Context {B : Type} {fork_block : ForkBlock B} {fork_block_ok : ForkBlockOk B}.
Implicit Types (db : fork_database B) (b c n r : B).

(** The databases that the operations make, with their roots. *)
Inductive fork_db_run : fork_database B -> Prop :=
| run_reset b : num_from_id (fb_id b) = fb_num b -> fork_db_run (reset_root b)
| run_add db n ignore_duplicate validator :
    fork_db_run db -> fork_block_wf n -> fork_db_run (add_after db n ignore_duplicate validator)
| run_mark_valid db id db' : fork_db_run db -> mark_valid db id = Ok db' -> fork_db_run db'
| run_remove db id : fork_db_run db -> fork_db_run (remove db id)
| run_remove_num db num : fork_db_run db -> fork_db_run (remove_num db num)
| run_advance_root db id db' : fork_db_run db -> advance_root db id = Ok db' -> fork_db_run db'
| run_set_pending db id : fork_db_run db -> fork_db_run (set_pending_savanna_lib_id db id).2.

Lemma fork_db_run_inv db : fork_db_run db -> exists r, fdb_inv db r.
Proof.
  induction 1 as [b Hn|db n d v _ [r D] W|db i db' _ [r D] H|db i _ [r D]|db num _ [r D]|db i db' _ [r D] H|db i _ [r D]].
  - eexists. by apply reset_root_inv.
  - exists r. by apply add_after_inv.
  - exists r. by eapply mark_valid_inv.
  - exists r. by apply remove_inv.
  - exists r. by apply remove_num_inv.
  - pose proof (advance_root_spec db r i D) as Hs. destruct (index db !! i) as [b|]; [|congruence].
    destruct (fb_is_valid b); [|congruence]. destruct Hs as (db1 & E & D1 & _). exists b. congruence.
  - exists r. by apply set_pending_inv.
Qed.

(** C34: However the operations of the fork database are interleaved, every block
    of the index is under its own id, the loops that follow [previous] from it
    go down to the root, one block number at a time, and the head is the first
    block of the best-branch order. *)
Theorem fork_database_is_a_tree db : fork_db_run db ->
  exists r, root db = Some r /\ fb_is_valid r = true /\ index db !! fb_id r = None /\
    (forall i b, index db !! i = Some b -> fb_id b = i /\ exists l,
       walk_from db i = b :: l /\ last (map fb_previous (b :: l)) = Some (fb_id r) /\
       forall j c, (b :: l) !! j = Some c -> index db !! fb_id c = Some c /\ fb_num c = fb_num b - Z.of_nat j /\ fb_num r < fb_num c) /\
    (index db <> ∅ -> exists h, head db false = Some h /\ first_of (blocks_of (index db)) h).
Proof.
  intros (r & [Hr I Hv])%fork_db_run_inv. exists r. split_and!; [done|done|apply (ii_root _ _ I)| |].
  - intros i b Hi. destruct (ii_key _ _ I _ _ Hi) as [E _]. split; [done|].
    destruct (walk_index I _ _ Hi) as (l & Hl & Hw). exists l. split_and!; [done| |].
    + clear Hi E Hw. remember (b :: l) as k eqn:Ek. assert (Hne : k <> []) by by subst. clear Ek.
      induction Hl as [|i c k Hc Hp IH]; [done|]. destruct k as [|d k]; [inversion Hp as [E|]; cbn; by rewrite E|]. by apply IH.
    + intros j c Hj. destruct (path_lookup I _ _ _ _ Hl Hj) as [Hc Hn]. split_and!; [done| |by apply (index_above_root I _ _ Hc)].
      by rewrite (index_num I _ _ Hi).
  - intros Hne. pose proof (head_spec db false (index_keys _ _ I)) as Hh. by rewrite decide_False in Hh.
Qed.

(** [add] links a block to the tree or throws; it reports a duplicate, and
    else whether the block is the new head, on the branch of the old one or
    on another. *)
Theorem add_correct db n ignore_duplicate validator x db' :
  fork_db_run db -> fork_block_wf n -> add db n ignore_duplicate validator = Ok (x, db') ->
  is_Some (get_block db (fb_previous n) true) /\
  match x with
  | add_failure => False
  | add_duplicate => is_Some (index db !! fb_id n) /\ ignore_duplicate = true /\ index db' = index db
  | _ => index db !! fb_id n = None /\ index db' = <[fb_id n := n]> (index db) /\
      exists h, head db' false = Some h /\ first_of (blocks_of (index db')) h /\
        (x = add_added <-> h <> n) /\
        (x = add_appended_to_head <-> h = n /\ exists p, head db true = Some p /\ fb_id p = fb_previous n)
  end.
Proof.
  intros (r & D)%fork_db_run_inv W H. destruct (add_spec _ _ _ _ _ _ _ D W H) as (_ & Hp & Hx). split; [|done].
  unfold get_block. rewrite (fd_root _ _ D). cbn [andb].
  destruct (bool_decide_reflect (fb_id r = fb_previous n)) as [|Hne]; [by eexists|]. by destruct Hp; [congruence|].
Qed.

(** [advance_root] makes a valid block of the index the root and keeps its
    descendants and nothing else; it throws exactly when the block is not
    there or not valid, and never finds an orphaned branch. *)
Theorem advance_root_correct db id : fork_db_run db ->
  match index db !! id with
  | Some b =>
      if fb_is_valid b then
        exists db', advance_root db id = Ok db' /\ root db' = Some b /\ pending_savanna_lib_id db' = pending_savanna_lib_id db /\
          forall i c, index db' !! i = Some c <-> index db !! i = Some c /\ descends (index db) id i
      else advance_root db id = Throw fork_database_exception
  | None => advance_root db id = Throw fork_database_exception
  end.
Proof.
  intros (r & D)%fork_db_run_inv. pose proof (advance_root_spec db r id D) as H.
  destruct (index db !! id) as [b|]; [|done]. destruct (fb_is_valid b); [|done].
  destruct H as (db' & E & D' & Hp & Hk). exists db'. split_and!; [done|apply (fd_root _ _ D')|done|done].
Qed.

(** [remove] removes a block and its descendants, and nothing else. *)
Theorem remove_correct db id i b : fork_db_run db ->
  index (remove db id) !! i = Some b <-> index db !! i = Some b /\ i <> id /\ ~ descends (index db) id i.
Proof. intros (r & D)%fork_db_run_inv. apply remove_from_lookup, (index_keys _ _ (fd_index _ _ D)). Qed.

(** [fetch_branch_from] splits the branches of two blocks at the block where
    they meet: what it returns are the parts above it, which share no block.
    It throws exactly when one of the blocks is not in the database. *)
Theorem fetch_branch_from_correct db first second : fork_db_run db ->
  match block_or_root db first, block_or_root db second with
  | Ok _, Ok _ => exists f s, fetch_branch_from db first second = Ok (f, s) /\
      (exists l, walk_from db first = f ++ l /\ walk_from db second = s ++ l) /\ forall b, b ∈ f -> b ∈ s -> False
  | _, _ => fetch_branch_from db first second = Throw fork_db_block_not_found
  end.
Proof.
  intros (r & D)%fork_db_run_inv. pose proof (fetch_branch_from_spec D first second) as H.
  destruct (block_or_root db first), (block_or_root db second); try done.
  destruct H as (f & s & E & [Hc Hd]). by exists f, s.
Qed.

(** [is_descendant_of] decides ancestry. *)
Theorem is_descendant_of_correct db ancestor descendant : fork_db_run db ->
  is_descendant_of db ancestor descendant = true <-> descends (index db) ancestor descendant.
Proof. intros (r & D)%fork_db_run_inv. by eapply is_descendant_of_spec. Qed.

(** C35: A fork database that is closed and opened again has the same root and
    the same blocks, each as it is after being packed and unpacked (for a block
    state [reopened_block_state]: its caches are not written, the header
    extensions and the flags of the votes are made anew); the pending last
    irreversible block is not older.  Blocks are written parents first: this, and
    that reading them does not fail, is for a database where every block is
    before its parent in the best-branch order ([ranked]), every block can be
    unpacked ([reopens]) and then its claims can be read ([claims_readable]), and
    for a validator that accepts the protocol features of the blocks. *)
Theorem fork_database_reopens db r (validator : validator_t) :
  fork_db_run db -> root db = Some r -> ranked (index db) ->
  reopens r -> (forall i b, index db !! i = Some b -> reopens b) -> claims_readable (reopened <$> index db) ->
  (forall t cur new, is_ok (validator t cur new) = true) ->
  exists stored db', close db = Ok stored /\ open stored validator = Ok db' /\ root db' = Some (reopened r) /\
    index db' = reopened <$> index db /\
    num_from_id (pending_savanna_lib_id db) <= num_from_id (pending_savanna_lib_id db').
Proof.
  intros (r' & D)%fork_db_run_inv Hr R Hrr Hrb C Hv. rewrite (fd_root _ _ D) in Hr. injection Hr as ->.
  destruct (reopen_spec db r validator D R C Hrr Hrb Hv) as (st & db' & E1 & E2 & D' & Ei & Hp).
  exists st, db'. split_and!; [done|done|apply (fd_root _ _ D')|done|done].
Qed.
End Properties.

(** ** The properties on a tree with a fork *)

#[local] Existing Instances example_bls example_hash example_hash_words unit_bls.

(** The blocks of [Safety]'s network: 10 is the root, 11 to 13 a branch, and
    another block 12 on 11, which arrives before 13. *)
Definition fork_add (db : fork_database block_state) (s : block_header_state) : fork_db_add_t * fork_database block_state :=
  from_ok (add_duplicate, db) (add db (net_state s) false None).

Definition fork_db_0 := Eval vm_compute in reset_root (net_state net_0).
Definition fork_db_1 := Eval vm_compute in (fork_add fork_db_0 net_1).2.
Definition fork_db_2 := Eval vm_compute in (fork_add fork_db_1 net_2).2.
Definition fork_db_3 := Eval vm_compute in (fork_add fork_db_2 net_fork).2.
Definition fork_db_4 := Eval vm_compute in (fork_add fork_db_3 net_3).2.

Definition net_validator : validator_t := fun _ _ _ => Ok tt.

Lemma net_block_wf s : s ∈ [net_1; net_2; net_fork; net_3] -> fork_block_wf (net_state s).
Proof.
  rewrite !elem_of_cons. intros [->|[->|[->|[->|H]]]]; [..|by apply elem_of_nil in H]; split; by vm_compute.
Qed.

Lemma fork_add_run db s x db' : fork_db_run db -> s ∈ [net_1; net_2; net_fork; net_3] ->
  add db (net_state s) false None = Ok (x, db') -> fork_db_run db'.
Proof.
  intros H Hs E. assert (Ea : add_after db (net_state s) false None = db').
  { apply fork_db_run_inv in H as [r D]. unfold add_after. by rewrite (fd_root _ _ D), E. }
  rewrite <- Ea. apply run_add; [done|by apply net_block_wf].
Qed.

Lemma fork_db_run_0 : fork_db_run fork_db_0.
Proof.
  assert (E : fork_db_0 = reset_root (net_state net_0)) by by vm_compute. rewrite E. apply run_reset. by vm_compute.
Qed.
Lemma fork_db_run_1 : fork_db_run fork_db_1.
Proof. eapply (fork_add_run fork_db_0 net_1); [exact fork_db_run_0|by left|by vm_compute]. Qed.
Lemma fork_db_run_2 : fork_db_run fork_db_2.
Proof. eapply (fork_add_run fork_db_1 net_2); [exact fork_db_run_1|by right; left|by vm_compute]. Qed.
Lemma fork_db_run_3 : fork_db_run fork_db_3.
Proof. eapply (fork_add_run fork_db_2 net_fork); [exact fork_db_run_2|by do 2 right; left|by vm_compute]. Qed.
Lemma fork_db_run_4 : fork_db_run fork_db_4.
Proof. eapply (fork_add_run fork_db_3 net_3); [exact fork_db_run_3|by do 3 right; left|by vm_compute]. Qed.

Lemma fork_database_is_a_tree_witness : exists r, root fork_db_4 = Some r /\ fb_is_valid r = true /\
  index fork_db_4 !! fb_id r = None /\
  (forall i b, index fork_db_4 !! i = Some b -> fb_id b = i /\ exists l,
     walk_from fork_db_4 i = b :: l /\ last (map fb_previous (b :: l)) = Some (fb_id r) /\
     forall j c, (b :: l) !! j = Some c ->
       index fork_db_4 !! fb_id c = Some c /\ fb_num c = fb_num b - Z.of_nat j /\ fb_num r < fb_num c) /\
  (index fork_db_4 <> ∅ -> exists h, head fork_db_4 false = Some h /\ first_of (blocks_of (index fork_db_4)) h).
Proof. apply (fork_database_is_a_tree fork_db_4). exact fork_db_run_4. Defined.

Lemma add_correct_witness :
  add fork_db_3 (net_state net_3) false None = Ok ((fork_add fork_db_3 net_3).1, fork_db_4) /\
  is_Some (get_block fork_db_3 (fb_previous (net_state net_3)) true) /\
  match (fork_add fork_db_3 net_3).1 with
  | add_failure => False
  | add_duplicate => is_Some (index fork_db_3 !! fb_id (net_state net_3)) /\ false = true /\ index fork_db_4 = index fork_db_3
  | _ => index fork_db_3 !! fb_id (net_state net_3) = None /\
      index fork_db_4 = <[fb_id (net_state net_3) := net_state net_3]> (index fork_db_3) /\
      exists h, head fork_db_4 false = Some h /\ first_of (blocks_of (index fork_db_4)) h /\
        ((fork_add fork_db_3 net_3).1 = add_added <-> h <> net_state net_3) /\
        ((fork_add fork_db_3 net_3).1 = add_appended_to_head <->
           h = net_state net_3 /\ exists p, head fork_db_3 true = Some p /\ fb_id p = fb_previous (net_state net_3))
  end.
Proof.
  assert (E : add fork_db_3 (net_state net_3) false None = Ok ((fork_add fork_db_3 net_3).1, fork_db_4)) by by vm_compute.
  split; [exact E|]. apply (add_correct fork_db_3 (net_state net_3) false None); [exact fork_db_run_3| |exact E].
  apply net_block_wf. by do 3 right; left.
Defined.

Lemma advance_root_correct_witness :
  match index fork_db_4 !! id net_2 with
  | Some b =>
      if fb_is_valid b then
        exists db', advance_root fork_db_4 (id net_2) = Ok db' /\ root db' = Some b /\
          pending_savanna_lib_id db' = pending_savanna_lib_id fork_db_4 /\
          forall i c, index db' !! i = Some c <-> index fork_db_4 !! i = Some c /\ descends (index fork_db_4) (id net_2) i
      else advance_root fork_db_4 (id net_2) = Throw fork_database_exception
  | None => advance_root fork_db_4 (id net_2) = Throw fork_database_exception
  end.
Proof. apply (advance_root_correct fork_db_4 (id net_2)). exact fork_db_run_4. Defined.

Lemma remove_correct_witness :
  index (remove fork_db_4 (id net_2)) !! id net_3 = Some (net_state net_3) <->
  index fork_db_4 !! id net_3 = Some (net_state net_3) /\ id net_3 <> id net_2 /\ ~ descends (index fork_db_4) (id net_2) (id net_3).
Proof. apply (remove_correct fork_db_4 (id net_2) (id net_3) (net_state net_3)). exact fork_db_run_4. Defined.

Lemma fetch_branch_from_correct_witness :
  match block_or_root fork_db_4 (id net_fork), block_or_root fork_db_4 (id net_3) with
  | Ok _, Ok _ => exists f s, fetch_branch_from fork_db_4 (id net_fork) (id net_3) = Ok (f, s) /\
      (exists l, walk_from fork_db_4 (id net_fork) = f ++ l /\ walk_from fork_db_4 (id net_3) = s ++ l) /\
      forall b, b ∈ f -> b ∈ s -> False
  | _, _ => fetch_branch_from fork_db_4 (id net_fork) (id net_3) = Throw fork_db_block_not_found
  end.
Proof. apply (fetch_branch_from_correct fork_db_4 (id net_fork) (id net_3)). exact fork_db_run_4. Defined.

Lemma is_descendant_of_correct_witness :
  is_descendant_of fork_db_4 (id net_1) (id net_3) = true <-> descends (index fork_db_4) (id net_1) (id net_3).
Proof. apply (is_descendant_of_correct fork_db_4 (id net_1) (id net_3)). exact fork_db_run_4. Defined.

(** A check of every block of a map. *)
Lemma every_block (f : block_state -> bool) (idx : gmap block_id_type block_state) :
  forallb f (blocks_of idx) = true -> forall i b, idx !! i = Some b -> f b = true.
Proof.
  intros H i b Hi. rewrite forallb_forall in H. apply H, list_elem_of_In, blocks_of_spec. by exists i.
Qed.

Definition ranked_check (b : block_state) : bool :=
  match index fork_db_4 !! fb_previous b with Some p => better b p | None => true end.
Definition reopen_check (b : block_state) : bool :=
  is_ok (fb_reopened b) && is_ok (fb_qc_claim (reopened b)) && is_ok (fb_claimed_lib (reopened b)).

Lemma fork_db_4_checks : forallb (fun b => ranked_check b && reopen_check b) (blocks_of (index fork_db_4)) = true.
Proof. by vm_compute. Qed.

Lemma fork_db_4_check i b : index fork_db_4 !! i = Some b -> ranked_check b = true /\ reopen_check b = true.
Proof. intros Hi. apply andb_true_iff. exact (every_block _ _ fork_db_4_checks i b Hi). Qed.

Lemma fork_db_4_ranked : ranked (index fork_db_4).
Proof.
  intros i b p Hi Hp. apply better_before. destruct (fork_db_4_check i b Hi) as [H _]. unfold ranked_check in H. by rewrite Hp in H.
Qed.

Lemma fork_db_4_reopens i b : index fork_db_4 !! i = Some b -> reopens b.
Proof. intros Hi. destruct (fork_db_4_check i b Hi) as [_ [[H _]%andb_true_iff _]%andb_true_iff]. exact H. Qed.

Lemma fork_db_4_claims : claims_readable (reopened <$> index fork_db_4).
Proof.
  intros i c. rewrite lookup_fmap. intros (b & Hi & ->)%fmap_Some.
  destruct (fork_db_4_check i b Hi) as [_ [[_ H1]%andb_true_iff H2]%andb_true_iff]. by split.
Qed.

Lemma fork_database_reopens_witness :
  exists stored db', close fork_db_4 = Ok stored /\ open stored net_validator = Ok db' /\
    root db' = Some (reopened (net_state net_0)) /\ index db' = reopened <$> index fork_db_4 /\
    num_from_id (pending_savanna_lib_id fork_db_4) <= num_from_id (pending_savanna_lib_id db').
Proof.
  apply (fork_database_reopens fork_db_4 (net_state net_0) net_validator);
    [exact fork_db_run_4|reflexivity|exact fork_db_4_ranked|by vm_compute|exact fork_db_4_reopens|exact fork_db_4_claims|done].
Defined.
