(* ===== verification/ResourceLimits.v ===== *)
(** * Resource limits

    [resource_limits.hpp], [resource_limits_private.hpp] and
    [resource_limits.cpp]: the moving averages of what accounts and blocks use,
    the elastic limits of blocks, and the limits of accounts.  The rows of
    chainbase that [resource_limits_manager] reads and writes are the record of
    the same name here; a row that the database does not find is
    [std_out_of_range], one that it has already is [std_logic_error].  An
    exception loses the changes made before it, since the controller's session
    undoes them.  Names of accounts are their 64-bit values. *)

From stdpp Require Import sorting.
From Stdlib Require Import QArith.QArith QArith.Qabs Lqa.
From S2P Require Import Prelude ChainTypes.
Open Scope Z_scope.

Definition wrap128 (z : Z) : Z := z mod 2 ^ 128.
Definition int64_max : Z := 2 ^ 63 - 1.
(** A 64-bit unsigned integer read as a signed one. *)
Definition int64_of (z : Z) : Z := if z <=? int64_max then z else z - 2 ^ 64.

Definition rate_limiting_precision : Z := 1000 * 1000.
Definition maximum_elastic_resource_multiplier : Z := 1000.
Definition percent_100 : Z := 10000.
Definition account_cpu_usage_average_window_ms : Z := 24 * 60 * 60 * 1000.
Definition account_net_usage_average_window_ms : Z := 24 * 60 * 60 * 1000.
Definition block_cpu_usage_average_window_ms : Z := 60 * 1000.
Definition block_size_average_window_ms : Z := 60 * 1000.
Definition default_max_block_net_usage : Z := 1024 * 1024.
Definition default_target_block_net_usage_pct : Z := 10 * 100.
Definition default_max_block_cpu_usage : Z := 200000.
Definition default_target_block_cpu_usage_pct : Z := 10 * 100.
Definition EOS_PERCENT (value percentage : Z) : Z := wrap64 (value * percentage) / percent_100.

(** ** Ratios and casts *)

Record ratio : Set := Ratio { numerator : Z; denominator : Z }.
#[export] Instance ratio_eq_dec : EqDecision ratio.
Proof. solve_decision. Defined.

(** [value * r] in the unsigned type whose greatest value is [max]. *)
Definition mul_ratio (max value : Z) (r : ratio) : result Z :=
  EOS_ASSERT (numerator r =? 0) || (value <=? max / numerator r) ,, rate_limiting_state_inconsistent ;;
  ASSERT negb (denominator r =? 0) ;;
  Ok (value * numerator r / denominator r).

Definition integer_divide_ceil (num den : Z) : Z := num / den + (if 0 <? num mod den then 1 else 0).

(** The casts of the code are from [uint128_t]; [max] is the greatest value of
    the type they are to. *)
Definition downgrade_cast (max val : Z) : result Z :=
  EOS_ASSERT (0 <=? val) && (val <=? max) ,, rate_limiting_state_inconsistent ;; Ok val.

(** ** Accumulators *)

Definition max_raw_value : Z := uint64_max / rate_limiting_precision.

(** [exponential_moving_average_accumulator] *)
Record usage_accumulator : Set := UsageAccumulator {
  last_ordinal : Z;
  value_ex : Z;
  consumed : Z
}.
Definition usage_accumulator_default : usage_accumulator := UsageAccumulator 0 0 0.

Definition average (a : usage_accumulator) : Z := integer_divide_ceil (value_ex a) rate_limiting_precision.

Definition add_usage (a : usage_accumulator) (units ordinal window_size : Z) : result usage_accumulator :=
  EOS_ASSERT units <=? max_raw_value ,, rate_limiting_state_inconsistent ;;
  EOS_ASSERT units <=? uint64_max - consumed a ,, rate_limiting_state_inconsistent ;;
  ASSERT negb (window_size =? 0) ;;
  value_ex_contrib ← downgrade_cast uint64_max (integer_divide_ceil (units * rate_limiting_precision) window_size);
  EOS_ASSERT value_ex_contrib <=? uint64_max - value_ex a ,, rate_limiting_state_inconsistent ;;
  a ← (if decide (last_ordinal a = ordinal) then Ok a
       else
         EOS_ASSERT last_ordinal a <? ordinal ,, resource_limit_exception ;;
         v ← (if ordinal <? last_ordinal a + window_size
              then mul_ratio uint64_max (value_ex a) (Ratio (window_size - (ordinal - last_ordinal a)) window_size)
              else Ok 0);
         Ok (UsageAccumulator ordinal v (integer_divide_ceil v rate_limiting_precision)));
  Ok (UsageAccumulator (last_ordinal a) (wrap64 (value_ex a + value_ex_contrib)) (wrap64 (consumed a + units))).

(** [exponential_decay_accumulator] *)
Record decay_accumulator : Set := DecayAccumulator {
  decay_last_ordinal : Z;
  decay_value_ex : Z
}.
Definition decay_accumulator_default : decay_accumulator := DecayAccumulator 0 0.

Definition value_ex_at (a : decay_accumulator) (ordinal window_size : Z) : result Z :=
  if decay_last_ordinal a <? ordinal then
    if ordinal <? decay_last_ordinal a + window_size then
      v ← mul_ratio (2 ^ 128 - 1) (decay_value_ex a) (Ratio (window_size - (ordinal - decay_last_ordinal a)) window_size);
      downgrade_cast uint64_max v
    else Ok 0
  else Ok (decay_value_ex a).

Definition value_at (a : decay_accumulator) (ordinal window_size : Z) : result Z :=
  v ← value_ex_at a ordinal window_size; Ok (integer_divide_ceil v rate_limiting_precision).

Definition add_decay (a : decay_accumulator) (units ordinal window_size : Z) : result decay_accumulator :=
  EOS_ASSERT units <=? max_raw_value ,, rate_limiting_state_inconsistent ;;
  let units_ex := units * rate_limiting_precision in
  a ← (if decay_last_ordinal a <? ordinal
       then v ← value_ex_at a ordinal window_size; Ok (DecayAccumulator ordinal v)
       else Ok a);
  let new_value_ex := Z.min (units_ex + decay_value_ex a) uint64_max in
  v ← downgrade_cast uint64_max new_value_ex;
  Ok (DecayAccumulator (decay_last_ordinal a) v).

(** ** Elastic limits *)

Record elastic_limit_parameters : Set := ElasticLimitParameters {
  target : Z;
  max_usage : Z;  (* max *)
  periods : Z;
  max_multiplier : Z;
  contract_rate : ratio;
  expand_rate : ratio
}.
#[export] Instance elastic_limit_parameters_eq_dec : EqDecision elastic_limit_parameters.
Proof. solve_decision. Defined.

Definition validate (p : elastic_limit_parameters) : result () :=
  EOS_ASSERT 0 <? periods p ,, resource_limit_exception ;;
  EOS_ASSERT 0 <? denominator (contract_rate p) ,, resource_limit_exception ;;
  EOS_ASSERT 0 <? denominator (expand_rate p) ,, resource_limit_exception ;; Ok ().

Definition update_elastic_limit (current_limit average_usage : Z) (params : elastic_limit_parameters) : result Z :=
  result ← mul_ratio uint64_max current_limit (if target params <? average_usage then contract_rate params else expand_rate params);
  Ok (Z.min (Z.max result (max_usage params)) (wrap64 (max_usage params * max_multiplier params))).

(** ** The rows of the database *)

(** The key of a row of limits is whether it is pending, and its owner. *)
Record resource_limits_object : Set := ResourceLimitsObject {
  net_weight : Z;
  cpu_weight : Z;
  ram_bytes : Z
}.
Definition resource_limits_object_default : resource_limits_object := ResourceLimitsObject (-1) (-1) (-1).

Record resource_usage_object : Set := ResourceUsageObject {
  net_usage : usage_accumulator;
  cpu_usage : usage_accumulator;
  ram_usage : Z
}.
Definition resource_usage_object_default : resource_usage_object :=
  ResourceUsageObject usage_accumulator_default usage_accumulator_default 0.

Record resource_limits_config_object : Set := ResourceLimitsConfigObject {
  cpu_limit_parameters : elastic_limit_parameters;
  net_limit_parameters : elastic_limit_parameters;
  account_cpu_usage_average_window : Z;
  account_net_usage_average_window : Z
}.
Definition resource_limits_config_object_default : resource_limits_config_object := ResourceLimitsConfigObject
  (ElasticLimitParameters (EOS_PERCENT default_max_block_cpu_usage default_target_block_cpu_usage_pct) default_max_block_cpu_usage
     (block_cpu_usage_average_window_ms / block_interval_ms) 1000 (Ratio 99 100) (Ratio 1000 999))
  (ElasticLimitParameters (EOS_PERCENT default_max_block_net_usage default_target_block_net_usage_pct) default_max_block_net_usage
     (block_size_average_window_ms / block_interval_ms) 1000 (Ratio 99 100) (Ratio 1000 999))
  (account_cpu_usage_average_window_ms / block_interval_ms)
  (account_net_usage_average_window_ms / block_interval_ms).

Record resource_limits_state_object : Set := ResourceLimitsStateObject {
  average_block_net_usage : usage_accumulator;
  average_block_cpu_usage : usage_accumulator;
  pending_net_usage : Z;
  pending_cpu_usage : Z;
  total_net_weight : Z;
  total_cpu_weight : Z;
  total_ram_bytes : Z;
  virtual_net_limit : Z;
  virtual_cpu_limit : Z
}.

Abbreviation account_name := Z (only parsing).

Record resource_limits_manager : Set := ResourceLimitsManager {
  limits : gmap (bool * account_name) resource_limits_object;
  usages : gmap account_name resource_usage_object;
  config : resource_limits_config_object;
  state : resource_limits_state_object
}.
Implicit Types (db : resource_limits_manager) (s : resource_limits_state_object) (account : account_name).

Definition with_limits db l := ResourceLimitsManager l (usages db) (config db) (state db).
Definition with_usage db account u := ResourceLimitsManager (limits db) (<[account := u]> (usages db)) (config db) (state db).
Definition with_config db c := ResourceLimitsManager (limits db) (usages db) c (state db).
Definition with_state db s := ResourceLimitsManager (limits db) (usages db) (config db) s.

(** [_db.get] of a row. *)
Definition get_row {A} (o : option A) : result A :=
  match o with Some a => Ok a | None => Throw std_out_of_range end.

Definition initialize_database : resource_limits_manager :=
  let config := resource_limits_config_object_default in
  ResourceLimitsManager ∅ ∅ config
    (ResourceLimitsStateObject usage_accumulator_default usage_accumulator_default 0 0 0 0 0
       (max_usage (net_limit_parameters config)) (max_usage (cpu_limit_parameters config))).

Definition initialize_account db account : result resource_limits_manager :=
  EOS_ASSERT bool_decide (limits db !! (false, account) = None) ,, std_logic_error ;;
  EOS_ASSERT bool_decide (usages db !! account = None) ,, std_logic_error ;;
  Ok (with_usage (with_limits db (<[(false, account) := resource_limits_object_default]> (limits db)))
        account resource_usage_object_default).

Definition set_block_parameters db (cpu net : elastic_limit_parameters) : result resource_limits_manager :=
  _ ← validate cpu;
  _ ← validate net;
  let c := config db in
  if decide (cpu_limit_parameters c = cpu /\ net_limit_parameters c = net) then Ok db
  else Ok (with_config db (ResourceLimitsConfigObject cpu net (account_cpu_usage_average_window c) (account_net_usage_average_window c))).

(** ** Usage *)

(** The two accumulators of an account, after it has used more. *)
Definition add_account_usage db (bu : resource_usage_object) (cpu_used net_used time_slot : Z) : result resource_usage_object :=
  net ← add_usage (net_usage bu) net_used time_slot (account_net_usage_average_window (config db));
  cpu ← add_usage (cpu_usage bu) cpu_used time_slot (account_cpu_usage_average_window (config db));
  Ok (ResourceUsageObject net cpu (ram_usage bu)).

Definition update_account_usage db (accounts : list account_name) (time_slot : Z) : result resource_limits_manager :=
  foldM (fun db a =>
    usage ← get_row (usages db !! a);
    bu ← add_account_usage db usage 0 0 time_slot;
    Ok (with_usage db a bu)) db accounts.

(** The pending limits of an account, or else its limits. *)
Definition get_account_limits db account : result resource_limits_object :=
  match limits db !! (true, account) with
  | Some pending_buo => Ok pending_buo
  | None => get_row (limits db !! (false, account))
  end.

(** What an account of weight [weight] may use in a window. *)
Definition max_user_use_in_window (virtual_limit window_size weight total_weight : Z) : Z :=
  wrap128 (wrap128 (virtual_limit * window_size) * weight) / total_weight.

Definition within_limit (usage : usage_accumulator) (virtual_limit window_size weight total_weight : Z) : bool :=
  if (0 <=? weight) && (0 <? total_weight) then
    let used_in_window := wrap128 (value_ex usage * window_size) / rate_limiting_precision in
    used_in_window <=? max_user_use_in_window virtual_limit window_size weight total_weight
  else true.

(** The loop of [add_transaction_usage]: one of the accounts that are billed. *)
Definition bill_account (cpu_used net_used time_slot : Z) db account : result resource_limits_manager :=
  let c := config db in
  usage ← get_row (usages db !! account);
  l ← get_account_limits db account;
  bu ← add_account_usage db usage cpu_used net_used time_slot;
  EOS_ASSERT within_limit (cpu_usage bu) (virtual_cpu_limit (state db)) (account_cpu_usage_average_window c)
               (cpu_weight l) (total_cpu_weight (state db)) ,, tx_cpu_usage_exceeded ;;
  EOS_ASSERT within_limit (net_usage bu) (virtual_net_limit (state db)) (account_net_usage_average_window c)
               (net_weight l) (total_net_weight (state db)) ,, tx_net_usage_exceeded ;;
  Ok (with_usage db account bu).

Definition add_transaction_usage db (accounts : list account_name) (cpu_used net_used time_slot : Z) : result resource_limits_manager :=
  db ← foldM (bill_account cpu_used net_used time_slot) db accounts;
  let s := state db in
  let pending_cpu := wrap64 (pending_cpu_usage s + cpu_used) in
  let pending_net := wrap64 (pending_net_usage s + net_used) in
  EOS_ASSERT pending_cpu <=? max_usage (cpu_limit_parameters (config db)) ,, block_resource_exhausted ;;
  EOS_ASSERT pending_net <=? max_usage (net_limit_parameters (config db)) ,, block_resource_exhausted ;;
  Ok (with_state db (ResourceLimitsStateObject (average_block_net_usage s) (average_block_cpu_usage s) pending_net pending_cpu
    (total_net_weight s) (total_cpu_weight s) (total_ram_bytes s) (virtual_net_limit s) (virtual_cpu_limit s))).

Definition add_pending_ram_usage db account (ram_delta : Z) : result resource_limits_manager :=
  if ram_delta =? 0 then Ok db
  else
    usage ← get_row (usages db !! account);
    EOS_ASSERT (ram_delta <=? 0) || (ram_delta <=? uint64_max - ram_usage usage) ,, transaction_exception ;;
    EOS_ASSERT (0 <=? ram_delta) || (wrap64 (- ram_delta) <=? ram_usage usage) ,, transaction_exception ;;
    Ok (with_usage db account (ResourceUsageObject (net_usage usage) (cpu_usage usage) (wrap64 (ram_usage usage + ram_delta)))).

Definition verify_account_ram_usage db account : result () :=
  l ← get_account_limits db account;
  usage ← get_row (usages db !! account);
  EOS_ASSERT (ram_bytes l <? 0) || (ram_usage usage <=? ram_bytes l) ,, ram_usage_exceeded ;; Ok ().

Definition get_account_ram_usage db account : result Z :=
  usage ← get_row (usages db !! account); Ok (int64_of (ram_usage usage)).

(** ** Limits of accounts *)

(** [set_account_limits] returns whether the limit on memory got smaller. *)
Definition set_account_limits db account (new_ram_bytes new_net_weight new_cpu_weight : Z) : result (bool * resource_limits_manager) :=
  l ← (match limits db !! (true, account) with
       | Some pending_limits => Ok pending_limits
       | None => get_row (limits db !! (false, account))
       end);
  let decreased_limit := (0 <=? new_ram_bytes) && ((ram_bytes l <? 0) || (new_ram_bytes <? ram_bytes l)) in
  Ok (decreased_limit,
      with_limits db (<[(true, account) := ResourceLimitsObject new_net_weight new_cpu_weight new_ram_bytes]> (limits db))).

Definition is_unlimited_cpu db account : bool :=
  match limits db !! (false, account) with Some buo => cpu_weight buo =? -1 | None => false end.

(** [update_state_and_value]: the new total; the new value is [pending_value]. *)
Definition update_state_and_value (total value pending_value : Z) : result Z :=
  total ← (if 0 <? value then EOS_ASSERT value <=? total ,, rate_limiting_state_inconsistent ;; Ok (total - value) else Ok total);
  if 0 <? pending_value then
    EOS_ASSERT pending_value <=? uint64_max - total ,, rate_limiting_state_inconsistent ;; Ok (total + pending_value)
  else Ok total.

(** The accounts whose limits are pending, in the order of the index. *)
Definition pending_owners (l : gmap (bool * account_name) resource_limits_object) : list account_name :=
  merge_sort Z.le (map (fun p => p.1.2) (filter (fun p => p.1.1 = true) (map_to_list l))).

Definition apply_pending_limits db account : result resource_limits_manager :=
  let s := state db in
  pending ← get_row (limits db !! (true, account));
  actual ← get_row (limits db !! (false, account));
  ram ← update_state_and_value (total_ram_bytes s) (ram_bytes actual) (ram_bytes pending);
  cpu ← update_state_and_value (total_cpu_weight s) (cpu_weight actual) (cpu_weight pending);
  net ← update_state_and_value (total_net_weight s) (net_weight actual) (net_weight pending);
  Ok (with_state (with_limits db (delete (true, account) (<[(false, account) := pending]> (limits db))))
        (ResourceLimitsStateObject (average_block_net_usage s) (average_block_cpu_usage s) (pending_net_usage s)
           (pending_cpu_usage s) net cpu ram (virtual_net_limit s) (virtual_cpu_limit s))).

Definition process_account_limit_updates db : result resource_limits_manager :=
  foldM apply_pending_limits db (pending_owners (limits db)).

(** ** Limits of blocks *)

Definition update_virtual_cpu_limit s (cfg : resource_limits_config_object) : result Z :=
  update_elastic_limit (virtual_cpu_limit s) (average (average_block_cpu_usage s)) (cpu_limit_parameters cfg).
Definition update_virtual_net_limit s (cfg : resource_limits_config_object) : result Z :=
  update_elastic_limit (virtual_net_limit s) (average (average_block_net_usage s)) (net_limit_parameters cfg).

Definition process_block_usage db (block_num : Z) : result resource_limits_manager :=
  let c := config db in
  let s := state db in
  cpu ← add_usage (average_block_cpu_usage s) (pending_cpu_usage s) block_num (periods (cpu_limit_parameters c));
  let s := ResourceLimitsStateObject (average_block_net_usage s) cpu (pending_net_usage s) (pending_cpu_usage s)
             (total_net_weight s) (total_cpu_weight s) (total_ram_bytes s) (virtual_net_limit s) (virtual_cpu_limit s) in
  virtual_cpu ← update_virtual_cpu_limit s c;
  net ← add_usage (average_block_net_usage s) (pending_net_usage s) block_num (periods (net_limit_parameters c));
  let s := ResourceLimitsStateObject net cpu (pending_net_usage s) 0
             (total_net_weight s) (total_cpu_weight s) (total_ram_bytes s) (virtual_net_limit s) virtual_cpu in
  virtual_net ← update_virtual_net_limit s c;
  Ok (with_state db (ResourceLimitsStateObject net cpu 0 0
        (total_net_weight s) (total_cpu_weight s) (total_ram_bytes s) virtual_net virtual_cpu)).

Definition get_block_cpu_limit db : Z := wrap64 (max_usage (cpu_limit_parameters (config db)) - pending_cpu_usage (state db)).
Definition get_block_net_limit db : Z := wrap64 (max_usage (net_limit_parameters (config db)) - pending_net_usage (state db)).

(** The part of the chain's configuration that [assemble_block] uses. *)
Record chain_config : Set := ChainConfig {
  max_block_net_usage : Z;
  target_block_net_usage_pct : Z;
  max_block_cpu_usage : Z;
  target_block_cpu_usage_pct : Z
}.

(** The updates of the resource limits in [assemble_block]. *)
Definition block_limit_parameters (limit pct window_ms : Z) : elastic_limit_parameters :=
  ElasticLimitParameters (EOS_PERCENT limit pct) limit (window_ms / block_interval_ms)
    maximum_elastic_resource_multiplier (Ratio 99 100) (Ratio 1000 999).

Definition assemble_block_limits db (chain : chain_config) (block_num : Z) : result resource_limits_manager :=
  db ← process_account_limit_updates db;
  db ← set_block_parameters db
         (block_limit_parameters (max_block_cpu_usage chain) (target_block_cpu_usage_pct chain) block_cpu_usage_average_window_ms)
         (block_limit_parameters (max_block_net_usage chain) (target_block_net_usage_pct chain) block_size_average_window_ms);
  process_block_usage db block_num.

(** ** What an account has left *)

Record account_resource_limit : Set := AccountResourceLimit {
  used : Z;
  available : Z;
  max_per_window : Z;  (* max *)
  last_usage_update_time : Z;
  current_used : Z
}.

(** What is common to [get_account_cpu_limit_ex] and [get_account_net_limit_ex],
    which are the same text for the two resources. *)
Definition account_limit_ex (usage : usage_accumulator) (weight total_weight window_size virtual_limit block_max greylist_limit : Z)
    (current_time : option Z) : result (account_resource_limit * bool) :=
  if (weight <? 0) || (total_weight =? 0) then Ok (AccountResourceLimit (-1) (-1) (-1) (last_ordinal usage) (-1), false)
  else
    let greylisted_virtual_limit := wrap64 (block_max * greylist_limit) in
    let greylisted := (greylist_limit <? maximum_elastic_resource_multiplier) && (greylisted_virtual_limit <? virtual_limit) in
    let virtual_capacity := if greylisted then greylisted_virtual_limit else virtual_limit in
    let max_use := max_user_use_in_window virtual_capacity window_size weight total_weight in
    let in_window v := integer_divide_ceil (wrap128 (v * window_size)) rate_limiting_precision in
    let used_in_window := in_window (value_ex usage) in
    available ← (if max_use <=? used_in_window then Ok 0 else downgrade_cast int64_max (max_use - used_in_window));
    used ← downgrade_cast int64_max used_in_window;
    max ← downgrade_cast int64_max max_use;
    current_used ← (match current_time with
                    | Some slot =>
                        if last_ordinal usage <? slot then
                          history_usage ← add_usage usage 0 slot window_size;
                          downgrade_cast int64_max (in_window (value_ex history_usage))
                        else Ok used
                    | None => Ok used
                    end);
    Ok (AccountResourceLimit used available max (last_ordinal usage) current_used, greylisted).

Definition get_account_cpu_limit_ex db account (greylist_limit : Z) (current_time : option Z) : result (account_resource_limit * bool) :=
  usage ← get_row (usages db !! account);
  l ← get_account_limits db account;
  account_limit_ex (cpu_usage usage) (cpu_weight l) (total_cpu_weight (state db)) (account_cpu_usage_average_window (config db))
    (virtual_cpu_limit (state db)) (max_usage (cpu_limit_parameters (config db))) greylist_limit current_time.

Definition get_account_cpu_limit db account (greylist_limit : Z) : result (Z * bool) :=
  r ← get_account_cpu_limit_ex db account greylist_limit None; Ok (available r.1, r.2).

Definition get_account_net_limit_ex db account (greylist_limit : Z) (current_time : option Z) : result (account_resource_limit * bool) :=
  usage ← get_row (usages db !! account);
  l ← get_account_limits db account;
  account_limit_ex (net_usage usage) (net_weight l) (total_net_weight (state db)) (account_net_usage_average_window (config db))
    (virtual_net_limit (state db)) (max_usage (net_limit_parameters (config db))) greylist_limit current_time.

Definition get_account_net_limit db account (greylist_limit : Z) : result (Z * bool) :=
  r ← get_account_net_limit_ex db account greylist_limit None; Ok (available r.1, r.2).

(** ** Arithmetic *)

Lemma precision_positive : 0 < rate_limiting_precision.
Proof. done. Qed.

Lemma divide_ceil_spec num den : 0 <= num -> 0 < den ->
  num <= integer_divide_ceil num den * den < num + den /\ 0 <= integer_divide_ceil num den.
Proof.
  intros Hn Hd. unfold integer_divide_ceil. pose proof (Z.div_mod num den ltac:(lia)). pose proof (Z.mod_pos_bound num den Hd).
  pose proof (Z.div_pos num den Hn Hd). destruct (Z.ltb_spec 0 (num mod den)); nia.
Qed.

Lemma divide_ceil_le num den bound : 0 <= num -> 0 < den -> num <= bound * den -> integer_divide_ceil num den <= bound.
Proof. intros Hn Hd H. destruct (divide_ceil_spec num den Hn Hd). nia. Qed.

Lemma mul_ratio_Ok max v num den : 0 <= v -> 0 <= num -> 0 < den -> v * num <= max ->
  mul_ratio max v (Ratio num den) = Ok (v * num / den).
Proof.
  intros Hv Hn Hd Hm. unfold mul_ratio. cbn [numerator denominator].
  pass_with ltac:(apply orb_true_iff; destruct (Z.eqb_spec num 0); [by left|right; apply Z.leb_le, Z.div_le_lower_bound; lia]).
  by pass_with ltac:(apply negb_true_iff, Z.eqb_neq; lia).
Qed.

Lemma downgrade_cast_Ok max v : 0 <= v <= max -> downgrade_cast max v = Ok v.
Proof. intros H. unfold downgrade_cast. by pass_with ltac:(apply andb_true_iff; split; apply Z.leb_le; lia). Qed.

Lemma downgrade_cast_inv max v r : downgrade_cast max v = Ok r -> r = v /\ 0 <= v <= max.
Proof. unfold downgrade_cast. intros H. inv_result. apply andb_true_iff in E as [?%Z.leb_le ?%Z.leb_le]. lia. Qed.

(** ** The moving average *)

(** What is left of [v] after [d] periods. *)
Definition decayed (w v d : Z) : Z := if d <? w then v * (w - d) / w else 0.

Lemma decayed_bounds w v d : 0 < w -> 0 <= v -> 1 <= d -> 0 <= decayed w v d /\ w * decayed w v d <= v * (w - 1).
Proof.
  intros Hw Hv Hd. unfold decayed. destruct (Z.ltb_spec d w); [|nia].
  split; [apply Z.div_pos; nia|]. pose proof (Z.mul_div_le (v * (w - d)) w Hw). nia.
Qed.

Record usage_wf (w : Z) (a : usage_accumulator) : Prop := {
  uw_last : 0 <= last_ordinal a;
  uw_value : 0 <= value_ex a <= uint64_max;
  uw_consumed : 0 <= consumed a <= uint64_max;
  uw_consumed_value : consumed a * rate_limiting_precision <= value_ex a * w + rate_limiting_precision
}.

(** What a new accumulator holds, if the addition succeeds. *)
Definition added (w : Z) (a : usage_accumulator) (units ordinal : Z) : usage_accumulator :=
  let contrib := integer_divide_ceil (units * rate_limiting_precision) w in
  if decide (last_ordinal a = ordinal) then UsageAccumulator ordinal (value_ex a + contrib) (consumed a + units)
  else
    let v := decayed w (value_ex a) (ordinal - last_ordinal a) in
    UsageAccumulator ordinal (v + contrib) (integer_divide_ceil v rate_limiting_precision + units).

Lemma max_raw_value_eq : max_raw_value = 18446744073709.
Proof. by vm_compute. Qed.

(** What the checks of [add] leave to the additions. *)
Record can_add (w : Z) (a : usage_accumulator) (units ordinal : Z) : Prop := {
  ca_units : 0 <= units <= max_raw_value;
  ca_consumed : units <= uint64_max - consumed a;
  ca_value : value_ex a + integer_divide_ceil (units * rate_limiting_precision) w <= uint64_max;
  ca_ordinal : last_ordinal a = ordinal \/ last_ordinal a < ordinal
}.

Lemma can_add_contrib w units : 0 < w -> 0 <= units ->
  let c := integer_divide_ceil (units * rate_limiting_precision) w in
  0 <= c /\ units * rate_limiting_precision <= c * w < units * rate_limiting_precision + w.
Proof.
  intros Hw Hu. destruct (divide_ceil_spec (units * rate_limiting_precision) w) as [H1 H2]; [unfold rate_limiting_precision; lia|done|done].
Qed.

Lemma added_wf w a units ordinal : usage_wf w a -> 0 < w -> can_add w a units ordinal -> usage_wf w (added w a units ordinal).
Proof.
  intros [Hl Hv Hc Hcv] Hw [Hu H2 H3 Ho]. destruct (can_add_contrib w units Hw (proj1 Hu)) as [Hc0 Hcw]. unfold added.
  destruct (decide (last_ordinal a = ordinal)) as [E|Hne]; [split; cbn; unfold rate_limiting_precision in *; lia|].
  destruct Ho as [|Ho]; [done|].
  pose proof (decayed_bounds w (value_ex a) (ordinal - last_ordinal a) Hw (proj1 Hv) ltac:(lia)) as [Hd0 Hd1].
  assert (Hdv : decayed w (value_ex a) (ordinal - last_ordinal a) <= value_ex a) by nia.
  destruct (divide_ceil_spec _ _ Hd0 precision_positive) as [Ha1 Ha2].
  set (d := decayed w (value_ex a) (ordinal - last_ordinal a)) in *. set (c := integer_divide_ceil d rate_limiting_precision) in *.
  rewrite max_raw_value_eq in Hu. assert (d <= d * w) by nia.
  split; cbn; unfold_widths; unfold rate_limiting_precision in *; lia.
Qed.

Lemma add_usage_ratio w a ordinal : 0 < w -> 0 <= value_ex a -> last_ordinal a < ordinal ->
  let v := if ordinal <? last_ordinal a + w then mul_ratio uint64_max (value_ex a) (Ratio (w - (ordinal - last_ordinal a)) w) else Ok 0 in
  (forall x, v = Ok x -> x = decayed w (value_ex a) (ordinal - last_ordinal a)) /\
  (value_ex a * (w - 1) <= uint64_max -> v = Ok (decayed w (value_ex a) (ordinal - last_ordinal a))).
Proof.
  intros Hw Hv Ho. cbn zeta. unfold decayed.
  destruct (Z.ltb_spec ordinal (last_ordinal a + w)), (Z.ltb_spec (ordinal - last_ordinal a) w); try lia; (split; [|intros Hd]).
  - unfold mul_ratio. intros x Hx. inv_result. done.
  - apply mul_ratio_Ok; nia.
  - by intros x [= <-].
  - done.
Qed.

Lemma added_id w a units ordinal : usage_wf w a -> 0 < w -> can_add w a units ordinal ->
  added w a units ordinal = UsageAccumulator (last_ordinal (added w a units ordinal))
    (wrap64 (value_ex (added w a units ordinal))) (wrap64 (consumed (added w a units ordinal))).
Proof.
  intros W Hw C. destruct (added_wf w a units ordinal W Hw C) as [_ Hv Hc _].
  rewrite !wrap64_id by (unfold_widths; lia). by destruct (added w a units ordinal).
Qed.

Lemma add_usage_Ok w a units ordinal : usage_wf w a -> 0 < w -> can_add w a units ordinal ->
  (last_ordinal a < ordinal -> value_ex a * (w - 1) <= uint64_max) ->
  add_usage a units ordinal w = Ok (added w a units ordinal).
Proof.
  intros W Hw C Ho. rewrite (added_id w a units ordinal W Hw C). destruct W as [Hl Hv Hc _], C as [Hu H2 H3 Hle].
  destruct (can_add_contrib w units Hw (proj1 Hu)) as [Hc0 _]. unfold add_usage.
  do 2 pass_with ltac:(apply Z.leb_le; lia). pass_with ltac:(apply negb_true_iff, Z.eqb_neq; lia).
  rewrite downgrade_cast_Ok by lia. cbn [mbind result_bind]. pass_with ltac:(apply Z.leb_le; lia).
  unfold added. destruct (decide (last_ordinal a = ordinal)) as [E|Hne]; [cbn; by rewrite E|].
  destruct Hle as [|Hle]; [done|]. pass_with ltac:(apply Z.ltb_lt; lia).
  destruct (add_usage_ratio w a ordinal Hw (proj1 Hv) Hle) as [_ E]. by rewrite (E (Ho Hle)).
Qed.

Lemma add_usage_inv w a units ordinal a' : usage_wf w a -> 0 < w -> 0 <= units ->
  add_usage a units ordinal w = Ok a' -> can_add w a units ordinal /\ a' = added w a units ordinal.
Proof.
  intros W Hw Hu H. unfold add_usage in H. inv_result. apply downgrade_cast_inv in E2 as [-> Hcast].
  assert (C : can_add w a units ordinal).
  { split; [lia|lia|lia|]. destruct (decide (last_ordinal a = ordinal)); [by left|right]. inv_result. lia. }
  split; [done|]. rewrite (added_id w a units ordinal W Hw C). unfold added.
  destruct (decide (last_ordinal a = ordinal)) as [El|Hne]; inv_result; [done|].
  destruct (add_usage_ratio w a ordinal Hw (proj1 (uw_value _ _ W)) ltac:(lia)) as [Hr _].
  match goal with H : _ = Ok _ |- _ => apply Hr in H; by subst end.
Qed.

Lemma add_usage_wf w a units ordinal a' : usage_wf w a -> 0 < w -> 0 <= units ->
  add_usage a units ordinal w = Ok a' -> usage_wf w a'.
Proof. intros W Hw Hu H. destruct (add_usage_inv w a units ordinal a' W Hw Hu H) as [C ->]. by apply added_wf. Qed.

(** ** The moving average against the exact one *)

(** The exponential moving average in rational numbers: its value and the
    ordinal of its last input. *)
Definition exact_step (w : Z) (x : Q * Z) (input : Z * Z) : Q * Z :=
  let d := input.2 - x.2 in
  (((if d <? w then x.1 * (inject_Z (w - d) / inject_Z w) else 0) + inject_Z input.1 / inject_Z w)%Q, input.2).
Definition exact_average (w : Z) (inputs : list (Z * Z)) : Q * Z := foldl (exact_step w) (0%Q, 0) inputs.

Definition add_all (w : Z) (inputs : list (Z * Z)) : result usage_accumulator :=
  foldM (fun a input => add_usage a input.1 input.2 w) usage_accumulator_default inputs.

Lemma inject_Z_le a b : a <= b -> (inject_Z a <= inject_Z b)%Q.
Proof. intros H. by rewrite <- Zle_Qle. Qed.

Lemma Qdiv_mul a w : 0 < w -> (inject_Z a / inject_Z w * inject_Z w == inject_Z a)%Q.
Proof.
  intros Hw. rewrite Qmult_comm. apply Qmult_div_r. unfold Qeq. cbn. lia.
Qed.

Section Error.
Local Open Scope Q_scope.

(** The error of one step, of numbers that are divided by [w] up and down. *)
Lemma error_step (w k r x v dec c p d : Q) :
  0 < w -> 0 <= k -> k * w == w - d -> 1 <= d -> - w <= v - p * x <= w ->
  v * (w - d) - w < dec * w -> dec * w <= v * (w - d) ->
  p * r * w <= c * w -> c * w < p * r * w + w ->
  - w <= dec + c - p * (x * k + r) <= w.
Proof.
  intros Hw Hk Hkw Hd [He1 He2] H1 H2 H3 H4.
  assert (Ek : (v - p * x) * k <= w - d) by (rewrite <- Hkw; nra).
  assert (Ek' : - (w - d) <= (v - p * x) * k) by (rewrite <- Hkw; nra).
  assert (D1 : v * k - 1 < dec) by (apply (Qmult_lt_r _ _ w Hw); nra).
  assert (D2 : dec <= v * k) by (apply (Qmult_le_r _ _ w Hw); nra).
  assert (C1 : p * r <= c) by (by apply (Qmult_le_r _ _ w Hw)).
  assert (C2 : c < p * r + 1) by (apply (Qmult_lt_r _ _ w Hw); lra).
  split; nra.
Qed.
End Error.

Section Average.
(** Inputs of at most [m] each, in a window of [w]. *)
Context (w m : Z) (Hw : 2 <= w) (Hm : 0 <= m) (Hmax : (m * rate_limiting_precision + w) * w <= uint64_max).

Definition bounded (a : usage_accumulator) : Prop :=
  usage_wf w a /\ value_ex a <= m * rate_limiting_precision + w.

Lemma default_bounded : bounded usage_accumulator_default.
Proof. split; [split|]; cbn; unfold rate_limiting_precision in *; unfold_widths; lia. Qed.

Lemma bounded_can_add a units ordinal : bounded a -> 0 <= units <= m -> last_ordinal a < ordinal -> can_add w a units ordinal.
Proof.
  intros [[Hl Hv Hc Hcv] Hb] Hu Ho. destruct (can_add_contrib w units ltac:(lia) (proj1 Hu)) as [Hc0 Hcw].
  assert (Hbw : value_ex a * w <= uint64_max) by nia.
  assert (Hcb : integer_divide_ceil (units * rate_limiting_precision) w <= m * rate_limiting_precision + w).
  { apply divide_ceil_le; unfold rate_limiting_precision in *; [lia|lia|nia]. }
  assert (m * rate_limiting_precision * 2 <= uint64_max) by (unfold rate_limiting_precision in *; nia).
  split; [rewrite max_raw_value_eq| | |by right]; unfold_widths; unfold rate_limiting_precision in *; [lia|lia|nia].
Qed.

Lemma bounded_added a units ordinal : bounded a -> 0 <= units <= m -> last_ordinal a < ordinal ->
  bounded (added w a units ordinal).
Proof.
  intros B Hu Ho. pose proof (bounded_can_add a units ordinal B Hu Ho) as C. destruct B as [W Hb].
  split; [apply added_wf; [done|lia|done]|]. destruct W as [Hl Hv _ _].
  destruct (can_add_contrib w units ltac:(lia) (proj1 Hu)) as [Hc0 Hcw].
  unfold added. rewrite decide_False by lia. cbn.
  destruct (decayed_bounds w (value_ex a) (ordinal - last_ordinal a) ltac:(lia) (proj1 Hv) ltac:(lia)) as [Hd0 Hd1].
  set (d := decayed w (value_ex a) (ordinal - last_ordinal a)) in *.
  set (c := integer_divide_ceil (units * rate_limiting_precision) w) in *. unfold rate_limiting_precision in *.
  assert (w * (d + c) < w * (m * 1000000 + w + 1)) by nia. nia.
Qed.

Lemma bounded_add a units ordinal : bounded a -> 0 <= units <= m -> last_ordinal a < ordinal ->
  add_usage a units ordinal w = Ok (added w a units ordinal).
Proof.
  intros B Hu Ho. pose proof (bounded_can_add a units ordinal B Hu Ho) as C. destruct B as [W Hb].
  apply add_usage_Ok; [done|lia|done|]. intros _. destruct W as [_ Hv _ _]. nia.
Qed.

Lemma bounded_average a : bounded a -> w <= rate_limiting_precision -> average a <= m + 1.
Proof.
  intros [[_ Hv _ _] Hb] Hp. apply divide_ceil_le; [lia|done|]. unfold rate_limiting_precision in *. lia.
Qed.

Definition near (a : usage_accumulator) (x : Q * Z) : Prop :=
  last_ordinal a = x.2 /\
  (- inject_Z w <= inject_Z (value_ex a) - inject_Z rate_limiting_precision * x.1 <= inject_Z w)%Q.

Lemma near_added a x units ordinal : bounded a -> 0 <= units <= m -> last_ordinal a < ordinal -> near a x ->
  near (added w a units ordinal) (exact_step w x (units, ordinal)).
Proof.
  intros [[_ Hv _ _] _] Hu Ho [El Hn]. unfold added, exact_step. rewrite decide_False by lia. split; [done|].
  cbn [fst snd value_ex]. rewrite <- El. set (d := ordinal - last_ordinal a).
  destruct (can_add_contrib w units ltac:(lia) (proj1 Hu)) as [_ [Hc1 Hc2]].
  set (c := integer_divide_ceil (units * rate_limiting_precision) w) in *.
  assert (Hwq : (0 < inject_Z w)%Q) by (change 0%Q with (inject_Z 0); rewrite <- Zlt_Qlt; lia).
  pose proof (Qdiv_mul units w ltac:(lia)) as Hr.
  assert (C1 : (inject_Z rate_limiting_precision * (inject_Z units / inject_Z w) * inject_Z w <= inject_Z c * inject_Z w)%Q).
  { rewrite <- Qmult_assoc, Hr, <- !inject_Z_mult. apply inject_Z_le. lia. }
  assert (C2 : (inject_Z c * inject_Z w < inject_Z rate_limiting_precision * (inject_Z units / inject_Z w) * inject_Z w + inject_Z w)%Q).
  { rewrite <- Qmult_assoc, Hr, <- !inject_Z_mult, <- inject_Z_plus, <- Zlt_Qlt. lia. }
  rewrite inject_Z_plus. unfold decayed. destruct (Z.ltb_spec d w) as [Hd|Hd].
  - pose proof (Qdiv_mul (w - d) w ltac:(lia)) as Hk.
    pose proof (Z.mul_div_le (value_ex a * (w - d)) w ltac:(lia)). pose proof (Z.mul_succ_div_gt (value_ex a * (w - d)) w ltac:(lia)).
    unfold d in *. apply (error_step (inject_Z w) (inject_Z (w - (ordinal - last_ordinal a)) / inject_Z w) _ x.1 (inject_Z (value_ex a)) _ _ _
      (inject_Z (ordinal - last_ordinal a))); try done.
    + apply Qle_shift_div_l; [done|]. rewrite Qmult_0_l. change 0%Q with (inject_Z 0). apply inject_Z_le. lia.
    + rewrite Hk. unfold Qminus. by rewrite <- inject_Z_opp, <- inject_Z_plus, Z.add_opp_r.
    + change 1%Q with (inject_Z 1). apply inject_Z_le. lia.
    + unfold Qminus. rewrite <- !inject_Z_opp, <- inject_Z_plus, <- !inject_Z_mult, <- inject_Z_plus, <- Zlt_Qlt. lia.
    + unfold Qminus. rewrite <- !inject_Z_opp, <- inject_Z_plus, <- !inject_Z_mult. apply inject_Z_le. lia.
  - change (inject_Z 0) with 0%Q.
    assert (D1 : (inject_Z rate_limiting_precision * (inject_Z units / inject_Z w) <= inject_Z c)%Q) by (by apply (Qmult_le_r _ _ _ Hwq)).
    assert (D2 : (inject_Z c < inject_Z rate_limiting_precision * (inject_Z units / inject_Z w) + 1)%Q).
    { apply (Qmult_lt_r _ _ _ Hwq). lra. }
    assert (D3 : (1 <= inject_Z w)%Q) by (change 1%Q with (inject_Z 1); apply inject_Z_le; lia).
    split; lra.
Qed.

Lemma add_all_spec inputs : adjacent (fun a b => a.2 < b.2) ((0, 0) :: inputs) -> Forall (fun input => 0 <= input.1 <= m) inputs ->
  exists a, add_all w inputs = Ok a /\ bounded a /\ near a (exact_average w inputs).
Proof.
  induction inputs as [|[u o] inputs IH] using rev_ind; intros Ha Hf.
  { exists usage_accumulator_default. split_and!; [done|apply default_bounded|]. split; [done|]. cbn.
    change (inject_Z 0) with 0%Q. assert (0 <= inject_Z w)%Q by (change 0%Q with (inject_Z 0); apply inject_Z_le; lia). split; lra. }
  apply Forall_app in Hf as [Hf [Hu _]%Forall_cons]. cbn in Hu. destruct IH as (a & E & B & N); [|done|].
  { intros i x y Hx Hy. apply (Ha i); rewrite app_comm_cons; by apply lookup_app_l_Some. }
  assert (Ho : last_ordinal a < o).
  { destruct N as [-> _]. unfold exact_average. destruct inputs as [|p inputs _] using rev_ind; [by apply (Ha 0%nat (0, 0) (u, o))|].
    rewrite foldl_snoc. apply (Ha (S (length inputs)) p (u, o)); [|change ((0,0) :: (inputs ++ [p]) ++ [(u, o)]) with (((0, 0) :: inputs ++ [p]) ++ [(u, o)])].
    - change (((inputs ++ [p]) ++ [(u, o)]) !! length inputs = Some p). apply lookup_app_l_Some, lookup_snoc.
    - apply list_lookup_middle. cbn. rewrite length_app. cbn. lia. }
  exists (added w a u o). unfold add_all, exact_average. rewrite foldM_app, foldl_snoc. unfold add_all in E. rewrite E. cbn [mbind result_bind foldM fst snd].
  rewrite (bounded_add a u o B Hu Ho). cbn. split_and!; [done|by apply bounded_added|by apply near_added].
Qed.
End Average.

(** ** The decaying value *)

(** A decaying value never grows by itself and is gone after a window; reading
    it never throws. *)
Lemma value_ex_at_decays a ordinal1 ordinal2 w : 0 < w -> 0 <= decay_last_ordinal a -> u64 (decay_value_ex a) -> w < 2 ^ 32 ->
  ordinal1 <= ordinal2 -> exists v1 v2, value_ex_at a ordinal1 w = Ok v1 /\ value_ex_at a ordinal2 w = Ok v2 /\
    0 <= v2 <= v1 /\ v1 <= decay_value_ex a /\ (decay_last_ordinal a + w <= ordinal2 -> v2 = 0).
Proof.
  intros Hw Hl Hv Hw32 Ho. assert (E : forall o, value_ex_at a o w = Ok (if decay_last_ordinal a <? o then
    (if o <? decay_last_ordinal a + w then decay_value_ex a * (w - (o - decay_last_ordinal a)) / w else 0) else decay_value_ex a)).
  { intros o. unfold value_ex_at. destruct (Z.ltb_spec (decay_last_ordinal a) o), (Z.ltb_spec o (decay_last_ordinal a + w)); try done.
    assert (decay_value_ex a * (w - (o - decay_last_ordinal a)) <= decay_value_ex a * w) by (unfold u64 in Hv; nia).
    rewrite mul_ratio_Ok; [|unfold u64 in Hv; nia..]. cbn. apply downgrade_cast_Ok. unfold_widths.
    split; [apply Z.div_pos; nia|]. assert (decay_value_ex a * (w - (o - decay_last_ordinal a)) / w < 2 ^ 64); [|lia].
    apply Z.div_lt_upper_bound; [done|]. nia. }
  eexists _, _. split_and!; [apply E|apply E|..]; unfold u64 in Hv;
    destruct (Z.ltb_spec (decay_last_ordinal a) ordinal1), (Z.ltb_spec (decay_last_ordinal a) ordinal2),
      (Z.ltb_spec ordinal1 (decay_last_ordinal a + w)), (Z.ltb_spec ordinal2 (decay_last_ordinal a + w)); try lia.
  all: try (apply Z.div_pos; nia). all: try (apply Z.div_le_mono; nia). all: try (apply Z.div_le_upper_bound; nia).
Qed.

(** ** The states the operations make *)

(** The greatest limit of a block for which the arithmetic is shown exact:
    10 GB, or 10,000 s, of a block of half a second. *)
Definition block_limit_max : Z := 10 ^ 10.

(** A hypothesis of the theorems: [chain_config::validate] sees to the lower bounds
    only.  The limit of CPU is below the upper one by its type. *)
Definition chain_config_ok (c : chain_config) : Prop :=
  1 <= max_block_net_usage c <= block_limit_max /\ 1 <= max_block_cpu_usage c <= block_limit_max.

(** The last block whose usage has been added to the averages. *)
Definition block_ordinal db : Z := Z.max (last_ordinal (average_block_cpu_usage (state db))) (last_ordinal (average_block_net_usage (state db))).

Inductive limits_run : resource_limits_manager -> Prop :=
| run_init : limits_run initialize_database
| run_account db account db' : limits_run db -> initialize_account db account = Ok db' -> limits_run db'
| run_update db accounts time_slot db' :
    limits_run db -> update_account_usage db accounts time_slot = Ok db' -> limits_run db'
| run_bill db accounts cpu net time_slot db' : limits_run db -> u64 cpu -> u64 net ->
    add_transaction_usage db accounts cpu net time_slot = Ok db' -> limits_run db'
| run_ram db account ram_delta db' : limits_run db -> add_pending_ram_usage db account ram_delta = Ok db' -> limits_run db'
| run_set db account ram net cpu decreased db' :
    limits_run db -> ram <= int64_max -> net <= int64_max -> cpu <= int64_max ->
    set_account_limits db account ram net cpu = Ok (decreased, db') -> limits_run db'
| run_block db chain block_num db' : limits_run db -> chain_config_ok chain -> block_ordinal db < block_num ->
    assemble_block_limits db chain block_num = Ok db' -> limits_run db'.

(** The total of a limit over the rows, and over those that are not pending. *)
Definition all_total (f : resource_limits_object -> Z) (l : gmap (bool * account_name) resource_limits_object) : Z :=
  map_sum (fun (_ : bool * account_name) o => Z.max 0 (f o)) l.
Definition actual_total (f : resource_limits_object -> Z) (l : gmap (bool * account_name) resource_limits_object) : Z :=
  map_sum (fun (k : bool * account_name) o => if k.1 then 0 else Z.max 0 (f o)) l.

Record params_ok (p : elastic_limit_parameters) : Prop := {
  po_max : 1 <= max_usage p <= block_limit_max;
  po_periods : periods p = 120;
  po_multiplier : max_multiplier p = 1000;
  po_contract : contract_rate p = Ratio 99 100;
  po_expand : expand_rate p = Ratio 1000 999
}.

Definition average_ok (a : usage_accumulator) : Prop := bounded 120 block_limit_max a.

(** A resource of blocks: its parameters, what the transactions of the current
    block have used, and the virtual limit. *)
Record block_inv (p : elastic_limit_parameters) (pending virtual : Z) : Prop := {
  bi_params : params_ok p;
  bi_pending : 0 <= pending <= max_usage p;
  bi_virtual : max_usage p <= virtual <= 1000 * max_usage p
}.

Definition account_window : Z := 172800.

Record account_usage_ok (u : resource_usage_object) : Prop := {
  au_net : usage_wf account_window (net_usage u);
  au_cpu : usage_wf account_window (cpu_usage u);
  au_ram : u64 (ram_usage u)
}.

Definition limits_ok (o : resource_limits_object) : Prop :=
  net_weight o <= int64_max /\ cpu_weight o <= int64_max /\ ram_bytes o <= int64_max.

Record rows_inv db : Prop := {
  ri_net_window : account_net_usage_average_window (config db) = account_window;
  ri_cpu_window : account_cpu_usage_average_window (config db) = account_window;
  ri_net : total_net_weight (state db) = actual_total net_weight (limits db);
  ri_cpu : total_cpu_weight (state db) = actual_total cpu_weight (limits db);
  ri_ram : total_ram_bytes (state db) = actual_total ram_bytes (limits db);
  ri_limits : forall k o, limits db !! k = Some o -> limits_ok o;
  ri_pending : forall account, is_Some (limits db !! (true, account)) -> is_Some (limits db !! (false, account));
  ri_usages : forall account u, usages db !! account = Some u -> account_usage_ok u;
  ri_owner : forall account, is_Some (limits db !! (false, account)) <-> is_Some (usages db !! account)
}.

Record limits_inv db : Prop := {
  li_rows : rows_inv db;
  li_cpu_average : average_ok (average_block_cpu_usage (state db));
  li_net_average : average_ok (average_block_net_usage (state db));
  li_cpu : block_inv (cpu_limit_parameters (config db)) (pending_cpu_usage (state db)) (virtual_cpu_limit (state db));
  li_net : block_inv (net_limit_parameters (config db)) (pending_net_usage (state db)) (virtual_net_limit (state db))
}.

(** *** Rows *)

Lemma total_pending f l account o : actual_total f (<[(true, account) := o]> l) = actual_total f l.
Proof.
  unfold actual_total. rewrite map_sum_insert. cbn. destruct (l !! (true, account)) as [o'|] eqn:E.
  - rewrite (map_sum_delete _ l _ _ E). cbn. lia.
  - by rewrite delete_id.
Qed.

Lemma total_applied (g : bool * account_name -> resource_limits_object -> Z) l account actual pending :
  l !! (false, account) = Some actual -> l !! (true, account) = Some pending ->
  map_sum g (delete (true, account) (<[(false, account) := pending]> l)) =
  map_sum g l - g (false, account) actual + g (false, account) pending - g (true, account) pending.
Proof.
  intros Ha Hp. pose proof (map_sum_insert g l (false, account) pending) as H1. pose proof (map_sum_delete g l _ _ Ha) as H2.
  pose proof (map_sum_delete g (<[(false, account) := pending]> l) (true, account) pending) as H3.
  rewrite lookup_insert_ne in H3 by done. specialize (H3 Hp). lia.
Qed.

Lemma actual_total_nonneg f l : 0 <= actual_total f l.
Proof. apply map_sum_nonneg. intros [[] a] o _; cbn; lia. Qed.

Lemma actual_le_total f l account o : l !! (false, account) = Some o -> Z.max 0 (f o) <= actual_total f l.
Proof.
  intros H. unfold actual_total. rewrite (map_sum_delete _ l _ _ H). cbn.
  pose proof (map_sum_nonneg (fun (k : bool * account_name) o => if k.1 then 0 else Z.max 0 (f o)) (delete (false, account) l)) as Hn.
  enough (0 <= map_sum (fun (k : bool * account_name) o => if k.1 then 0 else Z.max 0 (f o)) (delete (false, account) l)) by lia.
  apply Hn. intros [[] a] o' _; cbn; lia.
Qed.

Lemma update_state_and_value_inv total value pending_value t :
  update_state_and_value total value pending_value = Ok t -> t = total - Z.max 0 value + Z.max 0 pending_value.
Proof.
  unfold update_state_and_value. destruct (Z.ltb_spec 0 value), (Z.ltb_spec 0 pending_value); intros H1; inv_result; lia.
Qed.

Lemma update_state_and_value_Ok total value pending_value :
  Z.max 0 value <= total -> total - Z.max 0 value + Z.max 0 pending_value <= uint64_max ->
  update_state_and_value total value pending_value = Ok (total - Z.max 0 value + Z.max 0 pending_value).
Proof.
  intros H1 H2. unfold update_state_and_value. destruct (Z.ltb_spec 0 value).
  - pass_with ltac:(apply Z.leb_le; lia). cbn. destruct (Z.ltb_spec 0 pending_value); [pass_with ltac:(apply Z.leb_le; lia)|]; f_equal; lia.
  - cbn. destruct (Z.ltb_spec 0 pending_value); [pass_with ltac:(apply Z.leb_le; lia)|]; f_equal; lia.
Qed.

(** Changing the usage of an account that is there. *)
Lemma with_usage_inv db account u u' : limits_inv db -> usages db !! account = Some u -> account_usage_ok u' ->
  limits_inv (with_usage db account u').
Proof.
  intros [[] ? ? ? ?] Hu Hok. split; [split|..]; try done; cbn.
  - intros a v [[<- <-]|[_ Hv]]%lookup_insert_Some; [done|eauto].
  - intros a. rewrite ri_owner0. destruct (decide (a = account)) as [->|Hne]; [|by rewrite lookup_insert_ne].
    rewrite lookup_insert_eq, Hu. split; intros _; by eexists.
Qed.

Lemma get_row_Ok {A} (o : option A) a : get_row o = Ok a <-> o = Some a.
Proof. destruct o; cbn; split; congruence. Qed.

Lemma account_usage_added db account u cpu net slot u' : limits_inv db -> usages db !! account = Some u -> 0 <= cpu -> 0 <= net ->
  add_account_usage db u cpu net slot = Ok u' -> account_usage_ok u'.
Proof.
  intros [[] _ _ _ _] Hu Hc Hn H. destruct (ri_usages0 _ _ Hu) as [Un Uc Ur]. unfold add_account_usage in H.
  rewrite ri_net_window0, ri_cpu_window0 in H. inv_result.
  split; [eapply (add_usage_wf _ (net_usage u)); [done| |exact Hn|exact E]|eapply (add_usage_wf _ (cpu_usage u)); [done| |exact Hc|exact E0]|done]; done.
Qed.

Lemma initialize_account_inv db account db' : limits_inv db -> initialize_account db account = Ok db' -> limits_inv db'.
Proof.
  intros [[] ? ? ? ?] H. unfold initialize_account in H. inv_result. apply bool_decide_eq_true in E as El, E0 as Eu.
  assert (Ht : forall f, f resource_limits_object_default = -1 ->
    actual_total f (<[(false, account) := resource_limits_object_default]> (limits db)) = actual_total f (limits db)).
  { intros f Hf. unfold actual_total. rewrite map_sum_insert_new by done. cbn. rewrite Hf. lia. }
  split; [split|..]; try done; cbn; try (by rewrite Ht).
  - intros k o [[<- <-]|[_ Hk]]%lookup_insert_Some; [by split_and!|eauto].
  - intros a. rewrite lookup_insert_ne by done. intros [o Ho]. destruct (decide (a = account)) as [->|].
    { rewrite lookup_insert_eq. by eexists. }
    rewrite lookup_insert_ne by congruence. apply ri_pending0. by exists o.
  - intros a u [[<- <-]|[_ Hk]]%lookup_insert_Some; [|eauto]. split; [split..|]; cbn; unfold_widths; unfold account_window, rate_limiting_precision; lia.
  - intros a. destruct (decide (a = account)) as [->|]; [|rewrite !lookup_insert_ne by congruence; apply ri_owner0].
    rewrite !lookup_insert_eq. split; intros _; by eexists.
Qed.

Lemma update_account_usage_inv db accounts slot db' : limits_inv db -> update_account_usage db accounts slot = Ok db' -> limits_inv db'.
Proof.
  intros I H. eapply (foldM_ind limits_inv); [|exact I|exact H]. cbn. intros db1 a db2 _ I1 H1. inv_result. apply get_row_Ok in E.
  eapply with_usage_inv; [done|exact E|]. by eapply (account_usage_added db1 a x 0 0).
Qed.

Lemma bill_account_inv cpu net slot db account db' : limits_inv db -> 0 <= cpu -> 0 <= net ->
  bill_account cpu net slot db account = Ok db' -> limits_inv db' /\ config db' = config db /\ state db' = state db /\ limits db' = limits db.
Proof.
  intros I Hc Hn H. unfold bill_account in H. inv_result. apply get_row_Ok in E. split; [|done].
  eapply with_usage_inv; [done|exact E|]. by eapply (account_usage_added db account x cpu net).
Qed.

Lemma add_transaction_usage_inv db accounts cpu net slot db' : limits_inv db -> u64 cpu -> u64 net ->
  add_transaction_usage db accounts cpu net slot = Ok db' -> limits_inv db'.
Proof.
  intros I Hc Hn H. unfold add_transaction_usage in H. inv_result.
  assert (I1 : limits_inv x).
  { eapply (foldM_ind limits_inv); [|exact I|exact E]. intros db1 a db2 _ I1 H1. eapply (bill_account_inv cpu net); [done| | |exact H1].
    - apply Hc.
    - apply Hn. }
  destruct I1 as [[] ? ? [P1 Q1 V1] [P2 Q2 V2]]. split; [split|..]; try done; (split; [done| |done]); cbn;
    pose proof (wrap64_u64 (pending_cpu_usage (state x) + cpu)); pose proof (wrap64_u64 (pending_net_usage (state x) + net)); unfold_widths; lia.
Qed.

Lemma add_pending_ram_usage_inv db account delta db' : limits_inv db -> add_pending_ram_usage db account delta = Ok db' -> limits_inv db'.
Proof.
  intros I H. unfold add_pending_ram_usage in H. destruct (delta =? 0); inv_result; [done|]. apply get_row_Ok in E.
  eapply with_usage_inv; [done|exact E|]. destruct (ri_usages _ (li_rows _ I) _ _ E). split; [done|done|apply wrap64_u64].
Qed.

Lemma with_limits_pending_inv db account o : limits_inv db -> is_Some (limits db !! (false, account)) -> limits_ok o ->
  limits_inv (with_limits db (<[(true, account) := o]> (limits db))).
Proof.
  intros [[] ? ? ? ?] Ha Ho. split; [split|..]; try done; cbn; try (by rewrite total_pending).
  - intros k o' [[<- <-]|[_ Hk]]%lookup_insert_Some; [done|eauto].
  - intros a Hp. rewrite lookup_insert_ne by done. destruct (decide (a = account)) as [->|]; [done|].
    rewrite lookup_insert_ne in Hp by congruence. auto.
  - intros a. rewrite lookup_insert_ne by done. apply ri_owner0.
Qed.

Lemma set_account_limits_inv db account ram net cpu decreased db' : limits_inv db ->
  ram <= int64_max -> net <= int64_max -> cpu <= int64_max ->
  set_account_limits db account ram net cpu = Ok (decreased, db') -> limits_inv db'.
Proof.
  intros I Hr Hn Hc H. unfold set_account_limits in H. inv_result. apply with_limits_pending_inv; [done| |by split_and!].
  destruct (limits db !! (true, account)) as [o|] eqn:Eo; [apply (ri_pending _ (li_rows _ I)); by exists o|].
  apply get_row_Ok in E. by eexists.
Qed.

(** *** Pending limits *)

(** What applying limits leaves as it is. *)
Record same_blocks db db' : Prop := {
  sb_usages : usages db' = usages db;
  sb_config : config db' = config db;
  sb_cpu : average_block_cpu_usage (state db') = average_block_cpu_usage (state db);
  sb_net : average_block_net_usage (state db') = average_block_net_usage (state db);
  sb_pending_cpu : pending_cpu_usage (state db') = pending_cpu_usage (state db);
  sb_pending_net : pending_net_usage (state db') = pending_net_usage (state db);
  sb_virtual_cpu : virtual_cpu_limit (state db') = virtual_cpu_limit (state db);
  sb_virtual_net : virtual_net_limit (state db') = virtual_net_limit (state db)
}.

#[export] Instance same_blocks_preorder : PreOrder same_blocks.
Proof. split; [by split|]. intros ??? [] []. split; congruence. Qed.

Lemma same_blocks_inv db db' : same_blocks db db' -> limits_inv db -> rows_inv db' -> limits_inv db'.
Proof. intros [] [] R. split; [done|..]; congruence. Qed.

Lemma apply_pending_limits_inv db account pending db' : limits_inv db -> limits db !! (true, account) = Some pending ->
  apply_pending_limits db account = Ok db' ->
  limits_inv db' /\ limits db' = delete (true, account) (<[(false, account) := pending]> (limits db)) /\ same_blocks db db'.
Proof.
  intros I Hp H. unfold apply_pending_limits in H. rewrite Hp in H. cbn [get_row mbind result_bind] in H. inv_result.
  apply get_row_Ok in E. apply update_state_and_value_inv in E0, E1, E2. subst.
  split; [|by split]. apply (same_blocks_inv db); [by split|exact I|]. destruct (li_rows _ I).
  split; try done; cbn; unfold actual_total in *; try (rewrite (total_applied _ _ _ _ _ E Hp); cbn; lia).
  - intros k o [_ [[<- <-]|[_ Hk]]%lookup_insert_Some]%lookup_delete_Some; eauto.
  - intros a [o [Hne [[[=] _]|[_ Ho]]%lookup_insert_Some]%lookup_delete_Some]. rewrite lookup_delete_ne by done.
    destruct (decide (a = account)) as [->|]; [rewrite lookup_insert_eq; by eexists|]. rewrite lookup_insert_ne by congruence.
    apply ri_pending0. by exists o.
  - intros a. rewrite lookup_delete_ne by done. rewrite <- ri_owner0. destruct (decide (a = account)) as [->|]; [|by rewrite lookup_insert_ne by congruence].
    rewrite lookup_insert_eq, E. split; intros _; by eexists.
Qed.

(** The totals fit in 64 bits, with what is pending. *)
Definition totals_fit db : Prop :=
  all_total net_weight (limits db) <= uint64_max /\ all_total cpu_weight (limits db) <= uint64_max /\
  all_total ram_bytes (limits db) <= uint64_max.

Lemma actual_and_pending_le f l account pending : l !! (true, account) = Some pending ->
  actual_total f l + Z.max 0 (f pending) <= all_total f l.
Proof.
  intros Hp. unfold all_total, actual_total. rewrite !(map_sum_delete _ l _ _ Hp). cbn.
  enough (forall m : gmap (bool * account_name) resource_limits_object, map_sum (fun (k : bool * account_name) o => if k.1 then 0 else Z.max 0 (f o)) m <=
    map_sum (fun (_ : bool * account_name) o => Z.max 0 (f o)) m) as Hle by (specialize (Hle (delete (true, account) l)); lia).
  intros m. induction m as [|[b a] o m Hk IH] using map_ind; [done|]. rewrite !map_sum_insert_new by done. destruct b; cbn; lia.
Qed.

Lemma totals_fit_applied db db' account pending : limits db !! (true, account) = Some pending -> is_Some (limits db !! (false, account)) ->
  limits db' = delete (true, account) (<[(false, account) := pending]> (limits db)) -> totals_fit db -> totals_fit db'.
Proof.
  intros Hp [actual Ha] El (Hn & Hc & Hr). unfold totals_fit, all_total in *. rewrite El, !(total_applied _ _ _ _ _ Ha Hp). lia.
Qed.

Lemma apply_pending_limits_Ok db account pending : limits_inv db -> totals_fit db -> limits db !! (true, account) = Some pending ->
  exists db', apply_pending_limits db account = Ok db'.
Proof.
  intros [[] _ _ _ _] (Fn & Fc & Fr) Hp. destruct (ri_pending0 account) as [actual Ha]; [by exists pending|].
  unfold apply_pending_limits. rewrite Hp, Ha. cbn [get_row mbind result_bind].
  assert (Hu : forall f total, total = actual_total f (limits db) -> all_total f (limits db) <= uint64_max ->
    is_ok (update_state_and_value total (f actual) (f pending)) = true).
  { intros f total -> Hf. rewrite update_state_and_value_Ok; [done|by eapply actual_le_total|].
    pose proof (actual_and_pending_le f _ _ _ Hp). lia. }
  pose proof (Hu _ _ ri_ram0 Fr) as H1. pose proof (Hu _ _ ri_cpu0 Fc) as H2. pose proof (Hu _ _ ri_net0 Fn) as H3.
  destruct (update_state_and_value (total_ram_bytes (state db)) _ _); [|done].
  destruct (update_state_and_value (total_cpu_weight (state db)) _ _); [|done].
  destruct (update_state_and_value (total_net_weight (state db)) _ _); [|done]. by eexists.
Qed.

Lemma pending_owners_spec l account : account ∈ pending_owners l <-> is_Some (l !! (true, account)).
Proof.
  unfold pending_owners. rewrite merge_sort_Permutation, list_elem_of_In, in_map_iff. split.
  - intros ([[b a] o] & <- & H). rewrite <- list_elem_of_In, list_elem_of_filter, elem_of_map_to_list in H. cbn in *.
    destruct H as [-> H]. by exists o.
  - intros [o Ho]. exists ((true, account), o). split; [done|]. rewrite <- list_elem_of_In, list_elem_of_filter, elem_of_map_to_list. by split.
Qed.

Lemma pending_owners_NoDup l : NoDup (pending_owners l).
Proof.
  unfold pending_owners. rewrite merge_sort_Permutation. apply NoDup_fmap_2_strong; [|apply NoDup_filter, NoDup_map_to_list].
  intros [[b a] o] [[b' a'] o']. rewrite !list_elem_of_filter, !elem_of_map_to_list. cbn. intros [-> H] [-> H'] ->. congruence.
Qed.

(** The rows after the limits of some accounts have been applied. *)
Definition row_after (owners : list account_name) (l : gmap (bool * account_name) resource_limits_object) (k : bool * account_name) :
    option resource_limits_object :=
  if decide (k.2 ∈ owners) then (if k.1 then None else l !! (true, k.2)) else l !! k.

Lemma row_after_cons account owners l pending k : l !! (true, account) = Some pending -> account ∉ owners ->
  row_after owners (delete (true, account) (<[(false, account) := pending]> l)) k = row_after (account :: owners) l k.
Proof.
  intros Hp Hn. destruct k as [b a]. unfold row_after. cbn. destruct (decide (a = account)) as [->|Hne].
  - rewrite decide_False by done. rewrite decide_True by by left. destruct b; [apply lookup_delete_eq|].
    rewrite lookup_delete_ne, lookup_insert_eq by done. done.
  - assert (Hk : forall b', delete (true, account) (<[(false, account) := pending]> l) !! (b', a) = l !! (b', a)).
    { intros b'. by rewrite lookup_delete_ne, lookup_insert_ne by congruence. }
    destruct (decide (a ∈ owners)).
    + rewrite decide_True by by right. destruct b; [done|apply Hk].
    + rewrite decide_False; [apply Hk|]. by intros [|]%elem_of_cons.
Qed.

Lemma apply_owners_spec owners db : limits_inv db -> totals_fit db -> NoDup owners ->
  (forall a, a ∈ owners -> is_Some (limits db !! (true, a))) ->
  exists db', foldM apply_pending_limits db owners = Ok db' /\ limits_inv db' /\ same_blocks db db' /\
    forall k, limits db' !! k = row_after owners (limits db) k.
Proof.
  revert db. induction owners as [|a owners IH]; intros db I F N H.
  { exists db. split_and!; [done|done|done|]. intros k. unfold row_after. by rewrite decide_False by apply not_elem_of_nil. }
  apply NoDup_cons in N as [Ha N]. destruct (H a) as [p Hp]; [by left|].
  destruct (apply_pending_limits_Ok db a p I F Hp) as [db1 E]. destruct (apply_pending_limits_inv db a p db1 I Hp E) as (I1 & El & S1).
  destruct (IH db1) as (db' & E' & I' & S' & Hk); [done| |done| |].
  - eapply totals_fit_applied; [exact Hp| |exact El|exact F]. apply (ri_pending _ (li_rows _ I)). by exists p.
  - intros b Hb. rewrite El, lookup_delete_ne, lookup_insert_ne by (try congruence; intros [=]; by subst). apply H. by right.
  - exists db'. cbn [foldM]. rewrite E. split_and!; [done|done|by transitivity db1|]. intros k. rewrite Hk, El. by apply row_after_cons.
Qed.

Lemma apply_owners_inv owners db db' : limits_inv db -> foldM apply_pending_limits db owners = Ok db' ->
  limits_inv db' /\ same_blocks db db'.
Proof.
  revert db. induction owners as [|a owners IH]; intros db I H; cbn in H; inv_result; [by split|].
  assert (Hp : exists p, limits db !! (true, a) = Some p).
  { unfold apply_pending_limits in E. inv_result. apply get_row_Ok in E0. by eexists. }
  destruct Hp as [p Hp]. destruct (apply_pending_limits_inv db a p x I Hp E) as (I1 & _ & S1).
  destruct (IH x I1 H) as [I' S']. split; [done|by transitivity x].
Qed.

Lemma process_updates_spec db : limits_inv db -> totals_fit db ->
  exists db', process_account_limit_updates db = Ok db' /\ limits_inv db' /\ same_blocks db db' /\
    forall account, limits db' !! (true, account) = None /\
      limits db' !! (false, account) = match limits db !! (true, account) with Some p => Some p | None => limits db !! (false, account) end.
Proof.
  intros I F. destruct (apply_owners_spec (pending_owners (limits db)) db I F (pending_owners_NoDup _)) as (db' & E & I' & S & Hk).
  { intros a. by rewrite pending_owners_spec. }
  exists db'. split_and!; [done|done|done|]. intros a. rewrite !Hk. unfold row_after. cbn.
  destruct (decide (a ∈ pending_owners (limits db))) as [Ha|Ha]; rewrite pending_owners_spec in Ha.
  - destruct Ha as [p ->]. done.
  - apply eq_None_not_Some in Ha. by rewrite Ha.
Qed.

(** *** Blocks *)

(** The next virtual limit: contracted or expanded, between the limit of a
    block and 1000 times as much. *)
Definition next_virtual_limit (p : elastic_limit_parameters) (virtual average_usage : Z) : Z :=
  Z.min (Z.max (if target p <? average_usage then virtual * 99 / 100 else virtual * 1000 / 999) (max_usage p)) (1000 * max_usage p).

Lemma update_elastic_limit_Ok p virtual average_usage : params_ok p -> 0 <= virtual <= 1000 * block_limit_max ->
  update_elastic_limit virtual average_usage p = Ok (next_virtual_limit p virtual average_usage).
Proof.
  intros [Hm _ Hmul Hc He] Hv. unfold update_elastic_limit, next_virtual_limit, block_limit_max in *. rewrite Hmul, Hc, He.
  rewrite (Z.mul_comm 1000), wrap64_id by (unfold_widths; lia).
  destruct (target p <? average_usage); rewrite mul_ratio_Ok by (unfold_widths; lia); done.
Qed.

Lemma next_virtual_limit_range p virtual average_usage : params_ok p ->
  max_usage p <= next_virtual_limit p virtual average_usage <= 1000 * max_usage p.
Proof. intros [Hm _ _ _ _]. unfold next_virtual_limit. lia. Qed.

Definition average_bound_ok : (block_limit_max * rate_limiting_precision + 120) * 120 <= uint64_max.
Proof. by vm_compute. Qed.

(** A resource of blocks before the usage of the block is processed. *)
Record block_ready (p : elastic_limit_parameters) (a : usage_accumulator) (pending virtual block_num : Z) : Prop := {
  br_params : params_ok p;
  br_average : average_ok a;
  br_ordinal : last_ordinal a < block_num;
  br_pending : 0 <= pending <= block_limit_max;
  br_virtual : 0 <= virtual <= 1000 * block_limit_max
}.

Lemma block_ready_average p a pending virtual block_num : block_ready p a pending virtual block_num ->
  add_usage a pending block_num (periods p) = Ok (added 120 a pending block_num) /\ average_ok (added 120 a pending block_num).
Proof.
  intros [[_ -> _ _ _] Ha Ho Hp _]. assert (0 <= block_limit_max) by done. split.
  - eapply bounded_add; [done|done|exact average_bound_ok|done|done|done].
  - eapply bounded_added; [done|done|exact average_bound_ok|done|done|done].
Qed.

Record block_processed db db' (block_num : Z) : Prop := {
  bp_limits : limits db' = limits db;
  bp_usages : usages db' = usages db;
  bp_config : config db' = config db;
  bp_cpu : average_block_cpu_usage (state db') = added 120 (average_block_cpu_usage (state db)) (pending_cpu_usage (state db)) block_num;
  bp_net : average_block_net_usage (state db') = added 120 (average_block_net_usage (state db)) (pending_net_usage (state db)) block_num;
  bp_pending_cpu : pending_cpu_usage (state db') = 0;
  bp_pending_net : pending_net_usage (state db') = 0;
  bp_virtual_cpu : virtual_cpu_limit (state db') =
    next_virtual_limit (cpu_limit_parameters (config db)) (virtual_cpu_limit (state db)) (average (average_block_cpu_usage (state db')));
  bp_virtual_net : virtual_net_limit (state db') =
    next_virtual_limit (net_limit_parameters (config db)) (virtual_net_limit (state db)) (average (average_block_net_usage (state db')));
  bp_total_net : total_net_weight (state db') = total_net_weight (state db);
  bp_total_cpu : total_cpu_weight (state db') = total_cpu_weight (state db);
  bp_total_ram : total_ram_bytes (state db') = total_ram_bytes (state db)
}.

Lemma process_block_usage_spec db block_num :
  block_ready (cpu_limit_parameters (config db)) (average_block_cpu_usage (state db)) (pending_cpu_usage (state db))
    (virtual_cpu_limit (state db)) block_num ->
  block_ready (net_limit_parameters (config db)) (average_block_net_usage (state db)) (pending_net_usage (state db))
    (virtual_net_limit (state db)) block_num ->
  exists db', process_block_usage db block_num = Ok db' /\ block_processed db db' block_num.
Proof.
  intros C N. destruct (block_ready_average _ _ _ _ _ C) as [Ec _], (block_ready_average _ _ _ _ _ N) as [En _].
  unfold process_block_usage, update_virtual_cpu_limit, update_virtual_net_limit. rewrite Ec. cbn [mbind result_bind].
  cbn [average_block_cpu_usage virtual_cpu_limit]. rewrite update_elastic_limit_Ok by first [apply C|apply C].
  cbn [mbind result_bind]. cbn. rewrite En. cbn [mbind result_bind].
  rewrite update_elastic_limit_Ok by first [apply N|apply N]. cbn. eexists. split; [done|]. by split.
Qed.

Lemma block_parameters_ok limit pct window : 1 <= limit <= block_limit_max -> window / block_interval_ms = 120 ->
  params_ok (block_limit_parameters limit pct window).
Proof. intros H E. by split. Qed.

Lemma block_parameters_valid limit pct window : window / block_interval_ms = 120 ->
  validate (block_limit_parameters limit pct window) = Ok ().
Proof. intros E. unfold validate, block_limit_parameters. cbn. by rewrite E. Qed.

(** What the chain's configuration makes the parameters. *)
Definition cpu_parameters_of (c : chain_config) : elastic_limit_parameters :=
  block_limit_parameters (max_block_cpu_usage c) (target_block_cpu_usage_pct c) block_cpu_usage_average_window_ms.
Definition net_parameters_of (c : chain_config) : elastic_limit_parameters :=
  block_limit_parameters (max_block_net_usage c) (target_block_net_usage_pct c) block_size_average_window_ms.

Lemma set_block_parameters_spec db c : exists db', set_block_parameters db (cpu_parameters_of c) (net_parameters_of c) = Ok db' /\
  limits db' = limits db /\ usages db' = usages db /\ state db' = state db /\
  config db' = ResourceLimitsConfigObject (cpu_parameters_of c) (net_parameters_of c)
    (account_cpu_usage_average_window (config db)) (account_net_usage_average_window (config db)).
Proof.
  unfold set_block_parameters, cpu_parameters_of, net_parameters_of. rewrite !block_parameters_valid by done. cbn [mbind result_bind].
  case_decide as E; [|eexists; by split_and!]. exists db. split_and!; [done..|].
  destruct E as [E1 E2]. rewrite <- E1, <- E2. by destruct (config db).
Qed.

Lemma rows_inv_block db db' : limits db' = limits db -> usages db' = usages db ->
  account_net_usage_average_window (config db') = account_net_usage_average_window (config db) ->
  account_cpu_usage_average_window (config db') = account_cpu_usage_average_window (config db) ->
  total_net_weight (state db') = total_net_weight (state db) -> total_cpu_weight (state db') = total_cpu_weight (state db) ->
  total_ram_bytes (state db') = total_ram_bytes (state db) -> rows_inv db -> rows_inv db'.
Proof. intros El Eu E1 E2 E3 E4 E5 []. split; rewrite ?El, ?Eu, ?E1, ?E2, ?E3, ?E4, ?E5; done. Qed.

(** A new block, once the pending limits have been applied. *)
Lemma finish_block_spec db c block_num : limits_inv db -> chain_config_ok c -> block_ordinal db < block_num ->
  exists db1 db', set_block_parameters db (cpu_parameters_of c) (net_parameters_of c) = Ok db1 /\
    process_block_usage db1 block_num = Ok db' /\ limits_inv db' /\ block_processed db1 db' block_num /\
    limits db1 = limits db /\ usages db1 = usages db /\ state db1 = state db /\
    cpu_limit_parameters (config db1) = cpu_parameters_of c /\ net_limit_parameters (config db1) = net_parameters_of c.
Proof.
  intros [R Ac An C N] [Hn Hc] Ho. unfold block_ordinal in Ho.
  destruct (set_block_parameters_spec db c) as (db1 & E1 & El & Eu & Es & Ec).
  assert (Pc : params_ok (cpu_parameters_of c)) by by apply block_parameters_ok.
  assert (Pn : params_ok (net_parameters_of c)) by by apply block_parameters_ok.
  destruct C as [[Hm1 _ _ _ _] Hp1 Hv1], N as [[Hm2 _ _ _ _] Hp2 Hv2].
  destruct (process_block_usage_spec db1 block_num) as (db' & E2 & P).
  - rewrite Ec, Es. cbn. split; [done|done|lia|lia|lia].
  - rewrite Ec, Es. cbn. split; [done|done|lia|lia|lia].
  - exists db1, db'. rewrite Ec. split_and!; try done. destruct P. rewrite Es, Ec in *. cbn in *.
    split.
    + apply (rows_inv_block db); try congruence; by rewrite bp_config0.
    + rewrite bp_cpu0. eapply bounded_added; [done|done|exact average_bound_ok|done|lia|lia].
    + rewrite bp_net0. eapply bounded_added; [done|done|exact average_bound_ok|done|lia|lia].
    + rewrite bp_config0, bp_virtual_cpu0, bp_pending_cpu0. cbn [cpu_limit_parameters]. split; [done| |by apply next_virtual_limit_range].
      destruct Pc. lia.
    + rewrite bp_config0, bp_virtual_net0, bp_pending_net0. cbn [net_limit_parameters]. split; [done| |by apply next_virtual_limit_range].
      destruct Pn. lia.
Qed.

Lemma same_blocks_ordinal db db' : same_blocks db db' -> block_ordinal db' = block_ordinal db.
Proof. intros []. unfold block_ordinal. congruence. Qed.

Lemma assemble_block_limits_inv db c block_num db' : limits_inv db -> chain_config_ok c -> block_ordinal db < block_num ->
  assemble_block_limits db c block_num = Ok db' -> limits_inv db'.
Proof.
  intros I Hc Ho H. unfold assemble_block_limits in H. apply bind_Ok in H as (db1 & E1 & H).
  destruct (apply_owners_inv _ _ _ I E1) as [I1 S1]. rewrite <- (same_blocks_ordinal _ _ S1) in Ho.
  destruct (finish_block_spec db1 c block_num I1 Hc Ho) as (db2 & db3 & E2 & E3 & I3 & _).
  unfold cpu_parameters_of, net_parameters_of in E2. rewrite E2 in H. cbn [mbind result_bind] in H. congruence.
Qed.

Lemma initialize_database_inv : limits_inv initialize_database.
Proof.
  assert (D : average_ok usage_accumulator_default).
  { apply default_bounded; done. }
  split; [split|done|done|..].
  1-5: by vm_compute.
  - intros k o [=].
  - by intros a [o [=]].
  - intros a u [=].
  - by intros a; split; intros [? [=]].
  - split; [by split|by vm_compute|by vm_compute].
  - split; [by split|by vm_compute|by vm_compute].
Qed.

Lemma limits_run_inv db : limits_run db -> limits_inv db.
Proof.
  induction 1.
  - exact initialize_database_inv.
  - by eapply initialize_account_inv.
  - by eapply update_account_usage_inv.
  - by eapply (add_transaction_usage_inv _ _ cpu net).
  - by eapply add_pending_ram_usage_inv.
  - by eapply (set_account_limits_inv _ _ ram net cpu).
  - by eapply assemble_block_limits_inv.
Qed.

(** *** What an account has left *)

(** A resource of an account: what [within_limit] allows after an addition in
    the current slot is, up to one unit, what [account_limit_ex] says is left. *)
Section Left.
Context (u : usage_accumulator) (weight total virtual block_max : Z) (time : option Z) (c : account_resource_limit) (greylisted : bool).
Context (W : usage_wf account_window u).
Context (E : account_limit_ex u weight total account_window virtual block_max maximum_elastic_resource_multiplier time = Ok (c, greylisted)).

Definition room : Z := max_user_use_in_window virtual account_window weight total.

Lemma value_fits v : 0 <= v <= uint64_max -> wrap128 (v * account_window) = v * account_window.
Proof. intros H. apply Z.mod_small. unfold account_window. unfold_widths. lia. Qed.

Lemma left_unlimited : weight < 0 \/ total = 0 -> available c = -1.
Proof.
  intros H. revert E. unfold account_limit_ex.
  replace ((weight <? 0) || (total =? 0)) with true; [by intros [= <- <-]|].
  symmetry. apply orb_true_iff. destruct H; [left; lia|right; lia].
Qed.

Lemma left_limited : 0 <= weight -> total <> 0 -> exists in_use, in_use = integer_divide_ceil (value_ex u * account_window) rate_limiting_precision /\
  used c = in_use /\ max_per_window c = room /\ 0 <= in_use /\ 0 <= room <= int64_max /\
  available c = if room <=? in_use then 0 else room - in_use.
Proof.
  intros H1 H2. revert E. unfold account_limit_ex.
  replace ((weight <? 0) || (total =? 0)) with false by (symmetry; apply orb_false_iff; lia).
  cbn [Z.ltb]. change (maximum_elastic_resource_multiplier <? maximum_elastic_resource_multiplier) with false. cbn [andb].
  rewrite (value_fits _ (uw_value _ _ W)). intros H. fold room in H. inv_result.
  apply downgrade_cast_inv in E0 as [-> Hu], E1 as [-> Hm]. eexists. split_and!; [done|done|done|lia|lia|lia|]. cbn.
  destruct (Z.leb_spec room (integer_divide_ceil (value_ex u * account_window) rate_limiting_precision)); [by injection E|].
  by apply downgrade_cast_inv in E as [-> _].
Qed.

(** A usage that the resource has left, less than 10^18 in a window. *)
Definition has_left (units : Z) : Prop := 0 < units <= available c /\ used c + units <= 10 ^ 18.

Lemma has_left_limited units : has_left units -> 0 <= weight /\ total <> 0.
Proof.
  intros [Hu _]. destruct (decide (weight < 0 \/ total = 0)) as [H|H]; [|lia]. rewrite (left_unlimited H) in Hu. lia.
Qed.

Lemma has_left_spec units : has_left units -> 0 <= total -> units <= block_limit_max ->
  add_usage u units (last_ordinal u) account_window = Ok (added account_window u units (last_ordinal u)) /\
  within_limit (added account_window u units (last_ordinal u)) virtual account_window weight total = true.
Proof.
  intros Hl Ht Hb. destruct (has_left_limited units Hl) as [H1 H2]. destruct (left_limited H1 H2) as (i & -> & Hi & _ & _ & Hr & Ha).
  destruct Hl as [Hu H18]. rewrite Hi in H18. rewrite Ha in Hu. destruct W as [_ Hv Hc Hcv].
  destruct (divide_ceil_spec (value_ex u * account_window) rate_limiting_precision) as [[Hd _] Hd0]; [unfold account_window; lia|done|].
  set (i := integer_divide_ceil (value_ex u * account_window) rate_limiting_precision) in *. clearbody i.
  destruct (Z.leb_spec room i); [lia|].
  destruct (can_add_contrib account_window units) as [Hc0 Hcw]; [done|lia|].
  assert (C : can_add account_window u units (last_ordinal u)).
  { split; [rewrite max_raw_value_eq| | |by left];
      set (k := integer_divide_ceil (units * rate_limiting_precision) account_window) in *; clearbody k;
      unfold block_limit_max, account_window, rate_limiting_precision, int64_max in *; unfold_widths; lia. }
  split; [apply add_usage_Ok; [done|done|done|lia]|].
  unfold within_limit. rewrite (proj2 (andb_true_iff _ _)) by lia. unfold added in *. rewrite decide_True in * by done. cbn [value_ex].
  rewrite value_fits by (split; [lia|apply (ca_value _ _ _ _ C)]). apply Z.leb_le. fold room.
  set (k := integer_divide_ceil (units * rate_limiting_precision) account_window) in *. clearbody k.
  apply Z.lt_succ_r, Z.div_lt_upper_bound; [done|]. unfold account_window, rate_limiting_precision in *. lia.
Qed.

Lemma accepted_spec units u' : 0 <= units -> 0 <= total -> 0 <= available c ->
  add_usage u units (last_ordinal u) account_window = Ok u' -> within_limit u' virtual account_window weight total = true ->
  units <= available c + 1.
Proof.
  intros Hu Ht Ha Hadd Hin. assert (Hl : ~ (weight < 0 \/ total = 0)).
  { intros H. rewrite (left_unlimited H) in Ha. lia. }
  destruct (left_limited ltac:(lia) ltac:(lia)) as (i & -> & _ & _ & _ & Hr & ->).
  destruct (add_usage_inv _ _ _ _ _ W ltac:(done) Hu Hadd) as [C ->].
  unfold within_limit in Hin. rewrite (proj2 (andb_true_iff _ _)) in Hin by lia.
  unfold added in Hin. rewrite decide_True in Hin by done. cbn [value_ex] in Hin. destruct W as [_ Hv _ _].
  destruct (can_add_contrib account_window units) as [Hc0 Hcw]; [done|lia|].
  rewrite value_fits in Hin by (split; [lia|apply (ca_value _ _ _ _ C)]). fold room in Hin. apply Z.leb_le in Hin.
  set (k := integer_divide_ceil (units * rate_limiting_precision) account_window) in *. clearbody k.
  pose proof (Z.mul_succ_div_gt ((value_ex u + k) * account_window) rate_limiting_precision precision_positive) as Hg.
  destruct (divide_ceil_spec (value_ex u * account_window) rate_limiting_precision) as [[Hd1 Hd2] Hd0]; [unfold account_window; lia|done|].
  set (i := integer_divide_ceil (value_ex u * account_window) rate_limiting_precision) in *. clearbody i.
  assert ((value_ex u + k) * account_window < rate_limiting_precision * (room + 1)) by (unfold rate_limiting_precision in *; lia).
  destruct (Z.leb_spec room i); unfold account_window, rate_limiting_precision in *; lia.
Qed.
End Left.

(** The averages of the account are those of the slot, as after
    [update_account_usage]. *)
Definition at_slot db (slot : Z) account : Prop := exists u, usages db !! account = Some u /\
  last_ordinal (net_usage u) = slot /\ last_ordinal (cpu_usage u) = slot.

(** What the account can see of its limits leaves room for the usage. *)
Definition left_for db account (cpu net : Z) : Prop := exists c n gc gn,
  get_account_cpu_limit_ex db account maximum_elastic_resource_multiplier None = Ok (c, gc) /\
  get_account_net_limit_ex db account maximum_elastic_resource_multiplier None = Ok (n, gn) /\ has_left c cpu /\ has_left n net.

(** It is no more than one unit over it, where the account has limits. *)
Definition nearly_left db account (cpu net : Z) : Prop := forall c n gc gn,
  get_account_cpu_limit_ex db account maximum_elastic_resource_multiplier None = Ok (c, gc) ->
  get_account_net_limit_ex db account maximum_elastic_resource_multiplier None = Ok (n, gn) ->
  (0 <= available c -> cpu <= available c + 1) /\ (0 <= available n -> net <= available n + 1).

Lemma limits_rows db account u l : usages db !! account = Some u -> get_account_limits db account = Ok l ->
  (forall g t, get_account_cpu_limit_ex db account g t = account_limit_ex (cpu_usage u) (cpu_weight l) (total_cpu_weight (state db))
    (account_cpu_usage_average_window (config db)) (virtual_cpu_limit (state db)) (max_usage (cpu_limit_parameters (config db))) g t) /\
  (forall g t, get_account_net_limit_ex db account g t = account_limit_ex (net_usage u) (net_weight l) (total_net_weight (state db))
    (account_net_usage_average_window (config db)) (virtual_net_limit (state db)) (max_usage (net_limit_parameters (config db))) g t).
Proof. intros Hu Hl. unfold get_account_cpu_limit_ex, get_account_net_limit_ex. by rewrite Hu, Hl. Qed.

Lemma totals_nonneg db : limits_inv db -> 0 <= total_cpu_weight (state db) /\ 0 <= total_net_weight (state db).
Proof. intros [[] _ _ _ _]. rewrite ri_cpu0, ri_net0. split; apply actual_total_nonneg. Qed.

Lemma bill_account_left db account cpu net slot : limits_inv db -> at_slot db slot account -> left_for db account cpu net ->
  cpu <= block_limit_max -> net <= block_limit_max -> exists u, bill_account cpu net slot db account = Ok (with_usage db account u).
Proof.
  intros I (u & Hu & Hn & Hc) (c & n & gc & gn & Ec & En & Lc & Ln) Bc Bn.
  pose proof (totals_nonneg _ I) as [Tc Tn]. destruct (li_rows _ I). destruct (ri_usages0 _ _ Hu) as [Wn Wc _].
  destruct (get_account_limits db account) as [l|] eqn:El; [|unfold get_account_cpu_limit_ex in Ec; by rewrite El, Hu in Ec].
  destruct (limits_rows _ _ _ _ Hu El) as [Rc Rn]. rewrite Rc, ri_cpu_window0 in Ec. rewrite Rn, ri_net_window0 in En.
  destruct (has_left_spec _ _ _ _ _ _ _ _ Wc Ec cpu Lc Tc Bc) as [Ac Ic].
  destruct (has_left_spec _ _ _ _ _ _ _ _ Wn En net Ln Tn Bn) as [An In'].
  unfold bill_account, add_account_usage. rewrite Hu, El, ri_cpu_window0, ri_net_window0. cbn [get_row mbind result_bind].
  rewrite Hn in An, In'. rewrite Hc in Ac, Ic. rewrite An. cbn [mbind result_bind]. rewrite Ac. cbn [mbind result_bind cpu_usage net_usage].
  rewrite Ic, In'. by eexists.
Qed.

Lemma bill_account_nearly db account cpu net slot db' : limits_inv db -> at_slot db slot account -> 0 <= cpu -> 0 <= net ->
  bill_account cpu net slot db account = Ok db' -> nearly_left db account cpu net.
Proof.
  intros I (u & Hu & <- & Hc) Bc Bn H c n gc gn Ec En.
  pose proof (totals_nonneg _ I) as [Tc Tn]. destruct (li_rows _ I). destruct (ri_usages0 _ _ Hu) as [Wn Wc _].
  unfold bill_account, add_account_usage in H. rewrite Hu, ri_cpu_window0, ri_net_window0 in H. cbn [get_row mbind result_bind] in H.
  destruct (get_account_limits db account) as [l|] eqn:El; [|done]. cbn [mbind result_bind] in H. inv_result.
  destruct (limits_rows _ _ _ _ Hu El) as [Rc Rn]. rewrite Rc, ri_cpu_window0 in Ec. rewrite Rn, ri_net_window0 in En. cbn in E0, E1.
  split; intros Ha; [rewrite <- Hc in *|].
  - by eapply (accepted_spec _ _ _ _ _ _ _ _ Wc Ec).
  - by eapply (accepted_spec _ _ _ _ _ _ _ _ Wn En).
Qed.

(** Another account's row is not looked at. *)
Lemma other_account db account u a : a <> account ->
  (forall slot, at_slot (with_usage db account u) slot a <-> at_slot db slot a) /\
  (forall cpu net, left_for (with_usage db account u) a cpu net <-> left_for db a cpu net) /\
  (forall cpu net, nearly_left (with_usage db account u) a cpu net <-> nearly_left db a cpu net).
Proof.
  intros Hne. assert (E : usages (with_usage db account u) !! a = usages db !! a) by by apply lookup_insert_ne.
  unfold at_slot, left_for, nearly_left, get_account_cpu_limit_ex, get_account_net_limit_ex, get_account_limits. rewrite E.
  by split_and!.
Qed.

Lemma bill_accounts_left accounts db cpu net slot : limits_inv db -> NoDup accounts ->
  0 <= cpu <= block_limit_max -> 0 <= net <= block_limit_max ->
  (forall a, a ∈ accounts -> at_slot db slot a /\ left_for db a cpu net) ->
  exists db', foldM (bill_account cpu net slot) db accounts = Ok db' /\ config db' = config db /\ state db' = state db.
Proof.
  revert db. induction accounts as [|a accounts IH]; intros db I N Hc Hn H; [by exists db|].
  apply NoDup_cons in N as [Ha N]. destruct (H a) as [Hs Hl]; [by left|].
  destruct (bill_account_left db a cpu net slot I Hs Hl ltac:(lia) ltac:(lia)) as [u E].
  destruct (bill_account_inv cpu net slot db a _ I ltac:(lia) ltac:(lia) E) as [I1 _].
  destruct (IH (with_usage db a u) I1 N Hc Hn) as (db' & E' & Ec & Es).
  - intros b Hb. destruct (other_account db a u b) as (-> & -> & _); [by intros ->|]. apply H. by right.
  - exists db'. cbn [foldM]. by rewrite E.
Qed.

Lemma bill_accounts_nearly accounts db cpu net slot db' : limits_inv db -> NoDup accounts -> 0 <= cpu -> 0 <= net ->
  (forall a, a ∈ accounts -> at_slot db slot a) -> foldM (bill_account cpu net slot) db accounts = Ok db' ->
  forall a, a ∈ accounts -> nearly_left db a cpu net.
Proof.
  revert db. induction accounts as [|a accounts IH]; intros db I N Hc Hn H E b Hb; [by apply elem_of_nil in Hb|].
  cbn [foldM] in E. apply bind_Ok in E as (db1 & E1 & E). apply NoDup_cons in N as [Ha N].
  destruct (bill_account_inv cpu net slot db a db1 I Hc Hn E1) as [I1 _].
  apply elem_of_cons in Hb as [->|Hb].
  - eapply bill_account_nearly; [done|apply H; by left|done|done|exact E1].
  - assert (exists u, db1 = with_usage db a u) as [u ->] by (unfold bill_account in E1; inv_result; by eexists).
    assert (Hne : forall c, c ∈ accounts -> c <> a) by (intros c Hc' ->; done).
    apply (other_account db a u b (Hne b Hb)). eapply IH; [done|done|done|done| |exact E|done].
    intros c Hc'. apply (other_account db a u c (Hne c Hc')). apply H. by right.
Qed.

(** ** Properties *)


(** C36: However transactions and blocks use the resources, as long as the blocks
    come in the order of their numbers and the limits that they configure are
    between 1 and 10^10 ([chain_config_ok]), the totals are those of the limits of
    all accounts, the virtual limit of a block is between its limit and 1000 times
    as much, what the transactions of a block have used is within its limit, and no
    average of blocks is more than 10^10 + 1.  (The limit of CPU is 32 bits, so it
    is within that bound; that of NET is 64 bits, and [validate] does not bound it:
    with greater ones the products wrap, [virtual_limit_wraps].) *)
Theorem limits_are_consistent db : limits_run db ->
  (total_cpu_weight (state db) = actual_total cpu_weight (limits db) /\
   total_net_weight (state db) = actual_total net_weight (limits db) /\
   total_ram_bytes (state db) = actual_total ram_bytes (limits db)) /\
  (let limit := max_usage (cpu_limit_parameters (config db)) in
   limit <= virtual_cpu_limit (state db) <= 1000 * limit /\ pending_cpu_usage (state db) <= limit /\
   get_block_cpu_limit db = limit - pending_cpu_usage (state db) /\
   average (average_block_cpu_usage (state db)) <= block_limit_max + 1) /\
  (let limit := max_usage (net_limit_parameters (config db)) in
   limit <= virtual_net_limit (state db) <= 1000 * limit /\ pending_net_usage (state db) <= limit /\
   get_block_net_limit db = limit - pending_net_usage (state db) /\
   average (average_block_net_usage (state db)) <= block_limit_max + 1).
Proof.
  intros [[] Ac An [[Mc] Pc Vc] [[Mn] Pn Vn]]%limits_run_inv. unfold block_limit_max in *. split; [done|].
  split; cbn zeta; (split_and!; [lia|lia|lia|apply wrap64_id; unfold_widths; lia|]).
  - by apply (bounded_average 120 (10 ^ 10)).
  - by apply (bounded_average 120 (10 ^ 10)).
Qed.

(** C37: The end of a block does not fail, if the totals of the limits fit in 64
    bits, the block limits that have been configured, and those of [c], are
    between 1 and 10^10 (see the claim before), and the number of the block is
    after those of the blocks before: the pending limits become the limits, the
    usage of the block is added to the averages, and each virtual limit is
    contracted if the average is over the target, and else expanded. *)
Theorem assemble_block_limits_correct db c block_num :
  limits_run db -> totals_fit db -> chain_config_ok c -> block_ordinal db < block_num ->
  exists db', assemble_block_limits db c block_num = Ok db' /\
    (forall account, limits db' !! (true, account) = None /\ get_account_limits db' account = get_account_limits db account) /\
    usages db' = usages db /\
    cpu_limit_parameters (config db') = cpu_parameters_of c /\ net_limit_parameters (config db') = net_parameters_of c /\
    average_block_cpu_usage (state db') = added 120 (average_block_cpu_usage (state db)) (pending_cpu_usage (state db)) block_num /\
    average_block_net_usage (state db') = added 120 (average_block_net_usage (state db)) (pending_net_usage (state db)) block_num /\
    pending_cpu_usage (state db') = 0 /\ pending_net_usage (state db') = 0 /\
    virtual_cpu_limit (state db') =
      next_virtual_limit (cpu_parameters_of c) (virtual_cpu_limit (state db)) (average (average_block_cpu_usage (state db'))) /\
    virtual_net_limit (state db') =
      next_virtual_limit (net_parameters_of c) (virtual_net_limit (state db)) (average (average_block_net_usage (state db'))).
Proof.
  intros I%limits_run_inv F Hc Ho. destruct (process_updates_spec db I F) as (db1 & E1 & I1 & S & Hl).
  rewrite <- (same_blocks_ordinal _ _ S) in Ho.
  destruct (finish_block_spec db1 c block_num I1 Hc Ho) as (db2 & db' & E2 & E3 & _ & P & El & Eu & Es & Pc & Pn).
  exists db'. unfold assemble_block_limits. rewrite E1. cbn [mbind result_bind]. unfold cpu_parameters_of, net_parameters_of in E2.
  rewrite E2. cbn [mbind result_bind]. destruct P, S. rewrite Es, Pc, Pn in *. split_and!; try congruence.
  intros a. destruct (Hl a) as [H1 H2]. unfold get_account_limits. rewrite bp_limits0, El, H1, H2. split; [done|].
  by destruct (limits db !! (true, a)).
Qed.


(** The memory an account uses changes by exactly the delta, and the call
    throws exactly when the result would not fit in 64 bits. *)
Theorem add_pending_ram_usage_correct db account u ram_delta :
  limits_run db -> usages db !! account = Some u -> - 2 ^ 63 <= ram_delta < 2 ^ 63 ->
  if decide (0 <= ram_usage u + ram_delta < 2 ^ 64) then
    exists db', add_pending_ram_usage db account ram_delta = Ok db' /\
      usages db' !! account = Some (ResourceUsageObject (net_usage u) (cpu_usage u) (ram_usage u + ram_delta)) /\
      (forall a, a <> account -> usages db' !! a = usages db !! a) /\
      limits db' = limits db /\ config db' = config db /\ state db' = state db
  else add_pending_ram_usage db account ram_delta = Throw transaction_exception.
Proof.
  intros I%limits_run_inv Hu Hd. destruct (ri_usages _ (li_rows _ I) _ _ Hu) as [_ _ Hr]. unfold add_pending_ram_usage. rewrite Hu.
  cbn [get_row mbind result_bind]. unfold_widths. assert (Hneg : ram_delta < 0 -> wrap64 (- ram_delta) = - ram_delta).
  { intros H. apply wrap64_id. unfold_widths. lia. }
  destruct (decide _) as [H|H].
  - destruct (Z.eqb_spec ram_delta 0) as [->|].
    { exists db. split_and!; try done. rewrite Hu, Z.add_0_r. by destruct u. }
    pass_with ltac:(apply orb_true_iff; destruct (decide (ram_delta <= 0)); [left|right]; apply Z.leb_le; lia).
    pass_with ltac:(apply orb_true_iff; destruct (decide (0 <= ram_delta)); [left; apply Z.leb_le; lia|right; rewrite Hneg by lia; apply Z.leb_le; lia]).
    eexists. split; [done|]. rewrite wrap64_id by (unfold_widths; lia). cbn. split_and!; try done; [apply lookup_insert_eq|].
    intros a Ha. by apply lookup_insert_ne.
  - destruct (Z.eqb_spec ram_delta 0); [lia|]. destruct (Z.leb_spec ram_delta 0); cbn [orb].
    + destruct (Z.leb_spec 0 ram_delta); [lia|]. rewrite Hneg by lia. cbn [orb]. by destruct (Z.leb_spec (- ram_delta) (ram_usage u)); [lia|].
    + by destruct (Z.leb_spec ram_delta (2 ^ 64 - 1 - ram_usage u)); [lia|].
Qed.

(** ** The properties on two accounts *)

Definition example_chain : chain_config := ChainConfig default_max_block_net_usage default_target_block_net_usage_pct
  default_max_block_cpu_usage default_target_block_cpu_usage_pct.

Definition limits_db_1 := Eval vm_compute in from_ok initialize_database (initialize_account initialize_database 1).
Definition limits_db_2 := Eval vm_compute in from_ok limits_db_1 (initialize_account limits_db_1 2).
Definition limits_db_3 := Eval vm_compute in
  (from_ok (false, limits_db_2) (set_account_limits limits_db_2 1 5000 10 20)).2.
Definition limits_db_4 := Eval vm_compute in
  (from_ok (false, limits_db_3) (set_account_limits limits_db_3 2 7000 30 60)).2.
Definition limits_db_5 := Eval vm_compute in from_ok limits_db_4 (assemble_block_limits limits_db_4 example_chain 2).
Definition limits_db_6 := Eval vm_compute in from_ok limits_db_5 (add_transaction_usage limits_db_5 [1; 2] 3000 200 5).
Definition limits_db_7 := Eval vm_compute in from_ok limits_db_6 (update_account_usage limits_db_6 [1; 2] 6).
Definition limits_db_8 := Eval vm_compute in
  (from_ok (false, limits_db_7) (set_account_limits limits_db_7 1 6000 15 (-1))).2.

Lemma limits_run_2 : limits_run limits_db_2.
Proof. eapply run_account; [eapply run_account; [apply run_init|]|]; [instantiate (2 := 1)|instantiate (1 := 2)]; by vm_compute. Qed.
Lemma limits_run_4 : limits_run limits_db_4.
Proof.
  apply (run_set limits_db_3 2 7000 30 60 true); [|by vm_compute..].
  apply (run_set limits_db_2 1 5000 10 20 true); [exact limits_run_2|by vm_compute..].
Qed.
Lemma limits_run_5 : limits_run limits_db_5.
Proof.
  apply (run_block limits_db_4 example_chain 2); [exact limits_run_4|split; split; by vm_compute|by vm_compute|by vm_compute].
Qed.
Lemma limits_run_7 : limits_run limits_db_7.
Proof.
  apply (run_update limits_db_6 [1; 2] 6); [|by vm_compute].
  apply (run_bill limits_db_5 [1; 2] 3000 200 5); [exact limits_run_5|split; by vm_compute..|by vm_compute].
Qed.
Lemma limits_run_8 : limits_run limits_db_8.
Proof. apply (run_set limits_db_7 1 6000 15 (-1) false); [exact limits_run_7|by vm_compute..]. Qed.


Lemma limits_are_consistent_witness :
  (total_cpu_weight (state limits_db_8) = actual_total cpu_weight (limits limits_db_8) /\
   total_net_weight (state limits_db_8) = actual_total net_weight (limits limits_db_8) /\
   total_ram_bytes (state limits_db_8) = actual_total ram_bytes (limits limits_db_8)) /\
  (let limit := max_usage (cpu_limit_parameters (config limits_db_8)) in
   limit <= virtual_cpu_limit (state limits_db_8) <= 1000 * limit /\ pending_cpu_usage (state limits_db_8) <= limit /\
   get_block_cpu_limit limits_db_8 = limit - pending_cpu_usage (state limits_db_8) /\
   average (average_block_cpu_usage (state limits_db_8)) <= block_limit_max + 1) /\
  (let limit := max_usage (net_limit_parameters (config limits_db_8)) in
   limit <= virtual_net_limit (state limits_db_8) <= 1000 * limit /\ pending_net_usage (state limits_db_8) <= limit /\
   get_block_net_limit limits_db_8 = limit - pending_net_usage (state limits_db_8) /\
   average (average_block_net_usage (state limits_db_8)) <= block_limit_max + 1).
Proof. apply (limits_are_consistent limits_db_8). exact limits_run_8. Defined.

Lemma assemble_block_limits_correct_witness :
  exists db', assemble_block_limits limits_db_8 example_chain 3 = Ok db' /\
    (forall account, limits db' !! (true, account) = None /\ get_account_limits db' account = get_account_limits limits_db_8 account) /\
    usages db' = usages limits_db_8 /\
    cpu_limit_parameters (config db') = cpu_parameters_of example_chain /\
    net_limit_parameters (config db') = net_parameters_of example_chain /\
    average_block_cpu_usage (state db') =
      added 120 (average_block_cpu_usage (state limits_db_8)) (pending_cpu_usage (state limits_db_8)) 3 /\
    average_block_net_usage (state db') =
      added 120 (average_block_net_usage (state limits_db_8)) (pending_net_usage (state limits_db_8)) 3 /\
    pending_cpu_usage (state db') = 0 /\ pending_net_usage (state db') = 0 /\
    virtual_cpu_limit (state db') =
      next_virtual_limit (cpu_parameters_of example_chain) (virtual_cpu_limit (state limits_db_8)) (average (average_block_cpu_usage (state db'))) /\
    virtual_net_limit (state db') =
      next_virtual_limit (net_parameters_of example_chain) (virtual_net_limit (state limits_db_8)) (average (average_block_net_usage (state db'))).
Proof.
  apply (assemble_block_limits_correct limits_db_8 example_chain 3); [exact limits_run_8|split_and!; by vm_compute|split; split; by vm_compute|by vm_compute].
Defined.

Definition left_check db account (cpu net : Z) : bool :=
  match get_account_cpu_limit_ex db account maximum_elastic_resource_multiplier None,
        get_account_net_limit_ex db account maximum_elastic_resource_multiplier None with
  | Ok (c, _), Ok (n, _) => (0 <? cpu) && (cpu <=? available c) && (used c + cpu <=? 10 ^ 18) &&
                            ((0 <? net) && (net <=? available n) && (used n + net <=? 10 ^ 18))
  | _, _ => false
  end.

Lemma left_check_spec db account cpu net : left_check db account cpu net = true -> left_for db account cpu net.
Proof.
  unfold left_check, left_for, has_left.
  destruct (get_account_cpu_limit_ex db account maximum_elastic_resource_multiplier None) as [[c gc]|]; [|done].
  destruct (get_account_net_limit_ex db account maximum_elastic_resource_multiplier None) as [[n gn]|]; [|done].
  intros H. exists c, n, gc, gn. rewrite !andb_true_iff, !Z.leb_le, !Z.ltb_lt in H. split_and!; [done|done|lia..].
Qed.


Lemma add_pending_ram_usage_correct_witness :
  if decide (0 <= 0 + 800 < 2 ^ 64) then
    exists db', add_pending_ram_usage limits_db_7 1 800 = Ok db' /\
      usages db' !! 1 = Some (ResourceUsageObject (net_usage (from_ok resource_usage_object_default (get_row (usages limits_db_7 !! 1))))
        (cpu_usage (from_ok resource_usage_object_default (get_row (usages limits_db_7 !! 1)))) (0 + 800)) /\
      (forall a, a <> 1 -> usages db' !! a = usages limits_db_7 !! a) /\
      limits db' = limits limits_db_7 /\ config db' = config limits_db_7 /\ state db' = state limits_db_7
  else add_pending_ram_usage limits_db_7 1 800 = Throw transaction_exception.
Proof.
  refine (add_pending_ram_usage_correct limits_db_7 1 (from_ok resource_usage_object_default (get_row (usages limits_db_7 !! 1))) 800 _ _ _);
    [exact limits_run_7|by vm_compute|by vm_compute].
Defined.

(** A limit of a block that is not bounded as in [chain_config_ok] makes the
    product with the multiplier wrap: the virtual limit can then be below the
    limit of the block. *)
Example virtual_limit_wraps : update_elastic_limit (2 ^ 61) 0 (block_limit_parameters (2 ^ 61) 1000 block_size_average_window_ms) =
  Throw rate_limiting_state_inconsistent /\
  update_elastic_limit (2 ^ 50) 0 (block_limit_parameters (2 ^ 61) 1000 block_size_average_window_ms) = Ok 0.
Proof. by vm_compute. Qed.
