(* ===== verification/Names.v ===== *)
(** * Names

    [name.hpp] and [name.cpp]: the names of accounts, permissions and actions,
    64-bit values that print as at most 13 characters.  A string is the list of
    the codes of its characters. *)

From Stdlib Require Import Strings.String.
From S2P Require Import Prelude ChainTypes.
Open Scope Z_scope.

(** The codes of a literal. *)
Definition str (s : string) : list Z := map (fun c => Z.of_nat (Ascii.nat_of_ascii c)) (list_ascii_of_string s).
#[global] Arguments str s%_string.

(** ** The encoding *)

Definition char_to_symbol (c : Z) : Z :=
  if (97 <=? c) && (c <=? 122) then (c - 97) + 6
  else if (49 <=? c) && (c <=? 53) then (c - 49) + 1
  else 0.

(** The loop over the first twelve characters, from the [i]-th on. *)
Fixpoint encode_chars (i : Z) (n : Z) (s : list Z) : Z :=
  match s with
  | [] => n
  | c :: s =>
      if i <? 12 then encode_chars (i + 1) (Z.lor n (Z.shiftl (Z.land (char_to_symbol c) 0x1f) (64 - 5 * (i + 1)))) s
      else n
  end.

Definition string_to_uint64_t (s : list Z) : Z :=
  let n := encode_chars 0 0 s in
  match s !! 12%nat with Some c => Z.lor n (Z.land (char_to_symbol c) 0x0F) | None => n end.

Definition charmap : list Z := Eval vm_compute in str ".12345abcdefghijklmnopqrstuvwxyz".
Definition charmap_at (i : Z) : Z := match charmap !! Z.to_nat i with Some c => c | None => 0 end.

(** [trim_right_if] of the dots *)
Fixpoint trim_right (s : list Z) : list Z :=
  match s with
  | [] => []
  | c :: s => match trim_right s with [] => if c =? 46 then [] else [c] | s' => c :: s' end
  end.

(** The loop of [to_string], from the last character back. *)
Fixpoint decode_chars (n : nat) (tmp : Z) (s : list Z) : list Z :=
  match n with
  | O => s
  | S n => decode_chars n (Z.shiftr tmp 5) (charmap_at (Z.land tmp 0x1f) :: s)
  end.

Definition name_to_string (value : Z) : list Z :=
  trim_right (decode_chars 12 (Z.shiftr value 4) [charmap_at (Z.land value 0x0f)]).

(** [name::set] *)
Definition name_set (s : list Z) : result Z :=
  EOS_ASSERT size_of s <=? 13 ,, name_type_exception ;;
  let value := string_to_uint64_t s in
  EOS_ASSERT bool_decide (name_to_string value = s) ,, name_type_exception ;;
  Ok value.

Definition name_empty (value : Z) : bool := value =? 0.

(** The literals [""_n] *)
Definition name_of (s : string) : Z := string_to_uint64_t (str s).
#[global] Arguments name_of s%_string.

(** [name::prefix]: the loop over the characters from right to left. *)
Fixpoint prefix_loop (fuel : nat) (value offset mask : Z) (not_dot_character_seen : bool) : Z :=
  match fuel with
  | O => value
  | S fuel =>
      if offset <=? 59 then
        let c := Z.land (Z.shiftr value offset) mask in
        if (c =? 0) && not_dot_character_seen then Z.shiftl (Z.shiftr value offset) offset
        else
          let seen := negb (c =? 0) || not_dot_character_seen in
          if offset =? 0 then prefix_loop fuel value (offset + 4) 0x1F seen
          else prefix_loop fuel value (offset + 5) mask seen
      else value
  end.
Definition name_prefix (value : Z) : Z := prefix_loop 14 value 0 0xF false.

(** [name::suffix]: the loop over the first twelve characters. *)
Fixpoint suffix_loop (fuel : nat) (value remaining_bits after tmp : Z) : Z * Z :=
  match fuel with
  | O => (after, tmp)
  | S fuel =>
      if 4 <=? remaining_bits then
        if Z.land (Z.shiftr value remaining_bits) 0x1F =? 0
        then suffix_loop fuel value (remaining_bits - 5) after remaining_bits
        else suffix_loop fuel value (remaining_bits - 5) tmp tmp
      else (after, tmp)
  end.
Definition name_suffix (value : Z) : Z :=
  let '(after, tmp) := suffix_loop 13 value 59 0 0 in
  let thirteenth_character := Z.land value 0x0F in
  let after := if thirteenth_character =? 0 then after else tmp in
  if after =? 0 then value
  else
    let mask := wrap64 (Z.shiftl 1 after - 16) in
    let shift := 64 - after in
    wrap64 (wrap64 (Z.shiftl (Z.land value mask) shift) + wrap64 (Z.shiftl thirteenth_character (shift - 1))).

Example name_examples :
  name_to_string (name_prefix (name_of "eosio.any")) = str "eosio" /\
  name_to_string (name_suffix (name_of "eosio.any")) = str "any" /\
  name_to_string (name_suffix (name_of "abcdefgh.ij.j")) = str "j" /\
  name_to_string (name_prefix (name_of "abcdefgh.ij.j")) = str "abcdefgh.ij" /\
  name_to_string (name_suffix (name_of ".a")) = str "a" /\
  name_of "zzzzzzzzzzzzj" = uint64_max /\ name_set (str "abcdefghijkl1") = Ok (name_of "abcdefghijkl1") /\
  is_ok (name_set (str "A")) = false.
Proof. vm_compute. by split_and!. Qed.

(** ** Names as digits *)

(** The value of a list of digits in base 32, after [w]. *)
Definition of_digits (w : Z) (ds : list Z) : Z := foldl (fun w d => 32 * w + d) w ds.

Fixpoint digits (n : nat) (v : Z) : list Z :=
  match n with O => [] | S n => digits n (v / 32) ++ [v mod 32] end.

Definition symbol_char (d : Z) : Prop := 0 <= d < 32.

Lemma of_digits_app w l1 l2 : of_digits w (l1 ++ l2) = of_digits (of_digits w l1) l2.
Proof. apply foldl_app. Qed.

Lemma of_digits_zeros w n : of_digits w (replicate n 0) = w * 32 ^ Z.of_nat n.
Proof.
  revert w. induction n as [|n IH]; intros w; [cbn; lia|]. cbn [replicate of_digits foldl].
  change (foldl _ ?x ?l) with (of_digits x l). rewrite IH, Nat2Z.inj_succ, Z.pow_succ_r by lia. lia.
Qed.

Lemma length_digits n v : length (digits n v) = n.
Proof. revert v. induction n as [|n IH]; intros v; [done|]. cbn. rewrite length_app, IH. cbn. lia. Qed.

Lemma of_digits_digits n v : 0 <= v < 32 ^ Z.of_nat n -> of_digits 0 (digits n v) = v.
Proof.
  revert v. induction n as [|n IH]; intros v H; [cbn in *; lia|]. cbn [digits]. rewrite of_digits_app, IH.
  - cbn. pose proof (Z.div_mod v 32). lia.
  - rewrite Nat2Z.inj_succ, Z.pow_succ_r in H by lia. split; [apply Z.div_pos; lia|]. apply Z.div_lt_upper_bound; lia.
Qed.

Lemma digits_range n v : Forall symbol_char (digits n v).
Proof.
  revert v. induction n as [|n IH]; intros v; [constructor|]. apply Forall_app. split; [apply IH|].
  constructor; [|done]. by apply Z.mod_pos_bound.
Qed.

(** Each symbol and its character. *)
Definition for_symbols (P : Z -> bool) : bool := forallb P (map Z.of_nat (seq 0 32)).
Lemma for_symbols_ok P d : for_symbols P = true -> symbol_char d -> P d = true.
Proof.
  intros H Hd. unfold for_symbols in H. rewrite forallb_forall in H. apply H. apply in_map_iff.
  exists (Z.to_nat d). unfold symbol_char in Hd. split; [lia|]. apply in_seq. lia.
Qed.

Lemma char_symbol d : symbol_char d -> char_to_symbol (charmap_at d) = d.
Proof. intros H. apply Z.eqb_eq. by apply (for_symbols_ok (fun d => char_to_symbol (charmap_at d) =? d)). Qed.

Lemma charmap_dot d : symbol_char d -> 46 <= charmap_at d /\ (charmap_at d = 46 <-> d = 0).
Proof.
  intros H. pose proof (for_symbols_ok (fun d => (46 <=? charmap_at d) && eqb (charmap_at d =? 46) (d =? 0)) d eq_refl H) as E.
  cbv beta in E. apply andb_true_iff in E as [E1 E2%eqb_prop]. split; lia.
Qed.

Lemma charmap_compare d e : symbol_char d -> symbol_char e -> (charmap_at d ?= charmap_at e) = (d ?= e).
Proof.
  intros Hd He.
  pose proof (for_symbols_ok (fun d => for_symbols (fun e => bool_decide ((charmap_at d ?= charmap_at e) = (d ?= e)))) d eq_refl Hd) as E.
  pose proof (for_symbols_ok _ e E He) as E'. by apply bool_decide_eq_true in E'.
Qed.

Lemma symbol_range c : symbol_char (char_to_symbol c).
Proof. unfold char_to_symbol, symbol_char. repeat (case_comparison; cbn [andb]); lia. Qed.

(** ** Encoding *)

Definition symbols (s : list Z) : list Z := map char_to_symbol s.
(** The thirteen symbols of a string of at most as many. *)
Definition padded (s : list Z) : list Z := symbols s ++ replicate (13 - length s) 0.
Definition value_of (ds : list Z) : Z := 16 * of_digits 0 (take 12 ds) + default 0 (ds !! 12%nat) mod 16.

Lemma of_digits_bound n w ds : 0 <= w < n -> Forall symbol_char ds -> 0 <= of_digits w ds < n * 32 ^ size_of ds.
Proof.
  intros Hw H. revert n w Hw. induction H as [|d ds Hd _ IH]; intros n w Hw; [change (32 ^ size_of []) with 1; cbn; lia|].
  unfold size_of in *. cbn [length]. rewrite Nat2Z.inj_succ, Z.pow_succ_r by lia. unfold symbol_char in Hd.
  specialize (IH (32 * n) (32 * w + d) ltac:(lia)). cbn [of_digits foldl]. change (foldl _ ?x ?l) with (of_digits x l). lia.
Qed.

Lemma symbols_range s : Forall symbol_char (symbols s).
Proof. apply Forall_map, Forall_forall. intros c _. apply symbol_range. Qed.

Lemma encode_step w d k : 0 <= w -> symbol_char d -> 0 <= k ->
  Z.lor (w * 2 ^ (5 + k)) (Z.shiftl (Z.land d 0x1f) k) = (32 * w + d) * 2 ^ k.
Proof.
  intros Hw Hd Hk. unfold symbol_char in Hd. change 0x1f with (Z.ones 5).
  rewrite Z.land_ones, (Z.mod_small d) by (change (2 ^ 5) with 32; lia).
  assert (Hp : 2 ^ (5 + k) = 32 * 2 ^ k) by (rewrite Z.pow_add_r by lia; done).
  rewrite (Z.shiftl_mul_pow2 d), Z.lor_comm, <- (Z.shiftl_mul_pow2 w) by lia.
  pose proof (Z.pow_pos_nonneg 2 k). rewrite lor_shiftl_add by (nia || lia). lia.
Qed.

Lemma encode_chars_digits s (i : nat) w : 0 <= w -> (i <= 12)%nat ->
  encode_chars (Z.of_nat i) (w * 2 ^ (64 - 5 * Z.of_nat i)) s =
    of_digits w (symbols (take (12 - i) s)) * 2 ^ (64 - 5 * (Z.of_nat i + size_of (take (12 - i) s))).
Proof.
  revert i w. induction s as [|c s IH]; intros i w Hw Hi; cbn [encode_chars].
  { rewrite take_nil. cbn. f_equal. f_equal. unfold size_of. cbn. lia. }
  destruct (Z.ltb_spec (Z.of_nat i) 12).
  - replace (12 - i)%nat with (S (12 - S i)) by lia. cbn [take symbols map of_digits foldl].
    pose proof (symbol_range c) as Hc.
    replace (64 - 5 * Z.of_nat i) with (5 + (64 - 5 * (Z.of_nat i + 1))) by lia.
    rewrite encode_step by (done || lia). replace (Z.of_nat i + 1) with (Z.of_nat (S i)) by lia.
    unfold symbol_char in Hc. rewrite IH by lia. unfold of_digits, symbols, size_of. cbn [length]. f_equal. f_equal. lia.
  - replace (12 - i)%nat with 0%nat by lia. unfold size_of. cbn. f_equal. f_equal. lia.
Qed.

Lemma length_padded s : (length s <= 13)%nat -> length (padded s) = 13%nat.
Proof. intros H. unfold padded, symbols. rewrite length_app, length_map, length_replicate. lia. Qed.

Lemma string_value s : (length s <= 13)%nat -> string_to_uint64_t s = value_of (padded s).
Proof.
  intros H. unfold string_to_uint64_t, value_of. pose proof (encode_chars_digits s 0 0 ltac:(lia) ltac:(lia)) as E.
  rewrite Nat.sub_0_r in E. change (encode_chars (Z.of_nat 0) _ s) with (encode_chars 0 0 s) in E. rewrite E. clear E.
  assert (Htake : of_digits 0 (take 12 (padded s)) = of_digits 0 (symbols (take 12 s)) * 32 ^ (12 - size_of (take 12 s))).
  { unfold padded. rewrite take_app. unfold symbols. rewrite firstn_map, of_digits_app, take_replicate, of_digits_zeros.
    f_equal. f_equal. unfold size_of. rewrite length_map, length_take. lia. }
  rewrite Htake. set (t := of_digits 0 _). set (n := size_of (take 12 s)).
  assert (Hn : 0 <= n <= 12) by (unfold n, size_of; rewrite length_take; lia).
  replace (t * 2 ^ (64 - 5 * (Z.of_nat 0 + n))) with (16 * (t * 32 ^ (12 - n))).
  2:{ change 32 with (2 ^ 5). rewrite <- Z.pow_mul_r by lia.
      replace (64 - 5 * (Z.of_nat 0 + n)) with (4 + 5 * (12 - n)) by lia. rewrite Z.pow_add_r by lia. lia. }
  unfold padded. destruct (s !! 12%nat) as [c|] eqn:Ec.
  - rewrite lookup_app_l by (unfold symbols; rewrite length_map; apply lookup_lt_Some in Ec; lia).
    unfold symbols. rewrite list_lookup_fmap, Ec. cbn [fmap option_fmap option_map default].
    change 15 with (Z.ones 4). rewrite Z.land_ones by lia. change (2 ^ 4) with 16.
    replace (16 * (t * 32 ^ (12 - n))) with (Z.shiftl (t * 32 ^ (12 - n)) 4) by (rewrite Z.shiftl_mul_pow2 by lia; lia).
    rewrite Z.lor_comm, lor_shiftl_add by (try lia; by apply Z.mod_pos_bound). change (2 ^ 4) with 16. cbn [id]. rewrite Z.shiftl_mul_pow2 by lia. change (2 ^ 4) with 16. lia.
  - apply lookup_ge_None in Ec. rewrite lookup_app_r by (unfold symbols; rewrite length_map; lia).
    rewrite lookup_replicate_2 by (unfold symbols; rewrite length_map; lia). change (default 0 (Some 0) `mod` 16) with 0. lia.
Qed.

(** ** Printing *)

(** The thirteen symbols of a value. *)
Definition name_symbols (v : Z) : list Z := digits 12 (v / 16) ++ [v mod 16].

Lemma name_symbols_range v : Forall symbol_char (name_symbols v).
Proof.
  apply Forall_app. split; [apply digits_range|]. constructor; [|done].
  pose proof (Z.mod_pos_bound v 16). unfold symbol_char. lia.
Qed.

Lemma length_name_symbols v : length (name_symbols v) = 13%nat.
Proof. unfold name_symbols. by rewrite length_app, length_digits. Qed.

Lemma decode_chars_digits n tmp s : decode_chars n tmp s = map charmap_at (digits n tmp) ++ s.
Proof.
  revert tmp s. induction n as [|n IH]; intros tmp s; [done|]. cbn [decode_chars digits].
  change 0x1f with (Z.ones 5). rewrite Z.land_ones, Z.shiftr_div_pow2, IH by lia. change (2 ^ 5) with 32.
  by rewrite map_app, <- app_assoc.
Qed.

Lemma name_to_string_eq v : name_to_string v = trim_right (map charmap_at (name_symbols v)).
Proof.
  unfold name_to_string, name_symbols. change 0x0f with (Z.ones 4).
  rewrite Z.land_ones, Z.shiftr_div_pow2, decode_chars_digits by lia. by rewrite map_app.
Qed.

Lemma trim_right_pad s : s = trim_right s ++ replicate (length s - length (trim_right s)) 46.
Proof.
  induction s as [|c s IH]; [done|]. cbn [trim_right length].
  destruct (trim_right s) as [|d t]; cbn [length app] in *.
  - rewrite Nat.sub_0_r in IH. destruct (Z.eqb_spec c 46) as [->|]; cbn; [by rewrite <- IH|].
    by rewrite Nat.sub_0_r, <- IH.
  - f_equal. exact IH.
Qed.

Lemma trim_right_length s : (length (trim_right s) <= length s)%nat.
Proof. rewrite (trim_right_pad s) at 2. rewrite length_app. lia. Qed.

Lemma symbols_map ds : Forall symbol_char ds -> symbols (map charmap_at ds) = ds.
Proof. induction 1 as [|d ds Hd _ IH]; [done|]. cbn. rewrite char_symbol by done. by f_equal. Qed.

Lemma padded_name v : padded (name_to_string v) = name_symbols v.
Proof.
  rewrite name_to_string_eq. set (s := map charmap_at (name_symbols v)). unfold padded.
  assert (Hl : length s = 13%nat) by (unfold s; by rewrite length_map, length_name_symbols).
  rewrite <- (symbols_map (name_symbols v)) by apply name_symbols_range. fold s.
  rewrite (trim_right_pad s) at 3. unfold symbols. rewrite map_app, Hl. f_equal.
  symmetry. apply (fmap_replicate char_to_symbol).
Qed.

Lemma name_to_string_length v : (length (name_to_string v) <= 13)%nat.
Proof.
  rewrite name_to_string_eq. etransitivity; [apply trim_right_length|]. by rewrite length_map, length_name_symbols.
Qed.

Lemma value_of_symbols v : u64 v -> value_of (name_symbols v) = v.
Proof.
  intros H. unfold value_of, name_symbols. rewrite take_app_length' by (by rewrite length_digits).
  rewrite lookup_app_r by (by rewrite length_digits). rewrite length_digits. cbn [Nat.sub lookup list_lookup default id].
  rewrite Z.mod_mod by lia. rewrite of_digits_digits; [pose proof (Z.div_mod v 16); lia|].
  unfold u64 in H. change (32 ^ Z.of_nat 12) with (2 ^ 60). split; [apply Z.div_pos; lia|].
  apply Z.div_lt_upper_bound; lia.
Qed.

Lemma value_of_range s : (length s <= 13)%nat -> u64 (value_of (padded s)).
Proof.
  intros H. unfold value_of.
  assert (Hr : Forall symbol_char (take 12 (padded s))).
  { apply Forall_take. apply Forall_app. split; [apply symbols_range|]. by apply Forall_replicate. }
  pose proof (of_digits_bound 1 0 _ ltac:(lia) Hr) as Hb.
  assert (Hs : size_of (take 12 (padded s)) = 12) by (unfold size_of; rewrite length_take, length_padded by done; done).
  rewrite Hs in Hb. change (1 * 32 ^ 12) with (2 ^ 60) in Hb. unfold u64.
  pose proof (Z.mod_pos_bound (default 0 (padded s !! 12%nat)) 16). lia.
Qed.

Lemma string_of_name v : u64 v -> string_to_uint64_t (name_to_string v) = v.
Proof. intros H. by rewrite string_value, padded_name, value_of_symbols by apply name_to_string_length || done. Qed.

(** ** The order *)

Lemma memcmp_trim a b : length a = length b -> Forall (fun c => 46 <= c) a -> Forall (fun c => 46 <= c) b ->
  memcmp (trim_right a) (trim_right b) = memcmp a b.
Proof.
  revert b. induction a as [|c a IH]; intros [|d b] Hl Ha Hb; try done. injection Hl as Hl.
  apply Forall_cons in Ha as [Hc Ha], Hb as [Hd Hb]. specialize (IH b Hl Ha Hb). cbn [trim_right memcmp]. rewrite <- IH.
  destruct (trim_right a) as [|x ta], (trim_right b) as [|y tb]; cbn [memcmp];
    repeat match goal with |- context [?e =? 46] => destruct (Z.eqb_spec e 46) end; cbn [memcmp]; subst;
    repeat match goal with |- context [?e ?= ?f] => destruct (Z.compare_spec e f) end; try done; lia.
Qed.

Lemma memcmp_charmap a b : Forall symbol_char a -> Forall symbol_char b ->
  memcmp (map charmap_at a) (map charmap_at b) = memcmp a b.
Proof.
  intros Ha. revert b. induction Ha as [|c a Hc _ IH]; intros b Hb; destruct Hb as [|d b Hd Hb]; try done.
  cbn. rewrite charmap_compare, IH by done. done.
Qed.

Lemma memcmp_digits a b w1 w2 : length a = length b -> Forall symbol_char a -> Forall symbol_char b ->
  (of_digits w1 a ?= of_digits w2 b) = match w1 ?= w2 with Eq => memcmp a b | c => c end.
Proof.
  intros Hl Ha. revert b w1 w2 Hl. induction Ha as [|c a Hc _ IH]; intros b w1 w2 Hl Hb; destruct Hb as [|d b Hd Hb]; try done.
  { cbn. by destruct (w1 ?= w2). }
  injection Hl as Hl. cbn [of_digits foldl]. change (foldl _ ?x ?l) with (of_digits x l). rewrite IH by done. cbn [memcmp].
  unfold symbol_char in *.
  repeat match goal with |- context [?e ?= ?f] => destruct (Z.compare_spec e f) end; try done; lia.
Qed.

(** ** Properties *)

(** The strings that are names are the printed names: a string is accepted
    exactly when it is how a 64-bit value prints, and is then that value. *)
Theorem name_string_roundtrip (s : list Z) (v : Z) :
  name_set s = Ok v <-> u64 v /\ s = name_to_string v.
Proof.
  unfold name_set. split.
  - intros H. inv_result. apply bool_decide_eq_true in E0. split; [|done].
    apply Z.leb_le in E. unfold size_of in E. rewrite string_value by lia. apply value_of_range. lia.
  - intros [Hv ->]. pose proof (name_to_string_length v) as Hl. unfold size_of.
    pass_with ltac:(apply Z.leb_le; lia). rewrite string_of_name by done. pass_with ltac:(by apply bool_decide_eq_true). done.
Qed.

(** Names are ordered as their strings are: the order of the databases'
    indices is the alphabetical one. *)
Theorem name_order (v1 v2 : Z) : u64 v1 -> u64 v2 ->
  memcmp (name_to_string v1) (name_to_string v2) = (v1 ?= v2).
Proof.
  intros H1 H2. rewrite !name_to_string_eq.
  assert (Hdots : forall v, Forall (fun c => 46 <= c) (map charmap_at (name_symbols v))).
  { intros v. apply Forall_map. eapply Forall_impl; [apply name_symbols_range|]. intros d Hd. by apply charmap_dot. }
  rewrite memcmp_trim by (by rewrite ?length_map, ?length_name_symbols || apply Hdots).
  rewrite memcmp_charmap by apply name_symbols_range.
  pose proof (memcmp_digits (name_symbols v1) (name_symbols v2) 0 0) as E.
  rewrite !length_name_symbols in E. specialize (E eq_refl (name_symbols_range _) (name_symbols_range _)). cbn [Z.compare] in E. rewrite <- E.
  assert (Hval : forall v, u64 v -> of_digits 0 (name_symbols v) = 32 * (v / 16) + v mod 16).
  { intros v Hv. unfold name_symbols. rewrite of_digits_app, of_digits_digits; [done|].
    unfold u64 in Hv. change (32 ^ Z.of_nat 12) with (2 ^ 60). split; [apply Z.div_pos; lia|].
    apply Z.div_lt_upper_bound; lia. }
  rewrite !Hval by done. pose proof (Z.div_mod v1 16). pose proof (Z.div_mod v2 16).
  pose proof (Z.mod_pos_bound v1 16). pose proof (Z.mod_pos_bound v2 16).
  repeat match goal with |- context [?e ?= ?f] => destruct (Z.compare_spec e f) end; try done; lia.
Qed.

Lemma name_order_witness :
  memcmp (name_to_string (name_of "alice")) (name_to_string (name_of "alice1")) = (name_of "alice" ?= name_of "alice1").
Proof. apply name_order; by vm_compute. Defined.
