(* ===== verification/Authority.v ===== *)
(** * Authorities and the authority checker

    [authority.hpp] and [authority_checker.hpp]: an authority is a threshold
    with weights for keys, for permissions of other accounts and for delays; the
    checker decides whether a set of keys, of permissions and a delay reach the
    threshold.  [permission_to_authority] of the checker is an argument; the
    recursion over permissions is structural on the depth that is left. *)

From Stdlib Require Import Strings.String.
From S2P Require Import Prelude ChainTypes OrderedDiff Policies Names.

(** ** Data *)

Record permission_level : Set := PermissionLevel { actor : Z; permission : Z }.

#[export] Instance permission_level_eq_dec : EqDecision permission_level.
Proof. solve_decision. Defined.
#[export] Instance permission_level_countable : Countable permission_level.
Proof. by refine (inj_countable' (fun p => (actor p, permission p)) (fun p => PermissionLevel p.1 p.2) _); intros []. Defined.

(** The order of the pair ([std::tie]) *)
Definition permission_level_lt (a b : permission_level) : bool :=
  (actor a <? actor b) || ((actor a =? actor b) && (permission a <? permission b)).

Record permission_level_weight : Set := PermissionLevelWeight { plw_permission : permission_level; plw_weight : Z }.
Record wait_weight : Set := WaitWeight { wait_sec : Z; ww_weight : Z }.

Record authority : Set := Authority {
  auth_threshold : Z;
  auth_keys : list key_weight;
  auth_accounts : list permission_level_weight;
  auth_waits : list wait_weight
}.

#[export] Instance permission_level_weight_eq_dec : EqDecision permission_level_weight.
Proof. solve_decision. Defined.
#[export] Instance wait_weight_eq_dec : EqDecision wait_weight.
Proof. solve_decision. Defined.
#[export] Instance authority_eq_dec : EqDecision authority.
Proof. solve_decision. Defined.

(** [operator<] of [fc::crypto::public_key]: the index of the variant, then the
    contents. *)
Definition public_key_compare (a b : public_key_type) : comparison :=
  match a, b with
  | K1Key d, K1Key e | R1Key d, R1Key e => memcmp d e
  | WebAuthnKey d u r, WebAuthnKey e v q =>
      match memcmp d e with
      | Eq => match u ?= v with Eq => memcmp r q | c => c end
      | c => c
      end
  | _, _ => which a ?= which b
  end.
Definition public_key_lt (a b : public_key_type) : bool :=
  match public_key_compare a b with Lt => true | _ => false end.

(** ** [validate] *)

(** One of its loops: the total weight, if the items are in strict order. *)
Fixpoint validate_items {A} (lt : A -> A -> bool) (weight : A -> Z) (prev : option A) (total_weight : Z) (l : list A) :
    option Z :=
  match l with
  | [] => Some total_weight
  | a :: l =>
      if match prev with Some p => negb (lt p a) | None => false end then None
      else validate_items lt weight (Some a) (wrap32 (total_weight + weight a)) l
  end.

Definition validate (auth : authority) : bool :=
  if Z.shiftl 1 16 <? size_of (auth_keys auth) + size_of (auth_accounts auth) + size_of (auth_waits auth) then false
  else if auth_threshold auth =? 0 then false
  else
    match validate_items (fun a b => public_key_lt (key a) (key b)) kw_weight None 0 (auth_keys auth) with
    | None => false
    | Some total =>
        match validate_items (fun a b => permission_level_lt (plw_permission a) (plw_permission b)) plw_weight None total
                (auth_accounts auth) with
        | None => false
        | Some total =>
            if match auth_waits auth with w :: _ => wait_sec w =? 0 | [] => false end then false
            else
              match validate_items (fun a b => wait_sec a <? wait_sec b) ww_weight None total (auth_waits auth) with
              | None => false
              | Some total => auth_threshold auth <=? total
              end
        end
    end.

(** ** The checker *)

Inductive permission_cache_status : Set := being_evaluated | permission_unsatisfied | permission_satisfied.

#[export] Instance permission_cache_status_eq_dec : EqDecision permission_cache_status.
Proof. solve_decision. Defined.

(** What [satisfied] sorts together. *)
Inductive meta_permission : Set :=
| MetaPermission (p : permission_level_weight)
| MetaKey (k : key_weight)
| MetaWait (w : wait_weight).

Definition meta_weight (m : meta_permission) : Z :=
  match m with MetaPermission p => plw_weight p | MetaKey k => kw_weight k | MetaWait w => ww_weight w end.
Definition meta_priority (m : meta_permission) : Z :=
  match m with MetaPermission _ => 1 | MetaKey _ => 2 | MetaWait _ => 3 end.

(** [meta_permission_map]: a multimap on the weight and the priority, the
    greatest first; an element goes after those it is equal to. *)
Definition meta_greater (a b : meta_permission) : bool :=
  (meta_weight b <? meta_weight a) || ((meta_weight a =? meta_weight b) && (meta_priority b <? meta_priority a)).

Fixpoint meta_emplace (m : meta_permission) (l : list meta_permission) : list meta_permission :=
  match l with
  | [] => [m]
  | m' :: l' => if meta_greater m m' then m :: l else m' :: meta_emplace m l'
  end.

Definition meta_permissions (a : authority) : list meta_permission :=
  foldl (fun l m => meta_emplace m l) []
    (map MetaPermission (auth_accounts a) ++ map MetaKey (auth_keys a) ++ map MetaWait (auth_waits a)).

(** The keys that are used so far and [permission_cache_type]. *)
Record checker_state : Type := CheckerState {
  used_keys : list bool;
  cached_permissions : gmap permission_level permission_cache_status
}.

Definition permission_status_in_cache (permissions : gmap permission_level permission_cache_status)
    (level : permission_level) : option permission_cache_status :=
  match permissions !! level with
  | Some s => Some s
  | None => permissions !! PermissionLevel (actor level) 0
  end.

Section Checker.
Context (permission_to_authority : permission_level -> result (option authority)).
Context (provided_keys : list public_key_type) (provided_permissions : list permission_level) (provided_delay : Z).
Implicit Types (st : checker_state).

Definition set_cached st (p : permission_level) (s : permission_cache_status) : checker_state :=
  CheckerState (used_keys st) (<[p := s]> (cached_permissions st)).

(** The three operators of [weight_tally_visitor]: the total weight after the
    item. *)
Definition visit_wait (total_weight : Z) (w : wait_weight) : Z :=
  if wait_sec w * 1000000 <=? provided_delay then wrap32 (total_weight + ww_weight w) else total_weight.

Definition visit_key st (total_weight : Z) (k : key_weight) : Z * checker_state :=
  match list_find (fun x => x = key k) provided_keys with
  | Some (i, _) => (wrap32 (total_weight + kw_weight k), CheckerState (<[i := true]> (used_keys st)) (cached_permissions st))
  | None => (total_weight, st)
  end.

(** The authority of a permission; a query that fails finds none. *)
Definition find_authority (p : permission_level) : result (option authority) :=
  match permission_to_authority p with
  | Throw permission_query_exception => Ok None
  | r => r
  end.

(** [satisfied] is the recursive call, absent at the limit of the depth. *)
Definition visit_permission (satisfied : option (authority -> checker_state -> result (bool * checker_state)))
    st (total_weight : Z) (p : permission_level_weight) : result (Z * checker_state) :=
  match permission_status_in_cache (cached_permissions st) (plw_permission p) with
  | None =>
      match satisfied with
      | None => Ok (total_weight, st)
      | Some satisfied =>
          auth ← find_authority (plw_permission p);
          match auth with
          | None => Ok (total_weight, st)
          | Some a =>
              r ← satisfied a (set_cached st (plw_permission p) being_evaluated);
              Ok (if (r.1 : bool)
                  then (wrap32 (total_weight + plw_weight p), set_cached r.2 (plw_permission p) permission_satisfied)
                  else (total_weight, set_cached r.2 (plw_permission p) permission_unsatisfied))
          end
      end
  | Some permission_satisfied => Ok (wrap32 (total_weight + plw_weight p), st)
  | Some _ => Ok (total_weight, st)
  end.

Definition visit_meta (satisfied : option (authority -> checker_state -> result (bool * checker_state)))
    st (total_weight : Z) (m : meta_permission) : result (Z * checker_state) :=
  match m with
  | MetaPermission p => visit_permission satisfied st total_weight p
  | MetaKey k => Ok (visit_key st total_weight k)
  | MetaWait w => Ok (visit_wait total_weight w, st)
  end.

(** The loop of [satisfied] over the sorted items. *)
Fixpoint check_items (satisfied : option (authority -> checker_state -> result (bool * checker_state)))
    (threshold : Z) st (total_weight : Z) (l : list meta_permission) : result (bool * checker_state) :=
  match l with
  | [] => Ok (false, st)
  | m :: l =>
      r ← visit_meta satisfied st total_weight m;
      if threshold <=? r.1 then Ok (true, r.2) else check_items satisfied threshold r.2 r.1 l
  end.

(** [satisfied] of an authority, [n] levels above the limit of the depth.  The
    keys that were used for an authority that is not satisfied are given back. *)
Fixpoint satisfied_authority (n : nat) (a : authority) st : result (bool * checker_state) :=
  r ← check_items (match n with O => None | S n => Some (satisfied_authority n) end)
        (auth_threshold a) st 0 (meta_permissions a);
  Ok (if (r.1 : bool) then r else (false, CheckerState (used_keys st) (cached_permissions r.2))).

Definition initialize_permission_cache : gmap permission_level permission_cache_status :=
  foldl (fun m p => <[p := permission_satisfied]> m) ∅ provided_permissions.

(** [satisfied] of a permission, with a new cache. *)
Definition satisfied_permission (recursion_depth_limit : nat) (used : list bool) (p : permission_level) :
    result (bool * list bool) :=
  r ← visit_permission (match recursion_depth_limit with O => None | S n => Some (satisfied_authority n) end)
        (CheckerState used initialize_permission_cache) 0 (PermissionLevelWeight p 1);
  Ok (0 <? r.1, used_keys r.2).

Definition satisfied_by_authority (recursion_depth_limit : nat) (used : list bool) (a : authority) :
    result (bool * list bool) :=
  r ← satisfied_authority recursion_depth_limit a (CheckerState used initialize_permission_cache);
  Ok (r.1, used_keys r.2).
End Checker.

(** [all_keys_used], [used_keys] and [unused_keys] of the checker *)
Definition all_keys_used (used : list bool) : bool := forallb id used.
Definition filter_by_marker (keys : list public_key_type) (used : list bool) (marker : bool) : list public_key_type :=
  map fst (filter (fun p => p.2 = marker) (zip keys used)).

(** ** [validate], proofs *)

Definition u16 (z : Z) : Prop := 0 <= z < 2 ^ 16.

(** The items of an authority, as they are given. *)
Definition items (a : authority) : list meta_permission :=
  map MetaPermission (auth_accounts a) ++ map MetaKey (auth_keys a) ++ map MetaWait (auth_waits a).
Definition items_weight (l : list meta_permission) : Z := Zsum (map meta_weight l).

Record authority_wf (a : authority) : Prop := {
  aw_threshold : u32 (auth_threshold a);
  aw_weights : Forall (fun m => u16 (meta_weight m)) (items a);
  aw_waits : Forall (fun w => u32 (wait_sec w)) (auth_waits a)
}.

Lemma items_weight_app l1 l2 : items_weight (l1 ++ l2) = items_weight l1 + items_weight l2.
Proof. unfold items_weight. by rewrite map_app, Zsum_app. Qed.

Lemma items_weight_perm l1 l2 : l1 ≡ₚ l2 -> items_weight l1 = items_weight l2.
Proof. induction 1; cbn in *; unfold items_weight in *; cbn; lia. Qed.

Lemma items_weight_bound l : Forall (fun m => u16 (meta_weight m)) l -> 0 <= items_weight l <= size_of l * (2 ^ 16 - 1).
Proof.
  induction 1 as [|m l Hm _ IH]; [done|]. unfold u16, items_weight, size_of in *. cbn [map Zsum length]. lia.
Qed.

Lemma validate_items_spec {A} (lt : A -> A -> bool) (weight : A -> Z) prev total (l : list A) t :
  0 <= total -> Forall (fun a => 0 <= weight a) l -> total + Zsum (map weight l) < 2 ^ 32 ->
  validate_items lt weight prev total l = Some t <->
    adjacent (fun a b => lt a b = true) (option_list prev ++ l) /\ t = total + Zsum (map weight l).
Proof.
  intros Ht Hl. revert prev total Ht. induction Hl as [|a l Ha Hl IH]; intros prev total Ht Hb; cbn [validate_items map Zsum].
  { rewrite app_nil_r, Z.add_0_r. split; [intros [= ->]; split; [|done]|by intros [_ ->]].
    destruct prev; [apply adjacent_singleton|apply adjacent_nil]. }
  cbn [map Zsum] in Hb. assert (Hs : 0 <= Zsum (map weight l)) by (by apply Zsum_map_nonneg).
  assert (Hw : wrap32 (total + weight a) = total + weight a) by (apply wrap32_id; unfold u32; lia).
  destruct prev as [p|]; cbn [option_list option_rect app].
  - rewrite adjacent_cons. destruct (lt p a); cbn [negb]; [|split; [done|by intros [[] _]]].
    rewrite Hw, IH by lia. cbn [option_list option_rect app]. split; [intros [? ->]|intros [[_ ?] ->]]; (split; [done|lia]).
  - rewrite Hw, IH by lia. cbn [option_list option_rect app]. split; (intros [? ->]; split; [done|lia]).
Qed.

Definition strict_order {A B} (lt : B -> B -> bool) (f : A -> B) (l : list A) : Prop :=
  adjacent (fun a b => lt (f a) (f b) = true) l.

(** What a valid authority is. *)
Record valid_authority (a : authority) : Prop := {
  va_size : size_of (auth_keys a) + size_of (auth_accounts a) + size_of (auth_waits a) <= 2 ^ 16;
  va_threshold : 0 < auth_threshold a;
  va_keys : strict_order public_key_lt key (auth_keys a);
  va_accounts : strict_order permission_level_lt plw_permission (auth_accounts a);
  va_waits : strict_order Z.ltb wait_sec (auth_waits a);
  va_delays : Forall (fun w => 0 < wait_sec w) (auth_waits a);
  va_reachable : auth_threshold a <= items_weight (items a)
}.

Lemma size_items a : size_of (items a) = size_of (auth_keys a) + size_of (auth_accounts a) + size_of (auth_waits a).
Proof. unfold items, size_of. rewrite !length_app, !length_map. lia. Qed.

Lemma items_weight_eq a : items_weight (items a) =
  Zsum (map kw_weight (auth_keys a)) + Zsum (map plw_weight (auth_accounts a)) + Zsum (map ww_weight (auth_waits a)).
Proof. unfold items, items_weight. rewrite !map_app, !Zsum_app, !map_map.
  change (Zsum (map plw_weight (auth_accounts a)) + (Zsum (map kw_weight (auth_keys a)) + Zsum (map ww_weight (auth_waits a))) =
    Zsum (map kw_weight (auth_keys a)) + Zsum (map plw_weight (auth_accounts a)) + Zsum (map ww_weight (auth_waits a))).
  lia.
Qed.

Lemma first_wait_positive (l : list wait_weight) : Forall (fun w => u32 (wait_sec w)) l -> strict_order Z.ltb wait_sec l ->
  match l with w :: _ => wait_sec w =? 0 | [] => false end = false <-> Forall (fun w => 0 < wait_sec w) l.
Proof.
  intros Hw Hs. destruct l as [|w l]; [done|]. apply Forall_cons in Hw as [Hw _]. unfold u32 in Hw. split.
  - intros H%Z.eqb_neq. apply Forall_lookup. intros [|i] v Hi; [by injection Hi as <-; lia|].
    assert (HT : Transitive (fun a b : wait_weight => (wait_sec a <? wait_sec b) = true)) by (intros x y z; lia).
    pose proof (adjacent_trans _ _ 0 (S i) w v Hs ltac:(lia) eq_refl Hi) as Hlt. cbv beta in Hlt. lia.
  - intros [H _]%Forall_cons. apply Z.eqb_neq. lia.
Qed.

(** The next loop of [validate] passes when the items are in order ([field] of
    [valid_authority]). *)
Ltac validate_loop nonneg field ok :=
  match goal with |- context [validate_items ?lt ?w None ?t ?l] =>
    let S := fresh in
    pose proof (fun r => validate_items_spec lt w None t l r ltac:(lia) nonneg ltac:(lia)) as S;
    destruct (validate_items lt w None t l) as [?t'|];
    [destruct (proj1 (S _) eq_refl) as [ok ->]; clear S
    |split; [done|]; intros V; by pose proof (proj2 (S _) (conj (field _ V) eq_refl))] end.

Lemma validate_valid (a : authority) : authority_wf a -> validate a = true <-> valid_authority a.
Proof.
  intros [Ht Hw Hq]. unfold validate. change (Z.shiftl 1 16) with (2 ^ 16).
  destruct (Z.ltb_spec (2 ^ 16) (size_of (auth_keys a) + size_of (auth_accounts a) + size_of (auth_waits a))).
  { split; [done|]. intros [? _ _ _ _ _ _]. lia. }
  pose proof (items_weight_bound _ Hw) as [_ Hb]. rewrite size_items, items_weight_eq in Hb.
  unfold items in Hw. rewrite !Forall_app, !Forall_map in Hw. destruct Hw as (Hwa & Hwk & Hww). unfold u32 in Ht.
  assert (Hnn : forall {A} (f : A -> Z) l, Forall (fun x => u16 (f x)) l -> Forall (fun x => 0 <= f x) l).
  { intros A f l Hl. eapply Forall_impl; [exact Hl|]. intros x [? _]. done. }
  assert (Hk : Forall (fun k => 0 <= kw_weight k) (auth_keys a)) by by apply Hnn.
  assert (Hp : Forall (fun k => 0 <= plw_weight k) (auth_accounts a)) by by apply Hnn.
  assert (Hwt : Forall (fun k => 0 <= ww_weight k) (auth_waits a)) by by apply Hnn.
  pose proof (Zsum_map_nonneg _ _ Hk). pose proof (Zsum_map_nonneg _ _ Hp). pose proof (Zsum_map_nonneg _ _ Hwt).
  destruct (Z.eqb_spec (auth_threshold a) 0) as [E|]; [split; [done|intros [_ ? _ _ _ _ _]; lia]|].
  validate_loop Hk va_keys Ok1. validate_loop Hp va_accounts Ok2.
  destruct (match auth_waits a with w :: _ => wait_sec w =? 0 | [] => false end) eqn:Ef.
  { split; [done|]. intros V. pose proof (proj2 (first_wait_positive _ Hq (va_waits _ V)) (va_delays _ V)). congruence. }
  validate_loop Hwt va_waits Ok3. rewrite Z.leb_le. split; [intros Hle|intros V].
  - split; [done|lia|exact Ok1|exact Ok2|exact Ok3|by apply first_wait_positive|rewrite items_weight_eq; lia].
  - pose proof (va_reachable _ V) as Hr. rewrite items_weight_eq in Hr. lia.
Qed.

(** ** What the checker decides *)

Lemma meta_emplace_perm m l : meta_emplace m l ≡ₚ m :: l.
Proof.
  induction l as [|m' l IH]; [done|]. cbn [meta_emplace]. destruct (meta_greater m m'); [done|].
  rewrite IH. apply perm_swap.
Qed.

Lemma meta_permissions_perm a : meta_permissions a ≡ₚ items a.
Proof.
  unfold meta_permissions. fold (items a). rewrite <- (app_nil_r (items a)) at 2. generalize (@nil meta_permission).
  induction (items a) as [|m l IH]; intros acc; [done|]. cbn [foldl app]. rewrite IH, meta_emplace_perm.
  symmetry. apply Permutation_middle.
Qed.

Section Decision.
Context (permission_to_authority : permission_level -> result (option authority)).
Context (provided_keys : list public_key_type) (provided_permissions : list permission_level) (provided_delay : Z).
Implicit Types (st : checker_state) (p q : permission_level) (a : authority) (m : meta_permission).

Definition authority_of p : option authority :=
  match permission_to_authority p with Ok o => o | Throw _ => None end.

Definition provided p : Prop := p ∈ provided_permissions \/ PermissionLevel (actor p) 0 ∈ provided_permissions.

(** The reference: a permission is satisfied if it is provided, or if some
    satisfied items of its authority reach the threshold.  It is the least such
    relation: a permission does not satisfy itself. *)
Inductive satisfiable : permission_level -> Prop :=
| satisfiable_provided p : provided p -> satisfiable p
| satisfiable_authority p a chosen :
    authority_of p = Some a -> chosen ⊆+ items a -> (forall m, m ∈ chosen -> item_satisfied m) ->
    auth_threshold a <= items_weight chosen -> satisfiable p
with item_satisfied : meta_permission -> Prop :=
| item_permission w : satisfiable (plw_permission w) -> item_satisfied (MetaPermission w)
| item_key k : key k ∈ provided_keys -> item_satisfied (MetaKey k)
| item_wait w : wait_sec w * 1000000 <= provided_delay -> item_satisfied (MetaWait w).

Definition authority_satisfied a : Prop :=
  exists chosen, chosen ⊆+ items a /\ (forall m, m ∈ chosen -> item_satisfied m) /\ auth_threshold a <= items_weight chosen.

(** The keys that satisfied permissions under an authority name. *)
Inductive relevant_key : authority -> public_key_type -> Prop :=
| relevant_here a k : k ∈ auth_keys a -> relevant_key a (key k)
| relevant_below a w a' k :
    w ∈ auth_accounts a -> authority_of (plw_permission w) = Some a' -> satisfiable (plw_permission w) ->
    relevant_key a' k -> relevant_key a k.

(** What the checker needs of an authority: no more items than [validate] lets
    through, and a threshold. *)
Record checkable a : Prop := {
  ck_wf : authority_wf a;
  ck_size : size_of (items a) <= 2 ^ 16;
  ck_threshold : 0 < auth_threshold a
}.

Lemma valid_checkable a : authority_wf a -> valid_authority a -> checkable a.
Proof. intros W V. split; [done|rewrite size_items; apply V|apply V]. Qed.

(** What is relied on of the permissions: a query fails only as a query, the
    authorities are checkable, and the empty name is no permission's. *)
Class PermissionsOk : Prop := {
  po_throw p e : permission_to_authority p = Throw e -> e = permission_query_exception;
  po_checkable p a : authority_of p = Some a -> checkable a;
  po_named x : authority_of (PermissionLevel x 0) = None
}.
Context {ok : PermissionsOk}.

Lemma find_authority_of p : find_authority permission_to_authority p = Ok (authority_of p).
Proof.
  unfold find_authority, authority_of. destruct (permission_to_authority p) as [o|e] eqn:E; [done|].
  by rewrite (po_throw _ _ E).
Qed.

(** [rank] decreases from a permission to those its authority names. *)
Context (rank : permission_level -> nat).
Definition ranked : Prop := forall p a w, authority_of p = Some a -> w ∈ auth_accounts a ->
  is_Some (authority_of (plw_permission w)) -> (rank (plw_permission w) < rank p)%nat.

(** The checker never accepts what it should not ([None]); if the permissions
    below the current one have ranks under [r] it also accepts all that it
    should ([Some r]). *)
Abbreviation mode := (option nat) (only parsing).
Implicit Types (r : mode).

Record cache_inv r (cache : gmap permission_level permission_cache_status) : Prop := {
  ci_provided p : p ∈ provided_permissions -> cache !! p = Some permission_satisfied;
  ci_any x s : cache !! PermissionLevel x 0 = Some s -> PermissionLevel x 0 ∈ provided_permissions;
  ci_satisfied p : cache !! p = Some permission_satisfied -> satisfiable p;
  ci_unsatisfied p : cache !! p = Some permission_unsatisfied -> is_Some r -> ~ satisfiable p;
  ci_evaluated p n : cache !! p = Some being_evaluated -> r = Some n -> is_Some (authority_of p) /\ (n <= rank p)%nat
}.

(** Nothing more is being evaluated than before. *)
Definition evaluating_le (c c' : gmap permission_level permission_cache_status) : Prop :=
  forall p, c' !! p = Some being_evaluated -> c !! p = Some being_evaluated.

(** The keys used are those used before and relevant ones of [a]. *)
Definition used_for a (used used' : list bool) : Prop :=
  length used' = length used /\
  forall i, used' !! i = Some true -> used !! i = Some true \/ exists k, provided_keys !! i = Some k /\ relevant_key a k.

Definition mode_ok r (n : nat) a : Prop :=
  forall k, r = Some k -> ranked /\ (k <= n)%nat /\
    forall w, w ∈ auth_accounts a -> is_Some (authority_of (plw_permission w)) -> (rank (plw_permission w) < k)%nat.

(** What an evaluation with the result [b] leaves. *)
Record evaluates r a st (b : bool) st' : Prop := {
  ev_cache : cache_inv r (cached_permissions st');
  ev_le : evaluating_le (cached_permissions st) (cached_permissions st');
  ev_true : b = true -> authority_satisfied a /\ used_for a (used_keys st) (used_keys st');
  ev_false : b = false -> used_keys st' = used_keys st /\ (is_Some r -> ~ authority_satisfied a)
}.

(** What the recursive call does, [n] levels above the limit. *)
Definition authority_spec (n : nat) (sat : authority -> checker_state -> result (bool * checker_state)) : Prop :=
  forall r a st, checkable a -> mode_ok r n a -> cache_inv r (cached_permissions st) ->
  exists b st', sat a st = Ok (b, st') /\ evaluates r a st b st'.

Lemma not_provided cache r q : cache_inv r cache -> permission_status_in_cache cache q = None -> ~ provided q.
Proof.
  intros I H [Hp|Hp]; apply (ci_provided _ _ I) in Hp; unfold permission_status_in_cache in H.
  - by rewrite Hp in H.
  - destruct (cache !! q); [done|]. by rewrite Hp in H.
Qed.

Lemma satisfiable_of_authority p a : authority_of p = Some a -> authority_satisfied a -> satisfiable p.
Proof. intros Hp (l & H1 & H2 & H3). by eapply satisfiable_authority. Qed.

Lemma satisfiable_cases p : ~ provided p -> satisfiable p -> exists a, authority_of p = Some a /\ authority_satisfied a.
Proof. intros Hn H. destruct H as [p Hp|p a l Ha Hl Hs Hw]; [done|]. exists a. split; [done|]. by exists l. Qed.

Lemma used_for_refl a used : used_for a used used.
Proof. split; [done|]. by left. Qed.

Lemma used_for_trans a u1 u2 u3 : used_for a u1 u2 -> used_for a u2 u3 -> used_for a u1 u3.
Proof. intros [L1 H1] [L2 H2]. split; [congruence|]. intros i Hi. destruct (H2 i Hi) as [H|H]; [auto|by right]. Qed.

Lemma used_for_below a w a' u1 u2 : w ∈ auth_accounts a -> authority_of (plw_permission w) = Some a' ->
  satisfiable (plw_permission w) -> used_for a' u1 u2 -> used_for a u1 u2.
Proof.
  intros Hw Ha Hs [L H]. split; [done|]. intros i Hi. destruct (H i Hi) as [|(k & Hk & Hr)]; [by left|right].
  exists k. split; [done|]. by eapply relevant_below.
Qed.

(** What a visit of [m], an item of [a], does. *)
Record visited r a st (total : Z) m (total' : Z) st' : Prop := {
  vi_cache : cache_inv r (cached_permissions st');
  vi_le : evaluating_le (cached_permissions st) (cached_permissions st');
  vi_used : used_for a (used_keys st) (used_keys st');
  vi_total : (item_satisfied m /\ total' = total + meta_weight m) \/ ((is_Some r -> ~ item_satisfied m) /\ total' = total)
}.

(** The mode of the evaluation of the authority of [p]. *)
Definition below r p : mode := match r with Some _ => Some (rank p) | None => None end.

Lemma mark_being_evaluated r cache p a : cache_inv r cache -> permission_status_in_cache cache p = None ->
  authority_of p = Some a -> (forall k, r = Some k -> (rank p < k)%nat) ->
  cache_inv (below r p) (<[p := being_evaluated]> cache).
Proof.
  intros I Hs Ha Hr. pose proof (not_provided _ _ _ I Hs) as Hnp. split.
  - intros q Hq. rewrite lookup_insert_ne; [by apply (ci_provided _ _ I)|]. intros ->. apply Hnp. by left.
  - intros x s H. rewrite lookup_insert_ne in H; [by apply (ci_any _ _ I x s)|]. intros ->. by rewrite po_named in Ha.
  - intros q [[_ [=]]|[_ H]]%lookup_insert_Some. by apply (ci_satisfied _ _ I).
  - intros q [[_ [=]]|[_ H]]%lookup_insert_Some Hm. apply (ci_unsatisfied _ _ I); [done|]. by destruct r.
  - intros q n H En. destruct r as [k|]; [|done]. injection En as <-. specialize (Hr k eq_refl).
    apply lookup_insert_Some in H as [[<- _]|[_ H]]; [by eauto|]. destruct (ci_evaluated _ _ I q k H eq_refl). split; [done|lia].
Qed.

Lemma mark_evaluated r cache cache' p a (b : bool) : cache_inv r cache -> permission_status_in_cache cache p = None ->
  authority_of p = Some a -> cache_inv (below r p) cache' -> evaluating_le (<[p := being_evaluated]> cache) cache' ->
  (b = true -> satisfiable p) -> (b = false -> is_Some r -> ~ satisfiable p) ->
  let cache2 := <[p := if b then permission_satisfied else permission_unsatisfied]> cache' in
  cache_inv r cache2 /\ evaluating_le cache cache2.
Proof.
  intros I Hs Ha I' Hle Ht Hf cache2. pose proof (not_provided _ _ _ I Hs) as Hnp.
  assert (Hev : evaluating_le cache cache2).
  { intros q [[_ H]|[Hne H]]%lookup_insert_Some; [by destruct b|]. apply Hle in H. by rewrite lookup_insert_ne in H. }
  split; [|done]. split.
  - intros q Hq. unfold cache2. rewrite lookup_insert_ne; [by apply (ci_provided _ _ I')|]. intros ->. apply Hnp. by left.
  - intros x s H. unfold cache2 in H. rewrite lookup_insert_ne in H; [by apply (ci_any _ _ I' x s)|]. intros ->. by rewrite po_named in Ha.
  - intros q [[<- H]|[_ H]]%lookup_insert_Some; [|by apply (ci_satisfied _ _ I')]. destruct b; [by apply Ht|done].
  - intros q [[<- H]|[_ H]]%lookup_insert_Some Hm; [destruct b; [done|by apply Hf]|].
    apply (ci_unsatisfied _ _ I'); [done|]. by destruct r; [exists (rank p)|destruct Hm].
  - intros q n H En. apply Hev in H. by apply (ci_evaluated _ _ I).
Qed.

(** A permission that was met before. *)
Lemma status_decides r st w s :
  cache_inv r (cached_permissions st) -> (forall k, r = Some k -> is_Some (authority_of (plw_permission w)) -> (rank (plw_permission w) < k)%nat) ->
  permission_status_in_cache (cached_permissions st) (plw_permission w) = Some s ->
  (s = permission_satisfied -> item_satisfied (MetaPermission w)) /\
  (s <> permission_satisfied -> is_Some r -> ~ item_satisfied (MetaPermission w)).
Proof.
  intros I Hr H. unfold permission_status_in_cache in H. destruct (cached_permissions st !! plw_permission w) as [s'|] eqn:E.
  - injection H as ->. destruct s; (split; [intros ?; try done|intros ? Hm; try done]).
    + intros Hi. destruct Hm as [k Hm]. destruct (ci_evaluated _ _ I _ _ E Hm) as [Ha Hk]. specialize (Hr k Hm Ha). lia.
    + intros Hi. inversion Hi; subst. by eapply (ci_unsatisfied _ _ I).
    + constructor. by apply (ci_satisfied _ _ I).
  - apply (ci_any _ _ I) in H as Hp. apply (ci_provided _ _ I) in Hp as Hs. rewrite H in Hs. injection Hs as ->.
    split; [intros _|done]. constructor. apply satisfiable_provided. by right.
Qed.

Section Item.
Context (n : nat) (satisfied : option (authority -> checker_state -> result (bool * checker_state))).
Context (Hsat : match n with O => satisfied = None | S n => exists f, satisfied = Some f /\ authority_spec n f end).
Context (r : option nat) (a : authority) (Hm : mode_ok r n a).

Lemma visit_permission_ok w st total : w ∈ auth_accounts a -> cache_inv r (cached_permissions st) ->
  u32 (total + plw_weight w) ->
  exists total' st', visit_permission permission_to_authority satisfied st total w = Ok (total', st') /\
    visited r a st total (MetaPermission w) total' st'.
Proof.
  intros Hw I Ht. unfold visit_permission.
  assert (Hr : forall k, r = Some k -> is_Some (authority_of (plw_permission w)) -> (rank (plw_permission w) < k)%nat).
  { intros k Hk. destruct (Hm k Hk) as (_ & _ & H). by apply H. }
  destruct (permission_status_in_cache _ _) as [s|] eqn:Es.
  { destruct (status_decides _ _ _ _ I Hr Es) as [H1 H2].
    destruct s; do 2 eexists; (split; [reflexivity|]); (split; [done|by intros ?|apply used_for_refl|]).
    - right. split; [by apply H2|done].
    - right. split; [by apply H2|done].
    - left. split; [by apply H1|]. by apply wrap32_id. }
  pose proof (not_provided _ _ _ I Es) as Hnp.
  assert (Hnone : (n = 0%nat \/ authority_of (plw_permission w) = None) -> is_Some r -> ~ item_satisfied (MetaPermission w)).
  { intros Hn [k Hk] Hi. inversion Hi as [w' H| |]; subst w'. apply satisfiable_cases in H as (a' & Ha & _); [|done].
    destruct Hn as [Hn|Hn]; [|congruence]. destruct (Hm k Hk) as (_ & Hkn & _). specialize (Hr k Hk ltac:(eauto)). lia. }
  destruct n as [|n'].
  { rewrite Hsat. do 2 eexists. split; [reflexivity|]. split; [done|by intros ?|apply used_for_refl|]. right. split; [auto|done]. }
  destruct Hsat as (f & -> & Hf). rewrite find_authority_of. cbn [mbind result_bind].
  destruct (authority_of (plw_permission w)) as [a'|] eqn:Ea.
  2:{ do 2 eexists. split; [reflexivity|]. split; [done|by intros ?|apply used_for_refl|]. right. split; [auto|done]. }
  destruct (Hf (below r (plw_permission w)) a' (set_cached st (plw_permission w) being_evaluated) (po_checkable _ _ Ea)) as (b & st' & E & [C L T F]).
  - intros k Hk. destruct r as [k0|]; [|done]. injection Hk as <-. destruct (Hm k0 eq_refl) as (Hrk & Hkn & _).
    split_and!; [done| |by intros q Hq; apply (Hrk _ _ _ Ea)]. specialize (Hr k0 eq_refl ltac:(eauto)). lia.
  - eapply mark_being_evaluated; [done..|]. intros k Hk. apply (Hr k Hk). eauto.
  - rewrite E. cbn [mbind result_bind fst snd]. cbn [set_cached used_keys cached_permissions] in L, T, F.
    destruct (mark_evaluated r _ (cached_permissions st') _ _ b I Es Ea C L) as [C2 L2].
    { intros Hb. destruct (T Hb) as [H _]. by eapply satisfiable_of_authority. }
    { intros Hb Hr2 H. apply satisfiable_cases in H as (a2 & Ha2 & H); [|done]. rewrite Ea in Ha2. injection Ha2 as <-.
      destruct (F Hb) as [_ HF]. apply HF; [|done]. by destruct r; [exists (rank (plw_permission w))|destruct Hr2]. }
    destruct b; (do 2 eexists; split; [reflexivity|]); (split; cbn [set_cached used_keys cached_permissions]; [done|done| |]).
    + destruct (T eq_refl) as [H Hu]. eapply used_for_below; [exact Hw|exact Ea|by eapply satisfiable_of_authority|exact Hu].
    + left. destruct (T eq_refl) as [H _]. split; [constructor; by eapply satisfiable_of_authority|]. by apply wrap32_id.
    + destruct (F eq_refl) as [-> _]. apply used_for_refl.
    + right. split; [|done]. intros Hr2 Hi. inversion Hi as [w' H| |]; subst w'.
      apply satisfiable_cases in H as (a2 & Ha2 & H); [|done]. rewrite Ea in Ha2. injection Ha2 as <-.
      destruct (F eq_refl) as [_ HF]. apply HF; [|done]. by destruct r; [exists (rank (plw_permission w))|destruct Hr2].
Qed.

Lemma visit_meta_ok m st total : m ∈ items a -> cache_inv r (cached_permissions st) -> u32 (total + meta_weight m) ->
  exists total' st', visit_meta permission_to_authority provided_keys provided_delay satisfied st total m = Ok (total', st') /\
    visited r a st total m total' st'.
Proof.
  intros Hin I Ht. unfold items in Hin. rewrite !elem_of_app in Hin.
  destruct m as [w|k|w]; cbn [visit_meta meta_weight] in *.
  - apply visit_permission_ok; [|done|done].
    destruct Hin as [(x & [= ->] & H)%list_elem_of_fmap|[(x & [=] & _)%list_elem_of_fmap|(x & [=] & _)%list_elem_of_fmap]]. done.
  - assert (Hk : k ∈ auth_keys a).
    { by destruct Hin as [(x & [=] & _)%list_elem_of_fmap|[(x & [= ->] & H)%list_elem_of_fmap|(x & [=] & _)%list_elem_of_fmap]]. }
    unfold visit_key. destruct (list_find _ _) as [[i x]|] eqn:E; (do 2 eexists; split; [reflexivity|]).
    + apply list_find_Some in E as (Hi & -> & _). split; [done|by intros ?| |].
      * split; [apply length_insert|]. intros j Hj. cbn [snd used_keys] in Hj. destruct (decide (i = j)) as [->|].
        -- right. exists (key k). split; [done|by constructor].
        -- rewrite list_lookup_insert_ne in Hj by done. by left.
      * left. split; [|by apply wrap32_id]. constructor. by eapply list_elem_of_lookup_2.
    + apply list_find_None in E. split; [done|by intros ?|apply used_for_refl|]. right. split; [|done].
      intros _ H. inversion H as [|k' Hp|]; subst. rewrite Forall_forall in E. by apply (E _ Hp).
  - do 2 eexists. split; [reflexivity|]. split; [done|by intros ?|apply used_for_refl|]. unfold visit_wait.
    destruct (Z.leb_spec (wait_sec w * 1000000) provided_delay); [left|right].
    + split; [by constructor|by apply wrap32_id].
    + split; [|done]. intros _ Hi. inversion Hi; subst. lia.
Qed.
End Item.

(** Of all the satisfied items, those that the checker counted weigh the most. *)
Lemma no_better_choice (l chosen rest : list meta_permission) total :
  l ≡ₚ chosen ++ rest -> Forall (fun m => 0 <= meta_weight m) l -> (forall m, m ∈ rest -> ~ item_satisfied m) ->
  forall chosen', chosen' ⊆+ l -> (forall m, m ∈ chosen' -> item_satisfied m) ->
  total + items_weight chosen' <= total + items_weight chosen.
Proof.
  intros Hp Hw Hr l' Hl Hs. rewrite Hp in Hl. apply submseteq_app_r in Hl as (k1 & k2 & Hk & H1 & H2).
  assert (k2 = []) as ->.
  { destruct k2 as [|m k2]; [done|]. exfalso. apply (Hr m); [by eapply elem_of_submseteq; [left|]|]. apply Hs. rewrite Hk.
    apply elem_of_app. right. by left. }
  rewrite app_nil_r in Hk. rewrite (items_weight_perm _ _ Hk). apply submseteq_Permutation in H1 as [k3 Hk3].
  rewrite (items_weight_perm _ _ Hk3), items_weight_app.
  assert (0 <= items_weight k3); [|lia]. apply Zsum_map_nonneg. rewrite Forall_forall in Hw |- *. intros m Hin. apply Hw.
  rewrite Hp, Hk3, !elem_of_app. auto.
Qed.

Section Loop.
Context (n : nat) (satisfied : option (authority -> checker_state -> result (bool * checker_state))).
Context (Hsat : match n with O => satisfied = None | S n => exists f, satisfied = Some f /\ authority_spec n f end).
Context (r : option nat) (a : authority) (Hm : mode_ok r n a) (threshold : Z).

(** The loop: it stops as soon as satisfied items reach the threshold; else it
    has seen which items are satisfied. *)
Lemma check_items_ok l st total :
  (forall m, m ∈ l -> m ∈ items a) -> Forall (fun m => 0 <= meta_weight m) l -> cache_inv r (cached_permissions st) ->
  0 <= total < threshold -> total + items_weight l < 2 ^ 32 ->
  exists b st', check_items permission_to_authority provided_keys provided_delay satisfied threshold st total l = Ok (b, st') /\
    cache_inv r (cached_permissions st') /\ evaluating_le (cached_permissions st) (cached_permissions st') /\
    used_for a (used_keys st) (used_keys st') /\
    exists chosen rest, l ≡ₚ chosen ++ rest /\ (forall m, m ∈ chosen -> item_satisfied m) /\
      if b then threshold <= total + items_weight chosen
      else total + items_weight chosen < threshold /\ (is_Some r -> forall m, m ∈ rest -> ~ item_satisfied m).
Proof.
  intros Hl Hw. revert st total. induction Hw as [|m l Hmw Hw IH]; intros st total I Ht Hb; cbn [check_items].
  { exists false, st. split_and!; [done|done|by intros ?|apply used_for_refl|]. exists [], []. cbn.
    split_and!; [done|by intros ? ?%elem_of_nil|lia|]. by intros _ ? ?%elem_of_nil. }
  unfold items_weight in Hb. cbn [map Zsum] in Hb. fold (items_weight l) in Hb. pose proof (Zsum_map_nonneg meta_weight l Hw) as Hn.
  fold (items_weight l) in Hn.
  destruct (visit_meta_ok n satisfied Hsat r a Hm m st total) as (total' & st' & -> & [C L U T]);
    [by apply Hl; left|done|unfold u32; lia|]. cbn [mbind result_bind fst snd].
  destruct (Z.leb_spec threshold total') as [Hle|Hlt].
  { exists true, st'. split_and!; [done..|]. destruct T as [[Hs ->]|[_ ->]]; [|lia]. exists [m], l.
    split_and!; [done|by intros x ->%list_elem_of_singleton|unfold items_weight; cbn; lia]. }
  destruct (IH ltac:(intros x Hx; apply Hl; by right) st' total' C) as (b & st2 & -> & C2 & L2 & U2 & ch & rest & Hp & Hs & Hres);
    [destruct T as [[_ ->]|[_ ->]]; lia..|].
  exists b, st2. split_and!; [done|done|by intros p Hp2; apply L, L2|by eapply used_for_trans|].
  destruct T as [[Hi ->]|[Hi ->]].
  - exists (m :: ch), rest. split_and!; [by rewrite Hp|by intros x [->|Hx]%elem_of_cons; [|apply Hs]|].
    unfold items_weight in *. cbn [map Zsum]. destruct b; [lia|]. destruct Hres. split; [lia|done].
  - exists ch, (m :: rest). split_and!; [by rewrite Hp, Permutation_middle|done|]. destruct b; [done|]. destruct Hres as [Hres Hno].
    split; [done|]. intros Hr x [->|Hx]%elem_of_cons; [by apply Hi|by apply Hno].
Qed.
End Loop.

(** One level: the loop over all the items, with the keys given back when the
    authority is not satisfied. *)
Lemma satisfied_level n satisfied r a st :
  match n with O => satisfied = None | S n => exists f, satisfied = Some f /\ authority_spec n f end ->
  checkable a -> mode_ok r n a -> cache_inv r (cached_permissions st) ->
  exists b st', (x ← check_items permission_to_authority provided_keys provided_delay satisfied (auth_threshold a) st 0 (meta_permissions a);
      Ok (if (x.1 : bool) then x else (false, CheckerState (used_keys st) (cached_permissions x.2)))) = Ok (b, st') /\
    evaluates r a st b st'.
Proof.
  intros Hsat [Hwf Hsize Hthr] Hm I. pose proof (meta_permissions_perm a) as Hp. pose proof (items_weight_bound _ (aw_weights _ Hwf)) as [_ Hb].
  assert (Hw : Forall (fun m => 0 <= meta_weight m) (meta_permissions a)).
  { rewrite Hp. eapply Forall_impl; [apply (aw_weights _ Hwf)|]. intros m [? _]. done. }
  destruct (check_items_ok n satisfied Hsat r a Hm (auth_threshold a) (meta_permissions a) st 0) as (b & st' & -> & C & L & U & ch & rest & Hl & Hs & Hres);
    [intros m; by rewrite Hp|done|done|lia|rewrite (items_weight_perm _ _ Hp); lia|].
  cbn [mbind result_bind fst snd]. destruct b; (do 2 eexists; split; [reflexivity|]).
  - split; [done|done| |done]. intros _. split; [|done]. exists ch. split_and!; [|done|lia].
    rewrite <- Hp, Hl. by apply submseteq_inserts_r.
  - destruct Hres as [Hlt Hno]. split; cbn [used_keys cached_permissions]; [done|done|done|]. intros _. split; [done|].
    intros Hr (ch' & Hsub & Hs' & Hw'). pose proof (no_better_choice _ ch rest 0 Hl Hw (Hno Hr) ch') as Hbest.
    rewrite Hp in Hbest. specialize (Hbest Hsub Hs'). lia.
Qed.

Lemma satisfied_authority_ok n : authority_spec n (satisfied_authority permission_to_authority provided_keys provided_delay n).
Proof.
  induction n as [|n IH]; intros r a st Hck Hm I; cbn [satisfied_authority].
  - by apply (satisfied_level 0).
  - apply (satisfied_level (S n)); [|done..]. eexists. by split.
Qed.

Lemma initial_cache p : initialize_permission_cache provided_permissions !! p =
  if decide (p ∈ provided_permissions) then Some permission_satisfied else None.
Proof.
  unfold initialize_permission_cache.
  assert (H : forall (c : gmap permission_level permission_cache_status) l, foldl (fun (c : gmap permission_level permission_cache_status) p => <[p := permission_satisfied]> c) c l !! p =
    if decide (p ∈ l) then Some permission_satisfied else c !! p).
  { intros c l. revert c. induction l as [|q l IH]; intros c; [by rewrite decide_False by (by intros ?%elem_of_nil)|].
    cbn [foldl]. rewrite IH. destruct (decide (p ∈ l)); [by rewrite decide_True by (by right)|].
    destruct (decide (q = p)) as [->|].
    - rewrite lookup_insert_eq, decide_True by (by left). done.
    - rewrite lookup_insert_ne, decide_False by (rewrite ?elem_of_cons; naive_solver). done. }
  by rewrite H.
Qed.

Lemma initial_inv r : cache_inv r (initialize_permission_cache provided_permissions).
Proof.
  split.
  - intros p Hp. by rewrite initial_cache, decide_True.
  - intros x s. rewrite initial_cache. by case_decide.
  - intros p. rewrite initial_cache. case_decide; [|done]. intros _. apply satisfiable_provided. by left.
  - intros p. rewrite initial_cache. by case_decide.
  - intros p n. rewrite initial_cache. by case_decide.
Qed.
End Decision.

(** ** Properties *)

(** An authority is accepted exactly when it is well formed: no more than
    2^16 items, no duplicates (every kind of item in strict order), no empty
    delay, and a threshold that is positive and that all the items together
    reach.  The 32-bit sum of the weights does not overflow. *)
Theorem validate_correct (a : authority) : authority_wf a -> validate a = true <-> valid_authority a.
Proof. apply validate_valid. Qed.

Section Properties.
Context (permission_to_authority : permission_level -> result (option authority)).
Context (provided_keys : list public_key_type) (provided_permissions : list permission_level) (provided_delay : Z).
Abbreviation satisfied_permission := (satisfied_permission permission_to_authority provided_keys provided_permissions provided_delay).
Abbreviation satisfiable := (satisfiable permission_to_authority provided_keys provided_permissions provided_delay).
Abbreviation relevant_key := (relevant_key permission_to_authority provided_keys provided_permissions provided_delay).
Abbreviation authority_of := (authority_of permission_to_authority).

Lemma satisfied_permission_ok (rank : permission_level -> nat) (r : option nat) (limit : nat) used p :
  PermissionsOk permission_to_authority -> (forall k, r = Some k -> ranked permission_to_authority rank /\ (k <= limit)%nat /\ (rank p < k)%nat) ->
  exists b used', satisfied_permission limit used p = Ok (b, used') /\
    (b = true -> satisfiable p) /\ (is_Some r -> b = false -> ~ satisfiable p) /\ length used' = length used /\
    forall i, used' !! i = Some true -> used !! i = Some true \/
      exists k a, provided_keys !! i = Some k /\ authority_of p = Some a /\ satisfiable p /\ relevant_key a k.
Proof.
  intros ok Hr. set (w := PermissionLevelWeight p 1). set (a := Authority 1 [] [w] []).
  destruct (visit_permission_ok permission_to_authority provided_keys provided_permissions provided_delay rank limit
    (match limit with O => None | S n => Some (satisfied_authority permission_to_authority provided_keys provided_delay n) end))
    with (r := r) (a := a) (w := w) (st := CheckerState used (initialize_permission_cache provided_permissions)) (total := 0)
    as (total & st & E & [_ _ [Hlen Hu] T]).
  - destruct limit as [|n]; [done|]. eexists. split; [done|]. by apply satisfied_authority_ok.
  - intros k Hk. destruct (Hr k Hk) as (H1 & H2 & H3). split_and!; [done..|].
    intros x ->%list_elem_of_singleton. by intros _.
  - by left.
  - apply initial_inv.
  - done.
  - unfold Authority.satisfied_permission. fold w. rewrite E. cbn [mbind result_bind fst snd].
    assert (Hi : item_satisfied permission_to_authority provided_keys provided_permissions provided_delay (MetaPermission w) <-> satisfiable p).
    { split; [intros H; by inversion H|intros H; by constructor]. }
    rewrite Hi in T. exists (0 <? total), (used_keys st). split; [done|].
    split; [intros Hb; destruct T as [[H _]|[_ ->]]; done|]. split; [intros Hs Hb; destruct T as [[_ ->]|[H _]]; [done|by apply H]|].
    split; [done|]. intros i Hl. destruct (Hu i Hl) as [|(k & Hk & Hrel)]; [by left|right].
    inversion Hrel as [? kw Hin|? w' a' k' Hin Ha Hs Hb]; subst; [by apply elem_of_nil in Hin|].
    apply list_elem_of_singleton in Hin as ->. by exists k, a'.
Qed.

(** C9: The authority checker is sound and always returns: it accepts a
    permission only if it is satisfiable -- by the keys, permissions and delay
    provided, through authorities that reach their thresholds, and never through
    itself -- and it marks as used only keys that an authority on the way to
    satisfied permissions names. *)
Theorem checker_sound (limit : nat) (used : list bool) (p : permission_level) :
  PermissionsOk permission_to_authority ->
  exists b used', satisfied_permission limit used p = Ok (b, used') /\
    (b = true -> satisfiable p) /\ length used' = length used /\
    forall i, used' !! i = Some true -> used !! i = Some true \/
      exists k a, provided_keys !! i = Some k /\ authority_of p = Some a /\ satisfiable p /\ relevant_key a k.
Proof.
  intros ok. destruct (satisfied_permission_ok (fun _ => 0%nat) None limit used p ok ltac:(done)) as (b & used' & E & H1 & _ & H2).
  by exists b, used'.
Qed.

(** C10: The checker is complete where the authorities have no cycles and are not
    deeper than its limit: it decides satisfiability, although it caches the
    permissions it has met and stops as soon as a threshold is reached. *)
Theorem checker_decides (rank : permission_level -> nat) (limit : nat) (used : list bool) (p : permission_level) :
  PermissionsOk permission_to_authority -> ranked permission_to_authority rank -> (rank p < limit)%nat ->
  exists b used', satisfied_permission limit used p = Ok (b, used') /\ (b = true <-> satisfiable p).
Proof.
  intros ok Hrank Hp. destruct (satisfied_permission_ok rank (Some limit) limit used p ok) as (b & used' & E & H1 & H2 & _).
  { by intros k [= <-]. }
  exists b, used'. split; [done|]. split; [done|]. intros Hs. destruct b; [done|]. by destruct (H2 ltac:(eauto) eq_refl).
Qed.
End Properties.

(** ** The properties on concrete authorities *)

(** Permissions given by a table. *)
Definition table_lookup (t : list (permission_level * authority)) (p : permission_level) : result (option authority) :=
  Ok (snd <$> find (fun e => bool_decide (e.1 = p)) t).

Lemma table_ok t : Forall (fun e => permission e.1 <> 0 /\ authority_wf e.2 /\ validate e.2 = true) t -> PermissionsOk (table_lookup t).
Proof.
  intros H. rewrite Forall_forall in H.
  assert (Hin : forall p a, authority_of (table_lookup t) p = Some a -> (p, a) ∈ t).
  { intros p a Hp. unfold authority_of, table_lookup in Hp. destruct (find _ t) as [[q b]|] eqn:E; [|done].
    apply find_some in E as [E Hq]. apply bool_decide_eq_true in Hq. injection Hp as <-. cbn in Hq. subst. by apply list_elem_of_In. }
  split; [done| |].
  - intros p a Hp. destruct (H _ (Hin _ _ Hp)) as (_ & Hw & Hv). apply valid_checkable; [done|]. by apply validate_valid.
  - intros x. destruct (authority_of _ _) as [a|] eqn:E; [|done]. destruct (H _ (Hin _ _ E)) as (Hn & _). by destruct Hn.
Qed.

Definition level (a p : string) : permission_level := PermissionLevel (name_of a) (name_of p).
#[local] Arguments level (a p)%_string.
Definition key_item (n : Z) : key_weight := KeyWeight (example_key n) 1.
Definition account_item (a p : string) (weight : Z) : permission_level_weight := PermissionLevelWeight (level a p) weight.
#[local] Arguments account_item a%_string p%_string weight.

(** Alice needs her key and bob, or a day's delay with either. *)
Definition example_table : list (permission_level * authority) :=
  [(level "alice" "active", Authority 2 [key_item 1] [account_item "bob" "active" 1] [WaitWeight 86400 1]);
   (level "bob" "active", Authority 1 [key_item 2; key_item 3] [] [])].
Definition example_rank (p : permission_level) : nat := if decide (p = level "alice" "active") then 1 else 0.

Lemma example_table_entries :
  Forall (fun e => permission e.1 <> 0 /\ authority_wf e.2 /\ validate e.2 = true) example_table.
Proof.
  unfold example_table. rewrite !Forall_cons. split_and!; try done;
    (split; cbn; [by vm_compute|repeat constructor; by vm_compute..]).
Qed.

Lemma example_ranked : ranked (table_lookup example_table) example_rank.
Proof.
  intros p a w Hp Hw [b Hb]. unfold authority_of, table_lookup in Hp.
  assert (H : Forall (fun e => Forall (fun w => (example_rank (plw_permission w) < example_rank e.1)%nat) (auth_accounts e.2)) example_table).
  { unfold example_table. rewrite !Forall_cons. split_and!; repeat constructor; by vm_compute. }
  destruct (find _ example_table) as [[q c]|] eqn:E; [|done]. apply find_some in E as [E Hq].
  apply bool_decide_eq_true in Hq. injection Hp as <-. cbn in Hq. subst q. rewrite !Forall_forall in H.
  apply list_elem_of_In in E. specialize (H _ E). rewrite Forall_forall in H. by apply H.
Qed.

Lemma validate_correct_witness :
  validate (Authority 2 [key_item 1] [account_item "bob" "active" 1] [WaitWeight 86400 1]) = true <->
  valid_authority (Authority 2 [key_item 1] [account_item "bob" "active" 1] [WaitWeight 86400 1]).
Proof. apply validate_correct. split; cbn; [by vm_compute|repeat constructor; by vm_compute..]. Defined.

(** With the keys of both alice and bob; the key 4 is not used. *)
Lemma checker_sound_witness :
  exists b used', satisfied_permission (table_lookup example_table) (map example_key [1; 2; 4]) [] 0 6 [false; false; false] (level "alice" "active") = Ok (b, used') /\
    (b = true -> satisfiable (table_lookup example_table) (map example_key [1; 2; 4]) [] 0 (level "alice" "active")) /\
    length used' = 3%nat /\
    forall i, used' !! i = Some true -> [false; false; false] !! i = Some true \/
      exists k a, map example_key [1; 2; 4] !! i = Some k /\ authority_of (table_lookup example_table) (level "alice" "active") = Some a /\
        satisfiable (table_lookup example_table) (map example_key [1; 2; 4]) [] 0 (level "alice" "active") /\
        relevant_key (table_lookup example_table) (map example_key [1; 2; 4]) [] 0 a k.
Proof. apply (checker_sound (table_lookup example_table)). apply table_ok, example_table_entries. Defined.

Example checker_sound_result :
  satisfied_permission (table_lookup example_table) (map example_key [1; 2; 4]) [] 0 6 [false; false; false] (level "alice" "active") =
    Ok (true, [true; true; false]).
Proof. by vm_compute. Qed.

Lemma checker_decides_witness :
  exists b used', satisfied_permission (table_lookup example_table) (map example_key [2]) [] (86400 * 1000000) 2 [false] (level "alice" "active") = Ok (b, used') /\
    (b = true <-> satisfiable (table_lookup example_table) (map example_key [2]) [] (86400 * 1000000) (level "alice" "active")).
Proof.
  apply (checker_decides (table_lookup example_table) _ _ _ example_rank);
    [apply table_ok, example_table_entries|exact example_ranked|apply Nat.ltb_lt; by vm_compute].
Defined.

(** A cycle: bob is satisfied by his key, and carol by bob, but while bob was
    evaluated carol was found not to be satisfied, and this is cached. *)
Definition cyclic_table : list (permission_level * authority) :=
  [(level "alice" "active", Authority 2 [] [account_item "bob" "active" 1; account_item "carol" "active" 1] []);
   (level "bob" "active", Authority 1 [key_item 1] [account_item "carol" "active" 2] []);
   (level "carol" "active", Authority 1 [] [account_item "bob" "active" 1] [])].
Example cycles_are_not_decided :
  satisfied_permission (table_lookup cyclic_table) [example_key 1] [] 0 6 [false] (level "alice" "active") = Ok (false, [false]) /\
  satisfied_permission (table_lookup cyclic_table) [example_key 1] [] 0 6 [false] (level "carol" "active") = Ok (true, [true]).
Proof. by vm_compute. Qed.

(** The keys given back by an authority that is not satisfied stay in the
    cache: root is satisfied through carol by bob's key, which was found while
    alice was evaluated, yet the key is not marked as used; without the key root
    is not satisfied. *)
Definition shared_table : list (permission_level * authority) :=
  [(level "root" "active", Authority 1 [] [account_item "alice" "active" 2; account_item "carol" "active" 1] []);
   (level "alice" "active", Authority 3 [key_item 9] [account_item "bob" "active" 2] []);
   (level "bob" "active", Authority 1 [key_item 1] [] []);
   (level "carol" "active", Authority 1 [] [account_item "bob" "active" 1] [])].
Example used_keys_are_not_enough :
  satisfied_permission (table_lookup shared_table) [example_key 1] [] 0 6 [false] (level "root" "active") = Ok (true, [false]) /\
  satisfied_permission (table_lookup shared_table) [] [] 0 6 [] (level "root" "active") = Ok (false, []).
Proof. by vm_compute. Qed.
