(* ===== verification/Authorization.v ===== *)
(** * Permissions and the authorization of transactions

    [permission_object.hpp], [permission_link_object.hpp],
    [authorization_manager.cpp] and, of [eosio_contract.cpp], the native actions
    on accounts and permissions.  A chainbase table is a map from ids to rows
    and the next id; a search in another index is a search among the rows.
    [data_as] is given the data already unpacked.  An exception loses the changes
    made before it, since the controller's session undoes them.  Times are
    microseconds. *)

From Stdlib Require Import Strings.String.
From S2P Require Import Prelude ChainTypes OrderedDiff Policies Raw Names ResourceLimits Authority.
Open Scope Z_scope.

(** ** Tables *)

Record table (A : Type) : Type := Table { rows : gmap Z A; next_id : Z }.
Arguments Table {A} rows next_id.
Arguments rows {A} t.
Arguments next_id {A} t.

Definition empty_table {A} : table A := Table ∅ 0.

(** [emplace]: the row made from the next id.  [unique] is whether the other
    indices accept it. *)
Definition table_create {A} (t : table A) (row : Z -> A) (unique : bool) : result (Z * table A) :=
  EOS_ASSERT unique ,, std_logic_error ;;
  Ok (next_id t, Table (<[next_id t := row (next_id t)]> (rows t)) (next_id t + 1)).
Definition table_set {A} (t : table A) (id : Z) (a : A) : table A := Table (<[id := a]> (rows t)) (next_id t).
Definition table_remove {A} (t : table A) (id : Z) : table A := Table (delete id (rows t)) (next_id t).
(** The row of another index that has the key [P] describes. *)
Definition table_find {A} (P : A -> bool) (t : table A) : option A := find P (map snd (map_to_list (rows t))).

(** ** Data *)

Record permission_object : Set := PermissionObject {
  perm_id : Z;
  usage_id : Z;
  perm_parent : Z;
  perm_owner : Z;
  perm_name : Z;
  last_updated : Z;
  perm_auth : authority
}.

Record permission_link_object : Set := PermissionLinkObject {
  link_id : Z;
  link_account : Z;
  link_code : Z;
  message_type : Z;
  required_permission : Z
}.

(** A deferred transaction; its actions are given unpacked, by what they
    declare. *)
Record generated_transaction_object : Set := GeneratedTransactionObject {
  gto_trx_id : sha256;
  gto_sender : Z;
  delay_until : Z;
  gto_published : Z;
  gto_authorizations : list (list permission_level)
}.

(** The tables that the authorization manager and the native actions use. *)
Record database : Type := Database {
  permissions : table permission_object;
  permission_usages : table Z;
  permission_links : table permission_link_object;
  accounts : gmap Z Z;
  account_privileged : gmap Z bool;
  generated_transactions : table generated_transaction_object;
  limits_db : resource_limits_manager
}.

(** What the controller and the transaction tell. *)
Record context : Set := Context {
  is_read_only : bool;
  authorization : list permission_level;
  pending_block_time : Z;
  num_supported_key_types : Z;
  max_transaction_delay : Z;
  max_authority_depth : Z;
  fix_linkauth_restriction : bool;
  only_link_to_existing_permission : bool;
  key_blacklist : list public_key_type
}.

Definition with_permissions (db : database) p u :=
  Database p u (permission_links db) (accounts db) (account_privileged db) (generated_transactions db) (limits_db db).
Definition with_links (db : database) l :=
  Database (permissions db) (permission_usages db) l (accounts db) (account_privileged db) (generated_transactions db) (limits_db db).
Definition with_accounts (db : database) a m :=
  Database (permissions db) (permission_usages db) (permission_links db) a m (generated_transactions db) (limits_db db).
Definition with_resource_limits (db : database) l :=
  Database (permissions db) (permission_usages db) (permission_links db) (accounts db) (account_privileged db) (generated_transactions db) l.

(** ** Constants *)

Definition system_account_name : Z := Eval vm_compute in name_of "eosio".
Definition null_account_name : Z := Eval vm_compute in name_of "eosio.null".
Definition producers_account_name : Z := Eval vm_compute in name_of "eosio.prods".
Definition majority_producers_permission_name : Z := Eval vm_compute in name_of "prod.major".
Definition minority_producers_permission_name : Z := Eval vm_compute in name_of "prod.minor".
Definition active_name : Z := Eval vm_compute in name_of "active".
Definition owner_name : Z := Eval vm_compute in name_of "owner".
Definition eosio_any_name : Z := Eval vm_compute in name_of "eosio.any".
Definition eosio_code_name : Z := Eval vm_compute in name_of "eosio.code".
Definition updateauth_name : Z := Eval vm_compute in name_of "updateauth".
Definition deleteauth_name : Z := Eval vm_compute in name_of "deleteauth".
Definition linkauth_name : Z := Eval vm_compute in name_of "linkauth".
Definition unlinkauth_name : Z := Eval vm_compute in name_of "unlinkauth".
Definition canceldelay_name : Z := Eval vm_compute in name_of "canceldelay".

Definition overhead_per_account_ram_bytes : Z := 2 * 1024.
Definition fixed_overhead_shared_vector_ram_bytes : Z := 16.
Definition overhead_per_row_per_index_ram_bytes : Z := 32.
Definition billable_alignment : Z := 16.
(** [billable_size_v]: the value, aligned. *)
Definition billable_size_v (value : Z) : Z := (value + billable_alignment - 1) / billable_alignment * billable_alignment.
Definition permission_level_weight_billable_size : Z := billable_size_v 24.
Definition key_weight_billable_size : Z := billable_size_v 8.
Definition wait_weight_billable_size : Z := billable_size_v 16.
Definition shared_authority_billable_size : Z := billable_size_v (3 * fixed_overhead_shared_vector_ram_bytes + 4).
Definition permission_object_billable_size : Z :=
  billable_size_v (shared_authority_billable_size + 64 + 5 * overhead_per_row_per_index_ram_bytes).
Definition permission_link_object_billable_size : Z := billable_size_v (40 + overhead_per_row_per_index_ram_bytes * 3).

(** [pack_size] of a [shared_public_key]: a WebAuthn key is packed as a string
    of its packed bytes. *)
Definition varint_size (n : Z) : Z := size_of (pack_unsigned_int 10 n).
Definition key_pack_size (k : public_key_type) : Z :=
  match k with
  | K1Key _ | R1Key _ => 1 + 33
  | WebAuthnKey _ _ rpid =>
      let size := 33 + 1 + (varint_size (size_of rpid) + size_of rpid) in
      1 + (varint_size size + size)
  end.

(** [shared_authority::get_billable_size] *)
Definition get_billable_size (a : authority) : Z :=
  let accounts_size := size_of (auth_accounts a) * permission_level_weight_billable_size in
  let waits_size := size_of (auth_waits a) * wait_weight_billable_size in
  let keys_size := foldl (fun acc k => acc + key_weight_billable_size + key_pack_size (key k)) 0 (auth_keys a) in
  accounts_size + waits_size + keys_size.

(** ** The authorization manager *)

Definition create_permission (db : database) (ctx : context) (account name parent : Z) (auth : authority)
    (initial_creation_time : Z) : result (permission_object * database) :=
  EOS_ASSERT forallb (fun k => which (key k) <? num_supported_key_types ctx) (auth_keys auth) ,, unactivated_key_type ;;
  let creation_time := if initial_creation_time =? 0 then pending_block_time ctx else initial_creation_time in
  usage ← table_create (permission_usages db) (fun _ => creation_time) true;
  let row id := PermissionObject id usage.1 parent account name creation_time auth in
  perm ← table_create (permissions db) row
           (bool_decide (table_find (fun p => (perm_owner p =? account) && (perm_name p =? name)) (permissions db) = None));
  Ok (row perm.1, with_permissions db perm.2 usage.2).

Definition modify_permission (db : database) (ctx : context) (p : permission_object) (auth : authority) :
    result (permission_object * database) :=
  EOS_ASSERT forallb (fun k => which (key k) <? num_supported_key_types ctx) (auth_keys auth) ,, unactivated_key_type ;;
  let p' := PermissionObject (perm_id p) (usage_id p) (perm_parent p) (perm_owner p) (perm_name p) (pending_block_time ctx) auth in
  Ok (p', with_permissions db (table_set (permissions db) (perm_id p) p') (permission_usages db)).

Definition remove_permission (db : database) (p : permission_object) : result database :=
  EOS_ASSERT bool_decide (table_find (fun q => perm_parent q =? perm_id p) (permissions db) = None) ,, action_validate_exception ;;
  EOS_ASSERT bool_decide (is_Some (rows (permission_usages db) !! usage_id p)) ,, std_out_of_range ;;
  Ok (with_permissions db (table_remove (permissions db) (perm_id p)) (table_remove (permission_usages db) (usage_id p))).

Definition update_permission_usage (db : database) (ctx : context) (p : permission_object) : result database :=
  _ ← get_row (rows (permission_usages db) !! usage_id p);
  Ok (with_permissions db (permissions db) (table_set (permission_usages db) (usage_id p) (pending_block_time ctx))).

Definition get_permission_last_used (db : database) (p : permission_object) : result Z :=
  get_row (rows (permission_usages db) !! usage_id p).

Definition find_permission (db : database) (level : permission_level) : result (option permission_object) :=
  EOS_ASSERT negb (actor level =? 0) && negb (permission level =? 0) ,, permission_query_exception ;;
  Ok (table_find (fun p => (perm_owner p =? actor level) && (perm_name p =? permission level)) (permissions db)).

Definition get_permission (db : database) (level : permission_level) : result permission_object :=
  p ← find_permission db level;
  match p with Some p => Ok p | None => Throw permission_query_exception end.

(** [permission_object::satisfies]: the walk up the parents; an id that is not
    there is dereferenced.  [fuel] is more than the permissions. *)
Fixpoint walk_parents (fuel : nat) (db : database) (id : Z) (parent : Z) : result bool :=
  match fuel with
  | O => Throw assert_failed
  | S fuel =>
      p ← at_or_assert (rows (permissions db) !! parent);
      if id =? perm_parent p then Ok true
      else if perm_parent p =? 0 then Ok false
      else walk_parents fuel db id (perm_parent p)
  end.

Definition satisfies (db : database) (p other : permission_object) : result bool :=
  if negb (perm_owner p =? perm_owner other) then Ok false
  else if (perm_id p =? perm_id other) || (perm_id p =? perm_parent other) then Ok true
  else walk_parents (S (size (rows (permissions db)))) db (perm_id p) (perm_parent other).

Definition find_link (db : database) (account code type : Z) : option permission_link_object :=
  table_find (fun l => (link_account l =? account) && (link_code l =? code) && (message_type l =? type)) (permission_links db).

Definition lookup_linked_permission (db : database) (authorizer_account scope act_name : Z) : option Z :=
  let link := match find_link db authorizer_account scope act_name with
              | Some l => Some l
              | None => find_link db authorizer_account scope 0
              end in
  required_permission <$> link.

Definition is_unlinkable_action (act_name : Z) : bool :=
  (act_name =? updateauth_name) || (act_name =? deleteauth_name) || (act_name =? linkauth_name)
  || (act_name =? unlinkauth_name) || (act_name =? canceldelay_name).

Definition lookup_minimum_permission (db : database) (authorizer_account scope act_name : Z) : result (option Z) :=
  EOS_ASSERT negb ((scope =? system_account_name) && is_unlinkable_action act_name) ,, unlinkable_min_permission_action ;;
  Ok (match lookup_linked_permission db authorizer_account scope act_name with
      | None => Some active_name
      | Some linked_permission => if linked_permission =? eosio_any_name then None else Some linked_permission
      end).

(** ** Native actions: their data and what they must be authorized by *)

Record updateauth : Set := Updateauth { ua_account : Z; ua_permission : Z; ua_parent : Z; ua_auth : authority }.
Record deleteauth : Set := Deleteauth { da_account : Z; da_permission : Z }.
Record linkauth : Set := Linkauth { la_account : Z; la_code : Z; la_type : Z; la_requirement : Z }.
Record unlinkauth : Set := Unlinkauth { ul_account : Z; ul_code : Z; ul_type : Z }.
Record canceldelay : Set := Canceldelay { canceling_auth : permission_level; cd_trx_id : sha256 }.
Record newaccount : Set := Newaccount { na_creator : Z; na_name : Z; na_owner : authority; na_active : authority }.

Inductive action_data : Set :=
| updateauth_data (u : updateauth)
| deleteauth_data (d : deleteauth)
| linkauth_data (l : linkauth)
| unlinkauth_data (u : unlinkauth)
| canceldelay_data (c : canceldelay)
| other_data.

Record action : Set := Action {
  act_account : Z;
  act_name : Z;
  act_authorization : list permission_level;
  act_data : action_data
}.

(** The only authorization an action may declare. *)
Definition single_auth (auths : list permission_level) : result permission_level :=
  match auths with [auth] => Ok auth | _ => Throw irrelevant_auth_exception end.

Definition check_satisfies (db : database) (auth : permission_level) (min_permission : permission_object) : result () :=
  p ← get_permission db auth;
  s ← satisfies db p min_permission;
  EOS_ASSERT (s : bool) ,, irrelevant_auth_exception ;; Ok ().

Definition check_updateauth_authorization (db : database) (update : updateauth) (auths : list permission_level) : result () :=
  auth ← single_auth auths;
  EOS_ASSERT actor auth =? ua_account update ,, irrelevant_auth_exception ;;
  found ← find_permission db (PermissionLevel (ua_account update) (ua_permission update));
  min_permission ← match found with
                   | Some p => Ok p
                   | None => get_permission db (PermissionLevel (ua_account update) (ua_parent update))
                   end;
  check_satisfies db auth min_permission.

Definition check_deleteauth_authorization (db : database) (del : deleteauth) (auths : list permission_level) : result () :=
  auth ← single_auth auths;
  EOS_ASSERT actor auth =? da_account del ,, irrelevant_auth_exception ;;
  min_permission ← get_permission db (PermissionLevel (da_account del) (da_permission del));
  check_satisfies db auth min_permission.

Definition check_linkauth_authorization (db : database) (ctx : context) (link : linkauth) (auths : list permission_level) : result () :=
  auth ← single_auth auths;
  EOS_ASSERT actor auth =? la_account link ,, irrelevant_auth_exception ;;
  EOS_ASSERT negb (((la_code link =? system_account_name) || negb (fix_linkauth_restriction ctx)) && is_unlinkable_action (la_type link)) ,,
    action_validate_exception ;;
  linked_permission_name ← lookup_minimum_permission db (la_account link) (la_code link) (la_type link);
  match linked_permission_name with
  | None => Ok ()
  | Some name => p ← get_permission db (PermissionLevel (la_account link) name); check_satisfies db auth p
  end.

Definition check_unlinkauth_authorization (db : database) (unlink : unlinkauth) (auths : list permission_level) : result () :=
  auth ← single_auth auths;
  EOS_ASSERT actor auth =? ul_account unlink ,, irrelevant_auth_exception ;;
  match lookup_linked_permission db (ul_account unlink) (ul_code unlink) (ul_type unlink) with
  | None => Throw transaction_exception
  | Some name =>
      if name =? eosio_any_name then Ok ()
      else p ← get_permission db (PermissionLevel (ul_account unlink) name); check_satisfies db auth p
  end.

(** It returns the delay of the transaction. *)
Definition check_canceldelay_authorization (db : database) (cancel : canceldelay) (auths : list permission_level) : result Z :=
  auth ← single_auth auths;
  p ← get_permission db (canceling_auth cancel);
  _ ← check_satisfies db auth p;
  match table_find (fun t => bool_decide (gto_trx_id t = cd_trx_id cancel)) (generated_transactions db) with
  | Some t =>
      EOS_ASSERT gto_sender t =? 0 ,, tx_not_found ;;
      EOS_ASSERT existsb (existsb (fun auth => bool_decide (auth = canceling_auth cancel))) (gto_authorizations t) ,,
        action_validate_exception ;;
      Ok (delay_until t - gto_published t)
  | None => Throw tx_not_found
  end.

(** ** [check_authorization] *)

(** The delay as it is checked: more than the longest delay is any delay. *)
Definition max_microseconds : Z := int64_max.
Definition effective_delay (ctx : context) (provided_delay : Z) : Z :=
  if max_transaction_delay ctx * 1000000 <=? provided_delay then max_microseconds else provided_delay.

(** [permissions_to_satisfy]: the least delay of each permission, in their
    order. *)
Fixpoint require_permission (p : permission_level) (delay : Z) (l : list (permission_level * Z)) : list (permission_level * Z) :=
  match l with
  | [] => [(p, delay)]
  | (q, d) :: l' =>
      if permission_level_lt p q then (p, delay) :: l
      else if decide (p = q) then (q, Z.min d delay) :: l'
      else (q, d) :: require_permission p delay l'
  end.

(** The checks of a native action; [None] when it is not one of those.  Else the
    delay it must be authorized under. *)
Definition check_special (db : database) (ctx : context) (act : action) (delay : Z) : result (option Z) :=
  if negb (act_account act =? system_account_name) then Ok None
  else if act_name act =? updateauth_name then
    match act_data act with
    | updateauth_data u => _ ← check_updateauth_authorization db u (act_authorization act); Ok (Some delay)
    | _ => Throw action_type_exception
    end
  else if act_name act =? deleteauth_name then
    match act_data act with
    | deleteauth_data d => _ ← check_deleteauth_authorization db d (act_authorization act); Ok (Some delay)
    | _ => Throw action_type_exception
    end
  else if act_name act =? linkauth_name then
    match act_data act with
    | linkauth_data l => _ ← check_linkauth_authorization db ctx l (act_authorization act); Ok (Some delay)
    | _ => Throw action_type_exception
    end
  else if act_name act =? unlinkauth_name then
    match act_data act with
    | unlinkauth_data u => _ ← check_unlinkauth_authorization db u (act_authorization act); Ok (Some delay)
    | _ => Throw action_type_exception
    end
  else if act_name act =? canceldelay_name then
    match act_data act with
    | canceldelay_data c => d ← check_canceldelay_authorization db c (act_authorization act); Ok (Some (Z.max delay d))
    | _ => Throw action_type_exception
    end
  else Ok None.

(** One authorization that an action declares. *)
Definition check_declared (db : database) (act : action) (special_case : bool) (satisfied_authorizations : list permission_level)
    (delay : Z) (to_satisfy : list (permission_level * Z)) (declared_auth : permission_level) : result (list (permission_level * Z)) :=
  _ ← (if special_case then Ok ()
       else
         min_permission_name ← lookup_minimum_permission db (actor declared_auth) (act_account act) (act_name act);
         match min_permission_name with
         | None => Ok ()
         | Some name =>
             min_permission ← get_permission db (PermissionLevel (actor declared_auth) name);
             check_satisfies db declared_auth min_permission
         end);
  Ok (if decide (declared_auth ∈ satisfied_authorizations) then to_satisfy else require_permission declared_auth delay to_satisfy).

Definition check_action (db : database) (ctx : context) (satisfied_authorizations : list permission_level) (provided_delay : Z)
    (to_satisfy : list (permission_level * Z)) (act : action) : result (list (permission_level * Z)) :=
  special ← check_special db ctx act provided_delay;
  foldM (check_declared db act (bool_decide (is_Some special)) satisfied_authorizations (default provided_delay special))
    to_satisfy (act_authorization act).

(** What [make_auth_checker] is given to look permissions up. *)
Definition permission_authority (db : database) (level : permission_level) : result (option authority) :=
  match find_permission db level with Ok p => Ok (perm_auth <$> p) | Throw e => Throw e end.

(** The checker with the keys that are used so far. *)
Definition check_permission (db : database) (ctx : context) (provided_keys : list public_key_type)
    (provided_permissions : list permission_level) (check_but_dont_fail : bool) (used : list bool) (p : permission_level * Z) :
    result (list bool) :=
  r ← satisfied_permission (permission_authority db) provided_keys provided_permissions p.2 (Z.to_nat (max_authority_depth ctx)) used p.1;
  EOS_ASSERT (r.1 : bool) || check_but_dont_fail ,, unsatisfied_authorization ;; Ok r.2.

Definition check_authorization (db : database) (ctx : context) (actions : list action) (provided_keys : list public_key_type)
    (provided_permissions : list permission_level) (provided_delay : Z) (allow_unused_keys check_but_dont_fail : bool)
    (satisfied_authorizations : list permission_level) : result () :=
  let effective_provided_delay := effective_delay ctx provided_delay in
  permissions_to_satisfy ← foldM (check_action db ctx satisfied_authorizations effective_provided_delay) [] actions;
  used ← foldM (check_permission db ctx provided_keys provided_permissions check_but_dont_fail)
           (replicate (length provided_keys) false) permissions_to_satisfy;
  EOS_ASSERT allow_unused_keys || all_keys_used used || check_but_dont_fail ,, tx_irrelevant_sig ;;
  Ok ().

(** [check_authorization] of one permission *)
Definition check_authorization_of (db : database) (ctx : context) (account permission : Z) (provided_keys : list public_key_type)
    (provided_permissions : list permission_level) (provided_delay : Z) (allow_unused_keys : bool) : result () :=
  used ← check_permission db ctx provided_keys provided_permissions false (replicate (length provided_keys) false)
           (PermissionLevel account permission, effective_delay ctx provided_delay);
  EOS_ASSERT allow_unused_keys || all_keys_used used ,, tx_irrelevant_sig ;;
  Ok ().

Definition get_required_keys (db : database) (ctx : context) (actions : list action) (candidate_keys : list public_key_type)
    (provided_delay : Z) : result (list public_key_type) :=
  used ← foldM (check_permission db ctx candidate_keys [] false) (replicate (length candidate_keys) false)
           (map (fun p => (p, provided_delay)) (concat (map act_authorization actions)));
  Ok (filter_by_marker candidate_keys used true).

(** ** The native actions *)

Definition require_authorization (ctx : context) (account : Z) : result () :=
  EOS_ASSERT existsb (fun auth => actor auth =? account) (authorization ctx) ,, missing_auth_exception ;; Ok ().

(** The list of the accounts whose memory the end of the transaction verifies is
    not kept. *)
Definition add_ram_usage (db : database) (account ram_delta : Z) : result database :=
  l ← add_pending_ram_usage (limits_db db) account ram_delta; Ok (with_resource_limits db l).

Definition validate_authority_precondition (db : database) (ctx : context) (auth : authority) : result () :=
  _ ← foldM (fun (_ : ()) a =>
        EOS_ASSERT bool_decide (is_Some (accounts db !! actor (plw_permission a))) ,, action_validate_exception ;;
        let name := permission (plw_permission a) in
        if (name =? owner_name) || (name =? active_name) || (name =? eosio_code_name) then Ok ()
        else match get_permission db (plw_permission a) with
             | Throw permission_query_exception => Throw action_validate_exception
             | Throw e => Throw e
             | Ok _ => Ok ()
             end) () (auth_accounts auth);
  EOS_ASSERT forallb (fun k => bool_decide (~ key k ∈ key_blacklist ctx)) (auth_keys auth) ,, key_blacklist_exception ;;
  Ok ().

(** [to_string().find("eosio.") == 0] *)
Definition has_eosio_prefix (name : Z) : bool := bool_decide (take 6 (name_to_string name) = str "eosio.").

(** What [newaccount] and the start of the chain have in common: the
    permissions of an account, its limits and the memory they take. *)
Definition create_account_permissions (db : database) (ctx : context) (name : Z) (owner active : authority) (creation_time : Z) :
    result database :=
  o ← create_permission db ctx name owner_name 0 owner creation_time;
  a ← create_permission o.2 ctx name active_name (perm_id o.1) active creation_time;
  l ← initialize_account (limits_db a.2) name;
  add_ram_usage (with_resource_limits a.2 l) name
    (overhead_per_account_ram_bytes + 2 * permission_object_billable_size
     + get_billable_size (perm_auth o.1) + get_billable_size (perm_auth a.1)).

Definition create_account (db : database) (name creation_date : Z) (privileged : bool) : result database :=
  EOS_ASSERT bool_decide (accounts db !! name = None) ,, std_logic_error ;;
  EOS_ASSERT bool_decide (account_privileged db !! name = None) ,, std_logic_error ;;
  Ok (with_accounts db (<[name := creation_date]> (accounts db)) (<[name := privileged]> (account_privileged db))).

Definition apply_eosio_newaccount (db : database) (ctx : context) (create : newaccount) : result database :=
  EOS_ASSERT negb (is_read_only ctx) ,, action_validate_exception ;;
  _ ← require_authorization ctx (na_creator create);
  EOS_ASSERT validate (na_owner create) ,, action_validate_exception ;;
  EOS_ASSERT validate (na_active create) ,, action_validate_exception ;;
  EOS_ASSERT negb (name_empty (na_name create)) ,, action_validate_exception ;;
  EOS_ASSERT size_of (name_to_string (na_name create)) <=? 12 ,, action_validate_exception ;;
  privileged ← get_row (account_privileged db !! na_creator create);
  EOS_ASSERT (privileged : bool) || negb (has_eosio_prefix (na_name create)) ,, action_validate_exception ;;
  EOS_ASSERT bool_decide (accounts db !! na_name create = None) ,, account_name_exists_exception ;;
  db ← create_account db (na_name create) (pending_block_time ctx) false;
  _ ← validate_authority_precondition db ctx (na_owner create);
  _ ← validate_authority_precondition db ctx (na_active create);
  create_account_permissions db ctx (na_name create) (na_owner create) (na_active create) 0.

Definition apply_eosio_updateauth (db : database) (ctx : context) (update : updateauth) : result database :=
  EOS_ASSERT negb (is_read_only ctx) ,, action_validate_exception ;;
  _ ← require_authorization ctx (ua_account update);
  EOS_ASSERT negb (name_empty (ua_permission update)) ,, action_validate_exception ;;
  EOS_ASSERT negb (has_eosio_prefix (ua_permission update)) ,, action_validate_exception ;;
  EOS_ASSERT negb (ua_permission update =? ua_parent update) ,, action_validate_exception ;;
  _ ← get_row (accounts db !! ua_account update);
  EOS_ASSERT validate (ua_auth update) ,, action_validate_exception ;;
  EOS_ASSERT negb (ua_permission update =? active_name) || (ua_parent update =? owner_name) ,, action_validate_exception ;;
  EOS_ASSERT eqb (ua_permission update =? owner_name) (name_empty (ua_parent update)) ,, action_validate_exception ;;
  EOS_ASSERT match last (auth_waits (ua_auth update)) with Some w => wait_sec w <=? max_transaction_delay ctx | None => true end ,,
    action_validate_exception ;;
  _ ← validate_authority_precondition db ctx (ua_auth update);
  found ← find_permission db (PermissionLevel (ua_account update) (ua_permission update));
  parent_id ← (if ua_permission update =? owner_name then Ok 0
               else parent ← get_permission db (PermissionLevel (ua_account update) (ua_parent update)); Ok (perm_id parent));
  match found with
  | Some p =>
      EOS_ASSERT parent_id =? perm_parent p ,, action_validate_exception ;;
      let old_size := permission_object_billable_size + get_billable_size (perm_auth p) in
      m ← modify_permission db ctx p (ua_auth update);
      let new_size := permission_object_billable_size + get_billable_size (perm_auth m.1) in
      add_ram_usage m.2 (perm_owner p) (new_size - old_size)
  | None =>
      c ← create_permission db ctx (ua_account update) (ua_permission update) parent_id (ua_auth update) 0;
      add_ram_usage c.2 (ua_account update) (permission_object_billable_size + get_billable_size (perm_auth c.1))
  end.

Definition apply_eosio_deleteauth (db : database) (ctx : context) (remove : deleteauth) : result database :=
  EOS_ASSERT negb (is_read_only ctx) ,, action_validate_exception ;;
  _ ← require_authorization ctx (da_account remove);
  EOS_ASSERT negb (da_permission remove =? active_name) ,, action_validate_exception ;;
  EOS_ASSERT negb (da_permission remove =? owner_name) ,, action_validate_exception ;;
  EOS_ASSERT bool_decide (table_find (fun l => (link_account l =? da_account remove) && (required_permission l =? da_permission remove))
               (permission_links db) = None) ,, action_validate_exception ;;
  p ← get_permission db (PermissionLevel (da_account remove) (da_permission remove));
  let old_size := permission_object_billable_size + get_billable_size (perm_auth p) in
  db ← remove_permission db p;
  add_ram_usage db (da_account remove) (- old_size).

Definition apply_eosio_linkauth (db : database) (ctx : context) (requirement : linkauth) : result database :=
  EOS_ASSERT negb (is_read_only ctx) ,, action_validate_exception ;;
  EOS_ASSERT negb (name_empty (la_requirement requirement)) ,, action_validate_exception ;;
  _ ← require_authorization ctx (la_account requirement);
  EOS_ASSERT bool_decide (is_Some (accounts db !! la_account requirement)) ,, account_query_exception ;;
  EOS_ASSERT bool_decide (is_Some (accounts db !! la_code requirement)) ,, account_query_exception ;;
  EOS_ASSERT (la_requirement requirement =? eosio_any_name) ||
    bool_decide (is_Some (table_find (fun p =>
      (negb (only_link_to_existing_permission ctx) || (perm_owner p =? la_account requirement)) && (perm_name p =? la_requirement requirement))
      (permissions db))) ,, permission_query_exception ;;
  match find_link db (la_account requirement) (la_code requirement) (la_type requirement) with
  | Some link =>
      EOS_ASSERT negb (required_permission link =? la_requirement requirement) ,, action_validate_exception ;;
      Ok (with_links db (table_set (permission_links db) (link_id link)
            (PermissionLinkObject (link_id link) (link_account link) (link_code link) (message_type link) (la_requirement requirement))))
  | None =>
      l ← table_create (permission_links db)
            (fun id => PermissionLinkObject id (la_account requirement) (la_code requirement) (la_type requirement) (la_requirement requirement)) true;
      add_ram_usage (with_links db l.2) (la_account requirement) permission_link_object_billable_size
  end.

Definition apply_eosio_unlinkauth (db : database) (ctx : context) (unlink : unlinkauth) : result database :=
  EOS_ASSERT negb (is_read_only ctx) ,, action_validate_exception ;;
  _ ← require_authorization ctx (ul_account unlink);
  match find_link db (ul_account unlink) (ul_code unlink) (ul_type unlink) with
  | None => Throw action_validate_exception
  | Some link =>
      db ← add_ram_usage db (link_account link) (- permission_link_object_billable_size);
      Ok (with_links db (table_remove (permission_links db) (link_id link)))
  end.

(** ** The start of the chain *)

Definition reserved_permission : permission_object := PermissionObject 0 0 0 0 0 0 (Authority 0 [] [] []).

(** [authorization_manager::initialize_database] *)
Definition initialize_permissions : database :=
  Database (Table {[0 := reserved_permission]} 1) empty_table empty_table ∅ ∅ empty_table ResourceLimits.initialize_database.

(** [authority(public_key_type)] *)
Definition key_authority (k : public_key_type) : authority := Authority 1 [KeyWeight k 1] [] [].
Definition empty_authority : authority := Authority 1 [] [] [].
Definition active_producers_authority : authority :=
  Authority 1 [] [PermissionLevelWeight (PermissionLevel system_account_name active_name) 1] [].

Definition create_native_account (db : database) (ctx : context) (initial_timestamp name : Z) (owner active : authority)
    (privileged : bool) : result database :=
  db ← create_account db name initial_timestamp privileged;
  db ← create_account_permissions db ctx name owner active initial_timestamp;
  _ ← verify_account_ram_usage (limits_db db) name;
  Ok db.

(** The part of [controller_impl::initialize_database] about accounts. *)
Definition initialize_accounts (ctx : context) (initial_key : public_key_type) (initial_timestamp : Z) : result database :=
  let system_auth := key_authority initial_key in
  db ← create_native_account initialize_permissions ctx initial_timestamp system_account_name system_auth system_auth true;
  db ← create_native_account db ctx initial_timestamp null_account_name empty_authority empty_authority false;
  db ← create_native_account db ctx initial_timestamp producers_account_name empty_authority active_producers_authority false;
  active_permission ← get_permission db (PermissionLevel producers_account_name active_name);
  majority ← create_permission db ctx producers_account_name majority_producers_permission_name (perm_id active_permission)
               active_producers_authority initial_timestamp;
  minority ← create_permission majority.2 ctx producers_account_name minority_producers_permission_name (perm_id majority.1)
               active_producers_authority initial_timestamp;
  Ok minority.2.

(** ** The permissions of the producers *)

(** The lambdas of [controller_impl::update_producers_authority]: more than a
    part of the producers, in 32 bits, and the update of one permission, which
    does not touch its time. *)
Definition calculate_threshold (num_producers numerator denominator : Z) : Z :=
  wrap32 (wrap32 (num_producers * numerator) / denominator + 1).

Definition producers_authority (producers : list producer_authority) (threshold : Z) : authority :=
  Authority threshold []
    (map (fun p => PermissionLevelWeight (PermissionLevel (producer_name p) active_name) 1) producers) [].

Definition update_producers_permission (db : database) (p : permission_object) (auth : authority) : database :=
  if decide (perm_auth p = auth) then db
  else
    let p' := PermissionObject (perm_id p) (usage_id p) (perm_parent p) (perm_owner p) (perm_name p) (last_updated p) auth in
    with_permissions db (table_set (permissions db) (perm_id p) p') (permission_usages db).

(** [controller_impl::update_producers_authority], for the producers that are
    active in the block. *)
Definition update_producers_authority (db : database) (producers : list producer_authority) : result database :=
  let num_producers := wrap32 (size_of producers) in
  active ← get_permission db (PermissionLevel producers_account_name active_name);
  let db := update_producers_permission db active (producers_authority producers (calculate_threshold num_producers 2 3)) in
  majority ← get_permission db (PermissionLevel producers_account_name majority_producers_permission_name);
  let db := update_producers_permission db majority (producers_authority producers (calculate_threshold num_producers 1 2)) in
  minority ← get_permission db (PermissionLevel producers_account_name minority_producers_permission_name);
  Ok (update_producers_permission db minority (producers_authority producers (calculate_threshold num_producers 1 3))).
