(* ===== verification/Permissions.v ===== *)
(** * The permissions of the accounts

    What the operations of [Authorization] keep of the tables: the permissions of
    an account are a tree under its [owner] permission, and every account has
    its [owner] and its [active] permission.  On this [satisfies] decides the
    ancestors. *)

From S2P Require Import Prelude ChainTypes OrderedDiff Policies Raw Names ResourceLimits Authority Authorization.
Open Scope Z_scope.

(** ** Tables, proofs *)

Lemma table_find_Some {A} (P : A -> bool) (t : table A) a : table_find P t = Some a -> P a = true /\ exists id, rows t !! id = Some a.
Proof.
  unfold table_find. intros H. apply find_some in H as [Hin HP]. split; [done|].
  apply in_map_iff in Hin as ([id b] & <- & Hin). apply list_elem_of_In, elem_of_map_to_list in Hin. by exists id.
Qed.

Lemma table_find_None {A} (P : A -> bool) (t : table A) : table_find P t = None <-> forall id a, rows t !! id = Some a -> P a = false.
Proof.
  unfold table_find. split.
  - intros H id a Hi. apply (find_none _ _ H). apply in_map_iff. exists (id, a). split; [done|].
    by apply list_elem_of_In, elem_of_map_to_list.
  - intros H. destruct (find _ _) as [a|] eqn:E; [|done]. apply find_some in E as [Hin HP].
    apply in_map_iff in Hin as ([id b] & <- & Hin). apply list_elem_of_In, elem_of_map_to_list in Hin.
    cbn in HP, Hin. by rewrite (H _ _ Hin) in HP.
Qed.

(** ** The invariant of the permissions *)

(** A permission other than the reserved one. *)
Record permission_ok (db : database) (p : permission_object) : Prop := {
  pk_parent : 0 <= perm_parent p < perm_id p;
  pk_owner : perm_owner p <> 0;
  pk_name : perm_name p <> 0;
  pk_root : perm_parent p = 0 <-> perm_name p = owner_name;
  pk_family : perm_parent p <> 0 -> exists q, rows (permissions db) !! perm_parent p = Some q /\ perm_owner q = perm_owner p;
  pk_account : is_Some (accounts db !! perm_owner p);
  pk_usage : is_Some (rows (permission_usages db) !! usage_id p);
  pk_auth : checkable (perm_auth p)
}.

Record permissions_ok (db : database) : Prop := {
  pm_reserved : rows (permissions db) !! 0 = Some reserved_permission;
  pm_ids id p : rows (permissions db) !! id = Some p -> perm_id p = id /\ id < next_id (permissions db);
  pm_ok id p : rows (permissions db) !! id = Some p -> id <> 0 -> permission_ok db p;
  pm_unique i j p q : rows (permissions db) !! i = Some p -> rows (permissions db) !! j = Some q ->
    perm_owner p = perm_owner q -> perm_name p = perm_name q -> i = j;
  pm_usage_ids u t : rows (permission_usages db) !! u = Some t -> u < next_id (permission_usages db);
  pm_usages i j p q : i <> 0 -> j <> 0 -> rows (permissions db) !! i = Some p -> rows (permissions db) !! j = Some q ->
    usage_id p = usage_id q -> i = j;
  pm_accounts : accounts db !! 0 = None
}.

Section Lookup.
Context (db : database) (D : permissions_ok db).

Lemma find_permission_cases level : actor level <> 0 -> permission level <> 0 ->
  (exists p, find_permission db level = Ok (Some p) /\ rows (permissions db) !! perm_id p = Some p /\
     perm_owner p = actor level /\ perm_name p = permission level /\ perm_id p <> 0) \/
  (find_permission db level = Ok None /\
     forall id p, rows (permissions db) !! id = Some p -> ~ (perm_owner p = actor level /\ perm_name p = permission level)).
Proof.
  intros Ha Hp. unfold find_permission. pass_with ltac:(apply andb_true_iff; split; apply negb_true_iff, Z.eqb_neq; done).
  destruct (table_find _ _) as [p|] eqn:E.
  - left. exists p. apply table_find_Some in E as [HP (id & Hid)]. apply andb_true_iff in HP as [H1%Z.eqb_eq H2%Z.eqb_eq].
    destruct (pm_ids _ D _ _ Hid) as [<- _]. split_and!; [done..|]. intros H0. rewrite H0, (pm_reserved _ D) in Hid.
    injection Hid as <-. cbn in H1. congruence.
  - right. split; [done|]. intros id p Hid [H1 H2]. pose proof (proj1 (table_find_None _ _) E _ _ Hid) as H. cbn in H.
    rewrite H1, H2, !Z.eqb_refl in H. done.
Qed.

Lemma find_permission_Ok level o : find_permission db level = Ok o -> actor level <> 0 /\ permission level <> 0.
Proof.
  unfold find_permission. intros H. inv_result. apply andb_true_iff in E as [E1%negb_true_iff%Z.eqb_neq E2%negb_true_iff%Z.eqb_neq]. done.
Qed.

Lemma get_permission_Ok level p : get_permission db level = Ok p ->
  rows (permissions db) !! perm_id p = Some p /\ perm_owner p = actor level /\ perm_name p = permission level /\ perm_id p <> 0.
Proof.
  unfold get_permission. intros H. apply bind_Ok in H as (o & Ho & H). destruct o as [q|]; [|done]. injection H as ->.
  destruct (find_permission_Ok _ _ Ho) as [Ha Hp]. destruct (find_permission_cases level Ha Hp) as [(p' & E & H)|[E _]]; [|congruence].
  rewrite Ho in E. by injection E as <-.
Qed.

(** The permissions as the authority checker sees them. *)
Lemma permission_authority_ok : PermissionsOk (permission_authority db).
Proof.
  assert (Hinv : forall p a, authority_of (permission_authority db) p = Some a ->
    exists q, find_permission db p = Ok (Some q) /\ a = perm_auth q).
  { intros p a. unfold authority_of, permission_authority. destruct (find_permission db p) as [[q|]|]; [|done..].
    intros [= <-]. by exists q. }
  split.
  - intros p e. unfold permission_authority, find_permission. destruct (_ && _); [done|]. by intros [= <-].
  - intros p a (q & Hq & ->)%Hinv. destruct (find_permission_Ok _ _ Hq) as [Ha Hp].
    destruct (find_permission_cases p Ha Hp) as [(q' & E & Hr & _ & _ & H0)|[E _]]; [|congruence].
    rewrite Hq in E. injection E as <-. apply (pk_auth _ _ (pm_ok _ D _ _ Hr H0)).
  - intros x. destruct (authority_of _ _) as [a|] eqn:E; [|done]. apply Hinv in E as (q & Hq & _).
    apply find_permission_Ok in Hq as [_ Hq]. by destruct Hq.
Qed.

(** ** The tree of permissions *)

(** [above p q]: [p] is [q] or one of its ancestors. *)
Inductive above : permission_object -> permission_object -> Prop :=
| above_self p : above p p
| above_parent p q r : perm_parent q <> 0 -> rows (permissions db) !! perm_parent q = Some r -> above p r -> above p q.

Lemma above_owner p q : rows (permissions db) !! perm_id q = Some q -> perm_id q <> 0 -> above p q ->
  perm_owner p = perm_owner q /\ perm_id p <= perm_id q.
Proof.
  intros Hq H0 H. induction H as [p|p q r Hp Hr _ IH]; [done|].
  pose proof (pm_ok _ D _ _ Hq H0) as K. destruct (pk_family _ _ K Hp) as (r' & Hr' & Ho).
  rewrite Hr in Hr'. injection Hr' as <-. destruct (pm_ids _ D _ _ Hr) as [Hid _]. rewrite Hid in IH.
  destruct (IH Hr Hp) as [-> Hle]. pose proof (pk_parent _ _ K). split; [done|lia].
Qed.

(** The walk: [fuel] is more than the permissions up to the one it starts at. *)
Lemma walk_parents_Ok fuel p parent q :
  rows (permissions db) !! perm_id p = Some p -> perm_id p <> 0 -> rows (permissions db) !! parent = Some q -> parent <> 0 -> parent <> perm_id p ->
  (size (filter (fun i => (i <= parent)%Z) (dom (rows (permissions db)))) < fuel)%nat ->
  exists b, walk_parents fuel db (perm_id p) parent = Ok b /\ (b = true <-> above p q).
Proof.
  intros Hp Hp0. revert parent q. induction fuel as [|fuel IH]; intros parent q Hq Hq0 Hne Hf; [lia|]. cbn [walk_parents].
  rewrite Hq. cbn [at_or_assert mbind result_bind]. destruct (pm_ids _ D _ _ Hq) as [Hid _].
  pose proof (pm_ok _ D _ _ Hq Hq0) as K.
  destruct (Z.eqb_spec (perm_id p) (perm_parent q)) as [E|Hnp].
  { exists true. split; [done|]. split; [intros _|done]. apply (above_parent p q p); [congruence| |constructor]. by rewrite <- E. }
  destruct (Z.eqb_spec (perm_parent q) 0) as [E|Hn0].
  { exists false. split; [done|]. split; [done|]. intros H. inversion H; subst; congruence. }
  destruct (pk_family _ _ K Hn0) as (r & Hr & _). pose proof (pk_parent _ _ K) as Hlt.
  destruct (IH (perm_parent q) r Hr Hn0 ltac:(done)) as (b & E & Hb).
  { assert (Hsub : filter (fun i => i <= perm_parent q) (dom (rows (permissions db))) ⊂ filter (fun i => i <= parent) (dom (rows (permissions db)))).
    { apply strict_spec_alt. split; [intros i [Hi ?]%elem_of_filter; apply elem_of_filter; split; [lia|done]|].
      intros Eq. assert (Hin : parent ∈ filter (fun i => i <= parent) (dom (rows (permissions db)))).
      { apply elem_of_filter. split; [lia|]. by apply elem_of_dom_2 in Hq. }
      rewrite <- Eq in Hin. apply elem_of_filter in Hin as [Hin _]. lia. }
    apply subset_size in Hsub. lia. }
  exists b. split; [done|]. rewrite Hb. split; [by apply above_parent|]. intros H. inversion H as [|? ? r' ? Hr' H']; subst; [congruence|].
  rewrite Hr in Hr'. by injection Hr' as <-.
Qed.

Lemma satisfies_Ok p q : rows (permissions db) !! perm_id p = Some p -> perm_id p <> 0 ->
  rows (permissions db) !! perm_id q = Some q -> perm_id q <> 0 ->
  exists b, satisfies db p q = Ok b /\ (b = true <-> above p q).
Proof.
  intros Hp Hp0 Hq Hq0. unfold satisfies. pose proof (pm_ok _ D _ _ Hq Hq0) as K.
  destruct (Z.eqb_spec (perm_owner p) (perm_owner q)) as [Eo|Hno]; cbn [negb].
  2:{ exists false. split; [done|]. split; [done|]. intros H. by destruct (above_owner p q Hq Hq0 H). }
  destruct (Z.eqb_spec (perm_id p) (perm_id q)) as [Ei|Hni]; cbn [orb].
  { exists true. split; [done|]. split; [intros _|done]. rewrite Ei, Hq in Hp. injection Hp as ->. constructor. }
  destruct (Z.eqb_spec (perm_id p) (perm_parent q)) as [Ep|Hnp].
  { exists true. split; [done|]. split; [intros _|done]. apply (above_parent p q p); [congruence| |constructor]. by rewrite <- Ep. }
  destruct (decide (perm_parent q = 0)) as [E0|Hn0].
  { exists false. cbn [walk_parents]. rewrite E0, (pm_reserved _ D). cbn [at_or_assert mbind result_bind reserved_permission perm_parent].
    destruct (Z.eqb_spec (perm_id p) 0); [done|]. split; [done|]. split; [done|]. intros H. inversion H; subst; congruence. }
  destruct (pk_family _ _ K Hn0) as (r & Hr & _).
  destruct (walk_parents_Ok (S (size (rows (permissions db)))) p (perm_parent q) r Hp Hp0 Hr Hn0 ltac:(done)) as (b & E & Hb).
  { rewrite <- size_dom. apply le_n_S, subseteq_size. intros i. by intros [_ ?]%elem_of_filter. }
  exists b. split; [done|]. rewrite Hb. split; [by apply above_parent|]. intros H. inversion H as [|? ? r' ? Hr' H']; subst; [congruence|].
  rewrite Hr in Hr'. by injection Hr' as <-.
Qed.
End Lookup.

(** ** What the operations keep *)

(** The permission [p] of a level. *)
Definition has_permission (db : database) (level : permission_level) (p : permission_object) : Prop :=
  rows (permissions db) !! perm_id p = Some p /\ perm_owner p = actor level /\ perm_name p = permission level /\ perm_id p <> 0.

(** The [owner] permission of an account and the [active] one under it. *)
Definition account_complete (db : database) (account : Z) : Prop :=
  exists o a, has_permission db (PermissionLevel account owner_name) o /\ has_permission db (PermissionLevel account active_name) a /\
    perm_parent a = perm_id o.
Definition accounts_complete (db : database) : Prop :=
  forall account, is_Some (accounts db !! account) -> account_complete db account.

(** Every permission is still there, under its parent and its name. *)
Definition permissions_kept (db db' : database) : Prop :=
  forall id p, rows (permissions db) !! id = Some p -> exists p', rows (permissions db') !! id = Some p' /\
    perm_id p' = perm_id p /\ perm_owner p' = perm_owner p /\ perm_name p' = perm_name p /\ perm_parent p' = perm_parent p.

#[export] Instance permissions_kept_preorder : PreOrder permissions_kept.
Proof.
  split; [intros db id p Hp; by exists p|]. intros d1 d2 d3 H1 H2 id p Hp. destruct (H1 _ _ Hp) as (p2 & Hp2 & ? & ? & ? & ?).
  destruct (H2 _ _ Hp2) as (p3 & Hp3 & ? & ? & ? & ?). exists p3. split_and!; congruence.
Qed.

Lemma permissions_kept_eq db db' : permissions db' = permissions db -> permissions_kept db db'.
Proof. intros E id p Hp. rewrite E. by exists p. Qed.

Lemma account_complete_kept db db' account : permissions_kept db db' -> account_complete db account -> account_complete db' account.
Proof.
  intros K (o & a & (Ho & Ho1 & Ho2 & Ho3) & (Ha & Ha1 & Ha2 & Ha3) & Hp).
  destruct (K _ _ Ho) as (o' & Ho' & E1 & E2 & E3 & E4). destruct (K _ _ Ha) as (a' & Ha' & F1 & F2 & F3 & F4).
  exists o', a'. unfold has_permission. split_and!; congruence.
Qed.

Lemma permission_ok_mono db db' p :
  (perm_parent p <> 0 -> forall q, rows (permissions db) !! perm_parent p = Some q ->
     exists q', rows (permissions db') !! perm_parent p = Some q' /\ perm_owner q' = perm_owner q) ->
  (forall a, is_Some (accounts db !! a) -> is_Some (accounts db' !! a)) ->
  (is_Some (rows (permission_usages db) !! usage_id p) -> is_Some (rows (permission_usages db') !! usage_id p)) ->
  permission_ok db p -> permission_ok db' p.
Proof.
  intros Hp Ha Hu []. split; [done..| |by apply Ha|by apply Hu|done].
  intros H0. destruct (pk_family0 H0) as (q & Hq & <-). by apply Hp.
Qed.

Lemma next_id_pos db : permissions_ok db -> 0 < next_id (permissions db).
Proof. intros D. apply (pm_ids _ D _ _ (pm_reserved _ D)). Qed.

Lemma permissions_ok_accounts db db' :
  permissions db' = permissions db -> permission_usages db' = permission_usages db ->
  (forall a, is_Some (accounts db !! a) -> is_Some (accounts db' !! a)) -> accounts db' !! 0 = None ->
  permissions_ok db -> permissions_ok db'.
Proof.
  intros Hp Hu Ha H0 []. split; rewrite ?Hp, ?Hu; [done..| |done|done|done|done].
  intros id p Hi Hn. eapply permission_ok_mono; [..|by eapply pm_ok0]; [|done|by rewrite Hu].
  intros _ q Hq. rewrite Hp. by exists q.
Qed.

(** A new permission: the root of an account, or below a permission of it. *)
Definition parent_ok (db : database) (account name parent : Z) : Prop :=
  (name = owner_name /\ parent = 0) \/
  (name <> owner_name /\ exists q, rows (permissions db) !! parent = Some q /\ parent <> 0 /\ perm_owner q = account).

(** A row that is new or replaces one of the same name and usage. *)
Lemma put_permission_ok db db' p :
  permissions_ok db -> rows (permissions db') = <[perm_id p := p]> (rows (permissions db)) -> accounts db' = accounts db ->
  perm_id p <> 0 -> perm_id p < next_id (permissions db') -> next_id (permissions db) <= next_id (permissions db') ->
  (forall u, is_Some (rows (permission_usages db) !! u) -> is_Some (rows (permission_usages db') !! u)) ->
  (forall u t, rows (permission_usages db') !! u = Some t -> u < next_id (permission_usages db')) ->
  permission_ok db' p -> (forall q, rows (permissions db) !! perm_id p = Some q -> perm_owner q = perm_owner p) ->
  (forall id q, rows (permissions db) !! id = Some q -> id <> perm_id p ->
     ~ (perm_owner q = perm_owner p /\ perm_name q = perm_name p) /\ (id <> 0 -> usage_id q <> usage_id p)) ->
  permissions_ok db'.
Proof.
  intros D Hr Ha H0 Hn Hn' Hu Hu' Hp Ho Hd.
  assert (Hrow : forall id q, rows (permissions db') !! id = Some q -> (id = perm_id p /\ q = p) \/ (id <> perm_id p /\ rows (permissions db) !! id = Some q)).
  { intros id q. rewrite Hr. intros [[<- <-]|[? ?]]%lookup_insert_Some; [by left|right; split; congruence]. }
  split; rewrite ?Ha.
  - rewrite Hr, lookup_insert_ne by done. apply (pm_reserved _ D).
  - intros id q [[-> ->]|[_ Hq]]%Hrow; [done|]. destruct (pm_ids _ D _ _ Hq). split; [done|lia].
  - intros id q [[-> ->]|[_ Hq]]%Hrow Hi; [done|]. eapply permission_ok_mono; [..|by eapply (pm_ok _ D)]; [|by intros a; rewrite Ha|by apply Hu].
    intros _ q' Hq'. rewrite Hr. destruct (decide (perm_id p = perm_parent q)) as [E|E].
    + exists p. rewrite <- E, lookup_insert_eq. split; [done|]. symmetry. apply Ho. by rewrite E.
    + exists q'. by rewrite lookup_insert_ne.
  - intros i j q q' [[-> ->]|[Hi Hq]]%Hrow [[-> ->]|[Hj Hq']]%Hrow Eo En; [done| | |by eapply (pm_unique _ D)].
    + destruct (Hd _ _ Hq' Hj) as [[] _]. by split.
    + destruct (Hd _ _ Hq Hi) as [[] _]. by split.
  - done.
  - intros i j q q' Hi0 Hj0 [[-> ->]|[Hi Hq]]%Hrow [[-> ->]|[Hj Hq']]%Hrow Eu; [done| | |by eapply (pm_usages _ D)].
    + destruct (Hd _ _ Hq' Hj) as [_ []]; [done|congruence].
    + destruct (Hd _ _ Hq Hi) as [_ []]; [done|congruence].
  - apply (pm_accounts _ D).
Qed.

Lemma put_permission_kept db db' p : rows (permissions db') = <[perm_id p := p]> (rows (permissions db)) ->
  (forall q, rows (permissions db) !! perm_id p = Some q ->
     perm_id p = perm_id q /\ perm_owner p = perm_owner q /\ perm_name p = perm_name q /\ perm_parent p = perm_parent q) ->
  permissions_kept db db'.
Proof.
  intros Hr H id q Hq. rewrite Hr. destruct (decide (perm_id p = id)) as [<-|].
  - exists p. rewrite lookup_insert_eq. split; [done|]. by apply H.
  - exists q. by rewrite lookup_insert_ne.
Qed.

Lemma create_permission_ok db ctx account name parent auth t r :
  permissions_ok db -> is_Some (accounts db !! account) -> name <> 0 -> checkable auth -> parent_ok db account name parent ->
  create_permission db ctx account name parent auth t = Ok r ->
  permissions_ok r.2 /\ has_permission r.2 (PermissionLevel account name) r.1 /\ perm_parent r.1 = parent /\
    permissions_kept db r.2 /\ accounts r.2 = accounts db.
Proof.
  intros D Hacc Hname Hck Hpar H. unfold create_permission in H. inv_result.
  unfold table_create in *. inv_result. cbn [fst snd] in *. clear E. apply bool_decide_eq_true in E0.
  pose proof (proj1 (table_find_None _ _) E0) as Hnew. clear E0. pose proof (next_id_pos _ D) as Hpos.
  set (n := next_id (permissions db)) in *. set (u := next_id (permission_usages db)) in *.
  set (time := if t =? 0 then _ else _). set (p := PermissionObject n u parent account name time auth).
  assert (Hn : forall id q, rows (permissions db) !! id = Some q -> id < n) by (intros id q Hq; by apply (pm_ids _ D _ _ Hq)).
  assert (Hu : forall v t', rows (permission_usages db) !! v = Some t' -> v < u) by apply (pm_usage_ids _ D).
  assert (Hfresh : forall q, rows (permissions db) !! n <> Some q) by (intros q Hq%Hn; lia).
  set (db' := with_permissions db _ _).
  split_and!; [|unfold has_permission; cbn; rewrite lookup_insert_eq; split_and!; [done..|lia]|done| |done].
  2:{ apply (put_permission_kept db db' p); [done|]. by intros q Hq%Hfresh. }
  apply (put_permission_ok db db' p); cbn; try done; try lia.
  - intros v Hv. destruct (decide (u = v)) as [<-|]; [by rewrite lookup_insert_eq|by rewrite lookup_insert_ne].
  - intros v t' [[<- _]|[_ Hv%Hu]]%lookup_insert_Some; lia.
  - split; cbn; try done.
    + destruct Hpar as [[_ ->]|(_ & q & Hq & H0 & _)]; [lia|]. split; [|by eapply Hn].
      destruct (pm_ids _ D _ _ Hq) as [<- _]. pose proof (pk_parent _ _ (pm_ok _ D _ _ Hq H0)). lia.
    + intros ->. rewrite (pm_accounts _ D) in Hacc. by destruct Hacc.
    + destruct Hpar as [[-> ->]|(Hne & q & Hq & H0 & _)]; done.
    + intros H0. destruct Hpar as [[_ ->]|(_ & q & Hq & _ & Ho)]; [done|]. exists q. split; [|done].
      rewrite lookup_insert_ne; [done|]. intros <-. by apply Hfresh in Hq.
    + by rewrite lookup_insert_eq.
  - intros q Hq. by apply Hfresh in Hq.
  - intros id q Hq _. split.
    + intros [<- <-]. pose proof (Hnew _ _ Hq) as Hq'. cbn in Hq'. by rewrite !Z.eqb_refl in Hq'.
    + intros H0 Eu. destruct (pk_usage _ _ (pm_ok _ D _ _ Hq H0)) as [t' Ht']. apply Hu in Ht'. rewrite Eu in Ht'. lia.
Qed.

(** A permission of another authority, and maybe of another time. *)
Lemma put_authority_ok db level p time auth :
  permissions_ok db -> has_permission db level p -> checkable auth ->
  let p' := PermissionObject (perm_id p) (usage_id p) (perm_parent p) (perm_owner p) (perm_name p) time auth in
  let db' := with_permissions db (table_set (permissions db) (perm_id p) p') (permission_usages db) in
  permissions_ok db' /\ permissions_kept db db'.
Proof.
  intros D (Hp & _ & _ & H0) Hck p' db'. pose proof (pm_ok _ D _ _ Hp H0) as K. split.
  2:{ apply (put_permission_kept db db' p'); [done|]. intros q Hq. cbn in Hq. rewrite Hp in Hq. by injection Hq as <-. }
  apply (put_permission_ok db db' p'); cbn; try done.
  - apply (pm_ids _ D _ _ Hp).
  - apply (pm_usage_ids _ D).
  - destruct K. split; cbn; try done. intros Hn. destruct (pk_family0 Hn) as (q & Hq & Ho). exists q.
    rewrite lookup_insert_ne by lia. done.
  - intros q Hq. cbn in Hq. rewrite Hp in Hq. by injection Hq as <-.
  - intros id q Hq Hi. split; [intros [H1 H2]; apply Hi; by eapply (pm_unique _ D)|].
    intros Hi0 Hu. apply Hi. by eapply (pm_usages _ D).
Qed.

Lemma modify_permission_ok db ctx level p auth r :
  permissions_ok db -> has_permission db level p -> checkable auth -> modify_permission db ctx p auth = Ok r ->
  permissions_ok r.2 /\ permissions_kept db r.2 /\ accounts r.2 = accounts db /\ perm_auth r.1 = auth.
Proof.
  intros D Hp Hck H. unfold modify_permission in H. inv_result.
  destruct (put_authority_ok db level p (pending_block_time ctx) auth D Hp Hck). done.
Qed.

(** What is left of the rows when [p] is removed. *)
Definition permissions_without (p : permission_object) (db db' : database) : Prop :=
  forall id q, rows (permissions db') !! id = Some q <-> id <> perm_id p /\ rows (permissions db) !! id = Some q.

Lemma remove_permission_ok db level p db' :
  permissions_ok db -> has_permission db level p -> remove_permission db p = Ok db' ->
  permissions_ok db' /\ permissions_without p db db' /\ accounts db' = accounts db.
Proof.
  intros D (Hp & _ & _ & H0) H. unfold remove_permission in H. inv_result. apply bool_decide_eq_true in E.
  pose proof (proj1 (table_find_None _ _) E) as Hch. clear E E0. pose proof (pm_ok _ D _ _ Hp H0) as K.
  set (db' := with_permissions db _ _).
  assert (Hrow : permissions_without p db db').
  { intros id q. unfold db'. cbn. rewrite lookup_delete_Some. split; (intros [? ?]; split; [congruence|done]). }
  split_and!; [|done|done]. split.
  - apply Hrow. split; [done|apply (pm_reserved _ D)].
  - intros id q [_ Hq]%Hrow. by apply (pm_ids _ D).
  - intros id q [Hi Hq]%Hrow Hi0. eapply permission_ok_mono; [..|by eapply (pm_ok _ D)]; [|done|].
    + intros _ q' Hq'. exists q'. split; [|done]. apply Hrow. split; [|done]. intros E. pose proof (Hch _ _ Hq) as Hc. cbn in Hc. lia.
    + intros [t Ht]. exists t. cbn. rewrite lookup_delete_ne; [done|]. intros E. apply Hi. by eapply (pm_usages _ D).
  - intros i j q q' [_ Hq]%Hrow [_ Hq']%Hrow. by apply (pm_unique _ D).
  - intros u t. cbn. intros [_ Hu]%lookup_delete_Some. by apply (pm_usage_ids _ D) in Hu.
  - intros i j q q' Hi Hj [_ Hq]%Hrow [_ Hq']%Hrow. by apply (pm_usages _ D).
  - apply (pm_accounts _ D).
Qed.

Lemma update_permission_usage_ok db ctx p db' :
  permissions_ok db -> update_permission_usage db ctx p = Ok db' -> permissions_ok db' /\ permissions_kept db db' /\ accounts db' = accounts db.
Proof.
  intros D H. unfold update_permission_usage in H. inv_result. apply get_row_Ok in E. split_and!; [|by apply permissions_kept_eq|done].
  destruct D. split; cbn; try done.
  - intros id q Hq Hi. eapply permission_ok_mono; [..|by eapply pm_ok0]; cbn; [|done|].
    + intros _ r Hr. by exists r.
    + intros Hu. destruct (decide (usage_id p = usage_id q)) as [->|]; [by rewrite lookup_insert_eq|by rewrite lookup_insert_ne].
  - intros u t [[<- _]|[_ Hu]]%lookup_insert_Some; [by apply (pm_usage_ids0 _ _ E)|by apply (pm_usage_ids0 _ _ Hu)].
Qed.

Lemma add_ram_usage_Ok db account delta db' : add_ram_usage db account delta = Ok db' ->
  exists l, add_pending_ram_usage (limits_db db) account delta = Ok l /\ db' = with_resource_limits db l.
Proof. unfold add_ram_usage. intros H. inv_result. by eexists. Qed.

Lemma with_resource_limits_ok db l : permissions_ok db -> permissions_ok (with_resource_limits db l).
Proof. intros D. by apply (permissions_ok_accounts db); [..|apply (pm_accounts _ D)|]. Qed.

Lemma with_links_ok db l : permissions_ok db -> permissions_ok (with_links db l).
Proof. intros D. by apply (permissions_ok_accounts db); [..|apply (pm_accounts _ D)|]. Qed.

Lemma owner_named : owner_name <> 0.
Proof. by vm_compute. Qed.
Lemma active_named : active_name <> 0.
Proof. by vm_compute. Qed.

(** What every operation keeps. *)
Definition accounts_ok (db : database) : Prop := permissions_ok db /\ accounts_complete db.

Lemma accounts_complete_kept db db' : permissions_kept db db' -> accounts db' = accounts db -> accounts_complete db -> accounts_complete db'.
Proof. intros K Ha C a. rewrite Ha. intros H. by apply (account_complete_kept db), C. Qed.

Lemma create_account_permissions_ok db ctx name owner active t db' :
  permissions_ok db -> is_Some (accounts db !! name) -> checkable owner -> checkable active ->
  create_account_permissions db ctx name owner active t = Ok db' ->
  permissions_ok db' /\ permissions_kept db db' /\ account_complete db' name /\ accounts db' = accounts db.
Proof.
  intros D Ha Ho Hac H. unfold create_account_permissions in H. inv_result.
  apply add_ram_usage_Ok in H as (l & _ & ->).
  destruct (create_permission_ok _ _ _ _ _ _ _ _ D Ha owner_named Ho ltac:(by left) E) as (D1 & P1 & Q1 & K1 & A1).
  assert (Hpar : parent_ok x.2 name active_name (perm_id x.1)).
  { right. split; [by vm_compute|]. destruct P1 as (Hr & Hown & _ & H0). by exists x.1. }
  destruct (create_permission_ok _ _ _ _ _ _ _ _ D1 ltac:(by rewrite A1) active_named Hac Hpar E0) as (D2 & P2 & Q2 & K2 & A2).
  split_and!; [by do 2 apply with_resource_limits_ok|etransitivity; [exact K1|exact K2]| |cbn; congruence].
  destruct P1 as (R1 & O1 & N1 & Z1). destruct (K2 _ _ R1) as (o & R & E1' & E2 & E3 & E4). exists o, x0.1.
  unfold has_permission. cbn in *. split_and!; try congruence; apply P2.
Qed.

Lemma create_account_ok db name t privileged db' : permissions_ok db -> name <> 0 -> create_account db name t privileged = Ok db' ->
  permissions_ok db' /\ permissions_kept db db' /\ forall a, is_Some (accounts db' !! a) <-> a = name \/ is_Some (accounts db !! a).
Proof.
  intros D H0 H. unfold create_account in H. inv_result. clear E0. apply bool_decide_eq_true in E.
  assert (Ha : forall a, is_Some (<[name := t]> (accounts db) !! a) <-> a = name \/ is_Some (accounts db !! a)).
  { intros a. destruct (decide (name = a)) as [<-|]; [rewrite lookup_insert_eq|rewrite lookup_insert_ne by done]; naive_solver. }
  split_and!; [|by apply permissions_kept_eq|done]. apply (permissions_ok_accounts db); try done.
  - intros a Hs. apply Ha. by right.
  - cbn. rewrite lookup_insert_ne by done. apply (pm_accounts _ D).
Qed.

(** The account and its permissions *)
Lemma new_account_ok db ctx name t t' privileged owner active db1 db2 :
  accounts_ok db -> name <> 0 -> checkable owner -> checkable active ->
  create_account db name t privileged = Ok db1 -> create_account_permissions db1 ctx name owner active t' = Ok db2 -> accounts_ok db2.
Proof.
  intros [D C] H0 Ho Ha H1 H2. destruct (create_account_ok _ _ _ _ _ D H0 H1) as (D1 & K1 & A1).
  destruct (create_account_permissions_ok _ _ _ _ _ _ _ D1 ltac:(apply A1; by left) Ho Ha H2) as (D2 & K2 & C2 & A2).
  split; [done|]. intros a. rewrite A2, A1. intros [->|Hs]; [done|].
  apply (account_complete_kept db1), (account_complete_kept db); [done..|by apply C].
Qed.

(** ** The native actions *)

Lemma validated_checkable a : authority_wf a -> validate a = true -> checkable a.
Proof. intros W V. apply valid_checkable; [done|]. by apply validate_valid. Qed.

Lemma accounts_ok_limits db l : accounts_ok db -> accounts_ok (with_resource_limits db l).
Proof. intros [D C]. split; [by apply with_resource_limits_ok|]. by apply (accounts_complete_kept db); [apply permissions_kept_eq|..]. Qed.

Lemma accounts_ok_links db l : accounts_ok db -> accounts_ok (with_links db l).
Proof. intros [D C]. split; [by apply with_links_ok|]. by apply (accounts_complete_kept db); [apply permissions_kept_eq|..]. Qed.

Lemma add_ram_usage_accounts_ok db account delta db' : accounts_ok db -> add_ram_usage db account delta = Ok db' -> accounts_ok db'.
Proof. intros I (l & _ & ->)%add_ram_usage_Ok. by apply accounts_ok_limits. Qed.

Lemma get_permission_has db level p : permissions_ok db -> get_permission db level = Ok p <-> has_permission db level p.
Proof.
  intros D. split; [by apply get_permission_Ok|]. intros (Hr & Ho & Hn & H0). pose proof (pm_ok _ D _ _ Hr H0) as K.
  unfold get_permission. destruct (find_permission_cases db D level) as [(q & E & Hq & Ho' & Hn' & _)|[E Hnone]].
  - rewrite <- Ho. apply (pk_owner _ _ K).
  - rewrite <- Hn. apply (pk_name _ _ K).
  - rewrite E. cbn. f_equal. assert (perm_id q = perm_id p) as Ei by (eapply (pm_unique _ D); [done..|congruence|congruence]).
    rewrite Ei, Hr in Hq. by injection Hq as ->.
  - by destruct (Hnone _ _ Hr).
Qed.

Lemma find_permission_has db level p : permissions_ok db -> find_permission db level = Ok (Some p) -> has_permission db level p.
Proof. intros D H. apply get_permission_has; [done|]. unfold get_permission. by rewrite H. Qed.

Lemma newaccount_ok db ctx c db' : accounts_ok db -> authority_wf (na_owner c) -> authority_wf (na_active c) ->
  apply_eosio_newaccount db ctx c = Ok db' -> accounts_ok db'.
Proof.
  intros I Wo Wa H. unfold apply_eosio_newaccount in H. inv_result. eapply new_account_ok; [exact I|..|eassumption|eassumption].
  - apply negb_true_iff, Z.eqb_neq in E3. done.
  - by apply validated_checkable.
  - by apply validated_checkable.
Qed.

Lemma updateauth_ok db ctx u db' : accounts_ok db -> authority_wf (ua_auth u) -> apply_eosio_updateauth db ctx u = Ok db' -> accounts_ok db'.
Proof.
  intros [D C] W H. unfold apply_eosio_updateauth in H. inv_result. apply get_row_Ok in E4.
  assert (Hck : checkable (ua_auth u)) by by apply validated_checkable.
  destruct x2 as [p|]; inv_result.
  - apply find_permission_has in E10; [|done]. destruct (modify_permission_ok _ _ _ _ _ _ D E10 Hck E13) as (D' & K & A & _).
    eapply add_ram_usage_accounts_ok; [|done]. split; [done|]. by eapply accounts_complete_kept.
  - assert (Hpar : parent_ok db (ua_account u) (ua_permission u) x3).
    { destruct (Z.eqb_spec (ua_permission u) owner_name) as [Eo|Eo]; inv_result; [by left|right]. split; [done|].
      match goal with H : get_permission _ _ = Ok _ |- _ => apply get_permission_has in H as (Hr & Ho & _ & H0); [|done] end. by eexists. }
    destruct (create_permission_ok _ _ _ _ _ _ _ _ D ltac:(by eexists) ltac:(by apply negb_true_iff, Z.eqb_neq in E1) Hck Hpar ltac:(eassumption)) as (D' & _ & _ & K & A).
    eapply add_ram_usage_accounts_ok; [|done]. split; [done|]. by eapply accounts_complete_kept.
Qed.

Lemma deleteauth_ok db ctx d db' : accounts_ok db -> apply_eosio_deleteauth db ctx d = Ok db' -> accounts_ok db'.
Proof.
  intros [D C] H. unfold apply_eosio_deleteauth in H. inv_result. apply get_permission_has in E4; [|done].
  destruct (remove_permission_ok _ _ _ _ D E4 E5) as (D' & R & A). eapply add_ram_usage_accounts_ok; [|done]. split; [done|].
  apply negb_true_iff, Z.eqb_neq in E1, E2. destruct E4 as (Rp & _ & Hn & _). cbn in Hn.
  intros a. rewrite A. intros Ha. destruct (C a Ha) as (o & q & (Ro & Oo & No & Zo) & (Rq & Oq & Nq & Zq) & Hp).
  exists o, q. unfold has_permission in *. cbn in *. split_and!; try done; apply R; (split; [intros Ei|done]).
  - rewrite Ei, Rp in Ro. injection Ro as <-. congruence.
  - rewrite Ei, Rp in Rq. injection Rq as <-. congruence.
Qed.

Lemma linkauth_ok db ctx l db' : accounts_ok db -> apply_eosio_linkauth db ctx l = Ok db' -> accounts_ok db'.
Proof.
  intros I H. unfold apply_eosio_linkauth in H. inv_result. destruct (find_link _ _ _ _) as [link|]; inv_result; [by apply accounts_ok_links|].
  eapply add_ram_usage_accounts_ok; [|done]. by apply accounts_ok_links.
Qed.

Lemma unlinkauth_ok db ctx l db' : accounts_ok db -> apply_eosio_unlinkauth db ctx l = Ok db' -> accounts_ok db'.
Proof.
  intros I H. unfold apply_eosio_unlinkauth in H. inv_result. destruct (find_link _ _ _ _) as [link|]; inv_result.
  apply accounts_ok_links. by eapply add_ram_usage_accounts_ok.
Qed.

Lemma native_account_ok db ctx t name owner active privileged db' :
  accounts_ok db -> name <> 0 -> checkable owner -> checkable active ->
  create_native_account db ctx t name owner active privileged = Ok db' -> accounts_ok db'.
Proof. intros I H0 Ho Ha H. unfold create_native_account in H. inv_result. by eapply (new_account_ok _ _ _ _ _ _ _ _ _ _ I H0 Ho Ha). Qed.

Lemma initialize_permissions_ok : accounts_ok initialize_permissions.
Proof.
  assert (Hrow : forall id p, rows (permissions initialize_permissions) !! id = Some p -> id = 0 /\ p = reserved_permission).
  { intros id p. cbn. intros [<- <-]%lookup_singleton_Some. done. }
  split; [|intros a Ha; cbn in Ha; rewrite lookup_empty in Ha; by destruct Ha].
  split; [done| | | |done| |done].
  - by intros id p [-> ->]%Hrow.
  - by intros id p [-> ->]%Hrow.
  - by intros i j p q [-> ->]%Hrow [-> ->]%Hrow.
  - by intros i j p q ? ? [-> ->]%Hrow.
Qed.

Lemma key_authority_checkable k : checkable (key_authority k).
Proof. apply validated_checkable; [|done]. split; cbn; [done|repeat constructor; by vm_compute|constructor]. Qed.
Lemma empty_authority_checkable : checkable empty_authority.
Proof. split; [|done..]. split; [done|constructor..]. Qed.
Lemma active_producers_authority_checkable : checkable active_producers_authority.
Proof. apply validated_checkable; [|done]. split; cbn; [done|repeat constructor; by vm_compute|constructor]. Qed.
#[export] Hint Resolve key_authority_checkable empty_authority_checkable active_producers_authority_checkable : spring.

Lemma initialize_accounts_ok ctx k t db : initialize_accounts ctx k t = Ok db -> accounts_ok db.
Proof.
  intros H. unfold initialize_accounts in H. inv_result.
  assert (I : accounts_ok x).
  { eapply native_account_ok; [..|exact E]; [apply initialize_permissions_ok|by vm_compute|auto with spring..]. }
  assert (I0 : accounts_ok x0) by (eapply native_account_ok; [..|exact E0]; [done|by vm_compute|auto with spring..]).
  assert (I1 : accounts_ok x1) by (eapply native_account_ok; [..|exact E1]; [done|by vm_compute|auto with spring..]).
  clear I I0. destruct I1 as [D C]. apply get_permission_has in E2 as (Hr & Ho & _ & H0); [|done]. cbn in Ho.
  assert (Hacc : is_Some (accounts x1 !! producers_account_name)) by (rewrite <- Ho; apply (pk_account _ _ (pm_ok _ D _ _ Hr H0))).
  destruct (fun Hn Hp => create_permission_ok _ _ _ _ _ _ _ _ D Hacc Hn active_producers_authority_checkable Hp E3)
    as (D1 & (Hr1 & Ho1 & _ & H1) & _ & K1 & A1); [by vm_compute|right; split; [by vm_compute|by eexists]|].
  destruct (fun Ha Hn Hp => create_permission_ok _ _ _ _ _ _ _ _ D1 Ha Hn active_producers_authority_checkable Hp E4)
    as (D2 & _ & _ & K2 & A2); [by rewrite A1|by vm_compute|right; split; [by vm_compute|by eexists]|].
  split; [done|]. eapply accounts_complete_kept; [etransitivity; [exact K1|exact K2]|congruence|done].
Qed.

(** The producers' permissions: a schedule has at most [max_proposers] = 2^16
    producers, so their authorities can be checked. *)
Lemma producers_authority_checkable producers n d :
  size_of producers <= 2 ^ 16 -> 0 < n <= 2 -> 0 < d ->
  checkable (producers_authority producers (calculate_threshold (wrap32 (size_of producers)) n d)).
Proof.
  intros Hs Hn Hd. assert (0 <= size_of producers) by (unfold size_of; lia).
  assert (Ht : 0 < calculate_threshold (wrap32 (size_of producers)) n d < 2 ^ 32).
  { unfold calculate_threshold. rewrite (wrap32_id (size_of _)), (wrap32_id (_ * n)) by (unfold u32; nia).
    pose proof (Z.div_pos (size_of producers * n) d ltac:(nia) Hd).
    assert (size_of producers * n / d <= size_of producers * n) by (apply Z.div_le_upper_bound; nia).
    rewrite wrap32_id by (unfold u32; nia). nia. }
  split; [split|..]; cbn.
  - unfold u32. lia.
  - rewrite app_nil_r, map_map. apply Forall_map, Forall_forall. intros p _. by vm_compute.
  - constructor.
  - rewrite app_nil_r. unfold size_of in *. by rewrite !length_map.
  - lia.
Qed.

Lemma update_producers_permission_ok db level p auth :
  accounts_ok db -> get_permission db level = Ok p -> checkable auth -> accounts_ok (update_producers_permission db p auth).
Proof.
  intros [D C] Hp Hck. apply get_permission_has in Hp; [|done]. unfold update_producers_permission. case_decide; [done|].
  destruct (put_authority_ok db level p (last_updated p) auth D Hp Hck) as [D' K]. split; [done|]. by eapply accounts_complete_kept.
Qed.

Lemma update_producers_authority_ok db producers db' :
  accounts_ok db -> size_of producers <= 2 ^ 16 -> update_producers_authority db producers = Ok db' -> accounts_ok db'.
Proof.
  intros I Hs H. unfold update_producers_authority in H. inv_result.
  eapply update_producers_permission_ok; [|eassumption|by apply producers_authority_checkable].
  eapply update_producers_permission_ok; [|eassumption|by apply producers_authority_checkable].
  eapply update_producers_permission_ok; [done|eassumption|by apply producers_authority_checkable].
Qed.

(** ** Histories *)

(** What happens to the tables: the start of the chain, the native actions in
    any order and context, on data that was unpacked, the use of permissions,
    the update of the producers' permissions at the start of a block, for any
    schedule, and any change of what is not about permissions. *)
Inductive accounts_run : database -> Prop :=
| run_start ctx initial_key t db : initialize_accounts ctx initial_key t = Ok db -> accounts_run db
| run_newaccount db ctx c db' : accounts_run db -> authority_wf (na_owner c) -> authority_wf (na_active c) ->
    apply_eosio_newaccount db ctx c = Ok db' -> accounts_run db'
| run_updateauth db ctx u db' : accounts_run db -> authority_wf (ua_auth u) -> apply_eosio_updateauth db ctx u = Ok db' -> accounts_run db'
| run_deleteauth db ctx d db' : accounts_run db -> apply_eosio_deleteauth db ctx d = Ok db' -> accounts_run db'
| run_linkauth db ctx l db' : accounts_run db -> apply_eosio_linkauth db ctx l = Ok db' -> accounts_run db'
| run_unlinkauth db ctx l db' : accounts_run db -> apply_eosio_unlinkauth db ctx l = Ok db' -> accounts_run db'
| run_usage db ctx p db' : accounts_run db -> update_permission_usage db ctx p = Ok db' -> accounts_run db'
| run_producers db producers db' : accounts_run db -> size_of producers <= 2 ^ 16 ->
    update_producers_authority db producers = Ok db' -> accounts_run db'
| run_other db privileged deferred limits : accounts_run db ->
    accounts_run (Database (permissions db) (permission_usages db) (permission_links db) (accounts db) privileged deferred limits).

Lemma accounts_run_ok db : accounts_run db -> accounts_ok db.
Proof.
  induction 1 as [| | | | | |? ? ? ? ? [D C] H| |? ? ? ? ? [D C]].
  - by eapply initialize_accounts_ok.
  - by eapply newaccount_ok.
  - by eapply updateauth_ok.
  - by eapply deleteauth_ok.
  - by eapply linkauth_ok.
  - by eapply unlinkauth_ok.
  - destruct (update_permission_usage_ok _ _ _ _ D H) as (? & ? & ?). split; [done|]. by eapply accounts_complete_kept.
  - by eapply update_producers_authority_ok.
  - split; [apply (permissions_ok_accounts db); [done..|apply (pm_accounts _ D)|done]|].
    apply (accounts_complete_kept db); [by apply permissions_kept_eq|done..].
Qed.

(** Every permission is below the [owner] permission of its account. *)
Lemma below_owner db id p : accounts_ok db -> rows (permissions db) !! id = Some p -> id <> 0 ->
  exists o, has_permission db (PermissionLevel (perm_owner p) owner_name) o /\ above db o p.
Proof.
  intros [D _]. revert id. assert (H : forall n id, (Z.to_nat id <= n)%nat -> forall p, rows (permissions db) !! id = Some p -> id <> 0 ->
    exists o, has_permission db (PermissionLevel (perm_owner p) owner_name) o /\ above db o p).
  2:{ intros id. by apply (H (Z.to_nat id)). }
  clear p. intros n. induction n as [|n IH]; intros id Hn p Hp H0; destruct (pm_ids _ D _ _ Hp) as [Hid _];
    pose proof (pm_ok _ D _ _ Hp H0) as K; pose proof (pk_parent _ _ K) as Hle; [lia|].
  destruct (decide (perm_parent p = 0)) as [E|E].
  - exists p. split; [|constructor]. apply (pk_root _ _ K) in E. unfold has_permission. cbn. by rewrite Hid.
  - destruct (pk_family _ _ K E) as (q & Hq & Ho). destruct (IH (perm_parent p) ltac:(lia) q Hq E) as (o & Ho' & Hab).
    rewrite Ho in Ho'. exists o. split; [done|]. by eapply above_parent.
Qed.

(** ** Properties *)

(** C11: However the native actions are used, and whatever producers become
    active, the permissions of the accounts are trees: ids and the pairs of
    account and name are unique, a parent is an older permission of the same
    account, only [owner] has none, every permission is below the [owner]
    permission of its account, its account exists, and its authority is one
    that the authority checker can deal with: a positive threshold and at most
    2^16 items (what [validate] demands is more, and not kept: some authorities
    the chain starts with are empty, those of the producers are not sorted);
    and every account has its [owner] permission and [active] directly under
    it.  (Thresholds, weights and delays have the widths of their fields, and at
    most 2^16 producers become active at once.) *)
Theorem permissions_are_trees (db : database) : accounts_run db ->
  permissions_ok db /\ accounts_complete db /\
  forall id p, rows (permissions db) !! id = Some p -> id <> 0 ->
    exists o, has_permission db (PermissionLevel (perm_owner p) owner_name) o /\ above db o p.
Proof.
  intros H%accounts_run_ok. split_and!; [apply H|apply H|]. intros id p Hp H0. by eapply below_owner.
Qed.

(** C23: [satisfies] never fails and decides whether a permission is another one
    or one of its ancestors: the walk ends within the number of permissions and
    finds every parent. *)
Theorem satisfies_correct (db : database) (l m : permission_level) (p q : permission_object) :
  accounts_run db -> has_permission db l p -> has_permission db m q ->
  exists b, satisfies db p q = Ok b /\ (b = true <-> above db p q).
Proof. intros [D _]%accounts_run_ok (? & _ & _ & ?) (? & _ & _ & ?). by apply satisfies_Ok. Qed.

