(* ===== verification/Authorizing.v ===== *)
(** * What the authorization of a transaction decides

    The abstract specification of [check_authorization] -- which permission an
    action needs, and that what it declares is at or above that and can be
    satisfied -- and that the checks of [Authorization] implement it. *)

From Stdlib Require Import Strings.String.
From S2P Require Import Prelude ChainTypes OrderedDiff Policies Raw Names ResourceLimits Authority Authorization Permissions.
Open Scope Z_scope.

(** ** The specification *)

(** The authorization can be used where the permission [q] is needed. *)
Definition may_use (db : database) (auth : permission_level) (q : permission_object) : Prop :=
  exists p, has_permission db auth p /\ above db p q.

(** The permission that [updateauth] changes, or the parent of one it makes. *)
Definition updated_permission (db : database) (u : updateauth) (q : permission_object) : Prop :=
  has_permission db (PermissionLevel (ua_account u) (ua_permission u)) q \/
  (ua_permission u <> 0 /\ (forall p, ~ has_permission db (PermissionLevel (ua_account u) (ua_permission u)) p) /\
   has_permission db (PermissionLevel (ua_account u) (ua_parent u)) q).

(** The authorization is enough for a named permission of the account. *)
Definition may_use_named (db : database) (auth : permission_level) (account name : Z) : Prop :=
  exists q, has_permission db (PermissionLevel account name) q /\ may_use db auth q.

(** ... for an action that is not linked to a permission, [active]; linked to
    [eosio.any], no permission at all. *)
Definition may_use_minimum (db : database) (auth : permission_level) (account code type : Z) : Prop :=
  match lookup_linked_permission db account code type with
  | None => may_use_named db auth account active_name
  | Some name => name <> eosio_any_name -> may_use_named db auth account name
  end.

Definition special (act : action) : bool := (act_account act =? system_account_name) && is_unlinkable_action (act_name act).

(** The deferred transaction that is canceled. *)
Definition canceled_transaction (db : database) (c : canceldelay) : option generated_transaction_object :=
  table_find (fun t => bool_decide (gto_trx_id t = cd_trx_id c)) (generated_transactions db).

(** A native action on permissions has one authorization, by its account. *)
Definition special_authorized (db : database) (ctx : context) (act : action) : Prop :=
  exists auth, act_authorization act = [auth] /\
  match act_data act with
  | updateauth_data u => act_name act = updateauth_name /\ actor auth = ua_account u /\
      exists q, updated_permission db u q /\ may_use db auth q
  | deleteauth_data d => act_name act = deleteauth_name /\ actor auth = da_account d /\ may_use_named db auth (da_account d) (da_permission d)
  | linkauth_data l => act_name act = linkauth_name /\ actor auth = la_account l /\
      (is_unlinkable_action (la_type l) = true -> fix_linkauth_restriction ctx = true /\ la_code l <> system_account_name) /\
      may_use_minimum db auth (la_account l) (la_code l) (la_type l)
  | unlinkauth_data u => act_name act = unlinkauth_name /\ actor auth = ul_account u /\
      exists name, lookup_linked_permission db (ul_account u) (ul_code u) (ul_type u) = Some name /\
        (name <> eosio_any_name -> may_use_named db auth (ul_account u) name)
  | canceldelay_data c => act_name act = canceldelay_name /\
      (exists q, has_permission db (canceling_auth c) q /\ may_use db auth q) /\
      exists t, canceled_transaction db c = Some t /\ gto_sender t = 0 /\ exists l, l ∈ gto_authorizations t /\ canceling_auth c ∈ l
  | other_data => False
  end.

Definition action_authorized (db : database) (ctx : context) (act : action) : Prop :=
  if special act then special_authorized db ctx act
  else forall auth, auth ∈ act_authorization act -> may_use_minimum db auth (actor auth) (act_account act) (act_name act).

(** The delay an action is authorized under: to cancel a transaction, its own at
    least. *)
Definition action_delay (db : database) (delay : Z) (act : action) : Z :=
  if special act then
    match act_data act with
    | canceldelay_data c =>
        match canceled_transaction db c with Some t => Z.max delay (delay_until t - gto_published t) | None => delay end
    | _ => delay
    end
  else delay.

(** ** Delays *)

Scheme satisfiable_min := Minimality for satisfiable Sort Prop
with item_satisfied_min := Minimality for item_satisfied Sort Prop.

Section Delay.
Context (f : permission_level -> result (option authority)) (keys : list public_key_type) (perms : list permission_level) (d d' : Z).
Context (Hd : d <= d').

(** A longer delay satisfies more. *)
Lemma satisfiable_delay p : satisfiable f keys perms d p -> satisfiable f keys perms d' p.
Proof.
  induction 1 using satisfiable_min with (P0 := item_satisfied f keys perms d').
  - by apply satisfiable_provided.
  - by eapply satisfiable_authority.
  - by constructor.
  - by constructor.
  - constructor. lia.
Qed.

Lemma relevant_key_delay a k : relevant_key f keys perms d a k -> relevant_key f keys perms d' a k.
Proof. induction 1; [by constructor|]. eapply relevant_below; [done..|by apply satisfiable_delay|done]. Qed.
End Delay.

(** ** The checks of one authorization *)

Section Checks.
Context (db : database) (D : permissions_ok db).

Lemma has_permission_fun l p q : has_permission db l p -> has_permission db l q -> p = q.
Proof. intros H1%(get_permission_has _ _ _ D) H2%(get_permission_has _ _ _ D). congruence. Qed.

Lemma check_satisfies_Ok auth m q : has_permission db m q -> check_satisfies db auth q = Ok () <-> may_use db auth q.
Proof.
  intros Hq. unfold check_satisfies, may_use. rewrite bind_Ok_iff.
  assert (Hs : forall p, has_permission db auth p -> (s ← satisfies db p q; EOS_ASSERT (s : bool),, irrelevant_auth_exception;; Ok ()) = Ok () <-> above db p q).
  { intros p (Hp & _ & _ & H0). destruct Hq as (Hq & _ & _ & Hq0). destruct (satisfies_Ok db D p q Hp H0 Hq Hq0) as (b & -> & <-). by destruct b. }
  split; intros (p & Hp & H); exists p.
  - apply (get_permission_has _ _ _ D) in Hp. split; [done|]. by apply Hs.
  - split; [by apply (get_permission_has _ _ _ D)|]. by apply Hs.
Qed.

Lemma check_named_Ok auth account name :
  (p ← get_permission db (PermissionLevel account name); check_satisfies db auth p) = Ok () <-> may_use_named db auth account name.
Proof.
  rewrite bind_Ok_iff. unfold may_use_named. split; intros (q & Hq & H); exists q.
  - apply (get_permission_has _ _ _ D) in Hq. split; [done|]. by eapply check_satisfies_Ok.
  - split; [by apply (get_permission_has _ _ _ D)|]. by eapply check_satisfies_Ok.
Qed.

Lemma single_auth_Ok auths auth : single_auth auths = Ok auth <-> auths = [auth].
Proof. destruct auths as [|a [|b l]]; cbn; split; congruence. Qed.

Lemma guard_Ok {A} (b : bool) e (r : result A) a : (if b then r else Throw e) = Ok a <-> b = true /\ r = Ok a.
Proof. destruct b; naive_solver. Qed.

(** The permission a query of the minimum returns, and its check. *)
Lemma check_minimum_Ok auth account code type :
  (name ← lookup_minimum_permission db account code type;
   match name with None => Ok () | Some name => p ← get_permission db (PermissionLevel account name); check_satisfies db auth p end) = Ok ()
  <-> ~ (code = system_account_name /\ is_unlinkable_action type = true) /\ may_use_minimum db auth account code type.
Proof.
  unfold lookup_minimum_permission, may_use_minimum.
  destruct (Z.eqb_spec code system_account_name) as [E|E]; cbn [andb]; [destruct (is_unlinkable_action type); cbn [negb]|cbn [negb]].
  { split; [done|]. by intros [[] _]. }
  all: destruct (lookup_linked_permission db account code type) as [name|]; cbn [mbind result_bind].
  all: try (destruct (Z.eqb_spec name eosio_any_name); cbn [mbind result_bind]).
  all: rewrite ?check_named_Ok; naive_solver.
Qed.

Lemma check_updateauth_Ok u auths : check_updateauth_authorization db u auths = Ok () <->
  exists auth, auths = [auth] /\ actor auth = ua_account u /\ exists q, updated_permission db u q /\ may_use db auth q.
Proof.
  unfold check_updateauth_authorization. rewrite bind_Ok_iff. split.
  - intros (auth & ->%single_auth_Ok & H). inv_result. apply Z.eqb_eq in E. exists auth. split_and!; [done..|].
    destruct (find_permission_Ok _ _ _ E0) as [Ha Hp]. cbn in Ha, Hp.
    destruct (find_permission_cases db D (PermissionLevel (ua_account u) (ua_permission u)) Ha Hp) as [(p & E' & Hp')|[E' Hnone]];
      rewrite E0 in E'; injection E' as ->; inv_result.
    + eexists. split; [left; exact Hp'|]. by eapply check_satisfies_Ok; [exact Hp'|].
    + apply (get_permission_has _ _ _ D) in E1. exists x0. split; [right|by eapply check_satisfies_Ok].
      split_and!; [done| |done]. intros p (Hr & Ho & Hn & _). by eapply Hnone.
  - intros (auth & -> & Ha & q & Hq & Hm). exists auth. split; [done|]. rewrite Ha, Z.eqb_refl.
    destruct Hq as [Hq|(Hp & Hnone & Hq)].
    + pose proof Hq as Hq'. apply (get_permission_has _ _ _ D) in Hq'. unfold get_permission in Hq'. apply bind_Ok in Hq' as (o & -> & Ho).
      destruct o; [|done]. injection Ho as ->. cbn [mbind result_bind]. by eapply check_satisfies_Ok.
    + assert (Hown : ua_account u <> 0).
      { destruct Hq as (Hr & Ho & _ & H0). pose proof (pk_owner _ _ (pm_ok _ D _ _ Hr H0)). cbn in *. congruence. }
      destruct (find_permission_cases db D (PermissionLevel (ua_account u) (ua_permission u)) Hown Hp) as [(p & _ & H)|[-> _]].
      * by destruct (Hnone p).
      * cbn [mbind result_bind]. rewrite (proj2 (get_permission_has _ _ _ D) Hq). cbn [mbind result_bind]. by eapply check_satisfies_Ok.
Qed.

Lemma check_deleteauth_Ok d auths : check_deleteauth_authorization db d auths = Ok () <->
  exists auth, auths = [auth] /\ actor auth = da_account d /\ may_use_named db auth (da_account d) (da_permission d).
Proof.
  unfold check_deleteauth_authorization. rewrite bind_Ok_iff.
  split; intros (auth & H); exists auth; rewrite guard_Ok, Z.eqb_eq, check_named_Ok, single_auth_Ok in *; exact H.
Qed.

Lemma check_linkauth_Ok ctx l auths : check_linkauth_authorization db ctx l auths = Ok () <->
  exists auth, auths = [auth] /\ actor auth = la_account l /\
    (is_unlinkable_action (la_type l) = true -> fix_linkauth_restriction ctx = true /\ la_code l <> system_account_name) /\
    may_use_minimum db auth (la_account l) (la_code l) (la_type l).
Proof.
  unfold check_linkauth_authorization. rewrite bind_Ok_iff.
  split; intros (auth & H1 & H); exists auth; rewrite ?guard_Ok, ?Z.eqb_eq, check_minimum_Ok, single_auth_Ok in *.
  - destruct H as (Ha & Hl & _ & Hm). split_and!; [done..| |done]. intros E. rewrite E, andb_true_r in Hl.
    destruct (Z.eqb_spec (la_code l) system_account_name); [done|]. by destruct (fix_linkauth_restriction ctx).
  - destruct H as (Ha & Hl & Hm). split_and!; [done..| | |done].
    + destruct (is_unlinkable_action (la_type l)); [|by rewrite andb_false_r]. destruct Hl as [-> Hl]; [done|].
      by destruct (Z.eqb_spec (la_code l) system_account_name).
    + intros [E1 E2]. by destruct (Hl E2).
Qed.

Lemma check_unlinkauth_Ok u auths : check_unlinkauth_authorization db u auths = Ok () <->
  exists auth, auths = [auth] /\ actor auth = ul_account u /\
    exists name, lookup_linked_permission db (ul_account u) (ul_code u) (ul_type u) = Some name /\
      (name <> eosio_any_name -> may_use_named db auth (ul_account u) name).
Proof.
  unfold check_unlinkauth_authorization. rewrite bind_Ok_iff.
  split; intros (auth & H1 & H); exists auth; rewrite ?guard_Ok, ?Z.eqb_eq, single_auth_Ok in *.
  - destruct H as (Ha & H). split_and!; [done..|]. destruct (lookup_linked_permission _ _ _ _) as [name|]; [|done].
    exists name. split; [done|]. intros Hn. destruct (Z.eqb_spec name eosio_any_name); [done|]. by apply check_named_Ok.
  - destruct H as (Ha & name & -> & H). split_and!; [done..|]. destruct (Z.eqb_spec name eosio_any_name); [done|].
    by apply check_named_Ok, H.
Qed.

Lemma check_canceldelay_Ok c auths d : check_canceldelay_authorization db c auths = Ok d <->
  exists auth, auths = [auth] /\ (exists q, has_permission db (canceling_auth c) q /\ may_use db auth q) /\
    exists t, canceled_transaction db c = Some t /\ (gto_sender t = 0 /\ exists l, l ∈ gto_authorizations t /\ canceling_auth c ∈ l) /\
      d = delay_until t - gto_published t.
Proof.
  unfold check_canceldelay_authorization. fold (canceled_transaction db c). rewrite bind_Ok_iff.
  assert (Hex : forall t, existsb (existsb (fun auth => bool_decide (auth = canceling_auth c))) (gto_authorizations t) = true <->
    exists l, l ∈ gto_authorizations t /\ canceling_auth c ∈ l).
  { intros t. rewrite existsb_exists. split; intros (l & Hl & H); exists l; rewrite <- list_elem_of_In in *; (split; [done|]).
    - apply existsb_exists in H as (a & Ha & E%bool_decide_eq_true). subst a. by apply list_elem_of_In.
    - apply existsb_exists. exists (canceling_auth c). split; [by apply list_elem_of_In|by apply bool_decide_eq_true]. }
  split.
  - intros (auth & H1%single_auth_Ok & H). inv_result. exists auth. split; [done|]. destruct (canceled_transaction db c) as [t|]; [|done]. inv_result.
    apply (get_permission_has _ _ _ D) in E. destruct x0. split; [exists x; split; [done|]; by eapply check_satisfies_Ok|].
    exists t. split_and!; [done|by apply Z.eqb_eq|by apply Hex|done].
  - intros (auth & -> & (q & Hq & Hm) & t & -> & (Hs & Hl%Hex) & ->). exists auth. split; [done|].
    rewrite (proj2 (get_permission_has _ _ _ D) Hq). cbn [mbind result_bind].
    rewrite (proj2 (check_satisfies_Ok auth _ q Hq) Hm). cbn [mbind result_bind]. by rewrite Hs, Hl.
Qed.

Lemma special_cases act : special act = true <-> act_account act = system_account_name /\
  (act_name act = updateauth_name \/ act_name act = deleteauth_name \/ act_name act = linkauth_name \/
   act_name act = unlinkauth_name \/ act_name act = canceldelay_name).
Proof. unfold special, is_unlinkable_action. rewrite andb_true_iff, !orb_true_iff, !Z.eqb_eq. tauto. Qed.

Lemma bind_some_Ok {A B} (r : result A) (b : B) o : (_ ← r; Ok (Some b)) = Ok o <-> (exists a, r = Ok a) /\ o = Some b.
Proof. rewrite bind_Ok_iff. naive_solver. Qed.

(** The data of another action than the one that is named *)
Ltac other_action E :=
  split; [done|]; intros [(auth & _ & Hn) _];
  first [contradiction Hn | destruct Hn as [Hn _]; rewrite E in Hn; discriminate Hn].
(** The check of a native action that has the delay of the transaction *)
Ltac same_delay E check_Ok :=
  rewrite bind_some_Ok; split;
  [intros [[[] (auth & Ha & H)%check_Ok] ->]; split; [by exists auth|done]
  |intros [(auth & Ha & _ & H) ->]; split; [exists (); apply check_Ok; by exists auth|done]].

Lemma check_special_Ok ctx act delay o : check_special db ctx act delay = Ok o <->
  if special act then special_authorized db ctx act /\ o = Some (action_delay db delay act) else o = None.
Proof.
  unfold check_special, action_delay, special, is_unlinkable_action, special_authorized.
  destruct (act_account act =? system_account_name); cbn [andb negb]; [|naive_solver].
  destruct (Z.eqb_spec (act_name act) updateauth_name) as [E|_]; cbn [orb].
  { destruct (act_data act); first [other_action E|same_delay E check_updateauth_Ok]. }
  destruct (Z.eqb_spec (act_name act) deleteauth_name) as [E|_]; cbn [orb].
  { destruct (act_data act); first [other_action E|same_delay E check_deleteauth_Ok]. }
  destruct (Z.eqb_spec (act_name act) linkauth_name) as [E|_]; cbn [orb].
  { destruct (act_data act); first [other_action E|same_delay E check_linkauth_Ok]. }
  destruct (Z.eqb_spec (act_name act) unlinkauth_name) as [E|_]; cbn [orb].
  { destruct (act_data act); first [other_action E|same_delay E check_unlinkauth_Ok]. }
  destruct (Z.eqb_spec (act_name act) canceldelay_name) as [E|_]; cbn [orb]; [|naive_solver].
  destruct (act_data act) as [| | | |c|]; try (other_action E).
  rewrite bind_Ok_iff. split.
  - intros (d & (auth & Ha & Hq & t & Ht & Hr & ->)%check_canceldelay_Ok & [= <-]). rewrite Ht. split; [|done].
    exists auth. split_and!; [done..|]. by exists t.
  - intros [(auth & Ha & _ & Hq & t & Ht & Hr) ->]. rewrite Ht. exists (delay_until t - gto_published t). split; [|done].
    apply check_canceldelay_Ok. exists auth. split_and!; [done..|]. by exists t.
Qed.
End Checks.

(** ** What is to be satisfied *)

(** What the actions declare that is not satisfied yet. *)
Definition obligations (db : database) (satisfied_authorizations : list permission_level) (delay : Z) (actions : list action) :
    list (permission_level * Z) :=
  concat (map (fun act => map (fun auth => (auth, action_delay db delay act))
                            (filter (fun auth => auth ∉ satisfied_authorizations) (act_authorization act))) actions).

Definition require_all (l : list (permission_level * Z)) (obs : list (permission_level * Z)) : list (permission_level * Z) :=
  foldl (fun l p => require_permission p.1 p.2 l) l obs.

Lemma obligations_spec db sat delay actions p d : (p, d) ∈ obligations db sat delay actions <->
  exists act, act ∈ actions /\ p ∈ act_authorization act /\ (p ∉ sat) /\ d = action_delay db delay act.
Proof.
  unfold obligations. rewrite list_elem_of_In, in_concat. setoid_rewrite in_map_iff. split.
  - intros (l & (act & <- & Ha) & (q & [= <- <-] & Hq)%in_map_iff). apply list_elem_of_In, list_elem_of_filter in Hq as [Hn Hq].
    exists act. split_and!; [by apply list_elem_of_In|done..].
  - intros (act & Ha & Hp & Hn & ->). eexists. split; [exists act; split; [done|by apply list_elem_of_In]|].
    apply in_map_iff. exists p. split; [done|]. by apply list_elem_of_In, list_elem_of_filter.
Qed.

Lemma require_permission_from p d l q e : (q, e) ∈ require_permission p d l -> (q, e) = (p, d) \/ (q, e) ∈ l.
Proof.
  induction l as [|[q' d'] l IH]; cbn [require_permission]; [rewrite list_elem_of_singleton; by left|].
  destruct (permission_level_lt p q'); [rewrite elem_of_cons; naive_solver|]. destruct (decide (p = q')) as [->|]; rewrite !elem_of_cons.
  - intros [[= -> ->]|]; [|tauto]. destruct (Z.min_spec d' d) as [[_ ->]|[_ ->]]; tauto.
  - intros [|[|]%IH]; tauto.
Qed.

Definition covers (l l' : list (permission_level * Z)) : Prop :=
  forall p d, ((p, d) ∈ l) -> exists d', d' <= d /\ (p, d') ∈ l'.

Lemma require_permission_covers p d l : covers ((p, d) :: l) (require_permission p d l).
Proof.
  intros q e. induction l as [|[q' d'] l IH]; cbn [require_permission]; [intros ?; by exists e|].
  destruct (permission_level_lt p q'); [intros ?; by exists e|].
  destruct (decide (p = q')) as [->|].
  - intros [[= -> ->]|[[= -> ->]|H]%elem_of_cons]%elem_of_cons.
    + exists (Z.min d' d). split; [lia|by left].
    + exists (Z.min d' d). split; [lia|by left].
    + exists e. split; [done|by right].
  - assert (Hir : (q, e) ∈ (p, d) :: l -> exists d0, d0 <= e /\ (q, d0) ∈ (q', d') :: require_permission p d l).
    { intros (d0 & ? & ?)%IH. exists d0. split; [done|by right]. }
    intros [H|[[= -> ->]|H]%elem_of_cons]%elem_of_cons; [apply Hir; rewrite H; by left| |apply Hir; by right].
    exists d'. split; [done|by left].
Qed.

Lemma require_all_spec obs l : (forall p d, (p, d) ∈ require_all l obs -> (p, d) ∈ l \/ (p, d) ∈ obs) /\ covers (l ++ obs) (require_all l obs).
Proof.
  revert l. induction obs as [|[q e] obs IH]; intros l; cbn [require_all foldl fst snd].
  - rewrite app_nil_r. split; [by left|]. intros p d H. by exists d.
  - destruct (IH (require_permission q e l)) as [H1 H2]. split.
    + intros p d [[[= -> ->]|]%require_permission_from|]%H1; rewrite elem_of_cons; tauto.
    + intros p d Hin. assert (Hc : (p, d) ∈ ((q, e) :: l) \/ (p, d) ∈ obs) by (rewrite elem_of_app, !elem_of_cons in *; tauto).
      destruct Hc as [Hc|Hc].
      * destruct (require_permission_covers _ _ _ _ _ Hc) as (d1 & ? & Hd1).
        destruct (H2 p d1) as (d2 & ? & ?); [by apply elem_of_app; left|]. exists d2. split; [lia|done].
      * apply H2, elem_of_app. by right.
Qed.

(** A loop of checks that do not depend on what is collected. *)
Lemma foldM_checks {A S} (P : A -> Prop) (g : S -> A -> S) (f : S -> A -> result S) l :
  (forall s a s', a ∈ l -> f s a = Ok s' <-> P a /\ s' = g s a) ->
  forall s s', foldM f s l = Ok s' <-> (forall a, a ∈ l -> P a) /\ s' = foldl g s l.
Proof.
  induction l as [|a l IH]; intros Hf s s'; cbn [foldM foldl].
  - split; [intros [= ->]; split; [by intros ? ?%elem_of_nil|done]|by intros [_ ->]].
  - rewrite bind_Ok_iff. setoid_rewrite (Hf s a); [|by left]. setoid_rewrite IH; [|intros; apply Hf; by right].
    setoid_rewrite elem_of_cons. naive_solver.
Qed.

Section Actions.
Context (db : database) (D : permissions_ok db) (ctx : context) (satisfied_authorizations : list permission_level) (delay : Z).

Lemma check_declared_Ok act sp d l a l' : check_declared db act sp satisfied_authorizations d l a = Ok l' <->
  (sp = false -> special act = false /\ may_use_minimum db a (actor a) (act_account act) (act_name act)) /\
  l' = if decide (a ∈ satisfied_authorizations) then l else require_permission a d l.
Proof.
  unfold check_declared. rewrite bind_Ok_iff. destruct sp.
  - split; [by intros ([] & _ & [= <-])|]. intros [_ ->]. by exists ().
  - assert (Hs : ~ (act_account act = system_account_name /\ is_unlinkable_action (act_name act) = true) <-> special act = false).
    { unfold special. destruct (Z.eqb_spec (act_account act) system_account_name), (is_unlinkable_action (act_name act)); naive_solver. }
    split.
    + intros ([] & [H1%Hs H2]%(check_minimum_Ok db D) & [= <-]). done.
    + intros [H ->]. exists (). split; [|done]. apply (check_minimum_Ok db D). rewrite Hs. by apply H.
Qed.

Lemma check_action_Ok l act l' : check_action db ctx satisfied_authorizations delay l act = Ok l' <->
  action_authorized db ctx act /\ l' = require_all l (obligations db satisfied_authorizations delay [act]).
Proof.
  unfold check_action. rewrite bind_Ok_iff.
  assert (Hall : forall auths d l, foldl (fun l a => if decide (a ∈ satisfied_authorizations) then l else require_permission a d l) l auths =
    require_all l (map (fun auth => (auth, d)) (filter (fun auth => auth ∉ satisfied_authorizations) auths))).
  { intros auths d. induction auths as [|a auths IH]; intros k; [done|]. cbn [foldl]. rewrite IH, filter_cons.
    by destruct (decide (a ∈ satisfied_authorizations)), (decide (a ∉ satisfied_authorizations)). }
  assert (Hf := fun sp d => foldM_checks _ _ _ (act_authorization act) (fun l a l' _ => check_declared_Ok act sp d l a l') l l').
  setoid_rewrite Hall in Hf. unfold obligations. cbn [map concat]. rewrite app_nil_r. unfold action_authorized.
  assert (Hnone : special act = false -> action_delay db delay act = delay) by (unfold action_delay; by intros ->).
  destruct (special act) eqn:Es.
  - split.
    + intros (o & Ho & H). apply (check_special_Ok db D) in Ho. rewrite Es in Ho. destruct Ho as [Ho ->]. by apply Hf in H as [_ ->].
    + intros [Ho ->]. exists (Some (action_delay db delay act)). split; [apply (check_special_Ok db D); by rewrite Es|]. by apply Hf.
  - rewrite Hnone by done. split.
    + intros (o & Ho & H). apply (check_special_Ok db D) in Ho. rewrite Es in Ho. subst o. apply Hf in H as [H ->].
      split; [|done]. intros a Ha. by apply (H a Ha).
    + intros [Ha ->]. exists None. split; [apply (check_special_Ok db D); by rewrite Es|]. apply Hf. split; [|done].
      intros a Hin _. split; [done|by apply Ha].
Qed.

Lemma check_actions_Ok actions l : foldM (check_action db ctx satisfied_authorizations delay) [] actions = Ok l <->
  (forall act, act ∈ actions -> action_authorized db ctx act) /\ l = require_all [] (obligations db satisfied_authorizations delay actions).
Proof.
  rewrite (foldM_checks _ _ _ _ (fun l a l' _ => check_action_Ok l a l')). generalize (@nil (permission_level * Z)). intros k.
  enough (foldl (fun l act => require_all l (obligations db satisfied_authorizations delay [act])) k actions =
    require_all k (obligations db satisfied_authorizations delay actions)) as -> by done.
  revert k. induction actions as [|act actions IH]; intros k; [done|]. cbn [foldl]. rewrite IH. unfold require_all, obligations.
  cbn [map concat]. by rewrite app_nil_r, foldl_app.
Qed.
End Actions.

(** ** The keys *)

Section Keys.
Context (db : database) (D : permissions_ok db) (ctx : context) (provided_keys : list public_key_type) (provided_permissions : list permission_level).
Abbreviation check := (check_permission db ctx provided_keys provided_permissions false).
Abbreviation satisfiable d := (satisfiable (permission_authority db) provided_keys provided_permissions d).
Abbreviation relevant_key d := (relevant_key (permission_authority db) provided_keys provided_permissions d).

(** The keys that are used are those used before and those relevant for [l]. *)
Definition marks (l : list (permission_level * Z)) (used used' : list bool) : Prop :=
  length used' = length used /\
  forall i, used' !! i = Some true -> used !! i = Some true \/
    exists p d k a, (p, d) ∈ l /\ provided_keys !! i = Some k /\ find_permission db p = Ok (Some a) /\ satisfiable d p /\
      relevant_key d (perm_auth a) k.

Lemma authority_of_find p a : authority_of (permission_authority db) p = Some a <->
  exists q, find_permission db p = Ok (Some q) /\ a = perm_auth q.
Proof. unfold authority_of, permission_authority. destruct (find_permission db p) as [[q|]|]; cbn; naive_solver. Qed.

Lemma check_permission_cases rank (r : option nat) used p d :
  (forall k, r = Some k -> ranked (permission_authority db) rank /\ (k <= Z.to_nat (max_authority_depth ctx))%nat /\ (rank p < k)%nat) ->
  (exists used', check used (p, d) = Ok used' /\ satisfiable d p /\ marks [(p, d)] used used') \/
  (is_ok (check used (p, d)) = false /\ (is_Some r -> ~ satisfiable d p)).
Proof.
  intros Hr. pose proof (permission_authority_ok db D) as ok. unfold check_permission. cbn [fst snd].
  destruct (satisfied_permission_ok (permission_authority db) provided_keys provided_permissions d rank r (Z.to_nat (max_authority_depth ctx)) used p ok Hr)
    as (b & used' & -> & H1 & H2 & Hl & Hu). cbn [mbind result_bind fst snd]. destruct b; [left|right; split; [done|by intros ?%H2]].
  exists used'. split_and!; [done|by apply H1|]. split; [done|]. intros i [|(k & a & Hk & (q & Hq & ->)%authority_of_find & Hs & Hrel)]%Hu; [by left|right].
  exists p, d, k, q. split_and!; [by left|done..].
Qed.

Lemma marks_app l1 l2 u1 u2 u3 : marks l1 u1 u2 -> marks l2 u2 u3 -> marks (l1 ++ l2) u1 u3.
Proof.
  intros [Hl1 H1] [Hl2 H2]. split; [congruence|].
  intros i [[|(p & d & k & a & Hin & H)]%H1|(p & d & k & a & Hin & H)]%H2; [by left|right..]; exists p, d, k, a; rewrite elem_of_app; tauto.
Qed.

(** All of them: nothing is accepted that cannot be satisfied. *)
Lemma check_permissions_sound l used used' : foldM check used l = Ok used' ->
  (forall p d, (p, d) ∈ l -> satisfiable d p) /\ marks l used used'.
Proof.
  revert used. induction l as [|[p d] l IH]; intros used H; cbn [foldM] in H.
  - inv_result. split; [by intros ? ? ?%elem_of_nil|]. split; [done|]. by left.
  - inv_result. destruct (check_permission_cases (fun _ => 0%nat) None used p d) as [(u & Hu & Hs & Hm)|[Hno _]]; [done| |by rewrite E in Hno].
    rewrite E in Hu. injection Hu as <-. destruct (IH _ H) as [Hl Hm']. split; [|by apply (marks_app [(p, d)] l _ x)].
    intros q e [[= -> ->]|]%elem_of_cons; [done|by apply Hl].
Qed.

(** ... and with authorities that are not too deep all that can be satisfied
    is. *)
Lemma check_permissions_complete rank l used :
  ranked (permission_authority db) rank -> (forall p d, (p, d) ∈ l -> (rank p < Z.to_nat (max_authority_depth ctx))%nat /\ satisfiable d p) ->
  exists used', foldM check used l = Ok used'.
Proof.
  intros Hrank. revert used. induction l as [|[p d] l IH]; intros used Hl; cbn [foldM]; [by exists used|].
  destruct (Hl p d ltac:(by left)) as [Hp Hs].
  destruct (check_permission_cases rank (Some (Z.to_nat (max_authority_depth ctx))) used p d) as [(u & -> & _)|[_ Hno]]; [by intros k [= <-]| |by destruct Hno; eauto].
  cbn [mbind result_bind]. apply IH. intros q e Hq. apply Hl. by right.
Qed.
End Keys.

(** ** Properties *)

Section Properties.
Context (db : database) (ctx : context) (actions : list action) (provided_keys : list public_key_type)
  (provided_permissions : list permission_level) (provided_delay : Z) (satisfied_authorizations : list permission_level).
Abbreviation delay_of act := (action_delay db (effective_delay ctx provided_delay) act).
Abbreviation satisfiable d := (satisfiable (permission_authority db) provided_keys provided_permissions d).

(** Everything that the actions declare is enough for them, and satisfied. *)
Definition transaction_authorized : Prop := forall act, act ∈ actions ->
  action_authorized db ctx act /\
  forall auth, auth ∈ act_authorization act -> auth ∈ satisfied_authorizations \/ satisfiable (delay_of act) auth.

Lemma obligations_satisfiable :
  let l := require_all [] (obligations db satisfied_authorizations (effective_delay ctx provided_delay) actions) in
  (forall p d, (p, d) ∈ l -> satisfiable d p) <->
  forall act auth, act ∈ actions -> auth ∈ act_authorization act -> auth ∈ satisfied_authorizations \/ satisfiable (delay_of act) auth.
Proof.
  intros l. destruct (require_all_spec (obligations db satisfied_authorizations (effective_delay ctx provided_delay) actions) []) as [Hfrom Hcov].
  split.
  - intros H act auth Hact Hauth. destruct (decide (auth ∈ satisfied_authorizations)) as [|Hn]; [by left|right].
    destruct (Hcov auth (delay_of act)) as (d & Hd & Hin); [|by eapply satisfiable_delay, H].
    apply elem_of_app. right. apply obligations_spec. by exists act.
  - intros H p d [?%elem_of_nil|(act & Hact & Hp & Hn & ->)%obligations_spec]%Hfrom; [done|]. by destruct (H act p Hact Hp).
Qed.

Lemma check_authorization_authorized (allow_unused_keys : bool) : accounts_run db ->
  check_authorization db ctx actions provided_keys provided_permissions provided_delay allow_unused_keys false satisfied_authorizations = Ok () ->
  transaction_authorized.
Proof.
  intros [D _]%accounts_run_ok H. unfold check_authorization in H. inv_result. apply (check_actions_Ok db D) in E as [Hact ->].
  destruct (check_permissions_sound db D ctx provided_keys provided_permissions _ _ _ E0) as [Hs _].
  pose proof (proj1 obligations_satisfiable Hs) as Hall. intros act Hin. split; [by apply Hact|]. intros auth. by apply Hall.
Qed.

(** C4: What [check_authorization] lets through is authorized: each action
    declares permissions that are, or are above, the one the action needs --
    the target of a change of permissions or its parent, the permission linked
    to the action, [active] -- and each of those was satisfied before or can be
    satisfied with the keys, permissions and delay provided.  When unused keys
    are not allowed, every key provided is one that satisfies a permission. *)
Theorem check_authorization_sound (allow_unused_keys : bool) : accounts_run db ->
  check_authorization db ctx actions provided_keys provided_permissions provided_delay allow_unused_keys false satisfied_authorizations = Ok () ->
  transaction_authorized /\
  (allow_unused_keys = false -> forall k, k ∈ provided_keys -> exists act auth a,
     act ∈ actions /\ auth ∈ act_authorization act /\ has_permission db auth a /\ satisfiable (delay_of act) auth /\
     relevant_key (permission_authority db) provided_keys provided_permissions (delay_of act) (perm_auth a) k).
Proof.
  intros Hrun H. split; [by eapply check_authorization_authorized|]. apply accounts_run_ok in Hrun as [D _].
  unfold check_authorization in H. inv_result. apply (check_actions_Ok db D) in E as [Hact ->].
  destruct (check_permissions_sound db D ctx provided_keys provided_permissions _ _ _ E0) as [_ [Hlen Hm]].
  intros -> k Hk. cbn [orb] in E1. rewrite orb_false_r in E1. apply list_elem_of_lookup in Hk as [i Hi].
  unfold all_keys_used in E1. rewrite forallb_forall in E1.
  assert (Hx : x0 !! i = Some true).
  { destruct (lookup_lt_is_Some_2 x0 i) as [b Hb].
    { rewrite Hlen, length_replicate. by eapply lookup_lt_Some. }
    rewrite Hb. f_equal. apply (E1 b). by apply list_elem_of_In, (list_elem_of_lookup_2 _ i). }
  destruct (Hm i Hx) as [Hr|(p & d & k' & a & Hp & Hk' & Ha & Hsat & Hrel)]; [by apply lookup_replicate in Hr as [? _]|].
  rewrite Hi in Hk'. injection Hk' as <-. destruct (require_all_spec (obligations db satisfied_authorizations (effective_delay ctx provided_delay) actions) []) as [Hfrom _].
  destruct (Hfrom _ _ Hp) as [?%elem_of_nil|(act & Hin & Hauth & _ & ->)%obligations_spec]; [done|].
  exists act, p, a. split_and!; [done..|by apply find_permission_has|done|done].
Qed.

(** C5: [check_authorization] decides the specification where the authorities
    have no cycles and are not deeper than its limit: if keys may be left
    unused, it lets through exactly the transactions that are authorized.  If
    they may not, it still refuses an authorized transaction only with
    [tx_irrelevant_sig], for a key that it has not used (and it may: the
    checker stops at the threshold, so which keys it uses depends on their
    order). *)
Theorem check_authorization_decides (rank : permission_level -> nat) : accounts_run db ->
  ranked (permission_authority db) rank -> (forall p, (rank p < Z.to_nat (max_authority_depth ctx))%nat) ->
  let check allow_unused_keys := check_authorization db ctx actions provided_keys provided_permissions provided_delay
    allow_unused_keys false satisfied_authorizations in
  (check true = Ok () <-> transaction_authorized) /\
  (transaction_authorized -> check false = Ok () \/ check false = Throw tx_irrelevant_sig).
Proof.
  intros Hrun Hrank Hp check. pose proof (accounts_run_ok _ Hrun) as [D _].
  assert (H : transaction_authorized -> exists used, forall allow_unused_keys,
      check allow_unused_keys = if allow_unused_keys || all_keys_used used then Ok () else Throw tx_irrelevant_sig).
  { intros H. pose proof (proj2 (check_actions_Ok db D ctx satisfied_authorizations (effective_delay ctx provided_delay) actions _)
      (conj (fun act Hin => proj1 (H act Hin)) eq_refl)) as Hact.
    set (l := require_all [] (obligations db satisfied_authorizations (effective_delay ctx provided_delay) actions)) in *.
    destruct (check_permissions_complete db D ctx provided_keys provided_permissions rank l (replicate (length provided_keys) false) Hrank) as [used Hu].
    { intros p d Hin. split; [done|]. revert p d Hin. apply obligations_satisfiable. intros act auth Hin. by apply H. }
    exists used. intros allow. unfold check, check_authorization. rewrite Hact. cbn [mbind result_bind]. rewrite Hu.
    cbn [mbind result_bind]. rewrite orb_false_r. by destruct (_ || _). }
  split.
  - split; [by apply check_authorization_authorized|]. by intros [used ->]%H.
  - intros [used ->]%H. cbn [orb]. destruct (all_keys_used used); [by left|by right].
Qed.
End Properties.

(** ** A chain with one account *)

Definition example_context : context :=
  Context false [level "eosio" "active"; level "alice" "active"] 1000 3 (45 * 24 * 3600) 6 true true [].
(** alice spends with the key 3, and has her other keys to change that. *)
Definition example_newaccount : newaccount :=
  Newaccount system_account_name (name_of "alice") (key_authority (example_key 1)) (key_authority (example_key 2)).
Definition example_updateauth (auth : authority) : updateauth :=
  Updateauth (name_of "alice") (name_of "spend") active_name auth.
Definition example_linkauth : linkauth := Linkauth (name_of "alice") (name_of "alice") (name_of "transfer") (name_of "spend").
Definition spend_authority : authority := Authority 1 [key_item 3] [] [WaitWeight 3600 1].

Definition example_steps : result database :=
  db ← initialize_accounts example_context (example_key 9) 500;
  db ← apply_eosio_newaccount db example_context example_newaccount;
  db ← apply_eosio_updateauth db example_context (example_updateauth spend_authority);
  apply_eosio_linkauth db example_context example_linkauth.
Definition example_db : database := Eval vm_compute in from_ok initialize_permissions example_steps.

Definition transfer : action := Action (name_of "alice") (name_of "transfer") [level "alice" "spend"] other_data.
Definition change_spend : action :=
  Action system_account_name updateauth_name [level "alice" "active"] (updateauth_data (example_updateauth (key_authority (example_key 4)))).

Ltac example_wf := split; cbn; [by vm_compute|repeat constructor; by vm_compute..].

Lemma key_authority_wf k : authority_wf (key_authority k).
Proof. example_wf. Qed.
Lemma spend_authority_wf : authority_wf spend_authority.
Proof. example_wf. Qed.

Lemma example_run : accounts_run example_db.
Proof.
  assert (E : example_steps = Ok example_db) by by vm_compute. unfold example_steps in E. inv_result.
  eapply run_linkauth; [|exact E]. apply (run_updateauth _ _ (example_updateauth spend_authority) _ (run_newaccount _ _ example_newaccount _ (run_start _ _ _ _ E0)
    (key_authority_wf _) (key_authority_wf _) E1) spend_authority_wf E2).
Qed.

(** The producers' permissions depend on [eosio@active]. *)
Definition example_db_rank (p : permission_level) : nat := if decide (p = level "eosio" "active") then 0 else 1.

Lemma ranked_by_rows db rank :
  forallb (fun e => forallb (fun w => (rank (plw_permission w) <? rank (PermissionLevel (perm_owner e.2) (perm_name e.2)))%nat) (auth_accounts (perm_auth e.2)))
    (map_to_list (rows (permissions db))) = true -> ranked (permission_authority db) rank.
Proof.
  intros H p a w (q & Hq & ->)%authority_of_find Hw _. unfold find_permission in Hq. inv_result.
  apply table_find_Some in Hq as [HP (id & Hid)]. apply andb_true_iff in HP as [Ho%Z.eqb_eq Hn%Z.eqb_eq].
  rewrite forallb_forall in H. pose proof (H (id, q) ltac:(by apply list_elem_of_In, elem_of_map_to_list)) as Hrow. cbn [fst snd] in Hrow.
  rewrite Ho, Hn in Hrow. destruct p as [x y]. cbn in *. rewrite forallb_forall in Hrow. apply Nat.ltb_lt, Hrow. by apply list_elem_of_In.
Qed.

Definition example_permission (l : permission_level) : permission_object := from_ok reserved_permission (get_permission example_db l).

Ltac example_has := match goal with |- has_permission _ _ _ => unfold has_permission; split_and!; by vm_compute end.

(** The chain when alice and the system account are the producers: more than
    two thirds or one half of them are both, and more than one third is one. *)
Definition example_producers : list producer_authority :=
  map (fun n => ProducerAuthority n (BlockSigningAuthority 1 [])) [name_of "alice"; system_account_name].
Definition example_produced : database := Eval vm_compute in from_ok initialize_permissions (update_producers_authority example_db example_producers).
Definition example_produced_permission (n : Z) : permission_object :=
  from_ok reserved_permission (get_permission example_produced (PermissionLevel producers_account_name n)).

Lemma permissions_are_trees_witness :
  map (fun n => auth_threshold (perm_auth (example_produced_permission n)))
    [active_name; majority_producers_permission_name; minority_producers_permission_name] = [2; 2; 1] /\
  permissions_ok example_produced /\ accounts_complete example_produced /\
  forall id p, rows (permissions example_produced) !! id = Some p -> id <> 0 ->
    exists o, has_permission example_produced (PermissionLevel (perm_owner p) owner_name) o /\ above example_produced o p.
Proof.
  split; [by vm_compute|]. apply (permissions_are_trees example_produced).
  apply (run_producers example_db example_producers); [apply example_run|done|by vm_compute].
Defined.

Lemma satisfies_correct_witness :
  exists b, satisfies example_db (example_permission (level "alice" "owner")) (example_permission (level "alice" "spend")) = Ok b /\
    (b = true <-> above example_db (example_permission (level "alice" "owner")) (example_permission (level "alice" "spend"))).
Proof.
  apply (satisfies_correct example_db (level "alice" "owner") (level "alice" "spend")); [apply example_run|example_has|example_has].
Defined.

Lemma check_authorization_sound_witness :
  transaction_authorized example_db example_context [transfer; change_spend] (map example_key [2; 3]) [] 0 [] /\
  (false = false -> forall k, k ∈ map example_key [2; 3] -> exists act auth a,
     act ∈ [transfer; change_spend] /\ auth ∈ act_authorization act /\ has_permission example_db auth a /\
     satisfiable (permission_authority example_db) (map example_key [2; 3]) [] (action_delay example_db (effective_delay example_context 0) act) auth /\
     relevant_key (permission_authority example_db) (map example_key [2; 3]) [] (action_delay example_db (effective_delay example_context 0) act) (perm_auth a) k).
Proof. apply (check_authorization_sound example_db example_context); [apply example_run|by vm_compute]. Defined.

(** Two keys are not needed for what an hour's delay allows. *)
Lemma check_authorization_decides_witness :
  let check allow_unused_keys :=
    check_authorization example_db example_context [transfer; change_spend] [example_key 2] [] (3600 * 1000000) allow_unused_keys false [] in
  let authorized := transaction_authorized example_db example_context [transfer; change_spend] [example_key 2] [] (3600 * 1000000) [] in
  (check true = Ok () <-> authorized) /\ (authorized -> check false = Ok () \/ check false = Throw tx_irrelevant_sig).
Proof.
  apply (check_authorization_decides example_db example_context _ _ _ _ _ example_db_rank); [apply example_run|apply ranked_by_rows; by vm_compute|].
  intros p. unfold example_db_rank. destruct (decide _); apply Nat.ltb_lt; by vm_compute.
Defined.

Example example_authorizations :
  check_authorization example_db example_context [transfer; change_spend] (map example_key [1; 3]) [] 0 false false [] = Throw unsatisfied_authorization /\
  check_authorization example_db example_context [transfer; change_spend] (map example_key [1; 2; 3]) [] 0 false false [] = Throw tx_irrelevant_sig /\
  check_authorization example_db example_context [transfer; change_spend] [example_key 2] [] (3600 * 1000000) false false [] = Ok () /\
  satisfies example_db (example_permission (level "alice" "spend")) (example_permission (level "alice" "active")) = Ok false.
Proof. by vm_compute. Qed.
