(* ===== verification/MerkleLegacy.v ===== *)
(** * The Merkle trees of legacy blocks

    [calculate_merkle_legacy] of a whole sequence ([merkle_legacy.hpp]) and the
    tree that grows ([incremental_merkle_legacy.hpp]).  An odd level repeats its
    last digest, and the two digests of a pair are told apart by a bit. *)

From S2P Require Import Prelude ChainTypes Merkle.

Section MerkleLegacy.
Context {hasher : Sha256Hash}.

(** ** Definitions *)

Definition make_legacy_left_digest (v : digest_type) : digest_type :=
  Sha256 (Z.land (hash0 v) 0xFFFFFFFFFFFFFF7F) (hash1 v) (hash2 v) (hash3 v).
Definition make_legacy_right_digest (v : digest_type) : digest_type :=
  Sha256 (Z.lor (hash0 v) 0x80) (hash1 v) (hash2 v) (hash3 v).
Definition is_legacy_left_digest (v : digest_type) : bool := Z.land (hash0 v) 0x80 =? 0.
Definition is_legacy_right_digest (v : digest_type) : bool := negb (Z.land (hash0 v) 0x80 =? 0).

(** [hash(make_legacy_digest_pair(l, r))] *)
Definition hash_legacy_pair (l r : digest_type) : digest_type :=
  hash_combine (make_legacy_left_digest l) (make_legacy_right_digest r).

(** The loop over the pairs of a level, in place. *)
Definition hash_pairs (ids : list digest_type) : result (list digest_type) :=
  foldM (fun ids i =>
           l ← at_or_assert (ids !! (2 * i)%nat);
           r ← at_or_assert (ids !! (2 * i + 1)%nat);
           Ok (<[i := hash_legacy_pair l r]> ids))
    ids (seq 0 (length ids / 2)).

(** One level: an odd one gets its last digest twice. *)
Definition calculate_level (ids : list digest_type) : result (list digest_type) :=
  ids ← (if (length ids mod 2 =? 0)%nat then Ok ids else b ← at_or_assert (last ids); Ok (ids ++ [b]));
  hashed ← hash_pairs ids;
  Ok (take (length ids / 2) hashed).

Fixpoint calculate_levels (fuel : nat) (ids : list digest_type) : result digest_type :=
  if (1 <? length ids)%nat then
    match fuel with
    | O => Throw assert_failed
    | S fuel => ids ← calculate_level ids; calculate_levels fuel ids
    end
  else at_or_assert (head ids).

Definition calculate_merkle_legacy (ids : list digest_type) : result digest_type :=
  if (length ids =? 0)%nat then Ok sha256_default else calculate_levels (length ids) ids.

(** [std::bit_width(std::bit_ceil(n))] *)
Definition bit_ceil (n : Z) : Z := 2 ^ Z.log2_up n.
Definition bit_width (n : Z) : Z := if n =? 0 then 0 else Z.log2 n + 1.
Definition calculate_max_depth (node_count : Z) : Z :=
  if node_count =? 0 then 0 else bit_width (bit_ceil node_count).

Record incremental_merkle_legacy : Set := IncrementalMerkleLegacy {
  _node_count : Z;
  _active_nodes : list digest_type
}.
Definition empty_merkle_legacy : incremental_merkle_legacy := IncrementalMerkleLegacy 0 [].

(** The variables of the loop of [append]; [active] is what [active_iter] has
    not passed. *)
Record append_state : Set := AppendState {
  index : Z;
  top : digest_type;
  active : list digest_type;
  partial : bool;
  updated_active_nodes : list digest_type
}.

Definition append_step (s : append_state) : result append_state :=
  if Z.land (index s) 1 =? 0 then
    Ok (AppendState (Z.shiftr (index s) 1) (hash_legacy_pair (top s) (top s)) (active s) true
          (if partial s then updated_active_nodes s else updated_active_nodes s ++ [top s]))
  else
    left_value ← at_or_assert (head (active s));
    Ok (AppendState (Z.shiftr (index s) 1) (hash_legacy_pair left_value (top s)) (tail (active s)) (partial s)
          (if partial s then updated_active_nodes s ++ [left_value] else updated_active_nodes s)).

Fixpoint append_loop (current_depth : nat) (s : append_state) : result append_state :=
  match current_depth with
  | O => Ok s
  | S current_depth => s ← append_step s; append_loop current_depth s
  end.

(** The new tree; the new root is the last of its active nodes. *)
Definition append_legacy (t : incremental_merkle_legacy) (digest : digest_type) : result incremental_merkle_legacy :=
  let max_depth := calculate_max_depth (wrap64 (_node_count t + 1)) in
  s ← append_loop (Z.to_nat (max_depth - 1)) (AppendState (_node_count t) digest (_active_nodes t) false []);
  Ok (IncrementalMerkleLegacy (wrap64 (_node_count t + 1)) (updated_active_nodes s ++ [top s])).

Definition get_root_legacy (t : incremental_merkle_legacy) : result digest_type :=
  if 0 <? _node_count t then at_or_assert (last (_active_nodes t)) else Ok sha256_default.

(** ** The reference: a complete tree whose missing leaves are implied *)

(** The node of depth [d] over the leaves [ls], at least one and at most
    [2 ^ d]; without leaves on the right it is combined with itself. *)
Fixpoint node (d : nat) (ls : list digest_type) : digest_type :=
  match d with
  | O => default sha256_default (head ls)
  | S d =>
      if (2 ^ d <? length ls)%nat
      then hash_legacy_pair (node d (take (2 ^ d) ls)) (node d (drop (2 ^ d) ls))
      else hash_legacy_pair (node d ls) (node d ls)
  end.

(** ** A level *)

Fixpoint pairs (ids : list digest_type) : list digest_type :=
  match ids with
  | l :: r :: ids => hash_legacy_pair l r :: pairs ids
  | [l] => [hash_legacy_pair l l]
  | [] => []
  end.

Lemma pairs_ind (P : list digest_type -> Prop) :
  P [] -> (forall l, P [l]) -> (forall l r ids, P ids -> P (l :: r :: ids)) -> forall ids, P ids.
Proof.
  intros H0 H1 H2. refine (fix F ids := match ids with [] => H0 | [l] => H1 l | l :: r :: ids => H2 l r ids (F ids) end).
Qed.

Lemma length_pairs ids : length (pairs ids) = ((length ids + 1) / 2)%nat.
Proof.
  induction ids as [|l|l r ids IH] using pairs_ind; [done|done|]. cbn [pairs length]. rewrite IH.
  replace (S (S (length ids)) + 1)%nat with (length ids + 1 + 1 * 2)%nat by lia. rewrite Nat.div_add by lia. lia.
Qed.

Lemma pairs_app l1 l2 : (length l1 mod 2 = 0)%nat -> pairs (l1 ++ l2) = pairs l1 ++ pairs l2.
Proof.
  induction l1 as [|l|l r ids IH] using pairs_ind; [done|done|]. intros H. cbn [pairs app]. rewrite IH; [done|].
  revert H. cbn [length]. replace (S (S (length ids))) with (length ids + 1 * 2)%nat by lia. by rewrite Nat.Div0.mod_add.
Qed.

Lemma pairs_lookup ids k l r : ids !! (2 * k)%nat = Some l -> ids !! (2 * k + 1)%nat = Some r -> pairs ids !! k = Some (hash_legacy_pair l r).
Proof.
  revert k. induction ids as [|a|a b ids IH] using pairs_ind; intros k Hl Hr; [done|by destruct k|].
  destruct k as [|k]; [cbn in *; by simplify_eq|]. replace (2 * S k)%nat with (S (S (2 * k))) in * by lia.
  replace (S (S (2 * k)) + 1)%nat with (S (S (2 * k + 1))) in Hr by lia. by apply IH.
Qed.

Lemma pairs_odd ids b : (length ids mod 2 <> 0)%nat -> last ids = Some b -> pairs (ids ++ [b]) = pairs ids.
Proof.
  induction ids as [|a|a c ids IH] using pairs_ind; [done|by intros _ [= ->]|]. intros H Hb. cbn [pairs app].
  cbn [length] in H. replace (S (S (length ids))) with (length ids + 1 * 2)%nat in H by lia. rewrite Nat.Div0.mod_add in H.
  f_equal. apply IH; [done|]. destruct ids; [done|done].
Qed.

Lemma hash_pairs_ok ids : exists hashed, hash_pairs ids = Ok hashed /\ take (length ids / 2) hashed = take (length ids / 2) (pairs ids).
Proof.
  assert (H : forall k, (2 * k <= length ids)%nat -> foldM (fun ids i =>
      l ← at_or_assert (ids !! (2 * i)%nat); r ← at_or_assert (ids !! (2 * i + 1)%nat); Ok (<[i := hash_legacy_pair l r]> ids)) ids (seq 0 k)
    = Ok (take k (pairs ids) ++ drop k ids)).
  { induction k as [|k IH]; intros Hk; [done|]. rewrite seq_S, foldM_app, IH by lia. cbn [mbind result_bind foldM Nat.add].
    destruct (lookup_lt_is_Some_2 ids (2 * k)) as [l Hl]; [lia|]. destruct (lookup_lt_is_Some_2 ids (2 * k + 1)) as [r Hr]; [lia|].
    assert (Hp : length (take k (pairs ids)) = k) by (rewrite length_take, length_pairs; pose proof (Nat.div_le_lower_bound (length ids + 1) 2 k); lia).
    rewrite !lookup_app_r, Hp, !lookup_drop by lia. replace (k + (2 * k - k))%nat with (2 * k)%nat by lia. replace (k + (2 * k + 1 - k))%nat with (2 * k + 1)%nat by lia.
    rewrite Hl, Hr. cbn [mbind result_bind at_or_assert]. f_equal.
    rewrite <- (Nat.add_0_r k) at 1. rewrite <- Hp at 1. rewrite insert_app_r. pose proof (pairs_lookup _ _ _ _ Hl Hr) as Hk'.
    rewrite (take_S_r _ _ _ Hk'), <- app_assoc. f_equal. destruct (lookup_lt_is_Some_2 ids k) as [x Hx]; [lia|].
    by rewrite (drop_S _ _ _ Hx). }
  exists (take (length ids / 2) (pairs ids) ++ drop (length ids / 2) ids). split.
  - apply H. apply Nat.Div0.mul_div_le.
  - rewrite take_app_le, take_take, Nat.min_id; [done|]. rewrite length_take, length_pairs.
    apply Nat.min_glb; [done|]. apply Nat.Div0.div_le_mono. lia.
Qed.

Lemma calculate_level_ok ids : ids <> [] -> calculate_level ids = Ok (pairs ids).
Proof.
  intros Hne. unfold calculate_level. destruct (Nat.eqb_spec (length ids mod 2) 0) as [E|E]; cbn [mbind result_bind].
  - destruct (hash_pairs_ok ids) as (h & -> & Hh). cbn [mbind result_bind]. rewrite Hh, take_ge; [done|].
    rewrite length_pairs. pose proof (Nat.div_mod_eq (length ids) 2). rewrite E in *.
    apply Nat.lt_succ_r, Nat.Div0.div_lt_upper_bound. lia.
  - destruct (last ids) as [b|] eqn:Eb; [|by apply last_None in Eb]. cbn [mbind result_bind at_or_assert].
    destruct (hash_pairs_ok (ids ++ [b])) as (h & -> & Hh). cbn [mbind result_bind]. rewrite Hh, pairs_odd, take_ge; [done| |done|done].
    rewrite length_pairs, length_app. cbn. done.
Qed.

(** A tree is the tree over its lowest pairs. *)
Lemma node_pairs d ids : (0 < length ids <= 2 ^ S d)%nat -> node (S d) ids = node d (pairs ids).
Proof.
  revert ids. induction d as [|d IH]; intros ids Hl.
  - destruct ids as [|l [|r [|x ids]]]; [cbn in Hl; lia|done|done|cbn in Hl; lia].
  - assert (Hp : (0 < 2 ^ d)%nat) by (apply Nat.neq_0_lt_0, Nat.pow_nonzero; done).
    change (node (S (S d)) ids) with (if (2 ^ S d <? length ids)%nat then hash_legacy_pair (node (S d) (take (2 ^ S d) ids)) (node (S d) (drop (2 ^ S d) ids))
      else hash_legacy_pair (node (S d) ids) (node (S d) ids)).
    change (node (S d) (pairs ids)) with (if (2 ^ d <? length (pairs ids))%nat then hash_legacy_pair (node d (take (2 ^ d) (pairs ids))) (node d (drop (2 ^ d) (pairs ids)))
      else hash_legacy_pair (node d (pairs ids)) (node d (pairs ids))).
    rewrite length_pairs. cbn [Nat.pow] in *. pose proof (Nat.div_mod_eq (length ids + 1) 2). pose proof (Nat.mod_upper_bound (length ids + 1) 2).
    destruct (Nat.ltb_spec (2 * 2 ^ d) (length ids)) as [H1|H1], (Nat.ltb_spec (2 ^ d) ((length ids + 1) / 2)) as [H2|H2]; try lia.
    + rewrite !IH by (rewrite ?length_take, ?length_drop; cbn [Nat.pow]; lia).
      rewrite <- (take_drop (2 * 2 ^ d) ids) at 3 4.
      rewrite pairs_app by (rewrite length_take, Nat.min_l, Nat.mul_comm by lia; apply Nat.Div0.mod_mul).
      assert (Ht : length (pairs (take (2 * 2 ^ d) ids)) = (2 ^ d)%nat).
      { rewrite length_pairs, length_take, Nat.min_l, Nat.add_comm, Nat.mul_comm, Nat.div_add by lia. done. }
      by rewrite take_app_length', drop_app_length'.
    + by rewrite IH by (cbn [Nat.pow]; lia).
Qed.

Lemma calculate_levels_ok d fuel ids : (length ids <= 2 ^ d < 2 * length ids)%nat -> (d <= fuel)%nat -> calculate_levels fuel ids = Ok (node d ids).
Proof.
  revert fuel ids. induction d as [|d IH]; intros fuel ids Hl Hf.
  - destruct ids as [|l [|]]; cbn in Hl; [lia| |lia]. by destruct fuel.
  - assert (Hp : (0 < 2 ^ d)%nat) by (apply Nat.neq_0_lt_0, Nat.pow_nonzero; done). cbn [Nat.pow] in Hl.
    destruct fuel as [|fuel]; [lia|]. cbn [calculate_levels]. rewrite (proj2 (Nat.ltb_lt _ _)) by lia.
    rewrite calculate_level_ok by (intros ->; cbn in Hl; lia). cbn [mbind result_bind].
    rewrite IH, node_pairs; [done|cbn [Nat.pow]; lia| |lia]. rewrite length_pairs.
    pose proof (Nat.div_mod_eq (length ids + 1) 2). pose proof (Nat.mod_upper_bound (length ids + 1) 2). lia.
Qed.

(** ** Appending *)

(** The nodes that are complete in a tree of depth [d] that is not full, the
    lowest first. *)
Fixpoint complete (d : nat) (ls : list digest_type) : list digest_type :=
  match d with
  | O => []
  | S d => if (length ls <? 2 ^ d)%nat then complete d ls else complete d (drop (2 ^ d) ls) ++ [node d (take (2 ^ d) ls)]
  end.

Lemma append_loop_snoc d s : append_loop (S d) s = (s' ← append_loop d s; append_step s').
Proof.
  revert s. induction d as [|d IH]; intros s; cbn [append_loop mbind result_bind]; [by destruct (append_step s)|].
  destruct (append_step s) as [s'|e]; cbn [mbind result_bind]; [apply IH|done].
Qed.

Lemma pow2_Z d : Z.of_nat (2 ^ d) = 2 ^ Z.of_nat d.
Proof. by rewrite Nat2Z.inj_pow. Qed.

Lemma complete_nil d : complete d [] = [].
Proof.
  induction d as [|d IH]; [done|]. cbn [complete length]. pose proof (Nat.pow_nonzero 2 d ltac:(done)).
  destruct (Nat.ltb_spec 0 (2 ^ d)); [done|lia].
Qed.

Lemma land_1 i : Z.land i 1 = i mod 2.
Proof. apply (Z.land_ones i 1). done. Qed.
Lemma shiftr_1 i : Z.shiftr i 1 = i / 2.
Proof. by rewrite Z.shiftr_div_pow2. Qed.

(** [d] steps from the leaf [x] after [ls]: at depth [d] is the node over both,
    and what is complete below it has been kept. *)
Lemma append_loop_ok d idx x ls rest acc : 0 <= idx -> idx mod 2 ^ Z.of_nat d = size_of ls ->
  append_loop d (AppendState idx x (complete d ls ++ rest) false acc) =
  Ok (AppendState (idx / 2 ^ Z.of_nat d) (node d (ls ++ [x])) rest (size_of ls + 1 <? 2 ^ Z.of_nat d)
        (acc ++ if size_of ls + 1 <? 2 ^ Z.of_nat d then complete d (ls ++ [x]) else [])).
Proof.
  revert ls rest. induction d as [|d IH]; intros ls rest Hi Hl.
  - cbn in *. rewrite Z.mod_1_r in Hl. destruct ls; [|done]. cbn. by rewrite app_nil_r, Z.div_1_r.
  - rewrite append_loop_snoc. unfold size_of in *. rewrite Nat2Z.inj_succ, Z.pow_succ_r in * by lia.
    pose proof (pow2_Z d) as Hp2. set (P := 2 ^ Z.of_nat d) in *. assert (HP : 0 < P) by (apply Z.pow_pos_nonneg; lia).
    assert (Hlt : Z.of_nat (length ls) < 2 * P) by (rewrite <- Hl; apply Z.mod_pos_bound; lia).
    change (complete (S d) ls) with (if (length ls <? 2 ^ d)%nat then complete d ls else complete d (drop (2 ^ d) ls) ++ [node d (take (2 ^ d) ls)]).
    change (complete (S d) (ls ++ [x])) with (if (length (ls ++ [x]) <? 2 ^ d)%nat then complete d (ls ++ [x])
      else complete d (drop (2 ^ d) (ls ++ [x])) ++ [node d (take (2 ^ d) (ls ++ [x]))]).
    change (node (S d) (ls ++ [x])) with (if (2 ^ d <? length (ls ++ [x]))%nat
      then hash_legacy_pair (node d (take (2 ^ d) (ls ++ [x]))) (node d (drop (2 ^ d) (ls ++ [x]))) else hash_legacy_pair (node d (ls ++ [x])) (node d (ls ++ [x]))).
    rewrite length_app. cbn [length].
    assert (Hq : idx = 2 * P * (idx / (2 * P)) + Z.of_nat (length ls)) by (rewrite <- Hl; apply Z.div_mod; lia).
    set (q := idx / (2 * P)) in *. clearbody q.
    destruct (Nat.ltb_spec (length ls) (2 ^ d)) as [H1|H1].
    + assert (Hd : idx / P = 2 * q) by (symmetry; apply (Z.div_unique_pos _ _ _ (Z.of_nat (length ls))); lia).
      rewrite IH by (first [done|symmetry; apply (Z.mod_unique_pos _ _ (2 * q)); lia]). rewrite Hd. cbn [mbind result_bind].
      unfold append_step. cbn [index top active partial updated_active_nodes].
      rewrite land_1, Z.mul_comm, Z.mod_mul, shiftr_1, Z.div_mul by lia. cbn [Z.eqb].
      destruct (Z.ltb_spec (Z.of_nat (length ls) + 1) P) as [H2|H2], (Z.ltb_spec (Z.of_nat (length ls) + 1) (2 * P)) as [H3|H3],
        (Nat.ltb_spec (length ls + 1) (2 ^ d)) as [H4|H4], (Nat.ltb_spec (2 ^ d) (length ls + 1)) as [H5|H5]; try lia; [done| ].
      f_equal. f_equal. rewrite app_nil_r, drop_ge, take_ge by (rewrite length_app; cbn; lia). f_equal.
      by rewrite complete_nil.
    + assert (Hd : idx / P = 2 * q + 1) by (symmetry; apply (Z.div_unique_pos _ _ _ (Z.of_nat (length ls) - P)); lia).
      rewrite <- app_assoc, IH by (rewrite ?length_drop; first [done|symmetry; apply (Z.mod_unique_pos _ _ (2 * q + 1)); lia]).
      rewrite Hd, length_drop. cbn [mbind result_bind app].
      unfold append_step. cbn [index top active partial updated_active_nodes head tail at_or_assert mbind result_bind].
      rewrite land_1, shiftr_1. replace ((2 * q + 1) mod 2) with 1 by (rewrite Z.add_comm, Z.mul_comm, Z.mod_add by lia; done).
      replace ((2 * q + 1) / 2) with q by (rewrite Z.add_comm, Z.mul_comm, Z.div_add by lia; done). cbn [Z.eqb].
      rewrite !drop_app_le, take_app_le by lia.
      destruct (Z.ltb_spec (Z.of_nat (length ls - 2 ^ d) + 1) P) as [H2|H2], (Z.ltb_spec (Z.of_nat (length ls) + 1) (2 * P)) as [H3|H3],
        (Nat.ltb_spec (length ls + 1) (2 ^ d)) as [H4|H4], (Nat.ltb_spec (2 ^ d) (length ls + 1)) as [H5|H5]; try lia; [by rewrite app_assoc|done].
Qed.

(** The depth of the tree over [n] leaves *)
Definition depth (n : Z) : nat := Z.to_nat (Z.log2_up n).

Lemma max_depth_ok n : 0 < n -> Z.to_nat (calculate_max_depth n - 1) = depth n.
Proof.
  intros H. unfold calculate_max_depth, bit_ceil, bit_width, depth. pose proof (Z.log2_up_nonneg n).
  destruct (Z.eqb_spec n 0); [lia|]. destruct (Z.eqb_spec (2 ^ Z.log2_up n) 0) as [E|_].
  - pose proof (Z.pow_pos_nonneg 2 (Z.log2_up n)). lia.
  - rewrite Z.log2_pow2 by lia. f_equal. lia.
Qed.

Lemma depth_spec n : 0 < n -> n <= 2 ^ Z.of_nat (depth n) < 2 * n.
Proof.
  intros H. unfold depth. pose proof (Z.log2_up_nonneg n). rewrite Z2Nat.id by lia.
  destruct (Z.eq_dec n 1) as [->|]; [done|]. pose proof (Z.log2_up_spec n ltac:(lia)) as [H1 H2].
  replace (Z.log2_up n) with (Z.succ (Z.pred (Z.log2_up n))) at 2 by lia.
  rewrite Z.pow_succ_r by (apply Z.lt_le_pred, Z.log2_up_pos; lia). lia.
Qed.

Lemma depth_unique n d : 0 < n -> n <= 2 ^ Z.of_nat d < 2 * n -> depth n = d.
Proof.
  intros Hn Hd. pose proof (depth_spec n Hn) as Hs. destruct (Nat.lt_trichotomy (depth n) d) as [H|[H|H]]; [|done|].
  - assert (2 ^ Z.of_nat (S (depth n)) <= 2 ^ Z.of_nat d) as Hle by (apply Z.pow_le_mono_r; lia).
    rewrite Nat2Z.inj_succ, Z.pow_succ_r in Hle by lia. lia.
  - assert (2 ^ Z.of_nat (S d) <= 2 ^ Z.of_nat (depth n)) as Hle by (apply Z.pow_le_mono_r; lia).
    rewrite Nat2Z.inj_succ, Z.pow_succ_r in Hle by lia. lia.
Qed.

(** The active nodes of the tree over [ls]. *)
Definition active_nodes (ls : list digest_type) : list digest_type :=
  (if size_of ls <? 2 ^ Z.of_nat (depth (size_of ls)) then complete (depth (size_of ls)) ls else []) ++ [node (depth (size_of ls)) ls].
Definition legacy_tree_of (t : incremental_merkle_legacy) (ls : list digest_type) : Prop :=
  _node_count t = size_of ls /\ _active_nodes t = match ls with [] => [] | _ => active_nodes ls end.

(** They are those complete in the tree that the next leaf needs, and more. *)
Lemma active_nodes_complete ls : exists rest,
  match ls with [] => [] | _ => active_nodes ls end = complete (depth (size_of ls + 1)) ls ++ rest.
Proof.
  destruct ls as [|l ls]; [by exists []|]. set (n := size_of (l :: ls)). assert (Hn : 0 < n) by (unfold n, size_of; cbn; lia).
  pose proof (depth_spec n Hn) as Hd. unfold active_nodes. fold n. destruct (Z.ltb_spec n (2 ^ Z.of_nat (depth n))) as [H|H].
  - rewrite (depth_unique (n + 1) (depth n)) by lia. by eexists.
  - rewrite (depth_unique (n + 1) (S (depth n))) by (rewrite ?Nat2Z.inj_succ, ?Z.pow_succ_r by lia; lia). exists [].
    assert (Hlen : length (l :: ls) = (2 ^ depth n)%nat) by (apply Nat2Z.inj; rewrite pow2_Z; fold (size_of (l :: ls)); fold n; lia).
    change (complete (S (depth n)) (l :: ls)) with (if (length (l :: ls) <? 2 ^ depth n)%nat then complete (depth n) (l :: ls)
      else complete (depth n) (drop (2 ^ depth n) (l :: ls)) ++ [node (depth n) (take (2 ^ depth n) (l :: ls))]).
    rewrite <- Hlen, Nat.ltb_irrefl, drop_all, take_ge, complete_nil by done. done.
Qed.

Lemma append_legacy_ok t ls x : legacy_tree_of t ls -> size_of ls + 1 < 2 ^ 64 ->
  exists t', append_legacy t x = Ok t' /\ legacy_tree_of t' (ls ++ [x]).
Proof.
  intros [Hn Ha] Hlt. assert (H0 : 0 <= size_of ls) by (unfold size_of; lia). unfold append_legacy.
  rewrite Hn, wrap64_id, max_depth_ok by (unfold u64; lia). destruct (active_nodes_complete ls) as [rest Hr].
  pose proof (depth_spec (size_of ls + 1) ltac:(lia)) as Hd.
  rewrite Ha, Hr, append_loop_ok by (first [done|apply Z.mod_small; lia]). cbn [mbind result_bind top updated_active_nodes app].
  eexists. split; [reflexivity|]. unfold legacy_tree_of. cbn [_node_count _active_nodes].
  assert (Hs : size_of (ls ++ [x]) = size_of ls + 1) by (unfold size_of; rewrite length_app; cbn; lia). rewrite Hs. split; [done|].
  unfold active_nodes. rewrite Hs. by destruct ls.
Qed.

(** Appending one by one to the legacy tree and hashing the whole sequence
    at once give the same root, the one of the complete tree whose missing
    leaves repeat; the active nodes an append reads are always there. *)
Theorem incremental_merkle_legacy_correct (ds : list digest_type) : size_of ds < 2 ^ 64 ->
  exists t, foldM append_legacy empty_merkle_legacy ds = Ok t /\ _node_count t = size_of ds /\
    get_root_legacy t = calculate_merkle_legacy ds /\
    (ds <> [] -> get_root_legacy t = Ok (node (depth (size_of ds)) ds)).
Proof.
  intros Hlt. assert (H : exists t, foldM append_legacy empty_merkle_legacy ds = Ok t /\ legacy_tree_of t ds).
  { induction ds as [|x ds IH] using rev_ind; [by eexists|]. unfold size_of in *. rewrite length_app in Hlt. cbn in Hlt.
    destruct IH as (t & Ht & Hof); [lia|]. rewrite foldM_app, Ht. cbn [mbind result_bind foldM].
    destruct (append_legacy_ok t ds x Hof) as (t' & -> & Hof'); [unfold size_of; lia|]. by exists t'. }
  destruct H as (t & Ht & Hn & Ha). exists t. split_and!; [done..| |].
  - unfold get_root_legacy, calculate_merkle_legacy. rewrite Hn, Ha. destruct ds as [|d ds]; [done|].
    destruct (Z.ltb_spec 0 (size_of (d :: ds))) as [Hp|Hp]; [|unfold size_of in Hp; cbn in Hp; lia].
    unfold active_nodes. rewrite last_snoc. cbn [at_or_assert length Nat.eqb].
    pose proof (depth_spec _ Hp) as Hd. pose proof (pow2_Z (depth (size_of (d :: ds)))) as Hp2. symmetry. apply calculate_levels_ok.
    + unfold size_of in *. cbn [length] in *. lia.
    + destruct (depth (size_of (d :: ds))) as [|e]; [lia|]. pose proof (Nat.pow_gt_lin_r 2 e ltac:(lia)).
      unfold size_of in *. cbn [length Nat.pow] in *. lia.
  - intros Hne. unfold get_root_legacy. rewrite Hn, Ha. destruct ds as [|d ds]; [done|].
    destruct (Z.ltb_spec 0 (size_of (d :: ds))) as [Hp|Hp]; [|unfold size_of in Hp; cbn in Hp; lia].
    unfold active_nodes. by rewrite last_snoc.
Qed.
End MerkleLegacy.

(** ** The property at concrete leaves *)

Lemma incremental_merkle_legacy_correct_witness :
  let ds := map (fun n => Sha256 n 0 0 0) [1; 2; 3; 4; 5; 6; 7] in
  exists t, foldM (append_legacy (hasher := example_hash)) empty_merkle_legacy ds = Ok t /\ _node_count t = size_of ds /\
    get_root_legacy t = calculate_merkle_legacy (hasher := example_hash) ds /\
    (ds <> [] -> get_root_legacy t = Ok (node (hasher := example_hash) (depth (size_of ds)) ds)).
Proof.
  apply (incremental_merkle_legacy_correct (hasher := example_hash) (map (fun n => Sha256 n 0 0 0) [1; 2; 3; 4; 5; 6; 7])). by vm_compute.
Defined.
