(* ===== verification/ProtocolFeatures.v ===== *)
(** * Protocol features

    [protocol_feature_manager.hpp/.cpp]: the features a node recognizes and the
    history of those that are active; and what the controller does with them:
    [check_protocol_features], [preactivate_feature], the start of a block and
    the way back.  An iterator into the set of recognized features is the digest
    it points to, [end()] is [None].  The flat sets of digests are sorted lists.
    Reading and writing the JSON files of the features is not modelled. *)

From S2P Require Import Prelude ChainTypes Policies Raw BlockHeader BlockHeaderState.
Open Scope Z_scope.

(** ** The builtin features *)

Record protocol_feature_subjective_restrictions : Set := SubjectiveRestrictions {
  earliest_allowed_activation_time : Z;
  preactivation_required : bool;
  enabled : bool
}.
Definition default_restrictions : protocol_feature_subjective_restrictions := SubjectiveRestrictions 0 true true.

Record builtin_protocol_feature_spec : Set := BuiltinProtocolFeatureSpec {
  spec_description_digest : digest_type;
  builtin_dependencies : list Z;
  spec_restrictions : protocol_feature_subjective_restrictions
}.

Definition savanna : Z := 24.

(** A [builtin_protocol_feature_t] is its number. *)
Definition builtin_protocol_feature_codenames : list (Z * builtin_protocol_feature_spec) :=
  [
   (0, BuiltinProtocolFeatureSpec (Sha256 13728831140041457252 2870446083726321963 14500243411875024632 1167403736956158078) [] (SubjectiveRestrictions 0 false true));
   (1, BuiltinProtocolFeatureSpec (Sha256 16342722222464025587 2622870616015401529 1627150836863478117 5272004925579333083) [] default_restrictions);
   (2, BuiltinProtocolFeatureSpec (Sha256 8395901859368470681 17795080341915642539 17452399119147287248 4961038773247362941) [] default_restrictions);
   (3, BuiltinProtocolFeatureSpec (Sha256 8131973630343222853 9280460809261882903 7625197740471858529 11562171256575370445) [2] default_restrictions);
   (4, BuiltinProtocolFeatureSpec (Sha256 9717661018649363113 12300582458396661704 5222582086266448508 5796226948738666080) [] default_restrictions);
   (5, BuiltinProtocolFeatureSpec (Sha256 15324411342478201640 14226640910760509720 393452641307138792 14815403495052764280) [] default_restrictions);
   (6, BuiltinProtocolFeatureSpec (Sha256 11065769898837220327 3230419187857389644 6637005014972791879 17534512751219425009) [] default_restrictions);
   (7, BuiltinProtocolFeatureSpec (Sha256 11933914016978771759 17492499501920664482 5454246883334115283 16317450772851939926) [] default_restrictions);
   (8, BuiltinProtocolFeatureSpec (Sha256 8323989235728521 14903916445372114242 13134038699223269048 2450783836671212784) [] default_restrictions);
   (9, BuiltinProtocolFeatureSpec (Sha256 17646970953071373086 6261655339456973783 11553170040906840170 9980812556504258728) [] default_restrictions);
   (10, BuiltinProtocolFeatureSpec (Sha256 6113758581654098456 2396825215818438052 58081602421199261 7506565347111361317) [] default_restrictions);
   (11, BuiltinProtocolFeatureSpec (Sha256 12139205154085765010 2304516459505382041 17852789280977433483 3799925416542869851) [] default_restrictions);
   (12, BuiltinProtocolFeatureSpec (Sha256 9170871100127803051 234040576158586191 17804423185445529272 1193071932288912509) [] default_restrictions);
   (13, BuiltinProtocolFeatureSpec (Sha256 4046359022962782313 11766097861663343841 5304873733363618713 7356931093937140043) [] default_restrictions);
   (18, BuiltinProtocolFeatureSpec (Sha256 1765332196499470721 16861617676222365423 15767933886676983610 7096825339382744127) [] default_restrictions);
   (16, BuiltinProtocolFeatureSpec (Sha256 3178110718892669040 11082923824551020882 12068535470153190118 1491664546238257592) [] default_restrictions);
   (17, BuiltinProtocolFeatureSpec (Sha256 597520791971977682 163696086906962240 12048711237050623530 15307408830349413863) [] default_restrictions);
   (19, BuiltinProtocolFeatureSpec (Sha256 16806835367331288680 7284863445381732443 3239934768821457016 9402723905626859724) [] default_restrictions);
   (20, BuiltinProtocolFeatureSpec (Sha256 11756899741241825253 6845284366980767372 18321135286075583063 10499093665535538169) [] default_restrictions);
   (21, BuiltinProtocolFeatureSpec (Sha256 11680625325165104320 13717585124501134989 17497752162388741741 1946011119149021708) [] default_restrictions);
   (22, BuiltinProtocolFeatureSpec (Sha256 14056493834389294148 1425474320210513543 16941139015476190341 12237877090597899585) [] default_restrictions);
   (23, BuiltinProtocolFeatureSpec (Sha256 5858188275053647784 138562670259290138 4345046848369178559 13428623270144310889) [22] default_restrictions);
   (24, BuiltinProtocolFeatureSpec (Sha256 9422412545467000833 851452358147745939 11128791999226487460 13849103909358132439) [1; 2; 3; 4; 5; 6; 7; 8; 9; 10; 11; 12; 13; 16; 17; 18; 19; 20; 21; 22; 23] default_restrictions)].

Definition find_spec (codename : Z) : option builtin_protocol_feature_spec :=
  snd <$> find (fun p => p.1 =? codename) builtin_protocol_feature_codenames.

Record builtin_protocol_feature : Set := BuiltinProtocolFeature {
  _codename : Z;
  bf_description_digest : digest_type;
  bf_dependencies : list digest_type;
  bf_restrictions : protocol_feature_subjective_restrictions
}.

Record protocol_feature : Set := ProtocolFeature {
  feature_digest : digest_type;
  pf_description_digest : digest_type;
  dependencies : list digest_type;
  pf_restrictions : protocol_feature_subjective_restrictions;
  builtin_feature : Z
}.

(** ** The features a node recognizes *)

Inductive recognized_t : Set := unrecognized | disabled | too_early | ready.

Record protocol_feature_set : Type := ProtocolFeatureSet {
  _recognized_protocol_features : gmap digest_type protocol_feature;
  _recognized_builtin_protocol_features : list (option digest_type)
}.
Definition empty_feature_set : protocol_feature_set := ProtocolFeatureSet ∅ [].

Definition is_recognized (pfs : protocol_feature_set) (d : digest_type) (now : Z) : recognized_t :=
  match _recognized_protocol_features pfs !! d with
  | None => unrecognized
  | Some f =>
      if negb (enabled (pf_restrictions f)) then disabled
      else if now <? earliest_allowed_activation_time (pf_restrictions f) then too_early
      else ready
  end.

Definition get_builtin_digest (pfs : protocol_feature_set) (feature_codename : Z) : option digest_type :=
  default None (_recognized_builtin_protocol_features pfs !! Z.to_nat feature_codename).

Definition get_protocol_feature (pfs : protocol_feature_set) (d : digest_type) : result protocol_feature :=
  match _recognized_protocol_features pfs !! d with Some f => Ok f | None => Throw protocol_feature_exception end.

Definition validate_dependencies (pfs : protocol_feature_set) (d : digest_type) (validator : digest_type -> bool) : bool :=
  match _recognized_protocol_features pfs !! d with
  | None => false
  | Some f => forallb validator (dependencies f)
  end.

Section Hash.
Context {hasher : Sha256Hash}.

(** [builtin_protocol_feature::digest]: the type, [builtin], is 0. *)
Definition c_builtin_protocol_feature : codec builtin_protocol_feature :=
  c_struct (c_pair c_u32 (c_pair c_sha256 (c_pair (c_vector c_sha256) c_u32)))
    (fun f => (0, (bf_description_digest f, (bf_dependencies f, _codename f))))
    (fun m => BuiltinProtocolFeature m.2.2.2 m.2.1 m.2.2.1 default_restrictions).
Definition builtin_digest (f : builtin_protocol_feature) : result digest_type := hash_packed c_builtin_protocol_feature f.

Definition insert_digest (d : digest_type) (l : list digest_type) : list digest_type :=
  if decide (d ∈ l) then l else sorted_insert d l.

(** [handle_dependency] gives the digests of the builtin features depended on. *)
Definition make_default_builtin_protocol_feature (codename : Z) (handle_dependency : Z -> result digest_type) :
    result builtin_protocol_feature :=
  match find_spec codename with
  | None => Throw protocol_feature_validation_exception
  | Some spec =>
      deps ← foldM (fun deps c => d ← handle_dependency c; Ok (insert_digest d deps)) [] (builtin_dependencies spec);
      Ok (BuiltinProtocolFeature codename (spec_description_digest spec) deps (spec_restrictions spec))
  end.

(** The builtin dependencies that the dependencies [ds] satisfy. *)
Definition satisfied_builtin_dependencies (pfs : protocol_feature_set) (expected : list Z) (ds : list digest_type) : result (gset Z) :=
  foldM (fun (acc : gset Z) d =>
           match _recognized_protocol_features pfs !! d with
           | None => Throw protocol_feature_exception
           | Some f => Ok (if decide (builtin_feature f ∈ expected) then {[builtin_feature f]} ∪ acc else acc)
           end) ∅ ds.

(** The index of the builtin features, long enough for [indx]. *)
Definition set_builtin (l : list (option digest_type)) (indx : nat) (d : digest_type) : list (option digest_type) :=
  <[indx := Some d]> (l ++ replicate (S indx - length l) None).

Definition add_feature (pfs : protocol_feature_set) (f : builtin_protocol_feature) : result protocol_feature_set :=
  match find_spec (_codename f) with
  | None => Throw protocol_feature_validation_exception
  | Some spec =>
      let indx := Z.to_nat (_codename f) in
      EOS_ASSERT bool_decide (default None (_recognized_builtin_protocol_features pfs !! indx) = None) ,, protocol_feature_exception ;;
      d ← builtin_digest f;
      satisfied ← satisfied_builtin_dependencies pfs (builtin_dependencies spec) (bf_dependencies f);
      EOS_ASSERT (length (builtin_dependencies spec) <=? size satisfied)%nat ,, protocol_feature_validation_exception ;;
      EOS_ASSERT bool_decide (_recognized_protocol_features pfs !! d = None) ,, protocol_feature_exception ;;
      Ok (ProtocolFeatureSet
            (<[d := ProtocolFeature d (bf_description_digest f) (bf_dependencies f) (bf_restrictions f) (_codename f)]>
               (_recognized_protocol_features pfs))
            (set_builtin (_recognized_builtin_protocol_features pfs) indx d))
  end.
End Hash.

(** ** The history of the active features *)

Definition size_t_max : Z := uint64_max.
Definition no_previous : Z := size_t_max.
Definition not_active : Z := uint32_max.

Record builtin_protocol_feature_entry : Set := BuiltinEntry { previous_entry : Z; activation_block_num : Z }.
Definition inactive_entry : builtin_protocol_feature_entry := BuiltinEntry no_previous not_active.

Record protocol_feature_manager : Type := ProtocolFeatureManager {
  _protocol_feature_set : protocol_feature_set;
  _activated_protocol_features : list (digest_type * Z);
  _builtin_protocol_features : list builtin_protocol_feature_entry;
  _head_of_builtin_activation_list : Z;
  _initialized : bool
}.

Definition new_feature_manager (pfs : protocol_feature_set) : protocol_feature_manager :=
  ProtocolFeatureManager pfs [] (replicate (length (_recognized_builtin_protocol_features pfs)) inactive_entry) no_previous false.

Definition activate_feature (m : protocol_feature_manager) (d : digest_type) (current_block_num : Z) : result protocol_feature_manager :=
  EOS_ASSERT _initialized m ,, protocol_feature_exception ;;
  match _recognized_protocol_features (_protocol_feature_set m) !! d with
  | None => Throw protocol_feature_exception
  | Some f =>
      EOS_ASSERT match last (_activated_protocol_features m) with Some l => l.2 <=? current_block_num | None => true end ,,
        protocol_feature_exception ;;
      let indx := builtin_feature f in
      match _builtin_protocol_features m !! Z.to_nat indx with
      | None => Throw protocol_feature_exception
      | Some e =>
          EOS_ASSERT activation_block_num e =? not_active ,, protocol_feature_exception ;;
          Ok (ProtocolFeatureManager (_protocol_feature_set m) (_activated_protocol_features m ++ [(d, current_block_num)])
                (<[Z.to_nat indx := BuiltinEntry (_head_of_builtin_activation_list m) current_block_num]> (_builtin_protocol_features m))
                indx (_initialized m))
      end
  end.

(** [init]: the features that the database says are active. *)
Definition init (m : protocol_feature_manager) (activated : list (digest_type * Z)) : result protocol_feature_manager :=
  EOS_ASSERT negb (_initialized m) ,, protocol_feature_exception ;;
  foldM (fun m f => activate_feature m f.1 f.2)
    (ProtocolFeatureManager (_protocol_feature_set m) (_activated_protocol_features m) (_builtin_protocol_features m)
       (_head_of_builtin_activation_list m) true) activated.

(** The first loop of [popped_blocks_to]; [fuel] is more than the active
    features. *)
Fixpoint pop_builtins (fuel : nat) (block_num : Z) (l : list builtin_protocol_feature_entry) (head : Z) :
    result (list builtin_protocol_feature_entry * Z) :=
  if head =? no_previous then Ok (l, head)
  else
    match fuel with
    | O => Throw assert_failed
    | S fuel =>
        e ← at_or_assert (l !! Z.to_nat head);
        if activation_block_num e <=? block_num then Ok (l, head)
        else pop_builtins fuel block_num (<[Z.to_nat head := inactive_entry]> l) (previous_entry e)
    end.

(** The second loop: the last features, while they were activated later. *)
Definition pop_activated (block_num : Z) (l : list (digest_type * Z)) : list (digest_type * Z) :=
  foldr (fun f acc => match acc with [] => if block_num <? f.2 then [] else [f] | _ => f :: acc end) [] l.

Definition popped_blocks_to (m : protocol_feature_manager) (block_num : Z) : result protocol_feature_manager :=
  EOS_ASSERT _initialized m ,, protocol_feature_exception ;;
  b ← pop_builtins (S (length (_activated_protocol_features m))) block_num (_builtin_protocol_features m) (_head_of_builtin_activation_list m);
  Ok (ProtocolFeatureManager (_protocol_feature_set m) (pop_activated block_num (_activated_protocol_features m)) b.1 b.2 (_initialized m)).

Definition is_builtin_activated (m : protocol_feature_manager) (feature_codename current_block_num : Z) : bool :=
  match _builtin_protocol_features m !! Z.to_nat feature_codename with
  | None => false
  | Some e => activation_block_num e <=? current_block_num
  end.

(** Iterators: the index of a feature, or [end_index]. *)
Definition end_index : Z := size_t_max.
Definition at_index (m : protocol_feature_manager) (i : nat) : Z :=
  if (i <? length (_activated_protocol_features m))%nat then Z.of_nat i else end_index.
Definition cbegin (m : protocol_feature_manager) : Z := at_index m 0.
Definition at_activation_ordinal (m : protocol_feature_manager) (activation_ordinal : Z) : Z := at_index m (Z.to_nat activation_ordinal).
(** [std::lower_bound] and [std::upper_bound] on the activation numbers *)
Fixpoint partition_point {A} (P : A -> bool) (l : list A) : nat :=
  match l with [] => O | a :: l => if P a then S (partition_point P l) else O end.
Definition lower_bound (m : protocol_feature_manager) (block_num : Z) : Z :=
  at_index m (partition_point (fun f => f.2 <? block_num) (_activated_protocol_features m)).
Definition upper_bound (m : protocol_feature_manager) (block_num : Z) : Z :=
  at_index m (partition_point (fun f => f.2 <=? block_num) (_activated_protocol_features m)).
Definition iterator_next (m : protocol_feature_manager) (index : Z) : result Z :=
  EOS_ASSERT negb (index =? end_index) ,, protocol_feature_iterator_exception ;;
  Ok (if size_of (_activated_protocol_features m) <=? index + 1 then end_index else index + 1).
Definition iterator_prev (m : protocol_feature_manager) (index : Z) : result Z :=
  if index =? end_index then
    EOS_ASSERT 0 <? size_of (_activated_protocol_features m) ,, protocol_feature_iterator_exception ;;
    Ok (size_of (_activated_protocol_features m) - 1)
  else EOS_ASSERT 0 <? index ,, protocol_feature_iterator_exception ;; Ok (index - 1).

(** ** The recognized features

    Whatever features are added: the index of the builtin features is exact, so
    that there is one feature for a builtin, and the dependencies of a feature
    include all its builtin dependencies. *)

Record feature_set_ok (pfs : protocol_feature_set) : Prop := {
  fs_indexed : forall d f, _recognized_protocol_features pfs !! d = Some f ->
    0 <= builtin_feature f < uint32_max /\
    _recognized_builtin_protocol_features pfs !! Z.to_nat (builtin_feature f) = Some (Some d);
  fs_dependencies : forall d f, _recognized_protocol_features pfs !! d = Some f ->
    exists spec, find_spec (builtin_feature f) = Some spec /\
      forall c, c ∈ builtin_dependencies spec ->
        exists d' f', d' ∈ dependencies f /\ _recognized_protocol_features pfs !! d' = Some f' /\ builtin_feature f' = c
}.

(** The sets that the code builds: features added to the empty one. *)
Inductive feature_set_built `{Sha256Hash} : protocol_feature_set -> Prop :=
| built_empty : feature_set_built empty_feature_set
| built_add pfs f pfs' : feature_set_built pfs -> add_feature pfs f = Ok pfs' -> feature_set_built pfs'.

Lemma find_spec_bounds c spec : find_spec c = Some spec -> 0 <= c < uint32_max.
Proof.
  assert (H : Forall (fun p => 0 <= p.1 < uint32_max) builtin_protocol_feature_codenames) by
    (unfold builtin_protocol_feature_codenames, uint32_max; repeat constructor; cbn; lia).
  unfold find_spec. destruct (find _ _) as [[c' s]|] eqn:E; cbn; [|done]. intros _.
  apply find_some in E as [Hin Hc]. apply list_elem_of_In in Hin.
  rewrite Forall_forall in H. apply H in Hin. cbn in *. lia.
Qed.

Lemma satisfied_builtin_dependencies_all pfs expected ds satisfied :
  satisfied_builtin_dependencies pfs expected ds = Ok satisfied ->
  (length expected <= size satisfied)%nat ->
  forall c, c ∈ expected ->
    exists d f, d ∈ ds /\ _recognized_protocol_features pfs !! d = Some f /\ builtin_feature f = c.
Proof.
  intros H Hsize.
  assert (Hall : forall c, c ∈ satisfied -> c ∈ expected /\
      exists d f, d ∈ ds /\ _recognized_protocol_features pfs !! d = Some f /\ builtin_feature f = c).
  { unfold satisfied_builtin_dependencies in H.
    eapply (foldM_ind (fun acc : gset Z => forall c, c ∈ acc -> c ∈ expected /\ exists d f, d ∈ ds /\ _recognized_protocol_features pfs !! d = Some f /\ builtin_feature f = c));
      [| |exact H]; [|set_solver].
    intros acc d acc' Hd Hacc E c Hc. cbn in E.
    destruct (_recognized_protocol_features pfs !! d) as [f|] eqn:Ef; [|done].
    case_decide as Hin; inv_result; [|by apply Hacc].
    apply elem_of_union in Hc as [Hc%elem_of_singleton|Hc]; [subst c; split; [done|by exists d, f]|by apply Hacc]. }
  intros c Hc. apply Hall.
  assert (satisfied ≡ list_to_set expected) as ->.
  { apply set_subseteq_size_equiv; [intros x Hx; apply elem_of_list_to_set, Hall, Hx|].
    etransitivity; [|exact Hsize]. clear. induction expected as [|x l IH]; cbn; [by rewrite size_empty|].
    pose proof (size_union_alt {[x]} (list_to_set l : gset Z)) as E. rewrite E, size_singleton.
    pose proof (subseteq_size (list_to_set l ∖ {[x]} : gset Z) (list_to_set l) ltac:(set_solver)). apply le_n_S. by etransitivity. }
  by apply elem_of_list_to_set.
Qed.

Lemma lookup_set_builtin l i d j :
  set_builtin l i d !! j = if decide (i = j) then Some (Some d)
                           else if decide (j < length l)%nat then l !! j
                           else if decide (j < S i)%nat then Some None else None.
Proof.
  unfold set_builtin. case_decide as E.
  - subst j. apply list_lookup_insert_eq. rewrite length_app, length_replicate. lia.
  - rewrite list_lookup_insert_ne by done. case_decide.
    + by rewrite lookup_app_l by done.
    + rewrite lookup_app_r by lia. case_decide.
      * apply lookup_replicate. split; [done|lia].
      * apply lookup_replicate_None. lia.
Qed.

Section RecognizedSet.
Context `{Sha256Hash}.

Lemma add_feature_ok pfs f pfs' : feature_set_ok pfs -> add_feature pfs f = Ok pfs' -> feature_set_ok pfs'.
Proof.
  intros [Hix Hdep] Hadd. unfold add_feature in Hadd.
  destruct (find_spec (_codename f)) as [spec|] eqn:Hspec; [|done]. cbv zeta in Hadd. inv_result.
  rename E into Hfree, E1 into Hsat, E2 into Hsize, E3 into Hnew.
  apply bool_decide_eq_true in Hfree, Hnew. apply Nat.leb_le in Hsize.
  assert (Hne : forall d' g, _recognized_protocol_features pfs !! d' = Some g -> Z.to_nat (_codename f) <> Z.to_nat (builtin_feature g)).
  { intros d' g Hg E. rewrite E in Hfree. by rewrite (proj2 (Hix _ _ Hg)) in Hfree. }
  split; cbn; intros d' g; (destruct (decide (d' = x)) as [->|Hda];
    [rewrite lookup_insert_eq; intros [= <-]|rewrite lookup_insert_ne by done; intros Hg]); cbn.
  - split; [by eapply find_spec_bounds|]. by rewrite lookup_set_builtin, decide_True.
  - destruct (Hix _ _ Hg) as [Hb Hl]. split; [done|].
    rewrite lookup_set_builtin, decide_False by (by eapply Hne).
    by rewrite decide_True by (by eapply lookup_lt_Some).
  - exists spec. split; [done|]. intros c Hc.
    destruct (satisfied_builtin_dependencies_all _ _ _ _ Hsat Hsize c Hc) as (d & g & ? & Hg & ?).
    exists d, g. split_and!; [done| |done]. rewrite lookup_insert_ne; [done|]. by intros <-; rewrite Hnew in Hg.
  - destruct (Hdep _ _ Hg) as (sp & ? & Hall). exists sp. split; [done|]. intros c Hc.
    destruct (Hall c Hc) as (d & g' & ? & Hg' & ?). exists d, g'. split_and!; [done| |done].
    rewrite lookup_insert_ne; [done|]. by intros <-; rewrite Hnew in Hg'.
Qed.

Lemma built_ok pfs : feature_set_built pfs -> feature_set_ok pfs.
Proof. induction 1; [by split|by eapply add_feature_ok]. Qed.
End RecognizedSet.

Lemma builtin_injective pfs d1 d2 f1 f2 : feature_set_ok pfs ->
  _recognized_protocol_features pfs !! d1 = Some f1 -> _recognized_protocol_features pfs !! d2 = Some f2 ->
  Z.to_nat (builtin_feature f1) = Z.to_nat (builtin_feature f2) -> d1 = d2 /\ f1 = f2.
Proof.
  intros Hok H1 H2 E. pose proof (proj2 (fs_indexed _ Hok _ _ H1)) as E1. pose proof (proj2 (fs_indexed _ Hok _ _ H2)) as E2.
  rewrite E in E1. simplify_eq. done.
Qed.

(** ** The history of the manager *)

(** [m] is what activating the features of [l] in order gives. *)
Record represents (pfs : protocol_feature_set) (l : list (digest_type * Z)) (m : protocol_feature_manager) : Prop := {
  rp_set : _protocol_feature_set m = pfs;
  rp_init : _initialized m = true;
  rp_list : _activated_protocol_features m = l;
  rp_length : length (_builtin_protocol_features m) = length (_recognized_builtin_protocol_features pfs);
  rp_inactive : forall i e, _builtin_protocol_features m !! i = Some e -> activation_block_num e = not_active -> e = inactive_entry;
  rp_active : forall d b, (d, b) ∈ l -> b <> not_active /\ exists f e, _recognized_protocol_features pfs !! d = Some f /\
    _builtin_protocol_features m !! Z.to_nat (builtin_feature f) = Some e /\ activation_block_num e = b;
  rp_entry : forall i e, _builtin_protocol_features m !! i = Some e -> activation_block_num e <> not_active ->
    exists d f, (d, activation_block_num e) ∈ l /\ _recognized_protocol_features pfs !! d = Some f /\ Z.to_nat (builtin_feature f) = i;
  rp_head : match last l with
            | None => _head_of_builtin_activation_list m = no_previous
            | Some x => _head_of_builtin_activation_list m <> no_previous /\
                exists e, _builtin_protocol_features m !! Z.to_nat (_head_of_builtin_activation_list m) = Some e /\ activation_block_num e = x.2
            end
}.

Definition activate_list (m : protocol_feature_manager) (l : list (digest_type * Z)) : result protocol_feature_manager :=
  foldM (fun m f => activate_feature m f.1 f.2) m l.

Definition initialized_manager (pfs : protocol_feature_set) : protocol_feature_manager :=
  ProtocolFeatureManager pfs [] (replicate (length (_recognized_builtin_protocol_features pfs)) inactive_entry) no_previous true.

Lemma init_activate_list pfs l : init (new_feature_manager pfs) l = activate_list (initialized_manager pfs) l.
Proof. done. Qed.

Lemma represents_initialized pfs : represents pfs [] (initialized_manager pfs).
Proof.
  split; cbn; try done.
  - by rewrite length_replicate.
  - intros i e [-> _]%lookup_replicate _. done.
  - by intros d b ?%elem_of_nil.
  - intros i e [-> _]%lookup_replicate Hne. done.
Qed.

(** What activating a feature needs, and what it does. *)
Lemma activate_feature_Ok m d b m' : activate_feature m d b = Ok m' <->
  _initialized m = true /\ exists f e, _recognized_protocol_features (_protocol_feature_set m) !! d = Some f /\
    match last (_activated_protocol_features m) with Some l => l.2 <= b | None => True end /\
    _builtin_protocol_features m !! Z.to_nat (builtin_feature f) = Some e /\ activation_block_num e = not_active /\
    m' = ProtocolFeatureManager (_protocol_feature_set m) (_activated_protocol_features m ++ [(d, b)])
           (<[Z.to_nat (builtin_feature f) := BuiltinEntry (_head_of_builtin_activation_list m) b]> (_builtin_protocol_features m))
           (builtin_feature f) (_initialized m).
Proof.
  unfold activate_feature. split.
  - intros Hok. inv_result. split; [done|].
    destruct (_recognized_protocol_features _ !! d) as [f|]; [|done]. inv_result.
    destruct (_builtin_protocol_features m !! _) as [e|] eqn:He; [|done]. inv_result.
    exists f, e. split_and!; try done; [|by apply Z.eqb_eq]. destruct (last _); [by apply Z.leb_le|done].
  - intros (-> & f & e & -> & Hlast & -> & Hna & ->).
    pass_with ltac:(destruct (last _); [by apply Z.leb_le|done]). by rewrite Hna.
Qed.

Lemma represents_activate pfs l m d b m' : feature_set_ok pfs -> represents pfs l m -> b < not_active ->
  activate_feature m d b = Ok m' -> represents pfs (l ++ [(d, b)]) m'.
Proof.
  intros Hok [Hs Hi Hl Hlen Hin Hac Hen Hh] Hb (_ & f & e & Hf & Hlast & He & Hna & ->)%activate_feature_Ok.
  subst pfs l. pose proof (fs_indexed _ Hok _ _ Hf) as [Hbf _].
  pose proof (lookup_lt_Some _ _ _ He) as Hlt.
  split; cbn; try done.
  - by rewrite length_insert.
  - intros i e' [(<- & <- & _)|[_ Hi']]%list_lookup_insert_Some; cbn; [lia|by apply Hin with i].
  - intros d' b' [Hd|[= -> ->]%list_elem_of_singleton]%elem_of_app.
    + destruct (Hac _ _ Hd) as (Hb' & f' & e' & Hf' & He' & <-). split; [done|]. exists f', e'.
      split_and!; [done| |done]. rewrite list_lookup_insert_ne; [done|]. intros E. rewrite E in He. congruence.
    + split; [lia|]. eexists f, _. split_and!; [done|by apply list_lookup_insert_eq|done].
  - intros i e' [(<- & <- & _)|[_ Hi']]%list_lookup_insert_Some Hne; cbn in *.
    + exists d, f. split_and!; [|done|done]. apply elem_of_app. right. by apply list_elem_of_singleton.
    + destruct (Hen _ _ Hi' Hne) as (d' & f' & ? & ? & ?). exists d', f'. split_and!; [|done|done]. apply elem_of_app. by left.
  - rewrite last_snoc. split; [unfold no_previous, size_t_max; unfold_widths; lia|].
    eexists. split; [by apply list_lookup_insert_eq|done].
Qed.

Lemma pop_activated_all n l : Forall (fun f => f.2 <= n) l -> pop_activated n l = l.
Proof. unfold pop_activated. induction 1 as [|f l Hf _ IH]; cbn; [done|]. rewrite IH. destruct l; [|done]. by rewrite (proj2 (Z.ltb_ge _ _) Hf). Qed.

Lemma pop_activated_snoc n l d b : n < b -> pop_activated n (l ++ [(d, b)]) = pop_activated n l.
Proof.
  intros Hb. unfold pop_activated. induction l as [|f l IH]; cbn; [by rewrite (proj2 (Z.ltb_lt _ _) Hb)|]. by rewrite IH.
Qed.

(** Popping to a block after all the activations changes nothing. *)
Lemma popped_blocks_to_id pfs l m n : represents pfs l m -> Forall (fun f => f.2 <= n) l -> popped_blocks_to m n = Ok m.
Proof.
  intros [Hs Hi Hl Hlen Hin Hac Hen Hh] Hn. unfold popped_blocks_to. rewrite Hi, Hl, (pop_activated_all _ _ Hn). cbn.
  destruct m as [s a bs h i]; cbn in *. subst s a i.
  destruct (last l) as [x|] eqn:El.
  - destruct Hh as (Hne & e & He & Ha). rewrite (proj2 (Z.eqb_neq _ _) Hne), He. cbn.
    rewrite Ha. apply last_Some in El as [l' ->]. apply Forall_app in Hn as [_ [Hn _]%Forall_cons].
    by rewrite (proj2 (Z.leb_le _ _) Hn).
  - by rewrite Hh.
Qed.

(** Popping the last activation is undoing it. *)
Lemma popped_blocks_to_activate pfs l m n d b m' : feature_set_ok pfs -> represents pfs l m ->
  activate_feature m d b = Ok m' -> n < b -> popped_blocks_to m' n = popped_blocks_to m n.
Proof.
  intros Hok [Hs Hi Hl Hlen Hin Hac Hen Hh] (_ & f & e & Hf & _ & He & Hna & ->)%activate_feature_Ok Hb.
  subst pfs. unfold popped_blocks_to. cbn [_initialized _activated_protocol_features _builtin_protocol_features
    _head_of_builtin_activation_list _protocol_feature_set]. rewrite Hi, pop_activated_snoc by done. cbn beta iota.
  destruct (fs_indexed _ Hok _ _ Hf) as [Hbf _]. rewrite length_app, Nat.add_1_r. cbn [pop_builtins].
  rewrite (proj2 (Z.eqb_neq (builtin_feature f) no_previous)) by (unfold no_previous, size_t_max; unfold_widths; lia).
  rewrite list_lookup_insert_eq by (by eapply lookup_lt_Some). cbn.
  rewrite (proj2 (Z.leb_gt _ _)) by lia. rewrite list_insert_insert_eq.
  rewrite <- (Hin _ _ He Hna), (list_insert_id _ _ _ He). done.
Qed.

Lemma activate_list_represents pfs l m l' m' : feature_set_ok pfs -> represents pfs l m ->
  Forall (fun f => f.2 < not_active) l' -> activate_list m l' = Ok m' -> represents pfs (l ++ l') m'.
Proof.
  intros Hok Hm Hb. revert l m Hm. induction Hb as [|f l' Hf _ IH]; cbn; intros l m Hm H; inv_result.
  - by rewrite app_nil_r.
  - rewrite (cons_middle f), app_assoc. destruct f as [d b]. eapply IH; [|done]. by eapply represents_activate.
Qed.

(** Going back to a block undoes the activations after it. *)
Lemma popped_blocks_to_activate_list pfs l m n l' m' : feature_set_ok pfs -> represents pfs l m ->
  Forall (fun f => f.2 <= n) l -> Forall (fun f => n < f.2 < not_active) l' -> activate_list m l' = Ok m' ->
  popped_blocks_to m' n = Ok m.
Proof.
  intros Hok Hm Hn. revert m'. induction l' as [|[d b] l' IH] using rev_ind; cbn; intros m' Hb H.
  - inv_result. by eapply popped_blocks_to_id.
  - apply Forall_app in Hb as [Hb [Hdb _]%Forall_cons].
    unfold activate_list in H. rewrite foldM_app in H. cbn in H. inv_result.
    rewrite <- (IH x) by done. eapply popped_blocks_to_activate; [done| |done|cbn in *; lia].
    eapply activate_list_represents; [done..| |done]. eapply Forall_impl; [done|]. cbn. lia.
Qed.

(** What [is_builtin_activated] says: a feature of the builtin was activated at
    that block or before. *)
Lemma is_builtin_activated_iff pfs l m c n : feature_set_ok pfs -> represents pfs l m -> n < not_active -> 0 <= c ->
  is_builtin_activated m c n = true <->
  exists d b f, (d, b) ∈ l /\ b <= n /\ _recognized_protocol_features pfs !! d = Some f /\ builtin_feature f = c.
Proof.
  intros Hok [Hs Hi Hl Hlen Hin Hac Hen Hh] Hn Hc. unfold is_builtin_activated. split.
  - destruct (_builtin_protocol_features m !! Z.to_nat c) as [e|] eqn:He; [|done]. intros Ha%Z.leb_le.
    destruct (Hen _ _ He ltac:(lia)) as (d & f & Hd & Hf & E). exists d, (activation_block_num e), f. split_and!; try done.
    destruct (fs_indexed _ Hok _ _ Hf). lia.
  - intros (d & b & f & Hd & Hb & Hf & <-). destruct (Hac _ _ Hd) as (_ & f' & e & Hf' & He & <-).
    rewrite Hf in Hf'. injection Hf' as <-. rewrite He. by apply Z.leb_le.
Qed.

Lemma represents_lookup_inactive pfs l m d f : feature_set_ok pfs -> represents pfs l m ->
  _recognized_protocol_features pfs !! d = Some f -> d ∉ l.*1 ->
  exists e, _builtin_protocol_features m !! Z.to_nat (builtin_feature f) = Some e /\ activation_block_num e = not_active.
Proof.
  intros Hok [Hs Hi Hl Hlen Hin Hac Hen Hh] Hf Hd. destruct (fs_indexed _ Hok _ _ Hf) as [_ Hix].
  apply lookup_lt_Some in Hix. rewrite <- Hlen in Hix. apply lookup_lt_is_Some_2 in Hix as [e He]. exists e. split; [done|].
  destruct (decide (activation_block_num e = not_active)) as [|Hne]; [done|]. exfalso. apply Hd.
  destruct (Hen _ _ He Hne) as (d' & f' & Hd' & Hf' & E).
  destruct (builtin_injective _ _ _ _ _ Hok Hf' Hf E) as [-> _]. apply list_elem_of_fmap. by eexists (_, _).
Qed.
