(* ===== verification/FeatureActivation.v ===== *)
(** * Activation of protocol features by the controller

    [controller.cpp]: [check_protocol_features], [preactivate_feature], the part
    of [start_block] that activates features, [abort_block], [commit_block] and
    [pop_block], for blocks that are applied in a database session.  The node is
    the manager of features, what the database says of them, the features that
    the header of the head block lists, and the undo stack.

    The manager is not in the database: the controller has to keep the two
    together by hand.  That it does is [feature_manager_is_database_history]. *)

From S2P Require Import Prelude ChainTypes Policies Raw BlockHeader BlockHeaderState ProtocolFeatures.
Open Scope Z_scope.

(** The part of [protocol_state_object] that is about features. *)
Record protocol_state_object : Set := ProtocolStateObject {
  activated_protocol_features : list (digest_type * Z);
  preactivated_protocol_features : list digest_type
}.

Inductive block_status : Set := irreversible | validated | complete | incomplete | ephemeral.
#[export] Instance block_status_eq_dec : EqDecision block_status.
Proof. solve_decision. Defined.

(** [_db_session] is what undoing the session restores. *)
Record pending_state : Set := PendingState {
  _db_session : protocol_state_object;
  _block_status : block_status;
  new_protocol_feature_activations : list digest_type;
  num_new_protocol_features_that_have_activated : nat
}.

(** The undo stack has the database at the previous blocks, the last one first. *)
Record controller_impl : Type := ControllerImpl {
  protocol_features : protocol_feature_manager;
  db : protocol_state_object;
  undo_stack : list (protocol_state_object * gset digest_type);
  chain_head_block_num : Z;
  head_activated_protocol_features : gset digest_type;
  pending : option pending_state
}.

Definition recognized (c : controller_impl) : protocol_feature_set := _protocol_feature_set (protocol_features c).
Definition set_features (c : controller_impl) (m : protocol_feature_manager) : controller_impl :=
  ControllerImpl m (db c) (undo_stack c) (chain_head_block_num c) (head_activated_protocol_features c) (pending c).
Definition set_db (c : controller_impl) (pso : protocol_state_object) : controller_impl :=
  ControllerImpl (protocol_features c) pso (undo_stack c) (chain_head_block_num c) (head_activated_protocol_features c) (pending c).
Definition set_pending (c : controller_impl) (p : option pending_state) : controller_impl :=
  ControllerImpl (protocol_features c) (db c) (undo_stack c) (chain_head_block_num c) (head_activated_protocol_features c) p.

(** ** Checks *)

(** [seen]: the new features before [itr]. *)
Fixpoint check_protocol_features_from (pfs : protocol_feature_set) (timestamp : Z) (currently_activated : gset digest_type)
    (seen new_protocol_features : list digest_type) : result unit :=
  match new_protocol_features with
  | [] => Ok tt
  | f :: rest =>
      match is_recognized pfs f timestamp with
      | unrecognized => Throw protocol_feature_exception
      | disabled => Throw protocol_feature_exception
      | too_early => Throw protocol_feature_exception
      | ready =>
          EOS_ASSERT negb (bool_decide (f ∈ currently_activated)) ,, protocol_feature_exception ;;
          EOS_ASSERT validate_dependencies pfs f (fun d => bool_decide (d ∈ currently_activated) || bool_decide (d ∈ seen)) ,,
            protocol_feature_exception ;;
          check_protocol_features_from pfs timestamp currently_activated (seen ++ [f]) rest
      end
  end.

Definition check_protocol_features (pfs : protocol_feature_set) (timestamp : Z) (currently_activated : gset digest_type)
    (new_protocol_features : list digest_type) : result unit :=
  check_protocol_features_from pfs timestamp currently_activated [] new_protocol_features.

Definition is_protocol_feature_activated (c : controller_impl) (d : digest_type) : bool :=
  bool_decide (d ∈ head_activated_protocol_features c) ||
  match pending c with
  | None => false
  | Some p => bool_decide (d ∈ take (num_new_protocol_features_that_have_activated p) (new_protocol_feature_activations p))
  end.

Definition is_speculative_block (c : controller_impl) : bool :=
  match pending c with
  | None => false
  | Some p => match _block_status p with incomplete | ephemeral => true | _ => false end
  end.

Definition controller_is_builtin_activated (c : controller_impl) (feature_codename : Z) : bool :=
  is_builtin_activated (protocol_features c) feature_codename
    (match pending c with None => chain_head_block_num c | Some _ => chain_head_block_num c + 1 end).

(** The intrinsic [preactivate_feature]; [cur_time] is the pending block's. *)
Definition preactivate_feature (c : controller_impl) (cur_time : Z) (d : digest_type) : result controller_impl :=
  let subjective := if is_speculative_block c then subjective_block_production_exception else protocol_feature_bad_block_exception in
  match is_recognized (recognized c) d cur_time with
  | unrecognized => Throw subjective
  | disabled => Throw subjective
  | too_early => Throw subjective
  | ready =>
      EOS_ASSERT negb (is_protocol_feature_activated c d) ,, protocol_feature_exception ;;
      EOS_ASSERT negb (bool_decide (d ∈ preactivated_protocol_features (db c))) ,, protocol_feature_exception ;;
      EOS_ASSERT validate_dependencies (recognized c) d
          (fun d => is_protocol_feature_activated c d || bool_decide (d ∈ preactivated_protocol_features (db c))) ,,
        protocol_feature_exception ;;
      Ok (set_db c (ProtocolStateObject (activated_protocol_features (db c)) (preactivated_protocol_features (db c) ++ [d])))
  end.

(** ** Blocks *)

(** The body of the loop of [start_block] over the new features: the map of the
    features handled so far, how many of them were preactivated. *)
Definition activate_one (block_num : Z) (m : protocol_feature_manager) (handled : gmap digest_type bool) (num : nat) (d : digest_type) :
    result (protocol_feature_manager * gmap digest_type bool * nat) :=
  f ← get_protocol_feature (_protocol_feature_set m) d;
  h ← match handled !! d with
      | None => EOS_ASSERT negb (preactivation_required (pf_restrictions f)) ,, protocol_feature_exception ;; Ok (<[d := true]> handled, num)
      | Some seen => EOS_ASSERT negb seen ,, block_validate_exception ;; Ok (<[d := true]> handled, S num)
      end;
  m ← activate_feature m d block_num;
  Ok (m, h.1, h.2).

(** An exception leaves the features activated before it in the manager. *)
Fixpoint activate_new (block_num : Z) (m : protocol_feature_manager) (handled : gmap digest_type bool) (num : nat)
    (new : list digest_type) : protocol_feature_manager * result nat :=
  match new with
  | [] => (m, Ok num)
  | d :: new =>
      match activate_one block_num m handled num d with
      | Throw e => (m, Throw e)
      | Ok st => activate_new block_num st.1.1 st.1.2 st.2 new
      end
  end.

(** [guard_pending] and [abort_block]: undo the session, pop the manager. *)
Definition abandon_pending (c : controller_impl) (p : pending_state) : result controller_impl :=
  m ← popped_blocks_to (protocol_features c) (chain_head_block_num c);
  Ok (set_pending (set_db (set_features c m) (_db_session p)) None).

(** The node afterwards, and whether the call returned or threw. *)
Definition start_block (c : controller_impl) (s : block_status) (new_activations : list digest_type) : result (controller_impl * result unit) :=
  match pending c with
  | Some _ => Ok (c, Throw block_validate_exception)
  | None =>
      let p := PendingState (db c) s new_activations 0 in
      if decide (s = ephemeral) then Ok (set_pending c (Some p), Ok tt)
      else
        let block_num := chain_head_block_num c + 1 in
        let preactivated := preactivated_protocol_features (db c) in
        let loop := activate_new block_num (protocol_features c) (list_to_map ((fun d => (d, false)) <$> preactivated)) 0 new_activations in
        let c1 := set_features c loop.1 in
        match num ← loop.2;
              EOS_ASSERT (length preactivated =? 0)%nat || ((0 <? length new_activations)%nat && (num =? length preactivated)%nat) ,,
                block_validate_exception ;;
              Ok tt
        with
        | Throw e => c2 ← abandon_pending c1 p; Ok (c2, Throw e)
        | Ok _ =>
            let pso := match new_activations with
                       | [] => db c
                       | _ => ProtocolStateObject (activated_protocol_features (db c) ++ ((fun d => (d, block_num)) <$> new_activations)) []
                       end in
            Ok (set_pending (set_db c1 pso) (Some (PendingState (db c) s new_activations (length new_activations))), Ok tt)
        end
  end.

Definition abort_block (c : controller_impl) : result controller_impl :=
  match pending c with Some p => abandon_pending c p | None => Ok c end.

(** [commit_block] of a block that was completed; the header of the new head
    lists the block's new features too. *)
Definition commit_block (c : controller_impl) : result controller_impl :=
  match pending c with
  | None => Throw block_validate_exception
  | Some p =>
      Ok (ControllerImpl (protocol_features c) (db c)
            ((_db_session p, head_activated_protocol_features c) :: undo_stack c)
            (chain_head_block_num c + 1)
            (list_to_set (new_protocol_feature_activations p) ∪ head_activated_protocol_features c) None)
  end.

(** There is nothing to undo at the last irreversible block. *)
Definition pop_block (c : controller_impl) : result controller_impl :=
  match undo_stack c with
  | [] => Throw block_validate_exception
  | (pso, fs) :: stack =>
      m ← popped_blocks_to (protocol_features c) (chain_head_block_num c - 1);
      Ok (ControllerImpl m pso stack (chain_head_block_num c - 1) fs (pending c))
  end.

(** The controller on a database: a new manager, initialized from it. *)
Definition start_controller (pfs : protocol_feature_set) (pso : protocol_state_object) (stack : list (protocol_state_object * gset digest_type))
    (head_num : Z) (fs : gset digest_type) : result controller_impl :=
  m ← init (new_feature_manager pfs) (activated_protocol_features pso);
  Ok (ControllerImpl m pso stack head_num fs None).

(** ** Runs of a node *)

Inductive reachable (pfs : protocol_feature_set) : controller_impl -> Prop :=
| reach_genesis n c : n < not_active ->
    start_controller pfs (ProtocolStateObject [] []) [] n ∅ = Ok c -> reachable pfs c
| reach_restart c c' : reachable pfs c ->   (* a pending block is undone on the way up *)
    start_controller pfs (match pending c with Some p => _db_session p | None => db c end) (undo_stack c)
      (chain_head_block_num c) (head_activated_protocol_features c) = Ok c' -> reachable pfs c'
| reach_snapshot c c' : reachable pfs c -> pending c = None ->
    start_controller pfs (db c) [] (chain_head_block_num c) (head_activated_protocol_features c) = Ok c' -> reachable pfs c'
| reach_start c now s new_activations r c' : reachable pfs c -> chain_head_block_num c + 1 < not_active ->
    check_protocol_features pfs now (head_activated_protocol_features c) new_activations = Ok tt ->
    start_block c s new_activations = Ok (c', r) -> reachable pfs c'
| reach_preactivate c p now d c' : reachable pfs c -> pending c = Some p -> preactivate_feature c now d = Ok c' -> reachable pfs c'
| reach_abort c c' : reachable pfs c -> abort_block c = Ok c' -> reachable pfs c'
| reach_commit c p c' : reachable pfs c -> pending c = Some p -> _block_status p <> ephemeral ->
    commit_block c = Ok c' -> reachable pfs c'
| reach_pop c c' : reachable pfs c -> pending c = None -> pop_block c = Ok c' -> reachable pfs c'
| reach_irreversible c k : reachable pfs c ->   (* the database forgets how to undo irreversible blocks *)
    reachable pfs (ControllerImpl (protocol_features c) (db c) (take k (undo_stack c)) (chain_head_block_num c)
                     (head_activated_protocol_features c) (pending c)).

(** ** The invariant *)

(** Distinct recognized features, each after its dependencies. *)
Inductive dep_ordered (pfs : protocol_feature_set) : list digest_type -> Prop :=
| dep_nil : dep_ordered pfs []
| dep_snoc l d f : dep_ordered pfs l -> ~ (d ∈ l) -> _recognized_protocol_features pfs !! d = Some f ->
    (forall x, (x ∈ dependencies f) -> (x ∈ l)) -> dep_ordered pfs (l ++ [d]).

Lemma dep_ordered_snoc_inv pfs l d : dep_ordered pfs (l ++ [d]) ->
  dep_ordered pfs l /\ (d ∉ l) /\ exists f, _recognized_protocol_features pfs !! d = Some f /\ forall x, x ∈ dependencies f -> x ∈ l.
Proof.
  inversion 1 as [E|l' d' f Hl Hd Hf Hx E]; [by destruct l|].
  apply app_inj_tail in E as [-> ->]. split_and!; [done..|by exists f].
Qed.

Lemma dep_ordered_prefix pfs l l' : dep_ordered pfs (l ++ l') -> dep_ordered pfs l.
Proof.
  induction l' as [|d l' IH] using rev_ind; [by rewrite app_nil_r|].
  rewrite app_assoc. intros [H _]%dep_ordered_snoc_inv. by apply IH.
Qed.

(** In such a list a feature's dependencies are in it. *)
Lemma dep_ordered_closed pfs l d f : dep_ordered pfs l -> d ∈ l -> _recognized_protocol_features pfs !! d = Some f ->
  forall x, x ∈ dependencies f -> x ∈ l.
Proof.
  induction 1 as [|l d' f' Hl IH Hd' Hf' Hx]; [by intros ?%elem_of_nil|].
  intros [Hd|Hd%list_elem_of_singleton]%elem_of_app Hf x Hin; apply elem_of_app; left; [by apply IH|]. subst d'.
  apply Hx. congruence.
Qed.

Definition ordered_state (pfs : protocol_feature_set) (pso : protocol_state_object) : Prop :=
  dep_ordered pfs ((activated_protocol_features pso).*1 ++ preactivated_protocol_features pso).

(** The database at block [n], whose header lists the features [fs]. *)
Definition block_ok (pfs : protocol_feature_set) (pso : protocol_state_object) (n : Z) (fs : gset digest_type) : Prop :=
  ordered_state pfs pso /\ Forall (fun f => f.2 <= n) (activated_protocol_features pso) /\
  fs = list_to_set (activated_protocol_features pso).*1 /\ n < not_active.

Definition at_block (n : Z) (ds : list digest_type) : list (digest_type * Z) := (fun d => (d, n)) <$> ds.

Fixpoint undo_ok (pfs : protocol_feature_set) (l : list (digest_type * Z)) (n : Z) (stack : list (protocol_state_object * gset digest_type)) : Prop :=
  match stack with
  | [] => True
  | (pso, fs) :: stack =>
      (exists new_activations, l = activated_protocol_features pso ++ at_block n new_activations) /\
      block_ok pfs pso (n - 1) fs /\ undo_ok pfs (activated_protocol_features pso) (n - 1) stack
  end.

(** The database at the head block. *)
Definition head_db (c : controller_impl) : protocol_state_object :=
  match pending c with None => db c | Some p => _db_session p end.

(** The features that the pending block activated. *)
Definition activated_by (p : pending_state) : list digest_type :=
  if decide (_block_status p = ephemeral) then [] else new_protocol_feature_activations p.

Definition pending_ok (pfs : protocol_feature_set) (pso : protocol_state_object) (n : Z) (p : pending_state) : Prop :=
  ordered_state pfs pso /\ n + 1 < not_active /\
  activated_protocol_features pso = activated_protocol_features (_db_session p) ++ at_block (n + 1) (activated_by p) /\
  num_new_protocol_features_that_have_activated p = length (activated_by p).

Record controller_ok (pfs : protocol_feature_set) (c : controller_impl) : Prop := {
  co_manager : init (new_feature_manager pfs) (activated_protocol_features (db c)) = Ok (protocol_features c);
  co_head : block_ok pfs (head_db c) (chain_head_block_num c) (head_activated_protocol_features c);
  co_undo : undo_ok pfs (activated_protocol_features (head_db c)) (chain_head_block_num c) (undo_stack c);
  co_pending : match pending c with None => True | Some p => pending_ok pfs (db c) (chain_head_block_num c) p end
}.

Section Run.
Context {pfs : protocol_feature_set} (Hpfs : feature_set_ok pfs).

Lemma at_block_fst n ds : (at_block n ds).*1 = ds.
Proof. unfold at_block. rewrite <- list_fmap_compose. by apply list_fmap_id. Qed.

Lemma at_block_Forall (P : Z -> Prop) n ds : P n -> Forall (fun f : digest_type * Z => P f.2) (at_block n ds).
Proof. intros H. unfold at_block. apply Forall_fmap. by apply Forall_true. Qed.

Lemma init_represents l m : Forall (fun f => f.2 < not_active) l -> init (new_feature_manager pfs) l = Ok m -> represents pfs l m.
Proof.
  rewrite init_activate_list. intros Hl H. by eapply (activate_list_represents pfs [] (initialized_manager pfs)) in H;
    [|done|apply represents_initialized|done].
Qed.

Lemma init_app l l' m : init (new_feature_manager pfs) (l ++ l') = Ok m <->
  exists m0, init (new_feature_manager pfs) l = Ok m0 /\ activate_list m0 l' = Ok m.
Proof. rewrite !init_activate_list. unfold activate_list. by rewrite foldM_app, bind_Ok_iff. Qed.

Lemma block_ok_bound pso n fs : block_ok pfs pso n fs -> Forall (fun f => f.2 < not_active) (activated_protocol_features pso).
Proof. intros (_ & H & _ & Hn). eapply Forall_impl; [exact H|]. cbn. lia. Qed.

(** The manager at the head, when the activations since are popped. *)
Lemma popped_to_block pso n fs b ds m : block_ok pfs pso n fs -> n < b < not_active ->
  init (new_feature_manager pfs) (activated_protocol_features pso ++ at_block b ds) = Ok m ->
  exists m0, init (new_feature_manager pfs) (activated_protocol_features pso) = Ok m0 /\ popped_blocks_to m n = Ok m0.
Proof.
  intros Hb Hn (m0 & H0 & H)%init_app. exists m0. split; [done|].
  eapply popped_blocks_to_activate_list; [done| | | |exact H].
  - apply init_represents; [by eapply block_ok_bound|done].
  - apply Hb.
  - by apply (at_block_Forall (fun x => n < x < not_active)).
Qed.

(** *** Checks keep the order *)

Lemma check_from_Ok now cur seen f rest : check_protocol_features_from pfs now cur seen (f :: rest) = Ok tt <->
  is_recognized pfs f now = ready /\ (f ∉ cur) /\
  (exists pf, _recognized_protocol_features pfs !! f = Some pf /\ forall x, (x ∈ dependencies pf) -> (x ∈ cur) \/ (x ∈ seen)) /\
  check_protocol_features_from pfs now cur (seen ++ [f]) rest = Ok tt.
Proof.
  cbn. unfold validate_dependencies. split.
  - intros H. destruct (is_recognized pfs f now) eqn:Er; try done. inv_result.
    apply negb_true_iff, bool_decide_eq_false in E. split_and!; try done.
    destruct (_recognized_protocol_features pfs !! f) as [pf|]; [|done]. exists pf. split; [done|].
    intros x Hx. rewrite forallb_forall in E0. apply list_elem_of_In in Hx. specialize (E0 x Hx).
    by apply orb_true_iff in E0 as [?%bool_decide_eq_true|?%bool_decide_eq_true]; [left|right].
  - intros (-> & Hf & (pf & -> & Hx) & Hrest). rewrite bool_decide_false by done. cbn.
    pass_with ltac:(apply forallb_forall; intros x Hin%list_elem_of_In; apply orb_true_iff;
      destruct (Hx x Hin); [left|right]; by apply bool_decide_eq_true). done.
Qed.

Lemma check_from_ordered now l seen new_activations : dep_ordered pfs (l ++ seen) -> NoDup (seen ++ new_activations) ->
  check_protocol_features_from pfs now (list_to_set l) seen new_activations = Ok tt -> dep_ordered pfs (l ++ seen ++ new_activations).
Proof.
  revert seen. induction new_activations as [|f new_activations IH]; intros seen Hl Hnd H; [by rewrite app_nil_r|].
  apply check_from_Ok in H as (_ & Hf & (pf & Hpf & Hx) & H).
  rewrite (cons_middle f), (app_assoc seen). rewrite (cons_middle f), app_assoc in Hnd. apply (IH (seen ++ [f])); [|done|done].
  rewrite app_assoc. apply dep_snoc with pf; [done| |done|].
  - rewrite elem_of_app. intros [Hin|Hin]; [by apply Hf, elem_of_list_to_set|].
    apply NoDup_app in Hnd as [Hnd _]. apply NoDup_app in Hnd as (_ & Hnd & _). apply (Hnd f Hin). by left.
  - intros x Hin. rewrite elem_of_app. destruct (Hx x Hin) as [?%elem_of_list_to_set|?]; auto.
Qed.

Lemma ordered_check_from now l seen new_activations : dep_ordered pfs (l ++ seen ++ new_activations) ->
  (forall d, d ∈ new_activations -> is_recognized pfs d now = ready) ->
  check_protocol_features_from pfs now (list_to_set l) seen new_activations = Ok tt.
Proof.
  revert seen. induction new_activations as [|f new_activations IH]; intros seen Hl Hr; [done|].
  rewrite (cons_middle f), (app_assoc seen) in Hl. apply check_from_Ok.
  pose proof Hl as Hl'. rewrite app_assoc in Hl'. apply dep_ordered_prefix in Hl'. rewrite app_assoc in Hl'.
  apply dep_ordered_snoc_inv in Hl' as (_ & Hf & pf & Hpf & Hx).
  split_and!.
  - apply Hr. by left.
  - rewrite elem_of_list_to_set. set_solver.
  - exists pf. split; [done|]. intros x Hin. rewrite elem_of_list_to_set. by apply elem_of_app, Hx.
  - apply IH; [done|]. intros d Hd. apply Hr. by right.
Qed.

(** *** The activation loop *)

Lemma activate_one_Ok bn m handled num d st : activate_one bn m handled num d = Ok st ->
  activate_feature m d bn = Ok st.1.1.
Proof. unfold activate_one. intros H. inv_result. done. Qed.

Lemma activate_new_spec bn m handled num new_activations m' r :
  activate_new bn m handled num new_activations = (m', r) ->
  exists now_active rest, new_activations = now_active ++ rest /\ activate_list m (at_block bn now_active) = Ok m' /\
    (is_ok r = true -> rest = []).
Proof.
  revert m handled num. induction new_activations as [|d new_activations IH]; cbn; intros m handled num H.
  - injection H as <- <-. by exists [], [].
  - destruct (activate_one bn m handled num d) as [st|e] eqn:E.
    + apply IH in H as (now_active & rest & -> & H & Hr). exists (d :: now_active), rest. split_and!; [done| |done].
      cbn. by rewrite (activate_one_Ok _ _ _ _ _ _ E).
    + injection H as <- <-. by exists [], (d :: new_activations).
Qed.

Lemma activate_feature_fresh l m d b m' : represents pfs l m -> activate_feature m d b = Ok m' -> d ∉ l.*1.
Proof.
  intros Hm (_ & f & e & Hf & _ & He & Hna & _)%activate_feature_Ok ([d' b'] & -> & Hin)%list_elem_of_fmap.
  destruct (rp_active _ _ _ Hm _ _ Hin) as (Hb & f' & e' & Hf' & He' & Ha). cbn in *.
  rewrite (rp_set _ _ _ Hm) in Hf. congruence.
Qed.

Lemma activate_list_NoDup l m b ds m' : represents pfs l m -> b < not_active ->
  activate_list m (at_block b ds) = Ok m' -> NoDup ds.
Proof.
  intros Hm Hb H. cut (NoDup ds /\ forall d, (d ∈ ds) -> (d ∉ l.*1)); [by intros []|].
  revert l m Hm H. induction ds as [|d ds IH]; cbn; intros l m Hm H; [by split; [constructor|intros d ?%elem_of_nil]|].
  inv_result. destruct (IH _ _ (represents_activate _ _ _ _ _ _ Hpfs Hm Hb E) H) as [Hnd Hdis].
  setoid_rewrite fmap_app in Hdis. cbn in Hdis. split.
  - constructor; [|done]. intros Hin. apply (Hdis d Hin). apply elem_of_app. right. by left.
  - intros d' [->|Hd']%elem_of_cons; [by eapply activate_feature_fresh|]. intros Hin. apply (Hdis d' Hd'), elem_of_app. by left.
Qed.

(** *** Every operation keeps the invariant *)

Lemma set_same c m : pending c = None -> m = protocol_features c ->
  set_pending (set_db (set_features c m) (db c)) None = c.
Proof. destruct c; cbn. by intros -> ->. Qed.

(** Undoing what a block did to the manager, the database being as [c] has it. *)
Lemma abandon_restores c ds m p : controller_ok pfs c -> pending c = None -> chain_head_block_num c + 1 < not_active ->
  activate_list (protocol_features c) (at_block (chain_head_block_num c + 1) ds) = Ok m -> _db_session p = db c ->
  abandon_pending (set_features c m) p = Ok c.
Proof.
  intros [Hm Hh Hu _] Hp Hn Hact Hs. unfold head_db in *. rewrite Hp in *.
  destruct (popped_to_block (db c) (chain_head_block_num c) _ (chain_head_block_num c + 1) ds m Hh ltac:(lia)) as (m0 & Hm0 & Hpop).
  { apply init_app. by eexists. }
  unfold abandon_pending. cbn. rewrite Hpop. cbn. rewrite Hs. f_equal.
  apply (set_same c m0); [done|congruence].
Qed.

(** Starting a block always returns, and an exception leaves no trace. *)
Lemma start_block_cases c s new_activations : controller_ok pfs c -> chain_head_block_num c + 1 < not_active ->
  exists c' r, start_block c s new_activations = Ok (c', r) /\
    match r with
    | Throw _ => c' = c
    | Ok _ => pending c = None /\
        if decide (s = ephemeral) then c' = set_pending c (Some (PendingState (db c) s new_activations 0))
        else exists m, activate_list (protocol_features c) (at_block (chain_head_block_num c + 1) new_activations) = Ok m /\
          (new_activations = [] -> preactivated_protocol_features (db c) = []) /\
          c' = set_pending (set_db (set_features c m)
                 (ProtocolStateObject (activated_protocol_features (db c) ++ at_block (chain_head_block_num c + 1) new_activations) []))
                 (Some (PendingState (db c) s new_activations (length new_activations)))
    end.
Proof.
  intros Hc Hn. unfold start_block. destruct (pending c) as [p|] eqn:Hp; [by eexists c, _|].
  destruct (decide (s = ephemeral)) as [->|Hs]; [by eexists _, (Ok tt)|].
  destruct (activate_new _ _ _ _ _) as [m r] eqn:Hl. cbn [fst snd]. cbv zeta.
  apply activate_new_spec in Hl as (ds & rest & Hds & Hact & Hrest).
  match goal with |- context [match ?body with Ok _ => _ | Throw _ => _ end] => destruct body as [u|ex] eqn:Er end.
  - assert (Hr : is_ok r = true) by (by destruct r). rewrite (Hrest Hr), app_nil_r in Hds. subst ds.
    apply bind_Ok in Er as (num & -> & Er). cbn beta in Er. destruct (_ || _) eqn:E in Er; [|done].
    eexists _, (Ok tt). split; [reflexivity|]. split; [done|]. exists m. split_and!; [done| |].
    + intros ->. apply orb_true_iff in E as [E%Nat.eqb_eq|E]; [by apply nil_length_inv in E|done].
    + destruct new_activations; [|done]. unfold at_block. cbn. rewrite app_nil_r.
      apply orb_true_iff in E as [E%Nat.eqb_eq%nil_length_inv|E]; [|done]. destruct c as [mm [a pre] ? ? ? ?]; cbn in *. by subst.
  - rewrite (abandon_restores c ds m) by done. by eexists c, (Throw ex).
Qed.

Lemma start_block_keeps c now s new_activations r c' : controller_ok pfs c -> chain_head_block_num c + 1 < not_active ->
  check_protocol_features pfs now (head_activated_protocol_features c) new_activations = Ok tt ->
  start_block c s new_activations = Ok (c', r) -> controller_ok pfs c'.
Proof.
  intros Hc Hn Hchk Hst. destruct (start_block_cases c s new_activations Hc Hn) as (c2 & r2 & E & Hcase).
  rewrite Hst in E. injection E as <- <-. destruct r as [u|e]; [|by subst c'].
  destruct Hcase as [Hp Hcase], Hc as [Hm Hh Hu _]. unfold head_db in *. rewrite Hp in *.
  destruct (decide (s = ephemeral)) as [->|Hs].
  { subst c'. split; [done..|]. split_and!; [by apply Hh|done| |done]. by rewrite app_nil_r. }
  destruct Hcase as (m & Hact & Hpre & ->).
  split; cbn; try done; [apply init_app; by eexists|].
  unfold pending_ok, activated_by. cbn. rewrite decide_False by done. split_and!; try done.
  unfold ordered_state. cbn. rewrite app_nil_r, fmap_app, at_block_fst.
  destruct Hh as (Hord & Hle & Hfs & Hna). rewrite Hfs in Hchk.
  apply (check_from_ordered now _ []); [|cbn|done].
  - rewrite app_nil_r. by eapply dep_ordered_prefix.
  - eapply activate_list_NoDup; [|exact Hn|exact Hact]. apply init_represents; [|exact Hm]. eapply Forall_impl; [exact Hle|].
    cbn. lia.
Qed.

Lemma dep_ordered_activated pso : ordered_state pfs pso -> dep_ordered pfs (activated_protocol_features pso).*1.
Proof. apply dep_ordered_prefix. Qed.

(** A manager initialized from the database at the head block. *)
Lemma start_controller_ok pso stack n fs c : block_ok pfs pso n fs -> undo_ok pfs (activated_protocol_features pso) n stack ->
  start_controller pfs pso stack n fs = Ok c -> controller_ok pfs c.
Proof. intros Hb Hu H. unfold start_controller in H. inv_result. by split. Qed.

Lemma abort_block_cases c : controller_ok pfs c -> exists c', abort_block c = Ok c' /\ controller_ok pfs c' /\
  (pending c = None -> c' = c) /\
  start_controller pfs (head_db c) (undo_stack c) (chain_head_block_num c) (head_activated_protocol_features c) = Ok c'.
Proof.
  intros Hc. pose proof Hc as [Hm Hh Hu Hp]. unfold abort_block, head_db in *. destruct (pending c) as [p|] eqn:Ep.
  - destruct Hp as (_ & Hn & Hact & _). rewrite Hact in Hm.
    destruct (popped_to_block _ (chain_head_block_num c) _ (chain_head_block_num c + 1) _ _ Hh ltac:(lia) Hm) as (m0 & Hm0 & Hpop).
    unfold abandon_pending, start_controller. rewrite Hpop, Hm0. eexists. split_and!; [done| |done|done].
    by apply (start_controller_ok (_db_session p) (undo_stack c) _ _ _ Hh Hu); unfold start_controller; rewrite Hm0.
  - eexists. split_and!; [done..|]. unfold start_controller. rewrite Hm. cbn. destruct c; cbn in *. by subst.
Qed.

Lemma is_protocol_feature_activated_iff c p d : controller_ok pfs c -> pending c = Some p ->
  is_protocol_feature_activated c d = bool_decide (d ∈ (activated_protocol_features (db c)).*1).
Proof.
  intros [_ Hh _ Hp] Ep. unfold is_protocol_feature_activated, head_db in *. rewrite Ep in *.
  destruct Hh as (_ & _ & -> & _), Hp as (_ & _ & Hact & Hnum).
  replace (take _ _) with (activated_by p).
  - rewrite Hact, fmap_app, at_block_fst, <- bool_decide_or. apply bool_decide_ext.
    by rewrite elem_of_app, elem_of_list_to_set.
  - rewrite Hnum. unfold activated_by. case_decide; [done|]. by rewrite firstn_all.
Qed.

Lemma preactivate_feature_keeps c p now d c' : controller_ok pfs c -> pending c = Some p ->
  preactivate_feature c now d = Ok c' -> controller_ok pfs c'.
Proof.
  intros Hc Ep H. pose proof Hc as [Hm Hh Hu Hp]. unfold preactivate_feature in H. cbv zeta in H.
  assert (Hset : recognized c = pfs).
  { unfold recognized, head_db in *. rewrite Ep in *. apply rp_set with (activated_protocol_features (db c)), init_represents; [|done].
    destruct Hp as (_ & Hn & -> & _). apply Forall_app. split; [by eapply block_ok_bound|].
    apply (at_block_Forall (fun x => x < not_active)). lia. }
  rewrite Hset in H. clear Hset. destruct (is_recognized pfs d now) eqn:Er; try done. inv_result.
  rewrite (is_protocol_feature_activated_iff c p d Hc Ep) in E.
  apply negb_true_iff, bool_decide_eq_false in E, E0. unfold validate_dependencies in E1.
  destruct (_recognized_protocol_features pfs !! d) as [f|] eqn:Hf; [|done].
  unfold head_db in *. rewrite Ep in *. destruct Hp as (Hord & Hn & Hact & Hnum).
  split; cbn; unfold head_db; cbn; rewrite ?Ep; try done. split_and!; try done.
  unfold ordered_state in *. cbn. rewrite app_assoc. apply dep_snoc with f; [done| |done|].
  - by rewrite elem_of_app; intros [].
  - intros x Hx%list_elem_of_In. rewrite forallb_forall in E1. specialize (E1 x Hx).
    rewrite (is_protocol_feature_activated_iff c p x Hc Ep) in E1. rewrite elem_of_app.
    by apply orb_true_iff in E1 as [?%bool_decide_eq_true|?%bool_decide_eq_true]; [left|right].
Qed.

Lemma commit_block_keeps c p c' : controller_ok pfs c -> pending c = Some p -> _block_status p <> ephemeral ->
  commit_block c = Ok c' -> controller_ok pfs c'.
Proof.
  intros [Hm Hh Hu Hp] Ep Hs H. unfold commit_block, head_db in *. rewrite Ep in *. injection H as <-.
  destruct Hp as (Hord & Hn & Hact & _). unfold activated_by in Hact. rewrite decide_False in Hact by done.
  split; cbn; [done| | |done].
  - pose proof Hh as (_ & Hle & -> & _). split_and!; [done| | |lia].
    + rewrite Hact. apply Forall_app. split; [eapply Forall_impl; [exact Hle|]; cbn; lia|].
      by apply (at_block_Forall (fun x => x <= chain_head_block_num c + 1)).
    + rewrite Hact, fmap_app, at_block_fst, list_to_set_app_L. set_solver.
  - rewrite Z.add_simpl_r. split_and!; [by eexists|done|done].
Qed.

Lemma pop_block_keeps c c' : controller_ok pfs c -> pending c = None -> pop_block c = Ok c' -> controller_ok pfs c'.
Proof.
  intros [Hm Hh Hu _] Ep H. unfold pop_block, head_db in *. rewrite Ep in *.
  destruct (undo_stack c) as [|[pso fs] stack]; [done|]. destruct Hu as ((ds & Hds) & Hb & Hu). rewrite Hds in Hm.
  destruct Hh as (_ & _ & _ & Hn).
  destruct (popped_to_block _ (chain_head_block_num c - 1) _ (chain_head_block_num c) _ _ Hb ltac:(lia) Hm) as (m0 & Hm0 & Hpop).
  rewrite Hpop in H. injection H as <-. split; [done|by apply Hb|done|done].
Qed.

Lemma undo_ok_take l n stack k : undo_ok pfs l n stack -> undo_ok pfs l n (take k stack).
Proof.
  revert l n k. induction stack as [|[pso fs] stack IH]; intros l n k; [by rewrite take_nil|].
  destruct k as [|k]; cbn; [done|]. intros (? & ? & ?). split_and!; [done..|by apply IH].
Qed.

Lemma reachable_ok c : reachable pfs c -> controller_ok pfs c.
Proof.
  induction 1 as [n c Hn H|c c' _ IH H|c c' _ IH Ep H|c now s new_activations r c' _ IH Hn Hchk H|c p now d c' _ IH Ep H
    |c c' _ IH H|c p c' _ IH Ep Hs H|c c' _ IH Ep H|c k _ IH].
  - eapply start_controller_ok; [| |exact H]; [|done]. split_and!; [constructor|constructor|done|done].
  - destruct IH. by eapply start_controller_ok.
  - destruct IH as [_ Hh _ _]. unfold head_db in *. rewrite Ep in *. by eapply start_controller_ok; [exact Hh| |exact H].
  - by eapply start_block_keeps.
  - by eapply preactivate_feature_keeps.
  - destruct (abort_block_cases c IH) as (c2 & E & ? & _). rewrite H in E. by injection E as ->.
  - by eapply commit_block_keeps.
  - by eapply pop_block_keeps.
  - destruct IH. split; cbn; [done..|by apply undo_ok_take|done].
Qed.
End Run.

(** What the node says of a builtin, in terms of the database. *)
Lemma controller_is_builtin_activated_iff pfs c k : feature_set_ok pfs -> controller_ok pfs c -> 0 <= k ->
  controller_is_builtin_activated c k = true <->
  exists d f, d ∈ (activated_protocol_features (db c)).*1 /\ _recognized_protocol_features pfs !! d = Some f /\ builtin_feature f = k.
Proof.
  intros Hok [Hm Hh Hu Hp] Hk. unfold controller_is_builtin_activated.
  set (n := match pending c with None => chain_head_block_num c | Some _ => chain_head_block_num c + 1 end).
  assert (Hn : n < not_active /\ Forall (fun f => f.2 <= n) (activated_protocol_features (db c))).
  { unfold head_db, n in *. destruct (pending c) as [p|]; [|by split; apply Hh].
    destruct Hp as (_ & Hn & -> & _). split; [done|]. apply Forall_app. split.
    - eapply Forall_impl; [apply Hh|]. cbn. lia.
    - by apply (at_block_Forall (fun x => x <= chain_head_block_num c + 1)). }
  destruct Hn as [Hn Hle].
  rewrite (is_builtin_activated_iff pfs (activated_protocol_features (db c))); [|done| |done|done].
  - split.
    + intros (d & b & f & Hin & _ & Hf & Hfk). exists d, f. split_and!; [|done..]. apply list_elem_of_fmap. by exists (d, b).
    + intros (d & f & ([d' b] & -> & Hin)%list_elem_of_fmap & Hf & Hfk). exists d', b, f. split_and!; try done.
      rewrite Forall_forall in Hle. by apply (Hle (d', b)).
  - apply (init_represents Hok); [|done]. eapply Forall_impl; [exact Hle|]. cbn. lia.
Qed.

Lemma controller_ok_ordered pfs c : controller_ok pfs c -> ordered_state pfs (db c).
Proof. intros [_ Hh _ Hp]. unfold head_db in Hh. destruct (pending c); [by apply Hp|by apply Hh]. Qed.

Lemma lookup_preactivated (l : list digest_type) d : d ∈ l ->
  (list_to_map ((fun d => (d, false)) <$> l) : gmap digest_type bool) !! d = Some false.
Proof.
  induction l as [|x l IH]; cbn; [by intros ?%elem_of_nil|]. destruct (decide (x = d)) as [->|Hne].
  - intros _. by rewrite lookup_insert_eq.
  - intros [->|Hin]%elem_of_cons; [done|]. rewrite lookup_insert_ne by done. by apply IH.
Qed.

(** The loop of [start_block] succeeds on features in order, each of them
    preactivated. *)
Lemma activate_new_all pfs l m bn handled num new_activations : feature_set_ok pfs -> represents pfs l m ->
  Forall (fun f => f.2 <= bn) l -> bn < not_active -> dep_ordered pfs (l.*1 ++ new_activations) ->
  (forall d, (d ∈ new_activations) -> handled !! d = Some false) ->
  exists m', activate_new bn m handled num new_activations = (m', Ok (num + length new_activations)%nat).
Proof.
  intros Hok Hm Hle Hbn. revert l m handled num Hm Hle.
  induction new_activations as [|d new_activations IH]; intros l m handled num Hm Hle Hord Hh; cbn.
  - exists m. by rewrite Nat.add_0_r.
  - rewrite (cons_middle d), app_assoc in Hord.
    pose proof (dep_ordered_snoc_inv _ _ _ (dep_ordered_prefix _ _ _ Hord)) as (_ & Hd & f & Hf & _).
    destruct (represents_lookup_inactive _ _ _ _ _ Hok Hm Hf Hd) as (e & He & Hna).
    assert (Hact : exists m1, activate_feature m d bn = Ok m1).
    { eexists. apply activate_feature_Ok. split; [apply Hm|]. exists f, e.
      rewrite (rp_set _ _ _ Hm), (rp_list _ _ _ Hm). split_and!; try done.
      destruct (last l) as [x|] eqn:El; [|done]. apply last_Some in El as [l' ->]. by apply Forall_app in Hle as [_ [? _]%Forall_cons]. }
    destruct Hact as [m1 E].
    unfold activate_one, get_protocol_feature. rewrite (rp_set _ _ _ Hm), Hf. cbn. rewrite (Hh d) by (by left). cbn. rewrite E. cbn.
    pose proof (represents_activate _ _ _ _ _ _ Hok Hm Hbn E) as Hm1.
    assert (Hnd : d ∉ new_activations).
    { intros Hin. apply list_elem_of_split in Hin as (l1 & l2 & ->).
      assert (H2 : dep_ordered pfs (((l.*1 ++ [d]) ++ l1) ++ [d])).
      { apply dep_ordered_prefix with l2. rewrite <- !app_assoc in *. exact Hord. }
      apply dep_ordered_snoc_inv in H2 as (_ & Hn & _). apply Hn. set_solver. }
    edestruct (IH (l ++ [(d, bn)]) m1 (<[d := true]> handled) (S num)) as [m' ->]; [done| | | |].
    + apply Forall_app. split; [done|]. by constructor.
    + by rewrite fmap_app.
    + intros d' Hd'. rewrite lookup_insert_ne by (by intros ->). apply Hh. by right.
    + exists m'. f_equal. f_equal. lia.
Qed.

(** ** Properties *)

Section Properties.
Context {hasher : Sha256Hash}.

(** C12: whatever blocks a node starts, aborts, commits and pops, and whenever it
    is restarted or started on a snapshot, the manager of protocol features is
    the one that a new manager gets by reading the database, and the header of
    the head block lists the features that the database had there. *)
Theorem feature_manager_is_database_history pfs c (Hpfs : feature_set_built pfs) (Hc : reachable pfs c) :
  init (new_feature_manager pfs) (activated_protocol_features (db c)) = Ok (protocol_features c) /\
  head_activated_protocol_features c = list_to_set (activated_protocol_features (head_db c)).*1.
Proof. apply built_ok in Hpfs. destruct (reachable_ok Hpfs c Hc). split; [done|by apply co_head0]. Qed.

(** C15: a builtin feature that is active has all the builtin features it depends
    on active: savanna, the 21 it lists. *)
Theorem builtin_dependencies_activated pfs c codename spec dep (Hpfs : feature_set_built pfs) (Hc : reachable pfs c)
    (Hspec : find_spec codename = Some spec) (Hdep : dep ∈ builtin_dependencies spec)
    (Hact : controller_is_builtin_activated c codename = true) :
  controller_is_builtin_activated c dep = true.
Proof.
  apply built_ok in Hpfs. pose proof (reachable_ok Hpfs c Hc) as Hok. pose proof (find_spec_bounds _ _ Hspec) as Hb.
  apply (controller_is_builtin_activated_iff pfs c codename Hpfs Hok ltac:(lia)) in Hact as (d & f & Hd & Hf & <-).
  destruct (fs_dependencies _ Hpfs _ _ Hf) as (spec' & Hspec' & Hall). rewrite Hspec in Hspec'. injection Hspec' as <-.
  destruct (Hall dep Hdep) as (d' & f' & Hd' & Hf' & <-).
  apply (controller_is_builtin_activated_iff pfs c _ Hpfs Hok); [by apply (fs_indexed _ Hpfs _ _ Hf')|].
  exists d', f'. split_and!; [|done..].
  eapply dep_ordered_closed; [by apply dep_ordered_activated, controller_ok_ordered|exact Hd|exact Hf|exact Hd'].
Qed.

(** C13: [start_block] always returns.  An exception at any feature, duplicate,
    unrecognized, already active or left out, leaves the node exactly as it was,
    the features activated before it undone; and a block that was started can be
    aborted, which leaves the node as it was before. *)
Theorem start_block_exception_leaves_no_trace pfs c s new_activations (Hpfs : feature_set_built pfs) (Hc : reachable pfs c)
    (Hn : chain_head_block_num c + 1 < not_active) :
  exists c' r, start_block c s new_activations = Ok (c', r) /\
    match r with Throw _ => c' = c | Ok _ => abort_block c' = Ok c end.
Proof.
  apply built_ok in Hpfs. pose proof (reachable_ok Hpfs c Hc) as Hok.
  destruct (start_block_cases Hpfs c s new_activations Hok Hn) as (c' & r & E & H). exists c', r. split; [done|].
  destruct r as [u|e]; [|done]. destruct H as [Hp H]. case_decide as Hs.
  - subst c'. apply (abandon_restores Hpfs c []); try done.
  - destruct H as (m & Hact & _ & ->). by apply (abandon_restores Hpfs c new_activations).
Qed.

(** C16: what was preactivated can always be activated: in the next block that is
    not ephemeral, if the features are still ready then, the checks pass and
    [start_block] activates all of them. *)
Theorem preactivated_features_can_be_activated pfs c now s (Hpfs : feature_set_built pfs) (Hc : reachable pfs c)
    (Hp : pending c = None) (Hs : s <> ephemeral) (Hn : chain_head_block_num c + 1 < not_active)
    (Hready : forall d, (d ∈ preactivated_protocol_features (db c)) -> is_recognized pfs d now = ready) :
  check_protocol_features pfs now (head_activated_protocol_features c) (preactivated_protocol_features (db c)) = Ok tt /\
  exists c', start_block c s (preactivated_protocol_features (db c)) = Ok (c', Ok tt) /\
    (activated_protocol_features (db c')).*1 = (activated_protocol_features (db c)).*1 ++ preactivated_protocol_features (db c) /\
    preactivated_protocol_features (db c') = [].
Proof.
  apply built_ok in Hpfs. pose proof (reachable_ok Hpfs c Hc) as Hok. pose proof (controller_ok_ordered _ _ Hok) as Hord.
  pose proof Hok as [Hm Hh _ _]. unfold head_db in Hh. rewrite Hp in Hh. destruct Hh as (_ & Hle & Hfs & _).
  rewrite Hfs. split; [by apply ordered_check_from|].
  destruct (start_block_cases Hpfs c s (preactivated_protocol_features (db c)) Hok Hn) as (c' & r & E & H).
  destruct r as [[]|ex]; [destruct H as [_ H]; rewrite decide_False in H by done; destruct H as (m & _ & _ & ->)|exfalso].
  - eexists. split; [exact E|]. split; [|done]. cbn. by rewrite fmap_app, at_block_fst.
  - clear H. unfold start_block in E. rewrite Hp, decide_False in E by done. cbv zeta in E.
    edestruct (activate_new_all pfs (activated_protocol_features (db c)) (protocol_features c)) as [m' Hall];
      [done| | |exact Hn|exact Hord| |rewrite Hall in E].
    + apply (init_represents Hpfs); [|done]. eapply Forall_impl; [exact Hle|]. cbn. lia.
    + eapply Forall_impl; [exact Hle|]. cbn. lia.
    + apply lookup_preactivated.
    + cbn in E. destruct (preactivated_protocol_features (db c)) as [|d l]; cbn in E; [done|].
      rewrite Nat.eqb_refl in E. done.
Qed.
End Properties.

(** ** A run

    A node that recognizes three features: [preactivate_feature], and two of
    which one depends on the other. *)

Definition run_add (pfs : protocol_feature_set) (codename : Z) : result protocol_feature_set :=
  f ← make_default_builtin_protocol_feature codename
        (fun c => match get_builtin_digest pfs c with Some d => Ok d | None => Throw protocol_feature_exception end);
  add_feature (hasher := example_hash) pfs f.
Definition run_pfs : protocol_feature_set := from_ok empty_feature_set (foldM run_add empty_feature_set [0; 2; 3]).
Definition run_digest (codename : Z) : digest_type := default sha256_default (get_builtin_digest run_pfs codename).

Definition run_genesis : controller_impl :=
  from_ok (ControllerImpl (new_feature_manager run_pfs) (ProtocolStateObject [] []) [] 1 ∅ None)
    (start_controller run_pfs (ProtocolStateObject [] []) [] 1 ∅).
Definition run_start (c : controller_impl) (l : list digest_type) : controller_impl :=
  fst (from_ok (c, Ok tt) (start_block c incomplete l)).
Definition run_preactivate (c : controller_impl) (codename : Z) : controller_impl :=
  from_ok c (preactivate_feature c 0 (run_digest codename)).
Definition run_commit (c : controller_impl) : controller_impl := from_ok c (commit_block c).

Definition run_block2 : controller_impl := run_commit (run_start run_genesis [run_digest 0]).
Definition run_block3 : controller_impl := run_commit (run_preactivate (run_preactivate (run_start run_block2 []) 2) 3).
Definition run_block4 : controller_impl := run_start run_block3 [run_digest 2; run_digest 3].

Lemma run_pfs_built : feature_set_built (H := example_hash) run_pfs.
Proof.
  assert (Hadd : forall l pfs pfs', feature_set_built (H := example_hash) pfs -> foldM run_add pfs l = Ok pfs' ->
    feature_set_built (H := example_hash) pfs').
  { induction l as [|k l IH]; cbn; intros pfs pfs' Hb H; inv_result; [done|].
    apply (IH x pfs'); [|done]. unfold run_add in E. inv_result. by eapply built_add. }
  apply (Hadd [0; 2; 3] empty_feature_set); [constructor|]. apply from_ok_Ok. by vm_compute.
Qed.

Lemma run_start_reachable c l : reachable run_pfs c ->
  (chain_head_block_num c + 1 <? not_active) && is_ok (check_protocol_features run_pfs 0 (head_activated_protocol_features c) l) &&
    is_ok (start_block c incomplete l) = true -> reachable run_pfs (run_start c l).
Proof.
  intros Hc [[Hn%Z.ltb_lt Hchk]%andb_true_iff Hst]%andb_true_iff. unfold run_start.
  apply (from_ok_Ok (c, Ok tt)) in Hst. apply (from_ok_Ok tt) in Hchk. destruct (from_ok (c, Ok tt) _) as [c' r]. cbn.
  eapply reach_start; [exact Hc|exact Hn| |exact Hst]. destruct (from_ok tt _). exact Hchk.
Qed.

Lemma run_preactivate_reachable c k : reachable run_pfs c -> is_ok (preactivate_feature c 0 (run_digest k)) && bool_decide (is_Some (pending c)) = true ->
  reachable run_pfs (run_preactivate c k).
Proof.
  intros Hc [H [p Hp]%bool_decide_eq_true]%andb_true_iff. eapply reach_preactivate; [exact Hc|exact Hp|]. by apply from_ok_Ok.
Qed.

Lemma run_commit_reachable c : reachable run_pfs c ->
  match pending c with Some p => bool_decide (_block_status p <> ephemeral) | None => false end = true -> reachable run_pfs (run_commit c).
Proof.
  intros Hc H. destruct (pending c) as [p|] eqn:Hp; [|done]. apply bool_decide_eq_true in H.
  eapply reach_commit; [exact Hc|exact Hp|exact H|]. apply from_ok_Ok. unfold commit_block. by rewrite Hp.
Qed.

Lemma run_block2_reachable : reachable run_pfs run_block2.
Proof.
  apply run_commit_reachable; [|by vm_compute]. apply run_start_reachable; [|by vm_compute].
  apply (reach_genesis run_pfs 1); [by vm_compute|]. apply from_ok_Ok. by vm_compute.
Qed.

Lemma run_block3_reachable : reachable run_pfs run_block3.
Proof.
  apply run_commit_reachable; [|by vm_compute].
  do 2 (apply run_preactivate_reachable; [|by vm_compute]).
  apply run_start_reachable; [|by vm_compute]. apply run_block2_reachable.
Qed.

Lemma run_block4_reachable : reachable run_pfs run_block4.
Proof. apply run_start_reachable; [|by vm_compute]. apply run_block3_reachable. Qed.

(** Two blocks are popped: the manager is back where it was. *)
Definition run_popped : controller_impl :=
  from_ok run_genesis (c ← abort_block run_block4; c ← pop_block c; pop_block c).

Lemma abort_block_pending c c' : abort_block c = Ok c' -> pending c' = None.
Proof.
  unfold abort_block, abandon_pending. destruct (pending c) eqn:Hp; intros H; inv_result; done.
Qed.

Lemma pop_block_pending c c' : pop_block c = Ok c' -> pending c' = pending c.
Proof. unfold pop_block. destruct (undo_stack c) as [|[pso fs] stack]; intros H; inv_result; done. Qed.

Lemma run_popped_reachable : reachable run_pfs run_popped.
Proof.
  assert (H : is_ok (c ← abort_block run_block4; c ← pop_block c; pop_block c) = true) by (by vm_compute).
  unfold run_popped. apply (from_ok_Ok run_genesis) in H. revert H.
  generalize (from_ok run_genesis (c ← abort_block run_block4; c ← pop_block c; pop_block c)). intros c3 H.
  apply bind_Ok in H as (c1 & H1 & H). apply bind_Ok in H as (c2 & H2 & H).
  pose proof (abort_block_pending _ _ H1) as Hp1. pose proof (pop_block_pending _ _ H2) as Hp2.
  eapply reach_pop; [|by rewrite Hp2|exact H]. eapply reach_pop; [|exact Hp1|exact H2].
  eapply reach_abort; [exact run_block4_reachable|exact H1].
Qed.

Lemma feature_manager_is_database_history_witness :
  (init (new_feature_manager run_pfs) (activated_protocol_features (db run_block4)) = Ok (protocol_features run_block4) /\
   length (activated_protocol_features (db run_block4)) = 3%nat) /\
  init (new_feature_manager run_pfs) [] = Ok (protocol_features run_popped).
Proof.
  split; [split; [|by vm_compute]|].
  - apply (feature_manager_is_database_history (hasher := example_hash) run_pfs run_block4 run_pfs_built run_block4_reachable).
  - exact (proj1 (feature_manager_is_database_history (hasher := example_hash) run_pfs run_popped run_pfs_built run_popped_reachable)).
Defined.

Lemma builtin_dependencies_activated_witness : controller_is_builtin_activated run_block4 2 = true.
Proof.
  eapply (builtin_dependencies_activated (hasher := example_hash) run_pfs run_block4 3 _ 2 run_pfs_built run_block4_reachable);
    [by vm_compute| |by vm_compute]. cbn. by left.
Defined.

Lemma start_block_exception_leaves_no_trace_witness :
  (exists e, start_block run_block3 complete [run_digest 2] = Ok (run_block3, Throw e)) /\
  exists c' r, start_block run_block3 complete [run_digest 2] = Ok (c', r) /\
    match r with Throw _ => c' = run_block3 | Ok _ => abort_block c' = Ok run_block3 end.
Proof.
  split; [by eexists; vm_compute|].
  apply (start_block_exception_leaves_no_trace (hasher := example_hash) run_pfs run_block3 complete [run_digest 2]
    run_pfs_built run_block3_reachable). by vm_compute.
Defined.

Lemma preactivated_features_can_be_activated_witness :
  preactivated_protocol_features (db run_block3) = [run_digest 2; run_digest 3] /\
  exists c', start_block run_block3 complete (preactivated_protocol_features (db run_block3)) = Ok (c', Ok tt) /\
    (activated_protocol_features (db c')).*1 = (activated_protocol_features (db run_block3)).*1 ++ preactivated_protocol_features (db run_block3) /\
    preactivated_protocol_features (db c') = [].
Proof.
  split; [by vm_compute|].
  apply (preactivated_features_can_be_activated (hasher := example_hash) run_pfs run_block3 0 complete run_pfs_built run_block3_reachable);
    [by vm_compute|done|by vm_compute|].
  intros d Hd. replace (preactivated_protocol_features _) with [run_digest 2; run_digest 3] in Hd by (by vm_compute).
  apply elem_of_cons in Hd as [->|Hd%list_elem_of_singleton]; [by vm_compute|]. subst d. by vm_compute.
Defined.
