(* ===== verification/LegacyHeaderState.v ===== *)
(** * Legacy (DPoS) block header states

    [block_header_state_legacy.hpp/.cpp], [block_state_legacy.cpp] and the
    schedules of [producer_schedule.hpp]: what a block before Savanna does to the
    state of its branch.  [next] takes the state of a block to the pending state
    of the block after it; [finish_next] completes that with the header.  A
    [flat_map] is a [gmap], [nth_element] picks from the sorted list. *)

From stdpp Require Import sorting.
From S2P Require Import Prelude ChainTypes FinalityCore OrderedDiff Policies Qc Raw BlockHeader BlockHeaderState BlockState MerkleLegacy ProtocolFeatures.
Open Scope Z_scope.

Definition maximum_tracked_dpos_confirmations : nat := 1024.

Record schedule_info : Set := ScheduleInfo {
  schedule_lib_num : Z;
  schedule_hash : digest_type;
  schedule : producer_authority_schedule
}.

Record block_header_state_legacy_common : Set := LegacyCommon {
  block_num : Z;
  dpos_proposed_irreversible_blocknum : Z;
  dpos_irreversible_blocknum : Z;
  active_schedule : producer_authority_schedule;
  blockroot_merkle : incremental_merkle_legacy;
  producer_to_last_produced : gmap Z Z;
  producer_to_last_implied_irb : gmap Z Z;
  valid_block_signing_authority : block_signing_authority_v0;
  confirm_count : list Z
}.

Record pending_block_header_state_legacy : Set := PendingLegacy {
  pending_common : block_header_state_legacy_common;
  prev_activated_protocol_features : list digest_type;
  prev_pending_schedule : schedule_info;
  was_pending_promoted : bool;
  previous : block_id_type;
  producer : Z;
  timestamp : block_timestamp_type;
  active_schedule_version : Z;
  confirmed : Z;
  qc_claim : option qc_claim_t
}.

Record block_header_state_legacy : Set := HeaderStateLegacy {
  common : block_header_state_legacy_common;
  id : block_id_type;
  header : block_header;
  header_producer_signature : list Z;
  pending_schedule : schedule_info;
  activated_protocol_features : list digest_type;
  additional_signatures : list (list Z);
  header_exts : list (Z * block_header_extension)
}.

Definition wtmsig_block_signatures : Z := 12.

(** [detail::is_builtin_activated]: in the set of a header state. *)
Definition detail_is_builtin_activated (pfa : list digest_type) (pfs : protocol_feature_set) (feature_codename : Z) : bool :=
  match get_builtin_digest pfs feature_codename with Some d => bool_decide (d ∈ pfa) | None => false end.

(** ** DPoS irreversibility *)

(** [std::nth_element] puts at [index] what sorting would put there. *)
Definition nth_element (l : list Z) (index : nat) : Z := default 0 (merge_sort Z.le l !! index).

Definition calc_dpos_last_irreversible (s : block_header_state_legacy_common) (producer_of_next_block : Z) : Z :=
  let blocknums := (fun i => if i.1 =? producer_of_next_block then dpos_proposed_irreversible_blocknum s else i.2)
                   <$> map_to_list (producer_to_last_implied_irb s) in
  match blocknums with
  | [] => 0
  | _ => nth_element blocknums ((length blocknums - 1) / 3)
  end.

(** A count for the new block; beyond the limit the oldest is forgotten. *)
Definition grow_confirm_count (counts : list Z) (required_confs : Z) : list Z :=
  (if (length counts <? maximum_tracked_dpos_confirmations)%nat then counts else drop 1 counts) ++ [required_confs `mod` 2 ^ 8].

(** The loop that counts confirmations, from the last block, [i = m - 1], on
    down: the counts and the proposed irreversible block. *)
Fixpoint confirm_blocks (m : nat) (blocks_to_confirm block_num : Z) (counts : list Z) (proposed : Z) : list Z * Z :=
  match m with
  | O => (counts, proposed)
  | S i =>
      if blocks_to_confirm =? 0 then (counts, proposed)
      else
        let c := (default 0 (counts !! i) - 1) `mod` 2 ^ 8 in
        let counts := <[i := c]> counts in
        if c =? 0 then (drop (S i) counts, wrap32 (block_num - (size_of counts - 1 - Z.of_nat i)))
        else confirm_blocks i (blocks_to_confirm - 1) block_num counts proposed
  end.

(** The maps for the producers of the schedule that becomes active. *)
Definition promoted_map (ps : list producer_authority) (existing : gmap Z Z) (block_producer own fallback : Z) : gmap Z Z :=
  foldl (fun m p => <[producer_name p := if producer_name p =? block_producer then own
                                         else default fallback (existing !! producer_name p)]> m) ∅ ps.

Section Digests.
Context {hasher : Sha256Hash} {keyok : BlsKeyValid} {recover : RecoverKey}.

Definition next (s : block_header_state_legacy) (when : block_timestamp_type) (num_prev_blocks_to_confirm : Z) :
    result pending_block_header_state_legacy :=
  let c := common s in
  when ← (if negb (when =? 0) then EOS_ASSERT header_timestamp (header s) <? when ,, block_validate_exception ;; Ok when
          else Ok (wrap32 (header_timestamp (header s) + 1)));
  proauth ← get_scheduled_producer (producers (active_schedule c)) when;
  let name := producer_name proauth in
  EOS_ASSERT match producer_to_last_produced c !! name with
             | Some last => last <? wrap32 (wrap32 (block_num c + 1) - num_prev_blocks_to_confirm)
             | None => true
             end ,, producer_double_confirm ;;
  let num := wrap32 (block_num c + 1) in
  merkle ← append_legacy (blockroot_merkle c) (id s);
  let required_confs := wrap32 (size_of (producers (active_schedule c)) * 2 / 3) + 1 in
  let counts := grow_confirm_count (confirm_count c) required_confs in
  let counted := confirm_blocks (length counts) (num_prev_blocks_to_confirm + 1) num counts (dpos_proposed_irreversible_blocknum c) in
  let lib := calc_dpos_last_irreversible c name in
  let promoted := (0 <? length (producers (schedule (pending_schedule s))))%nat && (schedule_lib_num (pending_schedule s) <=? lib) in
  let new_schedule := if promoted then schedule (pending_schedule s) else active_schedule c in
  let last_produced :=
    if promoted then <[name := num]> (promoted_map (producers new_schedule) (producer_to_last_produced c) name num lib)
    else <[name := num]> (producer_to_last_produced c) in
  let last_implied_irb :=
    if promoted then promoted_map (producers new_schedule) (producer_to_last_implied_irb c) name (dpos_proposed_irreversible_blocknum c) lib
    else <[name := dpos_proposed_irreversible_blocknum c]> (producer_to_last_implied_irb c) in
  claim ← (match find_extension (header_exts s) finality_extension_id with
           | Some (FinalityExt f_ext) => Ok (Some (BlockHeader.qc_claim f_ext))
           | Some _ => Throw assert_failed
           | None => Ok None
           end);
  Ok (PendingLegacy
        (LegacyCommon num counted.2 lib new_schedule merkle last_produced last_implied_irb (authority proauth) counted.1)
        (activated_protocol_features s) (pending_schedule s) promoted (id s) name when
        (version (active_schedule c)) num_prev_blocks_to_confirm claim).

Definition savanna_genesis_block_num (p : pending_block_header_state_legacy) : option Z := claim_block_num <$> qc_claim p.

(** Up-converting and down-converting schedules. *)
Definition schedule_of_legacy (old : legacy_producer_schedule) : producer_authority_schedule :=
  ProducerAuthoritySchedule (legacy_version old)
    ((fun p => ProducerAuthority (pk_producer_name p) (BlockSigningAuthority 1 [KeyWeight (block_signing_key p) 1])) <$> legacy_producers old).

Definition downgrade_producer (p : producer_authority) : result producer_key :=
  match keys (authority p) with
  | [k] => EOS_ASSERT kw_weight k =? authority_threshold (authority p) ,, producer_schedule_exception ;; Ok (ProducerKey (producer_name p) (key k))
  | _ => Throw producer_schedule_exception
  end.

Definition make_block_header (p : pending_block_header_state_legacy) (transaction_mroot action_mroot : digest_type)
    (new_producers : option producer_authority_schedule) (new_finalizer_policy : option finalizer_policy)
    (new_protocol_feature_activations : list digest_type) (pfs : protocol_feature_set) : result block_header :=
  exts ← (match new_protocol_feature_activations with
          | [] => Ok []
          | _ => d ← pack c_protocol_feature_activation new_protocol_feature_activations;
                 Ok (emplace_extension [] protocol_feature_activation_id d)
          end);
  np ← (match new_producers with
        | None => Ok (exts, None)
        | Some sched =>
            if detail_is_builtin_activated (prev_activated_protocol_features p) pfs wtmsig_block_signatures then
              d ← pack c_producer_authority_schedule sched;
              Ok (emplace_extension exts producer_schedule_change_extension_id d, None)
            else
              ps ← foldM (fun ps p => k ← downgrade_producer p; Ok (ps ++ [k])) [] (producers sched);
              Ok (exts, Some (LegacyProducerSchedule (version sched) ps))
        end);
  exts ← (match new_finalizer_policy with
          | Some pol =>
              ASSERT generation pol =? 1 ;;
              diff ← finalizer_create_diff (FinalizerPolicy 0 0 []) pol;
              d ← pack c_finality_extension (FinalityExtension (QcClaim (block_num (pending_common p)) false) (Some diff) None);
              Ok (emplace_extension np.1 finality_extension_id d)
          | None =>
              match qc_claim p with
              | Some claim =>
                  d ← pack c_finality_extension (FinalityExtension claim None None);
                  Ok (emplace_extension np.1 finality_extension_id d)
              | None => Ok np.1
              end
          end);
  Ok (MkBlockHeader (timestamp p) (producer p) (confirmed p) (previous p) transaction_mroot action_mroot
        (active_schedule_version p) np.2 exts).

(** The pending schedule that the header sets, with its hash: by the field
    [new_producers] or by the extension, which comes after and has precedence. *)
Definition check_new_schedule (p : pending_block_header_state_legacy) (v : Z) : result unit :=
  EOS_ASSERT negb (was_pending_promoted p) ,, producer_schedule_exception ;;
  EOS_ASSERT v =? wrap32 (version (active_schedule (pending_common p)) + 1) ,, producer_schedule_exception ;;
  EOS_ASSERT (length (producers (schedule (prev_pending_schedule p))) =? 0)%nat ,, producer_schedule_exception ;;
  Ok tt.

Definition new_schedule_of (p : pending_block_header_state_legacy) (h : block_header) (exts : list (Z * block_header_extension))
    (wtmsig_enabled : bool) : result (option (producer_authority_schedule * digest_type)) :=
  by_field ← (match new_producers h with
              | None => Ok None
              | Some np =>
                  EOS_ASSERT negb wtmsig_enabled ,, producer_schedule_exception ;;
                  _ ← check_new_schedule p (legacy_version np);
                  d ← hash_packed c_legacy_producer_schedule np;
                  Ok (Some (schedule_of_legacy np, d))
              end);
  match find_extension exts producer_schedule_change_extension_id with
  | None => Ok by_field
  | Some (ProducerScheduleChangeExtension sched) =>
      EOS_ASSERT wtmsig_enabled ,, producer_schedule_exception ;;
      _ ← check_new_schedule p (version sched);
      d ← hash_packed c_producer_authority_schedule sched;
      Ok (Some (sched, d))
  | Some _ => Throw assert_failed
  end.

(** [_finish_next] *)
Definition finish_next_header (p : pending_block_header_state_legacy) (h : block_header) (signature : list Z)
    (pfs : protocol_feature_set) (validator : validator_t) : result block_header_state_legacy :=
  EOS_ASSERT header_timestamp h =? timestamp p ,, block_validate_exception ;;
  EOS_ASSERT bool_decide (BlockHeader.previous h = previous p) ,, unlinkable_block_exception ;;
  EOS_ASSERT BlockHeader.confirmed h =? confirmed p ,, block_validate_exception ;;
  EOS_ASSERT BlockHeader.producer h =? producer p ,, wrong_producer ;;
  EOS_ASSERT schedule_version h =? active_schedule_version p ,, producer_schedule_exception ;;
  exts ← validate_and_extract_header_extensions h;
  let wtmsig_enabled :=
    match new_producers h, find_extension exts producer_schedule_change_extension_id with
    | None, None => false
    | _, _ => detail_is_builtin_activated (prev_activated_protocol_features p) pfs wtmsig_block_signatures
    end in
  maybe_new ← new_schedule_of p h exts wtmsig_enabled;
  features ← (match find_extension exts protocol_feature_activation_id with
              | Some (ProtocolFeatureActivation fs) =>
                  _ ← validator (timestamp p) (prev_activated_protocol_features p) fs;
                  add_protocol_features (prev_activated_protocol_features p) fs
              | Some _ => Throw assert_failed
              | None => Ok (prev_activated_protocol_features p)
              end);
  new_id ← calculate_id h;
  let prev := prev_pending_schedule p in
  let pending :=
    match maybe_new with
    | Some (sched, d) => ScheduleInfo (block_num (pending_common p)) d sched
    | None =>
        ScheduleInfo (schedule_lib_num prev) (schedule_hash prev)
          (if was_pending_promoted p then ProducerAuthoritySchedule (version (schedule prev)) [] else schedule prev)
    end in
  Ok (HeaderStateLegacy (pending_common p) new_id h signature pending features [] exts).

(** ** Signatures *)

Definition sig_digest (s : block_header_state_legacy) : result digest_type :=
  d ← digest (header s);
  root ← get_root_legacy (blockroot_merkle (common s));
  header_bmroot ← hash_packed (c_pair c_sha256 c_sha256) (d, root);
  hash_packed (c_pair c_sha256 c_sha256) (header_bmroot, schedule_hash (pending_schedule s)).

Definition verify_signee_legacy (s : block_header_state_legacy) : result unit :=
  d ← sig_digest s;
  verify_signee (header_producer_signature s) d (additional_signatures s) (valid_block_signing_authority (common s)).

Definition with_signatures (s : block_header_state_legacy) (signature : list Z) (additional : list (list Z)) : block_header_state_legacy :=
  HeaderStateLegacy (common s) (id s) (header s) signature (pending_schedule s) (activated_protocol_features s) additional (header_exts s).

(** The last signature is the producer's. *)
Definition sign (s : block_header_state_legacy) (signer : digest_type -> list (list Z)) : result block_header_state_legacy :=
  d ← sig_digest s;
  let sigs := signer d in
  match last sigs with
  | None => Throw no_block_signatures
  | Some sig =>
      let s := with_signatures s sig (removelast sigs) in
      _ ← verify_signee_legacy s;
      Ok s
  end.

(** ** Completing a header state *)

(** [finish_next] of a received header. *)
Definition finish_next_received (p : pending_block_header_state_legacy) (h : block_header) (signature : list Z)
    (additional : list (list Z)) (pfs : protocol_feature_set) (validator : validator_t) (skip_validate_signee : bool) :
    result block_header_state_legacy :=
  EOS_ASSERT match additional with
             | [] => true
             | _ => detail_is_builtin_activated (prev_activated_protocol_features p) pfs wtmsig_block_signatures
             end ,, producer_schedule_exception ;;
  s ← finish_next_header p h signature pfs validator;
  let s := with_signatures s signature additional in
  _ ← (if skip_validate_signee then Ok tt else verify_signee_legacy s);
  Ok s.

(** [finish_next] of the header that this node produced, which it signs. *)
Definition finish_next_produced (p : pending_block_header_state_legacy) (h : block_header) (pfs : protocol_feature_set)
    (validator : validator_t) (signer : digest_type -> list (list Z)) : result block_header_state_legacy :=
  s ← finish_next_header p h [] pfs validator;
  s ← sign s signer;
  EOS_ASSERT match additional_signatures s with
             | [] => true
             | _ => detail_is_builtin_activated (prev_activated_protocol_features p) pfs wtmsig_block_signatures
             end ,, producer_schedule_exception ;;
  Ok s.

(** [next] with a received header *)
Definition next_received (s : block_header_state_legacy) (h : block_header) (signature : list Z) (additional : list (list Z))
    (pfs : protocol_feature_set) (validator : validator_t) (skip_validate_signee : bool) : result block_header_state_legacy :=
  p ← next s (header_timestamp h) (BlockHeader.confirmed h);
  finish_next_received p h signature additional pfs validator skip_validate_signee.

(** ** [block_state_legacy] *)

Definition state_savanna_genesis_block_num (s : block_header_state_legacy) : result (option Z) :=
  match find_extension (header_exts s) finality_extension_id with
  | Some (FinalityExt f_ext) => Ok (Some (claim_block_num (BlockHeader.qc_claim f_ext)))
  | Some _ => Throw assert_failed
  | None => Ok None
  end.

Definition irreversible_blocknum (s : block_header_state_legacy) : result Z :=
  g ← state_savanna_genesis_block_num s;
  Ok match g with
     | Some gen_block_num => Z.min gen_block_num (dpos_irreversible_blocknum (common s))
     | None => dpos_irreversible_blocknum (common s)
     end.

Definition is_savanna_critical_block (s : block_header_state_legacy) : result bool :=
  g ← state_savanna_genesis_block_num s;
  Ok match g with Some gen_block_num => gen_block_num <=? dpos_irreversible_blocknum (common s) | None => false end.

(** The state a new chain starts from ([initialize_blockchain_state]): the
    system account is the only producer; [chain_id] is the action root. *)
Definition legacy_genesis (initial_key : public_key_type) (initial_timestamp : block_timestamp_type) (system_account_name : Z)
    (chain_id : digest_type) : result block_header_state_legacy :=
  let initial_schedule :=
    ProducerAuthoritySchedule 0 [ProducerAuthority system_account_name (BlockSigningAuthority 1 [KeyWeight initial_key 1])] in
  let h := MkBlockHeader initial_timestamp 0 1 sha256_default sha256_default chain_id 0 None [] in
  d ← hash_packed c_legacy_producer_schedule (LegacyProducerSchedule 0 [ProducerKey system_account_name initial_key]);
  i ← calculate_id h;
  Ok (HeaderStateLegacy
        (LegacyCommon (header_block_num h) 0 0 initial_schedule empty_merkle_legacy ∅ ∅ (BlockSigningAuthority 0 []) [])
        i h [] (ScheduleInfo 0 d initial_schedule) [] [] []).
End Digests.

(** ** The irreversible block of [calc_dpos_last_irreversible] *)

Lemma nth_element_spec l i : (i < length l)%nat ->
  exists before after, Permutation l (before ++ nth_element l i :: after) /\ length before = i /\
    Forall (fun x => x <= nth_element l i) before /\ Forall (fun x => nth_element l i <= x) after.
Proof.
  intros Hi. unfold nth_element. pose proof (merge_sort_Permutation Z.le l) as Hperm.
  pose proof (StronglySorted_merge_sort Z.le l) as Hsort. set (ms := merge_sort Z.le l) in *.
  assert (Hlt : (i < length ms)%nat) by (by rewrite Hperm).
  apply lookup_lt_is_Some_2 in Hlt as [x Hx]. rewrite Hx. cbn.
  pose proof (take_drop_middle ms i x Hx) as Hsplit. rewrite <- Hsplit in Hsort.
  exists (take i ms), (drop (S i) ms). split_and!.
  - rewrite Hsplit. by rewrite Hperm.
  - apply length_take_le. by apply Nat.lt_le_incl, lookup_lt_Some with x.
  - apply Forall_forall. intros y Hy. eapply (StronglySorted_app_1_elem_of Z.le); [exact Hsort|exact Hy|by left].
  - apply StronglySorted_app_1_r in Hsort. by apply StronglySorted_inv in Hsort as [_ ?].
Qed.

(** How many of the numbers are at least [x]. *)
Definition at_least (x : Z) (l : list Z) : nat := length (filter (fun y => x <= y) l).

(** The blocks that the producers imply to be irreversible, the next producer's
    being the block proposed last. *)
Definition implied_irreversible (s : block_header_state_legacy_common) (producer_of_next_block : Z) : list Z :=
  (fun i => if i.1 =? producer_of_next_block then dpos_proposed_irreversible_blocknum s else i.2)
  <$> map_to_list (producer_to_last_implied_irb s).

Lemma at_least_perm x l l' : Permutation l l' -> at_least x l = at_least x l'.
Proof. intros H. unfold at_least. by rewrite H. Qed.

Lemma at_least_app x l l' : at_least x (l ++ l') = (at_least x l + at_least x l')%nat.
Proof. unfold at_least. by rewrite filter_app, length_app. Qed.

Lemma at_least_all x l : Forall (fun y => x <= y) l -> at_least x l = length l.
Proof. intros H. unfold at_least. by rewrite filter_all by (by apply Forall_forall). Qed.

Lemma at_least_le x l : (at_least x l <= length l)%nat.
Proof. apply length_filter. Qed.

(** The block that [calc_dpos_last_irreversible] returns is one that a
    producer implies to be irreversible, and it is the greatest number that more
    than two thirds of the producers imply or exceed; no producer, no block. *)
Theorem calc_dpos_last_irreversible_two_thirds (s : block_header_state_legacy_common) (producer_of_next_block : Z) :
  let l := implied_irreversible s producer_of_next_block in
  let lib := calc_dpos_last_irreversible s producer_of_next_block in
  match l with
  | [] => lib = 0
  | _ => lib ∈ l /\ (2 * length l < 3 * at_least lib l)%nat /\
         forall x, (2 * length l < 3 * at_least x l)%nat -> x <= lib
  end.
Proof.
  cbv zeta. unfold calc_dpos_last_irreversible. fold (implied_irreversible s producer_of_next_block).
  set (l := implied_irreversible s producer_of_next_block). clearbody l.
  destruct l as [|a l0]; [done|]. set (l := a :: l0). set (i := ((length l - 1) / 3)%nat).
  assert (Hlen : (1 <= length l)%nat) by (cbn; lia).
  assert (Hi : (3 * i <= length l - 1 < 3 * i + 3)%nat).
  { unfold i. pose proof (Nat.div_mod_eq (length l - 1) 3). pose proof (Nat.mod_upper_bound (length l - 1) 3). lia. }
  destruct (nth_element_spec l i ltac:(lia)) as (before & after & Hperm & Hb & Hle & Hge).
  set (m := nth_element l i) in *. pose proof (Permutation_length Hperm) as Hl. rewrite length_app in Hl. cbn [length] in Hl.
  split_and!.
  - rewrite Hperm. set_solver.
  - rewrite (at_least_perm _ _ _ Hperm), at_least_app, (at_least_all m (m :: after)) by (by constructor). cbn [length]. lia.
  - intros x Hx. destruct (Z.le_gt_cases x m) as [|Hgt]; [done|exfalso].
    rewrite (at_least_perm _ _ _ Hperm), at_least_app in Hx.
    assert (H0 : at_least x before = 0%nat).
    { unfold at_least. rewrite filter_none; [done|]. intros y Hy. rewrite Forall_forall in Hle. specialize (Hle y Hy). lia. }
    assert (H1 : at_least x (m :: after) = at_least x after).
    { unfold at_least. rewrite filter_cons_False; [done|lia]. }
    pose proof (at_least_le x after). rewrite H0, H1 in Hx. lia.
Qed.

(** ** Counting confirmations *)

(** The counts with the [q] before position [m] one less. *)
Definition decremented (m : nat) (q : Z) (counts : list Z) : list Z :=
  imap (fun j c => if (Z.of_nat m - q <=? Z.of_nat j) && (j <? m)%nat then c - 1 else c) counts.

Lemma decremented_lookup m q counts j :
  decremented m q counts !! j =
  (fun c => if (Z.of_nat m - q <=? Z.of_nat j) && (j <? m)%nat then c - 1 else c) <$> counts !! j.
Proof. unfold decremented. by rewrite list_lookup_imap. Qed.

Lemma decremented_none m q counts : q = 0 \/ m = 0%nat -> decremented m q counts = counts.
Proof.
  intros H. apply list_eq. intros j. rewrite decremented_lookup. destruct (counts !! j) as [c|]; [|done]. cbn [fmap option_fmap option_map]. f_equal.
  destruct (_ && _) eqn:E; [|done]. apply andb_true_iff in E as [E1%Z.leb_le E2%Nat.ltb_lt]. lia.
Qed.

Lemma decremented_S m q counts c : 0 < q -> counts !! m = Some c ->
  decremented m (q - 1) (<[m := c - 1]> counts) = decremented (S m) q counts.
Proof.
  intros Hq Hc. pose proof (lookup_lt_Some _ _ _ Hc). apply list_eq. intros j. rewrite !decremented_lookup.
  destruct (decide (j = m)) as [->|Hne].
  - rewrite list_lookup_insert_eq, Hc by done. cbn [fmap option_fmap option_map]. f_equal.
    rewrite (proj2 (Nat.ltb_ge m m)), andb_false_r by lia. rewrite (proj2 (Nat.ltb_lt m (S m))), andb_true_r by lia.
    by rewrite (proj2 (Z.leb_le _ _)) by lia.
  - rewrite list_lookup_insert_ne by done. destruct (counts !! j) as [x|]; [|done]. cbn [fmap option_fmap option_map]. f_equal.
    replace (Z.of_nat m - (q - 1)) with (Z.of_nat (S m) - q) by lia.
    replace (j <? S m)%nat with (j <? m)%nat; [done|].
    destruct (Nat.ltb_spec j m), (Nat.ltb_spec j (S m)); lia || done.
Qed.

(** The loop: either nothing becomes proposed irreversible, or the last block
    whose count comes to zero does and the counts up to its are dropped. *)
Lemma confirm_blocks_spec m q N counts proposed : 0 <= q -> (m <= length counts)%nat ->
  (forall j c, counts !! j = Some c -> 1 <= c < 2 ^ 8) ->
  exists d, (d <= m)%nat /\ (confirm_blocks m q N counts proposed).1 = drop d (decremented m q counts) /\
    (forall j c, (d <= j)%nat -> decremented m q counts !! j = Some c -> 1 <= c < 2 ^ 8) /\
    ((d = 0%nat /\ (confirm_blocks m q N counts proposed).2 = proposed) \/
     (exists i, d = S i /\ decremented m q counts !! i = Some 0 /\
        (confirm_blocks m q N counts proposed).2 = wrap32 (N - (size_of counts - 1 - Z.of_nat i)))).
Proof.
  revert q counts. induction m as [|i IH]; intros q counts Hq Hm Hc; cbn [confirm_blocks].
  - exists 0%nat. rewrite decremented_none by auto. split_and!; [lia|done|intros j c _; apply Hc|by left].
  - destruct (Z.eqb_spec q 0) as [->|Hq0].
    { exists 0%nat. rewrite decremented_none by auto. split_and!; [lia|done|intros j c _; apply Hc|by left]. }
    destruct (counts !! i) as [c|] eqn:Hi; [|apply lookup_ge_None in Hi; lia]. change (default 0 (Some c)) with c.
    pose proof (Hc _ _ Hi) as Hcb. rewrite Z.mod_small by lia. cbv zeta.
    rewrite <- (decremented_S i q counts c) by (done || lia).
    destruct (Z.eqb_spec (c - 1) 0) as [Hz|Hnz].
    + exists (S i). cbn [fst snd]. rewrite Hz. split_and!; [lia| | |right; exists i; split_and!; [done| |]].
      * apply list_eq. intros j. rewrite !lookup_drop, decremented_lookup.
        destruct (_ !! (S i + j)%nat) as [x|]; [|done]. cbn [fmap option_fmap option_map]. f_equal.
        by rewrite (proj2 (Nat.ltb_ge (S i + j) i)), andb_false_r by lia.
      * intros j x Hj. rewrite decremented_lookup, list_lookup_insert_ne by lia. destruct (counts !! j) as [y|] eqn:Hy; [|done].
        rewrite (proj2 (Nat.ltb_ge j i)), andb_false_r by lia. intros [= <-]. by apply Hc with j.
      * rewrite decremented_lookup, list_lookup_insert_eq by (by eapply lookup_lt_Some). cbn [fmap option_fmap option_map]. f_equal.
        by rewrite (proj2 (Nat.ltb_ge i i)), andb_false_r by lia.
      * unfold size_of. by rewrite length_insert.
    + destruct (IH (q - 1) (<[i := c - 1]> counts)) as (d & Hd & E1 & Hpos & E2); [lia|rewrite length_insert; lia| |].
      { intros j x [(<- & <- & _)|[_ Hj]]%list_lookup_insert_Some; [lia|by apply Hc with j]. }
      exists d. split_and!; [lia|done|done|]. destruct E2 as [E2|(k & -> & Hk & E2)]; [by left|]. right. exists k.
      split_and!; [done..|]. rewrite E2. unfold size_of. by rewrite length_insert.
Qed.

Lemma decremented_length m q counts : length (decremented m q counts) = length counts.
Proof. apply length_imap. Qed.

(** ** Branches *)

(** What a block of the branch confirms: the block itself and the
    [conf_confirmed] blocks before it; it was signed under a schedule of
    [conf_producers] producers. *)
Record confirmation : Set := Confirmation {
  conf_num : Z;
  conf_producer : Z;
  conf_confirmed : Z;
  conf_producers : nat
}.

Definition confirms (b : confirmation) (k : Z) : bool := (conf_num b - conf_confirmed b <=? k) && (k <=? conf_num b).
(** The producers of the blocks that confirm block [k]. *)
Definition confirmers (blocks : list confirmation) (k : Z) : list Z := conf_producer <$> filter (fun b => confirms b k = true) blocks.

Section Branch.
Context {hasher : Sha256Hash} {keyok : BlsKeyValid} {recover : RecoverKey}.

(** The two ways to complete a pending state. *)
Definition completes (p : pending_block_header_state_legacy) (s : block_header_state_legacy) : Prop :=
  (exists h signature additional pfs validator skip, finish_next_received p h signature additional pfs validator skip = Ok s) \/
  (exists h pfs validator signer, finish_next_produced p h pfs validator signer = Ok s).

(** Branches from the genesis block, last block first. *)
Inductive legacy_branch : list confirmation -> block_header_state_legacy -> Prop :=
| branch_genesis key ts account chain_id s : legacy_genesis key ts account chain_id = Ok s -> legacy_branch [] s
| branch_next blocks s when conf p s' : legacy_branch blocks s ->
    0 <= conf < 2 ^ 16 -> block_num (common s) + 1 < 2 ^ 32 ->
    (length (producers (active_schedule (common s))) <= 125)%nat ->   (* [config::max_producers] *)
    next s when conf = Ok p -> completes p s' ->
    legacy_branch (Confirmation (block_num (common s) + 1) (producer p) conf (length (producers (active_schedule (common s)))) :: blocks) s'.

(** No block declares that it confirms more blocks than there are before it.
    The code does not check it. *)
Definition counts_within (blocks : list confirmation) : Prop := Forall (fun b => conf_confirmed b <= conf_num b) blocks.

Lemma finish_next_header_common p h signature pfs validator s : finish_next_header p h signature pfs validator = Ok s ->
  common s = pending_common p /\
  (schedule_lib_num (pending_schedule s) = block_num (pending_common p) \/
   (schedule_lib_num (pending_schedule s) = schedule_lib_num (prev_pending_schedule p) /\
    producers (schedule (pending_schedule s)) = if was_pending_promoted p then [] else producers (schedule (prev_pending_schedule p)))).
Proof.
  unfold finish_next_header. intros H. inv_result. split; [done|]. cbn.
  match goal with |- context [match ?o with Some _ => _ | None => _ end] => destruct o as [[sched d]|] end; [by left|right].
  split; [done|]. by destruct (was_pending_promoted p).
Qed.

Lemma completes_common p s : completes p s ->
  common s = pending_common p /\
  (schedule_lib_num (pending_schedule s) = block_num (pending_common p) \/
   (schedule_lib_num (pending_schedule s) = schedule_lib_num (prev_pending_schedule p) /\
    producers (schedule (pending_schedule s)) = if was_pending_promoted p then [] else producers (schedule (prev_pending_schedule p)))).
Proof.
  intros [(h & sig & add & pfs & v & skip & H)|(h & pfs & v & signer & H)].
  - unfold finish_next_received in H. inv_result.
    by match goal with H : finish_next_header _ _ _ _ _ = Ok _ |- _ => apply finish_next_header_common in H end.
  - unfold finish_next_produced, sign in H. inv_result.
    destruct (last _) as [sig|]; [|done]. inv_result.
    by match goal with H : finish_next_header _ _ _ _ _ = Ok _ |- _ => apply finish_next_header_common in H end.
Qed.

(** *** What [next] computes *)

Definition counted (c : block_header_state_legacy_common) (conf : Z) : list Z * Z :=
  let counts := grow_confirm_count (confirm_count c) (wrap32 (size_of (producers (active_schedule c)) * 2 / 3) + 1) in
  confirm_blocks (length counts) (conf + 1) (wrap32 (block_num c + 1)) counts (dpos_proposed_irreversible_blocknum c).

Lemma next_inv s when conf p : next s when conf = Ok p -> let c := common s in let c' := pending_common p in
  (exists a, a ∈ producers (active_schedule c) /\ producer_name a = producer p) /\
  (forall last, producer_to_last_produced c !! producer p = Some last -> last < wrap32 (wrap32 (block_num c + 1) - conf)) /\
  block_num c' = wrap32 (block_num c + 1) /\ confirm_count c' = (counted c conf).1 /\
  dpos_proposed_irreversible_blocknum c' = (counted c conf).2 /\
  dpos_irreversible_blocknum c' = calc_dpos_last_irreversible c (producer p) /\
  prev_pending_schedule p = pending_schedule s /\
  (if was_pending_promoted p then
     producers (schedule (pending_schedule s)) <> [] /\ schedule_lib_num (pending_schedule s) <= dpos_irreversible_blocknum c' /\
     active_schedule c' = schedule (pending_schedule s) /\
     producer_to_last_produced c' = <[producer p := block_num c']> (promoted_map (producers (active_schedule c')) (producer_to_last_produced c)
       (producer p) (block_num c') (dpos_irreversible_blocknum c')) /\
     producer_to_last_implied_irb c' = promoted_map (producers (active_schedule c')) (producer_to_last_implied_irb c)
       (producer p) (dpos_proposed_irreversible_blocknum c) (dpos_irreversible_blocknum c')
   else
     active_schedule c' = active_schedule c /\
     producer_to_last_produced c' = <[producer p := block_num c']> (producer_to_last_produced c) /\
     producer_to_last_implied_irb c' = <[producer p := dpos_proposed_irreversible_blocknum c]> (producer_to_last_implied_irb c)).
Proof.
  intros H. cbv zeta. unfold next in H. cbv zeta in H. fold (counted (common s) conf) in H. inv_result. cbn.
  split_and!; try done.
  - unfold get_scheduled_producer in *. inv_result. eexists. split; [by eapply list_elem_of_lookup_2|done].
  - intros last Hl. rewrite Hl in *. by apply Z.ltb_lt.
  - destruct (_ && _) eqn:Ep; [|done]. apply andb_true_iff in Ep as [Ep1 Ep2%Z.leb_le].
    split_and!; [by intros E'; rewrite E' in Ep1|done..].
Qed.

(** *** Blocks that two thirds confirm *)

Definition required (b : confirmation) : Z := Z.of_nat (conf_producers b) * 2 / 3 + 1.
Definition two_thirds (blocks : list confirmation) (k : Z) : Prop :=
  exists b, b ∈ blocks /\ conf_num b = k /\ required b <= Z.of_nat (length (confirmers blocks k)).
(** No block yet, or one that two thirds confirm. *)
Definition settled (blocks : list confirmation) (bound v : Z) : Prop := 0 <= v <= bound /\ (v = 0 \/ two_thirds blocks v).

Lemma confirmers_cons b blocks k :
  confirmers (b :: blocks) k = if confirms b k then conf_producer b :: confirmers blocks k else confirmers blocks k.
Proof.
  unfold confirmers. destruct (confirms b k) eqn:E; [by rewrite filter_cons_True|]. by rewrite filter_cons_False by (by rewrite E).
Qed.

Lemma elem_of_confirmers blocks k a : a ∈ confirmers blocks k <-> exists b, b ∈ blocks /\ conf_producer b = a /\ confirms b k = true.
Proof.
  unfold confirmers. rewrite list_elem_of_fmap. split.
  - intros (b & -> & [Hb Hin]%list_elem_of_filter). by exists b.
  - intros (b & Hin & <- & Hb). exists b. split; [done|]. by apply list_elem_of_filter.
Qed.

Lemma confirms_iff b k : confirms b k = true <-> conf_num b - conf_confirmed b <= k <= conf_num b.
Proof. unfold confirms. rewrite andb_true_iff, !Z.leb_le. done. Qed.

Lemma confirmers_above blocks k : (forall b, b ∈ blocks -> conf_num b < k) -> confirmers blocks k = [].
Proof.
  intros H. unfold confirmers. rewrite filter_none; [done|]. intros b Hb Hc%confirms_iff. specialize (H b Hb). lia.
Qed.

Lemma confirmers_cons_le b blocks k : (length (confirmers blocks k) <= length (confirmers (b :: blocks) k))%nat.
Proof. rewrite confirmers_cons. destruct (confirms b k); cbn; lia. Qed.

Lemma two_thirds_cons b blocks k : two_thirds blocks k -> two_thirds (b :: blocks) k.
Proof.
  intros (b0 & Hin & Hk & Hr). exists b0. split_and!; [by right|done|].
  pose proof (confirmers_cons_le b blocks k). lia.
Qed.

Lemma settled_cons b blocks bound bound' v : settled blocks bound v -> bound <= bound' -> settled (b :: blocks) bound' v.
Proof. intros [Hv Ht] Hb. split; [lia|]. destruct Ht as [->|Ht]; [by left|right; by apply two_thirds_cons]. Qed.

Lemma calc_dpos_elem c name :
  calc_dpos_last_irreversible c name = 0 \/ calc_dpos_last_irreversible c name ∈ implied_irreversible c name.
Proof.
  unfold calc_dpos_last_irreversible. fold (implied_irreversible c name). set (l := implied_irreversible c name). clearbody l.
  destruct l as [|a l0]; [by left|right]. set (l := a :: l0).
  assert (Hi : ((length l - 1) / 3 < length l)%nat).
  { apply Nat.le_lt_trans with (length l - 1)%nat; [|cbn; lia]. apply Nat.Div0.div_le_upper_bound. cbn. lia. }
  destruct (nth_element_spec l _ Hi) as (before & after & Hperm & _). set (m := nth_element l _) in *.
  rewrite Hperm. set_solver.
Qed.

Lemma promoted_map_lookup ps existing block_producer own fallback a :
  promoted_map ps existing block_producer own fallback !! a =
  if decide (a ∈ producer_name <$> ps) then Some (if a =? block_producer then own else default fallback (existing !! a)) else None.
Proof.
  unfold promoted_map. induction ps as [|p ps IH] using rev_ind; [by rewrite decide_False by (by intros ?%elem_of_nil)|].
  rewrite foldl_snoc. destruct (decide (producer_name p = a)) as [Ea|Hne]; [subst a|].
  - rewrite lookup_insert_eq, decide_True; [done|]. rewrite fmap_app. apply elem_of_app. right. by left.
  - rewrite lookup_insert_ne, IH by done. rewrite fmap_app.
    assert (E : a ∈ (producer_name <$> ps) ++ (producer_name <$> [p]) <-> a ∈ producer_name <$> ps).
    { rewrite elem_of_app. split; [|by left]. intros [?|Ha%list_elem_of_singleton]; [done|]. by subst a. }
    by apply decide_ext.
Qed.

(** *** The invariant of a branch *)

(** Position [j] of the counts: what block is counted, how many it lacks. *)
Definition tracked (blocks : list confirmation) (N : Z) (counts : list Z) : Prop :=
  forall j x, counts !! j = Some x -> 1 <= x < 2 ^ 8 /\
    exists b, b ∈ blocks /\ conf_num b = N - (size_of counts - 1 - Z.of_nat j) /\
      x + Z.of_nat (length (confirmers blocks (conf_num b))) = required b.

(** The blocks by a producer are at or before its last; a producer without an
    entry is not in the schedule, and not before the pending one's. *)
Definition last_ok (blocks : list confirmation) (s : block_header_state_legacy) : Prop :=
  forall b, b ∈ blocks ->
    match producer_to_last_produced (common s) !! conf_producer b with
    | Some v => conf_num b <= v
    | None => ~ (conf_producer b ∈ producer_name <$> producers (active_schedule (common s))) /\
        (producers (schedule (pending_schedule s)) <> [] -> conf_num b <= schedule_lib_num (pending_schedule s))
    end.

Record branch_inv (blocks : list confirmation) (s : block_header_state_legacy) : Prop := {
  bi_num : 1 <= block_num (common s) < 2 ^ 32;
  bi_nums : forall b, b ∈ blocks -> conf_num b <= block_num (common s);
  bi_tracked : tracked blocks (block_num (common s)) (confirm_count (common s));
  bi_window : 0 <= dpos_proposed_irreversible_blocknum (common s) /\
    dpos_proposed_irreversible_blocknum (common s) + size_of (confirm_count (common s)) <= block_num (common s);
  bi_last : last_ok blocks s;
  bi_nodup : forall k, NoDup (confirmers blocks k);
  bi_proposed : settled blocks (block_num (common s)) (dpos_proposed_irreversible_blocknum (common s));
  bi_lib : settled blocks (dpos_proposed_irreversible_blocknum (common s)) (dpos_irreversible_blocknum (common s));
  bi_implied : forall a v, producer_to_last_implied_irb (common s) !! a = Some v ->
    settled blocks (dpos_proposed_irreversible_blocknum (common s)) v
}.

(** The counts once the new block [b] is counted. *)
Lemma counted_tracked blocks c (b : confirmation) :
  let N := block_num c + 1 in
  1 <= block_num c -> N < 2 ^ 32 -> (forall b', b' ∈ blocks -> conf_num b' <= block_num c) ->
  tracked blocks (block_num c) (confirm_count c) -> 0 <= dpos_proposed_irreversible_blocknum c ->
  dpos_proposed_irreversible_blocknum c + size_of (confirm_count c) <= block_num c ->
  conf_num b = N -> 0 <= conf_confirmed b -> conf_producers b = length (producers (active_schedule c)) -> (conf_producers b <= 125)%nat ->
  settled blocks (block_num c) (dpos_proposed_irreversible_blocknum c) ->
  let r := counted c (conf_confirmed b) in
  tracked (b :: blocks) N r.1 /\ dpos_proposed_irreversible_blocknum c <= r.2 /\ r.2 + size_of r.1 <= N /\
  settled (b :: blocks) N r.2.
Proof.
  intros N HN0 HN Hnums Htr Hp0 Hwin Hb Hconf Hbn Hle Hset r.
  assert (Hreq : (wrap32 (size_of (producers (active_schedule c)) * 2 / 3) + 1) mod 2 ^ 8 = required b /\ 1 <= required b < 2 ^ 8).
  { unfold required, size_of. rewrite <- Hbn. rewrite wrap32_id by (unfold_widths; lia_div). rewrite Z.mod_small by lia_div. lia_div. }
  destruct Hreq as [Hreq Hrb].
  unfold r, counted, grow_confirm_count. rewrite Hreq. clear r Hreq. rewrite wrap32_id by (unfold_widths; lia). fold N.
  set (old := if (length (confirm_count c) <? maximum_tracked_dpos_confirmations)%nat then confirm_count c else drop 1 (confirm_count c)).
  assert (Hold : exists e, old = drop e (confirm_count c)) by (unfold old; destruct (_ <? _)%nat; [by exists 0%nat|by exists 1%nat]).
  destruct Hold as [e He]. clearbody old. subst old. set (counts := drop e (confirm_count c) ++ [required b]).
  assert (Hlen : (length counts <= length (confirm_count c) + 1)%nat) by (unfold counts; rewrite length_app, length_drop; cbn; lia).
  assert (Hin : forall j x, counts !! j = Some x -> 1 <= x < 2 ^ 8 /\ exists b', b' ∈ b :: blocks /\
      conf_num b' = N - (size_of counts - 1 - Z.of_nat j) /\ x + Z.of_nat (length (confirmers blocks (conf_num b'))) = required b').
  { intros j x Hj. unfold counts in Hj |- *. apply lookup_app_Some in Hj as [Hj|[Hj1 Hj2]].
    - rewrite lookup_drop in Hj. pose proof (lookup_lt_Some _ _ _ Hj). destruct (Htr _ _ Hj) as (? & b' & ? & E & ?).
      split; [done|]. exists b'. split_and!; [by right| |done]. unfold size_of in *. rewrite length_app, length_drop. cbn. lia.
    - apply list_lookup_singleton_Some in Hj2 as [Hj2 <-]. split; [done|]. exists b. split_and!; [by left| |].
      + unfold size_of in *. rewrite length_app. cbn. lia.
      + rewrite Hb, confirmers_above; [cbn; lia|]. intros b' Hb'. specialize (Hnums b' Hb'). lia. }
  destruct (confirm_blocks_spec (length counts) (conf_confirmed b + 1) N counts (dpos_proposed_irreversible_blocknum c))
    as (d & Hd & E1 & Hpos & E2); [lia|done|by intros j x Hj; apply (Hin j x Hj)|].
  set (res := confirm_blocks _ _ _ _ _) in *. clearbody res.
  assert (Hdec : forall j y, decremented (length counts) (conf_confirmed b + 1) counts !! j = Some y -> exists b', b' ∈ b :: blocks /\
      conf_num b' = N - (size_of counts - 1 - Z.of_nat j) /\
      y + Z.of_nat (length (confirmers (b :: blocks) (conf_num b'))) = required b').
  { intros j y. rewrite decremented_lookup. destruct (counts !! j) as [x|] eqn:Hj; [|done]. intros [= <-].
    pose proof (lookup_lt_Some _ _ _ Hj). destruct (Hin _ _ Hj) as (_ & b' & Hb' & Hk & Hx). exists b'. split_and!; [done..|].
    rewrite confirmers_cons. rewrite (proj2 (Nat.ltb_lt j _)), andb_true_r by done.
    replace (Z.of_nat (length counts) - (conf_confirmed b + 1) <=? Z.of_nat j) with (confirms b (conf_num b')).
    - destruct (confirms b _); cbn; lia.
    - apply eq_true_iff_eq. rewrite confirms_iff, Z.leb_le. unfold size_of in *. lia. }
  assert (Hsize : size_of res.1 = size_of counts - Z.of_nat d).
  { rewrite E1. unfold size_of. rewrite length_drop, decremented_length. lia. }
  split.
  - intros j y Hj. rewrite E1, lookup_drop in Hj. split; [apply (Hpos (d + j)%nat); [lia|done]|].
    destruct (Hdec _ _ Hj) as (b' & ? & Hk & ?). exists b'. split_and!; [done| |done]. rewrite Hk, Hsize. lia.
  - destruct E2 as [[-> E2]|(i & -> & Hi & E2)].
    + rewrite E2. split_and!; [lia|rewrite Hsize; unfold size_of in *; lia|]. apply settled_cons with (block_num c); [done|lia].
    + pose proof (lookup_lt_Some _ _ _ Hi) as Hilt. rewrite decremented_length in Hilt.
      rewrite wrap32_id in E2 by (unfold_widths; lia). rewrite E2. unfold size_of in *. split_and!; [lia|lia|].
      destruct (Hdec _ _ Hi) as (b' & ? & Hk & Hr). split; [lia|right]. exists b'. unfold size_of in *. rewrite <- Hk. split_and!; [done..|lia].
Qed.

(** The next block by a producer confirms only blocks after its last one. *)
Lemma next_confirms_later blocks s when conf p b : branch_inv blocks s -> next s when conf = Ok p ->
  0 <= conf <= block_num (common s) + 1 -> block_num (common s) + 1 < 2 ^ 32 ->
  b ∈ blocks -> conf_producer b = producer p -> conf_num b < block_num (common s) + 1 - conf.
Proof.
  intros Hinv Hnext Hconf HN Hb Hp. destruct (next_inv _ _ _ _ Hnext) as ((a & Ha & Hname) & Hlast & _).
  pose proof (bi_last _ _ Hinv b Hb) as Hl. rewrite Hp in Hl. pose proof (bi_num _ _ Hinv).
  destruct (producer_to_last_produced (common s) !! producer p) as [v|] eqn:Ev.
  - specialize (Hlast v eq_refl). rewrite !wrap32_id in Hlast by (unfold_widths; rewrite ?wrap32_id by (unfold_widths; lia); lia). lia.
  - destruct Hl as [Hn _]. exfalso. apply Hn. apply list_elem_of_fmap. by exists a.
Qed.

Lemma next_lib_settled blocks s a : branch_inv blocks s ->
  settled blocks (dpos_proposed_irreversible_blocknum (common s)) (calc_dpos_last_irreversible (common s) a).
Proof.
  intros Hinv. destruct (bi_proposed _ _ Hinv) as [Hb Hp].
  destruct (calc_dpos_elem (common s) a) as [->|Hin]; [split; [lia|by left]|].
  apply list_elem_of_fmap in Hin as ([a' v] & -> & Hin%elem_of_map_to_list). cbn. destruct (a' =? a).
  - split; [lia|done].
  - by apply (bi_implied _ _ Hinv a').
Qed.

Lemma last_ok_step blocks s when conf p s' : branch_inv blocks s -> next s when conf = Ok p -> completes p s' ->
  block_num (common s) + 1 < 2 ^ 32 -> forall n,
  last_ok (Confirmation (block_num (common s) + 1) (producer p) conf n :: blocks) s'.
Proof.
  intros Hinv Hnext Hcomp HN n. pose proof (bi_num _ _ Hinv) as HN1.
  destruct (next_inv _ _ _ _ Hnext) as (_ & _ & Hnum & _ & _ & _ & Hprev & Hprom).
  destruct (completes_common _ _ Hcomp) as [Hc Hpend]. rewrite wrap32_id in Hnum by (unfold_widths; lia).
  intros b Hb. rewrite Hc.
  assert (Hle : conf_num b <= block_num (common s) + 1).
  { apply elem_of_cons in Hb as [->|Hb]; [cbn; lia|]. pose proof (bi_nums _ _ Hinv b Hb). lia. }
  destruct (was_pending_promoted p).
  - destruct Hprom as (Hne & Hlib & Hact & -> & _). destruct (decide (conf_producer b = producer p)) as [->|Hbp].
    { rewrite lookup_insert_eq. lia. }
    rewrite lookup_insert_ne by done. rewrite promoted_map_lookup. apply elem_of_cons in Hb as [->|Hb]; [done|].
    case_decide as Hin.
    + rewrite (proj2 (Z.eqb_neq _ _) Hbp). pose proof (bi_last _ _ Hinv b Hb) as Hl.
      destruct (producer_to_last_produced (common s) !! conf_producer b) as [v|]; cbn; [done|]. destruct Hl as [_ Hl]. specialize (Hl Hne). lia.
    + split; [done|]. intros Hne'. destruct Hpend as [->|[_ E]]; [lia|done].
  - destruct Hprom as (Hact & -> & _). destruct (decide (conf_producer b = producer p)) as [->|Hbp].
    { rewrite lookup_insert_eq. lia. }
    rewrite lookup_insert_ne by done. apply elem_of_cons in Hb as [->|Hb]; [done|].
    pose proof (bi_last _ _ Hinv b Hb) as Hl. destruct (producer_to_last_produced (common s) !! conf_producer b) as [v|]; [done|].
    rewrite Hact. destruct Hl as [Hn Hl]. split; [done|]. intros Hne'. destruct Hpend as [->|[-> E]]; [lia|]. rewrite Hprev in *.
    apply Hl. congruence.
Qed.

Lemma branch_inv_step blocks s when conf p s' : branch_inv blocks s -> 0 <= conf <= block_num (common s) + 1 ->
  block_num (common s) + 1 < 2 ^ 32 -> (length (producers (active_schedule (common s))) <= 125)%nat ->
  next s when conf = Ok p -> completes p s' ->
  branch_inv (Confirmation (block_num (common s) + 1) (producer p) conf (length (producers (active_schedule (common s)))) :: blocks) s'.
Proof.
  intros Hinv Hconf HN Hlen Hnext Hcomp. pose proof (bi_num _ _ Hinv) as HN1.
  pose proof (last_ok_step _ _ _ _ _ _ Hinv Hnext Hcomp HN (length (producers (active_schedule (common s))))) as Hlast.
  pose proof (fun b Hb Hp => next_confirms_later _ _ _ _ _ b Hinv Hnext Hconf HN Hb Hp) as Hlater.
  destruct (next_inv _ _ _ _ Hnext) as (_ & _ & Hnum & Hcc & Hprop & Hlib & _ & Hprom).
  rewrite wrap32_id in Hnum by (unfold_widths; lia).
  set (b0 := Confirmation _ _ _ _) in *.
  destruct (counted_tracked blocks (common s) b0 ltac:(lia) HN (bi_nums _ _ Hinv) (bi_tracked _ _ Hinv) (proj1 (bi_window _ _ Hinv))
    (proj2 (bi_window _ _ Hinv)) eq_refl (proj1 Hconf) eq_refl Hlen (bi_proposed _ _ Hinv)) as (Htr & Hmono & Hwin & Hset).
  pose proof (next_lib_settled blocks s (producer p) Hinv) as Hl.
  destruct (completes_common _ _ Hcomp) as [Hc _]. cbn [conf_confirmed b0] in Htr, Hmono, Hwin, Hset.
  pose proof (bi_window _ _ Hinv) as [Hw0 Hw].
  split; rewrite ?Hc, ?Hnum, ?Hcc, ?Hprop, ?Hlib; try done.
  - lia.
  - intros b Hb. apply elem_of_cons in Hb as [->|Hb]; [cbn; lia|]. pose proof (bi_nums _ _ Hinv b Hb). lia.
  - lia.
  - intros k. rewrite confirmers_cons. destruct (confirms b0 k) eqn:Ek; [|apply Hinv]. constructor; [|apply Hinv].
    intros (b & Hb & Hbp & Hbk%confirms_iff)%elem_of_confirmers. apply confirms_iff in Ek. specialize (Hlater b Hb Hbp). cbn in Ek. lia.
  - by apply settled_cons with (dpos_proposed_irreversible_blocknum (common s)).
  - assert (Hown : settled (b0 :: blocks) (counted (common s) conf).2 (dpos_proposed_irreversible_blocknum (common s))).
    { apply settled_cons with (dpos_proposed_irreversible_blocknum (common s)); [|done]. destruct (bi_proposed _ _ Hinv) as [? ?]. by split; [lia|]. }
    assert (Hold : forall a v, producer_to_last_implied_irb (common s) !! a = Some v -> settled (b0 :: blocks) (counted (common s) conf).2 v).
    { intros a v Hv. apply settled_cons with (dpos_proposed_irreversible_blocknum (common s)); [by apply (bi_implied _ _ Hinv a)|done]. }
    intros a v Hv. destruct (was_pending_promoted p).
    + destruct Hprom as (_ & _ & _ & _ & E). rewrite E, promoted_map_lookup in Hv. case_decide; [|done]. injection Hv as <-.
      destruct (a =? producer p); [done|]. destruct (producer_to_last_implied_irb (common s) !! a) as [v|] eqn:Ev; cbn; [by apply (Hold a)|].
      rewrite Hlib. by apply settled_cons with (dpos_proposed_irreversible_blocknum (common s)).
    + destruct Hprom as (_ & _ & E). rewrite E in Hv. apply lookup_insert_Some in Hv as [[_ <-]|[_ Hv]]; [done|by apply (Hold a)].
Qed.

Lemma legacy_branch_inv blocks s : legacy_branch blocks s -> counts_within blocks -> branch_inv blocks s.
Proof.
  induction 1 as [key ts account chain_id s H|blocks s when conf p s' _ IH Hconf HN Hlen Hnext Hcomp]; intros Hin.
  2:{ apply Forall_cons in Hin as [Hc Hin]. cbn in Hc. eapply branch_inv_step; [by apply IH|lia|done..]. }
  unfold legacy_genesis in H. cbv zeta in H. inv_result.
  assert (Hs : forall v, 0 <= v -> settled [] v 0) by (intros v Hv; split; [lia|by left]).
  split; cbn [common block_num confirm_count dpos_proposed_irreversible_blocknum dpos_irreversible_blocknum
    producer_to_last_implied_irb]; change (header_block_num _) with 1; try done; try (by apply Hs); try (by intros b ?%elem_of_nil); try lia.
  intros k. constructor.
Qed.

Lemma settled_supported blocks s v : legacy_branch blocks s -> counts_within blocks -> settled blocks (block_num (common s)) v -> v <> 0 ->
  exists b, b ∈ blocks /\ conf_num b = v /\ NoDup (confirmers blocks v) /\
    2 * Z.of_nat (conf_producers b) < 3 * Z.of_nat (length (confirmers blocks v)).
Proof.
  intros H0 Hin. pose proof (legacy_branch_inv _ _ H0 Hin) as H. intros [_ [->|(b & Hb & Hk & Hr)]] Hv; [done|]. exists b. split_and!; [done..|apply H|].
  unfold required in Hr. lia_div.
Qed.

(** C14: The DPoS promise.  On a branch from the genesis block, through any change
    of schedule, with at most 125 producers, and as long as no block declares that
    it confirms more blocks than its own number, the block proposed as
    irreversible and the irreversible block are each either none or a block of the
    branch that was confirmed -- signed, or covered by the count that a later
    block declares -- by distinct producers, more than two thirds as many as were
    scheduled when it was made; and irreversible <= proposed <= head.  (The code
    does not check the count: with a larger one the comparison that keeps a
    producer from confirming twice wraps, [double_confirm_check_wraps].) *)
Theorem dpos_confirmed_by_two_thirds (blocks : list confirmation) (s : block_header_state_legacy) (H : legacy_branch blocks s) (Hin : counts_within blocks) :
  0 <= dpos_irreversible_blocknum (common s) <= dpos_proposed_irreversible_blocknum (common s) /\
  dpos_proposed_irreversible_blocknum (common s) <= block_num (common s) /\
  forall v, v <> 0 -> (v = dpos_irreversible_blocknum (common s) \/ v = dpos_proposed_irreversible_blocknum (common s)) ->
    exists b, b ∈ blocks /\ conf_num b = v /\ NoDup (confirmers blocks v) /\
      2 * Z.of_nat (conf_producers b) < 3 * Z.of_nat (length (confirmers blocks v)).
Proof.
  pose proof (legacy_branch_inv _ _ H Hin) as Hinv. destruct (bi_lib _ _ Hinv) as [Hl Hl2]. destruct (bi_proposed _ _ Hinv) as [Hp Hp2].
  split_and!; [lia..|]. intros v Hv E. apply (settled_supported blocks s v H Hin); [|done]. destruct E as [->|E]; [split; [lia|done]|subst v; by split].
Qed.

(** *** Producers and receivers agree *)

Lemma finish_next_header_checks p h signature pfs validator s : finish_next_header p h signature pfs validator = Ok s ->
  header_timestamp h = timestamp p /\ BlockHeader.confirmed h = confirmed p /\
  forall signature', finish_next_header p h signature' pfs validator = Ok (with_signatures s signature' []).
Proof.
  unfold finish_next_header. intros H.
  repeat match type of H with (if ?b then _ else Throw _) = Ok _ =>
    let E := fresh "E" in destruct b eqn:E; [|discriminate H] end.
  split_and!; [by apply Z.eqb_eq|by apply Z.eqb_eq|]. intros signature'. inv_result.
  repeat match goal with Hx : ?m = Ok _ |- context [?m] => rewrite Hx; cbn end. done.
Qed.

(** Asking for the time that [next] chose gives the same pending state. *)
Lemma next_timestamp s when conf p : next s when conf = Ok p -> 0 <= header_timestamp (header s) -> header_timestamp (header s) + 1 < 2 ^ 32 ->
  confirmed p = conf /\ next s (timestamp p) conf = Ok p.
Proof.
  intros H Hts0 Hts.
  assert (E : exists t, timestamp p = t /\ confirmed p = conf /\ header_timestamp (header s) < t /\ next s t conf = Ok p).
  { unfold next in H. apply bind_Ok in H as (t & Ht & H). exists t.
    assert (Hlt : header_timestamp (header s) < t).
    { destruct (when =? 0); cbn in Ht; inv_result; [rewrite wrap32_id by (unfold_widths; lia); lia|by apply Z.ltb_lt]. }
    assert (Hn : next s t conf = Ok p).
    { unfold next. rewrite (proj2 (Z.eqb_neq t 0)) by lia. cbn [negb]. by rewrite (proj2 (Z.ltb_lt _ _) Hlt). }
    split_and!; [| |done|done]; cbv zeta in H; inv_result; done. }
  destruct E as (t & -> & -> & _ & Hn). by split.
Qed.

(** C32: A receiver agrees with the producer: a block that a node completes and
    signs is accepted by [next] on the same state, its signatures verified, and
    gives the very same state. *)
Theorem legacy_received_agrees_with_produced (s : block_header_state_legacy) (when conf : Z) (p : pending_block_header_state_legacy)
    (h : block_header) (pfs : protocol_feature_set) (validator : validator_t) (signer : digest_type -> list (list Z)) (s' : block_header_state_legacy)
    (Hnext : next s when conf = Ok p) (Hprod : finish_next_produced p h pfs validator signer = Ok s')
    (Hts0 : 0 <= header_timestamp (header s)) (Hts : header_timestamp (header s) + 1 < 2 ^ 32) :
  next_received s h (header_producer_signature s') (additional_signatures s') pfs validator false = Ok s'.
Proof.
  destruct (next_timestamp _ _ _ _ Hnext Hts0 Hts) as [Hconf Hn].
  unfold finish_next_produced, sign in Hprod. apply bind_Ok in Hprod as (s1 & H1 & Hprod).
  apply bind_Ok in Hprod as (s2 & H2 & Hprod). apply bind_Ok in H2 as (d & _ & H2). cbv zeta in H2.
  destruct (last (signer d)) as [sig|]; [|done]. apply bind_Ok in H2 as ([] & Hver & [= <-]).
  destruct (additional_signatures (with_signatures s1 sig (removelast (signer d)))) as [|a l] eqn:Eadd;
    [injection Hprod as <-|destruct (detail_is_builtin_activated _ _ _) eqn:Ew in Hprod; [injection Hprod as <-|done]];
    destruct (finish_next_header_checks _ _ _ _ _ _ H1) as (Et & Ec & Hall);
    unfold next_received; rewrite Et, Ec, Hconf, Hn; cbn [mbind result_bind]; unfold finish_next_received; rewrite Eadd, ?Ew, Hall;
    cbn [mbind result_bind]; rewrite <- Eadd; cbn in Hver |- *; by rewrite Hver.
Qed.
End Branch.

(** ** A branch *)

Definition legacy_accept : validator_t := fun _ _ _ => Ok tt.
Definition legacy_signer : digest_type -> list (list Z) := fun _ => [[1]].
Definition legacy_default : block_header_state_legacy :=
  HeaderStateLegacy (LegacyCommon 0 0 0 (ProducerAuthoritySchedule 0 []) empty_merkle_legacy ∅ ∅ (BlockSigningAuthority 0 []) [])
    sha256_default (MkBlockHeader 0 0 0 sha256_default sha256_default sha256_default 0 None []) [] (ScheduleInfo 0 sha256_default (ProducerAuthoritySchedule 0 []))
    [] [] [].

(** The next block, of the producer after this one's, with a proposed schedule;
    it is signed with the key of its producer. *)
Definition legacy_produce (s : block_header_state_legacy) (conf : Z) (schedule : option producer_authority_schedule) :
    result (pending_block_header_state_legacy * block_header * block_header_state_legacy) :=
  p ← next (hasher := example_hash) s (header_timestamp (header s) + 12) conf;
  h ← make_block_header (keyok := example_bls) p sha256_default sha256_default schedule None [] empty_feature_set;
  s' ← finish_next_produced (hasher := example_hash) (keyok := example_bls) (recover := example_recover) p h empty_feature_set legacy_accept
         (fun _ => [[producer p]]);
  Ok (p, h, s').

Definition legacy_next_state (s : block_header_state_legacy) (conf : Z) (schedule : option producer_authority_schedule) : block_header_state_legacy :=
  match legacy_produce s conf schedule with Ok r => r.2 | Throw _ => legacy_default end.
Definition legacy_block_1 : block_header_state_legacy :=
  from_ok legacy_default (legacy_genesis (hasher := example_hash) (example_key 1) 1200 1 sha256_default).
Definition legacy_block_2 := legacy_next_state legacy_block_1 0 None.
Definition legacy_block_3 := legacy_next_state legacy_block_2 0 (Some (ProducerAuthoritySchedule 1 (map example_producer [1; 2; 3; 4]))).
Definition legacy_block_4 := legacy_next_state legacy_block_3 0 None.
Definition legacy_block_5 := legacy_next_state legacy_block_4 0 None.
Definition legacy_block_6 := legacy_next_state legacy_block_5 1 None.
Definition legacy_block_7 := legacy_next_state legacy_block_6 2 None.
Definition legacy_block_8 := legacy_next_state legacy_block_7 3 None.

#[local] Existing Instance example_hash.
#[local] Existing Instance example_bls.
#[local] Existing Instance example_recover.

Definition legacy_confirmation (s : block_header_state_legacy) (conf : Z) : confirmation :=
  Confirmation (block_num (common s) + 1)
    (match next s (header_timestamp (header s) + 12) conf with Ok p => producer p | Throw _ => 0 end) conf
    (length (producers (active_schedule (common s)))).

Lemma legacy_next_state_branch blocks s conf sched : legacy_branch blocks s ->
  is_ok (legacy_produce s conf sched) && (0 <=? conf) && (conf <? 2 ^ 16) && (block_num (common s) + 1 <? 2 ^ 32) &&
    (length (producers (active_schedule (common s))) <=? 125)%nat = true ->
  legacy_branch (legacy_confirmation s conf :: blocks) (legacy_next_state s conf sched).
Proof.
  intros Hs [[[[Hok H0%Z.leb_le]%andb_true_iff H1%Z.ltb_lt]%andb_true_iff H2%Z.ltb_lt]%andb_true_iff H3%Nat.leb_le]%andb_true_iff.
  unfold legacy_next_state, legacy_confirmation, legacy_produce in *.
  destruct (next s _ conf) as [p|] eqn:Hp; [cbn [mbind result_bind] in *|done].
  destruct (make_block_header _ _ _ _ _ _ _) as [h|]; [cbn [mbind result_bind] in *|done].
  destruct (finish_next_produced _ _ _ _ _) as [s'|] eqn:Hs'; [|done]. cbn.
  eapply branch_next; [done|lia|done|done|exact Hp|]. right. by repeat eexists.
Qed.

Definition legacy_blocks_8 : list confirmation :=
  [legacy_confirmation legacy_block_7 3; legacy_confirmation legacy_block_6 2; legacy_confirmation legacy_block_5 1;
   legacy_confirmation legacy_block_4 0; legacy_confirmation legacy_block_3 0; legacy_confirmation legacy_block_2 0;
   legacy_confirmation legacy_block_1 0].

Lemma legacy_branch_8 : legacy_branch legacy_blocks_8 legacy_block_8.
Proof.
  do 7 (apply legacy_next_state_branch; [|by vm_compute]).
  eapply (branch_genesis (example_key 1) 1200 1 sha256_default). apply from_ok_Ok. by vm_compute.
Qed.

(** The irreversible block, 4, was made when there was one producer; the one
    proposed, 6, is confirmed by producers 2, 3 and 4 of four. *)
Lemma dpos_confirmed_by_two_thirds_witness :
  (dpos_irreversible_blocknum (common legacy_block_8) = 4 /\ dpos_proposed_irreversible_blocknum (common legacy_block_8) = 6 /\
   confirmers legacy_blocks_8 6 = [4; 3; 2]) /\
  exists b, b ∈ legacy_blocks_8 /\ conf_num b = 6 /\ NoDup (confirmers legacy_blocks_8 6) /\
    2 * Z.of_nat (conf_producers b) < 3 * Z.of_nat (length (confirmers legacy_blocks_8 6)).
Proof.
  split; [split_and!; by vm_compute|].
  apply (dpos_confirmed_by_two_thirds legacy_blocks_8 legacy_block_8 legacy_branch_8); [|done|right; by vm_compute].
  repeat (constructor; [by vm_compute|]). constructor.
Defined.

Definition legacy_signed : option (pending_block_header_state_legacy * block_header * block_header_state_legacy) :=
  match legacy_produce legacy_block_7 3 None with Ok r => Some r | Throw _ => None end.

Lemma legacy_received_agrees_with_produced_witness :
  match legacy_signed with
  | Some (p, h, s') => next_received legacy_block_7 h (header_producer_signature s') (additional_signatures s') empty_feature_set legacy_accept false = Ok s'
  | None => False
  end.
Proof.
  assert (Hok : is_ok (legacy_produce legacy_block_7 3 None) = true) by (by vm_compute).
  unfold legacy_signed. destruct (legacy_produce legacy_block_7 3 None) as [[[p h] s']|] eqn:E; [|discriminate Hok].
  unfold legacy_produce in E. destruct (next _ _ _) as [p0|] eqn:Hn; [|discriminate E]. cbn [mbind result_bind] in E.
  destruct (make_block_header _ _ _ _ _ _ _) as [h0|]; [|discriminate E]. cbn [mbind result_bind] in E.
  destruct (finish_next_produced _ _ _ _ _) as [s0|] eqn:Hf; [|discriminate E]. injection E as -> -> ->.
  eapply (legacy_received_agrees_with_produced legacy_block_7 _ 3 p h empty_feature_set legacy_accept _ s' Hn Hf); by vm_compute.
Defined.

(** The check against confirming twice is in [uint32_t] arithmetic: a producer
    that has just made block 8 and says that its block 9 confirms the ten blocks
    before is not refused, and confirms block 8 again. *)
Example double_confirm_check_wraps :
  let s := HeaderStateLegacy (LegacyCommon 8 0 0 (ProducerAuthoritySchedule 1 [example_producer 4; example_producer 1])
                                (blockroot_merkle (common legacy_block_8)) {[ 4 := 8 ]} ∅ (BlockSigningAuthority 0 []) [1])
             (id legacy_block_8) (header legacy_block_8) [] (pending_schedule legacy_block_8) [] [] [] in
  is_ok (next s (24 * 60) 10) = true /\ is_ok (next s (24 * 60) 1) = false.
Proof. by vm_compute. Qed.
