(* ===== verification/UndoIndex.v ===== *)
(** * The tables of the chain database

    [libraries/chaindb/include/chainbase/undo_index.hpp]: a table with a primary
    key and ordered unique indices over it, whose changes can be undone session
    by session.  Nodes live at addresses, as in the shared memory: the indices
    and the list of removed values hold addresses, an old value points to its
    node, and an [undo_state] points into the two lists.  A pointer that dangles
    is [assert_failed] when it is followed.  An index is the sequence of its
    nodes in order; how the AVL tree is balanced is not modelled.  Allocators and
    memory layout are left out. *)

From S2P Require Import Prelude.
Open Scope Z_scope.

(** A constructor or a modifier may throw; a modifier has then changed the value
    in part. *)
Record undo_state : Set := UndoState {
  old_values_end : option Z;
  removed_values_end : option Z;
  old_next_id : Z;
  ctime : Z
}.

Section UndoIndex.
Context {value : Type}.

Record node : Type := Node { _item : value; _mtime : Z; erased_flag : bool }.
Record old_node : Type := OldNode { old_address : Z; old_item : value; old_mtime : Z; _current : Z }.

(** The stack of sessions has the last one first; [_indices] has index 0 first. *)
Record undo_index : Type := UndoIndex {
  nodes : gmap Z node;
  next_address : Z;
  _indices : list (list Z);
  _undo_stack : list undo_state;
  _old_values : list old_node;
  _removed_values : list Z;
  _next_id : Z;
  _revision : Z;
  _monotonic_revision : Z
}.

Definition empty_undo_index (num_indices : nat) : undo_index := UndoIndex ∅ 0 (replicate num_indices []) [] [] [] 0 0 0.

Definition set_nodes (s : undo_index) (ns : gmap Z node) : undo_index :=
  UndoIndex ns (next_address s) (_indices s) (_undo_stack s) (_old_values s) (_removed_values s) (_next_id s) (_revision s) (_monotonic_revision s).
Definition set_indices (s : undo_index) (idx : list (list Z)) : undo_index :=
  UndoIndex (nodes s) (next_address s) idx (_undo_stack s) (_old_values s) (_removed_values s) (_next_id s) (_revision s) (_monotonic_revision s).
Definition set_values (s : undo_index) (olds : list old_node) (removed : list Z) : undo_index :=
  UndoIndex (nodes s) (next_address s) (_indices s) (_undo_stack s) olds removed (_next_id s) (_revision s) (_monotonic_revision s).
Definition set_stack (s : undo_index) (stack : list undo_state) (next_id revision monotonic : Z) : undo_index :=
  UndoIndex (nodes s) (next_address s) (_indices s) stack (_old_values s) (_removed_values s) next_id revision monotonic.

(** ** Ordered indices *)

Definition order : Type := value -> value -> bool.

Definition less (ns : gmap Z node) (lt : order) (p q : Z) : bool :=
  match ns !! p, ns !! q with Some a, Some b => lt (_item a) (_item b) | _, _ => false end.

(** The elements before the first one that [P] does not hold of, and the rest. *)
Fixpoint split_while (P : Z -> bool) (l : list Z) : list Z * list Z :=
  match l with
  | [] => ([], [])
  | q :: l' => if P q then let r := split_while P l' in (q :: r.1, r.2) else ([], l)
  end.

(** [insert_unique]: where [p] goes, and whether there is no equivalent element
    already; it is not inserted then, and the position is the element's. *)
Definition insert_position (ns : gmap Z node) (lt : order) (p : Z) (l : list Z) : (list Z * list Z) * bool :=
  let at_lower := split_while (fun q => less ns lt q p) l in
  (at_lower, match at_lower.2 with [] => true | q :: _ => less ns lt p q end).

(** [insert_equal]: after the elements that are not greater. *)
Definition insert_equal (ns : gmap Z node) (lt : order) (p : Z) (l : list Z) : list Z :=
  let at_upper := split_while (fun q => negb (less ns lt p q)) l in at_upper.1 ++ p :: at_upper.2.

Definition erase (p : Z) (l : list Z) : list Z := filter (fun q => q <> p) l.

(** Into the indices from some index on; what was inserted before a failure is
    erased again. *)
Fixpoint insert_impl (ns : gmap Z node) (orders : list order) (p : Z) (indices : list (list Z)) : list (list Z) * bool :=
  match orders, indices with
  | lt :: orders, l :: indices =>
      let pos := insert_position ns lt p l in
      if pos.2 then
        let rest := insert_impl ns orders p indices in
        let l' := pos.1.1 ++ p :: pos.1.2 in
        if rest.2 then (l' :: rest.1, true) else (erase p l' :: rest.1, false)
      else (l :: indices, false)
  | _, _ => (indices, true)
  end.

(** The element is out of order with a neighbour. *)
Definition needs_fixup (ns : gmap Z node) (lt : order) (p : Z) (before after : list Z) : bool :=
  match last before with Some q => negb (less ns lt q p) | None => false end ||
  match after with q :: _ => negb (less ns lt p q) | [] => false end.

(** Moves a modified node to where it belongs, in the indices from some index
    on; with [unique], it stops at an index that has an equivalent element. *)
Fixpoint post_modify (unique : bool) (ns : gmap Z node) (orders : list order) (p : Z) (indices : list (list Z)) : list (list Z) * bool :=
  match orders, indices with
  | lt :: orders, l :: indices =>
      let here := split_while (fun q => negb (q =? p)) l in
      let others := here.1 ++ tail here.2 in
      if needs_fixup ns lt p here.1 (tail here.2) then
        if unique then
          let pos := insert_position ns lt p others in
          let l' := pos.1.1 ++ p :: pos.1.2 in
          if pos.2 then let rest := post_modify unique ns orders p indices in (l' :: rest.1, rest.2)
          else (l' :: indices, false)
        else let rest := post_modify unique ns orders p indices in (insert_equal ns lt p others :: rest.1, rest.2)
      else let rest := post_modify unique ns orders p indices in (l :: rest.1, rest.2)
  | _, _ => (indices, true)
  end.

Definition erase_impl (p : Z) (indices : list (list Z)) : list (list Z) := erase p <$> indices.

Definition head_index (s : undo_index) : list Z := default [] (head (_indices s)).

(** ** Operations *)

(** [value_id] is the primary key, the key of index 0; [secondary] orders the others. *)
Context (value_id : value -> Z) (secondary : list order).

Definition id_order : order := fun v w => value_id v <? value_id w.
Definition orders : list order := id_order :: secondary.

Definition lookup_node (ns : gmap Z node) (p : Z) : result node := at_or_assert (ns !! p).
Definition with_item (n : node) (v : value) : node := Node v (_mtime n) (erased_flag n).
Definition with_mtime (n : node) (t : Z) : node := Node (_item n) t (erased_flag n).
Definition with_flag (n : node) (b : bool) : node := Node (_item n) (_mtime n) b.

(** The constructor gets the new id.  The index afterwards, and the new node. *)
Definition emplace (s : undo_index) (constructor : Z -> result value) : undo_index * result Z :=
  match constructor (_next_id s) with
  | Throw e => (s, Throw e)
  | Ok v =>
      let p := next_address s in
      let ns := <[p := Node v 0 false]> (nodes s) in
      let r := insert_impl ns secondary p (tail (_indices s)) in
      if r.2 then
        let n := Node v (match _undo_stack s with [] => 0 | _ => _monotonic_revision s end) false in
        (UndoIndex (<[p := n]> (nodes s)) (p + 1) ((head_index s ++ [p]) :: r.1) (_undo_stack s) (_old_values s) (_removed_values s)
           (_next_id s + 1) (_revision s) (_monotonic_revision s), Ok p)
      else (UndoIndex (nodes s) (p + 1) (head_index s :: r.1) (_undo_stack s) (_old_values s) (_removed_values s)
              (_next_id s) (_revision s) (_monotonic_revision s), Throw std_logic_error)
  end.

(** A copy of the object is kept unless the session has one, or made the object. *)
Definition on_modify (s : undo_index) (p : Z) (n : node) : undo_index * option old_node :=
  match _undo_stack s with
  | [] => (s, None)
  | undo_info :: _ =>
      if ctime undo_info <=? _mtime n then (s, None)
      else
        let o := OldNode (next_address s) (_item n) (_mtime n) p in
        (UndoIndex (<[p := with_mtime n (_monotonic_revision s)]> (nodes s)) (next_address s + 1) (_indices s) (_undo_stack s)
           (o :: _old_values s) (_removed_values s) (_next_id s) (_revision s) (_monotonic_revision s), Some o)
  end.

(** The second part: whether the node is to be destroyed. *)
Definition on_remove (s : undo_index) (p : Z) (n : node) : undo_index * bool :=
  match _undo_stack s with
  | [] => (s, true)
  | undo_info :: _ =>
      if old_next_id undo_info <=? value_id (_item n) then (s, true)
      else (set_values (set_nodes s (<[p := with_flag n true]> (nodes s))) (_old_values s) (p :: _removed_values s), false)
  end.

Definition remove (s : undo_index) (p : Z) : result undo_index :=
  n ← lookup_node (nodes s) p;
  let r := on_remove (set_indices s (erase_impl p (_indices s))) p n in
  Ok (if r.2 then set_nodes r.1 (delete p (nodes r.1)) else r.1).

(** [modifier] gives the value it leaves and the exception it throws.  Where the
    value conflicts with another object it is reverted, or erased. *)
Definition modify (s : undo_index) (p : Z) (modifier : value -> value * option exn) : result (undo_index * result unit) :=
  n ← lookup_node (nodes s) p;
  let r := on_modify s p n in
  n ← lookup_node (nodes r.1) p;
  let m := modifier (_item n) in
  ASSERT match m.2 with Some _ => true | None => value_id m.1 =? value_id (_item n) end ;;
  let ns := <[p := with_item n m.1]> (nodes r.1) in
  let placed := post_modify true ns secondary p (tail (_indices r.1)) in
  let s' := set_indices (set_nodes r.1 ns) (head_index r.1 :: placed.1) in
  if placed.2 then Ok (s', match m.2 with Some e => Throw e | None => Ok tt end)
  else
    s'' ← (match r.2 with
           | Some backup =>
               let ns := <[p := with_item n (old_item backup)]> (nodes r.1) in
               let placed := post_modify true ns secondary p (tail (_indices s')) in
               ASSERT placed.2 ;;
               Ok (set_values (set_indices (set_nodes s' ns) (head_index s' :: placed.1)) (tail (_old_values s')) (_removed_values s'))
           | None => remove s' p
           end);
    Ok (s'', Throw (default std_logic_error m.2)).

Definition item_at (s : undo_index) (p : Z) : option value := _item <$> nodes s !! p.

(** [find] by the primary key *)
Definition find (s : undo_index) (key : Z) : option Z :=
  list_find (fun p => match item_at s p with Some v => value_id v =? key | None => false end = true) (head_index s) ≫= fun r => Some r.2.

Definition get (s : undo_index) (key : Z) : result Z :=
  match find s key with Some p => Ok p | None => Throw std_out_of_range end.

Definition remove_object (s : undo_index) (id : Z) : result undo_index := p ← get s id; remove s p.

(** ** Sessions *)

Definition add_session (s : undo_index) : undo_index :=
  let t := wrap64 (_monotonic_revision s + 1) in
  set_stack s (UndoState (old_address <$> head (_old_values s)) (head (_removed_values s)) (_next_id s) t :: _undo_stack s)
    (_next_id s) (wrap64 (_revision s + 1)) t.

(** The elements from the beginning of a list to a pointer into it, and the rest. *)
Fixpoint split_at {A} (address : A -> Z) (l : list A) (p : Z) : result (list A * list A) :=
  match l with
  | [] => Throw assert_failed
  | a :: l' => if address a =? p then Ok ([], l) else r ← split_at address l' p; Ok (a :: r.1, r.2)
  end.
Definition split_end {A} (address : A -> Z) (l : list A) (p : option Z) : result (list A * list A) :=
  match p with None => Ok (l, []) | Some p => split_at address l p end.

(** Putting an old value back into its node. *)
Definition restore_old (undo_info : undo_state) (acc : gmap Z node * list (list Z)) (o : old_node) : result (gmap Z node * list (list Z)) :=
  if old_mtime o <? ctime undo_info then
    n ← lookup_node acc.1 (_current o);
    let ns := <[_current o := Node (old_item o) (old_mtime o) (erased_flag n)]> acc.1 in
    Ok (ns, if erased_flag n then acc.2 else
              default [] (head acc.2) :: (post_modify false ns secondary (_current o) (tail acc.2)).1)
  else Ok acc.

(** Inserting a removed value again. *)
Definition restore_removed (undo_info : undo_state) (acc : gmap Z node * list (list Z)) (p : Z) : result (gmap Z node * list (list Z)) :=
  n ← lookup_node acc.1 p;
  if value_id (_item n) <? old_next_id undo_info then
    let ns := <[p := with_flag n false]> acc.1 in Ok (ns, (insert_impl ns orders p acc.2).1)
  else Ok (delete p acc.1, acc.2).

Definition undo (s : undo_index) : result undo_index :=
  match _undo_stack s with
  | [] => Ok s
  | undo_info :: stack =>
      let new_ids := (split_while (fun p => match item_at s p with Some v => value_id v <? old_next_id undo_info | None => false end) (head_index s)).2 in
      let acc := foldl (fun (acc : gmap Z node * list (list Z)) p => (delete p acc.1, erase_impl p acc.2)) (nodes s, _indices s) new_ids in
      olds ← split_end old_address (_old_values s) (old_values_end undo_info);
      acc ← foldM (restore_old undo_info) acc olds.1;
      removed ← split_end id (_removed_values s) (removed_values_end undo_info);
      acc ← foldM (restore_removed undo_info) acc removed.1;
      Ok (UndoIndex acc.1 (next_address s) acc.2 stack olds.2 removed.2 (old_next_id undo_info) (wrap64 (_revision s - 1)) (_monotonic_revision s))
  end.

(** [undo_all]; the fuel is the number of sessions. *)
Fixpoint undo_sessions (fuel : nat) (s : undo_index) : result undo_index :=
  match fuel with O => Ok s | S fuel => s ← undo s; undo_sessions fuel s end.
Definition undo_all (s : undo_index) : result undo_index := undo_sessions (length (_undo_stack s)) s.

(** Disposing of the nodes of removed values. *)
Definition dispose_nodes (s : undo_index) (ps : list Z) : undo_index := set_nodes s (foldl (fun ns p => delete p ns) (nodes s) ps).

Definition dispose_undo (s : undo_index) : undo_index := set_values (dispose_nodes s (_removed_values s)) [] [].

Definition squash_fast (s : undo_index) : undo_index :=
  match _undo_stack s with
  | [] => s
  | [_] => let s := dispose_undo s in set_stack s [] (_next_id s) (wrap64 (_revision s - 1)) (_monotonic_revision s)
  | _ :: stack => set_stack s stack (_next_id s) (wrap64 (_revision s - 1)) (_monotonic_revision s)
  end.

(** Old values that the sessions from [session] on do not need, put together:
    the kept ones, and the nodes. *)
Definition compress_old (session_start : Z) (acc : gmap Z node * list old_node) (o : old_node) : result (gmap Z node * list old_node) :=
  if session_start <=? old_mtime o then Ok acc
  else
    n ← lookup_node acc.1 (_current o);
    if erased_flag n then Ok (<[_current o := Node (old_item o) (old_mtime o) true]> acc.1, acc.2)
    else Ok (acc.1, acc.2 ++ [o]).

Definition compress_impl (s : undo_index) (top session : undo_state) : result undo_index :=
  olds ← split_end old_address (_old_values s) (old_values_end top);
  acc ← foldM (compress_old (ctime session)) (nodes s, []) olds.1;
  removed ← split_end id (_removed_values s) (removed_values_end top);
  let is_new := fun p => match acc.1 !! p with Some n => old_next_id session <=? value_id (_item n) | None => false end = true in
  Ok (dispose_nodes (set_values (set_nodes s acc.1) (acc.2 ++ olds.2) (filter (fun p => ~ is_new p) removed.1 ++ removed.2))
        (filter is_new removed.1)).

(** [squash_and_compress] *)
Definition squash (s : undo_index) : result undo_index :=
  s ← (match _undo_stack s with top :: session :: _ => compress_impl s top session | _ => Ok s end);
  Ok (squash_fast s).

Definition compress_last_undo_session (s : undo_index) : result undo_index :=
  match _undo_stack s with [] => Throw assert_failed | top :: _ => compress_impl s top top end.

(** [delta]: the new, the old and the removed values of the last session. *)
Definition last_undo_session (s : undo_index) : result (undo_index * (list Z * list old_node * list Z)) :=
  match _undo_stack s with
  | [] => Ok (s, ([], [], []))
  | top :: _ =>
      s ← compress_last_undo_session s;
      let new_ids := (split_while (fun p => match item_at s p with Some v => value_id v <? old_next_id top | None => false end) (head_index s)).2 in
      olds ← split_end old_address (_old_values s) (old_values_end top);
      removed ← split_end id (_removed_values s) (removed_values_end top);
      Ok (s, (new_ids, olds.1, removed.1))
  end.

(** [erase_after_and_dispose(start, end)]: the element at [start] stays. *)
Definition keep_through {A} (address : A -> Z) (l : list A) (start : option Z) : result (list A * list A) :=
  match start with
  | None => Ok (l, [])
  | Some p => r ← split_at address l p; Ok (r.1 ++ take 1 r.2, drop 1 r.2)
  end.

Definition commit (s : undo_index) (revision : Z) : result undo_index :=
  let revision := Z.min revision (_revision s) in
  if revision =? _revision s then let s := dispose_undo s in Ok (set_stack s [] (_next_id s) (_revision s) (_monotonic_revision s))
  else if _revision s - revision <? size_of (_undo_stack s) then
    let kept := take (Z.to_nat (_revision s - revision)) (_undo_stack s) in
    iter ← at_or_assert (last kept);
    olds ← keep_through old_address (_old_values s) (old_values_end iter);
    removed ← keep_through id (_removed_values s) (removed_values_end iter);
    let s := dispose_nodes (set_values s olds.1 removed.1) removed.2 in
    Ok (set_stack s kept (_next_id s) (_revision s) (_monotonic_revision s))
  else Ok s.

Definition set_revision (s : undo_index) (revision : Z) : result undo_index :=
  EOS_ASSERT (length (_undo_stack s) =? 0)%nat ,, std_logic_error ;;
  EOS_ASSERT _revision s <=? revision ,, std_logic_error ;;
  Ok (set_stack s (_undo_stack s) (_next_id s) revision (_monotonic_revision s)).

Definition undo_stack_revision_range (s : undo_index) : Z * Z := (wrap64 (_revision s - size_of (_undo_stack s)), _revision s).
Definition has_undo_session (s : undo_index) : bool := match _undo_stack s with [] => false | _ => true end.
End UndoIndex.
Arguments undo_index : clear implicits.
