(* ===== verification/UndoOrder.v ===== *)
(** * Ordered indices of a table

    No code of its own: what [UndoIndex.insert_position], [insert_equal],
    [insert_impl] and [post_modify] do to sequences of nodes that are in order. *)

From stdpp Require Import sorting.
From S2P Require Import Prelude UndoIndex.
Open Scope Z_scope.

(** What a comparator must be: a strict weak order. *)
Record strict_weak {value : Type} (lt : value -> value -> bool) : Prop := StrictWeak {
  sw_irrefl : forall a, lt a a = false;
  sw_trans : forall a b c, lt a b = true -> lt b c = true -> lt a c = true;
  sw_cotrans : forall a b c, lt a b = true -> lt a c = true \/ lt c b = true
}.

(** ** Splitting *)

Lemma split_while_app P l : l = (split_while P l).1 ++ (split_while P l).2.
Proof. induction l as [|q l IH]; cbn; [done|]. destruct (P q); cbn; [by f_equal|done]. Qed.

Lemma split_while_true P l : Forall (fun q => P q = true) (split_while P l).1.
Proof. induction l as [|q l IH]; cbn; [constructor|]. destruct (P q) eqn:E; cbn; by constructor. Qed.

Lemma split_while_head P l : match (split_while P l).2 with [] => True | q :: _ => P q = false end.
Proof. induction l as [|q l IH]; cbn; [done|]. destruct (P q) eqn:E; cbn; done. Qed.

Lemma erase_elem p l : p ∉ erase p l.
Proof. unfold erase. intros [H _]%list_elem_of_filter. by apply H. Qed.

Lemma elem_of_erase p q l : q ∈ erase p l <-> q ∈ l /\ q <> p.
Proof. unfold erase. rewrite list_elem_of_filter. tauto. Qed.

Lemma erase_app p l1 l2 : erase p (l1 ++ l2) = erase p l1 ++ erase p l2.
Proof. apply filter_app. Qed.

Lemma erase_cons_eq p l : erase p (p :: l) = erase p l.
Proof. unfold erase. rewrite filter_cons_False; [done|]. by intros []. Qed.

Lemma erase_not_elem p l : p ∉ l -> erase p l = l.
Proof.
  induction l as [|q l IH]; [done|]. intros [H1 H2]%not_elem_of_cons. unfold erase. rewrite filter_cons_True by (intros ->; done).
  f_equal. by apply IH.
Qed.

Lemma erase_idemp p l : erase p (erase p l) = erase p l.
Proof. apply erase_not_elem, erase_elem. Qed.

Lemma erase_insert p a b l : erase p l = a ++ b -> p ∉ a ++ b -> erase p (a ++ p :: b) = erase p l.
Proof. intros -> H. rewrite erase_app, erase_cons_eq, <- erase_app. by apply erase_not_elem. Qed.

(** Where a node is in an index, and the rest. *)
Lemma split_at_node p l : NoDup l -> p ∈ l ->
  l = (split_while (fun q => negb (q =? p)) l).1 ++ p :: tail (split_while (fun q => negb (q =? p)) l).2 /\
  erase p l = (split_while (fun q => negb (q =? p)) l).1 ++ tail (split_while (fun q => negb (q =? p)) l).2.
Proof.
  intros Hnd Hp. pose proof (split_while_app (fun q => negb (q =? p)) l) as Hl.
  pose proof (split_while_true (fun q => negb (q =? p)) l) as Ha. pose proof (split_while_head (fun q => negb (q =? p)) l) as Hh.
  destruct (split_while _ l) as [a b]. cbn in *. assert (Hpa : p ∉ a).
  { intros H. rewrite Forall_forall in Ha. specialize (Ha p H). by rewrite Z.eqb_refl in Ha. }
  destruct b as [|q b]; [rewrite app_nil_r in Hl; congruence|]. apply negb_false_iff, Z.eqb_eq in Hh. subst q. cbn.
  split; [done|]. subst l. rewrite erase_app, erase_cons_eq. apply NoDup_app in Hnd as (_ & _ & Hnd). apply NoDup_cons in Hnd as [Hpb _].
  by rewrite !erase_not_elem.
Qed.

(** ** Order in one index *)

Section Order.
Context {value : Type} (lt : value -> value -> bool) (Hlt : strict_weak lt).
Implicit Types ns : gmap Z (@node value).

Definition precedes ns (p q : Z) : Prop := less ns lt p q = true.
Definition not_after ns (p q : Z) : Prop := less ns lt q p = false.
(** [p] and [q] are not equivalent. *)
Definition apart ns (p q : Z) : Prop := precedes ns p q \/ precedes ns q p.

Lemma less_irrefl ns p : less ns lt p p = false.
Proof. unfold less. destruct (ns !! p); [apply Hlt|done]. Qed.

Lemma precedes_trans ns p q r : precedes ns p q -> precedes ns q r -> precedes ns p r.
Proof. unfold precedes, less. destruct (ns !! p), (ns !! q), (ns !! r); try done. apply Hlt. Qed.

Lemma precedes_cotrans ns p q r : is_Some (ns !! r) -> precedes ns p q -> precedes ns p r \/ precedes ns r q.
Proof. intros [n Hn]. unfold precedes, less. rewrite Hn. destruct (ns !! p), (ns !! q); try done. apply Hlt. Qed.

Lemma precedes_not_after ns p q : precedes ns p q -> not_after ns p q.
Proof.
  unfold not_after. intros H. apply not_true_is_false. intros H2. pose proof (precedes_trans ns p q p H H2) as H3.
  unfold precedes in H3. by rewrite less_irrefl in H3.
Qed.

Lemma not_after_trans ns p q r : is_Some (ns !! q) -> not_after ns p q -> not_after ns q r -> not_after ns p r.
Proof.
  unfold not_after. intros Hq H1 H2. apply not_true_is_false. intros H. destruct (precedes_cotrans ns r p q Hq H) as [E|E]; unfold precedes in E; congruence.
Qed.



Lemma sorted_weakly ns l : StronglySorted (precedes ns) l -> StronglySorted (not_after ns) l.
Proof. induction 1 as [|p l H IH Hp]; constructor; [done|]. eapply Forall_impl; [exact Hp|]. intros q. apply precedes_not_after. Qed.

Lemma weakly_sorted_apart ns l : StronglySorted (not_after ns) l -> NoDup l -> (forall p q, p ∈ l -> q ∈ l -> p <> q -> apart ns p q) -> StronglySorted (precedes ns) l.
Proof.
  induction 1 as [|p l H IH Hp]; intros Hnd Ha; constructor.
  - apply NoDup_cons in Hnd as [_ Hnd]. apply IH; [done|]. intros a b ??. apply Ha; by right.
  - apply Forall_forall. intros q Hq. apply NoDup_cons in Hnd as [Hnp _]. rewrite Forall_forall in Hp. specialize (Hp q Hq).
    destruct (Ha p q ltac:(by left) ltac:(by right) ltac:(by intros ->)) as [E|E]; [done|]. unfold not_after, precedes in *. congruence.
Qed.

Lemma sorted_NoDup ns l : StronglySorted (precedes ns) l -> NoDup l.
Proof.
  induction 1 as [|p l H IH Hp]; constructor; [|done]. intros Hin. rewrite Forall_forall in Hp. specialize (Hp p Hin). unfold precedes in Hp.
  by rewrite less_irrefl in Hp.
Qed.

Lemma sorted_apart ns l p q : StronglySorted (precedes ns) l -> p ∈ l -> q ∈ l -> p <> q -> apart ns p q.
Proof.
  induction 1 as [|r l H IH Hr]; [by intros ?%elem_of_nil|]. rewrite Forall_forall in Hr.
  intros [->|Hp]%elem_of_cons [->|Hq]%elem_of_cons Hne; [done|left; by apply Hr|right; by apply Hr|by apply IH].
Qed.

Lemma sorted_filter (P : Z -> Prop) `{forall x, Decision (P x)} (R : Z -> Z -> Prop) l : StronglySorted R l -> StronglySorted R (filter P l).
Proof.
  induction 1 as [|p l Hl IH Hp]; [constructor|]. rewrite filter_cons. case_decide; [|done]. constructor; [done|].
  apply Forall_forall. intros q [_ Hq]%list_elem_of_filter. rewrite Forall_forall in Hp. by apply Hp.
Qed.

Lemma sorted_ext (R R' : Z -> Z -> Prop) l : (forall p q, p ∈ l -> q ∈ l -> R p q -> R' p q) -> StronglySorted R l -> StronglySorted R' l.
Proof.
  induction 2 as [|p l H' IH Hp]; constructor.
  - apply IH. intros a b ??. apply H; by right.
  - rewrite Forall_forall in *. intros q Hq. apply H; [by left|by right|by apply Hp].
Qed.

(** The order depends on the values of the nodes only. *)
Lemma less_ext ns ns' p q : _item <$> ns !! p = _item <$> ns' !! p -> _item <$> ns !! q = _item <$> ns' !! q -> less ns lt p q = less ns' lt p q.
Proof.
  unfold less. destruct (ns !! p), (ns' !! p), (ns !! q), (ns' !! q); cbn; try done. by intros [= ->] [= ->].
Qed.

(** Putting a node between nodes it fits between. *)
Lemma sorted_insert (R : Z -> Z -> Prop) a b p : StronglySorted R (a ++ b) -> Forall (fun q => R q p) a -> Forall (R p) b -> StronglySorted R (a ++ p :: b).
Proof.
  rewrite !StronglySorted_app, StronglySorted_cons, !Forall_forall. intros (H1 & H2 & H3) Ha Hb. split_and!; try done.
  intros x y Hx [->|Hy]%elem_of_cons; [by apply Ha|by apply H1].
Qed.

Lemma insert_position_ok ns p l a b : insert_position ns lt p l = ((a, b), true) -> StronglySorted (precedes ns) l -> l = a ++ b /\ StronglySorted (precedes ns) (a ++ p :: b).
Proof.
  unfold insert_position. pose proof (split_while_app (fun q => less ns lt q p) l) as Hl.
  pose proof (split_while_true (fun q => less ns lt q p) l) as Ha. pose proof (split_while_head (fun q => less ns lt q p) l) as Hh.
  destruct (split_while _ l) as [a' b']. cbn in *. intros [= -> -> Hok] Hs. split; [done|]. rewrite Hl in Hs. apply sorted_insert; [done|done|].
  destruct b as [|q b]; [done|]. apply StronglySorted_app in Hs as (_ & _ & Hs). apply StronglySorted_cons in Hs as [Hq _].
  constructor; [done|]. eapply Forall_impl; [exact Hq|]. intros r. by apply precedes_trans.
Qed.

Lemma insert_position_app ns p l : l = (insert_position ns lt p l).1.1 ++ (insert_position ns lt p l).1.2.
Proof. apply split_while_app. Qed.

Lemma insert_position_fails ns p l : (insert_position ns lt p l).2 = false -> exists q, q ∈ l /\ ~ apart ns p q.
Proof.
  unfold insert_position. cbn. pose proof (split_while_app (fun q => less ns lt q p) l) as Hl.
  pose proof (split_while_head (fun q => less ns lt q p) l) as Hh. destruct (split_while _ l) as [a [|q b]]; cbn in *; [done|].
  intros H. exists q. split; [rewrite Hl; apply elem_of_app; right; by left|]. unfold apart, precedes. intros [?|?]; congruence.
Qed.

Lemma insert_equal_ok ns p l : is_Some (ns !! p) -> Forall (fun q => is_Some (ns !! q)) l -> StronglySorted (not_after ns) l ->
  exists a b, insert_equal ns lt p l = a ++ p :: b /\ l = a ++ b /\ StronglySorted (not_after ns) (a ++ p :: b).
Proof.
  intros Hp Hd Hs. unfold insert_equal. pose proof (split_while_app (fun q => negb (less ns lt p q)) l) as Hl.
  pose proof (split_while_true (fun q => negb (less ns lt p q)) l) as Ha. pose proof (split_while_head (fun q => negb (less ns lt p q)) l) as Hh.
  destruct (split_while _ l) as [a b]. cbn in *. exists a, b. split_and!; [done..|]. subst l. apply sorted_insert; [done| |].
  - eapply Forall_impl; [exact Ha|]. intros q. apply negb_true_iff.
  - destruct b as [|q b]; [done|]. apply negb_false_iff in Hh. apply StronglySorted_app in Hs as (_ & _ & Hs). apply StronglySorted_cons in Hs as [Hq _].
    apply Forall_app in Hd as [_ Hd]. apply Forall_cons in Hd as [Hdq _]. constructor; [by apply precedes_not_after|].
    eapply Forall_impl; [exact Hq|]. intros r Hr. eapply not_after_trans; [exact Hdq|by apply precedes_not_after|done].
Qed.

(** A node that is in order with its neighbours is in order. *)
Lemma no_fixup_sorted ns p a b : needs_fixup ns lt p a b = false -> StronglySorted (precedes ns) (a ++ b) -> StronglySorted (precedes ns) (a ++ p :: b).
Proof.
  unfold needs_fixup. intros [Ha Hb]%orb_false_iff Hs. apply sorted_insert; [done| |].
  - apply StronglySorted_app in Hs as (_ & Hs & _). destruct a as [|q a] using rev_ind; [done|]. clear IHa. rewrite last_snoc in Ha. apply negb_false_iff in Ha.
    apply StronglySorted_app in Hs as (H1 & _ & _). apply Forall_app. split; [|by constructor].
    apply Forall_forall. intros r Hr. eapply precedes_trans; [|exact Ha]. apply H1; [done|by left].
  - apply StronglySorted_app in Hs as (_ & _ & Hs). destruct b as [|q b]; [done|]. apply negb_false_iff in Hb. apply StronglySorted_cons in Hs as [Hq _].
    constructor; [done|]. eapply Forall_impl; [exact Hq|]. intros r. by apply precedes_trans.
Qed.

Lemma no_fixup_weakly_sorted ns p a b : is_Some (ns !! p) -> Forall (fun q => is_Some (ns !! q)) (a ++ b) ->
  needs_fixup ns lt p a b = false -> StronglySorted (not_after ns) (a ++ b) -> StronglySorted (not_after ns) (a ++ p :: b).
Proof.
  unfold needs_fixup. intros Hp Hd [Ha Hb]%orb_false_iff Hs. apply Forall_app in Hd as [Hda Hdb]. apply sorted_insert; [done| |].
  - apply StronglySorted_app in Hs as (_ & Hs & _). destruct a as [|q a] using rev_ind; [done|]. clear IHa. rewrite last_snoc in Ha. apply negb_false_iff in Ha.
    apply StronglySorted_app in Hs as (H1 & _ & _). apply Forall_app in Hda as [_ [Hdq _]%Forall_cons]. apply Forall_app. split; [|constructor; [by apply precedes_not_after|done]].
    apply Forall_forall. intros r Hr. eapply not_after_trans; [exact Hdq| |by apply precedes_not_after]. apply H1; [done|by left].
  - apply StronglySorted_app in Hs as (_ & _ & Hs). destruct b as [|q b]; [done|]. apply negb_false_iff in Hb. apply StronglySorted_cons in Hs as [Hq _].
    apply Forall_cons in Hdb as [Hdq _]. constructor; [by apply precedes_not_after|]. eapply Forall_impl; [exact Hq|]. intros r.
    apply not_after_trans; [done|by apply precedes_not_after].
Qed.
End Order.

(** ** All the indices of a table *)

Section Indices.
Context {value : Type}.
Implicit Types (ns : gmap Z (@node value)) (orders : list (@order value)) (indices : list (list Z)).
#[local] Arguments insert_position : simpl never.
#[local] Arguments insert_equal : simpl never.
#[local] Arguments erase : simpl never.

Definition ordered ns orders indices : Prop := Forall2 (fun lt l => StronglySorted (precedes lt ns) l) orders indices.
Definition weakly_ordered ns orders indices : Prop := Forall2 (fun lt l => StronglySorted (not_after lt ns) l) orders indices.

Lemma ordered_weakly ns orders indices : Forall strict_weak orders -> ordered ns orders indices -> weakly_ordered ns orders indices.
Proof.
  intros Hsw Ho. induction Ho as [|lt l orders indices Hl Ho IH]; [constructor|]. apply Forall_cons in Hsw as [Hlt Hsw].
  constructor; [by apply sorted_weakly|by apply IH].
Qed.

(** Some element is equivalent to [p] under some order. *)
Definition clash ns orders p indices : Prop := exists lt l q, lt ∈ orders /\ l ∈ indices /\ q ∈ l /\ ~ apart lt ns p q.

(** The node inserted in every index. *)
Definition inserted p : list (list Z) -> list (list Z) -> Prop := Forall2 (fun l l' => exists a b, l = a ++ b /\ l' = a ++ p :: b).
(** The node moved in every index. *)
Definition moved p : list (list Z) -> list (list Z) -> Prop := Forall2 (fun l l' => l' ≡ₚ l /\ erase p l' = erase p l).

Lemma moved_refl p indices : moved p indices indices.
Proof. induction indices; constructor; done. Qed.

Lemma clash_cons ns lt orders p l indices : clash ns orders p indices -> clash ns (lt :: orders) p (l :: indices).
Proof. intros (lt' & l' & q & ? & ? & ?). exists lt', l', q. split_and!; [by right|by right|naive_solver..]. Qed.

Lemma insert_impl_spec ns orders p indices : Forall strict_weak orders -> ordered ns orders indices -> Forall (fun l => p ∉ l) indices ->
  if (insert_impl ns orders p indices).2 then ordered ns orders (insert_impl ns orders p indices).1 /\ inserted p indices (insert_impl ns orders p indices).1
  else (insert_impl ns orders p indices).1 = indices /\ clash ns orders p indices.
Proof.
  intros Hsw Ho. revert Hsw. induction Ho as [|lt l orders indices Hl Ho IH]; intros Hsw Hp; cbn; [by repeat constructor|].
  apply Forall_cons in Hsw as [Hlt Hsw]. apply Forall_cons in Hp as [Hp1 Hp]. specialize (IH Hsw Hp).
  destruct (insert_position ns lt p l) as [[a b] [|]] eqn:E; cbn.
  - destruct (insert_position_ok lt Hlt _ _ _ _ _ E Hl) as [-> Hs]. destruct (insert_impl ns orders p indices) as [r [|]]; cbn in *.
    + destruct IH. split; constructor; try done. by exists a, b.
    + destruct IH as [-> IH]. split; [|by apply clash_cons]. f_equal. rewrite erase_app, erase_cons_eq, <- erase_app. by apply erase_not_elem.
  - split; [done|]. destruct (insert_position_fails lt ns p l) as (q & Hq & Ha); [by rewrite E|]. exists lt, l, q. split_and!; [by left|by left|done..].
Qed.

Lemma post_modify_unique ns orders p indices : Forall strict_weak orders ->
  Forall2 (fun lt l => StronglySorted (precedes lt ns) (erase p l)) orders indices -> Forall (fun l => NoDup l /\ p ∈ l) indices ->
  moved p indices (post_modify true ns orders p indices).1 /\
  if (post_modify true ns orders p indices).2 then ordered ns orders (post_modify true ns orders p indices).1
  else clash ns orders p (erase p <$> indices).
Proof.
  intros Hsw Ho. revert Hsw. induction Ho as [|lt l orders indices Hl Ho IH]; intros Hsw Hp; cbn; [by repeat constructor|].
  apply Forall_cons in Hsw as [Hlt Hsw]. apply Forall_cons in Hp as [[Hnd Hp1] Hp]. specialize (IH Hsw Hp). destruct IH as [IH1 IH2].
  destruct (split_at_node p l Hnd Hp1) as [Hsplit Herase]. destruct (split_while _ l) as [before after]. cbn in *. rewrite Herase in Hl.
  assert (Hperm : l ≡ₚ p :: (before ++ tail after)) by (rewrite Hsplit at 1; symmetry; apply Permutation_middle).
  assert (Hnot : p ∉ before ++ tail after) by (rewrite <- Herase; apply erase_elem).
  destruct (needs_fixup ns lt p before (tail after)) eqn:Ef; cbn.
  - set (others := before ++ tail after) in *. destruct (insert_position ns lt p others) as [[a b] ok] eqn:E. cbn.
    pose proof (insert_position_app lt ns p others) as Hab. rewrite E in Hab. cbn in Hab.
    assert (Hmove : a ++ p :: b ≡ₚ l /\ erase p (a ++ p :: b) = erase p l).
    { split; [by rewrite Hperm, Hab, Permutation_middle|]. apply erase_insert; [congruence|]. by rewrite <- Hab. }
    destruct ok; cbn.
    + destruct (insert_position_ok lt Hlt _ _ _ _ _ E Hl) as [_ Hs]. split; [by constructor|].
      destruct (post_modify true ns orders p indices) as [r [|]]; cbn in *; [by constructor|by apply clash_cons].
    + split; [constructor; [done|apply moved_refl]|]. destruct (insert_position_fails lt ns p others) as (q & Hq & Ha); [by rewrite E|].
      exists lt, (erase p l), q. rewrite Herase. split_and!; [by left|by left|done..].
  - split; [by constructor|]. destruct (post_modify true ns orders p indices) as [r [|]]; cbn in *; [|by apply clash_cons].
    constructor; [|done]. rewrite Hsplit. by apply no_fixup_sorted.
Qed.

Lemma post_modify_weak ns orders p indices : Forall strict_weak orders -> is_Some (ns !! p) ->
  weakly_ordered ns orders (erase p <$> indices) ->
  Forall (fun l => NoDup l /\ p ∈ l /\ Forall (fun q => is_Some (ns !! q)) l) indices ->
  moved p indices (post_modify false ns orders p indices).1 /\ weakly_ordered ns orders (post_modify false ns orders p indices).1.
Proof.
  intros Hsw Hd Ho. apply Forall2_fmap_r in Ho. revert Hsw. induction Ho as [|lt l orders indices Hl Ho IH]; intros Hsw Hp; cbn; [by repeat constructor|].
  apply Forall_cons in Hsw as [Hlt Hsw]. apply Forall_cons in Hp as [(Hnd & Hp1 & Hdl) Hp]. specialize (IH Hsw Hp). destruct IH as [IH1 IH2].
  destruct (split_at_node p l Hnd Hp1) as [Hsplit Herase]. destruct (split_while _ l) as [before after]. cbn in *. rewrite Herase in Hl.
  assert (Hperm : l ≡ₚ p :: (before ++ tail after)) by (rewrite Hsplit at 1; symmetry; apply Permutation_middle).
  assert (Hnot : p ∉ before ++ tail after) by (rewrite <- Herase; apply erase_elem).
  rewrite Hperm in Hdl. apply Forall_cons in Hdl as [_ Hdl].
  destruct (needs_fixup ns lt p before (tail after)) eqn:Ef; cbn.
  - destruct (insert_equal_ok lt Hlt ns p _ Hd Hdl Hl) as (a & b & -> & Hab & Hs). split; [|by constructor]. constructor; [|done].
    split; [by rewrite Hperm, Hab, Permutation_middle|]. apply erase_insert; [congruence|]. by rewrite <- Hab.
  - split; [by constructor|]. constructor; [|done]. rewrite Hsplit. by apply no_fixup_weakly_sorted.
Qed.
End Indices.
