(* ===== verification/UndoHistory.v ===== *)
(** * The undo stack of a table is a stack of its contents

    No code of its own: the operations of [UndoIndex] refine a table with a stack
    of whole copies of itself.  First the history as maps, session by session
    ([chunk]), and what undoing a session gives; then that the lists, nodes and
    indices of [UndoIndex] are such a history. *)

From stdpp Require Import sorting.
From S2P Require Import Prelude UndoIndex.
Open Scope Z_scope.

(** ** Sessions as maps *)

Section Chunks.
Context {value : Type}.
Implicit Types live : gmap Z (value * Z).

(** What a session can undo: ids to values and their times of modification. *)
Record chunk : Type := Chunk {
  c_time : Z;
  c_next : Z;
  c_olds : gmap Z (value * Z);
  c_rem : gmap Z (value * Z)
}.

(** The table at the start of the session. *)
Definition undo_map live (C : chunk) : gmap Z (value * Z) :=
  filter (fun x => x.1 < c_next C) (c_olds C ∪ (live ∪ c_rem C)).

Record level_ok live (next bound : Z) (C : chunk) : Prop := {
  lv_time : c_time C <= bound;
  lv_next : c_next C <= next;
  lv_live : forall id, is_Some (live !! id) -> id < next;
  lv_rem : forall id, is_Some (c_rem C !! id) -> id < c_next C /\ live !! id = None;
  lv_olds : forall id v t, c_olds C !! id = Some (v, t) -> id < c_next C /\ t < c_time C /\ is_Some ((live ∪ c_rem C) !! id);
  lv_mtime : forall id v t, (live ∪ c_rem C) !! id = Some (v, t) ->
    t <= bound /\ (c_time C <= t <-> c_next C <= id \/ is_Some (c_olds C !! id))
}.

(** The sessions, last first, and the tables and next ids at their starts. *)
Fixpoint chain live (next bound : Z) (Cs : list chunk) (Ts : list (gmap Z value * Z)) : Prop :=
  match Cs, Ts with
  | [], [] => forall id v t, live !! id = Some (v, t) -> id < next /\ t <= bound
  | C :: Cs, T :: Ts =>
      level_ok live next bound C /\ T = (fst <$> undo_map live C, c_next C) /\ chain (undo_map live C) (c_next C) (c_time C - 1) Cs Ts
  | _, _ => False
  end.

Lemma undo_map_lookup live C id : undo_map live C !! id =
  if decide (id < c_next C) then match c_olds C !! id with Some x => Some x | None => (live ∪ c_rem C) !! id end else None.
Proof.
  unfold undo_map. case_decide as H.
  - destruct (c_olds C !! id) as [x|] eqn:E.
    + apply map_lookup_filter_Some. split; [|done]. by apply lookup_union_Some_l.
    + destruct ((live ∪ c_rem C) !! id) as [x|] eqn:E2.
      * apply map_lookup_filter_Some. split; [|done]. by rewrite lookup_union_r.
      * apply map_lookup_filter_None. left. rewrite lookup_union_r; done.
  - apply map_lookup_filter_None. right. intros x _ Hx. cbn in Hx. lia.
Qed.

Lemma chain_live live next bound Cs Ts id v t : chain live next bound Cs Ts -> live !! id = Some (v, t) -> id < next /\ t <= bound.
Proof.
  destruct Cs as [|C Cs], Ts as [|T Ts]; cbn; try done; [by intros H; apply H|]. intros (Hl & _) E. split; [apply Hl; by eexists|].
  apply (lv_mtime _ _ _ _ Hl id v t). by apply lookup_union_Some_l.
Qed.

Lemma chain_bound live next bound bound' Cs Ts : bound <= bound' -> chain live next bound Cs Ts -> chain live next bound' Cs Ts.
Proof.
  intros Hb. destruct Cs as [|C Cs], Ts as [|T Ts]; cbn; try done.
  - intros H id v t E. destruct (H id v t E). lia.
  - intros ([] & HT & Hc). split_and!; [|done|done]. split; try done; [lia|]. intros id v t E. destruct (lv_mtime0 id v t E). split; [lia|done].
Qed.

(** Undoing. *)
Lemma chain_undo live next bound C Cs Ts : chain live next bound (C :: Cs) Ts ->
  exists T Ts', Ts = T :: Ts' /\ T = (fst <$> undo_map live C, c_next C) /\ chain (undo_map live C) (c_next C) bound Cs Ts'.
Proof.
  destruct Ts as [|T Ts]; [done|]. intros (Hl & HT & Hc). exists T, Ts. split_and!; [done..|].
  eapply chain_bound; [|exact Hc]. pose proof (lv_time _ _ _ _ Hl). lia.
Qed.

(** The undone table, when only what the session can undo has changed. *)
Lemma chain_update live live' next next' bound C C' Cs T Ts : chain live next bound (C :: Cs) (T :: Ts) ->
  c_time C' = c_time C -> c_next C' = c_next C -> undo_map live' C' = undo_map live C -> level_ok live' next' bound C' ->
  chain live' next' bound (C' :: Cs) (T :: Ts).
Proof. intros (Hl & HT & Hc) Et En Eu Hl'. cbn. by rewrite Eu, Et, En. Qed.

(** [add_session] *)
Lemma chain_start live next bound Cs Ts : chain live next bound Cs Ts ->
  chain live next (bound + 1) (Chunk (bound + 1) next ∅ ∅ :: Cs) ((fst <$> live, next) :: Ts).
Proof.
  intros Hc. assert (Hu : undo_map live (Chunk (bound + 1) next ∅ ∅) = live).
  { apply map_eq. intros id. rewrite undo_map_lookup. cbn. rewrite lookup_empty, (right_id_L ∅ (∪)).
    case_decide as Hid; [done|]. destruct (live !! id) as [[v t]|] eqn:E; [|done].
    destruct (chain_live _ _ _ _ _ _ _ _ Hc E). lia. }
  cbn. rewrite Hu. cbn [c_time]. rewrite Z.add_simpl_r. split_and!; [|done|done].
  split; cbn; try lia.
  - intros id [[v t] E]. by apply (chain_live _ _ _ _ _ _ _ _ Hc E).
  - intros id [x E]. by rewrite lookup_empty in E.
  - intros id v t E. by rewrite lookup_empty in E.
  - intros id v t. rewrite (right_id_L ∅ (∪)), lookup_empty. intros E. destruct (chain_live _ _ _ _ _ _ _ _ Hc E).
    split; [lia|]. split; [lia|]. intros [?|[? [=]]]; lia.
Qed.

(** [emplace] *)
Lemma chain_emplace live next bound Cs Ts v t : chain live next bound Cs Ts ->
  t = (match Cs with [] => 0 | _ => bound end) -> 0 <= bound -> chain (<[next := (v, t)]> live) (next + 1) bound Cs Ts.
Proof.
  intros Hc Ht Hb. assert (Hfresh : live !! next = None).
  { destruct (live !! next) as [[v' t']|] eqn:E; [|done]. destruct (chain_live _ _ _ _ _ _ _ _ Hc E). lia. }
  destruct Cs as [|C Cs], Ts as [|T Ts]; try done.
  - cbn in *. intros id v' t' [[<- [= <- <-]]|[_ E]]%lookup_insert_Some; [lia|]. destruct (Hc id v' t' E). lia.
  - pose proof Hc as (Hl & _ & _). pose proof Hl as [H1 H2 H3 H4 H5 H6]. subst t.
    eapply chain_update; [exact Hc|done|done| |].
    + apply map_eq. intros id. rewrite !undo_map_lookup. case_decide as Hid; [|done]. destruct (c_olds C !! id); [done|].
      rewrite !lookup_union, lookup_insert_ne by lia. done.
    + split; try done; try lia.
      * intros id [x [[<- _]|[_ E]]%lookup_insert_Some]; [lia|]. pose proof (H3 id (ex_intro _ x E)). lia.
      * intros id Hid. destruct (H4 id Hid) as [? ?]. split; [done|]. rewrite lookup_insert_ne by lia. done.
      * intros id v' t' E. destruct (H5 _ _ _ E) as (? & ? & ?). split_and!; try done. rewrite lookup_union, lookup_insert_ne by lia.
        by rewrite <- lookup_union.
      * intros id v' t'. destruct (decide (id = next)) as [->|Hne].
        -- rewrite lookup_union, lookup_insert_eq, union_Some_l. intros [= <- <-]. split; [lia|]. split; [by left|lia].
        -- rewrite lookup_union, lookup_insert_ne by done. rewrite <- lookup_union. apply H6.
Qed.

Lemma live_mtime live next bound C id v t : level_ok live next bound C -> live !! id = Some (v, t) ->
  t <= bound /\ (c_time C <= t <-> c_next C <= id \/ is_Some (c_olds C !! id)).
Proof. intros Hl E. apply (lv_mtime _ _ _ _ Hl id v). by apply lookup_union_Some_l. Qed.

(** [modify], the first time in the session: the old value is kept. *)
Definition log_old (C : chunk) (id : Z) (x : value * Z) : chunk := Chunk (c_time C) (c_next C) (<[id := x]> (c_olds C)) (c_rem C).

Lemma chain_modify_logged live next bound C Cs T Ts id v t v' : chain live next bound (C :: Cs) (T :: Ts) ->
  live !! id = Some (v, t) -> t < c_time C ->
  chain (<[id := (v', bound)]> live) next bound (log_old C id (v, t) :: Cs) (T :: Ts).
Proof.
  intros Hc E Ht. pose proof Hc as (Hl & _ & _). pose proof Hl as [H1 H2 H3 H4 H5 H6].
  destruct (live_mtime _ _ _ _ _ _ _ Hl E) as [Hb Hiff].
  assert (Hid : id < c_next C) by (destruct (Z.lt_ge_cases id (c_next C)); [done|]; assert (c_time C <= t) by (apply Hiff; by left); lia).
  assert (Hno : c_olds C !! id = None).
  { destruct (c_olds C !! id) as [x|] eqn:Eo; [|done]. assert (c_time C <= t) by (apply Hiff; right; by eexists). lia. }
  assert (Hrem : c_rem C !! id = None).
  { destruct (c_rem C !! id) as [x|] eqn:Er; [|done]. destruct (H4 id (ex_intro _ x Er)). congruence. }
  eapply chain_update; [exact Hc|done|done| |].
  - apply map_eq. intros i. rewrite !undo_map_lookup. cbn. case_decide; [|done]. destruct (decide (i = id)) as [->|Hne].
    + by rewrite lookup_insert_eq, Hno, lookup_union, E, union_Some_l.
    + by rewrite !lookup_union, !lookup_insert_ne by done.
  - split; cbn; try done.
    + intros i [x [[<- _]|[_ Ei]]%lookup_insert_Some]; [lia|]. by apply H3; eexists.
    + intros i Hi. destruct (H4 i Hi) as [? Hn]. split; [done|]. rewrite lookup_insert_ne; [done|]. intros ->. congruence.
    + intros i w u [[<- [= <- <-]]|[_ Ei]]%lookup_insert_Some.
      * split_and!; [done..|]. rewrite lookup_union, lookup_insert_eq, union_Some_l. by eexists.
      * destruct (H5 _ _ _ Ei) as (? & ? & ?). split_and!; [done..|]. destruct (decide (i = id)) as [->|].
        -- rewrite lookup_union, lookup_insert_eq, union_Some_l. by eexists.
        -- rewrite lookup_union, lookup_insert_ne by done. by rewrite <- lookup_union.
    + intros i w u. destruct (decide (i = id)) as [->|Hne].
      * rewrite lookup_union, lookup_insert_eq, union_Some_l. intros [= <- <-]. split; [lia|]. split; [|lia]. intros _. right. rewrite lookup_insert_eq. by eexists.
      * rewrite lookup_union, !lookup_insert_ne by done. rewrite <- lookup_union. apply H6.
Qed.

(** [modify] without a session, or again. *)
Lemma chain_modify_plain live next bound Cs Ts id v t v' : chain live next bound Cs Ts -> live !! id = Some (v, t) ->
  match Cs with [] => True | C :: _ => c_time C <= t end -> chain (<[id := (v', t)]> live) next bound Cs Ts.
Proof.
  intros Hc E Ht. destruct Cs as [|C Cs], Ts as [|T Ts]; try done.
  - cbn in *. intros i w u [[<- [= <- <-]]|[_ Ei]]%lookup_insert_Some; [by apply (Hc _ _ _ E)|by apply (Hc _ _ _ Ei)].
  - pose proof Hc as (Hl & _ & _). pose proof Hl as [H1 H2 H3 H4 H5 H6].
    destruct (live_mtime _ _ _ _ _ _ _ Hl E) as [Hb Hiff]. apply Hiff in Ht as Hwhy.
    eapply chain_update; [exact Hc|done|done| |].
    + apply map_eq. intros i. rewrite !undo_map_lookup. case_decide; [|done]. destruct (c_olds C !! i) eqn:Eo; [done|].
      assert (i <> id) by (intros ->; destruct Hwhy as [?|[? ?]]; [lia|congruence]).
      by rewrite !lookup_union, lookup_insert_ne by done.
    + split; try done.
      * intros i [x [[<- _]|[_ Ei]]%lookup_insert_Some]; apply H3; by eexists.
      * intros i Hi. destruct (H4 i Hi) as [? Hn]. split; [done|]. rewrite lookup_insert_ne; [done|]. intros ->. congruence.
      * intros i w u Ei. destruct (H5 _ _ _ Ei) as (? & ? & ?). split_and!; [done..|]. destruct (decide (i = id)) as [->|].
        -- rewrite lookup_union, lookup_insert_eq, union_Some_l. by eexists.
        -- rewrite lookup_union, lookup_insert_ne by done. by rewrite <- lookup_union.
      * intros i w u. destruct (decide (i = id)) as [->|Hne].
        -- rewrite lookup_union, lookup_insert_eq, union_Some_l. intros [= <- <-]. by split.
        -- rewrite lookup_union, !lookup_insert_ne by done. rewrite <- lookup_union. apply H6.
Qed.

(** [remove] of an object that is not older than the session *)
Lemma chain_remove_new live next bound Cs Ts id : chain live next bound Cs Ts ->
  match Cs with [] => True | C :: _ => c_next C <= id end -> chain (delete id live) next bound Cs Ts.
Proof.
  intros Hc Hid. destruct Cs as [|C Cs], Ts as [|T Ts]; try done.
  - cbn in *. intros i w u [_ Ei]%lookup_delete_Some. by apply (Hc _ _ _ Ei).
  - pose proof Hc as (Hl & _ & _). pose proof Hl as [H1 H2 H3 H4 H5 H6]. eapply chain_update; [exact Hc|done|done| |].
    + apply map_eq. intros i. rewrite !undo_map_lookup. case_decide; [|done]. by rewrite !lookup_union, lookup_delete_ne by lia.
    + split; try done.
      * intros i [x [_ Ei]%lookup_delete_Some]. apply H3. by eexists.
      * intros i Hi. destruct (H4 i Hi). split; [done|]. apply lookup_delete_None. by right.
      * intros i w u Ei. destruct (H5 _ _ _ Ei) as (? & ? & ?). split_and!; [done..|]. rewrite lookup_union, lookup_delete_ne by lia. by rewrite <- lookup_union.
      * intros i w u. destruct (decide (i = id)) as [->|Hne].
        -- rewrite lookup_union, lookup_delete_eq, (left_id_L None (∪)). intros Er. destruct (H4 id (ex_intro _ _ Er)). lia.
        -- rewrite lookup_union, !lookup_delete_ne by done. rewrite <- lookup_union. apply H6.
Qed.

(** [remove] of an older one: it goes to the removed values. *)
Definition log_removed (C : chunk) (id : Z) (x : value * Z) : chunk := Chunk (c_time C) (c_next C) (c_olds C) (<[id := x]> (c_rem C)).

Lemma chain_remove_old live next bound C Cs T Ts id x : chain live next bound (C :: Cs) (T :: Ts) -> live !! id = Some x -> id < c_next C ->
  chain (delete id live) next bound (log_removed C id x :: Cs) (T :: Ts).
Proof.
  intros Hc E Hid. pose proof Hc as (Hl & _ & _). pose proof Hl as [H1 H2 H3 H4 H5 H6].
  assert (Hu : delete id live ∪ <[id := x]> (c_rem C) = live ∪ c_rem C).
  { apply map_eq. intros i. rewrite !lookup_union. destruct (decide (i = id)) as [->|Hne].
    - by rewrite lookup_delete_eq, lookup_insert_eq, E, (left_id_L None (∪)), union_Some_l.
    - by rewrite lookup_delete_ne, lookup_insert_ne by done. }
  eapply chain_update; [exact Hc|done|done|unfold undo_map; cbn; by rewrite Hu|].
  split; cbn; rewrite ?Hu; try done.
  - intros i [y [_ Ei]%lookup_delete_Some]. apply H3. by eexists.
  - intros i [y [[<- _]|[_ Ei]]%lookup_insert_Some]; [split; [done|apply lookup_delete_eq]|].
    destruct (H4 i (ex_intro _ y Ei)). split; [done|]. apply lookup_delete_None. by right.
Qed.

(** [commit]: the older sessions are forgotten. *)
Lemma chain_take live next bound Cs Ts n : chain live next bound Cs Ts -> chain live next bound (take n Cs) (take n Ts).
Proof.
  revert live next bound Cs Ts. induction n as [|n IH]; intros live next bound Cs Ts Hc; cbn.
  - intros id v t. apply (chain_live _ _ _ _ _ _ _ _ Hc).
  - destruct Cs as [|C Cs], Ts as [|T Ts]; try done. destruct Hc as (Hl & HT & Hc). cbn. split_and!; [done..|]. by apply IH.
Qed.

Lemma chain_length live next bound Cs Ts : chain live next bound Cs Ts -> length Cs = length Ts.
Proof.
  revert live next bound Ts. induction Cs as [|C Cs IH]; intros live next bound [|T Ts]; cbn; try done. intros (_ & _ & H). f_equal. by eapply IH.
Qed.

(** The objects that sessions know are older than the next id. *)
Lemma chain_ids live next bound Cs Ts C id : chain live next bound Cs Ts -> C ∈ Cs -> is_Some (c_olds C !! id) \/ is_Some (c_rem C !! id) -> id < next.
Proof.
  revert live next bound Ts. induction Cs as [|A Cs IH]; intros live next bound [|T Ts]; [by intros _ ?%elem_of_nil|by intros _ ?%elem_of_nil|done|].
  intros (Hl & _ & Hc) [->|Hin]%elem_of_cons Hid; pose proof (lv_next _ _ _ _ Hl).
  - destruct Hid as [[[v t] E]|Hr]; [destruct (lv_olds _ _ _ _ Hl id v t E)|destruct (lv_rem _ _ _ _ Hl id Hr)]; lia.
  - pose proof (IH _ _ _ _ Hc Hin Hid). lia.
Qed.

(** What is removed since a session is not there at its start, nor after. *)
Lemma chain_rem live next bound Cs Ts C id : chain live next bound Cs Ts -> C ∈ Cs -> is_Some (c_rem C !! id) -> id < next /\ live !! id = None.
Proof.
  revert live next bound Ts. induction Cs as [|A Cs IH]; intros live next bound [|T Ts]; [by intros _ ?%elem_of_nil|by intros _ ?%elem_of_nil|done|].
  intros (Hl & _ & Hc) [->|Hin]%elem_of_cons Hid; pose proof (lv_next _ _ _ _ Hl).
  - destruct (lv_rem _ _ _ _ Hl id Hid). split; [lia|done].
  - destruct (IH _ _ _ _ Hc Hin Hid) as [Hlt Hno]. split; [lia|]. rewrite undo_map_lookup, decide_True in Hno by done.
    destruct (c_olds A !! id); [done|]. rewrite lookup_union in Hno. by destruct (live !! id), (c_rem A !! id).
Qed.

(** *** [squash]: the last session becomes part of the one before *)

(** Old values of [B] that [A] needs, for objects that are there. *)
Definition kept_olds (B A : chunk) : gmap Z (value * Z) :=
  filter (fun x => x.2.2 < c_time A /\ c_rem B !! x.1 = None) (c_olds B).
(** Removed values of [B], with the old values that [A] needs. *)
Definition compressed_rem (B A : chunk) : gmap Z (value * Z) :=
  filter (fun x => x.1 < c_next A)
    (map_imap (fun id x => Some (match c_olds B !! id with Some y => if y.2 <? c_time A then y else x | None => x end)) (c_rem B)).
Definition squashed (B A : chunk) : chunk := Chunk (c_time A) (c_next A) (kept_olds B A ∪ c_olds A) (compressed_rem B A ∪ c_rem A).

Lemma kept_olds_lookup B A id : kept_olds B A !! id =
  match c_olds B !! id with
  | Some y => if (y.2 <? c_time A) && bool_decide (c_rem B !! id = None) then Some y else None
  | None => None
  end.
Proof.
  unfold kept_olds. destruct (c_olds B !! id) as [y|] eqn:E; [|by apply map_lookup_filter_None; left].
  destruct (_ && _) eqn:Eb.
  - apply andb_true_iff in Eb as [?%Z.ltb_lt ?%bool_decide_eq_true]. by apply map_lookup_filter_Some.
  - apply map_lookup_filter_None. right. intros z Ez [H1 H2]. rewrite E in Ez. injection Ez as <-. cbn in *.
    by rewrite (proj2 (Z.ltb_lt _ _) H1), (bool_decide_true _ H2) in Eb.
Qed.

Lemma compressed_rem_lookup B A id : compressed_rem B A !! id =
  match c_rem B !! id with
  | Some x => if id <? c_next A then
                Some (match c_olds B !! id with Some y => if y.2 <? c_time A then y else x | None => x end)
              else None
  | None => None
  end.
Proof.
  unfold compressed_rem. set (m := map_imap _ _).
  assert (Hm : m !! id = (fun x => match c_olds B !! id with Some y => if y.2 <? c_time A then y else x | None => x end) <$> c_rem B !! id).
  { unfold m. rewrite map_lookup_imap. by destruct (c_rem B !! id). }
  clearbody m. destruct (c_rem B !! id) as [x|]; cbn in Hm; [|by apply map_lookup_filter_None; left].
  destruct (Z.ltb_spec id (c_next A)).
  - by apply map_lookup_filter_Some.
  - apply map_lookup_filter_None. right. intros z _. cbn. lia.
Qed.

Lemma union_lookup_cases (m1 m2 : gmap Z (value * Z)) id : (m1 ∪ m2) !! id = match m1 !! id with Some x => Some x | None => m2 !! id end.
Proof. rewrite lookup_union. destruct (m1 !! id); [by rewrite union_Some_l|by rewrite (left_id_L None (∪))]. Qed.

Section Squash.
Context (live : gmap Z (value * Z)) (next bound : Z) (B A : chunk).
Hypothesis (HB : level_ok live next bound B) (HA : level_ok (undo_map live B) (c_next B) (c_time B - 1) A).

Let L1 := undo_map live B.

Lemma squash_L1 id : id < c_next A -> L1 !! id = match c_olds B !! id with Some y => Some y | None => (live ∪ c_rem B) !! id end.
Proof. intros H. unfold L1. rewrite undo_map_lookup, decide_True; [done|]. pose proof (lv_next _ _ _ _ HA). lia. Qed.

(** A mark of [A] on what the session [B] started with. *)
Lemma squash_mtime id v t : id < c_next B -> match c_olds B !! id with Some y => Some y | None => (live ∪ c_rem B) !! id end = Some (v, t) ->
  t <= c_time B - 1 /\ (c_time A <= t <-> c_next A <= id \/ is_Some (c_olds A !! id)).
Proof.
  intros Hid E. apply (live_mtime _ _ _ _ id v t HA). rewrite undo_map_lookup, decide_True; done.
Qed.

Lemma squash_undo_map : undo_map live (squashed B A) = undo_map L1 A.
Proof.
  apply map_eq. intros id. rewrite !undo_map_lookup. cbn [squashed c_next c_olds c_rem]. case_decide as Hid; [|done].
  pose proof (squash_L1 id Hid) as HL. pose proof (lv_next _ _ _ _ HA) as Hn. unfold L1 in *.
  pose proof (fun v t => squash_mtime id v t ltac:(lia)) as Hmt.
  rewrite !union_lookup_cases, kept_olds_lookup, compressed_rem_lookup in *. rewrite HL. rewrite (proj2 (Z.ltb_lt _ _) Hid).
  destruct (c_olds A !! id) as [y|] eqn:EA.
  - destruct (c_olds B !! id) as [[v t]|] eqn:EB; [|done]. cbn. destruct (Hmt v t eq_refl) as [_ Hiff].
    assert (c_time A <= t) by (apply Hiff; right; by eexists). by rewrite (proj2 (Z.ltb_ge _ _)) by lia.
  - destruct (c_olds B !! id) as [[v t]|] eqn:EB.
    + cbn. destruct (Hmt v t eq_refl) as [_ Hiff].
      assert (t < c_time A). { destruct (Z.lt_ge_cases t (c_time A)) as [|Hge]; [done|]. apply Hiff in Hge as [?|[? ?]]; [lia|done]. }
      rewrite (proj2 (Z.ltb_lt _ _)) by done. destruct (c_rem B !! id) as [x|] eqn:ER; cbn; [|done].
      destruct (lv_rem _ _ _ _ HB id (ex_intro _ x ER)) as [_ ->]. done.
    + destruct (live !! id); [done|]. by destruct (c_rem B !! id).
Qed.

Lemma squash_level_ok : level_ok live next bound (squashed B A).
Proof.
  pose proof (lv_next _ _ _ _ HA) as Hn. pose proof (lv_next _ _ _ _ HB) as HnB. pose proof (lv_time _ _ _ _ HA) as Ht. pose proof (lv_time _ _ _ _ HB) as HtB.
  split; cbn [squashed c_time c_next c_olds c_rem]; [lia|lia|apply HB| | |].
  - intros id [x E]. rewrite union_lookup_cases, compressed_rem_lookup in E. destruct (c_rem B !! id) as [y|] eqn:ER.
    + destruct (lv_rem _ _ _ _ HB id (ex_intro _ y ER)) as [_ Hl]. destruct (Z.ltb_spec id (c_next A)); [by split|].
      destruct (lv_rem _ _ _ _ HA id (ex_intro _ x E)). lia.
    + destruct (lv_rem _ _ _ _ HA id (ex_intro _ x E)) as [Hid HL]. split; [done|]. fold L1 in HL. rewrite squash_L1 in HL by done.
      destruct (c_olds B !! id); [done|]. rewrite union_lookup_cases in HL. by destruct (live !! id).
  - intros id v t E. rewrite union_lookup_cases, kept_olds_lookup in E. rewrite !union_lookup_cases, compressed_rem_lookup.
    assert (HAolds : c_olds A !! id = Some (v, t) -> id < c_next A /\ t < c_time A /\
        is_Some (match live !! id with Some x => Some x | None => match match c_rem B !! id with Some x => if id <? c_next A then Some (match c_olds B !! id with Some y => if y.2 <? c_time A then y else x | None => x end) else None | None => None end with Some x => Some x | None => c_rem A !! id end end)).
    { intros EA. destruct (lv_olds _ _ _ _ HA id v t EA) as (Hid & Htt & [x Hx]). split_and!; [done..|].
      rewrite union_lookup_cases in Hx. fold L1 in Hx. rewrite squash_L1, union_lookup_cases in Hx by done. rewrite (proj2 (Z.ltb_lt _ _) Hid).
      destruct (live !! id) as [z|] eqn:El; [by eexists|]. destruct (c_rem B !! id) as [z|] eqn:ER; [by eexists|].
      destruct (c_olds B !! id) as [[v' t']|] eqn:EB; [|by eexists]. destruct (lv_olds _ _ _ _ HB id v' t' EB) as (_ & _ & [z Hz]).
      rewrite union_lookup_cases, El in Hz. congruence. }
    destruct (c_olds B !! id) as [[v' t']|] eqn:EB; [|by apply HAolds].
    destruct ((t' <? c_time A) && bool_decide (c_rem B !! id = None)) eqn:Ek; cbn in E; rewrite Ek in E; [|by apply HAolds].
    injection E as <- <-. apply andb_true_iff in Ek as [Htt%Z.ltb_lt ER%bool_decide_eq_true].
    destruct (lv_olds _ _ _ _ HB id v' t' EB) as (Hid & _ & [x Hx]). rewrite union_lookup_cases, ER in Hx.
    split_and!; [|done|]; [|destruct (live !! id); [by eexists|done]].
    destruct (Z.lt_ge_cases id (c_next A)) as [|Hge]; [done|]. destruct (squash_mtime id v' t' Hid) as [_ Hiff]; [by rewrite EB|].
    assert (c_time A <= t') by (apply Hiff; by left). lia.
  - intros id v t E. rewrite !union_lookup_cases, kept_olds_lookup. rewrite !union_lookup_cases, compressed_rem_lookup in E.
    pose proof (squash_mtime id) as Hmt. rewrite union_lookup_cases in Hmt.
    destruct (live !! id) as [y|] eqn:El.
    + injection E as ->. destruct (live_mtime _ _ _ _ _ _ _ HB El) as [Hb Hiff]. split; [done|].
      assert (ER : c_rem B !! id = None). { destruct (c_rem B !! id) as [z|] eqn:ER; [|done]. destruct (lv_rem _ _ _ _ HB id (ex_intro _ z ER)). congruence. }
      destruct (Z.lt_ge_cases id (c_next B)) as [Hid|Hge].
      2: { split; [intros _; left; lia|]. intros _. assert (c_time B <= t) by (apply Hiff; by left). lia. }
      destruct (c_olds B !! id) as [[v' t']|] eqn:EB; [|by apply Hmt with v].
      assert (Htb : c_time B <= t) by (apply Hiff; right; by eexists). split; [intros _|lia].
      cbn. rewrite ER, bool_decide_true, andb_true_r by done. destruct (Z.ltb_spec t' (c_time A)); [right; by eexists|].
      destruct (Hmt v' t' Hid eq_refl) as [_ Hiff']. by apply Hiff'.
    + destruct (c_rem B !! id) as [y|] eqn:ER.
      * destruct (lv_rem _ _ _ _ HB id (ex_intro _ y ER)) as [Hid _].
        destruct (Z.ltb_spec id (c_next A)) as [HidA|HidA].
        2: { destruct (lv_rem _ _ _ _ HA id (ex_intro _ _ E)). lia. }
        injection E as E. pose proof (lv_mtime _ _ _ _ HB id) as HmB. rewrite union_lookup_cases, El, ER in HmB.
        destruct (c_olds B !! id) as [[v' t']|] eqn:EB.
        -- destruct (Hmt v' t' Hid eq_refl) as [Hb' Hiff]. cbn [snd] in E |- *. rewrite (bool_decide_eq_false_2 (Some y = None)), andb_false_r by done.
           destruct (Z.ltb_spec t' (c_time A)); [injection E as <- <-; split; [lia|done]|]. subst y.
           destruct (HmB v t eq_refl) as [Hb Hiff2]. split; [done|]. assert (c_time B <= t) by (apply Hiff2; right; by eexists).
           split; [intros _; by apply Hiff|lia].
        -- subst y. destruct (HmB v t eq_refl) as [Hb _]. split; [done|]. by apply Hmt with v.
      * destruct (lv_rem _ _ _ _ HA id (ex_intro _ _ E)) as [HidA HL]. fold L1 in HL. rewrite squash_L1, union_lookup_cases, El, ER in HL by done.
        destruct (c_olds B !! id) as [[v' t']|] eqn:EB; [done|].
        destruct (lv_mtime _ _ _ _ HA id v t) as [Hb Hiff].
        { rewrite union_lookup_cases. fold L1. by rewrite squash_L1, EB, union_lookup_cases, El, ER by done. }
        split; [lia|done].
Qed.
End Squash.

(** *** [compress_last_undo_session] *)

Definition compressed (B : chunk) : chunk := Chunk (c_time B) (c_next B) (kept_olds B B) (compressed_rem B B).

Lemma compressed_olds live next bound B id : level_ok live next bound B ->
  kept_olds B B !! id = match c_rem B !! id with Some _ => None | None => c_olds B !! id end.
Proof.
  intros HB. rewrite kept_olds_lookup. destruct (c_olds B !! id) as [[v t]|] eqn:E; [|by destruct (c_rem B !! id)].
  destruct (lv_olds _ _ _ _ HB id v t E) as (_ & Ht & _). cbn [snd]. rewrite (proj2 (Z.ltb_lt _ _) Ht). by destruct (c_rem B !! id).
Qed.

Lemma compressed_rems live next bound B id : level_ok live next bound B ->
  compressed_rem B B !! id = match c_rem B !! id with Some x => Some (default x (c_olds B !! id)) | None => None end.
Proof.
  intros HB. rewrite compressed_rem_lookup. destruct (c_rem B !! id) as [x|] eqn:E; [|done].
  destruct (lv_rem _ _ _ _ HB id (ex_intro _ x E)) as [Hid _]. rewrite (proj2 (Z.ltb_lt _ _) Hid). destruct (c_olds B !! id) as [[v t]|] eqn:Eo; [|done].
  destruct (lv_olds _ _ _ _ HB id v t Eo) as (_ & Ht & _). cbn. by rewrite (proj2 (Z.ltb_lt _ _) Ht).
Qed.

Lemma chain_compress live next bound B Cs TB Ts : chain live next bound (B :: Cs) (TB :: Ts) -> chain live next bound (compressed B :: Cs) (TB :: Ts).
Proof.
  intros Hc. pose proof Hc as (HB & _). pose proof HB as [H1 H2 H3 H4 H5 H6].
  pose proof (fun id => compressed_olds _ _ _ _ id HB) as Hk. pose proof (fun id => compressed_rems _ _ _ _ id HB) as Hr.
  assert (Hex : forall id x, c_rem B !! id = Some x -> live !! id = None) by (intros id x E; by apply (H4 id (ex_intro _ x E))).
  eapply chain_update; [exact Hc|done|done| |].
  - apply map_eq. intros id. rewrite !undo_map_lookup. cbn. case_decide; [|done]. rewrite !union_lookup_cases, Hk, Hr.
    destruct (c_rem B !! id) as [x|] eqn:E; [|done]. rewrite (Hex _ _ E). by destruct (c_olds B !! id).
  - split; cbn; try done.
    + intros id [x E]. rewrite Hr in E. destruct (c_rem B !! id) as [y|] eqn:E'; [|done]. by apply H4; eexists.
    + intros id v t E. rewrite Hk in E. destruct (c_rem B !! id) as [y|] eqn:E'; [done|]. destruct (H5 id v t E) as (? & ? & Hs). split_and!; [done..|].
      rewrite union_lookup_cases, Hr, E'. rewrite union_lookup_cases, E' in Hs. done.
    + intros id v t E. rewrite union_lookup_cases, Hr in E. rewrite Hk. specialize (H6 id). rewrite union_lookup_cases in H6. destruct (live !! id) as [z|] eqn:El.
      * injection E as ->. destruct (c_rem B !! id) as [y|] eqn:E'; [by rewrite (Hex _ _ E') in El|]. by apply H6 with v.
      * destruct (c_rem B !! id) as [y|] eqn:E'; [|done]. injection E as E. destruct (H4 id (ex_intro _ y E')) as [Hid _].
        destruct (c_olds B !! id) as [[v' t']|] eqn:Eo; cbn in E.
        -- injection E as <- <-. destruct (H5 id v' t' Eo) as (_ & Ht & _). split; [lia|]. split; [lia|]. intros [?|[? [=]]]; lia.
        -- subst y. by apply H6 with v.
Qed.

Lemma chain_squash live next bound B A Cs TB TA Ts : chain live next bound (B :: A :: Cs) (TB :: TA :: Ts) ->
  chain live next bound (squashed B A :: Cs) (TA :: Ts).
Proof.
  intros (HB & _ & HA & -> & Hc). cbn. rewrite (squash_undo_map live next bound B A HB HA). split_and!; [|done|done]. by apply squash_level_ok.
Qed.
End Chunks.
