(* ===== verification/UndoRepr.v ===== *)
(** * How a table stores its contents and its history

    No code of its own: what the nodes, lists, indices and markers of an
    [UndoIndex.undo_index] say, by objects and sessions, and what each part of an
    operation does to that. *)

From stdpp Require Import sorting.
From S2P Require Import Prelude UndoIndex UndoOrder UndoHistory.
Open Scope Z_scope.

Section Repr.
Context {value : Type} (value_id : value -> Z) (secondary : list (@order value)).
Implicit Types (P : gmap Z (@node value)) (loc : Z -> Z) (ns : gmap Z (@node value)) (C : @chunk value).

Definition live_of P : gmap Z (value * Z) := omap (fun n => if erased_flag n then None else Some (_item n, _mtime n)) P.
Definition contents_of P : gmap Z value := fst <$> live_of P.

(** The nodes of objects are where [loc] says. *)
Definition located loc P ns : Prop := forall id n, P !! id = Some n -> ns !! loc id = Some n /\ value_id (_item n) = id.

(** The index has the objects that are not removed. *)
Definition index_of loc P (l : list Z) : Prop :=
  NoDup l /\ forall p, p ∈ l <-> exists id n, P !! id = Some n /\ erased_flag n = false /\ p = loc id.

Definition is_old loc (o : @old_node value) (x : Z * (value * Z)) : Prop := _current o = loc x.1 /\ old_item o = x.2.1 /\ old_mtime o = x.2.2.
Definition olds_of loc (m : gmap Z (value * Z)) (os : list (@old_node value)) : Prop :=
  exists xs, NoDup xs.*1 /\ m = list_to_map xs /\ Forall2 (is_old loc) os xs.
Definition rems_of loc (m : gmap Z (value * Z)) (ps : list Z) : Prop :=
  exists xs, NoDup xs.*1 /\ m = list_to_map xs /\ ps = (fun x : Z * (value * Z) => loc x.1) <$> xs.

(** The lists are made of a part for each session, the last first, and its markers
    point to what follows its part. *)
Fixpoint segments loc (Cs : list (@chunk value)) (stack : list undo_state) (olds : list (@old_node value)) (rems : list Z) : Prop :=
  match Cs, stack with
  | [], [] => True
  | C :: Cs, u :: stack =>
      exists os olds' rs rems', olds = os ++ olds' /\ rems = rs ++ rems' /\
        old_values_end u = old_address <$> head olds' /\ removed_values_end u = head rems' /\ old_next_id u = c_next C /\ ctime u = c_time C /\
        olds_of loc (c_olds C) os /\ rems_of loc (c_rem C) rs /\ segments loc Cs stack olds' rems'
  | _, _ => False
  end.

Record repr loc P (Cs : list (@chunk value)) (s : undo_index value) : Prop := {
  rp_nodes : located loc P (nodes s);
  rp_fresh : forall p, is_Some (nodes s !! p) -> p < next_address s;
  rp_old_fresh : Forall (fun o => old_address o < next_address s) (_old_values s);
  rp_old_nodup : NoDup (old_address <$> _old_values s);
  rp_rem_nodup : NoDup (_removed_values s);
  rp_rem_flag : Forall (fun p => exists n, nodes s !! p = Some n /\ erased_flag n = true) (_removed_values s);
  rp_indexed : Forall (index_of loc P) (_indices s);
  rp_ordered : ordered (nodes s) (orders value_id secondary) (_indices s);
  rp_segments : segments loc Cs (_undo_stack s) (_old_values s) (_removed_values s);
  rp_rem : forall C id v t, C ∈ Cs -> c_rem C !! id = Some (v, t) -> P !! id = Some (Node v t true)
}.

(** ** Contents *)

Lemma live_of_lookup P id : live_of P !! id = match P !! id with Some n => if erased_flag n then None else Some (_item n, _mtime n) | None => None end.
Proof. unfold live_of. rewrite lookup_omap. by destruct (P !! id). Qed.

Lemma live_of_Some P id v t : live_of P !! id = Some (v, t) <-> P !! id = Some (Node v t false).
Proof.
  rewrite live_of_lookup. destruct (P !! id) as [[v' t' []]|]; cbn; [split; congruence| |done]. split; [by intros [= -> ->]|by intros [= -> ->]].
Qed.

Lemma contents_of_Some P id v : contents_of P !! id = Some v <-> exists t, P !! id = Some (Node v t false).
Proof.
  unfold contents_of. rewrite lookup_fmap_Some. split.
  - intros ([v' t] & <- & H%live_of_Some). by eexists.
  - intros (t & H%live_of_Some). by eexists (v, t).
Qed.

Lemma live_of_insert P id n : live_of (<[id := n]> P) = if erased_flag n then delete id (live_of P) else <[id := (_item n, _mtime n)]> (live_of P).
Proof.
  apply map_eq. intros i. rewrite live_of_lookup. destruct (decide (i = id)) as [->|Hne].
  - rewrite lookup_insert_eq. destruct (erased_flag n); [by rewrite lookup_delete_eq|by rewrite lookup_insert_eq].
  - rewrite lookup_insert_ne, <- live_of_lookup by done. destruct (erased_flag n); [by rewrite lookup_delete_ne|by rewrite lookup_insert_ne].
Qed.

Lemma live_of_delete P id : live_of (delete id P) = delete id (live_of P).
Proof. unfold live_of. by rewrite omap_delete. Qed.

(** ** Placement *)

Lemma located_inj loc P ns id id' : located loc P ns -> is_Some (P !! id) -> is_Some (P !! id') -> loc id = loc id' -> id = id'.
Proof. intros H [n Hn] [n' Hn'] E. destruct (H _ _ Hn) as [H1 <-], (H _ _ Hn') as [H2 <-]. rewrite E in H1. congruence. Qed.

(** Writing to a node. *)
Lemma located_insert loc P ns id n : located loc P ns -> is_Some (P !! id) -> value_id (_item n) = id -> located loc (<[id := n]> P) (<[loc id := n]> ns).
Proof.
  intros H Hid Hn i n' [[-> ->]|[Hne E]]%lookup_insert_Some; [by rewrite lookup_insert_eq|]. rewrite lookup_insert_ne; [by apply H|].
  intros Heq. apply Hne. by eapply located_inj.
Qed.

(** Making one. *)
Lemma located_new loc P ns id p n : located loc P ns -> ns !! p = None -> value_id (_item n) = id ->
  located (fun i => if i =? id then p else loc i) (<[id := n]> P) (<[p := n]> ns).
Proof.
  intros H Hp Hn i n' [[-> ->]|[Hne E]]%lookup_insert_Some; [by rewrite Z.eqb_refl, lookup_insert_eq|].
  rewrite (proj2 (Z.eqb_neq _ _)) by done. destruct (H _ _ E) as [E1 E2]. rewrite lookup_insert_ne; [done|]. intros ->. congruence.
Qed.

(** Destroying one. *)
Lemma located_delete loc P ns id : located loc P ns -> is_Some (P !! id) -> located loc (delete id P) (delete (loc id) ns).
Proof.
  intros H Hid i n' [Hne E]%lookup_delete_Some. rewrite lookup_delete_ne; [by apply H|]. intros Heq. apply Hne. by eapply located_inj.
Qed.

(** The indices do not know the values. *)
Lemma index_of_same loc P P' l : (forall id, erased_flag <$> P !! id = erased_flag <$> P' !! id) -> index_of loc P l -> index_of loc P' l.
Proof.
  intros H [Hnd Hl]. split; [done|]. intros p. rewrite Hl. split; intros (id & n & E & Hf & ->); specialize (H id); rewrite E in H; cbn in H.
  - destruct (P' !! id) as [n'|] eqn:E'; [|done]. exists id, n'. split_and!; [done| |done]. cbn in H. congruence.
  - destruct (P !! id) as [n'|] eqn:E'; [|done]. exists id, n'. split_and!; [done| |done]. cbn in H. congruence.
Qed.

Lemma index_of_perm loc P l l' : l' ≡ₚ l -> index_of loc P l -> index_of loc P l'.
Proof. intros Hp [Hnd Hl]. split; [by rewrite Hp|]. intros p. by rewrite Hp. Qed.

(** An object appears in an index. *)
Lemma index_of_insert loc loc' P ns id n l l' : located loc' (<[id := n]> P) ns -> (forall i, i <> id -> loc' i = loc i) ->
  live_of P !! id = None -> erased_flag n = false -> index_of loc P l -> l' ≡ₚ loc' id :: l -> index_of loc' (<[id := n]> P) l'.
Proof.
  intros Hloc Hext Hno Hn [Hnd Hl] Hp.
  assert (Hother : forall i n', P !! i = Some n' -> erased_flag n' = false -> i <> id).
  { intros i n' E Hf ->. rewrite live_of_lookup, E, Hf in Hno. done. }
  assert (Hnew : loc' id ∉ l).
  { rewrite Hl. intros (i & n' & E & Hf & Heq). pose proof (Hother _ _ E Hf) as Hne. rewrite <- Hext in Heq by done. apply Hne. symmetry.
    eapply located_inj; [exact Hloc| | |exact Heq]; [rewrite lookup_insert_eq; by eexists|rewrite lookup_insert_ne by done; by eexists]. }
  split; [rewrite Hp; by constructor|]. intros p. rewrite Hp, elem_of_cons, Hl. split.
  - intros [->|(i & n' & E & Hf & ->)]; [exists id, n; by rewrite lookup_insert_eq|]. pose proof (Hother _ _ E Hf). exists i, n'.
    by rewrite lookup_insert_ne, Hext by done.
  - intros (i & n' & [[<- <-]|[Hne E]]%lookup_insert_Some & Hf & ->); [by left|]. right. exists i, n'. by rewrite Hext.
Qed.

(** It disappears. *)
Lemma index_of_remove loc P P' ns id l : located loc P ns -> is_Some (P !! id) -> index_of loc P l -> live_of P' = delete id (live_of P) -> index_of loc P' (erase (loc id) l).
Proof.
  intros Hloc Hid [Hnd Hl] HP. split; [by apply NoDup_filter|]. intros p. rewrite elem_of_erase, Hl.
  assert (Hlive : forall i, (exists n, P' !! i = Some n /\ erased_flag n = false) <-> i <> id /\ exists n, P !! i = Some n /\ erased_flag n = false).
  { assert (Hsome : forall Q i, (exists n, Q !! i = Some n /\ erased_flag n = false) <-> is_Some (live_of Q !! i)).
    { intros Q i. rewrite live_of_lookup. split; [by intros (n & -> & ->)|]. destruct (Q !! i) as [[v t []]|]; intros [x Hx]; try done. by eexists. }
    intros i. rewrite !Hsome, HP, lookup_delete_is_Some. naive_solver. }
  split.
  - intros ((i & n & E & Hf & ->) & Hne). destruct (proj2 (Hlive i)) as (n' & E' & Hf'); [split; [by intros ->|by eexists]|]. by exists i, n'.
  - intros (i & n & E & Hf & ->). destruct (proj1 (Hlive i)) as (Hne & n' & E' & Hf'); [by eexists|]. split; [by exists i, n'|].
    intros Heq. apply Hne. eapply located_inj; [exact Hloc|by eexists|done|done].
Qed.

(** ** Uniqueness *)

(** No object but [id] has a key of [v]. *)
Definition fits (id : Z) (v : value) (m : gmap Z value) : bool :=
  forallb (fun lt : @order value => forallb (fun x => (x.1 =? id) || lt v x.2 || lt x.2 v) (map_to_list m)) secondary.

(** Contents that a table can have. *)
Definition good (m : gmap Z value) : Prop :=
  (forall id v, m !! id = Some v -> value_id v = id) /\
  (forall id id' v v' lt, m !! id = Some v -> m !! id' = Some v' -> id <> id' -> lt ∈ secondary -> lt v v' = true \/ lt v' v = true).

Lemma fits_true id v m : fits id v m = true <-> forall lt id' v', lt ∈ secondary -> m !! id' = Some v' -> id' <> id -> lt v v' = true \/ lt v' v = true.
Proof.
  unfold fits. rewrite forallb_forall. split.
  - intros H lt id' v' Hlt E Hne. specialize (H lt ltac:(by apply list_elem_of_In)). rewrite forallb_forall in H.
    specialize (H (id', v') ltac:(by apply list_elem_of_In, elem_of_map_to_list)). cbn in H.
    apply orb_true_iff in H as [[?%Z.eqb_eq|?]%orb_true_iff|?]; [done|by left|by right].
  - intros H lt Hlt%list_elem_of_In. apply forallb_forall. intros [id' v'] Hx%list_elem_of_In%elem_of_map_to_list. cbn.
    destruct (Z.eqb_spec id' id) as [|Hne]; [done|]. destruct (H lt id' v' Hlt Hx Hne) as [->| ->]; [done|by rewrite !orb_true_r].
Qed.

Lemma fits_insert id v w m : fits id v (<[id := w]> m) = fits id v m.
Proof.
  apply eq_true_iff_eq. rewrite !fits_true. split; intros H lt id' v' Hlt E Hne; eapply H; try done.
  - by rewrite lookup_insert_ne.
  - by rewrite lookup_insert_ne in E.
Qed.

Lemma id_order_strict_weak : strict_weak (id_order value_id).
Proof.
  unfold id_order. split.
  - intros. by apply Z.ltb_irrefl.
  - intros a b c ?%Z.ltb_lt ?%Z.ltb_lt. apply Z.ltb_lt. lia.
  - intros a b c ?%Z.ltb_lt. rewrite !Z.ltb_lt. lia.
Qed.

Lemma located_apart loc P ns id id' n n' (lt : @order value) : located loc P ns -> P !! id = Some n -> P !! id' = Some n' ->
  apart lt ns (loc id) (loc id') <-> lt (_item n) (_item n') = true \/ lt (_item n') (_item n) = true.
Proof. intros H E E'. unfold apart, precedes, less. by rewrite (proj1 (H _ _ E)), (proj1 (H _ _ E')). Qed.

(** A clash in the indices is one in the contents. *)
Lemma clash_unfit loc P ns id n indices : located loc P ns -> P !! id = Some n ->
  Forall (fun l => forall q, q ∈ l -> exists id' n', P !! id' = Some n' /\ erased_flag n' = false /\ q = loc id' /\ id' <> id) indices ->
  clash ns secondary (loc id) indices -> fits id (_item n) (contents_of P) = false.
Proof.
  intros Hloc E Hl (lt & l & q & Hlt & Hin & Hq & Ha). apply not_true_is_false. intros Hfit. apply Ha.
  rewrite Forall_forall in Hl. destruct (Hl l Hin q Hq) as (id' & [v' t' e'] & E' & Hf & -> & Hne). cbn in Hf. subst e'.
  eapply located_apart; [done..|]. apply (proj1 (fits_true _ _ _) Hfit lt id' v' Hlt); [|done]. apply contents_of_Some. by eexists.
Qed.

(** Ordered indices have no clash. *)
Lemma ordered_apart loc P ns (lts : list (@order value)) indices lt id id' n n' : located loc P ns -> Forall (index_of loc P) indices -> ordered ns lts indices ->
  lt ∈ lts -> P !! id = Some n -> P !! id' = Some n' -> erased_flag n = false -> erased_flag n' = false -> id <> id' ->
  lt (_item n) (_item n') = true \/ lt (_item n') (_item n) = true.
Proof.
  intros Hloc Hix Ho Hlt E E' Hf Hf' Hne. apply list_elem_of_lookup in Hlt as [i Hi]. destruct (Forall2_lookup_l _ _ _ _ _ Ho Hi) as (l & Hl & Hs).
  apply list_elem_of_lookup_2 in Hl. rewrite Forall_forall in Hix. destruct (Hix l Hl) as [_ Hmem].
  eapply located_apart; [exact Hloc|done..|]. eapply sorted_apart; [exact Hs|apply Hmem; by exists id, n|apply Hmem; by exists id', n'|].
  intros Heq. apply Hne. eapply located_inj; [exact Hloc|by eexists..|done].
Qed.

Lemma ordered_good loc P ns lt0 indices : located loc P ns -> Forall (index_of loc P) indices -> ordered ns (lt0 :: secondary) indices -> good (contents_of P).
Proof.
  intros Hloc Hix Ho. split.
  - intros id v [t E]%contents_of_Some. by apply (Hloc _ _ E).
  - intros id id' v v' lt [t E]%contents_of_Some [t' E']%contents_of_Some Hne Hlt.
    apply (ordered_apart loc P ns (lt0 :: secondary) indices lt id id' (Node v t false) (Node v' t' false) Hloc Hix Ho); [by right|done..].
Qed.

Lemma ordered_fits loc P ns indices id n : located loc P ns -> Forall (index_of loc P) indices -> ordered ns secondary indices ->
  P !! id = Some n -> erased_flag n = false -> fits id (_item n) (contents_of P) = true.
Proof.
  intros Hloc Hix Ho E Hf. apply fits_true. intros lt id' v' Hlt [t' E']%contents_of_Some Hne.
  by apply (ordered_apart loc P ns secondary indices lt id id' n (Node v' t' false) Hloc Hix Ho).
Qed.

(** Objects with distinct keys can be put in order. *)
Lemma apart_ordered loc P ns (lts : list (@order value)) indices : located loc P ns -> Forall (index_of loc P) indices -> weakly_ordered ns lts indices ->
  (forall lt id id' n n', lt ∈ lts -> P !! id = Some n -> P !! id' = Some n' -> erased_flag n = false -> erased_flag n' = false -> id <> id' ->
     lt (_item n) (_item n') = true \/ lt (_item n') (_item n) = true) -> ordered ns lts indices.
Proof.
  intros Hloc Hix Ho Ha. apply Forall2_same_length_lookup. apply Forall2_same_length_lookup in Ho as [Hlen Ho]. split; [done|].
  intros i lt l Hlt Hl. rewrite Forall_forall in Hix. destruct (Hix l) as [Hnd Hmem]; [by eapply list_elem_of_lookup_2|].
  apply weakly_sorted_apart; [by eapply Ho|done|]. intros p q (id & n & E & Hf & ->)%Hmem (id' & n' & E' & Hf' & ->)%Hmem Hne.
  eapply located_apart; [done..|]. eapply Ha; [by eapply list_elem_of_lookup_2|done..|]. by intros ->.
Qed.

(** The order of an index only depends on the values of its nodes. *)
Lemma ordered_ext ns ns' (lts : list (@order value)) indices : Forall (fun l => forall p, p ∈ l -> _item <$> ns !! p = _item <$> ns' !! p) indices ->
  ordered ns lts indices -> ordered ns' lts indices.
Proof.
  intros H Ho. revert H. induction Ho as [|lt l lts indices Hl Ho IH]; intros H; [constructor|]. apply Forall_cons in H as [H1 H]. constructor; [|by apply IH].
  eapply sorted_ext; [|exact Hl]. intros p q Hp Hq. unfold precedes. by rewrite (less_ext lt ns ns' p q (H1 p Hp) (H1 q Hq)).
Qed.

Lemma weakly_ordered_ext ns ns' (lts : list (@order value)) indices : Forall (fun l => forall p, p ∈ l -> _item <$> ns !! p = _item <$> ns' !! p) indices ->
  weakly_ordered ns lts indices -> weakly_ordered ns' lts indices.
Proof.
  intros H Ho. revert H. induction Ho as [|lt l lts indices Hl Ho IH]; intros H; [constructor|]. apply Forall_cons in H as [H1 H]. constructor; [|by apply IH].
  eapply sorted_ext; [|exact Hl]. intros p q Hp Hq. unfold not_after. by rewrite (less_ext lt ns ns' q p (H1 q Hq) (H1 p Hp)).
Qed.

Lemma ordered_erase ns (lts : list (@order value)) indices p : ordered ns lts indices -> ordered ns lts (erase p <$> indices).
Proof. intros H. apply Forall2_fmap_r. eapply Forall2_impl; [exact H|]. intros lt l. apply sorted_filter. Qed.
End Repr.
