(* ===== verification/UndoSteps.v ===== *)
(** * The operations of a table refine those of its contents

    No code of its own: [table] is a map of objects with a stack of copies of
    itself, and every operation of [UndoIndex] is the obvious one on it. *)

From stdpp Require Import sorting.
From S2P Require Import Prelude UndoIndex UndoOrder UndoHistory UndoRepr.
Open Scope Z_scope.

Section Segments.
Context {value : Type}.
Implicit Types (loc : Z -> Z) (C : @chunk value) (Cs : list (@chunk value)).

Lemma segments_ext loc loc' Cs stack olds rems : (forall C id, C ∈ Cs -> is_Some (c_olds C !! id) \/ is_Some (c_rem C !! id) -> loc' id = loc id) ->
  segments loc Cs stack olds rems -> segments loc' Cs stack olds rems.
Proof.
  revert stack olds rems. induction Cs as [|C Cs IH]; intros [|u stack] olds rems Hext; cbn; try done.
  intros (os & olds' & rs & rems' & ? & ? & ? & ? & ? & ? & (xs & Hnd & Hm & Hxs) & (ys & Hndy & Hmy & Hys) & H).
  assert (Hin : forall (zs : list (Z * (value * Z))) z, NoDup zs.*1 -> z ∈ zs -> is_Some ((list_to_map zs : gmap Z (value * Z)) !! z.1)).
  { intros zs [i x] Hz Hi. exists x. by apply elem_of_list_to_map_1. }
  exists os, olds', rs, rems'. split_and!; try done.
  - exists xs. split_and!; [done..|]. apply Forall2_same_length_lookup in Hxs as [Hlen Hxs]. apply Forall2_same_length_lookup. split; [done|].
    intros k o x Ho Hx. destruct (Hxs k o x Ho Hx) as (Ec & Hx2 & Hx3). split_and!; [|done..].
    rewrite Ec. symmetry. apply (Hext C); [by left|]. left. rewrite Hm. apply Hin; [done|by eapply list_elem_of_lookup_2].
  - exists ys. split_and!; [done..|]. subst rs. apply list_fmap_ext. intros k y Hy%list_elem_of_lookup_2. symmetry.
    apply (Hext C); [by left|]. right. rewrite Hmy. by apply Hin.
  - apply IH; [|done]. intros C' id HC. apply Hext. by right.
Qed.

Lemma segments_length loc Cs stack olds rems : segments loc Cs stack olds rems -> length stack = length Cs.
Proof.
  revert stack olds rems. induction Cs as [|C Cs IH]; intros [|u stack] olds rems; cbn; try done.
  intros (os & olds' & rs & rems' & H). f_equal. eapply IH. apply H.
Qed.

Lemma segments_log_old loc C Cs u stack olds rems id x o : segments loc (C :: Cs) (u :: stack) olds rems -> c_olds C !! id = None -> is_old loc o (id, x) ->
  segments loc (log_old C id x :: Cs) (u :: stack) (o :: olds) rems.
Proof.
  intros (os & olds' & rs & rems' & -> & -> & H1 & H2 & H3 & H4 & (xs & Hnd & Hm & Hxs) & Hr & H) Hno Ho.
  exists (o :: os), olds', rs, rems'. split_and!; try done. exists ((id, x) :: xs). cbn. split_and!; [|by rewrite Hm|by constructor].
  constructor; [|done]. rewrite Hm in Hno. by apply not_elem_of_list_to_map_2.
Qed.

Lemma segments_log_removed loc C Cs u stack olds rems id x : segments loc (C :: Cs) (u :: stack) olds rems -> c_rem C !! id = None ->
  segments loc (log_removed C id x :: Cs) (u :: stack) olds (loc id :: rems).
Proof.
  intros (os & olds' & rs & rems' & -> & -> & H1 & H2 & H3 & H4 & Ho & (xs & Hnd & Hm & Hxs) & H) Hno.
  exists os, olds', (loc id :: rs), rems'. split_and!; try done. exists ((id, x) :: xs). cbn. split_and!; [|by rewrite Hm|by rewrite Hxs].
  constructor; [|done]. rewrite Hm in Hno. by apply not_elem_of_list_to_map_2.
Qed.

Lemma segments_start loc Cs stack olds rems next t : segments loc Cs stack olds rems ->
  segments loc (Chunk t next ∅ ∅ :: Cs) (UndoState (old_address <$> head olds) (head rems) next t :: stack) olds rems.
Proof.
  intros H. exists [], olds, [], rems. split_and!; try done; exists []; split_and!; [constructor|done|constructor|constructor|done|done].
Qed.
End Segments.

Section Steps.
Context {value : Type} (value_id : value -> Z) (secondary : list (@order value)) (Hsw : Forall strict_weak secondary).
Implicit Types (P : gmap Z (@node value)) (loc : Z -> Z) (ns : gmap Z (@node value)) (Cs : list (@chunk value)) (s : undo_index value).

#[local] Abbreviation repr := (repr value_id secondary).

Definition same_rest s s' : Prop :=
  _next_id s' = _next_id s /\ _revision s' = _revision s /\ _monotonic_revision s' = _monotonic_revision s.

Lemma repr_indices loc P Cs s : repr loc P Cs s -> exists l ls, _indices s = l :: ls /\ index_of loc P l /\ Forall (index_of loc P) ls /\
  StronglySorted (precedes (id_order value_id) (nodes s)) l /\ ordered (nodes s) secondary ls.
Proof.
  intros []. apply Forall2_cons_inv_l in rp_ordered as (l & ls & Hl & Hls & E). rewrite E in rp_indexed. apply Forall_cons in rp_indexed as [Hi His].
  exists l, ls. by split_and!.
Qed.

Lemma index_of_nodes loc P ns l p : located value_id loc P ns -> index_of loc P l -> p ∈ l ->
  exists id n, P !! id = Some n /\ erased_flag n = false /\ p = loc id /\ ns !! p = Some n.
Proof. intros Hloc [_ Hl] (id & n & E & Hf & ->)%Hl. exists id, n. split_and!; [done..|]. by apply Hloc. Qed.

Lemma inserted_perm p ls ls' : inserted p ls ls' -> Forall2 (fun l l' => l' ≡ₚ p :: l) ls ls'.
Proof. intros H. eapply Forall2_impl; [exact H|]. intros l l' (a & b & -> & ->). symmetry. apply Permutation_middle. Qed.

Lemma indices_insert loc loc' P ns id n ls ls' : located value_id loc' (<[id := n]> P) ns -> (forall i, i <> id -> loc' i = loc i) ->
  live_of P !! id = None -> erased_flag n = false -> Forall (index_of loc P) ls -> inserted (loc' id) ls ls' -> Forall (index_of loc' (<[id := n]> P)) ls'.
Proof.
  intros Hloc Hext Hno Hf Hls Hi%inserted_perm. revert Hls. induction Hi as [|l l' ls ls' Hp Hi IH]; intros Hls; [constructor|].
  apply Forall_cons in Hls as [Hl Hls]. constructor; [|by apply IH]. by eapply index_of_insert.
Qed.

(** ** [emplace] *)

Section Emplace.
Context loc P Cs s (Ts : list (gmap Z value * Z)) (bound : Z) (c : Z -> result value) (v : value).
Hypothesis (Hr : repr loc P Cs s) (Hc : chain (live_of P) (_next_id s) bound Cs Ts).
Hypothesis (Hcons : c (_next_id s) = Ok v) (Hid : value_id v = _next_id s).

#[local] Abbreviation p := (next_address s).
Let loc' := fun i => if i =? _next_id s then p else loc i.

Lemma emplace_fresh : nodes s !! p = None.
Proof. destruct (nodes s !! p) eqn:E; [|done]. pose proof (rp_fresh _ _ _ _ _ _ Hr p ltac:(by eexists)). lia. Qed.

Lemma emplace_unused : live_of P !! _next_id s = None.
Proof. destruct (live_of P !! _next_id s) as [[w t]|] eqn:E; [|done]. destruct (chain_live _ _ _ _ _ _ _ _ Hc E). lia. Qed.

Lemma emplace_loc : loc' (_next_id s) = p /\ forall i, i <> _next_id s -> loc' i = loc i.
Proof. unfold loc'. split; [by rewrite Z.eqb_refl|]. intros i Hi. by rewrite (proj2 (Z.eqb_neq _ _)). Qed.

Lemma emplace_located t : located value_id loc' (<[_next_id s := Node v t false]> P) (<[p := Node v t false]> (nodes s)).
Proof. apply located_new; [apply Hr|apply emplace_fresh|done]. Qed.

Lemma emplace_ordered n lts ls : Forall (index_of loc P) ls -> ordered (nodes s) lts ls -> ordered (<[p := n]> (nodes s)) lts ls.
Proof.
  intros Hls. apply ordered_ext. eapply Forall_impl; [exact Hls|]. intros l Hl q Hq.
  destruct (index_of_nodes loc P _ l q (rp_nodes _ _ _ _ _ _ Hr) Hl Hq) as (i & m & _ & _ & _ & E).
  rewrite lookup_insert_ne; [done|]. intros <-. rewrite emplace_fresh in E. done.
Qed.

Lemma emplace_new_in_no_index ls : Forall (index_of loc P) ls -> Forall (fun l => p ∉ l) ls.
Proof.
  intros Hls. eapply Forall_impl; [exact Hls|]. intros l Hl Hp.
  destruct (index_of_nodes loc P _ l p (rp_nodes _ _ _ _ _ _ Hr) Hl Hp) as (i & m & _ & _ & _ & E). rewrite emplace_fresh in E. done.
Qed.

Lemma emplace_fails : fits secondary (_next_id s) v (contents_of P) = false ->
  exists s', emplace secondary s c = (s', Throw std_logic_error) /\ repr loc P Cs s' /\ same_rest s s'.
Proof.
  intros Hfit. destruct (repr_indices _ _ _ _ Hr) as (l & ls & Hix & Hl & Hls & _ & Hord).
  unfold emplace. rewrite Hcons, Hix. cbn [tail head_index head].
  pose proof (insert_impl_spec _ secondary p ls Hsw (emplace_ordered (Node v 0 false) _ _ Hls Hord) (emplace_new_in_no_index ls Hls)) as Hspec.
  destruct (insert_impl _ secondary p ls) as [ls' [|]]; cbn in Hspec.
  - destruct Hspec as [Hord' Hins]. pose proof (emplace_located 0) as Hloc'. destruct emplace_loc as [Hp Hext]. rewrite <- Hp in Hins.
    pose proof (indices_insert _ _ _ _ _ _ _ _ Hloc' Hext emplace_unused eq_refl Hls Hins) as Hls'.
    pose proof (ordered_fits value_id secondary _ _ _ _ (_next_id s) _ Hloc' Hls' Hord' (lookup_insert_eq _ _ _) eq_refl) as Hyes.
    unfold contents_of in Hyes. rewrite live_of_insert in Hyes. cbn in Hyes. rewrite fmap_insert, fits_insert in Hyes. unfold contents_of in Hfit. congruence.
  - destruct Hspec as [-> _]. eexists. split; [reflexivity|]. split; [|done]. unfold head_index. rewrite Hix. cbn. destruct Hr. split; cbn; try done.
    + intros q Hq. specialize (rp_fresh q Hq). lia.
    + eapply Forall_impl; [exact rp_old_fresh|]. cbn. lia.
    + by rewrite <- Hix.
    + by rewrite <- Hix.
Qed.

(** The lists of sessions know nothing of the new object. *)
Lemma emplace_segments stack olds rems : segments loc Cs stack olds rems -> segments loc' Cs stack olds rems.
Proof.
  apply segments_ext. intros C i HC Hi. apply emplace_loc. pose proof (chain_ids _ _ _ _ _ _ _ Hc HC Hi). lia.
Qed.

Lemma emplace_repr t ls' : let n := Node v t false in
  Forall (index_of loc' (<[_next_id s := n]> P)) ls' -> ordered (<[p := n]> (nodes s)) secondary ls' ->
  repr loc' (<[_next_id s := n]> P) Cs (UndoIndex (<[p := n]> (nodes s)) (p + 1) ((head_index s ++ [p]) :: ls') (_undo_stack s) (_old_values s)
    (_removed_values s) (_next_id s + 1) (_revision s) (_monotonic_revision s)).
Proof.
  intros n Hls' Hord'. destruct (repr_indices _ _ _ _ Hr) as (l & ls & Hix & Hl & Hls & Hsl & Hord). pose proof Hr as [].
  destruct emplace_loc as [Hp Hext]. unfold head_index. rewrite Hix. cbn [head default]. split; cbn.
  - apply emplace_located.
  - intros q [m [[<- _]|[_ Hq]]%lookup_insert_Some]; [lia|]. specialize (rp_fresh q ltac:(by eexists)). lia.
  - eapply Forall_impl; [exact rp_old_fresh|]. cbn. lia.
  - done.
  - done.
  - eapply Forall_impl; [exact rp_rem_flag|]. cbn. intros q (m & Hm & Hf). exists m. split; [|done]. rewrite lookup_insert_ne; [done|].
    intros <-. by rewrite emplace_fresh in Hm.
  - constructor; [|done]. eapply index_of_insert; [apply emplace_located|exact Hext|apply emplace_unused|done|exact Hl|].
    rewrite Hp. symmetry. apply Permutation_cons_append.
  - constructor; [|done]. pose proof (emplace_ordered n [id_order value_id] [l] ltac:(by constructor) ltac:(by repeat constructor)) as Hol.
    apply Forall2_cons_1 in Hol as [Hol _]. apply sorted_insert; [by rewrite app_nil_r|apply Forall_forall|constructor].
    intros q Hq. destruct (index_of_nodes loc P _ l q rp_nodes Hl Hq) as (i & [w u e] & E & Hf & -> & Eq). cbn in Hf. subst e. apply live_of_Some in E as E'.
    destruct (chain_live _ _ _ _ _ _ _ _ Hc E'). unfold precedes, less, id_order. rewrite lookup_insert_eq, lookup_insert_ne, Eq.
    + cbn. destruct (rp_nodes _ _ E) as [_ Hi]. cbn in Hi. apply Z.ltb_lt. lia.
    + intros Hpi. rewrite <- Hpi, emplace_fresh in Eq. done.
  - by apply emplace_segments.
  - intros C i w u HC Hi. rewrite lookup_insert_ne; [by eapply rp_rem|].
    pose proof (chain_ids _ _ _ _ _ _ _ Hc HC (or_intror (ex_intro _ _ Hi))). lia.
Qed.

Lemma emplace_succeeds : fits secondary (_next_id s) v (contents_of P) = true ->
  let n := Node v (match _undo_stack s with [] => 0 | _ => _monotonic_revision s end) false in
  exists s', emplace secondary s c = (s', Ok p) /\ repr loc' (<[_next_id s := n]> P) Cs s' /\
    _next_id s' = _next_id s + 1 /\ _revision s' = _revision s /\ _monotonic_revision s' = _monotonic_revision s.
Proof.
  intros Hfit n. destruct (repr_indices _ _ _ _ Hr) as (l & ls & Hix & Hl & Hls & _ & Hord).
  unfold emplace. rewrite Hcons, Hix. cbn [tail head_index head].
  pose proof (insert_impl_spec _ secondary p ls Hsw (emplace_ordered (Node v 0 false) _ _ Hls Hord) (emplace_new_in_no_index ls Hls)) as Hspec.
  destruct emplace_loc as [Hp Hext].
  destruct (insert_impl _ secondary p ls) as [ls' [|]]; cbn in Hspec |- *.
  - destruct Hspec as [Hord' Hins]. rewrite <- Hp in Hins.
    pose proof (indices_insert _ _ _ _ _ _ _ _ (emplace_located (_mtime n)) Hext emplace_unused eq_refl Hls Hins) as Hls'.
    eexists. split; [reflexivity|]. split; [|done]. apply emplace_repr; [done|].
    eapply ordered_ext; [|exact Hord']. apply Forall_forall. intros ? _ q _. destruct (decide (q = p)) as [->|]; [by rewrite !lookup_insert_eq|by rewrite !lookup_insert_ne by done].
  - destruct Hspec as [_ Hclash]. exfalso.
    assert (Hun : fits secondary (_next_id s) v (contents_of (<[_next_id s := Node v 0 false]> P)) = false).
    { apply (clash_unfit value_id secondary loc' _ _ _ (Node v 0 false) ls (emplace_located 0) (lookup_insert_eq _ _ _)); [|by rewrite Hp].
      eapply Forall_impl; [exact Hls|]. intros l' [_ Hl'] q (i & m & E & Hf & ->)%Hl'. assert (i <> _next_id s).
      { intros ->. pose proof emplace_unused as Hno. by rewrite live_of_lookup, E, Hf in Hno. }
      exists i, m. rewrite lookup_insert_ne by done. by rewrite Hext. }
    unfold contents_of in Hun. rewrite live_of_insert in Hun. cbn in Hun. rewrite fmap_insert, fits_insert in Hun. unfold contents_of in Hfit. congruence.
Qed.
End Emplace.

(** ** [remove] *)

Section Remove.
Context loc P Cs s (id : Z) (v : value) (t : Z).
Hypothesis (Hr : repr loc P Cs s) (Hobj : P !! id = Some (Node v t false)).

Lemma live_node : nodes s !! loc id = Some (Node v t false) /\ value_id v = id.
Proof. apply (rp_nodes _ _ _ _ _ _ Hr _ _ Hobj). Qed.

Lemma live_not_removed : loc id ∉ _removed_values s.
Proof.
  intros H. pose proof (rp_rem_flag _ _ _ _ _ _ Hr) as Hf. rewrite Forall_forall in Hf. destruct (Hf _ H) as (n & Hn & Hfl).
  rewrite (proj1 live_node) in Hn. injection Hn as <-. done.
Qed.

Lemma live_not_logged C w u i : C ∈ Cs -> c_rem C !! i = Some (w, u) -> i <> id.
Proof. intros HC E ->. pose proof (rp_rem _ _ _ _ _ _ Hr _ _ _ _ HC E). congruence. Qed.

Lemma live_id_of_loc i n : P !! i = Some n -> loc i = loc id -> i = id.
Proof. intros E Heq. eapply located_inj; [apply Hr|by eexists..|done]. Qed.

(** The other nodes' values stay. *)
Lemma removed_indices P' : live_of P' = delete id (live_of P) -> Forall (index_of loc P') (erase_impl (loc id) (_indices s)).
Proof.
  intros HP. apply Forall_fmap. eapply Forall_impl; [apply (rp_indexed _ _ _ _ _ _ Hr)|]. intros l Hl. cbn.
  eapply index_of_remove; [apply Hr|by eexists|done|done].
Qed.

Lemma removed_ordered ns : (forall q, q <> loc id -> ns !! q = nodes s !! q) -> ordered ns (orders value_id secondary) (erase_impl (loc id) (_indices s)).
Proof.
  intros H. eapply ordered_ext; [|apply ordered_erase, (rp_ordered _ _ _ _ _ _ Hr)]. apply Forall_forall. intros l (l0 & -> & _)%list_elem_of_fmap q [_ Hq]%elem_of_erase.
  by rewrite H.
Qed.

Lemma remove_destroys : match _undo_stack s with [] => True | u :: _ => old_next_id u <= id end ->
  exists s', remove value_id s (loc id) = Ok s' /\ repr loc (delete id P) Cs s' /\ same_rest s s'.
Proof.
  intros Hnew. destruct live_node as [Hn Hid]. unfold remove, lookup_node. rewrite Hn. cbn.
  assert (Hon : on_remove value_id (set_indices s (erase_impl (loc id) (_indices s))) (loc id) (Node v t false) = (set_indices s (erase_impl (loc id) (_indices s)), true)).
  { unfold on_remove. cbn. rewrite Hid. destruct (_undo_stack s) as [|u stack]; [done|]. by rewrite (proj2 (Z.leb_le _ _)). }
  rewrite Hon. cbn. eexists. split; [reflexivity|]. split; [|done]. pose proof Hr as []. split; cbn; try done.
  - apply located_delete; [done|by eexists].
  - intros q [m [_ Hq]%lookup_delete_Some]. apply rp_fresh. by eexists.
  - apply Forall_forall. intros q Hq. rewrite Forall_forall in rp_rem_flag. destruct (rp_rem_flag q Hq) as (m & Hm & Hf). exists m. split; [|done].
    rewrite lookup_delete_ne; [done|]. intros <-. by apply live_not_removed.
  - apply removed_indices, live_of_delete.
  - apply removed_ordered. intros q Hq. by rewrite lookup_delete_ne.
  - intros C i w u HC E. pose proof (live_not_logged _ _ _ _ HC E). rewrite lookup_delete_ne by done. by eapply rp_rem.
Qed.

Lemma remove_keeps C Cs' u stack : Cs = C :: Cs' -> _undo_stack s = u :: stack -> id < old_next_id u -> c_rem C !! id = None ->
  exists s', remove value_id s (loc id) = Ok s' /\ repr loc (<[id := Node v t true]> P) (log_removed C id (v, t) :: Cs') s' /\ same_rest s s'.
Proof.
  intros HCs Hst Hold Hno. destruct live_node as [Hn Hid]. unfold remove, lookup_node. rewrite Hn. cbn.
  unfold on_remove. cbn. rewrite Hst, Hid, (proj2 (Z.leb_gt _ _)) by done. cbn. eexists. split; [reflexivity|]. split; [|done].
  pose proof Hr as []. split; cbn; try done.
  - apply located_insert; [done|by eexists|done].
  - intros q [m [[<- _]|[_ Hq]]%lookup_insert_Some]; apply rp_fresh; [by eexists|by eexists].
  - constructor; [apply live_not_removed|done].
  - constructor; [eexists; by rewrite lookup_insert_eq|]. apply Forall_forall. intros q Hq. rewrite Forall_forall in rp_rem_flag.
    destruct (rp_rem_flag q Hq) as (m & Hm & Hf). exists m. split; [|done]. rewrite lookup_insert_ne; [done|]. intros <-. by apply live_not_removed.
  - apply removed_indices. by rewrite live_of_insert.
  - apply removed_ordered. intros q Hq. by rewrite lookup_insert_ne.
  - rewrite Hst. rewrite HCs, Hst in rp_segments. by apply segments_log_removed.
  - intros C' i w x HC E. assert (Hcase : (i = id /\ (w, x) = (v, t)) \/ (i <> id /\ exists C0, C0 ∈ Cs /\ c_rem C0 !! i = Some (w, x))).
    { apply elem_of_cons in HC as [->|HC]; [cbn in E; apply lookup_insert_Some in E as [[<- Heq]|[Hne E]]; [by left|]|].
      - right. split; [done|]. exists C. rewrite HCs. split; [by left|done].
      - right. assert (HC' : C' ∈ Cs) by (rewrite HCs; by right). split; [by eapply live_not_logged|by exists C']. }
    destruct Hcase as [[-> [= -> ->]]|(Hne & C0 & HC0 & E0)]; [by rewrite lookup_insert_eq|]. rewrite lookup_insert_ne by done. by eapply rp_rem.
Qed.
End Remove.

(** ** [modify] *)

Lemma keeps_id (m : value * option exn) v : value_id m.1 = value_id v -> match m.2 with Some _ => true | None => value_id m.1 =? value_id v end = true.
Proof. intros ->. destruct m.2; [done|apply Z.eqb_refl]. Qed.

Section Modify.
Context loc P Cs s (id : Z) (v : value) (t : Z).
Hypothesis (Hr : repr loc P Cs s) (Hobj : P !! id = Some (Node v t false)).

Let p := loc id.

(** [on_modify], when it keeps a copy *)
Definition logged : undo_index value :=
  UndoIndex (<[p := Node v (_monotonic_revision s) false]> (nodes s)) (next_address s + 1) (_indices s) (_undo_stack s)
    (OldNode (next_address s) v t p :: _old_values s) (_removed_values s) (_next_id s) (_revision s) (_monotonic_revision s).

Lemma log_repr C Cs' u stack : Cs = C :: Cs' -> _undo_stack s = u :: stack -> c_olds C !! id = None ->
  repr loc (<[id := Node v (_monotonic_revision s) false]> P) (log_old C id (v, t) :: Cs') logged.
Proof.
  intros HCs Hst Hno. destruct (live_node _ _ _ _ _ _ _ Hr Hobj) as [Hn Hid]. pose proof Hr as []. unfold logged. split; cbn; try done.
  - apply located_insert; [done|by eexists|done].
  - intros q [m [[<- _]|[_ Hq]]%lookup_insert_Some]; [specialize (rp_fresh p ltac:(by eexists)); lia|]. specialize (rp_fresh q ltac:(by eexists)). lia.
  - constructor; [cbn; lia|]. eapply Forall_impl; [exact rp_old_fresh|]. cbn. lia.
  - constructor; [|done]. intros (o & Ho & Hin)%list_elem_of_fmap. rewrite Forall_forall in rp_old_fresh. specialize (rp_old_fresh o Hin). lia.
  - eapply Forall_impl; [exact rp_rem_flag|]. intros q (m & Hm & Hf). exists m. split; [|done]. rewrite lookup_insert_ne; [done|].
    intros <-. unfold p in Hm. rewrite Hn in Hm. injection Hm as <-. done.
  - eapply Forall_impl; [exact rp_indexed|]. intros l. apply index_of_same. intros i. destruct (decide (i = id)) as [->|].
    + by rewrite lookup_insert_eq, Hobj.
    + by rewrite lookup_insert_ne.
  - eapply ordered_ext; [|exact rp_ordered]. apply Forall_forall. intros l _ q _. destruct (decide (q = p)) as [->|].
    + rewrite lookup_insert_eq. unfold p. by rewrite Hn.
    + by rewrite lookup_insert_ne.
  - rewrite Hst. rewrite HCs, Hst in rp_segments. by apply segments_log_old.
  - intros C' i w x HC E. assert (exists C0, C0 ∈ Cs /\ c_rem C0 !! i = Some (w, x)) as (C0 & HC0 & E0).
    { rewrite HCs. apply elem_of_cons in HC as [->|HC]; [exists C; split; [by left|done]|exists C'; split; [by right|done]]. }
    rewrite lookup_insert_ne; [by eapply rp_rem|]. pose proof (live_not_logged _ _ _ _ _ _ _ Hr Hobj _ _ _ _ HC0 E0). congruence.
Qed.

(** Writing a value and moving the object in the indices *)
Definition written v' : gmap Z node := <[p := Node v' t false]> (nodes s).

Lemma written_others v' l : Forall (index_of loc P) l ->
  Forall2 (fun lt l => StronglySorted (precedes lt (nodes s)) l) secondary l ->
  Forall2 (fun lt l => StronglySorted (precedes lt (written v')) (erase p l)) secondary l.
Proof.
  intros Hl Ho. eapply Forall2_impl; [exact Ho|]. intros lt l' Hs. eapply sorted_ext; [|apply sorted_filter; exact Hs].
  intros q q' [_ Hq]%elem_of_erase [_ Hq']%elem_of_erase. unfold precedes.
  rewrite (less_ext lt (nodes s) (written v') q q'); [done|unfold written; by rewrite lookup_insert_ne..].
Qed.

Lemma written_same i v' : erased_flag <$> P !! i = erased_flag <$> (<[id := Node v' t false]> P) !! i.
Proof. destruct (decide (i = id)) as [->|]; [by rewrite lookup_insert_eq, Hobj|by rewrite lookup_insert_ne]. Qed.

Lemma moved_indices q l l' : moved q l l' -> Forall (index_of loc P) l -> Forall (index_of loc P) l'.
Proof.
  induction 1 as [|l l' ls ls' [Hp _] Hm IH]; [done|]. intros [H1 H2]%Forall_cons. constructor; [|by apply IH]. by eapply index_of_perm.
Qed.

Lemma write_repr v' : value_id v' = id ->
  let r := post_modify true (written v') secondary p (tail (_indices s)) in
  erase_impl p (head_index s :: r.1) = erase_impl p (_indices s) /\
  fits secondary id v' (contents_of P) = r.2 /\
  (r.2 = true -> repr loc (<[id := Node v' t false]> P) Cs (set_indices (set_nodes s (written v')) (head_index s :: r.1))).
Proof.
  intros Hid' r. destruct (live_node _ _ _ _ _ _ _ Hr Hobj) as [Hn Hid]. destruct (repr_indices _ _ _ _ Hr) as (l & ls & Hix & Hl & Hls & Hsl & Hord).
  assert (Hloc' : located value_id loc (<[id := Node v' t false]> P) (written v')) by (apply located_insert; [apply Hr|by eexists|done]).
  assert (Hin : Forall (fun l => NoDup l /\ p ∈ l) ls).
  { eapply Forall_impl; [exact Hls|]. intros l' [Hnd Hmem]. split; [done|]. apply Hmem. by exists id, (Node v t false). }
  destruct (post_modify_unique (written v') secondary p ls Hsw (written_others v' ls Hls Hord) Hin) as [Hm Hspec].
  unfold r, head_index. rewrite Hix. cbn [tail head default]. clear r. destruct (post_modify true (written v') secondary p ls) as [ls' ok]. cbn in *.
  split; [|].
  { unfold erase_impl. cbn. f_equal. clear -Hm. induction Hm as [|l l' ls ls' [_ H] Hm IH]; [done|]. cbn. by rewrite H, IH. }
  pose proof (moved_indices _ _ _ Hm Hls) as Hls'.
  assert (Hls'' : Forall (index_of loc (<[id := Node v' t false]> P)) ls').
  { eapply Forall_impl; [exact Hls'|]. intros l'. apply index_of_same. intros i. apply written_same. }
  assert (Hl' : index_of loc (<[id := Node v' t false]> P) l) by (eapply index_of_same; [intros i; apply written_same|done]).
  assert (Hfit : fits secondary id v' (contents_of (<[id := Node v' t false]> P)) = fits secondary id v' (contents_of P)).
  { unfold contents_of. rewrite live_of_insert. cbn. by rewrite fmap_insert, fits_insert. }
  rewrite <- Hfit. destruct ok.
  - split; [by eapply (ordered_fits value_id secondary loc _ _ ls' id (Node v' t false)); [..|by rewrite lookup_insert_eq|]|].
    intros _. pose proof Hr as []. split; cbn; try done.
    + intros q [m Hq]. unfold written in Hq. apply lookup_insert_Some in Hq as [[<- _]|[_ Hq]]; apply rp_fresh; by eexists.
    + eapply Forall_impl; [exact rp_rem_flag|]. intros q (m & Hm' & Hf). exists m. split; [|done]. unfold written. rewrite lookup_insert_ne; [done|].
      intros <-. unfold p in Hm'. rewrite Hn in Hm'. injection Hm' as <-. done.
    + by constructor.
    + constructor; [|done]. eapply sorted_ext; [|exact Hsl]. intros q q' Hq Hq'. unfold precedes, less, id_order, written.
      assert (Hval : forall q, value_id <$> (_item <$> (<[p := Node v' t false]> (nodes s)) !! q) = value_id <$> (_item <$> nodes s !! q)).
      { intros q0. destruct (decide (q0 = p)) as [->|]; [|by rewrite lookup_insert_ne]. rewrite lookup_insert_eq. unfold p. rewrite Hn. cbn. congruence. }
      pose proof (Hval q) as H1. pose proof (Hval q') as H2.
      destruct (<[p:=Node v' t false]> (nodes s) !! q), (nodes s !! q), (<[p:=Node v' t false]> (nodes s) !! q'), (nodes s !! q'); try done.
      cbn in *. congruence.
    + intros C i w u HC E. rewrite lookup_insert_ne; [by eapply rp_rem|]. pose proof (live_not_logged _ _ _ _ _ _ _ Hr Hobj _ _ _ _ HC E). congruence.
  - split; [|done]. apply (clash_unfit value_id secondary loc _ (written v') id (Node v' t false) (erase p <$> ls)); [done|by rewrite lookup_insert_eq| |done].
    apply Forall_fmap. eapply Forall_impl; [exact Hls|]. intros l' [_ Hmem] q [Hq Hne]%elem_of_erase. apply Hmem in Hq as (i & m & E & Hf & ->).
    assert (i <> id) by (intros ->; done). exists i, m. by rewrite lookup_insert_ne.
Qed.

Definition needs_copy : bool := match _undo_stack s with [] => false | u :: _ => negb (ctime u <=? t) end.

Lemma on_modify_cases : on_modify s p (Node v t false) = if needs_copy then (logged, Some (OldNode (next_address s) v t p)) else (s, None).
Proof. unfold on_modify, needs_copy, logged. destruct (_undo_stack s) as [|u stack]; [done|]. cbn. by destruct (ctime u <=? t). Qed.

Lemma remove_result s' n : nodes s' !! p = Some n -> value_id (_item n) = id -> match _undo_stack s' with [] => True | u :: _ => old_next_id u <= id end ->
  remove value_id s' p = Ok (set_nodes (set_indices s' (erase_impl p (_indices s'))) (delete p (nodes s'))).
Proof.
  intros Hn Hid Hnew. unfold remove, lookup_node. rewrite Hn. cbn. unfold on_remove. cbn. rewrite Hid.
  destruct (_undo_stack s') as [|u stack]; [done|]. by rewrite (proj2 (Z.leb_le _ _)).
Qed.

(** Without a copy, a conflict erases the object. *)
Lemma modify_erases (modifier : value -> value * option exn) : let m := modifier v in value_id m.1 = id ->
  needs_copy = false -> fits secondary id m.1 (contents_of P) = false -> match _undo_stack s with [] => True | u :: _ => old_next_id u <= id end ->
  exists s', modify value_id secondary s p modifier = Ok (s', Throw (default std_logic_error m.2)) /\ repr loc (delete id P) Cs s' /\ same_rest s s'.
Proof.
  intros m Hm Hcopy Hfit Hnew. destruct (live_node _ _ _ _ _ _ _ Hr Hobj) as [Hn Hid]. destruct (write_repr m.1 Hm) as (He & Hok & _).
  rewrite Hfit in Hok. destruct (remove_destroys _ _ _ _ _ _ _ Hr Hobj Hnew) as (s' & Hs' & Hrepr & Hsame).
  exists s'. split; [|done]. fold p in Hs', Hn. rewrite (remove_result _ _ Hn Hid Hnew) in Hs'. injection Hs' as <-.
  unfold modify, lookup_node. rewrite Hn. cbn. rewrite on_modify_cases, Hcopy. cbn. rewrite Hn. cbn. fold m.
  rewrite keeps_id by (by rewrite Hm, Hid). cbn. unfold with_item. cbn. change (<[p := Node m.1 t false]> (nodes s)) with (written m.1). rewrite <- Hok.
  rewrite (remove_result _ (Node m.1 t false)); cbn; [|unfold written; by rewrite lookup_insert_eq|done|done].
  do 2 f_equal. unfold set_nodes, set_indices. cbn. f_equal; [unfold written; by rewrite delete_insert_eq|exact He].
Qed.
End Modify.

(** A modification that fits *)
Lemma modify_writes loc P Cs P1 Cs1 s s1 id v t t1 backup (modifier : value -> value * option exn) : let m := modifier v in
  repr loc P Cs s -> P !! id = Some (Node v t false) -> on_modify s (loc id) (Node v t false) = (s1, backup) ->
  repr loc P1 Cs1 s1 -> P1 !! id = Some (Node v t1 false) -> value_id m.1 = id -> fits secondary id m.1 (contents_of P1) = true ->
  exists s', modify value_id secondary s (loc id) modifier = Ok (s', match m.2 with Some e => Throw e | None => Ok tt end) /\
    repr loc (<[id := Node m.1 t1 false]> P1) Cs1 s' /\ same_rest s1 s'.
Proof.
  intros m Hr Hobj Hon Hr1 Hobj1 Hm Hfit. destruct (live_node _ _ _ _ _ _ _ Hr Hobj) as [Hn _]. destruct (live_node _ _ _ _ _ _ _ Hr1 Hobj1) as [Hn1 Hid1].
  destruct (write_repr _ _ _ _ _ _ _ Hr1 Hobj1 m.1 Hm) as (_ & Hok & Hrepr). rewrite Hfit in Hok. specialize (Hrepr (eq_sym Hok)).
  unfold modify, lookup_node. rewrite Hn. cbn. rewrite Hon. cbn. rewrite Hn1. cbn. fold m.
  rewrite keeps_id by (by rewrite Hm, Hid1). cbn. unfold with_item. cbn. change (<[loc id := Node m.1 t1 false]> (nodes s1)) with (written loc s1 id t1 m.1). rewrite <- Hok.
  eexists. split; [reflexivity|]. split; [exact Hrepr|done].
Qed.
End Steps.
