(* ===== verification/UndoRestore.v ===== *)
(** * What [UndoIndex.undo] does

    No code of its own: undoing a session gives what the session started with. *)

From stdpp Require Import sorting.
From S2P Require Import Prelude UndoIndex UndoOrder UndoHistory UndoRepr UndoSteps.
Open Scope Z_scope.

(** Splitting a list at a marker *)
Lemma split_at_head {A} (address : A -> Z) l a l' : NoDup (address <$> l ++ a :: l') -> split_at address (l ++ a :: l') (address a) = Ok (l, a :: l').
Proof.
  induction l as [|b l IH]; cbn; [by rewrite Z.eqb_refl|]. intros [Hb Hnd]%NoDup_cons. rewrite (proj2 (Z.eqb_neq _ _)).
  - by rewrite IH.
  - intros Heq. apply Hb. rewrite Heq, fmap_app, fmap_cons. apply elem_of_app. right. by left.
Qed.

Lemma split_end_head {A} (address : A -> Z) l l' : NoDup (address <$> l ++ l') -> split_end address (l ++ l') (address <$> head l') = Ok (l, l').
Proof. destruct l' as [|a l']; cbn; [by rewrite app_nil_r|]. apply split_at_head. Qed.

Section Restore.
Context {value : Type} (value_id : value -> Z) (secondary : list (@order value)) (Hsw : Forall strict_weak secondary).
Implicit Types (P : gmap Z (@node value)) (loc : Z -> Z) (ns : gmap Z (@node value)) (idx : list (list Z)).

(** Destroying objects *)
Definition destroy (acc : gmap Z (@node value) * list (list Z)) (p : Z) : gmap Z (@node value) * list (list Z) := (delete p acc.1, erase_impl p acc.2).

Lemma destroy_all loc P ns idx (lts : list (@order value)) ps : located value_id loc P ns -> Forall (index_of loc P) idx -> ordered ns lts idx -> NoDup ps ->
  (forall p, p ∈ ps -> exists id n, P !! id = Some n /\ erased_flag n = false /\ p = loc id) ->
  let acc := foldl destroy (ns, idx) ps in
  exists P', located value_id loc P' acc.1 /\ Forall (index_of loc P') acc.2 /\ ordered acc.1 lts acc.2 /\
    (forall i n, P' !! i = Some n <-> P !! i = Some n /\ loc i ∉ ps) /\ (forall q, q ∉ ps -> acc.1 !! q = ns !! q) /\ (forall q, q ∈ ps -> acc.1 !! q = None).
Proof.
  revert P ns idx. induction ps as [|p ps IH]; intros P ns idx Hloc Hix Ho Hnd Hps; cbn.
  { exists P. split_and!; [done..| |done|by intros q ?%elem_of_nil]. intros i n. split; [|tauto]. split; [done|]. by intros ?%elem_of_nil. }
  apply NoDup_cons in Hnd as [Hp Hnd]. destruct (Hps p) as (id & n & E & Hf & ->); [by left|].
  assert (Hmem : forall q, q ∈ ps -> q <> loc id) by (by intros q Hq ->).
  destruct (IH (delete id P) (delete (loc id) ns) (erase_impl (loc id) idx)) as (P' & H1 & H2 & H3 & H4 & H5 & H6).
  - apply located_delete; [done|by eexists].
  - apply Forall_fmap. eapply Forall_impl; [exact Hix|]. intros l Hl. eapply index_of_remove; [exact Hloc|by eexists|done|apply live_of_delete].
  - eapply ordered_ext; [|by apply ordered_erase]. apply Forall_forall. intros l (l0 & -> & _)%list_elem_of_fmap q [_ Hq]%elem_of_erase. by rewrite lookup_delete_ne.
  - done.
  - intros q Hq. destruct (Hps q) as (i & m & Ei & Hfi & ->); [by right|]. exists i, m. rewrite lookup_delete_ne; [done|]. intros <-. by eapply Hmem.
  - exists P'. split_and!; [done..| | |].
    + intros i m. rewrite H4, lookup_delete_Some, elem_of_cons. split.
      * intros [[Hne Ei] Hi]. split; [done|]. intros [Heq|]; [|done]. apply Hne. symmetry. by apply (located_inj value_id loc P ns i id Hloc); [eexists|eexists|].
      * intros [Ei Hi]. split; [split; [|done]|]; [intros ->; apply Hi; by left|]. intros ?. apply Hi. by right.
    + intros q [Hq1 Hq2]%not_elem_of_cons. rewrite H5 by done. by rewrite lookup_delete_ne.
    + intros q [->|Hq]%elem_of_cons; [|by apply H6]. destruct (decide (loc id ∈ ps)); [by apply H6|]. rewrite H5 by done. apply lookup_delete_eq.
Qed.

(** Putting old values back *)
Definition put_back P (x : Z * (value * Z)) : gmap Z (@node value) := alter (fun n => Node x.2.1 x.2.2 (erased_flag n)) x.1 P.

Lemma put_back_lookup P xs i : NoDup xs.*1 -> foldl put_back P xs !! i =
  match (list_to_map xs : gmap Z (value * Z)) !! i with Some (v, t) => (fun n => Node v t (erased_flag n)) <$> P !! i | None => P !! i end.
Proof.
  revert P. induction xs as [|[j [v t]] xs IH]; intros P; cbn; [done|]. intros [Hj Hnd]%NoDup_cons. rewrite IH by done. unfold put_back. cbn.
  destruct (decide (i = j)) as [->|Hne].
  - rewrite lookup_insert_eq, lookup_alter_eq. by rewrite (not_elem_of_list_to_map_1 xs j).
  - by rewrite lookup_insert_ne, lookup_alter_ne by done.
Qed.

(** The index by id is in order whatever the values are. *)
Lemma id_sorted_ext loc P P' ns ns' l : located value_id loc P ns -> located value_id loc P' ns' -> (forall i, is_Some (P' !! i) -> is_Some (P !! i)) ->
  index_of loc P l -> index_of loc P' l -> StronglySorted (precedes (id_order value_id) ns) l -> StronglySorted (precedes (id_order value_id) ns') l.
Proof.
  intros Hloc Hloc' Hdom [_ Hl] [_ Hl']. apply sorted_ext. intros p q Hp Hq.
  assert (Hsame : forall p, p ∈ l -> exists n n', ns !! p = Some n /\ ns' !! p = Some n' /\ value_id (_item n) = value_id (_item n')).
  { intros r Hr. destruct (proj1 (Hl r) Hr) as (i & n & E & _ & ->). destruct (proj1 (Hl' _) Hr) as (i' & n' & E' & _ & Heq).
    assert (i = i') as <- by (apply (located_inj value_id loc P ns i i' Hloc); [by eexists|apply Hdom; by eexists|done]).
    destruct (Hloc _ _ E) as [H1 H2], (Hloc' _ _ E') as [H3 H4]. exists n, n'. split_and!; [done|done|congruence]. }
  destruct (Hsame p Hp) as (n & n' & E1 & E2 & E3), (Hsame q Hq) as (m & m' & E4 & E5 & E6).
  unfold precedes, less, id_order. rewrite E1, E2, E4, E5. congruence.
Qed.

(** The state while old values are put back: keys may clash for a moment. *)
Record restoring loc P ns (l : list Z) (ls : list (list Z)) : Prop := {
  rs_located : located value_id loc P ns;
  rs_head : index_of loc P l;
  rs_indexed : Forall (index_of loc P) ls;
  rs_ordered : weakly_ordered ns secondary ls
}.

Lemma restore_one undo_info loc P ns l ls o x : restoring loc P ns l ls -> is_old loc o x -> x.2.2 < ctime undo_info -> is_Some (P !! x.1) -> value_id x.2.1 = x.1 ->
  exists ns' ls', restore_old secondary undo_info (ns, l :: ls) o = Ok (ns', l :: ls') /\ restoring loc (put_back P x) ns' l ls' /\
    forall q, erased_flag <$> ns' !! q = erased_flag <$> ns !! q.
Proof.
  intros [Hloc Hl Hls Ho] (H1 & H2 & H3) Ht [n Hn] Hid. destruct x as [id [v t]]. cbn in *. destruct (Hloc _ _ Hn) as [Hns Hnid].
  set (P' := put_back P (id, (v, t))). set (ns' := <[loc id := Node v t (erased_flag n)]> ns).
  assert (HP' : P' = <[id := Node v t (erased_flag n)]> P).
  { unfold P', put_back. cbn. apply map_eq. intros i. destruct (decide (i = id)) as [->|]; [by rewrite lookup_alter_eq, lookup_insert_eq, Hn|by rewrite lookup_alter_ne, lookup_insert_ne]. }
  assert (Hflag : forall i, erased_flag <$> P !! i = erased_flag <$> P' !! i).
  { intros i. rewrite HP'. destruct (decide (i = id)) as [->|]; [by rewrite lookup_insert_eq, Hn|by rewrite lookup_insert_ne]. }
  assert (Hflags : forall q, erased_flag <$> ns' !! q = erased_flag <$> ns !! q).
  { intros q. unfold ns'. destruct (decide (q = loc id)) as [->|]; [by rewrite lookup_insert_eq, Hns|by rewrite lookup_insert_ne]. }
  assert (Hloc' : located value_id loc P' ns') by (rewrite HP'; apply located_insert; [done|by eexists|done]).
  assert (Hl' : index_of loc P' l) by (by eapply index_of_same).
  assert (Hls' : Forall (index_of loc P') ls) by (eapply Forall_impl; [exact Hls|]; intros l0; by apply index_of_same).
  assert (Hothers : forall l0 (lt : @order value), StronglySorted (not_after lt ns) l0 -> StronglySorted (not_after lt ns') (erase (loc id) l0)).
  { intros l0 lt Hs. eapply sorted_ext; [|apply sorted_filter; exact Hs]. intros q q' [_ Hq]%elem_of_erase [_ Hq']%elem_of_erase. unfold not_after.
    rewrite (less_ext lt ns ns' q' q); [done|unfold ns'; by rewrite lookup_insert_ne..]. }
  unfold restore_old. rewrite H1, H2, H3, (proj2 (Z.ltb_lt _ _)) by done. unfold lookup_node. cbn [fst snd]. rewrite Hns. cbn. fold ns'.
  destruct (erased_flag n) eqn:Ef; cbn.
  - exists ns', ls. split; [done|]. split; [|done]. split; [done..|]. eapply weakly_ordered_ext; [|exact Ho]. eapply Forall_impl; [exact Hls|].
    intros l0 [_ Hmem] q Hq. unfold ns'. rewrite lookup_insert_ne; [done|]. intros Heq. apply Hmem in Hq as (i & m & E & Hf & ->).
    assert (id = i) as <- by (apply (located_inj value_id loc P ns id i Hloc); [by eexists|by eexists|done]). congruence.
  - assert (Hnodes : Forall (fun l => NoDup l /\ loc id ∈ l /\ Forall (fun q => is_Some (ns' !! q)) l) ls).
    { eapply Forall_impl; [exact Hls'|]. intros l0 [Hnd Hmem]. split_and!; [done| |].
      - apply Hmem. exists id, (Node v t false). rewrite HP', lookup_insert_eq, ?Ef. done.
      - apply Forall_forall. intros q (i & m & E & _ & ->)%Hmem. eexists. by apply Hloc'. }
    destruct (post_modify_weak ns' secondary (loc id) ls Hsw) as [Hm Hw]; [by unfold ns'; rewrite lookup_insert_eq; eexists| |done|].
    { apply Forall2_fmap_r. eapply Forall2_impl; [exact Ho|]. intros lt l0. apply Hothers. }
    eexists ns', _. split; [reflexivity|]. split; [|done]. split; [done..| |done].
    by eapply moved_indices.
Qed.

Lemma restore_olds undo_info loc P ns l ls os xs : restoring loc P ns l ls -> Forall2 (is_old loc) os xs ->
  Forall (fun x : Z * (value * Z) => x.2.2 < ctime undo_info /\ is_Some (P !! x.1) /\ value_id x.2.1 = x.1) xs ->
  exists ns' ls', foldM (restore_old secondary undo_info) (ns, l :: ls) os = Ok (ns', l :: ls') /\ restoring loc (foldl put_back P xs) ns' l ls' /\
    forall q, erased_flag <$> ns' !! q = erased_flag <$> ns !! q.
Proof.
  intros Hrs Hos. revert P ns ls Hrs. induction Hos as [|o x os xs Hox Hos IH]; intros P ns ls Hrs Hxs; [by exists ns, ls|].
  apply Forall_cons in Hxs as [(Ht & Hx & Hid) Hxs]. destruct (restore_one undo_info loc P ns l ls o x Hrs Hox Ht Hx Hid) as (ns1 & ls1 & E1 & Hrs1 & Hf1).
  destruct (IH (put_back P x) ns1 ls1 Hrs1) as (ns2 & ls2 & E2 & Hrs2 & Hf2).
  { eapply Forall_impl; [exact Hxs|]. intros y (H1 & H2 & H3). split_and!; [done| |done]. unfold put_back. by rewrite lookup_alter_is_Some. }
  exists ns2, ls2. cbn [foldM]. rewrite E1. cbn. split_and!; [done..|]. intros q. by rewrite Hf2, Hf1.
Qed.

(** Inserting a removed value again *)
Definition revive P (id : Z) : gmap Z (@node value) := alter (fun n => with_flag n false) id P.

Lemma revive_lookup P ids i : foldl revive P ids !! i = if decide (i ∈ ids) then (fun n => with_flag n false) <$> P !! i else P !! i.
Proof.
  revert P. induction ids as [|j ids IH]; intros P; cbn; [by rewrite decide_False by apply not_elem_of_nil|]. rewrite IH. unfold revive.
  destruct (decide (i = j)) as [->|Hne].
  - rewrite lookup_alter_eq, (decide_True (P := j ∈ j :: ids)) by by left. case_decide; [|done]. by destruct (P !! j).
  - rewrite lookup_alter_ne by done. destruct (decide (i ∈ ids)).
    + by rewrite decide_True by by right.
    + by rewrite decide_False by (by intros [?|?]%elem_of_cons).
Qed.

(** The objects that are there, or are to be, have the values that they have in the
    contents [T]. *)
Definition agrees P (ids : list Z) (T : gmap Z value) : Prop :=
  forall i n, P !! i = Some n -> erased_flag n = false \/ i ∈ ids -> T !! i = Some (_item n).

Lemma insert_orders (lt : @order value) T id id' v v' : good value_id secondary T -> lt ∈ orders value_id secondary -> T !! id = Some v -> T !! id' = Some v' -> id <> id' ->
  lt v v' = true \/ lt v' v = true.
Proof.
  intros [Hid Hg] [->|Hlt]%elem_of_cons E E' Hne; [|by eapply Hg]. unfold id_order. rewrite (Hid _ _ E), (Hid _ _ E'), !Z.ltb_lt. lia.
Qed.

#[local] Arguments insert_impl : simpl never.

Lemma restore_removed_one undo_info loc P ns idx T id ids v t : good value_id secondary T -> agrees P (id :: ids) T ->
  located value_id loc P ns -> Forall (index_of loc P) idx -> ordered ns (orders value_id secondary) idx ->
  P !! id = Some (Node v t true) -> id < old_next_id undo_info ->
  exists ns' idx', restore_removed value_id secondary undo_info (ns, idx) (loc id) = Ok (ns', idx') /\
    located value_id loc (revive P id) ns' /\ Forall (index_of loc (revive P id)) idx' /\ ordered ns' (orders value_id secondary) idx' /\
    ns' = <[loc id := Node v t false]> ns.
Proof.
  intros Hgood Hag Hloc Hix Ho HP Hid. destruct (Hloc _ _ HP) as [Hns Hvid]. cbn in Hvid.
  assert (HP' : revive P id = <[id := Node v t false]> P).
  { unfold revive. apply map_eq. intros i. destruct (decide (i = id)) as [->|]; [by rewrite lookup_alter_eq, lookup_insert_eq, HP|by rewrite lookup_alter_ne, lookup_insert_ne]. }
  rewrite HP'. set (ns' := <[loc id := Node v t false]> ns).
  assert (Hloc' : located value_id loc (<[id := Node v t false]> P) ns') by (apply located_insert; [done|by eexists|done]).
  assert (Hother : forall i m, P !! i = Some m -> erased_flag m = false -> i <> id).
  { intros i m E Hf ->. rewrite HP in E. by injection E as <-. }
  assert (Hnotin : Forall (fun l => loc id ∉ l) idx).
  { eapply Forall_impl; [exact Hix|]. intros l [_ Hmem] (i & m & E & Hf & Heq)%Hmem. apply (Hother _ _ E Hf).
    symmetry. apply (located_inj value_id loc P ns id i Hloc); [by eexists|by eexists|done]. }
  assert (Ho' : ordered ns' (orders value_id secondary) idx).
  { eapply ordered_ext; [|exact Ho]. rewrite Forall_forall in Hnotin. apply Forall_forall. intros l Hl q Hq. unfold ns'. rewrite lookup_insert_ne; [done|].
    intros <-. by eapply Hnotin. }
  unfold restore_removed, lookup_node. cbn [fst snd]. rewrite Hns. cbn. rewrite Hvid, (proj2 (Z.ltb_lt _ _)) by done. unfold with_flag. cbn. fold ns'.
  assert (Hsw' : Forall strict_weak (orders value_id secondary)) by (constructor; [apply id_order_strict_weak|done]).
  pose proof (insert_impl_spec ns' _ (loc id) idx Hsw' Ho' Hnotin) as Hspec. destruct (insert_impl ns' (orders value_id secondary) (loc id) idx) as [idx' [|]]; cbn in *.
  - destruct Hspec as [Ho'' Hins]. exists ns', idx'. split_and!; [done|done| |exact Ho''|done].
    eapply (indices_insert value_id loc loc P ns' id (Node v t false) idx); try done. by rewrite live_of_lookup, HP.
  - destruct Hspec as [_ (lt & l & q & Hlt & Hl & Hq & Hno)]. exfalso. apply Hno. rewrite Forall_forall in Hix. destruct (Hix l Hl) as [_ Hmem].
    apply Hmem in Hq as (i & m & E & Hf & ->). pose proof (Hother _ _ E Hf) as Hne.
    eapply (located_apart value_id loc _ ns' id i (Node v t false) m); [exact Hloc'|by rewrite lookup_insert_eq|by rewrite lookup_insert_ne|].
    cbn. apply (insert_orders lt T id i); [exact Hgood|exact Hlt| | |by intros <-].
    + apply (Hag id (Node v t true) HP). right. by left.
    + apply (Hag i m E). by left.
Qed.

Lemma restore_removeds undo_info loc P ns idx T ids : good value_id secondary T -> NoDup ids -> agrees P ids T ->
  located value_id loc P ns -> Forall (index_of loc P) idx -> ordered ns (orders value_id secondary) idx ->
  (forall id, id ∈ ids -> id < old_next_id undo_info /\ exists v t, P !! id = Some (Node v t true)) ->
  exists ns' idx', foldM (restore_removed value_id secondary undo_info) (ns, idx) (loc <$> ids) = Ok (ns', idx') /\
    located value_id loc (foldl revive P ids) ns' /\ Forall (index_of loc (foldl revive P ids)) idx' /\ ordered ns' (orders value_id secondary) idx' /\
    (forall q, q ∉ loc <$> ids -> ns' !! q = ns !! q) /\ (forall q, is_Some (ns' !! q) <-> is_Some (ns !! q)).
Proof.
  intros Hgood Hnd. revert P ns idx. induction Hnd as [|id ids Hid Hnd IH]; intros P ns idx Hag Hloc Hix Ho Hids; [by exists ns, idx|].
  destruct (Hids id) as (Hlt & v & t & HP); [by left|].
  destruct (restore_removed_one undo_info loc P ns idx T id ids v t Hgood Hag Hloc Hix Ho HP Hlt) as (ns1 & idx1 & E1 & Hloc1 & Hix1 & Ho1 & Hns1).
  destruct (IH (revive P id) ns1 idx1) as (ns2 & idx2 & E2 & Hloc2 & Hix2 & Ho2 & Hsame & Hdom); [|done..| |].
  - intros i n Hi Hor. unfold revive in Hi. destruct (decide (i = id)) as [->|Hne].
    + rewrite lookup_alter_eq, HP in Hi. injection Hi as <-. apply (Hag id (Node v t true) HP). right. by left.
    + rewrite lookup_alter_ne in Hi by done. apply (Hag i n Hi). destruct Hor; [by left|right; by right].
  - intros i Hi. destruct (Hids i) as (Hlti & w & u & HPi); [by right|]. split; [done|]. exists w, u. unfold revive. rewrite lookup_alter_ne; [done|]. by intros ->.
  - exists ns2, idx2. cbn [foldM fmap list_fmap]. cbn. rewrite E1. cbn. split_and!; try done.
    + intros q [Hq1 Hq2]%not_elem_of_cons. rewrite Hsame, Hns1, lookup_insert_ne by done. done.
    + intros q. rewrite Hdom, Hns1. destruct (decide (q = loc id)) as [->|]; [|by rewrite lookup_insert_ne].
      rewrite lookup_insert_eq, (proj1 (Hloc _ _ HP)). done.
Qed.

(** ** [undo] *)

(** The objects that a session made *)
Definition is_before (ns : gmap Z (@node value)) (next : Z) (p : Z) : bool :=
  match _item <$> ns !! p with Some v => value_id v <? next | None => false end.

Lemma new_ids_spec loc P ns l next : located value_id loc P ns -> index_of loc P l -> StronglySorted (precedes (id_order value_id) ns) l ->
  let new := (split_while (is_before ns next) l).2 in
  NoDup new /\ forall p, p ∈ new <-> exists id n, P !! id = Some n /\ erased_flag n = false /\ p = loc id /\ next <= id.
Proof.
  intros Hloc [Hnd Hmem] Hs new. pose proof (split_while_app (is_before ns next) l) as Hl. pose proof (split_while_true (is_before ns next) l) as Ha.
  pose proof (split_while_head (is_before ns next) l) as Hh. fold new in Hl, Hh. set (old := (split_while (is_before ns next) l).1) in *.
  assert (Hbefore : forall i n, P !! i = Some n -> is_before ns next (loc i) = (i <? next)).
  { intros i n E. destruct (Hloc _ _ E) as [H1 H2]. unfold is_before. by rewrite H1, <- H2. }
  rewrite Hl in Hnd, Hs, Hmem. clearbody old new. split; [by apply NoDup_app in Hnd as (_ & _ & ?)|]. intros p. split.
  - intros Hp. destruct (proj1 (Hmem p)) as (i & n & E & Hf & ->); [apply elem_of_app; by right|]. exists i, n. split_and!; [done..|].
    apply StronglySorted_app in Hs as (_ & _ & Hs). destruct new as [|q new]; [by apply elem_of_nil in Hp|].
    destruct (proj1 (Hmem q)) as (j & m & Ej & Hfj & ->); [apply elem_of_app; right; by left|]. rewrite (Hbefore _ _ Ej) in Hh. apply Z.ltb_ge in Hh.
    apply elem_of_cons in Hp as [Heq|Hp].
    + assert (i = j) by (apply (located_inj value_id loc P ns i j Hloc); [by eexists|by eexists|done]). lia.
    + apply StronglySorted_cons in Hs as [Hq _]. rewrite Forall_forall in Hq. specialize (Hq _ Hp). unfold precedes, less, id_order in Hq.
      rewrite (proj1 (Hloc _ _ E)), (proj1 (Hloc _ _ Ej)), (proj2 (Hloc _ _ E)), (proj2 (Hloc _ _ Ej)) in Hq. apply Z.ltb_lt in Hq. lia.
  - intros (i & n & E & Hf & -> & Hi). assert (Hin : loc i ∈ old ++ new) by (apply Hmem; by exists i, n). apply elem_of_app in Hin as [Hin|]; [|done].
    rewrite Forall_forall in Ha. specialize (Ha _ Hin). rewrite (Hbefore _ _ E) in Ha. apply Z.ltb_lt in Ha. lia.
Qed.

Section Undo.
Context loc P (C : @chunk value) (Cs : list (@chunk value)) (s : undo_index value) (T : gmap Z value * Z) (Ts : list (gmap Z value * Z)) (bound : Z).
Hypothesis (Hr : repr value_id secondary loc P (C :: Cs) s) (Hc : chain (live_of P) (_next_id s) bound (C :: Cs) (T :: Ts)) (Hgood : good value_id secondary T.1).
Context (new : list Z) (P1 : gmap Z (@node value)) (xs ys : list (Z * (value * Z))).
Hypothesis (Hnew : forall p, p ∈ new <-> exists id n, P !! id = Some n /\ erased_flag n = false /\ p = loc id /\ c_next C <= id).
Hypothesis (HP1 : forall i n, P1 !! i = Some n <-> P !! i = Some n /\ loc i ∉ new).
Hypothesis (Hxs : NoDup xs.*1) (Hox : c_olds C = list_to_map xs) (Hys : NoDup ys.*1) (Hry : c_rem C = list_to_map ys).

Let P2 := foldl put_back P1 xs.
Let P3 := foldl revive P2 ys.*1.

Lemma undo_rem_ids i : i ∈ ys.*1 <-> is_Some (c_rem C !! i).
Proof.
  rewrite Hry. split.
  - intros ([j x] & -> & Hin)%list_elem_of_fmap. exists x. by apply elem_of_list_to_map_1.
  - intros [x E]. apply elem_of_list_to_map_2 in E. by apply (list_elem_of_fmap_2 fst) in E.
Qed.

Lemma undo_new i n : P !! i = Some n -> erased_flag n = false -> loc i ∈ new <-> c_next C <= i.
Proof.
  intros E Hf. rewrite Hnew. split; [|by intros ?; exists i, n]. intros (j & m & Ej & _ & Heq & Hj).
  assert (i = j) as <-; [|done]. eapply located_inj; [apply Hr|by eexists|by eexists|done].
Qed.

Lemma undo_erased_kept i n : P !! i = Some n -> erased_flag n = true -> loc i ∉ new.
Proof.
  intros E Hf (j & m & Ej & Hfj & Heq & Hj)%Hnew. assert (i = j) as <- by (eapply located_inj; [apply Hr|by eexists|by eexists|done]). congruence.
Qed.

Lemma undo_P2 i : P2 !! i = match c_olds C !! i with Some (v, t) => (fun n => Node v t (erased_flag n)) <$> P1 !! i | None => P1 !! i end.
Proof. unfold P2. by rewrite put_back_lookup, Hox. Qed.

Lemma undo_P2_removed i w u : c_rem C !! i = Some (w, u) -> i < c_next C /\ live_of P !! i = None /\
  P2 !! i = Some (match c_olds C !! i with Some (v, t) => Node v t true | None => Node w u true end).
Proof.
  intros E. pose proof Hc as (Hl & _). destruct (lv_rem _ _ _ _ Hl i (ex_intro _ _ E)) as [Hi Hno]. split_and!; [done..|].
  pose proof (rp_rem _ _ _ _ _ _ Hr C i w u ltac:(by left) E) as HP. rewrite undo_P2, (proj2 (HP1 i (Node w u true))).
  - by destruct (c_olds C !! i) as [[v t]|].
  - split; [done|]. by eapply undo_erased_kept.
Qed.

(** What is there after old values are put back *)
Lemma undo_P2_live i n : P2 !! i = Some n -> erased_flag n = false -> undo_map (live_of P) C !! i = Some (_item n, _mtime n).
Proof.
  rewrite undo_P2. intros E Hf.
  assert (exists m, P1 !! i = Some m /\ erased_flag m = false /\ (_item n, _mtime n) = default (_item m, _mtime m) (c_olds C !! i)) as (m & E1 & Hfm & Hval).
  { destruct (c_olds C !! i) as [[v t]|] eqn:Eo; [|by exists n]. destruct (P1 !! i) as [m|]; [|done]. injection E as <-. by exists m. }
  apply HP1 in E1 as [EP Hin]. rewrite (undo_new _ _ EP Hfm) in Hin.
  rewrite undo_map_lookup, decide_True, Hval by lia. destruct (c_olds C !! i); [done|]. cbn. apply lookup_union_Some_l. by rewrite live_of_lookup, EP, Hfm.
Qed.

Lemma undo_agrees : agrees P2 ys.*1 T.1.
Proof.
  pose proof Hc as (_ & HT & _). rewrite HT. cbn. intros i n E Hor. rewrite lookup_fmap. destruct (erased_flag n) eqn:Ef.
  - destruct Hor as [|Hin]; [done|]. apply undo_rem_ids in Hin as [[w u] Er]. destruct (undo_P2_removed _ _ _ Er) as (Hi & Hno & E2). rewrite E in E2.
    injection E2 as ->. rewrite undo_map_lookup, decide_True by done. destruct (c_olds C !! i) as [[v t]|]; [done|].
    by rewrite lookup_union, Hno, Er, (left_id_L None (∪)).
  - by rewrite (undo_P2_live _ _ E Ef).
Qed.

Lemma undo_olds_ok : Forall (fun x : Z * (value * Z) => x.2.2 < c_time C /\ is_Some (P1 !! x.1) /\ value_id x.2.1 = x.1) xs.
Proof.
  apply Forall_forall. intros [i [v t]] Hin. cbn. assert (Eo : c_olds C !! i = Some (v, t)) by (rewrite Hox; by apply elem_of_list_to_map_1).
  pose proof Hc as (Hl & HT & _). destruct (lv_olds _ _ _ _ Hl i v t Eo) as (Hi & Ht & [[w u] Hx]). split_and!; [done| |].
  - apply lookup_union_Some_raw in Hx as [El|[_ Er]].
    + apply live_of_Some in El. exists (Node w u false). apply HP1. split; [done|]. rewrite (undo_new _ _ El eq_refl). lia.
    + pose proof (rp_rem _ _ _ _ _ _ Hr C i w u ltac:(by left) Er) as HP. exists (Node w u true). apply HP1. split; [done|]. by eapply undo_erased_kept.
  - apply (proj1 Hgood). rewrite HT. cbn. by rewrite lookup_fmap, undo_map_lookup, decide_True, Eo by done.
Qed.

Lemma undo_gone i : c_rem C !! i = None -> (forall n, P2 !! i = Some n -> erased_flag n = true) -> undo_map (live_of P) C !! i = None.
Proof.
  intros Er Hall. rewrite undo_map_lookup. case_decide as Hi; [|done]. pose proof Hc as (Hl & _).
  assert (Hno : live_of P !! i = None).
  { destruct (live_of P !! i) as [[v t]|] eqn:El; [|done]. apply live_of_Some in El. exfalso.
    assert (E1 : P1 !! i = Some (Node v t false)). { apply HP1. split; [done|]. rewrite (undo_new _ _ El eq_refl). lia. }
    pose proof (undo_P2 i) as E2. rewrite E1 in E2. destruct (c_olds C !! i) as [[v' t']|]; by specialize (Hall _ E2). }
  destruct (c_olds C !! i) as [[v t]|] eqn:Eo; [|by rewrite lookup_union, Hno, Er].
  destruct (lv_olds _ _ _ _ Hl i v t Eo) as (_ & _ & [x Hx]). by rewrite lookup_union, Hno, Er in Hx.
Qed.

Lemma undo_live : live_of P3 = undo_map (live_of P) C.
Proof.
  apply map_eq. intros i. rewrite live_of_lookup. unfold P3. rewrite revive_lookup. destruct (decide (i ∈ ys.*1)) as [Hin|Hin].
  - apply undo_rem_ids in Hin as [[w u] Er]. destruct (undo_P2_removed _ _ _ Er) as (Hi & Hno & E2). rewrite E2. cbn.
    rewrite undo_map_lookup, decide_True by done. destruct (c_olds C !! i) as [[v t]|]; [done|]. cbn.
    by rewrite lookup_union, Hno, Er, (left_id_L None (∪)).
  - assert (Er : c_rem C !! i = None) by (apply eq_None_not_Some; by rewrite <- undo_rem_ids). destruct (P2 !! i) as [n|] eqn:E2.
    + destruct (erased_flag n) eqn:Ef; [|by rewrite (undo_P2_live _ _ E2 Ef)]. symmetry. apply undo_gone; [done|]. intros m Em. congruence.
    + symmetry. apply undo_gone; [done|]. intros m Em. congruence.
Qed.

(** The objects of older sessions are left alone. *)
Lemma undo_older C' i w u : C' ∈ Cs -> c_rem C' !! i = Some (w, u) -> P3 !! i = Some (Node w u true).
Proof.
  intros HC E. pose proof Hc as (Hl & HT & Hc'). destruct (chain_rem _ _ _ _ _ _ _ Hc' HC (ex_intro _ _ E)) as [Hi Hno].
  rewrite undo_map_lookup, decide_True in Hno by done. destruct (c_olds C !! i) eqn:Eo; [done|].
  assert (Er : c_rem C !! i = None). { rewrite lookup_union in Hno. by destruct (live_of P !! i), (c_rem C !! i). }
  pose proof (rp_rem _ _ _ _ _ _ Hr C' i w u ltac:(by right) E) as HP. unfold P3. rewrite revive_lookup, decide_False by (rewrite undo_rem_ids, Er; by intros []).
  rewrite undo_P2, Eo. apply HP1. split; [done|]. by eapply undo_erased_kept.
Qed.
End Undo.

Theorem undo_repr loc P C Cs (s : undo_index value) T Ts bound :
  repr value_id secondary loc P (C :: Cs) s -> chain (live_of P) (_next_id s) bound (C :: Cs) (T :: Ts) -> good value_id secondary T.1 ->
  exists s' P', undo value_id secondary s = Ok s' /\ repr value_id secondary loc P' Cs s' /\ live_of P' = undo_map (live_of P) C /\
    _next_id s' = c_next C /\ _revision s' = wrap64 (_revision s - 1) /\ _monotonic_revision s' = _monotonic_revision s.
Proof.
  intros Hr Hc Hgood. destruct (repr_indices _ _ _ _ _ _ Hr) as (l & ls & Hix & Hl & Hls & Hsl & Hord). pose proof Hr as [].
  destruct (_undo_stack s) as [|undo_info stack] eqn:Hst; [done|].
  destruct rp_segments as (os & olds' & rs & rems' & Eo & Er & Hm1 & Hm2 & Hni & Hct & (xs & Hxs & Hox & Hos) & (ys & Hys & Hry & Hrs) & Hseg).
  destruct (new_ids_spec loc P (nodes s) l (c_next C) rp_nodes Hl Hsl) as [Hndnew Hnew].
  set (new := (split_while (is_before (nodes s) (c_next C)) l).2) in *.
  destruct (destroy_all loc P (nodes s) (_indices s) (orders value_id secondary) new rp_nodes rp_indexed rp_ordered Hndnew) as (P1 & H1 & H2 & H3 & HP1 & H5 & H6).
  { intros p (i & n & ? & ? & ? & _)%Hnew. by exists i, n. }
  assert (Hhead : head_index s = l) by (unfold head_index; by rewrite Hix).
  destruct (foldl destroy (nodes s, _indices s) new) as [ns1 idx1] eqn:Efold. cbn [fst snd] in *.
  apply Forall2_cons_inv_l in H3 as (l1 & ls1 & Hsl1 & Hord1 & ->). apply Forall_cons in H2 as [Hl1 Hls1].
  destruct (restore_olds undo_info loc P1 ns1 l1 ls1 os xs) as (ns2 & ls2 & E2 & [Hloc2 Hl2 Hls2 Hw2] & Hf2); [|done| |].
  { split; [done..|]. by apply ordered_weakly. }
  { rewrite Hct. eapply undo_olds_ok; done. }
  set (P2 := foldl put_back P1 xs) in *.
  pose proof (undo_agrees loc P C Cs s T Ts bound Hr Hc new P1 xs ys Hnew HP1 Hxs Hox Hys Hry) as Hag.
  pose proof (undo_P2 C P1 xs Hxs Hox) as HP2. pose proof (undo_P2_removed loc P C Cs s T Ts bound Hr Hc new P1 xs Hnew HP1 Hxs Hox) as HP2r.
  fold P2 in Hag, HP2, HP2r.
  destruct (restore_removeds undo_info loc P2 ns2 (l1 :: ls2) T.1 ys.*1 Hgood Hys Hag Hloc2) as (ns3 & idx3 & E3 & Hloc3 & Hix3 & Ho3 & Hsame3 & Hdom3); [by constructor| | |].
  { constructor.
    - apply (id_sorted_ext loc P1 P2 ns1 ns2 l1); try done. intros i [n E]. rewrite HP2 in E. destruct (c_olds C !! i) as [[v t]|]; [|by eexists].
      by destruct (P1 !! i).
    - apply (apart_ordered value_id loc P2 ns2); [done..|]. intros lt i j n m Hlt Ei Ej Hfi Hfj Hne.
      apply (proj2 Hgood i j _ _ lt); [apply (Hag i n Ei); by left|apply (Hag j m Ej); by left|done|done]. }
  { intros i Hi. apply (undo_rem_ids C ys Hys Hry) in Hi as [[w u] Ewu]. destruct (HP2r _ _ _ Ewu) as (Hlt & _ & E). rewrite Hni. split; [done|].
    rewrite E. destruct (c_olds C !! i) as [[v t]|]; by eexists _, _. }
  assert (Hundo : undo value_id secondary s = Ok (UndoIndex ns3 (next_address s) idx3 stack olds' rems' (c_next C) (wrap64 (_revision s - 1)) (_monotonic_revision s))).
  { unfold undo. rewrite Hst, Hni, Hhead.
    change (split_while _ l).2 with new. change (fun acc p => (delete p acc.1, erase_impl p acc.2)) with destroy.
    rewrite Efold, Hm1, Eo, (split_end_head old_address os olds') by (by rewrite <- Eo). cbn. rewrite E2. cbn. rewrite Hm2, Er.
    rewrite <- (option_fmap_id (head rems')), (split_end_head id rs rems') by (by rewrite list_fmap_id, <- Er). cbn.
    rewrite Hrs. rewrite <- list_fmap_compose in E3. unfold compose in E3. by rewrite E3. }
  assert (Hrs' : rs = loc <$> ys.*1) by (by rewrite Hrs, <- list_fmap_compose).
  rewrite Hrs' in Er. eexists _, (foldl revive P2 ys.*1). split; [exact Hundo|].
  split; [|by split; [eapply undo_live|]]. rewrite Eo in rp_old_fresh, rp_old_nodup. rewrite Er in rp_rem_nodup, rp_rem_flag. split; cbn; try done.
  - intros q Hq. apply Hdom3 in Hq as [n En]. specialize (Hf2 q). rewrite En in Hf2. cbn in Hf2. destruct (ns1 !! q) as [m|] eqn:E1; [|done].
    destruct (decide (q ∈ new)) as [Hq|Hq]; [rewrite H6 in E1 by done; done|]. rewrite H5 in E1 by done. apply rp_fresh. by eexists.
  - by apply Forall_app in rp_old_fresh as [_ ?].
  - rewrite fmap_app in rp_old_nodup. by apply NoDup_app in rp_old_nodup as (_ & _ & ?).
  - by apply NoDup_app in rp_rem_nodup as (_ & _ & ?).
  - apply Forall_app in rp_rem_flag as [_ Hflag]. apply Forall_forall. intros q Hq. rewrite Forall_forall in Hflag. destruct (Hflag q Hq) as (n & En & Hf).
    assert (Hqn : q ∉ new).
    { intros (i & m & Ei & Hfi & -> & _)%Hnew. rewrite (proj1 (rp_nodes _ _ Ei)) in En. congruence. }
    rewrite Hsame3 by (intros Hin; apply NoDup_app in rp_rem_nodup as (_ & Hdisj & _); by apply (Hdisj q)).
    specialize (Hf2 q). rewrite H5, En in Hf2 by done. destruct (ns2 !! q) as [m|]; [|done]. exists m. split; [done|]. cbn in Hf2. congruence.
  - intros C' i w u HC E. by eapply undo_older.
Qed.
End Restore.
