(* ===== verification/UndoSquash.v ===== *)
(** * What [UndoIndex.squash] and [commit] do

    No code of its own: squashing makes the last session a part of the one before,
    committing forgets older sessions. *)

From stdpp Require Import sorting.
From S2P Require Import Prelude UndoIndex UndoOrder UndoHistory UndoRepr UndoSteps UndoRestore.
Open Scope Z_scope.

Section Squash.
Context {value : Type} (value_id : value -> Z) (secondary : list (@order value)).
Implicit Types (P : gmap Z (@node value)) (loc : Z -> Z) (ns : gmap Z (@node value)) (C : @chunk value) (Cs : list (@chunk value)) (s : undo_index value).

#[local] Abbreviation repr := (repr value_id secondary).

(** ** Disposing of removed values *)

Lemma foldl_delete_lookup ns (ps : list Z) q : foldl (fun ns p => delete p ns) ns ps !! q = if decide (q ∈ ps) then None else ns !! q.
Proof.
  revert ns. induction ps as [|p ps IH]; intros ns; cbn; [by rewrite decide_False by apply not_elem_of_nil|]. rewrite IH.
  destruct (decide (q = p)) as [->|Hne].
  - rewrite lookup_delete_eq, (decide_True (P := p ∈ p :: ps)) by by left. by case_decide.
  - rewrite lookup_delete_ne by done. destruct (decide (q ∈ ps)); [by rewrite decide_True by by right|]. by rewrite decide_False by (by intros [?|?]%elem_of_cons).
Qed.

Definition without P loc (ps : list Z) : gmap Z (@node value) := filter (fun x => loc x.1 ∉ ps) P.

Lemma without_Some P loc ps i n : without P loc ps !! i = Some n <-> P !! i = Some n /\ loc i ∉ ps.
Proof. unfold without. by rewrite map_lookup_filter_Some. Qed.

Lemma without_live loc P ns ps : located value_id loc P ns -> (forall p, p ∈ ps -> exists n, ns !! p = Some n /\ erased_flag n = true) ->
  live_of (without P loc ps) = live_of P.
Proof.
  intros Hloc Hps. apply map_eq. intros i. apply option_eq. intros [v t]. rewrite !live_of_Some, without_Some. split; [tauto|]. intros E. split; [done|].
  intros (n & En & Hf)%Hps. rewrite (proj1 (Hloc _ _ E)) in En. by injection En as <-.
Qed.

(** Other sessions and lists, where the nodes of some removed values are gone *)
Lemma dispose_repr loc P Cs Cs' s stack olds rems ps next rev mono : repr loc P Cs s ->
  (forall p, p ∈ ps -> p ∈ _removed_values s) -> olds `sublist_of` _old_values s -> rems `sublist_of` _removed_values s -> (forall p, p ∈ rems -> p ∉ ps) ->
  segments loc Cs' stack olds rems ->
  (forall C id v t, C ∈ Cs' -> c_rem C !! id = Some (v, t) -> P !! id = Some (Node v t true) /\ loc id ∉ ps) ->
  repr loc (without P loc ps) Cs' (UndoIndex (foldl (fun ns p => delete p ns) (nodes s) ps) (next_address s) (_indices s) stack olds rems next rev mono) /\
  live_of (without P loc ps) = live_of P.
Proof.
  intros Hr Hps Holds Hrems Hdisj Hseg Hrem. pose proof Hr as []. rewrite Forall_forall in rp_rem_flag.
  assert (Hflag : forall p, p ∈ ps -> exists n, nodes s !! p = Some n /\ erased_flag n = true) by (intros p Hp; by apply rp_rem_flag, Hps).
  assert (Hlive : forall i n, P !! i = Some n -> erased_flag n = false -> loc i ∉ ps).
  { intros i n E Hf (m & Em & Hfm)%Hflag. rewrite (proj1 (rp_nodes _ _ E)) in Em. congruence. }
  split; [|by eapply without_live]. split; cbn; try done.
  - intros i n [E Hi]%without_Some. rewrite foldl_delete_lookup, decide_False by done. by apply rp_nodes.
  - intros q. rewrite foldl_delete_lookup. case_decide; [by intros [? ?]|]. apply rp_fresh.
  - apply Forall_forall. intros o Ho. rewrite Forall_forall in rp_old_fresh. apply rp_old_fresh. by eapply elem_of_sublist.
  - eapply sublist_NoDup; [exact rp_old_nodup|]. by apply fmap_sublist.
  - by eapply sublist_NoDup.
  - apply Forall_forall. intros q Hq. destruct (rp_rem_flag q) as (n & En & Hf); [by eapply elem_of_sublist|]. exists n. split; [|done].
    rewrite foldl_delete_lookup, decide_False by by apply Hdisj. done.
  - eapply Forall_impl; [exact rp_indexed|]. intros l [Hnd Hl]. split; [done|]. intros p. rewrite Hl. split.
    + intros (i & n & E & Hf & ->). exists i, n. split; [|done]. apply without_Some. split; [done|]. by eapply Hlive.
    + intros (i & n & [E _]%without_Some & Hf & ->). by exists i, n.
  - eapply ordered_ext; [|exact rp_ordered]. eapply Forall_impl; [exact rp_indexed|]. intros l [Hnd Hl] p (i & n & E & Hf & ->)%Hl.
    rewrite foldl_delete_lookup, decide_False by (by eapply Hlive). done.
  - intros C id v t HC E. apply without_Some. by eapply Hrem.
Qed.

(** ** [commit] *)

Lemma segments_take loc Cs stack olds rems n : segments loc Cs stack olds rems -> (1 <= n <= length stack)%nat ->
  exists iter o o' r r', last (take n stack) = Some iter /\ olds = o ++ o' /\ rems = r ++ r' /\
    old_values_end iter = old_address <$> head o' /\ removed_values_end iter = head r' /\
    segments loc (take n Cs) (take n stack) (o ++ take 1 o') (r ++ take 1 r').
Proof.
  revert Cs stack olds rems. induction n as [|n IH]; intros [|C Cs] [|u stack] olds rems; cbn [length segments]; try (intros; lia).
  intros (os & olds' & rs & rems' & -> & -> & H1 & H2 & H3 & H4 & H5 & H6 & H7) Hn. destruct n as [|n].
  - exists u, os, olds', rs, rems'. split_and!; try done. cbn. exists os, (take 1 olds'), rs, (take 1 rems'). split_and!; try done.
    + by destruct olds'.
    + by destruct rems'.
  - destruct (IH Cs stack olds' rems' H7) as (iter & o & o' & r & r' & Hit & -> & -> & Ho & Hr & Hs); [lia|].
    exists iter, (os ++ o), o', (rs ++ r), r'. split_and!; [|by rewrite app_assoc|by rewrite app_assoc|done|done|].
    + cbn in *. by destruct stack.
    + cbn [take segments]. exists os, (o ++ take 1 o'), rs, (r ++ take 1 r'). split_and!; try done; [by rewrite app_assoc|by rewrite app_assoc| |].
      * rewrite H1. destruct o; [by destruct o'|done].
      * rewrite H2. destruct r; [by destruct r'|done].
Qed.

Lemma segments_rem loc Cs stack olds rems C id x : segments loc Cs stack olds rems -> C ∈ Cs -> c_rem C !! id = Some x -> loc id ∈ rems.
Proof.
  revert stack olds rems. induction Cs as [|A Cs IH]; intros [|u stack] olds rems; [by intros _ ?%elem_of_nil|done|done|].
  intros (os & olds' & rs & rems' & -> & -> & _ & _ & _ & _ & _ & (ys & Hys & Hry & ->) & Hseg) [->|Hin]%elem_of_cons E; apply elem_of_app; [left|right].
  - rewrite Hry in E. apply elem_of_list_to_map_2 in E. by apply (list_elem_of_fmap_2 (fun x : Z * (value * Z) => loc x.1)) in E.
  - by eapply IH.
Qed.

Lemma keep_through_head {A} (address : A -> Z) l l' : NoDup (address <$> l ++ l') ->
  keep_through address (l ++ l') (address <$> head l') = Ok (l ++ take 1 l', drop 1 l').
Proof. destruct l' as [|a l']; cbn [head]; [by rewrite !app_nil_r|]. intros H. cbn. by rewrite split_at_head. Qed.

(** How many sessions are kept *)
Definition kept_sessions (current revision : Z) (n : nat) : nat :=
  if current <=? revision then 0%nat else if current - revision <? Z.of_nat n then Z.to_nat (current - revision) else n.

Lemma commit_repr loc P Cs s revision : repr loc P Cs s ->
  exists s' P', commit s revision = Ok s' /\ repr loc P' (take (kept_sessions (_revision s) revision (length Cs)) Cs) s' /\ live_of P' = live_of P /\ same_rest s s'.
Proof.
  intros Hr. pose proof Hr as []. pose proof (segments_length _ _ _ _ _ rp_segments) as Hlen.
  unfold commit, kept_sessions. destruct (Z.leb_spec (_revision s) revision) as [Hle|Hgt].
  - rewrite Z.min_r, Z.eqb_refl by done. destruct (dispose_repr loc P Cs [] s [] [] [] (_removed_values s) (_next_id s) (_revision s) (_monotonic_revision s) Hr) as [Hr' Hl];
      try done; [apply sublist_nil_l|apply sublist_nil_l|by intros ? ?%elem_of_nil|by intros ? ? ? ? ?%elem_of_nil|].
    eexists _, _. split; [reflexivity|]. split; [exact Hr'|done].
  - rewrite Z.min_l by lia. rewrite (proj2 (Z.eqb_neq _ _)) by lia. unfold size_of. rewrite Hlen.
    destruct (Z.ltb_spec (_revision s - revision) (Z.of_nat (length Cs))) as [Hlt|Hge].
    2: { exists s, P. rewrite firstn_all. by split_and!. }
    set (n := Z.to_nat (_revision s - revision)).
    destruct (segments_take _ _ _ _ _ n rp_segments) as (iter & o & o' & r & r' & Hit & Ho & Hrr & Ho' & Hr' & Hseg); [lia|].
    rewrite Hit. cbn. rewrite Ho', Ho, keep_through_head by (by rewrite <- Ho). cbn.
    rewrite Hr', Hrr, <- (option_fmap_id (head r')), keep_through_head by (by rewrite list_fmap_id, <- Hrr). cbn.
    assert (Hsplit : r ++ r' = (r ++ take 1 r') ++ drop 1 r') by (by rewrite <- app_assoc, take_drop).
    destruct (dispose_repr loc P Cs (take n Cs) s (take n (_undo_stack s)) (o ++ take 1 o') (r ++ take 1 r') (drop 1 r') (_next_id s) (_revision s) (_monotonic_revision s) Hr) as [Hrepr Hl].
    + intros p Hp. rewrite Hrr, Hsplit. apply elem_of_app. by right.
    + rewrite Ho. apply sublist_app; [done|]. apply sublist_take.
    + rewrite Hrr. apply sublist_app; [done|]. apply sublist_take.
    + rewrite Hrr, Hsplit in rp_rem_nodup. apply NoDup_app in rp_rem_nodup as (_ & Hdisj & _). done.
    + done.
    + intros C id v t HC E. split; [eapply rp_rem; [|done]; by eapply elem_of_sublist; [exact HC|apply sublist_take]|].
      rewrite Hrr, Hsplit in rp_rem_nodup. apply NoDup_app in rp_rem_nodup as (_ & Hdisj & _). apply Hdisj. by eapply segments_rem.
    + eexists _, _. split; [reflexivity|]. split; [exact Hrepr|done].
Qed.

(** ** [squash] *)

(** An old value that goes into a removed object *)
Definition overwrite (start : Z) P (x : Z * (value * Z)) : gmap Z (@node value) :=
  alter (fun n => if (x.2.2 <? start) && erased_flag n then Node x.2.1 x.2.2 true else n) x.1 P.

Lemma overwrite_lookup start P xs i : NoDup xs.*1 -> foldl (overwrite start) P xs !! i =
  match (list_to_map xs : gmap Z (value * Z)) !! i with Some (v, t) => (fun n => if (t <? start) && erased_flag n then Node v t true else n) <$> P !! i | None => P !! i end.
Proof.
  revert P. induction xs as [|[j [v t]] xs IH]; intros P; cbn; [done|]. intros [Hj Hnd]%NoDup_cons. rewrite IH by done. unfold overwrite. cbn.
  destruct (decide (i = j)) as [->|Hne].
  - rewrite lookup_insert_eq, lookup_alter_eq. by rewrite (not_elem_of_list_to_map_1 xs j).
  - by rewrite lookup_insert_ne, lookup_alter_ne by done.
Qed.

(** The old values that stay in the list *)
Definition stays (start : Z) P (x : Z * (value * Z)) : Prop := x.2.2 < start /\ erased_flag <$> P !! x.1 = Some false.
#[local] Instance stays_dec start P x : Decision (stays start P x).
Proof. apply and_dec; [apply Z_lt_dec|solve_decision]. Defined.

Lemma compress_olds start loc P ns kept os xs : located value_id loc P ns -> Forall2 (is_old loc) os xs ->
  Forall (fun x : Z * (value * Z) => is_Some (P !! x.1) /\ value_id x.2.1 = x.1) xs ->
  exists ns' ks, foldM (compress_old start) (ns, kept) os = Ok (ns', kept ++ ks) /\ ks `sublist_of` os /\ Forall2 (is_old loc) ks (filter (stays start P) xs) /\
    located value_id loc (foldl (overwrite start) P xs) ns' /\ (forall q, erased_flag <$> ns' !! q = erased_flag <$> ns !! q) /\
    (forall q n, ns !! q = Some n -> erased_flag n = false -> ns' !! q = Some n).
Proof.
  intros Hloc Hos. revert P ns kept Hloc. induction Hos as [|o x os xs Hox Hos IH]; intros P ns kept Hloc Hxs.
  { exists ns, []. rewrite app_nil_r. by split_and!. }
  apply Forall_cons in Hxs as [[[n Hn] Hid] Hxs]. destruct x as [id [v t]]. destruct Hox as (H1 & H2 & H3). cbn in H1, H2, H3, Hn, Hid. destruct (Hloc _ _ Hn) as [Hns Hnid].
  assert (Hover : erased_flag n = false \/ start <= t -> overwrite start P (id, (v, t)) = P).
  { intros Hc. unfold overwrite. cbn. apply alter_id. intros m Hm. rewrite Hn in Hm. injection Hm as <-.
    destruct Hc as [->|Hc]; [by rewrite andb_false_r|]. by rewrite (proj2 (Z.ltb_ge _ _)). }
  assert (Hstep : compress_old start (ns, kept) o = if start <=? t then Ok (ns, kept) else
    if erased_flag n then Ok (<[loc id := Node v t true]> ns, kept) else Ok (ns, kept ++ [o])).
  { unfold compress_old, lookup_node. cbn [fst snd]. by rewrite H1, H2, H3, Hns. }
  change (foldl (overwrite start) P ((id, (v, t)) :: xs)) with (foldl (overwrite start) (overwrite start P (id, (v, t))) xs).
  cbn [foldM]. rewrite Hstep. clear Hstep. destruct (Z.leb_spec start t) as [Hge|Hlt].
  { destruct (IH P ns kept Hloc Hxs) as (ns' & ks & E & Hsub & Hks & H). exists ns', ks. rewrite Hover by by right. split; [exact E|].
    split; [by constructor|]. split; [|done]. rewrite filter_cons_False; [done|]. intros [Ht _]. cbn in Ht. lia. }
  destruct (erased_flag n) eqn:Ef; cbn [mbind result_bind].
  - set (P1 := overwrite start P (id, (v, t))). set (ns1 := <[loc id := Node v t true]> ns).
    assert (HP1 : P1 = <[id := Node v t true]> P).
    { unfold P1, overwrite. cbn. apply map_eq. intros i. destruct (decide (i = id)) as [->|]; [|by rewrite lookup_alter_ne, lookup_insert_ne].
      rewrite lookup_alter_eq, lookup_insert_eq, Hn. cbn. by rewrite (proj2 (Z.ltb_lt _ _)), Ef. }
    assert (Hflag : forall i, erased_flag <$> P1 !! i = erased_flag <$> P !! i).
    { intros i. rewrite HP1. destruct (decide (i = id)) as [->|]; [by rewrite lookup_insert_eq, Hn; cbn; rewrite Ef|by rewrite lookup_insert_ne]. }
    destruct (IH P1 ns1 kept) as (ns' & ks & E & Hsub & Hks & Hloc' & Hf' & Hlive).
    + rewrite HP1. apply located_insert; [done|by eexists|done].
    + eapply Forall_impl; [exact Hxs|]. intros x [[m Hm] ?]. split; [|done]. specialize (Hflag x.1). rewrite Hm in Hflag. destruct (P1 !! x.1); [by eexists|done].
    + exists ns', ks. split; [exact E|]. split; [by constructor|]. split_and!; [|done| |].
      * rewrite filter_cons_False; [|intros [_ Hs]; cbn in Hs; rewrite Hn in Hs; cbn in Hs; congruence].
        rewrite (list_filter_iff _ (stays start P)) in Hks; [done|]. intros x. unfold stays. by rewrite Hflag.
      * intros q. rewrite Hf'. unfold ns1. destruct (decide (q = loc id)) as [->|]; [by rewrite lookup_insert_eq, Hns; cbn; rewrite Ef|by rewrite lookup_insert_ne].
      * intros q m Hq Hfm. apply Hlive; [|done]. unfold ns1. rewrite lookup_insert_ne; [done|]. intros <-. congruence.
  - rewrite Hover by by left. destruct (IH P ns (kept ++ [o]) Hloc Hxs) as (ns' & ks & E & Hsub & Hks & H). exists ns', (o :: ks).
    rewrite <- app_assoc in E. split; [exact E|]. split; [by constructor|]. split; [|done]. rewrite filter_cons_True; [by constructor|].
    split; [done|]. cbn. by rewrite Hn, <- Ef.
Qed.

Lemma fmap_filter_iff {X Y} (f : X -> Y) (Q : X -> Prop) (R : Y -> Prop) `{forall x, Decision (Q x)} `{forall x, Decision (R x)} (l : list X) :
  (forall x, x ∈ l -> R (f x) <-> Q x) -> filter R (f <$> l) = f <$> filter Q l.
Proof.
  induction l as [|x l IH]; intros Hl; [done|]. rewrite fmap_cons, !filter_cons. pose proof (Hl x ltac:(by left)) as Hx.
  rewrite IH by (intros y Hy; apply Hl; by right). destruct (decide (Q x)); destruct (decide (R (f x))); [done|tauto|tauto|done].
Qed.

Lemma NoDup_filter_keys {V} (Q : Z * V -> Prop) `{forall x, Decision (Q x)} (l : list (Z * V)) : NoDup l.*1 -> NoDup (filter Q l).*1.
Proof. intros Hnd. eapply sublist_NoDup; [exact Hnd|]. apply fmap_sublist, sublist_filter. Qed.

(** The last session; its values are compressed for the session [A]. *)
Section Last.
Context loc P (B A : @chunk value) (Cs : list (@chunk value)) (s : undo_index value) (TB : gmap Z value * Z) (Ts : list (gmap Z value * Z)) (bound : Z).
Hypothesis (Hr : repr loc P (B :: Cs) s) (Hc : chain (live_of P) (_next_id s) bound (B :: Cs) (TB :: Ts)) (Hgood : good value_id secondary TB.1).
Context (xs ys : list (Z * (value * Z))).
Hypothesis (Hxs : NoDup xs.*1) (Hox : c_olds B = list_to_map xs) (Hys : NoDup ys.*1) (Hry : c_rem B = list_to_map ys).

Let P1 := foldl (overwrite (c_time A)) P xs.

Lemma squash_P1 i : P1 !! i = match c_olds B !! i with Some (v, t) => (fun n => if (t <? c_time A) && erased_flag n then Node v t true else n) <$> P !! i | None => P !! i end.
Proof. unfold P1. by rewrite overwrite_lookup, Hox. Qed.

Lemma squash_P1_live i n : P !! i = Some n -> erased_flag n = false -> P1 !! i = Some n.
Proof. intros E Hf. rewrite squash_P1, E. destruct (c_olds B !! i) as [[v t]|]; [|done]. cbn. by rewrite Hf, andb_false_r. Qed.

Lemma squash_P1_flags i : erased_flag <$> P1 !! i = erased_flag <$> P !! i.
Proof.
  rewrite squash_P1. destruct (c_olds B !! i) as [[v t]|]; [|done]. destruct (P !! i) as [n|]; [|done]. cbn. f_equal.
  destruct (t <? c_time A); [|done]. by destruct (erased_flag n) eqn:E.
Qed.

Lemma squash_live : live_of P1 = live_of P.
Proof.
  apply map_eq. intros i. apply option_eq. intros [v t]. rewrite !live_of_Some. split; [|intros E; by apply squash_P1_live].
  intros E. pose proof (squash_P1_flags i) as Hf. rewrite E in Hf. cbn in Hf. destruct (P !! i) as [n|] eqn:EP; [|done]. injection Hf as Hf.
  rewrite (squash_P1_live _ _ EP) in E by done. done.
Qed.

Lemma squash_P1_removed i w u : c_rem B !! i = Some (w, u) -> P !! i = Some (Node w u true) /\
  P1 !! i = Some (match c_olds B !! i with Some (v, t) => if t <? c_time A then Node v t true else Node w u true | None => Node w u true end).
Proof.
  intros E. pose proof (rp_rem _ _ _ _ _ _ Hr B i w u ltac:(by left) E) as HP. split; [done|]. rewrite squash_P1, HP.
  destruct (c_olds B !! i) as [[v t]|]; [|done]. cbn. by destruct (t <? c_time A).
Qed.

(** Older sessions do not know the objects of the last. *)
Lemma squash_older C i w u : C ∈ Cs -> c_rem C !! i = Some (w, u) -> c_rem B !! i = None /\ P1 !! i = Some (Node w u true).
Proof.
  intros HC E. pose proof Hc as (Hl & HT & Hc'). destruct (chain_rem _ _ _ _ _ _ _ Hc' HC (ex_intro _ _ E)) as [Hi Hno].
  rewrite undo_map_lookup, decide_True in Hno by done. destruct (c_olds B !! i) eqn:Eo; [done|]. split.
  - rewrite lookup_union in Hno. by destruct (live_of P !! i), (c_rem B !! i).
  - rewrite squash_P1, Eo. eapply rp_rem; [exact Hr|by right|done].
Qed.

Lemma squash_olds_ok : Forall (fun x : Z * (value * Z) => is_Some (P !! x.1) /\ value_id x.2.1 = x.1) xs.
Proof.
  apply Forall_forall. intros [i [v t]] Hin. cbn. assert (Eo : c_olds B !! i = Some (v, t)) by (rewrite Hox; by apply elem_of_list_to_map_1).
  pose proof Hc as (Hl & HT & _). destruct (lv_olds _ _ _ _ Hl i v t Eo) as (Hi & Ht & [[w u] Hx]). split.
  - apply lookup_union_Some_raw in Hx as [El%live_of_Some|[_ Er]]; [by eexists|]. eexists. eapply rp_rem; [exact Hr|by left|done].
  - apply (proj1 Hgood). rewrite HT. cbn. by rewrite lookup_fmap, undo_map_lookup, decide_True, Eo by done.
Qed.

Lemma squash_stays i v t : c_olds B !! i = Some (v, t) -> stays (c_time A) P (i, (v, t)) <-> t < c_time A /\ c_rem B !! i = None.
Proof.
  intros Eo. unfold stays. cbn. pose proof Hc as (Hl & _). destruct (lv_olds _ _ _ _ Hl i v t Eo) as (Hi & Ht & [[w u] Hx]).
  assert (erased_flag <$> P !! i = Some false <-> c_rem B !! i = None) as ->; [|done]. apply lookup_union_Some_raw in Hx as [El|[_ Er]].
  - apply live_of_Some in El as EP. rewrite EP. split; [intros _|done]. destruct (c_rem B !! i) as [[w' u']|] eqn:Er; [|done].
    destruct (lv_rem _ _ _ _ Hl i (ex_intro _ _ Er)). congruence.
  - rewrite Er, (rp_rem _ _ _ _ _ _ Hr B i w u ltac:(by left) Er). done.
Qed.

(** The lists of the squashed session *)
Lemma squash_kept : list_to_map (filter (stays (c_time A) P) xs) = kept_olds B A.
Proof.
  apply map_eq. intros i. apply option_eq. intros [v t]. rewrite <- elem_of_list_to_map by by apply NoDup_filter_keys.
  rewrite list_elem_of_filter, kept_olds_lookup. rewrite elem_of_list_to_map, <- Hox by done. split.
  - intros [Hs Eo]. rewrite Eo. apply (squash_stays i v t Eo) in Hs as [Ht Hno]. cbn. by rewrite (proj2 (Z.ltb_lt _ _)), bool_decide_true.
  - destruct (c_olds B !! i) as [[v' t']|] eqn:Eo; [|done]. cbn. destruct (Z.ltb_spec t' (c_time A)); [|done]. cbn. case_bool_decide as Hno; [|done].
    intros [= -> ->]. split; [|done]. by apply squash_stays.
Qed.

Definition squash_value (x : Z * (value * Z)) : Z * (value * Z) :=
  (x.1, match c_olds B !! x.1 with Some y => if y.2 <? c_time A then y else x.2 | None => x.2 end).
Let ys' := squash_value <$> filter (fun x => x.1 < c_next A) ys.

Lemma squash_keys : ys'.*1 = (filter (fun x => x.1 < c_next A) ys).*1.
Proof. unfold ys'. by rewrite <- list_fmap_compose. Qed.

Lemma squash_rems : list_to_map ys' = compressed_rem B A.
Proof.
  apply map_eq. intros i. apply option_eq. intros z. rewrite <- elem_of_list_to_map by (rewrite squash_keys; by apply NoDup_filter_keys).
  unfold ys'. rewrite list_elem_of_fmap, compressed_rem_lookup. split.
  - intros ([j x] & Heq & [Hj Hin]%list_elem_of_filter). injection Heq as -> ->. cbn in *. apply (elem_of_list_to_map_1 (M := gmap Z)) in Hin; [|done].
    rewrite <- Hry in Hin. rewrite Hin. by rewrite (proj2 (Z.ltb_lt _ _)).
  - destruct (c_rem B !! i) as [x|] eqn:Er; [|done]. destruct (Z.ltb_spec i (c_next A)); [|done]. intros [= <-]. exists (i, x). split; [done|].
    apply list_elem_of_filter. split; [done|]. apply elem_of_list_to_map_2. by rewrite <- Hry.
Qed.

Lemma squash_removed_list (is_new : Z -> Prop) `{forall p, Decision (is_new p)} : (forall x, x ∈ ys -> is_new (loc x.1) <-> c_next A <= x.1) ->
  filter (fun p => ~ is_new p) ((fun x : Z * (value * Z) => loc x.1) <$> ys) = (fun x => loc x.1) <$> ys'.
Proof.
  intros Hnew. rewrite (fmap_filter_iff _ (fun x : Z * (value * Z) => x.1 < c_next A) (fun p => ~ is_new p)).
  - unfold ys'. by rewrite <- list_fmap_compose.
  - intros x Hx. rewrite (Hnew x Hx). lia.
Qed.

(** The squashed session's part of the lists *)
Lemma squash_segments Cs' session stack ks olds' rems' : Cs = A :: Cs' -> segments loc Cs (session :: stack) olds' rems' ->
  Forall2 (is_old loc) ks (filter (stays (c_time A) P) xs) ->
  segments loc (squashed B A :: Cs') (session :: stack) (ks ++ olds') (((fun x => loc x.1) <$> ys') ++ rems').
Proof.
  intros HCs. rewrite HCs. intros (os & olds'' & rs & rems'' & -> & -> & H1 & H2 & H3 & H4 & (xa & Hxa & Hoa & Hos) & (ya & Hya & Hra & Hrs) & Hseg) Hks.
  exists (ks ++ os), olds'', (((fun x => loc x.1) <$> ys') ++ rs), rems''. split_and!; [by rewrite app_assoc|by rewrite app_assoc|done|done|done|done| | |done].
  - exists (filter (stays (c_time A) P) xs ++ xa). split_and!; [|by rewrite list_to_map_app, squash_kept, <- Hoa|by apply Forall2_app].
    rewrite fmap_app. apply NoDup_app. split_and!; [by apply NoDup_filter_keys| |done].
    intros i ([j [v t]] & -> & [Hs Hin]%list_elem_of_filter)%list_elem_of_fmap ([j' x] & Heq & Hin')%list_elem_of_fmap. cbn in *. subst j'.
    apply (elem_of_list_to_map_1 (M := gmap Z)) in Hin, Hin'; [|done|done]. rewrite <- Hox in Hin. rewrite <- Hoa in Hin'.
    apply (squash_stays j v t Hin) in Hs as [Ht _]. pose proof Hc as Hc'. rewrite HCs in Hc'. destruct Ts as [|TA Ts']; [by destruct Hc' as (_ & _ & [])|]. destruct Hc' as (HlB & _ & HlA & _). destruct (lv_olds _ _ _ _ HlB j v t Hin) as (Hj & _).
    destruct (squash_mtime _ B A HlA j v t Hj) as [_ Hiff]; [by rewrite Hin|]. assert (c_time A <= t) by (apply Hiff; right; by eexists). lia.
  - exists (ys' ++ ya). split_and!; [|by rewrite list_to_map_app, squash_rems, <- Hra|by rewrite fmap_app, Hrs].
    rewrite fmap_app, squash_keys. apply NoDup_app. split_and!; [by apply NoDup_filter_keys| |done].
    intros i ([j x] & -> & [_ Hin]%list_elem_of_filter)%list_elem_of_fmap ([j' [w u]] & Heq & Hin')%list_elem_of_fmap. cbn in *. subst j'.
    apply (elem_of_list_to_map_1 (M := gmap Z)) in Hin, Hin'; [|done|done]. rewrite <- Hry in Hin. rewrite <- Hra in Hin'.
    destruct (squash_older A j w u ltac:(rewrite HCs; by left) Hin'). congruence.
Qed.

(** The nodes after the old values went into removed objects *)
Lemma squash_nodes ns : located value_id loc P1 ns -> (forall q, erased_flag <$> ns !! q = erased_flag <$> nodes s !! q) ->
  (forall q n, nodes s !! q = Some n -> erased_flag n = false -> ns !! q = Some n) ->
  repr loc P1 [] (UndoIndex ns (next_address s) (_indices s) [] (_old_values s) (_removed_values s) (_next_id s) (_revision s) (_monotonic_revision s)).
Proof.
  intros Hloc Hflags Hlive. pose proof Hr as []. split; cbn; try done.
  - intros q [n E]. specialize (Hflags q). rewrite E in Hflags. apply rp_fresh. destruct (nodes s !! q); [by eexists|done].
  - eapply Forall_impl; [exact rp_rem_flag|]. cbn. intros q (n & E & Hf). specialize (Hflags q). rewrite E in Hflags. cbn in Hflags.
    destruct (ns !! q) as [m|]; [|done]. exists m. split; [done|]. cbn in Hflags. congruence.
  - eapply Forall_impl; [exact rp_indexed|]. intros l. apply index_of_same. intros i. by rewrite squash_P1_flags.
  - eapply ordered_ext; [|exact rp_ordered]. eapply Forall_impl; [exact rp_indexed|]. intros l [_ Hl] q (i & n & E & Hf & ->)%Hl.
    rewrite (proj1 (rp_nodes _ _ E)). by rewrite (Hlive _ _ (proj1 (rp_nodes _ _ E)) Hf).
  - by intros C i w u ?%elem_of_nil.
Qed.

(** The compressed part *)
Lemma compress_segments Cs' top stack ks olds' rems' : A = B -> old_next_id top = c_next B -> ctime top = c_time B ->
  old_values_end top = old_address <$> head olds' -> removed_values_end top = head rems' -> segments loc Cs' stack olds' rems' ->
  Forall2 (is_old loc) ks (filter (stays (c_time A) P) xs) ->
  segments loc (compressed B :: Cs') (top :: stack) (ks ++ olds') (((fun x => loc x.1) <$> ys') ++ rems').
Proof.
  intros HAB H1 H2 H3 H4 Hseg Hks. exists ks, olds', ((fun x => loc x.1) <$> ys'), rems'. split_and!; try done.
  - exists (filter (stays (c_time A) P) xs). split_and!; [by apply NoDup_filter_keys| |done]. rewrite squash_kept. cbn. by rewrite HAB.
  - exists ys'. split_and!; [rewrite squash_keys; by apply NoDup_filter_keys| |done]. rewrite squash_rems. cbn. by rewrite HAB.
Qed.

(** What a session removed stays where it is, with its old values. *)
Lemma compress_kept rs (is_new : Z -> Prop) `{forall p, Decision (is_new p)} ns i (x : value * Z) : rs = (fun x : Z * (value * Z) => loc x.1) <$> ys ->
  (forall x, x ∈ ys -> is_new (loc x.1) <-> c_next A <= x.1) -> located value_id loc P1 ns ->
  compressed_rem B A !! i = Some x \/ (exists C, C ∈ Cs /\ c_rem C !! i = Some x) ->
  P1 !! i = Some (Node x.1 x.2 true) /\ loc i ∉ filter is_new rs.
Proof.
  intros Hrs Hnew Hloc Hx.
  assert (Hout : forall n, P1 !! i = Some n -> c_rem B !! i = None \/ i < c_next A -> loc i ∉ filter is_new rs).
  { intros n E1 Hor [Hn Hin]%list_elem_of_filter. rewrite Hrs in Hin. apply list_elem_of_fmap in Hin as ([j [w u]] & Heq & Hin). cbn in Heq.
    rewrite Heq in Hn. apply (Hnew _ Hin) in Hn as Hj. cbn in Hj. apply (elem_of_list_to_map_1 (M := gmap Z)) in Hin; [|done]. rewrite <- Hry in Hin.
    destruct (squash_P1_removed j w u Hin) as [_ E2].
    assert (i = j) as <- by (apply (located_inj value_id loc P1 ns i j Hloc); [by eexists|by eexists|done]). destruct Hor; [congruence|lia]. }
  destruct Hx as [Ei|(C & HC & Ei)].
  - rewrite compressed_rem_lookup in Ei. destruct (c_rem B !! i) as [[w u]|] eqn:ErB; [|done]. destruct (Z.ltb_spec i (c_next A)); [|done].
    destruct (squash_P1_removed i w u ErB) as [_ E1]. assert (E2 : P1 !! i = Some (Node x.1 x.2 true)).
    { etransitivity; [exact E1|]. injection Ei as <-. destruct (c_olds B !! i) as [[v' t']|]; [cbn; by destruct (t' <? c_time A)|done]. }
    split; [done|]. eapply Hout; [done|by right].
  - destruct x as [v t]. destruct (squash_older C i v t HC Ei) as [Hno E1]. split; [done|]. eapply Hout; [done|by left].
Qed.
End Last.

(** [compress_impl], and what the table is for any sessions that fit the lists *)
Lemma compress_repr loc P B A Cs s TB Ts bound top session stack : repr loc P (B :: Cs) s ->
  chain (live_of P) (_next_id s) bound (B :: Cs) (TB :: Ts) -> good value_id secondary TB.1 ->
  _undo_stack s = top :: stack -> old_next_id session = c_next A -> ctime session = c_time A ->
  exists ns P' xs ys ks olds' rems', NoDup xs.*1 /\ c_olds B = list_to_map xs /\ NoDup ys.*1 /\ c_rem B = list_to_map ys /\
    Forall2 (is_old loc) ks (filter (stays (c_time A) P) xs) /\ segments loc Cs stack olds' rems' /\
    old_values_end top = old_address <$> head olds' /\ removed_values_end top = head rems' /\ old_next_id top = c_next B /\ ctime top = c_time B /\
    let rs := (fun x : Z * (value * Z) => loc x.1) <$> (squash_value B A <$> filter (fun x => x.1 < c_next A) ys) in
    let s' stack next rev mono := UndoIndex ns (next_address s) (_indices s) stack (ks ++ olds') (rs ++ rems') next rev mono in
    compress_impl value_id s top session = Ok (s' (_undo_stack s) (_next_id s) (_revision s) (_monotonic_revision s)) /\ live_of P' = live_of P /\
    forall Cs' stack' next rev mono, segments loc Cs' stack' (ks ++ olds') (rs ++ rems') ->
      (forall C i x, C ∈ Cs' -> c_rem C !! i = Some x -> compressed_rem B A !! i = Some x \/ exists C', C' ∈ Cs /\ c_rem C' !! i = Some x) ->
      repr loc P' Cs' (s' stack' next rev mono).
Proof.
  intros Hr Hc Hgood Hst HniA HctA. pose proof Hr as []. rewrite Hst in rp_segments.
  destruct rp_segments as (os & olds' & rs & rems' & Eo & Er & Hm1 & Hm2 & Hni & Hct & (xs & Hxs & Hox & Hos) & (ys & Hys & Hry & Hrs) & Hseg).
  destruct (compress_olds (c_time A) loc P (nodes s) [] os xs rp_nodes Hos) as (ns & ks & E & Hsub & Hks & Hloc & Hflags & Hlive).
  { by eapply squash_olds_ok. }
  pose proof (squash_nodes loc P B A Cs s Hr xs Hxs Hox ns Hloc Hflags Hlive) as Hr1. set (P1 := foldl (overwrite (c_time A)) P xs) in *.
  set (is_new := fun p => match ns !! p with Some n => c_next A <=? value_id (_item n) | None => false end = true).
  assert (Hnew : forall x, x ∈ ys -> is_new (loc x.1) <-> c_next A <= x.1).
  { intros [i [w u]] Hin. cbn. apply (elem_of_list_to_map_1 (M := gmap Z)) in Hin; [|done]. rewrite <- Hry in Hin.
    destruct (squash_P1_removed loc P B A Cs s Hr xs Hxs Hox i w u Hin) as [_ E1]. destruct (Hloc _ _ E1) as [E2 E3].
    unfold is_new. rewrite E2, E3. apply Z.leb_le. }
  pose proof (squash_removed_list loc B A ys is_new Hnew) as Hkept. rewrite <- Hrs in Hkept.
  rewrite Er in rp_rem_nodup. pose proof rp_rem_nodup as (Hndr & Hdisj & _)%NoDup_app.
  exists (foldl (fun ns p => delete p ns) ns (filter is_new rs)), (without P1 loc (filter is_new rs)), xs, ys, ks, olds', rems'. cbv zeta. rewrite <- Hkept.
  assert (Hdispose : forall Cs' stack' next rev mono, segments loc Cs' stack' (ks ++ olds') (filter (fun p => ~ is_new p) rs ++ rems') ->
      (forall C i x, C ∈ Cs' -> c_rem C !! i = Some x -> compressed_rem B A !! i = Some x \/ exists C', C' ∈ Cs /\ c_rem C' !! i = Some x) ->
      repr loc (without P1 loc (filter is_new rs)) Cs' (UndoIndex (foldl (fun ns p => delete p ns) ns (filter is_new rs)) (next_address s) (_indices s) stack'
        (ks ++ olds') (filter (fun p => ~ is_new p) rs ++ rems') next rev mono)).
  { intros Cs' stack' next rev mono Hseg' Hrem.
    apply (dispose_repr loc P1 [] Cs' _ stack' (ks ++ olds') (filter (fun p => ~ is_new p) rs ++ rems') (filter is_new rs) next rev mono Hr1); cbn [_old_values _removed_values].
    - intros p [_ Hp]%list_elem_of_filter. rewrite Er. apply elem_of_app. by left.
    - rewrite Eo. by apply sublist_app.
    - rewrite Er. apply sublist_app; [|done]. apply sublist_filter.
    - intros p [[Hn _]%list_elem_of_filter|Hp]%elem_of_app [Hn' Hin]%list_elem_of_filter; [done|]. by apply (Hdisj p).
    - done.
    - intros C i v t HC Ei. apply (compress_kept loc P B A Cs s TB Ts bound Hr Hc xs ys Hxs Hox Hys Hry rs is_new ns i (v, t) Hrs Hnew Hloc). by apply (Hrem C). }
  split_and!; try done.
  - unfold compress_impl. rewrite HctA, HniA, Hm1, Eo, (split_end_head old_address os olds') by (by rewrite <- Eo). cbn [mbind result_bind].
    cbn [fst snd]. rewrite E. cbn. rewrite Hm2, Er, <- (option_fmap_id (head rems')), (split_end_head id rs rems') by (by rewrite list_fmap_id). reflexivity.
  - etransitivity; [eapply without_live; [exact Hloc|]|by apply (squash_live P B A)]. intros p [_ Hp]%list_elem_of_filter.
    rewrite Forall_forall in rp_rem_flag. destruct (rp_rem_flag p) as (n & En & Hf); [rewrite Er; apply elem_of_app; by left|].
    specialize (Hflags p). rewrite En in Hflags. cbn in Hflags. destruct (ns !! p) as [m|]; [|done]. exists m. split; [done|]. cbn in Hflags. congruence.
Qed.

Lemma squash_repr loc P B A Cs s TB TA Ts bound : repr loc P (B :: A :: Cs) s ->
  chain (live_of P) (_next_id s) bound (B :: A :: Cs) (TB :: TA :: Ts) -> good value_id secondary TB.1 ->
  exists s' P', squash value_id s = Ok s' /\ repr loc P' (squashed B A :: Cs) s' /\ live_of P' = live_of P /\
    _next_id s' = _next_id s /\ _revision s' = wrap64 (_revision s - 1) /\ _monotonic_revision s' = _monotonic_revision s.
Proof.
  intros Hr Hc Hgood. pose proof Hr as []. destruct (_undo_stack s) as [|top [|session stack]] eqn:Hst; [done| |].
  { by destruct rp_segments as (os & olds' & rs & rems' & ? & ? & ? & ? & ? & ? & ? & ? & []). }
  assert (HA : old_next_id session = c_next A /\ ctime session = c_time A).
  { by destruct rp_segments as (? & ? & ? & ? & _ & _ & _ & _ & _ & _ & _ & _ & ? & ? & ? & ? & _ & _ & _ & _ & ? & ? & _). }
  destruct HA as [HniA HctA]. destruct (compress_repr loc P B A (A :: Cs) s TB (TA :: Ts) bound top session (session :: stack) Hr Hc Hgood Hst HniA HctA)
    as (ns & P' & xs & ys & ks & olds' & rems' & Hxs & Hox & Hys & Hry & Hks & Hseg & _ & _ & _ & _ & Hcomp & Hlive & Hrepr).
  exists (squash_fast (UndoIndex ns (next_address s) (_indices s) (_undo_stack s) (ks ++ olds')
    (((fun x : Z * (value * Z) => loc x.1) <$> (squash_value B A <$> filter (fun x => x.1 < c_next A) ys)) ++ rems') (_next_id s) (_revision s) (_monotonic_revision s))), P'.
  split; [unfold squash; rewrite Hst, Hcomp, Hst; reflexivity|]. unfold squash_fast. cbn. rewrite Hst. split; [|by split_and!]. apply Hrepr.
  - by apply (squash_segments loc P B A (A :: Cs) s TB (TA :: Ts) bound Hr Hc xs ys Hxs Hox Hys Hry Cs).
  - intros C i x [->|HC]%elem_of_cons Ei; [|right; exists C; split; [by right|done]]. cbn in Ei. rewrite union_lookup_cases in Ei.
    destruct (compressed_rem B A !! i) eqn:Eb; [by left|]. right. exists A. split; [by left|done].
Qed.

(** [compress_last_undo_session] *)
Lemma compress_last_repr loc P B Cs s TB Ts bound : repr loc P (B :: Cs) s ->
  chain (live_of P) (_next_id s) bound (B :: Cs) (TB :: Ts) -> good value_id secondary TB.1 ->
  exists s' P', compress_last_undo_session value_id s = Ok s' /\ repr loc P' (compressed B :: Cs) s' /\ live_of P' = live_of P /\ same_rest s s' /\ _undo_stack s' = _undo_stack s.
Proof.
  intros Hr Hc Hgood. pose proof (rp_segments _ _ _ _ _ _ Hr) as Hseg0. unfold compress_last_undo_session. destruct (_undo_stack s) as [|top stack] eqn:Hst; [done|].
  assert (HB : old_next_id top = c_next B /\ ctime top = c_time B) by (by destruct Hseg0 as (? & ? & ? & ? & _ & _ & _ & _ & ? & ? & _)). destruct HB as [Hni Hct].
  destruct (compress_repr loc P B B Cs s TB Ts bound top top stack Hr Hc Hgood Hst Hni Hct)
    as (ns & P' & xs & ys & ks & olds' & rems' & Hxs & Hox & Hys & Hry & Hks & Hseg & Hm1 & Hm2 & _ & _ & Hcomp & Hlive & Hrepr).
  eexists _, P'. split; [exact Hcomp|]. split; [|done]. rewrite Hst. apply Hrepr.
  - by apply (compress_segments loc P B B Cs s TB Ts bound Hr Hc xs ys Hxs Hox Hys Hry).
  - intros C i x [->|HC]%elem_of_cons Ei; [by left|]. right. by exists C.
Qed.
End Squash.
