(* ===== verification/UndoTable.v ===== *)
(** * A table is its contents with a stack of copies

    No code of its own: whatever is done with an [undo_index], it behaves as a map
    of objects with a stack of whole copies of the map, which undoing a session
    goes back to; no pointer dangles and no assertion fails.  A modification that
    leaves an object in conflict when a copy of it was made first is left out: see
    [UndoTable.modify_conflict_forgets]. *)

From stdpp Require Import sorting.
From S2P Require Import Prelude UndoIndex UndoOrder UndoHistory UndoRepr UndoSteps UndoRestore UndoSquash.
Open Scope Z_scope.

Section Table.
Context {value : Type} (value_id : value -> Z) (secondary : list (@order value)) (Hsw : Forall strict_weak secondary).

(** ** The abstract table *)

Record table : Type := Table {
  contents : gmap Z value;
  table_next : Z;
  table_revision : Z;
  copies : list (gmap Z value * Z)
}.

Inductive op : Type :=
| Emplace (constructor : Z -> result value)
| Modify (id : Z) (modifier : value -> value * option exn)
| Remove (id : Z)
| StartSession
| Undo
| Squash
| Commit (revision : Z)
| SetRevision (revision : Z).

Definition with_contents (t : table) (m : gmap Z value) : table := Table m (table_next t) (table_revision t) (copies t).

Definition table_op (t : table) (o : op) : table * result unit :=
  match o with
  | Emplace constructor =>
      match constructor (table_next t) with
      | Throw e => (t, Throw e)
      | Ok v => if fits secondary (table_next t) v (contents t)
                then (Table (<[table_next t := v]> (contents t)) (table_next t + 1) (table_revision t) (copies t), Ok tt)
                else (t, Throw std_logic_error)
      end
  | Modify id modifier =>
      match contents t !! id with
      | None => (t, Throw std_out_of_range)
      | Some v =>
          let m := modifier v in
          if fits secondary id m.1 (contents t) then (with_contents t (<[id := m.1]> (contents t)), match m.2 with Some e => Throw e | None => Ok tt end)
          else (with_contents t (delete id (contents t)), Throw (default std_logic_error m.2))
      end
  | Remove id => match contents t !! id with None => (t, Throw std_out_of_range) | Some _ => (with_contents t (delete id (contents t)), Ok tt) end
  | StartSession => (Table (contents t) (table_next t) (wrap64 (table_revision t + 1)) ((contents t, table_next t) :: copies t), Ok tt)
  | Undo => match copies t with [] => (t, Ok tt) | T :: cs => (Table T.1 T.2 (wrap64 (table_revision t - 1)) cs, Ok tt) end
  | Squash => match copies t with [] => (t, Ok tt) | _ :: cs => (Table (contents t) (table_next t) (wrap64 (table_revision t - 1)) cs, Ok tt) end
  | Commit revision =>
      (Table (contents t) (table_next t) (table_revision t) (take (kept_sessions (table_revision t) revision (length (copies t))) (copies t)), Ok tt)
  | SetRevision revision =>
      if (length (copies t) =? 0)%nat && (table_revision t <=? revision) then (Table (contents t) (table_next t) revision (copies t), Ok tt)
      else (t, Throw std_logic_error)
  end.

(** The same operations of the table.  The outer exception is a dangling pointer
    or a failed assertion. *)
Definition or_throws {A} (s : undo_index value) (r : result A) (f : A -> result (undo_index value * result unit)) : result (undo_index value * result unit) :=
  match r with Ok a => f a | Throw assert_failed => Throw assert_failed | Throw e => Ok (s, Throw e) end.

Definition index_op (s : undo_index value) (o : op) : result (undo_index value * result unit) :=
  match o with
  | Emplace constructor => let r := emplace secondary s constructor in Ok (r.1, p ← r.2; Ok tt)
  | Modify id modifier => or_throws s (get value_id s id) (fun p => modify value_id secondary s p modifier)
  | Remove id => or_throws s (remove_object value_id s id) (fun s' => Ok (s', Ok tt))
  | StartSession => Ok (add_session s, Ok tt)
  | Undo => s' ← undo value_id secondary s; Ok (s', Ok tt)
  | Squash => s' ← squash value_id s; Ok (s', Ok tt)
  | Commit revision => s' ← commit s revision; Ok (s', Ok tt)
  | SetRevision revision => or_throws s (set_revision s revision) (fun s' => Ok (s', Ok tt))
  end.

(** What callers keep to: a constructor and a modifier leave the id alone, and a
    modification leads to a conflict only for an object that the session has made. *)
Definition op_ok (t : table) (o : op) : bool :=
  match o with
  | Emplace constructor => match constructor (table_next t) with Ok v => value_id v =? table_next t | Throw _ => true end
  | Modify id modifier =>
      match contents t !! id with
      | Some v => (value_id (modifier v).1 =? id) &&
          (fits secondary id (modifier v).1 (contents t) || match copies t with [] => true | T :: _ => T.2 <=? id end)
      | None => true
      end
  | _ => true
  end.

Fixpoint table_run (t : table) (os : list op) : table * list (result unit) :=
  match os with
  | [] => (t, [])
  | o :: os => let r := table_op t o in let rest := table_run r.1 os in (rest.1, r.2 :: rest.2)
  end.

Fixpoint index_run (s : undo_index value) (os : list op) : result (undo_index value * list (result unit)) :=
  match os with
  | [] => Ok (s, [])
  | o :: os => r ← index_op s o; rest ← index_run r.1 os; Ok (rest.1, r.2 :: rest.2)
  end.

Fixpoint run_ok (t : table) (os : list op) : bool :=
  match os with [] => true | o :: os => op_ok t o && run_ok (table_op t o).1 os end.

Definition empty_table : table := Table ∅ 0 0 [].

(** ** Refinement *)

Definition refines (s : undo_index value) (t : table) : Prop :=
  exists loc P Cs, repr value_id secondary loc P Cs s /\ chain (live_of P) (_next_id s) (_monotonic_revision s) Cs (copies t) /\
    contents t = contents_of P /\ table_next t = _next_id s /\ table_revision t = _revision s /\ 0 <= _monotonic_revision s /\
    Forall (fun T => good value_id secondary T.1) (copies t).

Lemma refines_empty : refines (empty_undo_index (S (length secondary))) empty_table.
Proof.
  assert (Hix : Forall (index_of (value:=value) (fun i => i) ∅) (replicate (length secondary) [])).
  { apply Forall_replicate. split; [constructor|]. intros p. split; [by intros ?%elem_of_nil|]. by intros (i & n & E & _). }
  exists (fun i => i), ∅, []. split_and!; try done; cbn.
  split; cbn; try done; try constructor.
  - by intros p [? ?].
  - split; [constructor|]. intros p. split; [by intros ?%elem_of_nil|]. by intros (i & n & E & _).
  - done.
  - constructor.
  - clear Hix Hsw. induction secondary as [|lt lts IH]; cbn; constructor; [constructor|done].
  - by intros C id v t ?%elem_of_nil.
Qed.

(** [find] and [get] *)
Lemma find_spec loc P Cs s id : repr value_id secondary loc P Cs s ->
  find value_id s id = (fun _ => loc id) <$> contents_of P !! id.
Proof.
  intros Hr. destruct (repr_indices _ _ _ _ _ _ Hr) as (l & ls & Hix & [Hnd Hmem] & _). unfold find, head_index. rewrite Hix. cbn [head]. change (default [] (Some l)) with l.
  assert (Hkey : forall i n, P !! i = Some n -> (match item_at s (loc i) with Some v => value_id v =? id | None => false end = true) <-> i = id).
  { intros i n E. destruct (rp_nodes _ _ _ _ _ _ Hr _ _ E) as [E1 E2]. unfold item_at. rewrite E1. cbn. rewrite E2. apply Z.eqb_eq. }
  match goal with |- context [@list_find _ ?Q ?D l] => destruct (@list_find _ Q D l) as [[k p]|] eqn:Ef end; cbn.
  - apply list_find_Some in Ef as (Hp & Hid & _). apply list_elem_of_lookup_2 in Hp. apply Hmem in Hp as (i & [v t e] & E & Hf & ->). cbn in Hf. subst e.
    apply (Hkey _ _ E) in Hid as ->. by rewrite (proj2 (contents_of_Some P id v)) by by eexists.
  - apply list_find_None in Ef. destruct (contents_of P !! id) as [v|] eqn:Ec; [|done]. apply contents_of_Some in Ec as [t E].
    rewrite Forall_forall in Ef. destruct (Ef (loc id)); [by apply Hmem; exists id, (Node v t false)|]. by apply (Hkey _ _ E).
Qed.

Lemma refines_objects s t : refines s t -> forall id, (find value_id s id ≫= item_at s) = contents t !! id.
Proof.
  intros (loc & P & Cs & Hr & _ & Hcon & _) id. rewrite (find_spec _ _ _ _ _ Hr), Hcon. destruct (contents_of P !! id) as [v|] eqn:E; [|done]. cbn.
  apply contents_of_Some in E as [u E]. unfold item_at. by rewrite (proj1 (rp_nodes _ _ _ _ _ _ Hr _ _ E)).
Qed.

Lemma refines_intro loc P Cs s t : repr value_id secondary loc P Cs s -> chain (live_of P) (_next_id s) (_monotonic_revision s) Cs (copies t) ->
  contents t = contents_of P -> table_next t = _next_id s -> table_revision t = _revision s -> 0 <= _monotonic_revision s ->
  Forall (fun T => good value_id secondary T.1) (copies t) -> refines s t.
Proof. intros. by exists loc, P, Cs. Qed.

(** Every step does what the abstract table does. *)
Definition step_ok (t : table) (o : op) (s : undo_index value) (times : Z) : Prop :=
  exists s', index_op s o = Ok (s', (table_op t o).2) /\ refines s' (table_op t o).1 /\ _monotonic_revision s' <= _monotonic_revision s + times.

Lemma step_emplace s t c : refines s t -> op_ok t (Emplace c) = true -> step_ok t (Emplace c) s 0.
Proof.
  intros (loc & P & Cs & Hr & Hc & Hcon & Hnext & Hrev & Hm & Hg) Hok. unfold step_ok. cbn in *. rewrite Hnext in *. rewrite Hcon.
  destruct (c (_next_id s)) as [v|e] eqn:Ec.
  - apply Z.eqb_eq in Hok. destruct (fits secondary (_next_id s) v (contents_of P)) eqn:Ef.
    + destruct (emplace_succeeds value_id secondary Hsw _ _ _ _ _ _ _ _ Hr Hc Ec Hok Ef) as (s' & E & Hr' & Hn' & Hv' & Hm'). rewrite E.
      eexists. split; [reflexivity|]. split; [|cbn; lia]. eapply refines_intro; [exact Hr'|..]; cbn; rewrite ?Hn', ?Hv', ?Hm', ?live_of_insert; try done.
      * apply chain_emplace; [done| |done]. pose proof (segments_length _ _ _ _ _ (rp_segments _ _ _ _ _ _ Hr)) as Hlen. by destruct (_undo_stack s), Cs.
      * unfold contents_of. rewrite live_of_insert. cbn. by rewrite fmap_insert.
    + destruct (emplace_fails value_id secondary Hsw _ _ _ _ _ _ _ _ Hr Hc Ec Hok Ef) as (s' & E & Hr' & Hn' & Hv' & Hm'). rewrite E.
      eexists. split; [reflexivity|]. split; [|cbn; lia]. apply (refines_intro loc P Cs); cbn; rewrite ?Hn', ?Hv', ?Hm'; done.
  - exists s. unfold emplace. rewrite Ec. split; [done|]. split; [|lia]. by exists loc, P, Cs.
Qed.

Lemma step_remove s t id : refines s t -> step_ok t (Remove id) s 0.
Proof.
  intros (loc & P & Cs & Hr & Hc & Hcon & Hnext & Hrev & Hm & Hg). unfold step_ok. cbn. unfold remove_object, get. rewrite (find_spec _ _ _ _ _ Hr), Hcon.
  destruct (contents_of P !! id) as [v|] eqn:E; cbn; [|exists s; split; [done|]; split; [by exists loc, P, Cs|lia]].
  apply contents_of_Some in E as [u E]. pose proof (rp_segments _ _ _ _ _ _ Hr) as Hseg.
  assert (Hdest : match _undo_stack s with [] => True | x :: _ => old_next_id x <= id end ->
    exists s', or_throws s (remove value_id s (loc id)) (fun s' => Ok (s', Ok tt)) = Ok (s', Ok tt) /\ refines s' (with_contents t (delete id (contents_of P))) /\
      _monotonic_revision s' <= _monotonic_revision s + 0).
  { intros Hnew. destruct (remove_destroys value_id secondary _ _ _ _ _ _ _ Hr E Hnew) as (s' & Es & Hr' & Hn' & Hv' & Hm'). rewrite Es. exists s'. split; [done|].
    split; [|lia]. eapply refines_intro; [exact Hr'|..]; cbn; rewrite ?Hn', ?Hv', ?Hm', ?live_of_delete; try done.
    - apply chain_remove_new; [done|]. destruct Cs as [|C Cs], (_undo_stack s) as [|x stack]; try done.
      destruct Hseg as (? & ? & ? & ? & _ & _ & _ & _ & Hni & _). by rewrite <- Hni.
    - cbn. unfold contents_of. by rewrite live_of_delete, fmap_delete. }
  destruct (_undo_stack s) as [|x stack] eqn:Hst; [by apply Hdest|]. destruct (Z.le_gt_cases (old_next_id x) id) as [Hle|Hgt]; [by apply Hdest|].
  destruct Cs as [|C Cs]; [done|]. destruct (copies t) as [|T Ts] eqn:Ht; [done|]. pose proof Hc as (Hl & _).
  assert (Hno : c_rem C !! id = None).
  { destruct (c_rem C !! id) as [y|] eqn:Er; [|done]. destruct (lv_rem _ _ _ _ Hl id (ex_intro _ _ Er)) as [_ Hno].
    apply live_of_Some in E. congruence. }
  destruct (remove_keeps value_id secondary _ _ _ _ _ _ _ Hr E C Cs x stack eq_refl Hst Hgt Hno) as (s' & Es & Hr' & Hn' & Hv' & Hm'). rewrite Es. exists s'. split; [done|].
  split; [|lia]. eapply refines_intro; [exact Hr'|..]; cbn; rewrite ?Hn', ?Hv', ?Hm', ?live_of_insert, ?Ht; try done.
  - apply chain_remove_old; [done|by apply live_of_Some|]. destruct Hseg as (? & ? & ? & ? & _ & _ & _ & _ & Hni & _). by rewrite <- Hni.
  - unfold contents_of. rewrite live_of_insert. cbn. by rewrite fmap_delete.
Qed.

(** The last session, in the code and in the history *)
Lemma top_session loc P Cs s bound Ts : repr value_id secondary loc P Cs s -> chain (live_of P) (_next_id s) bound Cs Ts ->
  match _undo_stack s with
  | [] => Cs = [] /\ Ts = []
  | x :: stack => exists C Cs' T Ts', Cs = C :: Cs' /\ Ts = T :: Ts' /\ ctime x = c_time C /\ old_next_id x = c_next C /\ T.2 = c_next C
  end.
Proof.
  intros Hr Hc. pose proof (rp_segments _ _ _ _ _ _ Hr) as Hseg. destruct (_undo_stack s) as [|x stack], Cs as [|C Cs]; try done.
  - by destruct Ts.
  - destruct Ts as [|T Ts]; [done|]. destruct Hseg as (? & ? & ? & ? & _ & _ & _ & _ & Hni & Hct & _). destruct Hc as (_ & HT & _).
    exists C, Cs, T, Ts. rewrite HT. by split_and!.
Qed.

Lemma contents_of_rewrite (P : gmap Z (@node value)) id v t : contents_of (<[id := Node v t false]> P) = <[id := v]> (contents_of P).
Proof. unfold contents_of. rewrite live_of_insert. cbn. by rewrite fmap_insert. Qed.

Lemma step_modify s t id modifier : refines s t -> op_ok t (Modify id modifier) = true -> step_ok t (Modify id modifier) s 0.
Proof.
  intros (loc & P & Cs & Hr & Hc & Hcon & Hnext & Hrev & Hm & Hg). unfold step_ok. cbn. unfold get. rewrite (find_spec _ _ _ _ _ Hr), Hcon.
  destruct (contents_of P !! id) as [v|] eqn:E; cbn; [|intros _; exists s; split; [done|]; split; [by exists loc, P, Cs|lia]].
  intros [Hid%Z.eqb_eq Hor%orb_true_iff]%andb_true_iff. apply contents_of_Some in E as [u E].
  assert (El : live_of P !! id = Some (v, u)) by by apply live_of_Some. pose proof (top_session _ _ _ _ _ _ Hr Hc) as Htop.
  pose proof (on_modify_cases loc s id v u) as Hon. unfold needs_copy in Hon.
  destruct (fits secondary id (modifier v).1 (contents_of P)) eqn:Ef.
  - destruct (match _undo_stack s with [] => false | x :: _ => negb (ctime x <=? u) end) eqn:Ecopy.
    + destruct (_undo_stack s) as [|x stack] eqn:Hst; [done|]. destruct Htop as (C & Cs' & T & Ts & -> & Ht & Hct & _). rewrite Ht in Hc, Hg.
      apply negb_true_iff, Z.leb_gt in Ecopy. rewrite Hct in Ecopy. pose proof Hc as (Hl & _). destruct (live_mtime _ _ _ _ _ _ _ Hl El) as [_ Hiff].
      assert (Hno : c_olds C !! id = None).
      { destruct (c_olds C !! id) as [y|] eqn:Eo; [|done]. assert (c_time C <= u) by (apply Hiff; right; by eexists). lia. }
      pose proof (log_repr value_id secondary _ _ _ _ _ _ _ Hr E C Cs' x stack eq_refl Hst Hno) as Hr1.
      destruct (modify_writes value_id secondary Hsw loc P _ _ _ s _ id v u (_monotonic_revision s) _ modifier Hr E Hon Hr1) as (s' & Es & Hr' & Hn' & Hv' & Hm');
        [by rewrite lookup_insert_eq|done|by rewrite contents_of_rewrite, fits_insert|].
      rewrite Es. exists s'. split; [done|]. cbn in Hn', Hv', Hm'. rewrite insert_insert_eq in Hr'. split; [|lia].
      eapply refines_intro; [exact Hr'|..]; cbn; rewrite ?Hn', ?Hv', ?Hm', ?contents_of_rewrite, ?Ht; try done.
      rewrite live_of_insert. cbn. by apply chain_modify_logged.
    + destruct (modify_writes value_id secondary Hsw loc P Cs P Cs s s id v u u None modifier Hr E Hon Hr E Hid Ef) as (s' & Es & Hr' & Hn' & Hv' & Hm').
      rewrite Es. exists s'. split; [done|]. split; [|lia].
      eapply refines_intro; [exact Hr'|..]; cbn; rewrite ?Hn', ?Hv', ?Hm', ?contents_of_rewrite; try done.
      rewrite live_of_insert. cbn. eapply chain_modify_plain; [done|done|]. destruct (_undo_stack s) as [|x stack]; [by destruct Htop as [-> _]|].
      destruct Htop as (C & Cs' & T & Ts & -> & _ & <- & _). by apply negb_false_iff, Z.leb_le in Ecopy.
  - destruct Hor as [?|Hnew]; [congruence|].
    assert (Hnew' : match copies t with [] => True | T :: _ => T.2 <= id end) by (destruct (copies t); [done|by apply Z.leb_le]). clear Hnew. rename Hnew' into Hnew.
    assert (Hcond : needs_copy s u = false /\ match _undo_stack s with [] => True | x :: _ => old_next_id x <= id end).
    { unfold needs_copy. destruct (_undo_stack s) as [|x stack]; [done|]. destruct Htop as (C & Cs' & T & Ts & -> & Ht & Hct & Hni & HT).
      rewrite Ht in Hnew, Hc. rewrite Hni, Hct. split; [|lia]. pose proof Hc as (Hl & _). destruct (live_mtime _ _ _ _ _ _ _ Hl El) as [_ Hiff].
      apply negb_false_iff, Z.leb_le, Hiff. left. lia. }
    destruct Hcond as [Hcopy Hold].
    destruct (modify_erases value_id secondary Hsw _ _ _ _ _ _ _ Hr E modifier Hid Hcopy Ef Hold) as (s' & Es & Hr' & Hn' & Hv' & Hm').
    rewrite Es. exists s'. split; [done|]. split; [|lia].
    eapply refines_intro; [exact Hr'|..]; cbn; rewrite ?Hn', ?Hv', ?Hm', ?live_of_delete; try done.
    + apply chain_remove_new; [done|]. destruct (_undo_stack s) as [|x stack]; [by destruct Htop as [-> _]|].
      destruct Htop as (C & Cs' & T & Ts & -> & _ & _ & Hni & _). by rewrite <- Hni.
    + unfold contents_of. by rewrite live_of_delete, fmap_delete.
Qed.

Lemma step_start s t : refines s t -> _monotonic_revision s + 1 < 2 ^ 64 -> step_ok t StartSession s 1.
Proof.
  intros (loc & P & Cs & Hr & Hc & Hcon & Hnext & Hrev & Hm & Hg) Hb. assert (Hw : wrap64 (_monotonic_revision s + 1) = _monotonic_revision s + 1).
  { unfold wrap64. apply Z.mod_small. lia. }
  exists (add_session s). split; [done|]. split; [|cbn; rewrite Hw; lia]. pose proof Hr as [].
  apply (refines_intro loc P (Chunk (_monotonic_revision s + 1) (_next_id s) ∅ ∅ :: Cs)); cbn; rewrite ?Hw; try congruence; try lia.
  - split; cbn; try done; [by rewrite Hw; apply segments_start|]. intros C id v u [->|HC]%elem_of_cons E; [done|by eapply rp_rem].
  - rewrite Hcon, Hnext. by apply chain_start.
  - constructor; [|done]. cbn. rewrite Hcon. by eapply ordered_good.
Qed.

Lemma step_undo s t : refines s t -> step_ok t Undo s 0.
Proof.
  intros (loc & P & Cs & Hr & Hc & Hcon & Hnext & Hrev & Hm & Hg). pose proof (top_session _ _ _ _ _ _ Hr Hc) as Htop. unfold step_ok. cbn.
  destruct (_undo_stack s) as [|x stack] eqn:Hst.
  - destruct Htop as [-> Ht]. rewrite Ht. exists s. unfold undo. rewrite Hst. split; [done|]. split; [|lia]. by exists loc, P, [].
  - destruct Htop as (C & Cs' & T & Ts & -> & Ht & _). rewrite Ht in Hc, Hg |- *. apply Forall_cons in Hg as [HgT Hg].
    destruct (undo_repr value_id secondary Hsw _ _ _ _ _ _ _ _ Hr Hc HgT) as (s' & P' & Es & Hr' & Hlive & Hn' & Hv' & Hm'). rewrite Es. exists s'. split; [done|].
    split; [|lia]. destruct (chain_undo _ _ _ _ _ _ Hc) as (T' & Ts' & [= <- <-] & HT & Hc').
    eapply refines_intro; [exact Hr'|..]; cbn; rewrite ?Hn', ?Hv', ?Hm', ?Hlive; try done; try (by rewrite HT); [|by rewrite Hrev].
    unfold contents_of. by rewrite Hlive, HT.
Qed.

Lemma step_squash s t : refines s t -> step_ok t Squash s 0.
Proof.
  intros (loc & P & Cs & Hr & Hc & Hcon & Hnext & Hrev & Hm & Hg). pose proof (top_session _ _ _ _ _ _ Hr Hc) as Htop. unfold step_ok. cbn.
  destruct (_undo_stack s) as [|x stack] eqn:Hst.
  - destruct Htop as [-> Ht]. rewrite Ht. exists s. unfold squash, squash_fast. rewrite Hst. cbn. rewrite Hst. split; [done|]. split; [|lia]. by exists loc, P, [].
  - destruct Htop as (C & Cs' & T & Ts & -> & Ht & _). rewrite Ht in Hc, Hg |- *. apply Forall_cons in Hg as [HgT Hg].
    pose proof (segments_length _ _ _ _ _ (rp_segments _ _ _ _ _ _ Hr)) as Hlen. rewrite Hst in Hlen. destruct Cs' as [|A Cs'].
    + destruct stack; [|done]. destruct Ts as [|]; [|by destruct Hc as (_ & _ & [])].
      destruct (dispose_repr value_id secondary loc P [C] [] s [] [] [] (_removed_values s) (_next_id s) (wrap64 (_revision s - 1)) (_monotonic_revision s) Hr) as [Hr' Hl];
        try done; [apply sublist_nil_l|apply sublist_nil_l|by intros ? ?%elem_of_nil|by intros ? ? ? ? ?%elem_of_nil|].
      eexists. split; [unfold squash, squash_fast; rewrite Hst; cbn; rewrite Hst; reflexivity|]. split; [|cbn; lia].
      eapply refines_intro; [exact Hr'|..]; cbn; rewrite ?Hl, ?Hrev; try done.
      * apply (chain_take _ _ _ _ _ 0 Hc).
      * unfold contents_of. by rewrite Hl.
    + destruct Ts as [|TA Ts]; [by destruct Hc as (_ & _ & [])|].
      destruct (squash_repr value_id secondary _ _ _ _ _ _ _ _ _ _ Hr Hc HgT) as (s' & P' & Es & Hr' & Hlive & Hn' & Hv' & Hm'). rewrite Es. exists s'. split; [done|].
      split; [|lia]. eapply refines_intro; [exact Hr'|..]; cbn; rewrite ?Hn', ?Hv', ?Hm', ?Hlive, ?Hrev; try done.
      * by eapply chain_squash.
      * unfold contents_of. by rewrite Hlive.
Qed.

Lemma step_commit s t revision : refines s t -> step_ok t (Commit revision) s 0.
Proof.
  intros (loc & P & Cs & Hr & Hc & Hcon & Hnext & Hrev & Hm & Hg). unfold step_ok. cbn.
  destruct (commit_repr value_id secondary _ _ _ _ revision Hr) as (s' & P' & Es & Hr' & Hlive & Hn' & Hv' & Hm'). rewrite Es. exists s'. split; [done|]. split; [|lia].
  pose proof (chain_length _ _ _ _ _ Hc) as Hlen. symmetry in Hlen.
  eapply refines_intro; [exact Hr'|..]; cbn; rewrite ?Hn', ?Hv', ?Hm', ?Hlive, ?Hrev, ?Hlen; try done.
  - by apply chain_take.
  - unfold contents_of. by rewrite Hlive.
  - by apply Forall_take.
Qed.

Lemma step_set_revision s t revision : refines s t -> step_ok t (SetRevision revision) s 0.
Proof.
  intros (loc & P & Cs & Hr & Hc & Hcon & Hnext & Hrev & Hm & Hg). pose proof (top_session _ _ _ _ _ _ Hr Hc) as Htop. unfold step_ok. cbn. unfold set_revision. rewrite Hrev.
  destruct (_undo_stack s) as [|x stack] eqn:Hst.
  - destruct Htop as [-> Ht]. rewrite Ht in *. cbn. destruct (_revision s <=? revision); cbn.
    + eexists. split; [reflexivity|]. split; [|cbn; lia]. apply (refines_intro loc P []); cbn; rewrite ?Ht; try done.
      destruct Hr. split; cbn; try done.
    + exists s. split; [done|]. split; [|lia]. exists loc, P, []. by rewrite Ht.
  - destruct Htop as (C & Cs' & T & Ts & -> & Ht & _). rewrite Ht. cbn. exists s. split; [done|]. split; [|lia]. by exists loc, P, (C :: Cs').
Qed.

Lemma step_all s t o : refines s t -> op_ok t o = true -> _monotonic_revision s + 1 < 2 ^ 64 -> step_ok t o s 1.
Proof.
  intros Hrf Hok Hb.
  assert (Hzero : step_ok t o s 0 -> step_ok t o s 1) by (intros (s' & ? & ? & ?); exists s'; split_and!; [done|done|lia]).
  destruct o; [apply Hzero, step_emplace|apply Hzero, step_modify|apply Hzero, step_remove|apply step_start|apply Hzero, step_undo|apply Hzero, step_squash|apply Hzero, step_commit|apply Hzero, step_set_revision]; done.
Qed.

Lemma run_refines os s t : refines s t -> run_ok t os = true -> _monotonic_revision s + Z.of_nat (length os) < 2 ^ 64 ->
  exists s', index_run s os = Ok (s', (table_run t os).2) /\ refines s' (table_run t os).1.
Proof.
  revert s t. induction os as [|o os IH]; intros s t Hrf; cbn [run_ok index_run table_run length]; [intros _ _; by exists s|]. intros [Hok Hoks]%andb_true_iff Hb.
  destruct (step_all s t o Hrf Hok) as (s1 & E1 & Hrf1 & Hm1); [lia|]. destruct (IH s1 _ Hrf1 Hoks) as (s2 & E2 & Hrf2); [lia|].
  exists s2. rewrite E1. cbn. rewrite E2. by split.
Qed.

(** The revision and the number of sessions *)
Lemma refines_range s t : refines s t -> _revision s = table_revision t /\ length (_undo_stack s) = length (copies t) /\ 0 <= _monotonic_revision s.
Proof.
  intros (loc & P & Cs & Hr & Hc & _ & _ & -> & Hm & _). split_and!; [done| |done]. rewrite (segments_length _ _ _ _ _ (rp_segments _ _ _ _ _ _ Hr)).
  by rewrite (chain_length _ _ _ _ _ Hc).
Qed.

Lemma refines_find s t id : refines s t -> is_Some (find value_id s id) <-> is_Some (contents t !! id).
Proof. intros (loc & P & Cs & Hr & _ & -> & _). rewrite (find_spec _ _ _ _ _ Hr). apply fmap_is_Some. Qed.

(** [undo_all] *)
Lemma undo_all_refines s t : refines s t -> exists s', undo_all value_id secondary s = Ok s' /\ refines s' (Nat.iter (length (copies t)) (fun t => (table_op t Undo).1) t) /\
  _monotonic_revision s' <= _monotonic_revision s.
Proof.
  intros Hrf. unfold undo_all. destruct (refines_range _ _ Hrf) as (_ & -> & _). generalize (length (copies t)). intros n. revert s t Hrf.
  induction n as [|n IH]; intros s t Hrf; [by exists s|]. destruct (step_undo s t Hrf) as (s1 & E & Hrf1 & Hm). cbn in E.
  destruct (undo value_id secondary s) as [s1'|] eqn:Eu; [|done]. injection E as ->. destruct (IH s1 _ Hrf1) as (s2 & E2 & Hrf2 & Hm2). exists s2.
  cbn [undo_sessions]. rewrite Eu. cbn [mbind result_bind]. split; [done|]. split; [by rewrite Nat.iter_succ_r|lia].
Qed.

(** ** What a session changed *)

(** The objects it made, the old values of the objects it changed, and the objects
    it removed, each once. *)
Record exact_delta (s : undo_index value) (now before : gmap Z value) (new : list Z) (olds : list old_node) (removed : list Z) : Prop := {
  dl_new : forall v, (exists p, p ∈ new /\ item_at s p = Some v) <-> now !! value_id v = Some v /\ before !! value_id v = None;
  dl_old : forall o, o ∈ olds -> before !! value_id (old_item o) = Some (old_item o) /\ is_Some (now !! value_id (old_item o));
  dl_changed : forall id v w, before !! id = Some v -> now !! id = Some w -> v <> w -> exists o, o ∈ olds /\ old_item o = v;
  dl_removed : forall v, (exists p, p ∈ removed /\ item_at s p = Some v) <-> before !! value_id v = Some v /\ now !! value_id v = None;
  dl_once : NoDup new /\ NoDup ((fun o => value_id (old_item o)) <$> olds) /\ NoDup removed
}.

Lemma contents_live (P : gmap Z (@node value)) id : contents_of P !! id = fst <$> live_of P !! id.
Proof. unfold contents_of. by rewrite lookup_fmap. Qed.

(** In terms of the history *)
Lemma new_in_history loc P C Cs s : repr value_id secondary loc P (C :: Cs) s -> forall bound T Ts, chain (live_of P) (_next_id s) bound (C :: Cs) (T :: Ts) ->
  let new := (split_while (is_before value_id (nodes s) (c_next C)) (head_index s)).2 in
  NoDup new /\ forall v, (exists p, p ∈ new /\ item_at s p = Some v) <-> contents_of P !! value_id v = Some v /\ T.1 !! value_id v = None.
Proof.
  intros Hr bound T Ts (Hl & -> & _) new. destruct (repr_indices _ _ _ _ _ _ Hr) as (l & ls & Hix & Hil & _ & Hsl & _).
  assert (Hhead : head_index s = l) by (unfold head_index; by rewrite Hix). unfold new. rewrite Hhead.
  destruct (new_ids_spec value_id loc P (nodes s) l (c_next C) (rp_nodes _ _ _ _ _ _ Hr) Hil Hsl) as [Hnd Hnew]. split; [done|]. intros v. cbn.
  rewrite lookup_fmap, undo_map_lookup. split.
  - intros (p & (id & [w u e] & E & Hf & -> & Hid)%Hnew & Hv). cbn in Hf. subst e. destruct (rp_nodes _ _ _ _ _ _ Hr _ _ E) as [E1 E2]. unfold item_at in Hv. rewrite E1 in Hv.
    injection Hv as ->. cbn in E2. rewrite E2, decide_False by lia. split; [|done]. apply contents_of_Some. by eexists.
  - intros [[u E]%contents_of_Some Hno]. exists (loc (value_id v)). destruct (rp_nodes _ _ _ _ _ _ Hr _ _ E) as [E1 _]. split; [|unfold item_at; by rewrite E1].
    apply Hnew. exists (value_id v), (Node v u false). split_and!; [done..|]. destruct (Z.le_gt_cases (c_next C) (value_id v)) as [|Hlt]; [done|]. exfalso.
    rewrite decide_True in Hno by done. destruct (c_olds C !! value_id v); [done|]. rewrite (lookup_union_Some_l _ _ _ (v, u)) in Hno; [done|]. by apply live_of_Some.
Qed.

Lemma olds_in_history loc (live : gmap Z (value * Z)) next bound C os T : level_ok live next bound C -> T = fst <$> undo_map live C -> good value_id secondary T ->
  olds_of loc (kept_olds C C) os ->
  NoDup ((fun o => value_id (old_item o)) <$> os) /\
  (forall o, o ∈ os -> T !! value_id (old_item o) = Some (old_item o) /\ is_Some ((fst <$> live) !! value_id (old_item o))) /\
  (forall id v w, T !! id = Some v -> (fst <$> live) !! id = Some w -> v <> w -> exists o, o ∈ os /\ old_item o = v).
Proof.
  intros Hl HT Hgood (xs & Hnd & Hm & Hos).
  assert (Hkept : forall id v t, kept_olds C C !! id = Some (v, t) -> T !! id = Some v /\ is_Some ((fst <$> live) !! id)).
  { intros id v t E. rewrite (compressed_olds _ _ _ _ id Hl) in E. destruct (c_rem C !! id) as [x|] eqn:Er; [done|].
    destruct (lv_olds _ _ _ _ Hl id v t E) as (Hid & _ & [x Hx]). rewrite union_lookup_cases, Er in Hx. rewrite HT, !lookup_fmap, undo_map_lookup, decide_True, E by done.
    split; [done|]. destruct (live !! id); [by eexists|done]. }
  assert (Hof : forall o, o ∈ os -> exists id t, kept_olds C C !! id = Some (old_item o, t) /\ value_id (old_item o) = id).
  { intros o Ho. apply list_elem_of_lookup in Ho as [k Hk]. destruct (Forall2_lookup_l _ _ _ _ _ Hos Hk) as ([id [v t]] & Hx & H1 & H2 & H3).
    apply list_elem_of_lookup_2 in Hx. apply (elem_of_list_to_map_1 (M := gmap Z)) in Hx; [|done]. rewrite <- Hm in Hx. cbn in H2. subst v.
    exists id, t. split; [done|]. by apply (proj1 Hgood), (Hkept _ _ _ Hx). }
  split_and!.
  - assert (Hids : (fun o => value_id (old_item o)) <$> os = xs.*1); [|by rewrite Hids].
    apply list_eq_Forall2, Forall2_fmap, Forall2_same_length_lookup. apply Forall2_same_length_lookup in Hos as [Hlen Hos]. split; [done|].
    intros k o [id [v t]] Ho Hx. destruct (Hos k o _ Ho Hx) as (_ & H2 & _). apply list_elem_of_lookup_2 in Hx. apply (elem_of_list_to_map_1 (M := gmap Z)) in Hx; [|done].
    rewrite <- Hm in Hx. cbn in H2 |- *. rewrite H2. by apply (proj1 Hgood), (Hkept _ _ _ Hx).
  - intros o (id & t & E & ->)%Hof. by eapply Hkept.
  - intros id v w E1 E2 Hne. rewrite HT, lookup_fmap, undo_map_lookup in E1. case_decide as Hid; [|done]. rewrite lookup_fmap in E2.
    destruct (live !! id) as [[w' u]|] eqn:El; [|done]. injection E2 as ->.
    destruct (c_rem C !! id) as [x|] eqn:Er; [by destruct (lv_rem _ _ _ _ Hl id (ex_intro _ x Er)); congruence|].
    destruct (c_olds C !! id) as [[v' t]|] eqn:Eo; [|rewrite union_lookup_cases, El in E1; cbn in E1; congruence]. injection E1 as ->.
    pose proof (compressed_olds _ _ _ _ id Hl) as Hk. rewrite Er, Eo, Hm in Hk. apply elem_of_list_to_map_2 in Hk. apply list_elem_of_lookup in Hk as [k Hk].
    destruct (Forall2_lookup_r _ _ _ _ _ Hos Hk) as (o & Ho & _ & H2 & _). exists o. split; [by eapply list_elem_of_lookup_2|done].
Qed.

Lemma rems_in_history loc P C Cs s rs bound T : repr value_id secondary loc P (compressed C :: Cs) s -> level_ok (live_of P) (_next_id s) bound C ->
  T = fst <$> undo_map (live_of P) C -> NoDup rs -> rems_of loc (compressed_rem C C) rs ->
  forall v, (exists p, p ∈ rs /\ item_at s p = Some v) <-> T !! value_id v = Some v /\ contents_of P !! value_id v = None.
Proof.
  intros Hr Hl HT Hnd (ys & Hys & Hm & ->) v. pose proof (fun id => compressed_rems _ _ _ _ id Hl) as Hrem.
  assert (Hnode : forall id w u, compressed_rem C C !! id = Some (w, u) -> item_at s (loc id) = Some w /\ value_id w = id).
  { intros id w u E. pose proof (rp_rem _ _ _ _ _ _ Hr (compressed C) id w u ltac:(by left) E) as HP.
    destruct (rp_nodes _ _ _ _ _ _ Hr _ _ HP) as [E1 E2]. unfold item_at. by rewrite E1. }
  assert (Hin : forall p, p ∈ (fun x : Z * (value * Z) => loc x.1) <$> ys <-> exists id x, compressed_rem C C !! id = Some x /\ p = loc id).
  { intros p. rewrite list_elem_of_fmap. split.
    - intros ([id x] & -> & Hx). apply (elem_of_list_to_map_1 (M := gmap Z)) in Hx; [|done]. rewrite <- Hm in Hx. by exists id, x.
    - intros (id & x & E & ->). rewrite Hm in E. apply elem_of_list_to_map_2 in E. by exists (id, x). }
  rewrite contents_live, HT, lookup_fmap, undo_map_lookup. split.
  - intros (p & (id & [w u] & E & ->)%Hin & Hv). destruct (Hnode _ _ _ E) as [E1 E2]. rewrite E1 in Hv. injection Hv as ->. rewrite Hrem, <- E2 in E.
    destruct (c_rem C !! value_id v) as [x|] eqn:Er; [|done]. destruct (lv_rem _ _ _ _ Hl _ (ex_intro _ x Er)) as [Hid Hno]. rewrite decide_True, Hno by done.
    split; [|done]. rewrite union_lookup_cases, Hno, Er. injection E as E. destruct (c_olds C !! value_id v); cbn in E |- *; by rewrite E.
  - intros [E Hno%fmap_None]. case_decide as Hid; [|done].
    assert (exists u, compressed_rem C C !! value_id v = Some (v, u)) as [u Hu].
    { rewrite Hrem. rewrite union_lookup_cases, Hno in E. destruct (c_olds C !! value_id v) as [[w u]|] eqn:Eo.
      - destruct (lv_olds _ _ _ _ Hl _ _ _ Eo) as (_ & _ & [x Hx]). rewrite union_lookup_cases, Hno in Hx. rewrite Hx. exists u. injection E as ->. done.
      - destruct (c_rem C !! value_id v) as [[w u]|]; [|done]. exists u. injection E as ->. done. }
    exists (loc (value_id v)). split; [apply Hin; by eexists _, _|]. by apply (Hnode _ _ _ Hu).
Qed.

Lemma last_session_refines s t T Ts : refines s t -> copies t = T :: Ts ->
  exists s' new olds removed, last_undo_session value_id s = Ok (s', (new, olds, removed)) /\ refines s' t /\ exact_delta s' (contents t) T.1 new olds removed.
Proof.
  intros (loc & P & Cs & Hr & Hc & Hcon & Hnext & Hrev & Hm & Hg) Ht. pose proof (top_session _ _ _ _ _ _ Hr Hc) as Htop. unfold last_undo_session.
  destruct (_undo_stack s) as [|top stack] eqn:Hst; [destruct Htop; congruence|]. destruct Htop as (C & Cs' & T' & Ts' & -> & Ht' & Hct & Hni & HT2).
  rewrite Ht in Ht'. injection Ht' as <- <-. rewrite Ht in Hc, Hg. apply Forall_cons in Hg as [HgT Hg].
  destruct (compress_last_repr value_id secondary _ _ _ _ _ _ _ _ Hr Hc HgT) as (s' & P' & Es & Hr' & Hlive & (Hn' & Hv' & Hm') & Hst').
  rewrite Es. cbn. rewrite <- Hlive in Hc. pose proof Hc as (Hl & HT & _). pose proof Hr' as [].
  rewrite Hst', Hst in rp_segments. destruct rp_segments as (os & olds' & rs & rems' & Eo & Er & Hm1 & Hm2 & _ & _ & Hos & Hrs & _).
  rewrite Hm1, Hm2, Eo, (split_end_head old_address os olds') by (by rewrite <- Eo). cbn.
  rewrite Er, <- (option_fmap_id (head rems')), (split_end_head id rs rems') by (by rewrite list_fmap_id, <- Er). cbn.
  assert (Hc' : chain (live_of P') (_next_id s') (_monotonic_revision s') (compressed C :: Cs') (T :: Ts)) by (rewrite Hn', Hm'; by apply chain_compress).
  assert (Hcon' : contents t = contents_of P') by (rewrite Hcon; unfold contents_of; by rewrite Hlive).
  eexists _, _, _, _. split; [reflexivity|]. split.
  { eapply refines_intro; [exact Hr'|by rewrite Ht|done|congruence|congruence|lia|rewrite Ht; by constructor]. }
  rewrite Hni, Hcon'. destruct (new_in_history _ _ _ _ _ Hr' _ _ _ Hc') as [Hndn Hnew]. pose proof HT as HT1. apply (f_equal fst) in HT1. cbn in HT1.
  destruct (olds_in_history loc _ _ _ C os T.1 Hl HT1 HgT Hos) as (Hndo & Ho1 & Ho2). rewrite Er in rp_rem_nodup. pose proof rp_rem_nodup as (Hndr & _ & _)%NoDup_app.
  split; [exact Hnew|exact Ho1|exact Ho2| |by split_and!]. rewrite <- Hn' in Hl. by apply (rems_in_history loc P' C Cs' s' rs _ T.1 Hr' Hl HT1 Hndr).
Qed.

(** ** What a table shows *)

(** An index has the values of the contents, each once, in its order. *)
Definition shows (s : undo_index value) (m : gmap Z value) : Prop :=
  (forall id, (find value_id s id ≫= item_at s) = m !! id) /\
  Forall2 (fun (lt : @order value) l => omap (item_at s) l ≡ₚ (map_to_list m).*2 /\ StronglySorted (fun v w => lt v w = true) (omap (item_at s) l))
    (orders value_id secondary) (_indices s).

Lemma omap_sorted s (lt : @order value) l : StronglySorted (precedes lt (nodes s)) l -> StronglySorted (fun v w => lt v w = true) (omap (item_at s) l).
Proof.
  induction 1 as [|p l Hl IH Hp]; cbn; [constructor|]. destruct (item_at s p) as [v|] eqn:E; [|done]. constructor; [done|].
  apply Forall_forall. intros w (q & Hq & Ew)%list_elem_of_omap. rewrite Forall_forall in Hp. specialize (Hp q Hq). unfold precedes, less in Hp. unfold item_at in E, Ew.
  destruct (nodes s !! p), (nodes s !! q); try done. cbn in *. congruence.
Qed.

Lemma index_values loc P Cs s l : repr value_id secondary loc P Cs s -> index_of loc P l -> omap (item_at s) l ≡ₚ (map_to_list (contents_of P)).*2.
Proof.
  intros Hr [Hnd Hmem].
  assert (Hnode : forall id v, contents_of P !! id = Some v -> item_at s (loc id) = Some v /\ is_Some (P !! id)).
  { intros id v [t E]%contents_of_Some. unfold item_at. by rewrite (proj1 (rp_nodes _ _ _ _ _ _ Hr _ _ E)). }
  assert (Hperm : l ≡ₚ (fun x => loc x.1) <$> map_to_list (contents_of P)).
  { apply NoDup_Permutation; [done| |].
    - apply NoDup_fmap_2_strong; [|apply NoDup_map_to_list]. intros [i v] [j w] Hi%elem_of_map_to_list Hj%elem_of_map_to_list Heq. cbn in Heq.
      assert (i = j) as <-; [|congruence]. apply (located_inj value_id loc P (nodes s) i j (rp_nodes _ _ _ _ _ _ Hr)); [by eapply Hnode|by eapply Hnode|done].
    - intros p. rewrite Hmem, list_elem_of_fmap. split.
      + intros (i & [v t e] & E & Hf & ->). cbn in Hf. subst e. exists (i, v). split; [done|]. apply elem_of_map_to_list, contents_of_Some. by eexists.
      + intros ([i v] & -> & Hin%elem_of_map_to_list). apply contents_of_Some in Hin as [t E]. by exists i, (Node v t false). }
  rewrite Hperm. assert (Hall : forall xs : list (Z * value), (forall i v, (i, v) ∈ xs -> item_at s (loc i) = Some v) -> omap (item_at s) ((fun x => loc x.1) <$> xs) = xs.*2).
  { induction xs as [|[i v] xs IH]; intros Hxs; cbn; [done|]. rewrite (Hxs i v) by by left. f_equal. apply IH. intros j w Hj. apply Hxs. by right. }
  rewrite Hall; [done|]. intros i v Hin%elem_of_map_to_list. by apply Hnode.
Qed.

Lemma refines_shows s t : refines s t -> shows s (contents t).
Proof.
  intros Hrf. split; [by apply refines_objects|]. destruct Hrf as (loc & P & Cs & Hr & _ & -> & _).
  pose proof (rp_indexed _ _ _ _ _ _ Hr) as Hix. rewrite Forall_forall in Hix. pose proof (rp_ordered _ _ _ _ _ _ Hr) as [Hlen Ho]%Forall2_same_length_lookup.
  apply Forall2_same_length_lookup. split; [done|]. intros i lt l Hlt Hl.
  split; [eapply index_values; [done|]; by eapply Hix, list_elem_of_lookup_2|by eapply omap_sorted, Ho].
Qed.

(** C17: over any operations of a table, sessions, squashes, undos and commits --
    fewer than 2^64, with constructors and modifiers that leave the id alone, and no
    modification that brings an object older than the running session in conflict
    with another ([run_ok]) --, every operation returns or throws what it does for a
    map with a stack of copies of itself; no pointer into the lists, and no node,
    dangles; and the primary key and every index show exactly the contents of that
    map.  The orders of the indices are strict weak orders.  (The conflict that is left out is one the code handles wrongly:
    [modify_conflict_forgets].) *)
Theorem undo_index_is_a_table os : run_ok empty_table os = true -> Z.of_nat (length os) < 2 ^ 64 ->
  exists s, index_run (empty_undo_index (S (length secondary))) os = Ok (s, (table_run empty_table os).2) /\ shows s (contents (table_run empty_table os).1).
Proof.
  intros Hok Hlen. destruct (run_refines os _ _ refines_empty Hok) as (s & E & Hrf); [cbn; lia|]. exists s. split; [done|]. by apply refines_shows.
Qed.

(** what [last_undo_session] gives of a session is exactly what it changed: the
    objects it made, an old value for every object that it changed and that is
    still there, and the objects it removed; and asking does not change the table. *)
Theorem last_undo_session_exact os T Ts : run_ok empty_table os = true -> Z.of_nat (length os) < 2 ^ 64 -> copies (table_run empty_table os).1 = T :: Ts ->
  exists s s' outs new olds removed, index_run (empty_undo_index (S (length secondary))) os = Ok (s, outs) /\
    last_undo_session value_id s = Ok (s', (new, olds, removed)) /\ shows s' (contents (table_run empty_table os).1) /\
    exact_delta s' (contents (table_run empty_table os).1) T.1 new olds removed.
Proof.
  intros Hok Hlen HT. destruct (run_refines os _ _ refines_empty Hok) as (s & E & Hrf); [cbn; lia|].
  destruct (last_session_refines _ _ _ _ Hrf HT) as (s' & new & olds & removed & E' & Hrf' & Hd). exists s, s', (table_run empty_table os).2, new, olds, removed.
  split_and!; [done|done|by apply refines_shows|done].
Qed.
End Table.

(** ** An example *)

Module Example.
(** Objects with an id and a key. *)
Definition object : Set := Z * Z.
Definition object_id (v : object) : Z := v.1.
Definition by_key : list (@order object) := [fun v w => v.2 <? w.2].
Definition create (key : Z) : @op object := Emplace (fun id => Ok (id, key)).
Definition set_key (id key : Z) : @op object := Modify id (fun v => ((v.1, key), None)).
Definition run : list op -> result (undo_index object * list (result unit)) := index_run object_id by_key (empty_undo_index 2).

Lemma by_key_strict_weak : Forall strict_weak by_key.
Proof.
  constructor; [|constructor]. split; intros *; rewrite ?Z.ltb_lt; try lia.
Defined.

(** Keys change places through a third one, an object is removed and one is made;
    a session within the session is squashed; then all is undone, and done again. *)
Definition changes : list op := [set_key 0 50; set_key 1 10; set_key 0 20; Remove 2; StartSession; create 40; set_key 3 60; set_key 1 15; Squash].
Definition history : list op := [create 10; create 20; create 30; create 10; StartSession] ++ changes ++ [Undo; StartSession] ++ changes.

End Example.
Import Example.

Theorem undo_index_is_a_table_witness :
  run_ok object_id by_key empty_table history = true /\
  exists s, run history = Ok (s, (table_run by_key empty_table history).2) /\ shows object_id by_key s (contents (table_run by_key empty_table history).1).
Proof. split; [vm_compute; reflexivity|]. apply (undo_index_is_a_table object_id by_key by_key_strict_weak history); vm_compute; reflexivity. Defined.

Theorem last_undo_session_exact_witness :
  map_to_list (contents (table_run by_key empty_table history).1) = [(3, (3, 60)); (1, (1, 15)); (0, (0, 20))] /\
  exists s s' outs new olds removed, run history = Ok (s, outs) /\ last_undo_session object_id s = Ok (s', (new, olds, removed)) /\
    shows object_id by_key s' (contents (table_run by_key empty_table history).1) /\
    exact_delta object_id s' (contents (table_run by_key empty_table history).1) (default (∅, 0) (head (copies (table_run by_key empty_table history).1))).1 new olds removed.
Proof.
  split; [vm_compute; reflexivity|].
  apply (last_undo_session_exact object_id by_key by_key_strict_weak history (default (∅, 0) (head (copies (table_run by_key empty_table history).1))) []); vm_compute; reflexivity.
Defined.

(** After a conflict the old value is back, and forgotten: the object counts as
    changed in the session, its next change is not recorded, and undoing the
    session leaves it. *)
Example modify_conflict_forgets :
  exists s, run [create 10; create 20; StartSession; set_key 0 20; set_key 0 30; Undo] = Ok (s, [Ok tt; Ok tt; Ok tt; Throw std_logic_error; Ok tt; Ok tt]) /\
    (find object_id s 0 ≫= item_at s) = Some (0, 30).
Proof. eexists. split; [vm_compute; reflexivity|vm_compute; reflexivity]. Qed.
