(* ===== verification/ChainDatabase.v ===== *)
(** * The chain database

    [libraries/chaindb/include/chainbase/chainbase.hpp], [src/chainbase.cpp]: the
    tables of a database, found by the type ids of their objects, the sessions over
    all of them, read-only mode, and the adding of tables.  The memory file is the
    map [segment] of the tables that it has, whatever is registered.  [schema] gives
    the keys of the tables; objects of all types are in one type [value]. *)

From S2P Require Import Prelude UndoIndex.
Open Scope Z_scope.

Section Database.
Context {value : Type} (schema : Z -> (value -> Z) * list (@order value)).

Record database : Type := Database {
  segment : gmap Z (undo_index value);
  _index_list : list Z;
  _read_only : bool;
  _read_only_mode : bool
}.

Definition set_segment (db : database) (tables : gmap Z (undo_index value)) : database := Database tables (_index_list db) (_read_only db) (_read_only_mode db).

(** [database(dir, flags, ...)] over a file with the tables [tables] *)
Definition open_database (tables : gmap Z (undo_index value)) (read_only : bool) : database := Database tables [] read_only read_only.

Definition new_table (type_id : Z) : undo_index value := empty_undo_index (S (length (schema type_id).2)).

(** A loop over tables *)
Definition for_each (f : Z -> undo_index value -> result (undo_index value)) (type_ids : list Z) (tables : gmap Z (undo_index value)) : result (gmap Z (undo_index value)) :=
  foldM (fun tables type_id => s ← at_or_assert (tables !! type_id); s ← f type_id s; Ok (<[type_id := s]> tables)) tables type_ids.

Definition for_each_index (db : database) (f : Z -> undo_index value -> result (undo_index value)) : result database :=
  EOS_ASSERT negb (_read_only_mode db) ,, std_logic_error ;;
  tables ← for_each f (_index_list db) (segment db); Ok (set_segment db tables).

Definition table_undo (type_id : Z) : undo_index value -> result (undo_index value) := undo (schema type_id).1 (schema type_id).2.
Definition table_squash (type_id : Z) : undo_index value -> result (undo_index value) := squash (schema type_id).1.

Definition undo (db : database) : result database := for_each_index db table_undo.
Definition squash (db : database) : result database := for_each_index db table_squash.
(** The number is signed here and unsigned in the tables. *)
Definition commit (db : database) (revision : Z) : result database := for_each_index db (fun _ s => UndoIndex.commit s (wrap64 revision)).
Definition undo_all (db : database) : result database := for_each_index db (fun type_id => UndoIndex.undo_all (schema type_id).1 (schema type_id).2).
Definition set_revision (db : database) (revision : Z) : result database := for_each_index db (fun _ s => UndoIndex.set_revision s revision).

(** A session object knows the tables that it is to squash or undo; after that, or
    after [push], it knows none. *)
Definition session : Type := list Z.

Definition start_undo_session (db : database) (enabled : bool) : result (database * session) :=
  EOS_ASSERT negb (_read_only_mode db) ,, std_logic_error ;;
  if enabled then
    tables ← for_each (fun _ s => Ok (add_session s)) (_index_list db) (segment db); Ok (set_segment db tables, _index_list db)
  else Ok (db, []).

Definition session_push (s : session) : session := [].
Definition session_squash (db : database) (s : session) : result (database * session) :=
  tables ← for_each table_squash s (segment db); Ok (set_segment db tables, []).
(** Also the destructor *)
Definition session_undo (db : database) (s : session) : result (database * session) :=
  tables ← for_each table_undo s (segment db); Ok (set_segment db tables, []).

Definition revision (db : database) : Z :=
  match _index_list db with [] => -1 | type_id :: _ => match segment db !! type_id with Some s => _revision s | None => -1 end end.

(** [while( idx_ptr->revision() < last ) idx_ptr->start_undo_session(true).push()] *)
Fixpoint open_sessions (fuel : nat) (s : undo_index value) (last : Z) : undo_index value :=
  if _revision s <? last then match fuel with O => s | S fuel => open_sessions fuel (add_session s) last end else s.

Definition add_index (db : database) (type_id : Z) : result database :=
  EOS_ASSERT negb (bool_decide (type_id ∈ _index_list db)) ,, std_logic_error ;;
  found ← (match segment db !! type_id with
           | Some s => Ok (s, false)
           | None => EOS_ASSERT negb (_read_only db) ,, std_runtime_error ;; Ok (new_table type_id, true)
           end : result (undo_index value * bool));
  s ← (match _index_list db with
       | [] => Ok found.1
       | front :: _ =>
           first ← at_or_assert (segment db !! front);
           let expected := undo_stack_revision_range first in
           let added := undo_stack_revision_range found.1 in
           if (added.1 =? expected.1) && (added.2 =? expected.2) then Ok found.1
           else
             EOS_ASSERT (found.2 : bool) ,, std_logic_error ;;
             EOS_ASSERT negb (_read_only db) ,, std_logic_error ;;
             s ← UndoIndex.set_revision found.1 expected.1;
             Ok (open_sessions (Z.to_nat (expected.2 - _revision s)) s expected.2)
       end : result (undo_index value));
  Ok (Database (<[type_id := s]> (segment db)) (_index_list db ++ [type_id]) (_read_only db) (_read_only_mode db)).

(** [get_index], [get_mutable_index] *)
Definition get_index (db : database) (type_id : Z) : result (undo_index value) :=
  ASSERT bool_decide (type_id ∈ _index_list db) ;; at_or_assert (segment db !! type_id).
Definition get_mutable_index (db : database) (type_id : Z) : result (undo_index value) :=
  EOS_ASSERT negb (_read_only_mode db) ,, std_logic_error ;; get_index db type_id.

Definition set_table (db : database) (type_id : Z) (s : undo_index value) : database := set_segment db (<[type_id := s]> (segment db)).

(** [create], [modify], [remove]: the object is known by its address.  The outer
    exception is the database's, the inner one the table's. *)
Definition create (db : database) (type_id : Z) (constructor : Z -> result value) : result (database * result Z) :=
  s ← get_mutable_index db type_id;
  let r := emplace (schema type_id).2 s constructor in Ok (set_table db type_id r.1, r.2).
Definition modify (db : database) (type_id : Z) (p : Z) (modifier : value -> value * option exn) : result (database * result unit) :=
  s ← get_mutable_index db type_id;
  r ← UndoIndex.modify (schema type_id).1 (schema type_id).2 s p modifier; Ok (set_table db type_id r.1, r.2).
Definition remove (db : database) (type_id : Z) (p : Z) : result database :=
  s ← get_mutable_index db type_id;
  s ← UndoIndex.remove (schema type_id).1 s p; Ok (set_table db type_id s).

(** [find], [get] by id *)
Definition find (db : database) (type_id : Z) (id : Z) : result (option Z) :=
  s ← get_index db type_id; Ok (UndoIndex.find (schema type_id).1 s id).
Definition get (db : database) (type_id : Z) (id : Z) : result Z :=
  p ← find db type_id id; match p with Some p => Ok p | None => Throw std_out_of_range end.

Definition set_read_only_mode (db : database) : database := Database (segment db) (_index_list db) (_read_only db) true.
Definition unset_read_only_mode (db : database) : result database :=
  EOS_ASSERT negb (_read_only db) ,, std_logic_error ;; Ok (Database (segment db) (_index_list db) (_read_only db) false).
End Database.
Arguments database : clear implicits.
