(* ===== verification/DatabaseTables.v ===== *)
(** * The tables of a database change together

    No code of its own: [ChainDatabase] refines a family of contents with one
    revision and one stack of whole copies of the family.  Sessions are started,
    squashed, undone and committed for all tables at once, tables that are added
    later or found in the file join them, and in read-only mode nothing changes. *)

From stdpp Require Import functions.
From S2P Require Import Prelude UndoIndex UndoOrder UndoHistory UndoRepr UndoSteps UndoSquash UndoTable ChainDatabase.
Open Scope Z_scope.

Section Tables.
Context {value : Type} (schema : Z -> (value -> Z) * list (@order value)) (Hsw : forall type_id, Forall strict_weak (schema type_id).2).

(** ** The abstract database *)

(** The contents of a table and its next id *)
Definition family : Type := Z -> gmap Z value * Z.
Definition nothing : gmap Z value * Z := (∅, 0).

Record database_spec : Type := DatabaseSpec {
  ds_contents : family;
  ds_revision : Z;
  ds_copies : list family;
  ds_types : list Z;
  ds_stored : list Z;
  ds_read_only : bool;
  ds_mode : bool;
  ds_sessions : list bool
}.

Definition with_family (d : database_spec) (f : family) (revision : Z) (copies : list family) : database_spec :=
  DatabaseSpec f revision copies (ds_types d) (ds_stored d) (ds_read_only d) (ds_mode d) (ds_sessions d).
Definition with_sessions (d : database_spec) (sessions : list bool) : database_spec :=
  DatabaseSpec (ds_contents d) (ds_revision d) (ds_copies d) (ds_types d) (ds_stored d) (ds_read_only d) (ds_mode d) sessions.

(** A table of it *)
Definition table_of (d : database_spec) (type_id : Z) : @table value :=
  Table (ds_contents d type_id).1 (ds_contents d type_id).2 (ds_revision d) ((fun f : family => f type_id) <$> ds_copies d).

Inductive database_op : Type :=
| Open (read_only : bool)
| AddIndex (type_id : Z)
| Create (type_id : Z) (constructor : Z -> result value)
| ModifyObject (type_id id : Z) (modifier : value -> value * option exn)
| RemoveObject (type_id id : Z)
| StartUndoSession (enabled : bool)
| SessionPush
| SessionSquash
| SessionUndo
| UndoAllTables
| SquashAllTables
| CommitAllTables (revision : Z)
| UndoEverything
| SetRevisionOfAll (revision : Z)
| SetReadOnlyMode
| UnsetReadOnlyMode.

(** Opening and closing sessions, for all tables *)
Definition start_all (d : database_spec) : database_spec :=
  with_family d (ds_contents d) (wrap64 (ds_revision d + 1)) (ds_contents d :: ds_copies d).
Definition undo_all_once (d : database_spec) : database_spec :=
  match ds_copies d with [] => d | f :: copies => with_family d f (wrap64 (ds_revision d - 1)) copies end.
Definition squash_all (d : database_spec) : database_spec :=
  match ds_copies d with [] => d | _ :: copies => with_family d (ds_contents d) (wrap64 (ds_revision d - 1)) copies end.
Definition commit_all (d : database_spec) (revision : Z) : database_spec :=
  with_family d (ds_contents d) (ds_revision d) (take (kept_sessions (ds_revision d) (wrap64 revision) (length (ds_copies d))) (ds_copies d)).
Definition undo_everything (d : database_spec) : database_spec := Nat.iter (length (ds_copies d)) undo_all_once d.

Definition when_writable (d : database_spec) (r : database_spec * result unit) : database_spec * result unit :=
  if ds_mode d then (d, Throw std_logic_error) else r.

(** An operation of one table *)
Definition on_table (d : database_spec) (type_id : Z) (o : op) : database_spec * result unit :=
  let r := table_op (schema type_id).2 (table_of d type_id) o in
  (with_family d (<[type_id := (contents r.1, table_next r.1)]> (ds_contents d)) (ds_revision d) (ds_copies d), r.2).

Definition has_object (d : database_spec) (type_id id : Z) : bool := bool_decide (is_Some ((ds_contents d type_id).1 !! id)).

Definition database_spec_op (d : database_spec) (o : database_op) : database_spec * result unit :=
  match o with
  | Open read_only => (DatabaseSpec (ds_contents d) (ds_revision d) (ds_copies d) [] (ds_stored d) read_only read_only (ds_sessions d), Ok tt)
  | AddIndex type_id =>
      if bool_decide (type_id ∈ ds_types d) then (d, Throw std_logic_error)
      else if negb (bool_decide (type_id ∈ ds_stored d)) && ds_read_only d then (d, Throw std_runtime_error)
      else (DatabaseSpec (ds_contents d) (ds_revision d) (ds_copies d) (ds_types d ++ [type_id])
              (if bool_decide (type_id ∈ ds_stored d) then ds_stored d else type_id :: ds_stored d) (ds_read_only d) (ds_mode d) (ds_sessions d), Ok tt)
  | Create type_id constructor => when_writable d (on_table d type_id (Emplace constructor))
  | ModifyObject type_id id modifier =>
      if has_object d type_id id then when_writable d (on_table d type_id (Modify id modifier)) else (d, Throw std_out_of_range)
  | RemoveObject type_id id => if has_object d type_id id then when_writable d (on_table d type_id (Remove id)) else (d, Throw std_out_of_range)
  | StartUndoSession enabled =>
      when_writable d (with_sessions (if enabled then start_all d else d) (enabled :: ds_sessions d), Ok tt)
  | SessionPush => (with_sessions d (tail (ds_sessions d)), Ok tt)
  | SessionSquash => (with_sessions (if default false (head (ds_sessions d)) then squash_all d else d) (tail (ds_sessions d)), Ok tt)
  | SessionUndo => (with_sessions (if default false (head (ds_sessions d)) then undo_all_once d else d) (tail (ds_sessions d)), Ok tt)
  | UndoAllTables => when_writable d (undo_all_once d, Ok tt)
  | SquashAllTables => when_writable d (squash_all d, Ok tt)
  | CommitAllTables revision => when_writable d (commit_all d revision, Ok tt)
  | UndoEverything => when_writable d (undo_everything d, Ok tt)
  | SetRevisionOfAll revision =>
      when_writable d (if (length (ds_copies d) =? 0)%nat && (ds_revision d <=? revision) then (with_family d (ds_contents d) revision [], Ok tt)
                       else (d, Throw std_logic_error))
  | SetReadOnlyMode => (DatabaseSpec (ds_contents d) (ds_revision d) (ds_copies d) (ds_types d) (ds_stored d) (ds_read_only d) true (ds_sessions d), Ok tt)
  | UnsetReadOnlyMode =>
      if ds_read_only d then (d, Throw std_logic_error)
      else (DatabaseSpec (ds_contents d) (ds_revision d) (ds_copies d) (ds_types d) (ds_stored d) (ds_read_only d) false (ds_sessions d), Ok tt)
  end.

(** ** The same operations of the database *)

(** The database and the session objects, the last one first *)
Definition node_state : Type := database value * list session.

Definition or_throws {A} (n : node_state) (r : result A) (f : A -> node_state * result unit) : result (node_state * result unit) :=
  match r with Ok a => Ok (f a) | Throw assert_failed => Throw assert_failed | Throw e => Ok (n, Throw e) end.

Definition with_database (n : node_state) (db : database value) : node_state * result unit := ((db, n.2), Ok tt).

Definition database_run_op (n : node_state) (o : database_op) : result (node_state * result unit) :=
  let db := n.1 in
  match o with
  | Open read_only => Ok (with_database n (open_database (segment db) read_only))
  | AddIndex type_id => or_throws n (add_index schema db type_id) (with_database n)
  | Create type_id constructor => or_throws n (create schema db type_id constructor) (fun r => ((r.1, n.2), _ ← r.2; Ok tt))
  | ModifyObject type_id id modifier =>
      or_throws n (p ← get schema db type_id id; modify schema db type_id p modifier) (fun r => ((r.1, n.2), r.2))
  | RemoveObject type_id id => or_throws n (p ← get schema db type_id id; remove schema db type_id p) (with_database n)
  | StartUndoSession enabled => or_throws n (start_undo_session db enabled) (fun r => ((r.1, r.2 :: n.2), Ok tt))
  | SessionPush => Ok ((db, tail n.2), Ok tt)
  | SessionSquash => or_throws n (session_squash schema db (default [] (head n.2))) (fun r => ((r.1, tail n.2), Ok tt))
  | SessionUndo => or_throws n (session_undo schema db (default [] (head n.2))) (fun r => ((r.1, tail n.2), Ok tt))
  | UndoAllTables => or_throws n (undo schema db) (with_database n)
  | SquashAllTables => or_throws n (squash schema db) (with_database n)
  | CommitAllTables revision => or_throws n (commit db revision) (with_database n)
  | UndoEverything => or_throws n (undo_all schema db) (with_database n)
  | SetRevisionOfAll revision => or_throws n (set_revision db revision) (with_database n)
  | SetReadOnlyMode => Ok (with_database n (set_read_only_mode db))
  | UnsetReadOnlyMode => or_throws n (unset_read_only_mode db) (with_database n)
  end.

(** What callers keep to: the tables of the file are registered before sessions are
    used, a new table is not the first of a file that has some, tables are added
    while no session object is alive, and a session object is used once. *)
Definition all_registered (d : database_spec) : bool := negb (bool_decide (ds_types d = [])) && forallb (fun type_id => bool_decide (type_id ∈ ds_types d)) (ds_stored d).

Definition database_op_ok (d : database_spec) (o : database_op) : bool :=
  match o with
  | Open _ => bool_decide (ds_sessions d = [])
  | AddIndex type_id => bool_decide (ds_sessions d = []) && (bool_decide (type_id ∈ ds_stored d) || negb (bool_decide (ds_types d = [])) || bool_decide (ds_stored d = []))
  | Create type_id constructor => bool_decide (type_id ∈ ds_types d) && op_ok (schema type_id).1 (schema type_id).2 (table_of d type_id) (Emplace constructor)
  | ModifyObject type_id id modifier => bool_decide (type_id ∈ ds_types d) && op_ok (schema type_id).1 (schema type_id).2 (table_of d type_id) (Modify id modifier)
  | RemoveObject type_id _ => bool_decide (type_id ∈ ds_types d)
  | SessionSquash | SessionUndo => all_registered d && negb (bool_decide (ds_sessions d = []))
  | StartUndoSession _ | UndoAllTables | SquashAllTables | CommitAllTables _ | UndoEverything => all_registered d
  | SetRevisionOfAll revision => all_registered d && (0 <=? revision) && (revision <? 2 ^ 63)
  | SessionPush | SetReadOnlyMode | UnsetReadOnlyMode => true
  end.

(** ** Agreement *)

Record agrees (budget : Z) (n : node_state) (d : database_spec) : Prop := {
  ag_list : _index_list n.1 = ds_types d;
  ag_read_only : _read_only n.1 = ds_read_only d;
  ag_mode : _read_only_mode n.1 = ds_mode d;
  ag_sessions : n.2 = (fun b : bool => if b then ds_types d else []) <$> ds_sessions d;
  ag_nodup : NoDup (ds_types d);
  ag_types : forall type_id, type_id ∈ ds_types d -> type_id ∈ ds_stored d;
  ag_stored : forall type_id, type_id ∈ ds_stored d <-> is_Some (segment n.1 !! type_id);
  ag_tables : forall type_id s, segment n.1 !! type_id = Some s ->
    refines (schema type_id).1 (schema type_id).2 s (table_of d type_id) /\ _monotonic_revision s + budget < 2 ^ 64;
  ag_others : forall type_id, type_id ∉ ds_stored d -> ds_contents d type_id = nothing /\ Forall (fun f : family => f type_id = nothing) (ds_copies d);
  ag_revision : Z.of_nat (length (ds_copies d)) <= ds_revision d /\ ds_revision d + budget < 2 ^ 64;
  ag_first : ds_stored d = [] -> ds_copies d = [] /\ ds_revision d = 0
}.

(** A loop over the tables *)
Lemma for_each_spec (f : Z -> undo_index value -> result (undo_index value)) (Q R : Z -> undo_index value -> Prop) tys tables :
  NoDup tys -> (forall ty, ty ∈ tys -> exists s, tables !! ty = Some s /\ Q ty s) -> (forall ty s, Q ty s -> exists s', f ty s = Ok s' /\ R ty s') ->
  exists tables', for_each f tys tables = Ok tables' /\ (forall ty, ty ∈ tys -> exists s, tables' !! ty = Some s /\ R ty s) /\
    (forall ty, ty ∉ tys -> tables' !! ty = tables !! ty).
Proof.
  intros Hnd HQ Hf. unfold for_each. revert tables HQ. induction Hnd as [|ty tys Hty Hnd IH]; intros tables HQ; cbn.
  { exists tables. split_and!; [done|by intros ? ?%elem_of_nil|done]. }
  destruct (HQ ty) as (s & E & Hs); [by left|]. rewrite E. cbn. destruct (Hf ty s Hs) as (s' & -> & Hs'). cbn.
  destruct (IH (<[ty := s']> tables)) as (tables' & -> & Hin & Hout).
  { intros ty' Hty'. destruct (HQ ty') as (s2 & E2 & Hs2); [by right|]. exists s2. rewrite lookup_insert_ne; [done|]. by intros <-. }
  exists tables'. split_and!; [done| |].
  - intros ty' [->|Hty']%elem_of_cons; [|by apply Hin]. rewrite Hout by done. exists s'. by rewrite lookup_insert_eq.
  - intros ty' [Hne Hty']%not_elem_of_cons. rewrite Hout, lookup_insert_ne; done.
Qed.

Lemma all_registered_true d : all_registered d = true -> ds_types d <> [] /\ forall ty, ty ∈ ds_stored d -> ty ∈ ds_types d.
Proof.
  unfold all_registered. intros [H1 H2]%andb_true_iff. apply negb_true_iff, bool_decide_eq_false in H1. split; [done|].
  intros ty Hty. rewrite forallb_forall in H2. specialize (H2 ty ltac:(by apply list_elem_of_In)). by apply bool_decide_eq_true in H2.
Qed.

(** An operation of all the tables *)
Lemma agrees_all (f : Z -> undo_index value -> result (undo_index value)) budget n d g revision copies :
  agrees (budget + 1) n d -> all_registered d = true ->
  (forall ty s, refines (schema ty).1 (schema ty).2 s (table_of d ty) -> _monotonic_revision s + (budget + 1) < 2 ^ 64 ->
     exists s', f ty s = Ok s' /\ refines (schema ty).1 (schema ty).2 s' (table_of (with_family d g revision copies) ty) /\ _monotonic_revision s' + budget < 2 ^ 64) ->
  (forall ty, ds_contents d ty = nothing -> Forall (fun f : family => f ty = nothing) (ds_copies d) -> g ty = nothing /\ Forall (fun f : family => f ty = nothing) copies) ->
  Z.of_nat (length copies) <= revision /\ revision + budget < 2 ^ 64 ->
  exists tables, for_each f (ds_types d) (segment n.1) = Ok tables /\ agrees budget (set_segment n.1 tables, n.2) (with_family d g revision copies).
Proof.
  intros Hag Hreg Hf Hg Hrev. pose proof Hag as []. destruct (all_registered_true _ Hreg) as [Hne Hall].
  destruct (for_each_spec f (fun ty s => segment n.1 !! ty = Some s) (fun ty s => refines (schema ty).1 (schema ty).2 s (table_of (with_family d g revision copies) ty) /\ _monotonic_revision s + budget < 2 ^ 64)
    (ds_types d) (segment n.1) ag_nodup0) as (tables & E & Hin & Hout).
  - intros ty Hty. destruct (proj1 (ag_stored0 ty) (ag_types0 ty Hty)) as [s Hs]. by exists s.
  - intros ty s Hs. destruct (ag_tables0 ty s Hs) as [Hrf Hm]. destruct (Hf ty s Hrf Hm) as (s' & ? & ? & ?). by exists s'.
  - exists tables. split; [done|].
    assert (Hdom : forall ty, is_Some (tables !! ty) <-> is_Some (segment n.1 !! ty)).
    { intros ty. destruct (decide (ty ∈ ds_types d)) as [Hty|Hty]; [|by rewrite Hout]. destruct (Hin ty Hty) as (s & -> & _).
      split; [|by eexists]. intros _. by apply ag_stored0, ag_types0. }
    split; cbn; try done.
    + intros ty. by rewrite Hdom.
    + intros ty s Hs. assert (Hty : ty ∈ ds_types d) by (apply Hall, ag_stored0, Hdom; by eexists). destruct (Hin ty Hty) as (s' & Hs' & H). rewrite Hs in Hs'. by injection Hs' as <-.
    + intros ty Hty. destruct (ag_others0 ty Hty) as [H1 H2]. by apply Hg.
    + intros Hnil. destruct (ds_types d) as [|ty tys] eqn:Ht; [done|]. specialize (ag_types0 ty ltac:(by left)). rewrite Hnil in ag_types0. by apply elem_of_nil in ag_types0.
Qed.

Lemma agrees_weaken budget n d : agrees (budget + 1) n d -> agrees budget n d.
Proof.
  intros []. split; try done; [|lia]. intros ty s Hs. destruct (ag_tables0 ty s Hs). split; [done|lia].
Qed.

Definition step_agrees (budget : Z) (n : node_state) (d : database_spec) (o : database_op) : Prop :=
  exists n', database_run_op n o = Ok (n', (database_spec_op d o).2) /\ agrees budget n' (database_spec_op d o).1.

(** Nothing changes when an exception is thrown. *)
Lemma step_unchanged budget n d o e : agrees (budget + 1) n d -> database_run_op n o = Ok (n, Throw e) -> database_spec_op d o = (d, Throw e) -> step_agrees budget n d o.
Proof. intros Hag H1 H2. exists n. rewrite H2. split; [done|]. by apply agrees_weaken. Qed.

(** An operation of all the tables, in read-only mode or not *)
Lemma step_all_tables budget n d o (f : Z -> undo_index value -> result (undo_index value)) g revision copies :
  agrees (budget + 1) n d -> all_registered d = true ->
  (forall ty s, refines (schema ty).1 (schema ty).2 s (table_of d ty) -> _monotonic_revision s + (budget + 1) < 2 ^ 64 ->
     exists s', f ty s = Ok s' /\ refines (schema ty).1 (schema ty).2 s' (table_of (with_family d g revision copies) ty) /\ _monotonic_revision s' + budget < 2 ^ 64) ->
  (forall ty, ds_contents d ty = nothing -> Forall (fun f : family => f ty = nothing) (ds_copies d) -> g ty = nothing /\ Forall (fun f : family => f ty = nothing) copies) ->
  Z.of_nat (length copies) <= revision /\ revision + budget < 2 ^ 64 ->
  database_run_op n o = or_throws n (for_each_index n.1 f) (with_database n) ->
  database_spec_op d o = when_writable d (with_family d g revision copies, Ok tt) -> step_agrees budget n d o.
Proof.
  intros Hag Hreg Hf Hg Hrev Hrun Hspec. destruct (ds_mode d) eqn:Hmode.
  - apply (step_unchanged _ _ _ _ std_logic_error Hag); [|rewrite Hspec; unfold when_writable; by rewrite Hmode]. rewrite Hrun. unfold for_each_index.
    by rewrite (ag_mode _ _ _ Hag), Hmode.
  - destruct (agrees_all f budget n d g revision copies Hag Hreg Hf Hg Hrev) as (tables & E & Hag'). eexists. rewrite Hrun, Hspec. unfold when_writable, for_each_index.
    rewrite (ag_mode _ _ _ Hag), Hmode, (ag_list _ _ _ Hag). cbn. rewrite E. split; [reflexivity|done].
Qed.

Lemma with_same d : with_family d (ds_contents d) (ds_revision d) (ds_copies d) = d.
Proof. by destruct d. Qed.

Lemma wrap64_small z : 0 <= z < 2 ^ 64 -> wrap64 z = z.
Proof. apply Z.mod_small. Qed.

(** *** One table *)

Lemma table_start budget ty s d : refines (schema ty).1 (schema ty).2 s (table_of d ty) -> _monotonic_revision s + (budget + 1) < 2 ^ 64 -> 0 <= budget ->
  refines (schema ty).1 (schema ty).2 (add_session s) (table_of (start_all d) ty) /\ _monotonic_revision (add_session s) + budget < 2 ^ 64.
Proof.
  intros Hrf Hm Hb. destruct (step_start (schema ty).1 (schema ty).2 s (table_of d ty) Hrf) as (s' & [= <-] & Hrf' & Hm'); [lia|]. split; [|lia].
  cbn in Hrf'. unfold table_of, start_all, with_family. cbn. by destruct (ds_contents d ty).
Qed.

Lemma table_undo_once ty s d : refines (schema ty).1 (schema ty).2 s (table_of d ty) ->
  exists s', table_undo schema ty s = Ok s' /\ refines (schema ty).1 (schema ty).2 s' (table_of (undo_all_once d) ty) /\ _monotonic_revision s' <= _monotonic_revision s.
Proof.
  intros Hrf. destruct (step_undo (schema ty).1 (schema ty).2 (Hsw ty) s (table_of d ty) Hrf) as (s' & E & Hrf' & Hm). cbn in E. unfold table_undo.
  destruct (UndoIndex.undo _ _ s) as [s1|]; [|done]. injection E as ->. exists s'. split; [done|]. split; [|lia].
  unfold undo_all_once. cbn in Hrf'. by destruct (ds_copies d) as [|f copies].
Qed.

Lemma table_squash_once ty s d : refines (schema ty).1 (schema ty).2 s (table_of d ty) ->
  exists s', table_squash schema ty s = Ok s' /\ refines (schema ty).1 (schema ty).2 s' (table_of (squash_all d) ty) /\ _monotonic_revision s' <= _monotonic_revision s.
Proof.
  intros Hrf. destruct (step_squash (schema ty).1 (schema ty).2 s (table_of d ty) Hrf) as (s' & E & Hrf' & Hm). cbn in E. unfold table_squash.
  destruct (UndoIndex.squash _ s) as [s1|]; [|done]. injection E as ->. exists s'. split; [done|]. split; [|lia].
  unfold squash_all. cbn in Hrf'. by destruct (ds_copies d) as [|f copies].
Qed.

Lemma table_commit ty s d revision : refines (schema ty).1 (schema ty).2 s (table_of d ty) ->
  exists s', UndoIndex.commit s (wrap64 revision) = Ok s' /\ refines (schema ty).1 (schema ty).2 s' (table_of (commit_all d revision) ty) /\ _monotonic_revision s' <= _monotonic_revision s.
Proof.
  intros Hrf. destruct (step_commit (schema ty).1 (schema ty).2 s (table_of d ty) (wrap64 revision) Hrf) as (s' & E & Hrf' & Hm). cbn in E.
  destruct (UndoIndex.commit s _) as [s1|]; [|done]. injection E as ->. exists s'. split; [done|]. split; [|lia].
  cbn in Hrf'. unfold table_of, commit_all, with_family. cbn. rewrite length_fmap in Hrf'. by rewrite fmap_take.
Qed.

(** *** All tables *)

(** Tables that are not there stay empty, and the revision counts the sessions. *)
Definition sound_change (budget : Z) (d d' : database_spec) : Prop :=
  exists g revision copies, d' = with_family d g revision copies /\
    (forall ty, ds_contents d ty = nothing -> Forall (fun f : family => f ty = nothing) (ds_copies d) -> g ty = nothing /\ Forall (fun f : family => f ty = nothing) copies) /\
    Z.of_nat (length copies) <= revision /\ revision + budget < 2 ^ 64.

Section Changes.
Context (budget : Z) (d : database_spec).
Hypothesis (Hbudget : 0 <= budget) (Hlen : Z.of_nat (length (ds_copies d)) <= ds_revision d) (Hrev : ds_revision d + (budget + 1) < 2 ^ 64).

Lemma same_change : sound_change budget d d.
Proof. exists (ds_contents d), (ds_revision d), (ds_copies d). rewrite with_same. split_and!; [done|done|done|lia]. Qed.

Lemma start_change : sound_change budget d (start_all d).
Proof.
  eexists _, _, _. split; [reflexivity|]. rewrite wrap64_small by lia. cbn. split_and!; [|lia|lia]. intros ty H1 H2. split; [done|]. by constructor.
Qed.

Lemma squash_change : sound_change budget d (squash_all d).
Proof.
  pose proof same_change as Hsame. unfold squash_all. destruct (ds_copies d) as [|f copies] eqn:E; [done|]. cbn in Hlen. eexists _, _, _. split; [reflexivity|]. rewrite E, wrap64_small by lia.
  split_and!; [|lia|lia]. intros ty H1 H2. apply Forall_cons in H2 as [_ H2]. by split.
Qed.

Lemma commit_change revision : sound_change budget d (commit_all d revision).
Proof.
  eexists _, _, _. split; [reflexivity|]. rewrite length_take. split_and!; [|lia|lia]. intros ty H1 H2. split; [done|]. by apply Forall_take.
Qed.

Lemma undo_change : sound_change budget d (undo_all_once d).
Proof.
  pose proof same_change as Hsame. unfold undo_all_once. destruct (ds_copies d) as [|f copies] eqn:E; [done|]. cbn in Hlen. eexists _, _, _. split; [reflexivity|]. rewrite E, wrap64_small by lia.
  split_and!; [|lia|lia]. intros ty H1 H2. by apply Forall_cons in H2.
Qed.
End Changes.

Lemma sound_change_trans budget d d1 d2 : sound_change budget d d1 -> sound_change budget d1 d2 -> sound_change budget d d2.
Proof.
  intros (g & r & c & -> & H1 & H2 & H3) (g' & r' & c' & -> & H4 & H5 & H6). exists g', r', c'. split_and!; [done| |done|done].
  intros ty Ha Hb. destruct (H1 ty Ha Hb). by apply H4.
Qed.

Lemma undo_everything_change budget d : 0 <= budget -> Z.of_nat (length (ds_copies d)) <= ds_revision d -> ds_revision d + (budget + 1) < 2 ^ 64 ->
  sound_change budget d (undo_everything d).
Proof.
  intros Hb. unfold undo_everything. generalize (length (ds_copies d)) at 2. intros k. revert d. induction k as [|k IH]; intros d Hl Hr; [by apply same_change|].
  rewrite Nat.iter_succ_r. pose proof (undo_change budget d Hb Hl Hr) as Hc. eapply sound_change_trans; [exact Hc|]. unfold undo_all_once in *. destruct (ds_copies d) as [|f copies] eqn:E; [by apply IH; rewrite ?E|].
  cbn in Hl. apply IH; cbn; rewrite wrap64_small by lia; lia.
Qed.

Lemma table_undo_everything ty s d : refines (schema ty).1 (schema ty).2 s (table_of d ty) ->
  exists s', UndoIndex.undo_all (schema ty).1 (schema ty).2 s = Ok s' /\ refines (schema ty).1 (schema ty).2 s' (table_of (undo_everything d) ty) /\ _monotonic_revision s' <= _monotonic_revision s.
Proof.
  intros Hrf. destruct (undo_all_refines _ _ (Hsw ty) s _ Hrf) as (s' & E & Hrf' & Hm). exists s'. split_and!; [done| |done]. cbn in Hrf'. rewrite length_fmap in Hrf'.
  unfold undo_everything. revert Hrf'. generalize (length (ds_copies d)). intros k. clear. intros Hrf'.
  assert (Hiter : table_of (Nat.iter k undo_all_once d) ty = Nat.iter k (fun t => (table_op (schema ty).2 t Undo).1) (table_of d ty)); [|by rewrite Hiter].
  clear. revert d. induction k as [|k IH]; intros d; [done|]. rewrite !Nat.iter_succ_r, IH. f_equal. unfold undo_all_once. cbn. by destruct (ds_copies d).
Qed.

Section Step.
Context (budget : Z) (n : node_state) (d : database_spec).
Hypothesis (Hbudget : 0 <= budget < 2 ^ 63) (Hag : agrees (budget + 1) n d).

(** An operation of all the tables that the database does when it can be written *)
Lemma step_change o (f : Z -> undo_index value -> result (undo_index value)) d' : all_registered d = true -> sound_change budget d d' ->
  (forall ty s, refines (schema ty).1 (schema ty).2 s (table_of d ty) -> _monotonic_revision s + (budget + 1) < 2 ^ 64 ->
     exists s', f ty s = Ok s' /\ refines (schema ty).1 (schema ty).2 s' (table_of d' ty) /\ _monotonic_revision s' <= _monotonic_revision s) ->
  database_run_op n o = or_throws n (for_each_index n.1 f) (with_database n) -> database_spec_op d o = when_writable d (d', Ok tt) -> step_agrees budget n d o.
Proof.
  intros Hreg (g & r & c & -> & Hg & Hrev) Hf Hrun Hspec. apply (step_all_tables budget n d o f g r c Hag Hreg); [|done..].
  intros ty s Hrf Hm. destruct (Hf ty s Hrf Hm) as (s' & ? & ? & ?). exists s'. split_and!; [done|done|lia].
Qed.

(** What a session object does *)
Lemma step_session (f : Z -> undo_index value -> result (undo_index value)) d' : all_registered d = true -> sound_change budget d d' -> ds_sessions d <> [] ->
  (forall ty s, refines (schema ty).1 (schema ty).2 s (table_of d ty) -> exists s', f ty s = Ok s' /\ refines (schema ty).1 (schema ty).2 s' (table_of d' ty) /\ _monotonic_revision s' <= _monotonic_revision s) ->
  exists n', or_throws n (tables ← for_each f (default [] (head n.2)) (segment n.1); Ok (set_segment n.1 tables, [] : session)) (fun r => ((r.1, tail n.2), Ok tt)) = Ok (n', Ok tt) /\
    agrees budget n' (with_sessions (if default false (head (ds_sessions d)) then d' else d) (tail (ds_sessions d))).
Proof.
  intros Hreg (g & r & c & -> & Hg & Hrev) Hses Hf. rewrite (ag_sessions _ _ _ Hag). destruct (ds_sessions d) as [|b sessions] eqn:Es; [done|]. cbn [head tail fmap list_fmap default from_option].
  destruct b; cbn [id].
  - destruct (agrees_all f budget n d g r c Hag Hreg) as (tables & E & Hag'); [|done|done|].
    { intros ty s Hrf Hm. destruct (Hf ty s Hrf) as (s' & ? & ? & ?). exists s'. split_and!; [done|done|lia]. }
    cbn. rewrite E. cbn. eexists. split; [reflexivity|]. destruct Hag'. cbn in *. split; cbn; try done.
  - cbn. eexists. split; [reflexivity|]. pose proof (agrees_weaken _ _ _ Hag) as []. split; cbn; try done.
Qed.

(** One table changes its contents. *)
Lemma set_table_agrees ty s t : ty ∈ ds_types d -> refines (schema ty).1 (schema ty).2 s t -> table_revision t = ds_revision d -> copies t = copies (table_of d ty) ->
  _monotonic_revision s + budget < 2 ^ 64 ->
  agrees budget (set_table n.1 ty s, n.2) (with_family d (<[ty := (contents t, table_next t)]> (ds_contents d)) (ds_revision d) (ds_copies d)).
Proof.
  intros Hty Hrf Hr Hcs Hm. set (g := <[ty := (contents t, table_next t)]> (ds_contents d)).
  assert (Hg : g ty = (contents t, table_next t)) by apply fn_lookup_insert.
  assert (Hg' : forall ty', ty <> ty' -> g ty' = ds_contents d ty') by (intros ty' Hne; by apply fn_lookup_insert_ne).
  clearbody g. pose proof (agrees_weaken _ _ _ Hag) as []. split; cbn; try done.
  - intros ty'. rewrite ag_stored0. destruct (decide (ty' = ty)) as [->|Hne]; [|by rewrite lookup_insert_ne]. rewrite lookup_insert_eq. split; [by eexists|].
    intros _. by apply ag_stored0, ag_types0.
  - intros ty' s' [[<- <-]|[Hne E]]%lookup_insert_Some.
    + split; [|done]. unfold table_of. cbn. rewrite Hg. destruct t as [m nx rv cs]. cbn in *. by rewrite <- Hr, <- Hcs.
    + destruct (ag_tables0 ty' s' E) as [H1 H2]. split; [|done]. unfold table_of in *. cbn. by rewrite Hg'.
  - intros ty' Hty'. rewrite Hg' by (intros ->; by apply Hty', ag_types0). by apply ag_others0.
Qed.

(** The operation of one table keeps the revision and the copies. *)
Lemma data_op_keeps (o : op) t sec : match o with Emplace _ | Modify _ _ | Remove _ => True | _ => False end ->
  table_revision (@table_op value sec t o).1 = table_revision t /\ copies (table_op sec t o).1 = copies t.
Proof.
  destruct o; cbn; try done; intros _.
  - destruct (constructor _); [|done]. by destruct (fits _ _ _ _).
  - destruct (contents t !! id); [|done]. by destruct (fits _ _ _ _).
  - by destruct (contents t !! id).
Qed.

Lemma registered_table ty : ty ∈ ds_types d -> exists s, segment n.1 !! ty = Some s /\ refines (schema ty).1 (schema ty).2 s (table_of d ty) /\
  _monotonic_revision s + (budget + 1) < 2 ^ 64 /\ get_index n.1 ty = Ok s.
Proof.
  intros Hty. pose proof Hag as []. destruct (proj1 (ag_stored0 ty) (ag_types0 ty Hty)) as [s Hs]. exists s. destruct (ag_tables0 ty s Hs).
  split_and!; [done..|]. unfold get_index. by rewrite ag_list0, bool_decide_eq_true_2, Hs.
Qed.

Lemma mutable_index ty s : get_index n.1 ty = Ok s -> get_mutable_index n.1 ty = if ds_mode d then Throw std_logic_error else Ok s.
Proof. intros E. unfold get_mutable_index. rewrite (ag_mode _ _ _ Hag), E. by destruct (ds_mode d). Qed.

(** An operation of a table, at the database *)
Lemma data_step o ty (o' : op) s s' out : ty ∈ ds_types d -> match o' with Emplace _ | Modify _ _ | Remove _ => True | _ => False end ->
  op_ok (schema ty).1 (schema ty).2 (table_of d ty) o' = true -> refines (schema ty).1 (schema ty).2 s (table_of d ty) -> _monotonic_revision s + (budget + 1) < 2 ^ 64 ->
  index_op (schema ty).1 (schema ty).2 s o' = Ok (s', out) -> database_run_op n o = Ok ((set_table n.1 ty s', n.2), out) -> database_spec_op d o = on_table d ty o' -> step_agrees budget n d o.
Proof.
  intros Hty Hkind Hok Hrf Hm Hix Hrun Hspec. destruct (step_all _ _ (Hsw ty) s _ o' Hrf Hok) as (s1 & E1 & Hrf1 & Hm1); [lia|]. rewrite E1 in Hix. injection Hix as -> <-.
  eexists. rewrite Hrun, Hspec. unfold on_table. cbn [fst snd]. split; [reflexivity|]. destruct (data_op_keeps o' (table_of d ty) (schema ty).2 Hkind) as [H1 H2].
  apply set_table_agrees; [done|exact Hrf1|by rewrite H1|by rewrite H2|lia].
Qed.
End Step.

(** *** The operations *)

Lemma step_create budget n d ty c : 0 <= budget < 2 ^ 63 -> agrees (budget + 1) n d -> database_op_ok d (Create ty c) = true -> step_agrees budget n d (Create ty c).
Proof.
  intros Hb Hag [Hty%bool_decide_eq_true Hok]%andb_true_iff. destruct (registered_table budget n d Hag ty Hty) as (s & Es & Hrf & Hm & Hget).
  pose proof (mutable_index budget n d Hag ty s Hget) as Hmut. destruct (ds_mode d) eqn:Hmode.
  - apply (step_unchanged _ _ _ _ std_logic_error Hag); cbn; [unfold create; by rewrite Hmut|unfold when_writable; by rewrite Hmode].
  - eapply (data_step budget n d Hb Hag (Create ty c) ty (Emplace c) s); [done|done|exact Hok|exact Hrf|exact Hm|reflexivity| |cbn; unfold when_writable; by rewrite Hmode].
    cbn. unfold create. rewrite Hmut. reflexivity.
Qed.

(** An object of a registered table *)
Lemma step_object budget n d ty id o o' : 0 <= budget < 2 ^ 63 -> agrees (budget + 1) n d -> ty ∈ ds_types d ->
  op_ok (schema ty).1 (schema ty).2 (table_of d ty) o' = true -> match o' with Modify _ _ | Remove _ => True | _ => False end ->
  database_spec_op d o = (if has_object d ty id then when_writable d (on_table d ty o') else (d, Throw std_out_of_range)) ->
  (forall e, get schema n.1 ty id = Throw e -> e <> assert_failed -> database_run_op n o = Ok (n, Throw e)) ->
  (forall p s s' out, get schema n.1 ty id = Ok p -> get_mutable_index n.1 ty = Ok s -> UndoIndex.get (schema ty).1 s id = Ok p ->
     index_op (schema ty).1 (schema ty).2 s o' = Ok (s', out) -> database_run_op n o = Ok ((set_table n.1 ty s', n.2), out)) ->
  (forall p e, get schema n.1 ty id = Ok p -> get_mutable_index n.1 ty = Throw e -> e <> assert_failed -> database_run_op n o = Ok (n, Throw e)) -> step_agrees budget n d o.
Proof.
  intros Hb Hag Hty Hok Hkind Hspec Hnone Hsome Hread. destruct (registered_table budget n d Hag ty Hty) as (s & Es & Hrf & Hm & Hget).
  pose proof (mutable_index budget n d Hag ty s Hget) as Hmut.
  assert (Hfind : find schema n.1 ty id = Ok (UndoIndex.find (schema ty).1 s id)) by (unfold find; by rewrite Hget).
  destruct (UndoIndex.find (schema ty).1 s id) as [p|] eqn:Ef.
  - assert (Hhas : has_object d ty id = true).
    { apply bool_decide_eq_true. destruct (refines_find _ _ s (table_of d ty) id Hrf) as [H _]. rewrite Ef in H. by apply H. }
    assert (Hg : get schema n.1 ty id = Ok p) by (unfold get; by rewrite Hfind). rewrite Hhas in Hspec. destruct (ds_mode d) eqn:Hmode.
    + apply (step_unchanged _ _ _ _ std_logic_error Hag); [by apply (Hread p)|]. rewrite Hspec. unfold when_writable. by rewrite Hmode.
    + destruct (step_all _ _ (Hsw ty) s _ o' Hrf Hok) as (s' & E & _); [lia|].
      eapply (data_step budget n d Hb Hag o ty o' s s'); [done|by destruct o'|done|done|done|exact E| |].
      * apply (Hsome p s); [done|done|unfold UndoIndex.get; by rewrite Ef|done].
      * rewrite Hspec. unfold when_writable. by rewrite Hmode.
  - assert (Hhas : has_object d ty id = false).
    { apply bool_decide_eq_false. intros H. destruct (refines_find _ _ s (table_of d ty) id Hrf) as [_ H2]. rewrite Ef in H2. by destruct (H2 H). }
    rewrite Hhas in Hspec. apply (step_unchanged _ _ _ _ std_out_of_range Hag); [|done]. apply Hnone; [|done]. unfold get. by rewrite Hfind.
Qed.

Lemma step_modify_object budget n d ty id f : 0 <= budget < 2 ^ 63 -> agrees (budget + 1) n d -> database_op_ok d (ModifyObject ty id f) = true ->
  step_agrees budget n d (ModifyObject ty id f).
Proof.
  intros Hb Hag [Hty%bool_decide_eq_true Hok]%andb_true_iff. apply (step_object budget n d ty id _ (Modify id f)); try done; cbn.
  - intros e E He. rewrite E. by destruct e.
  - intros p s s' out E Em Eg. rewrite E, Eg. cbn. unfold modify. rewrite Em. cbn. intros ->. done.
  - intros p e E Em He. rewrite E. cbn. unfold modify. rewrite Em. by destruct e.
Qed.

Lemma step_remove_object budget n d ty id : 0 <= budget < 2 ^ 63 -> agrees (budget + 1) n d -> database_op_ok d (RemoveObject ty id) = true ->
  step_agrees budget n d (RemoveObject ty id).
Proof.
  intros Hb Hag Hty%bool_decide_eq_true. apply (step_object budget n d ty id _ (Remove id)); try done; cbn.
  - intros e E He. rewrite E. by destruct e.
  - intros p s s' out E Em Eg. rewrite E. unfold remove_object. rewrite Eg. cbn. unfold remove. rewrite Em. cbn.
    unfold UndoIndex.remove, lookup_node. destruct (nodes s !! p); cbn; [by intros [= <- <-]|done].
  - intros p e E Em He. rewrite E. cbn. unfold remove. rewrite Em. by destruct e.
Qed.

(** *** Adding tables *)

Lemma open_sessions_refines ty k s t : refines (schema ty).1 (schema ty).2 s t -> 0 <= table_revision t -> table_revision t + Z.of_nat k < 2 ^ 64 -> _monotonic_revision s + Z.of_nat k < 2 ^ 64 ->
  refines (schema ty).1 (schema ty).2 (open_sessions k s (table_revision t + Z.of_nat k))
    (Table (contents t) (table_next t) (table_revision t + Z.of_nat k) (replicate k (contents t, table_next t) ++ copies t)) /\
  _monotonic_revision (open_sessions k s (table_revision t + Z.of_nat k)) <= _monotonic_revision s + Z.of_nat k.
Proof.
  revert s t. induction k as [|k IH]; intros s t Hrf H0 Hr Hm; destruct (refines_range _ _ _ _ Hrf) as (Hrev & _ & Hmon); cbn [open_sessions]; rewrite Hrev.
  - rewrite Z.add_0_r, Z.ltb_irrefl. split; [by destruct t|lia].
  - rewrite (proj2 (Z.ltb_lt _ _)) by lia. destruct (step_start (schema ty).1 (schema ty).2 s t Hrf) as (s' & [= <-] & Hrf' & Hm'); [lia|]. cbn in Hrf'.
    rewrite wrap64_small in Hrf' by lia. destruct (IH _ _ Hrf') as [H1 H2]; cbn [table_revision]; [lia..|]. cbn [contents table_next table_revision copies] in H1, H2.
    replace (table_revision t + 1 + Z.of_nat k) with (table_revision t + Z.of_nat (S k)) in H1, H2 by lia. split; [|lia].
    by rewrite replicate_S_end, <- app_assoc.
Qed.

Lemma copies_nothing ty (copies : list family) : Forall (fun f : family => f ty = nothing) copies -> (fun f : family => f ty) <$> copies = replicate (length copies) nothing.
Proof. induction 1 as [|f copies Hf H IH]; [done|]. cbn. by rewrite Hf, IH. Qed.

Lemma table_range ty s d : refines (schema ty).1 (schema ty).2 s (table_of d ty) -> Z.of_nat (length (ds_copies d)) <= ds_revision d < 2 ^ 64 ->
  undo_stack_revision_range s = (ds_revision d - Z.of_nat (length (ds_copies d)), ds_revision d).
Proof.
  intros Hrf Hr. destruct (refines_range _ _ _ _ Hrf) as (Hrev & Hlen & _). cbn in Hrev, Hlen. rewrite length_fmap in Hlen. unfold undo_stack_revision_range, size_of.
  rewrite Hrev, Hlen, wrap64_small by lia. done.
Qed.

(** A new table joins the sessions. *)
Lemma new_table_joins ty budget n d : agrees (budget + 1) n d -> 0 <= budget -> ty ∉ ds_stored d ->
  let revision := ds_revision d in let first := revision - Z.of_nat (length (ds_copies d)) in
  exists s', UndoIndex.set_revision (new_table schema ty) first = Ok s' /\
    refines (schema ty).1 (schema ty).2 (open_sessions (Z.to_nat (revision - _revision s')) s' revision) (table_of d ty) /\
    _monotonic_revision (open_sessions (Z.to_nat (revision - _revision s')) s' revision) + budget < 2 ^ 64.
Proof.
  intros Hag Hb Hty revision first. pose proof Hag as []. destruct (ag_others0 ty Hty) as [Hc Hcs].
  pose proof (refines_empty (schema ty).1 (schema ty).2) as Hrf.
  destruct (step_set_revision (schema ty).1 (schema ty).2 _ _ first Hrf) as (s' & E & Hrf' & Hm). cbn in E, Hrf', Hm.
  assert (Hfirst : (0 <=? first) = true) by (apply Z.leb_le; lia). rewrite Hfirst in E, Hrf'. cbn [fst snd] in E, Hrf'. injection E as E.
  assert (Hset : UndoIndex.set_revision (new_table schema ty) first = Ok s') by (rewrite <- E; unfold UndoIndex.set_revision; cbn [_revision new_table empty_undo_index]; by rewrite Hfirst).
  exists s'. split; [done|]. destruct (refines_range _ _ _ _ Hrf') as (-> & _). cbn [table_revision].
  replace (Z.to_nat (revision - first)) with (length (ds_copies d)) by lia. clear E Hset.
  destruct (open_sessions_refines ty (length (ds_copies d)) s' _ Hrf') as [H1 H2]; cbn [table_revision]; [lia..|].
  cbn [table_revision contents table_next copies] in H1, H2. replace (first + Z.of_nat (length (ds_copies d))) with revision in H1, H2 by lia.
  rewrite app_nil_r in H1. split; [|lia]. unfold table_of. rewrite Hc, (copies_nothing _ _ Hcs). exact H1.
Qed.

Definition adding (d : database_spec) (ty : Z) : database_spec :=
  DatabaseSpec (ds_contents d) (ds_revision d) (ds_copies d) (ds_types d ++ [ty])
    (if bool_decide (ty ∈ ds_stored d) then ds_stored d else ty :: ds_stored d) (ds_read_only d) (ds_mode d) (ds_sessions d).

Lemma added_agrees budget n d ty s : agrees (budget + 1) n d -> 0 <= budget -> ty ∉ ds_types d -> ds_sessions d = [] ->
  refines (schema ty).1 (schema ty).2 s (table_of d ty) -> _monotonic_revision s + budget < 2 ^ 64 ->
  agrees budget (Database (<[ty := s]> (segment n.1)) (_index_list n.1 ++ [ty]) (_read_only n.1) (_read_only_mode n.1), n.2) (adding d ty).
Proof.
  intros Hag Hb Hty Hses Hrf Hm. pose proof (agrees_weaken _ _ _ Hag) as [].
  assert (Hst : forall ty', ty' ∈ ds_stored (adding d ty) <-> ty' = ty \/ ty' ∈ ds_stored d).
  { intros ty'. cbn. case_bool_decide; [|apply elem_of_cons]. split; [by right|]. by intros [->|?]. }
  split; cbn; try done.
  - by rewrite ag_list0.
  - rewrite ag_sessions0, Hses. done.
  - apply NoDup_app. split_and!; [done| |by apply NoDup_singleton]. intros x Hx ->%list_elem_of_singleton. done.
  - intros ty' [Hin| ->%list_elem_of_singleton]%elem_of_app; apply Hst; [right; by apply ag_types0|by left].
  - intros ty'. rewrite Hst, ag_stored0. destruct (decide (ty' = ty)) as [->|]; [rewrite lookup_insert_eq|rewrite lookup_insert_ne by done; naive_solver]. split; [by eexists|by left].
  - intros ty' s' [[<- <-]|[_ E]]%lookup_insert_Some; [by split|]. by apply ag_tables0.
  - intros ty' Hno. apply ag_others0. intros Hin. apply Hno, Hst. by right.
  - case_bool_decide; [|done]. done.
Qed.

#[local] Arguments undo_stack_revision_range : simpl never.

Lemma step_add_index budget n d ty : 0 <= budget < 2 ^ 63 -> agrees (budget + 1) n d -> database_op_ok d (AddIndex ty) = true -> step_agrees budget n d (AddIndex ty).
Proof.
  intros Hb Hag [Hses%bool_decide_eq_true Hor]%andb_true_iff. pose proof Hag as [].
  assert (Hspec : database_spec_op d (AddIndex ty) = if bool_decide (ty ∈ ds_types d) then (d, Throw std_logic_error)
    else if negb (bool_decide (ty ∈ ds_stored d)) && ds_read_only d then (d, Throw std_runtime_error) else (adding d ty, Ok tt)) by done.
  destruct (decide (ty ∈ ds_types d)) as [Hin|Hin].
  { apply (step_unchanged _ _ _ _ std_logic_error Hag); [|by rewrite Hspec, bool_decide_eq_true_2]. cbn. unfold add_index.
    by rewrite ag_list0, bool_decide_eq_true_2. }
  rewrite (bool_decide_eq_false_2 _ Hin) in Hspec.
  assert (Hrange : Z.of_nat (length (ds_copies d)) <= ds_revision d < 2 ^ 64) by lia.
  assert (Hdone : forall s, add_index schema n.1 ty = Ok (Database (<[ty := s]> (segment n.1)) (_index_list n.1 ++ [ty]) (_read_only n.1) (_read_only_mode n.1)) ->
    database_spec_op d (AddIndex ty) = (adding d ty, Ok tt) -> refines (schema ty).1 (schema ty).2 s (table_of d ty) -> _monotonic_revision s + budget < 2 ^ 64 -> step_agrees budget n d (AddIndex ty)).
  { intros s E Hsp Hrf Hm. eexists. cbn [database_run_op]. rewrite E, Hsp. split; [reflexivity|]. apply added_agrees; try done. lia. }
  assert (Hfront : forall front, front ∈ ds_types d -> exists s, segment n.1 !! front = Some s /\
    undo_stack_revision_range s = (ds_revision d - Z.of_nat (length (ds_copies d)), ds_revision d)).
  { intros front Hf. destruct (proj1 (ag_stored0 front) (ag_types0 front Hf)) as [s Hs]. exists s. split; [done|].
    destruct (ag_tables0 front s Hs) as [Hrf _]. by apply (table_range front). }
  destruct (segment n.1 !! ty) as [s|] eqn:Es.
  - assert (Hst : ty ∈ ds_stored d) by (apply ag_stored0; by eexists). destruct (ag_tables0 ty s Es) as [Hrf Hm].
    apply (Hdone s); [|by rewrite Hspec, bool_decide_eq_true_2|done|lia]. unfold add_index. rewrite ag_list0, (bool_decide_eq_false_2 _ Hin), Es. cbn.
    destruct (ds_types d) as [|front tys] eqn:Ht; [done|]. destruct (Hfront front) as (s0 & Es0 & Hr0); [by left|]. rewrite Es0. cbn [at_or_assert mbind result_bind].
    rewrite Hr0, (table_range ty s d Hrf Hrange). cbn [fst snd]. by rewrite !Z.eqb_refl.
  - assert (Hst : ty ∉ ds_stored d) by (intros [? ?]%ag_stored0; congruence). rewrite (bool_decide_eq_false_2 _ Hst) in Hspec, Hor. cbn [negb orb andb] in Hspec, Hor.
    destruct (ds_read_only d) eqn:Hro.
    { apply (step_unchanged _ _ _ _ std_runtime_error Hag); [|done]. cbn. unfold add_index. by rewrite ag_list0, (bool_decide_eq_false_2 _ Hin), Es, ag_read_only0. }
    destruct (ag_others0 ty Hst) as [Hc Hcs].
    assert (Hempty : ds_copies d = [] -> ds_revision d = 0 -> refines (schema ty).1 (schema ty).2 (new_table schema ty) (table_of d ty)).
    { intros E1 E2. unfold table_of. rewrite Hc, E1, E2. apply refines_empty. }
    destruct (ds_types d) as [|front tys] eqn:Ht.
    + cbn in Hor. apply bool_decide_eq_true in Hor. destruct (ag_first0 Hor) as [E1 E2].
      apply (Hdone (new_table schema ty)); [|done|by apply Hempty|cbn; lia]. unfold add_index. rewrite ag_list0, Es, ag_read_only0. done.
    + destruct (Hfront front) as (s0 & Es0 & Hr0); [by left|].
      assert (Hadd : forall k, add_index schema n.1 ty = k <-> (s ← (if (0 =? ds_revision d - Z.of_nat (length (ds_copies d))) && (0 =? ds_revision d) then Ok (new_table schema ty)
          else s ← UndoIndex.set_revision (new_table schema ty) (ds_revision d - Z.of_nat (length (ds_copies d))); Ok (open_sessions (Z.to_nat (ds_revision d - _revision s)) s (ds_revision d)));
        Ok (Database (<[ty := s]> (segment n.1)) (_index_list n.1 ++ [ty]) (_read_only n.1) (_read_only_mode n.1))) = k).
      { intros k. unfold add_index. rewrite ag_list0, (bool_decide_eq_false_2 _ Hin), Es, ag_read_only0. cbn [negb mbind result_bind]. rewrite Es0. cbn [at_or_assert mbind result_bind]. by rewrite Hr0. }
      destruct ((0 =? ds_revision d - Z.of_nat (length (ds_copies d))) && (0 =? ds_revision d)) eqn:Ez.
      * apply andb_true_iff in Ez as [E1%Z.eqb_eq E2%Z.eqb_eq]. apply (Hdone (new_table schema ty)); [by apply Hadd|done| |cbn; lia].
        apply Hempty; [apply length_zero_iff_nil; lia|done].
      * destruct (new_table_joins ty budget n d Hag) as (s' & E & Hrf & Hm); [lia|done|].
        apply (Hdone (open_sessions (Z.to_nat (ds_revision d - _revision s')) s' (ds_revision d))); [apply Hadd; by rewrite E|done|exact Hrf|lia].
Qed.

(** *** Sessions and modes *)

Lemma step_sessions budget n d o : 0 <= budget < 2 ^ 63 -> agrees (budget + 1) n d -> database_op_ok d o = true ->
  match o with StartUndoSession _ | SessionPush | SessionSquash | SessionUndo => True | _ => False end -> step_agrees budget n d o.
Proof.
  intros Hb Hag Hok Ho. pose proof Hag as []. destruct o as [| | | | |enabled| | | | | | | | | |]; try done; cbn in Hok; clear Ho.
  - destruct (ds_mode d) eqn:Hmode.
    { apply (step_unchanged _ _ _ _ std_logic_error Hag); cbn; unfold start_undo_session, when_writable; by rewrite ?ag_mode0, ?Hmode. }
    unfold step_agrees. cbn. unfold start_undo_session, when_writable. rewrite ag_mode0, Hmode. destruct enabled; cbn [negb].
    + destruct (start_change budget d) as (g & r & c & Heq & Hg & Hrev); [lia..|]. rewrite Heq.
      destruct (agrees_all (fun _ s => Ok (add_session s)) budget n d g r c Hag Hok) as (tables & E & Hag'); [|done|done|].
      { intros ty s Hrf Hm. destruct (table_start budget ty s d Hrf Hm) as [H1 H2]; [lia|]. rewrite Heq in H1. by exists (add_session s). }
      rewrite ag_list0, E. cbn. eexists. split; [reflexivity|]. destruct Hag'. cbn in *. split; cbn; try done. by f_equal.
    + eexists. split; [reflexivity|]. pose proof (agrees_weaken _ _ _ Hag) as []. split; cbn; try done. by f_equal.
  - eexists. split; [reflexivity|]. pose proof (agrees_weaken _ _ _ Hag) as []. split; cbn; try done. rewrite ag_sessions0. by destruct (ds_sessions d).
  - apply andb_true_iff in Hok as [Hreg Hne]. apply negb_true_iff, bool_decide_eq_false in Hne.
    destruct (step_session budget n d Hag (table_squash schema) (squash_all d) Hreg) as (n' & E & Hag'); [apply squash_change; lia|done|intros ty s; apply table_squash_once|].
    exists n'. by split.
  - apply andb_true_iff in Hok as [Hreg Hne]. apply negb_true_iff, bool_decide_eq_false in Hne.
    destruct (step_session budget n d Hag (table_undo schema) (undo_all_once d) Hreg) as (n' & E & Hag'); [apply undo_change; lia|done|intros ty s; apply table_undo_once|].
    exists n'. by split.
Qed.

Lemma step_set_revision_of_all budget n d revision : 0 <= budget < 2 ^ 63 -> agrees (budget + 1) n d -> database_op_ok d (SetRevisionOfAll revision) = true ->
  step_agrees budget n d (SetRevisionOfAll revision).
Proof.
  intros Hb Hag [[Hreg H0%Z.leb_le]%andb_true_iff H1%Z.ltb_lt]%andb_true_iff. pose proof Hag as [].
  destruct ((length (ds_copies d) =? 0)%nat && (ds_revision d <=? revision)) eqn:Ec.
  - apply andb_true_iff in Ec as [Ec1%Nat.eqb_eq Ec2]. apply length_zero_iff_nil in Ec1.
    apply (step_all_tables budget n d _ (fun _ s => UndoIndex.set_revision s revision) (ds_contents d) revision [] Hag Hreg); [| |cbn; lia|done|].
    + intros ty s Hrf Hm. destruct (step_set_revision (schema ty).1 (schema ty).2 s _ revision Hrf) as (s' & E & Hrf' & Hm'). cbn in E, Hrf', Hm'.
      rewrite length_fmap, Ec1, Ec2 in E, Hrf'. cbn in E, Hrf'. destruct (UndoIndex.set_revision s revision) as [s1|e]; [|by destruct e].
      injection E as ->. exists s'. split_and!; [done| |lia]. unfold table_of, with_family. cbn. by destruct (ds_contents d ty).
    + intros ty H2 _. split; [done|constructor].
    + cbn. by rewrite Ec1, Ec2.
  - apply (step_unchanged _ _ _ _ std_logic_error Hag); [|cbn; rewrite Ec; unfold when_writable; by destruct (ds_mode d)].
    cbn. unfold set_revision, for_each_index. rewrite ag_mode0, ag_list0. destruct (ds_mode d); [done|]. cbn [negb].
    destruct (all_registered_true _ Hreg) as [Hne _]. destruct (ds_types d) as [|ty tys] eqn:Ht; [done|].
    destruct (proj1 (ag_stored0 ty) (ag_types0 ty ltac:(by left))) as [s Hs]. destruct (ag_tables0 ty s Hs) as [Hrf Hm].
    destruct (step_set_revision (schema ty).1 (schema ty).2 s _ revision Hrf) as (s' & E & _). cbn in E. rewrite length_fmap, Ec in E. cbn in E.
    unfold for_each. cbn [foldM]. rewrite Hs. cbn. destruct (UndoIndex.set_revision s revision) as [s1|e]; [by cbn in E|]. cbn. by destruct e.
Qed.

Lemma step_database budget n d o : 0 <= budget < 2 ^ 63 -> agrees (budget + 1) n d -> database_op_ok d o = true -> step_agrees budget n d o.
Proof.
  intros Hb Hag Hok. pose proof Hag as []. assert (Hchange : Z.of_nat (length (ds_copies d)) <= ds_revision d /\ ds_revision d + (budget + 1) < 2 ^ 64) by done.
  destruct o; try (by apply step_sessions).
  - eexists. split; [reflexivity|]. cbn in Hok. apply bool_decide_eq_true in Hok. pose proof (agrees_weaken _ _ _ Hag) as [].
    split; cbn; try done; [by rewrite ag_sessions0, Hok|constructor|by intros ? ?%elem_of_nil].
  - by apply step_add_index.
  - by apply step_create.
  - by apply step_modify_object.
  - by apply step_remove_object.
  - apply (step_change budget n d Hag _ (table_undo schema) (undo_all_once d)); [done|apply undo_change; lia| |done|done]. intros ty s Hrf _. by apply table_undo_once.
  - apply (step_change budget n d Hag _ (table_squash schema) (squash_all d)); [done|apply squash_change; lia| |done|done]. intros ty s Hrf _. by apply table_squash_once.
  - apply (step_change budget n d Hag _ (fun _ s => UndoIndex.commit s (wrap64 revision)) (commit_all d revision)); [done|apply commit_change; lia| |done|done].
    intros ty s Hrf _. by apply table_commit.
  - apply (step_change budget n d Hag _ (fun ty => UndoIndex.undo_all (schema ty).1 (schema ty).2) (undo_everything d)); [done|apply undo_everything_change; lia| |done|done].
    intros ty s Hrf _. by apply table_undo_everything.
  - by apply step_set_revision_of_all.
  - eexists. split; [reflexivity|]. pose proof (agrees_weaken _ _ _ Hag) as []. by split.
  - destruct (ds_read_only d) eqn:Hro.
    + apply (step_unchanged _ _ _ _ std_logic_error Hag); cbn; unfold unset_read_only_mode; by rewrite ?ag_read_only0, ?Hro.
    + unfold step_agrees. cbn. unfold unset_read_only_mode. rewrite ag_read_only0, Hro. cbn. eexists. split; [reflexivity|]. pose proof (agrees_weaken _ _ _ Hag) as []. split; cbn; congruence || done.
Qed.

(** ** Histories of a database *)

Fixpoint database_run (n : node_state) (os : list database_op) : result (node_state * list (result unit)) :=
  match os with
  | [] => Ok (n, [])
  | o :: os => r ← database_run_op n o; rest ← database_run r.1 os; Ok (rest.1, r.2 :: rest.2)
  end.

Fixpoint database_spec_run (d : database_spec) (os : list database_op) : database_spec * list (result unit) :=
  match os with
  | [] => (d, [])
  | o :: os => let r := database_spec_op d o in let rest := database_spec_run r.1 os in (rest.1, r.2 :: rest.2)
  end.

Fixpoint database_run_ok (d : database_spec) (os : list database_op) : bool :=
  match os with [] => true | o :: os => database_op_ok d o && database_run_ok (database_spec_op d o).1 os end.

Definition empty_database : node_state := (open_database ∅ false, []).
Definition empty_database_spec : database_spec := DatabaseSpec (fun _ => nothing) 0 [] [] [] false false [].

Lemma agrees_empty budget : 0 <= budget < 2 ^ 63 -> agrees budget empty_database empty_database_spec.
Proof.
  intros Hb. split; cbn; try done; try lia.
  - constructor.
  - intros ty. rewrite lookup_empty. split; [by intros ?%elem_of_nil|by intros [? ?]].
Qed.

Lemma run_agrees os n d : agrees (Z.of_nat (length os)) n d -> Z.of_nat (length os) < 2 ^ 63 -> database_run_ok d os = true ->
  exists n', database_run n os = Ok (n', (database_spec_run d os).2) /\ agrees 0 n' (database_spec_run d os).1.
Proof.
  revert n d. induction os as [|o os IH]; intros n d Hag Hb; cbn [length database_run database_spec_run database_run_ok] in *; [intros _; by exists n|].
  intros [Hok Hoks]%andb_true_iff. destruct (step_database (Z.of_nat (length os)) n d o) as (n1 & E1 & Hag1); [lia|by rewrite Nat2Z.inj_succ in Hag|done|].
  destruct (IH n1 _ Hag1) as (n2 & E2 & Hag2); [lia|done|]. exists n2. rewrite E1. cbn. rewrite E2. by split.
Qed.

(** C18: over any operations of a database, fewer than 2^63, its tables change
    together: every operation returns or throws what it does for one stack of whole
    copies of all the contents; tables that are added later, or found in the file
    when it is opened again, join the sessions that are open; in read-only mode the
    operations on objects, starting a session, and the undo, squash, commit and
    setting of the revision of all tables fail and change nothing (a session object
    that is there can still squash or undo, and tables can be added unless the file
    itself is read-only); no pointer dangles, and each table shows exactly its
    contents.  The operations are those of callers that keep to [database_op_ok]:
    the tables of the file are registered before sessions are used, a new table is
    not the first of a file that has some, tables are added while no session object
    is alive, a session object is used once, constructors and modifiers leave ids
    alone, the orders of the indices are strict weak orders, and no modification brings an object older than the running session in
    conflict with another, which the code handles wrongly
    ([UndoTable.modify_conflict_forgets]). *)
Theorem database_tables_change_together os : Z.of_nat (length os) < 2 ^ 63 -> database_run_ok empty_database_spec os = true ->
  exists n, database_run empty_database os = Ok (n, (database_spec_run empty_database_spec os).2) /\
    let d := (database_spec_run empty_database_spec os).1 in
    _index_list n.1 = ds_types d /\ (ds_types d <> [] -> revision n.1 = ds_revision d) /\
    forall ty, ty ∈ ds_types d -> exists s, get_index n.1 ty = Ok s /\ shows (schema ty).1 (schema ty).2 s (ds_contents d ty).1.
Proof.
  intros Hb Hok. destruct (run_agrees os empty_database empty_database_spec) as (n & E & Hag); [apply agrees_empty; lia|done|done|]. exists n. split; [done|].
  pose proof Hag as []. cbv zeta. split; [done|]. pose proof (fun ty Hty => registered_table (-1) n _ Hag ty Hty) as Hreg. split.
  - intros Hne. unfold revision. rewrite ag_list0. destruct (ds_types _) as [|ty tys] eqn:Ht; [done|].
    destruct (Hreg ty) as (s & Es & Hrf & _ & _); [by left|]. rewrite Es. by destruct (refines_range _ _ _ _ Hrf).
  - intros ty Hty. destruct (Hreg ty Hty) as (s & _ & Hrf & _ & Hget). exists s. split; [done|]. exact (refines_shows _ _ s _ Hrf).
Qed.
End Tables.

(** ** An example *)

Module Example.
Definition schema (type_id : Z) : (Z * Z -> Z) * list (@order (Z * Z)) := (fst, if type_id =? 0 then [fun v w => v.2 <? w.2] else []).

Lemma schema_strict_weak type_id : Forall strict_weak (schema type_id).2.
Proof. unfold schema. cbn. destruct (type_id =? 0); constructor; [|constructor]. split; intros *; rewrite ?Z.ltb_lt; lia. Qed.

Definition put (type_id key : Z) : @database_op (Z * Z) := Create type_id (fun id => Ok (id, key)).

(** The second table is added within a session; the file is opened again and its
    tables are found in another order. *)
Definition history : list database_op :=
  [AddIndex 0; SetRevisionOfAll 7; put 0 10; put 0 10; StartUndoSession true; put 0 20; RemoveObject 0 0; SessionPush;
   AddIndex 1; put 1 30; StartUndoSession true; put 1 40; put 0 50; SessionSquash; SetReadOnlyMode; put 0 60; UndoAllTables; UnsetReadOnlyMode;
   Open false; AddIndex 1; AddIndex 0; StartUndoSession true; put 1 70; SessionUndo; UndoAllTables; put 1 80; CommitAllTables 7; UndoEverything].
End Example.

Theorem database_tables_change_together_witness :
  database_run_ok Example.schema empty_database_spec Example.history = true /\
  (map_to_list ((ds_contents (database_spec_run Example.schema empty_database_spec Example.history).1) 0).1 = [(0, (0, 10))] /\
   map_to_list ((ds_contents (database_spec_run Example.schema empty_database_spec Example.history).1) 1).1 = [(0, (0, 80))]) /\
  exists n, database_run Example.schema empty_database Example.history = Ok (n, (database_spec_run Example.schema empty_database_spec Example.history).2) /\
    let d := (database_spec_run Example.schema empty_database_spec Example.history).1 in
    _index_list n.1 = ds_types d /\ (ds_types d <> [] -> revision n.1 = ds_revision d) /\
    forall ty, ty ∈ ds_types d -> exists s, get_index n.1 ty = Ok s /\ shows (Example.schema ty).1 (Example.schema ty).2 s (ds_contents d ty).1.
Proof.
  split; [vm_compute; reflexivity|]. split; [vm_compute; split; reflexivity|].
  apply (database_tables_change_together Example.schema Example.schema_strict_weak Example.history); vm_compute; reflexivity.
Defined.
