(* ===== verification/ContractTables.v ===== *)
(** * The tables of contracts

    [include/eosio/chain/apply_context.hpp], [apply_context.cpp],
    [contract_table_objects.hpp], [webassembly/database.cpp]: the database
    functions that a contract calls, with their iterators and the RAM that is
    billed for rows and tables.

    The chain database is here what [UndoTable] shows it to be: a map of objects
    by id for each type of object, with its ordered unique indices.  A pointer to an
    object is the id of the object; following it when the object is not there any more
    is [assert_failed].  The sessions of transactions are on, as they are unless blocks
    that are irreversible already are replayed.  [key_value_object] and the
    [index_object]s have the same fields but for the last, so they are one type
    [row].  [K] holds the secondary keys of all the indices, and [key_less] is the
    order of each.  An iterator is an [int]; how many rows are seen by one action is
    far from the limit of that type. *)

From S2P Require Import Prelude UndoIndex UndoRepr UndoTable ResourceLimits.
Open Scope Z_scope.

(** ** Objects *)

Record table_id_object : Set := TableIdObject {
  tid : Z;
  code : Z;
  scope : Z;
  table_name : Z;
  table_payer : account_name;
  count : Z
}.

Record row (A : Type) : Type := Row {
  row_id : Z;
  t_id : Z;
  primary_key : Z;
  payer : account_name;
  payload : A
}.
Arguments Row {A} _ _ _ _ _.
Arguments row_id {A} _.
Arguments t_id {A} _.
Arguments primary_key {A} _.
Arguments payer {A} _.
Arguments payload {A} _.

Inductive index_kind : Set := idx64 | idx128 | idx256 | idx_double | idx_long_double.
#[export] Instance index_kind_eq_dec : EqDecision index_kind.
Proof. solve_decision. Defined.

(** [composite_key_compare] *)
Definition pair_less (a b : Z * Z) : bool := if a.1 <? b.1 then true else if b.1 <? a.1 then false else a.2 <? b.2.

Definition code_scope_table (o : table_id_object) : Z * Z * Z := (code o, scope o, table_name o).
Definition triple_less (a b : Z * Z * Z) : bool :=
  if pair_less a.1 b.1 then true else if pair_less b.1 a.1 then false else a.2 <? b.2.
Definition by_code_scope_table : @order table_id_object := fun a b => triple_less (code_scope_table a) (code_scope_table b).

(** [by_scope_primary] of [key_value_object], [by_primary] of [index_object] *)
Definition by_primary {A} : @order (row A) := fun a b => pair_less (t_id a, primary_key a) (t_id b, primary_key b).

Definition table_id_indices : list (@order table_id_object) := [by_code_scope_table].
Definition key_value_indices : list (@order (row (list Byte.byte))) := [by_primary].

(** ** What is billed for an object *)

Definition overhead_per_row_per_index_ram_bytes : Z := 32.
Definition billable_alignment : Z := 16.
Definition billable_size_v (value : Z) : Z := (value + billable_alignment - 1) / billable_alignment * billable_alignment.
Definition table_id_billable_size : Z := billable_size_v (44 + overhead_per_row_per_index_ram_bytes * 2).
Definition key_value_billable_size : Z := billable_size_v (32 + 8 + 4 + overhead_per_row_per_index_ram_bytes * 2).
Definition index_billable_size (k : index_kind) : Z :=
  billable_size_v (24 + match k with idx64 | idx_double => 8 | idx128 | idx_long_double => 16 | idx256 => 32 end + overhead_per_row_per_index_ram_bytes * 3).

(** ** The chain database, one type of objects at a time *)

Section Chainbase.
Context {V : Type} (indices : list (@order V)).

Definition objects (t : @table V) : list V := (map_to_list (contents t)).*2.

Definition deref (t : @table V) (pointer : Z) : result V := at_or_assert (contents t !! pointer).

(** [create], with the id of the new object *)
Definition db_create (t : @table V) (constructor : Z -> V) : result (Z * @table V) :=
  let r := table_op indices t (Emplace (fun id => Ok (constructor id))) in
  _ ← r.2; Ok (table_next t, r.1).
Definition db_modify (t : @table V) (id : Z) (modifier : V -> V) : result (@table V) :=
  let r := table_op indices t (Modify id (fun v => (modifier v, None))) in
  _ ← r.2; Ok r.1.
Definition db_remove (t : @table V) (id : Z) : result (@table V) :=
  let r := table_op indices t (Remove id) in
  _ ← r.2; Ok r.1.

(** The first object of a list in an order *)
Definition least (lt : @order V) (l : list V) : option V :=
  fold_right (fun v best => match best with Some w => if lt w v then Some w else Some v | None => Some v end) None l.

(** [lower_bound] of a key, [below] being what comes before the key, and
    [upper_bound], [above] being what comes after it; [None] is [end] *)
Definition lower_bound (lt : @order V) (below : V -> bool) (t : @table V) : option V := least lt (filter (fun v => below v = false) (objects t)).
Definition upper_bound (lt : @order V) (above : V -> bool) (t : @table V) : option V := least lt (filter (fun v => above v = true) (objects t)).

(** [find] of a key *)
Definition find_key (lt : @order V) (below above : V -> bool) (t : @table V) : option V :=
  v ← lower_bound lt below t; if above v then None else Some v.

(** [++] and [--] of an iterator to an object; [None] is [end], or what [begin] has no
    more before it *)
Definition successor (lt : @order V) (v : V) (t : @table V) : option V := least lt (filter (fun w => lt v w = true) (objects t)).
Definition predecessor (lt : @order V) (v : V) (t : @table V) : option V := least (flip lt) (filter (fun w => lt w v = true) (objects t)).

(** [--] of [upper_bound] *)
Definition last_not_above (lt : @order V) (above : V -> bool) (t : @table V) : option V := least (flip lt) (filter (fun w => above w = false) (objects t)).
End Chainbase.

(** ** Iterators *)

Record iterator_cache : Set := IteratorCache {
  _table_cache : gmap Z (Z * Z);
  _end_iterator_to_table : list Z;
  _iterator_to_object : list (option Z);
  _object_to_iterator : gmap Z Z
}.
Definition empty_iterator_cache : iterator_cache := IteratorCache ∅ [] [] ∅.

Definition end_iterator_to_index (ei : Z) : Z := - ei - 2.
Definition index_to_end_iterator (indx : Z) : Z := - (indx + 2).

(** [cache_table], for the table with id [tobj] *)
Definition cache_table (ic : iterator_cache) (tobj : Z) : Z * iterator_cache :=
  match _table_cache ic !! tobj with
  | Some entry => (entry.2, ic)
  | None =>
      let ei := index_to_end_iterator (size_of (_end_iterator_to_table ic)) in
      (ei, IteratorCache (<[tobj := (tobj, ei)]> (_table_cache ic)) (_end_iterator_to_table ic ++ [tobj]) (_iterator_to_object ic) (_object_to_iterator ic))
  end.

Definition get_table (ic : iterator_cache) (i : Z) : result Z :=
  match _table_cache ic !! i with Some entry => Ok entry.1 | None => Throw table_not_in_cache end.
Definition get_end_iterator_by_table_id (ic : iterator_cache) (i : Z) : result Z :=
  match _table_cache ic !! i with Some entry => Ok entry.2 | None => Throw table_not_in_cache end.

Definition find_table_by_end_iterator (ic : iterator_cache) (ei : Z) : result (option Z) :=
  EOS_ASSERT ei <? -1 ,, invalid_table_iterator ;;
  let indx := end_iterator_to_index ei in
  Ok (if size_of (_end_iterator_to_table ic) <=? indx then None else _end_iterator_to_table ic !! Z.to_nat indx).

Definition cache_get (ic : iterator_cache) (iterator : Z) : result Z :=
  EOS_ASSERT negb (iterator =? -1) ,, invalid_table_iterator ;;
  EOS_ASSERT 0 <=? iterator ,, table_operation_not_permitted ;;
  EOS_ASSERT iterator <? size_of (_iterator_to_object ic) ,, invalid_table_iterator ;;
  match _iterator_to_object ic !! Z.to_nat iterator with
  | Some (Some obj) => Ok obj
  | _ => Throw table_operation_not_permitted
  end.

Definition cache_remove (ic : iterator_cache) (iterator : Z) : result iterator_cache :=
  EOS_ASSERT negb (iterator =? -1) ,, invalid_table_iterator ;;
  EOS_ASSERT 0 <=? iterator ,, table_operation_not_permitted ;;
  EOS_ASSERT iterator <? size_of (_iterator_to_object ic) ,, invalid_table_iterator ;;
  match _iterator_to_object ic !! Z.to_nat iterator with
  | Some (Some obj) =>
      Ok (IteratorCache (_table_cache ic) (_end_iterator_to_table ic) (<[Z.to_nat iterator := None]> (_iterator_to_object ic)) (delete obj (_object_to_iterator ic)))
  | _ => Ok ic
  end.

Definition cache_add (ic : iterator_cache) (obj : Z) : Z * iterator_cache :=
  match _object_to_iterator ic !! obj with
  | Some iterator => (iterator, ic)
  | None =>
      let l := _iterator_to_object ic ++ [Some obj] in
      (size_of l - 1, IteratorCache (_table_cache ic) (_end_iterator_to_table ic) l (<[obj := size_of l - 1]> (_object_to_iterator ic)))
  end.

(** ** Billing *)

(** What the database functions know of the action that runs: [act] and [receiver] of
    the context, the activated features and the configuration of the node. *)
Record action_env : Set := ActionEnv {
  receiver : account_name;
  act_account : account_name;
  act_authorization : list account_name;
  privileged : bool;
  is_read_only : bool;
  ram_restrictions_activated : bool;
  is_ram_billing_in_notify_allowed : bool
}.

(** The resource limits of accounts, the accounts whose RAM the transaction will
    check ([validate_ram_usage] of [transaction_context]), and [_account_ram_deltas]
    of the action *)
Record ram_billing : Set := RamBilling {
  resource_limits : resource_limits_manager;
  validate_ram_usage : gset account_name;
  _account_ram_deltas : gmap account_name Z
}.

Definition has_authorization (e : action_env) (account : account_name) : bool := existsb (Z.eqb account) (act_authorization e).
Definition require_authorization (e : action_env) (account : account_name) : result unit :=
  EOS_ASSERT has_authorization e account ,, missing_auth_exception ;; Ok ().

(** [transaction_context::add_ram_usage], then [apply_context::add_ram_usage] *)
Definition transaction_add_ram_usage (b : ram_billing) (account : account_name) (ram_delta : Z) : result ram_billing :=
  rl ← add_pending_ram_usage (resource_limits b) account ram_delta;
  Ok (RamBilling rl (if 0 <? ram_delta then {[account]} ∪ validate_ram_usage b else validate_ram_usage b) (_account_ram_deltas b)).
Definition add_ram_usage (b : ram_billing) (account : account_name) (ram_delta : Z) : result ram_billing :=
  b ← transaction_add_ram_usage b account ram_delta;
  Ok (RamBilling (resource_limits b) (validate_ram_usage b)
        (<[account := default 0 (_account_ram_deltas b !! account) + ram_delta]> (_account_ram_deltas b))).

Definition update_db_usage (e : action_env) (b : ram_billing) (payer : account_name) (delta : Z) : result ram_billing :=
  _ ← (if (0 <? delta) && negb (privileged e || (payer =? receiver e) || ram_restrictions_activated e) then
         EOS_ASSERT is_ram_billing_in_notify_allowed e || (receiver e =? act_account e) ,, subjective_block_production_exception ;;
         require_authorization e payer
       else Ok ());
  add_ram_usage b payer delta.

(** The end of [exec_one]: who may be billed for more RAM, when the feature
    [ram_restrictions] is active *)
Definition check_ram_deltas (e : action_env) (b : ram_billing) : result unit :=
  if negb (privileged e) && ram_restrictions_activated e then
    foldM (fun _ (d : account_name * Z) =>
      if (0 <? d.2) && negb (d.1 =? receiver e) then
        EOS_ASSERT receiver e =? act_account e ,, unauthorized_ram_usage_increase ;;
        EOS_ASSERT has_authorization e d.1 ,, unauthorized_ram_usage_increase ;; Ok ()
      else Ok ()) () (map_to_list (_account_ram_deltas b))
  else Ok ().

(** ** Moving over rows

    The functions on iterators of the primary index and of both orders of the
    secondary indices are the same text for different types: the rows [t], their
    order [lt] and the cache [ic] are arguments here.  What they return is the
    iterator, the cache after, and the row whose keys are written out. *)

Section Rows.
Context {A : Type}.

(** [find], [lowerbound] and [upperbound] of a table; [lookup] is given the id of it *)
Definition seek (tab : option table_id_object) (ic : iterator_cache) (lookup : Z -> option (row A)) : Z * iterator_cache * option (row A) :=
  match tab with
  | None => (-1, ic, None)
  | Some tab =>
      let (table_end_itr, ic) := cache_table ic (tid tab) in
      match lookup (tid tab) with
      | None => (table_end_itr, ic, None)
      | Some obj => let (iterator, ic) := cache_add ic (row_id obj) in (iterator, ic, Some obj)
      end
  end.

(** The check of [itr->t_id] *)
Definition of_table (table : Z) (found : option (row A)) : option (row A) :=
  obj ← found; if t_id obj =? table then Some obj else None.

Definition find_primary_key (t : @table (row A)) (id table : Z) : option (row A) :=
  find_key by_primary (fun r => pair_less (t_id r, primary_key r) (table, id)) (fun r => pair_less (table, id) (t_id r, primary_key r)) t.
Definition lower_bound_primary_key (t : @table (row A)) (id table : Z) : option (row A) :=
  of_table table (lower_bound by_primary (fun r => pair_less (t_id r, primary_key r) (table, id)) t).
Definition upper_bound_primary_key (t : @table (row A)) (id table : Z) : option (row A) :=
  of_table table (upper_bound by_primary (fun r => pair_less (table, id) (t_id r, primary_key r)) t).

Definition end_of (tab : option table_id_object) (ic : iterator_cache) : Z * iterator_cache :=
  match tab with None => (-1, ic) | Some tab => cache_table ic (tid tab) end.

Definition next (lt : @order (row A)) (t : @table (row A)) (ic : iterator_cache) (iterator : Z) : result (Z * iterator_cache * option (row A)) :=
  if iterator <? -1 then Ok (-1, ic, None)
  else
    obj ← cache_get ic iterator; obj ← deref t obj;
    match of_table (t_id obj) (successor lt obj t) with
    | None => end_itr ← get_end_iterator_by_table_id ic (t_id obj); Ok (end_itr, ic, None)
    | Some r => let (i, ic) := cache_add ic (row_id r) in Ok (i, ic, Some r)
    end.

(** [tab->id] of a table that a cache points to.  When a table is removed, its object
    stays in [removed_values] of the session if it is older than the session, with an
    id below [kept_below]; if not, it is disposed of. *)
Definition table_id_at (tables : @table table_id_object) (kept_below pointer : Z) : result Z :=
  match contents tables !! pointer with
  | Some tab => Ok (tid tab)
  | None => if pointer <? kept_below then Ok pointer else Throw assert_failed
  end.

Definition previous (lt : @order (row A)) (tables : @table table_id_object) (kept_below : Z) (t : @table (row A)) (ic : iterator_cache) (iterator : Z)
    : result (Z * iterator_cache * option (row A)) :=
  found ← (if iterator <? -1 then
             tab ← find_table_by_end_iterator ic iterator;
             match tab with
             | None => Throw invalid_table_iterator
             | Some tab => tab_id ← table_id_at tables kept_below tab; Ok (of_table tab_id (last_not_above lt (fun r => tab_id <? t_id r) t))
             end
           else
             obj ← cache_get ic iterator; obj ← deref t obj; Ok (of_table (t_id obj) (predecessor lt obj t)));
  match found with
  | None => Ok (-1, ic, None)
  | Some r => let (i, ic) := cache_add ic (row_id r) in Ok (i, ic, Some r)
  end.
End Rows.

(** ** The context of an action *)

Section ApplyContext.
Context {K : Type} (key_less : index_kind -> K -> K -> bool).

Definition key_value_object : Type := row (list Byte.byte).
Definition index_object : Type := row K.

Definition by_secondary (k : index_kind) : @order index_object := fun a b =>
  if t_id a <? t_id b then true else if t_id b <? t_id a then false
  else if key_less k (payload a) (payload b) then true else if key_less k (payload b) (payload a) then false
  else primary_key a <? primary_key b.
Definition index_indices (k : index_kind) : list (@order index_object) := [by_primary; by_secondary k].

(** [kept_below] is [old_next_id] of the tables in the session of the transaction. *)
Record apply_context : Type := ApplyContext {
  table_ids : @table table_id_object;
  key_values : @table key_value_object;
  index_objects : index_kind -> @table index_object;
  billing : ram_billing;
  keyval_cache : iterator_cache;
  itr_cache : index_kind -> iterator_cache;
  kept_below : Z
}.

Definition with_table_ids (c : apply_context) (t : @table table_id_object) : apply_context :=
  ApplyContext t (key_values c) (index_objects c) (billing c) (keyval_cache c) (itr_cache c) (kept_below c).
Definition with_key_values (c : apply_context) (t : @table key_value_object) : apply_context :=
  ApplyContext (table_ids c) t (index_objects c) (billing c) (keyval_cache c) (itr_cache c) (kept_below c).
Definition with_index_objects (c : apply_context) (k : index_kind) (t : @table index_object) : apply_context :=
  ApplyContext (table_ids c) (key_values c) (fun k' => if decide (k' = k) then t else index_objects c k') (billing c) (keyval_cache c) (itr_cache c) (kept_below c).
Definition with_billing (c : apply_context) (b : ram_billing) : apply_context :=
  ApplyContext (table_ids c) (key_values c) (index_objects c) b (keyval_cache c) (itr_cache c) (kept_below c).
Definition with_keyval_cache (c : apply_context) (ic : iterator_cache) : apply_context :=
  ApplyContext (table_ids c) (key_values c) (index_objects c) (billing c) ic (itr_cache c) (kept_below c).
Definition with_itr_cache (c : apply_context) (k : index_kind) (ic : iterator_cache) : apply_context :=
  ApplyContext (table_ids c) (key_values c) (index_objects c) (billing c) (keyval_cache c) (fun k' => if decide (k' = k) then ic else itr_cache c k') (kept_below c).

Definition bill (e : action_env) (c : apply_context) (payer : account_name) (delta : Z) : result apply_context :=
  b ← update_db_usage e (billing c) payer delta; Ok (with_billing c b).

Definition find_table (c : apply_context) (code scope table_name : Z) : option table_id_object :=
  find_key by_code_scope_table (fun o => triple_less (code_scope_table o) (code, scope, table_name))
    (fun o => triple_less (code, scope, table_name) (code_scope_table o)) (table_ids c).

(** With the id of the table *)
Definition find_or_create_table (e : action_env) (c : apply_context) (code scope table_name : Z) (payer : account_name) : result (Z * apply_context) :=
  match find_table c code scope table_name with
  | Some existing_tid => Ok (tid existing_tid, c)
  | None =>
      c ← bill e c payer table_id_billable_size;
      created ← db_create table_id_indices (table_ids c) (fun id => TableIdObject id code scope table_name payer 0);
      Ok (created.1, with_table_ids c created.2)
  end.

Definition remove_table (e : action_env) (c : apply_context) (o : table_id_object) : result apply_context :=
  c ← bill e c (table_payer o) (- table_id_billable_size);
  t ← db_remove table_id_indices (table_ids c) (tid o); Ok (with_table_ids c t).

(** [++t.count] and [--t.count] of a table *)
Definition add_to_count (c : apply_context) (table_pointer : Z) (n : Z) : result apply_context :=
  t ← db_modify table_id_indices (table_ids c) table_pointer
        (fun o => TableIdObject (tid o) (code o) (scope o) (table_name o) (table_payer o) (wrap32 (count o + n)));
  Ok (with_table_ids c t).

(** What [db_remove_i64] and [remove] do when a row has gone *)
Definition remove_table_if_empty (e : action_env) (c : apply_context) (table_pointer : Z) : result apply_context :=
  table_obj ← deref (table_ids c) table_pointer;
  if count table_obj =? 0 then remove_table e c table_obj else Ok c.

(** ** Rows of tables *)

Definition db_store_i64 (e : action_env) (c : apply_context) (scope table_name : Z) (payer : account_name) (id : Z) (buffer : list Byte.byte)
    : result (Z * apply_context) :=
  EOS_ASSERT negb (is_read_only e) ,, table_operation_not_permitted ;;
  tab ← find_or_create_table e c (receiver e) scope table_name payer;
  let (tableid, c) := tab : Z * apply_context in
  EOS_ASSERT negb (payer =? 0) ,, invalid_table_payer ;;
  obj ← db_create key_value_indices (key_values c) (fun row_id => Row row_id tableid id payer buffer);
  let c := with_key_values c obj.2 in
  c ← add_to_count c tableid 1;
  c ← bill e c payer (size_of buffer + key_value_billable_size);
  let ic := (cache_table (keyval_cache c) tableid).2 in
  let (iterator, ic) := cache_add ic obj.1 in
  Ok (iterator, with_keyval_cache c ic).

(** The row of an iterator, for a contract that is to change it *)
Definition own_row {A} (e : action_env) (c : apply_context) (t : @table (row A)) (ic : iterator_cache) (iterator : Z) : result (row A) :=
  EOS_ASSERT negb (is_read_only e) ,, table_operation_not_permitted ;;
  obj ← cache_get ic iterator; obj ← deref t obj;
  table_obj ← get_table ic (t_id obj); table_obj ← deref (table_ids c) table_obj;
  EOS_ASSERT code table_obj =? receiver e ,, table_access_violation ;;
  Ok obj.

Definition db_update_i64 (e : action_env) (c : apply_context) (iterator : Z) (new_payer : account_name) (buffer : list Byte.byte) : result apply_context :=
  obj ← own_row e c (key_values c) (keyval_cache c) iterator;
  let old_size := size_of (payload obj) + key_value_billable_size in
  let new_size := size_of buffer + key_value_billable_size in
  let new_payer := if new_payer =? 0 then payer obj else new_payer in
  c ← (if negb (payer obj =? new_payer) then c ← bill e c (payer obj) (- old_size); bill e c new_payer new_size
       else if negb (old_size =? new_size) then bill e c (payer obj) (new_size - old_size)
       else Ok c);
  t ← db_modify key_value_indices (key_values c) (row_id obj) (fun o => Row (row_id o) (t_id o) (primary_key o) new_payer buffer);
  Ok (with_key_values c t).

Definition db_remove_i64 (e : action_env) (c : apply_context) (iterator : Z) : result apply_context :=
  obj ← own_row e c (key_values c) (keyval_cache c) iterator;
  c ← bill e c (payer obj) (- (size_of (payload obj) + key_value_billable_size));
  table_obj ← get_table (keyval_cache c) (t_id obj);
  c ← add_to_count c table_obj (-1);
  t ← db_remove key_value_indices (key_values c) (row_id obj);
  let c := with_key_values c t in
  c ← remove_table_if_empty e c table_obj;
  ic ← cache_remove (keyval_cache c) iterator;
  Ok (with_keyval_cache c ic).

(** With what is copied to the buffer *)
Definition db_get_i64 (c : apply_context) (iterator buffer_size : Z) : result (Z * list Byte.byte) :=
  obj ← cache_get (keyval_cache c) iterator; obj ← deref (key_values c) obj;
  let s := size_of (payload obj) in
  if buffer_size =? 0 then Ok (s, [])
  else let copy_size := Z.min buffer_size s in Ok (copy_size, take (Z.to_nat copy_size) (payload obj)).

(** What a function that moves over rows returns: the iterator and the row whose keys
    are written out, with the cache after *)
Definition in_keyval_cache (c : apply_context) (r : Z * iterator_cache * option key_value_object) : Z * option key_value_object * apply_context :=
  (r.1.1, r.2, with_keyval_cache c r.1.2).

Definition db_next_i64 (c : apply_context) (iterator : Z) : result (Z * option key_value_object * apply_context) :=
  r ← next by_primary (key_values c) (keyval_cache c) iterator; Ok (in_keyval_cache c r).
Definition db_previous_i64 (c : apply_context) (iterator : Z) : result (Z * option key_value_object * apply_context) :=
  r ← previous by_primary (table_ids c) (kept_below c) (key_values c) (keyval_cache c) iterator; Ok (in_keyval_cache c r).
Definition db_find_i64 (c : apply_context) (code scope table_name id : Z) : Z * option key_value_object * apply_context :=
  in_keyval_cache c (seek (find_table c code scope table_name) (keyval_cache c) (find_primary_key (key_values c) id)).
Definition db_lowerbound_i64 (c : apply_context) (code scope table_name id : Z) : Z * option key_value_object * apply_context :=
  in_keyval_cache c (seek (find_table c code scope table_name) (keyval_cache c) (lower_bound_primary_key (key_values c) id)).
Definition db_upperbound_i64 (c : apply_context) (code scope table_name id : Z) : Z * option key_value_object * apply_context :=
  in_keyval_cache c (seek (find_table c code scope table_name) (keyval_cache c) (upper_bound_primary_key (key_values c) id)).
Definition db_end_i64 (c : apply_context) (code scope table_name : Z) : Z * apply_context :=
  let r := end_of (find_table c code scope table_name) (keyval_cache c) in (r.1, with_keyval_cache c r.2).

(** ** [generic_index] *)

Definition store (e : action_env) (c : apply_context) (k : index_kind) (scope table_name : Z) (payer : account_name) (id : Z) (value : K)
    : result (Z * apply_context) :=
  EOS_ASSERT negb (is_read_only e) ,, table_operation_not_permitted ;;
  EOS_ASSERT negb (payer =? 0) ,, invalid_table_payer ;;
  tab ← find_or_create_table e c (receiver e) scope table_name payer;
  let (tab, c) := tab : Z * apply_context in
  obj ← db_create (index_indices k) (index_objects c k) (fun row_id => Row row_id tab id payer value);
  let c := with_index_objects c k obj.2 in
  c ← add_to_count c tab 1;
  c ← bill e c payer (index_billable_size k);
  let ic := (cache_table (itr_cache c k) tab).2 in
  let (iterator, ic) := cache_add ic obj.1 in
  Ok (iterator, with_itr_cache c k ic).

Definition remove (e : action_env) (c : apply_context) (k : index_kind) (iterator : Z) : result apply_context :=
  obj ← own_row e c (index_objects c k) (itr_cache c k) iterator;
  c ← bill e c (payer obj) (- index_billable_size k);
  table_obj ← get_table (itr_cache c k) (t_id obj);
  c ← add_to_count c table_obj (-1);
  t ← db_remove (index_indices k) (index_objects c k) (row_id obj);
  let c := with_index_objects c k t in
  c ← remove_table_if_empty e c table_obj;
  ic ← cache_remove (itr_cache c k) iterator;
  Ok (with_itr_cache c k ic).

Definition update (e : action_env) (c : apply_context) (k : index_kind) (iterator : Z) (new_payer : account_name) (secondary : K) : result apply_context :=
  obj ← own_row e c (index_objects c k) (itr_cache c k) iterator;
  let new_payer := if new_payer =? 0 then payer obj else new_payer in
  c ← (if negb (payer obj =? new_payer)
       then c ← bill e c (payer obj) (- index_billable_size k); bill e c new_payer (index_billable_size k)
       else Ok c);
  t ← db_modify (index_indices k) (index_objects c k) (row_id obj) (fun o => Row (row_id o) (t_id o) (primary_key o) new_payer secondary);
  Ok (with_index_objects c k t).

(** The rows before a secondary key of a table, and those after it *)
Definition below_secondary (k : index_kind) (table : Z) (secondary : K) (r : index_object) : bool :=
  if t_id r <? table then true else if table <? t_id r then false else key_less k (payload r) secondary.
Definition above_secondary (k : index_kind) (table : Z) (secondary : K) (r : index_object) : bool :=
  if table <? t_id r then true else if t_id r <? table then false else key_less k secondary (payload r).

Definition find_secondary_key (k : index_kind) (t : @table index_object) (secondary : K) (table : Z) : option index_object :=
  find_key (by_secondary k) (below_secondary k table secondary) (above_secondary k table secondary) t.
Definition lower_bound_secondary_key (k : index_kind) (t : @table index_object) (secondary : K) (table : Z) : option index_object :=
  of_table table (lower_bound (by_secondary k) (below_secondary k table secondary) t).
Definition upper_bound_secondary_key (k : index_kind) (t : @table index_object) (secondary : K) (table : Z) : option index_object :=
  of_table table (upper_bound (by_secondary k) (above_secondary k table secondary) t).

Definition in_itr_cache (c : apply_context) (k : index_kind) (r : Z * iterator_cache * option index_object) : Z * option index_object * apply_context :=
  (r.1.1, r.2, with_itr_cache c k r.1.2).

Definition find_secondary (c : apply_context) (k : index_kind) (code scope table_name : Z) (secondary : K) : Z * option index_object * apply_context :=
  in_itr_cache c k (seek (find_table c code scope table_name) (itr_cache c k) (find_secondary_key k (index_objects c k) secondary)).
Definition lowerbound_secondary (c : apply_context) (k : index_kind) (code scope table_name : Z) (secondary : K) : Z * option index_object * apply_context :=
  in_itr_cache c k (seek (find_table c code scope table_name) (itr_cache c k) (lower_bound_secondary_key k (index_objects c k) secondary)).
Definition upperbound_secondary (c : apply_context) (k : index_kind) (code scope table_name : Z) (secondary : K) : Z * option index_object * apply_context :=
  in_itr_cache c k (seek (find_table c code scope table_name) (itr_cache c k) (upper_bound_secondary_key k (index_objects c k) secondary)).
Definition end_secondary (c : apply_context) (k : index_kind) (code scope table_name : Z) : Z * apply_context :=
  let r := end_of (find_table c code scope table_name) (itr_cache c k) in (r.1, with_itr_cache c k r.2).
Definition next_secondary (c : apply_context) (k : index_kind) (iterator : Z) : result (Z * option index_object * apply_context) :=
  r ← next (by_secondary k) (index_objects c k) (itr_cache c k) iterator; Ok (in_itr_cache c k r).
Definition previous_secondary (c : apply_context) (k : index_kind) (iterator : Z) : result (Z * option index_object * apply_context) :=
  r ← previous (by_secondary k) (table_ids c) (kept_below c) (index_objects c k) (itr_cache c k) iterator; Ok (in_itr_cache c k r).

Definition find_primary (c : apply_context) (k : index_kind) (code scope table_name primary : Z) : Z * option index_object * apply_context :=
  in_itr_cache c k (seek (find_table c code scope table_name) (itr_cache c k) (find_primary_key (index_objects c k) primary)).
Definition lowerbound_primary (c : apply_context) (k : index_kind) (code scope table_name primary : Z) : Z * option index_object * apply_context :=
  in_itr_cache c k (seek (find_table c code scope table_name) (itr_cache c k) (lower_bound_primary_key (index_objects c k) primary)).
Definition upperbound_primary (c : apply_context) (k : index_kind) (code scope table_name primary : Z) : Z * option index_object * apply_context :=
  in_itr_cache c k (seek (find_table c code scope table_name) (itr_cache c k) (upper_bound_primary_key (index_objects c k) primary)).
Definition next_primary (c : apply_context) (k : index_kind) (iterator : Z) : result (Z * option index_object * apply_context) :=
  r ← next by_primary (index_objects c k) (itr_cache c k) iterator; Ok (in_itr_cache c k r).
Definition previous_primary (c : apply_context) (k : index_kind) (iterator : Z) : result (Z * option index_object * apply_context) :=
  r ← previous by_primary (table_ids c) (kept_below c) (index_objects c k) (itr_cache c k) iterator; Ok (in_itr_cache c k r).
Definition get_index_row (c : apply_context) (k : index_kind) (iterator : Z) : result index_object :=
  obj ← cache_get (itr_cache c k) iterator; deref (index_objects c k) obj.

(** ** The calls of contracts

    [webassembly/database.cpp]: what each call returns and writes out.  That keys of
    [idx256] have two words and that floats are numbers is checked before. *)

Inductive db_call : Type :=
| DbStore (scope table_name payer id : Z) (buffer : list Byte.byte)
| DbUpdate (iterator payer : Z) (buffer : list Byte.byte)
| DbRemove (iterator : Z)
| DbGet (iterator buffer_size : Z)
| DbNext (iterator : Z)
| DbPrevious (iterator : Z)
| DbFind (code scope table_name id : Z)
| DbLowerbound (code scope table_name id : Z)
| DbUpperbound (code scope table_name id : Z)
| DbEnd (code scope table_name : Z)
| IdxStore (k : index_kind) (scope table_name payer id : Z) (secondary : K)
| IdxUpdate (k : index_kind) (iterator payer : Z) (secondary : K)
| IdxRemove (k : index_kind) (iterator : Z)
| IdxFindSecondary (k : index_kind) (code scope table_name : Z) (secondary : K)
| IdxFindPrimary (k : index_kind) (code scope table_name primary : Z)
| IdxLowerbound (k : index_kind) (code scope table_name : Z) (secondary : K)
| IdxUpperbound (k : index_kind) (code scope table_name : Z) (secondary : K)
| IdxEnd (k : index_kind) (code scope table_name : Z)
| IdxNext (k : index_kind) (iterator : Z)
| IdxPrevious (k : index_kind) (iterator : Z).

Record db_output : Type := DbOutput {
  returned : Z;
  primary_out : option Z;
  secondary_out : option K;
  bytes_out : list Byte.byte
}.
Definition returns (iterator : Z) : db_output := DbOutput iterator None None [].
Definition primary_of {A} (r : Z * option (row A) * apply_context) : db_output * apply_context :=
  (DbOutput r.1.1 (primary_key <$> r.1.2) None [], r.2).

Definition call (e : action_env) (c : apply_context) (o : db_call) : result (db_output * apply_context) :=
  match o with
  | DbStore scope table_name payer id buffer => r ← db_store_i64 e c scope table_name payer id buffer; Ok (returns r.1, r.2)
  | DbUpdate iterator payer buffer => c ← db_update_i64 e c iterator payer buffer; Ok (returns 0, c)
  | DbRemove iterator => c ← db_remove_i64 e c iterator; Ok (returns 0, c)
  | DbGet iterator buffer_size => r ← db_get_i64 c iterator buffer_size; Ok (DbOutput r.1 None None r.2, c)
  | DbNext iterator => primary_of <$> db_next_i64 c iterator
  | DbPrevious iterator => primary_of <$> db_previous_i64 c iterator
  | DbFind code scope table_name id => let r := db_find_i64 c code scope table_name id in Ok (returns r.1.1, r.2)
  | DbLowerbound code scope table_name id => let r := db_lowerbound_i64 c code scope table_name id in Ok (returns r.1.1, r.2)
  | DbUpperbound code scope table_name id => let r := db_upperbound_i64 c code scope table_name id in Ok (returns r.1.1, r.2)
  | DbEnd code scope table_name => let r := db_end_i64 c code scope table_name in Ok (returns r.1, r.2)
  | IdxStore k scope table_name payer id secondary => r ← store e c k scope table_name payer id secondary; Ok (returns r.1, r.2)
  | IdxUpdate k iterator payer secondary => c ← update e c k iterator payer secondary; Ok (returns 0, c)
  | IdxRemove k iterator => c ← remove e c k iterator; Ok (returns 0, c)
  | IdxFindSecondary k code scope table_name secondary => Ok (primary_of (find_secondary c k code scope table_name secondary))
  | IdxFindPrimary k code scope table_name primary =>
      let r := find_primary c k code scope table_name primary in Ok (DbOutput r.1.1 None (payload <$> r.1.2) [], r.2)
  | IdxLowerbound k code scope table_name secondary =>
      let r := lowerbound_secondary c k code scope table_name secondary in Ok (DbOutput r.1.1 (primary_key <$> r.1.2) (payload <$> r.1.2) [], r.2)
  | IdxUpperbound k code scope table_name secondary =>
      let r := upperbound_secondary c k code scope table_name secondary in Ok (DbOutput r.1.1 (primary_key <$> r.1.2) (payload <$> r.1.2) [], r.2)
  | IdxEnd k code scope table_name => let r := end_secondary c k code scope table_name in Ok (returns r.1, r.2)
  | IdxNext k iterator => primary_of <$> next_secondary c k iterator
  | IdxPrevious k iterator => primary_of <$> previous_secondary c k iterator
  end.

(** [start_undo_session] of the transaction: from here on removed tables are kept if
    they were there before.  No action runs yet. *)
Definition start_transaction (c : apply_context) : apply_context :=
  ApplyContext (table_ids c) (key_values c) (index_objects c) (billing c) empty_iterator_cache (fun _ => empty_iterator_cache) (table_next (table_ids c)).

(** The context of a new action: no iterators *)
Definition new_context (c : apply_context) : apply_context :=
  ApplyContext (table_ids c) (key_values c) (index_objects c)
    (RamBilling (resource_limits (billing c)) (validate_ram_usage (billing c)) ∅) empty_iterator_cache (fun _ => empty_iterator_cache) (kept_below c).

(** The database calls of one receiver in [exec_one], its check, and [finalize_trace].  The context is
    kept when the next account is notified of the action. *)
Definition run_receiver (e : action_env) (c : apply_context) (calls : list db_call) : result (list db_output * apply_context) :=
  r ← foldM (fun (r : list db_output * apply_context) o => r' ← call e r.2 o; Ok (r.1 ++ [r'.1], r'.2)) ([], c) calls;
  _ ← check_ram_deltas e (billing r.2);
  Ok (r.1, with_billing r.2 (RamBilling (resource_limits (billing r.2)) (validate_ram_usage (billing r.2)) ∅)).

(** An action with the accounts that are notified of it *)
Definition run_action (c : apply_context) (receivers : list (action_env * list db_call)) : result (list db_output * apply_context) :=
  foldM (fun (r : list db_output * apply_context) x => r' ← run_receiver x.1 r.2 x.2; Ok (r.1 ++ r'.1, r'.2)) ([], new_context c) receivers.
End ApplyContext.
