(* ===== verification/ContractRows.v ===== *)
(** * The rows of one table of a contract

    No code of its own: what [ContractTables] does over the ordered indices of the
    whole chain database, it does within one table; an iterator is a place in that
    table. *)

From S2P Require Import Prelude UndoIndex UndoOrder UndoRepr UndoTable ResourceLimits ContractTables.
Open Scope Z_scope.

(** ** The first of a list *)

Section Least.
Context {V : Type} (lt : @order V).
Implicit Types l : list V.

Lemma least_cons x l : least lt (x :: l) = match least lt l with Some w => if lt w x then Some w else Some x | None => Some x end.
Proof. done. Qed.

Lemma least_elem l v : least lt l = Some v -> v ∈ l.
Proof.
  revert v. induction l as [|x l IH]; [done|]. intros v. rewrite least_cons. destruct (least lt l) as [w|] eqn:E; [|intros [= ->]; by left].
  destruct (lt w x); intros [= ->]; [right; by apply IH|by left].
Qed.

Lemma least_None l : least lt l = None -> l = [].
Proof. destruct l as [|x l]; [done|]. rewrite least_cons. destruct (least lt l) as [v|]; [destruct (lt v x)|]; done. Qed.

Lemma least_least (Hsw : strict_weak lt) l v w : least lt l = Some v -> w ∈ l -> lt w v = false.
Proof.
  revert v w. induction l as [|x l IH]; [done|]. intros v w. rewrite least_cons. destruct (least lt l) as [u|] eqn:E.
  - destruct (lt u x) eqn:Ex; intros [= <-] [->|Hw]%elem_of_cons.
    + apply not_true_is_false. intros H. pose proof (sw_trans _ Hsw _ _ _ Ex H) as H'. by rewrite (sw_irrefl _ Hsw) in H'.
    + by apply IH.
    + apply (sw_irrefl _ Hsw).
    + apply not_true_is_false. intros H. pose proof (IH _ _ eq_refl Hw). destruct (sw_cotrans _ Hsw _ _ u H); congruence.
  - apply least_None in E as ->. intros [= ->] [->|?%elem_of_nil]%elem_of_cons; [|done]. apply (sw_irrefl _ Hsw).
Qed.

(** Elements that are not apart are the same. *)
Definition told_apart l : Prop := forall v w, v ∈ l -> w ∈ l -> lt v w = false -> lt w v = false -> v = w.

Lemma least_agree (Hsw : strict_weak lt) l l' : (forall v, v ∈ l <-> v ∈ l') -> told_apart l -> least lt l = least lt l'.
Proof.
  intros Hin Ha. destruct (least lt l) as [v|] eqn:E, (least lt l') as [w|] eqn:E'.
  - pose proof (least_elem _ _ E) as Hv. pose proof (least_elem _ _ E') as Hw. f_equal. apply Ha; [done|by apply Hin| |].
    + apply (least_least Hsw _ _ _ E'). by apply Hin.
    + apply (least_least Hsw _ _ _ E). by apply Hin.
  - apply least_None in E' as ->. apply least_elem, Hin, elem_of_nil in E. done.
  - apply least_None in E as ->. apply least_elem, Hin, elem_of_nil in E'. done.
  - done.
Qed.

Lemma flip_strict_weak : strict_weak lt -> strict_weak (flip lt).
Proof. intros [H1 H2 H3]. split; cbn; [done|by eauto|]. intros a b c H. destruct (H3 _ _ c H); auto. Qed.
End Least.

Lemma least_fmap {V W} (lt : @order V) (lt' : @order W) (f : V -> W) l :
  (forall v w, v ∈ l -> w ∈ l -> lt' (f v) (f w) = lt v w) -> least lt' (f <$> l) = f <$> least lt l.
Proof.
  induction l as [|x l IH]; [done|]. intros Hf. rewrite fmap_cons, !least_cons, IH by (intros; apply Hf; by right).
  destruct (least lt l) as [w|] eqn:E; [|done]. cbn. rewrite Hf; [by destruct (lt w x)|right; by eapply least_elem|by left].
Qed.

(** ** Lists of rows, in an order that compares tables first *)

Section InTable.
Context {A : Type} (lt : @order (row A)) (Hsw : strict_weak lt).
Context (before : Z -> Z -> Prop) (tables_first : forall r s, before (t_id r) (t_id s) -> lt r s = true).
Implicit Types l : list (row A).

(** The first row of what begins in a table is the first row of what is in the table. *)
Lemma least_of_table T l (P : row A -> Prop) `{!forall r, Decision (P r)} : told_apart lt l -> (forall r, r ∈ l -> P r -> t_id r = T \/ before T (t_id r)) ->
  of_table T (least lt (filter P l)) = least lt (filter (fun r => P r /\ t_id r = T) l).
Proof.
  intros Ha HT. destruct (least lt (filter (fun r => P r /\ t_id r = T) l)) as [s|] eqn:E'.
  - pose proof (least_elem _ _ _ E') as [[HPs HsT] Hs]%list_elem_of_filter.
    destruct (least lt (filter P l)) as [r|] eqn:E; [|apply least_None in E; assert (s ∈ filter P l) as Hin by (by apply list_elem_of_filter); rewrite E in Hin; by apply elem_of_nil in Hin].
    pose proof (least_elem _ _ _ E) as [HPr Hr]%list_elem_of_filter. assert (Hsr : lt s r = false) by (apply (least_least _ Hsw _ _ _ E); by apply list_elem_of_filter).
    destruct (HT r Hr HPr) as [HrT|HrT]; [|rewrite <- HsT in HrT; rewrite (tables_first s r HrT) in Hsr; done].
    cbn. rewrite HrT, Z.eqb_refl. f_equal. apply Ha; [done..| |done]. apply (least_least _ Hsw _ _ _ E'). by apply list_elem_of_filter.
  - apply least_None in E'. destruct (least lt (filter P l)) as [r|] eqn:E; [|done]. cbn. destruct (Z.eqb_spec (t_id r) T) as [HrT|HrT]; [exfalso|done].
    apply least_elem in E as [HPr Hr]%list_elem_of_filter. assert (r ∈ filter (fun r => P r /\ t_id r = T) l) as Hin by (by apply list_elem_of_filter).
    rewrite E' in Hin. by apply elem_of_nil in Hin.
Qed.
End InTable.

(** ** Rows by table and primary key *)

(** A table is known by its code, scope and name. *)
Definition table_key : Type := Z * Z * Z.

(** What it does to read a table that is no longer there *)
Class FreedRead : Type := read_freed : result ().
#[export] Instance freed_fails : FreedRead := Throw assert_failed.
Definition freed_is_empty : FreedRead := Ok ().

Section Rows.
Context {A : Type}.

(** A row of a table: its primary key, who pays for it, and what is in it *)
Definition entry : Type := Z * (account_name * A).

(** The rows of tables, the rows that iterators point to, and the tables of end
    iterators.  A row that has gone is [None]; of a table that has gone [inr] tells if
    it was there before the transaction. *)
Record rows_spec : Type := RowsSpec {
  rows_of : table_key -> gmap Z (account_name * A);
  cursors : list (option (table_key * Z));
  ends : list (table_key + bool)
}.

Definition position {B} `{EqDecision B} (x : B) (l : list B) : option nat := fst <$> list_find (fun y => y = x) l.

Definition cursor_to (sp : rows_spec) (k : table_key) (id : Z) : Z * rows_spec :=
  match position (Some (k, id)) (cursors sp) with
  | Some i => (Z.of_nat i, sp)
  | None => (size_of (cursors sp), RowsSpec (rows_of sp) (cursors sp ++ [Some (k, id)]) (ends sp))
  end.

Definition end_cursor (sp : rows_spec) (k : table_key) : Z * rows_spec :=
  match position (inl k) (ends sp) with
  | Some i => (- Z.of_nat i - 2, sp)
  | None => (- size_of (ends sp) - 2, RowsSpec (rows_of sp) (cursors sp) (ends sp ++ [inl k]))
  end.

Definition entries (sp : rows_spec) (k : table_key) : list entry := map_to_list (rows_of sp k).

Definition seek_spec (present : bool) (sp : rows_spec) (k : table_key) (lookup : list entry -> option entry) : Z * rows_spec * option entry :=
  if present then
    let (e, sp) := end_cursor sp k in
    match lookup (entries sp k) with
    | None => (e, sp, None)
    | Some x => let (i, sp) := cursor_to sp k x.1 in (i, sp, Some x)
    end
  else (-1, sp, None).

(** The row of an iterator *)
Definition cursor_at (sp : rows_spec) (iterator : Z) : result (table_key * Z) :=
  EOS_ASSERT negb (iterator =? -1) ,, invalid_table_iterator ;;
  EOS_ASSERT 0 <=? iterator ,, table_operation_not_permitted ;;
  EOS_ASSERT iterator <? size_of (cursors sp) ,, invalid_table_iterator ;;
  match cursors sp !! Z.to_nat iterator with Some (Some x) => Ok x | _ => Throw table_operation_not_permitted end.

Definition entry_at (sp : rows_spec) (iterator : Z) : result (table_key * entry) :=
  x ← cursor_at sp iterator; v ← at_or_assert (rows_of sp x.1 !! x.2); Ok (x.1, (x.2, v)).

Definition next_spec (lt : @order entry) (sp : rows_spec) (iterator : Z) : result (Z * rows_spec * option entry) :=
  if iterator <? -1 then Ok (-1, sp, None)
  else
    x ← entry_at sp iterator;
    match least lt (filter (fun y => lt x.2 y = true) (entries sp x.1)) with
    | None => let (e, sp) := end_cursor sp x.1 in Ok (e, sp, None)
    | Some y => let (i, sp) := cursor_to sp x.1 y.1 in Ok (i, sp, Some y)
    end.

(** There is nothing before the end of a table that has gone.  When the transaction
    created the table, the code finds this out from memory that is free: in the model
    that is an assertion that fails, in the specification it has no effect. *)
Definition previous_spec `{FreedRead} (lt : @order entry) (sp : rows_spec) (iterator : Z) : result (Z * rows_spec * option entry) :=
  found ← (if iterator <? -1 then
             match ends sp !! Z.to_nat (- iterator - 2) with
             | None => Throw invalid_table_iterator
             | Some (inr true) => Ok None
             | Some (inr false) => _ ← read_freed; Ok None
             | Some (inl k) => Ok (pair k <$> least (flip lt) (entries sp k))
             end
           else
             x ← entry_at sp iterator;
             Ok (pair x.1 <$> least (flip lt) (filter (fun y => lt y x.2 = true) (entries sp x.1))));
  match found with
  | None => Ok (-1, sp, None)
  | Some (k, y) => let (i, sp) := cursor_to sp k y.1 in Ok (i, sp, Some y)
  end.
End Rows.
Arguments rows_spec A : clear implicits.
Arguments entry A : clear implicits.

(** ** The rows of the chain database *)

Definition key_of (tabs : gmap Z table_id_object) (T : Z) : option table_key := code_scope_table <$> tabs !! T.

(** What has become of the table of an end iterator, [kept] being the id that the
    transaction starts with *)
Definition end_place (kept : Z) (tabs : gmap Z table_id_object) (T : Z) : table_key + bool :=
  match key_of tabs T with Some k => inl k | None => inr (T <? kept) end.

Definition view {A} (r : row A) : entry A := (primary_key r, (payer r, payload r)).

Lemma end_place_inl kept tabs T k : end_place kept tabs T = inl k <-> key_of tabs T = Some k.
Proof. unfold end_place. destruct (key_of tabs T); split; congruence. Qed.

Record tables_ok (tabs : gmap Z table_id_object) (next : Z) : Prop := {
  to_id : forall T o, tabs !! T = Some o -> tid o = T /\ T < next;
  to_key : forall T T' k, key_of tabs T = Some k -> key_of tabs T' = Some k -> T = T'
}.

Definition cursor_ok {A} (tabs : gmap Z table_id_object) (rows : gmap Z (row A)) (p : option Z) (y : option (table_key * Z)) : Prop :=
  match p, y with
  | None, None => True
  | Some p, Some (k, id) => exists r, rows !! p = Some r /\ key_of tabs (t_id r) = Some k /\ primary_key r = id
  | _, _ => False
  end.

(** The rows [t] and the iterators [ic] of the code are those of [sp]. *)
Record rows_ok {A} (kept : Z) (tabs : gmap Z table_id_object) (next : Z) (t : @table (row A)) (ic : iterator_cache) (sp : rows_spec A) : Prop := {
  ro_id : forall p r, contents t !! p = Some r -> row_id r = p /\ p < table_next t;
  ro_table : forall p r, contents t !! p = Some r -> is_Some (key_of tabs (t_id r));
  ro_unique : forall p q r s, contents t !! p = Some r -> contents t !! q = Some s -> t_id r = t_id s -> primary_key r = primary_key s -> p = q;
  ro_rows : forall T k id v, key_of tabs T = Some k ->
    (rows_of sp k !! id = Some v <-> exists p r, contents t !! p = Some r /\ t_id r = T /\ view r = (id, v));
  ro_absent : forall k, (forall T, key_of tabs T <> Some k) -> rows_of sp k = ∅;
  ro_cursors : Forall2 (cursor_ok tabs (contents t)) (_iterator_to_object ic) (cursors sp);
  ro_objects : forall p i, _object_to_iterator ic !! p = Some i <-> 0 <= i /\ _iterator_to_object ic !! Z.to_nat i = Some (Some p);
  ro_cached : forall p r, is_Some (_object_to_iterator ic !! p) -> contents t !! p = Some r -> is_Some (_table_cache ic !! t_id r);
  ro_ends : Forall2 (fun T y => y = end_place kept tabs T) (_end_iterator_to_table ic) (ends sp);
  ro_table_cache : forall T x, _table_cache ic !! T = Some x <-> exists n : nat, _end_iterator_to_table ic !! n = Some T /\ x = (T, - Z.of_nat n - 2);
  ro_end_ids : forall T, T ∈ _end_iterator_to_table ic -> T < next
}.

Lemma position_Some {B} `{EqDecision B} (x : B) l i : l !! i = Some x -> (forall j, l !! j = Some x -> j = i) -> position x l = Some i.
Proof.
  intros Hi Hu. unfold position. replace (list_find _ l) with (Some (i, x)); [done|]. symmetry. apply list_find_Some. split_and!; [done..|].
  intros j y Hj Hlt ->. apply Hu in Hj. lia.
Qed.

Lemma position_None {B} `{EqDecision B} (x : B) l : x ∉ l -> position x l = None.
Proof. intros H. unfold position. replace (list_find _ l) with (@None (nat * B)); [done|]. symmetry. apply list_find_None, Forall_forall. intros y Hy ->. done. Qed.

Section RowsOk.
Context {A : Type} (kept : Z) (tabs : gmap Z table_id_object) (next : Z) (t : @table (row A)) (ic : iterator_cache) (sp : rows_spec A).
Hypothesis (Ht : tables_ok tabs next) (Hr : rows_ok kept tabs next t ic sp).

(** A row by its table and primary key *)
Lemma cursor_row p q k id : cursor_ok tabs (contents t) (Some p) (Some (k, id)) -> cursor_ok tabs (contents t) (Some q) (Some (k, id)) -> p = q.
Proof.
  intros (r & Er & Ek & Eid) (s & Es & Ek' & Eid'). apply (ro_unique _ _ _ _ _ _ Hr p q r s); [done..| |congruence]. by apply (to_key _ _ Ht _ _ k).
Qed.

Lemma object_at i p : _iterator_to_object ic !! i = Some (Some p) -> _object_to_iterator ic !! p = Some (Z.of_nat i).
Proof. intros H. apply (ro_objects _ _ _ _ _ _ Hr). split; [lia|]. by rewrite Nat2Z.id. Qed.

Lemma cursor_to_ok p r k : contents t !! p = Some r -> key_of tabs (t_id r) = Some k -> is_Some (_table_cache ic !! t_id r) ->
  (cache_add ic p).1 = (cursor_to sp k (primary_key r)).1 /\ rows_ok kept tabs next t (cache_add ic p).2 (cursor_to sp k (primary_key r)).2.
Proof.
  intros Er Ek Hc. pose proof (ro_cursors _ _ _ _ _ _ Hr) as Hcur. assert (Hp : cursor_ok tabs (contents t) (Some p) (Some (k, primary_key r))) by (by exists r).
  unfold cache_add, cursor_to. destruct (_object_to_iterator ic !! p) as [i|] eqn:Ei.
  - pose proof (proj1 (ro_objects _ _ _ _ _ _ Hr p i) Ei) as [Hi Epi]. destruct (Forall2_lookup_l _ _ _ _ _ Hcur Epi) as ([[k' id']|] & Ey & Hy); [|done].
    assert ((k', id') = (k, primary_key r)) as [= -> ->]. { destruct Hy as (r' & Er' & Ek' & <-). rewrite Er in Er'. injection Er' as <-. congruence. }
    rewrite (position_Some _ _ (Z.to_nat i)); [|done|]. { split; [cbn; lia|done]. }
    intros j Ej. destruct (Forall2_lookup_r _ _ _ _ _ Hcur Ej) as ([q|] & Eq & Hq); [|done].
    assert (q = p) as -> by (by apply (cursor_row _ _ k (primary_key r))). apply object_at in Eq. rewrite Ei in Eq. injection Eq as ->. lia.
  - rewrite position_None.
    + cbn. pose proof (Forall2_length _ _ _ Hcur) as Hlen. split; [unfold size_of; rewrite length_app; cbn; lia|]. destruct Hr. split; cbn; try done.
      * apply Forall2_app; [done|]. by constructor.
      * intros q i. unfold size_of. rewrite length_app. cbn. rewrite Nat2Z.inj_add, Z.add_simpl_r, lookup_insert_Some, lookup_app_Some, list_lookup_singleton_Some, ro_objects0.
        split.
        -- intros [[-> <-]|[Hne [Hi Eq]]]; [split; [lia|]; right; rewrite Nat2Z.id; split; [lia|]; split; [lia|done]|by split; [|left]].
        -- intros [Hi [Eq|(Hge & Hn & [= ->])]]; [|left; split; [done|lia]]. right. split; [|done]. intros ->. apply object_at in Eq. congruence.
      * intros q s. rewrite lookup_insert_is_Some. intros [<-|[_ Hq]] Es; [|by eapply ro_cached0]. assert (s = r) as -> by congruence. done.
    + intros Hin. apply list_elem_of_lookup in Hin as [j Ej]. destruct (Forall2_lookup_r _ _ _ _ _ Hcur Ej) as ([q|] & Eq & Hq); [|done].
      assert (q = p) as -> by (by apply (cursor_row _ _ k (primary_key r))). apply object_at in Eq. congruence.
Qed.

Lemma end_cursor_ok T k : key_of tabs T = Some k -> 
  (cache_table ic T).1 = (end_cursor sp k).1 /\ rows_ok kept tabs next t (cache_table ic T).2 (end_cursor sp k).2 /\ _table_cache (cache_table ic T).2 !! T = Some (T, (end_cursor sp k).1).
Proof.
  intros Ek. pose proof (ro_ends _ _ _ _ _ _ Hr) as He. unfold cache_table, end_cursor. destruct (_table_cache ic !! T) as [x|] eqn:Ex.
  - pose proof (proj1 (ro_table_cache _ _ _ _ _ _ Hr T x) Ex) as (n & En & ->). destruct (Forall2_lookup_l _ _ _ _ _ He En) as (y & Ey & ->). rewrite (proj2 (end_place_inl _ _ _ _) Ek) in Ey.
    rewrite (position_Some _ _ n); [cbn; done|done|]. intros j Ej. destruct (Forall2_lookup_r _ _ _ _ _ He Ej) as (T' & ET & HT). symmetry in HT. apply end_place_inl in HT.
    assert (T' = T) as -> by (by apply (to_key _ _ Ht _ _ k)). assert (Some (T, - Z.of_nat n - 2) = Some (T, - Z.of_nat j - 2)) as [= Hj]; [|lia].
    rewrite <- Ex. apply (ro_table_cache _ _ _ _ _ _ Hr). by exists j.
  - rewrite position_None.
    + unfold index_to_end_iterator. pose proof (Forall2_length _ _ _ He) as Hlen. cbn. unfold size_of. split_and!; [lia| |rewrite lookup_insert_eq; do 2 f_equal; lia].
      destruct Hr. split; cbn; try done.
      * intros p r Hp Er. rewrite lookup_insert_is_Some'. right. by eapply ro_cached0.
      * apply Forall2_app; [done|]. constructor; [|constructor]. symmetry. by apply end_place_inl.
      * intros T' x. rewrite lookup_insert_Some, ro_table_cache0. setoid_rewrite lookup_app_Some. setoid_rewrite list_lookup_singleton_Some. split.
        -- intros [[<- <-]|[Hne (n & En & ->)]]; [|exists n; by split; [left|]]. exists (length (_end_iterator_to_table ic)). split; [right; split_and!; [lia..|done]|f_equal; lia].
        -- intros (n & [En|(Hge & Hn & ->)] & ->); [|left; split; [done|f_equal; lia]]. right. split; [|by exists n]. intros ->.
           assert (_table_cache ic !! T' = Some (T', - Z.of_nat n - 2)); [|congruence]. apply ro_table_cache0. by exists n.
      * intros T' [HT| ->%list_elem_of_singleton]%elem_of_app; [by apply ro_end_ids0|]. unfold key_of in Ek. destruct (tabs !! T) as [o|] eqn:Eo; [|done]. by eapply to_id.
    + intros Hin. apply list_elem_of_lookup in Hin as [j Ej]. destruct (Forall2_lookup_r _ _ _ _ _ He Ej) as (T' & ET & HT). symmetry in HT. apply end_place_inl in HT.
      assert (T' = T) as -> by (by apply (to_key _ _ Ht _ _ k)). assert (_table_cache ic !! T = Some (T, - Z.of_nat j - 2)); [|congruence]. apply (ro_table_cache _ _ _ _ _ _ Hr). by exists j.
Qed.
End RowsOk.

(** ** Orders of rows, and of the rows of one table *)

Record row_order {A} (before : Z -> Z -> Prop) (lt : @order (row A)) (lt' : @order (entry A)) : Prop := {
  or_weak : strict_weak lt;
  or_weak' : strict_weak lt';
  or_tables : forall r s, before (t_id r) (t_id s) -> lt r s = true;
  or_view : forall r s, t_id r = t_id s -> lt' (view r) (view s) = lt r s;
  or_apart : forall r s, lt r s = false -> lt s r = false -> t_id r = t_id s /\ primary_key r = primary_key s
}.

Lemma flip_row_order {A} (lt : @order (row A)) lt' : row_order Z.lt lt lt' -> row_order Z.gt (flip lt) (flip lt').
Proof.
  intros []. split; cbn.
  - by apply flip_strict_weak.
  - by apply flip_strict_weak.
  - intros r s H. apply or_tables0. lia.
  - intros r s H. by apply or_view0.
  - intros r s H1 H2. by apply or_apart0.
Qed.

Lemma elem_of_objects {V} (t : @table V) v : v ∈ objects t <-> exists p, contents t !! p = Some v.
Proof.
  unfold objects. rewrite list_elem_of_fmap. split.
  - intros ([p w] & -> & H%elem_of_map_to_list). by exists p.
  - intros [p H]. exists (p, v). by rewrite elem_of_map_to_list.
Qed.

Section Orders.
Context {A : Type} (kept : Z) (tabs : gmap Z table_id_object) (next : Z) (t : @table (row A)) (ic : iterator_cache) (sp : rows_spec A).
Hypothesis (Ht : tables_ok tabs next) (Hr : rows_ok kept tabs next t ic sp).
Context (before : Z -> Z -> Prop) (lt : @order (row A)) (lt' : @order (entry A)) (Hord : row_order before lt lt').

Lemma elem_of_entries T k x : key_of tabs T = Some k -> x ∈ entries sp k <-> exists r, r ∈ objects t /\ t_id r = T /\ view r = x.
Proof.
  intros Ek. unfold entries. destruct x as [id v]. etrans; [apply elem_of_map_to_list|]. rewrite (ro_rows _ _ _ _ _ _ Hr T k id v Ek). setoid_rewrite elem_of_objects. naive_solver.
Qed.

Lemma objects_told_apart : told_apart lt (objects t).
Proof.
  intros r s (p & Er)%elem_of_objects (q & Es)%elem_of_objects H1 H2. destruct (or_apart _ _ _ Hord r s H1 H2) as [E1 E2].
  assert (p = q) as -> by (by apply (ro_unique _ _ _ _ _ _ Hr p q r s)). congruence.
Qed.

Lemma least_entries T k (P : row A -> Prop) (Q : entry A -> Prop) `{!forall r, Decision (P r)} `{!forall x, Decision (Q x)} :
  key_of tabs T = Some k -> (forall r, t_id r = T -> P r <-> Q (view r)) ->
  least lt' (filter Q (entries sp k)) = view <$> least lt (filter (fun r => P r /\ t_id r = T) (objects t)).
Proof.
  intros Ek HPQ. rewrite <- (least_fmap lt lt' view).
  2:{ intros r s [[_ E1] _]%list_elem_of_filter [[_ E2] _]%list_elem_of_filter. apply (or_view _ _ _ Hord). congruence. }
  apply least_agree; [apply (or_weak' _ _ _ Hord)| |].
  - intros x. rewrite list_elem_of_filter, (elem_of_entries T k x Ek), list_elem_of_fmap. setoid_rewrite list_elem_of_filter. split.
    + intros (Hx & r & Hin & HT & <-). exists r. split; [done|]. split; [|done]. split; [by apply HPQ|done].
    + intros (r & -> & [HP HT] & Hin). split; [by apply HPQ|by exists r].
  - intros x y [_ (r & Er & HrT & <-)%(elem_of_entries T k _ Ek)]%list_elem_of_filter [_ (s & Es & HsT & <-)%(elem_of_entries T k _ Ek)]%list_elem_of_filter.
    rewrite !(or_view _ _ _ Hord) by congruence. intros H1 H2. f_equal. by apply objects_told_apart.
Qed.

Lemma least_of_table_entries T k (P : row A -> Prop) (Q : entry A -> Prop) `{!forall r, Decision (P r)} `{!forall x, Decision (Q x)} :
  key_of tabs T = Some k -> (forall r, t_id r = T -> P r <-> Q (view r)) -> (forall r, P r -> t_id r = T \/ before T (t_id r)) ->
  view <$> of_table T (least lt (filter P (objects t))) = least lt' (filter Q (entries sp k)).
Proof.
  intros Ek HPQ Hb. rewrite (least_of_table lt (or_weak _ _ _ Hord) before (or_tables _ _ _ Hord)); [|apply objects_told_apart|by auto].
  symmetry. by apply least_entries.
Qed.
End Orders.

(** ** Moving over rows *)

Lemma of_table_Some {A} T (found : option (row A)) r : of_table T found = Some r -> found = Some r /\ t_id r = T.
Proof. unfold of_table. destruct found as [s|]; [|done]. cbn. destruct (Z.eqb_spec (t_id s) T); [|done]. by intros [= ->]. Qed.

(** The same place, and caches that still agree *)
Definition same_place {A} (kept : Z) (tabs : gmap Z table_id_object) (next : Z) (t : @table (row A)) (r : Z * iterator_cache * option (row A)) (r' : Z * rows_spec A * option (entry A)) : Prop :=
  r.1.1 = r'.1.1 /\ view <$> r.2 = r'.2 /\ rows_ok kept tabs next t r.1.2 r'.1.2.

Lemma to_row_ok {A} kept tabs next (t : @table (row A)) ic sp T k r : tables_ok tabs next -> rows_ok kept tabs next t ic sp ->
  key_of tabs T = Some k -> t_id r = T -> (exists p, contents t !! p = Some r) -> is_Some (_table_cache ic !! T) ->
  same_place kept tabs next t (let (i, ic) := cache_add ic (row_id r) in (i, ic, Some r)) (let (i, sp) := cursor_to sp k (view r).1 in (i, sp, Some (view r))).
Proof.
  intros Ht Hr Ek HT [p Er] Hc. subst T. destruct (ro_id _ _ _ _ _ _ Hr p r Er) as [-> _].
  destruct (cursor_to_ok _ _ _ _ _ _ Ht Hr p r k Er Ek Hc) as [E1 E2]. unfold view at 1. cbn [fst]. destruct (cache_add ic p), (cursor_to sp k (primary_key r)). cbn in *. by split.
Qed.

Section Moving.
Context {A : Type} (kept : Z) (tabs : gmap Z table_id_object) (next : Z) (t : @table (row A)) (ic : iterator_cache) (sp : rows_spec A).
Hypothesis (Ht : tables_ok tabs next) (Hr : rows_ok kept tabs next t ic sp).

(** What a lookup in a table finds *)
Definition lookup_ok (lookup : Z -> option (row A)) (lookup' : list (entry A) -> option (entry A)) : Prop :=
  forall T k, key_of tabs T = Some k -> view <$> lookup T = lookup' (entries sp k) /\ forall r, lookup T = Some r -> t_id r = T /\ r ∈ objects t.

Lemma end_cursor_entries k k' : entries (end_cursor sp k).2 k' = entries sp k'.
Proof. unfold end_cursor. by destruct (position _ _). Qed.

Lemma seek_ok T o lookup lookup' : tabs !! T = Some o -> lookup_ok lookup lookup' ->
  same_place kept tabs next t (seek (Some o) ic lookup) (seek_spec true sp (code_scope_table o) lookup').
Proof.
  intros Eo Hl. assert (Ek : key_of tabs T = Some (code_scope_table o)) by (unfold key_of; by rewrite Eo). unfold seek, seek_spec.
  destruct (to_id _ _ Ht T o Eo) as [-> _]. destruct (end_cursor_ok _ _ _ _ _ _ Ht Hr T _ Ek) as (E1 & E2 & E3). pose proof (end_cursor_entries (code_scope_table o)) as Hent.
  destruct (Hl T _ Ek) as [Hv Hin]. destruct (cache_table ic T) as [e ic'], (end_cursor sp (code_scope_table o)) as [e' sp']. cbn in E1, E2, E3, Hent. subst e'.
  rewrite Hent, <- Hv. destruct (lookup T) as [r|] eqn:El; [|by split_and!]. destruct (Hin r eq_refl) as [HT Hp]. apply (to_row_ok _ _ _ _ _ _ T); [done..|by apply elem_of_objects|by eexists].
Qed.

Lemma end_of_ok T o : tabs !! T = Some o ->
  (end_of (Some o) ic).1 = (end_cursor sp (code_scope_table o)).1 /\ rows_ok kept tabs next t (end_of (Some o) ic).2 (end_cursor sp (code_scope_table o)).2.
Proof.
  intros Eo. cbn. destruct (to_id _ _ Ht T o Eo) as [-> _]. destruct (end_cursor_ok _ _ _ _ _ _ Ht Hr T (code_scope_table o)) as (E1 & E2 & _); [unfold key_of; by rewrite Eo|done].
Qed.

(** The row of an iterator *)
Lemma cursor_at_ok iterator :
  match cache_get ic iterator, cursor_at sp iterator with
  | Ok p, Ok (k, id) => exists r, contents t !! p = Some r /\ key_of tabs (t_id r) = Some k /\ primary_key r = id /\
      is_Some (_table_cache ic !! t_id r) /\ _iterator_to_object ic !! Z.to_nat iterator = Some (Some p) /\ 0 <= iterator
  | Throw e, Throw e' => e = e'
  | _, _ => False
  end.
Proof.
  unfold cache_get, cursor_at, size_of. rewrite (Forall2_length _ _ _ (ro_cursors _ _ _ _ _ _ Hr)). destruct (negb (iterator =? -1)); [|done].
  destruct (Z.leb_spec 0 iterator); [|done]. destruct (iterator <? _); [|done].
  destruct (_iterator_to_object ic !! Z.to_nat iterator) as [x|] eqn:Ex, (cursors sp !! Z.to_nat iterator) as [y|] eqn:Ey.
  - pose proof (Forall2_lookup_lr _ _ _ _ _ _ (ro_cursors _ _ _ _ _ _ Hr) Ex Ey) as Hxy.
    destruct x as [p|], y as [[k id]|]; try done. destruct Hxy as (r & Er & Ek & Eid). exists r. split_and!; try done.
    apply (ro_cached _ _ _ _ _ _ Hr p r); [|done]. exists (Z.of_nat (Z.to_nat iterator)). by apply (object_at kept tabs next t ic sp Hr).
  - destruct (Forall2_lookup_l _ _ _ _ _ (ro_cursors _ _ _ _ _ _ Hr) Ex) as (z & Ez & _). congruence.
  - destruct (Forall2_lookup_r _ _ _ _ _ (ro_cursors _ _ _ _ _ _ Hr) Ey) as (z & Ez & _). congruence.
  - done.
Qed.

Lemma entry_at_ok iterator :
  match (obj ← cache_get ic iterator; deref t obj), entry_at sp iterator with
  | Ok r, Ok (k, x) => contents t !! row_id r = Some r /\ key_of tabs (t_id r) = Some k /\ view r = x /\
      is_Some (_table_cache ic !! t_id r) /\ _iterator_to_object ic !! Z.to_nat iterator = Some (Some (row_id r)) /\ 0 <= iterator
  | Throw e, Throw e' => e = e'
  | _, _ => False
  end.
Proof.
  pose proof (cursor_at_ok iterator) as H. unfold entry_at. destruct (cache_get ic iterator) as [p|e], (cursor_at sp iterator) as [[k id]|e']; cbn in *; try done.
  destruct H as (r & Er & Ek & Eid & Hc & Hi & Hpos). unfold deref. rewrite Er. cbn.
  assert (Hrow : rows_of sp k !! id = Some (payer r, payload r)).
  { apply (ro_rows _ _ _ _ _ _ Hr (t_id r)); [done|]. exists p, r. unfold view. by rewrite Eid. }
  rewrite Hrow. cbn. destruct (ro_id _ _ _ _ _ _ Hr p r Er) as [-> _]. split_and!; try done. unfold view. by rewrite Eid.
Qed.
End Moving.

(** Both results are values that are related, or the same exception. *)
Definition both {B C} (R : B -> C -> Prop) (r : result B) (r' : result C) : Prop :=
  match r, r' with Ok x, Ok y => R x y | Throw e, Throw e' => e = e' | _, _ => False end.

Lemma both_bind {B C B' C'} (R : B -> C -> Prop) (R' : B' -> C' -> Prop) r r' f f' :
  both R r r' -> (forall x y, R x y -> both R' (f x) (f' y)) -> both R' (r ≫= f) (r' ≫= f').
Proof. destruct r, r'; cbn; try done; by auto. Qed.

Lemma both_impl {B C} (R R' : B -> C -> Prop) r r' : both R r r' -> (forall x y, R x y -> R' x y) -> both R' r r'.
Proof. destruct r, r'; cbn; try done; by auto. Qed.

Section NextPrevious.
Context {A : Type} (tables : @table table_id_object) (t : @table (row A)) (ic : iterator_cache) (sp : rows_spec A).
Abbreviation tabs := (contents tables).
Context (kept next_table : Z) (Ht : tables_ok tabs next_table) (Hr : rows_ok kept tabs next_table t ic sp).
Context (lt : @order (row A)) (lt' : @order (entry A)) (Hord : row_order Z.lt lt lt').

Lemma found_ok T k (found : option (row A)) : key_of tabs T = Some k -> is_Some (_table_cache ic !! T) -> (forall r, found = Some r -> t_id r = T /\ r ∈ objects t) ->
  both (same_place kept tabs next_table t)
    (match found with None => Ok (-1, ic, None) | Some r => let (i, ic) := cache_add ic (row_id r) in Ok (i, ic, Some r) end)
    (match pair k <$> (view <$> found) with None => Ok (-1, sp, None) | Some (k, y) => let (i, sp) := cursor_to sp k y.1 in Ok (i, sp, Some y) end).
Proof.
  intros Ek Hc Hin. destruct found as [r|]; [|by split_and!]. destruct (Hin r eq_refl) as [HT Hp]. cbn [fmap option_fmap option_map].
  pose proof (to_row_ok _ _ _ _ _ _ T k r Ht Hr Ek HT (proj1 (elem_of_objects _ _) Hp) Hc) as Hsp. revert Hsp. by destruct (cache_add ic (row_id r)), (cursor_to sp k (view r).1).
Qed.

Lemma successor_ok T k r : key_of tabs T = Some k -> t_id r = T -> view <$> of_table T (successor lt r t) = least lt' (filter (fun y => lt' (view r) y = true) (entries sp k)).
Proof.
  intros Ek HT. apply (least_of_table_entries kept tabs next_table t ic sp Hr Z.lt lt lt' Hord T k); [done| |].
  - intros s HsT. by rewrite (or_view _ _ _ Hord) by congruence.
  - intros s Hs. destruct (Z.lt_trichotomy T (t_id s)) as [|[|Hlt]]; [by right|by left|]. subst T. pose proof (or_tables _ _ _ Hord _ _ Hlt) as Hlt'.
    pose proof (sw_trans _ (or_weak _ _ _ Hord) _ _ _ Hs Hlt') as H. by rewrite (sw_irrefl _ (or_weak _ _ _ Hord)) in H.
Qed.

Lemma predecessor_ok T k r : key_of tabs T = Some k -> t_id r = T -> view <$> of_table T (predecessor lt r t) = least (flip lt') (filter (fun y => lt' y (view r) = true) (entries sp k)).
Proof.
  intros Ek HT. apply (least_of_table_entries kept tabs next_table t ic sp Hr Z.gt (flip lt) (flip lt') (flip_row_order _ _ Hord) T k); [done| |].
  - intros s HsT. by rewrite (or_view _ _ _ Hord) by congruence.
  - intros s Hs. destruct (Z.lt_trichotomy T (t_id s)) as [Hlt|[|Hlt]]; [|by left|right; lia]. subst T. pose proof (or_tables _ _ _ Hord _ _ Hlt) as Hlt'.
    pose proof (sw_trans _ (or_weak _ _ _ Hord) _ _ _ Hs Hlt') as H. by rewrite (sw_irrefl _ (or_weak _ _ _ Hord)) in H.
Qed.

Lemma last_of_table_ok T k : key_of tabs T = Some k -> view <$> of_table T (last_not_above lt (fun r => T <? t_id r) t) = least (flip lt') (entries sp k).
Proof.
  intros Ek. transitivity (least (flip lt') (filter (fun _ => True) (entries sp k))).
  - apply (least_of_table_entries kept tabs next_table t ic sp Hr Z.gt (flip lt) (flip lt') (flip_row_order _ _ Hord) T k); [done| |].
    + intros s HsT. split; [done|]. intros _. apply Z.ltb_ge. lia.
    + intros s Hs%Z.ltb_ge. destruct (decide (t_id s = T)); [by left|right; lia].
  - f_equal. induction (entries sp k) as [|x l IH]; [done|]. rewrite filter_cons_True by done. by f_equal.
Qed.

(** A table that has gone has no rows. *)
Lemma gone_table_ok T found : key_of tabs T = None -> (forall r : row A, found = Some r -> r ∈ objects t) -> of_table T found = None.
Proof.
  intros Ek Hin. destruct (of_table T found) as [r|] eqn:E; [|done]. apply of_table_Some in E as [E HT]. apply Hin, elem_of_objects in E as [p Er].
  destruct (ro_table _ _ _ _ _ _ Hr p r Er) as [k Hk]. congruence.
Qed.

Lemma next_ok iterator : both (same_place kept tabs next_table t) (next lt t ic iterator) (next_spec lt' sp iterator).
Proof.
  unfold next, next_spec. destruct (iterator <? -1); [by split_and!|]. pose proof (entry_at_ok kept tabs next_table t ic sp Hr iterator) as H.
  destruct (cache_get ic iterator) as [p|e]; cbn in H; [|destruct (entry_at sp iterator) as [[k x]|e']; cbn; [done|congruence]]. cbn.
  destruct (deref t p) as [r|e], (entry_at sp iterator) as [[k x]|e']; cbn in *; try done. destruct H as (Er & Ek & <- & Hc & _).
  pose proof (successor_ok (t_id r) k r Ek eq_refl) as Hs. cbn in Hs. rewrite <- Hs. destruct (of_table _ _) as [s|] eqn:Es; cbn [fmap option_fmap option_map].
  - pose proof (found_ok (t_id r) k (Some s) Ek Hc) as Hf. cbn in Hf. change (view s).1 with (primary_key s). destruct (cache_add ic (row_id s)), (cursor_to sp k (primary_key s)). apply Hf.
    intros s' [= <-]. apply of_table_Some in Es as [Es HT]. split; [done|]. by apply least_elem, list_elem_of_filter in Es as [_ ?].
  - destruct (end_cursor_ok _ _ _ _ _ _ Ht Hr (t_id r) k Ek) as (E1 & E2 & E3). unfold cache_table in *. destruct Hc as [x Hc]. unfold get_end_iterator_by_table_id. rewrite Hc in *.
    cbn in *. destruct (end_cursor sp k) as [e sp']. cbn in *. by split_and!.
Qed.

Lemma previous_ok iterator : both (same_place kept tabs next_table t) (previous lt tables kept t ic iterator) (previous_spec lt' sp iterator).
Proof.
  unfold previous, previous_spec. destruct (Z.ltb_spec iterator (-1)) as [Hlt|Hge].
  - unfold find_table_by_end_iterator, end_iterator_to_index. apply Z.ltb_lt in Hlt as ->. pose proof (ro_ends _ _ _ _ _ _ Hr) as He.
    assert (Hl : (if size_of (_end_iterator_to_table ic) <=? - iterator - 2 then None else _end_iterator_to_table ic !! Z.to_nat (- iterator - 2)) = _end_iterator_to_table ic !! Z.to_nat (- iterator - 2)).
    { unfold size_of. case_comparison; [|done]. symmetry. apply lookup_ge_None. lia. }
    rewrite Hl. clear Hl. cbn. destruct (_end_iterator_to_table ic !! _) as [T|] eqn:ET.
    + destruct (Forall2_lookup_l _ _ _ _ _ He ET) as (y & -> & ->). unfold table_id_at, end_place, key_of. destruct (tabs !! T) as [o|] eqn:Eo; cbn.
      2:{ destruct (T <? kept); [|done]. cbn. rewrite gone_table_ok; [by split_and!|unfold key_of; by rewrite Eo|]. intros r Er. by apply least_elem, list_elem_of_filter in Er as [_ ?]. }
      destruct (to_id _ _ Ht T o Eo) as [-> _]. assert (Ek : key_of tabs T = Some (code_scope_table o)) by (unfold key_of; by rewrite Eo).
      rewrite <- (last_of_table_ok T _ Ek). apply (found_ok T); [done| |].
      * apply list_elem_of_lookup_2 in ET as Hin. exists (T, - Z.of_nat (Z.to_nat (- iterator - 2)) - 2). apply (ro_table_cache _ _ _ _ _ _ Hr). by eexists.
      * intros r [Er HT]%of_table_Some. split; [done|]. by apply least_elem, list_elem_of_filter in Er as [_ ?].
    + destruct (ends sp !! _) as [y|] eqn:Ey; [|done]. destruct (Forall2_lookup_r _ _ _ _ _ He Ey) as (? & ? & _). congruence.
  - pose proof (entry_at_ok kept tabs next_table t ic sp Hr iterator) as H.
    destruct (cache_get ic iterator) as [p|e]; cbn in H; [|destruct (entry_at sp iterator) as [[k x]|e']; cbn; [done|congruence]]. cbn.
    destruct (deref t p) as [r|e], (entry_at sp iterator) as [[k x]|e']; cbn in *; try done. destruct H as (Er & Ek & <- & Hc & _).
    pose proof (predecessor_ok (t_id r) k r Ek eq_refl) as Hs. cbn in Hs. rewrite <- Hs. apply (found_ok (t_id r)); [done..|].
    intros s [Es HT]%of_table_Some. split; [done|]. by apply least_elem, list_elem_of_filter in Es as [_ ?].
Qed.
End NextPrevious.

(** ** Changes of rows and tables *)

Section Changes.
Context {A : Type}.
Implicit Types (sp : rows_spec A) (t : @table (row A)).

Definition with_rows sp (k : table_key) (m : gmap Z (account_name * A)) : rows_spec A :=
  RowsSpec (fun k' => if decide (k' = k) then m else rows_of sp k') (cursors sp) (ends sp).
Definition set_row sp (k : table_key) (id : Z) (v : account_name * A) : rows_spec A := with_rows sp k (<[id := v]> (rows_of sp k)).
Definition drop_row sp (k : table_key) (id iterator : Z) : rows_spec A :=
  let sp := with_rows sp k (delete id (rows_of sp k)) in RowsSpec (rows_of sp) (<[Z.to_nat iterator := None]> (cursors sp)) (ends sp).
Definition forget_table sp (k : table_key) (was_there : bool) : rows_spec A :=
  RowsSpec (rows_of sp) (cursors sp) ((fun y => if decide (y = inl k) then inr was_there else y) <$> ends sp).

Lemma object_live kept tabs next t ic sp p : rows_ok kept tabs next t ic sp -> is_Some (_object_to_iterator ic !! p) -> exists r, contents t !! p = Some r.
Proof.
  intros Hr [i Ei]. apply (ro_objects _ _ _ _ _ _ Hr) in Ei as [_ Ei]. destruct (Forall2_lookup_l _ _ _ _ _ (ro_cursors _ _ _ _ _ _ Hr) Ei) as ([[k id]|] & _ & Hy); [|done].
  destruct Hy as (r & Er & _). by exists r.
Qed.

Lemma cursors_ok_mono tabs (m m' : gmap Z (row A)) ps ys : (forall p r, m !! p = Some r -> exists r', m' !! p = Some r' /\ t_id r' = t_id r /\ primary_key r' = primary_key r) ->
  Forall2 (cursor_ok tabs m) ps ys -> Forall2 (cursor_ok tabs m') ps ys.
Proof.
  intros Hm H. eapply Forall2_impl; [exact H|]. intros [p|] [[k id]|]; cbn; try done. intros (r & Er & Ek & Eid). destruct (Hm p r Er) as (r' & Er' & E1 & E2). exists r'. by rewrite E1, E2.
Qed.

Lemma key_of_inj tabs next T T' k : tables_ok tabs next -> key_of tabs T = Some k -> key_of tabs T' = Some k -> T = T'.
Proof. intros Ht. apply (to_key _ _ Ht). Qed.

Lemma insert_row_ok kept tabs next t ic sp T k id v revision cs : tables_ok tabs next -> rows_ok kept tabs next t ic sp -> key_of tabs T = Some k -> rows_of sp k !! id = None ->
  rows_ok kept tabs next (Table (<[table_next t := Row (table_next t) T id v.1 v.2]> (contents t)) (table_next t + 1) revision cs) ic (set_row sp k id v).
Proof.
  intros Ht Hr Ek Hno. assert (Hfresh : contents t !! table_next t = None).
  { destruct (contents t !! table_next t) as [r|] eqn:E; [|done]. apply (ro_id _ _ _ _ _ _ Hr) in E. lia. }
  assert (Hnew : forall p r, contents t !! p = Some r -> t_id r = T -> primary_key r <> id).
  { intros p r Er HT Hid. assert (rows_of sp k !! id = Some (payer r, payload r)); [|congruence]. apply (ro_rows _ _ _ _ _ _ Hr T k); [done|]. exists p, r. unfold view. by rewrite Hid. }
  pose proof (object_live _ _ _ _ _ _ (table_next t) Hr) as Hlive. destruct Hr. split; cbn [contents table_next rows_of cursors ends set_row with_rows]; try done.
  - intros p r [[<- <-]|[Hne Er]]%lookup_insert_Some; [cbn; split; [done|lia]|]. destruct (ro_id0 p r Er). split; [done|lia].
  - intros p r [[<- <-]|[Hne Er]]%lookup_insert_Some; [by exists k|by eapply ro_table0].
  - intros p q r s [[<- <-]|[Hp Er]]%lookup_insert_Some [[<- <-]|[Hq Es]]%lookup_insert_Some; cbn; [done| | |by eapply ro_unique0].
    + intros HT Hid. by destruct (Hnew q s Es).
    + intros HT Hid. by destruct (Hnew p r Er).
  - intros T' k' id' v' Ek'. setoid_rewrite lookup_insert_Some. case_decide as Hk; [subst k'|].
    + assert (T' = T) as -> by (by eapply key_of_inj). rewrite lookup_insert_Some, (ro_rows0 T k) by done. split.
      * intros [[<- <-]|[Hne (p & r & Er & HT & Hv)]]; [eexists _, _; split; [by left|]; by destruct v|]. exists p, r. split; [right; split; [intros <-; congruence|done]|done].
      * intros (p & r & [[<- <-]|[Hne Er]] & HT & Hv); [left; unfold view in Hv; cbn in Hv; injection Hv as -> <-; by destruct v|]. right. split; [|by exists p, r].
        intros ->. unfold view in Hv. injection Hv as Hid _. by destruct (Hnew p r Er HT).
    + rewrite (ro_rows0 T' k') by done. split.
      * intros (p & r & Er & HT & Hv). exists p, r. split; [right; split; [intros <-; congruence|done]|done].
      * intros (p & r & [[<- <-]|[Hne Er]] & HT & Hv); [cbn in HT; subst T'; congruence|]. by exists p, r.
  - intros k' Hk'. case_decide; [|by apply ro_absent0]. subst k'. by destruct (Hk' T).
  - eapply cursors_ok_mono; [|done]. intros p r Er. exists r. rewrite lookup_insert_ne; [done|intros <-; congruence].
  - intros p r Hp [[<- <-]|[Hne Er]]%lookup_insert_Some; [|by eapply ro_cached0]. destruct (Hlive Hp). congruence.
Qed.

Lemma update_row_ok kept tabs next t ic sp p r r' k : tables_ok tabs next -> rows_ok kept tabs next t ic sp -> contents t !! p = Some r ->
  row_id r' = row_id r -> t_id r' = t_id r -> primary_key r' = primary_key r -> key_of tabs (t_id r) = Some k ->
  rows_ok kept tabs next (with_contents t (<[p := r']> (contents t))) ic (set_row sp k (primary_key r) (payer r', payload r')).
Proof.
  intros Ht Hr Er E1 E2 E3 Ek. assert (Hsame : forall q s, <[p := r']> (contents t) !! q = Some s -> exists s', contents t !! q = Some s' /\ row_id s = row_id s' /\ t_id s = t_id s' /\ primary_key s = primary_key s').
  { intros q s [[<- <-]|[Hne Es]]%lookup_insert_Some; [by exists r|by exists s]. }
  destruct Hr. split; cbn [contents table_next rows_of cursors ends set_row with_rows with_contents]; try done.
  - intros q s (s' & Es & -> & _)%Hsame. by apply ro_id0.
  - intros q s (s' & Es & _ & -> & _)%Hsame. by eapply ro_table0.
  - intros q q' s s' (s1 & Es1 & _ & -> & ->)%Hsame (s2 & Es2 & _ & -> & ->)%Hsame. by apply ro_unique0.
  - intros T' k' id' v' Ek'. setoid_rewrite lookup_insert_Some. case_decide as Hk; [subst k'|].
    + assert (T' = t_id r) as -> by (by eapply key_of_inj). rewrite lookup_insert_Some, (ro_rows0 (t_id r) k) by done. split.
      * intros [[<- <-]|[Hne (q & s & Es & HT & Hv)]]; [exists p, r'; split; [by left|]; unfold view; by rewrite E2, E3|].
        exists q, s. split; [right; split; [|done]|done]. intros <-. injection Hv as Hid _. congruence.
      * intros (q & s & [[<- <-]|[Hne Es]] & HT & Hv); [left; unfold view in Hv; by injection Hv as <- <-|]. right. split; [|by exists q, s].
        intros <-. injection Hv as Hid _. apply Hne. by apply (ro_unique0 p q r s).
    + rewrite (ro_rows0 T' k') by done. split.
      * intros (q & s & Es & HT & Hv). exists q, s. split; [right; split; [intros <-; congruence|done]|done].
      * intros (q & s & [[<- <-]|[Hne Es]] & HT & Hv); [congruence|]. by exists q, s.
  - intros k' Hk'. case_decide; [|by apply ro_absent0]. subst k'. by destruct (Hk' (t_id r)).
  - eapply cursors_ok_mono; [|done]. intros q s Es. destruct (decide (q = p)) as [->|Hne]; [|exists s; by rewrite lookup_insert_ne].
    exists r'. rewrite lookup_insert_eq. split; [done|]. assert (s = r) as -> by congruence. done.
  - intros q s Hq (s' & Es & _ & -> & _)%Hsame. by eapply ro_cached0.
Qed.

Lemma remove_row_ok kept tabs next t ic sp p r k iterator : tables_ok tabs next -> rows_ok kept tabs next t ic sp -> contents t !! p = Some r -> key_of tabs (t_id r) = Some k ->
  0 <= iterator -> _iterator_to_object ic !! Z.to_nat iterator = Some (Some p) ->
  rows_ok kept tabs next (with_contents t (delete p (contents t)))
    (IteratorCache (_table_cache ic) (_end_iterator_to_table ic) (<[Z.to_nat iterator := None]> (_iterator_to_object ic)) (delete p (_object_to_iterator ic)))
    (drop_row sp k (primary_key r) iterator).
Proof.
  intros Ht Hr Er Ek Hi Ei. pose proof (object_at _ _ _ _ _ _ Hr _ _ Ei) as Ep. rewrite Z2Nat.id in Ep by done.
  assert (Honce : forall i, _iterator_to_object ic !! i = Some (Some p) -> i = Z.to_nat iterator).
  { intros i E. apply (object_at _ _ _ _ _ _ Hr) in E. rewrite Ep in E. injection E as ->. by rewrite Nat2Z.id. }
  pose proof (lookup_lt_Some _ _ _ Ei) as Hlt. destruct Hr. split; cbn [contents table_next rows_of cursors ends drop_row with_rows with_contents _table_cache _end_iterator_to_table _iterator_to_object _object_to_iterator]; try done.
  - intros q s [_ Es]%lookup_delete_Some. by apply ro_id0.
  - intros q s [_ Es]%lookup_delete_Some. by eapply ro_table0.
  - intros q q' s s' [_ Es]%lookup_delete_Some [_ Es']%lookup_delete_Some. by apply ro_unique0.
  - intros T' k' id' v' Ek'. setoid_rewrite lookup_delete_Some. case_decide as Hk; [subst k'|].
    + assert (T' = t_id r) as -> by (by eapply key_of_inj). rewrite lookup_delete_Some, (ro_rows0 (t_id r) k) by done. split.
      * intros [Hne (q & s & Es & HT & Hv)]. exists q, s. split; [split; [|done]|done]. intros <-. injection Hv as Hid _. congruence.
      * intros (q & s & [Hne Es] & HT & Hv). split; [|by exists q, s]. intros <-. injection Hv as Hid _. apply Hne. by apply (ro_unique0 p q r s).
    + rewrite (ro_rows0 T' k') by done. split; [|intros (q & s & [_ Es] & H); by exists q, s].
      intros (q & s & Es & HT & Hv). exists q, s. split; [split; [intros <-; congruence|done]|done].
  - intros k' Hk'. case_decide; [|by apply ro_absent0]. subst k'. by destruct (Hk' (t_id r)).
  - apply Forall2_same_length_lookup. pose proof (Forall2_length _ _ _ ro_cursors0) as Hlen. split; [by rewrite !length_insert|].
    intros i x y. destruct (decide (i = Z.to_nat iterator)) as [->|Hne].
    + rewrite !list_lookup_insert_eq by lia. by intros [= <-] [= <-].
    + rewrite !list_lookup_insert_ne by done. intros Ex Ey. pose proof (Forall2_lookup_lr _ _ _ _ _ _ ro_cursors0 Ex Ey) as Hxy.
      destruct x as [q|], y as [[k' id']|]; try done. destruct Hxy as (s & Es & H). exists s. split; [|done]. rewrite lookup_delete_ne; [done|]. intros <-. by apply Hne, Honce.
  - intros q i. rewrite lookup_delete_Some, ro_objects0. split.
    + intros [Hne [Hpos Eq]]. split; [done|]. rewrite list_lookup_insert_ne; [done|]. intros H. rewrite <- H, Ei in Eq. congruence.
    + intros [Hpos [(_ & [=] & _)|[Hne Eq]]%list_lookup_insert_Some]. split; [|done]. intros <-. apply Hne. symmetry. by apply Honce.
  - intros q s Hq [Hne Es]%lookup_delete_Some. eapply ro_cached0; [|done]. by rewrite lookup_delete_ne in Hq.
Qed.

(** Only the keys of tables matter. *)
Lemma rows_ok_keys kept tabs tabs' next next' t ic sp : (forall T, key_of tabs' T = key_of tabs T) -> next <= next' -> rows_ok kept tabs next t ic sp -> rows_ok kept tabs' next' t ic sp.
Proof.
  intros Hk Hn []. split; try done.
  - intros p r. rewrite Hk. apply ro_table0.
  - intros T k id v. rewrite Hk. apply ro_rows0.
  - intros k H. apply ro_absent0. intros T. by rewrite <- Hk.
  - eapply Forall2_impl; [done|]. intros [p|] [[k id]|]; cbn; try done. by setoid_rewrite Hk.
  - eapply Forall2_impl; [done|]. intros T y. unfold end_place. by rewrite Hk.
  - intros T HT. specialize (ro_end_ids0 T HT). lia.
Qed.

Lemma add_table_ok kept tabs next t ic sp o : tables_ok tabs next -> rows_ok kept tabs next t ic sp -> (forall T, key_of tabs T <> Some (code_scope_table o)) ->
  rows_ok kept (<[next := o]> tabs) (next + 1) t ic sp.
Proof.
  intros Ht Hr Hno. assert (Hfresh : tabs !! next = None). { destruct (tabs !! next) as [o'|] eqn:E; [|done]. apply (to_id _ _ Ht) in E. lia. }
  assert (Hkey : forall T, T <> next -> key_of (<[next := o]> tabs) T = key_of tabs T). { intros T HT. unfold key_of. by rewrite lookup_insert_ne. }
  assert (Hold : forall p r, contents t !! p = Some r -> t_id r <> next). { intros p r Er H. destruct (ro_table _ _ _ _ _ _ Hr p r Er) as [k Hk]. unfold key_of in Hk. by rewrite H, Hfresh in Hk. }
  destruct Hr. split; try done.
  - intros p r Er. rewrite Hkey by (by eapply Hold). by eapply ro_table0.
  - intros T k id v Ek. destruct (decide (T = next)) as [->|Hne]; [|apply ro_rows0; by rewrite <- Hkey].
    unfold key_of in Ek. rewrite lookup_insert_eq in Ek. injection Ek as <-. rewrite (ro_absent0 _ Hno), lookup_empty. split; [done|]. intros (p & r & Er & HT & _). by destruct (Hold p r Er).
  - intros k Hk. apply ro_absent0. intros T HT. apply (Hk T). rewrite Hkey; [done|]. intros ->. unfold key_of in HT. by rewrite Hfresh in HT.
  - eapply Forall2_impl; [done|]. intros [p|] [[k id]|]; cbn; try done. intros (r & Er & Ek & Eid). exists r. rewrite Hkey by (by eapply Hold). done.
  - apply Forall2_same_length_lookup. split; [by eapply Forall2_length|]. intros i T y ET Ey. unfold end_place. rewrite Hkey; [by eapply (Forall2_lookup_lr _ _ _ _ _ _ ro_ends0)|].
    apply list_elem_of_lookup_2 in ET. specialize (ro_end_ids0 T ET). lia.
  - intros T HT. specialize (ro_end_ids0 T HT). lia.
Qed.

Lemma delete_table_ok kept tabs next t ic sp T k : tables_ok tabs next -> rows_ok kept tabs next t ic sp -> key_of tabs T = Some k -> rows_of sp k = ∅ ->
  rows_ok kept (delete T tabs) next t ic (forget_table sp k (T <? kept)).
Proof.
  intros Ht Hr Ek Hempty. assert (Hkey : forall T', T' <> T -> key_of (delete T tabs) T' = key_of tabs T'). { intros T' HT. unfold key_of. by rewrite lookup_delete_ne. }
  assert (Hkeyn : key_of (delete T tabs) T = None) by (unfold key_of; by rewrite lookup_delete_eq).
  assert (Hno : forall p r, contents t !! p = Some r -> t_id r <> T).
  { intros p r Er HT. assert (rows_of sp k !! primary_key r = Some (payer r, payload r)) as H; [|by rewrite Hempty, lookup_empty in H].
    apply (ro_rows _ _ _ _ _ _ Hr T k); [done|]. by exists p, r. }
  destruct Hr. split; cbn [forget_table rows_of cursors ends]; try done.
  - intros p r Er. rewrite Hkey by (by eapply Hno). by eapply ro_table0.
  - intros T' k' id v Ek'. apply ro_rows0. rewrite <- Hkey; [done|]. intros ->. congruence.
  - intros k' Hk. destruct (decide (k' = k)) as [->|Hne]; [done|]. apply ro_absent0. intros T' HT. apply (Hk T'). rewrite Hkey; [done|]. intros ->. congruence.
  - eapply Forall2_impl; [done|]. intros [p|] [[k' id]|]; cbn; try done. intros (r & Er & Ek' & Eid). exists r. rewrite Hkey by (by eapply Hno). done.
  - apply Forall2_fmap_r. eapply Forall2_impl; [done|]. intros T' y ->. unfold end_place. destruct (decide (T' = T)) as [->|Hne].
    + rewrite Hkeyn, Ek. cbn. by case_decide.
    + rewrite Hkey by done. cbn. case_decide as H; [|done]. apply end_place_inl in H. destruct Hne. by apply (to_key _ _ Ht _ _ k).
Qed.
End Changes.
