(* ===== verification/ContractSpec.v ===== *)
(** * What the tables of contracts promise

    No code of its own: a contract sees, for each code, scope and table name, maps of
    primary keys to rows, ordered by primary key or by secondary key, whatever other
    tables there are; the calls of [ContractTables] do what is said here of such
    maps, RAM and errors included. *)

From S2P Require Import Prelude UndoIndex UndoOrder UndoRepr UndoTable ResourceLimits ContractTables ContractRows.
Open Scope Z_scope.

(** ** The orders of the indices *)

Ltac split_ltb := repeat match goal with H : context [?x <? ?y] |- _ => destruct (Z.ltb_spec x y) | |- context [?x <? ?y] => destruct (Z.ltb_spec x y) end.

Lemma pair_less_lt a b : pair_less a b = true <-> a.1 < b.1 \/ a.1 = b.1 /\ a.2 < b.2.
Proof. unfold pair_less. split_ltb; split; try done; lia. Qed.

Lemma pair_less_apart a b : pair_less a b = false -> pair_less b a = false -> a = b.
Proof. destruct a, b. unfold pair_less. cbn. split_ltb; try done; intros _ _; f_equal; lia. Qed.

Lemma pair_less_weak : strict_weak pair_less.
Proof.
  split.
  - intros a. apply not_true_is_false. rewrite pair_less_lt. lia.
  - intros a b c. rewrite !pair_less_lt. lia.
  - intros a b c. rewrite !pair_less_lt. lia.
Qed.

(** A key, and what is ordered by a key *)
Lemma weak_of_key {V W} (f : V -> W) (lt : @order W) : strict_weak lt -> strict_weak (fun a b => lt (f a) (f b)).
Proof. intros [H1 H2 H3]. split; [by intros|by intros *; apply H2|by intros *; apply H3]. Qed.

(** One order after another *)
Definition lexicographic {V} (lt1 lt2 : @order V) : @order V := fun a b => if lt1 a b then true else if lt1 b a then false else lt2 a b.

Lemma lexicographic_weak {V} (lt1 lt2 : @order V) : strict_weak lt1 -> strict_weak lt2 -> strict_weak (lexicographic lt1 lt2).
Proof.
  intros [H1 H2 H3] [K1 K2 K3]. unfold lexicographic. split.
  - intros a. by rewrite H1.
  - intros a b c. destruct (lt1 a b) eqn:Eab.
    + destruct (lt1 b c) eqn:Ebc; [by rewrite (H2 _ _ _ Eab Ebc)|]. destruct (lt1 c b) eqn:Ecb; [done|].
      intros _ _. destruct (H3 a b c Eab) as [->|E]; [done|congruence].
    + destruct (lt1 b a) eqn:Eba; [done|]. destruct (lt1 b c) eqn:Ebc.
      * intros _ _. destruct (H3 b c a Ebc) as [E|E]; [congruence|by rewrite E].
      * destruct (lt1 c b) eqn:Ecb; [done|]. intros Kab Kbc. destruct (lt1 a c) eqn:Eac; [done|]. destruct (lt1 c a) eqn:Eca; [|by eapply K2].
        destruct (H3 c a b Eca); congruence.
  - intros a b c. destruct (lt1 a b) eqn:Eab.
    + intros _. destruct (H3 a b c Eab) as [E|E]; rewrite E; [by left|by right].
    + destruct (lt1 b a) eqn:Eba; [done|]. intros Kab. destruct (lt1 a c) eqn:Eac; [by left|]. destruct (lt1 c a) eqn:Eca.
      * right. destruct (H3 c a b Eca) as [E|E]; [by rewrite E|congruence].
      * destruct (lt1 c b) eqn:Ecb; [by right|]. destruct (lt1 b c) eqn:Ebc; [destruct (H3 b c a Ebc); congruence|]. by apply K3.
Qed.

Lemma Z_ltb_weak : strict_weak Z.ltb.
Proof. split; intros *; rewrite ?Z.ltb_lt; [apply Z.ltb_irrefl|lia|lia]. Qed.

Lemma triple_less_weak : strict_weak triple_less.
Proof.
  apply (lexicographic_weak (fun a b : Z * Z * Z => pair_less a.1 b.1) (fun a b => a.2 <? b.2)); [apply (weak_of_key fst), pair_less_weak|apply (weak_of_key snd), Z_ltb_weak].
Qed.

Lemma triple_less_apart a b : triple_less a b = false -> triple_less b a = false -> a = b.
Proof.
  unfold triple_less. destruct (pair_less a.1 b.1) eqn:E1; [done|]. destruct (pair_less b.1 a.1) eqn:E2; [done|].
  intros. rewrite (surjective_pairing a), (surjective_pairing b). f_equal; [by apply pair_less_apart|]. split_ltb; try done. lia.
Qed.

Section Orders.
Context {A : Type}.

Definition primary_first : @order (entry A) := fun x y => x.1 <? y.1.

Lemma by_primary_order : row_order Z.lt (@by_primary A) primary_first.
Proof.
  split.
  - apply (weak_of_key (fun r : row A => (t_id r, primary_key r))), pair_less_weak.
  - apply (weak_of_key fst), Z_ltb_weak.
  - intros r s H. apply pair_less_lt. by left.
  - intros r s H. unfold by_primary, primary_first, pair_less, view. cbn. rewrite H, Z.ltb_irrefl. done.
  - intros r s H1 H2. pose proof (pair_less_apart _ _ H1 H2) as [= -> ->]. done.
Qed.

Context (key_less : index_kind -> A -> A -> bool) (Hkeys : forall k, strict_weak (key_less k)).

Definition secondary_first (k : index_kind) : @order (entry A) := lexicographic (fun x y => key_less k x.2.2 y.2.2) primary_first.

Lemma by_secondary_order k : row_order Z.lt (by_secondary key_less k) (secondary_first k).
Proof.
  split.
  - apply (lexicographic_weak (fun r s : row A => t_id r <? t_id s)); [apply (weak_of_key t_id), Z_ltb_weak|].
    apply (lexicographic_weak (fun r s : row A => key_less k (payload r) (payload s))); [apply (weak_of_key payload), Hkeys|apply (weak_of_key primary_key), Z_ltb_weak].
  - apply lexicographic_weak; [apply (weak_of_key (fun x : entry A => x.2.2)), Hkeys|apply (weak_of_key fst), Z_ltb_weak].
  - intros r s H%Z.ltb_lt. unfold by_secondary. by rewrite H.
  - intros r s H. unfold by_secondary, secondary_first, lexicographic, primary_first, view. cbn. by rewrite H, Z.ltb_irrefl.
  - intros r s. unfold by_secondary. destruct (Z.ltb_spec (t_id r) (t_id s)); [done|]. destruct (Z.ltb_spec (t_id s) (t_id r)); [done|].
    destruct (key_less k (payload r) (payload s)); [done|]. destruct (key_less k (payload s) (payload r)); [done|].
    intros ?%Z.ltb_ge ?%Z.ltb_ge. lia.
Qed.
End Orders.

(** ** Lookups in one table *)

(** [find], where what is above the key comes after what is not *)
Lemma find_key_least {V} (lt : @order V) (below above : V -> bool) (t : @table V) : strict_weak lt -> told_apart lt (objects t) ->
  (forall v w, above v = true -> above w = false -> lt w v = true) ->
  find_key lt below above t = least lt (filter (fun v => below v = false /\ above v = false) (objects t)).
Proof.
  intros Hsw Ha Hab. unfold find_key, lower_bound. destruct (least lt (filter (fun v => below v = false) (objects t))) as [v|] eqn:E; cbn.
  - pose proof (least_elem _ _ _ E) as [Hbv Hv]%list_elem_of_filter. destruct (least lt (filter (fun v => below v = false /\ above v = false) _)) as [w|] eqn:E'.
    + pose proof (least_elem _ _ _ E') as [[Hbw Haw] Hw]%list_elem_of_filter.
      assert (Hwv : lt w v = false) by (apply (least_least _ Hsw _ _ _ E); by apply list_elem_of_filter).
      destruct (above v) eqn:Eav; [by rewrite (Hab v w) in Hwv|]. f_equal. apply Ha; [done..| |done]. apply (least_least _ Hsw _ _ _ E'). by apply list_elem_of_filter.
    + apply least_None in E'. destruct (above v) eqn:Eav; [done|]. assert (v ∈ filter (fun v => below v = false /\ above v = false) (objects t)) as H by (by apply list_elem_of_filter).
      rewrite E' in H. by apply elem_of_nil in H.
  - apply least_None in E. destruct (least lt (filter _ _)) as [w|] eqn:E'; [|done]. apply least_elem, list_elem_of_filter in E' as [[Hbw _] Hw].
    assert (w ∈ filter (fun v => below v = false) (objects t)) as H by (by apply list_elem_of_filter). rewrite E in H. by apply elem_of_nil in H.
Qed.

Section Lookups.
Context {A : Type} (kept : Z) (tabs : gmap Z table_id_object) (next : Z) (t : @table (row A)) (ic : iterator_cache) (sp : rows_spec A).
Hypothesis (Hr : rows_ok kept tabs next t ic sp).
Context (lt : @order (row A)) (lt' : @order (entry A)) (Hord : row_order Z.lt lt lt').

(** [lower_bound] and [upper_bound] *)
Lemma bound_lookup_ok (P : Z -> row A -> Prop) (Q : entry A -> Prop) `{!forall T r, Decision (P T r)} `{!forall x, Decision (Q x)} :
  (forall r, P (t_id r) r <-> Q (view r)) -> (forall T r, P T r -> T <= t_id r) ->
  lookup_ok tabs t sp (fun T => of_table T (least lt (filter (P T) (objects t)))) (fun l => least lt' (filter Q l)).
Proof.
  intros HPQ HT T k Ek. split.
  - apply (least_of_table_entries kept tabs next t ic sp Hr Z.lt lt lt' Hord T k); [done| |].
    + intros r <-. apply HPQ.
    + intros r HP%HT. destruct (decide (t_id r = T)); [by left|right; lia].
  - intros r [E HrT]%of_table_Some. split; [done|]. by apply least_elem, list_elem_of_filter in E as [_ ?].
Qed.

(** [find] *)
Lemma find_lookup_ok (below above : Z -> row A -> bool) (Q : entry A -> Prop) `{!forall x, Decision (Q x)} :
  (forall r, below (t_id r) r = false /\ above (t_id r) r = false <-> Q (view r)) ->
  (forall T r, below T r = false -> above T r = false -> t_id r = T) -> (forall T r s, above T r = true -> above T s = false -> lt s r = true) ->
  lookup_ok tabs t sp (fun T => find_key lt (below T) (above T) t) (fun l => least lt' (filter Q l)).
Proof.
  intros HPQ HT Hab T k Ek. pose proof (find_key_least lt (below T) (above T) t (or_weak _ _ _ Hord) (objects_told_apart kept tabs next t ic sp Hr Z.lt lt lt' Hord) (Hab T)) as Hf. split.
  - rewrite Hf, (least_entries kept tabs next t ic sp Hr Z.lt lt lt' Hord T k (fun r => below T r = false /\ above T r = false) Q Ek).
    + f_equal. f_equal. apply list_filter_iff. intros r. split; [|tauto]. intros [H1 H2]. by split; [|eapply HT].
    + intros r <-. apply HPQ.
  - intros r E. rewrite Hf in E. apply least_elem, list_elem_of_filter in E as [[H1 H2] Hin]. by split; [eapply HT|].
Qed.
End Lookups.

(** What the lookups of the code find in a table *)
Section LookupSpecs.
Context {A : Type}.
Definition with_primary (id : Z) (l : list (entry A)) : option (entry A) := least primary_first (filter (fun x => x.1 = id) l).
Definition from_primary (id : Z) (l : list (entry A)) : option (entry A) := least primary_first (filter (fun x => id <= x.1) l).
Definition after_primary (id : Z) (l : list (entry A)) : option (entry A) := least primary_first (filter (fun x => id < x.1) l).

Context (key_less : index_kind -> A -> A -> bool) (Hkeys : forall k, strict_weak (key_less k)).
Definition with_secondary (k : index_kind) (secondary : A) (l : list (entry A)) : option (entry A) :=
  least (secondary_first key_less k) (filter (fun x => key_less k x.2.2 secondary = false /\ key_less k secondary x.2.2 = false) l).
Definition from_secondary (k : index_kind) (secondary : A) (l : list (entry A)) : option (entry A) :=
  least (secondary_first key_less k) (filter (fun x => key_less k x.2.2 secondary = false) l).
Definition after_secondary (k : index_kind) (secondary : A) (l : list (entry A)) : option (entry A) :=
  least (secondary_first key_less k) (filter (fun x => key_less k secondary x.2.2 = true) l).

Context (kept : Z) (tabs : gmap Z table_id_object) (next : Z) (t : @table (row A)) (ic : iterator_cache) (sp : rows_spec A) (Hr : rows_ok kept tabs next t ic sp).

Lemma find_primary_ok id : lookup_ok tabs t sp (find_primary_key t id) (with_primary id).
Proof.
  apply (find_lookup_ok kept tabs next t ic sp Hr by_primary primary_first by_primary_order
    (fun T r => pair_less (t_id r, primary_key r) (T, id)) (fun T r => pair_less (T, id) (t_id r, primary_key r)) (fun x => x.1 = id)).
  - intros r. rewrite <- !not_true_iff_false, !pair_less_lt. cbn. lia.
  - intros T r H1 H2. pose proof (pair_less_apart _ _ H1 H2) as [= -> _]. done.
  - intros T r s. rewrite <- not_true_iff_false. unfold by_primary. rewrite !pair_less_lt. cbn. lia.
Qed.

Lemma lower_bound_primary_ok id : lookup_ok tabs t sp (lower_bound_primary_key t id) (from_primary id).
Proof.
  apply (bound_lookup_ok kept tabs next t ic sp Hr by_primary primary_first by_primary_order (fun T r => pair_less (t_id r, primary_key r) (T, id) = false) (fun x => id <= x.1)).
  - intros r. rewrite <- !not_true_iff_false, !pair_less_lt. cbn. lia.
  - intros T r. rewrite <- !not_true_iff_false, !pair_less_lt. cbn. lia.
Qed.

Lemma upper_bound_primary_ok id : lookup_ok tabs t sp (upper_bound_primary_key t id) (after_primary id).
Proof.
  apply (bound_lookup_ok kept tabs next t ic sp Hr by_primary primary_first by_primary_order (fun T r => pair_less (T, id) (t_id r, primary_key r) = true) (fun x => id < x.1)).
  - intros r. rewrite !pair_less_lt. cbn. lia.
  - intros T r. rewrite !pair_less_lt. cbn. lia.
Qed.

Lemma find_secondary_ok k secondary : lookup_ok tabs t sp (find_secondary_key key_less k t secondary) (with_secondary k secondary).
Proof.
  apply (find_lookup_ok kept tabs next t ic sp Hr (by_secondary key_less k) (secondary_first key_less k) (by_secondary_order key_less Hkeys k)
    (fun T => below_secondary key_less k T secondary) (fun T => above_secondary key_less k T secondary) (fun x => key_less k x.2.2 secondary = false /\ key_less k secondary x.2.2 = false)).
  - intros r. unfold below_secondary, above_secondary. by rewrite Z.ltb_irrefl.
  - intros T r. unfold below_secondary, above_secondary. split_ltb; try done. lia.
  - intros T r s. unfold above_secondary, by_secondary. destruct (Hkeys k) as [_ Htrans Hco]. split_ltb; try done; try lia; intros E1 E2;
      (destruct (Hco _ _ (payload s) E1) as [E|E]; [congruence|by rewrite E]).
Qed.

Lemma lower_bound_secondary_ok k secondary : lookup_ok tabs t sp (lower_bound_secondary_key key_less k t secondary) (from_secondary k secondary).
Proof.
  apply (bound_lookup_ok kept tabs next t ic sp Hr (by_secondary key_less k) (secondary_first key_less k) (by_secondary_order key_less Hkeys k)
    (fun T r => below_secondary key_less k T secondary r = false) (fun x => key_less k x.2.2 secondary = false)).
  - intros r. unfold below_secondary. by rewrite Z.ltb_irrefl.
  - intros T r. unfold below_secondary. split_ltb; try done; lia.
Qed.

Lemma upper_bound_secondary_ok k secondary : lookup_ok tabs t sp (upper_bound_secondary_key key_less k t secondary) (after_secondary k secondary).
Proof.
  apply (bound_lookup_ok kept tabs next t ic sp Hr (by_secondary key_less k) (secondary_first key_less k) (by_secondary_order key_less Hkeys k)
    (fun T r => above_secondary key_less k T secondary r = true) (fun x => key_less k secondary x.2.2 = true)).
  - intros r. unfold above_secondary. by rewrite Z.ltb_irrefl.
  - intros T r. unfold above_secondary. split_ltb; try done; lia.
Qed.
End LookupSpecs.

(** ** The abstract tables of contracts *)

Section Spec.
Context {K : Type} (key_less : index_kind -> K -> K -> bool).

(** [spec_new] are the tables that were opened in the transaction. *)
Record contract_spec : Type := ContractSpec {
  spec_tables : gmap table_key account_name;
  spec_rows : rows_spec (list Byte.byte);
  spec_indices : index_kind -> rows_spec K;
  spec_billing : ram_billing;
  spec_new : gset table_key
}.

Definition with_new_table (s : contract_spec) (k : table_key) (payer : account_name) : contract_spec :=
  ContractSpec (<[k := payer]> (spec_tables s)) (spec_rows s) (spec_indices s) (spec_billing s) ({[k]} ∪ spec_new s).
Definition with_spec_rows (s : contract_spec) (sp : rows_spec (list Byte.byte)) : contract_spec := ContractSpec (spec_tables s) sp (spec_indices s) (spec_billing s) (spec_new s).
Definition with_spec_index (s : contract_spec) (k : index_kind) (sp : rows_spec K) : contract_spec :=
  ContractSpec (spec_tables s) (spec_rows s) (fun k' => if decide (k' = k) then sp else spec_indices s k') (spec_billing s) (spec_new s).
Definition with_spec_billing (s : contract_spec) (b : ram_billing) : contract_spec := ContractSpec (spec_tables s) (spec_rows s) (spec_indices s) b (spec_new s).

Definition has_table (s : contract_spec) (k : table_key) : bool := bool_decide (is_Some (spec_tables s !! k)).

(** The number of rows of a table, in its primary and secondary indices *)
Definition index_kinds : list index_kind := [idx64; idx128; idx256; idx_double; idx_long_double].
Definition total (s : contract_spec) (k : table_key) : Z :=
  Z.of_nat (size (rows_of (spec_rows s) k)) + Zsum ((fun i => Z.of_nat (size (rows_of (spec_indices s i) k))) <$> index_kinds).

Definition bill_spec (e : action_env) (s : contract_spec) (payer : account_name) (delta : Z) : result contract_spec :=
  b ← update_db_usage e (spec_billing s) payer delta; Ok (with_spec_billing s b).

(** A table is there as long as it has rows; who stores the first pays for it. *)
Definition open_table (e : action_env) (s : contract_spec) (k : table_key) (payer : account_name) : result contract_spec :=
  if has_table s k then Ok s
  else s ← bill_spec e s payer table_id_billable_size; Ok (with_new_table s k payer).
Definition close_table (e : action_env) (s : contract_spec) (k : table_key) : result contract_spec :=
  if total s k =? 0 then
    s ← bill_spec e s (default 0 (spec_tables s !! k)) (- table_id_billable_size);
    let was_there := negb (bool_decide (k ∈ spec_new s)) in
    Ok (ContractSpec (delete k (spec_tables s)) (forget_table (spec_rows s) k was_there) (fun i => forget_table (spec_indices s i) k was_there) (spec_billing s) (spec_new s))
  else Ok s.

Definition own_entry {A} (e : action_env) (sp : rows_spec A) (iterator : Z) : result (table_key * entry A) :=
  EOS_ASSERT negb (is_read_only e) ,, table_operation_not_permitted ;;
  x ← entry_at sp iterator;
  EOS_ASSERT x.1.1.1 =? receiver e ,, table_access_violation ;; Ok x.

(** The iterator to a new row, and with it the end iterator of its table *)
Definition cursor_to_new {A} (sp : rows_spec A) (k : table_key) (id : Z) : Z * rows_spec A := cursor_to (end_cursor sp k).2 k id.

Definition db_store_spec (e : action_env) (s : contract_spec) (scope table_name : Z) (payer : account_name) (id : Z) (buffer : list Byte.byte) : result (Z * contract_spec) :=
  EOS_ASSERT negb (is_read_only e) ,, table_operation_not_permitted ;;
  let k := (receiver e, scope, table_name) in
  s ← open_table e s k payer;
  EOS_ASSERT negb (payer =? 0) ,, invalid_table_payer ;;
  EOS_ASSERT bool_decide (rows_of (spec_rows s) k !! id = None) ,, std_logic_error ;;
  let s := with_spec_rows s (set_row (spec_rows s) k id (payer, buffer)) in
  s ← bill_spec e s payer (size_of buffer + key_value_billable_size);
  let r := cursor_to_new (spec_rows s) k id in Ok (r.1, with_spec_rows s r.2).

Definition store_spec (e : action_env) (s : contract_spec) (i : index_kind) (scope table_name : Z) (payer : account_name) (id : Z) (value : K) : result (Z * contract_spec) :=
  EOS_ASSERT negb (is_read_only e) ,, table_operation_not_permitted ;;
  let k := (receiver e, scope, table_name) in
  EOS_ASSERT negb (payer =? 0) ,, invalid_table_payer ;;
  s ← open_table e s k payer;
  EOS_ASSERT bool_decide (rows_of (spec_indices s i) k !! id = None) ,, std_logic_error ;;
  let s := with_spec_index s i (set_row (spec_indices s i) k id (payer, value)) in
  s ← bill_spec e s payer (index_billable_size i);
  let r := cursor_to_new (spec_indices s i) k id in Ok (r.1, with_spec_index s i r.2).

(** The payer of a row may change: the old one is refunded, the new one billed. *)
Definition db_update_spec (e : action_env) (s : contract_spec) (iterator new_payer : Z) (buffer : list Byte.byte) : result contract_spec :=
  x ← own_entry e (spec_rows s) iterator;
  let payer := x.2.2.1 in
  let old_size := size_of x.2.2.2 + key_value_billable_size in
  let new_size := size_of buffer + key_value_billable_size in
  let new_payer := if new_payer =? 0 then payer else new_payer in
  s ← (if negb (payer =? new_payer) then s ← bill_spec e s payer (- old_size); bill_spec e s new_payer new_size
       else if negb (old_size =? new_size) then bill_spec e s payer (new_size - old_size) else Ok s);
  Ok (with_spec_rows s (set_row (spec_rows s) x.1 x.2.1 (new_payer, buffer))).

Definition update_spec (e : action_env) (s : contract_spec) (i : index_kind) (iterator new_payer : Z) (secondary : K) : result contract_spec :=
  x ← own_entry e (spec_indices s i) iterator;
  let payer := x.2.2.1 in
  let new_payer := if new_payer =? 0 then payer else new_payer in
  s ← (if negb (payer =? new_payer)
       then s ← bill_spec e s payer (- index_billable_size i); bill_spec e s new_payer (index_billable_size i) else Ok s);
  Ok (with_spec_index s i (set_row (spec_indices s i) x.1 x.2.1 (new_payer, secondary))).

Definition db_remove_spec (e : action_env) (s : contract_spec) (iterator : Z) : result contract_spec :=
  x ← own_entry e (spec_rows s) iterator;
  s ← bill_spec e s x.2.2.1 (- (size_of x.2.2.2 + key_value_billable_size));
  close_table e (with_spec_rows s (drop_row (spec_rows s) x.1 x.2.1 iterator)) x.1.

Definition remove_spec (e : action_env) (s : contract_spec) (i : index_kind) (iterator : Z) : result contract_spec :=
  x ← own_entry e (spec_indices s i) iterator;
  s ← bill_spec e s x.2.2.1 (- index_billable_size i);
  close_table e (with_spec_index s i (drop_row (spec_indices s i) x.1 x.2.1 iterator)) x.1.

Definition db_get_spec (s : contract_spec) (iterator buffer_size : Z) : result (Z * list Byte.byte) :=
  x ← entry_at (spec_rows s) iterator;
  let value := x.2.2.2 in
  if buffer_size =? 0 then Ok (size_of value, [])
  else let copy_size := Z.min buffer_size (size_of value) in Ok (copy_size, take (Z.to_nat copy_size) value).

(** What a call that moves over rows returns, and what it writes out *)
Definition output {A} (r : Z * rows_spec A * option (entry A)) (primary : bool) (secondary : option (A -> K)) : @db_output K :=
  DbOutput r.1.1 (if primary then fst <$> r.2 else None) (f ← secondary; (fun x : entry A => f x.2.2) <$> r.2) [].

Definition spec_seek_rows (s : contract_spec) (code scope table_name : Z) (lookup : list (entry (list Byte.byte)) -> option (entry (list Byte.byte))) : @db_output K * contract_spec :=
  let k := (code, scope, table_name) in
  let r := seek_spec (has_table s k) (spec_rows s) k lookup in (output r false None, with_spec_rows s r.1.2).
Definition spec_seek_index (s : contract_spec) (i : index_kind) (code scope table_name : Z) (lookup : list (entry K) -> option (entry K)) (primary : bool) (secondary : option (K -> K)) : @db_output K * contract_spec :=
  let k := (code, scope, table_name) in
  let r := seek_spec (has_table s k) (spec_indices s i) k lookup in (output r primary secondary, with_spec_index s i r.1.2).
Definition end_spec {A} (present : bool) (sp : rows_spec A) (k : table_key) : Z * rows_spec A := if present then end_cursor sp k else (-1, sp).

Definition call_spec `{FreedRead} (e : action_env) (s : contract_spec) (o : @db_call K) : result (@db_output K * contract_spec) :=
  match o with
  | DbStore scope table_name payer id buffer => r ← db_store_spec e s scope table_name payer id buffer; Ok (returns r.1, r.2)
  | DbUpdate iterator payer buffer => s ← db_update_spec e s iterator payer buffer; Ok (returns 0, s)
  | DbRemove iterator => s ← db_remove_spec e s iterator; Ok (returns 0, s)
  | DbGet iterator buffer_size => r ← db_get_spec s iterator buffer_size; Ok (DbOutput r.1 None None r.2, s)
  | DbNext iterator => r ← next_spec primary_first (spec_rows s) iterator; Ok (output r true None, with_spec_rows s r.1.2)
  | DbPrevious iterator => r ← previous_spec primary_first (spec_rows s) iterator; Ok (output r true None, with_spec_rows s r.1.2)
  | DbFind code scope table_name id => Ok (spec_seek_rows s code scope table_name (with_primary id))
  | DbLowerbound code scope table_name id => Ok (spec_seek_rows s code scope table_name (from_primary id))
  | DbUpperbound code scope table_name id => Ok (spec_seek_rows s code scope table_name (after_primary id))
  | DbEnd code scope table_name =>
      let k := (code, scope, table_name) in let r := end_spec (has_table s k) (spec_rows s) k in Ok (returns r.1, with_spec_rows s r.2)
  | IdxStore i scope table_name payer id secondary => r ← store_spec e s i scope table_name payer id secondary; Ok (returns r.1, r.2)
  | IdxUpdate i iterator payer secondary => s ← update_spec e s i iterator payer secondary; Ok (returns 0, s)
  | IdxRemove i iterator => s ← remove_spec e s i iterator; Ok (returns 0, s)
  | IdxFindSecondary i code scope table_name secondary => Ok (spec_seek_index s i code scope table_name (with_secondary key_less i secondary) true None)
  | IdxFindPrimary i code scope table_name primary => Ok (spec_seek_index s i code scope table_name (with_primary primary) false (Some id))
  | IdxLowerbound i code scope table_name secondary => Ok (spec_seek_index s i code scope table_name (from_secondary key_less i secondary) true (Some id))
  | IdxUpperbound i code scope table_name secondary => Ok (spec_seek_index s i code scope table_name (after_secondary key_less i secondary) true (Some id))
  | IdxEnd i code scope table_name =>
      let k := (code, scope, table_name) in let r := end_spec (has_table s k) (spec_indices s i) k in Ok (returns r.1, with_spec_index s i r.2)
  | IdxNext i iterator => r ← next_spec (secondary_first key_less i) (spec_indices s i) iterator; Ok (output r true None, with_spec_index s i r.1.2)
  | IdxPrevious i iterator => r ← previous_spec (secondary_first key_less i) (spec_indices s i) iterator; Ok (output r true None, with_spec_index s i r.1.2)
  end.
End Spec.
