(* ===== verification/ContractRefinement.v ===== *)
(** * The tables of contracts keep their promises

    No code of its own: every call of [ContractTables] does what [ContractSpec]
    says. *)

From S2P Require Import Prelude UndoIndex UndoOrder UndoRepr UndoTable ResourceLimits ContractTables ContractRows ContractSpec.
Open Scope Z_scope.

(** ** Objects in the chain database *)

Section Objects.
Context {A : Type} (orders : list (@order (row A))).
(** The indices tell rows apart by their primary keys, as one of them does. *)
Definition row_indices : Prop :=
  by_primary ∈ orders /\ Forall (fun lt : @order (row A) => forall r s, lt r s = false -> lt s r = false -> t_id r = t_id s /\ primary_key r = primary_key s) orders.
Hypothesis (Hord : row_indices).

Lemma fits_rows id (r : row A) m : fits orders id r m = true <-> forall p s, m !! p = Some s -> p <> id -> t_id s = t_id r -> primary_key s <> primary_key r.
Proof.
  destruct Hord as [Hp Hall]. rewrite fits_true. split.
  - intros H p s Es Hne HT Hid. destruct (H _ p s Hp Es Hne) as [E|E]; unfold by_primary in E; rewrite pair_less_lt in E; cbn in E; lia.
  - intros H lt p s Hlt Es Hne. rewrite Forall_forall in Hall. destruct (lt r s) eqn:E1; [by left|]. destruct (lt s r) eqn:E2; [by right|].
    destruct (Hall lt Hlt r s E1 E2). by destruct (H p s Es Hne).
Qed.

Context (kept : Z) (tabs : gmap Z table_id_object) (next : Z) (t : @table (row A)) (ic : iterator_cache) (sp : rows_spec A).
Hypothesis (Ht : tables_ok tabs next) (Hr : rows_ok kept tabs next t ic sp).

Lemma db_create_ok T k id v : key_of tabs T = Some k -> let new := Row (table_next t) T id v.1 v.2 in
  if bool_decide (rows_of sp k !! id = None)
  then exists t', db_create orders t (fun p => Row p T id v.1 v.2) = Ok (table_next t, t') /\ contents t' !! table_next t = Some new /\ rows_ok kept tabs next t' ic (set_row sp k id v)
  else db_create orders t (fun p => Row p T id v.1 v.2) = Throw std_logic_error.
Proof.
  intros Ek new. unfold db_create. cbn -[fits]. fold new. case_bool_decide as Hno.
  - assert (Hf : fits orders (table_next t) new (contents t) = true).
    { apply fits_rows. cbn. intros p s Es Hne HT Hid. assert (rows_of sp k !! id = Some (payer s, payload s)); [|congruence].
      apply (ro_rows _ _ _ _ _ _ Hr T k); [done|]. exists p, s. unfold view. by rewrite Hid. }
    rewrite Hf. eexists. split; [reflexivity|]. cbn. split; [by rewrite lookup_insert_eq|]. by apply insert_row_ok.
  - assert (Hf : fits orders (table_next t) new (contents t) = false).
    { apply not_true_iff_false. rewrite fits_rows. intros H. destruct (rows_of sp k !! id) as [w|] eqn:Ew; [|done].
      apply (ro_rows _ _ _ _ _ _ Hr T k id w Ek) in Ew as (p & s & Es & HT & Hv). injection Hv as Hid _. refine (H p s Es _ HT Hid).
      apply (ro_id _ _ _ _ _ _ Hr) in Es. lia. }
    by rewrite Hf.
Qed.

Lemma db_modify_ok r k pay a : contents t !! row_id r = Some r -> key_of tabs (t_id r) = Some k ->
  exists t', db_modify orders t (row_id r) (fun o => Row (row_id o) (t_id o) (primary_key o) pay a) = Ok t' /\ rows_ok kept tabs next t' ic (set_row sp k (primary_key r) (pay, a)).
Proof.
  intros Er Ek. unfold db_modify, table_op. rewrite Er. cbn [fst snd]. assert (Hf : fits orders (row_id r) (Row (row_id r) (t_id r) (primary_key r) pay a) (contents t) = true).
  { apply fits_rows. cbn. intros p s Es Hne HT Hid. apply Hne. by apply (ro_unique _ _ _ _ _ _ Hr p (row_id r) s r). }
  rewrite Hf. eexists. split; [reflexivity|]. by apply (update_row_ok kept tabs next t ic sp (row_id r) r (Row (row_id r) (t_id r) (primary_key r) pay a)).
Qed.

Lemma db_remove_ok p (r : row A) : contents t !! p = Some r -> db_remove orders t p = Ok (with_contents t (delete p (contents t))).
Proof. intros Er. unfold db_remove, table_op. by rewrite Er. Qed.
End Objects.

Lemma key_value_row_indices : row_indices key_value_indices.
Proof. split; [by left|]. constructor; [|constructor]. apply by_primary_order. Qed.

(** ** The context and its specification *)

Section Refinement.
Context {K : Type} (key_less : index_kind -> K -> K -> bool) (Hkeys : forall k, strict_weak (key_less k)).
Implicit Types (c : @apply_context K) (s : @contract_spec K).

Lemma index_row_indices i : row_indices (index_indices key_less i).
Proof. split; [by left|]. constructor; [apply by_primary_order|]. constructor; [|constructor]. by apply by_secondary_order. Qed.

(** [cnt] is what the tables have counted. *)
Record agrees_at (cnt : table_key -> Z) (c : @apply_context K) (s : @contract_spec K) : Prop := {
  aa_tables : tables_ok (contents (table_ids c)) (table_next (table_ids c));
  aa_spec_tables : forall k p, spec_tables s !! k = Some p <-> exists T o, contents (table_ids c) !! T = Some o /\ code_scope_table o = k /\ table_payer o = p;
  aa_count : forall T o, contents (table_ids c) !! T = Some o -> count o = cnt (code_scope_table o);
  aa_rows : rows_ok (kept_below c) (contents (table_ids c)) (table_next (table_ids c)) (key_values c) (keyval_cache c) (spec_rows s);
  aa_indices : forall i, rows_ok (kept_below c) (contents (table_ids c)) (table_next (table_ids c)) (index_objects c i) (itr_cache c i) (spec_indices s i);
  aa_billing : billing c = spec_billing s;
  aa_kept : kept_below c <= table_next (table_ids c);
  aa_new : forall T o, contents (table_ids c) !! T = Some o -> bool_decide (code_scope_table o ∈ spec_new s) = (kept_below c <=? T)
}.

Lemma with_billing_ok cnt c s b : agrees_at cnt c s -> agrees_at cnt (with_billing c b) (with_spec_billing s b).
Proof. by intros []. Qed.

Lemma bill_both e c s payer delta : billing c = spec_billing s ->
  both (fun c' s' => exists b, c' = with_billing c b /\ s' = with_spec_billing s b) (bill e c payer delta) (bill_spec e s payer delta).
Proof. intros Hb. unfold bill, bill_spec. rewrite Hb. destruct (update_db_usage _ _ _ _) as [b|]; cbn; [by exists b|done]. Qed.

Lemma with_rows_ok cnt c s t ic sp : agrees_at cnt c s -> rows_ok (kept_below c) (contents (table_ids c)) (table_next (table_ids c)) t ic sp ->
  agrees_at cnt (with_keyval_cache (with_key_values c t) ic) (with_spec_rows s sp).
Proof. by intros []. Qed.

Lemma with_index_ok cnt c s i t ic sp : agrees_at cnt c s -> rows_ok (kept_below c) (contents (table_ids c)) (table_next (table_ids c)) t ic sp ->
  agrees_at cnt (with_itr_cache (with_index_objects c i t) i ic) (with_spec_index s i sp).
Proof. intros [] Hr. split; cbn; try done. intros j. by case_decide. Qed.

(** ** Tables *)

Lemma find_table_ok cnt c s code scope name : agrees_at cnt c s ->
  match find_table c code scope name with
  | Some o => contents (table_ids c) !! tid o = Some o /\ code_scope_table o = (code, scope, name) /\ spec_tables s !! (code, scope, name) = Some (table_payer o)
  | None => (forall T, key_of (contents (table_ids c)) T <> Some (code, scope, name)) /\ spec_tables s !! (code, scope, name) = None
  end.
Proof.
  intros []. unfold find_table. set (k := (code, scope, name)).
  assert (Hap : told_apart by_code_scope_table (objects (table_ids c))).
  { intros o o' (p & Eo)%elem_of_objects (q & Eo')%elem_of_objects H1 H2. pose proof (triple_less_apart _ _ H1 H2) as Hk.
    assert (p = q) as ->; [|congruence]. apply (to_key _ _ aa_tables0 _ _ (code_scope_table o)); unfold key_of; [by rewrite Eo|by rewrite Eo', Hk]. }
  rewrite find_key_least; [|apply (weak_of_key code_scope_table), triple_less_weak|done|].
  2:{ unfold by_code_scope_table. intros o o' H1 H2. destruct (sw_cotrans _ triple_less_weak _ _ (code_scope_table o') H1); [congruence|done]. }
  destruct (least _ _) as [o|] eqn:E.
  - apply least_elem, list_elem_of_filter in E as [[H1 H2] Hin]. pose proof (triple_less_apart _ _ H1 H2) as Hk. apply elem_of_objects in Hin as [T Eo].
    destruct (to_id _ _ aa_tables0 T o Eo) as [-> _]. split_and!; [done..|]. apply aa_spec_tables0. by exists T, o.
  - apply least_None in E. assert (Hno : forall T o, contents (table_ids c) !! T = Some o -> code_scope_table o <> k).
    { intros T o Eo Hk. assert (o ∈ filter (fun v => triple_less (code_scope_table v) k = false /\ triple_less k (code_scope_table v) = false) (objects (table_ids c))) as H.
      - apply list_elem_of_filter. rewrite Hk, (sw_irrefl _ triple_less_weak). split; [done|]. apply elem_of_objects. by exists T.
      - rewrite E in H. by apply elem_of_nil in H. }
    split.
    + intros T. unfold key_of. destruct (contents (table_ids c) !! T) as [o|] eqn:Eo; [|done]. intros Hk. apply (Hno T o Eo). by apply (inj Some) in Hk.
    + destruct (spec_tables s !! k) as [p|] eqn:Ep; [|done]. apply aa_spec_tables0 in Ep as (T & o & Eo & Hk & _). by destruct (Hno T o Eo).
Qed.

Lemma fits_tables c s cnt o : agrees_at cnt c s -> (forall T, key_of (contents (table_ids c)) T <> Some (code_scope_table o)) ->
  fits table_id_indices (tid o) o (contents (table_ids c)) = true.
Proof.
  intros [] Hno. apply fits_true. intros lt p o' ->%list_elem_of_singleton Eo Hne. destruct (by_code_scope_table o o') eqn:E1; [by left|]. destruct (by_code_scope_table o' o) eqn:E2; [by right|].
  pose proof (triple_less_apart _ _ E1 E2) as Hk. destruct (Hno p). unfold key_of. by rewrite Eo, Hk.
Qed.

Lemma absent_total cnt c s k : agrees_at cnt c s -> has_table s k = false -> total s k = 0.
Proof.
  intros [] Hno. assert (Hk : forall T, key_of (contents (table_ids c)) T <> Some k).
  { intros T HT. unfold key_of in HT. destruct (contents (table_ids c) !! T) as [o|] eqn:Eo; [|done]. apply (inj Some) in HT.
    apply bool_decide_eq_false in Hno. apply Hno. exists (table_payer o). apply aa_spec_tables0. by exists T, o. }
  unfold total. rewrite (ro_absent _ _ _ _ _ _ aa_rows0 k Hk). cbn. by rewrite !(ro_absent _ _ _ _ _ _ (aa_indices0 _) k Hk), map_size_empty.
Qed.

(** A change of the tables' objects that leaves the caches alone *)
Lemma with_table_ids_ok cnt c s t : agrees_at cnt c s -> tables_ok (contents t) (table_next t) ->
  (forall A (rows : @table (row A)) ic sp, rows_ok (kept_below c) (contents (table_ids c)) (table_next (table_ids c)) rows ic sp -> rows_ok (kept_below c) (contents t) (table_next t) rows ic sp) ->
  forall cnt' s', spec_rows s' = spec_rows s -> spec_indices s' = spec_indices s -> spec_billing s' = spec_billing s ->
  (forall k p, spec_tables s' !! k = Some p <-> exists T o, contents t !! T = Some o /\ code_scope_table o = k /\ table_payer o = p) ->
  (forall T o, contents t !! T = Some o -> count o = cnt' (code_scope_table o)) ->
  (forall T o, contents t !! T = Some o -> bool_decide (code_scope_table o ∈ spec_new s') = (kept_below c <=? T)) -> kept_below c <= table_next t ->
  agrees_at cnt' (with_table_ids c t) s'.
Proof. intros [] Ht Hrows cnt' s' E1 E2 E3 Hs Hc Hn Hk. split; cbn; try done; [rewrite E1; by apply Hrows|intros i; rewrite E2; by apply Hrows|by rewrite E3]. Qed.

Definition same_rows (s s' : @contract_spec K) : Prop := spec_rows s' = spec_rows s /\ spec_indices s' = spec_indices s.

Lemma find_or_create_ok cnt e c s code scope name payer : agrees_at cnt c s -> let k := (code, scope, name) in (has_table s k = false -> cnt k = 0) ->
  both (fun x s' => agrees_at cnt x.2 s' /\ key_of (contents (table_ids x.2)) x.1 = Some k /\ (forall k', is_Some (spec_tables s' !! k') -> k' = k \/ is_Some (spec_tables s !! k')) /\ same_rows s s')
    (find_or_create_table e c code scope name payer) (open_table e s k payer).
Proof.
  intros Ha k Hcnt. pose proof (find_table_ok cnt c s code scope name Ha) as Hf. unfold find_or_create_table, open_table. fold k in Hf |- *.
  destruct (find_table c code scope name) as [o|].
  - destruct Hf as (Eo & Hk & Hs). assert (Hh : has_table s k = true) by (apply bool_decide_eq_true; by eexists). rewrite Hh. cbn. split_and!; try done; [unfold key_of; rewrite Eo; cbn; by rewrite Hk|by right].
  - destruct Hf as [Hno Hs]. assert (Hh : has_table s k = false). { apply bool_decide_eq_false. intros [p Hp]. discriminate (eq_trans (eq_sym Hs) Hp). } rewrite Hh.
    eapply both_bind; [apply bill_both, (aa_billing _ _ _ Ha)|]. intros ? ? (b & -> & ->). apply (with_billing_ok _ _ _ b) in Ha.
    set (c' := with_billing c b) in *. set (s1 := with_spec_billing s b) in *. change (forall T, key_of (contents (table_ids c')) T <> Some k) in Hno. clearbody c'. unfold db_create, table_op. cbn [fst snd].
    set (new := TableIdObject (table_next (table_ids c')) code scope name payer 0).
    rewrite (fits_tables c' s1 cnt new Ha Hno : fits table_id_indices (table_next (table_ids c')) new _ = true). cbn [mbind result_bind fst snd both].
    pose proof (aa_tables _ _ _ Ha) as Ht. assert (Hfresh : contents (table_ids c') !! table_next (table_ids c') = None).
    { destruct (contents (table_ids c') !! table_next (table_ids c')) as [o|] eqn:E; [|done]. apply (to_id _ _ Ht) in E. lia. }
    split_and!; [|unfold key_of; cbn [fst snd table_ids with_table_ids contents]; by rewrite lookup_insert_eq|cbn [spec_tables with_new_table]; intros k' [<-|[_ ?]]%lookup_insert_is_Some; [by left|by right]|done].
    apply (with_table_ids_ok cnt c' s1); [done|split| |done..| | | |]; cbn [contents table_next].
    + intros T o [[<- <-]|[Hne Eo]]%lookup_insert_Some; cbn; [split; [done|lia]|]. destruct (to_id _ _ Ht T o Eo). split; [done|lia].
    + intros T T' k'. unfold key_of. cbn. rewrite !fmap_Some. intros (o & [[<- <-]|[Hne Eo]]%lookup_insert_Some & ->) (o' & [[<- <-]|[Hne' Eo']]%lookup_insert_Some & Hk'); try done.
      * destruct (Hno T'). unfold key_of. rewrite Eo'. cbn. by rewrite <- Hk'.
      * destruct (Hno T). unfold key_of. rewrite Eo. cbn. by rewrite Hk'.
      * apply (to_key _ _ Ht T T' (code_scope_table o)); unfold key_of; [by rewrite Eo|by rewrite Eo', Hk'].
    + intros A rows ic sp Hr. by apply add_table_ok.
    + intros k' p. cbn. rewrite lookup_insert_Some. setoid_rewrite lookup_insert_Some. split.
      * intros [[<- <-]|[Hne (T & o & Eo & Hk' & Hp)%(aa_spec_tables _ _ _ Ha)]]; [exists (table_next (table_ids c')), new; split; [by left|done]|].
        exists T, o. split; [right; split; [intros <-; cbn in *; congruence|done]|done].
      * intros (T & o & [[<- <-]|[Hne Eo]] & Hk' & Hp); [by left|]. right. split; [|apply (aa_spec_tables _ _ _ Ha); by exists T, o].
        intros ->. apply (Hno T). unfold key_of. rewrite Eo. cbn. by rewrite Hk'.
    + intros T o [[<- <-]|[Hne Eo]]%lookup_insert_Some; [cbn; symmetry; by apply Hcnt|]. by apply (aa_count _ _ _ Ha T).
    + pose proof (aa_kept _ _ _ Ha). intros T o [[<- <-]|[Hne Eo]]%lookup_insert_Some; cbn [spec_new with_new_table].
      * rewrite bool_decide_true by (change (code_scope_table new) with k; set_solver). symmetry. by apply Z.leb_le.
      * rewrite <- (aa_new _ _ _ Ha T o Eo). apply bool_decide_ext. rewrite elem_of_union, elem_of_singleton. split; [intros [Hk'|?]; [|done]|by right].
        destruct (Hno T). unfold key_of. rewrite Eo. cbn. by rewrite Hk'.
    + pose proof (aa_kept _ _ _ Ha). lia.
Qed.

Lemma add_to_count_ok cnt c s T k n : agrees_at cnt c s -> key_of (contents (table_ids c)) T = Some k ->
  exists t, add_to_count c T n = Ok (with_table_ids c t) /\ agrees_at (fun k' => if decide (k' = k) then wrap32 (cnt k + n) else cnt k') (with_table_ids c t) s /\
    (forall T', key_of (contents t) T' = key_of (contents (table_ids c)) T') /\ forall o, contents t !! T = Some o -> count o = wrap32 (cnt k + n).
Proof.
  intros Ha Ek. pose proof (aa_tables _ _ _ Ha) as Ht. unfold key_of in Ek. destruct (contents (table_ids c) !! T) as [o|] eqn:Eo; [|done]. apply (inj Some) in Ek.
  unfold add_to_count, db_modify, table_op. rewrite Eo. cbn [fst snd]. set (o' := TableIdObject _ _ _ _ _ _).
  assert (Hf : fits table_id_indices T o' (contents (table_ids c)) = true).
  { apply fits_true. intros lt p o1 ->%list_elem_of_singleton Eo1 Hne. destruct (by_code_scope_table o' o1) eqn:E1; [by left|]. destruct (by_code_scope_table o1 o') eqn:E2; [by right|].
    pose proof (triple_less_apart _ _ E1 E2) as Hk. destruct Hne. apply (to_key _ _ Ht p T (code_scope_table o)); unfold key_of; [rewrite Eo1|by rewrite Eo]. cbn. by rewrite <- Hk. }
  assert (Hkey : forall T', key_of (<[T := o']> (contents (table_ids c))) T' = key_of (contents (table_ids c)) T').
  { intros T'. unfold key_of. destruct (decide (T' = T)) as [->|]; [|by rewrite lookup_insert_ne]. by rewrite lookup_insert_eq, Eo. }
  rewrite Hf. eexists. split; [reflexivity|]. destruct (to_id _ _ Ht T o Eo) as [Hid Hlt]. pose proof (aa_count _ _ _ Ha T o Eo) as Hc. split_and!.
  - apply (with_table_ids_ok cnt c s); [done|split| |done..| | | |]; cbn [contents table_next with_contents fst].
    + intros T' o1 [[<- <-]|[Hne E1]]%lookup_insert_Some; [done|]. by apply (to_id _ _ Ht).
    + intros T1 T2 k'. cbn [contents with_contents]. rewrite !Hkey. apply (to_key _ _ Ht).
    + intros A rows ic sp. apply rows_ok_keys; [exact Hkey|done].
    + intros k' p. rewrite (aa_spec_tables _ _ _ Ha). cbn. setoid_rewrite lookup_insert_Some. split.
      * intros (T' & o1 & E1 & H). destruct (decide (T' = T)) as [->|Hne]; [|exists T', o1; split; [by right|done]]. exists T, o'. split; [by left|]. assert (o1 = o) as -> by congruence. done.
      * intros (T' & o1 & [[<- <-]|[Hne E1]] & H); [by exists T, o|by exists T', o1].
    + intros T' o1 [[<- <-]|[Hne E1]]%lookup_insert_Some; cbn.
      * rewrite decide_True by done. by rewrite Hc, Ek.
      * rewrite decide_False; [by apply (aa_count _ _ _ Ha T')|]. intros Hk. apply Hne. apply (to_key _ _ Ht T T' k); unfold key_of; [by rewrite Eo, <- Ek|by rewrite E1, <- Hk].
    + intros T' o1 [[<- <-]|[Hne E1]]%lookup_insert_Some; [exact (aa_new _ _ _ Ha T o Eo)|by apply (aa_new _ _ _ Ha T')].
    + apply (aa_kept _ _ _ Ha).
  - exact Hkey.
  - intros o1. cbn. rewrite lookup_insert_eq. intros [= <-]. cbn. by rewrite Hc, Ek.
Qed.

(** ** The parts of a context that hold the rows of one type *)

Record slot (A : Type) : Type := Slot {
  sl_orders : list (@order (row A));
  sl_table : @apply_context K -> @table (row A);
  sl_cache : @apply_context K -> iterator_cache;
  sl_spec : @contract_spec K -> rows_spec A;
  sl_put_table : @apply_context K -> @table (row A) -> @apply_context K;
  sl_put_cache : @apply_context K -> iterator_cache -> @apply_context K;
  sl_put_spec : @contract_spec K -> rows_spec A -> @contract_spec K
}.
Arguments sl_orders {A} _.
Arguments sl_table {A} _ _.
Arguments sl_cache {A} _ _.
Arguments sl_spec {A} _ _.
Arguments sl_put_table {A} _ _ _.
Arguments sl_put_cache {A} _ _ _.
Arguments sl_put_spec {A} _ _ _.

Definition rows_count {A} (sp : rows_spec A) (k : table_key) : Z := Z.of_nat (size (rows_of sp k)).

Record slot_ok {A} (sl : slot A) : Prop := {
  so_orders : row_indices (sl_orders sl);
  so_rows : forall cnt c s, agrees_at cnt c s -> rows_ok (kept_below c) (contents (table_ids c)) (table_next (table_ids c)) (sl_table sl c) (sl_cache sl c) (sl_spec sl s);
  so_put_table : forall cnt c s t sp, agrees_at cnt c s -> rows_ok (kept_below c) (contents (table_ids c)) (table_next (table_ids c)) t (sl_cache sl c) sp -> agrees_at cnt (sl_put_table sl c t) (sl_put_spec sl s sp);
  so_put_cache : forall cnt c s ic sp, agrees_at cnt c s -> rows_ok (kept_below c) (contents (table_ids c)) (table_next (table_ids c)) (sl_table sl c) ic sp -> agrees_at cnt (sl_put_cache sl c ic) (sl_put_spec sl s sp);
  so_put_both : forall cnt c s t ic sp, agrees_at cnt c s -> rows_ok (kept_below c) (contents (table_ids c)) (table_next (table_ids c)) t ic sp ->
    agrees_at cnt (sl_put_cache sl (sl_put_table sl c t) ic) (sl_put_spec sl s sp);
  so_table : forall c t, sl_table sl (sl_put_table sl c t) = t /\ sl_cache sl (sl_put_table sl c t) = sl_cache sl c /\ table_ids (sl_put_table sl c t) = table_ids c /\ kept_below (sl_put_table sl c t) = kept_below c;
  so_tables : forall c t, sl_table sl (with_table_ids c t) = sl_table sl c /\ sl_cache sl (with_table_ids c t) = sl_cache sl c;
  so_billing : forall c b, sl_table sl (with_billing c b) = sl_table sl c /\ sl_cache sl (with_billing c b) = sl_cache sl c;
  so_spec_billing : forall s b, sl_spec sl (with_spec_billing s b) = sl_spec sl s;
  so_cache : forall c ic, table_ids (sl_put_cache sl c ic) = table_ids c /\ billing (sl_put_cache sl c ic) = billing c;
  so_cache_kept : forall c ic, kept_below (sl_put_cache sl c ic) = kept_below c;
  so_cache_tables : forall c t ic, sl_put_cache sl (with_table_ids c t) ic = with_table_ids (sl_put_cache sl c ic) t;
  so_cache_billing : forall c b ic, sl_put_cache sl (with_billing c b) ic = with_billing (sl_put_cache sl c ic) b;
  so_spec : forall s sp, sl_spec sl (sl_put_spec sl s sp) = sp /\ spec_tables (sl_put_spec sl s sp) = spec_tables s;
  so_total : forall s sp k, total (sl_put_spec sl s sp) k = total s k - rows_count (sl_spec sl s) k + rows_count sp k;
  so_part : forall s k, rows_count (sl_spec sl s) k <= total s k
}.

Lemma agrees_at_ext cnt cnt' c s : (forall k, cnt k = cnt' k) -> agrees_at cnt c s -> agrees_at cnt' c s.
Proof. intros H []. split; try done. intros T o Eo. rewrite <- H. by apply (aa_count0 T). Qed.

Lemma total_billing s b k : total (with_spec_billing s b) k = total s k.
Proof. done. Qed.

Ltac unfold_total := unfold total; cbn [fmap list_fmap map index_kinds Zsum foldr spec_rows spec_indices with_spec_rows with_spec_index].

Lemma total_empty s k : total s k = 0 -> rows_of (spec_rows s) k = ∅ /\ forall i, rows_of (spec_indices s i) k = ∅.
Proof.
  unfold_total. intros H. split; [apply map_size_empty_inv; lia|]. intros i. apply map_size_empty_inv. destruct i; lia.
Qed.

Lemma total_nonneg s k : 0 <= total s k.
Proof. unfold_total. lia. Qed.

Lemma remove_table_if_empty_ok e c s T k : agrees_at (total s) c s -> key_of (contents (table_ids c)) T = Some k ->
  both (fun c' s' => agrees_at (total s') c' s' /\ (forall k', total s' k' = total s k') /\ spec_tables s' = if total s k =? 0 then delete k (spec_tables s) else spec_tables s)
    (remove_table_if_empty e c T) (close_table e s k).
Proof.
  intros Ha Ek. unfold remove_table_if_empty, close_table, deref. pose proof (aa_tables _ _ _ Ha) as Ht. pose proof Ek as Ek'. unfold key_of in Ek. destruct (contents (table_ids c) !! T) as [o|] eqn:Eo; [|done].
  apply (inj Some) in Ek. cbn [at_or_assert mbind result_bind]. rewrite (aa_count _ _ _ Ha T o Eo), Ek. destruct (Z.eqb_spec (total s k) 0) as [H0|]; [|done].
  assert (Hp : spec_tables s !! k = Some (table_payer o)) by (apply (aa_spec_tables _ _ _ Ha); by exists T, o). rewrite Hp. cbn [default]. unfold remove_table.
  eapply both_bind; [apply bill_both, (aa_billing _ _ _ Ha)|]. intros ? ? (b & -> & ->). apply (with_billing_ok _ _ _ b) in Ha. destruct (to_id _ _ Ht T o Eo) as [-> _].
  unfold db_remove, table_op. cbn [table_ids with_billing]. rewrite Eo. cbn [mbind result_bind fst snd both]. split_and!; [|intros k'; unfold total; cbn; lia|done].
  destruct (total_empty s k H0) as [Hrows Hindices]. pose proof (aa_new _ _ _ Ha T o Eo) as Hnew. rewrite Ek in Hnew.
  pose proof Ha as []. cbn [spec_new kept_below with_billing with_spec_billing] in *.
  set (was_there := negb (bool_decide _)). assert (Hwas : was_there = (T <? kept_below c)) by (rewrite Z.ltb_antisym; exact (f_equal negb Hnew)). clearbody was_there. subst was_there.
  split; cbn [spec_new kept_below table_ids with_table_ids contents table_next with_contents spec_tables spec_rows spec_indices key_values keyval_cache index_objects itr_cache billing with_billing spec_billing with_spec_billing].
  - split.
    + intros T' o' [_ E]%lookup_delete_Some. by apply (to_id _ _ Ht).
    + intros T1 T2 k'. unfold key_of. rewrite !fmap_Some. intros (o1 & [_ E1]%lookup_delete_Some & ->) (o2 & [_ E2]%lookup_delete_Some & Hk).
      apply (to_key _ _ Ht T1 T2 (code_scope_table o1)); unfold key_of; [by rewrite E1|by rewrite E2, Hk].
  - intros k' p. rewrite lookup_delete_Some, (aa_spec_tables _ _ _ Ha). setoid_rewrite lookup_delete_Some. split.
    + intros [Hne (T' & o' & E & H)]. exists T', o'. split; [split; [intros <-|done]|done]. cbn in E. rewrite Eo in E. injection E as <-. destruct H as [<- _]. congruence.
    + intros (T' & o' & [Hne E] & H). split; [|by exists T', o']. intros <-. apply Hne. destruct H as [Hk _]. apply (to_key _ _ Ht T T' k); [done|]. unfold key_of. by rewrite E, <- Hk.
  - intros T' o' [_ E]%lookup_delete_Some. by apply (aa_count _ _ _ Ha T').
  - apply delete_table_ok; [done..|exact Hrows].
  - intros i. apply delete_table_ok; [done| |done|apply Hindices]. apply aa_indices0.
  - done.
  - done.
  - intros T' o' [_ E]%lookup_delete_Some. by apply aa_new0.
Qed.

Section Slots.
Context {A : Type} (sl : slot A) (Hsl : slot_ok sl).

(** The ends of [db_store_i64] and [store] *)
Definition store_tail (e : action_env) (c : @apply_context K) (T : Z) (payer : account_name) (id : Z) (v : A) (amount : Z) : result (Z * @apply_context K) :=
  obj ← db_create (sl_orders sl) (sl_table sl c) (fun p => Row p T id payer v);
  let c := sl_put_table sl c obj.2 in
  c ← add_to_count c T 1;
  c ← bill e c payer amount;
  let ic := (cache_table (sl_cache sl c) T).2 in
  let (iterator, ic) := cache_add ic obj.1 in
  Ok (iterator, sl_put_cache sl c ic).
Definition store_tail_spec (e : action_env) (s : @contract_spec K) (k : table_key) (payer : account_name) (id : Z) (v : A) (amount : Z) : result (Z * @contract_spec K) :=
  EOS_ASSERT bool_decide (rows_of (sl_spec sl s) k !! id = None) ,, std_logic_error ;;
  let s := sl_put_spec sl s (set_row (sl_spec sl s) k id (payer, v)) in
  s ← bill_spec e s payer amount;
  let r := cursor_to_new (sl_spec sl s) k id in Ok (r.1, sl_put_spec sl s r.2).

Lemma cursor_rows (sp : rows_spec A) k id : rows_of (cursor_to_new sp k id).2 = rows_of sp.
Proof. unfold cursor_to_new, cursor_to, end_cursor. by destruct (position (inl k) _), (position (Some (k, id)) _). Qed.

Lemma rows_count_set (sp : rows_spec A) k id v k' : rows_of sp k !! id = None -> rows_count (set_row sp k id v) k' = rows_count sp k' + (if decide (k' = k) then 1 else 0).
Proof. intros Hno. unfold rows_count, set_row, with_rows. cbn. case_decide as H; [|lia]. subst k'. rewrite map_size_insert_None by done. lia. Qed.

Lemma cursor_to_new_ok kept tabs next (t : @table (row A)) ic sp T k p r : tables_ok tabs next -> rows_ok kept tabs next t ic sp -> key_of tabs T = Some k -> contents t !! p = Some r -> t_id r = T ->
  (cache_add (cache_table ic T).2 p).1 = (cursor_to_new sp k (primary_key r)).1 /\ rows_ok kept tabs next t (cache_add (cache_table ic T).2 p).2 (cursor_to_new sp k (primary_key r)).2.
Proof.
  intros Ht Hr Ek Er <-. destruct (end_cursor_ok kept tabs next t ic sp Ht Hr _ k Ek) as (_ & E2 & E3).
  apply (cursor_to_ok kept tabs next t _ _ Ht E2 p r k); [done..|by eexists].
Qed.

Definition stored (s : @contract_spec K) (k : table_key) (x : Z * @apply_context K) (y : Z * @contract_spec K) : Prop :=
  x.1 = y.1 /\ agrees_at (total y.2) x.2 y.2 /\ spec_tables y.2 = spec_tables s /\ forall k', total y.2 k' = total s k' + (if decide (k' = k) then 1 else 0).

Lemma store_tail_ok e c s T k payer id v amount : agrees_at (total s) c s -> 0 <= total s k -> total s k + 1 < 2 ^ 32 -> key_of (contents (table_ids c)) T = Some k ->
  both (stored s k) (store_tail e c T payer id v amount) (store_tail_spec e s k payer id v amount).
Proof.
  intros Ha H0 Hb Ek. pose proof (so_rows _ Hsl _ _ _ Ha) as Hr. pose proof (aa_tables _ _ _ Ha) as Ht. unfold store_tail, store_tail_spec.
  pose proof (db_create_ok _ (so_orders _ Hsl) _ _ _ _ _ _ Ht Hr T k id (payer, v) Ek) as Hc. cbn [fst snd] in Hc. case_bool_decide as Hno; [|by rewrite Hc].
  destruct Hc as (t' & -> & Enew & Hr'). cbn [mbind result_bind fst snd]. destruct (so_table _ Hsl c t') as (E1 & E2 & E3 & _).
  pose proof (so_put_table _ Hsl _ _ _ _ _ Ha Hr') as Ha1. set (c1 := sl_put_table sl c t') in *. set (s1 := sl_put_spec sl s _) in *.
  destruct (so_spec _ Hsl s (set_row (sl_spec sl s) k id (payer, v))) as (E4 & E5). fold s1 in E4, E5.
  assert (Htot : forall k', total s1 k' = total s k' + (if decide (k' = k) then 1 else 0)).
  { intros k'. unfold s1. rewrite (so_total _ Hsl), (rows_count_set _ _ _ _ _ Hno). lia. }
  destruct (add_to_count_ok (total s) c1 s1 T k 1 Ha1) as (t2 & -> & Ha2 & Hk2 & _); [by rewrite E3|]. cbn [mbind result_bind].
  eapply both_bind; [apply bill_both, (aa_billing _ _ _ Ha2)|]. intros ? ? (b & -> & ->). apply (with_billing_ok _ _ _ b) in Ha2.
  apply (agrees_at_ext _ (total s1)) in Ha2. 2:{ intros k'. rewrite Htot. case_decide as H; [|lia]. subst k'. apply wrap32_id. width. }
  destruct (so_billing _ Hsl (with_table_ids c1 t2) b) as (F1 & F2), (so_tables _ Hsl c1 t2) as (G1 & G2).
  pose proof (so_rows _ Hsl _ _ _ Ha2) as Hr2. pose proof (aa_tables _ _ _ Ha2) as Ht2. cbv zeta.
  assert (Ek2 : key_of (contents (table_ids (with_billing (with_table_ids c1 t2) b))) T = Some k) by (cbn; rewrite Hk2, E3; done).
  assert (Enew2 : contents (sl_table sl (with_billing (with_table_ids c1 t2) b)) !! table_next (sl_table sl c) = Some (Row (table_next (sl_table sl c)) T id payer v)) by (by rewrite F1, G1, E1).
  destruct (cursor_to_new_ok _ _ _ _ _ _ T k _ _ Ht2 Hr2 Ek2 Enew2 eq_refl) as [E6 Hr3]. cbn [primary_key] in E6, Hr3.
  destruct (cache_add _ _) as [iterator ic'], (cursor_to_new _ k id) as [it' sp'] eqn:Ecur. cbn [fst snd both] in *. unfold stored. cbn [fst snd].
  destruct (so_spec _ Hsl (with_spec_billing s1 b) sp') as [H1 H2].
  assert (Htot' : forall k', total (sl_put_spec sl (with_spec_billing s1 b) sp') k' = total s1 k').
  { intros k'. rewrite (so_total _ Hsl), total_billing. replace (rows_count sp' k') with (rows_count (sl_spec sl (with_spec_billing s1 b)) k'); [lia|].
    unfold rows_count. pose proof (cursor_rows (sl_spec sl (with_spec_billing s1 b)) k id) as Hrows. rewrite Ecur in Hrows. cbn in Hrows. by rewrite Hrows. }
  split_and!; [done| |by rewrite H2|intros k'; by rewrite Htot'].
  eapply agrees_at_ext; [intros k'; symmetry; apply Htot'|]. by apply (so_put_cache _ Hsl).
Qed.

(** ** The row of an iterator *)

Definition at_row c (x : table_key * entry A) (iterator : Z) (r : row A) : Prop :=
  contents (sl_table sl c) !! row_id r = Some r /\ key_of (contents (table_ids c)) (t_id r) = Some x.1 /\ view r = x.2 /\
  is_Some (_table_cache (sl_cache sl c) !! t_id r) /\ _iterator_to_object (sl_cache sl c) !! Z.to_nat iterator = Some (Some (row_id r)) /\ 0 <= iterator.

Lemma get_table_ok kept tabs next (t : @table (row A)) ic sp T : rows_ok kept tabs next t ic sp -> is_Some (_table_cache ic !! T) -> get_table ic T = Ok T.
Proof. intros Hr [x Ex]. unfold get_table. rewrite Ex. by apply (ro_table_cache _ _ _ _ _ _ Hr) in Ex as (n & _ & ->). Qed.

Lemma row_at_ok cnt c s iterator : agrees_at cnt c s ->
  both (fun r x => at_row c x iterator r) (obj ← cache_get (sl_cache sl c) iterator; deref (sl_table sl c) obj) (entry_at (sl_spec sl s) iterator).
Proof.
  intros Ha. pose proof (entry_at_ok _ _ _ _ _ _ (so_rows _ Hsl _ _ _ Ha) iterator) as H. unfold at_row. revert H.
  destruct (obj ← cache_get (sl_cache sl c) iterator; deref (sl_table sl c) obj) as [r|e], (entry_at (sl_spec sl s) iterator) as [[k x]|e']; done.
Qed.

Lemma own_row_ok cnt e c s iterator : agrees_at cnt c s ->
  both (fun r x => at_row c x iterator r) (own_row e c (sl_table sl c) (sl_cache sl c) iterator) (own_entry e (sl_spec sl s) iterator).
Proof.
  intros Ha. unfold own_row, own_entry. destruct (is_read_only e); [done|]. cbn [negb]. pose proof (row_at_ok cnt c s iterator Ha) as H.
  destruct (cache_get _ _) as [p|]; cbn in H |- *; [|destruct (entry_at _ _); cbn; done || by rewrite H]. destruct (deref _ p) as [r|]; cbn in H |- *; [|destruct (entry_at _ _); cbn; done || by rewrite H].
  destruct (entry_at _ _) as [[k x]|]; [|done]. pose proof H as (Er & Ek & Hv & Hc & _). cbn in *.
  rewrite (get_table_ok _ _ _ _ _ _ _ (so_rows _ Hsl _ _ _ Ha) Hc). cbn. unfold deref. unfold key_of in Ek. destruct (contents (table_ids c) !! t_id r) as [o|]; [|done].
  apply (inj Some) in Ek. subst k. cbn. by destruct (code o =? receiver e).
Qed.

Definition update_tail (c : @apply_context K) (obj : row A) (new_payer : account_name) (v : A) : result (@apply_context K) :=
  t ← db_modify (sl_orders sl) (sl_table sl c) (row_id obj) (fun o => Row (row_id o) (t_id o) (primary_key o) new_payer v);
  Ok (sl_put_table sl c t).

Lemma update_tail_ok c s r x iterator new_payer v : agrees_at (total s) c s -> at_row c x iterator r ->
  exists c', update_tail c r new_payer v = Ok c' /\ let s' := sl_put_spec sl s (set_row (sl_spec sl s) x.1 x.2.1 (new_payer, v)) in agrees_at (total s') c' s' /\ forall k, total s' k = total s k.
Proof.
  intros Ha (Er & Ek & Hv & _). pose proof (so_rows _ Hsl _ _ _ Ha) as Hr. pose proof (aa_tables _ _ _ Ha) as Ht. unfold update_tail.
  destruct (db_modify_ok _ (so_orders _ Hsl) _ _ _ _ _ _ Ht Hr r x.1 new_payer v Er Ek) as (t' & -> & Hr'). eexists. split; [reflexivity|]. rewrite <- Hv. cbn zeta.
  assert (Htot : forall k, total (sl_put_spec sl s (set_row (sl_spec sl s) x.1 (primary_key r) (new_payer, v))) k = total s k).
  { intros k. rewrite (so_total _ Hsl). unfold rows_count, set_row, with_rows. cbn. case_decide as Hk; [|lia]. subst k.
    rewrite map_size_insert_Some; [lia|]. exists (payer r, payload r). apply (ro_rows _ _ _ _ _ _ Hr (t_id r)); [done|]. by exists (row_id r), r. }
  split; [|done]. eapply agrees_at_ext; [intros k; symmetry; apply Htot|]. by apply (so_put_table _ Hsl).
Qed.

(** The ends of [db_remove_i64] and [remove] *)
Definition remove_tail (e : action_env) (c : @apply_context K) (obj : row A) (amount iterator : Z) : result (@apply_context K) :=
  c ← bill e c (payer obj) (- amount);
  table_obj ← get_table (sl_cache sl c) (t_id obj);
  c ← add_to_count c table_obj (-1);
  t ← db_remove (sl_orders sl) (sl_table sl c) (row_id obj);
  let c := sl_put_table sl c t in
  c ← remove_table_if_empty e c table_obj;
  ic ← cache_remove (sl_cache sl c) iterator;
  Ok (sl_put_cache sl c ic).
Definition remove_tail_spec (e : action_env) (s : @contract_spec K) (x : table_key * entry A) (amount iterator : Z) : result (@contract_spec K) :=
  s ← bill_spec e s x.2.2.1 (- amount);
  close_table e (sl_put_spec sl s (drop_row (sl_spec sl s) x.1 x.2.1 iterator)) x.1.


Lemma remove_table_if_empty_cache e c T ic :
  remove_table_if_empty e (sl_put_cache sl c ic) T = (fun c' => sl_put_cache sl c' ic) <$> remove_table_if_empty e c T.
Proof.
  unfold remove_table_if_empty, remove_table, bill. destruct (so_cache _ Hsl c ic) as [E1 E2]. rewrite E1. destruct (deref _ T) as [o|]; [|done]. cbn. destruct (count o =? 0); [|done].
  rewrite E2. destruct (update_db_usage _ _ _ _) as [b|]; [|done]. cbn. rewrite E1. destruct (db_remove _ _ _) as [t|]; [|done]. cbn. by rewrite (so_cache_tables _ Hsl), (so_cache_billing _ Hsl).
Qed.

Lemma remove_table_if_empty_keeps e c T c' : remove_table_if_empty e c T = Ok c' -> sl_cache sl c' = sl_cache sl c.
Proof.
  unfold remove_table_if_empty, remove_table, bill. intros H. inv_result. destruct (count _ =? 0); inv_result; [|done].
  by rewrite (proj2 (so_tables _ Hsl _ _)), (proj2 (so_billing _ Hsl _ _)).
Qed.

Definition removed (s : @contract_spec K) (k : table_key) (s' : @contract_spec K) : Prop :=
  (forall k', total s' k' = total s k' - (if decide (k' = k) then 1 else 0)) /\ spec_tables s' = if total s' k =? 0 then delete k (spec_tables s) else spec_tables s.

Lemma remove_tail_ok e c s r x amount iterator : agrees_at (total s) c s -> (forall k, total s k < 2 ^ 32) -> at_row c x iterator r ->
  both (fun c' s' => agrees_at (total s') c' s' /\ removed s x.1 s') (remove_tail e c r amount iterator) (remove_tail_spec e s x amount iterator).
Proof.
  intros Ha Hb Hat. unfold remove_tail, remove_tail_spec. destruct x as [k [id v]]. pose proof Hat as (Er & Ek & Hv & Hc & Hi & Hpos). cbn [fst snd] in *. injection Hv as <- <-. cbn [fst].
  eapply both_bind; [apply bill_both, (aa_billing _ _ _ Ha)|]. intros ? ? (b & -> & ->). apply (with_billing_ok _ _ _ b) in Ha.
  destruct (so_billing _ Hsl c b) as (F1 & F2). pose proof (so_spec_billing _ Hsl s b) as F3. rewrite F2, F3. pose proof (so_rows _ Hsl _ _ _ Ha) as Hr. rewrite F1, F2, F3 in Hr. pose proof (aa_tables _ _ _ Ha) as Ht.
  rewrite (get_table_ok _ _ _ _ _ _ _ Hr Hc). cbn [mbind result_bind]. set (c1 := with_billing c b) in *. set (s1 := with_spec_billing s b) in *.
  assert (Hrow : rows_of (sl_spec sl s) k !! primary_key r = Some (payer r, payload r)) by (apply (ro_rows _ _ _ _ _ _ Hr (t_id r)); [done|]; by exists (row_id r), r).
  set (sp := drop_row (sl_spec sl s) k (primary_key r) iterator). assert (Hcount : forall k', rows_count sp k' = rows_count (sl_spec sl s) k' - if decide (k' = k) then 1 else 0).
  { intros k'. unfold rows_count, sp, drop_row, with_rows. cbn. case_decide as Hk; [subst k'|lia]. pose proof (map_size_ne_0_lookup_2 _ _ (ex_intro _ _ Hrow : is_Some _)). rewrite map_size_delete_Some by (by eexists). lia. }
  assert (Htot : forall k', total (sl_put_spec sl s1 sp) k' = total s k' - if decide (k' = k) then 1 else 0).
  { intros k'. rewrite (so_total _ Hsl). rewrite F3, Hcount. unfold s1. rewrite total_billing. lia. }
  assert (H1 : 1 <= total s k).
  { pose proof (so_part _ Hsl s k). unfold rows_count in H. pose proof (map_size_ne_0_lookup_2 (rows_of (sl_spec sl s) k) _ (ex_intro _ _ Hrow : is_Some _)). lia. }
  destruct (add_to_count_ok (total s) c1 s1 (t_id r) k (-1) Ha Ek) as (t2 & -> & Ha2 & Hk2 & _). cbn [mbind result_bind].
  destruct (so_tables _ Hsl c1 t2) as (G1 & G2). rewrite G1, F1. rewrite (db_remove_ok _ _ _ _ Er). cbn [mbind result_bind]. set (t3 := with_contents _ _).
  set (ic' := IteratorCache (_table_cache (sl_cache sl c)) (_end_iterator_to_table (sl_cache sl c)) (<[Z.to_nat iterator := None]> (_iterator_to_object (sl_cache sl c))) (delete (row_id r) (_object_to_iterator (sl_cache sl c)))).
  set (c2 := with_table_ids c1 t2) in *. set (c3 := sl_put_table sl c2 t3). destruct (so_table _ Hsl c2 t3) as (I1 & I2 & I3 & _). fold c3 in I1, I2, I3.
  pose proof (so_rows _ Hsl _ _ _ Ha2) as Hr2. rewrite G1, G2, F1, F2 in Hr2. rewrite F3 in Hr2.
  assert (Ek2 : key_of (contents (table_ids c2)) (t_id r) = Some k) by (unfold c2; cbn [table_ids with_table_ids]; by rewrite Hk2).
  pose proof (remove_row_ok _ _ _ _ _ _ _ r k iterator (aa_tables _ _ _ Ha2) Hr2 Er Ek2 Hpos Hi) as Hr3. fold t3 ic' sp in Hr3.
  pose proof (so_put_both _ Hsl _ _ _ _ _ _ Ha2 Hr3) as Ha3. fold c3 in Ha3.
  apply (agrees_at_ext _ (total (sl_put_spec sl s1 sp))) in Ha3. 2:{ intros k'. rewrite Htot. case_decide as H; [|lia]. subst k'. pose proof (Hb k). apply wrap32_id. width. }
  assert (Ek3 : key_of (contents (table_ids (sl_put_cache sl c3 ic'))) (t_id r) = Some k) by (by rewrite (proj1 (so_cache _ Hsl _ _)), I3).
  pose proof (remove_table_if_empty_ok e _ _ _ _ Ha3 Ek3) as Hend. rewrite remove_table_if_empty_cache in Hend. destruct (so_spec _ Hsl s1 sp) as [_ Hst].
  destruct (remove_table_if_empty e c3 (t_id r)) as [c4|] eqn:E4; cbn [fmap result_fmap] in Hend; [|destruct (close_table _ _ _); done].
  cbn [mbind result_bind]. rewrite (remove_table_if_empty_keeps _ _ _ _ E4), I2, G2, F2.
  assert (Hcr : cache_remove (sl_cache sl c) iterator = Ok ic').
  { unfold cache_remove. pose proof (lookup_lt_Some _ _ _ Hi) as Hlt. rewrite Hi. pass_with ltac:(apply negb_true_iff, Z.eqb_neq; lia). pass_with ltac:(by apply Z.leb_le). pass_with ltac:(apply Z.ltb_lt; width). done. }
  rewrite Hcr. cbn [mbind result_bind]. destruct (close_table _ _ _) as [s4|]; [|done]. cbn [both] in *. destruct Hend as (Ha4 & Ht4 & Hs4). split; [done|]. split.
  - intros k'. by rewrite Ht4, Htot.
  - by rewrite Hs4, Ht4, Hst.
Qed.
End Slots.

Definition row_slot : slot (list Byte.byte) := Slot _ key_value_indices key_values keyval_cache spec_rows with_key_values with_keyval_cache with_spec_rows.
Definition index_slot (i : index_kind) : slot K :=
  Slot _ (index_indices key_less i) (fun c => index_objects c i) (fun c => itr_cache c i) (fun s => spec_indices s i)
    (fun c t => with_index_objects c i t) (fun c ic => with_itr_cache c i ic) (fun s sp => with_spec_index s i sp).

Lemma row_slot_ok : slot_ok row_slot.
Proof.
  split; cbn; try done.
  - apply key_value_row_indices.
  - by intros cnt c s [].
  - by intros cnt c s t sp [] Hr.
  - by intros cnt c s ic sp [] Hr.
  - by intros cnt c s t ic sp [] Hr.
  - intros s sp k. unfold rows_count. unfold_total. lia.
  - intros s k. unfold rows_count. unfold_total. lia.
Qed.

Lemma index_slot_ok i : slot_ok (index_slot i).
Proof.
  split; cbn; try done.
  - apply index_row_indices.
  - intros cnt c s []. apply aa_indices0.
  - intros cnt c s t sp [] Hr. split; cbn; try done. intros j. case_decide; [by subst|done].
  - intros cnt c s ic sp [] Hr. split; cbn; try done. intros j. case_decide; [by subst|done].
  - intros cnt c s t ic sp [] Hr. split; cbn; try done. intros j. case_decide; [by subst|done].
  - intros c t. by rewrite decide_True.
  - intros s sp. by rewrite decide_True.
  - intros s sp k. unfold rows_count. unfold_total. destruct i; repeat case_decide; try done; lia.
  - intros s k. unfold rows_count. unfold_total. destruct i; lia.
Qed.

(** ** The calls *)

(** How many rows there can be before a count wraps *)
Record agrees (budget : Z) (c : @apply_context K) (s : @contract_spec K) : Prop := {
  ag_at : agrees_at (total s) c s;
  ag_bound : 0 <= budget /\ forall k, total s k + budget < 2 ^ 32;
  ag_tables : forall k, is_Some (spec_tables s !! k) -> 0 < total s k
}.

Definition same_output {B} (budget : Z) (x : B * @apply_context K) (y : B * @contract_spec K) : Prop := x.1 = y.1 /\ agrees budget x.2 y.2.

Lemma agrees_less budget budget' c s : 0 <= budget' <= budget -> agrees budget c s -> agrees budget' c s.
Proof. intros H [H1 [H2 H3] H4]. split; [done|split; [lia|]|done]. intros k. specialize (H3 k). lia. Qed.

Lemma cursor_to_rows {A} (sp : rows_spec A) k id : rows_of (cursor_to sp k id).2 = rows_of sp.
Proof. unfold cursor_to. by destruct (position _ _). Qed.
Lemma end_cursor_rows {A} (sp : rows_spec A) k : rows_of (end_cursor sp k).2 = rows_of sp.
Proof. unfold end_cursor. by destruct (position _ _). Qed.

Lemma seek_spec_rows {A} present (sp : rows_spec A) k lookup : rows_of (seek_spec present sp k lookup).1.2 = rows_of sp.
Proof.
  unfold seek_spec. destruct present; [|done]. pose proof (end_cursor_rows sp k) as H. destruct (end_cursor sp k) as [ei sp']. cbn in H.
  destruct (lookup _) as [x|]; [|done]. pose proof (cursor_to_rows sp' k x.1) as H'. destruct (cursor_to _ _ _). cbn in *. congruence.
Qed.
Lemma next_spec_rows {A} lt (sp : rows_spec A) iterator r : next_spec lt sp iterator = Ok r -> rows_of r.1.2 = rows_of sp.
Proof.
  unfold next_spec. destruct (iterator <? -1); [by intros [= <-]|]. intros H. inv_result. destruct (least _ _) as [y|].
  - pose proof (cursor_to_rows sp x.1 y.1) as Hr. destruct (cursor_to _ _ _). by injection H as <-.
  - pose proof (end_cursor_rows sp x.1) as Hr. destruct (end_cursor _ _). by injection H as <-.
Qed.
Lemma previous_spec_rows {A} lt (sp : rows_spec A) iterator r : previous_spec lt sp iterator = Ok r -> rows_of r.1.2 = rows_of sp.
Proof.
  unfold previous_spec. intros H. apply bind_Ok in H as ([[k y]|] & _ & H); cbn in H; [|by injection H as <-].
  pose proof (cursor_to_rows sp k y.1) as Hr. destruct (cursor_to _ _ _). by injection H as <-.
Qed.

Section Calls.
Context (budget : Z) (e : action_env) (c : @apply_context K) (s : @contract_spec K) (Hag : agrees (budget + 1) c s) (Hbudget : 0 <= budget).

Lemma stored_agrees s' k x y : (forall k', total s' k' = total s k') -> (forall k', is_Some (spec_tables s' !! k') -> k' = k \/ is_Some (spec_tables s !! k')) ->
  stored s' k x y -> same_output budget x y.
Proof.
  intros Htot Hst (E1 & Ha & E2 & E3). destruct Hag as [_ [_ Hb] Hopen]. split; [done|]. split; [done|split; [done|]|].
  - intros k'. specialize (Hb k'). rewrite E3, Htot. case_decide; lia.
  - intros k'. rewrite E2. intros H. rewrite E3, Htot. destruct (Hst k' H) as [->|H']; [rewrite decide_True by done; pose proof (total_nonneg s k); lia|].
    specialize (Hopen k' H'). case_decide; lia.
Qed.

Lemma opened_total s' : same_rows s s' -> forall k, total s' k = total s k.
Proof. intros [E1 E2] k. unfold total. by rewrite E1, E2. Qed.

(** Opening the table, and then storing in it *)
Lemma open_store_ok {A} (sl : slot A) (Hsl : slot_ok sl) code scope name payer id v amount :
  both (same_output budget) (tab ← find_or_create_table e c code scope name payer; let (T, c) := tab : Z * @apply_context K in store_tail sl e c T payer id v amount)
    (s ← open_table e s (code, scope, name) payer; store_tail_spec sl e s (code, scope, name) payer id v amount).
Proof.
  pose proof Hag as [Ha [_ Hb] _]. eapply both_bind; [apply (find_or_create_ok (total s)); [done|by eapply absent_total]|].
  intros [T c1] s1 (Ha1 & Ek & Hst & Hsame). cbn [fst snd] in *. pose proof (opened_total s1 Hsame) as Htot.
  eapply both_impl; [apply store_tail_ok; [done| | | |exact Ek]|].
  - eapply agrees_at_ext; [|done]. intros k. by rewrite Htot.
  - apply total_nonneg.
  - rewrite Htot. specialize (Hb (code, scope, name)). lia.
  - intros x y. by apply stored_agrees.
Qed.

Lemma db_store_ok scope name payer id buffer :
  both (same_output budget) (db_store_i64 e c scope name payer id buffer) (db_store_spec e s scope name payer id buffer).
Proof.
  unfold db_store_i64, db_store_spec. destruct (is_read_only e); [done|]. cbn [negb]. destruct (payer =? 0).
  - pose proof Hag as [Ha _ _]. eapply both_bind; [apply (find_or_create_ok (total s)); [done|by eapply absent_total]|]. by intros [T c1] s1 _.
  - exact (open_store_ok row_slot row_slot_ok (receiver e) scope name payer id buffer (size_of buffer + key_value_billable_size)).
Qed.

Lemma store_ok i scope name payer id value : both (same_output budget) (store key_less e c i scope name payer id value) (store_spec e s i scope name payer id value).
Proof.
  unfold store, store_spec. destruct (is_read_only e); [done|]. cbn [negb]. destruct (payer =? 0); [done|].
  exact (open_store_ok (index_slot i) (index_slot_ok i) (receiver e) scope name payer id value (index_billable_size i)).
Qed.

(** Only rows and payers change. *)
Lemma unchanged_agrees c' s' : agrees_at (total s') c' s' -> (forall k, total s' k = total s k) -> spec_tables s' = spec_tables s -> agrees budget c' s'.
Proof.
  intros Ha Htot Hst. destruct Hag as [_ [_ Hb] Ho]. split; [done|split; [done|]|].
  - intros k. rewrite Htot. specialize (Hb k). lia.
  - intros k. rewrite Hst, Htot. apply Ho.
Qed.

Lemma at_row_billing {A} (sl : slot A) (Hsl : slot_ok sl) b x iterator r : at_row sl c x iterator r -> at_row sl (with_billing c b) x iterator r.
Proof. unfold at_row. by rewrite (proj1 (so_billing _ Hsl c b)), (proj2 (so_billing _ Hsl c b)). Qed.

(** Billing, and then changing a row *)
Lemma bill_update_ok {A} (sl : slot A) (Hsl : slot_ok sl) x iterator r new_payer v (m : result (@apply_context K)) m' :
  at_row sl c x iterator r -> both (fun c' s' => exists b, c' = with_billing c b /\ s' = with_spec_billing s b) m m' ->
  both (agrees budget) (c ← m; update_tail sl c r new_payer v) (s ← m'; Ok (sl_put_spec sl s (set_row (sl_spec sl s) x.1 x.2.1 (new_payer, v)))).
Proof.
  intros Hat Hm. eapply both_bind; [exact Hm|]. intros ? ? (b & -> & ->). pose proof Hag as [Ha _ _].
  destruct (update_tail_ok sl Hsl (with_billing c b) (with_spec_billing s b) r x iterator new_payer v) as (c' & -> & Ha' & Htot); [by apply with_billing_ok|by apply at_row_billing|].
  apply unchanged_agrees; [done|by intros k; rewrite Htot|]. by rewrite (proj2 (so_spec _ Hsl _ _)).
Qed.

Lemma bill_none : both (fun c' s' => exists b, c' = with_billing c b /\ s' = with_spec_billing s b) (Ok c) (Ok s).
Proof. exists (billing c). pose proof Hag as [Ha _ _]. rewrite (aa_billing _ _ _ Ha) at 2. by destruct c, s. Qed.

Lemma bill_one payer d : both (fun c' s' => exists b, c' = with_billing c b /\ s' = with_spec_billing s b) (bill e c payer d) (bill_spec e s payer d).
Proof. pose proof Hag as [Ha _ _]. apply bill_both, (aa_billing _ _ _ Ha). Qed.

Lemma bill_two payer d payer' d' : both (fun c' s' => exists b, c' = with_billing c b /\ s' = with_spec_billing s b)
  (c ← bill e c payer d; bill e c payer' d') (s ← bill_spec e s payer d; bill_spec e s payer' d').
Proof.
  eapply both_bind; [apply bill_one|]. intros ? ? (b & -> & ->). eapply both_impl; [by apply bill_both|]. intros ? ? (b' & -> & ->). by exists b'.
Qed.

Lemma db_update_ok iterator new_payer buffer : both (agrees budget) (db_update_i64 e c iterator new_payer buffer) (db_update_spec e s iterator new_payer buffer).
Proof.
  unfold db_update_i64, db_update_spec. pose proof Hag as [Ha _ _]. eapply both_bind; [apply (own_row_ok row_slot row_slot_ok _ e c s iterator Ha)|].
  intros r [k y] Hat. pose proof Hat as (_ & _ & Hv & _). cbn [snd] in Hv. subst y.
  refine (bill_update_ok row_slot row_slot_ok (k, view r) iterator r _ buffer _ _ Hat _). cbn [view fst snd]. destruct (negb _); [apply bill_two|]. destruct (negb _); [apply bill_one|apply bill_none].
Qed.

Lemma update_ok i iterator new_payer secondary : both (agrees budget) (update key_less e c i iterator new_payer secondary) (update_spec e s i iterator new_payer secondary).
Proof.
  unfold update, update_spec. pose proof Hag as [Ha _ _]. eapply both_bind; [apply (own_row_ok (index_slot i) (index_slot_ok i) _ e c s iterator Ha)|].
  intros r [k y] Hat. pose proof Hat as (_ & _ & Hv & _). cbn [snd] in Hv. subst y.
  refine (bill_update_ok (index_slot i) (index_slot_ok i) (k, view r) iterator r _ secondary _ _ Hat _). cbn [view fst snd]. destruct (negb _); [apply bill_two|apply bill_none].
Qed.

Lemma removing_ok {A} (sl : slot A) (Hsl : slot_ok sl) x iterator r amount : at_row sl c x iterator r ->
  both (agrees budget) (remove_tail sl e c r amount iterator) (remove_tail_spec sl e s x amount iterator).
Proof.
  intros Hat. pose proof Hag as [Ha [_ Hb] Ho]. eapply both_impl; [apply (remove_tail_ok sl Hsl); [done| |done]|].
  - intros k. specialize (Hb k). lia.
  - intros c' s' (Ha' & Htot & Hst). split; [done|split; [done|]|].
    + intros k. rewrite Htot. specialize (Hb k). case_decide; lia.
    + intros k Hk. assert (Hin : is_Some (spec_tables s !! k)).
      { rewrite Hst in Hk. destruct (_ =? 0); [|done]. by apply lookup_delete_is_Some in Hk as [_ ?]. }
      specialize (Ho k Hin). specialize (Htot k). case_decide as Hkx; [|lia]. subst k. rewrite Hst in Hk.
      destruct (Z.eqb_spec (total s' x.1) 0); [by apply lookup_delete_is_Some in Hk as [? _]|lia].
Qed.

Lemma db_remove_call_ok iterator : both (agrees budget) (db_remove_i64 e c iterator) (db_remove_spec e s iterator).
Proof.
  unfold db_remove_i64, db_remove_spec. pose proof Hag as [Ha _ _]. eapply both_bind; [apply (own_row_ok row_slot row_slot_ok _ e c s iterator Ha)|].
  intros r [k y] Hat. pose proof Hat as (_ & _ & Hv & _). cbn [snd] in Hv. subst y.
  exact (removing_ok row_slot row_slot_ok (k, view r) iterator r (size_of (payload r) + key_value_billable_size) Hat).
Qed.

Lemma remove_call_ok i iterator : both (agrees budget) (remove key_less e c i iterator) (remove_spec e s i iterator).
Proof.
  unfold remove, remove_spec. pose proof Hag as [Ha _ _]. eapply both_bind; [apply (own_row_ok (index_slot i) (index_slot_ok i) _ e c s iterator Ha)|].
  intros r x Hat. exact (removing_ok (index_slot i) (index_slot_ok i) x iterator r (index_billable_size i) Hat).
Qed.

(** Calls that move over rows *)
Lemma moved_ok {A} (sl : slot A) (Hsl : slot_ok sl) r r' : same_place (kept_below c) (contents (table_ids c)) (table_next (table_ids c)) (sl_table sl c) r r' -> rows_of r'.1.2 = rows_of (sl_spec sl s) ->
  agrees budget (sl_put_cache sl c r.1.2) (sl_put_spec sl s r'.1.2).
Proof.
  intros (_ & _ & Hr) Hrows. pose proof Hag as [Ha _ _]. assert (Htot : forall k, total (sl_put_spec sl s r'.1.2) k = total s k).
  { intros k. rewrite (so_total _ Hsl). unfold rows_count. rewrite Hrows. lia. }
  apply unchanged_agrees; [|done|by rewrite (proj2 (so_spec _ Hsl _ _))]. eapply agrees_at_ext; [intros k; symmetry; apply Htot|]. by apply (so_put_cache _ Hsl).
Qed.

Lemma seek_call_ok {A} (sl : slot A) (Hsl : slot_ok sl) code scope name lookup lookup' : let k := (code, scope, name) in lookup_ok (contents (table_ids c)) (sl_table sl c) (sl_spec sl s) lookup lookup' ->
  let r := seek (find_table c code scope name) (sl_cache sl c) lookup in let r' := seek_spec (has_table s k) (sl_spec sl s) k lookup' in
  r.1.1 = r'.1.1 /\ view <$> r.2 = r'.2 /\ agrees budget (sl_put_cache sl c r.1.2) (sl_put_spec sl s r'.1.2).
Proof.
  intros k Hl r r'. pose proof Hag as [Ha _ _]. pose proof (so_rows _ Hsl _ _ _ Ha) as Hr. pose proof (aa_tables _ _ _ Ha) as Ht.
  assert (Hsp : same_place (kept_below c) (contents (table_ids c)) (table_next (table_ids c)) (sl_table sl c) r r').
  { pose proof (find_table_ok _ c s code scope name Ha) as Hf. unfold r, r', has_table. fold k in Hf. destruct (find_table c code scope name) as [o|].
    - destruct Hf as (Eo & Hk & Hs). rewrite bool_decide_true by (by eexists). rewrite <- Hk. by apply (seek_ok _ _ _ _ _ _ Ht Hr (tid o)).
    - destruct Hf as [_ Hs]. rewrite bool_decide_false; [by split_and!|]. intros [p Hp]. discriminate (eq_trans (eq_sym Hs) Hp). }
  pose proof Hsp as (E1 & E2 & _). split_and!; [done..|]. apply moved_ok; [done..|]. apply seek_spec_rows.
Qed.

Lemma end_call_ok {A} (sl : slot A) (Hsl : slot_ok sl) code scope name : let k := (code, scope, name) in
  let r := end_of (find_table c code scope name) (sl_cache sl c) in let r' := end_spec (has_table s k) (sl_spec sl s) k in
  r.1 = r'.1 /\ agrees budget (sl_put_cache sl c r.2) (sl_put_spec sl s r'.2).
Proof.
  intros k r r'. pose proof (seek_call_ok sl Hsl code scope name (fun _ => None) (fun _ => None)) as H. destruct H as (E1 & _ & E2); [by intros T k' _|].
  unfold seek, seek_spec in E1, E2. unfold r, r', end_of, end_spec. fold k in E1, E2. destruct (find_table c code scope name) as [o|], (has_table s k).
  - destruct (cache_table _ _), (end_cursor _ _). by split.
  - destruct (cache_table _ _). by split.
  - destruct (end_cursor _ _). by split.
  - by split.
Qed.

Lemma next_call_ok {A} (sl : slot A) (Hsl : slot_ok sl) lt lt' iterator : row_order Z.lt lt lt' ->
  both (fun r r' => r.1.1 = r'.1.1 /\ view <$> r.2 = r'.2 /\ agrees budget (sl_put_cache sl c r.1.2) (sl_put_spec sl s r'.1.2))
    (next lt (sl_table sl c) (sl_cache sl c) iterator) (next_spec lt' (sl_spec sl s) iterator).
Proof.
  intros Hord. pose proof Hag as [Ha _ _]. pose proof (next_ok (table_ids c) _ _ _ _ _ (aa_tables _ _ _ Ha) (so_rows _ Hsl _ _ _ Ha) _ _ Hord iterator) as H.
  destruct (next _ _ _ _) as [r|], (next_spec _ _ _) as [r'|] eqn:E'; try done. cbn in *. pose proof H as (E1 & E2 & _). split_and!; [done..|]. apply moved_ok; [done..|]. by eapply next_spec_rows.
Qed.

Lemma previous_call_ok {A} (sl : slot A) (Hsl : slot_ok sl) lt lt' iterator : row_order Z.lt lt lt' ->
  both (fun r r' => r.1.1 = r'.1.1 /\ view <$> r.2 = r'.2 /\ agrees budget (sl_put_cache sl c r.1.2) (sl_put_spec sl s r'.1.2))
    (previous lt (table_ids c) (kept_below c) (sl_table sl c) (sl_cache sl c) iterator) (previous_spec lt' (sl_spec sl s) iterator).
Proof.
  intros Hord. pose proof Hag as [Ha _ _]. pose proof (previous_ok (table_ids c) _ _ _ _ _ (aa_tables _ _ _ Ha) (so_rows _ Hsl _ _ _ Ha) _ _ Hord iterator) as H.
  destruct (previous _ _ _ _ _ _) as [r|], (previous_spec _ _ _) as [r'|] eqn:E'; try done. cbn in *. pose proof H as (E1 & E2 & _). split_and!; [done..|]. apply moved_ok; [done..|]. by eapply previous_spec_rows.
Qed.

Lemma db_get_ok iterator buffer_size : both eq (db_get_i64 c iterator buffer_size) (db_get_spec s iterator buffer_size).
Proof.
  unfold db_get_i64, db_get_spec. pose proof Hag as [Ha _ _]. pose proof (row_at_ok row_slot row_slot_ok _ c s iterator Ha) as H. cbn [sl_table sl_cache sl_spec row_slot] in H.
  destruct (cache_get _ _) as [p|]; cbn in H |- *; [|destruct (entry_at _ _); cbn; done || by rewrite H]. destruct (deref _ p) as [r|]; cbn in H |- *; [|destruct (entry_at _ _); cbn; done || by rewrite H].
  destruct (entry_at _ _) as [[k y]|]; [|done]. destruct H as (_ & _ & Hv & _). cbn in *. subst y. cbn. by destruct (buffer_size =? 0).
Qed.

(** What is written out, from the row in the code and in the specification *)
Lemma primary_view {A} (o : option (row A)) o' : view <$> o = o' -> primary_key <$> o = fst <$> o'.
Proof. intros <-. by destruct o. Qed.
Lemma payload_view (o : option (row K)) o' : view <$> o = o' -> payload <$> o = (fun x : entry K => id x.2.2) <$> o'.
Proof. intros <-. by destruct o. Qed.

Ltac same H :=
  destruct H as (E1 & E2 & E3); split; [|exact E3]; cbn in E1, E2 |- *; unfold output, returns;
  f_equal; first [exact E1 | exact (primary_view _ _ E2) | exact (payload_view _ _ E2) | reflexivity].
(** A call that moves an iterator *)
Ltac moves :=
  match goal with |- both _ ?r ?r' -> _ =>
    destruct r as [r1|], r' as [r1'|]; cbn [both]; try done; let H := fresh in intros H; same H
  end.

Lemma call_ok o : both (same_output budget) (call key_less e c o) (call_spec key_less e s o).
Proof.
  pose proof Hag as [Ha _ _]. pose proof (aa_rows _ _ _ Ha) as Hr. pose proof (aa_indices _ _ _ Ha) as Hi. destruct o; cbn [call call_spec].
  - eapply both_bind; [apply db_store_ok|]. intros x y [E H]. split; cbn; [by rewrite E|done].
  - eapply both_bind; [apply db_update_ok|]. intros x y H. by split.
  - eapply both_bind; [apply db_remove_call_ok|]. intros x y H. by split.
  - eapply both_bind; [apply db_get_ok|]. intros x y ->. split; [done|]. by apply (agrees_less (budget + 1)); [lia|].
  - unfold db_next_i64. generalize (next_call_ok row_slot row_slot_ok _ _ iterator by_primary_order). cbn [sl_table sl_cache sl_spec sl_put_cache sl_put_spec row_slot]. moves.
  - unfold db_previous_i64. generalize (previous_call_ok row_slot row_slot_ok _ _ iterator by_primary_order). cbn [sl_table sl_cache sl_spec sl_put_cache sl_put_spec row_slot]. moves.
  - pose proof (seek_call_ok row_slot row_slot_ok code scope table_name _ _ (find_primary_ok _ _ _ _ _ _ Hr id)) as H. same H.
  - pose proof (seek_call_ok row_slot row_slot_ok code scope table_name _ _ (lower_bound_primary_ok _ _ _ _ _ _ Hr id)) as H. same H.
  - pose proof (seek_call_ok row_slot row_slot_ok code scope table_name _ _ (upper_bound_primary_ok _ _ _ _ _ _ Hr id)) as H. same H.
  - destruct (end_call_ok row_slot row_slot_ok code scope table_name) as [E1 E2]. split; [|exact E2]. cbn in E1 |- *. by rewrite E1.
  - eapply both_bind; [apply store_ok|]. intros x y [E H]. split; cbn; [by rewrite E|done].
  - eapply both_bind; [apply update_ok|]. intros x y H. by split.
  - eapply both_bind; [apply remove_call_ok|]. intros x y H. by split.
  - pose proof (seek_call_ok (index_slot k) (index_slot_ok k) code scope table_name _ _ (find_secondary_ok key_less Hkeys _ _ _ _ _ _ (Hi k) k secondary)) as H. same H.
  - pose proof (seek_call_ok (index_slot k) (index_slot_ok k) code scope table_name _ _ (find_primary_ok _ _ _ _ _ _ (Hi k) primary)) as H. same H.
  - pose proof (seek_call_ok (index_slot k) (index_slot_ok k) code scope table_name _ _ (lower_bound_secondary_ok key_less Hkeys _ _ _ _ _ _ (Hi k) k secondary)) as H. same H.
  - pose proof (seek_call_ok (index_slot k) (index_slot_ok k) code scope table_name _ _ (upper_bound_secondary_ok key_less Hkeys _ _ _ _ _ _ (Hi k) k secondary)) as H. same H.
  - destruct (end_call_ok (index_slot k) (index_slot_ok k) code scope table_name) as [E1 E2]. split; [|exact E2]. cbn in E1 |- *. by rewrite E1.
  - unfold next_secondary. generalize (next_call_ok (index_slot k) (index_slot_ok k) _ _ iterator (by_secondary_order key_less Hkeys k)). cbn [sl_table sl_cache sl_spec sl_put_cache sl_put_spec index_slot]. moves.
  - unfold previous_secondary. generalize (previous_call_ok (index_slot k) (index_slot_ok k) _ _ iterator (by_secondary_order key_less Hkeys k)). cbn [sl_table sl_cache sl_spec sl_put_cache sl_put_spec index_slot]. moves.
Qed.
End Calls.
End Refinement.
Arguments sl_orders {K A} _.
Arguments sl_table {K A} _ _.
Arguments sl_cache {K A} _ _.
Arguments sl_spec {K A} _ _.
Arguments sl_put_table {K A} _ _ _.
Arguments sl_put_cache {K A} _ _ _.
Arguments sl_put_spec {K A} _ _ _.
