(* ===== verification/Contracts.v ===== *)
(** * Contracts and their tables over transactions

    No code of its own: transactions of actions of contracts, whatever they call.
    What they see is what [ContractSpec] promises; the RAM they are billed for is
    what their rows and tables take. *)

From S2P Require Import Prelude UndoIndex UndoOrder UndoRepr UndoTable ResourceLimits ContractTables ContractRows ContractSpec ContractRefinement.
Open Scope Z_scope.

(** ** Histories *)

Section Histories.
Context {K : Type} (key_less : index_kind -> K -> K -> bool) (Hkeys : forall k, strict_weak (key_less k)).
Implicit Types (c : @apply_context K) (s : @contract_spec K).

(** The receivers of an action, each with its calls *)
Definition contract_action : Type := list (action_env * list (@db_call K)).

(** A transaction, whose database session is undone if it fails, and what the rest of
    the node does to resource limits between transactions *)
Inductive contract_event : Type :=
| Transact (actions : list contract_action)
| SetResourceLimits (limits : resource_limits_manager).

Definition run_actions c (actions : list contract_action) : result (list (@db_output K) * @apply_context K) :=
  foldM (fun (r : list db_output * @apply_context K) a => r' ← run_action key_less r.2 a; Ok (r.1 ++ r'.1, r'.2)) ([], c) actions.
Definition run_event c (x : contract_event) : @apply_context K * result (list (@db_output K)) :=
  match x with
  | Transact actions => match run_actions (start_transaction c) actions with Ok r => (r.2, Ok r.1) | Throw e => (c, Throw e) end
  | SetResourceLimits limits => (with_billing c (RamBilling limits (validate_ram_usage (billing c)) (_account_ram_deltas (billing c))), Ok [])
  end.
Fixpoint run_events c (h : list contract_event) : @apply_context K * list (result (list (@db_output K))) :=
  match h with [] => (c, []) | x :: h => let r := run_event c x in let rest := run_events r.1 h in (rest.1, r.2 :: rest.2) end.

(** The same for the specification; each transaction has new tables of its own. *)
Definition settled (b : ram_billing) : ram_billing := RamBilling (resource_limits b) (validate_ram_usage b) ∅.
Definition without_cursors {A} (sp : rows_spec A) : rows_spec A := RowsSpec (rows_of sp) [] [].
Definition new_context_spec s : @contract_spec K :=
  ContractSpec (spec_tables s) (without_cursors (spec_rows s)) (fun i => without_cursors (spec_indices s i)) (settled (spec_billing s)) (spec_new s).
Definition start_transaction_spec s : @contract_spec K :=
  ContractSpec (spec_tables s) (without_cursors (spec_rows s)) (fun i => without_cursors (spec_indices s i)) (spec_billing s) ∅.
Definition run_receiver_spec `{FreedRead} (e : action_env) s (calls : list db_call) : result (list (@db_output K) * @contract_spec K) :=
  r ← foldM (fun (r : list db_output * @contract_spec K) o => r' ← call_spec key_less e r.2 o; Ok (r.1 ++ [r'.1], r'.2)) ([], s) calls;
  _ ← check_ram_deltas e (spec_billing r.2);
  Ok (r.1, with_spec_billing r.2 (settled (spec_billing r.2))).
Definition run_action_spec `{FreedRead} s (a : contract_action) : result (list (@db_output K) * @contract_spec K) :=
  foldM (fun (r : list db_output * @contract_spec K) x => r' ← run_receiver_spec x.1 r.2 x.2; Ok (r.1 ++ r'.1, r'.2)) ([], new_context_spec s) a.
Definition run_actions_spec `{FreedRead} s (actions : list contract_action) : result (list (@db_output K) * @contract_spec K) :=
  foldM (fun (r : list db_output * @contract_spec K) a => r' ← run_action_spec r.2 a; Ok (r.1 ++ r'.1, r'.2)) ([], s) actions.
Definition run_event_spec `{FreedRead} s (x : contract_event) : @contract_spec K * result (list (@db_output K)) :=
  match x with
  | Transact actions => match run_actions_spec (start_transaction_spec s) actions with Ok r => (r.2, Ok r.1) | Throw e => (s, Throw e) end
  | SetResourceLimits limits => (with_spec_billing s (RamBilling limits (validate_ram_usage (spec_billing s)) (_account_ram_deltas (spec_billing s))), Ok [])
  end.
Fixpoint run_events_spec `{FreedRead} s (h : list contract_event) : @contract_spec K * list (result (list (@db_output K))) :=
  match h with [] => (s, []) | x :: h => let r := run_event_spec s x in let rest := run_events_spec r.1 h in (rest.1, r.2 :: rest.2) end.

(** How many calls are made *)
Definition calls_of_action (a : contract_action) : Z := Zsum ((fun x => size_of x.2) <$> a).
Definition calls_of (x : contract_event) : Z := match x with Transact actions => Zsum (calls_of_action <$> actions) | SetResourceLimits _ => 0 end.
Definition all_calls (h : list contract_event) : Z := Zsum (calls_of <$> h).

(** No tables *)
Definition empty_context (b : ram_billing) : @apply_context K :=
  ApplyContext empty_table empty_table (fun _ => empty_table) b empty_iterator_cache (fun _ => empty_iterator_cache) 0.
Definition empty_spec (b : ram_billing) : @contract_spec K := ContractSpec ∅ (RowsSpec (fun _ => ∅) [] []) (fun _ => RowsSpec (fun _ => ∅) [] []) b ∅.

(** ** Refinement *)

Lemma empty_rows_ok {A} : rows_ok 0 ∅ 0 (@empty_table (row A)) empty_iterator_cache (RowsSpec (fun _ => ∅) [] []).
Proof.
  split; cbn; try done; try constructor; try (by intros * ?%elem_of_nil); try (by rewrite lookup_empty).
  - intros [_ H]. by rewrite lookup_nil in H.
  - intros (n & Hn & _). by rewrite lookup_nil in Hn.
Qed.

Lemma empty_agrees budget b : 0 <= budget < 2 ^ 32 -> agrees budget (empty_context b) (empty_spec b).
Proof.
  intros Hb. split.
  - split; cbn; try done; try (intros; apply empty_rows_ok).
    intros k p. rewrite lookup_empty. split; [done|]. by intros (T & o & ? & _).
  - split; [lia|]. intros k. replace (total (empty_spec b) k) with 0; [lia|]. unfold total. cbn. by rewrite map_size_empty.
  - intros k [p Hp]. cbn in Hp. by rewrite lookup_empty in Hp.
Qed.

(** The iterators of an action are not there for the next. *)
Lemma fresh_cache_ok {A} kept kept' tabs next (t : @table (row A)) ic sp : rows_ok kept tabs next t ic sp -> rows_ok kept' tabs next t empty_iterator_cache (without_cursors sp).
Proof.
  intros []. split; cbn; try done; try constructor; try (by intros * ?%elem_of_nil); try (by rewrite lookup_empty).
  - intros [_ H]. by rewrite lookup_nil in H.
  - by intros p r [x H].
  - intros (n & Hn & _). by rewrite lookup_nil in Hn.
Qed.

Lemma new_context_ok budget c s : agrees budget c s -> agrees budget (new_context c) (new_context_spec s).
Proof.
  intros [Ha Hb Ho]. split; [|done|done]. destruct Ha as [H1 H2 H3 H4 H5 H6]. split; cbn; try done; try (intros; by eapply fresh_cache_ok). unfold settled. by rewrite H6.
Qed.

Lemma start_transaction_ok budget c s : agrees budget c s -> agrees budget (start_transaction c) (start_transaction_spec s).
Proof.
  intros [Ha Hb Ho]. pose proof (aa_tables _ _ _ Ha) as Ht. split; [|done|done]. destruct Ha. split; cbn; try done; try (intros; by eapply fresh_cache_ok).
  intros T o Eo. rewrite bool_decide_false by set_solver. symmetry. apply Z.leb_gt. by apply (to_id _ _ Ht T o).
Qed.

Lemma with_billing_agrees budget c s b : agrees budget c s -> agrees budget (with_billing c b) (with_spec_billing s b).
Proof. intros [Ha Hb Ho]. split; [by apply with_billing_ok|done|done]. Qed.

(** Loops of steps that use up the budget *)
Lemma fold_agrees {X B} (f : @apply_context K -> X -> result (B * @apply_context K)) (f' : @contract_spec K -> X -> result (B * @contract_spec K)) (g : B -> list (@db_output K)) (cost : X -> Z) :
  (forall x, 0 <= cost x) -> (forall budget c s x, 0 <= budget -> agrees (budget + cost x) c s -> both (same_output budget) (f c x) (f' s x)) ->
  forall l budget c s outs, 0 <= budget -> agrees (budget + Zsum (cost <$> l)) c s ->
  both (same_output budget) (foldM (fun (r : list db_output * @apply_context K) x => r' ← f r.2 x; Ok (r.1 ++ g r'.1, r'.2)) (outs, c) l)
    (foldM (fun (r : list db_output * @contract_spec K) x => r' ← f' r.2 x; Ok (r.1 ++ g r'.1, r'.2)) (outs, s) l).
Proof.
  intros Hcost Hf. induction l as [|x l IH]; intros budget c s outs Hb Hag; cbn [foldM]; [cbn in Hag; by rewrite Z.add_0_r in Hag|].
  change (Zsum (cost <$> x :: l)) with (cost x + Zsum (cost <$> l)) in Hag. assert (Hl : 0 <= Zsum (cost <$> l)) by (apply Zsum_map_nonneg, Forall_forall; auto).
  assert (H : both (same_output (budget + Zsum (cost <$> l))) (f c x) (f' s x)).
  { apply Hf; [by apply Z.add_nonneg_nonneg|]. specialize (Hcost x). eapply agrees_less; [|exact Hag]. lia. }
  cbn [fst snd]. destruct (f c x) as [r|], (f' s x) as [r'|]; cbn in *; try done. destruct H as [-> H]. by apply IH.
Qed.

Lemma calls_nonneg a : 0 <= calls_of_action a.
Proof. apply Zsum_map_nonneg, Forall_forall. intros x _. unfold size_of. lia. Qed.

Lemma run_receiver_ok e calls budget c s : 0 <= budget -> agrees (budget + size_of calls) c s ->
  both (same_output budget) (run_receiver key_less e c calls) (run_receiver_spec e s calls).
Proof.
  intros Hb Hag. unfold run_receiver, run_receiver_spec. eapply both_bind.
  - apply (fold_agrees (call key_less e) (call_spec key_less e) (fun o => [o]) (fun _ => 1)); [lia| |exact Hb|].
    + intros b' c' s' o Hb' Hag'. by apply call_ok.
    + replace (Zsum ((fun _ => 1) <$> calls)) with (size_of calls); [done|]. unfold size_of. clear. induction calls as [|o l IH]; [done|]. cbn [fmap list_fmap Zsum foldr length] in *. lia.
  - intros [outs c'] [outs' s'] [E H]. cbn [fst snd] in *. subst outs'. pose proof H as [Ha _ _]. rewrite (aa_billing _ _ _ Ha).
    destruct (check_ram_deltas e (spec_billing s')) as [[]|]; cbn; [|done]. split; [done|]. by apply with_billing_agrees.
Qed.

Lemma run_action_ok a budget c s : 0 <= budget -> agrees (budget + calls_of_action a) c s -> both (same_output budget) (run_action key_less c a) (run_action_spec s a).
Proof.
  intros Hb Hag. apply (fold_agrees (fun c x => run_receiver key_less x.1 c x.2) (fun s x => run_receiver_spec x.1 s x.2) (fun o => o) (fun x => size_of x.2)); [unfold size_of; lia| |done|by apply new_context_ok].
  intros b' c' s' x. apply run_receiver_ok.
Qed.

Lemma all_calls_nonneg h : 0 <= all_calls h.
Proof.
  apply Zsum_map_nonneg, Forall_forall. intros [actions|] _; cbn; [|done]. apply Zsum_map_nonneg, Forall_forall. auto using calls_nonneg.
Qed.

Lemma run_event_ok x budget c s : 0 <= budget -> agrees (budget + calls_of x) c s ->
  (run_event c x).2 = (run_event_spec s x).2 /\ agrees budget (run_event c x).1 (run_event_spec s x).1.
Proof.
  intros Hb Hag. destruct x as [actions|limits]; cbn [run_event run_event_spec calls_of] in *.
  - assert (Hl : 0 <= Zsum (calls_of_action <$> actions)) by (apply Zsum_map_nonneg, Forall_forall; auto using calls_nonneg).
    assert (H : both (same_output budget) (run_actions (start_transaction c) actions) (run_actions_spec (start_transaction_spec s) actions)).
    { apply (fold_agrees (run_action key_less) run_action_spec (fun o => o) calls_of_action); [apply calls_nonneg|intros; by apply run_action_ok|done|by apply start_transaction_ok]. }
    destruct (run_actions _ actions) as [r|], (run_actions_spec _ actions) as [r'|]; try done; cbn in *.
    + destruct H as [-> H]. by split.
    + subst. split; [done|]. eapply agrees_less; [|done]. lia.
  - rewrite Z.add_0_r in Hag. split; [done|]. pose proof Hag as [Ha _ _]. rewrite (aa_billing _ _ _ Ha). by apply with_billing_agrees.
Qed.

Lemma run_events_ok h budget c s : 0 <= budget -> agrees (budget + all_calls h) c s ->
  (run_events c h).2 = (run_events_spec s h).2 /\ agrees budget (run_events c h).1 (run_events_spec s h).1.
Proof.
  revert c s. induction h as [|x h IH]; intros c s Hb Hag; cbn [run_events run_events_spec fst snd]; [unfold all_calls in Hag; cbn in Hag; by rewrite Z.add_0_r in Hag|].
  assert (Hn : forall x, 0 <= calls_of x) by (intros [actions|]; cbn; [apply Zsum_map_nonneg, Forall_forall; auto using calls_nonneg|done]).
  assert (Hl : 0 <= all_calls h) by (apply Zsum_map_nonneg, Forall_forall; auto).
  destruct (run_event_ok x (budget + all_calls h) c s) as [E H]; [lia| |].
  - change (all_calls (x :: h)) with (calls_of x + all_calls h) in Hag. eapply agrees_less; [|exact Hag]. specialize (Hn x). lia.
  - destruct (IH _ _ Hb H) as [E' H']. by rewrite E, E'.
Qed.

(** ** Rows, as they are found in the code *)

Definition find_row c (code scope table_name id : Z) : option (account_name * list Byte.byte) :=
  tab ← find_table c code scope table_name; r ← find_primary_key (key_values c) id (tid tab); Some (payer r, payload r).
Definition find_index_row c (k : index_kind) (code scope table_name id : Z) : option (account_name * K) :=
  tab ← find_table c code scope table_name; r ← find_primary_key (index_objects c k) id (tid tab); Some (payer r, payload r).

Lemma with_primary_entries {A} (sp : rows_spec A) k id : with_primary id (entries sp k) = (fun v => (id, v)) <$> rows_of sp k !! id.
Proof.
  unfold with_primary. destruct (least _ _) as [[id' v]|] eqn:E.
  - apply least_elem, list_elem_of_filter in E as [H E]. cbn in H. subst id'. apply elem_of_map_to_list in E. by rewrite E.
  - apply least_None in E. destruct (rows_of sp k !! id) as [v|] eqn:Ev; [|done].
    destruct (not_elem_of_nil ((id, v) : entry A)). refine (eq_ind _ (fun l : list (entry A) => ((id, v) : entry A) ∈ l) _ _ E). apply list_elem_of_filter. split; [done|]. by apply elem_of_map_to_list.
Qed.

Lemma found_row {A} kept tabs next (t : @table (row A)) ic sp T k id : rows_ok kept tabs next t ic sp -> key_of tabs T = Some k ->
  (r ← find_primary_key t id T; Some (payer r, payload r)) = rows_of sp k !! id.
Proof.
  intros Hr Ek. destruct (find_primary_ok _ _ _ _ _ _ Hr id T k Ek) as [Hv _]. rewrite with_primary_entries in Hv.
  destruct (find_primary_key t id T) as [r|], (rows_of sp k !! id) as [v|]; cbn in *; try done. by injection Hv as _ <-.
Qed.

Lemma agrees_find budget c s code scope name : agrees budget c s -> let k := (code, scope, name) in
  (forall id, find_row c code scope name id = rows_of (spec_rows s) k !! id) /\
  (forall i id, find_index_row c i code scope name id = rows_of (spec_indices s i) k !! id) /\ (is_Some (find_table c code scope name) <-> 0 < total s k).
Proof.
  intros [Ha _ Ho] k. unfold find_row, find_index_row. pose proof (find_table_ok _ c s code scope name Ha) as Hf. fold k in Hf. destruct (find_table c code scope name) as [o|].
  - destruct Hf as (Eo & Hk & Hs). assert (Ek : key_of (contents (table_ids c)) (tid o) = Some k) by (unfold key_of; by rewrite Eo, <- Hk). cbn [mbind option_bind]. split_and!.
    + intros id. by apply (found_row _ _ _ _ _ _ _ _ _ (aa_rows _ _ _ Ha)).
    + intros i id. by apply (found_row _ _ _ _ _ _ _ _ _ (aa_indices _ _ _ Ha i)).
    + split; [|by eexists]. intros _. apply Ho. by eexists.
  - destruct Hf as [Hno Hs]. assert (H0 : total s k = 0). { apply (absent_total _ _ _ _ Ha). apply bool_decide_eq_false. intros [p Hp]. discriminate (eq_trans (eq_sym Hs) Hp). }
    destruct (total_empty s k H0) as [E1 E2]. cbn. split_and!; [by rewrite E1|intros i; by rewrite E2|]. rewrite H0. split; [by intros [? ?]|lia].
Qed.

(** ** Where no freed table is read *)

(** A run that reads freed memory fails in the model; any other is one of the
    specification in which a table that has gone is empty. *)
Definition unless_freed {B} (r r' : result B) : Prop := r = Throw assert_failed \/ r = r'.

Lemma unless_freed_bind {B C} (r r' : result B) (f f' : B -> result C) :
  unless_freed r r' -> (forall x, unless_freed (f x) (f' x)) -> unless_freed (x ← r; f x) (x ← r'; f' x).
Proof. intros [->| ->] Hf; [by left|]. destruct r' as [x|]; [apply Hf|by right]. Qed.

Lemma unless_freed_fold {X B} (f f' : B -> X -> result B) l r :
  (forall r x, unless_freed (f r x) (f' r x)) -> unless_freed (foldM f r l) (foldM f' r l).
Proof. intros Hf. revert r. induction l as [|x l IH]; intros r; cbn [foldM]; [by right|]. by apply unless_freed_bind. Qed.

Lemma previous_freed {A} lt (sp : rows_spec A) iterator :
  unless_freed (previous_spec lt sp iterator) (previous_spec (H := freed_is_empty) lt sp iterator).
Proof.
  unfold previous_spec. apply unless_freed_bind; [|by right]. destruct (iterator <? -1); [|by right].
  destruct (_ !! _) as [[k|[]]|]; (by left) || by right.
Qed.

Lemma call_freed e s o : unless_freed (call_spec key_less e s o) (call_spec (H := freed_is_empty) key_less e s o).
Proof. destruct o; cbn [call_spec]; try (by right); (apply unless_freed_bind; [apply previous_freed|by right]). Qed.

Lemma receiver_freed e s calls : unless_freed (run_receiver_spec e s calls) (run_receiver_spec (H := freed_is_empty) e s calls).
Proof.
  apply unless_freed_bind; [|by right]. apply unless_freed_fold. intros r o. apply unless_freed_bind; [apply call_freed|by right].
Qed.

Lemma actions_freed s actions : unless_freed (run_actions_spec s actions) (run_actions_spec (H := freed_is_empty) s actions).
Proof.
  apply unless_freed_fold. intros r a. apply unless_freed_bind; [|by right].
  apply unless_freed_fold. intros r' x. apply unless_freed_bind; [apply receiver_freed|by right].
Qed.

Lemma run_events_freed h s : Forall (fun r => r <> Throw assert_failed) (run_events_spec s h).2 ->
  run_events_spec s h = run_events_spec (H := freed_is_empty) s h.
Proof.
  revert s. induction h as [|x h IH]; intros s; cbn [run_events_spec fst snd]; [done|]. intros [Hx Hh]%Forall_cons.
  assert (E : run_event_spec s x = run_event_spec (H := freed_is_empty) s x); [|by rewrite <- E, <- IH].
  destruct x as [actions|]; [|done]. cbn [run_event_spec] in *.
  destruct (actions_freed (start_transaction_spec s) actions) as [E| ->]; [|done]. by rewrite E in Hx.
Qed.

(** C19: contracts see tables as maps: whatever transactions contracts run, in
    fewer than 2^32 calls, as long as none reads a table that the database has
    disposed of, which in the model is to end with [assert_failed], every call
    returns, writes out and throws what it does for a
    family of maps of primary keys to rows, one for each code, scope and table
    name, whose iterators are places in one of the maps; the rows that are found
    are those of the maps, and a table is there exactly as long as it has a row in
    one of its indices.  Each index has a strict weak order of its keys.  (The code
    does read such a table, with undefined results,
    when a contract asks for what is before the end of a table that the same
    transaction has created and emptied; for the maps the answer is that there is nothing.) *)
Theorem contract_tables_are_maps b h : all_calls h < 2 ^ 32 ->
  Forall (fun r => r <> Throw assert_failed) (run_events (empty_context b) h).2 ->
  let c := (run_events (empty_context b) h).1 in
  let r := run_events_spec (H := freed_is_empty) (empty_spec b) h in let s := r.1 in
  (run_events (empty_context b) h).2 = r.2 /\
  forall code scope name, let k := (code, scope, name) in
    (forall id, find_row c code scope name id = rows_of (spec_rows s) k !! id) /\
    (forall i id, find_index_row c i code scope name id = rows_of (spec_indices s i) k !! id) /\
    (is_Some (find_table c code scope name) <-> 0 < total s k).
Proof.
  intros Hb Hf. destruct (run_events_ok h 0 (empty_context b) (empty_spec b)) as [E H]; [done|apply empty_agrees; pose proof (all_calls_nonneg h); lia|].
  rewrite E in Hf. cbv zeta. rewrite <- (run_events_freed _ _ Hf). split; [done|].
  intros code scope name. by apply (agrees_find 0).
Qed.

(** ** Only its own tables *)

Definition same_table (k : table_key) s s' : Prop :=
  rows_of (spec_rows s') k = rows_of (spec_rows s) k /\ forall i, rows_of (spec_indices s' i) k = rows_of (spec_indices s i) k.

#[local] Instance same_table_preorder k : PreOrder (same_table k).
Proof. split; [done|]. intros s1 s2 s3 [E1 E2] [E3 E4]. split; [congruence|]. intros i. by rewrite E4. Qed.

Lemma same_rows_table k s s' : same_rows s s' -> same_table k s s'.
Proof. intros [E1 E2]. split; [by rewrite E1|intros i; by rewrite E2]. Qed.

Lemma bill_same k e s payer d s' : bill_spec e s payer d = Ok s' -> same_table k s s'.
Proof. unfold bill_spec. intros H. by inv_result. Qed.

Lemma open_same k e s k' payer s' : open_table e s k' payer = Ok s' -> same_table k s s'.
Proof. unfold open_table. destruct (has_table s k'); [by intros [= <-]|]. intros H. inv_result. by apply (bill_same k) in E. Qed.

Lemma close_same k e s k' s' : close_table e s k' = Ok s' -> same_table k s s'.
Proof. unfold close_table. destruct (total s k' =? 0); [|by intros [= <-]]. intros H. inv_result. by apply (bill_same k) in E. Qed.

Lemma with_rows_same k s (sp : rows_spec (list Byte.byte)) : rows_of sp k = rows_of (spec_rows s) k -> same_table k s (with_spec_rows s sp).
Proof. by intros. Qed.

Lemma with_index_same k s i (sp : rows_spec K) : rows_of sp k = rows_of (spec_indices s i) k -> same_table k s (with_spec_index s i sp).
Proof. intros H. split; [done|]. intros j. cbn. case_decide; [by subst|done]. Qed.

Lemma other_rows {A} (sp : rows_spec A) k k' m : k <> k' -> rows_of (with_rows sp k' m) k = rows_of sp k.
Proof. intros H. cbn. by rewrite decide_False. Qed.

Lemma own_entry_receiver {A} e (sp : rows_spec A) iterator x : own_entry e sp iterator = Ok x -> is_read_only e = false /\ x.1.1.1 = receiver e.
Proof. unfold own_entry. intros H. inv_result. apply negb_true_iff in E. by apply Z.eqb_eq in E1. Qed.

Lemma store_same {A} k e s scope name (sl : @slot K A) payer id v amount (r : Z * @contract_spec K) :
  (forall s sp, rows_of sp k = rows_of (sl_spec sl s) k -> same_table k s (sl_put_spec sl s sp)) -> k.1.1 <> receiver e ->
  (s ← open_table e s (receiver e, scope, name) payer; store_tail_spec sl e s (receiver e, scope, name) payer id v amount) = Ok r -> same_table k s r.2.
Proof.
  intros Hput Hk H. unfold store_tail_spec in H. inv_result. cbn [snd]. apply (open_same k) in E. apply (bill_same k) in E1. assert (Hne : k <> (receiver e, scope, name)) by (by intros ->).
  etrans; [exact E|]. etrans; [apply Hput, other_rows, Hne|]. etrans; [exact E1|]. apply Hput. by rewrite cursor_rows.
Qed.

Lemma bills_same k e s (b : bool) p d p' d' s' : (if b then s ← bill_spec e s p d; bill_spec e s p' d' else Ok s) = Ok s' -> same_table k s s'.
Proof. destruct b; [|by intros [= <-]]. intros H. inv_result. etrans; by eapply bill_same. Qed.

(** A contract can change the tables of its account. *)
Definition may_change (e : action_env) (code : Z) : bool := negb (is_read_only e) && (receiver e =? code).

Lemma may_not_change e code x : may_change e code = false -> is_read_only e = false /\ x = receiver e -> code <> x.
Proof. unfold may_change. intros H [Hr ->] ->. by rewrite Hr, Z.eqb_refl in H. Qed.

Lemma call_same k e s o r : call_spec key_less e s o = Ok r -> may_change e k.1.1 = false -> same_table k s r.2.
Proof.
  intros H Hk. destruct o; cbn [call_spec] in H.
  - unfold db_store_spec in H. destruct (is_read_only e) eqn:Hro; [done|]. cbn [negb] in H. pose proof (may_not_change _ _ _ Hk (conj Hro eq_refl)) as Hne.
    destruct (payer =? 0); [by inv_result|]. apply bind_Ok in H as (x & H & [= <-]). apply (store_same k e s scope table_name row_slot) in H; [done|apply with_rows_same|done].
  - unfold db_update_spec in H. apply bind_Ok in H as (s' & H & [= <-]). apply bind_Ok in H as (x & Hx & H). destruct (own_entry_receiver _ _ _ _ Hx) as [Hro Hrec].
    pose proof (may_not_change _ _ _ Hk (conj Hro Hrec)) as Hne. inv_result. cbn [snd]. etrans; [|apply with_rows_same, other_rows; intros ->; done].
    destruct (negb _) in E; [by apply (bills_same k e s true) in E|]. destruct (negb _) in E; [by eapply bill_same|by injection E as <-].
  - unfold db_remove_spec in H. apply bind_Ok in H as (s' & H & [= <-]). apply bind_Ok in H as (x & Hx & H). destruct (own_entry_receiver _ _ _ _ Hx) as [Hro Hrec].
    pose proof (may_not_change _ _ _ Hk (conj Hro Hrec)) as Hne. inv_result. cbn [snd]. etrans; [by eapply bill_same|]. etrans; [|by eapply close_same].
    apply with_rows_same, other_rows. intros ->. done.
  - by inv_result.
  - inv_result. apply with_rows_same. by rewrite (next_spec_rows _ _ _ _ E).
  - inv_result. apply with_rows_same. by rewrite (previous_spec_rows _ _ _ _ E).
  - inv_result. apply with_rows_same. by rewrite seek_spec_rows.
  - inv_result. apply with_rows_same. by rewrite seek_spec_rows.
  - inv_result. apply with_rows_same. by rewrite seek_spec_rows.
  - inv_result. apply with_rows_same. unfold end_spec. destruct (has_table _ _); [by rewrite end_cursor_rows|done].
  - unfold store_spec in H. destruct (is_read_only e) eqn:Hro; [done|]. cbn [negb] in H. pose proof (may_not_change _ _ _ Hk (conj Hro eq_refl)) as Hne.
    destruct (payer =? 0); [done|]. apply bind_Ok in H as (x & H & [= <-]). apply (store_same k e s scope table_name (index_slot key_less k0)) in H; [done|intros s' sp; apply with_index_same|done].
  - unfold update_spec in H. apply bind_Ok in H as (s' & H & [= <-]). apply bind_Ok in H as (x & Hx & H). destruct (own_entry_receiver _ _ _ _ Hx) as [Hro Hrec].
    pose proof (may_not_change _ _ _ Hk (conj Hro Hrec)) as Hne. inv_result. cbn [snd]. etrans; [by eapply bills_same|]. apply with_index_same, other_rows. by intros ->.
  - unfold remove_spec in H. apply bind_Ok in H as (s' & H & [= <-]). apply bind_Ok in H as (x & Hx & H). destruct (own_entry_receiver _ _ _ _ Hx) as [Hro Hrec].
    pose proof (may_not_change _ _ _ Hk (conj Hro Hrec)) as Hne. inv_result. cbn [snd]. etrans; [by eapply bill_same|]. etrans; [|by eapply close_same].
    apply with_index_same, other_rows. by intros ->.
  - inv_result. apply with_index_same. by rewrite seek_spec_rows.
  - inv_result. apply with_index_same. by rewrite seek_spec_rows.
  - inv_result. apply with_index_same. by rewrite seek_spec_rows.
  - inv_result. apply with_index_same. by rewrite seek_spec_rows.
  - inv_result. apply with_index_same. unfold end_spec. destruct (has_table _ _); [by rewrite end_cursor_rows|done].
  - inv_result. apply with_index_same. by rewrite (next_spec_rows _ _ _ _ E).
  - inv_result. apply with_index_same. by rewrite (previous_spec_rows _ _ _ _ E).
Qed.

Lemma fold_same {X B} k (f : @contract_spec K -> X -> result (B * @contract_spec K)) (g : B -> list (@db_output K)) l :
  (forall s x r, x ∈ l -> f s x = Ok r -> same_table k s r.2) -> forall s outs r,
  foldM (fun (r : list db_output * @contract_spec K) x => r' ← f r.2 x; Ok (r.1 ++ g r'.1, r'.2)) (outs, s) l = Ok r -> same_table k s r.2.
Proof.
  induction l as [|x l IH]; intros Hf s outs r; cbn [foldM]; [by intros [= <-]|]. intros H. inv_result. apply Hf in E0; [|by left].
  etrans; [exact E0|]. eapply IH; [|exact H]. intros s' x' r' Hin. apply Hf. by right.
Qed.

Lemma receiver_same k e s calls r : may_change e k.1.1 = false -> run_receiver_spec e s calls = Ok r -> same_table k s r.2.
Proof.
  intros Hk H. unfold run_receiver_spec in H. inv_result. cbn [snd]. eapply (fold_same k (call_spec key_less e) (fun o => [o])) in E; [exact E|]. intros s' o r' _ Ho. by eapply call_same.
Qed.

Lemma actions_same k s actions r : (forall a x, a ∈ actions -> x ∈ a -> may_change x.1 k.1.1 = false) -> run_actions_spec s actions = Ok r -> same_table k s r.2.
Proof.
  intros Hk. apply (fold_same k run_action_spec (fun o => o)). intros s' a r' Ha H. transitivity (new_context_spec s'); [done|].
  refine (fold_same k (fun s x => run_receiver_spec x.1 s x.2) (fun o => o) a _ _ _ _ H). intros s1 x r1 Hx. apply receiver_same. by apply (Hk a).
Qed.

(** The contracts of an event, with their actions *)
Definition event_envs (x : contract_event) : list action_env := match x with Transact actions => actions ≫= fmap fst | SetResourceLimits _ => [] end.

(** C20: a contract changes its own tables only: whatever happened before, a
    transaction leaves every row of every table of an account, in all indices, as it
    was, unless the contract of that account itself takes part in the transaction and
    the transaction is not read-only. *)
Theorem contracts_change_own_tables b h x code : all_calls (h ++ [x]) < 2 ^ 32 ->
  Forall (fun e => may_change e code = false) (event_envs x) ->
  let c := (run_events (empty_context b) h).1 in let c' := (run_event c x).1 in
  forall scope name id, find_row c' code scope name id = find_row c code scope name id /\
    forall i, find_index_row c' i code scope name id = find_index_row c i code scope name id.
Proof.
  intros Hb Hx c c' scope name id. unfold all_calls in Hb. rewrite fmap_app, Zsum_app in Hb. cbn in Hb. rewrite Z.add_0_r in Hb. fold (all_calls h) in Hb.
  assert (Hpos : 0 <= calls_of x) by (pose proof (all_calls_nonneg [x]) as H; unfold all_calls in H; cbn in H; lia).
  destruct (run_events_ok h (calls_of x) (empty_context b) (empty_spec b)) as [_ H]; [done|apply empty_agrees; pose proof (all_calls_nonneg h); lia|]. fold c in H.
  destruct (run_event_ok x 0 _ _ ltac:(done) H) as [_ H']. fold c' in H'. set (s := (run_events_spec _ h).1) in *.
  destruct (agrees_find _ _ _ code scope name H) as (E1 & E2 & _), (agrees_find _ _ _ code scope name H') as (E3 & E4 & _).
  assert (Hs : same_table (code, scope, name) s (run_event_spec s x).1).
  { destruct x as [actions|limits]; cbn [run_event_spec event_envs] in *; [|done]. destruct (run_actions_spec (start_transaction_spec s) actions) as [r|] eqn:E; [|done]. cbn [fst]. transitivity (start_transaction_spec s); [done|]. eapply actions_same; [|exact E].
    intros a y Ha Hy. cbn. rewrite Forall_forall in Hx. apply Hx. apply list_elem_of_bind. exists a. split; [by apply list_elem_of_fmap_2|done]. }
  destruct Hs as [E5 E6]. rewrite E1, E3. split; [by rewrite E5|]. intros i. by rewrite E2, E4, E6.
Qed.
End Histories.

(** ** Examples *)

Module TokenExample.
(** Keys of all indices are integers. *)
Definition key_less (_ : index_kind) : Z -> Z -> bool := Z.ltb.

Lemma key_less_weak k : strict_weak (key_less k).
Proof. apply Z_ltb_weak. Qed.

(** A contract and two users *)
Definition token : account_name := 10.
Definition alice : account_name := 20.
Definition bob : account_name := 30.
Definition limits : resource_limits_manager :=
  with_usage (with_usage (with_usage initialize_database token resource_usage_object_default) alice resource_usage_object_default) bob resource_usage_object_default.
Definition start : ram_billing := RamBilling limits ∅ ∅.

Definition for_alice : action_env := ActionEnv token token [alice] false false true false.
Definition other_contract : action_env := ActionEnv bob token [alice] false false true false.

(** Rows and a secondary index; a contract that is notified reads them; a row changes
    its payer and another is removed; a transaction of another contract fails when it
    touches them. *)
Definition history : list (@contract_event Z) :=
  [Transact [[(for_alice, [DbStore 5 7 alice 100 [Byte.x01; Byte.x02]; DbStore 5 7 alice 50 []; DbFind token 5 7 50; DbNext 1; DbNext 0; DbPrevious (-2);
                           IdxStore idx64 5 7 token 100 33; IdxStore idx64 5 7 token 50 33; IdxLowerbound idx64 token 5 7 30; IdxNext idx64 1; DbGet 0 1]);
              (other_contract, [DbFind token 5 7 60; DbLowerbound token 5 7 60; DbNext 0; IdxFindPrimary idx64 token 5 7 50])]];
   Transact [[(for_alice, [DbUpperbound token 5 7 50; DbUpdate 0 token [Byte.x03]; DbFind token 5 7 50; DbRemove 1; DbPrevious 0; IdxFindSecondary idx64 token 5 7 33; IdxUpdate idx64 0 0 44])]];
   Transact [[(ActionEnv bob bob [bob] false false true false, [DbStore 5 7 bob 1 []; DbFind token 5 7 100; DbUpdate 1 0 []])]]].

Definition finish : @apply_context Z := (run_events key_less (empty_context start) history).1.

(** Another contract that stores in a table of its own with the same scope and name *)
Definition elsewhere : @contract_event Z := Transact [[(ActionEnv bob bob [bob] false false true false, [DbStore 5 7 bob 100 [Byte.x09]; DbFind token 5 7 100; DbNext 1])]].
Definition before : @apply_context Z := (run_events key_less (empty_context start) (take 1 history)).1.

(** Actions that remove the last row of a table and then ask for what is before the
    end iterator that they still have *)
Definition stored_alone : @contract_action Z := [(for_alice, [DbStore 5 7 token 1 []])].
Definition stale_end : @contract_action Z := [(for_alice, [DbFind token 5 7 1; DbEnd token 5 7; DbRemove 0; DbPrevious (-2)])].
End TokenExample.

(** The code follows a pointer to a table that has been removed.  When the table is older
    than the transaction it is still there, and has no rows; when it is not, the
    database has disposed of it. *)
Example removed_table_is_kept : (run_events TokenExample.key_less (empty_context TokenExample.start) [Transact [TokenExample.stored_alone]; Transact [TokenExample.stale_end]]).2 =
  [Ok [returns 0]; Ok [returns 0; returns (-2); returns 0; returns (-1)]].
Proof. vm_compute. reflexivity. Qed.
Example removed_table_dangles :
  (run_events TokenExample.key_less (empty_context TokenExample.start) [Transact [TokenExample.stored_alone; TokenExample.stale_end]]).2 = [Throw assert_failed].
Proof. vm_compute. reflexivity. Qed.

Theorem contract_tables_are_maps_witness :
  all_calls TokenExample.history < 2 ^ 32 /\ find_row TokenExample.finish TokenExample.token 5 7 100 = Some (TokenExample.token, [Byte.x03]) /\
  find_index_row TokenExample.finish idx64 TokenExample.token 5 7 50 = Some (TokenExample.token, 44) /\
  let r := run_events_spec (H := freed_is_empty) TokenExample.key_less (empty_spec TokenExample.start) TokenExample.history in let s := r.1 in
  (run_events TokenExample.key_less (empty_context TokenExample.start) TokenExample.history).2 = r.2 /\
  forall code scope name, let k := (code, scope, name) in
    (forall id, find_row TokenExample.finish code scope name id = rows_of (spec_rows s) k !! id) /\
    (forall i id, find_index_row TokenExample.finish i code scope name id = rows_of (spec_indices s i) k !! id) /\
    (is_Some (find_table TokenExample.finish code scope name) <-> 0 < total s k).
Proof.
  split; [vm_compute; reflexivity|]. split; [vm_compute; reflexivity|]. split; [vm_compute; reflexivity|].
  apply (contract_tables_are_maps TokenExample.key_less TokenExample.key_less_weak TokenExample.start TokenExample.history); vm_compute; [reflexivity|].
  repeat (constructor; [discriminate|]). constructor.
Defined.

Theorem contracts_change_own_tables_witness :
  find_row TokenExample.before TokenExample.token 5 7 100 = Some (TokenExample.alice, [Byte.x01; Byte.x02]) /\
  find_row (run_event TokenExample.key_less TokenExample.before TokenExample.elsewhere).1 TokenExample.bob 5 7 100 = Some (TokenExample.bob, [Byte.x09]) /\
  forall scope name id, find_row (run_event TokenExample.key_less TokenExample.before TokenExample.elsewhere).1 TokenExample.token scope name id = find_row TokenExample.before TokenExample.token scope name id /\
    forall i, find_index_row (run_event TokenExample.key_less TokenExample.before TokenExample.elsewhere).1 i TokenExample.token scope name id = find_index_row TokenExample.before i TokenExample.token scope name id.
Proof.
  split; [vm_compute; reflexivity|]. split; [vm_compute; reflexivity|].
  apply (contracts_change_own_tables TokenExample.key_less TokenExample.key_less_weak TokenExample.start (take 1 TokenExample.history) TokenExample.elsewhere TokenExample.token).
  - vm_compute. reflexivity.
  - constructor; [vm_compute; reflexivity|constructor].
Defined.
