(* ===== verification/ContractRam.v ===== *)
(** * RAM of the tables of contracts

    No code of its own: what accounts are billed for is what the rows and tables
    that they pay for take, and who is billed for more has agreed to it. *)

From S2P Require Import Prelude UndoIndex UndoOrder UndoRepr UndoTable ResourceLimits ContractTables ContractRows ContractSpec ContractRefinement Contracts.
Open Scope Z_scope.

(** ** What is billed, and what it is for *)

Section Ram.
Context {K : Type} (key_less : index_kind -> K -> K -> bool).
Context (e : action_env).
Implicit Types (c : @apply_context K) (a : account_name).

Definition row_ram (r : row (list Byte.byte)) : Z := size_of (payload r) + key_value_billable_size.
Definition index_ram (k : index_kind) (_ : row K) : Z := index_billable_size k.

(** The RAM of the rows and the tables that an account pays for *)
Definition rows_ram {A} (ram : row A -> Z) a (m : gmap Z (row A)) : Z := map_sum (fun _ r => if payer r =? a then ram r else 0) m.
Definition tables_ram a (m : gmap Z table_id_object) : Z := map_sum (fun _ o => if table_payer o =? a then table_id_billable_size else 0) m.
Definition paid_for c a : Z :=
  tables_ram a (contents (table_ids c)) + rows_ram row_ram a (contents (key_values c)) +
  Zsum ((fun k => rows_ram (index_ram k) a (contents (index_objects c k))) <$> index_kinds).

(** The RAM that an account is billed for, and the change of it in an action *)
Definition ram_of (limits : resource_limits_manager) a : Z := match usages limits !! a with Some u => ram_usage u | None => 0 end.
Definition ram_used c a : Z := ram_of (resource_limits (billing c)) a.
Definition ram_delta c a : Z := default 0 (_account_ram_deltas (billing c) !! a).

Definition limits_fit (limits : resource_limits_manager) : Prop := forall a, 0 <= ram_of limits a < 2 ^ 64.

(** What is taken for granted of the objects *)
Definition ids_fit {V} (object_id : V -> Z) (P : V -> Prop) (t : @table V) : Prop := forall p v, contents t !! p = Some v -> object_id v = p /\ p < table_next t /\ P v.
Record fits_in c : Prop := {
  fi_tables : ids_fit tid (fun _ => True) (table_ids c);
  fi_rows : ids_fit row_id (fun r => size_of (payload r) < 2 ^ 32) (key_values c);
  fi_indices : forall k, ids_fit row_id (fun _ => True) (index_objects c k);
  fi_limits : limits_fit (resource_limits (billing c))
}.

(** Without the feature [ram_restrictions], whoever is billed for more has authorized
    the action, and knows of it or the node lets contracts that are notified bill. *)
Definition may_bill a : Prop := has_authorization e a = true /\ is_ram_billing_in_notify_allowed e || (receiver e =? act_account e) = true.
Definition consents (limits limits' : resource_limits_manager) : Prop :=
  privileged e = false -> ram_restrictions_activated e = false -> forall a, a <> receiver e -> ram_of limits a < ram_of limits' a -> may_bill a.

(** From [c] to [c'] as much more is billed as [d] says than is paid for. *)
Definition gains (d : account_name -> Z) c c' : Prop := fits_in c -> fits_in c' /\
  (forall a, ram_used c' a - paid_for c' a = ram_used c a - paid_for c a + d a /\ ram_delta c' a - ram_delta c a = ram_used c' a - ram_used c a) /\
  consents (resource_limits (billing c)) (resource_limits (billing c')).
Definition only (p : account_name) (x : Z) : account_name -> Z := fun a => if p =? a then x else 0.
Definition balanced c c' : Prop := gains (fun _ => 0) c c'.

Lemma gains_trans d d' c c' c'' : gains d c c' -> gains d' c' c'' -> gains (fun a => d a + d' a) c c''.
Proof.
  intros H1 H2 H. destruct (H1 H) as (H' & E1 & C1). destruct (H2 H') as (H'' & E2 & C2). split_and!; [done| |].
  - intros a. specialize (E1 a). specialize (E2 a). lia.
  - intros Hp Hr a Ha Hlt. destruct (Z.lt_ge_cases (ram_of (resource_limits (billing c)) a) (ram_of (resource_limits (billing c')) a)) as [|Hge]; [by apply C1|]. apply C2; [done..|lia].
Qed.

Lemma gains_ext d d' c c' : (forall a, d a = d' a) -> gains d c c' -> gains d' c c'.
Proof. intros E H1 H. destruct (H1 H) as (H' & E1 & C1). split_and!; [done| |done]. intros a. rewrite <- E. apply E1. Qed.

Lemma balanced_refl c : balanced c c.
Proof. intros H. split_and!; [done|intros a; lia|intros _ _ a _; lia]. Qed.

Lemma balanced_trans c c' c'' : balanced c c' -> balanced c' c'' -> balanced c c''.
Proof. intros H1 H2. eapply gains_ext; [|by eapply gains_trans]. done. Qed.

(** ** Billing *)

Lemma add_pending_ram limits p d limits' : limits_fit limits -> - 2 ^ 64 < d -> add_pending_ram_usage limits p d = Ok limits' ->
  limits_fit limits' /\ forall a, ram_of limits' a = ram_of limits a + only p d a.
Proof.
  intros Hfit Hd H. unfold add_pending_ram_usage in H. unfold only. destruct (Z.eqb_spec d 0) as [->|Hne].
  - injection H as <-. split; [done|]. intros a. destruct (p =? a); lia.
  - inv_result. unfold get_row in E. destruct (usages limits !! p) as [u|] eqn:Eu; [|done]. injection E as ->. pose proof (Hfit p) as Hp. unfold ram_of in Hp. rewrite Eu in Hp.
    assert (Hsum : 0 <= ram_usage x + d < 2 ^ 64).
    { unfold uint64_max in E0. apply orb_true_iff in E0, E1. rewrite !Z.leb_le in E0, E1. destruct E1 as [E1|E1]; [lia|].
      destruct (Z.le_gt_cases 0 d); [lia|]. rewrite wrap64_id in E1 by (unfold u64; lia). lia. }
    assert (Hram : forall a, ram_of (with_usage limits p (ResourceUsageObject (net_usage x) (cpu_usage x) (wrap64 (ram_usage x + d)))) a = ram_of limits a + (if p =? a then d else 0)).
    { intros a. unfold ram_of. cbn. destruct (Z.eqb_spec p a) as [<-|Hpa].
      - rewrite lookup_insert_eq, Eu. cbn. by apply wrap64_id.
      - rewrite lookup_insert_ne by done. lia. }
    split; [|exact Hram]. intros a. rewrite Hram. specialize (Hfit a). destruct (Z.eqb_spec p a) as [<-|]; [|lia]. unfold ram_of in *. rewrite Eu in *. lia.
Qed.

Lemma bill_gains c p d c' : - 2 ^ 64 < d -> bill e c p d = Ok c' -> gains (only p d) c c'.
Proof.
  intros Hd H. unfold bill in H. apply bind_Ok in H as (b & Hb & [= <-]). unfold update_db_usage in Hb. apply bind_Ok in Hb as ([] & Hc & Hb).
  unfold add_ram_usage, transaction_add_ram_usage in Hb. apply bind_Ok in Hb as (b1 & Hb1 & [= <-]). apply bind_Ok in Hb1 as (limits & Hl & [= <-]).
  intros [H1 H2 H3 H4]. destruct (add_pending_ram _ p d limits H4 Hd Hl) as [Hfit Hram]. split_and!; [by split| |].
  - intros a. unfold ram_used, ram_delta, paid_for. cbn. rewrite Hram. unfold only. split; [lia|]. destruct (Z.eqb_spec p a) as [->|Hne]; [rewrite lookup_insert_eq; cbn; lia|].
    rewrite lookup_insert_ne by done. lia.
  - intros Hp Hr a Ha. cbn. rewrite Hram. unfold only. destruct (Z.eqb_spec p a) as [->|]; [|lia]. intros Hlt. apply Z.eqb_neq in Ha. rewrite Hp, Hr, Ha in Hc.
    destruct (Z.ltb_spec 0 d); [|lia]. cbn in Hc. unfold require_authorization in Hc. unfold may_bill. destruct (_ || _); [|done]. by destruct (has_authorization e a).
Qed.

(** ** Tables *)

Lemma sum_insert {V} (f : V -> Z) (m : gmap Z V) p v : map_sum (fun _ v => f v) (<[p := v]> m) = map_sum (fun _ v => f v) m + f v - match m !! p with Some w => f w | None => 0 end.
Proof. destruct (m !! p) as [w|] eqn:E; [rewrite map_sum_insert, (map_sum_delete _ m p w E); lia|rewrite map_sum_insert_new by done; lia]. Qed.

Lemma sum_delete {V} (f : V -> Z) (m : gmap Z V) p v : m !! p = Some v -> map_sum (fun _ v => f v) (delete p m) = map_sum (fun _ v => f v) m - f v.
Proof. intros E. rewrite (map_sum_delete _ m p v E). lia. Qed.

Lemma ids_fresh {V} (object_id : V -> Z) P (t : @table V) : ids_fit object_id P t -> contents t !! table_next t = None.
Proof. intros H. destruct (contents t !! table_next t) as [v|] eqn:E; [|done]. apply H in E. lia. Qed.

Lemma db_create_Ok {V} (orders : list (@order V)) t f x : db_create orders t f = Ok x ->
  x.1 = table_next t /\ contents x.2 = <[table_next t := f (table_next t)]> (contents t) /\ table_next x.2 = table_next t + 1.
Proof. unfold db_create, table_op. intros H. inv_result. cbn in *. destruct (fits _ _ _ _); [done|discriminate]. Qed.

Lemma db_modify_Ok {V} (orders : list (@order V)) t p f t' : db_modify orders t p f = Ok t' ->
  exists v, contents t !! p = Some v /\ contents t' = <[p := f v]> (contents t) /\ table_next t' = table_next t.
Proof.
  unfold db_modify, table_op. intros H. destruct (contents t !! p) as [v|]; [|inv_result; discriminate]. exists v. cbn in H. destruct (fits _ _ _ _); cbn in H; [by injection H as <-|discriminate].
Qed.

Lemma db_remove_Ok {V} (orders : list (@order V)) t p t' : db_remove orders t p = Ok t' ->
  exists v, contents t !! p = Some v /\ contents t' = delete p (contents t) /\ table_next t' = table_next t.
Proof. unfold db_remove, table_op. intros H. destruct (contents t !! p) as [v|]; [|inv_result; discriminate]. exists v. cbn in H. by injection H as <-. Qed.

Lemma tables_gain c t d : (fits_in c -> ids_fit tid (fun _ => True) t /\ forall a, tables_ram a (contents t) = tables_ram a (contents (table_ids c)) - d a) -> gains d c (with_table_ids c t).
Proof.
  intros Hd H. destruct (Hd H) as [Ht Hsum]. destruct H as [H1 H2 H3 H4]. split_and!; [by split| |intros _ _ a _; cbn; lia]. intros a. unfold ram_used, ram_delta, paid_for. cbn. rewrite Hsum. lia.
Qed.

Lemma find_or_create_gains c code scope name payer x : find_or_create_table e c code scope name payer = Ok x -> balanced c x.2.
Proof.
  unfold find_or_create_table. destruct (find_table c code scope name) as [o|]; [intros [= <-]; apply balanced_refl|]. intros H. inv_result. cbn [snd].
  apply db_create_Ok in E0 as (_ & Ec & En). eapply gains_ext; [|eapply gains_trans; [eapply bill_gains; [|exact E]; done|apply (tables_gain x0 x1.2 (only payer (- table_id_billable_size)))]].
  - intros a. unfold only. destruct (payer =? a); lia.
  - intros Hf. pose proof (fi_tables _ Hf) as Ht. split.
    + intros T o. rewrite Ec, En. intros [[<- <-]|[_ Eo]]%lookup_insert_Some; cbn; [split_and!; [done|lia|done]|]. destruct (Ht T o Eo) as (? & ? & _). split_and!; [done|lia|done].
    + intros a. unfold tables_ram. rewrite Ec, (sum_insert (fun o => if table_payer o =? a then table_id_billable_size else 0)), (ids_fresh _ _ _ Ht). unfold only. cbn. destruct (payer =? a); lia.
Qed.

Lemma add_to_count_gains c T n c' : add_to_count c T n = Ok c' -> balanced c c'.
Proof.
  unfold add_to_count. intros H. inv_result. apply db_modify_Ok in E as (o & Eo & Ec & En). apply (tables_gain c x). intros Hf. pose proof (fi_tables _ Hf) as Ht. split.
  - intros T' o'. rewrite Ec, En. intros [[<- <-]|[_ E]]%lookup_insert_Some; [by apply (Ht _ _ Eo)|by apply Ht].
  - intros a. unfold tables_ram. rewrite Ec, (sum_insert (fun o => if table_payer o =? a then table_id_billable_size else 0)), Eo. cbn. lia.
Qed.

Lemma bill_tables c p d c' : bill e c p d = Ok c' -> table_ids c' = table_ids c.
Proof. unfold bill. intros H. by inv_result. Qed.

Lemma remove_table_if_empty_gains c T c' : remove_table_if_empty e c T = Ok c' -> balanced c c'.
Proof.
  unfold remove_table_if_empty, remove_table. intros H. apply bind_Ok in H as (o & E & H). unfold deref in E. apply at_or_assert_Ok in E.
  destruct (count o =? 0); [|injection H as <-; apply balanced_refl]. apply bind_Ok in H as (c1 & Hb & H). apply bind_Ok in H as (t & Ht & [= <-]).
  intros Hf. pose proof (fi_tables _ Hf _ _ E) as (Hid & _). rewrite (bill_tables _ _ _ _ Hb) in Ht. apply db_remove_Ok in Ht as (o' & Eo & Ec & En). assert (o' = o) as -> by congruence. revert Hf.
  eapply (gains_ext (fun a => only (table_payer o) (- table_id_billable_size) a + only (table_payer o) table_id_billable_size a)); [intros a; unfold only; destruct (_ =? a); lia|].
  eapply gains_trans; [eapply bill_gains; [|exact Hb]; done|]. apply tables_gain. intros Hf. pose proof (fi_tables _ Hf) as Ht. rewrite (bill_tables _ _ _ _ Hb) in *. split.
  - intros T' o'. rewrite Ec, En. intros [_ E']%lookup_delete_Some. by apply Ht.
  - intros a. unfold tables_ram. rewrite Ec, (sum_delete (fun o => if table_payer o =? a then table_id_billable_size else 0) _ _ _ Eo). unfold only. destruct (_ =? a); lia.
Qed.

(** ** Rows *)

Record slot_ram {A} (sl : @slot K A) (ram : row A -> Z) (P : row A -> Prop) : Prop := {
  sr_fits : forall c, fits_in c -> ids_fit row_id P (sl_table sl c);
  sr_put : forall c t, fits_in c -> ids_fit row_id P t -> fits_in (sl_put_table sl c t);
  sr_paid : forall c t a, paid_for (sl_put_table sl c t) a = paid_for c a - rows_ram ram a (contents (sl_table sl c)) + rows_ram ram a (contents t);
  sr_billing : forall c t, billing (sl_put_table sl c t) = billing c;
  sr_cache : forall c ic, balanced c (sl_put_cache sl c ic);
  sr_ram : forall r, P r -> 0 <= ram r < 2 ^ 33
}.

Section Slots.
Context {A : Type} (sl : @slot K A) (ram : row A -> Z) (P : row A -> Prop) (Hsl : slot_ram sl ram P).

(** Putting rows in their place, so much dearer for each account *)
Lemma put_gains c t d : (fits_in c -> ids_fit row_id P t /\ forall a, rows_ram ram a (contents t) = rows_ram ram a (contents (sl_table sl c)) - d a) -> gains d c (sl_put_table sl c t).
Proof.
  intros Hd H. destruct (Hd H) as [Ht Hsum]. rewrite (sr_billing _ _ _ Hsl). split_and!; [by apply (sr_put _ _ _ Hsl)| |intros _ _ a _; lia]. intros a. unfold ram_used, ram_delta. rewrite (sr_billing _ _ _ Hsl), (sr_paid _ _ _ Hsl), Hsum. lia.
Qed.

Lemma create_gains orders c f x : P (f (table_next (sl_table sl c))) -> row_id (f (table_next (sl_table sl c))) = table_next (sl_table sl c) ->
  db_create orders (sl_table sl c) f = Ok x -> let r := f (table_next (sl_table sl c)) in gains (only (payer r) (- ram r)) c (sl_put_table sl c x.2).
Proof.
  intros HP Hid H r. apply db_create_Ok in H as (_ & Ec & En). apply put_gains. intros Hf. pose proof (sr_fits _ _ _ Hsl _ Hf) as Ht. split.
  - intros p v. rewrite Ec, En. intros [[<- <-]|[_ E]]%lookup_insert_Some; [split_and!; [done|lia|done]|]. destruct (Ht p v E) as (? & ? & ?). split_and!; [done|lia|done].
  - intros a. unfold rows_ram. rewrite Ec, (sum_insert (fun r => if payer r =? a then ram r else 0)), (ids_fresh _ _ _ Ht). unfold only. fold r. destruct (payer r =? a); lia.
Qed.

Lemma modify_gains orders c r f t : contents (sl_table sl c) !! row_id r = Some r -> P (f r) -> row_id (f r) = row_id r ->
  db_modify orders (sl_table sl c) (row_id r) f = Ok t -> gains (fun a => only (payer r) (ram r) a + only (payer (f r)) (- ram (f r)) a) c (sl_put_table sl c t).
Proof.
  intros Er HP Hid H. apply db_modify_Ok in H as (v & Ev & Ec & En). assert (v = r) as -> by congruence. apply put_gains. intros Hf. pose proof (sr_fits _ _ _ Hsl _ Hf) as Ht. split.
  - intros p v. rewrite Ec, En. intros [[<- <-]|[_ E]]%lookup_insert_Some; [|by apply Ht]. destruct (Ht _ _ Er) as (? & ? & _). by split_and!.
  - intros a. unfold rows_ram. rewrite Ec, (sum_insert (fun r => if payer r =? a then ram r else 0)), Er. unfold only. destruct (payer r =? a), (payer (f r) =? a); lia.
Qed.

Lemma remove_gains orders c r t : contents (sl_table sl c) !! row_id r = Some r -> db_remove orders (sl_table sl c) (row_id r) = Ok t ->
  gains (only (payer r) (ram r)) c (sl_put_table sl c t).
Proof.
  intros Er H. apply db_remove_Ok in H as (v & Ev & Ec & En). assert (v = r) as -> by congruence. apply put_gains. intros Hf. pose proof (sr_fits _ _ _ Hsl _ Hf) as Ht. split.
  - intros p v. rewrite Ec, En. intros [_ E]%lookup_delete_Some. by apply Ht.
  - intros a. unfold rows_ram. rewrite Ec, (sum_delete (fun r => if payer r =? a then ram r else 0) _ _ _ Er). unfold only. destruct (payer r =? a); lia.
Qed.

Lemma store_tail_gains c T pay id v amount x : (forall p, P (Row p T id pay v) /\ ram (Row p T id pay v) = amount) -> store_tail sl e c T pay id v amount = Ok x -> balanced c x.2.
Proof.
  intros Hnew. unfold store_tail. intros H. apply bind_Ok in H as (obj & Hc & H). apply bind_Ok in H as (c2 & Ha & H). apply bind_Ok in H as (c3 & Hb & H).
  destruct (cache_add _ _) as [i ic]. injection H as <-. cbn [snd]. destruct (Hnew (table_next (sl_table sl c))) as [HP Hram].
  pose proof (sr_ram _ _ _ Hsl _ HP) as Hpos. rewrite Hram in Hpos.
  eapply gains_ext; [|eapply gains_trans; [apply (create_gains (sl_orders sl) c (fun p => Row p T id pay v) obj); done|eapply gains_trans; [by eapply add_to_count_gains|eapply gains_trans; [eapply bill_gains; [|exact Hb]; lia|apply (sr_cache _ _ _ Hsl)]]]].
  intros a. cbn. rewrite Hram. unfold only. destruct (pay =? a); lia.
Qed.

Lemma own_row_Ok c iterator r : own_row e c (sl_table sl c) (sl_cache sl c) iterator = Ok r -> fits_in c -> contents (sl_table sl c) !! row_id r = Some r /\ P r.
Proof.
  unfold own_row. intros H Hf. apply (sr_fits _ _ _ Hsl) in Hf. inv_result. unfold deref in E1. inv_result. destruct (Hf _ _ E1) as (Hid & _ & HP). by rewrite Hid.
Qed.

Definition bills (d : account_name -> Z) (m : result (@apply_context K)) c : Prop := forall c1, m = Ok c1 -> gains d c c1 /\ sl_table sl c1 = sl_table sl c.

Lemma update_tail_gains c c' r new_payer v m : contents (sl_table sl c) !! row_id r = Some r -> P (Row (row_id r) (t_id r) (primary_key r) new_payer v) ->
  bills (fun a => only (payer r) (- ram r) a + only new_payer (ram (Row (row_id r) (t_id r) (primary_key r) new_payer v)) a) m c ->
  (c ← m; update_tail sl c r new_payer v) = Ok c' -> balanced c c'.
Proof.
  intros Er HP Hm H. unfold update_tail in H. apply bind_Ok in H as (c1 & H1 & H). apply bind_Ok in H as (t & Ht & [= <-]). destruct (Hm c1 H1) as [Hg Et].
  assert (Er1 : contents (sl_table sl c1) !! row_id r = Some r) by (by rewrite Et).
  eapply gains_ext; [|eapply gains_trans; [exact Hg|by apply (modify_gains (sl_orders sl) c1 r (fun o => Row (row_id o) (t_id o) (primary_key o) new_payer v))]].
  intros a. cbn [payer]. unfold only. destruct (payer r =? a), (new_payer =? a); lia.
Qed.

Lemma remove_tail_gains c r amount iterator c' : (forall c p d c', bill e c p d = Ok c' -> sl_table sl c' = sl_table sl c) -> (forall c t, sl_table sl (with_table_ids c t) = sl_table sl c) ->
  contents (sl_table sl c) !! row_id r = Some r -> P r -> ram r = amount -> remove_tail sl e c r amount iterator = Ok c' -> balanced c c'.
Proof.
  intros Hbt Htt Er HP Hram H. unfold remove_tail in H. pose proof (sr_ram _ _ _ Hsl _ HP) as Hpos.
  apply bind_Ok in H as (c1 & H1 & H). apply bind_Ok in H as (T & _ & H). apply bind_Ok in H as (c2 & H2 & H). apply bind_Ok in H as (t & H3 & H). apply bind_Ok in H as (c3 & H4 & H).
  apply bind_Ok in H as (ic & _ & [= <-]).
  assert (Er2 : contents (sl_table sl c2) !! row_id r = Some r). { unfold add_to_count in H2. apply bind_Ok in H2 as (t2 & _ & [= <-]). by rewrite Htt, (Hbt _ _ _ _ H1). }
  eapply gains_ext; [|eapply gains_trans; [eapply bill_gains; [|exact H1]; lia|eapply gains_trans; [by eapply add_to_count_gains|eapply gains_trans; [by eapply remove_gains|
    eapply gains_trans; [by eapply remove_table_if_empty_gains|apply (sr_cache _ _ _ Hsl)]]]]].
  intros a. cbn beta. unfold only. destruct (payer r =? a); lia.
Qed.
End Slots.

Lemma row_slot_ram : slot_ram row_slot row_ram (fun r => size_of (payload r) < 2 ^ 32).
Proof.
  split; cbn [sl_table sl_put_table sl_put_cache row_slot index_slot]; try done.
  - by intros c [].
  - by intros c t [] Ht.
  - intros c t a. unfold paid_for. assert (E : forall x y z w : Z, x + y + z = x + w + z - w + y) by lia. apply E.
  - intros c ic Hf. split_and!; [by destruct Hf| |intros _ _ a _; cbn; lia]. intros a. unfold ram_used, ram_delta, paid_for. cbn. lia.
  - intros r Hr. unfold row_ram, size_of in *. change key_value_billable_size with 112. lia.
Qed.

Lemma index_slot_ram k : slot_ram (index_slot key_less k) (index_ram k) (fun _ => True).
Proof.
  split; cbn [sl_table sl_put_table sl_put_cache row_slot index_slot]; try done.
  - intros c []. done.
  - intros c t [] Ht. split; cbn; try done. intros j. by case_decide; [subst|].
  - intros c t a. unfold paid_for. cbn [fmap list_fmap index_kinds Zsum foldr table_ids key_values index_objects with_index_objects]. destruct k; repeat case_decide; try done; unfold index_object in *; lia.
  - intros c ic Hf. split_and!; [by destruct Hf| |intros _ _ a _; cbn; lia]. intros a. unfold ram_used, ram_delta, paid_for. cbn. lia.
  - intros r _. destruct k; done.
Qed.

(** ** The calls *)

Definition small_buffers (o : @db_call K) : Prop := match o with DbStore _ _ _ _ buffer | DbUpdate _ _ buffer => size_of buffer < 2 ^ 32 | _ => True end.

Section Billing.
Context {A : Type} (sl : @slot K A) (Hbt : forall c p d c', bill e c p d = Ok c' -> sl_table sl c' = sl_table sl c).

Lemma bills_one c p d : - 2 ^ 64 < d -> bills sl (only p d) (bill e c p d) c.
Proof. intros Hd c1 H. split; [by eapply bill_gains|by eapply Hbt]. Qed.

Lemma bills_none c : bills sl (fun _ => 0) (Ok c) c.
Proof. intros c1 [= <-]. split; [apply balanced_refl|done]. Qed.

Lemma bills_two c p d p' d' : - 2 ^ 64 < d -> - 2 ^ 64 < d' -> bills sl (fun a => only p d a + only p' d' a) (c ← bill e c p d; bill e c p' d') c.
Proof.
  intros Hd Hd' c2 H. apply bind_Ok in H as (c1 & H1 & H2). split; [|by rewrite (Hbt _ _ _ _ H2), (Hbt _ _ _ _ H1)].
  eapply gains_trans; by eapply bill_gains.
Qed.

Lemma bills_ext d d' m c : (forall a, d a = d' a) -> bills sl d m c -> bills sl d' m c.
Proof. intros E H c1 H1. destruct (H c1 H1). split; [by eapply gains_ext|done]. Qed.
End Billing.

Lemma bill_rows c p d c' : bill e c p d = Ok c' -> key_values c' = key_values c.
Proof. unfold bill. intros H. by inv_result. Qed.
Lemma bill_index c p d c' k : bill e c p d = Ok c' -> index_objects c' k = index_objects c k.
Proof. unfold bill. intros H. by inv_result. Qed.

Lemma size_nonneg {B} (l : list B) : 0 <= size_of l.
Proof. unfold size_of. lia. Qed.

Lemma db_store_gains c scope name pay id buffer x : size_of buffer < 2 ^ 32 -> db_store_i64 e c scope name pay id buffer = Ok x -> balanced c x.2.
Proof.
  intros Hs H. unfold db_store_i64 in H. destruct (is_read_only e); [done|]. cbn [negb] in H. apply bind_Ok in H as ([T c1] & H1 & H). destruct (pay =? 0); [done|].
  eapply balanced_trans; [by apply (find_or_create_gains _ _ _ _ _ _ H1)|]. by eapply (store_tail_gains row_slot _ _ row_slot_ram c1 T pay id buffer); [|exact H].
Qed.

Lemma store_gains c k scope name pay id v x : store key_less e c k scope name pay id v = Ok x -> balanced c x.2.
Proof.
  intros H. unfold store in H. destruct (is_read_only e); [done|]. destruct (pay =? 0); [done|]. cbn [negb] in H. apply bind_Ok in H as ([T c1] & H1 & H).
  eapply balanced_trans; [by apply (find_or_create_gains _ _ _ _ _ _ H1)|]. by eapply (store_tail_gains (index_slot key_less k) _ _ (index_slot_ram k) c1 T pay id v); [|exact H].
Qed.

Lemma db_update_gains c iterator pay buffer c' : size_of buffer < 2 ^ 32 -> db_update_i64 e c iterator pay buffer = Ok c' -> balanced c c'.
Proof.
  intros Hs H Hf. unfold db_update_i64 in H. apply bind_Ok in H as (r & Hr & H). destruct (own_row_Ok row_slot _ _ row_slot_ram c iterator r Hr Hf) as [Er HP].
  pose proof (size_nonneg buffer). pose proof (size_nonneg (payload r)). revert Hf. change key_value_billable_size with 112 in H.
  eapply (update_tail_gains row_slot _ _ row_slot_ram c c' r (if pay =? 0 then payer r else pay) buffer); [exact Er|exact Hs| |exact H].
  destruct (Z.eqb_spec (payer r) (if pay =? 0 then payer r else pay)) as [<-|Hne]; cbn [negb].
  - destruct (Z.eqb_spec (size_of (payload r) + 112) (size_of buffer + 112)) as [Es|Es]; cbn [negb].
    + eapply bills_ext; [|apply bills_none]. intros a. unfold only, row_ram. cbn. change key_value_billable_size with 112. destruct (_ =? a); lia.
    + eapply bills_ext; [|apply bills_one; [apply bill_rows|lia]]. intros a. unfold only, row_ram. cbn [payload]. change key_value_billable_size with 112. destruct (_ =? a); lia.
  - eapply bills_ext; [|apply bills_two; [apply bill_rows|lia|lia]]. done.
Qed.

Lemma update_gains c k iterator pay v c' : update key_less e c k iterator pay v = Ok c' -> balanced c c'.
Proof.
  intros H Hf. unfold update in H. apply bind_Ok in H as (r & Hr & H). destruct (own_row_Ok (index_slot key_less k) _ _ (index_slot_ram k) c iterator r Hr Hf) as [Er _]. revert Hf.
  eapply (update_tail_gains (index_slot key_less k) _ _ (index_slot_ram k) c c' r (if pay =? 0 then payer r else pay) v); [exact Er|done| |exact H].
  assert (Hk : - 2 ^ 64 < - index_billable_size k /\ - 2 ^ 64 < index_billable_size k) by (by destruct k).
  destruct (Z.eqb_spec (payer r) (if pay =? 0 then payer r else pay)) as [<-|Hne]; cbn [negb].
  - eapply bills_ext; [|apply bills_none]. intros a. unfold only, index_ram. destruct (_ =? a); lia.
  - eapply bills_ext; [|apply bills_two; [intros *; apply bill_index|apply Hk|apply Hk]]. done.
Qed.

Lemma db_remove_gains c iterator c' : db_remove_i64 e c iterator = Ok c' -> balanced c c'.
Proof.
  intros H Hf. unfold db_remove_i64 in H. apply bind_Ok in H as (r & Hr & H). destruct (own_row_Ok row_slot _ _ row_slot_ram c iterator r Hr Hf) as [Er HP]. revert Hf.
  by eapply (remove_tail_gains row_slot _ _ row_slot_ram c r _ iterator c' bill_rows); [|exact Er|exact HP| |exact H].
Qed.

Lemma remove_call_gains c k iterator c' : remove key_less e c k iterator = Ok c' -> balanced c c'.
Proof.
  intros H Hf. unfold remove in H. apply bind_Ok in H as (r & Hr & H). destruct (own_row_Ok (index_slot key_less k) _ _ (index_slot_ram k) c iterator r Hr Hf) as [Er _]. revert Hf.
  by eapply (remove_tail_gains (index_slot key_less k) _ _ (index_slot_ram k) c r _ iterator c'); [intros *; apply bill_index| |exact Er| | |exact H].
Qed.

Lemma call_gains c o r : small_buffers o -> call key_less e c o = Ok r -> balanced c r.2.
Proof.
  intros Hs H. pose proof (sr_cache _ _ _ row_slot_ram) as Hrows. pose proof (fun k => sr_cache _ _ _ (index_slot_ram k)) as Hindex.
  destruct o; cbn [call small_buffers] in *; unfold db_next_i64, db_previous_i64, next_secondary, previous_secondary in H; cbn [sl_put_cache row_slot index_slot] in Hrows, Hindex.
  - inv_result. by eapply db_store_gains.
  - inv_result. by eapply db_update_gains.
  - inv_result. by eapply db_remove_gains.
  - inv_result. apply balanced_refl.
  - destruct (next _ _ _ _); [|done]. injection H as <-. apply Hrows.
  - destruct (previous _ _ _ _ _ _); [|done]. injection H as <-. apply Hrows.
  - injection H as <-. apply Hrows.
  - injection H as <-. apply Hrows.
  - injection H as <-. apply Hrows.
  - injection H as <-. apply Hrows.
  - inv_result. by eapply store_gains.
  - inv_result. by eapply update_gains.
  - inv_result. by eapply remove_call_gains.
  - injection H as <-. apply Hindex.
  - injection H as <-. apply Hindex.
  - injection H as <-. apply Hindex.
  - injection H as <-. apply Hindex.
  - injection H as <-. apply Hindex.
  - destruct (next _ _ _ _); [|done]. injection H as <-. apply Hindex.
  - destruct (previous _ _ _ _ _ _); [|done]. injection H as <-. apply Hindex.
Qed.
End Ram.

(** ** Transactions *)

Section Transactions.
Context {K : Type} (key_less : index_kind -> K -> K -> bool).
Implicit Types (c : @apply_context K) (a : account_name).

(** Buffers are in the memory of a contract; resource limits are unsigned. *)
Definition event_fits (x : @contract_event K) : Prop :=
  match x with Transact actions => Forall (Forall (fun y => Forall small_buffers y.2)) actions | SetResourceLimits limits => limits_fit limits end.

(** Why an account may be billed for more RAM by a receiver of an action *)
Definition agreed a (e : action_env) : Prop :=
  privileged e = true \/ receiver e = a \/ may_bill e a /\ (ram_restrictions_activated e = true -> receiver e = act_account e).

(** From [c] to [c'] as much more is billed as is paid for, if the accounts that are
    billed for more agreed to one of [es]. *)
Definition conserved (es : list action_env) c c' : Prop := fits_in c -> fits_in c' /\
  forall a, ram_used c' a - paid_for c' a = ram_used c a - paid_for c a /\ (ram_used c a < ram_used c' a -> Exists (agreed a) es).

Lemma conserved_trans es es' c c' c'' : conserved es c c' -> conserved es' c' c'' -> conserved (es ++ es') c c''.
Proof.
  intros H1 H2 H. destruct (H1 H) as [H' E1]. destruct (H2 H') as [H'' E2]. split; [done|]. intros a. specialize (E1 a) as [E1 C1]. specialize (E2 a) as [E2 C2]. split; [lia|].
  intros Hlt. apply Exists_app. destruct (Z.lt_ge_cases (ram_used c a) (ram_used c' a)); [left; by apply C1|right; apply C2; lia].
Qed.

Lemma settle_conserved c b : resource_limits b = resource_limits (billing c) -> conserved [] c (with_billing c b).
Proof. intros Hb [H1 H2 H3 H4]. split; [split; cbn; try done; by rewrite Hb|]. intros a. unfold ram_used, paid_for. cbn. rewrite Hb. split; [done|lia]. Qed.

Lemma new_context_conserved c : conserved [] c (new_context c).
Proof. intros [H1 H2 H3 H4]. split; [by split|]. intros a. unfold ram_used, paid_for. cbn. split; [done|lia]. Qed.

Lemma calls_balanced e calls c outs r : Forall small_buffers calls ->
  foldM (fun (r : list db_output * @apply_context K) o => r' ← call key_less e r.2 o; Ok (r.1 ++ [r'.1], r'.2)) (outs, c) calls = Ok r -> balanced e c r.2.
Proof.
  intros Hs. revert c outs. induction Hs as [|o calls Ho Hs IH]; intros c outs; cbn [foldM]; [intros [= <-]; apply balanced_refl|]. intros H. inv_result. cbn [snd] in E0.
  eapply balanced_trans; [by eapply call_gains|by eapply IH].
Qed.

Lemma check_ram_deltas_Ok e b a d : check_ram_deltas e b = Ok () -> privileged e = false -> ram_restrictions_activated e = true -> _account_ram_deltas b !! a = Some d ->
  0 < d -> a <> receiver e -> receiver e = act_account e /\ has_authorization e a = true.
Proof.
  unfold check_ram_deltas. intros H Hp Hr Ed Hd Ha. rewrite Hp, Hr in H. cbn [negb andb] in H. apply elem_of_map_to_list in Ed. revert Ed H. generalize (map_to_list (_account_ram_deltas b)).
  intros l Ed. generalize tt at 2. induction l as [|[a' d'] l IH]; [by apply elem_of_nil in Ed|]. intros []. cbn [foldM fst snd]. intros H. apply bind_Ok in H as ([] & H1 & H).
  apply elem_of_cons in Ed as [[= <- <-]|Ed]; [|by eapply IH]. apply Z.ltb_lt in Hd. apply Z.eqb_neq in Ha. rewrite Hd, Ha in H1. cbn in H1. inv_result. by apply Z.eqb_eq in E.
Qed.

Lemma receiver_conserved e c calls r : Forall small_buffers calls -> _account_ram_deltas (billing c) = ∅ -> run_receiver key_less e c calls = Ok r ->
  conserved [e] c r.2 /\ _account_ram_deltas (billing r.2) = ∅.
Proof.
  intros Hs H0 H. unfold run_receiver in H. inv_result. split; [|done]. intros Hf. apply calls_balanced in E; [|done]. destruct (E Hf) as (Hf' & Hbal & Hcons). cbn [snd]. split; [by destruct Hf'|].
  intros a. change (ram_used (with_billing x.2 _) a) with (ram_used x.2 a). change (paid_for (with_billing x.2 _) a) with (paid_for x.2 a). destruct (Hbal a) as [Hb1 Hb2]. split; [lia|].
  intros Hlt. apply Exists_cons. left. unfold agreed. destruct (privileged e) eqn:Hp; [by left|]. right. destruct (decide (receiver e = a)) as [|Ha]; [by left|]. right.
  destruct (ram_restrictions_activated e) eqn:Hr.
  - unfold ram_delta in Hb2. rewrite H0, lookup_empty in Hb2. cbn in Hb2. destruct (_account_ram_deltas (billing x.2) !! a) as [d|] eqn:Ed; cbn in Hb2; [|lia].
    destruct x0. destruct (check_ram_deltas_Ok e (billing x.2) a d E0 Hp Hr Ed) as [Hrec Hauth]; [lia|congruence|]. split; [|done]. split; [done|]. rewrite Hrec, Z.eqb_refl. apply orb_true_r.
  - split; [|done]. apply Hcons; [done..|congruence|done].
Qed.

Lemma action_conserved c (action : contract_action) r : Forall (fun y : action_env * list db_call => Forall small_buffers y.2) action -> run_action key_less c action = Ok r -> conserved (fst <$> action) c r.2.
Proof.
  intros Hs H. unfold run_action in H. change (conserved ([] ++ (fst <$> action)) c r.2). apply (conserved_trans [] _ c (new_context c) r.2); [apply new_context_conserved|].
  assert (H0 : _account_ram_deltas (billing (new_context c)) = ∅) by done. revert H H0. generalize (new_context c) ([] : list (@db_output K)). clear c.
  induction Hs as [|[e calls] action Hc Hs IH]; intros c outs; cbn [foldM fst snd]; [intros [= <-] _; intros Hf; split; [done|]; intros a; split; [done|cbn; lia]|].
  intros H H0. inv_result. destruct (receiver_conserved e c calls x0 Hc H0 E0) as [Hcons H1]. change (conserved ([e] ++ (fst <$> action)) c r.2). apply (conserved_trans [e] _ c x0.2 r.2); [exact Hcons|]. by eapply IH.
Qed.

Lemma actions_conserved c actions r : Forall (Forall (fun y : action_env * list db_call => Forall small_buffers y.2)) actions -> run_actions key_less c actions = Ok r ->
  conserved (actions ≫= fmap fst) c r.2.
Proof.
  intros Hs. unfold run_actions. generalize ([] : list (@db_output K)). revert c. induction Hs as [|action actions Ha Hs IH]; intros c outs; cbn [foldM fst snd].
  - intros [= <-] Hf. split; [done|]. intros a. split; [done|cbn; lia].
  - intros H. apply bind_Ok in H as (y & Hy & H). apply bind_Ok in Hy as (x & Hrun & [= <-]). change (conserved ((fst <$> action) ++ (actions ≫= fmap fst)) c r.2). apply (conserved_trans _ _ c x.2 r.2); [by eapply action_conserved|by eapply IH].
Qed.

Lemma start_transaction_conserved c : conserved [] c (start_transaction c).
Proof. intros [H1 H2 H3 H4]. split; [by split|]. intros a. unfold ram_used, paid_for. cbn. split; [done|lia]. Qed.

Lemma started_conserved c actions r : Forall (Forall (fun y : action_env * list db_call => Forall small_buffers y.2)) actions ->
  run_actions key_less (start_transaction c) actions = Ok r -> conserved (actions ≫= fmap fst) c r.2.
Proof. intros Hs H. apply (conserved_trans [] _ c (start_transaction c)); [apply start_transaction_conserved|by apply actions_conserved]. Qed.

Lemma run_event_fits c x : event_fits x -> fits_in c -> fits_in (run_event key_less c x).1.
Proof.
  intros Hx Hf. destruct x as [actions|limits]; cbn in *.
  - destruct (run_actions key_less (start_transaction c) actions) as [r|] eqn:E; [|done]. by destruct (started_conserved c actions r Hx E Hf).
  - by destruct Hf.
Qed.

Lemma run_events_fits h c : Forall event_fits h -> fits_in c -> fits_in (run_events key_less c h).1.
Proof. intros Hs. revert c. induction Hs as [|x h Hx Hs IH]; intros c Hf; [done|]. apply IH. by apply run_event_fits. Qed.

Lemma empty_fits b : limits_fit (resource_limits b) -> fits_in (@empty_context K b).
Proof. intros Hb. split; [| |intros k|done]; intros p v E; cbn in E; by rewrite lookup_empty in E. Qed.

Lemma transaction_conserved b h actions : limits_fit (resource_limits b) -> Forall event_fits (h ++ [Transact actions]) ->
  let c := (run_events key_less (empty_context b) h).1 in conserved (actions ≫= fmap fst) c (run_event key_less c (Transact actions)).1 /\ fits_in c.
Proof.
  intros Hb [Hh Hx]%Forall_app c. apply Forall_cons in Hx as [Hx _]. assert (Hc : fits_in c) by (apply run_events_fits; [done|by apply empty_fits]). split; [|done].
  cbn [run_event]. destruct (run_actions key_less (start_transaction c) actions) as [r|] eqn:E; [exact (started_conserved c actions r Hx E)|]. intros Hf. split; [done|]. intros a. split; [done|cbn; lia].
Qed.

(** C21: the RAM that accounts are billed for is what they pay for: whatever happened
    before, a transaction changes the RAM usage of each account by exactly the size of
    the rows and tables that the account pays for after it, less what it paid for
    before, whoever stored, changed or removed them. *)
Theorem ram_is_what_is_stored b h actions a : limits_fit (resource_limits b) -> Forall event_fits (h ++ [Transact actions]) ->
  let c := (run_events key_less (empty_context b) h).1 in let c' := (run_event key_less c (Transact actions)).1 in
  ram_used c' a - ram_used c a = paid_for c' a - paid_for c a /\ 0 <= ram_used c' a < 2 ^ 64.
Proof.
  intros Hb Hx c c'. destruct (transaction_conserved b h actions Hb Hx) as [H Hf]. destruct (H Hf) as [Hf' E]. specialize (E a) as [E _]. fold c c' in E. split; [lia|]. apply (fi_limits _ Hf').
Qed.

(** C22: nobody is billed without agreement: an account whose RAM usage is higher after
    a transaction runs one of its contracts, or authorized one of its actions, which
    (when [ram_restrictions] is active) was no mere notification, or a privileged
    contract took part. *)
Theorem ram_increase_is_agreed b h actions a : limits_fit (resource_limits b) -> Forall event_fits (h ++ [Transact actions]) ->
  let c := (run_events key_less (empty_context b) h).1 in let c' := (run_event key_less c (Transact actions)).1 in
  ram_used c a < ram_used c' a -> exists e, e ∈ event_envs (Transact actions) /\ agreed a e.
Proof.
  intros Hb Hx c c' Hlt. destruct (transaction_conserved b h actions Hb Hx) as [H Hf]. destruct (H Hf) as [_ E]. specialize (E a) as [_ E]. apply Exists_exists. by apply E.
Qed.
End Transactions.

(** ** Examples *)

Definition first_transaction : list (@contract_action Z) := match TokenExample.history with Transact actions :: _ => actions | _ => [] end.

Lemma example_limits_fit : limits_fit (resource_limits TokenExample.start).
Proof.
  intros a. unfold ram_of, TokenExample.start, TokenExample.limits. cbn [resource_limits usages with_usage].
  repeat (rewrite lookup_insert; case_decide; [vm_compute; split; congruence|]). cbn. rewrite lookup_empty. lia.
Qed.

(** What Alice is billed for after the first transaction: two rows *)
Definition after_first : @apply_context Z := (run_event TokenExample.key_less (empty_context TokenExample.start) (Transact first_transaction)).1.

Theorem ram_is_what_is_stored_witness :
  ram_used after_first TokenExample.alice = paid_for after_first TokenExample.alice /\ 0 < ram_used after_first TokenExample.alice < 2 ^ 64.
Proof.
  assert (H : ram_used after_first TokenExample.alice - 0 = paid_for after_first TokenExample.alice - 0 /\ 0 <= ram_used after_first TokenExample.alice < 2 ^ 64).
  { apply (ram_is_what_is_stored TokenExample.key_less TokenExample.start [] first_transaction TokenExample.alice example_limits_fit).
    repeat constructor; vm_compute; reflexivity. }
  split; [lia|]. split; [vm_compute; reflexivity|apply H].
Defined.

Theorem ram_increase_is_agreed_witness :
  ram_used (@empty_context Z TokenExample.start) TokenExample.alice < ram_used after_first TokenExample.alice /\
  exists e, e ∈ event_envs (Transact first_transaction) /\ agreed TokenExample.alice e.
Proof.
  assert (Hlt : ram_used (@empty_context Z TokenExample.start) TokenExample.alice < ram_used after_first TokenExample.alice) by (vm_compute; reflexivity). split; [exact Hlt|].
  apply (ram_increase_is_agreed TokenExample.key_less TokenExample.start [] first_transaction TokenExample.alice example_limits_fit); [|exact Hlt].
  repeat constructor; vm_compute; reflexivity.
Defined.
