(* ===== verification/TransactionContext.v ===== *)
(** * Transactions

    [transaction_context.hpp/.cpp], what [controller.cpp] does to push a
    transaction and to apply those of a block, and the headers of
    [transaction.hpp] and [block.hpp] they read.  The tables of the database are
    those of [Authorization] and [ResourceLimits], and the table of the ids of
    recent transactions.  What the virtual machine does with the actions of a
    transaction is a tree of the calls it makes ([execution]); the clock and the
    timer of the deadline are the [look]s that the node has at them.  Times are
    microseconds. *)

From S2P Require Import Prelude ChainTypes OrderedDiff Policies Raw Names ResourceLimits Authority Authorization.
Open Scope Z_scope.

(** ** Transactions and their metadata *)

Record transaction : Type := Transaction {
  expiration : Z;  (* seconds *)
  ref_block_num : Z;
  ref_block_prefix : Z;
  max_net_usage_words : Z;
  max_cpu_usage_ms : Z;
  delay_sec : Z;
  context_free_actions : list action;
  actions : list action;
  transaction_extensions : list (Z * list Z)
}.

(** A packed transaction, with the sizes of its parts. *)
Record packed_transaction : Type := PackedTransaction {
  unpacked_trx : transaction;
  trx_id : sha256;
  packed_trx_size : Z;
  signatures_pack_size : Z;
  packed_context_free_data_size : Z;
  trx_pack_size : Z  (* of the transaction, not compressed *)
}.

Inductive trx_type := input | implicit | scheduled | dry_run | read_only.

Record transaction_metadata : Type := TransactionMetadata {
  packed_trx : packed_transaction;
  sig_cpu_usage : Z;
  recovered_keys : list public_key_type;
  meta_type : trx_type
}.

Definition is_implicit (t : trx_type) : bool := match t with implicit => true | _ => false end.
Definition is_scheduled (t : trx_type) : bool := match t with scheduled => true | _ => false end.
Definition is_dry_run (t : trx_type) : bool := match t with dry_run => true | _ => false end.
Definition is_read_only (t : trx_type) : bool := match t with read_only => true | _ => false end.
Definition is_transient (t : trx_type) : bool := match t with read_only | dry_run => true | _ => false end.

Definition fixed_net_overhead_of_packed_trx : Z := 16.
Definition transaction_id_net_usage : Z := 32.

Definition get_unprunable_size (t : packed_transaction) : result Z :=
  let size := fixed_net_overhead_of_packed_trx + packed_trx_size t in
  EOS_ASSERT size <=? uint32_max ,, tx_too_big ;; Ok size.

Definition get_prunable_size (t : packed_transaction) : result Z :=
  let size := signatures_pack_size t + packed_context_free_data_size t in
  EOS_ASSERT size <=? uint32_max ,, tx_too_big ;; Ok size.

Definition first_authorizer (t : transaction) : account_name :=
  match concat (map act_authorization (actions t)) with u :: _ => actor u | [] => 0 end.

Definition verify_reference_block (t : transaction) (reference_block : block_id_type) : bool :=
  (ref_block_num t =? endian_reverse_u32 (wrap32 (hash0 reference_block)) mod 2 ^ 16) &&
  (ref_block_prefix t =? wrap32 (hash1 reference_block)).

Inductive status_enum := executed | soft_fail | hard_fail | delayed | expired.
#[export] Instance status_enum_eq_dec : EqDecision status_enum.
Proof. solve_decision. Defined.

Record transaction_receipt_header : Set := TransactionReceiptHeader {
  receipt_status : status_enum;
  cpu_usage_us : Z;
  net_usage_words : Z
}.
#[export] Instance transaction_receipt_header_eq_dec : EqDecision transaction_receipt_header.
Proof. solve_decision. Defined.

Record transaction_receipt : Type := TransactionReceipt {
  receipt_header : transaction_receipt_header;
  receipt_trx : packed_transaction
}.

(** ** The controller, as transactions see it *)

Inductive block_status := irreversible | validated | complete | incomplete | ephemeral.
#[export] Instance block_status_eq_dec : EqDecision block_status.
Proof. solve_decision. Defined.

(** The part of the chain's configuration that transactions read. *)
Record transaction_config : Set := TransactionConfig {
  max_transaction_net_usage : Z;
  base_per_transaction_net_usage : Z;
  net_usage_leeway : Z;
  context_free_discount_net_usage_num : Z;
  context_free_discount_net_usage_den : Z;
  max_transaction_cpu_usage : Z;
  min_transaction_cpu_usage : Z;
  max_transaction_lifetime : Z
}.

(** The pending block's status and the options of the node; what the chain says
    is in the last four fields. *)
Record controller : Set := Controller {
  pending_block_status : block_status;
  force_all_checks : bool;
  block_validation_mode_light : bool;
  trusted_producer_light_validation : bool;
  in_trx_requiring_checks : bool;
  disable_replay_opts : bool;
  read_mode_speculative : bool;
  is_write_window : bool;
  deep_mind_logger : bool;
  resource_greylist : list account_name;
  greylist_limit : Z;
  actor_whitelist : list account_name;
  actor_blacklist : list account_name;
  subjective_cpu_leeway : option Z;
  sig_cpu_bill_pct : Z;
  only_bill_first_authorizer : bool;
  disable_deferred_trxs_stage_1 : bool;
  trx_config : transaction_config;
  auth_context : context
}.

Definition light_validation_allowed (c : controller) : bool :=
  let pb_status := pending_block_status c in
  let consider_skipping_on_replay :=
    (bool_decide (pb_status = irreversible) || bool_decide (pb_status = validated)) && negb (force_all_checks c) in
  let consider_skipping_on_validate :=
    bool_decide (pb_status = complete) && (block_validation_mode_light c || trusted_producer_light_validation c) in
  negb (in_trx_requiring_checks c) && (consider_skipping_on_replay || consider_skipping_on_validate).

Definition skip_auth_check (c : controller) : bool := light_validation_allowed c.
Definition skip_trx_checks (c : controller) : bool := light_validation_allowed c.

Definition skip_db_sessions (c : controller) : bool :=
  bool_decide (pending_block_status c = irreversible) && negb (disable_replay_opts c) && negb (in_trx_requiring_checks c).

Definition is_speculative_block (c : controller) : bool :=
  bool_decide (pending_block_status c = incomplete) || bool_decide (pending_block_status c = ephemeral).

(** [std::lower_bound] in what is left of a sorted list *)
Fixpoint lower_bound (a : account_name) (l : list account_name) : list account_name :=
  match l with b :: l' => if b <? a then lower_bound a l' else l | [] => [] end.

Fixpoint actors_in_whitelist (actors whitelist : list account_name) : bool :=
  match actors with
  | [] => true
  | a :: actors => match lower_bound a whitelist with
                   | b :: rest => (b =? a) && actors_in_whitelist actors rest
                   | [] => false
                   end
  end.

Fixpoint actors_in_blacklist (actors blacklist : list account_name) : bool :=
  match actors with
  | [] => false
  | a :: actors => match lower_bound a blacklist with
                   | b :: rest => (b =? a) || actors_in_blacklist actors (b :: rest)
                   | [] => false
                   end
  end.

(** The lists are flat sets, sorted. *)
Definition check_actor_list (c : controller) (actors : list account_name) : result () :=
  let first l := default 0 (head l) in let last l := default 0 (last l) in
  if size_of actors =? 0 then Ok ()
  else if 0 <? size_of (actor_whitelist c) then
    let w := actor_whitelist c in
    EOS_ASSERT (first w <=? first actors) && (last actors <=? last w) && actors_in_whitelist actors w ,, actor_whitelist_exception ;; Ok ()
  else if 0 <? size_of (actor_blacklist c) then
    let b := actor_blacklist c in
    EOS_ASSERT negb ((first actors <=? last b) && (first b <=? last actors) && actors_in_blacklist actors b) ,, actor_blacklist_exception ;; Ok ()
  else Ok ().

(** ** The database *)

Record chain_state : Type := ChainState {
  tables : database;
  transactions : gmap sha256 Z;  (* the expirations, by id *)
  block_summaries : gmap Z block_id_type
}.

Definition with_tables (s : chain_state) (d : database) : chain_state := ChainState d (transactions s) (block_summaries s).
Definition with_limits_db (s : chain_state) (l : resource_limits_manager) : chain_state :=
  with_tables s (with_resource_limits (tables s) l).

Definition validate_expiration (c : controller) (t : transaction) : result () :=
  let pending := pending_block_time (auth_context c) in
  EOS_ASSERT pending <=? expiration t * 1000000 ,, expired_tx_exception ;;
  EOS_ASSERT expiration t * 1000000 <=? pending + max_transaction_lifetime (trx_config c) * 1000000 ,, tx_exp_too_far_exception ;;
  Ok ().

Definition validate_tapos (s : chain_state) (t : transaction) : result () :=
  tapos_block_summary ← get_row (block_summaries s !! ref_block_num t);
  EOS_ASSERT verify_reference_block t tapos_block_summary ,, invalid_ref_block_exception ;; Ok ().

(** A flat set is a sorted list. *)
Fixpoint flat_set_insert (a : account_name) (l : list account_name) : list account_name :=
  match l with
  | b :: l' => if a <? b then a :: l else if a =? b then l else b :: flat_set_insert a l'
  | [] => [a]
  end.

(** ** The state of a transaction *)

Inductive timer_state := running | timed_out | interrupted | stopped.
#[export] Instance timer_state_eq_dec : EqDecision timer_state.
Proof. solve_decision. Defined.

(** What the node finds when it looks at the clock or at the timer of the
    transaction; [oc_compile_interrupt] is whether it is the compilation of the
    contract that interrupted it ([wasm_interface_private.hpp]). *)
Record look : Set := Look {
  now : Z;
  timer : timer_state;
  oc_compile_interrupt : bool
}.

Definition time_maximum : Z := int64_max.

(** What [push_transaction] sets before the transaction begins, and the looks at
    the clock in each of the two attempts at its actions. *)
Record trx_arguments : Type := TrxArguments {
  trx_meta : transaction_metadata;
  start : Z;
  leeway : Z;
  max_transaction_time_subjective : Z;
  explicit_billed_cpu_time : bool;
  subjective_cpu_bill_us : Z;
  enforce_whiteblacklist : bool;
  trx_clock : nat -> nat -> look
}.

Record net_budget : Set := NetBudget {
  trace_net_usage : Z;
  init_net_usage : Z;
  net_limit : Z;
  eager_net_limit : Z;
  net_limit_due_to_block : bool;
  net_limit_due_to_greylist : bool
}.

Record cpu_budget : Set := CpuBudget {
  block_deadline : Z;
  objective_duration_limit : Z;
  deadline : Z;
  deadline_exception_code : exn;
  billing_timer_exception_code : exn;
  cpu_limit_due_to_greylist : bool;
  pseudo_start : Z;
  paused_time : Z;
  billed_time : Z;
  billed_cpu_time_us : Z
}.

(** The session is the database to go back to. *)
Record transaction_context : Type := TransactionContext {
  args : trx_arguments;
  db : chain_state;
  undo_session : option chain_state;
  net : net_budget;
  cpu : cpu_budget;
  bill_to_accounts : list account_name;
  validate_ram_usage : list account_name;
  delay : Z;
  is_input : bool;
  is_initialized : bool;
  attempt : nat;
  looks : nat
}.
Implicit Types (c : controller) (tc : transaction_context).

Definition with_db tc s := TransactionContext (args tc) s (undo_session tc) (net tc) (cpu tc) (bill_to_accounts tc)
  (validate_ram_usage tc) (delay tc) (is_input tc) (is_initialized tc) (attempt tc) (looks tc).
Definition with_net tc n := TransactionContext (args tc) (db tc) (undo_session tc) n (cpu tc) (bill_to_accounts tc)
  (validate_ram_usage tc) (delay tc) (is_input tc) (is_initialized tc) (attempt tc) (looks tc).
Definition with_cpu tc p := TransactionContext (args tc) (db tc) (undo_session tc) (net tc) p (bill_to_accounts tc)
  (validate_ram_usage tc) (delay tc) (is_input tc) (is_initialized tc) (attempt tc) (looks tc).
Definition with_accounts_billed tc l := TransactionContext (args tc) (db tc) (undo_session tc) (net tc) (cpu tc) l
  (validate_ram_usage tc) (delay tc) (is_input tc) (is_initialized tc) (attempt tc) (looks tc).
Definition with_ram_accounts tc l := TransactionContext (args tc) (db tc) (undo_session tc) (net tc) (cpu tc) (bill_to_accounts tc)
  l (delay tc) (is_input tc) (is_initialized tc) (attempt tc) (looks tc).
Definition with_delay tc d := TransactionContext (args tc) (db tc) (undo_session tc) (net tc) (cpu tc) (bill_to_accounts tc)
  (validate_ram_usage tc) d (is_input tc) (is_initialized tc) (attempt tc) (looks tc).
Definition with_input tc := TransactionContext (args tc) (db tc) (undo_session tc) (net tc) (cpu tc) (bill_to_accounts tc)
  (validate_ram_usage tc) (delay tc) true (is_initialized tc) (attempt tc) (looks tc).
Definition initialized tc := TransactionContext (args tc) (db tc) (undo_session tc) (net tc) (cpu tc) (bill_to_accounts tc)
  (validate_ram_usage tc) (delay tc) (is_input tc) true (attempt tc) (looks tc).
Definition looked tc := TransactionContext (args tc) (db tc) (undo_session tc) (net tc) (cpu tc) (bill_to_accounts tc)
  (validate_ram_usage tc) (delay tc) (is_input tc) (is_initialized tc) (attempt tc) (S (looks tc)).

Definition with_net_usage n u := NetBudget u (init_net_usage n) (net_limit n) (eager_net_limit n) (net_limit_due_to_block n)
  (net_limit_due_to_greylist n).
Definition with_eager n limit due := NetBudget (trace_net_usage n) (init_net_usage n) (net_limit n) limit due (net_limit_due_to_greylist n).
Definition with_net_limit n limit due := NetBudget (trace_net_usage n) (init_net_usage n) limit (eager_net_limit n) due (net_limit_due_to_greylist n).
Definition with_net_greylist n b := NetBudget (trace_net_usage n) (init_net_usage n) (net_limit n) (eager_net_limit n) (net_limit_due_to_block n)
  (net_limit_due_to_greylist n || b).
Definition with_deadline p d code := CpuBudget (block_deadline p) (objective_duration_limit p) d (deadline_exception_code p) code
  (cpu_limit_due_to_greylist p) (pseudo_start p) (paused_time p) (billed_time p) (billed_cpu_time_us p).
Definition with_deadline_code p d code := CpuBudget (block_deadline p) (objective_duration_limit p) d code (billing_timer_exception_code p)
  (cpu_limit_due_to_greylist p) (pseudo_start p) (paused_time p) (billed_time p) (billed_cpu_time_us p).
Definition with_objective p limit code := CpuBudget (block_deadline p) limit (deadline p) (deadline_exception_code p) code
  (cpu_limit_due_to_greylist p) (pseudo_start p) (paused_time p) (billed_time p) (billed_cpu_time_us p).
Definition with_block_deadline p d := CpuBudget d (objective_duration_limit p) (deadline p) (deadline_exception_code p)
  (billing_timer_exception_code p) (cpu_limit_due_to_greylist p) (pseudo_start p) (paused_time p) (billed_time p) (billed_cpu_time_us p).
Definition with_cpu_greylist p b := CpuBudget (block_deadline p) (objective_duration_limit p) (deadline p) (deadline_exception_code p)
  (billing_timer_exception_code p) (cpu_limit_due_to_greylist p || b) (pseudo_start p) (paused_time p) (billed_time p) (billed_cpu_time_us p).
Definition with_billing p pseudo paused billed := CpuBudget (block_deadline p) (objective_duration_limit p) (deadline p)
  (deadline_exception_code p) (billing_timer_exception_code p) (cpu_limit_due_to_greylist p) pseudo paused billed (billed_cpu_time_us p).
Definition with_billed p us := CpuBudget (block_deadline p) (objective_duration_limit p) (deadline p) (deadline_exception_code p)
  (billing_timer_exception_code p) (cpu_limit_due_to_greylist p) (pseudo_start p) (paused_time p) (billed_time p) us.

Definition type_of tc : trx_type := meta_type (trx_meta (args tc)).
Definition packed_of tc : packed_transaction := packed_trx (trx_meta (args tc)).
Definition trx_of tc : transaction := unpacked_trx (packed_of tc).
Definition resource_limits tc : resource_limits_manager := limits_db (tables (db tc)).
Definition pending_slot c : Z := set_time_point (pending_block_time (auth_context c)).

(** What the next look finds. *)
Definition next_look tc : look := trx_clock (args tc) (attempt tc) (looks tc).

(** A session, for the database as it is; read-only transactions have none. *)
Definition start_session c (t : trx_type) (s : chain_state) : option chain_state :=
  if negb (skip_db_sessions c) && negb (is_read_only t) then Some s else None.

(** The constructor and [initialize] *)
Definition make_transaction_context c (a : trx_arguments) (block_deadline billed_cpu_time_us : Z) (s : chain_state) : transaction_context :=
  TransactionContext a s (start_session c (meta_type (trx_meta a)) s) (NetBudget 0 0 0 0 true false)
    (CpuBudget block_deadline 0 time_maximum block_cpu_usage_exceeded block_cpu_usage_exceeded false (start a) 0 0 billed_cpu_time_us)
    [] [] 0 false false 0 0.

Definition has_undo c tc : bool :=
  negb (skip_db_sessions c) && negb (is_read_only (type_of tc)) && negb (deep_mind_logger c && negb (is_transient (type_of tc))).

(** The database without what the transaction did. *)
Definition undone tc : chain_state := default (db tc) (undo_session tc).

(** ** The use of the network *)

Definition check_net_usage c tc : result () :=
  let n := net tc in
  if negb (skip_trx_checks c) && (eager_net_limit n <? trace_net_usage n) then
    Throw (if net_limit_due_to_block n then block_net_usage_exceeded
           else if net_limit_due_to_greylist n then greylist_net_usage_exceeded else tx_net_usage_exceeded)
  else Ok ().

Definition add_net_usage c tc (u : Z) : result transaction_context :=
  let tc := with_net tc (with_net_usage (net tc) (wrap64 (trace_net_usage (net tc) + u))) in
  _ ← check_net_usage c tc; Ok tc.

(** ** The use of the processor *)

Definition timer_exception tc : exn :=
  let p := cpu tc in
  if explicit_billed_cpu_time (args tc) || bool_decide (deadline_exception_code p = deadline_exception) then deadline_exception
  else if bool_decide (deadline_exception_code p = block_cpu_usage_exceeded) then block_cpu_usage_exceeded
  else if bool_decide (deadline_exception_code p = tx_cpu_usage_exceeded) then
    (if cpu_limit_due_to_greylist p then greylist_cpu_usage_exceeded else tx_cpu_usage_exceeded)
  else if bool_decide (deadline_exception_code p = leeway_deadline_exception) then leeway_deadline_exception
  else transaction_exception.

Definition checktime tc : result transaction_context :=
  match timer (next_look tc) with
  | running => Ok (looked tc)
  | interrupted => Throw interrupt_exception
  | _ => Throw (timer_exception tc)
  end.

Definition pause_billing_timer tc : transaction_context :=
  let paused := now (next_look tc) in
  looked (with_cpu tc (with_billing (cpu tc) 0 paused (paused - pseudo_start (cpu tc)))).

(** [resume_from] 0 is none. *)
Definition resume_billing_timer tc (resume_from : Z) : transaction_context :=
  let now := now (next_look tc) in
  let p := cpu tc in
  let paused_time := if resume_from =? 0 then paused_time p else resume_from in
  let paused := now - paused_time in
  let p := with_deadline (with_billing p (now - billed_time p) paused_time (billed_time p)) (deadline p + paused) (billing_timer_exception_code p) in
  let p := if block_deadline p <? deadline p then with_deadline_code p (block_deadline p) deadline_exception else p in
  looked (with_cpu tc p).

(** What [validate_account_cpu_usage] and [validate_account_cpu_usage_estimate]
    share: [within billed limit] is the comparison. *)
Definition validate_account_cpu (within : Z -> Z -> bool) tc (billed_us account_cpu_limit : Z) : result () :=
  let objective := objective_duration_limit (cpu tc) in
  let cpu_limited_by_account := account_cpu_limit <=? objective in
  if negb cpu_limited_by_account && bool_decide (billing_timer_exception_code (cpu tc) = block_cpu_usage_exceeded) then
    EOS_ASSERT within billed_us objective ,, block_cpu_usage_exceeded ;; Ok ()
  else
    let graylisted := cpu_limit_due_to_greylist (cpu tc) && cpu_limited_by_account in
    let account_limit := if graylisted then account_cpu_limit else if cpu_limited_by_account then account_cpu_limit else objective in
    EOS_ASSERT within billed_us account_limit ,, (if graylisted then greylist_cpu_usage_exceeded else tx_cpu_usage_exceeded) ;; Ok ().

Definition validate_account_cpu_usage c tc (billed_us account_cpu_limit : Z) : result () :=
  if (0 <? billed_us) && negb (skip_trx_checks c) then validate_account_cpu Z.leb tc billed_us account_cpu_limit else Ok ().

Definition validate_account_cpu_usage_estimate c tc (prev_billed_us account_cpu_limit : Z) : result () :=
  if (0 <=? prev_billed_us) && negb (skip_trx_checks c) then validate_account_cpu Z.ltb tc prev_billed_us account_cpu_limit else Ok ().

Definition validate_cpu_usage_to_bill c tc (billed_us account_cpu_limit : Z) (check_minimum : bool) : result () :=
  if negb (skip_trx_checks c) then
    EOS_ASSERT negb check_minimum || (min_transaction_cpu_usage (trx_config c) <=? billed_us) ,, transaction_exception ;;
    validate_account_cpu_usage c tc billed_us account_cpu_limit
  else Ok ().

(** The time billed, when the transaction ends at [now]. *)
Definition update_billed_cpu_time c tc (now : Z) : transaction_context :=
  if explicit_billed_cpu_time (args tc) then tc
  else with_cpu tc (with_billed (cpu tc) (Z.max (now - pseudo_start (cpu tc)) (min_transaction_cpu_usage (trx_config c)))).

(** ** What the accounts can pay *)

Record bandwidth : Set := Bandwidth {
  account_net_limit : Z;
  account_cpu_limit : Z;
  greylisted_net : bool;
  greylisted_cpu : bool
}.

Definition large_number_no_overflow : Z := int64_max / 2.

Definition account_greylist_limit c (force_elastic_limits : bool) (a : account_name) : Z :=
  if negb force_elastic_limits && is_speculative_block c then
    (if bool_decide (a ∈ resource_greylist c) then 1 else greylist_limit c)
  else maximum_elastic_resource_multiplier.

Definition bandwidth_with c (force_elastic_limits : bool) (rl : resource_limits_manager) (b : bandwidth) (a : account_name) : result bandwidth :=
  let limit := account_greylist_limit c force_elastic_limits a in
  net ← get_account_net_limit rl a limit;
  let b := if 0 <=? net.1 then
             Bandwidth (Z.min (account_net_limit b) net.1) (account_cpu_limit b) (greylisted_net b || net.2) (greylisted_cpu b) else b in
  cpu ← get_account_cpu_limit rl a limit;
  Ok (if 0 <=? cpu.1 then
        Bandwidth (account_net_limit b) (Z.min (account_cpu_limit b) cpu.1) (greylisted_net b) (greylisted_cpu b || cpu.2) else b).

Definition accounts_can_pay c (force_elastic_limits : bool) (rl : resource_limits_manager) (l : list account_name) : result bandwidth :=
  b ← foldM (bandwidth_with c force_elastic_limits rl) (Bandwidth large_number_no_overflow large_number_no_overflow false false) l;
  EOS_ASSERT (negb force_elastic_limits && is_speculative_block c) || (negb (greylisted_cpu b) && negb (greylisted_net b)) ,, transaction_exception ;;
  Ok b.

Definition max_bandwidth_billed_accounts_can_pay c tc (force_elastic_limits : bool) : result bandwidth :=
  accounts_can_pay c force_elastic_limits (resource_limits tc) (bill_to_accounts tc).

(** ** The beginning of a transaction *)

Definition far_future_time (start : Z) : Z := start + 7 * 52 * 24 * 3600 * 1000000.

(** The limits of the block, the chain's configuration and the header
    ([init], up to the accounts). *)
Definition init_limits c tc : transaction_context :=
  let cfg := trx_config c in
  let start := start (args tc) in
  let ro := is_read_only (type_of tc) in
  let deadline_of_block := if block_deadline (cpu tc) =? time_maximum then far_future_time start else block_deadline (cpu tc) in
  let limit := get_block_net_limit (resource_limits tc) in
  let objective := if ro && negb (is_write_window c) then deadline_of_block - start
                   else int64_of (get_block_cpu_limit (resource_limits tc)) in
  let n := with_net_limit (net tc) limit (net_limit_due_to_block (net tc)) in
  let p := with_objective (with_block_deadline (cpu tc) deadline_of_block) objective (billing_timer_exception_code (cpu tc)) in
  let n := if (max_transaction_net_usage cfg <=? net_limit n) && negb ro then with_net_limit n (max_transaction_net_usage cfg) false else n in
  let p := if (max_transaction_cpu_usage cfg <=? objective_duration_limit p) && negb ro then
             with_objective p (max_transaction_cpu_usage cfg) tx_cpu_usage_exceeded else p in
  let trx_specified_net_usage_limit := max_net_usage_words (trx_of tc) * 8 in
  let n := if (0 <? trx_specified_net_usage_limit) && (trx_specified_net_usage_limit <=? net_limit n) then
             with_net_limit n trx_specified_net_usage_limit false else n in
  let trx_specified_cpu_usage_limit := max_cpu_usage_ms (trx_of tc) * 1000 in
  let p := if (0 <? max_cpu_usage_ms (trx_of tc)) && (trx_specified_cpu_usage_limit <=? objective_duration_limit p) then
             with_objective p trx_specified_cpu_usage_limit tx_cpu_usage_exceeded else p in
  let p := with_deadline p (start + objective_duration_limit p) (billing_timer_exception_code p) in
  with_cpu (with_net tc n) p.

(** Who is billed *)
Definition accounts_to_bill c tc : list account_name :=
  if only_bill_first_authorizer c then flat_set_insert (first_authorizer (trx_of tc)) (bill_to_accounts tc)
  else foldl (fun l auth => flat_set_insert (actor auth) l) (bill_to_accounts tc) (concat (map act_authorization (actions (trx_of tc)))).

Definition empty_bandwidth : bandwidth := Bandwidth 0 0 false false.

Definition init_accounts c tc : result (transaction_context * bandwidth) :=
  if is_read_only (type_of tc) then Ok (tc, empty_bandwidth)
  else
    _ ← (if explicit_billed_cpu_time (args tc) then
           validate_cpu_usage_to_bill c tc (billed_cpu_time_us (cpu tc)) int64_max false
         else Ok ());
    let tc := with_accounts_billed tc (accounts_to_bill c tc) in
    rl ← update_account_usage (resource_limits tc) (bill_to_accounts tc) (pending_slot c);
    let tc := with_db tc (with_limits_db (db tc) rl) in
    b ← max_bandwidth_billed_accounts_can_pay c tc false;
    let tc := with_cpu (with_net tc (with_net_greylist (net tc) (greylisted_net b))) (with_cpu_greylist (cpu tc) (greylisted_cpu b)) in
    Ok (tc, b).

(** The limits that are checked while the transaction runs *)
Definition init_eager_limits c tc (b : bandwidth) : transaction_context :=
  let start := start (args tc) in
  let ro := is_read_only (type_of tc) in
  let n := with_eager (net tc) (net_limit (net tc)) (net_limit_due_to_block (net tc)) in
  let p := cpu tc in
  let new_eager_net_limit := Z.min (eager_net_limit n) (wrap64 (account_net_limit b + net_usage_leeway (trx_config c))) in
  let n := if negb ro && (new_eager_net_limit <? eager_net_limit n) then with_eager n new_eager_net_limit false else n in
  let p := if negb ro && (account_cpu_limit b + leeway (args tc) <=? deadline p - start) then
             with_deadline p (start + account_cpu_limit b + leeway (args tc)) leeway_deadline_exception else p in
  let max_time := max_transaction_time_subjective (args tc) in
  let p := if negb (max_time =? time_maximum) && (start + max_time <=? deadline p) then
             with_deadline p (start + max_time) tx_cpu_usage_exceeded else p in
  let p := if block_deadline p <? deadline p then with_deadline p (block_deadline p) deadline_exception else p in
  with_cpu (with_net tc n) p.

(** What the node holds against the accounts for transactions that failed *)
Definition init_subjective_limits c tc (b : bandwidth) : result transaction_context :=
  if negb (is_read_only (type_of tc)) && negb (explicit_billed_cpu_time (args tc)) then
    let start := start (args tc) in
    let subjective := subjective_cpu_bill_us (args tc) in
    let limit := account_cpu_limit b - subjective + leeway (args tc) in
    let p := cpu tc in
    let tc := if (0 <? subjective) && (start + limit <? deadline p) then
                with_cpu tc (with_deadline p (start + limit) tx_cpu_usage_exceeded) else tc in
    let limit := if 0 <? limit then limit - EOS_PERCENT limit (10 * 100) else limit in
    let limit := if limit <? 0 then 0 else limit in
    _ ← validate_account_cpu_usage_estimate c tc (billed_cpu_time_us (cpu tc)) limit; Ok tc
  else Ok tc.

(** The timer starts, and the first use is checked. *)
Definition init_timer c tc (initial_net_usage : Z) : result transaction_context :=
  let p := cpu tc in
  let p := if explicit_billed_cpu_time (args tc) then with_deadline_code p (block_deadline p) deadline_exception
           else with_deadline_code p (deadline p) (billing_timer_exception_code p) in
  let n := with_eager (net tc) (eager_net_limit (net tc) / 8 * 8) (net_limit_due_to_block (net tc)) in
  let tc := with_cpu (with_net tc n) p in
  tc ← (if 0 <? initial_net_usage then add_net_usage c tc initial_net_usage else Ok tc);
  let p := cpu tc in
  let tc := if skip_trx_checks c then with_cpu tc (with_deadline_code p (block_deadline p) (deadline_exception_code p)) else tc in
  tc ← checktime tc;
  Ok (initialized tc).

Definition init c tc (initial_net_usage : Z) : result transaction_context :=
  EOS_ASSERT negb (is_initialized tc) ,, transaction_exception ;;
  let n := net tc in
  let tc := with_net tc (NetBudget (trace_net_usage n) initial_net_usage (net_limit n) (eager_net_limit n)
              (net_limit_due_to_block n) (net_limit_due_to_greylist n)) in
  r ← init_accounts c (init_limits c tc);
  tc ← init_subjective_limits c (init_eager_limits c r.1 r.2) r.2;
  init_timer c tc initial_net_usage.

Definition disallow_transaction_extensions {A} c : result A :=
  Throw (if is_speculative_block c then subjective_block_production_exception else disallowed_transaction_extensions_bad_block_exception).

Definition init_for_implicit_trx c tc : result transaction_context :=
  if 0 <? size_of (transaction_extensions (trx_of tc)) then disallow_transaction_extensions c
  else init c tc 0.

Definition record_transaction tc (id : sha256) (expire : Z) : result transaction_context :=
  let s := db tc in
  EOS_ASSERT bool_decide (transactions s !! id = None) ,, tx_duplicate ;;
  Ok (with_db tc (ChainState (tables s) (<[id := expire]> (transactions s)) (block_summaries s))).

(** The accounts and permissions that a transaction names *)
Definition validate_authorization tc (l : list account_name) (enforce : bool) (auth : permission_level) : result (list account_name) :=
  EOS_ASSERT bool_decide (is_Some (accounts (tables (db tc)) !! actor auth)) ,, transaction_exception ;;
  p ← find_permission (tables (db tc)) auth;
  EOS_ASSERT bool_decide (is_Some p) ,, transaction_exception ;;
  Ok (if enforce then flat_set_insert (actor auth) l else l).

Definition validate_action tc (enforce : bool) (acc : bool * list account_name) (a : action) : result (bool * list account_name) :=
  EOS_ASSERT bool_decide (is_Some (accounts (tables (db tc)) !! act_account a)) ,, transaction_exception ;;
  EOS_ASSERT negb (is_read_only (type_of tc)) || (size_of (act_authorization a) =? 0) ,, transaction_exception ;;
  l ← foldM (fun l auth => validate_authorization tc l enforce auth) acc.2 (act_authorization a);
  Ok (acc.1 || (0 <? size_of (act_authorization a)), l).

Definition validate_referenced_accounts c tc (t : transaction) (enforce_actor_whitelist_blacklist : bool) : result () :=
  _ ← (if negb (size_of (context_free_actions t) =? 0) && negb (skip_trx_checks c) then
         foldM (fun (_ : ()) a =>
           EOS_ASSERT bool_decide (is_Some (accounts (tables (db tc)) !! act_account a)) ,, transaction_exception ;;
           EOS_ASSERT size_of (act_authorization a) =? 0 ,, transaction_exception ;; Ok ()) () (context_free_actions t)
       else Ok ());
  r ← foldM (validate_action tc enforce_actor_whitelist_blacklist) (false, []) (actions t);
  EOS_ASSERT r.1 || is_read_only (type_of tc) ,, tx_no_auths ;;
  if enforce_actor_whitelist_blacklist then check_actor_list c r.2 else Ok ().

(** The network usage that an input transaction begins with *)
Definition discounted_size c (prunable_size : Z) : Z :=
  let cfg := trx_config c in
  let num := context_free_discount_net_usage_num cfg in let den := context_free_discount_net_usage_den cfg in
  if (0 <? den) && (num <? den) then wrap64 (prunable_size * num + den - 1) / den else prunable_size.

Definition initial_net_usage c (t : transaction) (unprunable_size prunable_size : Z) : Z :=
  let base := base_per_transaction_net_usage (trx_config c) in
  let usage := wrap64 (base + unprunable_size + discounted_size c prunable_size) in
  if 0 <? delay_sec t then wrap64 (usage + base + transaction_id_net_usage) else usage.

Definition init_for_input_trx c tc (packed_trx_unprunable_size packed_trx_prunable_size : Z) : result transaction_context :=
  let t := trx_of tc in
  EOS_ASSERT negb (disable_deferred_trxs_stage_1 c || is_transient (type_of tc)) || (delay_sec t =? 0) ,, transaction_exception ;;
  if 0 <? size_of (transaction_extensions t) then disallow_transaction_extensions c
  else
    let tc := with_input tc in
    _ ← (if negb (skip_trx_checks c) then
           _ ← (if negb (is_read_only (type_of tc)) then _ ← validate_expiration c t; validate_tapos (db tc) t else Ok ());
           validate_referenced_accounts c tc t (enforce_whiteblacklist (args tc) && is_speculative_block c)
         else Ok ());
    tc ← init c tc (initial_net_usage c t packed_trx_unprunable_size packed_trx_prunable_size);
    if negb (is_read_only (type_of tc)) then record_transaction tc (trx_id (packed_of tc)) (expiration t) else Ok tc.

(** ** The actions *)

(** What the virtual machine does with the actions, as far as the transaction
    and the database are concerned: the calls it makes, which may depend on what
    it reads from the database.  [defers_transaction] is what
    [schedule_deferred_transaction] charges for the network, [changes] any other
    change of the tables; resource limits change by the calls for them only. *)
Inductive execution : Type :=
| finished
| fails (e : exn)
| defers_transaction (next : execution)
| uses_ram (account : account_name) (ram_delta : Z) (next : execution)
| checks_time (next : execution)
| instantiates_module (next : execution)
| sets_resource_limits (account : account_name) (ram_bytes net_weight cpu_weight : Z) (next : execution)
| creates_account (account : account_name) (next : execution)
| changes (f : database -> database) (next : execution)
| reads (next : database -> execution).

Record behaviour : Type := Behaviour { context_free : execution; authorized : execution }.

Definition add_ram_usage tc (account : account_name) (ram_delta : Z) : result transaction_context :=
  rl ← add_pending_ram_usage (resource_limits tc) account ram_delta;
  let tc := with_db tc (with_limits_db (db tc) rl) in
  Ok (if 0 <? ram_delta then with_ram_accounts tc (flat_set_insert account (validate_ram_usage tc)) else tc).

(** An argument that is an [int64_t] *)
Definition int64_arg (z : Z) : Z := int64_of (wrap64 z).

(** The host function [set_resource_limits] *)
Definition set_resource_limits tc (account : account_name) (ram_bytes net_weight cpu_weight : Z) : result transaction_context :=
  EOS_ASSERT negb (is_read_only (type_of tc)) ,, wasm_execution_error ;;
  EOS_ASSERT -1 <=? ram_bytes ,, wasm_execution_error ;;
  EOS_ASSERT -1 <=? net_weight ,, wasm_execution_error ;;
  EOS_ASSERT -1 <=? cpu_weight ,, wasm_execution_error ;;
  r ← set_account_limits (resource_limits tc) account ram_bytes net_weight cpu_weight;
  let tc := with_db tc (with_limits_db (db tc) r.2) in
  Ok (if r.1 : bool then with_ram_accounts tc (flat_set_insert account (validate_ram_usage tc)) else tc).

(** [wasm_interface_impl::apply]: only a validator, which can start again, lets
    the compilation of a contract interrupt it. *)
Definition allow_oc_interrupt c tc : bool :=
  explicit_billed_cpu_time (args tc) && has_undo c tc && negb (is_implicit (type_of tc)) && negb (is_scheduled (type_of tc)).

Definition wasm_checktime c tc : result transaction_context :=
  match checktime tc with
  | Throw interrupt_exception =>
      Throw (if allow_oc_interrupt c tc && oc_compile_interrupt (next_look tc) then interrupt_oc_exception else interrupt_exception)
  | r => r
  end.

(** What a delayed transaction pays ahead, where it is deferred. *)
Definition retirement_net_usage c : Z := base_per_transaction_net_usage (trx_config c) + transaction_id_net_usage.

(** Only [wasm_interface_impl::apply] throws [interrupt_oc_exception]. *)
Fixpoint execute c (x : execution) tc : result transaction_context :=
  match x with
  | finished => Ok tc
  | fails e => Throw (if bool_decide (e = interrupt_oc_exception) then wasm_execution_error else e)
  | defers_transaction next => tc ← add_net_usage c tc (retirement_net_usage c); execute c next tc
  | uses_ram account ram_delta next => tc ← add_ram_usage tc account ram_delta; execute c next tc
  | checks_time next => tc ← wasm_checktime c tc; execute c next tc
  | instantiates_module next => execute c next (resume_billing_timer (pause_billing_timer tc) 0)
  | sets_resource_limits account ram_bytes net_weight cpu_weight next =>
      tc ← set_resource_limits tc account (int64_arg ram_bytes) (int64_arg net_weight) (int64_arg cpu_weight); execute c next tc
  | creates_account account next =>
      rl ← initialize_account (resource_limits tc) account; execute c next (with_db tc (with_limits_db (db tc) rl))
  | changes f next =>
      let tables := tables (db tc) in
      execute c next (with_db tc (with_tables (db tc) (with_resource_limits (f tables) (limits_db tables))))
  | reads next => execute c (next (tables (db tc))) tc
  end.

Definition generated_transaction_billable_size : Z := billable_size_v (96 + 4 + overhead_per_row_per_index_ram_bytes * 5).

(** A delayed transaction has no sender; its sender id is half of its id. *)
Definition schedule_transaction c tc : result transaction_context :=
  let t := trx_of tc in let id := trx_id (packed_of tc) in let d := tables (db tc) in
  tc ← (if delay_sec t =? 0 then
          add_net_usage c tc (retirement_net_usage c) else Ok tc);
  let published := pending_block_time (auth_context c) in
  let same (g : generated_transaction_object) :=
    bool_decide (gto_trx_id g = id) ||
    ((gto_sender g =? 0) && (hash2 (gto_trx_id g) =? hash2 id) && (hash3 (gto_trx_id g) =? hash3 id)) in
  r ← table_create (generated_transactions d)
        (fun _ => GeneratedTransactionObject id 0 (published + delay tc) published (map act_authorization (actions t)))
        (bool_decide (table_find same (generated_transactions d) = None));
  let d := Database (permissions d) (permission_usages d) (permission_links d) (accounts d) (account_privileged d) r.2 (limits_db d) in
  add_ram_usage (with_db tc (with_tables (db tc) d)) (first_authorizer t) (generated_transaction_billable_size + trx_pack_size (packed_of tc)).

(** Context-free actions do nothing where checks are skipped ([exec_one]). *)
Definition run_actions c (b : behaviour) tc : result transaction_context :=
  tc ← (if skip_trx_checks c then Ok tc else execute c (context_free b) tc);
  if delay tc =? 0 then execute c (authorized b) tc else schedule_transaction c tc.

(** [undo], and the beginning again.  What the first attempt did to the timer of
    an explicitly billed transaction is not read any more. *)
Definition reset c tc : transaction_context :=
  let s := undone tc in
  let tc := TransactionContext (args tc) s (start_session c (type_of tc) s) (with_net_usage (net tc) (init_net_usage (net tc))) (cpu tc)
    (bill_to_accounts tc) [] (delay tc) (is_input tc) (is_initialized tc) (S (attempt tc)) 0 in
  resume_billing_timer tc (start (args tc)).

Definition exec c (b : behaviour) tc : result transaction_context :=
  EOS_ASSERT is_initialized tc ,, transaction_exception ;;
  match run_actions c b tc with
  | Throw interrupt_oc_exception => run_actions c b (reset c tc)
  | r => r
  end.

(** ** The end of a transaction *)

Definition round_net_usage (usage : Z) : Z := wrap64 (usage + 7) / 8 * 8.

(** The permissions that an input transaction declares are used. *)
Definition use_permissions c (d : database) (t : transaction) : result database :=
  foldM (fun d auth => p ← get_permission d auth; update_permission_usage d (auth_context c) p) d (concat (map act_authorization (actions t))).

Definition update_permission_usages c tc : result transaction_context :=
  d ← use_permissions c (tables (db tc)) (trx_of tc); Ok (with_db tc (with_tables (db tc) d)).

(** The limits are lowered to what the accounts can pay now. *)
Definition final_limits tc (b : bandwidth) : transaction_context :=
  let n := with_net_greylist (net tc) (greylisted_net b) in
  let p := with_cpu_greylist (cpu tc) (greylisted_cpu b) in
  let n := if wrap64 (account_net_limit b) <=? net_limit n then with_net_limit n (wrap64 (account_net_limit b)) false else n in
  let p := if account_cpu_limit b <=? objective_duration_limit p then with_objective p (account_cpu_limit b) tx_cpu_usage_exceeded else p in
  let n := with_eager (with_net_usage n (round_net_usage (trace_net_usage n))) (net_limit n) (net_limit_due_to_block n) in
  with_cpu (with_net tc n) p.

(** Everything [finalize] checks before it bills *)
Definition finalize_checks c tc : result transaction_context :=
  tc ← (if is_input tc then update_permission_usages c tc else Ok tc);
  _ ← foldM (fun (_ : ()) a => verify_account_ram_usage (resource_limits tc) a) () (validate_ram_usage tc);
  b ← max_bandwidth_billed_accounts_can_pay c tc false;
  let tc := final_limits tc b in
  _ ← check_net_usage c tc;
  let now := now (next_look tc) in
  let tc := update_billed_cpu_time c (looked tc) now in
  _ ← validate_cpu_usage_to_bill c tc (billed_cpu_time_us (cpu tc)) (account_cpu_limit b) true;
  Ok tc.

Definition bill_transaction c tc : result transaction_context :=
  rl ← add_transaction_usage (resource_limits tc) (bill_to_accounts tc) (wrap64 (billed_cpu_time_us (cpu tc))) (trace_net_usage (net tc)) (pending_slot c);
  Ok (with_db tc (with_limits_db (db tc) rl)).

Definition finalize c tc : result transaction_context :=
  EOS_ASSERT is_initialized tc ,, transaction_exception ;;
  if is_read_only (type_of tc) then Ok (with_net tc (with_net_usage (net tc) (round_net_usage (trace_net_usage (net tc)))))
  else tc ← finalize_checks c tc; bill_transaction c tc.

(** ** [controller_impl::push_transaction] *)

(** The arguments, and what the clock shows. *)
Record push_arguments : Type := PushArguments {
  push_block_deadline : Z;
  push_max_transaction_time : Z;
  push_billed_cpu_time_us : Z;
  push_explicit_billed_cpu_time : bool;
  push_subjective_cpu_bill_us : Z;
  push_now : Z;
  push_clock : nat -> nat -> look
}.

Definition default_subjective_cpu_leeway_us : Z := 31000.

Definition push_start c (m : transaction_metadata) (a : push_arguments) : Z :=
  if push_explicit_billed_cpu_time a then push_now a
  else
    let already_consumed_time := EOS_PERCENT (sig_cpu_usage m) (sig_cpu_bill_pct c) in
    if push_now a <? already_consumed_time then 0 else push_now a - already_consumed_time.

Definition push_context c (m : transaction_metadata) (a : push_arguments) (s : chain_state) : transaction_context :=
  let leeway := if is_speculative_block c then default default_subjective_cpu_leeway_us (subjective_cpu_leeway c)
                else default_subjective_cpu_leeway_us in
  make_transaction_context c
    (TrxArguments m (push_start c m a) leeway (push_max_transaction_time a) (push_explicit_billed_cpu_time a)
       (push_subjective_cpu_bill_us a) true (push_clock a))
    (push_block_deadline a) (push_billed_cpu_time_us a) s.

(** The transaction up to its actions *)
Definition admit_transaction c (m : transaction_metadata) (a : push_arguments) (s : chain_state) : result transaction_context :=
  let pt := packed_trx m in let t := unpacked_trx pt in
  let tc := push_context c m a s in
  tc ← (if is_implicit (meta_type m) then init_for_implicit_trx c tc
        else unprunable ← get_unprunable_size pt; prunable ← get_prunable_size pt; init_for_input_trx c tc unprunable prunable);
  let tc := with_delay tc (delay_sec t * 1000000) in
  _ ← (if negb (skip_auth_check c) && negb (is_implicit (meta_type m)) && negb (is_read_only (meta_type m)) then
         check_authorization (tables (db tc)) (auth_context c) (actions t) (recovered_keys m) [] (delay tc) false (is_dry_run (meta_type m)) []
       else Ok ());
  Ok tc.

Definition run_transaction c (b : behaviour) (m : transaction_metadata) (a : push_arguments) (s : chain_state) : result transaction_context :=
  tc ← admit_transaction c m a s;
  tc ← exec c b tc;
  finalize c tc.

Record transaction_trace : Set := TransactionTrace {
  trace_receipt : option transaction_receipt_header;
  trace_except : option exn
}.

Definition push_receipt (receipts : list transaction_receipt) (pt : packed_transaction) (status : status_enum) (cpu_usage_us net_usage : Z) :
    result (transaction_receipt_header * list transaction_receipt) :=
  let words := net_usage / 8 in
  EOS_ASSERT words * 8 =? net_usage ,, transaction_exception ;;
  let h := TransactionReceiptHeader status (wrap32 cpu_usage_us) (wrap32 words) in
  Ok (h, receipts ++ [TransactionReceipt h pt]).

(** The receipts are those of the pending block. *)
Definition pending : Type := chain_state * list transaction_receipt.

(** What is left when the transaction has run *)
Definition push_result c (m : transaction_metadata) (tc : transaction_context) (p : pending) : result (transaction_trace * pending) :=
  let billed := billed_cpu_time_us (cpu tc) in
  r ← (if negb (is_implicit (meta_type m)) && negb (is_read_only (meta_type m)) then
         push_receipt p.2 (packed_trx m) (if delay tc =? 0 then executed else delayed) billed (trace_net_usage (net tc))
       else
         Ok (if is_read_only (meta_type m) then TransactionReceiptHeader executed 0 0
             else TransactionReceiptHeader executed (wrap32 billed) (wrap32 (trace_net_usage (net tc) / 8)), p.2));
  let trace := TransactionTrace (Some r.1) None in
  Ok (trace,
      if is_transient (meta_type m) then (undone tc, p.2)
      else if negb (read_mode_speculative c) && bool_decide (pending_block_status c = ephemeral) then (undone tc, r.2)
      else (db tc, r.2)).

(** Those that a block cannot survive *)
Definition is_bad_block_exception (e : exn) : bool :=
  bool_decide (e = disallowed_transaction_extensions_bad_block_exception) || bool_decide (e = protocol_feature_bad_block_exception).

(** The session of a transaction that throws is undone when its context is
    destroyed; without sessions the block fails with the transaction. *)
Definition push_transaction c (b : behaviour) (m : transaction_metadata) (a : push_arguments) (p : pending) : result (transaction_trace * pending) :=
  EOS_ASSERT negb (push_block_deadline a =? 0) ,, transaction_exception ;;
  match (tc ← run_transaction c b m a p.1; push_result c m tc p) with
  | Ok r => Ok r
  | Throw e => if is_bad_block_exception e then Throw e else Ok (TransactionTrace None (Some e), p)
  end.

(** ** The transactions of a block ([apply_block]) *)

Section Blocks.
(** What contracts do with a transaction, and the keys that signed it *)
Context (behaves : packed_transaction -> behaviour) (recover_keys : packed_transaction -> list public_key_type).

(** What the clock shows to a validator *)
Definition apply_arguments (billed_cpu_time_us now : Z) (clock : nat -> nat -> look) : push_arguments :=
  PushArguments time_maximum time_maximum billed_cpu_time_us true 0 now clock.

Definition apply_transaction c (now : nat -> Z) (clock : nat -> nat -> nat -> look) (p : pending) (r : transaction_receipt) : result pending :=
  let i := length p.2 in
  let m := TransactionMetadata (receipt_trx r) 0 (recover_keys (receipt_trx r)) input in
  t ← push_transaction c (behaves (receipt_trx r)) m (apply_arguments (cpu_usage_us (receipt_header r)) (now i) (clock i)) p;
  match trace_except t.1 with
  | Some e => Throw e
  | None =>
      EOS_ASSERT 0 <? size_of t.2.2 ,, block_validate_exception ;;
      EOS_ASSERT size_of t.2.2 =? size_of p.2 + 1 ,, block_validate_exception ;;
      last ← get_row (last t.2.2);
      EOS_ASSERT bool_decide (receipt_header last = receipt_header r) ,, block_validate_exception ;;
      Ok t.2
  end.

Definition apply_transactions c now clock (s : chain_state) (receipts : list transaction_receipt) : result pending :=
  foldM (apply_transaction c now clock) (s, []) receipts.
End Blocks.
