(* ===== verification/TransactionRun.v ===== *)
(** * What a transaction keeps while it runs

    No code of its own: what the operations of [TransactionContext] leave alone,
    and that the resource limits go through operations of [ResourceLimits]. *)

From S2P Require Import Prelude ChainTypes ResourceLimits Authority Authorization Permissions TransactionContext.
Open Scope Z_scope.

Implicit Types (c : controller) (tc : transaction_context) (rl : resource_limits_manager).

(** ** Resource limits *)

(** From one transaction's step to the next *)
Record limits_kept rl rl' : Prop := {
  lk_run : limits_run rl -> limits_run rl';
  lk_state : ResourceLimits.state rl' = ResourceLimits.state rl;
  lk_config : config rl' = config rl;
  lk_slot : forall slot a, at_slot rl slot a -> at_slot rl' slot a
}.

#[export] Instance limits_kept_preorder : PreOrder limits_kept.
Proof.
  split; [by intros rl|]. intros rl1 rl2 rl3 [R1 S1 C1 L1] [R2 S2 C2 L2].
  split; [auto|by rewrite S2|by rewrite C2|auto].
Qed.

Lemma int64_arg_max z : int64_arg z <= int64_max.
Proof.
  unfold int64_arg, int64_of. pose proof (wrap64_u64 z). destruct (Z.leb_spec (wrap64 z) int64_max); unfold int64_max in *; width.
Qed.

Lemma at_slot_usage rl a u u' slot b : usages rl !! a = Some u -> last_ordinal (net_usage u') = last_ordinal (net_usage u) ->
  last_ordinal (cpu_usage u') = last_ordinal (cpu_usage u) -> at_slot rl slot b -> at_slot (with_usage rl a u') slot b.
Proof.
  intros Hu En Ec (v & Hv & Hn & Hc). unfold at_slot. cbn. destruct (decide (a = b)) as [->|].
  - rewrite Hu in Hv. injection Hv as <-. exists u'. by rewrite lookup_insert_eq, En, Ec.
  - exists v. by rewrite lookup_insert_ne.
Qed.

Lemma add_pending_ram_kept rl a d rl' : add_pending_ram_usage rl a d = Ok rl' -> limits_kept rl rl'.
Proof.
  intros H. split; [intros R; by eapply run_ram|..]; revert H; unfold add_pending_ram_usage; destruct (d =? 0); intros H; inv_result; try done.
  intros slot b Hb. apply get_row_Ok in E. by eapply at_slot_usage.
Qed.

Lemma set_account_limits_kept rl a ram net cpu d rl' : ram <= int64_max -> net <= int64_max -> cpu <= int64_max ->
  set_account_limits rl a ram net cpu = Ok (d, rl') -> limits_kept rl rl'.
Proof.
  intros H1 H2 H3 H. split; [intros R; by eapply (run_set _ _ _ _ _ _ _ R H1 H2 H3 H)|..]; revert H; unfold set_account_limits; intros H; by inv_result.
Qed.

Lemma initialize_account_kept rl a rl' : initialize_account rl a = Ok rl' -> limits_kept rl rl'.
Proof.
  intros H. split; [intros R; by eapply run_account|..]; revert H; unfold initialize_account; intros H; inv_result; try done.
  intros slot b (u & Hu & Hn). apply bool_decide_eq_true in E0. exists u. split; [|done].
  cbn in *. rewrite lookup_insert_ne; [done|]. intros ->. by rewrite E0 in Hu.
Qed.

Lemma add_usage_slot u units slot w u' : add_usage u units slot w = Ok u' -> last_ordinal u' = slot.
Proof.
  unfold add_usage. intros H. inv_result. destruct (decide (last_ordinal u = slot)); inv_result; done.
Qed.

Lemma update_account_usage_kept rl accounts slot rl' : update_account_usage rl accounts slot = Ok rl' ->
  (limits_run rl -> limits_run rl') /\ ResourceLimits.state rl' = ResourceLimits.state rl /\ config rl' = config rl /\
  (forall a, at_slot rl slot a \/ a ∈ accounts -> at_slot rl' slot a).
Proof.
  intros H. split; [intros R; by eapply run_update|]. unfold update_account_usage in H. revert rl H.
  induction accounts as [|b accounts IH]; intros rl H; cbn in H.
  - inv_result. split_and!; [done..|]. intros a [?|?%elem_of_nil]; done.
  - apply bind_Ok in H as (rl1 & E & H). destruct (IH _ H) as (Es & Ec & Ha). inv_result. apply get_row_Ok in E0.
    rewrite Es, Ec. split_and!; [done..|].
    unfold add_account_usage in *. inv_result. apply add_usage_slot in E, E2.
    assert (Hb : at_slot (with_usage rl b (ResourceUsageObject x1 x2 (ram_usage x))) slot b) by (eexists; cbn; by rewrite lookup_insert_eq).
    intros a [Hs|Hin]; [|apply elem_of_cons in Hin as [->|Hin]; [|apply Ha; by right]]; apply Ha; left; [|done].
    destruct (decide (a = b)) as [->|]; [done|]. by apply other_account.
Qed.

(** ** Running the actions *)

(** The steps of an execution *)
Inductive step c tc : transaction_context -> Prop :=
| step_net tc' : add_net_usage c tc (retirement_net_usage c) = Ok tc' -> step c tc tc'
| step_ram account ram_delta tc' : add_ram_usage tc account ram_delta = Ok tc' -> step c tc tc'
| step_check tc' : wasm_checktime c tc = Ok tc' -> step c tc tc'
| step_module : step c tc (resume_billing_timer (pause_billing_timer tc) 0)
| step_limits account ram_bytes net_weight cpu_weight tc' :
    set_resource_limits tc account (int64_arg ram_bytes) (int64_arg net_weight) (int64_arg cpu_weight) = Ok tc' -> step c tc tc'
| step_account account rl : initialize_account (resource_limits tc) account = Ok rl -> step c tc (with_db tc (with_limits_db (db tc) rl))
| step_tables d : limits_db d = resource_limits tc -> step c tc (with_db tc (with_tables (db tc) d)).

Section Reachable.
Context (c : controller) (P : transaction_context -> Prop) (HP : forall tc tc', P tc -> step c tc tc' -> P tc').

Lemma execute_reaches x : forall tc tc', P tc -> execute c x tc = Ok tc' -> P tc'.
Proof.
  induction x; intros tc tc' Htc E; cbn [execute] in E; inv_result; eauto using step.
  eapply IHx; [|exact E]. by eapply HP, step_tables.
Qed.

Lemma schedule_reaches tc tc' : P tc -> schedule_transaction c tc = Ok tc' -> P tc'.
Proof.
  intros H E. unfold schedule_transaction in E. apply bind_Ok in E as (tc1 & E1 & E).
  assert (H1 : P tc1 /\ limits_db (tables (db tc)) = resource_limits tc1).
  { destruct (delay_sec (trx_of tc) =? 0); [|by inv_result]. split; [by eauto using step|]. unfold add_net_usage in E1. by inv_result. }
  destruct H1 as [H1 Hl]. apply bind_Ok in E as (r & _ & E). eapply HP; [|by eapply step_ram].
  eapply HP; [exact H1|]. by apply step_tables.
Qed.

Lemma run_actions_reaches b tc tc' : P tc -> run_actions c b tc = Ok tc' -> P tc'.
Proof.
  intros H E. unfold run_actions in E. apply bind_Ok in E as (tc1 & E1 & E).
  assert (H1 : P tc1) by (destruct (skip_trx_checks c); [by inv_result|by eapply execute_reaches]).
  destruct (delay tc1 =? 0); [by eapply execute_reaches|by eapply schedule_reaches].
Qed.
End Reachable.

(** What no step changes *)
Record ran tc tc' : Prop := {
  rn_args : args tc' = args tc;
  rn_session : undo_session tc' = undo_session tc;
  rn_bill : bill_to_accounts tc' = bill_to_accounts tc;
  rn_delay : delay tc' = delay tc;
  rn_input : is_input tc' = is_input tc;
  rn_initialized : is_initialized tc' = is_initialized tc;
  rn_attempt : attempt tc' = attempt tc;
  rn_transactions : transactions (db tc') = transactions (db tc);
  rn_limits : limits_kept (resource_limits tc) (resource_limits tc');
  rn_net : net tc' = with_net_usage (net tc) (trace_net_usage (net tc'));
  rn_objective : objective_duration_limit (cpu tc') = objective_duration_limit (cpu tc);
  rn_code : billing_timer_exception_code (cpu tc') = billing_timer_exception_code (cpu tc);
  rn_billed : billed_cpu_time_us (cpu tc') = billed_cpu_time_us (cpu tc)
}.

#[export] Instance ran_preorder : PreOrder ran.
Proof.
  split; [intros tc; split; try done; by destruct (net tc)|]. intros tc1 tc2 tc3 [] [].
  split; try congruence; [by etransitivity|]. rewrite rn_net1, rn_net0. by destruct (net tc1), (net tc3).
Qed.

Lemma with_net_usage_id n : n = with_net_usage n (trace_net_usage n).
Proof. by destruct n. Qed.

Lemma ran_db tc s : transactions s = transactions (db tc) -> limits_kept (resource_limits tc) (limits_db (tables s)) -> ran tc (with_db tc s).
Proof. intros H1 H2. split; try done. apply with_net_usage_id. Qed.

Lemma ran_ram tc l : ran tc (with_ram_accounts tc l).
Proof. split; try done. apply with_net_usage_id. Qed.

Lemma add_net_usage_ran c tc u tc' : add_net_usage c tc u = Ok tc' -> ran tc tc'.
Proof. intros H. unfold add_net_usage in H. inv_result. by split. Qed.

Lemma resume_billing_timer_ran tc t : ran tc (resume_billing_timer tc t).
Proof.
  unfold resume_billing_timer.
  match goal with |- context [if ?b then with_deadline_code _ _ _ else _] => destruct b end; split; try done; apply with_net_usage_id.
Qed.

Lemma pause_billing_timer_ran tc : ran tc (pause_billing_timer tc).
Proof. split; try done. apply with_net_usage_id. Qed.

Lemma checktime_ran tc tc' : checktime tc = Ok tc' -> ran tc tc'.
Proof.
  unfold checktime. destruct (timer (next_look tc)); intros [= <-]. split; try done. apply with_net_usage_id.
Qed.

Lemma wasm_checktime_Ok c tc tc' : wasm_checktime c tc = Ok tc' <-> checktime tc = Ok tc'.
Proof. unfold wasm_checktime. destruct (checktime tc) as [|[]]; done. Qed.

Lemma step_ran c tc tc' : step c tc tc' -> ran tc tc'.
Proof.
  intros [tc1 H|a d tc1 H|tc1 H| |a ram n p tc1 H|a rl H|d H].
  - by eapply add_net_usage_ran.
  - unfold add_ram_usage in H. apply bind_Ok in H as (rl & E & H). apply add_pending_ram_kept in E. injection H as <-.
    etransitivity; [by apply (ran_db tc (with_limits_db (db tc) rl))|]. destruct (0 <? d); [apply ran_ram|done].
  - apply wasm_checktime_Ok in H. by apply checktime_ran.
  - etransitivity; [apply pause_billing_timer_ran|apply resume_billing_timer_ran].
  - unfold set_resource_limits in H. inv_result. destruct x as [decreased rl].
    apply set_account_limits_kept in E3; [|apply int64_arg_max..]. cbn.
    etransitivity; [by apply (ran_db tc (with_limits_db (db tc) rl))|]. destruct decreased; [apply ran_ram|done].
  - apply ran_db; [done|]. by eapply initialize_account_kept.
  - apply ran_db; [done|]. cbn. by rewrite H.
Qed.

Lemma run_actions_ran c b tc tc' : run_actions c b tc = Ok tc' -> ran tc tc'.
Proof.
  apply (run_actions_reaches c (ran tc)); [|done]. intros tc1 tc2 H Hs. etransitivity; [exact H|by eapply step_ran].
Qed.

(** ** Starting again *)

Lemma reset_ran c tc : attempt (reset c tc) = S (attempt tc) /\ db (reset c tc) = undone tc /\ args (reset c tc) = args tc /\
  bill_to_accounts (reset c tc) = bill_to_accounts tc.
Proof.
  unfold reset. match goal with |- context [resume_billing_timer ?x ?t] => destruct (resume_billing_timer_ran x t) as [-> _ -> _ _ _ -> _ _ _ _ _ _] end.
  by split_and!.
Qed.

Lemma exec_cases c b tc tc' : exec c b tc = Ok tc' ->
  (run_actions c b tc = Ok tc' /\ attempt tc' = attempt tc) \/
  (run_actions c b tc = Throw interrupt_oc_exception /\ run_actions c b (reset c tc) = Ok tc' /\ attempt tc' = S (attempt tc)).
Proof.
  unfold exec. intros H. inv_result. destruct (run_actions c b tc) as [tc1|e] eqn:E1.
  - injection H as ->. left. split; [done|]. by apply run_actions_ran in E1 as [].
  - destruct e; try done. right. split_and!; [done..|]. apply run_actions_ran in H as []. rewrite rn_attempt0. apply reset_ran.
Qed.

Lemma exec_once c b tc tc' : exec c b tc = Ok tc' -> attempt tc' = attempt tc -> run_actions c b tc = Ok tc'.
Proof. intros [[H _]|(_ & _ & H)]%exec_cases E; [done|lia]. Qed.

Lemma exec_args c b tc tc' : exec c b tc = Ok tc' -> args tc' = args tc.
Proof.
  intros [[H _]|(_ & H & _)]%exec_cases; apply run_actions_ran in H as []; [done|]. rewrite rn_args0. apply reset_ran.
Qed.

Lemma run_exec c b tc tc' : is_initialized tc = true -> run_actions c b tc = Ok tc' -> exec c b tc = Ok tc'.
Proof. unfold exec. by intros -> ->. Qed.

(** Only a transaction that is billed explicitly can be interrupted so. *)
Lemma bind_Throw {A B} (m : result A) (f : A -> result B) e : (m ≫= f) = Throw e -> m = Throw e \/ exists a, m = Ok a /\ f a = Throw e.
Proof. destruct m as [a|]; cbn; [intros H; right; by exists a|intros [= ->]; by left]. Qed.

Ltac inv_throw :=
  repeat match goal with
  | H : Ok _ = Throw _ |- _ => discriminate H
  | H : Throw _ = Throw _ |- _ => injection H as H
  | H : _ = interrupt_oc_exception |- _ => discriminate H
  | H : (if ?b then _ else _) = _ |- _ => destruct b eqn:?
  | H : mbind _ _ = Throw _ |- _ => apply bind_Throw in H as [H|(? & ? & H)]; cbn beta in H
  | H : get_row ?o = Throw _ |- _ => destruct o; cbn in H
  end.

Lemma add_net_usage_oc c tc u : add_net_usage c tc u <> Throw interrupt_oc_exception.
Proof. intros H. unfold add_net_usage, check_net_usage in H. by inv_throw. Qed.

Lemma add_ram_usage_oc tc a d : add_ram_usage tc a d <> Throw interrupt_oc_exception.
Proof. intros H. unfold add_ram_usage, add_pending_ram_usage in H. by inv_throw. Qed.

Lemma set_resource_limits_oc tc a ram n p : set_resource_limits tc a ram n p <> Throw interrupt_oc_exception.
Proof.
  intros H. unfold set_resource_limits, set_account_limits in H. inv_throw. destruct (limits _ !! _); [done|]. by inv_throw.
Qed.

Lemma checktime_oc tc : checktime tc <> Throw interrupt_oc_exception.
Proof.
  unfold checktime, timer_exception. destruct (timer (next_look tc)); intros H; inv_throw.
Qed.

(** The compilation of a contract interrupts it in its present attempt. *)
Definition oc_interrupted tc : Prop :=
  explicit_billed_cpu_time (args tc) = true /\ exists i, oc_compile_interrupt (trx_clock (args tc) (attempt tc) i) = true.

Lemma oc_interrupted_ran tc tc' : ran tc tc' -> oc_interrupted tc' -> oc_interrupted tc.
Proof. intros R. unfold oc_interrupted. by rewrite (rn_args _ _ R), (rn_attempt _ _ R). Qed.

Lemma wasm_checktime_oc c tc : wasm_checktime c tc = Throw interrupt_oc_exception -> oc_interrupted tc.
Proof.
  intros H. unfold wasm_checktime in H. pose proof (checktime_oc tc). destruct (checktime tc) as [|[]]; try done.
  unfold allow_oc_interrupt in H. unfold oc_interrupted. destruct (explicit_billed_cpu_time (args tc)); [|done]. split; [done|].
  exists (looks tc). fold (next_look tc). destruct (oc_compile_interrupt (next_look tc)); [done|]. by rewrite andb_false_r in H.
Qed.

Lemma execute_oc c x : forall tc, execute c x tc = Throw interrupt_oc_exception -> oc_interrupted tc.
Proof.
  induction x; intros tc E; cbn [execute] in E; [done|..].
  - case_bool_decide; [done|]. injection E as ->. done.
  - apply bind_Throw in E as [[]%add_net_usage_oc|(tc1 & H1 & E)]. eapply (oc_interrupted_ran tc tc1); [by eapply (step_ran c), step_net|by apply IHx].
  - apply bind_Throw in E as [[]%add_ram_usage_oc|(tc1 & H1 & E)]. eapply (oc_interrupted_ran tc tc1); [by eapply (step_ran c), step_ram|by apply IHx].
  - apply bind_Throw in E as [H%wasm_checktime_oc|(tc1 & H1 & E)]; [done|]. eapply (oc_interrupted_ran tc tc1); [by eapply (step_ran c), step_check|by apply IHx].
  - eapply oc_interrupted_ran; [apply (step_ran c), step_module|by apply IHx].
  - apply bind_Throw in E as [[]%set_resource_limits_oc|(tc1 & H1 & E)]. eapply (oc_interrupted_ran tc tc1); [by eapply (step_ran c), step_limits|by apply IHx].
  - apply bind_Throw in E as [H1|(rl & H1 & E)]; [unfold initialize_account in H1; inv_throw|by apply IHx in E].
  - by apply IHx in E.
  - eauto.
Qed.

Lemma run_actions_oc c b tc : run_actions c b tc = Throw interrupt_oc_exception -> oc_interrupted tc.
Proof.
  intros H. unfold run_actions in H. apply bind_Throw in H as [H|(tc1 & H1 & H)].
  - destruct (skip_trx_checks c); [done|by eapply execute_oc].
  - assert (R : ran tc tc1).
    { destruct (skip_trx_checks c); [by injection H1 as ->|]. eapply (execute_reaches c (ran tc)); [|done|exact H1].
      intros ? ? R Hs. etransitivity; [exact R|by eapply step_ran]. }
    apply (oc_interrupted_ran _ _ R). destruct (delay tc1 =? 0); [by eapply execute_oc|].
    unfold schedule_transaction in H. apply bind_Throw in H as [H|(tc2 & _ & H)].
    { destruct (delay_sec _ =? 0); [by apply add_net_usage_oc in H|done]. }
    apply bind_Throw in H as [H|(r & _ & []%add_ram_usage_oc)]. unfold table_create in H. inv_throw.
Qed.

Lemma exec_uninterrupted c b tc tc' : ~ oc_interrupted tc -> exec c b tc = Ok tc' -> run_actions c b tc = Ok tc' /\ attempt tc' = attempt tc.
Proof. intros H [?|(E%run_actions_oc & _)]%exec_cases; done. Qed.

(** ** The beginning *)

(** What is decided before the accounts are looked at *)
Lemma init_limits_net c tc : trace_net_usage (net (init_limits c tc)) = trace_net_usage (net tc).
Proof.
  unfold init_limits. cbn [net with_net with_cpu].
  repeat match goal with |- context [if ?b then with_net_limit _ _ _ else _] => destruct b end; done.
Qed.

Lemma init_limits_billed c tc : billed_cpu_time_us (cpu (init_limits c tc)) = billed_cpu_time_us (cpu tc).
Proof.
  unfold init_limits. cbn [cpu with_net with_cpu].
  repeat match goal with |- context [if ?b then with_objective _ _ _ else _] => destruct b end; done.
Qed.

(** What [init] leaves, for a transaction that can change the database: [rl] are
    the limits with usage as of now, [b] what the accounts can pay. *)
Record begun c tc (initial : Z) rl (b : bandwidth) tc' : Prop := {
  bg_limits : update_account_usage (resource_limits tc) (accounts_to_bill c tc) (pending_slot c) = Ok rl;
  bg_pay : accounts_can_pay c false rl (accounts_to_bill c tc) = Ok b;
  bg_db : db tc' = with_limits_db (db tc) rl;
  bg_bill : bill_to_accounts tc' = accounts_to_bill c tc;
  bg_ram : validate_ram_usage tc' = validate_ram_usage tc;
  bg_args : args tc' = args tc;
  bg_session : undo_session tc' = undo_session tc;
  bg_delay : delay tc' = delay tc;
  bg_input : is_input tc' = is_input tc;
  bg_initialized : is_initialized tc' = true;
  bg_attempt : attempt tc' = attempt tc;
  bg_init : init_net_usage (net tc') = initial;
  bg_net_limit : net_limit (net tc') = net_limit (net (init_limits c tc));
  bg_eager : eager_net_limit (net tc') =
    Z.min (net_limit (net (init_limits c tc))) (wrap64 (account_net_limit b + net_usage_leeway (trx_config c))) / 8 * 8;
  bg_usage : trace_net_usage (net tc') = if 0 <? initial then wrap64 (trace_net_usage (net tc) + initial) else trace_net_usage (net tc);
  bg_checked : skip_trx_checks c = false -> 0 < initial -> trace_net_usage (net tc') <= eager_net_limit (net tc');
  bg_objective : objective_duration_limit (cpu tc') = objective_duration_limit (cpu (init_limits c tc));
  bg_billed : billed_cpu_time_us (cpu tc') = billed_cpu_time_us (cpu tc)
}.

Lemma check_net_usage_Ok c tc : check_net_usage c tc = Ok () <-> (skip_trx_checks c = false -> trace_net_usage (net tc) <= eager_net_limit (net tc)).
Proof.
  unfold check_net_usage. destruct (skip_trx_checks c); cbn [negb andb]; [done|].
  destruct (Z.ltb_spec (eager_net_limit (net tc)) (trace_net_usage (net tc))); split; intros H'; try done. specialize (H' eq_refl). lia.
Qed.

Lemma add_net_usage_Ok c tc u tc' : add_net_usage c tc u = Ok tc' <->
  tc' = with_net tc (with_net_usage (net tc) (wrap64 (trace_net_usage (net tc) + u))) /\
  (skip_trx_checks c = false -> wrap64 (trace_net_usage (net tc) + u) <= eager_net_limit (net tc)).
Proof.
  unfold add_net_usage. rewrite bind_Ok_iff. split.
  - intros ([] & H & [= <-]). split; [done|]. exact (proj1 (check_net_usage_Ok _ _) H).
  - intros [-> H]. exists (). split; [|done]. by apply check_net_usage_Ok.
Qed.

(** The limits checked while it runs *)
Record eager_begun c tc (b : bandwidth) tc' : Prop := {
  eb_same : exists n p, tc' = with_cpu (with_net tc n) p;
  eb_eager : eager_net_limit (net tc') = Z.min (net_limit (net tc)) (wrap64 (account_net_limit b + net_usage_leeway (trx_config c)));
  eb_net_limit : net_limit (net tc') = net_limit (net tc);
  eb_usage : trace_net_usage (net tc') = trace_net_usage (net tc);
  eb_init : init_net_usage (net tc') = init_net_usage (net tc);
  eb_objective : objective_duration_limit (cpu tc') = objective_duration_limit (cpu tc);
  eb_billed : billed_cpu_time_us (cpu tc') = billed_cpu_time_us (cpu tc)
}.

Lemma init_eager_limits_spec c tc b : is_read_only (type_of tc) = false -> eager_begun c tc b (init_eager_limits c tc b).
Proof.
  intros Hr. unfold init_eager_limits. rewrite Hr. cbn [negb andb eager_net_limit with_eager].
  set (e := Z.min _ _). destruct (Z.ltb_spec e (net_limit (net tc))) as [Hlt|Hge];
    repeat match goal with |- context [if ?b then with_deadline _ _ _ else _] => destruct b end;
    split; try done; try (by do 2 eexists); cbn; unfold e in *; lia.
Qed.

Lemma init_subjective_limits_spec c tc b tc' : init_subjective_limits c tc b = Ok tc' ->
  exists p, tc' = with_cpu tc p /\ objective_duration_limit p = objective_duration_limit (cpu tc) /\ billed_cpu_time_us p = billed_cpu_time_us (cpu tc).
Proof.
  unfold init_subjective_limits. destruct (negb _ && negb _); intros H; inv_result.
  - match goal with |- context [if ?b then with_cpu _ _ else _] => destruct b end; [by eexists|]. exists (cpu tc). by destruct tc.
  - exists (cpu tc'). by destruct tc'.
Qed.

Lemma init_accounts_spec c tc tc' b : is_read_only (type_of tc) = false -> init_accounts c tc = Ok (tc', b) ->
  exists rl, update_account_usage (resource_limits tc) (accounts_to_bill c tc) (pending_slot c) = Ok rl /\
    accounts_can_pay c false rl (accounts_to_bill c tc) = Ok b /\
    tc' = with_cpu (with_net (with_db (with_accounts_billed tc (accounts_to_bill c tc)) (with_limits_db (db tc) rl))
      (with_net_greylist (net tc) (greylisted_net b))) (with_cpu_greylist (cpu tc) (greylisted_cpu b)).
Proof.
  intros Hr H. unfold init_accounts in H. rewrite Hr in H. apply bind_Ok in H as ([] & _ & H).
  apply bind_Ok in H as (rl & U & H). apply bind_Ok in H as (b' & P & H). injection H as <- <-. by exists rl.
Qed.

(** [init] sets only the initial usage before. *)
Definition with_initial tc (u : Z) : transaction_context :=
  let n := net tc in
  with_net tc (NetBudget (trace_net_usage n) u (net_limit n) (eager_net_limit n) (net_limit_due_to_block n) (net_limit_due_to_greylist n)).

Record limits_begun c tc (u : Z) tc' : Prop := {
  lb_same : exists n p, tc' = with_cpu (with_net tc n) p;
  lb_usage : trace_net_usage (net tc') = trace_net_usage (net tc);
  lb_init : init_net_usage (net tc') = u;
  lb_net_limit : net_limit (net tc') = net_limit (net (init_limits c tc));
  lb_objective : objective_duration_limit (cpu tc') = objective_duration_limit (cpu (init_limits c tc));
  lb_code : billing_timer_exception_code (cpu tc') = billing_timer_exception_code (cpu (init_limits c tc));
  lb_billed : billed_cpu_time_us (cpu tc') = billed_cpu_time_us (cpu tc)
}.

Lemma init_limits_begun c tc u : limits_begun c tc u (init_limits c (with_initial tc u)).
Proof.
  split; [by do 2 eexists|..|by rewrite init_limits_billed]; try by rewrite init_limits_net.
  all: unfold init_limits; cbn [net cpu with_net with_cpu with_initial]; try done.
  all: change (type_of (with_initial tc u)) with (type_of tc); change (trx_of (with_initial tc u)) with (trx_of tc);
    change (resource_limits (with_initial tc u)) with (resource_limits tc); cbn [net_limit with_net_limit].
  all: destruct ((max_transaction_net_usage (trx_config c) <=? get_block_net_limit (resource_limits tc)) && negb (is_read_only (type_of tc)));
    cbn [net_limit with_net_limit].
  all: by match goal with |- context [if ?b then with_net_limit _ _ _ else _] => destruct b end.
Qed.

(** What none of the steps of [init] after the accounts change *)
Record same_parts tc tc' : Prop := {
  sp_args : args tc' = args tc;
  sp_db : db tc' = db tc;
  sp_session : undo_session tc' = undo_session tc;
  sp_bill : bill_to_accounts tc' = bill_to_accounts tc;
  sp_ram : validate_ram_usage tc' = validate_ram_usage tc;
  sp_delay : delay tc' = delay tc;
  sp_input : is_input tc' = is_input tc;
  sp_attempt : attempt tc' = attempt tc
}.

Record timer_begun c tc (initial : Z) tc' : Prop := {
  tb_same : same_parts tc tc';
  tb_initialized : is_initialized tc' = true;
  tb_init : init_net_usage (net tc') = init_net_usage (net tc);
  tb_net_limit : net_limit (net tc') = net_limit (net tc);
  tb_eager : eager_net_limit (net tc') = eager_net_limit (net tc) / 8 * 8;
  tb_usage : trace_net_usage (net tc') = if 0 <? initial then wrap64 (trace_net_usage (net tc) + initial) else trace_net_usage (net tc);
  tb_checked : skip_trx_checks c = false -> 0 < initial -> trace_net_usage (net tc') <= eager_net_limit (net tc');
  tb_objective : objective_duration_limit (cpu tc') = objective_duration_limit (cpu tc);
  tb_billed : billed_cpu_time_us (cpu tc') = billed_cpu_time_us (cpu tc)
}.

Lemma init_timer_begun c tc initial tc' : init_timer c tc initial = Ok tc' -> timer_begun c tc initial tc'.
Proof.
  intros H. unfold init_timer in H. cbv zeta in H. set (tc1 := with_cpu (with_net tc _) _) in H.
  assert (E1 : exists p, tc1 = with_cpu (with_net tc (with_eager (net tc) (eager_net_limit (net tc) / 8 * 8) (net_limit_due_to_block (net tc)))) p /\
    objective_duration_limit p = objective_duration_limit (cpu tc) /\ billed_cpu_time_us p = billed_cpu_time_us (cpu tc)).
  { unfold tc1. destruct (explicit_billed_cpu_time (args tc)); by eexists. }
  clearbody tc1. destruct E1 as (p & -> & Ho & Hb). apply bind_Ok in H as (tc2 & N & H). apply bind_Ok in H as (tc3 & T & [= <-]).
  assert (R : exists u, tc2 = with_net (with_cpu tc p) (with_net_usage (with_eager (net tc) (eager_net_limit (net tc) / 8 * 8) (net_limit_due_to_block (net tc))) u) /\
    u = (if 0 <? initial then wrap64 (trace_net_usage (net tc) + initial) else trace_net_usage (net tc)) /\
    (skip_trx_checks c = false -> 0 < initial -> u <= eager_net_limit (net tc) / 8 * 8)).
  { destruct (Z.ltb_spec 0 initial).
    - apply add_net_usage_Ok in N as [-> N]. eexists. split_and!; [done|done|auto].
    - injection N as <-. eexists. split_and!; [|done|lia]. by destruct tc. }
  destruct R as (u & -> & Hu & Hc). unfold checktime in T.
  destruct (timer _); [|done..]. injection T as <-. destruct (skip_trx_checks c) eqn:Es; split; try done; try by split.
  all: rewrite Es in *; auto.
Qed.

Lemma init_begun c tc initial tc' : is_read_only (type_of tc) = false -> init c tc initial = Ok tc' ->
  exists rl b, begun c tc initial rl b tc'.
Proof.
  intros Hr H. unfold init in H. destruct (negb (is_initialized tc)); [|done]. cbv zeta in H.
  change (with_net tc _) with (with_initial tc initial) in H.
  destruct (init_limits_begun c tc initial) as [(n1 & p1 & E1) Lu Li Ln Lo _ Lb]. rewrite E1 in *. clear E1.
  apply bind_Ok in H as ([tc2 b] & A & H). apply bind_Ok in H as (tc3 & S & H). cbn [fst snd] in S.
  apply init_accounts_spec in A as (rl & U & P & ->); [|done].
  set (tc2 := with_cpu (with_net (with_db _ _) _) _) in *.
  destruct (init_eager_limits_spec c tc2 b Hr) as [(n3 & p3 & E3) He Hn Hu Hi Ho Hb].
  rewrite E3 in *. clear E3. apply init_subjective_limits_spec in S as (p4 & -> & Ho4 & Hb4).
  apply init_timer_begun in H as [[] ? ? ? ? ? ? ? ?]. exists rl, b. subst tc2.
  remember (init_limits c tc) as li eqn:El. cbn in *. rewrite Hu, Lu in tb_usage0. rewrite He, Ln in tb_eager0.
  split; rewrite <- ?El; first [exact U|exact P|done|congruence].
Qed.

(** ** Admission *)

(** What [admit_transaction] has checked, of a transaction that a block can hold
    or a dry run: [tc0] is where [init] began and [tc1] where it ended. *)
Record admitted c (m : transaction_metadata) (a : push_arguments) (s : chain_state) (unprunable prunable : Z) rl (b : bandwidth) tc1 tc : Prop := {
  ad_unprunable : get_unprunable_size (packed_trx m) = Ok unprunable;
  ad_prunable : get_prunable_size (packed_trx m) = Ok prunable;
  ad_delay : (disable_deferred_trxs_stage_1 c || is_transient (meta_type m)) = true -> delay_sec (unpacked_trx (packed_trx m)) = 0;
  ad_extensions : size_of (transaction_extensions (unpacked_trx (packed_trx m))) <= 0;
  ad_expiration : skip_trx_checks c = false -> validate_expiration c (unpacked_trx (packed_trx m)) = Ok ();
  ad_tapos : skip_trx_checks c = false -> validate_tapos s (unpacked_trx (packed_trx m)) = Ok ();
  ad_referenced : skip_trx_checks c = false ->
    validate_referenced_accounts c (with_input (push_context c m a s)) (unpacked_trx (packed_trx m)) (is_speculative_block c) = Ok ();
  ad_init : begun c (with_input (push_context c m a s)) (initial_net_usage c (unpacked_trx (packed_trx m)) unprunable prunable) rl b tc1;
  ad_fresh : transactions s !! trx_id (packed_trx m) = None;
  ad_authorized : skip_auth_check c = false ->
    check_authorization (with_resource_limits (tables s) rl) (auth_context c) (actions (unpacked_trx (packed_trx m))) (recovered_keys m) []
      (delay_sec (unpacked_trx (packed_trx m)) * 1000000) false (is_dry_run (meta_type m)) [] = Ok ();
  ad_result : tc = with_delay (with_db tc1 (ChainState (with_resource_limits (tables s) rl)
                     (<[trx_id (packed_trx m) := expiration (unpacked_trx (packed_trx m))]> (transactions s)) (block_summaries s)))
                     (delay_sec (unpacked_trx (packed_trx m)) * 1000000)
}.

Lemma guard_unit (b : bool) e : (if b then Ok () else Throw e) = Ok () <-> b = true.
Proof. by destruct b. Qed.

Lemma init_for_input_spec c tc unprunable prunable tc' : is_read_only (type_of tc) = false ->
  init_for_input_trx c tc unprunable prunable = Ok tc' ->
  ((disable_deferred_trxs_stage_1 c || is_transient (type_of tc)) = true -> delay_sec (trx_of tc) = 0) /\
  size_of (transaction_extensions (trx_of tc)) <= 0 /\
  (skip_trx_checks c = false -> validate_expiration c (trx_of tc) = Ok () /\ validate_tapos (db tc) (trx_of tc) = Ok () /\
    validate_referenced_accounts c (with_input tc) (trx_of tc) (enforce_whiteblacklist (args tc) && is_speculative_block c) = Ok ()) /\
  exists rl b tc1, begun c (with_input tc) (initial_net_usage c (trx_of tc) unprunable prunable) rl b tc1 /\
    record_transaction tc1 (trx_id (packed_of tc)) (expiration (trx_of tc)) = Ok tc'.
Proof.
  intros Hr H. unfold init_for_input_trx in H.
  match type of H with (if ?g then _ else _) = _ => destruct g eqn:Eg; [|done] end.
  destruct (Z.ltb_spec 0 (size_of (transaction_extensions (trx_of tc)))) as [|Hx]; [done|].
  apply bind_Ok in H as ([] & Hc & H). apply bind_Ok in H as (tc1 & I & H).
  change (is_read_only (type_of (with_input tc))) with (is_read_only (type_of tc)) in Hc. rewrite Hr in Hc. cbn [negb] in Hc.
  apply init_begun in I as (rl & b & B); [|done].
  assert (Ea : args tc1 = args tc) by apply (bg_args _ _ _ _ _ _ B).
  assert (Et : type_of tc1 = type_of tc) by (unfold type_of; by rewrite Ea). rewrite Et, Hr in H. cbn [negb] in H.
  split_and!.
  - intros E. rewrite E in Eg. cbn in Eg. lia.
  - done.
  - intros Es. rewrite Es in Hc. cbn [negb] in Hc. apply bind_Ok in Hc as ([] & Hv & Hc). apply bind_Ok in Hv as ([] & Hv & Ht). done.
  - exists rl, b, tc1. split; [done|]. unfold packed_of. by rewrite <- Ea.
Qed.

Lemma admit_spec c m a s tc : is_implicit (meta_type m) = false -> is_read_only (meta_type m) = false ->
  admit_transaction c m a s = Ok tc -> exists unprunable prunable rl b tc1, admitted c m a s unprunable prunable rl b tc1 tc.
Proof.
  intros Hi Hr H. unfold admit_transaction in H. cbv zeta in H. rewrite Hi, Hr in H.
  apply bind_Ok in H as (tc0 & H0 & H). apply bind_Ok in H0 as (u & Hu & H0). apply bind_Ok in H0 as (p & Hp & H0).
  apply init_for_input_spec in H0 as (Hd & Hx & Hc & rl & b & tc1 & B & R); [|done].
  apply bind_Ok in H as ([] & Ha & [= <-]). unfold record_transaction in R. pose proof B as B'. destruct B'.
  rewrite bg_db0 in R. cbn [transactions with_input push_context make_transaction_context db with_limits_db with_tables] in R.
  match type of R with (if ?g then _ else _) = _ => destruct g eqn:Eg; [|done] end. apply bool_decide_eq_true in Eg. injection R as <-.
  exists u, p, rl, b, tc1. split; try done; try (intros Es; by destruct (Hc Es) as (? & ? & ?)).
  intros Es. rewrite Es in Ha. exact Ha.
Qed.

(** ** The end *)

(** The time that is billed *)
Definition time_billed c tc : Z :=
  if explicit_billed_cpu_time (args tc) then billed_cpu_time_us (cpu tc)
  else Z.max (now (next_look tc) - pseudo_start (cpu tc)) (min_transaction_cpu_usage (trx_config c)).

Lemma validate_account_cpu_Ok tc billed limit :
  validate_account_cpu Z.leb tc billed limit = Ok () <-> billed <= Z.min limit (objective_duration_limit (cpu tc)).
Proof.
  unfold validate_account_cpu. destruct (Z.leb_spec limit (objective_duration_limit (cpu tc))); cbn [negb andb].
  - rewrite andb_true_r. destruct (cpu_limit_due_to_greylist (cpu tc)); rewrite guard_unit, Z.leb_le; lia.
  - rewrite andb_false_r. case_bool_decide; rewrite guard_unit, Z.leb_le; lia.
Qed.

Lemma validate_cpu_usage_to_bill_Ok c tc billed limit check_minimum :
  validate_cpu_usage_to_bill c tc billed limit check_minimum = Ok () <-> (skip_trx_checks c = false ->
    (check_minimum = true -> min_transaction_cpu_usage (trx_config c) <= billed) /\
    (0 < billed -> billed <= Z.min limit (objective_duration_limit (cpu tc)))).
Proof.
  unfold validate_cpu_usage_to_bill, validate_account_cpu_usage. destruct (skip_trx_checks c); cbn [negb]; [done|]. rewrite andb_true_r.
  destruct (negb check_minimum || (min_transaction_cpu_usage (trx_config c) <=? billed)) eqn:E.
  - assert (E' : check_minimum = true -> min_transaction_cpu_usage (trx_config c) <= billed) by (intros ->; cbn in E; lia).
    destruct (Z.ltb_spec 0 billed); [rewrite validate_account_cpu_Ok|]; (split; [intros H1 _|intros H1; try apply H1]); try done; split; [done|lia].
  - split; [done|]. intros H. destruct check_minimum; [|done]. destruct (H eq_refl) as [H1 _]. specialize (H1 eq_refl). cbn in E. lia.
Qed.

Lemma update_permission_usages_Ok c tc tc' : update_permission_usages c tc = Ok tc' ->
  exists d, tc' = with_db tc (with_tables (db tc) d) /\ limits_db d = resource_limits tc /\ use_permissions c (tables (db tc)) (trx_of tc) = Ok d.
Proof.
  unfold update_permission_usages. intros H. apply bind_Ok in H as (d & H & [= <-]). exists d. split_and!; [done| |done].
  eapply (foldM_ind (fun d => limits_db d = resource_limits tc)); [|done|exact H].
  intros d1 auth d2 _ Hd H2. unfold update_permission_usage in H2. inv_result. done.
Qed.

(** What the checks at the end found: [d] are the tables with the permissions
    used, [b] what the accounts can pay. *)
Record checked c tc (d : database) (b : bandwidth) tc' : Prop := {
  ck_permissions : (if is_input tc then use_permissions c (tables (db tc)) (trx_of tc) else Ok (tables (db tc))) = Ok d;
  ck_limits : limits_db d = resource_limits tc;
  ck_ram : forall a, a ∈ validate_ram_usage tc -> verify_account_ram_usage (resource_limits tc) a = Ok ();
  ck_pay : accounts_can_pay c false (resource_limits tc) (bill_to_accounts tc) = Ok b;
  ck_net : skip_trx_checks c = false -> round_net_usage (trace_net_usage (net tc)) <= Z.min (wrap64 (account_net_limit b)) (net_limit (net tc));
  ck_minimum : skip_trx_checks c = false -> min_transaction_cpu_usage (trx_config c) <= time_billed c tc;
  ck_cpu : skip_trx_checks c = false -> 0 < time_billed c tc ->
    time_billed c tc <= Z.min (account_cpu_limit b) (objective_duration_limit (cpu tc));
  ck_same : db tc' = with_tables (db tc) d /\ bill_to_accounts tc' = bill_to_accounts tc /\ args tc' = args tc /\ delay tc' = delay tc /\
    undo_session tc' = undo_session tc /\ attempt tc' = attempt tc;
  ck_usage : trace_net_usage (net tc') = round_net_usage (trace_net_usage (net tc));
  ck_billed : billed_cpu_time_us (cpu tc') = time_billed c tc
}.

Lemma final_limits_spec tc b : exists n p, final_limits tc b = with_cpu (with_net tc n) p /\
  trace_net_usage n = round_net_usage (trace_net_usage (net tc)) /\ eager_net_limit n = Z.min (wrap64 (account_net_limit b)) (net_limit (net tc)) /\
  objective_duration_limit p = Z.min (account_cpu_limit b) (objective_duration_limit (cpu tc)) /\
  billed_cpu_time_us p = billed_cpu_time_us (cpu tc) /\ pseudo_start p = pseudo_start (cpu tc).
Proof.
  unfold final_limits. do 2 eexists. split; [reflexivity|].
  destruct (Z.leb_spec (wrap64 (account_net_limit b)) (net_limit (with_net_greylist (net tc) (greylisted_net b))));
    destruct (Z.leb_spec (account_cpu_limit b) (objective_duration_limit (with_cpu_greylist (cpu tc) (greylisted_cpu b))));
    cbn in *; split_and!; done || lia.
Qed.

Lemma checks_unit {A} (f : A -> result ()) l : foldM (fun _ a => f a) () l = Ok () <-> forall a, a ∈ l -> f a = Ok ().
Proof.
  induction l as [|a l IH]; cbn; [split; [by intros _ ? ?%elem_of_nil|done]|]. rewrite bind_Ok_iff. split.
  - intros ([] & Ha & H) b [->|Hb]%elem_of_cons; [done|]. by apply IH.
  - intros H. exists (). split; [apply H; by left|]. apply IH. intros b Hb. apply H. by right.
Qed.

Lemma finalize_checks_spec c tc tc' : finalize_checks c tc = Ok tc' -> exists d b, checked c tc d b tc'.
Proof.
  intros H. unfold finalize_checks in H. apply bind_Ok in H as (tc1 & P0 & H).
  assert (D : exists d, tc1 = with_db tc (with_tables (db tc) d) /\ limits_db d = resource_limits tc /\
    (if is_input tc then use_permissions c (tables (db tc)) (trx_of tc) else Ok (tables (db tc))) = Ok d).
  { destruct (is_input tc); [by apply update_permission_usages_Ok|]. injection P0 as <-. exists (tables (db tc)). split_and!; [|done..].
    destruct tc as [? [] ? ? ? ? ? ? ? ? ? ?]. done. }
  destruct D as (d & -> & Hl & P).  apply bind_Ok in H as ([] & R & H). rewrite checks_unit in R.
  apply bind_Ok in H as (b & B & H). unfold max_bandwidth_billed_accounts_can_pay in B. set (tc1 := with_db _ _) in *.
  assert (El : resource_limits tc1 = resource_limits tc) by exact Hl. rewrite El in B, R.
  destruct (final_limits_spec tc1 b) as (n & p & E & Hu & He & Ho & Hb & Hp). rewrite E in H.
  apply bind_Ok in H as ([] & N & H). rewrite check_net_usage_Ok in N. cbn [net with_net with_cpu] in N. rewrite Hu, He in N.
  set (tc2 := update_billed_cpu_time _ _ _) in H.
  assert (E2 : exists p2, tc2 = with_cpu (looked (with_cpu (with_net tc1 n) p)) p2 /\ billed_cpu_time_us p2 = time_billed c tc /\
    objective_duration_limit p2 = objective_duration_limit p).
  { unfold tc2, update_billed_cpu_time, time_billed. cbn [args looked with_cpu with_net tc1 with_db].
    destruct (explicit_billed_cpu_time (args tc)); [by exists p|]. eexists. split_and!; [done| |done]. cbn. by rewrite Hp. }
  clearbody tc2. destruct E2 as (p2 & -> & Hb2 & Ho2). apply bind_Ok in H as ([] & V & [= <-]).
  rewrite validate_cpu_usage_to_bill_Ok in V. cbn [cpu with_cpu] in V. rewrite Hb2, Ho2, Ho in V.
  exists d, b. split; try done; cbn.
  - intros Es. apply V; done.
  - intros Es Hpos. destruct (V Es) as [_ V2]. specialize (V2 Hpos). cbn in V2. lia.
Qed.

Lemma finalize_spec c tc tc' : is_read_only (type_of tc) = false -> finalize c tc = Ok tc' ->
  exists d b tc2, finalize_checks c tc = Ok tc2 /\ checked c tc d b tc2 /\ bill_transaction c tc2 = Ok tc'.
Proof.
  intros Hr H. unfold finalize in H. destruct (is_initialized tc); [|done]. rewrite Hr in H. apply bind_Ok in H as (tc2 & C & H).
  destruct (finalize_checks_spec _ _ _ C) as (d & b & K). by exists d, b, tc2.
Qed.
