(* ===== verification/TransactionLimits.v ===== *)
(** * What accounts can pay, and what they are billed

    No code of its own: the limits [max_bandwidth_billed_accounts_can_pay] tells
    of [TransactionContext] against the limits [add_transaction_usage] of
    [ResourceLimits] holds accounts to. *)

From S2P Require Import Prelude ChainTypes ResourceLimits Authority Authorization TransactionContext TransactionRun.
Open Scope Z_scope.

Implicit Types (c : controller) (rl : resource_limits_manager) (b : bandwidth).

(** ** One resource of an account *)

Section Told.
Context (u : usage_accumulator) (weight total virtual block_max g : Z) (cl : account_resource_limit) (gl : bool).
Context (W : usage_wf account_window u) (Hw : weight <= int64_max) (Ht : 0 <= total) (Hv : 0 <= virtual <= 1000 * block_limit_max).

(** What the account has left of a virtual limit *)
Definition left_of (limit : Z) : Z :=
  Z.max 0 (room weight total limit - integer_divide_ceil (value_ex u * account_window) rate_limiting_precision).

Lemma room_mono v1 v2 : 0 <= v1 <= v2 -> v2 <= 1000 * block_limit_max -> 0 <= weight -> total <> 0 ->
  0 <= room weight total v1 <= room weight total v2.
Proof.
  intros H1 H2 Hw0 Ht0. unfold room, max_user_use_in_window.
  assert (B : forall v, 0 <= v <= v2 -> wrap128 (wrap128 (v * account_window) * weight) = v * account_window * weight).
  { intros v Hv'. assert (0 <= v * account_window <= 1000 * block_limit_max * account_window) by (unfold account_window; lia).
    assert (E : 1000 * block_limit_max * account_window * int64_max < 2 ^ 128) by (by vm_compute).
    unfold wrap128. rewrite (Z.mod_small (v * account_window)) by (unfold block_limit_max, account_window in *; lia).
    apply Z.mod_small. split; [nia|]. eapply Z.le_lt_trans; [|exact E]. apply Z.mul_le_mono_nonneg; lia. }
  rewrite !B by lia. split; [apply Z.div_pos; [|lia]|apply Z.div_le_mono; [lia|]]; unfold account_window; nia.
Qed.

Context (E : account_limit_ex u weight total account_window virtual block_max g None = Ok (cl, gl)).

Lemma told_limited : 0 <= weight -> total <> 0 -> exists limit, 0 <= limit <= virtual /\ available cl = left_of limit.
Proof.
  intros H1 H2. revert E. unfold account_limit_ex.
  replace ((weight <? 0) || (total =? 0)) with false by (symmetry; apply orb_false_iff; lia). cbv zeta.
  rewrite (value_fits _ (uw_value _ _ W)).
  set (lim := if (_ && _ : bool) then wrap64 _ else virtual). intros H.
  assert (L : 0 <= lim <= virtual).
  { unfold lim. destruct ((g <? maximum_elastic_resource_multiplier) && (wrap64 (block_max * g) <? virtual)) eqn:Eg; [|lia].
    apply andb_true_iff in Eg as [_ Eg]. destruct (wrap64_u64 (block_max * g)). lia. }
  clearbody lim. exists lim. split; [exact L|]. fold (room weight total lim) in H.
  unfold left_of. inv_result. cbn. match goal with H : (if _ then Ok 0 else _) = Ok _ |- _ => revert H end.
  destruct (Z.leb_spec (room weight total lim) (integer_divide_ceil (value_ex u * account_window) rate_limiting_precision)).
  - intros [= <-]. lia.
  - intros [-> _]%downgrade_cast_inv. lia.
Qed.

(** What it is told it has left leaves room for it, with a virtual limit that is
    at least as high. *)
Lemma told_within units : 0 < units <= available cl -> units <= block_limit_max -> value_ex u <= 10 ^ 18 -> 0 <= weight -> total <> 0 ->
  add_usage u units (last_ordinal u) account_window = Ok (added account_window u units (last_ordinal u)) /\
  within_limit (added account_window u units (last_ordinal u)) virtual account_window weight total = true.
Proof.
  intros Hu Hb Hval H1 H2. destruct (told_limited H1 H2) as (lim & Hlim & Ha). rewrite Ha in Hu. unfold left_of in Hu.
  pose proof (room_mono lim virtual Hlim ltac:(lia) H1 H2) as Hr. destruct W as [_ Hv0 Hc Hcv].
  destruct (divide_ceil_spec (value_ex u * account_window) rate_limiting_precision) as [[Hd _] Hd0]; [unfold account_window; lia|done|].
  set (i := integer_divide_ceil (value_ex u * account_window) rate_limiting_precision) in *. clearbody i.
  destruct (can_add_contrib account_window units) as [Hc0 Hcw]; [done|lia|].
  assert (C : can_add account_window u units (last_ordinal u)).
  { split; [rewrite max_raw_value_eq| | |by left];
      set (k := integer_divide_ceil (units * rate_limiting_precision) account_window) in *; clearbody k;
      unfold block_limit_max, account_window, rate_limiting_precision, int64_max in *; unfold_widths; lia. }
  split; [apply add_usage_Ok; [done|done|done|lia]|].
  unfold within_limit. rewrite (proj2 (andb_true_iff _ _)) by lia. unfold added in *. rewrite decide_True in * by done. cbn [value_ex].
  rewrite value_fits by (split; [lia|apply (ca_value _ _ _ _ C)]). apply Z.leb_le. fold (room weight total virtual).
  set (k := integer_divide_ceil (units * rate_limiting_precision) account_window) in *. clearbody k.
  apply Z.lt_succ_r, Z.div_lt_upper_bound; [done|]. unfold account_window, rate_limiting_precision in *. lia.
Qed.
End Told.

(** An account without limits is not held to any, but its average must not
    overflow. *)
Lemma unlimited_within u units virtual weight total : usage_wf account_window u -> 0 < units <= block_limit_max -> value_ex u <= 10 ^ 18 ->
  weight < 0 \/ total = 0 ->
  add_usage u units (last_ordinal u) account_window = Ok (added account_window u units (last_ordinal u)) /\
  within_limit (added account_window u units (last_ordinal u)) virtual account_window weight total = true.
Proof.
  intros W Hu Hval H. pose proof W as [_ Hv0 Hc Hcv]. destruct (can_add_contrib account_window units) as [Hc0 Hcw]; [done|lia|].
  split.
  - apply add_usage_Ok; [done|done| |lia]. split; [rewrite max_raw_value_eq| | |by left];
      set (k := integer_divide_ceil (units * rate_limiting_precision) account_window) in *; clearbody k;
      unfold block_limit_max, account_window, rate_limiting_precision in *; unfold_widths; lia.
  - unfold within_limit. replace ((0 <=? weight) && (0 <? total)) with false; [done|]. symmetry. apply andb_false_iff. lia.
Qed.

Section Resource.
Context (u : usage_accumulator) (weight total virtual block_max g : Z) (cl : account_resource_limit) (gl : bool).
Context (W : usage_wf account_window u) (Hw : weight <= int64_max) (Ht : 0 <= total) (Hv : 0 <= virtual <= 1000 * block_limit_max).
Context (E : account_limit_ex u weight total account_window virtual block_max g None = Ok (cl, gl)).

(** It is billed what it is told it has left. *)
Lemma resource_within units : 0 < units <= block_limit_max -> value_ex u <= 10 ^ 18 -> (0 <= available cl -> units <= available cl) ->
  add_usage u units (last_ordinal u) account_window = Ok (added account_window u units (last_ordinal u)) /\
  within_limit (added account_window u units (last_ordinal u)) virtual account_window weight total = true.
Proof.
  intros Hu Hs Ha. destruct (decide (weight < 0 \/ total = 0)) as [H|H]; [by apply unlimited_within|].
  assert (H1 : 0 <= weight) by lia. assert (H2 : total <> 0) by lia.
  destruct (told_limited u weight total virtual block_max g cl gl W Ht Hv E H1 H2) as (v & _ & Ea).
  apply (told_within u weight total virtual block_max g cl gl W Hw Ht Hv E units); [|lia|done..]. rewrite Ea in *. unfold left_of in *. lia.
Qed.
End Resource.

(** ** An account *)

(** What an account is told with a limit on the elastic multiplier *)
Definition told rl (a : account_name) (g n p : Z) : Prop := exists gn gp,
  get_account_net_limit rl a g = Ok (n, gn) /\ get_account_cpu_limit rl a g = Ok (p, gp).

(** The average of what an account uses is below 10^12 in each half second, far
    more than the limits of blocks leave. *)
Definition average_small rl (a : account_name) : Prop := forall u, usages rl !! a = Some u ->
  value_ex (net_usage u) <= 10 ^ 18 /\ value_ex (cpu_usage u) <= 10 ^ 18.

(** The rows of an account whose limits can be told *)
Lemma told_rows rl a g n p : limits_inv rl -> told rl a g n p -> exists u l gn gp cn cp,
  usages rl !! a = Some u /\ get_account_limits rl a = Ok l /\ account_usage_ok u /\ limits_ok l /\
  get_account_net_limit rl a g = Ok (n, gn) /\ get_account_cpu_limit rl a g = Ok (p, gp) /\
  account_limit_ex (net_usage u) (net_weight l) (total_net_weight (ResourceLimits.state rl)) account_window
    (virtual_net_limit (ResourceLimits.state rl)) (max_usage (net_limit_parameters (config rl))) g None = Ok (cn, gn) /\ n = available cn /\
  account_limit_ex (cpu_usage u) (cpu_weight l) (total_cpu_weight (ResourceLimits.state rl)) account_window
    (virtual_cpu_limit (ResourceLimits.state rl)) (max_usage (cpu_limit_parameters (config rl))) g None = Ok (cp, gp) /\ p = available cp.
Proof.
  intros I (gn & gp & Hn & Hp). pose proof (li_rows _ I) as R. destruct (usages rl !! a) as [u|] eqn:Hu.
  2: { unfold get_account_net_limit, get_account_net_limit_ex in Hn. by rewrite Hu in Hn. }
  destruct (get_account_limits rl a) as [l|] eqn:Hl.
  2: { unfold get_account_net_limit, get_account_net_limit_ex in Hn. by rewrite Hu, Hl in Hn. }
  destruct (limits_rows _ _ _ _ Hu Hl) as [Ec En]. pose proof Hn as Hn'. pose proof Hp as Hp'. unfold get_account_net_limit in Hn'. unfold get_account_cpu_limit in Hp'.
  rewrite En, (ri_net_window _ R) in Hn'. rewrite Ec, (ri_cpu_window _ R) in Hp'.
  apply bind_Ok in Hn' as ([cn gn'] & Hn' & [= <- <-]). apply bind_Ok in Hp' as ([cp gp'] & Hp' & [= <- <-]).
  exists u, l, gn', gp', cn, cp. split_and!; try done.
  - by eapply (ri_usages _ R).
  - unfold get_account_limits in Hl. destruct (limits rl !! (true, a)) eqn:El; [injection Hl as <-|apply get_row_Ok in Hl]; by eapply (ri_limits _ R).
Qed.

(** The virtual limits *)
Lemma virtual_bounds rl : limits_inv rl -> 0 <= virtual_net_limit (ResourceLimits.state rl) <= 1000 * block_limit_max /\
  0 <= virtual_cpu_limit (ResourceLimits.state rl) <= 1000 * block_limit_max.
Proof. intros [_ _ _ [[H1 _ _ _ _] _ H2] [[H3 _ _ _ _] _ H4]]. lia. Qed.

Lemma bill_told rl a g n p net cpu slot : limits_inv rl -> average_small rl a -> at_slot rl slot a -> told rl a g n p ->
  0 < net <= block_limit_max -> 0 < cpu <= block_limit_max -> (0 <= n -> net <= n) -> (0 <= p -> cpu <= p) ->
  exists u, bill_account cpu net slot rl a = Ok (with_usage rl a u).
Proof.
  intros I Small (u & Hu & Sn & Sc) T Bn Bc Hn Hp.
  destruct (told_rows _ _ _ _ _ I T) as (u' & l & gn & gp & cn & cp & Hu' & Hl & [Wn Wc _] & (Ln & Lc & _) & _ & _ & En & -> & Ep & ->).
  rewrite Hu in Hu'. injection Hu' as <-. destruct (Small _ Hu) as [An Ac]. destruct (totals_nonneg _ I) as [Tc Tn].
  destruct (virtual_bounds _ I) as [Vn Vc]. pose proof (li_rows _ I) as R.
  destruct (resource_within _ _ _ _ _ _ _ _ Wn Ln Tn Vn En net Bn An Hn) as [N1 N2].
  destruct (resource_within _ _ _ _ _ _ _ _ Wc Lc Tc Vc Ep cpu Bc Ac Hp) as [C1 C2].
  unfold bill_account, add_account_usage. rewrite Hu, Hl, (ri_cpu_window _ R), (ri_net_window _ R). cbn [get_row mbind result_bind].
  rewrite Sn in N1, N2. rewrite Sc in C1, C2. rewrite N1. cbn [mbind result_bind]. rewrite C1. cbn [mbind result_bind cpu_usage net_usage].
  rewrite C2, N2. by eexists.
Qed.

Lemma told_other rl a u a' g n p : a' <> a -> told (with_usage rl a u) a' g n p <-> told rl a' g n p.
Proof.
  intros Hne. assert (E : usages (with_usage rl a u) !! a' = usages rl !! a') by by apply lookup_insert_ne.
  unfold told, get_account_net_limit, get_account_cpu_limit, get_account_net_limit_ex, get_account_cpu_limit_ex, get_account_limits. by rewrite E.
Qed.

(** An account that can be billed *)
Definition can_bill rl (g : account_name -> Z) (net cpu slot : Z) (a : account_name) : Prop :=
  average_small rl a /\ at_slot rl slot a /\ exists n p, told rl a (g a) n p /\ (0 <= n -> net <= n) /\ (0 <= p -> cpu <= p).

Lemma bill_accounts_told accounts rl g net cpu slot : limits_inv rl -> NoDup accounts ->
  0 < net <= block_limit_max -> 0 < cpu <= block_limit_max -> (forall a, a ∈ accounts -> can_bill rl g net cpu slot a) ->
  exists rl', foldM (bill_account cpu net slot) rl accounts = Ok rl' /\ config rl' = config rl /\ ResourceLimits.state rl' = ResourceLimits.state rl.
Proof.
  intros I N Bn Bc H. revert rl I H. induction accounts as [|a accounts IH]; intros rl I H; [by exists rl|].
  apply NoDup_cons in N as [Ha N]. destruct (H a) as (Sm & Sl & n & p & T & Hn & Hp); [by left|].
  destruct (bill_told rl a (g a) n p net cpu slot I Sm Sl T Bn Bc Hn Hp) as [u E].
  destruct (bill_account_inv cpu net slot rl a _ I ltac:(lia) ltac:(lia) E) as [I1 _].
  destruct (IH N (with_usage rl a u) I1) as (rl' & E' & Ec & Es).
  - intros a' Ha'. assert (Hne : a' <> a) by by intros ->. destruct (H a') as (Sm' & Sl' & n' & p' & T' & Hn' & Hp'); [by right|].
    split_and!.
    + intros u'. cbn. rewrite lookup_insert_ne by done. apply Sm'.
    + by apply other_account.
    + exists n', p'. by rewrite told_other.
  - exists rl'. cbn [foldM]. by rewrite E.
Qed.

(** Nothing is in the way of [add_transaction_usage]. *)
Lemma add_transaction_usage_told accounts rl g net cpu slot : limits_inv rl -> NoDup accounts ->
  0 < net <= get_block_net_limit rl -> 0 < cpu <= get_block_cpu_limit rl -> (forall a, a ∈ accounts -> can_bill rl g net cpu slot a) ->
  is_ok (add_transaction_usage rl accounts cpu net slot) = true.
Proof.
  intros I N Bn Bc H. pose proof I as [_ _ _ [[Mc _ _ _ _] Pc _] [[Mn _ _ _ _] Pn _]].
  unfold get_block_net_limit, get_block_cpu_limit in *. rewrite wrap64_id in Bn, Bc by (unfold block_limit_max in *; unfold_widths; lia).
  destruct (bill_accounts_told accounts rl g net cpu slot I N) as (rl' & E & Ec & Es); [lia|lia|done|].
  unfold add_transaction_usage. rewrite E. cbn [mbind result_bind]. rewrite Ec, Es.
  rewrite !wrap64_id by (unfold block_limit_max in *; unfold_widths; lia).
  pass_with ltac:(apply Z.leb_le; lia). by pass_with ltac:(apply Z.leb_le; lia).
Qed.

(** ** All the accounts of a transaction *)

(** Each is told its limits, and what they can pay together is at most that. *)
Record paying c (force : bool) rl (accounts : list account_name) b : Prop := {
  py_told : forall a, a ∈ accounts -> exists n p, told rl a (account_greylist_limit c force a) n p /\
    (0 <= n -> account_net_limit b <= n) /\ (0 <= p -> account_cpu_limit b <= p);
  py_net : 0 <= account_net_limit b <= large_number_no_overflow;
  py_cpu : 0 <= account_cpu_limit b <= large_number_no_overflow
}.

Definition less_bandwidth b (n p : Z) (gn gp : bool) : bandwidth :=
  Bandwidth (if 0 <=? n then Z.min (account_net_limit b) n else account_net_limit b)
            (if 0 <=? p then Z.min (account_cpu_limit b) p else account_cpu_limit b)
            (greylisted_net b || ((0 <=? n) && gn)) (greylisted_cpu b || ((0 <=? p) && gp)).

Lemma bandwidth_with_spec c force rl b a b' : bandwidth_with c force rl b a = Ok b' <-> exists n p gn gp,
  get_account_net_limit rl a (account_greylist_limit c force a) = Ok (n, gn) /\
  get_account_cpu_limit rl a (account_greylist_limit c force a) = Ok (p, gp) /\ b' = less_bandwidth b n p gn gp.
Proof.
  assert (G : forall n p gn gp, less_bandwidth b n p gn gp =
    let b := if 0 <=? n then Bandwidth (Z.min (account_net_limit b) n) (account_cpu_limit b) (greylisted_net b || gn) (greylisted_cpu b) else b in
    if 0 <=? p then Bandwidth (account_net_limit b) (Z.min (account_cpu_limit b) p) (greylisted_net b) (greylisted_cpu b || gp) else b).
  { intros. unfold less_bandwidth. destruct b as [bn bp en ep]. by destruct (0 <=? n), (0 <=? p); cbn; rewrite ?orb_false_r. }
  unfold bandwidth_with. split.
  - intros H. apply bind_Ok in H as ([n gn] & Hn & H). apply bind_Ok in H as ([p gp] & Hp & [= <-]).
    exists n, p, gn, gp. rewrite G. done.
  - intros (n & p & gn & gp & Hn & Hp & ->). rewrite G, Hn. cbn [mbind result_bind]. by rewrite Hp.
Qed.

Lemma accounts_paying c force rl accounts b : accounts_can_pay c force rl accounts = Ok b -> paying c force rl accounts b.
Proof.
  unfold accounts_can_pay. intros H. apply bind_Ok in H as (b0 & H & E). assert (b0 = b) as -> by (destruct (_ || _); [by injection E|done]). clear E.
  assert (G : forall b0, foldM (bandwidth_with c force rl) b0 accounts = Ok b -> 0 <= account_net_limit b0 -> 0 <= account_cpu_limit b0 ->
    (forall a, a ∈ accounts -> exists n p, told rl a (account_greylist_limit c force a) n p /\
       (0 <= n -> account_net_limit b <= n) /\ (0 <= p -> account_cpu_limit b <= p)) /\
    0 <= account_net_limit b <= account_net_limit b0 /\ 0 <= account_cpu_limit b <= account_cpu_limit b0).
  { clear H. induction accounts as [|a accounts IH]; intros b0 H Hn Hp; cbn [foldM] in H.
    - injection H as ->. split_and!; try lia. by intros a ?%elem_of_nil.
    - apply bind_Ok in H as (b1 & E & H). apply bandwidth_with_spec in E as (n & p & gn & gp & En & Ep & ->).
      apply IH in H as (Ha & H1 & H2); unfold less_bandwidth in *; cbn in *; [|destruct (Z.leb_spec 0 n); lia|destruct (Z.leb_spec 0 p); lia].
      split; [|destruct (Z.leb_spec 0 n), (Z.leb_spec 0 p); lia].
      intros a' [->|Ha']%elem_of_cons; [|by apply Ha]. exists n, p. split; [by exists gn, gp|].
      destruct (Z.leb_spec 0 n), (Z.leb_spec 0 p); lia. }
  apply G in H as (Ha & Hn & Hp); [by split|by vm_compute..].
Qed.

Lemma account_limit_not_greylisted u weight total window virtual block_max time cl gl :
  account_limit_ex u weight total window virtual block_max maximum_elastic_resource_multiplier time = Ok (cl, gl) -> gl = false.
Proof.
  unfold account_limit_ex. destruct ((weight <? 0) || (total =? 0)); [by intros [= <- <-]|].
  change (maximum_elastic_resource_multiplier <? maximum_elastic_resource_multiplier) with false. cbv zeta. cbn [andb]. intros H. by inv_result.
Qed.

Lemma not_greylisted rl a n p gn gp : get_account_net_limit rl a maximum_elastic_resource_multiplier = Ok (n, gn) ->
  get_account_cpu_limit rl a maximum_elastic_resource_multiplier = Ok (p, gp) -> gn = false /\ gp = false.
Proof.
  unfold get_account_net_limit, get_account_cpu_limit, get_account_net_limit_ex, get_account_cpu_limit_ex. intros Hn Hp.
  apply bind_Ok in Hn as ([cn gn'] & Hn & [= <- <-]). apply bind_Ok in Hp as ([cp gp'] & Hp & [= <- <-]).
  apply bind_Ok in Hn as (u & _ & Hn). apply bind_Ok in Hn as (l & _ & Hn). apply bind_Ok in Hp as (u' & _ & Hp). apply bind_Ok in Hp as (l' & _ & Hp).
  by split; eapply account_limit_not_greylisted.
Qed.
