(* ===== verification/Transactions.v ===== *)
(** * What an accepted transaction has passed

    No code of its own: the checks of [TransactionContext] and what they mean for
    the accounts that are billed, for the authorizations that are declared, and
    for transactions that are interrupted and started again. *)

From Stdlib Require Import Sorting.Sorted.
From S2P Require Import Prelude ChainTypes ResourceLimits Authority Authorization Permissions Authorizing TransactionContext TransactionRun TransactionLimits.
Open Scope Z_scope.

Implicit Types (c : controller) (tc : transaction_context) (rl : resource_limits_manager) (m : transaction_metadata) (a : push_arguments).

(** ** Sets of accounts *)

Lemma flat_set_insert_elem x y l : x ∈ flat_set_insert y l <-> x = y \/ x ∈ l.
Proof.
  induction l as [|z l IH]; cbn [flat_set_insert]; [by rewrite list_elem_of_singleton, elem_of_nil; intuition|].
  repeat case_comparison; rewrite ?elem_of_cons, ?IH; subst; intuition.
Qed.

Lemma flat_set_insert_sorted y l : StronglySorted Z.lt l -> StronglySorted Z.lt (flat_set_insert y l).
Proof.
  induction 1 as [|z l Hs IH Hz]; cbn [flat_set_insert]; [by repeat constructor|]. repeat case_comparison.
  - constructor; [by constructor|]. constructor; [done|]. eapply Forall_impl; [exact Hz|]. cbn. lia.
  - by constructor.
  - constructor; [done|]. apply Forall_forall. intros x [->|Hx]%flat_set_insert_elem; [lia|]. rewrite Forall_forall in Hz. by apply Hz.
Qed.

Lemma flat_set_NoDup l : StronglySorted Z.lt l -> NoDup l.
Proof.
  induction 1 as [|z l _ IH Hz]; constructor; [|done]. intros Hin. rewrite Forall_forall in Hz. specialize (Hz _ Hin). lia.
Qed.

Lemma accounts_to_bill_sorted c tc : StronglySorted Z.lt (bill_to_accounts tc) -> StronglySorted Z.lt (accounts_to_bill c tc).
Proof.
  intros H. unfold accounts_to_bill. destruct (only_bill_first_authorizer c); [by apply flat_set_insert_sorted|].
  revert H. generalize (bill_to_accounts tc). induction (concat _) as [|x l IH]; intros l0 H; cbn; [done|]. by apply IH, flat_set_insert_sorted.
Qed.

(** ** The limits a transaction begins with *)

Record limits_bounded c tc : Prop := {
  bd_block_net : net_limit (net (init_limits c tc)) <= get_block_net_limit (resource_limits tc);
  bd_net : net_limit (net (init_limits c tc)) <= max_transaction_net_usage (trx_config c);
  bd_header_net : 0 < max_net_usage_words (trx_of tc) -> net_limit (net (init_limits c tc)) <= max_net_usage_words (trx_of tc) * 8;
  bd_block_cpu : objective_duration_limit (cpu (init_limits c tc)) <= int64_of (get_block_cpu_limit (resource_limits tc));
  bd_cpu : objective_duration_limit (cpu (init_limits c tc)) <= max_transaction_cpu_usage (trx_config c);
  bd_header_cpu : 0 < max_cpu_usage_ms (trx_of tc) -> objective_duration_limit (cpu (init_limits c tc)) <= max_cpu_usage_ms (trx_of tc) * 1000
}.

Lemma init_limits_bounded c tc : is_read_only (type_of tc) = false -> limits_bounded c tc.
Proof.
  intros Hr. unfold init_limits. split; unfold init_limits; rewrite Hr; cbn [net cpu with_net with_cpu negb andb].
  1-3: destruct (Z.leb_spec (max_transaction_net_usage (trx_config c))
         (net_limit (with_net_limit (net tc) (get_block_net_limit (resource_limits tc)) (net_limit_due_to_block (net tc))))); cbn [andb net_limit with_net_limit] in *;
       match goal with |- context [if ?g then with_net_limit _ _ _ else _] => destruct g eqn:Eg end; cbn [net_limit with_net_limit]; lia.
  all: match goal with |- context [if (?x <=? ?y) && true then _ else _] => destruct (Z.leb_spec x y) end;
       cbn [andb objective_duration_limit with_objective with_deadline with_block_deadline] in *;
       match goal with |- context [if ?g then with_objective _ _ _ else _] => destruct g eqn:Eg end;
       cbn [objective_duration_limit with_objective with_deadline]; lia.
Qed.

(** The fields of the configuration are 32-bit, as are the sizes of packed
    transactions.  That the least CPU usage of a transaction is positive is a
    hypothesis, which [chain_config::validate] does not check. *)
Record config_ok (g : transaction_config) : Prop := {
  cg_base : u32 (base_per_transaction_net_usage g);
  cg_leeway : u32 (net_usage_leeway g);
  cg_net : u32 (max_transaction_net_usage g);
  cg_cpu : u32 (max_transaction_cpu_usage g);
  cg_min : 0 < min_transaction_cpu_usage g < 2 ^ 32;
  cg_num : u32 (context_free_discount_net_usage_num g);
  cg_den : u32 (context_free_discount_net_usage_den g)
}.

Definition sizes_ok (t : packed_transaction) : Prop :=
  0 <= packed_trx_size t /\ 0 <= signatures_pack_size t /\ 0 <= packed_context_free_data_size t.

(** *** The use of the network *)

Lemma discounted_size_bounds c size : config_ok (trx_config c) -> u32 size -> 0 <= discounted_size c size < 2 ^ 33.
Proof.
  intros [] Hs. unfold discounted_size.
  destruct (Z.ltb_spec 0 (context_free_discount_net_usage_den (trx_config c))) as [Hd|]; [|cbn [andb]; unfold u32 in *; lia].
  destruct (Z.ltb_spec (context_free_discount_net_usage_num (trx_config c)) (context_free_discount_net_usage_den (trx_config c))) as [Hn|]; cbn [andb]; [|unfold u32 in *; lia].
  unfold u32 in *. set (num := context_free_discount_net_usage_num (trx_config c)) in *. set (den := context_free_discount_net_usage_den (trx_config c)) in *.
  assert (0 <= size * num <= size * den) by nia. assert (size * num <= (2 ^ 32 - 1) * (2 ^ 32 - 1)) by (apply Z.mul_le_mono_nonneg; lia).
  rewrite wrap64_id by (unfold u64; lia). split; [apply Z.div_pos; lia|].
  apply Z.div_lt_upper_bound; [lia|]. nia.
Qed.

Lemma initial_net_usage_positive c t unprunable prunable : config_ok (trx_config c) -> 0 < unprunable < 2 ^ 32 -> u32 prunable ->
  0 < initial_net_usage c t unprunable prunable.
Proof.
  intros C Hu Hp. pose proof (discounted_size_bounds c prunable C Hp) as Hd. destruct C. unfold initial_net_usage, u32, transaction_id_net_usage in *.
  rewrite (wrap64_id (_ + unprunable + _)) by (unfold u64; lia). case_comparison; [|lia]. rewrite wrap64_id by (unfold u64; lia). lia.
Qed.

Lemma packed_sizes c m u p : sizes_ok (packed_trx m) -> get_unprunable_size (packed_trx m) = Ok u -> get_prunable_size (packed_trx m) = Ok p ->
  0 < u < 2 ^ 32 /\ u32 p.
Proof.
  intros (H1 & H2 & H3) Hu Hp. unfold get_unprunable_size, get_prunable_size in *. inv_result.
  unfold fixed_net_overhead_of_packed_trx in *. unfold_widths. lia.
Qed.

(** Between its beginning and its limit *)
Definition usage_within (initial limit : Z) tc : Prop :=
  eager_net_limit (net tc) = limit /\ initial <= trace_net_usage (net tc) <= limit.

Lemma step_usage c tc tc' : step c tc tc' -> add_net_usage c tc (retirement_net_usage c) = Ok tc' \/ net tc' = net tc.
Proof.
  intros [tc1 H|x d tc1 H|tc1 H| |x ram n p tc1 H|x rl H|d H]; [by left|right..].
  - unfold add_ram_usage in H. inv_result. by destruct (0 <? d).
  - apply wasm_checktime_Ok in H. unfold checktime in H. destruct (timer (next_look tc)); [|done..]. by injection H as <-.
  - unfold resume_billing_timer. by match goal with |- context [if ?b then with_deadline_code _ _ _ else _] => destruct b end.
  - unfold set_resource_limits in H. inv_result. by destruct (x0.1).
  - done.
  - done.
Qed.

Lemma usage_within_kept c initial limit tc tc' : config_ok (trx_config c) -> skip_trx_checks c = false -> 0 < initial -> limit < 2 ^ 32 ->
  usage_within initial limit tc -> step c tc tc' -> usage_within initial limit tc'.
Proof.
  intros [] Hk Hi Hl [He Hu] [H| E]%step_usage; [|unfold usage_within; by rewrite E].
  apply add_net_usage_Ok in H as [-> H]. specialize (H Hk). unfold usage_within. cbn. unfold retirement_net_usage, transaction_id_net_usage, u32 in *.
  rewrite wrap64_id in * by (unfold u64; lia). split; [done|lia].
Qed.

(** The blocks' limits, which a transaction does not change *)
Lemma block_limits_same rl rl' : ResourceLimits.state rl' = ResourceLimits.state rl -> config rl' = config rl ->
  get_block_net_limit rl' = get_block_net_limit rl /\ get_block_cpu_limit rl' = get_block_cpu_limit rl.
Proof. intros E1 E2. unfold get_block_net_limit, get_block_cpu_limit. by rewrite E1, E2. Qed.

Lemma block_cpu_limit_small rl : limits_inv rl -> 0 <= get_block_cpu_limit rl <= block_limit_max /\
  int64_of (get_block_cpu_limit rl) = get_block_cpu_limit rl.
Proof.
  intros [_ _ _ [[Mc _ _ _ _] Pc _] _]. unfold get_block_cpu_limit. unfold block_limit_max in *. rewrite wrap64_id by (unfold u64; lia).
  split; [lia|]. unfold int64_of. destruct (Z.leb_spec (max_usage (cpu_limit_parameters (config rl)) - pending_cpu_usage (ResourceLimits.state rl)) int64_max); [done|].
  unfold int64_max in *. lia.
Qed.

Lemma round_net_usage_le u : 0 <= u < 2 ^ 63 -> u <= round_net_usage u /\ round_net_usage u mod 8 = 0 /\ round_net_usage u < u + 8.
Proof. intros H. unfold round_net_usage. rewrite wrap64_id by (unfold u64; lia). split_and!; [lia_div| |lia_div]. by rewrite Z.mod_mul. Qed.

(** ** A transaction that has run *)

(** An input transaction, or a dry run of one, that was admitted and whose
    actions ran; with checks, and without being started again. *)
Section Run.
Context (c : controller) (b : behaviour) (m : transaction_metadata) (a : push_arguments) (s : chain_state) (tc tc1 : transaction_context).
Context (Hk : skip_trx_checks c = false) (C : config_ok (trx_config c)) (Hs : sizes_ok (packed_trx m)).
Context (Hi : is_implicit (meta_type m) = false) (Hr : is_read_only (meta_type m) = false) (L : limits_run (limits_db (tables s))).
Context (A : admit_transaction c m a s = Ok tc) (X : exec c b tc = Ok tc1) (Once : attempt tc1 = 0%nat).

Abbreviation tc0 := (with_input (push_context c m a s)).

(** What is known where the end begins *)
Record ready (rl0 : resource_limits_manager) : Prop := {
  rd_update : update_account_usage (limits_db (tables s)) (accounts_to_bill c tc0) (pending_slot c) = Ok rl0;
  rd_kept : limits_kept rl0 (resource_limits tc1);
  rd_run : limits_run (resource_limits tc1);
  rd_state : ResourceLimits.state (resource_limits tc1) = ResourceLimits.state (limits_db (tables s));
  rd_config : config (resource_limits tc1) = config (limits_db (tables s));
  rd_bill : bill_to_accounts tc1 = accounts_to_bill c tc0;
  rd_sorted : StronglySorted Z.lt (accounts_to_bill c tc0);
  rd_slot : forall x, x ∈ accounts_to_bill c tc0 -> at_slot (resource_limits tc1) (pending_slot c) x;
  rd_input : is_input tc1 = true;
  rd_initialized : is_initialized tc1 = true;
  rd_type : type_of tc1 = meta_type m;
  rd_args : args tc1 = args tc0;
  rd_usage : 0 < trace_net_usage (net tc1) <= net_limit (net tc1);
  rd_net_limit : net_limit (net tc1) = net_limit (net (init_limits c tc0));
  rd_objective : objective_duration_limit (cpu tc1) = objective_duration_limit (cpu (init_limits c tc0));
  rd_session : undo_session tc1 = undo_session tc0;
  rd_transactions : transactions (db tc1) = <[trx_id (packed_trx m) := expiration (unpacked_trx (packed_trx m))]> (transactions s)
}.

Lemma run_ready : exists rl0, ready rl0.
Proof.
  destruct (admit_spec c m a s tc Hi Hr A) as (u & p & rl & bw & tcb & [Eu Ep _ _ _ _ _ B _ _ ->]).
  destruct (packed_sizes c m u p Hs Eu Ep) as [Hu Hp]. pose proof (initial_net_usage_positive c (unpacked_trx (packed_trx m)) u p C Hu Hp) as Hn.
  set (initial := initial_net_usage _ _ _ _) in *. set (tc := with_delay _ _) in *. apply exec_once in X; [|by rewrite Once; destruct B].
  pose proof (run_actions_ran c b _ _ X) as R. destruct (update_account_usage_kept _ _ _ _ (bg_limits _ _ _ _ _ _ B)) as (K1 & K2 & K3 & K4).
  destruct (init_limits_bounded c tc0 Hr) as [_ Bn _ _ _ _]. pose proof (cg_net _ C) as Cn. unfold u32 in Cn.
  assert (U : usage_within initial (eager_net_limit (net tcb)) tc1).
  { refine (run_actions_reaches c (usage_within initial (eager_net_limit (net tcb))) _ b tc tc1 _ X); [|split; [done|]].
    - intros x y. apply usage_within_kept; [done|done|done|]. rewrite (bg_eager _ _ _ _ _ _ B).
      pose proof (Z.mul_div_le (Z.min (net_limit (net (init_limits c tc0))) (wrap64 (account_net_limit bw + net_usage_leeway (trx_config c)))) 8). lia.
    - change (net tc) with (net tcb). split; [|by apply (bg_checked _ _ _ _ _ _ B)]. rewrite (bg_usage _ _ _ _ _ _ B).
      destruct (Z.ltb_spec 0 initial); [|done]. change (trace_net_usage (net tc0)) with 0. rewrite wrap64_id; [lia|].
      unfold initial, initial_net_usage. destruct (0 <? _); apply wrap64_u64. }
  destruct U as [Ue U]. exists rl. pose proof (rn_limits _ _ R) as RL. change (resource_limits tc) with rl in RL.
  pose proof (rn_net _ _ R) as Rn. change (net tc) with (net tcb) in Rn.
  split.
  - apply (bg_limits _ _ _ _ _ _ B).
  - done.
  - by apply (lk_run _ _ RL), K1.
  - by rewrite (lk_state _ _ RL), K2.
  - by rewrite (lk_config _ _ RL), K3.
  - rewrite (rn_bill _ _ R). apply (bg_bill _ _ _ _ _ _ B).
  - apply accounts_to_bill_sorted. constructor.
  - intros x Hx. apply (lk_slot _ _ RL), K4. by right.
  - rewrite (rn_input _ _ R). apply (bg_input _ _ _ _ _ _ B).
  - rewrite (rn_initialized _ _ R). apply (bg_initialized _ _ _ _ _ _ B).
  - unfold type_of. rewrite (rn_args _ _ R). change (args tc) with (args tcb). by rewrite (bg_args _ _ _ _ _ _ B).
  - rewrite (rn_args _ _ R). apply (bg_args _ _ _ _ _ _ B).
  - assert (net_limit (net tc1) = net_limit (net tcb)) as -> by by rewrite Rn.
    rewrite (bg_net_limit _ _ _ _ _ _ B). rewrite (bg_eager _ _ _ _ _ _ B) in U.
    pose proof (Z.mul_div_le (Z.min (net_limit (net (init_limits c tc0))) (wrap64 (account_net_limit bw + net_usage_leeway (trx_config c)))) 8). lia.
  - rewrite Rn. apply (bg_net_limit _ _ _ _ _ _ B).
  - rewrite (rn_objective _ _ R). apply (bg_objective _ _ _ _ _ _ B).
  - rewrite (rn_session _ _ R). apply (bg_session _ _ _ _ _ _ B).
  - by rewrite (rn_transactions _ _ R).
Qed.

(** What is billed is within every limit: [bw] is what the accounts can pay. *)
Record billed_within (bw : bandwidth) (used_net used_cpu : Z) : Prop := {
  bw_net : 0 < used_net <= Z.min (account_net_limit bw) (net_limit (net (init_limits c tc0)));
  bw_cpu : 0 < used_cpu <= Z.min (account_cpu_limit bw) (objective_duration_limit (cpu (init_limits c tc0)));
  bw_minimum : min_transaction_cpu_usage (trx_config c) <= used_cpu;
  bw_words : used_net mod 8 = 0;
  bw_width : u32 used_net /\ u32 used_cpu
}.

Lemma checked_within rl0 d bw tc2 : ready rl0 -> checked c tc1 d bw tc2 ->
  billed_within bw (trace_net_usage (net tc2)) (billed_cpu_time_us (cpu tc2)).
Proof.
  intros R K. pose proof (accounts_paying _ _ _ _ _ (ck_pay _ _ _ _ _ K)) as [_ Pn Pc]. destruct (init_limits_bounded c tc0 Hr) as [_ Bn _ _ Bc _].
  rewrite (ck_usage _ _ _ _ _ K), (ck_billed _ _ _ _ _ K). destruct R. destruct C.
  pose proof (ck_net _ _ _ _ _ K Hk) as Kn. pose proof (ck_minimum _ _ _ _ _ K Hk) as Km. pose proof (ck_cpu _ _ _ _ _ K Hk) as Kc.
  assert (E : 2 ^ 62 < 2 ^ 64 /\ large_number_no_overflow < 2 ^ 62) by (by split; vm_compute).
  rewrite wrap64_id in Kn by (unfold u64; lia). rewrite rd_net_limit0 in *. rewrite rd_objective0 in *. unfold u32 in *.
  destruct (round_net_usage_le (trace_net_usage (net tc1))) as (R1 & R2 & R3); [lia|].
  specialize (Kc ltac:(lia)). split; [lia|lia|lia|done|unfold u32; lia].
Qed.

(** Billing a transaction that passed the checks never fails. *)
Lemma checked_bills tc2 : finalize_checks c tc1 = Ok tc2 ->
  (forall x, x ∈ bill_to_accounts tc2 -> average_small (resource_limits tc2) x) -> is_ok (bill_transaction c tc2) = true.
Proof.
  intros F Small. destruct run_ready as [rl0 R]. destruct (finalize_checks_spec c tc1 tc2 F) as (d & bw & K).
  destruct (checked_within _ _ _ _ R K) as [Wn Wc Wm _ [_ Wu]]. pose proof (accounts_paying _ _ _ _ _ (ck_pay _ _ _ _ _ K)) as [T Pn Pc].
  destruct (ck_same _ _ _ _ _ K) as (Ed & Eb & _).
  assert (El : resource_limits tc2 = resource_limits tc1) by (unfold resource_limits; rewrite Ed; apply (ck_limits _ _ _ _ _ K)).
  apply limits_run_inv in L as I. pose proof (limits_run_inv _ (rd_run _ R)) as I1.
  destruct (block_limits_same _ _ (rd_state _ R) (rd_config _ R)) as [Bn Bc]. destruct (block_cpu_limit_small _ I) as [Sc Ec].
  destruct (init_limits_bounded c tc0 Hr) as [Ln _ _ Lc _ _]. change (resource_limits tc0) with (limits_db (tables s)) in *. rewrite Ec in Lc.
  unfold bill_transaction. rewrite El, Eb, (wrap64_id (billed_cpu_time_us (cpu tc2))) by (unfold u64, u32 in *; lia).
  assert (G : is_ok (add_transaction_usage (resource_limits tc1) (bill_to_accounts tc1) (billed_cpu_time_us (cpu tc2)) (trace_net_usage (net tc2)) (pending_slot c)) = true).
  { apply (add_transaction_usage_told _ _ (account_greylist_limit c false)); [done|rewrite (rd_bill _ R); by apply flat_set_NoDup, (rd_sorted _ R)|lia|lia|].
    intros x Hx. rewrite (rd_bill _ R) in Hx. split_and!.
    - rewrite <- El. apply Small. by rewrite Eb, (rd_bill _ R).
    - by apply (rd_slot _ R).
    - destruct (T x) as (n & p & Ht & Hn & Hp); [by rewrite (rd_bill _ R)|]. exists n, p. split; [done|]. lia. }
  by destruct (add_transaction_usage _ _ _ _ _).
Qed.
End Run.

(** ** Limits on memory *)

(** The account uses no more memory than its limit, as the end of a transaction
    verifies. *)
Definition within_ram rl (x : account_name) : Prop := verify_account_ram_usage rl x = Ok ().

Lemma within_ram_rows rl x : within_ram rl x <-> exists l u, get_account_limits rl x = Ok l /\ usages rl !! x = Some u /\
  (ram_bytes l < 0 \/ ram_usage u <= ram_bytes l).
Proof.
  unfold within_ram, verify_account_ram_usage. split.
  - intros H. apply bind_Ok in H as (l & Hl & H). apply bind_Ok in H as (u & Hu%get_row_Ok & H). exists l, u. split_and!; [done..|].
    destruct (Z.ltb_spec (ram_bytes l) 0), (Z.leb_spec (ram_usage u) (ram_bytes l)); try done; lia.
  - intros (l & u & Hl & Hu & H). rewrite Hl, Hu. cbn.
    destruct (Z.ltb_spec (ram_bytes l) 0), (Z.leb_spec (ram_usage u) (ram_bytes l)); try done; lia.
Qed.

(** Memory and its limits are not looked at where an account uses the network and
    the processor. *)
Definition same_ram rl rl' : Prop := limits rl' = limits rl /\ forall x, option_map ram_usage (usages rl' !! x) = option_map ram_usage (usages rl !! x).

Lemma same_ram_within rl rl' x : same_ram rl rl' -> within_ram rl x -> within_ram rl' x.
Proof.
  intros [El Eu] (l & u & Hl & Hu & H)%within_ram_rows. apply within_ram_rows. specialize (Eu x). rewrite Hu in Eu.
  destruct (usages rl' !! x) as [u'|]; [|done]. injection Eu as Eu. exists l, u'. unfold get_account_limits in *. by rewrite El, Eu.
Qed.

#[export] Instance same_ram_preorder : PreOrder same_ram.
Proof. split; [done|]. intros rl1 rl2 rl3 [L1 U1] [L2 U2]. split; [congruence|]. intros x. by rewrite U2. Qed.

Lemma with_usage_same_ram rl x u u' : usages rl !! x = Some u -> ram_usage u' = ram_usage u -> same_ram rl (with_usage rl x u').
Proof.
  intros Hu E. split; [done|]. intros y. cbn. destruct (decide (y = x)) as [->|].
  - rewrite lookup_insert_eq, Hu. cbn. by rewrite E.
  - by rewrite lookup_insert_ne.
Qed.

Lemma foldM_same_ram {A} (f : resource_limits_manager -> A -> result resource_limits_manager) l rl rl' :
  (forall rl x rl', f rl x = Ok rl' -> same_ram rl rl') -> foldM f rl l = Ok rl' -> same_ram rl rl'.
Proof.
  intros Hf. apply (foldM_ind (same_ram rl)); [|done]. intros rl1 x rl2 _ H E. etransitivity; [exact H|by eapply Hf].
Qed.

Lemma update_account_usage_ram rl accounts slot rl' : update_account_usage rl accounts slot = Ok rl' -> same_ram rl rl'.
Proof.
  apply foldM_same_ram. intros rl1 x rl2 H. unfold add_account_usage in H. inv_result. apply get_row_Ok in E. by eapply with_usage_same_ram.
Qed.

Lemma add_transaction_usage_ram rl accounts cpu net slot rl' : add_transaction_usage rl accounts cpu net slot = Ok rl' -> same_ram rl rl'.
Proof.
  unfold add_transaction_usage. intros H. apply bind_Ok in H as (rl1 & F & H).
  assert (S : same_ram rl rl1).
  { revert F. apply foldM_same_ram. intros rl2 x rl3 E. unfold bill_account, add_account_usage in E. inv_result.
    match goal with H : get_row _ = Ok _ |- _ => apply get_row_Ok in H end. by eapply with_usage_same_ram. }
  inv_result. exact S.
Qed.

(** Who was within the limit is, or is verified at the end. *)
Definition ram_watched rl0 tc : Prop := forall x, within_ram rl0 x -> x ∈ validate_ram_usage tc \/ within_ram (resource_limits tc) x.

Lemma add_pending_ram_within rl account d rl' x : limits_inv rl -> add_pending_ram_usage rl account d = Ok rl' ->
  x <> account \/ d <= 0 -> within_ram rl x -> within_ram rl' x.
Proof.
  intros I H Hx (l & u & Hl & Hu & Hw)%within_ram_rows. apply within_ram_rows. unfold add_pending_ram_usage in H.
  destruct (Z.eqb_spec d 0) as [->|Hd]; [injection H as <-; by exists l, u|]. apply bind_Ok in H as (v & Hv%get_row_Ok & H). inv_result.
  exists l. unfold get_account_limits in *. cbn. destruct (decide (x = account)) as [->|Hne].
  - rewrite Hv in Hu. injection Hu as ->. eexists. rewrite lookup_insert_eq. split_and!; [done..|]. cbn. destruct Hx as [|Hx]; [done|].
    destruct (ri_usages _ (li_rows _ I) _ _ Hv) as [_ _ Hr]. unfold u64 in Hr.
    assert (Hw' : wrap64 (- d) <= ram_usage u) by (destruct (Z.leb_spec 0 d); [lia|cbn in E0; lia]).
    destruct (wrap64_u64 (- d)) as [Hw0 _]. enough (wrap64 (ram_usage u + d) = ram_usage u - wrap64 (- d)) as -> by lia.
    unfold wrap64 in *. rewrite <- (Z.mod_small (ram_usage u - - d mod 2 ^ 64) (2 ^ 64)) by lia.
    rewrite Zminus_mod_idemp_r. f_equal. lia.
  - exists u. by rewrite lookup_insert_ne.
Qed.

Lemma set_account_limits_within rl account ram net cpu decreased rl' x : set_account_limits rl account ram net cpu = Ok (decreased, rl') ->
  x <> account \/ decreased = false -> within_ram rl x -> within_ram rl' x.
Proof.
  intros H Hx (l & u & Hl & Hu & Hw)%within_ram_rows. apply within_ram_rows. unfold set_account_limits in H. apply bind_Ok in H as (l0 & H0 & H).
  injection H as <- <-. unfold get_account_limits in *. cbn. destruct (decide (x = account)) as [->|Hne].
  - destruct Hx as [|Hx]; [done|]. rewrite lookup_insert_eq. eexists _, u. split_and!; [done..|]. cbn.
    assert (l0 = l) as -> by (destruct (limits rl !! (true, account)); congruence).
    destruct (Z.leb_spec 0 ram), (Z.ltb_spec (ram_bytes l) 0), (Z.ltb_spec ram (ram_bytes l)); try done; lia.
  - exists l, u. rewrite !lookup_insert_ne by congruence. done.
Qed.

Lemma initialize_account_within rl account rl' x : limits_inv rl -> initialize_account rl account = Ok rl' -> within_ram rl x -> within_ram rl' x.
Proof.
  intros I H (l & u & Hl & Hu & Hw)%within_ram_rows. apply within_ram_rows. unfold initialize_account in H. inv_result.
  apply bool_decide_eq_true in E0. assert (Hne : account <> x) by (intros ->; by rewrite E0 in Hu).
  exists l, u. unfold get_account_limits in *. cbn. rewrite !lookup_insert_ne by congruence. done.
Qed.

Lemma step_ram_watched c rl0 tc tc' : limits_run (resource_limits tc) /\ ram_watched rl0 tc -> step c tc tc' ->
  limits_run (resource_limits tc') /\ ram_watched rl0 tc'.
Proof.
  intros [Lr Hp] Hs. split; [by apply (lk_run _ _ (rn_limits _ _ (step_ran _ _ _ Hs)))|]. apply limits_run_inv in Lr as I. revert Hs.
  intros [tc1 H|y d tc1 H|tc1 H| |y ram n p tc1 H|y rl H|d H] x Hx; specialize (Hp x Hx).
  - apply add_net_usage_Ok in H as [-> _]. exact Hp.
  - unfold add_ram_usage in H. apply bind_Ok in H as (rl & E & [= <-]). destruct (Z.ltb_spec 0 d).
    + cbn. rewrite flat_set_insert_elem. destruct (decide (x = y)); [by left; left|]. destruct Hp as [|Hp]; [by left; right|]. right.
      eapply add_pending_ram_within; [exact I|exact E|by left|exact Hp].
    + destruct Hp as [|Hp]; [by left|right]. eapply add_pending_ram_within; [exact I|exact E|by right|exact Hp].
  - apply wasm_checktime_Ok in H. unfold checktime in H. destruct (timer (next_look tc)); [|done..]. by injection H as <-.
  - unfold resume_billing_timer. by match goal with |- context [if ?b then with_deadline_code _ _ _ else _] => destruct b end.
  - unfold set_resource_limits in H. inv_result. destruct x0 as [[] rl]; cbn in *.
    + cbn. rewrite flat_set_insert_elem. destruct (decide (x = y)); [by left; left|]. destruct Hp as [|Hp]; [by left; right|]. right.
      eapply set_account_limits_within; [eassumption|by left|exact Hp].
    + destruct Hp as [|Hp]; [by left|right]. eapply set_account_limits_within; [eassumption|by right|exact Hp].
  - destruct Hp as [|Hp]; [by left|right]. by eapply initialize_account_within.
  - unfold resource_limits in *. cbn. by rewrite H.
Qed.

(** What admission leaves of any transaction that can change the database *)
Lemma admit_limits c m a s tc : is_read_only (meta_type m) = false -> admit_transaction c m a s = Ok tc -> exists accounts rl,
  update_account_usage (limits_db (tables s)) accounts (pending_slot c) = Ok rl /\ resource_limits tc = rl /\ validate_ram_usage tc = [] /\
  undo_session tc = start_session c (meta_type m) s /\ args tc = args (push_context c m a s).
Proof.
  intros Hr H. destruct (is_implicit (meta_type m)) eqn:Hi.
  - unfold admit_transaction in H. cbv zeta in H. rewrite Hi, Hr in H. cbn [negb] in H. rewrite andb_false_r in H. cbn [andb] in H.
    apply bind_Ok in H as (tc0 & H0 & H). apply bind_Ok in H as ([] & _ & [= <-]). unfold init_for_implicit_trx in H0.
    match type of H0 with (if ?g then _ else _) = _ => destruct g; [done|] end.
    apply init_begun in H0 as (rl & bw & B); [|done]. exists (accounts_to_bill c (push_context c m a s)), rl. split_and!.
    + apply (bg_limits _ _ _ _ _ _ B).
    + unfold resource_limits. cbn. by rewrite (bg_db _ _ _ _ _ _ B).
    + apply (bg_ram _ _ _ _ _ _ B).
    + apply (bg_session _ _ _ _ _ _ B).
    + apply (bg_args _ _ _ _ _ _ B).
  - destruct (admit_spec c m a s tc Hi Hr H) as (u & p & rl & bw & tcb & A). pose proof (ad_init _ _ _ _ _ _ _ _ _ _ A) as B.
    rewrite (ad_result _ _ _ _ _ _ _ _ _ _ A). exists (accounts_to_bill c (with_input (push_context c m a s))), rl. split_and!.
    + apply (bg_limits _ _ _ _ _ _ B).
    + done.
    + apply (bg_ram _ _ _ _ _ _ B).
    + apply (bg_session _ _ _ _ _ _ B).
    + apply (bg_args _ _ _ _ _ _ B).
Qed.

(** *** To the end of a transaction, however often it starts again *)

Section Quota.
Context (c : controller) (s : chain_state) (L : limits_run (limits_db (tables s))).

(** The session goes back to where the transaction began. *)
Definition watched tc : Prop := limits_run (resource_limits tc) /\ ram_watched (limits_db (tables s)) tc /\
  undo_session tc = start_session c (type_of tc) s.

Lemma start_session_cases t : (forall s', start_session c t s' = Some s') \/ (forall s', start_session c t s' = None).
Proof. unfold start_session. destruct (negb _ && negb _); auto. Qed.

Lemma step_watched tc tc' : watched tc -> step c tc tc' -> watched tc'.
Proof.
  intros (Lr & Hp & Hu) Hs. destruct (step_ram_watched c _ _ _ (conj Lr Hp) Hs) as [Lr' Hp'].
  split_and!; [done..|]. unfold type_of in *. by rewrite (rn_session _ _ (step_ran _ _ _ Hs)), (rn_args _ _ (step_ran _ _ _ Hs)).
Qed.

Lemma admit_watched m a tc : is_read_only (meta_type m) = false -> admit_transaction c m a s = Ok tc -> watched tc /\ validate_ram_usage tc = [].
Proof.
  intros Hr H. destruct (admit_limits c m a s tc Hr H) as (accounts & rl & U & El & Er & Es & Ea). split; [|done]. split_and!.
  - rewrite El. by eapply run_update.
  - intros x Hx. right. rewrite El. eapply same_ram_within; [by eapply update_account_usage_ram|done].
  - unfold type_of. by rewrite Es, Ea.
Qed.

(** Undoing leaves what was there, or what is, where there is no session. *)
Lemma undone_cases tc : watched tc -> (undone tc = s /\ forall s', start_session c (type_of tc) s' = Some s') \/
  (undone tc = db tc /\ forall s', start_session c (type_of tc) s' = None).
Proof.
  intros (_ & _ & E). unfold undone. rewrite E. destruct (start_session_cases (type_of tc)) as [H|H]; rewrite H; auto.
Qed.

Lemma exec_watched b tc tc' : watched tc -> validate_ram_usage tc = [] -> exec c b tc = Ok tc' -> watched tc'.
Proof.
  intros W Ev [[H _]|(_ & H & _)]%exec_cases; (eapply (run_actions_reaches c watched); [apply step_watched|..|exact H]); [done|].
  destruct (reset_ran c tc) as (_ & Ed & Ea & _). pose proof (undone_cases tc W) as U. destruct W as (Lr & Hp & Es).
  assert (E : undo_session (reset c tc) = start_session c (type_of tc) (undone tc)).
  { unfold reset. cbv zeta. by rewrite (rn_session _ _ (resume_billing_timer_ran _ _)). }
  unfold watched, ram_watched, type_of, resource_limits. rewrite E, Ed, Ea. destruct U as [[-> _]|[-> H0]]; split_and!; auto.
  - intros x Hx. right. destruct (Hp x Hx) as [Hin|]; [|done]. rewrite Ev in Hin. by apply elem_of_nil in Hin.
  - unfold type_of in H0. by rewrite !H0.
Qed.

Lemma finalize_watched tc tc' : watched tc -> is_read_only (type_of tc) = false -> finalize c tc = Ok tc' ->
  (forall x, within_ram (limits_db (tables s)) x -> within_ram (resource_limits tc') x) /\ (undone tc' = s \/ undone tc' = db tc').
Proof.
  intros (Lr & Hp & Es) Hr H. destruct (finalize_spec c tc tc' Hr H) as (d & bw & tc2 & _ & K & B). unfold bill_transaction in B.
  apply bind_Ok in B as (rl & B & [= <-]). destruct (ck_same _ _ _ _ _ K) as (Ed & _ & _ & _ & Eu & _).
  assert (El : resource_limits tc2 = resource_limits tc) by (unfold resource_limits; rewrite Ed; apply (ck_limits _ _ _ _ _ K)). split.
  - intros x Hx. change (within_ram rl x). eapply same_ram_within; [by eapply add_transaction_usage_ram|]. rewrite El.
    destruct (Hp x Hx) as [Hin|]; [|done]. by apply (ck_ram _ _ _ _ _ K).
  - unfold undone. cbn. rewrite Eu, Es. destruct (start_session_cases (type_of tc)) as [->| ->]; auto.
Qed.
End Quota.

(** C8: No transaction leaves an account over its limit of memory that was not
    over it before, whether it uses more memory, its limit is lowered, or the
    transaction is interrupted and starts again. *)
Theorem ram_limits_are_kept c b m a p t p' :
  limits_run (limits_db (tables p.1)) -> is_read_only (meta_type m) = false ->
  push_transaction c b m a p = Ok (t, p') ->
  forall x, within_ram (limits_db (tables p.1)) x -> within_ram (limits_db (tables p'.1)) x.
Proof.
  intros L Hr H x Hx. unfold push_transaction in H. destruct (negb _); [|done].
  destruct (run_transaction c b m a p.1 ≫= _) as [r|e] eqn:E; [injection H as ->|by destruct (is_bad_block_exception e); simplify_eq].
  apply bind_Ok in E as (tcf & E & P). unfold run_transaction in E. apply bind_Ok in E as (tc & A & E). apply bind_Ok in E as (tc1 & X & F).
  destruct (admit_watched c p.1 L m a tc Hr A) as [W Ev]. pose proof (exec_watched c p.1 L b tc tc1 W Ev X) as W1.
  assert (Et : type_of tc1 = meta_type m).
  { unfold type_of. rewrite (exec_args _ _ _ _ X). by destruct (admit_limits c m a p.1 tc Hr A) as (? & ? & _ & _ & _ & _ & ->). }
  destruct (finalize_watched c p.1 tc1 tcf W1) as [Q U]; [by rewrite Et|done|].
  unfold push_result in P. apply bind_Ok in P as (r & _ & [= <- <-]).
  repeat match goal with |- context [if ?g then _ else _] => destruct g end; cbn; try by apply Q.
  all: destruct U as [->| ->]; [done|by apply Q].
Qed.

(** ** Accepted transactions *)

(** No compilation of a contract interrupts it; a producer is never.  This is a
    hypothesis of what is said about the database after a transaction: [reset] takes
    back what [init] wrote, and it is not written again. *)
Definition uninterrupted a : Prop :=
  push_explicit_billed_cpu_time a = false \/ forall i, oc_compile_interrupt (push_clock a 0 i) = false.

Lemma admitted_once c b m a s tc tc1 : is_read_only (meta_type m) = false -> is_implicit (meta_type m) = false -> uninterrupted a ->
  admit_transaction c m a s = Ok tc -> exec c b tc = Ok tc1 -> attempt tc1 = 0%nat.
Proof.
  intros Hr Hi U A X. destruct (admit_spec c m a s tc Hi Hr A) as (u & p & rl & bw & tcb & D).
  pose proof (ad_init _ _ _ _ _ _ _ _ _ _ D) as B. rewrite (ad_result _ _ _ _ _ _ _ _ _ _ D) in X.
  apply exec_uninterrupted in X as [_ ->]; [exact (bg_attempt _ _ _ _ _ _ B)|].
  intros [He [i Hoc]]. cbn in He, Hoc. rewrite (bg_args _ _ _ _ _ _ B) in He, Hoc. rewrite (bg_attempt _ _ _ _ _ _ B) in Hoc. cbn in He, Hoc.
  destruct U as [U|U]; [by rewrite U in He|by rewrite U in Hoc].
Qed.

(** Who may do what does not depend on resource limits. *)
Section Limits.
Context (d : database) (rl : resource_limits_manager).
Abbreviation d' := (with_resource_limits d rl).

Lemma may_use_limits auth q : may_use d' auth q -> may_use d auth q.
Proof.
  intros (p & Hp & Ha). exists p. split; [exact Hp|]. clear Hp. induction Ha as [|p q r H1 H2 _ IH]; [constructor|].
  by eapply above_parent.
Qed.

Lemma may_use_named_limits auth account name : may_use_named d' auth account name -> may_use_named d auth account name.
Proof. intros (q & Hq & H%may_use_limits). by exists q. Qed.

Lemma may_use_minimum_limits auth account code type : may_use_minimum d' auth account code type -> may_use_minimum d auth account code type.
Proof.
  unfold may_use_minimum. change (lookup_linked_permission d' account code type) with (lookup_linked_permission d account code type).
  destruct (lookup_linked_permission d account code type); [intros H Hne|intros H]; by apply may_use_named_limits; auto.
Qed.

Lemma action_authorized_limits ctx act : action_authorized d' ctx act -> action_authorized d ctx act.
Proof.
  unfold action_authorized. destruct (special act); [|intros H auth Hin; by apply may_use_minimum_limits, H].
  intros (auth & Ea & H). exists auth. split; [done|]. destruct (act_data act) as [u|u|l|u|u|].
  - destruct H as (H1 & H2 & q & Hq & H%may_use_limits). split_and!; [done..|]. by exists q.
  - destruct H as (H1 & H2 & H%may_use_named_limits). done.
  - destruct H as (H1 & H2 & H3 & H%may_use_minimum_limits). done.
  - destruct H as (H1 & H2 & name & Hl & H). split_and!; [done..|]. exists name. split; [exact Hl|]. intros Hne. by apply may_use_named_limits, H.
  - destruct H as (H1 & (q & Hq & H%may_use_limits) & H3). split_and!; [done|by exists q|exact H3].
  - done.
Qed.

Lemma authorized_limits ctx l keys perms delay sat :
  transaction_authorized d' ctx l keys perms delay sat -> transaction_authorized d ctx l keys perms delay sat.
Proof. intros H act Hin. destruct (H act Hin) as [Ha Hs]. split; [by apply action_authorized_limits|exact Hs]. Qed.
End Limits.

(** What the receipt says, against the limits of the block, the configuration and
    the header; where a header's limit is 0 there is none. *)
Record within_limits c (s : chain_state) (t : transaction) (used_net used_cpu : Z) : Prop := {
  wl_net : 0 < used_net <= get_block_net_limit (limits_db (tables s)) /\ used_net <= max_transaction_net_usage (trx_config c);
  wl_cpu : min_transaction_cpu_usage (trx_config c) <= used_cpu <= get_block_cpu_limit (limits_db (tables s)) /\
           used_cpu <= max_transaction_cpu_usage (trx_config c);
  wl_header : (0 < max_net_usage_words t -> used_net <= max_net_usage_words t * 8) /\ (0 < max_cpu_usage_ms t -> used_cpu <= max_cpu_usage_ms t * 1000)
}.

(** What the account is told it has left covers it, where it has limits. *)
Definition account_pays c rl (used_net used_cpu : Z) (x : account_name) : Prop := exists n p,
  told rl x (account_greylist_limit c false x) n p /\ (0 <= n -> used_net <= n) /\ (0 <= p -> used_cpu <= p).

Section Accepted.
Context (c : controller) (b : behaviour) (m : transaction_metadata) (a : push_arguments) (s : chain_state) (tc tc1 tcf : transaction_context).
Context (Hk : skip_trx_checks c = false) (C : config_ok (trx_config c)) (Hs : sizes_ok (packed_trx m)).
Context (Hi : is_implicit (meta_type m) = false) (Hr : is_read_only (meta_type m) = false) (L : limits_run (limits_db (tables s))).
Context (A : admit_transaction c m a s = Ok tc) (X : exec c b tc = Ok tc1) (Once : attempt tc1 = 0%nat) (F : finalize c tc1 = Ok tcf).

Abbreviation tc0 := (with_input (push_context c m a s)).

(** How it ended: [n] and [p] are what is billed. *)
Record ended (n p : Z) : Prop := {
  en_usage : trace_net_usage (net tcf) = n;
  en_billed : billed_cpu_time_us (cpu tcf) = p;
  en_delay : delay tcf = delay tc1;
  en_undone : undone tcf = default (db tcf) (start_session c (meta_type m) s);
  en_words : n mod 8 = 0 /\ u32 n /\ u32 p;
  en_within : within_limits c s (unpacked_trx (packed_trx m)) n p;
  en_transactions : transactions (db tcf) = <[trx_id (packed_trx m) := expiration (unpacked_trx (packed_trx m))]> (transactions s);
  en_paid : exists rl, limits_run rl /\ (forall x, x ∈ accounts_to_bill c tc0 -> account_pays c rl n p x) /\
    add_transaction_usage rl (accounts_to_bill c tc0) p n (pending_slot c) = Ok (limits_db (tables (db tcf)))
}.

Lemma transaction_ended : exists n p, ended n p.
Proof.
  destruct (run_ready c b m a s tc tc1 Hk C Hs Hi Hr L A X Once) as [rl0 R].
  assert (Hr1 : is_read_only (type_of tc1) = false) by by rewrite (rd_type _ _ _ _ _ _ R).
  destruct (finalize_spec _ _ _ Hr1 F) as (d & bw & tc2 & FC & K & B). pose proof (checked_within c m a s tc1 Hk C Hr Once rl0 d bw tc2 R K) as W.
  pose proof (accounts_paying _ _ _ _ _ (ck_pay _ _ _ _ _ K)) as [T _ _].
  destruct (ck_same _ _ _ _ _ K) as (Ed & Eb & Ea & El & Es & _). unfold bill_transaction in B. apply bind_Ok in B as (rl & B & [= Ef]).
  assert (Erl : resource_limits tc2 = resource_limits tc1) by (unfold resource_limits; rewrite Ed; apply (ck_limits _ _ _ _ _ K)).
  rewrite Erl, Eb, (rd_bill _ _ _ _ _ _ R) in B. destruct W as [Wn Wc Wm W8 [Wu Wv]].
  apply limits_run_inv in L as I. destruct (block_cpu_limit_small _ I) as [Sc Ec].
  destruct (init_limits_bounded c tc0 Hr) as [L1 L2 L3 L4 L5 L6]. change (resource_limits tc0) with (limits_db (tables s)) in *. rewrite Ec in L4.
  change (trx_of tc0) with (unpacked_trx (packed_trx m)) in *.
  rewrite wrap64_id in B by (unfold u64, u32 in *; lia).
  exists (trace_net_usage (net tc2)), (billed_cpu_time_us (cpu tc2)). split.
  - by rewrite <- Ef.
  - by rewrite <- Ef.
  - by rewrite <- Ef.
  - unfold undone. rewrite <- Ef. cbn. by rewrite Es, (rd_session _ _ _ _ _ _ R).
  - done.
  - split; [lia..|]. split; intros; [specialize (L3 ltac:(done))|specialize (L6 ltac:(done))]; lia.
  - rewrite <- Ef. cbn. rewrite Ed. cbn. apply (rd_transactions _ _ _ _ _ _ R).
  - exists (resource_limits tc1). rewrite <- Ef. split_and!; [apply (rd_run _ _ _ _ _ _ R)| |exact B]. intros x Hx.
    rewrite (rd_bill _ _ _ _ _ _ R) in T. destruct (T x Hx) as (n & p & Ht & Hn & Hp). exists n, p. split; [done|]. lia.
Qed.
End Accepted.

(** C7: An input transaction for which a receipt is pushed, by a node that makes
    all checks, in a block whose status is not [ephemeral], and which no compilation
    of a contract has interrupted, is authorized, by keys that it is signed with, was
    not in a block before and is remembered, has not expired, and refers to a
    block of this chain; it is billed within the limits of the block, the
    configuration and its header, and each account that it bills could pay, and
    did.  The configuration and the sizes of the transaction are within the widths
    of their types, the least CPU usage of a transaction is positive
    ([config_ok], [sizes_ok]), and the tables of permissions and of resource limits
    are ones that native actions, transactions and blocks lead to ([accounts_run],
    [limits_run]).  (A transaction that is interrupted starts again after the undo of the session
    that had recorded its id, so it is not remembered:
    [TransactionExamples.interrupted_transaction_is_forgotten].) *)
Theorem accepted_transactions_are_checked c b m a p t p' r :
  skip_trx_checks c = false -> pending_block_status c <> ephemeral -> config_ok (trx_config c) -> sizes_ok (packed_trx m) ->
  meta_type m = input -> uninterrupted a -> accounts_run (tables p.1) -> limits_run (limits_db (tables p.1)) ->
  push_transaction c b m a p = Ok (t, p') -> trace_receipt t = Some r ->
  let trx := unpacked_trx (packed_trx m) in
  let used_net := net_usage_words r * 8 in
  let used_cpu := cpu_usage_us r in
  let accounts := accounts_to_bill c (push_context c m a p.1) in
  transaction_authorized (tables p.1) (auth_context c) (actions trx) (recovered_keys m) [] (delay_sec trx * 1000000) [] /\
  (transactions p.1 !! trx_id (packed_trx m) = None /\ transactions p'.1 !! trx_id (packed_trx m) = Some (expiration trx)) /\
  (pending_block_time (auth_context c) <= expiration trx * 1000000 <=
     pending_block_time (auth_context c) + max_transaction_lifetime (trx_config c) * 1000000) /\
  (exists id, block_summaries p.1 !! ref_block_num trx = Some id /\ verify_reference_block trx id = true) /\
  p'.2 = p.2 ++ [TransactionReceipt r (packed_trx m)] /\
  within_limits c p.1 trx used_net used_cpu /\
  (exists rl, limits_run rl /\ (forall x, x ∈ accounts -> account_pays c rl used_net used_cpu x) /\
     add_transaction_usage rl accounts used_cpu used_net (pending_slot c) = Ok (limits_db (tables p'.1))).
Proof.
  intros Hk Hp C Hs Ht U D L H Er. assert (Hi : is_implicit (meta_type m) = false) by by rewrite Ht.
  assert (Hr : is_read_only (meta_type m) = false) by by rewrite Ht.
  unfold push_transaction in H. destruct (negb _); [|done].
  destruct (run_transaction c b m a p.1 ≫= _) as [[t' p'']|e] eqn:E; [injection H as -> ->|by destruct (is_bad_block_exception e); simplify_eq].
  apply bind_Ok in E as (tcf & E & P). unfold run_transaction in E. apply bind_Ok in E as (tc & A & E). apply bind_Ok in E as (tc1 & X & F).
  pose proof (admitted_once c b m a p.1 tc tc1 Hr Hi U A X) as Once.
  destruct (transaction_ended c b m a p.1 tc tc1 tcf Hk C Hs Hi Hr L A X Once F) as (n & q & N).
  destruct (admit_spec c m a p.1 tc Hi Hr A) as (u & v & rl & bw & tcb & AD). pose proof AD as [_ _ _ _ Ae At _ B Af Aa _].
  unfold push_result in P. rewrite Hi, Hr, Ht in P. cbn [negb andb is_transient] in P.
  rewrite (bool_decide_eq_false_2 _ Hp), andb_false_r in P. unfold push_receipt in P. apply bind_Ok in P as ([h rs] & P & [= <- <-]).
  destruct N as [<- <- _ _ (W8 & Wn & Wc) W Tx Paid]. inv_result. cbn [trace_receipt] in Er. injection Er as <-. cbn [fst snd net_usage_words cpu_usage_us].
  assert (En : wrap32 (trace_net_usage (net tcf) / 8) * 8 = trace_net_usage (net tcf)).
  { unfold wrap32, u32 in *. rewrite Z.mod_small; [lia_div|lia_div]. }
  assert (Ec : wrap32 (billed_cpu_time_us (cpu tcf)) = billed_cpu_time_us (cpu tcf)) by (unfold wrap32, u32 in *; by apply Z.mod_small).
  cbv zeta. rewrite En, Ec. split_and!.
  - apply (authorized_limits _ rl). specialize (Aa Hk). rewrite Ht in Aa.
    refine (check_authorization_authorized _ _ _ _ _ _ _ _ _ Aa). by apply run_other.
  - done.
  - cbn. rewrite Tx. by rewrite lookup_insert_eq.
  - unfold validate_expiration in Ae. specialize (Ae Hk). inv_result. lia.
  - unfold validate_expiration in Ae. specialize (Ae Hk). inv_result. lia.
  - specialize (At Hk). unfold validate_tapos in At. apply bind_Ok in At as (id & Hid%get_row_Ok & At). exists id. split; [done|]. by destruct (verify_reference_block _ _).
  - done.
  - done.
  - exact Paid.
Qed.

(** C38: Billing a transaction that passed the checks of its end never fails, as
    [add_transaction_usage] promises, where the averages of the accounts leave
    room for it: for input transactions, on a node that makes all checks, with a
    configuration and sizes within their widths, a positive least CPU usage of a
    transaction and resource limits that [limits_run] leads to, and when no compilation of a contract has interrupted the
    transaction (one that starts again checks its limits against averages that have
    not been brought to the time of the block, since the undo took that back; this
    is not covered). *)
Theorem billing_never_fails c b m a s tc tc1 tc2 :
  skip_trx_checks c = false -> config_ok (trx_config c) -> sizes_ok (packed_trx m) ->
  is_implicit (meta_type m) = false -> is_read_only (meta_type m) = false -> uninterrupted a -> limits_run (limits_db (tables s)) ->
  admit_transaction c m a s = Ok tc -> exec c b tc = Ok tc1 -> finalize_checks c tc1 = Ok tc2 ->
  (forall x, x ∈ bill_to_accounts tc2 -> average_small (resource_limits tc2) x) ->
  exists tc3, finalize c tc1 = Ok tc3.
Proof.
  intros Hk C Hs Hi Hr U L A X F Small. pose proof (admitted_once c b m a s tc tc1 Hr Hi U A X) as Once.
  destruct (run_ready c b m a s tc tc1 Hk C Hs Hi Hr L A X Once) as [rl0 R].
  pose proof (checked_bills c b m a s tc tc1 Hk C Hs Hi Hr L A X Once tc2 F Small) as B.
  unfold finalize. rewrite (rd_initialized _ _ _ _ _ _ R), (rd_type _ _ _ _ _ _ R), Hr, F. cbn [mbind result_bind].
  destruct (bill_transaction c tc2) as [tc3|]; [by exists tc3|done].
Qed.
