(* ===== verification/BlockValidation.v ===== *)
(** * The blocks that a producer makes

    No code of its own: what [push_transaction] of [TransactionContext] accepts
    from a producer, [apply_transactions] accepts from a validator, with the same
    result. *)

From S2P Require Import Prelude ChainTypes Policies ResourceLimits Authority Authorization TransactionContext TransactionRun TransactionLimits Transactions.
Open Scope Z_scope.

Implicit Types (tc tv : transaction_context) (rl : resource_limits_manager) (m : transaction_metadata).

(** ** A producer and a validator *)

(** They know the same chain. *)
Record agree (c c' : controller) : Prop := {
  ag_config : trx_config c' = trx_config c;
  ag_context : auth_context c' = auth_context c;
  ag_first : only_bill_first_authorizer c' = only_bill_first_authorizer c;
  ag_deferred : disable_deferred_trxs_stage_1 c' = disable_deferred_trxs_stage_1 c
}.

(** It makes a block, and holds no account to less than the chain does. *)
Record producing (c : controller) : Prop := {
  pr_status : pending_block_status c = incomplete;
  pr_greylist : resource_greylist c = [];
  pr_greylist_limit : greylist_limit c = maximum_elastic_resource_multiplier
}.

(** It validates a block in full. *)
Record validating (c : controller) : Prop := {
  va_status : pending_block_status c = complete;
  va_light : light_validation_allowed c = false
}.

Section Validation.
Context (c c' : controller) (G : agree c c') (Hp : producing c) (Hv : validating c').

Lemma producer_checks : skip_trx_checks c = false /\ skip_auth_check c = false.
Proof. unfold skip_auth_check, skip_trx_checks, light_validation_allowed. rewrite (pr_status _ Hp). cbn. by rewrite andb_false_r. Qed.

Lemma validator_checks : skip_trx_checks c' = false /\ skip_auth_check c' = false.
Proof. split; apply Hv. Qed.

Lemma no_light : skip_trx_checks c' = skip_trx_checks c.
Proof. by rewrite (proj1 producer_checks), (proj1 validator_checks). Qed.

Lemma same_sessions t s : start_session c' t s = start_session c t s.
Proof. unfold start_session, skip_db_sessions. by rewrite (pr_status _ Hp), (va_status _ Hv). Qed.

Lemma same_slot : pending_slot c' = pending_slot c.
Proof. unfold pending_slot. by rewrite (ag_context _ _ G). Qed.

Lemma same_greylist_limit x : account_greylist_limit c' false x = account_greylist_limit c false x.
Proof.
  unfold account_greylist_limit, is_speculative_block. rewrite (pr_status _ Hp), (va_status _ Hv), (pr_greylist _ Hp), (pr_greylist_limit _ Hp). done.
Qed.

Lemma same_bandwidth rl b x : bandwidth_with c' false rl b x = bandwidth_with c false rl b x.
Proof. unfold bandwidth_with. by rewrite same_greylist_limit. Qed.

(** What the accounts can pay, which nobody greylists *)
Lemma same_can_pay rl accounts b : accounts_can_pay c false rl accounts = Ok b ->
  accounts_can_pay c' false rl accounts = Ok b.
Proof.
  unfold accounts_can_pay. intros H. apply bind_Ok in H as (b0 & H & E).
  assert (N : greylisted_net b0 = false /\ greylisted_cpu b0 = false).
  { revert H. apply (foldM_ind (fun b0 => greylisted_net b0 = false /\ greylisted_cpu b0 = false)); [|done].
    intros b1 x b2 _ [N1 N2] (n & p & gn & gp & Hn & Hc & ->)%bandwidth_with_spec. unfold account_greylist_limit in *.
    rewrite (pr_greylist _ Hp), (pr_greylist_limit _ Hp) in *.
    assert (Hm : (if negb false && is_speculative_block c then if bool_decide (x ∈ []) then 1 else maximum_elastic_resource_multiplier
              else maximum_elastic_resource_multiplier) = maximum_elastic_resource_multiplier) by by destruct (negb false && is_speculative_block c).
    rewrite Hm in *. destruct (not_greylisted _ _ _ _ _ _ Hn Hc) as [-> ->]. cbn. by rewrite N1, N2, !andb_false_r. }
  destruct N as [N1 N2]. rewrite (foldM_ext _ (bandwidth_with c false rl)) by (intros; apply same_bandwidth). rewrite H. cbn.
  rewrite N1, N2, orb_true_r. rewrite N1, N2, orb_true_r in E. done.
Qed.

(** ** Running the actions *)

Section Transaction.
(** The same transaction, which the validator is told the time of. *)
Context (a a' : trx_arguments) (billed : Z).
Context (Hm : meta_type (trx_meta a') = meta_type (trx_meta a)) (Hpt : packed_trx (trx_meta a') = packed_trx (trx_meta a)).
Context (Running : forall i j, timer (trx_clock a' i j) = running) (He' : explicit_billed_cpu_time a' = true).

(** The producer's transaction, and the validator's *)
Record alike tc tv : Prop := {
  al_args : args tc = a /\ args tv = a';
  al_db : db tv = db tc;
  al_session : undo_session tv = undo_session tc;
  al_net : net tv = net tc;
  al_bill : bill_to_accounts tv = bill_to_accounts tc;
  al_ram : validate_ram_usage tv = validate_ram_usage tc;
  al_delay : delay tv = delay tc;
  al_input : is_input tv = is_input tc;
  al_initialized : is_initialized tv = is_initialized tc;
  al_objective : objective_duration_limit (cpu tv) = objective_duration_limit (cpu tc);
  al_billed : billed_cpu_time_us (cpu tv) = billed
}.

Lemma alike_type tc tv : alike tc tv -> type_of tv = type_of tc.
Proof. intros [[E1 E2] _ _ _ _ _ _ _ _ _ _]. unfold type_of. by rewrite E1, E2. Qed.

Lemma alike_packed tc tv : alike tc tv -> packed_of tv = packed_of tc.
Proof. intros [[E1 E2] _ _ _ _ _ _ _ _ _ _]. unfold packed_of. by rewrite E1, E2. Qed.

Lemma alike_trx tc tv : alike tc tv -> trx_of tv = trx_of tc.
Proof. intros H. unfold trx_of. by rewrite (alike_packed _ _ H). Qed.

Lemma alike_limits tc tv : alike tc tv -> resource_limits tv = resource_limits tc.
Proof. intros H. unfold resource_limits. by rewrite (al_db _ _ H). Qed.

Lemma alike_tables tc tv : alike tc tv -> tables (db tv) = tables (db tc).
Proof. intros H. by rewrite (al_db _ _ H). Qed.

(** The changes that both see *)
Lemma alike_with_db tc tv s s' : alike tc tv -> s' = s -> alike (with_db tc s) (with_db tv s').
Proof. intros [] ->. by split. Qed.
Lemma alike_with_net tc tv n n' : alike tc tv -> n' = n -> alike (with_net tc n) (with_net tv n').
Proof. intros [] ->. by split. Qed.
Lemma alike_with_ram tc tv l l' : alike tc tv -> l' = l -> alike (with_ram_accounts tc l) (with_ram_accounts tv l').
Proof. intros [] ->. by split. Qed.
Lemma alike_with_cpu tc tv p p' : alike tc tv -> objective_duration_limit p' = objective_duration_limit p ->
  billed_cpu_time_us p' = billed -> alike (with_cpu tc p) (with_cpu tv p').
Proof. intros []. by split. Qed.
Lemma alike_looked tc tv : alike tc tv -> alike (looked tc) (looked tv).
Proof. intros []. by split. Qed.

Lemma alike_add_net tc tv u tc' : alike tc tv -> add_net_usage c tc u = Ok tc' -> exists tv', add_net_usage c' tv u = Ok tv' /\ alike tc' tv'.
Proof.
  intros H [-> E]%add_net_usage_Ok. eexists. rewrite add_net_usage_Ok, no_light, (al_net _ _ H). split; [by split|]. by apply alike_with_net.
Qed.

Lemma alike_add_ram tc tv x d tc' : alike tc tv -> add_ram_usage tc x d = Ok tc' -> exists tv', add_ram_usage tv x d = Ok tv' /\ alike tc' tv'.
Proof.
  intros H E. unfold add_ram_usage in *. rewrite (alike_limits _ _ H). apply bind_Ok in E as (rl & -> & [= <-]). eexists. split; [done|].
  assert (A : alike (with_db tc (with_limits_db (db tc) rl)) (with_db tv (with_limits_db (db tv) rl))) by (apply alike_with_db; [done|by rewrite (al_db _ _ H)]).
  destruct (0 <? d); [|done]. apply alike_with_ram; [done|]. cbn. by rewrite ?(al_ram _ _ H).
Qed.

Lemma alike_set_limits tc tv x ram n p tc' : alike tc tv -> set_resource_limits tc x ram n p = Ok tc' ->
  exists tv', set_resource_limits tv x ram n p = Ok tv' /\ alike tc' tv'.
Proof.
  intros H E. unfold set_resource_limits in *. rewrite (alike_type _ _ H), (alike_limits _ _ H). inv_result.
  rewrite E4. eexists. split; [done|].
  assert (A : alike (with_db tc (with_limits_db (db tc) x0.2)) (with_db tv (with_limits_db (db tv) x0.2))) by (apply alike_with_db; [done|by rewrite (al_db _ _ H)]).
  destruct (x0.1); [|done]. apply alike_with_ram; [done|]. cbn. by rewrite ?(al_ram _ _ H).
Qed.

Lemma alike_checktime tc tv tc' : alike tc tv -> wasm_checktime c tc = Ok tc' -> exists tv', wasm_checktime c' tv = Ok tv' /\ alike tc' tv'.
Proof.
  intros H E%wasm_checktime_Ok. exists (looked tv). rewrite wasm_checktime_Ok. unfold checktime in *.
  unfold next_look at 1. rewrite (proj2 (al_args _ _ H)), Running. split; [done|].
  destruct (timer _); [|done..]. injection E as <-. by apply alike_looked.
Qed.

Lemma alike_timer tc tv : alike tc tv -> alike (resume_billing_timer (pause_billing_timer tc) 0) (resume_billing_timer (pause_billing_timer tv) 0).
Proof.
  intros H. unfold resume_billing_timer, pause_billing_timer. apply alike_looked, alike_with_cpu; [by apply alike_looked, alike_with_cpu; [|apply H..]|..].
  all: repeat match goal with |- context [if ?b then with_deadline_code _ _ _ else _] => destruct b end; apply H.
Qed.

Lemma alike_execute x : forall tc tv tc', alike tc tv -> execute c x tc = Ok tc' -> exists tv', execute c' x tv = Ok tv' /\ alike tc' tv'.
Proof.
  assert (B : forall (f f' : result transaction_context) next tc',
    (forall tc1, f = Ok tc1 -> exists tv1, f' = Ok tv1 /\ alike tc1 tv1) ->
    (forall tc tv tc', alike tc tv -> execute c next tc = Ok tc' -> exists tv', execute c' next tv = Ok tv' /\ alike tc' tv') ->
    (tc ← f; execute c next tc) = Ok tc' -> exists tv', (tv ← f'; execute c' next tv) = Ok tv' /\ alike tc' tv').
  { intros f f' next tc' Hf IH (tc1 & H1 & H)%bind_Ok. destruct (Hf _ H1) as (tv1 & -> & A). by eapply IH. }
  induction x as [|e|x IHx|account d x IHx|x IHx|x IHx|account ram n p x IHx|account x IHx|f x IHx|x IHx]; intros tc tv tc' A H; cbn [execute] in *.
  - injection H as <-. by exists tv.
  - done.
  - eapply B; [|exact IHx|exact H]. intros tc1 H1. unfold retirement_net_usage in *. rewrite (ag_config _ _ G). by eapply alike_add_net.
  - eapply B; [|exact IHx|exact H]. intros tc1. by apply alike_add_ram.
  - eapply B; [|exact IHx|exact H]. intros tc1. by apply alike_checktime.
  - eapply IHx; [|exact H]. by apply alike_timer.
  - eapply B; [|exact IHx|exact H]. intros tc1. by apply alike_set_limits.
  - rewrite (alike_limits _ _ A). apply bind_Ok in H as (rl & -> & H). eapply IHx; [|exact H]. apply alike_with_db; [done|]. by rewrite (al_db _ _ A).
  - eapply IHx; [|exact H]. rewrite (al_db _ _ A). by apply alike_with_db.
  - rewrite (al_db _ _ A). by eapply IHx.
Qed.

Lemma alike_schedule tc tv tc' : alike tc tv -> schedule_transaction c tc = Ok tc' -> exists tv', schedule_transaction c' tv = Ok tv' /\ alike tc' tv'.
Proof.
  intros H E. unfold schedule_transaction in *. cbv zeta in *.
  rewrite (alike_trx _ _ H), (alike_packed _ _ H), (al_db _ _ H), (ag_context _ _ G). apply bind_Ok in E as (tc1 & E1 & E).
  assert (S1 : exists tv1, (if delay_sec (trx_of tc) =? 0 then add_net_usage c' tv (retirement_net_usage c') else Ok tv) = Ok tv1 /\ alike tc1 tv1).
  { destruct (delay_sec (trx_of tc) =? 0); [|injection E1 as <-; by exists tv]. unfold retirement_net_usage in *. rewrite (ag_config _ _ G). by eapply alike_add_net. }
  destruct S1 as (tv1 & -> & A1). cbn [mbind result_bind]. rewrite (al_delay _ _ A1), (alike_packed _ _ A1). apply bind_Ok in E as (r & -> & E). cbn [mbind result_bind].
  eapply alike_add_ram; [|exact E]. apply alike_with_db; [done|]. by rewrite (al_db _ _ A1).
Qed.

Lemma alike_actions b tc tv tc' : alike tc tv -> run_actions c b tc = Ok tc' -> exists tv', run_actions c' b tv = Ok tv' /\ alike tc' tv'.
Proof.
  intros H E. unfold run_actions in *. rewrite no_light. apply bind_Ok in E as (tc1 & E1 & E).
  assert (S1 : exists tv1, (if skip_trx_checks c then Ok tv else execute c' (context_free b) tv) = Ok tv1 /\ alike tc1 tv1).
  { destruct (skip_trx_checks c); [injection E1 as <-; by exists tv|by eapply alike_execute]. }
  destruct S1 as (tv1 & -> & A1). cbn [mbind result_bind]. rewrite (al_delay _ _ A1).
  destruct (delay tc1 =? 0); [by eapply alike_execute|by eapply alike_schedule].
Qed.

(** ** The beginning *)

Lemma alike_init_limits tc tv : is_read_only (type_of tc) = false -> alike tc tv -> alike (init_limits c tc) (init_limits c' tv).
Proof.
  intros Hr H. unfold init_limits. cbv zeta. rewrite (alike_type _ _ H), (alike_limits _ _ H), (alike_trx _ _ H), Hr, (ag_config _ _ G), (al_net _ _ H).
  cbn [andb]. apply alike_with_cpu; [by apply alike_with_net|..].
  - cbn [negb]. rewrite !andb_true_r.
    cbn [objective_duration_limit with_objective with_block_deadline with_deadline].
    destruct (max_transaction_cpu_usage (trx_config c) <=? int64_of (get_block_cpu_limit (resource_limits tc)));
      cbn [objective_duration_limit with_objective with_block_deadline with_deadline];
      by match goal with |- context [if ?g then with_objective _ _ _ else _] => destruct g end.
  - repeat match goal with |- context [if ?g then with_objective _ _ _ else _] => destruct g end; apply H.
Qed.

Lemma alike_accounts_to_bill tc tv : alike tc tv -> accounts_to_bill c' tv = accounts_to_bill c tc.
Proof. intros H. unfold accounts_to_bill. by rewrite (ag_first _ _ G), (alike_trx _ _ H), (al_bill _ _ H). Qed.

Lemma alike_explicit tc tv : alike tc tv -> explicit_billed_cpu_time (args tv) = true.
Proof. intros H. by rewrite (proj2 (al_args _ _ H)). Qed.

Lemma alike_init_accounts tc tv r : is_read_only (type_of tc) = false -> alike tc tv ->
  billed <= Z.min int64_max (objective_duration_limit (cpu tc)) ->
  init_accounts c tc = Ok r -> exists tv', init_accounts c' tv = Ok (tv', r.2) /\ alike r.1 tv'.
Proof.
  intros Hr H Hb E. destruct r as [tc' b]. apply init_accounts_spec in E as (rl & U & P & ->); [|done].
  unfold init_accounts. rewrite (alike_type _ _ H), Hr, (alike_explicit _ _ H), (al_billed _ _ H).
  rewrite (proj2 (validate_cpu_usage_to_bill_Ok c' tv billed int64_max false)); [|intros _; split; [done|]; rewrite (al_objective _ _ H); lia].
  cbn [mbind result_bind]. cbv zeta. unfold max_bandwidth_billed_accounts_can_pay. cbn [bill_to_accounts with_accounts_billed with_db].
  change (resource_limits (with_accounts_billed tv (accounts_to_bill c' tv))) with (resource_limits tv).
  rewrite (alike_accounts_to_bill _ _ H), same_slot, (alike_limits _ _ H), U. cbn [mbind result_bind].
  change (resource_limits (with_db _ (with_limits_db _ rl))) with rl. rewrite (same_can_pay _ _ _ P). cbn [mbind result_bind].
  eexists. split; [reflexivity|]. destruct H. cbn [fst snd]. split; try done; cbn; congruence.
Qed.

Lemma alike_init_eager tc tv b : alike tc tv -> alike (init_eager_limits c tc b) (init_eager_limits c' tv b).
Proof.
  intros H. unfold init_eager_limits. cbv zeta. rewrite (alike_type _ _ H), (al_net _ _ H), (ag_config _ _ G).
  apply alike_with_cpu; [by apply alike_with_net|..];
    repeat match goal with |- context [if ?g then with_deadline _ _ _ else _] => destruct g end; apply H.
Qed.

Lemma alike_init_subjective tc tv b tc' : alike tc tv -> init_subjective_limits c tc b = Ok tc' ->
  exists tv', init_subjective_limits c' tv b = Ok tv' /\ alike tc' tv'.
Proof.
  intros H E. apply init_subjective_limits_spec in E as (p & -> & Ho & _). exists tv. unfold init_subjective_limits.
  rewrite (alike_explicit _ _ H), andb_false_r. split; [done|]. destruct H. split; try done; cbn; congruence.
Qed.

Lemma alike_init_timer tc tv u tc' : alike tc tv -> init_timer c tc u = Ok tc' -> exists tv', init_timer c' tv u = Ok tv' /\ alike tc' tv'.
Proof.
  intros H E. unfold init_timer in *. cbv zeta in *. rewrite (proj1 producer_checks) in E. rewrite (proj1 validator_checks).
  apply bind_Ok in E as (tc1 & E1 & E). apply bind_Ok in E as (tc2 & E2 & [= <-]).
  match type of E1 with (if _ then add_net_usage _ ?t _ else _) = _ => set (tc0 := t) in E1 end.
  match goal with |- context [if _ then add_net_usage _ ?t _ else _] => set (tv0 := t) end.
  assert (A0 : alike tc0 tv0).
  { apply alike_with_cpu; [by apply alike_with_net; [|rewrite (al_net _ _ H)]|..].
    - destruct (explicit_billed_cpu_time (args tv)), (explicit_billed_cpu_time (args tc)); apply H.
    - destruct (explicit_billed_cpu_time (args tv)); apply H. }
  assert (S1 : exists tv1, (if 0 <? u then add_net_usage c' tv0 u else Ok tv0) = Ok tv1 /\ alike tc1 tv1).
  { destruct (0 <? u); [by eapply alike_add_net|]. injection E1 as <-. by exists tv0. }
  destruct S1 as (tv1 & -> & A1). cbn [mbind result_bind].
  destruct (alike_checktime tc1 tv1 tc2 A1) as (tv2 & E3%wasm_checktime_Ok & A2); [by apply wasm_checktime_Ok|].
  rewrite E3. cbn [mbind result_bind]. eexists. split; [done|]. destruct A2. by split.
Qed.

Lemma alike_init tc tv u tc' : is_read_only (type_of tc) = false -> alike tc tv ->
  billed <= Z.min int64_max (objective_duration_limit (cpu (init_limits c tc))) ->
  init c tc u = Ok tc' -> exists tv', init c' tv u = Ok tv' /\ alike tc' tv'.
Proof.
  intros Hr H Hb E. unfold init in *. cbv zeta in *. rewrite (al_initialized _ _ H). destruct (negb (is_initialized tc)); [|done].
  change (with_net tc _) with (with_initial tc u) in E. change (with_net tv _) with (with_initial tv u).
  assert (A0 : alike (with_initial tc u) (with_initial tv u)) by (apply alike_with_net; [done|by rewrite (al_net _ _ H)]).
  pose proof (alike_init_limits (with_initial tc u) (with_initial tv u) Hr A0) as A1. destruct (init_limits_begun c tc u) as [(n & p & El) _ _ _ Lo _ _].
  apply bind_Ok in E as (r & E1 & E). apply bind_Ok in E as (tc2 & E2 & E).
  destruct (fun K => alike_init_accounts _ _ r K A1) as (tv1 & F1 & B1); [by rewrite El|by rewrite Lo|done|].
  rewrite F1. cbn [mbind result_bind fst snd].
  destruct (alike_init_subjective _ _ r.2 tc2 (alike_init_eager _ _ r.2 B1) E2) as (tv2 & F2 & B2). rewrite F2. cbn [mbind result_bind].
  by eapply alike_init_timer.
Qed.

(** The producer checks the lists of actors; the validator does not. *)
Lemma alike_authorization tc tv enforce l l' auth l1 : alike tc tv -> validate_authorization tc l enforce auth = Ok l1 ->
  validate_authorization tv l' false auth = Ok l'.
Proof.
  intros H E. unfold validate_authorization in *. rewrite (alike_tables _ _ H).
  destruct (bool_decide (is_Some (accounts _ !! _))); [|done]. apply bind_Ok in E as (p & -> & E). cbn. by destruct (bool_decide (is_Some p)).
Qed.

Lemma alike_action tc tv enforce acc acc' act acc1 : alike tc tv -> acc'.1 = acc.1 -> validate_action tc enforce acc act = Ok acc1 ->
  exists acc1', validate_action tv false acc' act = Ok acc1' /\ acc1'.1 = acc1.1.
Proof.
  intros H R E. unfold validate_action in *. rewrite (alike_tables _ _ H), (alike_type _ _ H), R.
  destruct (bool_decide (is_Some (accounts _ !! _))); [|done]. destruct (negb _ || _); [|done].
  apply bind_Ok in E as (l & E & [= <-]).
  destruct (fun K => foldM_simulates (fun _ _ => True) _ (fun l auth => validate_authorization tv l false auth) _ K _ acc'.2 _ Logic.I E)
    as (l' & -> & _); [|by eexists].
  intros l1 l2 auth l3 _ V. exists l2. split; [|done]. by eapply alike_authorization.
Qed.

Lemma alike_referenced tc tv t enforce : alike tc tv -> validate_referenced_accounts c tc t enforce = Ok () ->
  validate_referenced_accounts c' tv t false = Ok ().
Proof.
  intros H E. unfold validate_referenced_accounts in *. rewrite no_light, (alike_tables _ _ H), (alike_type _ _ H).
  apply bind_Ok in E as ([] & -> & E). cbn [mbind result_bind]. apply bind_Ok in E as (r & F & E).
  destruct (fun K => foldM_simulates (fun r r' : bool * list account_name => r'.1 = r.1) _ (validate_action tv false) _ K _ (false, []) _ eq_refl F)
    as (r' & -> & Er).
  - intros acc acc' act acc1. by apply alike_action.
  - cbn [mbind result_bind]. rewrite Er. by destruct (r.1 || _).
Qed.

(** ** The end *)

Lemma alike_use_permissions tc tv tc' : alike tc tv -> (if is_input tc then update_permission_usages c tc else Ok tc) = Ok tc' ->
  exists tv', (if is_input tv then update_permission_usages c' tv else Ok tv) = Ok tv' /\ alike tc' tv'.
Proof.
  intros H E. rewrite (al_input _ _ H). destruct (is_input tc); [|injection E as <-; by exists tv].
  unfold update_permission_usages, use_permissions in *. rewrite (alike_tables _ _ H), (alike_trx _ _ H), (ag_context _ _ G).
  apply bind_Ok in E as (d & -> & [= <-]). eexists. split; [done|]. apply alike_with_db; [done|]. by rewrite (al_db _ _ H).
Qed.

Lemma alike_final_limits tc tv b : alike tc tv -> alike (final_limits tc b) (final_limits tv b).
Proof.
  intros H. unfold final_limits. cbv zeta. rewrite (al_net _ _ H). apply alike_with_cpu; [by apply alike_with_net|..].
  - cbn [objective_duration_limit with_cpu_greylist]. rewrite (al_objective _ _ H).
    destruct (account_cpu_limit b <=? objective_duration_limit (cpu tc)); [done|apply H].
  - destruct (account_cpu_limit b <=? _); apply H.
Qed.

Lemma alike_billed_time tc tv t t' : alike tc tv -> alike (update_billed_cpu_time c tc t) (update_billed_cpu_time c' tv t').
Proof.
  intros H. unfold update_billed_cpu_time. rewrite (alike_explicit _ _ H). destruct (explicit_billed_cpu_time (args tc)); [exact H|]. destruct H. by split.
Qed.

Lemma alike_finalize_checks tc tv tc' : alike tc tv -> time_billed c tc = billed -> finalize_checks c tc = Ok tc' ->
  exists tv', finalize_checks c' tv = Ok tv' /\ alike tc' tv'.
Proof.
  intros H Hb E. destruct (finalize_checks_spec _ _ _ E) as (d & bw & [_ _ _ _ _ Km Kc _ _ Kb]). rewrite Hb in *.
  pose proof (proj1 producer_checks) as Hk. specialize (Km Hk). specialize (Kc Hk).
  unfold finalize_checks in *. apply bind_Ok in E as (tc1 & E1 & E). destruct (alike_use_permissions _ _ _ H E1) as (tv1 & -> & A1).
  cbn [mbind result_bind]. apply bind_Ok in E as ([] & E2 & E). rewrite (al_ram _ _ A1), (alike_limits _ _ A1), E2. cbn [mbind result_bind].
  apply bind_Ok in E as (b & E3 & E). unfold max_bandwidth_billed_accounts_can_pay in *.
  rewrite (al_bill _ _ A1), (alike_limits _ _ A1), (same_can_pay _ _ _ E3). cbn [mbind result_bind].
  pose proof (alike_final_limits _ _ b A1) as A2. apply bind_Ok in E as ([] & E4 & E).
  rewrite check_net_usage_Ok in E4. rewrite (proj2 (check_net_usage_Ok c' (final_limits tv1 b))); [|rewrite (al_net _ _ A2), no_light; exact E4].
  cbn [mbind result_bind]. apply bind_Ok in E as ([] & E5 & [= <-]).
  pose proof (alike_billed_time _ _ (now (next_look (final_limits tc1 b))) (now (next_look (final_limits tv1 b))) (alike_looked _ _ A2)) as A3.
  rewrite (al_billed _ _ A3), (proj2 (validate_cpu_usage_to_bill_Ok _ _ _ _ _)).
  - eexists. split; [done|exact A3].
  - intros _. rewrite (ag_config _ _ G), (al_objective _ _ A3). split; [done|]. intros Hpos.
    rewrite Kb in E5. rewrite validate_cpu_usage_to_bill_Ok in E5. by apply E5.
Qed.

Lemma alike_bill tc tv tc' : alike tc tv -> billed_cpu_time_us (cpu tc) = billed -> bill_transaction c tc = Ok tc' ->
  exists tv', bill_transaction c' tv = Ok tv' /\ alike tc' tv'.
Proof.
  intros H Hb E. unfold bill_transaction in *. rewrite (alike_limits _ _ H), (al_bill _ _ H), (al_net _ _ H), (al_billed _ _ H), same_slot, <- Hb.
  apply bind_Ok in E as (rl & -> & [= <-]). eexists. split; [done|]. apply alike_with_db; [done|]. by rewrite (al_db _ _ H).
Qed.

Lemma alike_finalize tc tv tc' : is_read_only (type_of tc) = false -> alike tc tv -> time_billed c tc = billed -> finalize c tc = Ok tc' ->
  exists tv', finalize c' tv = Ok tv' /\ alike tc' tv'.
Proof.
  intros Hr H Hb E. unfold finalize in *. rewrite (al_initialized _ _ H), (alike_type _ _ H). destruct (is_initialized tc); [|done]. rewrite Hr in *.
  apply bind_Ok in E as (tc1 & E1 & E). destruct (alike_finalize_checks _ _ _ H Hb E1) as (tv1 & -> & A1). cbn [mbind result_bind].
  destruct (finalize_checks_spec _ _ _ E1) as (d & bw & K). eapply alike_bill; [exact A1| |exact E]. by rewrite (ck_billed _ _ _ _ _ K).
Qed.

(** ** Input transactions *)

Lemma alike_input tc tv u p tc' : is_transient (type_of tc) = false -> alike tc tv ->
  billed <= Z.min int64_max (objective_duration_limit (cpu (init_limits c (with_input tc)))) ->
  init_for_input_trx c tc u p = Ok tc' -> exists tv', init_for_input_trx c' tv u p = Ok tv' /\ alike tc' tv'.
Proof.
  intros Hr H Hb E. assert (Hro : is_read_only (type_of tc) = false) by by destruct (type_of tc).
  assert (A : alike (with_input tc) (with_input tv)) by (destruct H; by split).
  unfold init_for_input_trx in *. cbv zeta in *. rewrite (alike_trx _ _ H), (alike_type _ _ H), (ag_deferred _ _ G), no_light.
  match type of E with (if ?g then _ else _) = _ => destruct g; [|done] end.
  destruct (0 <? size_of (transaction_extensions (trx_of tc))); [done|].
  rewrite (alike_type _ _ A). change (type_of (with_input tc)) with (type_of tc) in *. rewrite Hro in *. cbn [negb] in *.
  rewrite (proj1 producer_checks) in *. cbn [negb] in *.
  apply bind_Ok in E as ([] & E1 & E). apply bind_Ok in E1 as ([] & E1 & E2). apply bind_Ok in E1 as ([] & E0 & E1).
  assert (F0 : validate_expiration c' (trx_of tc) = Ok ()).
  { unfold validate_expiration in *. by rewrite (ag_config _ _ G), (ag_context _ _ G). }
  rewrite F0. cbn [mbind result_bind]. rewrite (al_db _ _ A), E1. cbn [mbind result_bind].
  assert (F2 : enforce_whiteblacklist (args (with_input tv)) && is_speculative_block c' = false).
  { unfold is_speculative_block. rewrite (va_status _ Hv). by rewrite andb_false_r. }
  rewrite F2, (alike_referenced _ _ _ _ A E2). cbn [mbind result_bind].
  apply bind_Ok in E as (tc1 & E3 & E).
  assert (Eu : initial_net_usage c' (trx_of tc) u p = initial_net_usage c (trx_of tc) u p) by (unfold initial_net_usage, discounted_size; by rewrite (ag_config _ _ G)).
  rewrite Eu. destruct (alike_init (with_input tc) (with_input tv) _ _ Hro A Hb E3) as (tv1 & -> & A1). cbn [mbind result_bind].
  rewrite (alike_type _ _ A1), (alike_packed _ _ A1). destruct (negb (is_read_only (type_of tc1))); [|injection E as <-; by exists tv1].
  unfold record_transaction in *. rewrite (al_db _ _ A1). destruct (bool_decide _); [|done]. injection E as <-. eexists. split; [done|]. by apply alike_with_db.
Qed.
End Transaction.

(** The arguments of a producer and of a validator, who is told the processor time
    that was billed *)
Section Step.
Context (m : transaction_metadata) (arg : push_arguments) (s : chain_state) (b : behaviour) (now : Z) (clock : nat -> nat -> look).
Context (Hm : meta_type m = input) (Harg : push_explicit_billed_cpu_time arg = false) (Running : forall i j, timer (clock i j) = running).
Context (C : config_ok (trx_config c)) (Hs : sizes_ok (packed_trx m)) (L : limits_run (limits_db (tables s))).

Definition validator_metadata : transaction_metadata := TransactionMetadata (packed_trx m) 0 (recovered_keys m) input.

Abbreviation apply_args billed := (apply_arguments billed now clock).
Abbreviation ap := (args (push_context c m arg s)).
Abbreviation av billed := (args (push_context c' validator_metadata (apply_args billed) s)).
Abbreviation both billed := (alike ap (av billed) billed).

Lemma alike_admit tc billed : billed <= Z.min int64_max (objective_duration_limit (cpu (init_limits c (with_input (push_context c m arg s))))) ->
  admit_transaction c m arg s = Ok tc ->
  exists tv, admit_transaction c' validator_metadata (apply_args billed) s = Ok tv /\ both billed tc tv.
Proof.
  intros Hb E. unfold admit_transaction in *. cbv zeta in *. cbn [validator_metadata packed_trx meta_type recovered_keys] in *. rewrite Hm in *. cbn [is_implicit] in *.
  apply bind_Ok in E as (tc1 & E1 & E). apply bind_Ok in E1 as (u & -> & E1). apply bind_Ok in E1 as (p & -> & E1). cbn [mbind result_bind].
  assert (A0 : both billed (push_context c m arg s) (push_context c' validator_metadata (apply_args billed) s)).
  { split; try done. cbn. by rewrite Hm, same_sessions. }
  assert (Ht : is_transient (type_of (push_context c m arg s)) = false) by (unfold type_of; cbn; by rewrite Hm).
  destruct (alike_input ap (av billed) billed (eq_sym Hm) eq_refl (fun i j => Running i j) eq_refl _ _ u p tc1 Ht A0 Hb E1) as (tv1 & -> & A1).
  cbn [mbind result_bind]. rewrite (proj2 producer_checks) in E. rewrite (proj2 validator_checks). cbn [negb andb is_read_only] in *.
  rewrite (ag_context _ _ G). change (tables (db (with_delay ?x _))) with (tables (db x)) in *. rewrite (al_db _ _ _ _ _ A1).
  apply bind_Ok in E as ([] & E & [= <-]). change (delay (with_delay ?x ?d)) with d in *. rewrite E. cbn [mbind result_bind]. eexists. split; [done|].
  destruct A1. by split.
Qed.

(** What is billed is within the limits that the transaction began with. *)
Lemma producer_billed tcf : run_transaction c b m arg s = Ok tcf -> exists tc tc1,
  admit_transaction c m arg s = Ok tc /\ run_actions c b tc = Ok tc1 /\ finalize c tc1 = Ok tcf /\
  time_billed c tc1 = billed_cpu_time_us (cpu tcf) /\ is_read_only (type_of tc1) = false /\
  ended c m arg s tc1 tcf (trace_net_usage (net tcf)) (billed_cpu_time_us (cpu tcf)) /\
  billed_cpu_time_us (cpu tcf) <= Z.min int64_max (objective_duration_limit (cpu (init_limits c (with_input (push_context c m arg s))))).
Proof.
  intros E. unfold run_transaction in E. apply bind_Ok in E as (tc & A & E). apply bind_Ok in E as (tc1 & X & F). exists tc, tc1.
  pose proof (proj1 producer_checks) as Hk. assert (Hi : is_implicit (meta_type m) = false) by by rewrite Hm.
  assert (Hr : is_read_only (meta_type m) = false) by by rewrite Hm.
  pose proof (admitted_once c b m arg s tc tc1 Hr Hi (or_introl Harg) A X) as Once.
  destruct (run_ready c b m arg s tc tc1 Hk C Hs Hi Hr L A X Once) as [rl0 R].
  assert (Hr1 : is_read_only (type_of tc1) = false) by by rewrite (rd_type _ _ _ _ _ _ R).
  destruct (finalize_spec _ _ _ Hr1 F) as (d & bw & tc2 & FC & K & B).
  pose proof (checked_within c m arg s tc1 Hk C Hr Once rl0 d bw tc2 R K) as [_ Wc _ _ [_ Wv]].
  destruct (transaction_ended c b m arg s tc tc1 tcf Hk C Hs Hi Hr L A X Once F) as (n & p & N).
  unfold bill_transaction in B. apply bind_Ok in B as (rl & _ & [= <-]). pose proof N as [<- <- _ _ _ _ _ _].
  split_and!; try done.
  - apply exec_cases in X as [[X _]|(_ & _ & X)]; [done|]. rewrite Once in X. by destruct (attempt tc).
  - exact (eq_sym (ck_billed _ _ _ _ _ K)).
  - cbn in *. unfold u32, int64_max in *. lia.
Qed.

Lemma validator_runs tcf : run_transaction c b m arg s = Ok tcf -> exists tvf,
  run_transaction c' b validator_metadata (apply_args (billed_cpu_time_us (cpu tcf))) s = Ok tvf /\ both (billed_cpu_time_us (cpu tcf)) tcf tvf.
Proof.
  intros (tc & tc1 & A & X & F & Hb & Hr1 & _ & Hl)%producer_billed.
  destruct (alike_admit _ _ Hl A) as (tv & Av & A1).
  destruct (alike_actions ap (av (billed_cpu_time_us (cpu tcf))) _ (eq_sym Hm) eq_refl (fun i j => Running i j) b _ _ _ A1 X) as (tv1 & Xv & A2).
  destruct (alike_finalize ap (av (billed_cpu_time_us (cpu tcf))) _ (eq_sym Hm) eq_refl eq_refl _ _ _ Hr1 A2 Hb F) as (tvf & Fv & A3).
  exists tvf. split; [|done]. unfold run_transaction. rewrite Av. cbn [mbind result_bind]. rewrite (run_exec _ _ _ tv1); [done| |done].
  rewrite (al_initialized _ _ _ _ _ A1). destruct (admit_spec c m arg s tc) as (u & p & rl & bw & tcb & D); [by rewrite Hm..|done|].
  rewrite (ad_result _ _ _ _ _ _ _ _ _ _ D). apply (bg_initialized _ _ _ _ _ _ (ad_init _ _ _ _ _ _ _ _ _ _ D)).
Qed.

(** Its receipt, and what both have then *)
Lemma accepted_step receipts t p' : push_transaction c b m arg (s, receipts) = Ok (t, p') -> trace_except t = None ->
  exists tcf, run_transaction c b m arg s = Ok tcf /\ push_result c m tcf (s, receipts) = Ok (t, p').
Proof.
  intros H Hx. unfold push_transaction in H. destruct (negb _); [|done].
  destruct (run_transaction c b m arg (s, receipts).1 ≫= _) as [r|e] eqn:E.
  - injection H as ->. apply bind_Ok in E as (tcf & E & P). by exists tcf.
  - destruct (is_bad_block_exception e); [done|]. injection H as <- <-. done.
Qed.

Lemma push_result_input cc mm tc p : meta_type mm = input -> pending_block_status cc <> ephemeral ->
  push_result cc mm tc p = (r ← push_receipt p.2 (packed_trx mm) (if delay tc =? 0 then executed else delayed) (billed_cpu_time_us (cpu tc)) (trace_net_usage (net tc));
    Ok (TransactionTrace (Some r.1) None, (db tc, r.2))).
Proof. intros E N. unfold push_result. rewrite E, (bool_decide_eq_false_2 _ N), andb_false_r. done. Qed.

Lemma not_ephemeral : pending_block_status c <> ephemeral /\ pending_block_status c' <> ephemeral.
Proof. by rewrite (pr_status _ Hp), (va_status _ Hv). Qed.

(** A validator applies what the producer pushed. *)
Lemma validator_applies behaves recover_keys receipts t p' nows clocks :
  b = behaves (packed_trx m) -> recovered_keys m = recover_keys (packed_trx m) ->
  nows (length receipts) = now -> clocks (length receipts) = clock ->
  push_transaction c b m arg (s, receipts) = Ok (t, p') -> trace_except t = None ->
  limits_run (limits_db (tables p'.1)) /\ exists r, p'.2 = receipts ++ [r] /\
    apply_transaction behaves recover_keys c' nows clocks (s, receipts) r = Ok p'.
Proof.
  intros Hb Hk Hn Hc H Hx. destruct (accepted_step _ _ _ H Hx) as (tcf & E & P).
  destruct (producer_billed _ E) as (tc & tc1 & _ & _ & _ & _ & _ & N & _). destruct (validator_runs _ E) as (tvf & Ev & A).
  destruct N as [_ _ _ _ (W8 & Wn & Wc) _ _ (rl & Lr & _ & Hbill)].
  rewrite push_result_input in P by (apply not_ephemeral || done). unfold push_receipt in P. apply bind_Ok in P as ([h rs] & P & [= <- <-]).
  cbv zeta in P. destruct (trace_net_usage (net tcf) / 8 * 8 =? trace_net_usage (net tcf)) eqn:E0; [injection P as <- <-|done].
  split; [cbn; eapply run_bill; [exact Lr|..|exact Hbill]; unfold u32, u64 in *; lia|].
  eexists. split; [reflexivity|]. unfold apply_transaction, push_transaction. cbn [receipt_trx receipt_header cpu_usage_us fst snd].
  assert (Eb : wrap32 (billed_cpu_time_us (cpu tcf)) = billed_cpu_time_us (cpu tcf)) by (unfold wrap32, u32 in *; by apply Z.mod_small).
  rewrite Eb, <- Hb, <- Hk. cbn [push_block_deadline apply_arguments]. change (negb (time_maximum =? 0)) with true. cbv iota.
  change (TransactionMetadata (packed_trx m) 0 (recovered_keys m) input) with validator_metadata. rewrite Hn, Hc, Ev. cbn [mbind result_bind].
  rewrite push_result_input by (apply not_ephemeral || done). unfold push_receipt. cbn [packed_trx validator_metadata snd].
  rewrite (al_net _ _ _ _ _ A), (al_delay _ _ _ _ _ A), (al_billed _ _ _ _ _ A), (al_db _ _ _ _ _ A), E0. cbn [mbind result_bind trace_except fst snd].
  rewrite last_snoc, Eb. unfold size_of. rewrite length_app. cbn [length get_row mbind result_bind receipt_header].
  pass_with ltac:(apply Z.ltb_lt; lia). pass_with ltac:(apply Z.eqb_eq; lia). by rewrite bool_decide_eq_true_2.
Qed.
End Step.

(** A dry run leaves nothing. *)
Lemma dry_run_leaves b m arg p t p' : config_ok (trx_config c) -> sizes_ok (packed_trx m) -> limits_run (limits_db (tables p.1)) ->
  meta_type m = dry_run -> push_explicit_billed_cpu_time arg = false -> push_transaction c b m arg p = Ok (t, p') -> p' = p.
Proof.
  intros C Hs L Hm Harg H. unfold push_transaction in H. destruct (negb _); [|done].
  destruct (run_transaction c b m arg p.1 ≫= _) as [r|e] eqn:E; [|by destruct (is_bad_block_exception e); simplify_eq]. injection H as ->.
  apply bind_Ok in E as (tcf & E & P). unfold run_transaction in E. apply bind_Ok in E as (tc & A & E). apply bind_Ok in E as (tc1 & X & F).
  assert (Hi : is_implicit (meta_type m) = false) by by rewrite Hm. assert (Hr : is_read_only (meta_type m) = false) by by rewrite Hm.
  pose proof (admitted_once c b m arg p.1 tc tc1 Hr Hi (or_introl Harg) A X) as Once.
  destruct (transaction_ended c b m arg p.1 tc tc1 tcf (proj1 producer_checks) C Hs Hi Hr L A X Once F) as (n & q & [_ _ _ U _ _ _ _]).
  unfold push_result in P. rewrite Hm in P. cbn [is_transient] in P. apply bind_Ok in P as (r & _ & [= _ <-]). rewrite U, Hm.
  unfold start_session, skip_db_sessions. rewrite (pr_status _ Hp). by destruct p.
Qed.
End Validation.

(** ** Blocks *)

Section Blocks.
Context (behaves : packed_transaction -> behaviour) (recover_keys : packed_transaction -> list public_key_type).

(** What a producer has after it pushed transactions, and tried others *)
Inductive built (c : controller) (p0 : pending) : pending -> Prop :=
| built_start : built c p0 p0
| built_push m arg t p p' : built c p0 p -> meta_type m = input \/ meta_type m = dry_run -> sizes_ok (packed_trx m) ->
    recovered_keys m = recover_keys (packed_trx m) -> push_explicit_billed_cpu_time arg = false ->
    push_transaction c (behaves (packed_trx m)) m arg p = Ok (t, p') -> built c p0 p'.

Lemma failed_leaves c b m arg p t p' e : push_transaction c b m arg p = Ok (t, p') -> trace_except t = Some e -> p' = p.
Proof.
  intros H Ht. unfold push_transaction in H. destruct (negb _); [|done]. destruct (run_transaction c b m arg p.1 ≫= _) as [r|e'] eqn:E.
  - injection H as ->. apply bind_Ok in E as (tc & _ & P). unfold push_result in P. apply bind_Ok in P as (r & _ & [= <- _]). done.
  - destruct (is_bad_block_exception e'); [done|]. by injection H as _ <-.
Qed.

(** C6: A block that a producer builds is valid: full validation of its
    transactions from the same state, each billed the time that its receipt says,
    succeeds, and leaves the same database and the same receipts -- whatever input
    transactions and dry runs the producer tried before, whether they failed or
    not.  The producer has an empty greylist, and a greylist limit that is the
    greatest multiplier, so that it holds no account to less than the chain does;
    it and the validator have the same configuration, whose least CPU usage of a
    transaction is positive; the resource limits they start from are ones that
    [limits_run] leads to; and whatever the clock of
    the validator shows, its timers never run out, and the compilation of a
    contract never interrupts a transaction there.  (After such an interruption the
    transaction starts again without having been recorded, so the validator would
    end with another database: see [Transactions.uninterrupted].) *)
Theorem produced_blocks_are_valid c c' s0 s receipts nows clocks :
  agree c c' -> producing c -> validating c' -> config_ok (trx_config c) -> limits_run (limits_db (tables s0)) ->
  (forall k i j, timer (clocks k i j) = running) ->
  built c (s0, []) (s, receipts) ->
  apply_transactions behaves recover_keys c' nows clocks s0 receipts = Ok (s, receipts).
Proof.
  intros G Hp Hv C L Running B.
  enough (limits_run (limits_db (tables (s, receipts).1)) /\ apply_transactions behaves recover_keys c' nows clocks s0 (s, receipts).2 = Ok (s, receipts))
    as [_ H] by exact H.
  induction B as [|m arg t [s1 rs1] p' B [L1 IH] Hm Hs Hk Harg H]; [done|]. destruct (trace_except t) as [e|] eqn:Et.
  { by rewrite (failed_leaves _ _ _ _ _ _ _ _ H Et). }
  destruct Hm as [Hm|Hm]; [|by rewrite (dry_run_leaves c Hp _ _ _ _ _ _ C Hs L1 Hm Harg H)].
  destruct (validator_applies c c' G Hp Hv m arg s1 (behaves (packed_trx m)) (nows (length rs1)) (clocks (length rs1)) Hm Harg (Running _) C Hs L1
    behaves recover_keys rs1 t p' nows clocks eq_refl Hk eq_refl eq_refl H Et) as (L' & r & Hr & Ha).
  split; [done|]. rewrite Hr. unfold apply_transactions in *. cbn [snd] in IH. rewrite foldM_app, IH. cbn [mbind result_bind foldM]. by rewrite Ha.
Qed.
End Blocks.
