(* ===== verification/TransactionExamples.v ===== *)
(** * Transactions on a chain with one account

    No code of its own: the theorems of [Transactions] and [BlockValidation] at
    transactions of the account of [Authorizing], and what happens when the
    compilation of a contract interrupts one of them. *)

From Stdlib Require Import Strings.String.
From S2P Require Import Prelude ChainTypes OrderedDiff Policies Raw Names ResourceLimits Authority Authorization Permissions Authorizing TransactionContext TransactionRun TransactionLimits Transactions BlockValidation.
Open Scope Z_scope.

Definition alice : account_name := Eval vm_compute in name_of "alice".

Definition alice_limits_1 := Eval vm_compute in from_ok initialize_database (initialize_account initialize_database alice).
Definition alice_limits_2 := Eval vm_compute in (from_ok (false, alice_limits_1) (ResourceLimits.set_account_limits alice_limits_1 alice 5000 10 20)).2.
Definition alice_limits := Eval vm_compute in from_ok alice_limits_2 (assemble_block_limits alice_limits_2 example_chain 2).

Lemma alice_limits_run : limits_run alice_limits.
Proof.
  apply (run_block alice_limits_2 example_chain 2); [|split; split; by vm_compute|by vm_compute|by vm_compute].
  apply (run_set alice_limits_1 alice 5000 10 20 true); [|by vm_compute..].
  by apply (run_account initialize_database alice); [apply run_init|vm_compute].
Qed.

(** In November of 2023 *)
Definition block_time : Z := 1700000000 * 1000000.
Definition block_context : context := Context false [] block_time 3 (45 * 24 * 3600) 6 true true [].
Definition block_config : transaction_config := TransactionConfig 524288 12 500 20 100 150000 100 3600.
Definition node (status : block_status) : controller :=
  Controller status false false false false false false true false [] maximum_elastic_resource_multiplier [] [] None 1000 false true block_config block_context.

Definition reference_block : block_id_type := Sha256 (endian_reverse_u32 7) 99 0 0.
Definition start_state : chain_state := ChainState (with_resource_limits example_db alice_limits) ∅ {[7 := reference_block]}.

Definition example_transaction (n : Z) : packed_transaction :=
  PackedTransaction (Transaction (1700000030 + n) 7 99 0 0 0 [] [transfer] []) (Sha256 0 0 0 n) 120 66 1 110.
(** The contract keeps 100 bytes more for alice. *)
Definition example_behaviour : behaviour := Behaviour finished (checks_time (uses_ram alice 100 (checks_time finished))).
Definition example_metadata (n : Z) (t : trx_type) : transaction_metadata :=
  TransactionMetadata (example_transaction n) 200 [example_key 3] t.
Definition steady (attempt i : nat) : look := Look (block_time + 400 + 100 * Z.of_nat i) running false.
Definition producer_arguments : push_arguments := PushArguments (block_time + 400000) 30000 0 false 0 (block_time + 300) steady.
Definition validator_arguments (clock : nat -> nat -> look) : push_arguments := apply_arguments 700 (block_time + 900000) clock.

(** ** A block *)

Definition pushed (p : pending) (n : Z) (t : trx_type) : pending :=
  match push_transaction (node incomplete) example_behaviour (example_metadata n t) producer_arguments p with Ok r => r.2 | Throw _ => p end.

(** A transaction, a dry run of another, the first one once more, which fails, and
    a third *)
Definition block_1 : pending := pushed (start_state, []) 1 input.
Definition block_2 : pending := pushed block_1 2 dry_run.
Definition block_3 : pending := pushed block_2 1 input.
Definition block_4 : pending := pushed block_3 3 input.

Abbreviation same_behaviour := (fun _ : packed_transaction => example_behaviour).
Abbreviation same_keys := (fun _ : packed_transaction => [example_key 3]).

Lemma pushed_trace p n t : is_ok (push_transaction (node incomplete) example_behaviour (example_metadata n t) producer_arguments p) = true ->
  exists tr, push_transaction (node incomplete) example_behaviour (example_metadata n t) producer_arguments p = Ok (tr, pushed p n t).
Proof. intros H. unfold pushed. destruct (push_transaction _ _ _ _ p) as [[tr p']|]; [by exists tr|done]. Qed.

Lemma example_sizes n t : sizes_ok (packed_trx (example_metadata n t)).
Proof. by split_and!; vm_compute. Qed.

Lemma block_config_ok : config_ok block_config.
Proof. by split; vm_compute. Qed.

Lemma built_pushed p n t : t = input \/ t = dry_run ->
  is_ok (push_transaction (node incomplete) example_behaviour (example_metadata n t) producer_arguments p) = true ->
  built same_behaviour same_keys (node incomplete) (start_state, []) p ->
  built same_behaviour same_keys (node incomplete) (start_state, []) (pushed p n t).
Proof.
  intros Ht [tr H]%pushed_trace B.
  exact (built_push same_behaviour same_keys (node incomplete) _ (example_metadata n t) producer_arguments tr p _ B Ht (example_sizes n t) eq_refl eq_refl H).
Qed.

Lemma example_built : built same_behaviour same_keys (node incomplete) (start_state, []) (block_4.1, block_4.2).
Proof.
  rewrite <- surjective_pairing. do 4 (apply built_pushed; [by auto|by vm_compute|]). constructor.
Qed.

Lemma produced_blocks_are_valid_witness :
  size_of block_4.2 = 2 /\
  apply_transactions same_behaviour same_keys (node complete) (fun _ => block_time + 900000) (fun _ => steady) start_state block_4.2 = Ok (block_4.1, block_4.2).
Proof.
  split; [by vm_compute|].
  apply (produced_blocks_are_valid same_behaviour same_keys (node incomplete) (node complete));
    [by split|by split|by split|exact block_config_ok|exact alice_limits_run|done|exact example_built].
Defined.

(** ** One transaction *)

Lemma accepted_transactions_are_checked_witness :
  let trx := unpacked_trx (example_transaction 1) in
  let r := TransactionReceiptHeader executed 420 21 in
  transaction_authorized (tables start_state) block_context (actions trx) [example_key 3] [] 0 [] /\
  (transactions start_state !! Sha256 0 0 0 1 = None /\ transactions block_1.1 !! Sha256 0 0 0 1 = Some 1700000031) /\
  block_time <= expiration trx * 1000000 <= block_time + 3600 * 1000000 /\
  (exists id, block_summaries start_state !! ref_block_num trx = Some id /\ verify_reference_block trx id = true) /\
  block_1.2 = [] ++ [TransactionReceipt r (example_transaction 1)] /\
  within_limits (node incomplete) start_state trx (21 * 8) 420 /\
  (exists rl, limits_run rl /\ (forall x, x ∈ [alice] -> account_pays (node incomplete) rl (21 * 8) 420 x) /\
     add_transaction_usage rl [alice] 420 (21 * 8) (pending_slot (node incomplete)) = Ok (limits_db (tables block_1.1))).
Proof.
  destruct (pushed_trace (start_state, []) 1 input) as [tr H]; [by vm_compute|].
  apply (accepted_transactions_are_checked (node incomplete) example_behaviour (example_metadata 1 input) producer_arguments (start_state, []) tr block_1
    (TransactionReceiptHeader executed 420 21)); [by vm_compute|done|exact block_config_ok|apply example_sizes|done|by left| |exact alice_limits_run|exact H|].
  - apply run_other, example_run.
  - revert H. vm_compute. by intros [= <-].
Defined.

Lemma ram_limits_are_kept_witness :
  within_ram (limits_db (tables start_state)) alice /\ within_ram (limits_db (tables block_1.1)) alice.
Proof.
  split; [by vm_compute|]. destruct (pushed_trace (start_state, []) 1 input) as [tr H]; [by vm_compute|].
  apply (ram_limits_are_kept (node incomplete) example_behaviour (example_metadata 1 input) producer_arguments (start_state, []) tr block_1);
    [exact alice_limits_run|done|exact H|by vm_compute].
Defined.

(** The states of the transaction *)
Definition no_context : transaction_context := push_context (node incomplete) (example_metadata 1 input) producer_arguments start_state.
Definition admitted_context : transaction_context :=
  from_ok no_context (admit_transaction (node incomplete) (example_metadata 1 input) producer_arguments start_state).
Definition run_context : transaction_context := from_ok no_context (exec (node incomplete) example_behaviour admitted_context).
Definition checked_context : transaction_context := from_ok no_context (finalize_checks (node incomplete) run_context).

Lemma from_ok_eq {A} (d : A) (r : result A) : is_ok r = true -> r = Ok (from_ok d r).
Proof. by destruct r. Qed.

Lemma checked_averages : forall x, x ∈ bill_to_accounts checked_context -> average_small (resource_limits checked_context) x.
Proof.
  assert (E : bill_to_accounts checked_context = [alice]) by by vm_compute. rewrite E. intros x ->%list_elem_of_singleton u Hu.
  assert (B : match usages (resource_limits checked_context) !! alice with
              | Some u => (value_ex (net_usage u) <=? 10 ^ 18) && (value_ex (cpu_usage u) <=? 10 ^ 18) | None => true end = true) by by vm_compute.
  rewrite Hu in B. lia.
Qed.

Lemma billing_never_fails_witness : exists tc3, finalize (node incomplete) run_context = Ok tc3.
Proof.
  apply (billing_never_fails (node incomplete) example_behaviour (example_metadata 1 input) producer_arguments start_state admitted_context run_context checked_context);
    [by vm_compute|exact block_config_ok|apply example_sizes|done|done|by left|exact alice_limits_run|apply from_ok_eq; by vm_compute..|].
  exact checked_averages.
Defined.

(** What does not pass the checks: more memory than the limit, a transaction that
    is there already, one that has expired, one whose key is missing, and a header
    that allows less than the transaction takes *)
Definition pushed_except (b : behaviour) (m : transaction_metadata) (p : pending) : option exn :=
  match push_transaction (node incomplete) b m producer_arguments p with Ok r => trace_except r.1 | Throw e => Some e end.
Definition with_header (f : transaction -> transaction) (t : packed_transaction) : packed_transaction :=
  PackedTransaction (f (unpacked_trx t)) (trx_id t) (packed_trx_size t) (signatures_pack_size t) (packed_context_free_data_size t) (trx_pack_size t).
Definition expired_at (s : Z) (t : transaction) : transaction := Transaction s 7 99 0 0 0 [] (actions t) [].
Definition limited (words ms : Z) (t : transaction) : transaction := Transaction (expiration t) 7 99 words ms 0 [] (actions t) [].
Definition with_packed (m : transaction_metadata) (f : transaction -> transaction) : transaction_metadata :=
  TransactionMetadata (with_header f (packed_trx m)) 200 (recovered_keys m) (meta_type m).

Example example_failures :
  pushed_except (Behaviour finished (uses_ram alice 5001 finished)) (example_metadata 1 input) (start_state, []) = Some ram_usage_exceeded /\
  pushed_except example_behaviour (example_metadata 1 input) block_1 = Some tx_duplicate /\
  pushed_except example_behaviour (with_packed (example_metadata 1 input) (expired_at 1699999999)) (start_state, []) = Some expired_tx_exception /\
  pushed_except example_behaviour (TransactionMetadata (example_transaction 1) 200 [example_key 2] input) (start_state, []) = Some unsatisfied_authorization /\
  pushed_except example_behaviour (with_packed (example_metadata 1 input) (limited 20 0)) (start_state, []) = Some tx_net_usage_exceeded /\
  pushed_except example_behaviour (with_packed (example_metadata 1 input) (limited 21 1)) (start_state, []) = None.
Proof. by vm_compute. Qed.

(** ** Interruptions *)

(** The compilation of the contract interrupts the first attempt of a validator. *)
Definition interrupted_once (attempt i : nat) : look :=
  if (attempt =? 0)%nat && (i =? 1)%nat then Look (block_time + 900000) interrupted true else steady attempt i.
Definition applied (clock : nat -> nat -> look) : option (option transaction_receipt_header * list transaction_receipt * option Z) :=
  match push_transaction (node complete) example_behaviour (example_metadata 1 input) (validator_arguments clock) (start_state, []) with
  | Ok (t, p) => Some (trace_receipt t, p.2, transactions p.1 !! Sha256 0 0 0 1)
  | Throw _ => None
  end.

(** [reset] undoes the session that holds what [init_for_input_trx] recorded, and
    nothing records it again: the interrupted transaction has its receipt, but is
    not among those that a block may not hold again. *)
Example interrupted_transaction_is_forgotten :
  let r := TransactionReceiptHeader executed 700 21 in let receipts := [TransactionReceipt r (example_transaction 1)] in
  applied steady = Some (Some r, receipts, Some 1700000031) /\ applied interrupted_once = Some (Some r, receipts, None).
Proof. by vm_compute. Qed.
